(* ===== verification/_CoqProject ===== *)
-Q . S2P
Prelude.v
GoStrings.v
TokenPath.v
TokenGrant.v
GoTime.v
GoFloat.v
Base64.v
TokenClaims.v
TokenKey.v
Token.v
TokenExample.v
GroupRing.v
GroupConc.v
RootHolds.v
Usage.v
GoURL.v
AuthVerifier.v
AuthExample.v
AdmitSession.v
AdmitExample.v
Lease.v
LeaseExample.v
GoBytes.v
Amf0.v
Amf3.v
Amf3RoundTrip.v
Rtmp.v
RtmpStream.v
RtmpHandshake.v
Drops.v
Notify.v
Egress.v
Routes.v
Election.v
GoText.v
GoPath.v
Rtsp.v
Frames.v
Flv.v
Ingest.v
Rtp.v
RtspServer.v
RtspClient.v
Cmaf.v
Hls.v
HlsFeed.v
HlsGate.v
HlsManifest.v
HlsMux.v
Funnel.v
RelayCred.v
PeerTrust.v
Sessions.v
Distributor.v
Tracks.v
Settings.v
GoNetip.v
GeoPick.v
GeoServer.v
Update.v
GoQuery.v
Upstream.v
TlsSplit.v
Stats.v
OpenTimeout.v
HlsEgress.v
HlsCatalog.v
