(* ===== verification/Prelude.v ===== *)
(** * Verification of qumo

    qumo is a media relay (Media over QUIC) written in Go. An application signs
    capability tokens with its own Ed25519 key; clients connect to a relay with
    them, or connect with none and present them later as tickets; the relay
    verifies them against a key set it refreshes, confines each session to the
    tenant of its key, distributes groups of frames through a ring of caches,
    chooses the relay each announcement is fetched from, and reports usage. An
    ingest gateway takes RTMP and RTSP publishers and pulls RTSP cameras; a
    packager stores groups as fragments and serves them as HLS and DASH. This
    library models the parts that carry those guarantees and proves them. The
    modelled code is under src/token, src/usage, src/internal/auth,
    src/internal/relay, src/internal/rtmp, src/internal/rtsp,
    src/internal/ingest, src/internal/cmaf, src/internal/hls, src/internal/funnel,
    src/internal/relaycred, src/internal/integration, src/internal/geodns,
    src/internal/update, src/internal/upstream, src/internal/tlsclient,
    src/internal/envconfig and src/internal/cors.

    ** How the parts interact

    token gives [Sign] and [Verify]; auth's [Verifier] calls [Verify] on the keys
    of its [keyStore], which a key source replaces; the relay's [Server] asks the
    verifier at connect ([Authorize]), at each re-check ([lease]) and for each
    ticket ([Ticket], [FirstTicket]), keeps which credential is in force for each
    root ([rootHolds]) and what a session holds ([heldGrants]), and tells the
    usage reporter through the verifier. The group ring is shared by one filler
    per group and any number of readers; a subscriber's egress reads it, is woken
    by the broadcast notification and counts what it lost in the drop reports.
    The election picks, among the announcements of a path, the route the ring is
    filled from; a first subscriber makes the handler subscribe upstream, and the
    distributor that starts fills the ring until the upstream track ends. The ingest's session turns RTMP tags and RTSP packets into groups
    and announces them like the relay does. The packager subscribes to the
    announced broadcasts, stores their groups under the epoch of their feed, and
    its muxer answers viewers from the stored groups. The publish check and the
    viewer check are functions the verifier supplies. A publisher (upstream) and the
    packager sign a credential for each dial; Upstream.v and HlsEgress.v run what they
    dial through the relay's verifier, and Upstream.v what the funnel accepts through the
    grant its publisher signs.

    ** The files

    - Prelude.v: the result type of fallible calls and its monad, machine-width
      integers, the shared tactics and hint databases. GoStrings.v, GoText.v,
      GoPath.v, GoTime.v, GoFloat.v, Base64.v, GoURL.v and GoBytes.v: what the
      sources use of Go's strings, strconv, path, time, float64 conversion,
      base64, net/url and byte readers.
    - TokenPath.v, TokenGrant.v (token/path.go, token/grant.go): canonical
      directories, the prefix rule, grants and the paths they allow. moqt's
      pattern parser and matcher, a dependency, are the class [Moqt] with
      [MoqtLaws].
    - TokenClaims.v, TokenKey.v, Token.v (token/token.go, token/key.go): the JSON
      of claims and keys, key sets, signing and verification. Ed25519, SHA-256
      and JSON text are the classes [Crypto] and [JsonText] with their laws;
      TokenExample.v has an instance and evaluates everything on it.
    - AuthVerifier.v (internal/auth: auth.go, grant.go, keyset.go, keysource.go,
      verifier.go): the key store and its sources, and every decision of the
      verifier. Usage.v (usage/usage.go, internal/auth/usage.go): the usage
      reporter, its flush and the records' format.
    - RootHolds.v, AdmitSession.v (internal/relay/admit.go): the credentials of a
      session. RootHolds.v has the operations of [rootHolds] and the step
      relation of their interleavings. AdmitSession.v has [heldGrants] and the
      handlers [serveTicket] and [serveConnection] as program counters whose
      steps are the locked calls of the code; it is written against the
      interface [TicketVerifier], which AuthVerifier.v discharges. Lease.v
      (internal/relay/lease.go) is the re-check of a live session.
    - GroupRing.v, GroupConc.v (internal/relay/group_cache.go, frame_pool.go): the
      ring with its pools, operation by operation, then the atomics inside the
      operations, action by action (Modules Appenders, Reader, Release).
    - Distributor.v (handler.go: ingest, its fill workers and drop forwarder, and a
      subscriber's egress beside them), Tracks.v (handler.go: ServeTrack, subscribe,
      the redirects and TrackInfo, one flight per track).
    - Drops.v (drop_reporter.go, drop_distributor.go), Notify.v
      (broadcast_notify.go and the ingest's copy, Modules Relay and Ingest),
      Egress.v (handler.go: the subscriber's loop over the ring), Routes.v
      (handler.go: announcing and replacing a route), Election.v (server.go: the
      election among the announcements of one path).
    - Amf0.v, Amf3.v, Amf3RoundTrip.v, Rtmp.v, RtmpStream.v, RtmpHandshake.v
      (internal/rtmp): AMF0 values; AMF3 values with the store their references
      share, and their round trip; chunks and messages, the negotiation of a stream
      and its frames, and the handshake.
    - Frames.v (integration and moqt's media frames as the ingest writes them),
      Flv.v (ingest: FLV tags, AVC and AAC configuration, SPS), Ingest.v (ingest:
      tracks, session, the RTMP loop), Rtp.v (internal/rtsp/rtp.go,
      internal/ingest/rtsp.go and the AAC depacketizer: RTP packets and the
      tracks they feed).
    - Rtsp.v (internal/rtsp: requests, responses, interleaved frames, session
      descriptions and digest authentication over the bytes of a connection; net/url
      is the class [URLs]), RtspServer.v (internal/ingest/rtsp.go: a publisher's
      connection, round by round), RtspClient.v (internal/rtsp/client.go and
      internal/ingest/rtsp_pull.go: the client's operations in a monad, and the pull).
    - Cmaf.v (internal/cmaf: the LOC container, the packager and fragments), Hls.v
      (internal/hls: stored groups), HlsFeed.v (feed.go: the feeds of a broadcast),
      HlsGate.v (gate.go: one feed at a time), HlsManifest.v (playlists, the DASH
      manifest and the segments served), HlsMux.v (the muxer's registry, its
      redirects and its viewers), HlsEgress.v (feed.go, cmd.go: the egress's
      configuration, its credential and its dial), HlsCatalog.v (feed.go: the catalog of
      a broadcast, the media it describes, the handling of an announcement).
    - PeerTrust.v (internal/relay/peer_trust.go: what makes a session a peer's, with
      X.509 verification as the class [X509]), Sessions.v (server.go, admit.go: the
      entries of the relay's server, the session they serve and its end; Modules
      [Pending], [Ends] and [Dialed] for what interleaves between sessions),
      RelayCred.v (internal/relaycred and internal/relay/backoff.go: renewing a
      session's credential, backing off), TlsSplit.v (tls_split.go: one port for TLS and
      HTTP), Stats.v (stats.go: the sampler of gauges and its deferred deletions),
      OpenTimeout.v (open_timeout.go: one context for many opens).
    - Funnel.v (internal/funnel: authorize.go, egress.go, restore.go): the check of a
      request over AuthVerifier.v, and the records served to subscribers. GoQuery.v
      (queries, written and read back) and Upstream.v (internal/upstream,
      internal/tlsclient, the key files of token/key.go, relaycred's Sign): a publisher's
      configuration, its credentials and its loop.
    - Settings.v (internal/envconfig, internal/cors, internal/hls/cors.go), GoNetip.v (what geodns uses of
      netip), GeoPick.v and GeoServer.v (internal/geodns: the feed and the pick of a
      region; the server, its loops and settings), Update.v (internal/update:
      versions, the choice of a release, the replacement of the executable over a
      file system whose operations may fail).
    - TokenExample.v, AuthExample.v, AdmitExample.v, LeaseExample.v: concrete runs
      on which the theorems' hypotheses are discharged.

    ** What the theorems show

    - Tokens: a verified token is authentic and in time (C1) and
      confined to its key's prefix (C2), where the string test is the
      order on path segments (C4); what was signed is verified
      (C3).
    - Sessions: none runs open (C9), each is counted and its end
      reported (C10); an anonymous session has one tenant in every
      interleaving (C5) and its handlers refine the
      discipline of its roots (C6); tickets are sound
      (C7) and a lease closes a session exactly when a re-check is refused
      (C8). Only the CA makes peers (C11); a client's session does not
      outlive its grant (C12).
    - The ring and its subscribers: a held group is pinned (C13), a
      buffer has one owner (C14); a track is served as it was read
      (C15), its distributor comes to an end (C16) and is
      the only one asking the publisher (C17); an egress accounts for every
      group (C18), which holds beside the distributor too
      (C19); drops are told once (C20) within bounded
      memory (C21).
    - Routes: every live route is installed or the one fallback (C22),
      which takes over (C23).
    - Ingest: no wake-up is lost (C24), subscribers are served in
      order (C25); RTP packets become the frames that were sent
      (C28) and never a panic (C29); an RTSP
      publisher is heard while permitted (C30). RTMP messages survive the
      wire (C39), and reading is safe
      (C40).
    - Publishers: what an accepted configuration dials is admitted by the relay, to
      publish what it names (C26); the funnel accepts a request exactly when the
      application permitted it (C27).
    - Packager: what a playlist lists is served (C31), feeds share
      no epoch (C32), the listing is exact (C33), viewers
      see what they may (C34).
    - Around the relay: the name server answers from the last good feed
      (C35); an update never loses the binary (C36).
    - Usage: no event is lost or invented (C37) and every record
      validates (C38).
    The files prove more than these: each states its own theorems, and those that
    show where the code does not do what it means to ([reader_can_miss_tail],
    [native_end_lost] and their like) are named where they stand.

    ** Modelling choices

    Strings are Rocq strings in the token, relay, packager and RTSP text files and
    byte lists in the media files; integers are [Z], wrapped where the width can
    matter ([wrapu], [wraps]); float64 is [spec_float] with the conversions of IEEE
    binary64; the value Go leaves to the platform (an out-of-range float to integer
    conversion) is a parameter. Maps are [gmap]s; where Go's order of iteration
    matters the order is a parameter or the theorem holds up to permutation.
    Mutexes make a method one step; atomics outside them are steps of their own.
    Time is a parameter of each call or a clock that only advances. Panics are
    values: an index out of range is an error of its own kind, so that "never
    panics" is a statement. The fMP4 boxes the packager writes come from a library
    and are the class [Mp4]; playlists are lists of lines.

    Fuel: the AMF0 object and array loops take the length of the input, since
    each round consumes a byte ([decodeValue_total] shows it is never reached);
    [readMessage] likewise ([readMessage_safe]), and a message of k bytes takes at
    most k + 1 chunks ([message_bytes_total]); the usage flush takes one round per
    record; the media frame and STAP-A loops take the length of the payload, since
    each round consumes its header ([allFrames_total], [stapa_safe]); AMF3 values take a
    fuel [amf3_decode_total] shows is enough; a muxer
    follows at most [maxRedirectHops] redirects, which is the code's own bound.
    None of these bounds changes a result.

    ** What is not modelled

    QUIC, HTTP, TLS records and file access (their results are arguments), metrics but
    for the sampler's, logs and the status page, the processes around the parts (every
    cmd.go but geodns's and the settings of hls's, magefiles, the playground, tools and
    benchmarks), whose code starts goroutines and calls the operating system. Of
    modelled files: the catalog the ingest writes, the goroutines around the RTSP pull,
    relaycred's binding to a session, the unpacking of an update's archive. Whole parts:
    load generation, which measures the relay from outside, and the RTMP dialer and
    listener, which are socket calls. In Election.v an announcement that is
    over already when it is elected is not modelled; in Egress.v the notification is
    the sequence it initialises, whose wake-ups are Notify.v's; in RtspServer.v a
    permission's timer does not fire while the ANNOUNCE that replaces it is handled. *)
From stdpp Require Export base tactics option list numbers strings gmap.
From Stdlib Require Export ZArith Lia Ascii.

(** ** The result of a fallible Go call *)

(** A Go function returning [(A, error)]: the value, or the error kind. *)
Inductive result (E A : Type) : Type :=
| Ok (a : A)
| Err (e : E).
Arguments Ok {E A} a.
Arguments Err {E A} e.

#[export] Instance result_ret {E} : MRet (result E) := fun A a => Ok a.
#[export] Instance result_bind {E} : MBind (result E) := fun A B f m =>
  match m with Ok a => f a | Err e => Err e end.
#[export] Instance result_fmap {E} : FMap (result E) := fun A B f m =>
  match m with Ok a => Ok (f a) | Err e => Err e end.

#[export] Instance result_eq_dec {E A} `{EqDecision E, EqDecision A} : EqDecision (result E A).
Proof. solve_decision. Defined.

(** [if err != nil { return wrap(err) }]. *)
Definition map_err {E F A} (f : E -> F) (m : result E A) : result F A :=
  match m with Ok a => Ok a | Err e => Err (f e) end.

(** A lookup that fails with [e]. *)
Definition of_option {E A} (e : E) (o : option A) : result E A :=
  match o with Some a => Ok a | None => Err e end.

(** An early return: continue when [b] holds, fail with [e] otherwise. *)
Definition guard_err {E} (b : bool) (e : E) : result E unit :=
  if b then Ok tt else Err e.

Definition is_ok {E A} (m : result E A) : bool :=
  match m with Ok _ => true | Err _ => false end.

Lemma bind_Ok {E A B} (m : result E A) (f : A -> result E B) b :
  m ≫= f = Ok b <-> exists a, m = Ok a /\ f a = Ok b.
Proof.
  destruct m as [a|e]; cbn; [|split; [done|by intros (? & ? & ?)]].
  split; [by exists a|by intros (? & [= <-] & ?)].
Qed.

Lemma bind_Err {E A B} (m : result E A) (f : A -> result E B) e :
  m ≫= f = Err e <-> m = Err e \/ exists a, m = Ok a /\ f a = Err e.
Proof.
  destruct m as [a|e']; cbn.
  - split; [right; by exists a|by intros [?|(? & [= <-] & ?)]].
  - split; [intros [= ->]; by left|by intros [[= ->]|(? & ? & ?)]].
Qed.

Lemma guard_err_Ok {E} b (e : E) u : guard_err b e = Ok u <-> b = true.
Proof. destruct b, u; naive_solver. Qed.

Lemma guard_true {E B} b (e : E) (f : unit -> result E B) : b = true -> guard_err b e ≫= f = f tt.
Proof. by intros ->. Qed.

Lemma guard_false {E B} b (e : E) (f : unit -> result E B) : b = false -> guard_err b e ≫= f = Err e.
Proof. by intros ->. Qed.

Lemma of_option_Ok {E A} (e : E) (o : option A) a : of_option e o = Ok a <-> o = Some a.
Proof. destruct o; naive_solver. Qed.

Lemma fmap_Ok {E A B} (f : A -> B) (m : result E A) b : f <$> m = Ok b <-> exists a, m = Ok a /\ f a = b.
Proof. destruct m; cbn; naive_solver. Qed.

Lemma map_err_Ok {E F A} (f : E -> F) (m : result E A) a : map_err f m = Ok a <-> m = Ok a.
Proof. destruct m; naive_solver. Qed.

Lemma Ok_inj {E A} (a b : A) : @Ok E A a = Ok b -> a = b.
Proof. by intros [= ->]. Qed.

(** Inverts a chain of binds and guards that ended in [Ok]. *)
Ltac inv_ok :=
  repeat match goal with
  | H : _ ≫= _ = Ok _ |- _ => apply bind_Ok in H; destruct H as (? & ? & H)
  | H : guard_err _ _ = Ok _ |- _ => apply guard_err_Ok in H
  | H : of_option _ _ = Ok _ |- _ => apply of_option_Ok in H
  | H : map_err _ _ = Ok _ |- _ => apply map_err_Ok in H
  | H : Ok _ = Ok _ |- _ => injection H as H
  | H : Err _ = Ok _ |- _ => discriminate H
  | H : Ok _ = Err _ |- _ => discriminate H
  end.

(** Runs the first bind of a chain known to succeed ([H]) in the goal too. *)
Ltac peel H :=
  let x := fresh "x" in let Hx := fresh "Hx" in
  apply bind_Ok in H as (x & Hx & H);
  first [ apply guard_err_Ok in Hx; rewrite guard_true by exact Hx
        | rewrite Hx; cbn [mbind result_bind] ].

(** Splits every [if] and [match] the hypotheses expose, dropping the cases
    that contradict an equation. *)
Ltac split_cases :=
  repeat (case_match || simplify_eq/=); try done.

(** Turns boolean tests into propositions. *)
Ltac bool_prop :=
  repeat match goal with
  | H : (_ && _)%bool = true |- _ => apply andb_true_iff in H; destruct H
  | H : (_ || _)%bool = false |- _ => apply orb_false_iff in H; destruct H
  | H : negb _ = true |- _ => apply negb_true_iff in H
  | H : negb _ = false |- _ => apply negb_false_iff in H
  | H : (_ =? _)%Z = true |- _ => apply Z.eqb_eq in H
  | H : (_ =? _)%Z = false |- _ => apply Z.eqb_neq in H
  | H : (_ <? _)%Z = true |- _ => apply Z.ltb_lt in H
  | H : (_ <? _)%Z = false |- _ => apply Z.ltb_ge in H
  | H : (_ <=? _)%Z = true |- _ => apply Z.leb_le in H
  | H : (_ <=? _)%Z = false |- _ => apply Z.leb_gt in H
  | H : bool_decide _ = true |- _ => apply bool_decide_eq_true in H
  | H : bool_decide _ = false |- _ => apply bool_decide_eq_false in H
  end.

(** ** Lists *)

Lemma forallb_elem {A} (f : A -> bool) (l : list A) :
  forallb f l = true <-> forall a, a ∈ l -> f a = true.
Proof. rewrite forallb_forall. by setoid_rewrite list_elem_of_In. Qed.

(** ** Machine integers *)

(** Two's complement wrap-around of an unsigned and of a signed [w]-bit
    integer. *)
Definition wrapu (w z : Z) : Z := z mod 2 ^ w.
Definition wraps (w z : Z) : Z := (z + 2 ^ (w - 1)) mod 2 ^ w - 2 ^ (w - 1).

Definition in_u (w z : Z) : Prop := (0 <= z < 2 ^ w)%Z.
Definition in_s (w z : Z) : Prop := (- 2 ^ (w - 1) <= z < 2 ^ (w - 1))%Z.

Lemma wrapu_id w z : in_u w z -> wrapu w z = z.
Proof. intros H. apply Z.mod_small, H. Qed.

Lemma wrapu_range w z : (0 <= w)%Z -> in_u w (wrapu w z).
Proof. intros H. apply Z.mod_pos_bound. lia. Qed.

Lemma wraps_id w z : (0 < w)%Z -> in_s w z -> wraps w z = z.
Proof.
  unfold wraps, in_s. intros Hw H.
  assert (2 ^ w = 2 * 2 ^ (w - 1))%Z as Hp.
  { replace w with (Z.succ (w - 1)) at 1 by lia. rewrite Z.pow_succ_r; lia. }
  rewrite Z.mod_small; lia.
Qed.

(** ** Hint databases *)

Create HintDb qumo discriminated.
#[export] Hint Resolve wrapu_range : qumo.
Create Rewrite HintDb lens.
#[export] Hint Rewrite @length_app @length_take @length_drop @length_replicate
  @length_insert @length_fmap : lens.
