(* ===== verification/GoStrings.v ===== *)
(** * Go's [strings] package, as far as the sources use it

    A Go string is a sequence of bytes: Rocq's [string]. Separators are one
    character, as every use in the modelled sources is. *)
From S2P Require Import Prelude.

(** [strings.Split(s, sep)] and [strings.SplitSeq(s, sep)]. *)
Fixpoint Split (c : ascii) (s : string) : list string :=
  match s with
  | EmptyString => [""]
  | String a s' =>
      if decide (a = c) then "" :: Split c s'
      else match Split c s' with
           | h :: t => String a h :: t
           | [] => [String a ""]
           end
  end.

(** [strings.Join(l, sep)]. *)
Fixpoint Join (c : ascii) (l : list string) : string :=
  match l with
  | [] => ""
  | [s] => s
  | s :: l' => s +:+ String c (Join c l')
  end.

(** [strings.HasPrefix(s, p)] and [strings.TrimPrefix(s, p)]. *)
Definition HasPrefix (s p : string) : bool := String.prefix p s.

Fixpoint TrimPrefix (s p : string) : string :=
  match p with
  | EmptyString => s
  | String a p' =>
      match s with
      | String b s' => if HasPrefix s p then TrimPrefix s' p' else s
      | EmptyString => s
      end
  end.

(** Whether [s] holds a byte for which [f] is true, [strings.ContainsFunc]
    and [strings.ContainsAny] on ASCII characters. *)
Fixpoint ContainsFunc (f : ascii -> bool) (s : string) : bool :=
  match s with
  | EmptyString => false
  | String a s' => f a || ContainsFunc f s'
  end.

Fixpoint mem_char (c : ascii) (s : string) : bool :=
  match s with
  | EmptyString => false
  | String a s' => bool_decide (a = c) || mem_char c s'
  end.

Definition ContainsAny (s chars : string) : bool :=
  ContainsFunc (fun a => mem_char a chars) s.

(** ** Concatenation *)

Lemma sapp_cons a s t : String a s +:+ t = String a (s +:+ t).
Proof. done. Qed.

Lemma sapp_nil_l s : "" +:+ s = s.
Proof. done. Qed.

Lemma sapp_nil_r s : s +:+ "" = s.
Proof. induction s; [done|]. rewrite sapp_cons. by f_equal. Qed.

Lemma sapp_assoc s t u : (s +:+ t) +:+ u = s +:+ (t +:+ u).
Proof. induction s; [done|]. rewrite !sapp_cons. by f_equal. Qed.

(** ** Prefixes *)

Lemma HasPrefix_spec s p : HasPrefix s p = true <-> exists r, s = p +:+ r.
Proof.
  unfold HasPrefix. revert s. induction p as [|a p IH]; intros s; cbn.
  - split; [by exists s|by destruct s].
  - destruct s as [|b s]; cbn.
    + split; [done|intros [r [=]]].
    + destruct (ascii_dec a b) as [->|Hne].
      * rewrite IH. split; intros [r Hr]; exists r; rewrite sapp_cons in *; congruence.
      * split; [done|]. intros [r [=]]. congruence.
Qed.

Lemma HasPrefix_app p r : HasPrefix (p +:+ r) p = true.
Proof. apply HasPrefix_spec. by exists r. Qed.

Lemma HasPrefix_trans s p q : HasPrefix s p = true -> HasPrefix p q = true -> HasPrefix s q = true.
Proof.
  rewrite !HasPrefix_spec. intros [r ->] [r' ->]. exists (r' +:+ r). apply sapp_assoc.
Qed.

Lemma TrimPrefix_app p s : TrimPrefix (p +:+ s) p = s.
Proof.
  induction p as [|a p IH]; [by destruct s|].
  rewrite sapp_cons. cbn [TrimPrefix].
  rewrite <- sapp_cons, HasPrefix_app. apply IH.
Qed.

(** ** Splitting and joining *)

(** A segment: no separator in it. *)
Definition clean (c : ascii) (s : string) : Prop := mem_char c s = false.

Lemma Split_nonempty c s : Split c s <> [].
Proof. destruct s; cbn; repeat case_match; done. Qed.

Lemma Split_app c s t : Split c (s +:+ String c t) = Split c s ++ Split c t.
Proof.
  induction s as [|a s IH].
  - rewrite sapp_nil_l. cbn. by rewrite decide_True.
  - rewrite sapp_cons. cbn. rewrite IH. case_decide; [done|].
    pose proof (Split_nonempty c s). by destruct (Split c s).
Qed.

Lemma Split_clean c s : clean c s -> Split c s = [s].
Proof.
  unfold clean. induction s as [|a s IH]; cbn; [done|]. intros [H1 H2]%orb_false_iff.
  apply bool_decide_eq_false in H1. rewrite decide_False by done. by rewrite IH.
Qed.

Lemma Split_all_clean c s : Forall (clean c) (Split c s).
Proof.
  unfold clean. induction s as [|a s IH]; cbn; [by repeat constructor|].
  case_decide; [by constructor|].
  pose proof (Split_nonempty c s). destruct (Split c s) as [|h t]; [done|].
  apply Forall_cons in IH as [? ?]. constructor; [|done]. cbn. by rewrite bool_decide_false.
Qed.

Lemma Join_cons c s l : l <> [] -> Join c (s :: l) = s +:+ String c (Join c l).
Proof. by destruct l. Qed.

Lemma Split_Join c l : l <> [] -> Forall (clean c) l -> Split c (Join c l) = l.
Proof.
  induction l as [|s l IH]; [done|]. intros _ [Hs Hl]%Forall_cons.
  destruct (decide (l = [])) as [->|Hne]; [by apply Split_clean|].
  rewrite Join_cons, Split_app, Split_clean, IH by done. done.
Qed.

Lemma Join_Split c s : Join c (Split c s) = s.
Proof.
  induction s as [|a s IH]; [done|]. cbn. pose proof (Split_nonempty c s) as Hne.
  case_decide as Ha.
  - rewrite Join_cons by done. by rewrite IH, Ha.
  - destruct (Split c s) as [|h [|h' t]]; [done|cbn in *; by rewrite IH|].
    cbn in *. by rewrite sapp_cons, IH.
Qed.
