(* ===== verification/TokenPath.v ===== *)
(** * token/path.go: MoQ paths, directories and the prefix rule

    A grant's root and a key's prefix are directories ("/acme/room/"). The
    rule that keeps one tenant's key out of another tenant's paths is a plain
    string-prefix comparison of directories ([within]); the theorems here say
    that on canonical directories this comparison is the comparison of the
    segment lists, so it never matches in the middle of a segment. *)
From S2P Require Import Prelude GoStrings.

Definition slash : ascii := "/"%char.

(** Why a path was refused: the two [fmt.Errorf] of [normalizePath]. *)
Inductive path_error :=
| SegmentNotAllowed (seg : string)
| SegmentPattern (seg : string).

#[export] Instance path_error_eq_dec : EqDecision path_error.
Proof. solve_decision. Defined.

(** The loop of [normalizePath] over the segments, with its early returns. *)
Fixpoint keep_segments (segs kept : list string) : result path_error (list string) :=
  match segs with
  | [] => Ok kept
  | seg :: segs' =>
      if bool_decide (seg = "") then keep_segments segs' kept
      else if bool_decide (seg = ".") || bool_decide (seg = "..") then Err (SegmentNotAllowed seg)
      else if ContainsAny seg "*{}" then Err (SegmentPattern seg)
      else keep_segments segs' (kept ++ [seg])
  end.

Definition normalizePath (p : string) : result path_error string :=
  kept ← keep_segments (Split slash p) [];
  Ok (Join slash kept).

Definition Directory (p : string) : result path_error string :=
  n ← normalizePath p;
  if bool_decide (n = "") then Ok "/"
  else Ok ("/" +:+ n +:+ "/").

Definition atAndBeneath (suffix : string) : result path_error (list string) :=
  s ← normalizePath suffix;
  if bool_decide (s = "") then Ok ["/"]
  else Ok ["/" +:+ s; "/" +:+ s +:+ "/"].

Definition HLSDirectory : string := "/.hls/".

Definition within (root prefix : string) : bool :=
  HasPrefix root prefix || HasPrefix root (HLSDirectory +:+ TrimPrefix prefix "/").

(** ** Canonical segments *)

(** What [normalizePath] keeps: a non-empty segment without a separator, not
    "." or "..", and with no pattern character. *)
Definition segment_ok (s : string) : Prop :=
  clean slash s /\ s <> "" /\ s <> "." /\ s <> ".." /\ ContainsAny s "*{}" = false.

(** The segments of a path, empty ones dropped. *)
Definition segments (p : string) : list string :=
  filter (fun s => s <> "") (Split slash p).

(** The directory with the given segments. *)
Definition dir_of (l : list string) : string :=
  "/" +:+ foldr (fun s r => s +:+ "/" +:+ r) "" l.

Lemma keep_segments_spec segs kept out :
  Forall (clean slash) segs ->
  keep_segments segs kept = Ok out <->
  out = kept ++ filter (fun s => s <> "") segs /\
  Forall segment_ok (filter (fun s => s <> "") segs).
Proof.
  intros Hc. revert kept.
  induction Hc as [|seg segs Hseg Hsegs IH]; intros kept; cbn [keep_segments].
  { rewrite filter_nil, app_nil_r. split; [intros [= <-]; by split|by intros [-> _]]. }
  case_bool_decide as He.
  { subst. rewrite filter_cons_False by naive_solver. apply IH. }
  rewrite filter_cons_True, Forall_cons by done.
  case_bool_decide as H1; [subst; cbn; split; [done|]; intros (_ & (_ & _ & ? & _) & _); done|].
  case_bool_decide as H2; [subst; cbn; split; [done|]; intros (_ & (_ & _ & _ & ? & _) & _); done|].
  cbn [orb]. destruct (ContainsAny seg "*{}") eqn:H3.
  { split; [done|]. intros (_ & (_ & _ & _ & _ & ?) & _). congruence. }
  rewrite IH, <- app_assoc. cbn. unfold segment_ok. naive_solver.
Qed.

Lemma normalizePath_spec p n :
  normalizePath p = Ok n <-> n = Join slash (segments p) /\ Forall segment_ok (segments p).
Proof.
  unfold normalizePath, segments. rewrite bind_Ok. split.
  - intros (kept & Hk & [= <-]).
    apply keep_segments_spec in Hk as [-> ?]; [by split|apply Split_all_clean].
  - intros [-> ?]. eexists; split; [|done].
    apply keep_segments_spec; [apply Split_all_clean|done].
Qed.

Lemma segments_ok_filter l : Forall segment_ok l -> filter (fun s => s <> "") l = l.
Proof.
  intros H. induction H as [|s l (_ & Hs & _) ? IH]; [done|].
  by rewrite filter_cons_True, IH.
Qed.

Lemma segment_ok_clean l : Forall segment_ok l -> Forall (clean slash) l.
Proof. intros H. eapply Forall_impl; [exact H|]. by intros s [? _]. Qed.
#[export] Hint Resolve segment_ok_clean : qumo.

Lemma segments_Join l : Forall segment_ok l -> segments (Join slash l) = l.
Proof.
  intros H. unfold segments. destruct (decide (l = [])) as [->|Hne]; [done|].
  rewrite Split_Join by eauto with qumo. by apply segments_ok_filter.
Qed.

Lemma Join_nonempty l : Forall segment_ok l -> l <> [] -> Join slash l <> "".
Proof.
  destruct l as [|s [|s' l]]; [done| |]; intros [(_ & Hs & _) _]%Forall_cons _; [done|].
  cbn. destruct s; [done|]. by rewrite sapp_cons.
Qed.

Lemma dir_of_cons s l : dir_of (s :: l) = "/" +:+ s +:+ dir_of l.
Proof. unfold dir_of. cbn [foldr]. done. Qed.

Lemma Join_dir_of l : l <> [] -> "/" +:+ Join slash l +:+ "/" = dir_of l.
Proof.
  induction l as [|s l IH]; [done|]. intros _. rewrite dir_of_cons.
  destruct (decide (l = [])) as [->|Hne]; [done|].
  rewrite <- IH, Join_cons by done. f_equal. rewrite sapp_assoc. f_equal.
Qed.

Lemma Split_dir_app l t :
  Forall (clean slash) l -> Split slash (dir_of l +:+ t) = "" :: l ++ Split slash t.
Proof.
  intros H. transitivity (Split slash (Join slash ("" :: l) +:+ String slash t)).
  - f_equal. destruct l as [|s l]; [reflexivity|].
    rewrite <- Join_dir_of, (Join_cons _ "") by done. rewrite !sapp_assoc. reflexivity.
  - rewrite Split_app, Split_Join; [done|done|by constructor].
Qed.

Lemma Split_dir_of l : Forall segment_ok l -> Split slash (dir_of l) = "" :: l ++ [""].
Proof. intros H. rewrite <- (sapp_nil_r (dir_of l)). by rewrite Split_dir_app by eauto with qumo. Qed.

Lemma segments_dir_app l t : Forall segment_ok l -> segments (dir_of l +:+ t) = l ++ segments t.
Proof.
  intros H. unfold segments. rewrite Split_dir_app by eauto with qumo.
  rewrite filter_cons_False by naive_solver. by rewrite filter_app, segments_ok_filter.
Qed.

Lemma segments_dir_of l : Forall segment_ok l -> segments (dir_of l) = l.
Proof.
  intros H. unfold segments. rewrite Split_dir_of by done.
  rewrite filter_cons_False by naive_solver. rewrite filter_app, segments_ok_filter by done.
  rewrite filter_cons_False by naive_solver. by rewrite app_nil_r.
Qed.

Lemma Directory_spec p d :
  Directory p = Ok d <-> d = dir_of (segments p) /\ Forall segment_ok (segments p).
Proof.
  unfold Directory. rewrite bind_Ok. setoid_rewrite normalizePath_spec. split.
  - intros (n & [-> Hok] & Hd). split; [|done].
    destruct (decide (segments p = [])) as [He|Hne].
    + rewrite He in Hd |- *. change (Ok (E := path_error) "/" = Ok d) in Hd. by injection Hd as <-.
    + rewrite bool_decide_false in Hd by (by apply Join_nonempty).
      simplify_eq. by rewrite Join_dir_of.
  - intros [-> Hok]. eexists; split; [by split|].
    destruct (decide (segments p = [])) as [He|Hne]; [by rewrite He|].
    rewrite bool_decide_false by (by apply Join_nonempty). by rewrite Join_dir_of.
Qed.

(** A directory prefix is a segment-wise prefix. *)
Lemma dir_prefix_segments r p :
  Forall segment_ok r -> Forall segment_ok p ->
  HasPrefix (dir_of r) (dir_of p) = true <-> p `prefix_of` r.
Proof.
  intros Hr Hp. rewrite HasPrefix_spec. split.
  - intros [t Ht]. exists (segments t). by rewrite <- segments_dir_app, <- Ht, segments_dir_of.
  - intros [t ->]. exists (foldr (fun s r => s +:+ "/" +:+ r) "" t).
    unfold dir_of. rewrite sapp_assoc. f_equal. clear. induction p as [|s p IH]; [done|].
    cbn. rewrite IH. by rewrite !sapp_assoc.
Qed.

Lemma hls_segment_ok : segment_ok ".hls".
Proof. by repeat split. Qed.

Lemma hls_mirror l : HLSDirectory +:+ TrimPrefix (dir_of l) "/" = dir_of (".hls" :: l).
Proof. unfold dir_of at 1. by rewrite TrimPrefix_app. Qed.

Lemma Directory_dir_of l : Forall segment_ok l -> Directory (dir_of l) = Ok (dir_of l).
Proof. intros H. apply Directory_spec. by rewrite segments_dir_of. Qed.

(** A directory in canonical form: what [Directory] returns. *)
Definition is_directory (d : string) : Prop := Directory d = Ok d.

Lemma is_directory_spec d :
  is_directory d <-> d = dir_of (segments d) /\ Forall segment_ok (segments d).
Proof. apply Directory_spec. Qed.

(** [Directory] is a canonicalisation: its result names the same
    segments as its argument, none of them empty, ".", ".." or with a pattern
    character, and applying it again changes nothing. *)
Theorem Directory_canonical p d :
  Directory p = Ok d ->
  is_directory d /\ segments d = segments p /\ Forall segment_ok (segments d).
Proof.
  intros [-> Hok]%Directory_spec. rewrite segments_dir_of by done.
  by repeat split; [apply Directory_dir_of|].
Qed.

Lemma within_dir_of r p :
  Forall segment_ok r -> Forall segment_ok p ->
  within (dir_of r) (dir_of p) = true <-> p `prefix_of` r \/ (".hls" :: p) `prefix_of` r.
Proof.
  intros Hr Hp. unfold within. rewrite hls_mirror, orb_true_iff.
  rewrite !dir_prefix_segments; eauto using Forall_cons_2, hls_segment_ok.
Qed.

(** C4: On canonical directories the string comparison [within] makes is a
    comparison of segment lists: a root lies within a prefix exactly when the
    prefix's segments start the root's, or when ".hls" followed by them do. So
    "/acme2/" is not within "/acme/". *)
Theorem within_segments root prefix :
  is_directory root -> is_directory prefix ->
  within root prefix = true <->
  segments prefix `prefix_of` segments root \/
  (".hls" :: segments prefix) `prefix_of` segments root.
Proof.
  rewrite !is_directory_spec. intros [Hr Hrok] [Hp Hpok].
  rewrite <- within_dir_of by done. by rewrite <- Hr, <- Hp.
Qed.

Lemma within_segments_witness :
  (within "/acme/room/" "/acme/" = true <->
   ["acme"] `prefix_of` ["acme"; "room"] \/ [".hls"; "acme"] `prefix_of` ["acme"; "room"]) /\
  within "/acme2/" "/acme/" = false.
Proof.
  split; [|reflexivity].
  by apply (within_segments "/acme/room/" "/acme/").
Defined.
