(* ===== verification/TokenGrant.v ===== *)
(** * token/grant.go: what a token allows its bearer

    Patterns are parsed and matched by the gomoqt module, which is not part of
    this repository: [Moqt] is its interface, and [MoqtLaws] the behaviour the
    comments of token/grant.go rely on. *)
From S2P Require Import Prelude GoStrings TokenPath.

(** The two sentinel errors every refusal of the token package wraps. *)
Inductive token_error := ErrInvalid | ErrForbidden.

#[export] Instance token_error_eq_dec : EqDecision token_error.
Proof. solve_decision. Defined.

(** [Action] is an open string type with five known values. *)
Abbreviation Action := string.
Definition ActionPublish : Action := "publish".
Definition ActionSubscribe : Action := "subscribe".
Definition ActionPost : Action := "post".
Definition ActionRedact : Action := "redact".
Definition ActionCreate : Action := "create".

(** The fields of [moqt.Grant] the sources read and write. [MaxAge] is a
    [time.Duration] in nanoseconds. *)
Record MoqGrant := mkMoqGrant {
  Root : string;
  Publish : list string;
  Subscribe : list string;
  MaxAge : Z
}.

(** [token.Grant], which embeds [moqt.Grant]. *)
Record Grant := mkGrant {
  moq :> MoqGrant;
  Create : list string;
  Post : list string;
  Redact : list string;
  Subject : string
}.

#[export] Instance MoqGrant_eq_dec : EqDecision MoqGrant.
Proof. solve_decision. Defined.
#[export] Instance Grant_eq_dec : EqDecision Grant.
Proof. solve_decision. Defined.

(** The gomoqt operations the package calls: [moqt.ParseGrantPattern], the
    parsed pattern's [Match], and [moqt.Grant.Validate]. *)
Class Moqt := {
  pattern : Type;
  ParseGrantPattern : string -> string -> option pattern;
  Match : pattern -> string -> bool;
  Validate : MoqGrant -> bool
}.

(** A pattern is read relative to its root: all it matches lies beneath the
    root (the comment of [token.Grant]). *)
Class MoqtLaws `{Moqt} := {
  match_beneath_root root s p path :
    is_directory root -> ParseGrantPattern root s = Some p -> Match p path = true ->
    HasPrefix path root = true
}.

Definition Patterns (g : Grant) (action : Action) : list string :=
  if bool_decide (action = ActionPublish) then g.(Publish)
  else if bool_decide (action = ActionSubscribe) then g.(Subscribe)
  else if bool_decide (action = ActionCreate) then g.(Create)
  else if bool_decide (action = ActionPost) then g.(Post)
  else if bool_decide (action = ActionRedact) then g.(Redact)
  else [].

Definition Actions : list Action :=
  [ActionPublish; ActionSubscribe; ActionCreate; ActionPost; ActionRedact].

Section Checked.
Context `{Moqt}.

(** [Allows]: a path is matched only in its canonical spelling. *)
Definition Allows (g : Grant) (action : Action) (path : string) : bool :=
  match normalizePath path with
  | Err _ => false
  | Ok p =>
      if negb (bool_decide (p = TrimPrefix path "/")) then false
      else existsb (fun s =>
             match ParseGrantPattern g.(Root) s with
             | Some pt => Match pt ("/" +:+ p)
             | None => false
             end) (Patterns g action)
  end.

(** [checkPattern]: true for a nil error. *)
Definition checkPattern (root s : string) : bool :=
  match ParseGrantPattern root s with
  | None => false
  | Some _ => negb (existsb (fun seg => bool_decide (seg = ".") || bool_decide (seg = ".."))
                            (Split slash s))
  end.

Definition checked (g : Grant) (prefix : string) : result token_error Grant :=
  guard_err (g.(MaxAge) =? 0)%Z ErrInvalid;;
  if bool_decide (g.(Root) = "") then
    guard_err (forallb (fun a => bool_decide (Patterns g a = [])) Actions) ErrInvalid;;
    Ok g
  else
    guard_err (match Directory g.(Root) with
               | Ok root => bool_decide (root = g.(Root))
               | Err _ => false
               end) ErrInvalid;;
    guard_err (forallb (fun a => forallb (checkPattern g.(Root)) (Patterns g a)) Actions) ErrInvalid;;
    guard_err (Validate g) ErrInvalid;;
    guard_err (within g.(Root) prefix) ErrForbidden;;
    Ok g.

(** ** Properties *)

(** The grants [checked] lets through: a grant of nothing, or one rooted at a
    canonical directory within the prefix whose every pattern parses. *)
Definition grant_ok (g : Grant) (prefix : string) : Prop :=
  g.(MaxAge) = 0%Z /\
  ((g.(Root) = "" /\ forall a, a ∈ Actions -> Patterns g a = []) \/
   (is_directory g.(Root) /\ within g.(Root) prefix = true /\ Validate g = true /\
    forall a s, a ∈ Actions -> s ∈ Patterns g a -> checkPattern g.(Root) s = true)).

(** An action with patterns is one of the five. *)
Lemma Patterns_known g a s : s ∈ Patterns g a -> a ∈ Actions.
Proof.
  unfold Patterns, Actions. repeat case_bool_decide; subst; set_solver.
Qed.

Lemma checked_ok g prefix g' : checked g prefix = Ok g' -> g' = g /\ grant_ok g prefix.
Proof.
  unfold checked, grant_ok. intros H'. inv_ok. bool_prop. case_bool_decide; inv_ok; subst.
  - rewrite forallb_elem in *. split; [done|]. split; [done|left]. split; [done|].
    intros a Ha. eapply bool_decide_eq_true. eauto.
  - split; [done|]. split; [done|right]. destruct (Directory (Root g')) eqn:Hd; [|done].
    apply bool_decide_eq_true in H2 as ->. repeat split; [done..|].
    intros a' s Ha Hs. eapply forallb_elem, Hs.
    by apply (proj1 (forallb_elem (fun a => forallb _ (Patterns g' a)) Actions)).
Qed.

Lemma checked_complete g prefix : grant_ok g prefix -> checked g prefix = Ok g.
Proof.
  intros [Hm Hg]. unfold checked. rewrite guard_true by (by apply Z.eqb_eq).
  destruct Hg as [[Hr Hp]|(Hd & Hw & Hv & Hp)].
  - rewrite bool_decide_true by done. rewrite guard_true; [done|].
    apply forallb_elem. intros. by apply bool_decide_eq_true, Hp.
  - rewrite bool_decide_false by (intros Hr; by rewrite Hr in Hd).
    rewrite Hd, !guard_true; try done; [|by apply bool_decide_eq_true].
    apply forallb_elem. intros a Ha. apply forallb_elem. eauto.
Qed.

(** A path beneath a directory starts with the directory's segments. *)
Lemma HasPrefix_segments d path :
  is_directory d -> HasPrefix path d = true -> segments d `prefix_of` segments path.
Proof.
  intros [Hd Hok]%is_directory_spec [t ->]%HasPrefix_spec.
  exists (segments t). rewrite Hd at 1. by apply segments_dir_app.
Qed.

Lemma within_trans root prefix path :
  is_directory root -> is_directory prefix -> within root prefix = true ->
  HasPrefix path root = true ->
  segments prefix `prefix_of` segments path \/
  (".hls" :: segments prefix) `prefix_of` segments path.
Proof.
  intros Hr Hp Hw Hpath. apply HasPrefix_segments in Hpath; [|done].
  destruct (proj1 (within_dir_of (segments root) (segments prefix)
    (proj2 (proj1 (is_directory_spec _) Hr)) (proj2 (proj1 (is_directory_spec _) Hp)))) as [?|?].
  - by rewrite <- (proj1 (proj1 (is_directory_spec _) Hr)), <- (proj1 (proj1 (is_directory_spec _) Hp)).
  - left. by etrans.
  - right. by etrans.
Qed.

Lemma Allows_inv g a path :
  Allows g a path = true ->
  exists p s pt, normalizePath path = Ok p /\ p = TrimPrefix path "/" /\ s ∈ Patterns g a /\
    ParseGrantPattern g.(Root) s = Some pt /\ Match pt ("/" +:+ p) = true.
Proof.
  unfold Allows. destruct (normalizePath path) as [p|] eqn:Hn; [|done].
  case_bool_decide as Hp; cbn; [|done]. intros (s & Hs & Hm)%existsb_exists.
  destruct (ParseGrantPattern (Root g) s) as [pt|] eqn:Hpt; [|done].
  exists p, s, pt. by rewrite list_elem_of_In.
Qed.

Lemma segments_normalized path p :
  normalizePath path = Ok p -> segments ("/" +:+ p) = segments path.
Proof.
  intros [-> Hok]%normalizePath_spec. unfold segments at 1.
  change (Split slash ("/" +:+ ?r)) with ("" :: Split slash r).
  rewrite filter_cons_False by naive_solver. by apply segments_Join.
Qed.

Context `{!MoqtLaws}.

(** Tenant confinement: every path a checked grant allows, for any
    action, lies at or beneath the signing key's prefix or its mirror under
    "/.hls/", segment by segment. *)
Theorem Allows_confined g prefix a path :
  is_directory prefix -> checked g prefix = Ok g -> Allows g a path = true ->
  segments prefix `prefix_of` segments path \/
  (".hls" :: segments prefix) `prefix_of` segments path.
Proof.
  intros Hpre [_ [_ Hg]]%checked_ok (p & s & pt & Hn & Hp & Hs & Hpt & Hm)%Allows_inv.
  destruct Hg as [[_ Hnone]|(Hd & Hw & _)].
  { rewrite Hnone in Hs by (by eapply Patterns_known). by apply not_elem_of_nil in Hs. }
  rewrite <- (segments_normalized _ _ Hn).
  eapply (within_trans g.(Root)); [done..|]. by eapply match_beneath_root.
Qed.
End Checked.

(** ** A concrete pattern language

    Patterns without wildcards, as the comment of [token.Grant] describes
    them: "/7" is one broadcast, "/7/" and "/" all those beneath. It shows the
    laws of [MoqtLaws] can hold, and instantiates the witnesses. *)
Fixpoint ends_with_slash (s : string) : bool :=
  match s with
  | EmptyString => true
  | String a EmptyString => bool_decide (a = slash)
  | String _ s' => ends_with_slash s'
  end.

Definition literal_parse (root s : string) : option (string * string) :=
  match s with
  | String a t => if bool_decide (a = slash) then Some (root, t) else None
  | EmptyString => None
  end.

Definition literal_match (p : string * string) (path : string) : bool :=
  if ends_with_slash p.2 then HasPrefix path (p.1 +:+ p.2) else bool_decide (path = p.1 +:+ p.2).

#[local] Instance literal_moqt : Moqt := {|
  pattern := string * string;
  ParseGrantPattern := literal_parse;
  Match := literal_match;
  Validate _ := true
|}.

#[local] Instance literal_laws : MoqtLaws.
Proof.
  constructor. intros root s [r t] path _ Hp Hm. cbn in *. unfold literal_parse, literal_match in *.
  destruct s as [|a s]; [done|]. destruct (bool_decide (a = slash)); [|done]. injection Hp as -> ->. cbn in Hm.
  destruct (ends_with_slash t).
  - eapply HasPrefix_trans; [exact Hm|apply HasPrefix_app].
  - apply bool_decide_eq_true in Hm as ->. apply HasPrefix_app.
Qed.

Definition room_grant : Grant :=
  mkGrant (mkMoqGrant "/acme/room/" ["/7"] ["/"] 0) [] [] [] "alice".

Lemma Allows_confined_witness :
  Allows room_grant ActionPublish "/acme/room/7" = true /\
  Allows room_grant ActionPublish "/acme/room/8" = false /\
  (["acme"] `prefix_of` ["acme"; "room"; "7"] \/ [".hls"; "acme"] `prefix_of` ["acme"; "room"; "7"]).
Proof.
  split; [reflexivity|]. split; [reflexivity|].
  by apply (Allows_confined room_grant "/acme/" ActionPublish "/acme/room/7").
Defined.
