(* ===== verification/GoTime.v ===== *)
(** * Go's [time.Time] arithmetic and [float64] conversions

    A [time.Time] is its wall-clock nanoseconds since the Unix epoch. Its
    seconds are an int64 counted from year 1, which [time.Unix] wraps and
    [Time.Add] saturates; [Time.Sub] saturates a duration at the int64
    nanosecond range. A [float64] is IEEE binary64 (Rocq's [spec_float] with
    53 bits of precision); Go leaves converting one that does not fit to the
    implementation, so that value is a parameter. *)
From Stdlib Require Export SpecFloat.
From S2P Require Import Prelude.

#[local] Open Scope Z_scope.

Abbreviation Time := Z.
Abbreviation Duration := Z.

Definition Nanosecond : Duration := 1.
Definition Millisecond : Duration := 1000000.
Definition Second : Duration := 1000000000.
Definition Minute : Duration := 60 * Second.
Definition Hour : Duration := 60 * Minute.

Definition int64_max : Z := 2 ^ 63 - 1.
Definition int64_min : Z := - 2 ^ 63.

(** Seconds from year 1, the zero [time.Time], to the Unix epoch. *)
Definition unixToInternal : Z := 62135596800.

(** The zero time. *)
Definition zero_time : Time := - unixToInternal * Second.
Definition IsZero (t : Time) : bool := t =? zero_time.

Definition time_Unix (sec nsec : Z) : Time :=
  (wraps 64 (sec + nsec / Second + unixToInternal) - unixToInternal) * Second + nsec mod Second.

(** [t.Unix()]. *)
Definition Unix (t : Time) : Z := wraps 64 (t / Second).

Definition Before (t u : Time) : bool := t <? u.

Definition time_Add (t : Time) (d : Duration) : Time :=
  let s := (t + d) / Second + unixToInternal in
  let s' := if int64_max <? s then int64_max else if s <? int64_min then int64_min + 1 else s in
  (s' - unixToInternal) * Second + (t + d) mod Second.

Definition time_Sub (t u : Time) : Duration := Z.max int64_min (Z.min int64_max (t - u)).

(** ** float64 *)

Abbreviation float64 := spec_float.
Definition float_of_Z (n : Z) : float64 := binary_normalize 53 1024 n 0 false.

(** The integer part of a finite float, rounding towards zero. *)
Definition trunc_finite (s : bool) (m : positive) (e : Z) : Z :=
  let a := if 0 <=? e then Z.pos m * 2 ^ e else Z.pos m / 2 ^ (- e) in
  if s then - a else a.

Section Conversions.
(** What [int64(v)] is for a [v] out of range, which Go does not say. *)
Variable int64_oor : float64 -> Z.

Definition int64_of_float (v : float64) : Z :=
  match v with
  | S754_zero _ => 0
  | S754_finite s m e =>
      let z := trunc_finite s m e in
      if (int64_min <=? z) && (z <=? int64_max) then z else int64_oor v
  | _ => int64_oor v
  end.
End Conversions.

(** ** Lemmas *)

(** Linear arithmetic with divisions by a number of nanoseconds. *)
Ltac time_lia := unfold Millisecond, Second in *; Z.to_euclidean_division_equations; lia.

(** A time whose seconds are far from the ends of int64: every date a clock
    gives. *)
Definition sane (t : Time) : Prop := - 2 ^ 52 <= t / Second < 2 ^ 52.

Lemma time_Add_sane t d : sane (t + d) -> time_Add t d = t + d.
Proof.
  unfold sane, time_Add, int64_max, int64_min, unixToInternal. intros H.
  destruct (Z.ltb_spec (2 ^ 63 - 1) ((t + d) / Second + 62135596800)); [lia|].
  destruct (Z.ltb_spec ((t + d) / Second + 62135596800) (- 2 ^ 63)); [lia|].
  pose proof (Z.div_mod (t + d) Second). unfold Second in *. lia.
Qed.

Lemma time_Unix_sane sec : - 2 ^ 52 <= sec < 2 ^ 52 -> time_Unix sec 0 = sec * Second.
Proof.
  intros H. unfold time_Unix. rewrite Z.div_0_l, Z.mod_0_l by done.
  rewrite wraps_id; unfold in_s, unixToInternal; lia.
Qed.

Lemma Unix_sane t : sane t -> Unix t = t / Second.
Proof. intros H. apply wraps_id; [lia|]. unfold sane, in_s in *. lia. Qed.

Lemma time_Sub_small t u : int64_min <= t - u <= int64_max -> time_Sub t u = t - u.
Proof. unfold time_Sub, int64_min, int64_max. lia. Qed.

(** An integer below 2^53 converts to float64 without rounding: its mantissa
    is shifted up to 53 digits. *)
Lemma digits_size p : digits2_pos p = Pos.size p.
Proof. induction p; cbn; congruence. Qed.

Lemma digits_shift k p : digits2_pos (Pos.iter xO p k) = (digits2_pos p + k)%positive.
Proof.
  induction k as [|k IH] using Pos.peano_ind; [cbn; lia|].
  rewrite Pos.iter_succ. cbn. rewrite IH. lia.
Qed.

Lemma shift_value k p : Z.pos (Pos.iter xO p k) = Z.pos p * 2 ^ Z.pos k.
Proof.
  induction k as [|k IH] using Pos.peano_ind; [cbn; lia|].
  rewrite Pos.iter_succ, Pos2Z.inj_succ, Z.pow_succ_r by lia.
  rewrite (Pos2Z.inj_xO (Pos.iter xO p k)), IH. lia.
Qed.

Lemma digits_bound p : Z.pos p < 2 ^ 53 -> (digits2_pos p <= 53)%positive.
Proof.
  intros Hp. rewrite digits_size. pose proof (Pos.size_le p) as Hs.
  destruct (decide (Pos.size p <= 53)%positive) as [?|Hgt]; [done|exfalso].
  assert (2 ^ 54 <= 2 ^ Z.pos (Pos.size p)) by (apply Z.pow_le_mono_r; lia).
  assert (2 ^ Z.pos (Pos.size p) <= 2 * Z.pos p) by (rewrite <- Pos2Z.inj_pow; lia).
  lia.
Qed.

Lemma round_aux_exact m e :
  digits2_pos m = 53%positive -> -52 <= e <= 0 ->
  binary_round_aux 53 1024 false (Z.pos m) e loc_Exact = S754_finite false m e.
Proof.
  intros Hd He. unfold binary_round_aux, shr_fexp, Zdigits2, fexp, emin, shr_record_of_loc.
  rewrite Hd. replace (Z.max (53 + e - 53) (3 - 1024 - 53) - e) with 0 by lia. cbn [shr].
  cbn [shr_m loc_of_shr_record round_nearest_even]. rewrite Hd.
  replace (Z.max (53 + e - 53) (3 - 1024 - 53) - e) with 0 by lia. cbn [shr shr_m].
  destruct (Z.leb_spec e (1024 - 53)); [done|lia].
Qed.

Lemma float_of_pos p :
  Z.pos p < 2 ^ 53 ->
  exists m e, float_of_Z (Z.pos p) = S754_finite false m e /\ trunc_finite false m e = Z.pos p /\
    digits2_pos m = 53%positive /\ -52 <= e <= 0.
Proof.
  intros Hp. pose proof (digits_bound p Hp) as Hd.
  unfold float_of_Z, binary_normalize, binary_round, shl_align, fexp, emin, trunc_finite.
  replace (Z.max (Z.pos (digits2_pos p) + 0 - 53) (3 - 1024 - 53) - 0)
    with (Z.pos (digits2_pos p) - 53) by lia.
  destruct (Z.pos (digits2_pos p) - 53) as [|k|k] eqn:Hk; [|lia|].
  - exists p, 0. rewrite round_aux_exact by lia. split_and!; [done|cbn; lia|lia|lia|lia].
  - exists (Pos.iter xO p k), (Z.neg k).
    replace (Z.max _ _) with (Z.neg k) by lia.
    rewrite round_aux_exact; [|rewrite digits_shift; lia|lia].
    split_and!; [done| |rewrite digits_shift; lia|lia|lia].
    cbn [Z.leb Z.compare Z.opp]. rewrite shift_value. apply Z.div_mul. lia.
Qed.

Section Exact.
Variable int64_oor : float64 -> Z.

Lemma int64_of_float_of_Z n : 0 <= n < 2 ^ 53 -> int64_of_float int64_oor (float_of_Z n) = n.
Proof.
  intros Hn. destruct n as [|p|p]; [done| |lia].
  destruct (float_of_pos p) as (m & e & -> & Ht & _); [lia|].
  cbn [int64_of_float]. rewrite Ht. unfold int64_min, int64_max.
  destruct (Z.leb_spec (- 2 ^ 63) (Z.pos p)); [|lia].
  by destruct (Z.leb_spec (Z.pos p) (2 ^ 63 - 1)); [|lia].
Qed.

Lemma float_sub_diag_mul n v :
  0 <= n < 2 ^ 53 -> (exists s m e, v = S754_finite s m e) ->
  int64_of_float int64_oor
    (SFmul 53 1024 (SFsub 53 1024 (float_of_Z n) (float_of_Z n)) v) = 0.
Proof.
  intros Hn (s & m & e & ->). destruct n as [|p|p]; [done| |lia].
  destruct (float_of_pos p) as (m' & e' & -> & _); [lia|].
  cbn [SFsub]. by rewrite Z.sub_diag.
Qed.
End Exact.
