(* ===== verification/GoFloat.v ===== *)
(** * GoFloat: how far a rounded float64 is from the exact value

    Go's conversions to float64 and its products round to the nearest binary64
    value, ties to even: Rocq's [binary_round_aux]. For positive numbers well
    inside the exponent range the result has a 53-bit mantissa and is within one
    part in 2^52 of the exact value, and comparing two such floats compares the
    numbers they stand for. *)
From S2P Require Import Prelude GoTime.

Open Scope Z_scope.

Lemma digits_range p : 2 ^ (Z.pos (digits2_pos p) - 1) <= Z.pos p < 2 ^ Z.pos (digits2_pos p).
Proof.
  induction p as [p IH|p IH|]; cbn [digits2_pos]; [| |done];
    rewrite Pos2Z.inj_succ; replace (Z.succ (Z.pos (digits2_pos p)) - 1) with (Z.succ (Z.pos (digits2_pos p) - 1)) by lia;
    rewrite !Z.pow_succ_r by lia; lia.
Qed.

Lemma digits_unique p d : 0 < d -> 2 ^ (d - 1) <= Z.pos p < 2 ^ d -> Z.pos (digits2_pos p) = d.
Proof.
  intros Hd Hp. pose proof (digits_range p) as Hr. destruct (Z.lt_trichotomy (Z.pos (digits2_pos p)) d) as [Hl|[?|Hl]]; [|done|].
  - assert (2 ^ Z.pos (digits2_pos p) <= 2 ^ (d - 1)) by (apply Z.pow_le_mono_r; lia). lia.
  - assert (2 ^ d <= 2 ^ (Z.pos (digits2_pos p) - 1)) by (apply Z.pow_le_mono_r; lia). lia.
Qed.

(** Shifting right by [n] divides by 2^n. *)
Lemma shr_1_m r : 0 <= r.(shr_m) -> (shr_1 r).(shr_m) = r.(shr_m) / 2.
Proof.
  destruct r as [m b s]. cbn. intros Hm. destruct m as [|[p|p|]|]; cbn; try done; try lia.
  - rewrite Pos2Z.inj_xI. apply Z.div_unique with 1; lia.
  - rewrite Pos2Z.inj_xO. rewrite Z.mul_comm, Z.div_mul; lia.
Qed.

Lemma iter_shr n r : 0 <= r.(shr_m) -> (iter_pos shr_1 n r).(shr_m) = r.(shr_m) / 2 ^ Z.pos n.
Proof.
  revert r. induction n as [n IH|n IH|]; intros r Hr; cbn [iter_pos].
  - assert (H1 : 0 <= (shr_1 r).(shr_m)) by (rewrite shr_1_m by done; apply Z.div_pos; lia).
    assert (H2 : 0 <= (iter_pos shr_1 n (shr_1 r)).(shr_m)) by (rewrite IH by done; apply Z.div_pos; lia).
    rewrite IH, IH, shr_1_m by done. rewrite !Z.div_div by lia. f_equal.
    replace (Z.pos n~1) with (1 + Z.pos n + Z.pos n) by lia. rewrite !Z.pow_add_r by lia. lia.
  - assert (H2 : 0 <= (iter_pos shr_1 n r).(shr_m)) by (rewrite IH by done; apply Z.div_pos; lia).
    rewrite IH, IH by done. rewrite !Z.div_div by lia. f_equal.
    replace (Z.pos n~0) with (Z.pos n + Z.pos n) by lia. rewrite !Z.pow_add_r by lia. lia.
  - by apply shr_1_m.
Qed.

(** A mantissa of exactly 53 bits, or 2^53, is only renormalised. *)
Lemma renormalise m e :
  2 ^ 52 <= m <= 2 ^ 53 -> -1000 <= e <= 900 ->
  exists m' e', (let '(mrs, e'') := shr_fexp 53 1024 m e loc_Exact in
      match mrs.(shr_m) with
      | Z0 => S754_zero false
      | Z.pos m => if e'' <=? 1024 - 53 then S754_finite false m e'' else S754_infinity false
      | _ => S754_nan
      end) = S754_finite false m' e' /\
    digits2_pos m' = 53%positive /\ e <= e' <= e + 1 /\ Z.pos m' * 2 ^ (e' - e) = m.
Proof.
  intros Hm He. destruct m as [|p|p]; [lia| |lia]. unfold shr_fexp, fexp, emin, Zdigits2, shr_record_of_loc.
  destruct (decide (Z.pos p = 2 ^ 53)) as [Heq|Hne].
  - assert (Hd : Z.pos (digits2_pos p) = 54) by (apply digits_unique; lia). rewrite Hd.
    replace (Z.max _ _ - e) with 1 by lia. injection Heq as ->. exists (2 ^ 52)%positive, (e + 1).
    cbn [shr iter_pos shr_1 shr_m].
    destruct (Z.leb_spec (e + 1) (1024 - 53)); [|lia]. split; [done|]. split; [done|]. split; [lia|].
    replace (e + 1 - e) with 1 by lia. done.
  - assert (Hd : Z.pos (digits2_pos p) = 53) by (apply digits_unique; lia).
    exists p, e. rewrite Hd. replace (Z.max _ _ - e) with 0 by lia. cbn [shr shr_m].
    destruct (Z.leb_spec e (1024 - 53)); [|lia]. split; [done|]. split; [lia|]. split; [lia|]. rewrite Z.sub_diag. cbn. lia.
Qed.

(** Rounding an exact positive number of at least 53 bits. *)
Lemma round_aux_near p ex :
  53 <= Z.pos (digits2_pos p) <= 200 -> -800 <= ex <= 500 ->
  exists m e, binary_round_aux 53 1024 false (Z.pos p) ex loc_Exact = S754_finite false m e /\
    digits2_pos m = 53%positive /\ ex <= e <= ex + Z.pos (digits2_pos p) - 52 /\
    Z.abs (Z.pos m * 2 ^ (e - ex) - Z.pos p) * 2 ^ 52 <= Z.pos p.
Proof.
  intros Hd He. pose proof (digits_range p) as Hr. set (n := Z.pos (digits2_pos p) - 53) in *.
  assert (Hp : 2 ^ 52 * 2 ^ n <= Z.pos p < 2 ^ 53 * 2 ^ n).
  { rewrite <- !Z.pow_add_r by lia. replace (52 + n) with (Z.pos (digits2_pos p) - 1) by lia.
    by replace (53 + n) with (Z.pos (digits2_pos p)) by lia. }
  assert (Hn0 : 0 < 2 ^ n) by (apply Z.pow_pos_nonneg; lia).
  unfold binary_round_aux.
  assert (Hs : exists mrs, shr_fexp 53 1024 (Z.pos p) ex loc_Exact = (mrs, ex + n) /\ mrs.(shr_m) = Z.pos p / 2 ^ n).
  { unfold shr_fexp, fexp, emin, Zdigits2. replace (Z.max _ _ - ex) with n by lia.
    destruct n as [|k|k] eqn:Hn; [|..|lia].
    - eexists. split; [cbn [shr]; by rewrite Z.add_0_r|]. cbn. by rewrite Z.div_1_r.
    - eexists. split; [reflexivity|]. by apply iter_shr. }
  destruct Hs as (mrs & -> & Hm). set (m1 := Z.pos p / 2 ^ n) in *.
  assert (H1 : m1 * 2 ^ n <= Z.pos p < (m1 + 1) * 2 ^ n).
  { pose proof (Z.div_mod (Z.pos p) (2 ^ n) ltac:(lia)). pose proof (Z.mod_pos_bound (Z.pos p) (2 ^ n) Hn0). fold m1 in H. lia. }
  assert (Hm1 : 2 ^ 52 <= m1 < 2 ^ 53) by (split; [apply Z.div_le_lower_bound|apply Z.div_lt_upper_bound]; lia).
  set (m2 := round_nearest_even (shr_m mrs) (loc_of_shr_record mrs)).
  assert (H2 : m1 <= m2 <= m1 + 1) by (subst m2; rewrite Hm; unfold round_nearest_even; repeat case_match; lia).
  destruct (renormalise m2 (ex + n)) as (m & e & Heq & Hdm & Hee & Hv); [lia|lia|].
  exists m, e. split; [exact Heq|]. split; [done|]. split; [lia|].
  replace (e - ex) with ((e - (ex + n)) + n) by lia. rewrite Z.pow_add_r, Z.mul_assoc, Hv by lia. nia.
Qed.

(** The float of a positive integer, in units of 2^-52. *)
Lemma float_of_Z_near n :
  0 < n < 2 ^ 64 ->
  exists m e, float_of_Z n = S754_finite false m e /\ digits2_pos m = 53%positive /\ -52 <= e <= 12 /\
    Z.abs (Z.pos m * 2 ^ (e + 52) - n * 2 ^ 52) <= n.
Proof.
  intros Hn. destruct n as [|p|p]; [lia| |lia]. pose proof (digits_range p) as Hr.
  assert (Hd : Z.pos (digits2_pos p) <= 64).
  { destruct (Z.le_gt_cases (Z.pos (digits2_pos p)) 64) as [|Hgt]; [done|].
    assert (2 ^ 64 <= 2 ^ (Z.pos (digits2_pos p) - 1)) by (apply Z.pow_le_mono_r; lia). lia. }
  destruct (Z.lt_ge_cases 53 (Z.pos (digits2_pos p))) as [Hd53|Hle]; last first.
  - destruct (decide (digits2_pos p = 53%positive)) as [Heq|Hne].
    + exists p, 0. split; [|split; [done|split; [lia|]]].
      * unfold float_of_Z, binary_normalize, binary_round, shl_align, fexp, emin. rewrite Heq. cbn [Z.add Z.sub Z.max Z.compare].
        replace (Z.max _ _ - 0) with 0 by lia. apply round_aux_exact; [done|lia].
      * rewrite Z.add_0_l, Z.sub_diag. cbn. lia.
    + set (k := Z.to_pos (53 - Z.pos (digits2_pos p))).
      assert (Hk : Z.pos (digits2_pos p) + Z.pos k = 53) by (subst k; rewrite Z2Pos.id; lia).
      exists (Pos.iter xO p k), (Z.neg k). split; [|split; [rewrite digits_shift; lia|split; [lia|]]].
      * unfold float_of_Z, binary_normalize, binary_round, shl_align, fexp, emin.
        replace (Z.max _ _) with (Z.neg k) by lia. rewrite Z.sub_0_r. cbv beta iota zeta. rewrite round_aux_exact; [done|rewrite digits_shift; lia|lia].
      * rewrite shift_value, <- Z.mul_assoc, <- Z.pow_add_r by lia. replace (Z.pos k + (Z.neg k + 52)) with 52 by lia.
        rewrite Z.sub_diag. cbn. lia.
  - destruct (round_aux_near p 0) as (m & e & Heq & Hdm & He & Hb); [lia|lia|].
    exists m, e. split; [|split; [done|split; [lia|]]].
    + unfold float_of_Z, binary_normalize, binary_round, shl_align, fexp, emin.
      replace (Z.max _ _ - 0) with (Z.pos (digits2_pos p) - 53) by lia.
      by destruct (Z.pos (digits2_pos p) - 53) eqn:Hx; [lia| |lia].
    + rewrite Z.sub_0_r in Hb. rewrite Z.pow_add_r by lia. nia.
Qed.
