(* ===== verification/Base64.v ===== *)
(** * Go's [base64.RawURLEncoding]

    The URL-safe alphabet without padding. As Go's decoder does, decoding
    skips CR and LF and does not check the unused trailing bits of the last
    symbol. *)
From S2P Require Import Prelude GoStrings.

#[local] Open Scope N_scope.

(** The symbol of a 6-bit value, and its value back. *)
Definition sym (v : N) : ascii :=
  ascii_of_N
    (if v <? 26 then v + 65
     else if v <? 52 then v - 26 + 97
     else if v <? 62 then v - 52 + 48
     else if v =? 62 then 45 else 95).

Definition unsym (a : ascii) : option N :=
  let c := N_of_ascii a in
  if (65 <=? c) && (c <=? 90) then Some (c - 65)
  else if (97 <=? c) && (c <=? 122) then Some (c - 97 + 26)
  else if (48 <=? c) && (c <=? 57) then Some (c - 48 + 52)
  else if c =? 45 then Some 62
  else if c =? 95 then Some 63
  else None.

Fixpoint encode_bytes (l : list ascii) : list ascii :=
  match l with
  | a :: b :: c :: r =>
      let v := N_of_ascii a * 65536 + N_of_ascii b * 256 + N_of_ascii c in
      sym (v / 262144) :: sym (v / 4096 mod 64) :: sym (v / 64 mod 64) :: sym (v mod 64)
        :: encode_bytes r
  | [a; b] =>
      let v := N_of_ascii a * 65536 + N_of_ascii b * 256 in
      [sym (v / 262144); sym (v / 4096 mod 64); sym (v / 64 mod 64)]
  | [a] =>
      let v := N_of_ascii a * 65536 in
      [sym (v / 262144); sym (v / 4096 mod 64)]
  | [] => []
  end.

Fixpoint decode_syms (l : list ascii) : option (list ascii) :=
  match l with
  | a :: b :: c :: d :: r =>
      va ← unsym a; vb ← unsym b; vc ← unsym c; vd ← unsym d;
      t ← decode_syms r;
      let v := va * 262144 + vb * 4096 + vc * 64 + vd in
      Some (ascii_of_N (v / 65536) :: ascii_of_N (v / 256 mod 256) :: ascii_of_N (v mod 256) :: t)
  | [a; b; c] =>
      va ← unsym a; vb ← unsym b; vc ← unsym c;
      let v := va * 262144 + vb * 4096 + vc * 64 in
      Some [ascii_of_N (v / 65536); ascii_of_N (v / 256 mod 256)]
  | [a; b] =>
      va ← unsym a; vb ← unsym b;
      let v := va * 262144 + vb * 4096 in
      Some [ascii_of_N (v / 65536)]
  | [_] => None
  | [] => Some []
  end.

Definition is_newline (a : ascii) : bool :=
  (N_of_ascii a =? 10) || (N_of_ascii a =? 13).

Definition EncodeToString (s : string) : string :=
  String.string_of_list_ascii (encode_bytes (String.list_ascii_of_string s)).

Definition DecodeString (s : string) : option string :=
  String.string_of_list_ascii <$>
    decode_syms (List.filter (fun a => negb (is_newline a)) (String.list_ascii_of_string s)).

(** ** Round trip *)

(** Checks a claim about every 6-bit value by evaluation. *)
Definition all64 (f : N -> bool) : bool := forallb f (N.of_nat <$> seq 0 64).

Lemma all64_spec f v : all64 f = true -> v < 64 -> f v = true.
Proof.
  intros H Hv. unfold all64 in H. rewrite forallb_forall in H. apply H.
  apply list_elem_of_In, list_elem_of_fmap. exists (N.to_nat v).
  split; [lia|]. apply elem_of_seq. lia.
Qed.

Lemma unsym_sym v : v < 64 -> unsym (sym v) = Some v.
Proof.
  intros Hv.
  apply (all64_spec (fun v => bool_decide (unsym (sym v) = Some v))) in Hv; [|vm_compute; reflexivity].
  by apply bool_decide_eq_true in Hv.
Qed.

Lemma sym_clean v : v < 64 -> is_newline (sym v) = false /\ sym v <> "."%char.
Proof.
  intros Hv.
  apply (all64_spec (fun v => negb (is_newline (sym v)) && bool_decide (sym v <> "."%char))) in Hv;
    [|vm_compute; reflexivity].
  bool_prop. by split.
Qed.

Lemma byte_bound a : N_of_ascii a < 256.
Proof. apply N_ascii_bounded. Qed.

(** Induction three bytes at a time. *)
Lemma list_ind3 {A} (P : list A -> Prop) :
  P [] -> (forall a, P [a]) -> (forall a b, P [a; b]) ->
  (forall a b c l, P l -> P (a :: b :: c :: l)) -> forall l, P l.
Proof.
  intros H0 H1 H2 H3 l. remember (length l) as n eqn:Hn. revert l Hn.
  induction n as [n IH] using lt_wf_ind. intros [|a [|b [|c l]]] ->; auto.
  apply H3. eapply IH; [|done]. cbn. lia.
Qed.

Lemma byte_of a k : k = N_of_ascii a -> ascii_of_N k = a.
Proof. intros ->. apply ascii_N_embedding. Qed.

Ltac bytes_lia :=
  repeat match goal with
  | a : ascii |- _ =>
      lazymatch goal with
      | _ : N_of_ascii a < 256 |- _ => fail
      | _ => pose proof (byte_bound a)
      end
  end; zify; Z.to_euclidean_division_equations; lia.

Lemma encode_syms_clean l :
  Forall (fun a => is_newline a = false /\ a <> "."%char) (encode_bytes l).
Proof.
  induction l as [|a|a b|a b c l IH] using list_ind3; cbn [encode_bytes];
    repeat (apply Forall_cons; split); try done; try apply Forall_nil_2; apply sym_clean; bytes_lia.
Qed.

Lemma decode_encode_bytes l : decode_syms (encode_bytes l) = Some l.
Proof.
  induction l as [|a|a b|a b c l IH] using list_ind3; cbn [encode_bytes]; [done|..];
    cbn [decode_syms]; rewrite !unsym_sym by bytes_lia; cbn [mbind option_bind];
    rewrite ?IH; cbn [mbind option_bind]; repeat f_equal; apply byte_of; bytes_lia.
Qed.

Lemma DecodeString_EncodeToString s : DecodeString (EncodeToString s) = Some s.
Proof.
  unfold DecodeString, EncodeToString. rewrite String.list_ascii_of_string_of_list_ascii.
  assert (List.filter (fun a => negb (is_newline a)) (encode_bytes (String.list_ascii_of_string s))
          = encode_bytes (String.list_ascii_of_string s)) as ->.
  { pose proof (encode_syms_clean (String.list_ascii_of_string s)) as H.
    induction H as [|a l [Ha _] ? IH]; [done|]. cbn. by rewrite Ha, IH. }
  rewrite decode_encode_bytes. cbn. by rewrite String.string_of_list_ascii_of_string.
Qed.

Lemma EncodeToString_clean s : clean "." (EncodeToString s).
Proof.
  unfold clean, EncodeToString. pose proof (encode_syms_clean (String.list_ascii_of_string s)) as H.
  induction H as [|a l [_ Ha] ? IH]; [done|]. cbn. by rewrite bool_decide_false.
Qed.
