(* ===== verification/TokenClaims.v ===== *)
(** * token/token.go: the claim set and its JSON

    The text grammar of JSON is the [encoding/json/jsontext] package's; here a
    parsed text is a [json] value. What [encoding/json/v2] does with it is
    modelled: duplicate member names are refused at any depth, members are
    matched by exact name, unknown ones are ignored, null leaves the zero
    value, and a value of another type is an error. *)
From S2P Require Import Prelude GoStrings TokenPath TokenGrant GoTime.

Inductive json :=
| JNull
| JBool (b : bool)
| JNum (v : float64)
| JStr (s : string)
| JArr (l : list json)
| JObj (m : list (string * json)).

(** Whether every object in the value has distinct member names. *)
Fixpoint no_dups (v : json) : bool :=
  match v with
  | JArr l => forallb no_dups l
  | JObj m => bool_decide (NoDup m.*1) && forallb (fun p => no_dups p.2) m
  | _ => true
  end.

Fixpoint member (name : string) (m : list (string * json)) : option json :=
  match m with
  | [] => None
  | (k, v) :: m' => if bool_decide (k = name) then Some v else member name m'
  end.

(** Decoding a member into a Go field of type [string], [*string], [[]string]
    and [*float64]; [None] is the decoder's error. *)
Definition as_string (o : option json) : option string :=
  match o with
  | None | Some JNull => Some ""
  | Some (JStr s) => Some s
  | _ => None
  end.

Definition as_string_ptr (o : option json) : option (option string) :=
  match o with
  | None | Some JNull => Some None
  | Some (JStr s) => Some (Some s)
  | _ => None
  end.

Definition as_strings (o : option json) : option (list string) :=
  match o with
  | None | Some JNull => Some []
  | Some (JArr l) => mapM (fun v => as_string (Some v)) l
  | _ => None
  end.

Definition as_float_ptr (o : option json) : option (option float64) :=
  match o with
  | None | Some JNull => Some None
  | Some (JNum v) => Some (Some v)
  | _ => None
  end.

(** A JSON value read as a struct or a map: the members of an object, none
    for null. *)
Definition as_members (v : json) : option (list (string * json)) :=
  match v with
  | JNull => Some []
  | JObj m => Some m
  | _ => None
  end.

(** [pathAuth]. *)
Record pathAuth := mkPathAuth {
  pa_Root : string;
  Pub : option string;
  Sub : option string
}.

Definition as_path_auth (o : option json) : option (option pathAuth) :=
  match o with
  | None | Some JNull => Some None
  | Some v =>
      m ← match v with JObj m => Some m | _ => None end;
      root ← as_string (member "root" m);
      pub ← as_string_ptr (member "pub" m);
      sub ← as_string_ptr (member "sub" m);
      Some (Some (mkPathAuth root pub sub))
  end.

(** [claims], a token's claim set as encoded. *)
Record claims := mkClaims {
  c_PathAuth : option pathAuth;
  c_Root : string;
  c_Publish : list string;
  c_Subscribe : list string;
  c_Create : list string;
  c_Post : list string;
  c_Redact : list string;
  c_Subject : string;
  c_IssuedAt : option float64;
  c_NotBefore : option float64;
  c_ExpiresAt : option float64;
  c_ID : string
}.

Definition as_claims (v : json) : option claims :=
  m ← as_members v;
  pa ← as_path_auth (member "path_auth" m);
  root ← as_string (member "root" m);
  publish ← as_strings (member "publish" m);
  subscribe ← as_strings (member "subscribe" m);
  create ← as_strings (member "create" m);
  post ← as_strings (member "post" m);
  redact ← as_strings (member "redact" m);
  sub ← as_string (member "sub" m);
  iat ← as_float_ptr (member "iat" m);
  nbf ← as_float_ptr (member "nbf" m);
  exp ← as_float_ptr (member "exp" m);
  jti ← as_string (member "jti" m);
  Some (mkClaims pa root publish subscribe create post redact sub iat nbf exp jti).

(** What [json.Marshal] writes for [claims] without a [path_auth], which
    [Sign] never sets: the members tagged [omitempty] or [omitzero] are left
    out when empty, the dates are always there. *)
Definition opt_member (name : string) (omit : bool) (v : json) : list (string * json) :=
  if omit then [] else [(name, v)].

Definition of_float_ptr (o : option float64) : json :=
  match o with Some v => JNum v | None => JNull end.

Definition of_strings (name : string) (l : list string) : list (string * json) :=
  opt_member name (bool_decide (l = [])) (JArr (JStr <$> l)).

Definition of_string (name : string) (s : string) : list (string * json) :=
  opt_member name (bool_decide (s = "")) (JStr s).

Definition of_claims (c : claims) : json :=
  JObj (of_string "root" c.(c_Root) ++
        of_strings "publish" c.(c_Publish) ++
        of_strings "subscribe" c.(c_Subscribe) ++
        of_strings "create" c.(c_Create) ++
        of_strings "post" c.(c_Post) ++
        of_strings "redact" c.(c_Redact) ++
        of_string "sub" c.(c_Subject) ++
        [("iat", of_float_ptr c.(c_IssuedAt)); ("nbf", of_float_ptr c.(c_NotBefore));
         ("exp", of_float_ptr c.(c_ExpiresAt))] ++
        of_string "jti" c.(c_ID)).

(** The JOSE header: [alg], [kid] and the raw [crit], [None] when absent. *)
Record header := mkHeader { Alg : string; Kid : string; Crit : option json }.

Definition as_header (v : json) : option header :=
  m ← as_members v;
  alg ← as_string (member "alg" m);
  kid ← as_string (member "kid" m);
  Some (mkHeader alg kid (member "crit" m)).

(** [allowedClaims] and [grantClaims]. *)
Definition allowedClaims : list string :=
  ["path_auth"; "root"; "publish"; "subscribe"; "create"; "post"; "redact";
   "sub"; "iat"; "nbf"; "exp"; "jti"].

Definition grantClaims : list string :=
  ["root"; "publish"; "subscribe"; "create"; "post"; "redact"].

Definition has_member (name : string) (m : list (string * json)) : bool :=
  match member name m with Some _ => true | None => false end.

(** [claims.grant]. *)
Definition claims_grant (c : claims) : Grant :=
  mkGrant (mkMoqGrant c.(c_Root) c.(c_Publish) c.(c_Subscribe) 0)
          c.(c_Create) c.(c_Post) c.(c_Redact) c.(c_Subject).

(** ** What is written is read back *)

Definition member_names : list string :=
  ["root"; "publish"; "subscribe"; "create"; "post"; "redact"; "sub"; "iat"; "nbf"; "exp"; "jti"].

Lemma member_app name m1 m2 :
  member name (m1 ++ m2) = match member name m1 with Some v => Some v | None => member name m2 end.
Proof. induction m1 as [|[k v] m1 IH]; cbn; [done|]. by case_bool_decide. Qed.

Lemma skip_string name n s m : n <> name -> member name (of_string n s ++ m) = member name m.
Proof.
  intros H. unfold of_string, opt_member. case_bool_decide; cbn; [done|]. by rewrite bool_decide_false.
Qed.

Lemma skip_strings name n l m : n <> name -> member name (of_strings n l ++ m) = member name m.
Proof.
  intros H. unfold of_strings, opt_member. case_bool_decide; cbn; [done|]. by rewrite bool_decide_false.
Qed.

Lemma as_string_of name s m :
  member name m = None -> as_string (member name (of_string name s ++ m)) = Some s.
Proof.
  intros H. unfold of_string, opt_member. case_bool_decide; cbn; [by subst; rewrite H|].
  by rewrite bool_decide_true.
Qed.

Lemma as_strings_of name l m :
  member name m = None -> as_strings (member name (of_strings name l ++ m)) = Some l.
Proof.
  intros H. unfold of_strings, opt_member. case_bool_decide as Hl; cbn; [by subst; rewrite H|].
  rewrite bool_decide_true by done. cbn. clear. induction l as [|s l IH]; [done|]. cbn. by rewrite IH.
Qed.

Lemma as_float_of o : as_float_ptr (Some (of_float_ptr o)) = Some o.
Proof. by destruct o. Qed.

Lemma bind_eq {A B} (o : option A) (f : A -> option B) a r :
  o = Some a -> f a = r -> o ≫= f = r.
Proof. by intros ->. Qed.

(** Steps over the members with another name, then reads the one asked for. *)
Ltac skip_members :=
  repeat first [ rewrite skip_string by done | rewrite skip_strings by done ];
  cbn [member app]; repeat rewrite bool_decide_false by done;
  repeat first [ rewrite skip_string by done | rewrite skip_strings by done ].

Ltac read_member :=
  eapply bind_eq;
  [ skip_members;
    first [ apply as_string_of; by skip_members | apply as_strings_of; by skip_members
          | rewrite bool_decide_true by done; apply as_float_of | reflexivity ]
  | cbn beta ].

Lemma as_claims_of c : c.(c_PathAuth) = None -> as_claims (of_claims c) = Some c.
Proof.
  destruct c as [pa root pub sub cr post red subj iat nbf exp jti]. cbn [c_PathAuth]. intros ->.
  unfold as_claims, of_claims.
  cbn [c_Root c_Publish c_Subscribe c_Create c_Post c_Redact c_Subject
       c_IssuedAt c_NotBefore c_ExpiresAt c_ID].
  rewrite <- (app_nil_r (of_string "jti" jti)).
  eapply bind_eq; [done|]. cbn beta. do 12 read_member. done.
Qed.

(** ** Names are written once *)

Lemma no_dups_strings l : forallb no_dups (JStr <$> l) = true.
Proof. by induction l. Qed.

(** The names an optional member contributes, and that its value is fine. *)
Definition wf_members (names : list string) (m : list (string * json)) : Prop :=
  m.*1 `sublist_of` names /\ forallb (fun p => no_dups p.2) m = true.

Lemma wf_nil : wf_members [] [].
Proof. by split. Qed.

Lemma wf_string n s names m : wf_members names m -> wf_members (n :: names) (of_string n s ++ m).
Proof.
  intros [Hs Hd]. unfold of_string, opt_member. case_bool_decide; cbn.
  - by split; [constructor|].
  - by split; [constructor|].
Qed.

Lemma wf_strings n l names m : wf_members names m -> wf_members (n :: names) (of_strings n l ++ m).
Proof.
  intros [Hs Hd]. unfold of_strings, opt_member. case_bool_decide; cbn.
  - by split; [constructor|].
  - split; [by constructor|]. cbn. by rewrite no_dups_strings, Hd.
Qed.

Lemma wf_cons n v names m :
  no_dups v = true -> wf_members names m -> wf_members (n :: names) ((n, v) :: m).
Proof. intros Hv [Hs Hd]. split; cbn; [by constructor|by rewrite Hv, Hd]. Qed.

Lemma wf_no_dups names m : NoDup names -> wf_members names m -> no_dups (JObj m) = true.
Proof.
  intros Hn [Hs Hd]. cbn. rewrite Hd, andb_true_r. apply bool_decide_eq_true.
  by eapply sublist_NoDup.
Qed.

Lemma of_float_no_dups o : no_dups (of_float_ptr o) = true.
Proof. by destruct o. Qed.

Lemma wf_claims c m : of_claims c = JObj m -> wf_members member_names m.
Proof.
  unfold of_claims, member_names. intros [= <-].
  rewrite <- (app_nil_r (of_string "jti" _)).
  repeat first [ apply wf_string | apply wf_strings | apply wf_cons; [apply of_float_no_dups|]
               | apply wf_nil | progress cbn [app] ].
Qed.

Lemma claims_no_dups c m : of_claims c = JObj m -> no_dups (JObj m) = true.
Proof.
  intros H. apply (wf_no_dups member_names); [by apply (bool_decide_eq_true_1 _)|by eapply wf_claims].
Qed.

Lemma of_claims_obj c : exists m, of_claims c = JObj m.
Proof. by eexists. Qed.
