(* ===== verification/TokenKey.v ===== *)
(** * token/key.go: signing keys and key sets

    Keys are JWKs (RFC 8037). SHA-256, Ed25519 and the text grammar of JSON are
    the Go standard library's primitives: they are the operations of [Crypto]
    and [JsonText], with the laws the code relies on. *)
From S2P Require Import Prelude GoStrings TokenPath TokenGrant GoTime Base64 TokenClaims.

Class Crypto := {
  sha256 : string -> string;
  (** [ed25519.NewKeyFromSeed], [PrivateKey.Public] and [PrivateKey.Seed]. *)
  NewKeyFromSeed : string -> string;
  PublicOf : string -> string;
  SeedOf : string -> string;
  ed25519_Sign : string -> string -> string;
  ed25519_Verify : string -> string -> string -> bool
}.

Class CryptoLaws `{Crypto} := {
  (** A signature verifies under the signer's public key. *)
  verify_sign priv msg : ed25519_Verify (PublicOf priv) msg (ed25519_Sign priv msg) = true;
  seed_key seed : String.length seed = 32 -> SeedOf (NewKeyFromSeed seed) = seed;
  sha256_size msg : String.length (sha256 msg) = 32
}.

Class JsonText := {
  json_parse : string -> option json;
  (** [None] for a value that can't be encoded, such as invalid UTF-8. *)
  json_print : json -> option string
}.

Class JsonLaws `{JsonText} := {
  parse_print v t : json_print v = Some t -> json_parse t = Some v
}.

(** [json.Unmarshal] up to the target type: parse, refusing duplicate names. *)
Definition unmarshal `{JsonText} (raw : string) : option json :=
  v ← json_parse raw; if no_dups v then Some v else None.

Lemma unmarshal_print `{JsonLaws} v t :
  no_dups v = true -> json_print v = Some t -> unmarshal t = Some v.
Proof. intros Hv Ht. unfold unmarshal. rewrite (parse_print v t Ht). cbn. by rewrite Hv. Qed.

(** ** Keys *)

Record Key := mkKey {
  ID : string;
  Public : string;
  Prefix : string;
  Pause : list Action
}.

Record SigningKey := mkSigningKey {
  sk_ID : string;
  Private : string;
  sk_Prefix : string
}.

#[export] Instance Key_eq_dec : EqDecision Key.
Proof. solve_decision. Defined.

Definition Holds (k : Key) (root : string) : bool :=
  bool_decide (root = "") || within root k.(Prefix).

Definition Pauses (k : Key) (action : Action) : bool := bool_decide (action ∈ k.(Pause)).

(** Why a key or a key set was refused. *)
Inductive key_error :=
| KeyDecode | NoKeys | KeyType | KeyPrivatePart | KeyBytes | KeyKid | KeyTwice
| KeyPrefix | KeyPause.

#[export] Instance key_error_eq_dec : EqDecision key_error.
Proof. solve_decision. Defined.

Definition normalizePause (pause : list Action) : result key_error (list Action) :=
  guard_err (forallb (fun a => bool_decide (a = ActionPublish)) pause) KeyPause;;
  if bool_decide (pause = []) then Ok [] else Ok [ActionPublish].

(** [jwk]. *)
Record jwk := mkJwk {
  Kty : string; Crv : string; X : string; D : string; j_Kid : string;
  j_Prefix : string; j_Pause : list Action
}.

Definition as_jwk (v : json) : option jwk :=
  m ← as_members v;
  kty ← as_string (member "kty" m);
  crv ← as_string (member "crv" m);
  x ← as_string (member "x" m);
  d ← as_string (member "d" m);
  kid ← as_string (member "kid" m);
  prefix ← as_string (member "prefix" m);
  pause ← as_strings (member "pause" m);
  Some (mkJwk kty crv x d kid prefix pause).

Definition of_jwk (j : jwk) : json :=
  JObj ([("kty", JStr j.(Kty)); ("crv", JStr j.(Crv)); ("x", JStr j.(X))] ++
        of_string "d" j.(D) ++ of_string "kid" j.(j_Kid) ++
        of_string "prefix" j.(j_Prefix) ++ of_strings "pause" j.(j_Pause)).

Definition key_jwk (k : Key) : jwk :=
  mkJwk "OKP" "Ed25519" (EncodeToString k.(Public)) "" k.(ID) k.(Prefix) k.(Pause).

Section Keys.
Context `{Crypto} `{JsonText}.

Definition quote : string := String (ascii_of_nat 34) "".

Definition thumbprint (x : string) : string :=
  EncodeToString (sha256 (
    "{" +:+ quote +:+ "crv" +:+ quote +:+ ":" +:+ quote +:+ "Ed25519" +:+ quote +:+ "," +:+
    quote +:+ "kty" +:+ quote +:+ ":" +:+ quote +:+ "OKP" +:+ quote +:+ "," +:+
    quote +:+ "x" +:+ quote +:+ ":" +:+ quote +:+ EncodeToString x +:+ quote +:+ "}")).

(** [GenerateKey] with the random private key as an argument. *)
Definition GenerateKey (priv prefix : string) : result key_error SigningKey :=
  norm ← map_err (fun _ => KeyPrefix) (Directory prefix);
  Ok (mkSigningKey (thumbprint (PublicOf priv)) priv norm).

Definition SigningKey_Public (k : SigningKey) : Key :=
  mkKey k.(sk_ID) (PublicOf k.(Private)) k.(sk_Prefix) [].

(** The loop of [MarshalKeySet] that builds the set. *)
Fixpoint marshal_keys (keys : list Key) : result key_error (list jwk) :=
  match keys with
  | [] => Ok []
  | k :: keys' =>
      pause ← normalizePause k.(Pause);
      rest ← marshal_keys keys';
      let j := key_jwk k in
      Ok (mkJwk j.(Kty) j.(Crv) j.(X) j.(D) j.(j_Kid) j.(j_Prefix) pause :: rest)
  end.

Definition MarshalKeySet (keys : list Key) : result key_error string :=
  js ← marshal_keys keys;
  of_option KeyDecode (json_print (JObj [("keys", JArr (of_jwk <$> js))])).

Definition MarshalJWK (k : SigningKey) : result key_error string :=
  let j := key_jwk (SigningKey_Public k) in
  of_option KeyDecode (json_print (of_jwk
    (mkJwk j.(Kty) j.(Crv) j.(X) (EncodeToString (SeedOf k.(Private))) j.(j_Kid) j.(j_Prefix)
           j.(j_Pause)))).

Definition decoded_size (s : string) (n : nat) : option string :=
  b ← DecodeString s; if bool_decide (String.length b = n) then Some b else None.

Definition ParseSigningKey (raw : string) : result key_error SigningKey :=
  v ← of_option KeyDecode (unmarshal raw);
  j ← of_option KeyDecode (as_jwk v);
  guard_err (bool_decide (j.(Kty) = "OKP") && bool_decide (j.(Crv) = "Ed25519")) KeyType;;
  seed ← of_option KeyBytes (decoded_size j.(D) 32);
  let priv := NewKeyFromSeed seed in
  let kid := thumbprint (PublicOf priv) in
  guard_err (bool_decide (j.(j_Kid) = "") || bool_decide (j.(j_Kid) = kid)) KeyKid;;
  prefix ← map_err (fun _ => KeyPrefix) (Directory j.(j_Prefix));
  Ok (mkSigningKey kid priv prefix).

(** One entry of a key set, then the loop of [ParseKeySet] over them. *)
Definition parse_key (keys : gmap string Key) (k : jwk) : result key_error (gmap string Key) :=
  guard_err (bool_decide (k.(Kty) = "OKP") && bool_decide (k.(Crv) = "Ed25519")) KeyType;;
  guard_err (bool_decide (k.(D) = "")) KeyPrivatePart;;
  x ← of_option KeyBytes (decoded_size k.(X) 32);
  let kid := thumbprint x in
  guard_err (bool_decide (k.(j_Kid) = "") || bool_decide (k.(j_Kid) = kid)) KeyKid;;
  guard_err (match keys !! kid with Some _ => false | None => true end) KeyTwice;;
  prefix ← map_err (fun _ => KeyPrefix) (Directory k.(j_Prefix));
  pause ← normalizePause k.(j_Pause);
  Ok (<[kid := mkKey kid x prefix pause]> keys).

Fixpoint parse_keys (keys : gmap string Key) (l : list jwk) : result key_error (gmap string Key) :=
  match l with
  | [] => Ok keys
  | k :: l' => keys' ← parse_key keys k; parse_keys keys' l'
  end.

Definition as_jwks (o : option json) : option (list jwk) :=
  match o with
  | None | Some JNull => Some []
  | Some (JArr l) => mapM as_jwk l
  | _ => None
  end.

Definition ParseKeySet (raw : string) : result key_error (gmap string Key) :=
  v ← of_option KeyDecode (unmarshal raw);
  m ← of_option KeyDecode (as_members v);
  set ← of_option KeyDecode (as_jwks (member "keys" m));
  guard_err (negb (bool_decide (set = []))) NoKeys;;
  parse_keys ∅ set.

(** ** Properties *)

(** A key a verifier may trust: filed under its own thumbprint, confined to a
    canonical directory, pausing at most publishing. *)
Definition key_ok (kid : string) (k : Key) : Prop :=
  k.(ID) = kid /\ kid = thumbprint k.(Public) /\ String.length k.(Public) = 32 /\
  is_directory k.(Prefix) /\ (k.(Pause) = [] \/ k.(Pause) = [ActionPublish]).

Definition keys_ok (keys : gmap string Key) : Prop := map_Forall key_ok keys.

Lemma Directory_is_directory p d : Directory p = Ok d -> is_directory d.
Proof. intros [-> Hok]%Directory_spec. by apply Directory_dir_of. Qed.

Lemma normalizePause_ok pause p : normalizePause pause = Ok p -> p = [] \/ p = [ActionPublish].
Proof. unfold normalizePause. intros Hp. inv_ok. case_bool_decide; naive_solver. Qed.

Lemma decoded_size_Some s n b : decoded_size s n = Some b -> DecodeString s = Some b /\ String.length b = n.
Proof.
  unfold decoded_size. intros (b' & Hb & Hd)%bind_Some. case_bool_decide; naive_solver.
Qed.

Lemma parse_key_ok keys k keys' : keys_ok keys -> parse_key keys k = Ok keys' -> keys_ok keys'.
Proof.
  unfold parse_key. intros Hk Hp. inv_ok. subst.
  apply map_Forall_insert_2; [|done]. unfold key_ok; cbn.
  repeat split; eauto using Directory_is_directory, normalizePause_ok.
  by eapply decoded_size_Some.
Qed.

Lemma parse_keys_ok l keys keys' : keys_ok keys -> parse_keys keys l = Ok keys' -> keys_ok keys'.
Proof.
  revert keys. induction l as [|k l IH]; cbn; intros keys Hk Hp; inv_ok; [by subst|].
  eauto using parse_key_ok.
Qed.

(** Every key of a parsed key set is filed under its own RFC 7638 thumbprint, is a
    32-byte Ed25519 key, is confined to a canonical directory, and pauses nothing
    but publishing. *)
Lemma parse_key_set_ok raw keys : ParseKeySet raw = Ok keys -> keys_ok keys.
Proof. unfold ParseKeySet. intros Hp. inv_ok. eapply parse_keys_ok; [|done]. apply map_Forall_empty. Qed.

(** A kid is never empty. *)
Lemma thumbprint_nonempty `{!CryptoLaws} x : thumbprint x <> "".
Proof.
  unfold thumbprint. intros Hx. match type of Hx with EncodeToString ?h = _ =>
    pose proof (DecodeString_EncodeToString h) as Hd; rewrite Hx in Hd; injection Hd as Hd;
    assert (String.length h = 32) as Hl by apply sha256_size; rewrite <- Hd in Hl end. done.
Qed.

(** ** A set written by [MarshalKeySet] is read back *)

Lemma as_jwk_of j : as_jwk (of_jwk j) = Some j.
Proof.
  destruct j as [kty crv x d kid prefix pause]. unfold as_jwk, of_jwk.
  cbn [Kty Crv X D j_Kid j_Prefix j_Pause].
  rewrite <- (app_nil_r (of_strings "pause" pause)).
  eapply bind_eq; [done|]. cbn beta. do 7 read_member. done.
Qed.

Lemma of_jwk_no_dups j : no_dups (of_jwk j) = true.
Proof.
  apply (wf_no_dups ["kty"; "crv"; "x"; "d"; "kid"; "prefix"; "pause"]).
  { by apply (bool_decide_eq_true_1 _). }
  rewrite <- (app_nil_r (of_strings "pause" _)). cbn [app].
  do 3 (apply wf_cons; [done|]). do 3 apply wf_string. apply wf_strings, wf_nil.
Qed.

Lemma key_set_no_dups js : no_dups (JObj [("keys", JArr (of_jwk <$> js))]) = true.
Proof.
  cbn. rewrite andb_true_r. apply forallb_elem. intros v (j & -> & _)%list_elem_of_fmap.
  apply of_jwk_no_dups.
Qed.

Lemma as_jwks_of js : as_jwks (Some (JArr (of_jwk <$> js))) = Some js.
Proof.
  cbn. induction js as [|j js IH]; [done|]. cbn [fmap list_fmap mapM].
  rewrite as_jwk_of. cbn [mbind option_bind]. by rewrite IH.
Qed.

Lemma decoded_size_Encode s n : String.length s = n -> decoded_size (EncodeToString s) n = Some s.
Proof.
  intros Hs. unfold decoded_size. rewrite DecodeString_EncodeToString. cbn.
  by rewrite bool_decide_true.
Qed.

Lemma normalizePause_canonical p : p = [] \/ p = [ActionPublish] -> normalizePause p = Ok p.
Proof. by intros [-> | ->]. Qed.

(** An entry written for a good key is read back as that key. *)
Lemma parse_key_jwk keys k :
  key_ok k.(ID) k -> keys !! k.(ID) = None -> parse_key keys (key_jwk k) = Ok (<[k.(ID) := k]> keys).
Proof.
  destruct k as [id pub prefix pause]. intros (_ & Hid & Hlen & Hdir & Hpause) Hfresh.
  cbn in *. unfold parse_key. cbn [key_jwk Kty Crv D X j_Kid j_Prefix j_Pause Public ID Prefix Pause].
  rewrite !guard_true by done. rewrite decoded_size_Encode by done.
  cbn [of_option mbind result_bind]. rewrite <- Hid.
  rewrite guard_true by (by rewrite orb_true_iff, !bool_decide_eq_true; right).
  rewrite Hfresh, guard_true by done. rewrite Hdir. cbn [map_err mbind result_bind].
  by rewrite normalizePause_canonical.
Qed.

Definition add_key (m : gmap string Key) (k : Key) : gmap string Key := <[k.(ID) := k]> m.

Lemma parse_keys_jwk ks keys :
  Forall (fun k => key_ok k.(ID) k) ks -> NoDup (ID <$> ks) ->
  Forall (fun k => keys !! k.(ID) = None) ks ->
  parse_keys keys (key_jwk <$> ks) = Ok (foldl add_key keys ks).
Proof.
  revert keys. induction ks as [|k ks IH]; intros keys Hok Hnd Hfresh; [done|].
  apply Forall_cons in Hok as [Hk Hok], Hfresh as [Hf Hfresh]. apply NoDup_cons in Hnd as [Hnin Hnd].
  cbn [fmap list_fmap parse_keys foldl]. rewrite parse_key_jwk by done. cbn [mbind result_bind].
  apply IH; [done..|]. rewrite Forall_forall in *. intros k' Hk'. unfold add_key.
  rewrite lookup_insert_ne; [by apply Hfresh|]. intros Heq. apply Hnin. rewrite Heq.
  by apply list_elem_of_fmap_2.
Qed.

Lemma marshal_keys_jwk ks js :
  Forall (fun k => key_ok k.(ID) k) ks -> marshal_keys ks = Ok js -> js = key_jwk <$> ks.
Proof.
  intros Hok. revert js. induction Hok as [|k ks (_ & _ & _ & _ & Hp) Hok IH]; cbn; intros js Hjs.
  { by inv_ok. }
  rewrite normalizePause_canonical in Hjs by done. cbn in Hjs. inv_ok. subst.
  by rewrite (IH _ H1).
Qed.

Context `{!JsonLaws}.

(** A key set [MarshalKeySet] writes is read back by [ParseKeySet] as
    the same keys, each under its kid, when the keys are distinct and as
    [GenerateKey] makes them. *)
Theorem ParseKeySet_MarshalKeySet ks raw :
  ks <> [] -> Forall (fun k => key_ok k.(ID) k) ks -> NoDup (ID <$> ks) ->
  MarshalKeySet ks = Ok raw ->
  ParseKeySet raw = Ok (foldl add_key ∅ ks).
Proof.
  intros Hne Hok Hnd Hm. unfold MarshalKeySet in Hm. inv_ok.
  match goal with Hj : marshal_keys _ = _ |- _ => apply marshal_keys_jwk in Hj as ->; [|done] end.
  unfold ParseKeySet. erewrite unmarshal_print; [|apply key_set_no_dups|done].
  cbn [of_option mbind result_bind as_members]. change (member "keys" _) with
    (Some (JArr (of_jwk <$> (key_jwk <$> ks)))). rewrite as_jwks_of.
  cbn [of_option mbind result_bind]. rewrite guard_true.
  - apply parse_keys_jwk; [done..|]. by apply Forall_true.
  - apply negb_true_iff, bool_decide_eq_false. by destruct ks.
Qed.
End Keys.
