(* ===== verification/Token.v ===== *)
(** * token/token.go: signing and verifying capability tokens *)
From S2P Require Import Prelude GoStrings TokenPath TokenGrant GoTime Base64 TokenClaims TokenKey.

#[local] Open Scope Z_scope.

Definition Leeway : Duration := 60 * Second.
Definition MaxLifetime : Duration := Hour.

Definition dot : ascii := "."%char.

(** [Claims], a verified token's. *)
Record Claims := mkVerified {
  v_Grant : Grant;
  v_ExpiresAt : Time;
  v_ID : string;
  v_Key : Key
}.

#[export] Instance Claims_eq_dec : EqDecision Claims.
Proof. solve_decision. Defined.

Section Token.
Context `{Moqt} `{Crypto} `{JsonText}.
Variable int64_oor : float64 -> Z.

Definition numericDate (v : float64) : Time :=
  let sec := int64_of_float int64_oor v in
  time_Unix sec (int64_of_float int64_oor
    (SFmul 53 1024 (SFsub 53 1024 v (float_of_Z sec)) (float_of_Z Second))).

(** [checkTime]: [expiry] set refuses an expired token. *)
Definition checkTime (c : claims) (now : Time) (expiry : bool) : result token_error Time :=
  match c.(c_ExpiresAt), c.(c_NotBefore), c.(c_IssuedAt) with
  | Some e, Some n, Some i =>
      let exp := numericDate e in
      let nbf := numericDate n in
      let iat := numericDate i in
      let lifetime := time_Sub exp iat in
      guard_err (negb ((lifetime <=? 0) || (MaxLifetime <? lifetime))) ErrInvalid;;
      guard_err (negb (expiry && negb (Before now (time_Unix (Unix (time_Add exp Leeway)) 0)))) ErrInvalid;;
      guard_err (negb (Before (time_Add now Leeway) nbf || Before (time_Add now Leeway) iat)) ErrInvalid;;
      Ok exp
  | _, _, _ => Err ErrInvalid
  end.

(** [grantOf]: [path_auth] read as a grant. *)
Definition atAndBeneath_of (o : option string) : result token_error (list string) :=
  match o with
  | None => Ok []
  | Some s => map_err (fun _ => ErrInvalid) (atAndBeneath s)
  end.

Definition grantOf (pa : pathAuth) (prefix : string) : result token_error Grant :=
  guard_err (match pa.(Pub), pa.(Sub) with None, None => false | _, _ => true end) ErrForbidden;;
  root ← map_err (fun _ => ErrInvalid) (Directory pa.(pa_Root));
  guard_err (within root prefix) ErrForbidden;;
  publish ← atAndBeneath_of pa.(Pub);
  subscribe ← atAndBeneath_of pa.(Sub);
  Ok (mkGrant (mkMoqGrant root publish subscribe 0) [] [] [] "").

(** [decodeSegment]: base64url, then JSON. *)
Definition decodeSegment (seg : string) : option json :=
  raw ← DecodeString seg; unmarshal raw.

(** The claims' grant, by which of its two forms the token carries. *)
Definition claimed_grant (members : list (string * json)) (c : claims) (prefix : string) :
    result token_error Grant :=
  let hasPathAuth := has_member "path_auth" members in
  let hasSubject := has_member "sub" members in
  let hasGrant := existsb (fun name => has_member name members) grantClaims in
  if hasPathAuth && hasGrant then Err ErrInvalid
  else if negb hasPathAuth then checked (claims_grant c) prefix
  else match c.(c_PathAuth) with
       | None => Err ErrInvalid
       | Some pa => if hasSubject then Err ErrInvalid else grantOf pa prefix
       end.

Definition verify (token : string) (keys : gmap string Key) (now : Time) (expiry : bool) :
    result token_error Claims :=
  match Split dot token with
  | [p0; p1; p2] =>
      hv ← of_option ErrInvalid (decodeSegment p0);
      hd ← of_option ErrInvalid (as_header hv);
      guard_err (match hd.(Crit) with Some _ => false | None => true end) ErrInvalid;;
      guard_err (bool_decide (hd.(Alg) = "EdDSA")) ErrInvalid;;
      key ← of_option ErrInvalid (keys !! hd.(Kid));
      guard_err (match DecodeString p2 with
                 | Some sig => ed25519_Verify key.(Public) (p0 +:+ "." +:+ p1) sig
                 | None => false
                 end) ErrInvalid;;
      v ← of_option ErrInvalid (decodeSegment p1);
      members ← of_option ErrInvalid (as_members v);
      guard_err (forallb (fun p => bool_decide (p.1 ∈ allowedClaims)) members) ErrInvalid;;
      c ← of_option ErrInvalid (as_claims v);
      exp ← checkTime c now expiry;
      g ← claimed_grant members c key.(Prefix);
      Ok (mkVerified g exp c.(c_ID) key)
  | _ => Err ErrInvalid
  end.

Definition Verify (token : string) (keys : gmap string Key) (now : Time) := verify token keys now true.
Definition VerifyLive (token : string) (keys : gmap string Key) (now : Time) := verify token keys now false.

(** [signAt]: [jti] is the random identifier [rand.Text()] drew. *)
Inductive sign_error := BadTTL | BadGrant (e : token_error) | EncodeFailed.

Definition sign_claims (g : Grant) (ttl : Duration) (now : Time) (jti : string) : claims :=
  let iat := float_of_Z (Unix now) in
  let exp := float_of_Z (Unix (time_Add now ttl)) in
  mkClaims None g.(Root) g.(Publish) g.(Subscribe) g.(Create) g.(Post) g.(Redact) g.(Subject)
           (Some iat) (Some iat) (Some exp) jti.

Definition sign_header (kid : string) : json :=
  JObj [("alg", JStr "EdDSA"); ("kid", JStr kid); ("typ", JStr "JWT")].

Definition signAt (key : SigningKey) (g : Grant) (ttl : Duration) (now : Time) (jti : string) :
    result sign_error string :=
  guard_err (negb ((ttl <=? 0) || (MaxLifetime <? ttl))) BadTTL;;
  g ← map_err BadGrant (checked g key.(sk_Prefix));
  header ← of_option EncodeFailed (json_print (sign_header key.(sk_ID)));
  body ← of_option EncodeFailed (json_print (of_claims (sign_claims g ttl now jti)));
  let input := EncodeToString header +:+ "." +:+ EncodeToString body in
  Ok (input +:+ "." +:+ EncodeToString (ed25519_Sign key.(Private) input)).

(** ** What a verified token guarantees *)

Lemma atAndBeneath_of_ok o l : atAndBeneath_of o = Ok l -> (o = None /\ l = []) \/ l <> [].
Proof.
  destruct o as [s|]; cbn; intros Hl; inv_ok; [right|by left].
  unfold atAndBeneath in Hl. inv_ok. case_bool_decide; inv_ok; by subst.
Qed.

Lemma grantOf_ok pa prefix g :
  grantOf pa prefix = Ok g ->
  is_directory g.(Root) /\ within g.(Root) prefix = true /\ g.(MaxAge) = 0 /\
  (g.(Publish) <> [] \/ g.(Subscribe) <> []) /\
  g.(Create) = [] /\ g.(Post) = [] /\ g.(Redact) = [].
Proof.
  unfold grantOf. intros Hg. inv_ok. subst. cbn.
  split; [by eapply Directory_is_directory|]. repeat split; try done.
  repeat match goal with Ha : atAndBeneath_of _ = Ok _ |- _ => apply atAndBeneath_of_ok in Ha end.
  destruct (Pub pa), (Sub pa); naive_solver.
Qed.

(** The grant of a verified token: one [checked] passes, or one read from a
    [path_auth]. *)
Definition confined (g : Grant) (prefix : string) : Prop :=
  (g.(Root) = "" /\ forall a, Patterns g a = []) \/
  (is_directory g.(Root) /\ within g.(Root) prefix = true).

Lemma grant_ok_confined g prefix : grant_ok g prefix -> confined g prefix.
Proof.
  intros [_ [[Hr Hp]|(Hd & Hw & _)]]; [left|by right]. split; [done|]. intros a.
  destruct (Patterns g a) as [|s l] eqn:E; [done|].
  rewrite <- E. apply Hp. apply (Patterns_known g a s). rewrite E. by left.
Qed.

Lemma claimed_grant_confined members c prefix g :
  claimed_grant members c prefix = Ok g -> confined g prefix.
Proof.
  unfold claimed_grant. intros Hg. repeat case_match; try done.
  - apply checked_ok in Hg as [-> Hg]. by apply grant_ok_confined.
  - apply grantOf_ok in Hg as (? & ? & _). by right.
Qed.

(** The time window [checkTime] enforces, with whole-second expiry. *)
Definition in_window (iat nbf exp now : Time) (expiry : bool) : Prop :=
  0 < time_Sub exp iat <= MaxLifetime /\
  (expiry = true -> now < time_Unix (Unix (time_Add exp Leeway)) 0) /\
  nbf <= time_Add now Leeway /\ iat <= time_Add now Leeway.

Lemma checkTime_ok c now expiry exp :
  checkTime c now expiry = Ok exp ->
  exists e n i, c.(c_ExpiresAt) = Some e /\ c.(c_NotBefore) = Some n /\ c.(c_IssuedAt) = Some i /\
    exp = numericDate e /\ in_window (numericDate i) (numericDate n) exp now expiry.
Proof.
  unfold checkTime. intros Hc. destruct (c_ExpiresAt c) as [e|], (c_NotBefore c) as [n|],
    (c_IssuedAt c) as [i|]; try done. inv_ok. subst. exists e, n, i.
  unfold in_window, Before in *. bool_prop. repeat split; try lia.
  intros ->. cbn in *. bool_prop. lia.
Qed.

(** Everything a successful [verify] checked. *)
Lemma verify_inv token keys now expiry c :
  verify token keys now expiry = Ok c ->
  exists p0 p1 p2 hv hd sig v members cl,
    Split dot token = [p0; p1; p2] /\ decodeSegment p0 = Some hv /\ as_header hv = Some hd /\
    hd.(Crit) = None /\ hd.(Alg) = "EdDSA" /\ keys !! hd.(Kid) = Some c.(v_Key) /\
    DecodeString p2 = Some sig /\
    ed25519_Verify c.(v_Key).(Public) (p0 +:+ "." +:+ p1) sig = true /\
    decodeSegment p1 = Some v /\ as_members v = Some members /\
    Forall (fun p => p.1 ∈ allowedClaims) members /\ as_claims v = Some cl /\
    checkTime cl now expiry = Ok c.(v_ExpiresAt) /\
    claimed_grant members cl c.(v_Key).(Prefix) = Ok c.(v_Grant) /\ c.(v_ID) = cl.(c_ID).
Proof.
  unfold verify. intros Hv. destruct (Split dot token) as [|p0 [|p1 [|p2 [|]]]]; try done.
  inv_ok. subst. cbn.
  repeat match goal with
  | Hm : match DecodeString p2 with _ => _ end = true |- _ => destruct (DecodeString p2) as [sig|] eqn:?; [|done]
  | Hm : match Crit ?h with _ => _ end = true |- _ => destruct (Crit h) eqn:?; [done|]
  | Hm : bool_decide (Alg _ = _) = true |- _ => apply bool_decide_eq_true in Hm
  end.
  do 9 eexists. repeat (split; [eassumption || reflexivity|]).
  split; [|repeat (split; [eassumption || reflexivity|]); reflexivity].
  match goal with Hm : forallb _ _ = true |- _ => rewrite forallb_elem in Hm;
    apply Forall_forall; intros p Hp; apply Hm in Hp; by apply bool_decide_eq_true in Hp end.
Qed.

(** Conversely, these checks are all it makes. *)
Lemma verify_intro token keys now expiry p0 p1 p2 hv hd key sig v members cl exp g :
  Split dot token = [p0; p1; p2] -> decodeSegment p0 = Some hv -> as_header hv = Some hd ->
  hd.(Crit) = None -> hd.(Alg) = "EdDSA" -> keys !! hd.(Kid) = Some key ->
  DecodeString p2 = Some sig -> ed25519_Verify key.(Public) (p0 +:+ "." +:+ p1) sig = true ->
  decodeSegment p1 = Some v -> as_members v = Some members ->
  forallb (fun p => bool_decide (p.1 ∈ allowedClaims)) members = true ->
  as_claims v = Some cl -> checkTime cl now expiry = Ok exp ->
  claimed_grant members cl key.(Prefix) = Ok g ->
  verify token keys now expiry = Ok (mkVerified g exp cl.(c_ID) key).
Proof.
  intros H0' H1' H2' H3' H4' H5' H6' H7' H8' H9' H10' H11' H12' H13'. unfold verify.
  rewrite H0', H1'. cbn [of_option mbind result_bind]. rewrite H2'. cbn [of_option mbind result_bind].
  rewrite H3', H4', !guard_true, H5' by done. cbn [of_option mbind result_bind].
  rewrite H6', H7', guard_true, H8' by done. cbn [of_option mbind result_bind].
  rewrite H9'. cbn [of_option mbind result_bind]. rewrite guard_true, H11' by done.
  cbn [of_option mbind result_bind]. rewrite H12'. cbn [mbind result_bind]. by rewrite H13'.
Qed.

(** C1: Authenticity: a token [Verify] accepts has a header that names EdDSA, no
    critical extension and the kid of a key of the set, and a signature of
    exactly its own header and claims segments that verifies under that key's
    public half; its claims are all of the allowed set, and their exp, nbf and
    iat hold at this instant, with the leeway and the bounded lifetime; and its
    grant is confined to that key's prefix. *)
Theorem Verify_authentic token keys now c :
  Verify token keys now = Ok c ->
  exists p0 p1 p2 hd sig members cl exp nbf iat,
    Split dot token = [p0; p1; p2] /\ decodeSegment p0 ≫= as_header = Some hd /\
    hd.(Crit) = None /\ hd.(Alg) = "EdDSA" /\ keys !! hd.(Kid) = Some c.(v_Key) /\
    DecodeString p2 = Some sig /\ ed25519_Verify c.(v_Key).(Public) (p0 +:+ "." +:+ p1) sig = true /\
    decodeSegment p1 ≫= as_members = Some members /\ Forall (fun p => p.1 ∈ allowedClaims) members /\
    decodeSegment p1 ≫= as_claims = Some cl /\ cl.(c_ExpiresAt) = Some exp /\ cl.(c_NotBefore) = Some nbf /\
    cl.(c_IssuedAt) = Some iat /\ c.(v_ExpiresAt) = numericDate exp /\
    in_window (numericDate iat) (numericDate nbf) (numericDate exp) now true /\
    confined c.(v_Grant) c.(v_Key).(Prefix).
Proof.
  intros (p0 & p1 & p2 & hv & hd & sig & v & m & cl & Hs & Hd0 & Hh & Hcr & Ha & Hk & Hsig & Hver
          & Hd1 & Hm & Hal & Hcl & Ht & Hg & _)%verify_inv.
  apply checkTime_ok in Ht as (e & n & i & He & Hn & Hi & Hex & Hw). rewrite Hex in Hw.
  exists p0, p1, p2, hd, sig, m, cl, e, n, i. rewrite Hd0, Hd1. cbn [mbind option_bind].
  repeat (split; [done|]). by eapply claimed_grant_confined.
Qed.

(** [VerifyLive] differs from [Verify] in the expiry alone: a token it
    accepts is accepted by [Verify] with the same claims, or is refused as
    invalid because its expiry and the leeway have passed. *)
Theorem VerifyLive_expiry_only token keys now c :
  VerifyLive token keys now = Ok c ->
  Verify token keys now =
  if Before now (time_Unix (Unix (time_Add c.(v_ExpiresAt) Leeway)) 0) then Ok c else Err ErrInvalid.
Proof.
  unfold VerifyLive, Verify, verify. intros Hv.
  destruct (Split dot token) as [|p0 [|p1 [|p2 [|]]]]; try done.
  do 10 peel Hv.
  apply bind_Ok in Hv as (exp & Hexp & Hv). unfold checkTime in *.
  destruct (c_ExpiresAt x8) as [e|], (c_NotBefore x8) as [n|], (c_IssuedAt x8) as [i|]; try done.
  peel Hexp. cbn [andb negb] in Hexp |- *. rewrite guard_true in Hexp by done.
  apply bind_Ok in Hexp as ([] & Hnb%guard_err_Ok & [= <-]).
  apply bind_Ok in Hv as (g & Hg & [= <-]). cbn [v_ExpiresAt].
  destruct (Before now _); cbn [negb]; [|by rewrite guard_false].
  rewrite !guard_true by done. cbn [mbind result_bind]. by rewrite Hg.
Qed.

Lemma confined_path `{!MoqtLaws} g prefix a path :
  is_directory prefix -> confined g prefix -> Allows g a path = true ->
  segments prefix `prefix_of` segments path \/ (".hls" :: segments prefix) `prefix_of` segments path.
Proof.
  intros Hpre Hg (p & s & pt & Hn & Hp & Hs & Hpt & Hm)%Allows_inv.
  destruct Hg as [[_ Hnone]|(Hd & Hw)].
  { rewrite Hnone in Hs. by apply not_elem_of_nil in Hs. }
  rewrite <- (segments_normalized _ _ Hn).
  eapply (within_trans g.(Root)); [done..|]. by eapply match_beneath_root.
Qed.

(** C2: Tenant isolation: against a parsed key set, whatever a verified
    token lets its bearer do, live or at connect and in either claim form,
    is on a path at or beneath the signing key's prefix or its mirror under
    "/.hls/". *)
Theorem verify_confined `{!MoqtLaws} token raw keys now expiry c a path :
  ParseKeySet raw = Ok keys -> verify token keys now expiry = Ok c ->
  Allows c.(v_Grant) a path = true ->
  segments c.(v_Key).(Prefix) `prefix_of` segments path \/
  (".hls" :: segments c.(v_Key).(Prefix)) `prefix_of` segments path.
Proof.
  intros Hks (p0 & p1 & p2 & hv & hd & sig & v & m & cl & _ & _ & _ & _ & _ & Hk & _ & _
          & _ & _ & _ & _ & _ & Hg & _)%verify_inv Ha.
  apply parse_key_set_ok in Hks. destruct (Hks _ _ Hk) as (_ & _ & _ & Hdir & _).
  eapply confined_path; [done| |done]. by eapply claimed_grant_confined.
Qed.

(** ** Signing, then verifying *)

Lemma Split_token a b c :
  clean dot a -> clean dot b -> clean dot c ->
  Split dot ((a +:+ "." +:+ b) +:+ "." +:+ c) = [a; b; c].
Proof.
  intros Ha Hb Hc.
  transitivity (Split dot (a +:+ String dot (b +:+ String dot c))).
  - rewrite !sapp_assoc. reflexivity.
  - by rewrite !Split_app, !Split_clean.
Qed.

Lemma sign_header_read kid :
  no_dups (sign_header kid) = true /\ as_header (sign_header kid) = Some (mkHeader "EdDSA" kid None).
Proof. done. Qed.

Lemma numericDate_Z n : 0 <= n < 2 ^ 52 -> numericDate (float_of_Z n) = n * Second.
Proof.
  intros Hn. unfold numericDate. rewrite int64_of_float_of_Z by lia.
  rewrite float_sub_diag_mul; [|lia|by repeat eexists]. apply time_Unix_sane. lia.
Qed.

(** The instants at which a token signed at [now] for [ttl] is valid. *)
Definition valid_at (now : Time) (ttl : Duration) (now' : Time) : Prop :=
  (now / Second) * Second <= now' + Leeway /\ now' < ((now + ttl) / Second) * Second + Leeway.

Lemma checkTime_signed g ttl now jti now' :
  0 <= now -> now + ttl < 2 ^ 51 * Second -> Second <= ttl <= MaxLifetime ->
  valid_at now ttl now' -> sane (now' + Leeway) ->
  checkTime (sign_claims g ttl now jti) now' true = Ok ((now + ttl) / Second * Second).
Proof.
  intros Hnow Hend Httl [Hv1 Hv2] Hsane. unfold checkTime, sign_claims.
  cbn [c_ExpiresAt c_NotBefore c_IssuedAt]. unfold Leeway, MaxLifetime, Hour, Minute, sane in *.
  assert (sane now) by (unfold sane in *; time_lia).
  assert (sane (now + ttl)) by (unfold sane in *; time_lia).
  rewrite time_Add_sane, !Unix_sane by done.
  rewrite !numericDate_Z by time_lia.
  set (i := now / Second) in *. set (e := (now + ttl) / Second) in *.
  assert (i < e <= i + 3600) by (subst i e; time_lia).
  assert (0 <= i /\ e < 2 ^ 51) by (subst i e; time_lia).
  rewrite time_Sub_small by (unfold int64_min, int64_max, Second; lia).
  assert (sane (e * Second + 60 * Second)) as He by (unfold sane; time_lia).
  rewrite !(time_Add_sane _ (60 * Second)) by done. rewrite (Unix_sane _ He).
  replace ((e * Second + 60 * Second) / Second) with (e + 60) by time_lia.
  rewrite time_Unix_sane by lia. unfold Before.
  rewrite !guard_true; [done|..]; apply negb_true_iff.
  - apply orb_false_iff. time_lia.
  - cbn [andb]. apply negb_false_iff. lia.
  - apply orb_false_iff. time_lia.
Qed.

Lemma claimed_grant_signed g ttl now jti m prefix :
  grant_ok g prefix -> of_claims (sign_claims g ttl now jti) = JObj m ->
  claimed_grant m (sign_claims g ttl now jti) prefix = Ok g.
Proof.
  intros Hg Hm. unfold claimed_grant. assert (has_member "path_auth" m = false) as ->.
  { unfold has_member. injection Hm as <-. rewrite <- (app_nil_r (of_string "jti" _)).
    by skip_members. }
  cbn [andb negb]. replace (claims_grant _) with g; [by apply checked_complete|].
  destruct Hg as [Hage _]. destruct g as [[r p s' a] cr po re su]. cbn in *. by rewrite Hage.
Qed.

Lemma members_allowed m :
  wf_members member_names m ->
  forallb (fun p : string * json => bool_decide (p.1 ∈ allowedClaims)) m = true.
Proof.
  intros [Hs _]. apply forallb_elem. intros p Hp. apply bool_decide_eq_true.
  assert (p.1 ∈ member_names) as Hin.
  { eapply elem_of_sublist, Hs. by apply list_elem_of_fmap_2. }
  unfold member_names, allowedClaims in *. set_solver.
Qed.

Context `{!CryptoLaws} `{!JsonLaws}.

Lemma decodeSegment_Encode v t :
  no_dups v = true -> json_print v = Some t -> decodeSegment (EncodeToString t) = Some v.
Proof.
  intros Hv Ht. unfold decodeSegment. rewrite DecodeString_EncodeToString. cbn [mbind option_bind].
  by apply unmarshal_print.
Qed.

(** C3: Round trip: a token [Sign] returns for a lifetime of at least a
    second is accepted by [Verify], against any key set that lists the
    signer's public key under its kid and prefix, at every instant of its
    validity; the verified claims are the grant that was signed, the whole
    second of its expiry and its jti. *)
Theorem Verify_Sign key g ttl now jti token keys k now' :
  0 <= now -> now + ttl < 2 ^ 51 * Second -> Second <= ttl ->
  valid_at now ttl now' -> sane (now' + Leeway) ->
  keys !! key.(sk_ID) = Some k -> k.(Public) = PublicOf key.(Private) ->
  k.(Prefix) = key.(sk_Prefix) ->
  signAt key g ttl now jti = Ok token ->
  Verify token keys now' = Ok (mkVerified g ((now + ttl) / Second * Second) jti k).
Proof.
  intros Hnow Hend Httl Hv Hsane Hk Hpub Hpre Hs. unfold signAt in Hs. inv_ok. bool_prop.
  match goal with Hc : checked _ _ = Ok _ |- _ => apply checked_ok in Hc as [-> Hg] end.
  match goal with Hp : json_print (sign_header _) = Some ?t |- _ => rename t into hdr, Hp into Hhdr end.
  match goal with Hp : json_print (of_claims _) = Some ?t |- _ => rename t into body, Hp into Hbody end.
  destruct (of_claims_obj (sign_claims g ttl now jti)) as [m Hm]. rewrite Hm in Hbody.
  unfold Verify. subst token. eapply (verify_intro _ _ _ _ _ _ _ (sign_header key.(sk_ID))
    (mkHeader "EdDSA" key.(sk_ID) None) k _ (JObj m) m (sign_claims g ttl now jti)).
  - apply Split_token; apply EncodeToString_clean.
  - by apply decodeSegment_Encode, Hhdr.
  - apply sign_header_read.
  - done.
  - done.
  - exact Hk.
  - apply DecodeString_EncodeToString.
  - rewrite Hpub. apply verify_sign.
  - apply decodeSegment_Encode, Hbody. by eapply claims_no_dups.
  - done.
  - eapply members_allowed, wf_claims, Hm.
  - rewrite <- Hm. by apply as_claims_of.
  - by apply checkTime_signed.
  - rewrite Hpre. by apply claimed_grant_signed.
Qed.
End Token.
