(* ===== verification/TokenExample.v ===== *)
(** * A worked example of the token package

    Concrete instances of the interfaces the token files are parametric in,
    which show that their laws can hold together, and the witnesses that
    instantiate the token theorems with them: a key confined to "/acme/", a
    grant of a room, a token for it, and the key set that verifies it. The
    codec writes and reads exactly the documents of the example. *)
From S2P Require Import Prelude GoStrings TokenPath TokenGrant GoTime Base64 TokenClaims TokenKey Token.

#[local] Open Scope Z_scope.

#[local] Existing Instances literal_moqt literal_laws.

Definition float_dec (x y : float64) : {x = y} + {x <> y}.
Proof. repeat decide equality. Defined.

Fixpoint json_dec (x y : json) : {x = y} + {x <> y}.
Proof.
  refine (match x, y with
          | JNull, JNull => left eq_refl
          | JBool a, JBool b => if Bool.bool_dec a b then left _ else right _
          | JNum a, JNum b => if float_dec a b then left _ else right _
          | JStr a, JStr b => if String.string_dec a b then left _ else right _
          | JArr a, JArr b => if List.list_eq_dec json_dec a b then left _ else right _
          | JObj a, JObj b =>
              if List.list_eq_dec (fun p q => match p, q with
                   | (k, v), (k', v') =>
                       match String.string_dec k k', json_dec v v' with
                       | left e1, left e2 => left (f_equal2 pair e1 e2)
                       | _, _ => right _
                       end
                   end) a b then left _ else right _
          | _, _ => right _
          end); congruence.
Defined.

(** A toy signature scheme and hash: the key pair is one string and there is
    one key to name. *)
#[local] Instance toy_crypto : Crypto := {|
  sha256 _ := "acme0123456789abcdef0123456789ab";
  NewKeyFromSeed seed := seed;
  PublicOf priv := priv;
  SeedOf priv := priv;
  ed25519_Sign priv msg := priv +:+ msg;
  ed25519_Verify pub msg sig := bool_decide (sig = pub +:+ msg)
|}.

#[local] Instance toy_crypto_laws : CryptoLaws.
Proof. constructor; cbn; [intros; by apply bool_decide_eq_true|done|done]. Qed.

Definition acme_priv : string := "0123456789abcdef0123456789abcdef".
Definition acme_key : SigningKey := mkSigningKey (thumbprint acme_priv) acme_priv "/acme/".
Definition acme_public : Key := mkKey (thumbprint acme_priv) acme_priv "/acme/" [].
Definition signed_at : Time := 1700000000 * Second + 7.
Definition acme_ttl : Duration := 10 * Minute.

Definition header_doc : json := sign_header acme_key.(sk_ID).
Definition claims_doc : json := of_claims (sign_claims room_grant acme_ttl signed_at "jti").
Definition keys_doc : json := JObj [("keys", JArr [of_jwk (key_jwk acme_public)])].

#[local] Instance toy_json : JsonText := {|
  json_parse s :=
    if bool_decide (s = "header") then Some header_doc
    else if bool_decide (s = "claims") then Some claims_doc
    else if bool_decide (s = "keys") then Some keys_doc else None;
  json_print v :=
    if json_dec v header_doc then Some "header"
    else if json_dec v claims_doc then Some "claims"
    else if json_dec v keys_doc then Some "keys" else None
|}.

#[local] Instance toy_json_laws : JsonLaws.
Proof.
  constructor. intros v t. cbn [json_print json_parse toy_json].
  destruct (json_dec v header_doc) as [->|]; [by intros [= <-]|].
  destruct (json_dec v claims_doc) as [->|]; [by intros [= <-]|].
  destruct (json_dec v keys_doc) as [->|]; [by intros [= <-]|done].
Qed.

Definition oor (v : float64) : Z := int64_min.
Definition acme_keys : gmap string Key := {[acme_public.(ID) := acme_public]}.
Definition acme_token : string :=
  match signAt acme_key room_grant acme_ttl signed_at "jti" with Ok t => t | Err _ => "" end.
Definition acme_claims : Claims :=
  mkVerified room_grant (1700000600 * Second) "jti" acme_public.

(** The example runs: the token is signed, the key set is written and read. *)
Example acme_token_signed :
  signAt acme_key room_grant acme_ttl signed_at "jti" = Ok acme_token.
Proof. vm_compute. reflexivity. Qed.

Example acme_keys_parsed : ParseKeySet "keys" = Ok acme_keys.
Proof. vm_compute. reflexivity. Qed.

Example acme_verified : Verify oor acme_token acme_keys signed_at = Ok acme_claims.
Proof. vm_compute. reflexivity. Qed.

(** An hour later the token has expired, and a live session keeps it. *)
Example acme_expired :
  Verify oor acme_token acme_keys (signed_at + Hour) = Err ErrInvalid /\
  VerifyLive oor acme_token acme_keys (signed_at + Hour) = Ok acme_claims.
Proof. vm_compute. by split. Qed.

Lemma acme_public_ok : key_ok acme_public.(ID) acme_public.
Proof. vm_compute. repeat split. by left. Qed.

Lemma ParseKeySet_MarshalKeySet_witness :
  MarshalKeySet [acme_public] = Ok "keys" /\
  ParseKeySet "keys" = Ok (foldl add_key ∅ [acme_public]).
Proof.
  split; [vm_compute; reflexivity|].
  apply (ParseKeySet_MarshalKeySet [acme_public] "keys").
  - done.
  - constructor; [apply acme_public_ok|constructor].
  - apply NoDup_singleton.
  - vm_compute. reflexivity.
Defined.

Lemma Verify_authentic_witness :
  exists p0 p1 p2 hd sig members cl exp nbf iat,
    Split dot acme_token = [p0; p1; p2] /\ decodeSegment p0 ≫= as_header = Some hd /\
    hd.(Crit) = None /\ hd.(Alg) = "EdDSA" /\ acme_keys !! hd.(Kid) = Some acme_public /\
    DecodeString p2 = Some sig /\ ed25519_Verify acme_public.(Public) (p0 +:+ "." +:+ p1) sig = true /\
    decodeSegment p1 ≫= as_members = Some members /\ Forall (fun p => p.1 ∈ allowedClaims) members /\
    decodeSegment p1 ≫= as_claims = Some cl /\ cl.(c_ExpiresAt) = Some exp /\ cl.(c_NotBefore) = Some nbf /\
    cl.(c_IssuedAt) = Some iat /\ 1700000600 * Second = numericDate oor exp /\
    in_window (numericDate oor iat) (numericDate oor nbf) (numericDate oor exp) signed_at true /\
    confined room_grant "/acme/".
Proof.
  apply (Verify_authentic oor acme_token acme_keys signed_at acme_claims).
  vm_compute. reflexivity.
Defined.

Lemma VerifyLive_expiry_only_witness :
  Verify oor acme_token acme_keys (signed_at + Hour) = Err ErrInvalid.
Proof.
  rewrite (VerifyLive_expiry_only oor acme_token acme_keys (signed_at + Hour) acme_claims).
  - vm_compute. reflexivity.
  - vm_compute. reflexivity.
Defined.

Lemma verify_confined_witness :
  ["acme"] `prefix_of` ["acme"; "room"; "7"] \/ [".hls"; "acme"] `prefix_of` ["acme"; "room"; "7"].
Proof.
  apply (verify_confined oor acme_token "keys" acme_keys signed_at true acme_claims
           ActionPublish "/acme/room/7"); vm_compute; reflexivity.
Defined.

Lemma Verify_Sign_witness :
  Verify oor acme_token acme_keys (signed_at + Minute) = Ok acme_claims.
Proof.
  apply (Verify_Sign oor acme_key room_grant acme_ttl signed_at "jti" acme_token acme_keys acme_public);
    try (vm_compute; reflexivity); vm_compute; try (split; discriminate || reflexivity); discriminate.
Defined.
