(* ===== verification/GroupRing.v ===== *)
(** * internal/relay/group_cache.go: the ring of cached groups

    A [groupRing] keeps the last [size] groups of a track. Group caches and
    frames are pooled and reference counted, so the model is a store: caches
    and frames have identities, the ring holds cache identities, and each
    operation is a function on the store. Every method is one atomic step here;
    the interleavings inside a method are in GroupConc.v. *)
From stdpp Require Import gmultiset.
From S2P Require Import Prelude.

#[local] Open Scope Z_scope.

Definition MaxFramesPerGroup : nat := 256.
#[global] Arguments MaxFramesPerGroup : simpl never.
Definition DefaultGroupCacheSize : nat := 8.

(** Identities of caches and of frames. *)
Abbreviation cid := nat.
Abbreviation fid := nat.

Record groupCache := mkCache {
  slots : list (option fid);
  count : nat;
  seq : Z;
  pos : Z;
  complete : bool;
  refCount : Z;
  evicted : bool;
  released : bool;
  highestSeq : Z
}.

(** [newGroupCache]. *)
Definition newGroupCache (s : Z) : groupCache :=
  mkCache (replicate MaxFramesPerGroup None) 0 s 0 false 0 false false 0.

(** [sync.Pool] may hand out any pooled object or a new one: [choice] says
    which. *)
Record ring := mkRing {
  heap : gmap cid groupCache;
  caches : list (option cid);
  size : nat;
  rpos : Z;
  maxSeq : Z;
  gcPool : gset cid;
  frames : gmap fid (list Z);
  framePool : gset fid
}.

Definition newGroupRing (n : nat) : ring :=
  mkRing ∅ (replicate n None) n 0 0 ∅ ∅ ∅.

Definition set_heap (r : ring) (h : gmap cid groupCache) : ring :=
  mkRing h r.(caches) r.(size) r.(rpos) r.(maxSeq) r.(gcPool) r.(frames) r.(framePool).
Definition put_cache (r : ring) (c : cid) (gc : groupCache) : ring :=
  set_heap r (<[c := gc]> r.(heap)).
Definition set_frames (r : ring) (f : gmap fid (list Z)) (p : gset fid) : ring :=
  mkRing r.(heap) r.(caches) r.(size) r.(rpos) r.(maxSeq) r.(gcPool) f p.
Definition set_gcPool (r : ring) (p : gset cid) : ring :=
  mkRing r.(heap) r.(caches) r.(size) r.(rpos) r.(maxSeq) p r.(frames) r.(framePool).

(** [FramePool.Get]: a pooled frame or a new one, reset. [FramePool.Put]. *)
Definition pool_Get (choice : option fid) (r : ring) : fid * ring :=
  let f := match choice with
           | Some f => if decide (f ∈ r.(framePool)) then f else fresh (dom r.(frames))
           | None => fresh (dom r.(frames))
           end in
  (f, set_frames r (<[f := []]> r.(frames)) (r.(framePool) ∖ {[f]})).

Definition pool_Put (f : fid) (r : ring) : ring :=
  set_frames r r.(frames) ({[f]} ∪ r.(framePool)).

(** [gcPool.Get], with [New] for an empty choice. *)
Definition gcPool_Get (choice : option cid) (r : ring) : cid * ring :=
  match choice with
  | Some c => if decide (c ∈ r.(gcPool)) then (c, set_gcPool r (r.(gcPool) ∖ {[c]}))
              else let c' := fresh (dom r.(heap)) in (c', put_cache r c' (newGroupCache 0))
  | None => let c' := fresh (dom r.(heap)) in (c', put_cache r c' (newGroupCache 0))
  end.

(** Setting the first [n] slots to nil. *)
Definition clear_slots (n : nat) (l : list (option fid)) : list (option fid) :=
  replicate (Nat.min n (length l)) None ++ drop n l.

#[global] Arguments clear_slots : simpl never.

Definition resetForReuse (gc : groupCache) : groupCache :=
  mkCache (clear_slots gc.(count) gc.(slots)) 0 gc.(seq) gc.(pos) gc.(complete) gc.(refCount)
          gc.(evicted) gc.(released) gc.(highestSeq).

Definition isComplete (gc : groupCache) : bool := gc.(complete).

Definition markComplete (gc : groupCache) : groupCache :=
  mkCache gc.(slots) gc.(count) gc.(seq) gc.(pos) true gc.(refCount) gc.(evicted) gc.(released)
          gc.(highestSeq).

Definition add_ref (d : Z) (gc : groupCache) : groupCache :=
  mkCache gc.(slots) gc.(count) gc.(seq) gc.(pos) gc.(complete) (gc.(refCount) + d) gc.(evicted)
          gc.(released) gc.(highestSeq).
Definition incrRef (gc : groupCache) : groupCache := add_ref 1 gc.

Definition store_slot (gc : groupCache) (f : fid) : groupCache :=
  mkCache (<[gc.(count) := Some f]> gc.(slots)) (S gc.(count)) gc.(seq) gc.(pos) gc.(complete)
          gc.(refCount) gc.(evicted) gc.(released) gc.(highestSeq).

(** [append]: clones the frame's payload into a pooled frame and stores it in
    the next slot, unless the group is full. *)
Definition append (c : cid) (payload : list Z) (choice : option fid) (r : ring) : ring :=
  match r.(heap) !! c with
  | None => r
  | Some gc =>
      if decide (MaxFramesPerGroup <= gc.(count))%nat then r
      else
        let '(f, r1) := pool_Get choice r in
        let r2 := set_frames r1 (<[f := payload]> r1.(frames)) r1.(framePool) in
        put_cache r2 c (store_slot gc f)
  end.

(** [next]: the frame at [index], nil out of range or not yet stored. *)
Definition next (gc : groupCache) (index : Z) : option fid :=
  if (index <? 0) || (Z.of_nat (length gc.(slots)) <=? index) then None
  else match gc.(slots) !! Z.to_nat index with Some o => o | None => None end.

Definition releaseCache (c : cid) (r : ring) : ring :=
  match r.(heap) !! c with
  | None => r
  | Some gc =>
      if gc.(released) then r
      else
        let stored := omap id (take gc.(count) gc.(slots)) in
        let r1 := foldr pool_Put r stored in
        let gc' := mkCache (clear_slots gc.(count) gc.(slots)) 0 gc.(seq) gc.(pos) gc.(complete)
                           gc.(refCount) gc.(evicted) true gc.(highestSeq) in
        let r2 := put_cache r1 c gc' in
        set_gcPool r2 ({[c]} ∪ r2.(gcPool))
  end.

Definition decrRef (c : cid) (r : ring) : ring :=
  match r.(heap) !! c with
  | None => r
  | Some gc =>
      let gc' := add_ref (-1) gc in
      let r1 := put_cache r c gc' in
      if (gc'.(refCount) =? 0) && gc'.(evicted) then releaseCache c r1 else r1
  end.

Definition markEvictedLocked (c : cid) (r : ring) : ring :=
  match r.(heap) !! c with
  | None => r
  | Some gc =>
      let gc' := mkCache gc.(slots) gc.(count) gc.(seq) gc.(pos) gc.(complete) gc.(refCount) true
                         gc.(released) gc.(highestSeq) in
      let r1 := put_cache r c gc' in
      if gc'.(refCount) =? 0 then releaseCache c r1 else r1
  end.

(** [reserve]: a slot for group [s], returning its cache. *)
Definition reserve (s : Z) (choice : option cid) (r : ring) : cid * ring :=
  let '(c, r1) := gcPool_Get choice r in
  match r1.(heap) !! c with
  | None => (c, r1)
  | Some gc0 =>
      let gc1 := resetForReuse
        (mkCache gc0.(slots) gc0.(count) s gc0.(pos) false 1 false false gc0.(highestSeq)) in
      let highest := if r1.(maxSeq) <? s then s else r1.(maxSeq) in
      let p := wrapu 64 (r1.(rpos) + 1) in
      let gc2 := mkCache gc1.(slots) gc1.(count) gc1.(seq) p gc1.(complete) gc1.(refCount)
                         gc1.(evicted) gc1.(released) highest in
      let idx := Z.to_nat (p mod Z.of_nat r1.(size)) in
      let old := match r1.(caches) !! idx with Some o => o | None => None end in
      let r2 := mkRing (<[c := gc2]> r1.(heap)) (<[idx := Some c]> r1.(caches)) r1.(size) p highest
                       r1.(gcPool) r1.(frames) r1.(framePool) in
      (c, match old with Some o => markEvictedLocked o r2 | None => r2 end)
  end.

(** [get]: the group at position [p] with a reference taken, or nil. *)
Definition get (p : Z) (r : ring) : option cid * ring :=
  let idx := Z.to_nat (p mod Z.of_nat r.(size)) in
  match r.(caches) !! idx with
  | Some (Some c) =>
      match r.(heap) !! c with
      | Some gc =>
          if (gc.(pos) =? p) && negb gc.(released)
          then (Some c, put_cache r c (incrRef gc)) else (None, r)
      | None => (None, r)
      end
  | _ => (None, r)
  end.

Definition head (r : ring) : Z := r.(rpos).

Definition earliestAvailable (r : ring) : Z :=
  if head r <=? Z.of_nat r.(size) then 1 else head r - Z.of_nat r.(size) + 1.

(** [fill]: appends every frame of the group, marks it complete and releases
    the filler's reference. [choices] are the pooled frames [append] gets. *)
Fixpoint fill_frames (c : cid) (payloads : list (list Z)) (choices : list (option fid)) (r : ring) : ring :=
  match payloads with
  | [] => r
  | p :: ps => fill_frames c ps (tail choices) (append c p (default None (list.head choices)) r)
  end.

Definition complete_cache (c : cid) (r : ring) : ring :=
  match r.(heap) !! c with
  | None => r
  | Some gc => put_cache r c (markComplete gc)
  end.

(** The calls [fill] makes to [onFrame]: each frame's length, then 0. *)
Definition fill (c : cid) (payloads : list (list Z)) (bufChoice : option fid)
    (choices : list (option fid)) (r : ring) : list Z * ring :=
  let '(buf, r0) := pool_Get bufChoice r in
  let r1 := complete_cache c (fill_frames c payloads choices r0) in
  (((fun p => Z.of_nat (length p)) <$> payloads) ++ [0], pool_Put buf (decrRef c r1)).

(** ** The system: the ring with the references its users hold

    A reference is held by a filler (from [reserve]) or a reader (from [get])
    until it calls [decrRef]. Only the holder of a cache appends to it or
    completes it. Positions are 64-bit, and no ring lives to wrap them. *)
Record sys := mkSys { st : ring; held : gmultiset cid }.

Inductive step : sys -> sys -> Prop :=
| step_reserve r hs s ch c r' :
    r.(rpos) + 1 < 2 ^ 64 -> reserve s ch r = (c, r') ->
    step (mkSys r hs) (mkSys r' ({[+ c +]} ⊎ hs))
| step_get r hs p c r' :
    get p r = (Some c, r') -> step (mkSys r hs) (mkSys r' ({[+ c +]} ⊎ hs))
| step_miss r hs p r' :
    get p r = (None, r') -> step (mkSys r hs) (mkSys r' hs)
| step_append r hs c payload ch :
    c ∈ hs -> step (mkSys r hs) (mkSys (append c payload ch r) hs)
| step_complete r hs c :
    c ∈ hs -> step (mkSys r hs) (mkSys (complete_cache c r) hs)
| step_decr r hs c :
    c ∈ hs -> step (mkSys r hs) (mkSys (decrRef c r) (hs ∖ {[+ c +]})).

(** A filler also borrows a frame from the pool to read into ([fill]'s buf):
    [bufs] is the borrowed ones. *)
Inductive fstep : sys * gset fid -> sys * gset fid -> Prop :=
| fstep_base x y b : step x y -> fstep (x, b) (y, b)
| fstep_take r hs b ch f r' :
    pool_Get ch r = (f, r') -> fstep (mkSys r hs, b) (mkSys r' hs, {[f]} ∪ b)
| fstep_write r hs b f payload :
    f ∈ b ->
    fstep (mkSys r hs, b) (mkSys (set_frames r (<[f := payload]> r.(frames)) r.(framePool)) hs, b)
| fstep_put r hs b f :
    f ∈ b -> fstep (mkSys r hs, b) (mkSys (pool_Put f r) hs, b ∖ {[f]}).

Definition init (n : nat) : sys := mkSys (newGroupRing n) ∅.
Definition reachable (n : nat) (z : sys * gset fid) : Prop := rtc fstep (init n, ∅) z.

(** ** Invariant *)

(** The stored frames are exactly the first [count] slots. *)
Definition slots_ok (gc : groupCache) : Prop :=
  length gc.(slots) = MaxFramesPerGroup /\ (gc.(count) <= MaxFramesPerGroup)%nat /\
  (forall i, (i < gc.(count))%nat -> exists f, gc.(slots) !! i = Some (Some f)) /\
  (forall i o, (gc.(count) <= i)%nat -> gc.(slots) !! i = Some o -> o = None).

Definition refs (hs : gmultiset cid) (c : cid) : Z := Z.of_nat (multiplicity c hs).

Definition slot_of (r : ring) (p : Z) : nat := Z.to_nat (p mod Z.of_nat r.(size)).

(** A cache is pooled (released, unreferenced and empty), evicted but still
    referenced, or the ring's group at its position. [d] names a cache that is
    evicted and may have lost its last reference, within an operation that is
    about to release it. *)
Definition cache_ok (d : option cid) (r : ring) (hs : gmultiset cid) (c : cid) (gc : groupCache) : Prop :=
  slots_ok gc /\
  (if gc.(released) then c ∈ r.(gcPool) /\ refs hs c = 0 /\ gc.(count) = 0%nat
   else (c ∉ r.(gcPool)) /\ gc.(refCount) = refs hs c /\
     (if gc.(evicted) then d = Some c \/ 0 < refs hs c
      else r.(caches) !! slot_of r gc.(pos) = Some (Some c) /\
           1 <= gc.(pos) <= r.(rpos) /\ r.(rpos) - Z.of_nat r.(size) < gc.(pos))).

Record ring_inv_d (d : option cid) (x : sys) : Prop := {
  inv_size : (0 < x.(st).(size))%nat;
  inv_len : length x.(st).(caches) = x.(st).(size);
  inv_pos : 0 <= x.(st).(rpos) < 2 ^ 64;
  inv_cache : map_Forall (cache_ok d x.(st) x.(held)) x.(st).(heap);
  inv_slot : forall i c, x.(st).(caches) !! i = Some (Some c) ->
    exists gc, x.(st).(heap) !! c = Some gc /\ gc.(released) = false /\ gc.(evicted) = false /\
      slot_of x.(st) gc.(pos) = i;
  inv_window : forall p, 1 <= p <= x.(st).(rpos) -> x.(st).(rpos) - Z.of_nat x.(st).(size) < p ->
    exists c gc, x.(st).(caches) !! slot_of x.(st) p = Some (Some c) /\
      x.(st).(heap) !! c = Some gc /\ gc.(pos) = p;
  inv_held : forall c, c ∈ x.(held) -> is_Some (x.(st).(heap) !! c);
  inv_pool : forall c, c ∈ x.(st).(gcPool) -> exists gc, x.(st).(heap) !! c = Some gc /\ gc.(released) = true
}.

Definition ring_inv : sys -> Prop := ring_inv_d None.

(** ** What the operations do to the store *)

Lemma pool_Puts l r :
  foldr pool_Put r l = set_frames r r.(frames) (list_to_set l ∪ r.(framePool)).
Proof.
  induction l as [|f l IH]; cbn.
  - destruct r. unfold set_frames. cbn. f_equal. set_solver.
  - rewrite IH. unfold pool_Put, set_frames. cbn. f_equal. set_solver.
Qed.

Definition released_cache (gc : groupCache) : groupCache :=
  mkCache (clear_slots gc.(count) gc.(slots)) 0 gc.(seq) gc.(pos) gc.(complete)
          gc.(refCount) gc.(evicted) true gc.(highestSeq).

Definition stored (gc : groupCache) : list fid := omap id (take gc.(count) gc.(slots)).

Lemma releaseCache_eq c r gc :
  r.(heap) !! c = Some gc -> gc.(released) = false ->
  releaseCache c r =
  mkRing (<[c := released_cache gc]> r.(heap)) r.(caches) r.(size) r.(rpos) r.(maxSeq)
         ({[c]} ∪ r.(gcPool)) r.(frames) (list_to_set (stored gc) ∪ r.(framePool)).
Proof. intros Hc Hr. unfold releaseCache. rewrite Hc, Hr, pool_Puts. reflexivity. Qed.

Lemma clear_slots_ok gc :
  slots_ok gc -> slots_ok (released_cache gc) /\ clear_slots gc.(count) gc.(slots) = replicate MaxFramesPerGroup None.
Proof.
  intros (Hl & Hc & _ & Hz).
  assert (clear_slots (count gc) (slots gc) = replicate MaxFramesPerGroup None) as Hclear.
  { apply list_eq_same_length with (n := MaxFramesPerGroup);
      unfold clear_slots; autorewrite with lens; [lia..|].
    intros i x y Hi [Hx|[_ Hx]]%lookup_app_Some [-> _]%lookup_replicate.
    - by apply lookup_replicate in Hx as [-> _].
    - rewrite length_replicate, lookup_drop in Hx. eapply Hz, Hx. lia. }
  split; [|done]. split; [cbn; by rewrite Hclear, length_replicate|]. cbn.
  split; [lia|]. split; [lia|]. rewrite Hclear.
  by intros i o _ [-> _]%lookup_replicate.
Qed.

(** ** The invariant is preserved *)

Lemma inv_init n : (0 < n)%nat -> ring_inv (init n).
Proof.
  intros Hn. split; cbn; try done; try lia.
  - apply length_replicate.
  - by intros i c [? _]%lookup_replicate.
  - intros c. rewrite elem_of_multiplicity, multiplicity_empty. lia.
Qed.

(** Frames and their pool play no part in it. *)
Lemma inv_frames d r hs f p : ring_inv_d d (mkSys r hs) -> ring_inv_d d (mkSys (set_frames r f p) hs).
Proof. intros []. by split. Qed.

(** Changing one cache without moving it, and the references to it. *)
Lemma inv_update d r hs hs' c gc gc' :
  ring_inv_d None (mkSys r hs) -> r.(heap) !! c = Some gc -> gc.(released) = false ->
  slots_ok gc' -> gc'.(pos) = gc.(pos) -> gc'.(released) = false -> gc'.(evicted) = gc.(evicted) ->
  gc'.(refCount) = refs hs' c -> (gc.(evicted) = true -> d = Some c \/ 0 < refs hs' c) ->
  (forall c', c' <> c -> refs hs' c' = refs hs c') ->
  ring_inv_d d (mkSys (put_cache r c gc') hs').
Proof.
  intros Hi Hc Hrel Hs Hp Hr He Hrc Hev Hrefs. destruct Hi as [Hsz Hln Hps Hca Hsl Hwi Hhe Hpo].
  split; cbn in *; try done.
  - intros c' gc'' Hl. destruct (decide (c' = c)) as [->|Hne].
    + rewrite lookup_insert_eq in Hl. injection Hl as <-. destruct (Hca _ _ Hc) as [_ Hok].
      rewrite Hrel in Hok. destruct Hok as (Hnp & _ & Hok). split; [done|]. rewrite Hr. split; [done|].
      split; [done|]. rewrite He, Hp. destruct (evicted gc); [by apply Hev|done].
    + rewrite lookup_insert_ne in Hl by done. destruct (Hca _ _ Hl) as [? Hok]. split; [done|].
      rewrite Hrefs by done. destruct (released gc''); [done|]. destruct Hok as (? & ? & Hok).
      split; [done|]. split; [done|]. destruct (evicted gc''); [|done].
      destruct Hok as [?|?]; [done|by right].
  - intros i c' Hl. destruct (Hsl _ _ Hl) as (gc'' & ? & ? & ? & ?).
    destruct (decide (c' = c)) as [->|Hne].
    + exists gc'. rewrite lookup_insert_eq. repeat split; try congruence. by simplify_eq; rewrite Hp.
    + exists gc''. by rewrite lookup_insert_ne.
  - intros p ? ?. destruct (Hwi p) as (c' & gc'' & ? & ? & ?); [done..|].
    destruct (decide (c' = c)) as [->|Hne]; [exists c, gc'|exists c', gc''];
      rewrite ?lookup_insert_eq, ?lookup_insert_ne by done; repeat split; try done. congruence.
  - intros c' Hc'. destruct (decide (c' = c)) as [->|Hne]; [by rewrite lookup_insert_eq|].
    rewrite lookup_insert_ne by done. apply Hhe. specialize (Hrefs _ Hne). unfold refs in Hrefs.
    rewrite elem_of_multiplicity in *. lia.
  - intros c' Hc'. destruct (Hpo _ Hc') as (gc'' & ? & ?).
    destruct (decide (c' = c)) as [->|Hne]; [congruence|]. exists gc''. by rewrite lookup_insert_ne.
Qed.

Lemma refs_add hs c c' : refs ({[+ c +]} ⊎ hs) c' = refs hs c' + (if decide (c' = c) then 1 else 0).
Proof.
  unfold refs. rewrite multiplicity_disj_union, multiplicity_singleton. case_decide; lia.
Qed.

Lemma refs_remove hs c c' :
  c ∈ hs -> refs (hs ∖ {[+ c +]}) c' = refs hs c' - (if decide (c' = c) then 1 else 0).
Proof.
  rewrite elem_of_multiplicity. intros Hc. unfold refs.
  rewrite multiplicity_difference, multiplicity_singleton. case_decide; subst; lia.
Qed.

Lemma refs_pos hs c : c ∈ hs <-> 0 < refs hs c.
Proof. rewrite elem_of_multiplicity. unfold refs. lia. Qed.

(** A held cache is not released. *)
Lemma held_live d r hs c gc :
  ring_inv_d d (mkSys r hs) -> c ∈ hs -> r.(heap) !! c = Some gc -> gc.(released) = false.
Proof.
  intros Hi Hh%refs_pos Hc. destruct (inv_cache _ _ Hi _ _ Hc) as [_ Hok].
  destruct (released gc); [cbn in *; lia|done].
Qed.

(** A cache evicted in the middle of an operation may be released if it lost
    its last reference, and otherwise just stays. *)
Lemma inv_settle d r hs c gc :
  ring_inv_d d (mkSys r hs) -> d = Some c -> r.(heap) !! c = Some gc -> gc.(released) = false ->
  0 < refs hs c -> ring_inv (mkSys r hs).
Proof.
  intros [] -> Hc Hr Hpos. split; try done. intros c' gc' Hc'.
  destruct (inv_cache0 _ _ Hc') as [? Hok]. split; [done|]. destruct (released gc'); [done|].
  destruct Hok as (? & ? & Hok). split; [done|]. split; [done|]. destruct (evicted gc'); [|done].
  destruct Hok as [[= ->]|?]; by right.
Qed.

Lemma inv_release r hs c gc :
  ring_inv_d (Some c) (mkSys r hs) -> r.(heap) !! c = Some gc -> gc.(released) = false ->
  gc.(evicted) = true -> refs hs c = 0 -> ring_inv (mkSys (releaseCache c r) hs).
Proof.
  intros Hi Hc Hr He Hz. rewrite (releaseCache_eq _ _ _ Hc Hr).
  destruct Hi as [Hsz Hln Hps Hca Hsl Hwi Hhe Hpo]. split; cbn in *; try done.
  - intros c' gc' Hl. destruct (decide (c' = c)) as [->|Hne].
    + rewrite lookup_insert_eq in Hl. injection Hl as <-. destruct (Hca _ _ Hc) as [Hok _].
      split; [by apply clear_slots_ok|]. cbn. split; [set_solver|done].
    + rewrite lookup_insert_ne in Hl by done. destruct (Hca _ _ Hl) as [? Hok]. split; [done|]. cbn.
      destruct (released gc'); [set_solver|]. destruct Hok as (? & ? & Hok).
      split; [set_solver|]. split; [done|]. destruct (evicted gc'); [|done].
      destruct Hok as [[= ->]|?]; [done|by right].
  - intros i c' Hl. destruct (Hsl _ _ Hl) as (gc' & ? & ? & ? & ?).
    destruct (decide (c' = c)) as [->|Hne]; [congruence|]. exists gc'. by rewrite lookup_insert_ne.
  - intros p ? ?. destruct (Hwi p) as (c' & gc' & Hsp & ? & ?); [done..|].
    destruct (Hsl _ _ Hsp) as (gc'' & ? & ? & ? & ?).
    destruct (decide (c' = c)) as [->|Hne]; [congruence|]. exists c', gc'. by rewrite lookup_insert_ne.
  - intros c' Hc'. destruct (decide (c' = c)) as [->|Hne]; [by rewrite lookup_insert_eq|].
    rewrite lookup_insert_ne by done. by apply Hhe.
  - intros c' Hc'. destruct (decide (c' = c)) as [->|Hne].
    + exists (released_cache gc). by rewrite lookup_insert_eq.
    + destruct (Hpo c') as (gc' & ? & ?); [set_solver|]. exists gc'. by rewrite lookup_insert_ne.
Qed.

(** The last two cases of an operation that leaves [c] evicted. *)
Lemma inv_release_if r hs c gc :
  ring_inv_d (Some c) (mkSys r hs) -> r.(heap) !! c = Some gc -> gc.(released) = false ->
  gc.(evicted) = true ->
  ring_inv (mkSys (if gc.(refCount) =? 0 then releaseCache c r else r) hs).
Proof.
  intros Hi Hc Hr He. destruct (inv_cache _ _ Hi _ _ Hc) as [_ Hok]. cbn in Hok.
  rewrite Hr, He in Hok. destruct Hok as (_ & Hrc & _). case_match eqn:Hz; bool_prop.
  - eapply inv_release; try done. congruence.
  - eapply inv_settle; try done. unfold refs in *. lia.
Qed.

Lemma inv_decrRef r hs c :
  ring_inv (mkSys r hs) -> c ∈ hs -> ring_inv (mkSys (decrRef c r) (hs ∖ {[+ c +]})).
Proof.
  intros Hi Hh. destruct (inv_held _ _ Hi c Hh) as [gc Hc]. cbn in Hc.
  pose proof (held_live _ _ _ _ _ Hi Hh Hc) as Hr.
  destruct (inv_cache _ _ Hi _ _ Hc) as [Hs Hok]. cbn in Hok. rewrite Hr in Hok. destruct Hok as (_ & Hrc & _).
  assert (forall d, (evicted gc = true -> d = Some c \/ 0 < refs (hs ∖ {[+ c +]}) c) ->
            ring_inv_d d (mkSys (put_cache r c (add_ref (-1) gc)) (hs ∖ {[+ c +]}))) as Hupd.
  { intros d Hd. eapply inv_update; try done.
    - cbn [refCount add_ref]. rewrite Hrc, refs_remove, decide_True by done. lia.
    - intros c' Hne. rewrite refs_remove, decide_False by done. lia. }
  unfold decrRef. rewrite Hc. cbn [evicted add_ref]. destruct (evicted gc) eqn:He.
  - rewrite andb_true_r. apply (inv_release_if _ _ _ (add_ref (-1) gc)); try done; [|apply lookup_insert_eq].
    apply Hupd. by left.
  - rewrite andb_false_r. by apply Hupd.
Qed.

Lemma inv_get r hs p o r' :
  ring_inv (mkSys r hs) -> get p r = (o, r') ->
  ring_inv (mkSys r' (match o with Some c => {[+ c +]} ⊎ hs | None => hs end)).
Proof.
  intros Hi Hg. unfold get in Hg. destruct (caches r !! _) as [[c|]|]; [|by simplify_eq..].
  destruct (heap r !! c) as [gc|] eqn:Hc; [|by simplify_eq].
  destruct ((pos gc =? p) && negb (released gc)) eqn:Hb; [|by simplify_eq].
  simplify_eq. bool_prop. destruct (inv_cache _ _ Hi _ _ Hc) as [Hs Hok]. cbn in Hok.
  match goal with Hr : released gc = false |- _ => rewrite Hr in Hok end.
  destruct Hok as (_ & Hrc & _). eapply inv_update; try done.
  - cbn [refCount incrRef add_ref]. rewrite Hrc, refs_add, decide_True by done. lia.
  - intros _. right. rewrite refs_add, decide_True by done. unfold refs. lia.
  - intros c' Hne. rewrite refs_add, decide_False by done. lia.
Qed.

Lemma store_slot_ok gc f :
  slots_ok gc -> (gc.(count) < MaxFramesPerGroup)%nat -> slots_ok (store_slot gc f).
Proof.
  intros (Hl & Hc & Hs & Hz) Hlt. split; [by cbn; rewrite length_insert|]. cbn. split; [lia|]. split.
  - intros i Hi. destruct (decide (i = count gc)) as [->|Hne].
    + exists f. apply list_lookup_insert_eq. lia.
    + rewrite list_lookup_insert_ne by done. apply Hs. lia.
  - intros i o Hi. rewrite list_lookup_insert_ne by lia. apply Hz. lia.
Qed.

(** An update that keeps the references: a frame stored, or completion. *)
Lemma inv_same_refs r hs c gc gc' :
  ring_inv (mkSys r hs) -> c ∈ hs -> r.(heap) !! c = Some gc -> slots_ok gc' ->
  gc'.(pos) = gc.(pos) -> gc'.(released) = gc.(released) -> gc'.(evicted) = gc.(evicted) ->
  gc'.(refCount) = gc.(refCount) -> ring_inv (mkSys (put_cache r c gc') hs).
Proof.
  intros Hi Hh Hc Hs Hp Hr He Hrc. pose proof (held_live _ _ _ _ _ Hi Hh Hc) as Hrel.
  destruct (inv_cache _ _ Hi _ _ Hc) as [_ Hok]. cbn in Hok. rewrite Hrel in *.
  eapply inv_update; try done; [naive_solver congruence|]. right. by apply refs_pos.
Qed.

Lemma inv_append r hs c payload ch :
  ring_inv (mkSys r hs) -> c ∈ hs -> ring_inv (mkSys (append c payload ch r) hs).
Proof.
  intros Hi Hh. unfold append. destruct (heap r !! c) as [gc|] eqn:Hc; [|done].
  case_decide as Hfull; [done|]. destruct (inv_cache _ _ Hi _ _ Hc) as [Hs _].
  cbn. apply (inv_same_refs _ _ _ gc); try done.
  - by apply inv_frames, inv_frames.
  - apply store_slot_ok; [done|lia].
Qed.

Lemma inv_complete r hs c :
  ring_inv (mkSys r hs) -> c ∈ hs -> ring_inv (mkSys (complete_cache c r) hs).
Proof.
  intros Hi Hh. unfold complete_cache. destruct (heap r !! c) as [gc|] eqn:Hc; [|done].
  destruct (inv_cache _ _ Hi _ _ Hc) as [Hs _]. by apply (inv_same_refs _ _ _ gc).
Qed.

(** *** [reserve] *)

Lemma slot_lt r p : (0 < r.(size))%nat -> (slot_of r p < r.(size))%nat.
Proof. intros Hs. unfold slot_of. pose proof (Z.mod_pos_bound p (Z.of_nat (size r))). lia. Qed.

(** Two positions less than a ring apart have different slots. *)
Lemma slot_inj r p q :
  (0 < r.(size))%nat -> slot_of r p = slot_of r q -> p - Z.of_nat r.(size) < q < p + Z.of_nat r.(size) -> p = q.
Proof.
  intros Hs Hpq Hr. unfold slot_of in Hpq.
  pose proof (Z.mod_pos_bound p (Z.of_nat (size r))). pose proof (Z.mod_pos_bound q (Z.of_nat (size r))).
  assert (p mod Z.of_nat (size r) = q mod Z.of_nat (size r)) as Hm by lia.
  pose proof (Z.div_mod p (Z.of_nat (size r))). pose proof (Z.div_mod q (Z.of_nat (size r))).
  assert (p / Z.of_nat (size r) = q / Z.of_nat (size r)) as Hd by nia. nia.
Qed.

Lemma slot_back r p : slot_of r (p - Z.of_nat r.(size)) = slot_of r p.
Proof.
  unfold slot_of. f_equal. replace (p - Z.of_nat (size r)) with (p + (-1) * Z.of_nat (size r)) by lia.
  destruct (decide (Z.of_nat (size r) = 0)) as [->|]; [by rewrite Z.mul_0_r, Z.add_0_r|by rewrite Z.mod_add].
Qed.

Definition evict (gc : groupCache) : groupCache :=
  mkCache gc.(slots) gc.(count) gc.(seq) gc.(pos) gc.(complete) gc.(refCount) true gc.(released)
          gc.(highestSeq).

Lemma newGroupCache_ok s : slots_ok (newGroupCache s).
Proof.
  split; [apply length_replicate|]. cbn. split; [lia|]. split; [lia|].
  by intros i o _ [-> _]%lookup_replicate.
Qed.

(** A cache taken from the pool, or a new one, is empty and no one knows it. *)
Lemma gcPool_Get_spec r hs ch c r1 :
  ring_inv (mkSys r hs) -> gcPool_Get ch r = (c, r1) ->
  (exists gc, r1.(heap) !! c = Some gc /\ slots_ok gc /\ gc.(count) = 0%nat) /\
  refs hs c = 0 /\ (forall i, r.(caches) !! i <> Some (Some c)) /\
  (forall c', c' <> c -> r1.(heap) !! c' = r.(heap) !! c') /\
  r1 = mkRing r1.(heap) r.(caches) r.(size) r.(rpos) r.(maxSeq) (r.(gcPool) ∖ {[c]}) r.(frames) r.(framePool).
Proof.
  intros Hi Hg.
  assert (forall c', r.(heap) !! c' = None -> refs hs c' = 0 /\
            (forall i, r.(caches) !! i <> Some (Some c')) /\ c' ∉ r.(gcPool)) as Hnew.
  { intros c' Hn. split; [|split].
    - destruct (decide (c' ∈ hs)) as [Hh|Hh]; [destruct (inv_held _ _ Hi _ Hh); cbn in *; congruence|].
      rewrite refs_pos in Hh. unfold refs in *. lia.
    - intros i Hl. destruct (inv_slot _ _ Hi _ _ Hl) as (? & ? & _). cbn in *. congruence.
    - intros Hp. destruct (inv_pool _ _ Hi _ Hp) as (? & ? & _). cbn in *. congruence. }
  assert (forall c', c' = fresh (dom (heap r)) -> r.(heap) !! c' = None) as Hfresh.
  { intros c' ->. apply not_elem_of_dom, is_fresh. }
  assert (c = fresh (dom (heap r)) -> r1 = put_cache r c (newGroupCache 0) ->
    (exists gc, r1.(heap) !! c = Some gc /\ slots_ok gc /\ gc.(count) = 0%nat) /\
    refs hs c = 0 /\ (forall i, r.(caches) !! i <> Some (Some c)) /\
    (forall c', c' <> c -> r1.(heap) !! c' = r.(heap) !! c') /\
    r1 = mkRing r1.(heap) r.(caches) r.(size) r.(rpos) r.(maxSeq) (r.(gcPool) ∖ {[c]}) r.(frames) r.(framePool))
    as Hcase.
  { intros Hc ->. destruct (Hnew c (Hfresh c Hc)) as (? & ? & ?). cbn. split.
    { exists (newGroupCache 0). by rewrite lookup_insert_eq; auto using newGroupCache_ok. }
    split; [done|]. split; [done|]. split; [intros c' ?; by rewrite lookup_insert_ne|].
    unfold put_cache, set_heap. f_equal. set_solver. }
  unfold gcPool_Get in Hg. destruct ch as [c0|]; [|by simplify_eq; apply Hcase].
  case_decide as Hp; [|by simplify_eq; apply Hcase]. simplify_eq. cbn.
  destruct (inv_pool _ _ Hi _ Hp) as (gc & Hc & Hr). cbn in Hc.
  destruct (inv_cache _ _ Hi _ _ Hc) as [Hs Hok]. rewrite Hr in Hok. destruct Hok as (_ & ? & ?).
  split; [by exists gc|]. split; [done|]. split; [|done].
  intros i Hl. destruct (inv_slot _ _ Hi _ _ Hl) as (? & ? & ? & _). cbn in *. congruence.
Qed.

Ltac rsimpl := cbn [st held heap caches size rpos maxSeq gcPool frames framePool] in *.

(** The swap of a new cache into the slot of the next position. *)
Lemma inv_swap r hs c gc2 o h3 hi :
  ring_inv (mkSys r hs) -> r.(rpos) + 1 < 2 ^ 64 ->
  refs hs c = 0 -> (forall i, r.(caches) !! i <> Some (Some c)) ->
  r.(caches) !! slot_of r (r.(rpos) + 1) = Some o ->
  h3 !! c = Some gc2 -> slots_ok gc2 -> gc2.(pos) = r.(rpos) + 1 -> gc2.(refCount) = 1 ->
  gc2.(evicted) = false -> gc2.(released) = false ->
  (forall c', o = Some c' -> h3 !! c' = evict <$> r.(heap) !! c') ->
  (forall c', c' <> c -> o <> Some c' -> h3 !! c' = r.(heap) !! c') ->
  ring_inv_d o (mkSys (mkRing h3 (<[slot_of r (r.(rpos) + 1) := Some c]> r.(caches)) r.(size)
    (r.(rpos) + 1) hi (r.(gcPool) ∖ {[c]}) r.(frames) r.(framePool)) ({[+ c +]} ⊎ hs)).
Proof.
  intros Hi Hw Hz Hnc Ho Hc Hs2 Hp2 Hr2 He2 Hrel2 Hold Hrest.
  destruct Hi as [Hsz Hln Hps Hca Hsl Hwi Hhe Hpo]. rsimpl.
  pose proof (slot_lt r (rpos r + 1) Hsz) as Hlt. set (idx := slot_of r (rpos r + 1)) in *.
  assert (forall c', o = Some c' -> c' <> c) as Hoc by (intros c' -> ->; by eapply Hnc).
  assert (forall i c', i <> idx -> r.(caches) !! i = Some (Some c') -> o <> Some c') as Hone.
  { intros i c' Hne Hl ->. destruct (Hsl _ _ Hl) as (g1 & H1 & _ & _ & ?).
    destruct (Hsl _ _ Ho) as (g2 & H2 & _ & _ & ?). congruence. }
  split; rsimpl; try done; try lia.
  - by rewrite length_insert.
  - intros c' gc' Hl. destruct (decide (c' = c)) as [->|Hne].
    { rewrite Hc in Hl. injection Hl as <-. split; [done|]. rewrite Hrel2, He2, Hp2.
      split; [set_solver|]. rewrite refs_add, decide_True by done. split; [lia|]. rsimpl.
      split; [|lia]. apply list_lookup_insert_eq. lia. }
    destruct (decide (o = Some c')) as [Ho'|Ho'].
    { rewrite (Hold _ Ho') in Hl. apply fmap_Some in Hl as (go & Hgo & ->).
      subst o. destruct (Hsl _ _ Ho) as (go' & ? & Hrl & Hev & _). simplify_eq.
      destruct (Hca _ _ Hgo) as [? Hok]. rewrite Hrl in Hok. destruct Hok as (? & ? & _).
      split; [done|]. cbn [evict released evicted refCount pos]. rewrite Hrl, refs_add, decide_False by done.
      split; [set_solver|]. split; [lia|by left]. }
    rewrite (Hrest _ Hne Ho') in Hl. destruct (Hca _ _ Hl) as [? Hok]. split; [done|].
    rewrite refs_add, decide_False, Z.add_0_r by done. rsimpl. destruct (released gc'); [set_solver|].
    destruct Hok as (? & ? & Hok). split; [set_solver|]. split; [done|].
    destruct (evicted gc'); [destruct Hok; [done|by right]|]. destruct Hok as (Hat & ? & ?).
    assert (slot_of r (pos gc') <> idx) as Hni by (intros He; rewrite He in Hat; congruence).
    split; [by rewrite list_lookup_insert_ne|]. split; [lia|].
    destruct (decide (pos gc' = rpos r + 1 - Z.of_nat (size r))) as [He|]; [|lia].
    exfalso. apply Hni. rewrite He. apply slot_back.
  - intros i c' Hl. destruct (decide (i = idx)) as [->|Hne].
    + rewrite list_lookup_insert_eq in Hl by lia. injection Hl as <-. exists gc2. by rewrite Hp2.
    + rewrite list_lookup_insert_ne in Hl by done. destruct (Hsl _ _ Hl) as (gc' & ? & ? & ? & ?).
      exists gc'. rewrite Hrest; [done| |by eapply Hone]. intros ->. by eapply Hnc.
  - intros p ? ?. destruct (decide (p = rpos r + 1)) as [->|Hne].
    + exists c, gc2. split; [|done]. apply list_lookup_insert_eq. lia.
    + destruct (Hwi p) as (c' & gc' & Hat & ? & ?); [lia..|].
      change (slot_of _ p) with (slot_of r p).
      assert (slot_of r p <> idx) as Hni by (intros He; apply slot_inj in He; lia).
      exists c', gc'. rewrite list_lookup_insert_ne by done. split; [done|]. split; [|done].
      rewrite Hrest; [done| |by eapply Hone]. intros ->. by eapply Hnc.
  - intros c'. rewrite gmultiset_elem_of_disj_union, gmultiset_elem_of_singleton.
    destruct (decide (c' = c)) as [->|Hne]; [by rewrite Hc|]. intros [?|Hh]; [done|].
    destruct (decide (o = Some c')) as [Ho'|Ho']; [rewrite (Hold _ Ho')|by rewrite Hrest; [apply Hhe|..]].
    apply fmap_is_Some. by apply Hhe.
  - intros c' Hp. destruct (Hpo c') as (gc' & ? & ?); [set_solver|]. exists gc'.
    rewrite Hrest; [done|set_solver|]. intros ->. destruct (Hsl _ _ Ho) as (? & ? & ? & _). congruence.
Qed.

Lemma inv_reserve r hs s ch c r' :
  ring_inv (mkSys r hs) -> r.(rpos) + 1 < 2 ^ 64 -> reserve s ch r = (c, r') ->
  ring_inv (mkSys r' ({[+ c +]} ⊎ hs)).
Proof.
  intros Hi Hw Hres. unfold reserve in Hres. destruct (gcPool_Get ch r) as [c1 r1] eqn:Hg.
  destruct (gcPool_Get_spec _ _ _ _ _ Hi Hg) as ((gc0 & Hc0 & Hs0 & Hcnt) & Hz & Hnc & Hrest & Hr1).
  rewrite Hc0 in Hres. rewrite Hr1 in Hres. cbn in Hres.
  pose proof (inv_pos _ _ Hi) as Hp. cbn in Hp. rewrite wrapu_id in Hres by (unfold in_u; lia).
  fold (slot_of r (rpos r + 1)) in Hres. injection Hres as -> <-.
  set (gc2 := mkCache _ _ _ _ _ _ _ _ _).
  assert (slots_ok gc2) as Hs2 by apply (clear_slots_ok _ Hs0).
  pose proof (slot_lt r (rpos r + 1) (inv_size _ _ Hi)) as Hlt.
  destruct (lookup_lt_is_Some_2 (caches r) (slot_of r (rpos r + 1))) as [o Ho].
  { pose proof (inv_len _ _ Hi). cbn in *. lia. }
  rewrite Ho. destruct o as [o|].
  - assert (o <> c) as Hoc by (intros ->; by eapply Hnc).
    destruct (inv_slot _ _ Hi _ _ Ho) as (go & Hgo & Hrl & Hev & _). cbn in Hgo.
    unfold markEvictedLocked. cbn [heap]. rewrite lookup_insert_ne, Hrest, Hgo by done.
    apply (inv_release_if _ _ _ (evict go)); [|apply lookup_insert_eq|done|done].
    eapply (inv_swap r hs c gc2); try done; cbn.
    + rewrite lookup_insert_ne by done. apply lookup_insert_eq.
    + intros c' [= <-]. rewrite lookup_insert_eq. by rewrite Hgo.
    + intros c' Hne Hne'. rewrite !lookup_insert_ne by congruence. by apply Hrest.
  - eapply (inv_swap r hs c gc2); try done; cbn.
    + apply lookup_insert_eq.
    + intros c' Hne _. rewrite lookup_insert_ne by done. by apply Hrest.
Qed.

Lemma step_inv x y : step x y -> ring_inv x -> ring_inv y.
Proof.
  intros [] Hi.
  - by eapply inv_reserve.
  - by eapply (inv_get _ _ _ (Some c)).
  - by eapply (inv_get _ _ _ None).
  - by apply inv_append.
  - by apply inv_complete.
  - by apply inv_decrRef.
Qed.

Lemma fstep_inv z z' : fstep z z' -> ring_inv z.1 -> ring_inv z'.1.
Proof.
  intros [] Hi; cbn in *; try by apply inv_frames.
  - by eapply step_inv.
  - unfold pool_Get in *. simplify_eq. by apply inv_frames.
Qed.

Lemma reachable_inv n z : (0 < n)%nat -> reachable n z -> ring_inv z.1.
Proof.
  intros Hn Hx. unfold reachable in Hx. remember (init n, ∅) as z0 eqn:Hz.
  assert (ring_inv z0.1) as Hi by (subst; by apply inv_init). clear Hz Hn.
  induction Hx; eauto using fstep_inv.
Qed.

(** ** Frames *)

(** Frame [f] is stored in slot [i] of cache [c]. *)
Definition owned (r : ring) (f : fid) (c : cid) (i : nat) : Prop :=
  exists gc, r.(heap) !! c = Some gc /\ gc.(slots) !! i = Some (Some f).

Record frames_inv (r : ring) (b : gset fid) : Prop := {
  fi_own f c i : owned r f c i -> f ∈ dom r.(frames) /\ (f ∉ r.(framePool)) /\ f ∉ b;
  fi_uniq f c i c' i' : owned r f c i -> owned r f c' i' -> c = c' /\ i = i';
  fi_pool : r.(framePool) ⊆ dom r.(frames);
  fi_bufs : b ⊆ dom r.(frames);
  fi_disj : b ## r.(framePool)
}.

(** Stored frames that only disappear keep the invariant. *)
Lemma frames_inv_mono r r' b :
  frames_inv r b -> r'.(frames) = r.(frames) -> r'.(framePool) = r.(framePool) ->
  (forall f c i, owned r' f c i -> owned r f c i) -> frames_inv r' b.
Proof.
  intros [] Hf Hp Ho. split; rewrite ?Hf, ?Hp; eauto.
Qed.

Lemma owned_put r c gc gc' f c' i :
  r.(heap) !! c = Some gc -> gc'.(slots) = gc.(slots) ->
  owned (put_cache r c gc') f c' i -> owned r f c' i.
Proof.
  intros Hc Hs (g & Hg & Hi). cbn in Hg. destruct (decide (c' = c)) as [->|Hne].
  - rewrite lookup_insert_eq in Hg. simplify_eq. exists gc. by rewrite <- Hs.
  - rewrite lookup_insert_ne in Hg by done. by exists g.
Qed.

(** Changing a cache without touching its slots. *)
Lemma frames_inv_put r b c gc gc' :
  frames_inv r b -> r.(heap) !! c = Some gc -> gc'.(slots) = gc.(slots) ->
  frames_inv (put_cache r c gc') b.
Proof. intros Hi Hc Hs. eapply frames_inv_mono; eauto using owned_put. Qed.

Lemma elem_of_stored gc f : f ∈ stored gc -> exists i, gc.(slots) !! i = Some (Some f).
Proof.
  unfold stored. intros (o & (i & Hi)%list_elem_of_lookup & Ho)%list_elem_of_omap. cbn in Ho. subst o.
  apply lookup_take_Some in Hi as [? _]. by exists i.
Qed.

Lemma frames_inv_release r b c gc :
  frames_inv r b -> r.(heap) !! c = Some gc -> slots_ok gc -> gc.(released) = false ->
  frames_inv (releaseCache c r) b.
Proof.
  intros [Ho Hu Hp Hb Hd] Hc Hs Hr. rewrite (releaseCache_eq _ _ _ Hc Hr).
  assert (forall f c' i, owned (releaseCache c r) f c' i -> owned r f c' i /\ c' <> c) as Hsub.
  { intros f c' i (g & Hg & Hi). rewrite (releaseCache_eq _ _ _ Hc Hr) in Hg. cbn in Hg.
    destruct (decide (c' = c)) as [->|Hne].
    - rewrite lookup_insert_eq in Hg. simplify_eq. cbn in Hi.
      rewrite (proj2 (clear_slots_ok _ Hs)) in Hi. by apply lookup_replicate in Hi as [? _].
    - rewrite lookup_insert_ne in Hg by done. split; [by exists g|done]. }
  rewrite (releaseCache_eq _ _ _ Hc Hr) in Hsub.
  assert (forall f, f ∈ stored gc -> exists i, owned r f c i) as Hst.
  { intros f (i & Hi)%elem_of_stored. exists i. by exists gc. }
  split; cbn.
  - intros f c' i [Hown Hne]%Hsub. destruct (Ho _ _ _ Hown) as (? & ? & ?).
    split; [done|]. split; [|done]. intros [Hin%elem_of_list_to_set|]%elem_of_union; [|done].
    destruct (Hst _ Hin) as [j Hj]. by destruct (Hu _ _ _ _ _ Hown Hj).
  - intros f c1 i1 c2 i2 [? _]%Hsub [? _]%Hsub. eauto.
  - intros f [Hin%elem_of_list_to_set|]%elem_of_union; [|by apply Hp].
    destruct (Hst _ Hin) as [j Hj]. by destruct (Ho _ _ _ Hj).
  - done.
  - intros f Hf [Hin%elem_of_list_to_set|Hin]%elem_of_union; [|by eapply Hd].
    destruct (Hst _ Hin) as [j Hj]. by destruct (Ho _ _ _ Hj) as (_ & _ & ?).
Qed.

Lemma pool_Get_spec ch r f r' :
  pool_Get ch r = (f, r') ->
  (f ∈ r.(framePool) \/ f ∉ dom r.(frames)) /\
  r' = set_frames r (<[f := []]> r.(frames)) (r.(framePool) ∖ {[f]}).
Proof.
  unfold pool_Get. intros [= Hf <-]. subst f. split; [|done].
  destruct ch as [f|]; [case_decide; [by left|]|]; right; apply is_fresh.
Qed.

Lemma frames_inv_take ch r f r' b :
  frames_inv r b -> pool_Get ch r = (f, r') -> frames_inv r' ({[f]} ∪ b).
Proof.
  intros [Ho Hu Hp Hb Hd] [Hf ->]%pool_Get_spec. split; cbn.
  - intros g c i Hg. destruct (Ho _ _ _ Hg) as (? & ? & ?). split; [set_solver|].
    split; [set_solver|]. intros [->%elem_of_singleton|?]%elem_of_union; [|done]. by destruct Hf.
  - exact Hu.
  - set_solver.
  - set_solver.
  - set_solver.
Qed.

Lemma frames_inv_write r f payload b :
  frames_inv r b -> frames_inv (set_frames r (<[f := payload]> r.(frames)) r.(framePool)) b.
Proof.
  intros [Ho Hu Hp Hb Hd]. split; cbn; rewrite ?dom_insert_L; [|done|set_solver..|done].
  intros g c i (? & ? & ?)%Ho. set_solver.
Qed.

Lemma frames_inv_drop_buf r f b : frames_inv r b -> frames_inv r (b ∖ {[f]}).
Proof. intros [Ho Hu Hp Hb Hd]. split; [|done|done|set_solver|set_solver]. intros g c i (? & ? & ?)%Ho. set_solver. Qed.

Lemma frames_inv_put_buf r f b : f ∈ b -> frames_inv r b -> frames_inv (pool_Put f r) (b ∖ {[f]}).
Proof.
  intros Hf [Ho Hu Hp Hb Hd]. split; cbn; [|done|set_solver..].
  intros g c i (? & ? & ?)%Ho. set_solver.
Qed.

Lemma owned_store r c gc f g c' i :
  r.(heap) !! c = Some gc -> owned (put_cache r c (store_slot gc f)) g c' i ->
  owned r g c' i \/ (g = f /\ c' = c /\ i = gc.(count)).
Proof.
  intros Hc (gc' & Hg & Hi). cbn in Hg. destruct (decide (c' = c)) as [->|Hne].
  - rewrite lookup_insert_eq in Hg. simplify_eq. cbn in Hi.
    apply list_lookup_insert_Some in Hi as [(-> & ? & ?)|[? ?]]; [|by left; exists gc]. simplify_eq. by right.
  - rewrite lookup_insert_ne in Hg by done. left. by exists gc'.
Qed.

Lemma frames_inv_append r b c payload ch :
  frames_inv r b -> frames_inv (append c payload ch r) b.
Proof.
  intros Hi. unfold append. destruct (heap r !! c) as [gc|] eqn:Hc; [|done]. case_decide; [done|].
  destruct (pool_Get ch r) as [f r1] eqn:Hg. pose proof (frames_inv_take _ _ _ _ _ Hi Hg) as Ht.
  apply pool_Get_spec in Hg as [Hf Hr1]. apply (frames_inv_write _ f payload) in Ht.
  rewrite Hr1 in Ht |- *. set (r2 := set_frames _ _ _) in *.
  assert (heap r2 !! c = Some gc) as Hc2 by done.
  assert (f ∉ b) as Hfb.
  { destruct Hi as [_ _ Hp Hb Hd]. destruct Hf; set_solver. }
  destruct Ht as [Ho Hu Hp Hb Hd]. split; cbn in *.
  - intros g c' i [Hg|(-> & -> & ->)]%(owned_store r2 c gc f); [|set_solver..|done].
    destruct (Ho _ _ _ Hg) as (? & ? & ?). set_solver.
  - intros g c1 i1 c2 i2 [H1|(-> & -> & ->)]%(owned_store r2 c gc f) [H2|(? & -> & ->)]%(owned_store r2 c gc f);
      try done; try subst g.
    + by eapply Hu.
    + destruct (Ho _ _ _ H1) as (_ & _ & ?). set_solver.
    + destruct (Ho _ _ _ H2) as (_ & _ & ?). set_solver.
  - done.
  - set_solver.
  - set_solver.
Qed.

Lemma ring_slots_ok d r hs c gc :
  ring_inv_d d (mkSys r hs) -> r.(heap) !! c = Some gc -> slots_ok gc.
Proof. intros Hi Hc. apply (inv_cache _ _ Hi _ _ Hc). Qed.

Lemma empty_slots gc i f : slots_ok gc -> gc.(count) = 0%nat -> gc.(slots) !! i <> Some (Some f).
Proof. intros (_ & _ & _ & Hz) Hc Hi. rewrite Hc in Hz. specialize (Hz i _ ltac:(lia) Hi). done. Qed.

Lemma frames_inv_decrRef r hs b c :
  ring_inv (mkSys r hs) -> frames_inv r b -> frames_inv (decrRef c r) b.
Proof.
  intros Hi Hf. unfold decrRef. destruct (heap r !! c) as [gc|] eqn:Hc; [|done].
  pose proof (ring_slots_ok _ _ _ _ _ Hi Hc) as Hs.
  pose proof (frames_inv_put _ _ _ _ (add_ref (-1) gc) Hf Hc eq_refl) as Hp.
  case_match; [|done]. destruct (released gc) eqn:Hr.
  - unfold releaseCache, put_cache, set_heap. cbn. rewrite lookup_insert_eq. cbn. by rewrite Hr.
  - eapply frames_inv_release; [done|apply lookup_insert_eq|done|done].
Qed.

Lemma frames_inv_reserve r hs b s ch c r' :
  ring_inv (mkSys r hs) -> frames_inv r b -> reserve s ch r = (c, r') -> frames_inv r' b.
Proof.
  intros Hi Hf Hres. unfold reserve in Hres. destruct (gcPool_Get ch r) as [c1 r1] eqn:Hg.
  destruct (gcPool_Get_spec _ _ _ _ _ Hi Hg) as ((gc0 & Hc0 & Hs0 & Hcnt) & Hz & Hnc & Hrest & Hr1).
  rewrite Hc0 in Hres. rewrite Hr1 in Hres. cbn in Hres. injection Hres as -> <-.
  set (r2 := mkRing (<[c := _]> _) _ _ _ _ _ _ _).
  assert (frames_inv r2 b) as Hf2.
  { eapply frames_inv_mono; try done. intros f c' i (g & Hg' & Hsl). cbn in Hg'.
    destruct (decide (c' = c)) as [->|Hne].
    - rewrite lookup_insert_eq in Hg'. simplify_eq. cbn in Hsl.
      rewrite (proj2 (clear_slots_ok _ Hs0)) in Hsl. by apply lookup_replicate in Hsl as [? _].
    - rewrite lookup_insert_ne, Hrest in Hg' by done. by exists g. }
  set (idx := Z.to_nat _) in *. destruct (caches r !! idx) as [[o|]|] eqn:Ho; [|done..].
  destruct (inv_slot _ _ Hi _ _ Ho) as (go & Hgo & Hrl & _). cbn in Hgo.
  assert (o <> c) as Hoc by (intros ->; by eapply Hnc).
  assert (heap r2 !! o = Some go) as Hgo2 by (cbn; by rewrite lookup_insert_ne, Hrest).
  unfold markEvictedLocked. rewrite Hgo2.
  pose proof (frames_inv_put _ _ _ _ (evict go) Hf2 Hgo2 eq_refl) as Hp.
  case_match; [|done]. eapply frames_inv_release; [done|apply lookup_insert_eq| |done].
  apply (ring_slots_ok _ _ _ _ _ Hi Hgo).
Qed.

Lemma frames_inv_get r b p o r' : frames_inv r b -> get p r = (o, r') -> frames_inv r' b.
Proof.
  intros Hf Hg. unfold get in Hg. repeat case_match; simplify_eq; try done.
  by eapply frames_inv_put.
Qed.

Lemma fstep_frames_inv z z' :
  fstep z z' -> ring_inv z.1 -> frames_inv z.1.(st) z.2 -> frames_inv z'.1.(st) z'.2.
Proof.
  intros Hstep Hi Hf. destruct Hstep as [x y b Hs|r hs b ch f r' Hg|r hs b f payload Hb|r hs b f Hb]; cbn in *.
  - destruct Hs; cbn in *.
    + by eapply frames_inv_reserve.
    + by eapply frames_inv_get.
    + by eapply frames_inv_get.
    + by apply frames_inv_append.
    + unfold complete_cache. case_match; [|done]. by eapply frames_inv_put.
    + by eapply frames_inv_decrRef.
  - by eapply frames_inv_take.
  - by apply frames_inv_write.
  - by apply frames_inv_put_buf.
Qed.

Lemma reachable_frames_inv n z : (0 < n)%nat -> reachable n z -> frames_inv z.1.(st) z.2.
Proof.
  intros Hn Hx. unfold reachable in Hx. remember (init n, ∅) as z0 eqn:Hz.
  assert (ring_inv z0.1) as Hi by (subst; by apply inv_init).
  assert (frames_inv z0.1.(st) z0.2) as Hf.
  { subst. split; cbn; [|intros f c i c' i' (? & [=] & _)|set_solver..].
    intros f c i (? & [=] & _). }
  clear Hz Hn. induction Hx as [|z0 z1 z Hs _ IH]; [done|].
  apply IH; [by eapply fstep_inv|by eapply fstep_frames_inv].
Qed.

(** ** A held group does not change under its holder *)

(** Every stored frame of [gc] is still there, with its contents. *)
Definition extends (r r' : ring) (gc gc' : groupCache) : Prop :=
  gc'.(seq) = gc.(seq) /\ gc'.(pos) = gc.(pos) /\ gc'.(highestSeq) = gc.(highestSeq) /\
  gc'.(released) = false /\ (gc.(complete) = true -> gc'.(complete) = true) /\
  forall i f, gc.(slots) !! i = Some (Some f) ->
    gc'.(slots) !! i = Some (Some f) /\ r'.(frames) !! f = r.(frames) !! f.

Lemma release_heap_ne c c' r : c' <> c -> (releaseCache c r).(heap) !! c' = r.(heap) !! c'.
Proof.
  intros Hne. unfold releaseCache. destruct (heap r !! c) as [gc|]; [|done].
  destruct (released gc); [done|]. rewrite pool_Puts. cbn. by rewrite lookup_insert_ne.
Qed.

Lemma release_frames c r : (releaseCache c r).(frames) = r.(frames).
Proof.
  unfold releaseCache. destruct (heap r !! c) as [gc|]; [|done]. destruct (released gc); [done|].
  by rewrite pool_Puts.
Qed.

Lemma extends_refl r r' gc gc' :
  gc.(released) = false -> r'.(frames) = r.(frames) ->
  gc'.(seq) = gc.(seq) -> gc'.(pos) = gc.(pos) -> gc'.(highestSeq) = gc.(highestSeq) ->
  gc'.(released) = gc.(released) -> gc'.(complete) = gc.(complete) \/ gc'.(complete) = true ->
  gc'.(slots) = gc.(slots) -> extends r r' gc gc'.
Proof. intros Hr Hf ? ? ? ? ? Hs. unfold extends. rewrite Hs, Hf. naive_solver congruence. Qed.

Lemma pinned_decrRef r hs c c' gc :
  ring_inv (mkSys r hs) -> c' ∈ hs -> c ∈ hs ∖ {[+ c' +]} -> r.(heap) !! c = Some gc ->
  exists gc', (decrRef c' r).(heap) !! c = Some gc' /\ extends r (decrRef c' r) gc gc'.
Proof.
  intros Hi Hc' Hc Hg.
  assert (c ∈ hs) as Hh by multiset_solver. pose proof (held_live _ _ _ _ _ Hi Hh Hg) as Hr.
  destruct (inv_held _ _ Hi c' Hc') as [g' Hg']. cbn in Hg'. unfold decrRef. rewrite Hg'.
  destruct (decide (c = c')) as [<-|Hne].
  - simplify_eq. destruct (inv_cache _ _ Hi _ _ Hg) as [_ Hok]. cbn in Hok. rewrite Hr in Hok.
    destruct Hok as (_ & Hrc & _). apply refs_pos in Hc. rewrite refs_remove, decide_True in Hc by done.
    cbn [refCount add_ref]. destruct (Z.eqb_spec (refCount gc + -1) 0); [lia|]. cbn.
    exists (add_ref (-1) gc). rewrite lookup_insert_eq. split; [done|]. apply extends_refl; auto.
  - exists gc. case_match; rewrite ?release_heap_ne by done; cbn; rewrite lookup_insert_ne by done;
      (split; [done|]); apply extends_refl; rewrite ?release_frames; auto.
Qed.

Lemma pinned_put r c c' gc g g' :
  r.(heap) !! c = Some gc -> gc.(released) = false -> r.(heap) !! c' = Some g ->
  (c = c' -> extends r (put_cache r c' g') gc g') ->
  exists gc', (put_cache r c' g').(heap) !! c = Some gc' /\ extends r (put_cache r c' g') gc gc'.
Proof.
  intros Hc Hr Hg He. destruct (decide (c = c')) as [<-|Hne].
  - exists g'. cbn. rewrite lookup_insert_eq. auto.
  - exists gc. cbn. rewrite lookup_insert_ne by done. split; [done|]. apply extends_refl; auto.
Qed.

Lemma pinned_append r hs b c c' payload ch gc :
  ring_inv (mkSys r hs) -> frames_inv r b -> c ∈ hs -> r.(heap) !! c = Some gc ->
  exists gc', (append c' payload ch r).(heap) !! c = Some gc' /\
    extends r (append c' payload ch r) gc gc'.
Proof.
  intros Hi Hf Hh Hc. pose proof (held_live _ _ _ _ _ Hi Hh Hc) as Hr.
  assert (exists gc', r.(heap) !! c = Some gc' /\ extends r r gc gc') as Hsame
    by (exists gc; split; [done|]; apply extends_refl; auto).
  unfold append. destruct (heap r !! c') as [g|] eqn:Hg; [|done].
  case_decide as Hfull; [done|]. destruct (pool_Get ch r) as [f r1] eqn:Hp.
  apply pool_Get_spec in Hp as [Hnew ->]. cbn.
  assert (forall i f', slots gc !! i = Some (Some f') -> f' <> f) as Hne.
  { intros i f' Hi' ->. destruct (fi_own _ _ Hf f c i) as (? & ? & _); [by exists gc|]. by destruct Hnew. }
  set (fr := <[f := payload]> _).
  assert (forall i f', slots gc !! i = Some (Some f') -> fr !! f' = frames r !! f') as Hfr.
  { intros i f' Hi'%Hne. unfold fr. by rewrite !lookup_insert_ne. }
  destruct (decide (c = c')) as [<-|Hcc].
  - simplify_eq. exists (store_slot gc f). rewrite lookup_insert_eq. split; [done|].
    repeat split; try done; [|by eapply Hfr]. cbn. rewrite list_lookup_insert_ne; [done|].
    intros <-. destruct (ring_slots_ok _ _ _ _ _ Hi Hc) as (_ & _ & _ & Hz).
    specialize (Hz _ _ ltac:(reflexivity) H). done.
  - exists gc. rewrite lookup_insert_ne by done. split; [done|]. repeat split; try done. by eapply Hfr.
Qed.

Lemma pinned_reserve r hs s ch c' r' c gc :
  ring_inv (mkSys r hs) -> reserve s ch r = (c', r') -> c ∈ hs -> r.(heap) !! c = Some gc ->
  exists gc', r'.(heap) !! c = Some gc' /\ extends r r' gc gc'.
Proof.
  intros Hi Hres Hh Hc. pose proof (held_live _ _ _ _ _ Hi Hh Hc) as Hr.
  unfold reserve in Hres. destruct (gcPool_Get ch r) as [c1 r1] eqn:Hg.
  destruct (gcPool_Get_spec _ _ _ _ _ Hi Hg) as ((gc0 & Hc0 & _ & _) & Hz & Hnc & Hrest & Hr1).
  rewrite Hc0 in Hres. rewrite Hr1 in Hres. cbn in Hres. injection Hres as -> <-.
  assert (c <> c') as Hne by (intros ->; apply refs_pos in Hh; lia).
  set (r2 := mkRing (<[c' := _]> _) _ _ _ _ _ _ _).
  assert (heap r2 !! c = Some gc) as Hc2 by (cbn; by rewrite lookup_insert_ne, Hrest).
  set (idx := Z.to_nat _) in *. destruct (caches r !! idx) as [[o|]|] eqn:Ho;
    [|exists gc; split; [done|]; apply extends_refl; auto..].
  destruct (inv_slot _ _ Hi _ _ Ho) as (go & Hgo & _). cbn in Hgo.
  assert (o <> c') as Hoc by (intros ->; by eapply Hnc).
  assert (heap r2 !! o = Some go) as Hgo2 by (cbn; by rewrite lookup_insert_ne, Hrest).
  unfold markEvictedLocked. rewrite Hgo2. destruct (decide (c = o)) as [<-|Hco].
  - simplify_eq. destruct (inv_cache _ _ Hi _ _ Hc) as [_ Hok]. cbn in Hok. rewrite Hr in Hok.
    destruct Hok as (_ & Hrc & _). apply refs_pos in Hh. cbn [refCount].
    destruct (Z.eqb_spec (refCount gc) 0); [lia|]. exists (evict gc). cbn. rewrite lookup_insert_eq.
    split; [done|]. apply extends_refl; auto.
  - exists gc. case_match; rewrite ?release_heap_ne by done; cbn; rewrite lookup_insert_ne by done;
      (split; [done|]); apply extends_refl; rewrite ?release_frames; auto.
Qed.

Lemma step_pinned x y b c gc :
  ring_inv x -> frames_inv x.(st) b -> step x y -> c ∈ x.(held) -> c ∈ y.(held) ->
  x.(st).(heap) !! c = Some gc ->
  exists gc', y.(st).(heap) !! c = Some gc' /\ extends x.(st) y.(st) gc gc'.
Proof.
  intros Hi Hf Hs Hh Hh' Hc.
  assert (gc.(released) = false) as Hr by (destruct x; by eapply held_live).
  assert (exists gc', x.(st).(heap) !! c = Some gc' /\ extends x.(st) x.(st) gc gc') as Hsame
    by (exists gc; split; [done|]; apply extends_refl; auto).
  destruct Hs as [r hs s ch c' r' _ Hres|r hs p c' r' Hg|r hs p r' Hg|r hs c' pl ch _|r hs c' _|r hs c' Hc'];
    cbn in *.
  - by eapply pinned_reserve.
  - unfold get in Hg. repeat case_match; simplify_eq; try done.
    eapply pinned_put; [done..|]. intros ->. simplify_eq. apply extends_refl; auto.
  - unfold get in Hg. by repeat case_match; simplify_eq.
  - by eapply pinned_append.
  - unfold complete_cache. case_match eqn:Hl; [|done].
    eapply pinned_put; [done..|]. intros ->. simplify_eq. apply extends_refl; auto.
  - by eapply pinned_decrRef.
Qed.

(** ** The ring's guarantees *)


(** [get] serves exactly the groups of the window the ring promises:
    position [p] is answered, with the group reserved at [p], if and only if
    [earliestAvailable] <= p <= [head]. *)
Theorem get_window n z p :
  (0 < n)%nat -> reachable n z ->
  let r := z.1.(st) in
  (exists c gc r', get p r = (Some c, r') /\ r.(heap) !! c = Some gc /\ gc.(pos) = p) <->
  earliestAvailable r <= p <= head r.
Proof.
  intros Hn Hre r. pose proof (reachable_inv _ _ Hn Hre) as Hi.
  assert (earliestAvailable r <= p <= head r <->
          1 <= p <= rpos r /\ rpos r - Z.of_nat (size r) < p) as ->.
  { unfold earliestAvailable, head. pose proof (inv_size _ _ Hi).
    destruct (Z.leb_spec (rpos r) (Z.of_nat (size r))); subst r; lia. }
  destruct z as [[r0 hs] b]. cbn in *. subst r. split.
  - intros (c & gc & r' & Hg & Hc & Hp). unfold get in Hg.
    fold (slot_of r0 p) in Hg. destruct (caches r0 !! slot_of r0 p) as [[c'|]|] eqn:Hat; [|done..].
    destruct (inv_slot _ _ Hi _ _ Hat) as (g & Hg' & Hr & He & _). cbn in Hg'. rewrite Hg' in Hg.
    case_match; simplify_eq. destruct (inv_cache _ _ Hi _ _ Hc) as [_ Hok]. cbn in Hok.
    rewrite Hr, He in Hok. lia.
  - intros [Hp1 Hp2]. destruct (inv_window _ _ Hi p) as (c & gc & Hat & Hc & Hp); [done..|]. cbn in *.
    destruct (inv_slot _ _ Hi _ _ Hat) as (g & Hg & Hr & _). cbn in Hg.
    rewrite Hc in Hg. injection Hg as <-.
    exists c, gc, (put_cache r0 c (incrRef gc)). split; [|done]. unfold get.
    fold (slot_of r0 p). by rewrite Hat, Hc, Hp, Z.eqb_refl, Hr.
Qed.


(** *** A ring of one group *)

Definition demo1 : cid * ring := reserve 7 None (newGroupRing 1).
Definition demo2 : ring := append demo1.1 [1; 2; 3] None demo1.2.
Definition demo3 : cid * ring := reserve 9 None demo2.

Lemma demo_reachable1 : reachable 1 (mkSys demo1.2 ({[+ demo1.1 +]} ⊎ ∅), ∅).
Proof.
  eapply rtc_l; [|apply rtc_refl]. apply fstep_base, (step_reserve _ _ 7 None); [vm_compute; reflexivity|].
  apply surjective_pairing.
Qed.

Lemma demo_reachable2 : reachable 1 (mkSys demo2 ({[+ demo1.1 +]} ⊎ ∅), ∅).
Proof.
  eapply rtc_r; [apply demo_reachable1|]. apply fstep_base, step_append. multiset_solver.
Qed.

Definition demo_cache : groupCache :=
  match demo2.(heap) !! demo1.1 with Some gc => gc | None => newGroupCache 0 end.


Lemma get_window_witness :
  (exists c gc r', get 1 demo2 = (Some c, r') /\ demo2.(heap) !! c = Some gc /\ gc.(pos) = 1) <->
  earliestAvailable demo2 <= 1 <= head demo2.
Proof.
  apply (get_window 1 (mkSys demo2 ({[+ demo1.1 +]} ⊎ ∅), ∅) 1); [lia|apply demo_reachable2].
Defined.

