(* ===== verification/GroupConc.v ===== *)
(** * internal/relay/group_cache.go: interleavings inside the methods

    GroupRing.v takes each method as one step. Here the atomic loads, stores
    and compare-and-swaps of three of them interleave:
    - [Appenders]: any number of goroutines in [groupCache.append];
    - [Reader]: one egress goroutine in [groupCache.frames] while the filler
      appends and completes the group;
    - [Release]: goroutines in [decrRef] while the ingest goroutine is in
      [reserve]. *)
From stdpp Require Import gmultiset.
From S2P Require Import Prelude GroupRing.

(** ** Concurrent appends *)
Module Appenders.

(** Where an appender is: before the fast check, at the top of the CAS loop
    with its clone made, between the load of [count] and the CAS, between the
    CAS and the store, or returned (stored, or refused because the group is
    full). *)
Inductive pc := Check | Load | Cas (n : nat) | Store (n : nat) | Done | Full.

#[export] Instance pc_eq_dec : EqDecision pc.
Proof. solve_decision. Defined.

Record shared := mkShared { cnt : nat; slts : list (option fid) }.

(** One atomic action of an appender of frame [f]. *)
Definition act (f : fid) (p : pc) (s : shared) : pc * shared :=
  match p with
  | Check => if decide (MaxFramesPerGroup <= s.(cnt)) then (Full, s) else (Load, s)
  | Load => if decide (MaxFramesPerGroup <= s.(cnt)) then (Full, s) else (Cas s.(cnt), s)
  | Cas n => if decide (s.(cnt) = n) then (Store n, mkShared (S n) s.(slts)) else (Load, s)
  | Store n => (Done, mkShared s.(cnt) (<[n := Some f]> s.(slts)))
  | Done => (Done, s)
  | Full => (Full, s)
  end.

Record state := mkState { sh : shared; thr : list (fid * pc) }.

Inductive step : state -> state -> Prop :=
| step_act s ts i f p p' s' :
    ts !! i = Some (f, p) -> act f p s = (p', s') ->
    step (mkState s ts) (mkState s' (<[i := (f, p')]> ts)).

Definition start (fs : list fid) : state :=
  mkState (mkShared 0 (replicate MaxFramesPerGroup None)) ((fun f => (f, Check)) <$> fs).

Definition done_frames (ts : list (fid * pc)) : list fid :=
  omap (fun t => if decide (t.2 = Done) then Some t.1 else None) ts.

Record inv (x : state) : Prop := {
  i_len : length x.(sh).(slts) = MaxFramesPerGroup;
  i_cnt : x.(sh).(cnt) <= MaxFramesPerGroup;
  i_cas : forall i f n, x.(thr) !! i = Some (f, Cas n) -> n < MaxFramesPerGroup;
  i_store : forall i f n, x.(thr) !! i = Some (f, Store n) ->
    n < x.(sh).(cnt) /\ x.(sh).(slts) !! n = Some None;
  i_uniq : forall i j f g n, x.(thr) !! i = Some (f, Store n) -> x.(thr) !! j = Some (g, Store n) -> i = j;
  i_pending : forall n, n < x.(sh).(cnt) -> x.(sh).(slts) !! n = Some None ->
    exists i f, x.(thr) !! i = Some (f, Store n);
  i_free : forall n o, x.(sh).(cnt) <= n -> x.(sh).(slts) !! n = Some o -> o = None;
  i_done : omap id x.(sh).(slts) ≡ₚ done_frames x.(thr);
  i_full : forall i f, x.(thr) !! i = Some (f, Full) -> x.(sh).(cnt) = MaxFramesPerGroup
}.

Lemma omap_replicate_None {A} n : omap id (replicate n (@None A)) = [].
Proof. by induction n. Qed.

Lemma done_frames_start fs : done_frames ((fun f => (f, Check)) <$> fs) = [].
Proof. by induction fs. Qed.

Lemma omap_store (l : list (option fid)) n f :
  l !! n = Some None -> omap id (<[n := Some f]> l) ≡ₚ f :: omap id l.
Proof.
  intros Hn. rewrite <- (take_drop_middle l n None Hn) at 2.
  rewrite insert_take_drop by (by eapply lookup_lt_Some).
  rewrite !omap_app. cbn. by rewrite <- Permutation_middle.
Qed.

Lemma done_insert ts i f p p' :
  ts !! i = Some (f, p) -> p <> Done ->
  done_frames (<[i := (f, p')]> ts) ≡ₚ (if decide (p' = Done) then [f] else []) ++ done_frames ts.
Proof.
  intros Hi Hp. unfold done_frames. rewrite <- (take_drop_middle ts i (f, p) Hi) at 2.
  rewrite insert_take_drop by (by eapply lookup_lt_Some).
  rewrite !omap_app. cbn. rewrite (decide_False (P := p = Done)) by done.
  case_decide; cbn; [by rewrite <- Permutation_middle|done].
Qed.

Lemma inv_start fs : inv (start fs).
Proof.
  split; cbn.
  - apply length_replicate.
  - lia.
  - intros i f n. rewrite list_lookup_fmap. by destruct (fs !! i).
  - intros i f n. rewrite list_lookup_fmap. by destruct (fs !! i).
  - intros i j f g n. rewrite list_lookup_fmap. by destruct (fs !! i).
  - lia.
  - by intros n o _ [-> _]%lookup_replicate.
  - by rewrite omap_replicate_None, done_frames_start.
  - intros i f. rewrite list_lookup_fmap. by destruct (fs !! i).
Qed.

(** What the thread list looks like after thread [i] moved. *)
Lemma moved (ts : list (fid * pc)) i f p p' j g q :
  ts !! i = Some (f, p) -> <[i := (f, p')]> ts !! j = Some (g, q) ->
  (j = i /\ g = f /\ q = p') \/ (j <> i /\ ts !! j = Some (g, q)).
Proof.
  intros Hi Hj. destruct (decide (j = i)) as [->|Hne].
  - rewrite list_lookup_insert_eq in Hj by (by eapply lookup_lt_Some). left. by simplify_eq.
  - rewrite list_lookup_insert_ne in Hj by done. by right.
Qed.

Lemma stays (ts : list (fid * pc)) i f p p' j g q :
  ts !! i = Some (f, p) -> j <> i -> ts !! j = Some (g, q) -> <[i := (f, p')]> ts !! j = Some (g, q).
Proof. intros _ Hne Hj. by rewrite list_lookup_insert_ne. Qed.

(** A move of one thread that leaves the shared state alone. *)
Lemma inv_local s ts i f p p' :
  inv (mkState s ts) -> ts !! i = Some (f, p) -> p <> Done ->
  (forall n, p <> Store n) -> (forall n, p' <> Store n) -> p' <> Done ->
  (forall n, p' = Cas n -> n < MaxFramesPerGroup) -> (p' = Full -> s.(cnt) = MaxFramesPerGroup) ->
  inv (mkState s (<[i := (f, p')]> ts)).
Proof.
  intros [Hl Hc Hcas Hst Hu Hp Hfr Hd Hfu] Hi Hpd Hps Hp's Hp'd Hcas' Hfull. split; cbn in *; try done.
  - intros j g n Hj. destruct (moved _ _ _ _ _ _ _ _ Hi Hj) as [(_ & _ & <-)|[_ ?]]; eauto.
  - intros j g n Hj. destruct (moved _ _ _ _ _ _ _ _ Hi Hj) as [(_ & _ & <-)|[_ ?]]; [by destruct (Hp's n)|eauto].
  - intros j k g h n Hj Hk. destruct (moved _ _ _ _ _ _ _ _ Hi Hj) as [(_ & _ & <-)|[_ ?]]; [by destruct (Hp's n)|].
    destruct (moved _ _ _ _ _ _ _ _ Hi Hk) as [(_ & _ & <-)|[_ ?]]; [by destruct (Hp's n)|eauto].
  - intros n Hn Hs. destruct (Hp n Hn Hs) as (j & g & Hj). exists j, g.
    eapply stays; [done| |done]. intros ->. rewrite Hi in Hj. simplify_eq. by destruct (Hps n).
  - rewrite Hd. rewrite done_insert by done. by rewrite decide_False.
  - intros j g Hj. destruct (moved _ _ _ _ _ _ _ _ Hi Hj) as [(_ & _ & <-)|[_ ?]]; eauto.
Qed.

Lemma inv_reserved s ts i f n :
  inv (mkState s ts) -> ts !! i = Some (f, Cas n) -> s.(cnt) = n ->
  inv (mkState (mkShared (S n) s.(slts)) (<[i := (f, Store n)]> ts)).
Proof.
  intros [Hl Hc Hcas Hst Hu Hp Hfr Hd Hfu] Hi <-. cbn in *. pose proof (Hcas _ _ _ Hi) as Hlt.
  assert (slts s !! cnt s = Some None) as Hnone.
  { destruct (lookup_lt_is_Some_2 (slts s) (cnt s)) as [o Ho]; [lia|]. by rewrite (Hfr _ _ (Nat.le_refl _) Ho) in Ho. }
  split; cbn; try done.
  - intros j g m Hj. destruct (moved _ _ _ _ _ _ _ _ Hi Hj) as [(_ & _ & ?)|[_ ?]]; [done|eauto].
  - intros j g m Hj. destruct (moved _ _ _ _ _ _ _ _ Hi Hj) as [(_ & _ & [= ->])|[_ Hj']]; [split; [lia|done]|].
    destruct (Hst _ _ _ Hj'). split; [lia|done].
  - intros j k g h m Hj Hk.
    destruct (moved _ _ _ _ _ _ _ _ Hi Hj) as [(-> & _ & [= ->])|[_ Hj']];
      destruct (moved _ _ _ _ _ _ _ _ Hi Hk) as [(-> & _ & Hm)|[_ Hk']]; simplify_eq; eauto.
    + destruct (Hst _ _ _ Hk'). lia.
    + destruct (Hst _ _ _ Hj'). lia.
  - intros m Hm Hs. destruct (decide (m = cnt s)) as [->|Hne].
    + exists i, f. apply list_lookup_insert_eq. by eapply lookup_lt_Some.
    + destruct (Hp m) as (j & g & Hj); [lia|done|]. exists j, g. eapply stays; [done| |done].
      intros ->. congruence.
  - intros m o Hm Ho. apply (Hfr m o); [lia|done].
  - rewrite Hd. rewrite done_insert by done. by rewrite decide_False.
  - intros j g Hj. destruct (moved _ _ _ _ _ _ _ _ Hi Hj) as [(_ & _ & ?)|[_ Hj']]; [done|].
    specialize (Hfu _ _ Hj'). lia.
Qed.

Lemma inv_stored s ts i f n :
  inv (mkState s ts) -> ts !! i = Some (f, Store n) ->
  inv (mkState (mkShared s.(cnt) (<[n := Some f]> s.(slts))) (<[i := (f, Done)]> ts)).
Proof.
  intros [Hl Hc Hcas Hst Hu Hp Hfr Hd Hfu] Hi. cbn in *. destruct (Hst _ _ _ Hi) as [Hlt Hnone].
  split; cbn; try done.
  - by rewrite length_insert.
  - intros j g m Hj. destruct (moved _ _ _ _ _ _ _ _ Hi Hj) as [(_ & _ & ?)|[_ ?]]; [done|eauto].
  - intros j g m Hj. destruct (moved _ _ _ _ _ _ _ _ Hi Hj) as [(_ & _ & ?)|[Hne Hj']]; [done|].
    destruct (Hst _ _ _ Hj') as [? ?]. split; [done|]. rewrite list_lookup_insert_ne; [done|].
    intros <-. apply Hne. eauto.
  - intros j k g h m Hj Hk.
    destruct (moved _ _ _ _ _ _ _ _ Hi Hj) as [(_ & _ & ?)|[_ ?]]; [done|].
    destruct (moved _ _ _ _ _ _ _ _ Hi Hk) as [(_ & _ & ?)|[_ ?]]; [done|eauto].
  - intros m Hm Hs. destruct (decide (m = n)) as [->|Hne].
    { rewrite list_lookup_insert_eq in Hs; [done|]. by eapply lookup_lt_Some. }
    rewrite list_lookup_insert_ne in Hs by done. destruct (Hp m Hm Hs) as (j & g & Hj).
    exists j, g. eapply stays; [done| |done]. intros ->. congruence.
  - intros m o Hm Ho. rewrite list_lookup_insert_ne in Ho by lia. eauto.
  - rewrite omap_store by done. rewrite done_insert by done. by rewrite decide_True, Hd.
  - intros j g Hj. destruct (moved _ _ _ _ _ _ _ _ Hi Hj) as [(_ & _ & ?)|[_ ?]]; [done|eauto].
Qed.

Lemma append_step_inv x y : step x y -> inv x -> inv y.
Proof.
  intros [s ts i f p p' s' Hi Ha] Hinv. pose proof (i_cnt _ Hinv) as Hc. cbn in Hc.
  assert (<[i := (f, p)]> ts = ts) as Hid by (by apply list_insert_id).
  destruct p; cbn in Ha; try case_decide; simplify_eq; try (by rewrite Hid);
    first [ by apply inv_stored
          | by apply inv_reserved
          | eapply inv_local; try done; intros; simplify_eq; lia ].
Qed.

(** Concurrent appends lose nothing: however the appenders' atomic
    actions interleave, once all of them have returned, [count] of the slots
    are filled, without gaps, by exactly the frames of the appenders that were
    not refused, each once; and one is refused only when the group holds
    [MaxFramesPerGroup] frames. *)
Theorem concurrent_appends_lossless fs x :
  rtc step (start fs) x ->
  (forall i f p, x.(thr) !! i = Some (f, p) -> p = Done \/ p = Full) ->
  omap id (take x.(sh).(cnt) x.(sh).(slts)) ≡ₚ done_frames x.(thr) /\
  length (done_frames x.(thr)) = x.(sh).(cnt) /\
  (forall i f, x.(thr) !! i = Some (f, Full) -> x.(sh).(cnt) = MaxFramesPerGroup).
Proof.
  intros Hr Hq. assert (inv x) as [Hl Hc _ _ _ Hp Hfr Hd Hfu].
  { assert (inv (start fs)) as Hi by apply inv_start. induction Hr; eauto using append_step_inv. }
  destruct x as [[n sl] ts]. cbn in *.
  assert (forall i, i < n -> exists f, sl !! i = Some (Some f)) as Hall.
  { intros i Hi. destruct (lookup_lt_is_Some_2 sl i) as [[f|] Ho]; [lia|by exists f|].
    destruct (Hp i Hi Ho) as (j & g & Hj). destruct (Hq _ _ _ Hj); done. }
  assert (omap id (drop n sl) = []) as Hdrop.
  { apply elem_of_nil_inv. intros f (o & (i & Hi)%list_elem_of_lookup & Ho)%list_elem_of_omap.
    rewrite lookup_drop in Hi. rewrite (Hfr (n + i) o) in Ho; [done|lia|done]. }
  assert (length (omap id (take n sl)) = n) as Hlen.
  { assert (n <= length sl) as Hn by lia. clear -Hall Hn. revert sl Hall Hn.
    induction n as [|n IH]; intros [|o sl] Hall Hn; cbn in *; [done..|lia|].
    destruct (Hall 0) as [f [= ->]]; [lia|]. cbn. f_equal. apply IH; [|lia].
    intros i Hi. apply (Hall (S i)). lia. }
  assert (omap id (take n sl) ≡ₚ done_frames ts) as Hperm.
  { rewrite <- Hd. rewrite <- (take_drop n sl) at 2. by rewrite omap_app, Hdrop, app_nil_r. }
  split; [done|]. split; [by rewrite <- Hperm|done].
Qed.

(** Two appenders racing for the first slot: the second loses the CAS, and
    stores first. *)
Fixpoint run (sched : list nat) (x : state) : state :=
  match sched with
  | [] => x
  | i :: sched' =>
      match x.(thr) !! i with
      | Some (f, p) => let '(p', s') := act f p x.(sh) in
                       run sched' (mkState s' (<[i := (f, p')]> x.(thr)))
      | None => run sched' x
      end
  end.

Lemma run_steps sched x : rtc step x (run sched x).
Proof.
  revert x. induction sched as [|i sched IH]; intros [s ts]; cbn; [apply rtc_refl|].
  destruct (ts !! i) as [[f p]|] eqn:Hi; [|apply IH]. destruct (act f p s) as [p' s'] eqn:Ha.
  eapply rtc_l; [by apply step_act with (p := p)|apply IH].
Qed.

Definition race : list nat := [0; 0; 1; 1; 0; 1; 1; 1; 1; 0].

Lemma concurrent_appends_lossless_witness :
  omap id (take 2 (run race (start [10; 20])).(sh).(slts)) ≡ₚ [10; 20] /\
  length [10; 20] = (run race (start [10; 20])).(sh).(cnt).
Proof.
  destruct (concurrent_appends_lossless [10; 20] (run race (start [10; 20]))) as (Hp & Hl & _).
  - apply run_steps.
  - intros [|[|i]] f p; vm_compute; intros [= <- <-]; by left.
  - split; [exact Hp|exact Hl].
Defined.
End Appenders.

(** ** A reader of a group that is still filling *)
Module Reader.

(** [frames]: about to call [next], about to call [isComplete] after [next]
    answered nil, in [wait], or returned: [Ended] because the group was
    complete, [Stopped] because [wait] said so. *)
Inductive pc := Next (i : nat) | Complete (i : nat) | Wait (i : nat) | Ended | Stopped.

(** [todo] is what the filler still has to append, [got] what the reader
    yielded. *)
Record state := mkState { gc : groupCache; todo : list fid; at_ : pc; got : list fid }.

Inductive step : state -> state -> Prop :=
| fill_append g f fs p l :
    g.(count) < MaxFramesPerGroup ->
    step (mkState g (f :: fs) p l) (mkState (store_slot g f) fs p l)
| fill_complete g p l :
    step (mkState g [] p l) (mkState (markComplete g) [] p l)
| read_frame g fs i f l :
    next g (Z.of_nat i) = Some f -> step (mkState g fs (Next i) l) (mkState g fs (Next (S i)) (l ++ [f]))
| read_nil g fs i l :
    next g (Z.of_nat i) = None -> step (mkState g fs (Next i) l) (mkState g fs (Complete i) l)
| read_complete g fs i l :
    isComplete g = true -> step (mkState g fs (Complete i) l) (mkState g fs Ended l)
| read_incomplete g fs i l :
    isComplete g = false -> step (mkState g fs (Complete i) l) (mkState g fs (Wait i) l)
| wait_true g fs i l : step (mkState g fs (Wait i) l) (mkState g fs (Next i) l)
| wait_false g fs i l : step (mkState g fs (Wait i) l) (mkState g fs Stopped l).

Definition start (g : groupCache) (fs : list fid) : state := mkState g fs (Next 0) [].

(** [stored g] is the frames stored so far, in order. *)
#[local] Arguments stored : simpl never.

Lemma next_stored g i : slots_ok g -> next g (Z.of_nat i) = stored g !! i.
Proof.
  intros (Hl & Hc & Hs & Hz). unfold next, stored.
  destruct (Z.ltb_spec (Z.of_nat i) 0); [lia|]. cbn [orb]. rewrite Nat2Z.id.
  assert (forall l n, (forall j, j < n -> exists f, l !! j = Some (Some f)) -> n <= length l ->
    forall j, omap id (take n l) !! j = if decide (j < n) then (l !! j : option (option fid)) ≫= id else None) as Hom.
  { clear. intros l n. revert l. induction n as [|n IH]; intros l Hall Hn j; [by rewrite decide_False by lia|].
    destruct l as [|o l]; cbn in Hn; [lia|]. destruct (Hall 0) as [f [= ->]]; [lia|]. cbn.
    destruct j as [|j]; cbn; [done|]. rewrite IH; [by destruct (decide (j < n)), (decide (S j < S n)); try lia| |lia].
    intros k Hk. apply (Hall (S k)). lia. }
  rewrite Hom by (done || lia). destruct (Z.leb_spec (Z.of_nat (length (slots g))) (Z.of_nat i)).
  { by rewrite decide_False by lia. }
  case_decide as Hi; [by destruct (Hs i Hi) as [f ->]|].
  destruct (slots g !! i) as [o|] eqn:Ho; [|done]. apply (Hz i o); [lia|done].
Qed.

Lemma stored_store_slot g f :
  slots_ok g -> g.(count) < MaxFramesPerGroup -> stored (store_slot g f) = stored g ++ [f].
Proof.
  intros (Hl & _ & _ & _) Hc. unfold stored. cbn.
  rewrite (take_S_r _ _ (Some f)) by (apply list_lookup_insert_eq; lia).
  rewrite take_insert_ge by lia. by rewrite omap_app.
Qed.

(** What holds throughout: the reader has yielded the first frames stored. *)
Record inv (x : state) : Prop := {
  r_slots : slots_ok x.(gc);
  r_prefix : x.(got) `prefix_of` stored x.(gc);
  r_pos : forall i, x.(at_) = Next i \/ x.(at_) = Complete i \/ x.(at_) = Wait i -> length x.(got) = i
}.

Lemma reader_step_inv x y : step x y -> inv x -> inv y.
Proof.
  intros Hs [Hok Hp Hi]. destruct Hs; cbn in *; try (split; cbn; [done|done|]; intros j Hj;
    apply Hi; naive_solver).
  - split; cbn; [by apply store_slot_ok| |done]. rewrite stored_store_slot by done. by apply prefix_app_r.
  - rewrite next_stored in H by done. pose proof (Hi i (or_introl eq_refl)) as Hlen.
    split; cbn; [done| |].
    + destruct Hp as [t Ht]. rewrite Ht in H |- *. rewrite <- Hlen, lookup_app_r, Nat.sub_diag in H by lia.
      destruct t as [|f' t]; [done|]. cbn in H. simplify_eq. exists t. by rewrite <- app_assoc.
    + intros j Hj. rewrite length_app. cbn. naive_solver lia.
Qed.

(** Whatever the interleaving with the filler, a reader yields the
    group's frames in order, without a gap, a duplicate or a frame of another
    group: what it has yielded is a prefix of the frames appended, in every
    reachable state. *)
Theorem reader_yields_prefix g fs x :
  slots_ok g -> rtc step (start g fs) x -> x.(got) `prefix_of` stored x.(gc).
Proof.
  intros Hg Hr. assert (inv (start g fs)) as Hi.
  { split; [done|apply prefix_nil|]. intros i [[= <-]|[?|?]]; done. }
  assert (inv x) as []; [|done]. induction Hr; eauto using reader_step_inv.
Qed.

(** Once a group is complete it does not change, and a reader that sees nil
    has yielded everything. *)
Definition settled (x : state) : Prop :=
  x.(todo) = [] /\ x.(gc).(complete) = true /\
  (forall i, x.(at_) = Complete i \/ x.(at_) = Wait i -> x.(got) = stored x.(gc)) /\
  (x.(at_) = Ended -> x.(got) = stored x.(gc)).

Lemma step_settled x y : step x y -> inv x -> settled x -> settled y.
Proof.
  intros Hs [Hok Hp Hi] (Ht & Hc & Hr & He). destruct Hs; cbn in *; simplify_eq.
  - by repeat split.
  - repeat split; cbn; [done|naive_solver|done].
  - repeat split; cbn; [done| |done]. intros j _. destruct Hp as [t Heq].
    rewrite next_stored in H by done. rewrite <- (Hi i) in H by auto.
    rewrite Heq, lookup_app_r, Nat.sub_diag in H by lia. destruct t; [|done]. by rewrite Heq, app_nil_r.
  - repeat split; cbn; [done|naive_solver|]. intros _. by apply (Hr i); left.
  - unfold isComplete in *. congruence.
  - repeat split; cbn; [done|naive_solver|done].
  - repeat split; cbn; [done|naive_solver|done].
Qed.

(** A group that is complete when the reader starts is delivered whole:
    a reader that returns because the group is complete has yielded every
    frame of it. *)
Theorem reader_complete_group g x :
  slots_ok g -> g.(complete) = true -> rtc step (start g []) x -> x.(at_) = Ended ->
  x.(got) = stored x.(gc).
Proof.
  intros Hg Hc Hr He. assert (inv (start g [])) as Hi.
  { split; [done|apply prefix_nil|]. intros i [[= <-]|[?|?]]; done. }
  assert (settled (start g [])) as Hs by (repeat split; cbn; try done; naive_solver).
  assert (settled x) as (_ & _ & _ & Hend); [|auto].
  clear Hg Hc He. induction Hr as [|x0 x1 x Hst _ IH]; [done|].
  apply IH; [by eapply reader_step_inv|by eapply step_settled].
Qed.

Definition empty_group : groupCache := newGroupCache 5.
Definition one_frame : groupCache := markComplete (store_slot empty_group 3).

(** Reading a group of one frame while it fills. *)
Lemma one_frame_trace :
  rtc step (start empty_group [3]) (mkState (store_slot empty_group 3) [] (Next 1) [3]).
Proof.
  eapply rtc_l; [apply fill_append; unfold MaxFramesPerGroup; cbn; lia|].
  eapply rtc_l; [by apply read_frame|apply rtc_refl].
Qed.

Lemma reader_yields_prefix_witness : [3] `prefix_of` stored (store_slot empty_group 3).
Proof.
  apply (reader_yields_prefix empty_group [3]
           (mkState (store_slot empty_group 3) [] (Next 1) [3])).
  - apply newGroupCache_ok.
  - apply one_frame_trace.
Defined.

(** A group completed while it is read can lose its end: [frames] can return with the end of a group unread. The reader finds no
    frame, the filler then appends the last frame and completes the group, and
    the reader, seeing the group complete, returns without looking again. *)
Theorem reader_can_miss_tail :
  exists x, rtc step (start empty_group [3]) x /\ x.(at_) = Ended /\ x.(todo) = [] /\
    x.(gc).(complete) = true /\ x.(got) = [] /\ stored x.(gc) = [3].
Proof.
  exists (mkState one_frame [] Ended []). split; [|done].
  eapply rtc_l; [by apply read_nil|].
  eapply rtc_l; [apply fill_append; unfold MaxFramesPerGroup; cbn; lia|].
  eapply rtc_l; [apply fill_complete|]. eapply rtc_l; [by apply read_complete|apply rtc_refl].
Qed.
End Reader.

(** ** Releasing an evicted cache *)
Module Release.

(** A goroutine inside [decrRef] or [markEvictedLocked]: its reference count
    fell to zero and it is about to load [evicted]; it set [evicted] and is
    about to load [refCount]; it is about to CAS [released]; or it won the CAS
    and is about to clear the cache and put it in the pool. *)
Inductive pc := LoadEvicted (c : cid) | LoadRefs (c : cid) | CasReleased (c : cid) | Body (c : cid) | Idle.

(** The ring, the references held, the ingest goroutine (the only one in
    [reserve], holding the lock from the swap on) and one other goroutine. *)
Record state := mkState { rg : ring; hd : list cid; ingest : pc; other : pc }.

(** The atomic actions of [releaseCache], shared by both callers. *)
Definition advance (p : pc) (r : ring) : pc * ring :=
  match p with
  | Idle => (Idle, r)
  | LoadEvicted c =>
      match r.(heap) !! c with
      | Some gc => (if gc.(evicted) then CasReleased c else Idle, r)
      | None => (Idle, r)
      end
  | LoadRefs c =>
      match r.(heap) !! c with
      | Some gc => (if (gc.(refCount) =? 0)%Z then CasReleased c else Idle, r)
      | None => (Idle, r)
      end
  | CasReleased c =>
      match r.(heap) !! c with
      | Some gc =>
          if gc.(released) then (Idle, r)
          else (Body c, put_cache r c (mkCache gc.(slots) gc.(count) gc.(seq) gc.(pos) gc.(complete)
                                         gc.(refCount) gc.(evicted) true gc.(highestSeq)))
      | None => (Idle, r)
      end
  | Body c =>
      match r.(heap) !! c with
      | Some gc => (Idle, set_gcPool (put_cache (foldr pool_Put r (stored gc)) c (released_cache gc))
                                     ({[c]} ∪ r.(gcPool)))
      | None => (Idle, r)
      end
  end.

(** [reserve] up to the point where the evicted cache is marked. *)
Definition reserve_swap (s : Z) (choice : option cid) (r : ring) : cid * pc * ring :=
  let '(c, r1) := gcPool_Get choice r in
  match r1.(heap) !! c with
  | None => (c, Idle, r1)
  | Some gc0 =>
      let highest := if (r1.(maxSeq) <? s)%Z then s else r1.(maxSeq) in
      let p := wrapu 64 (r1.(rpos) + 1) in
      let gc2 := mkCache (clear_slots gc0.(count) gc0.(slots)) 0 s p false 1 false false highest in
      let idx := Z.to_nat (p mod Z.of_nat r1.(size)) in
      let r2 := mkRing (<[c := gc2]> r1.(heap)) (<[idx := Some c]> r1.(caches)) r1.(size) p highest
                       r1.(gcPool) r1.(frames) r1.(framePool) in
      match r1.(caches) !! idx with
      | Some (Some o) =>
          match r2.(heap) !! o with
          | Some go => (c, LoadRefs o, put_cache r2 o (evict go))
          | None => (c, Idle, r2)
          end
      | _ => (c, Idle, r2)
      end
  end.

Inductive action := Reserve (s : Z) (choice : option cid) | Decr (c : cid) | Ingest | Other.

(** One action; [None] when it is not enabled. *)
Definition act (a : action) (x : state) : option state :=
  match a with
  | Reserve s ch =>
      match x.(ingest) with
      | Idle => let '(c, p, r) := reserve_swap s ch x.(rg) in Some (mkState r (c :: x.(hd)) p x.(other))
      | _ => None
      end
  | Decr c =>
      match x.(other), x.(rg).(heap) !! c with
      | Idle, Some gc =>
          if decide (c ∈ x.(hd)) then
            let gc' := add_ref (-1) gc in
            Some (mkState (put_cache x.(rg) c gc') (list_difference x.(hd) [c]) x.(ingest)
                          (if (gc'.(refCount) =? 0)%Z then LoadEvicted c else Idle))
          else None
      | _, _ => None
      end
  | Ingest => let '(p, r) := advance x.(ingest) x.(rg) in Some (mkState r x.(hd) p x.(other))
  | Other => let '(p, r) := advance x.(other) x.(rg) in Some (mkState r x.(hd) x.(ingest) p)
  end.

Fixpoint run (l : list action) (x : state) : option state :=
  match l with
  | [] => Some x
  | a :: l' => x' ← act a x; run l' x'
  end.

Definition start : state := mkState (newGroupRing 1) [] Idle Idle.

(** The first group's filler drops its reference and stops just before its
    CAS; meanwhile ingest evicts and releases that cache, and reserves it
    again for the third group. *)
Definition aba : list action :=
  [Reserve 1 None; Decr 0; Reserve 2 None; Other; Ingest; Ingest; Ingest;
   Reserve 3 (Some 0); Ingest; Other; Other].

(** The compare-and-swap on [released] does not stop a cache from being
    released twice: a goroutine that loaded [evicted] before the cache was
    released and reserved again releases its next generation. In the state
    reached, one cache is the ring's current group and has its filler's
    reference, and is at the same time marked released and back in the pool. *)
Theorem release_races_reuse :
  exists x c gc, run aba start = Some x /\ x.(rg).(caches) = [Some c] /\
    x.(rg).(heap) !! c = Some gc /\ gc.(seq) = 3%Z /\ gc.(refCount) = 1%Z /\ gc.(evicted) = false /\
    gc.(released) = true /\ c ∈ x.(hd) /\ c ∈ x.(rg).(gcPool).
Proof.
  let y := eval vm_compute in (run aba start) in
  match y with Some ?x =>
    let g := eval vm_compute in (default (newGroupCache 0) (x.(rg).(heap) !! 0%nat)) in
    exists x, 0%nat, g
  end.
  repeat split; try (vm_compute; reflexivity); apply (bool_decide_eq_true_1 _); vm_compute; reflexivity.
Qed.
End Release.
