(* ===== verification/RootHolds.v ===== *)
(** * internal/relay/admit.go: the credentials a session holds for each root

    [rootHolds] orders the tickets of a session. Its methods run under one
    mutex, so each is a function on the state; what a method does to another
    credential is to cancel that credential's context with [errSuperseded],
    which the model records in [withdrawn]. Withdrawals are compared by address
    in the source, so each has an identity [ptr]. *)
From S2P Require Import Prelude TokenGrant.

#[local] Open Scope Z_scope.

(** ** Data *)

Inductive rootRole := roleFunnel | roleRelay | roleNothing.

#[export] Instance rootRole_eq_dec : EqDecision rootRole.
Proof. solve_decision. Defined.

(** The [withdraw] function of a [withdrawal] is its identity in
    [withdrawn]. *)
Record withdrawal := mkWithdrawal {
  ptr : nat;
  w_seq : Z;
  w_root : string;
  w_role : rootRole;
  retires : bool
}.

#[export] Instance withdrawal_eq_dec : EqDecision withdrawal.
Proof. solve_decision. Defined.

Record rootState := mkRootState {
  ticket : option withdrawal;
  funnel : gmap nat withdrawal;
  cleared : Z
}.

(** [next] is the first unused address and [withdrawn] the contexts cancelled
    with [errSuperseded]. *)
Record rootHolds := mkRootHolds {
  connRoot : string;
  r_seq : Z;
  byRoot : gmap string rootState;
  conns : gset nat;
  retiring : Z;
  connRetired : bool;
  next : nat;
  withdrawn : gset nat
}.

Definition newRootHolds (root : string) : rootHolds :=
  mkRootHolds root 0 ∅ ∅ 0 false 0 ∅.

(** ** Operations *)

Definition nonempty {A} (l : list A) : bool := bool_decide (l <> []).

Definition roleOf (tg : Grant) : rootRole :=
  if nonempty tg.(Publish) || nonempty tg.(Subscribe) then roleRelay
  else if nonempty tg.(Create) || nonempty tg.(Post) || nonempty tg.(Redact) then roleFunnel
  else roleNothing.

Definition rootState_empty (st : rootState) : bool :=
  bool_decide (st.(ticket) = None) && bool_decide (st.(funnel) = ∅).

Definition retires_for (r : rootHolds) (root : string) (role : rootRole) : bool :=
  negb (bool_decide (root = "")) && negb (bool_decide (role = roleFunnel)) &&
  bool_decide (root = r.(connRoot)).

Definition beginTicket (root : string) (role : rootRole) (r : rootHolds) : withdrawal * rootHolds :=
  let s := wrapu 64 (r.(r_seq) + 1) in
  let h := mkWithdrawal r.(next) s root role (retires_for r root role) in
  (h, mkRootHolds r.(connRoot) s r.(byRoot) r.(conns)
        (if h.(retires) then r.(retiring) + 1 else r.(retiring))
        r.(connRetired) (S r.(next)) r.(withdrawn)).

Definition abandonTicket (h : withdrawal) (r : rootHolds) : rootHolds :=
  if h.(retires) then
    mkRootHolds r.(connRoot) r.(r_seq) r.(byRoot) r.(conns) (r.(retiring) - 1)
      r.(connRetired) r.(next) r.(withdrawn)
  else r.

Definition replaces (st : rootState) (h : withdrawal) : bool :=
  (h.(w_seq) <? st.(cleared)) ||
  (negb (bool_decide (h.(w_role) = roleFunnel)) &&
   match st.(ticket) with Some t => h.(w_seq) <? t.(w_seq) | None => false end).

Definition replaced (h : withdrawal) (r : rootHolds) : bool :=
  negb (bool_decide (h.(w_root) = "")) &&
  match r.(byRoot) !! h.(w_root) with Some st => replaces st h | None => false end.

(** Retiring the connection's own credential: every presentation of it is
    withdrawn. *)
Definition retire_conns (h : withdrawal) (r : rootHolds) : rootHolds :=
  if h.(retires) then
    mkRootHolds r.(connRoot) r.(r_seq) r.(byRoot) ∅ (r.(retiring) - 1) true
      r.(next) (r.(conns) ∪ r.(withdrawn))
  else r.

Definition set_root (root : string) (o : option rootState) (w : gset nat) (r : rootHolds) : rootHolds :=
  mkRootHolds r.(connRoot) r.(r_seq) (partial_alter (fun _ => o) root r.(byRoot)) r.(conns)
    r.(retiring) r.(connRetired) r.(next) (w ∪ r.(withdrawn)).

(** The state with [h] in force, and what it withdraws. *)
Definition install (h : withdrawal) (st : rootState) : rootState * gset nat :=
  match h.(w_role) with
  | roleFunnel => (mkRootState st.(ticket) (<[h.(ptr) := h]> st.(funnel)) st.(cleared), ∅)
  | role =>
      let old : gset nat := match st.(ticket) with Some t => {[t.(ptr)]} | None => ∅ end in
      if bool_decide (role = roleNothing) then
        let older := filter (fun kv => kv.2.(w_seq) < h.(w_seq)) st.(funnel) in
        let newer := filter (fun kv => ¬ kv.2.(w_seq) < h.(w_seq)) st.(funnel) in
        (mkRootState (Some h) newer (st.(cleared) `max` h.(w_seq)), old ∪ dom older)
      else (mkRootState (Some h) st.(funnel) st.(cleared), old)
  end.

(** [registerTicket]; the flag is its [current]. *)
Definition registerTicket (h : withdrawal) (r : rootHolds) : bool * rootHolds :=
  if bool_decide (h.(w_root) = "") then (true, r) else
  let r1 := retire_conns h r in
  let st := default (mkRootState None ∅ 0) (r1.(byRoot) !! h.(w_root)) in
  if replaces st h then
    (false, set_root h.(w_root) (if rootState_empty st then None else Some st) {[h.(ptr)]} r1)
  else
    let '(st', w) := install h st in (true, set_root h.(w_root) (Some st') w r1).

(** The [release] closure of [registerTicket]. *)
Definition releaseTicket (h : withdrawal) (r : rootHolds) : rootHolds :=
  if bool_decide (h.(w_root) = "") then r else
  match r.(byRoot) !! h.(w_root) with
  | None => r
  | Some cur =>
      let st := mkRootState (if bool_decide (ptr <$> cur.(ticket) = Some h.(ptr)) then None else cur.(ticket))
                  (delete h.(ptr) cur.(funnel)) cur.(cleared) in
      set_root h.(w_root) (if rootState_empty st then None else Some st) ∅ r
  end.

(** [registerConnection]: the identity of the presentation when it is
    accepted. *)
Definition registerConnection (r : rootHolds) : option nat * rootHolds :=
  if r.(connRetired) || (0 <? r.(retiring)) then (None, r)
  else (Some r.(next), mkRootHolds r.(connRoot) r.(r_seq) r.(byRoot) ({[r.(next)]} ∪ r.(conns))
                         r.(retiring) r.(connRetired) (S r.(next)) r.(withdrawn)).

(** Its [release] closure. *)
Definition releaseConnection (p : nat) (r : rootHolds) : rootHolds :=
  mkRootHolds r.(connRoot) r.(r_seq) r.(byRoot) (r.(conns) ∖ {[p]}) r.(retiring) r.(connRetired)
    r.(next) r.(withdrawn).

(** ** The handlers of a session, interleaved *)

(** [pend] are the tickets whose grants are being applied, [held] those
    registered as current and not yet released, [cheld] the presentations of
    the connection's own credential not yet released. *)
Record holds := mkHolds {
  rh : rootHolds;
  pend : gmap nat withdrawal;
  held : gmap nat withdrawal;
  cheld : gset nat
}.

(** A handler begins at most 2^64 - 1 tickets on a session: [seq] does not
    wrap. *)
Inductive hold_step : holds -> holds -> Prop :=
| hs_begin x root role h r :
    x.(rh).(r_seq) + 1 < 2 ^ 64 ->
    beginTicket root role x.(rh) = (h, r) ->
    hold_step x (mkHolds r (<[h.(ptr) := h]> x.(pend)) x.(held) x.(cheld))
| hs_abandon x h :
    x.(pend) !! h.(ptr) = Some h ->
    hold_step x (mkHolds (abandonTicket h x.(rh)) (delete h.(ptr) x.(pend)) x.(held) x.(cheld))
| hs_register x h b r :
    x.(pend) !! h.(ptr) = Some h ->
    registerTicket h x.(rh) = (b, r) ->
    hold_step x (mkHolds r (delete h.(ptr) x.(pend))
                   (if b then <[h.(ptr) := h]> x.(held) else x.(held)) x.(cheld))
| hs_release x h :
    x.(held) !! h.(ptr) = Some h ->
    hold_step x (mkHolds (releaseTicket h x.(rh)) x.(pend) (delete h.(ptr) x.(held)) x.(cheld))
| hs_present x p r :
    registerConnection x.(rh) = (Some p, r) ->
    hold_step x (mkHolds r x.(pend) x.(held) ({[p]} ∪ x.(cheld)))
| hs_unpresent x p :
    p ∈ x.(cheld) ->
    hold_step x (mkHolds (releaseConnection p x.(rh)) x.(pend) x.(held) (x.(cheld) ∖ {[p]})).

Definition hold_start (root : string) : holds := mkHolds (newRootHolds root) ∅ ∅ ∅.

(** [h] is registered, not released and not withdrawn. *)
Definition in_force (x : holds) (h : withdrawal) : Prop :=
  x.(held) !! h.(ptr) = Some h /\ h.(ptr) ∉ x.(rh).(withdrawn).

(** ** Invariant *)

Definition retiring_set (m : gmap nat withdrawal) : gmap nat withdrawal :=
  filter (fun kv => kv.2.(retires) = true) m.

(** What [byRoot] says of a root is true of the tickets in force. *)
Record root_ok (x : holds) (root : string) (st : rootState) : Prop := {
  ro_root : root <> "";
  ro_cleared : 0 <= st.(cleared) <= x.(rh).(r_seq);
  ro_ticket h : st.(ticket) = Some h ->
    in_force x h /\ h.(w_root) = root /\ h.(w_role) <> roleFunnel /\ st.(cleared) <= h.(w_seq) /\
    (h.(w_role) = roleNothing -> st.(cleared) = h.(w_seq));
  ro_funnel p f : st.(funnel) !! p = Some f ->
    p = f.(ptr) /\ in_force x f /\ f.(w_root) = root /\ f.(w_role) = roleFunnel /\
    st.(cleared) <= f.(w_seq);
  ro_retired : root = x.(rh).(connRoot) ->
    st.(ticket) <> None \/ 0 < st.(cleared) -> x.(rh).(connRetired) = true
}.

(** What is known of a begun ticket. *)
Record begun_ok (x : holds) (p : nat) (h : withdrawal) : Prop := {
  bo_ptr : h.(ptr) = p;
  bo_next : (p < x.(rh).(next))%nat;
  bo_seq : 1 <= h.(w_seq) <= x.(rh).(r_seq);
  bo_retires : h.(retires) = retires_for x.(rh) h.(w_root) h.(w_role);
  bo_conn : p ∉ x.(cheld)
}.

Definition known (x : holds) (p : nat) (h : withdrawal) : Prop :=
  x.(pend) !! p = Some h \/ x.(held) !! p = Some h.

Record holds_inv (x : holds) : Prop := {
  hi_seq : 0 <= x.(rh).(r_seq) < 2 ^ 64;
  hi_pend p h : x.(pend) !! p = Some h -> begun_ok x p h /\ p ∉ x.(rh).(withdrawn);
  hi_held p h : x.(held) !! p = Some h -> begun_ok x p h;
  hi_disj : x.(pend) ##ₘ x.(held);
  hi_inj p q h k : known x p h -> known x q k -> h.(w_seq) = k.(w_seq) -> p = q;
  hi_root root st : x.(rh).(byRoot) !! root = Some st -> root_ok x root st;
  hi_live h : in_force x h -> h.(w_root) <> "" ->
    exists st, x.(rh).(byRoot) !! h.(w_root) = Some st /\
      if decide (h.(w_role) = roleFunnel) then st.(funnel) !! h.(ptr) = Some h
      else st.(ticket) = Some h;
  hi_retiring : x.(rh).(retiring) = Z.of_nat (size (retiring_set x.(pend)));
  hi_conns p : p ∈ x.(rh).(conns) <-> p ∈ x.(cheld) /\ p ∉ x.(rh).(withdrawn);
  hi_retired : x.(rh).(connRetired) = true -> x.(rh).(conns) = ∅;
  hi_cheld p : p ∈ x.(cheld) -> (p < x.(rh).(next))%nat;
  hi_withdrawn p : p ∈ x.(rh).(withdrawn) -> (p < x.(rh).(next))%nat
}.

Lemma holds_start_inv root : holds_inv (hold_start root).
Proof.
  split; cbn; try (intros; set_solver); try done; try lia; try (intros h [Hh _]; cbn in Hh);
    intros; simplify_map_eq; try done.
  match goal with H : known _ _ _ |- _ => by destruct H as [H|H] end.
Qed.

Lemma retiring_insert m p h :
  m !! p = None ->
  Z.of_nat (size (retiring_set (<[p := h]> m))) =
  (if h.(retires) then 1 else 0) + Z.of_nat (size (retiring_set m)).
Proof.
  intros Hp. unfold retiring_set. destruct (retires h) eqn:Hr.
  - rewrite map_filter_insert_True by done. rewrite map_size_insert_None; [lia|].
    apply map_lookup_filter_None. by left.
  - rewrite map_filter_insert_False by (cbn; congruence). rewrite delete_id by done. lia.
Qed.

Lemma retiring_delete m p h :
  m !! p = Some h ->
  Z.of_nat (size (retiring_set (delete p m))) =
  Z.of_nat (size (retiring_set m)) - (if h.(retires) then 1 else 0).
Proof.
  intros Hp. assert (m = <[p := h]> (delete p m)) as Hm by (by rewrite insert_delete_eq, insert_id).
  rewrite Hm at 2. rewrite retiring_insert by (by rewrite lookup_delete_eq). lia.
Qed.

(** Facts about a root survive a change that keeps its tickets in force. *)
Lemma root_ok_mono x y root st :
  root_ok x root st ->
  x.(rh).(r_seq) <= y.(rh).(r_seq) ->
  y.(rh).(connRoot) = x.(rh).(connRoot) ->
  (x.(rh).(connRetired) = true -> y.(rh).(connRetired) = true) ->
  (forall h, h.(w_root) = root -> in_force x h -> in_force y h) ->
  root_ok y root st.
Proof.
  intros [] Hs Hc Hr Hf. split; try done; try lia.
  - intros h Hh. destruct (ro_ticket0 h Hh) as (?&?&?&?&?). split_and!; auto.
  - intros p f Hp. destruct (ro_funnel0 p f Hp) as (?&?&?&?&?). split_and!; auto.
  - rewrite Hc. auto.
Qed.

Lemma begun_ok_mono x y p h :
  begun_ok x p h -> x.(rh).(r_seq) <= y.(rh).(r_seq) -> (x.(rh).(next) <= y.(rh).(next))%nat ->
  y.(rh).(connRoot) = x.(rh).(connRoot) -> (p ∉ x.(cheld) -> p ∉ y.(cheld)) -> begun_ok y p h.
Proof.
  intros [] Hs Hn Hc Hh. split; try done; try lia; auto.
  unfold retires_for in *. by rewrite Hc.
Qed.

Lemma begin_inv x root role h r :
  holds_inv x -> x.(rh).(r_seq) + 1 < 2 ^ 64 -> beginTicket root role x.(rh) = (h, r) ->
  holds_inv (mkHolds r (<[h.(ptr) := h]> x.(pend)) x.(held) x.(cheld)).
Proof.
  intros Hi Hb Hx. unfold beginTicket in Hx. destruct Hi.
  rewrite wrapu_id in Hx by (unfold in_u; lia). injection Hx as <- <-. cbn.
  set (nx := next (rh x)) in *.
  assert (x.(pend) !! nx = None) as Hp.
  { apply eq_None_not_Some. intros [k Hk]. destruct (hi_pend0 _ _ Hk) as [[] _]. lia. }
  assert (x.(held) !! nx = None) as Hq.
  { apply eq_None_not_Some. intros [k Hk]. destruct (hi_held0 _ _ Hk). lia. }
  split; cbn; auto.
  - lia.
  - intros p k [[<- <-]|[Hn Hk]]%lookup_insert_Some.
    + split; [|intros ?%hi_withdrawn0; lia]. split; cbn; try done; try lia.
      intros ?%hi_cheld0. lia.
    + destruct (hi_pend0 _ _ Hk). split; [|done]. eapply begun_ok_mono; cbn; eauto; lia.
  - intros p k Hk. eapply begun_ok_mono; cbn; eauto; lia.
  - by apply map_disjoint_insert_l_2.
  - assert (forall p k, known x p k -> k.(w_seq) <= r_seq (rh x)) as Hle.
    { intros p k [Hk|Hk]; [destruct (hi_pend0 _ _ Hk) as [[] _]|destruct (hi_held0 _ _ Hk)]; lia. }
    unfold known in *. cbn. intros p q k l Hk Hl Hs. rewrite !lookup_insert_Some in Hk, Hl.
    destruct Hk as [[[<- <-]|[? Hk]]|Hk], Hl as [[[<- <-]|[? Hl]]|Hl]; cbn in *; try done;
      try (by eapply hi_inj0; eauto);
      try (specialize (Hle _ _ (or_introl Hk)); lia); try (specialize (Hle _ _ (or_intror Hk)); lia);
      try (specialize (Hle _ _ (or_introl Hl)); lia); try (specialize (Hle _ _ (or_intror Hl)); lia).
  - intros rt st Hst. eapply root_ok_mono; cbn; eauto. lia.
  - rewrite retiring_insert by done. cbn. rewrite hi_retiring0.
    destruct (retires_for (rh x) root role); lia.
  - intros p Hp'%hi_cheld0. lia.
  - intros p Hp'%hi_withdrawn0. lia.
Qed.

Lemma abandonTicket_eq h r :
  abandonTicket h r =
  mkRootHolds r.(connRoot) r.(r_seq) r.(byRoot) r.(conns)
    (if h.(retires) then r.(retiring) - 1 else r.(retiring)) r.(connRetired) r.(next) r.(withdrawn).
Proof. unfold abandonTicket. by destruct r, (retires h). Qed.

Lemma known_delete_pend x r h p k c :
  known (mkHolds r (delete h x.(pend)) x.(held) c) p k -> known x p k.
Proof. unfold known. cbn. rewrite lookup_delete_Some. naive_solver. Qed.

Lemma abandon_inv x h :
  holds_inv x -> x.(pend) !! h.(ptr) = Some h ->
  holds_inv (mkHolds (abandonTicket h x.(rh)) (delete h.(ptr) x.(pend)) x.(held) x.(cheld)).
Proof.
  intros [] Hp. rewrite abandonTicket_eq. split; cbn; auto.
  - intros p k [_ Hk]%lookup_delete_Some. destruct (hi_pend0 _ _ Hk).
    split; [|done]. by eapply begun_ok_mono.
  - intros p k Hk. by eapply begun_ok_mono; eauto.
  - by apply map_disjoint_delete_l.
  - intros p q k l Hk%known_delete_pend Hl%known_delete_pend. eauto.
  - intros root st Hst. by eapply root_ok_mono; eauto.
  - rewrite (retiring_delete _ _ _ Hp), hi_retiring0. destruct (retires h); lia.
Qed.

Lemma retire_conns_eq h r :
  retire_conns h r =
  mkRootHolds r.(connRoot) r.(r_seq) r.(byRoot) (if h.(retires) then ∅ else r.(conns))
    (if h.(retires) then r.(retiring) - 1 else r.(retiring)) (h.(retires) || r.(connRetired))
    r.(next) ((if h.(retires) then r.(conns) else ∅) ∪ r.(withdrawn)).
Proof.
  unfold retire_conns. destruct r, (retires h); cbn; [done|]. by rewrite (left_id_L ∅ (∪)).
Qed.

(** Presentations of the connection's credential and tickets have different
    identities, so retiring the former leaves the latter in force. *)
Lemma retire_in_force x h m k :
  holds_inv x ->
  in_force (mkHolds (retire_conns h x.(rh)) m x.(held) x.(cheld)) k <-> in_force x k.
Proof.
  intros []. rewrite retire_conns_eq. unfold in_force. cbn. split; [set_solver|].
  intros [Hk Hw]. split; [done|]. intros [Hc|]%elem_of_union; [|done].
  destruct (retires h); [|done]. apply hi_conns0 in Hc as [Hc _].
  by apply (bo_conn _ _ _ (hi_held0 _ _ Hk)).
Qed.

Lemma retire_inv x h :
  holds_inv x -> x.(pend) !! h.(ptr) = Some h ->
  holds_inv (mkHolds (retire_conns h x.(rh)) (delete h.(ptr) x.(pend)) x.(held) x.(cheld)).
Proof.
  intros Hi Hp. pose proof (retire_in_force x h (delete h.(ptr) x.(pend))) as Hf.
  rewrite retire_conns_eq in *. pose proof Hi as []. split; cbn; auto.
  - intros p k [_ Hk]%lookup_delete_Some. destruct (hi_pend0 _ _ Hk) as [Hb Hw].
    split; [by eapply begun_ok_mono|]. intros [Hc|]%elem_of_union; [|done].
    destruct (retires h); [|done]. apply hi_conns0 in Hc as [Hc _]. by apply (bo_conn _ _ _ Hb).
  - intros p k Hk. by eapply begun_ok_mono; eauto.
  - by apply map_disjoint_delete_l.
  - intros p q k l Hk%known_delete_pend Hl%known_delete_pend. eauto.
  - intros root st Hst. eapply root_ok_mono; eauto; cbn; try done.
    + intros ->. apply orb_true_r.
    + intros k _ Hk. by apply Hf.
  - intros k Hk%Hf; [|done]. auto.
  - rewrite (retiring_delete _ _ _ Hp), hi_retiring0. destruct (retires h); lia.
  - intros p. destruct (retires h); [|set_solver]. rewrite elem_of_union, hi_conns0.
    destruct (decide (p ∈ withdrawn (rh x))); set_solver.
  - intros ?. destruct (retires h); [done|auto].
  - intros p [Hc|]%elem_of_union; [|auto]. destruct (retires h); [|done].
    apply hi_conns0 in Hc as [Hc _]. auto.
Qed.

(** Replacing the state of one root. *)
Lemma set_root_inv y root o w hld :
  holds_inv y ->
  let z := mkHolds (set_root root o w y.(rh)) y.(pend) hld y.(cheld) in
  (forall st, o = Some st -> root_ok z root st) ->
  (forall k, in_force z k -> k.(w_root) = root -> root <> "" ->
     exists st, o = Some st /\ if decide (k.(w_role) = roleFunnel) then st.(funnel) !! k.(ptr) = Some k
                               else st.(ticket) = Some k) ->
  (forall p, p ∈ w -> (p ∉ dom y.(pend)) /\ (p ∉ y.(cheld)) /\ (p < y.(rh).(next))%nat) ->
  (forall p k, hld !! p = Some k -> begun_ok y p k /\ p ∉ dom y.(pend)) ->
  (forall p q k l, known z p k -> known z q l -> k.(w_seq) = l.(w_seq) -> p = q) ->
  (forall k, k.(w_root) <> root -> (in_force y k <-> in_force z k)) ->
  holds_inv z.
Proof.
  intros Hi z Ho Hl Hw Hh Hinj Hf. pose proof Hi as []. split; try (cbn; auto; fail).
  - intros p k Hk. destruct (hi_pend0 _ _ Hk) as [Hb ?]. split; [by eapply begun_ok_mono|].
    cbn. intros [Hq|]%elem_of_union; [|done]. destruct (Hw _ Hq) as [Hd _].
    apply Hd. by eapply elem_of_dom_2.
  - intros p k Hk. destruct (Hh _ _ Hk). by eapply begun_ok_mono.
  - apply map_disjoint_spec. intros p k l Hk Hk'. destruct (Hh _ _ Hk') as [_ Hd].
    apply Hd. by eapply elem_of_dom_2.
  - cbn. intros rt st Hst. destruct (decide (rt = root)) as [->|Hne].
    + rewrite lookup_partial_alter_eq in Hst. auto.
    + rewrite lookup_partial_alter_ne in Hst by done. eapply root_ok_mono; eauto; cbn; try done.
      intros k <- Hk. by apply Hf.
  - intros k Hk Hn. cbn. destruct (decide (k.(w_root) = root)) as [<-|Hne].
    + rewrite lookup_partial_alter_eq. auto.
    + rewrite lookup_partial_alter_ne by done. apply hi_live0; [|done]. by apply Hf.
  - cbn. intros p. rewrite hi_conns0, not_elem_of_union. split; [|naive_solver].
    intros [??]. split_and!; auto. intros Hq. by destruct (Hw _ Hq) as (_ & ? & _).
  - cbn. intros p [Hq|]%elem_of_union; [|auto]. by destruct (Hw _ Hq) as (_ & _ & ?).
Qed.

(** What [registerTicket] and its [release] know of a root that has no entry. *)
Lemma default_root_ok x root :
  holds_inv x -> root <> "" -> root_ok x root (default (mkRootState None ∅ 0) (x.(rh).(byRoot) !! root)).
Proof.
  intros [] Hr. destruct (byRoot (rh x) !! root) eqn:Hst; cbn; [auto|].
  split; cbn; try done; try lia. intros _ [?|?]; [done|lia].
Qed.

Lemma rootState_empty_true st : rootState_empty st = true -> st.(ticket) = None /\ st.(funnel) = ∅.
Proof. unfold rootState_empty. intros. by bool_prop. Qed.

(** A live ticket is in its root's state. *)
Lemma live_listed x k :
  holds_inv x -> in_force x k -> k.(w_root) <> "" ->
  let st := default (mkRootState None ∅ 0) (x.(rh).(byRoot) !! k.(w_root)) in
  x.(rh).(byRoot) !! k.(w_root) = Some st /\
  if decide (k.(w_role) = roleFunnel) then st.(funnel) !! k.(ptr) = Some k else st.(ticket) = Some k.
Proof. intros [] Hk Hr. destruct (hi_live0 k Hk Hr) as (st & -> & Hst). done. Qed.

(** A state whose tickets are all gone lists no live ticket. *)
Lemma keep_nonempty st (k : withdrawal) :
  (if decide (k.(w_role) = roleFunnel) then st.(funnel) !! k.(ptr) = Some k else st.(ticket) = Some k) ->
  exists st', (if rootState_empty st then None else Some st) = Some st' /\
    if decide (k.(w_role) = roleFunnel) then st'.(funnel) !! k.(ptr) = Some k else st'.(ticket) = Some k.
Proof.
  intros Hk. destruct (rootState_empty st) eqn:He; [|by exists st].
  apply rootState_empty_true in He as [He1 He2]. rewrite He1, He2 in Hk. by case_decide.
Qed.

Section Register.
Context (y : holds) (h : withdrawal).
Hypothesis Hy : holds_inv y.
Hypothesis Hb : begun_ok y h.(ptr) h.
Hypothesis Hp : h.(ptr) ∉ dom y.(pend).
Hypothesis Hq : y.(held) !! h.(ptr) = None.
Hypothesis Hw : h.(ptr) ∉ y.(rh).(withdrawn).
Hypothesis Hs : forall p k, known y p k -> k.(w_seq) <> h.(w_seq).
Hypothesis Hret : h.(retires) = true -> y.(rh).(connRetired) = true.

Let st := default (mkRootState None ∅ 0) (y.(rh).(byRoot) !! h.(w_root)).

Lemma register_replaced_inv :
  h.(w_root) <> "" ->
  holds_inv (mkHolds (set_root h.(w_root) (if rootState_empty st then None else Some st) {[h.(ptr)]} y.(rh))
               y.(pend) y.(held) y.(cheld)).
Proof using All.
  intros Hr. pose proof (default_root_ok _ _ Hy Hr) as Hst. fold st in Hst.
  set (o := if rootState_empty st then None else Some st).
  assert (forall k, in_force y k <->
    in_force (mkHolds (set_root h.(w_root) o {[h.(ptr)]} y.(rh)) y.(pend) y.(held) y.(cheld)) k) as Hf.
  { intros k. unfold in_force. cbn. split; [|set_solver]. intros [Hk ?]. split; [done|].
    rewrite not_elem_of_union, not_elem_of_singleton. split; [congruence|done]. }
  pose proof Hy as []. apply set_root_inv; try done.
  - subst o. destruct (rootState_empty st); [done|]. intros ? [= <-].
    eapply root_ok_mono; eauto; cbn; try done. intros k _. apply Hf.
  - intros k Hk%Hf Hkr _. apply keep_nonempty. unfold st. rewrite <- Hkr.
    apply live_listed; [done..|congruence].
  - intros p ->%elem_of_singleton. destruct Hb. done.
  - intros p k Hk. split; [auto|]. intros [l Hl]%elem_of_dom.
    by apply (map_disjoint_spec (pend y) (held y)) with p l k in Hl.
Qed.

(** Sequence numbers stay distinct when the ticket is registered. *)
Lemma insert_held_inj r p q k l :
  let z := mkHolds r y.(pend) (<[h.(ptr) := h]> y.(held)) y.(cheld) in
  known z p k -> known z q l -> k.(w_seq) = l.(w_seq) -> p = q.
Proof using All.
  intros z. assert (forall p k, known z p k -> p = h.(ptr) /\ k = h \/ known y p k) as Hkn.
  { unfold known. cbn. intros p' k'. rewrite lookup_insert_Some. naive_solver. }
  intros [[-> ->]|Hk]%Hkn [[-> ->]|Hl]%Hkn Hkl; [done|..|by eapply (hi_inj _ Hy)];
    [symmetry in Hkl; by apply (Hs _ _ Hl) in Hkl|by apply (Hs _ _ Hk) in Hkl].
Qed.

(** What [install] withdraws is in force for the root. *)
Lemma install_withdraws st' w p :
  h.(w_root) <> "" -> install h st = (st', w) -> p ∈ w ->
  exists k, ptr k = p /\ in_force y k /\ k.(w_root) = h.(w_root).
Proof using Hy.
  intros Hr Hin Hpw. pose proof (default_root_ok _ _ Hy Hr) as [_ _ Ht Hfn _]. fold st in Ht, Hfn.
  assert (p ∈ (match ticket st with Some t => {[ptr t]} | None => ∅ end : gset nat) ->
    exists k, ptr k = p /\ in_force y k /\ k.(w_root) = h.(w_root)) as Hold.
  { destruct (ticket st) as [t|]; [|set_solver]. intros ->%elem_of_singleton. exists t.
    by destruct (Ht t eq_refl) as (? & ? & _). }
  unfold install in Hin. destruct (w_role h); cbn in Hin; injection Hin as <- <-; [set_solver|auto|].
  apply elem_of_union in Hpw as [|Hd]; [auto|].
  apply elem_of_dom in Hd as [k [Hk _]%map_lookup_filter_Some]. exists k.
  destruct (Hfn _ _ Hk) as (-> & ? & ? & _). done.
Qed.

(** And what it keeps is what it does not withdraw. *)
Lemma install_keeps st' w k :
  h.(w_root) <> "" -> install h st = (st', w) -> replaces st h = false ->
  in_force y k -> k.(w_root) = h.(w_root) -> ptr k ∉ w ->
  if decide (k.(w_role) = roleFunnel) then st'.(funnel) !! k.(ptr) = Some k else st'.(ticket) = Some k.
Proof using All.
  intros Hr Hin Hnr Hk Hkr Hkw.
  destruct (live_listed _ _ Hy Hk) as [_ Hl]; [congruence|]. rewrite Hkr in Hl. fold st in Hl.
  unfold install in Hin. destruct (w_role h); cbn in Hin; injection Hin as <- <-; cbn; case_decide; auto.
  - rewrite lookup_insert_ne; [done|]. intros Heq. destruct Hk as [Hk _]. congruence.
  - rewrite Hl in Hkw. set_solver.
  - apply map_lookup_filter_Some. split; [done|]. cbn. intros Hlt. apply Hkw, elem_of_union_r.
    apply elem_of_dom. exists k. by apply map_lookup_filter_Some.
  - rewrite Hl in Hkw. set_solver.
Qed.

(** The new ticket is listed, and the older ones it lists are among the old
    state's. *)
Lemma install_lists st' w :
  install h st = (st', w) ->
  (if decide (h.(w_role) = roleFunnel) then st'.(funnel) !! h.(ptr) = Some h else st'.(ticket) = Some h) /\
  (forall k, st'.(ticket) = Some k ->
     k = h /\ h.(w_role) <> roleFunnel \/ st.(ticket) = Some k /\ h.(w_role) = roleFunnel /\ w = ∅) /\
  (forall p k, st'.(funnel) !! p = Some k -> p = h.(ptr) /\ k = h /\ h.(w_role) = roleFunnel \/
     st.(funnel) !! p = Some k /\ (p = h.(ptr) -> h.(w_role) <> roleFunnel) /\
     (h.(w_role) = roleNothing -> h.(w_seq) <= k.(w_seq))) /\
  st'.(cleared) = (if decide (h.(w_role) = roleNothing) then st.(cleared) `max` h.(w_seq) else st.(cleared)).
Proof using All.
  unfold install. intros Hin. destruct (w_role h) eqn:Hrole; cbn in *; injection Hin as <- <-; cbn.
  - rewrite lookup_insert_eq. split_and!; [done|by auto| |done].
    intros p k [[<- <-]|[??]]%lookup_insert_Some; [by left|].
    right. split_and!; try done.
  - split_and!; [done|naive_solver| |done]. intros p k Hk. right. split_and!; done.
  - split_and!; [done|naive_solver| |done].
    intros p k [Hk Hn]%map_lookup_filter_Some. cbn in Hn. right. split_and!; try done. lia.
Qed.

Lemma install_in_force st' w k :
  h.(w_root) <> "" -> install h st = (st', w) ->
  let z := mkHolds (set_root h.(w_root) (Some st') w y.(rh)) y.(pend) (<[h.(ptr) := h]> y.(held)) y.(cheld) in
  in_force z k <-> k = h \/ (in_force y k /\ ptr k ∉ w).
Proof using All.
  intros Hr Hin. unfold in_force. cbn. split.
  - intros [[[? ?]|[Hne Hk]]%lookup_insert_Some Hkw]; [by left|right]. set_solver.
  - intros [->|[[Hk Hkw] Hnw]].
    + rewrite lookup_insert_eq. split; [done|]. apply not_elem_of_union. split; [|done].
      intros (k & Hkp & [Hk _] & _)%(install_withdraws _ _ _ Hr Hin). rewrite Hkp in Hk. congruence.
    + rewrite lookup_insert_ne by congruence. set_solver.
Qed.

Lemma install_kept st' w p k :
  h.(w_root) <> "" -> install h st = (st', w) ->
  st.(funnel) !! p = Some k -> st'.(funnel) !! p = Some k -> p ∉ w.
Proof using All.
  intros Hr Hin Hk Hk'. pose proof (default_root_ok _ _ Hy Hr) as [_ _ Ht Hfn _]. fold st in Ht, Hfn.
  destruct (Hfn _ _ Hk) as (-> & [Hkh _] & _ & Hkf & _).
  assert (ptr k ∉ (match ticket st with Some t => {[ptr t]} | None => ∅ end : gset nat)) as Hold.
  { destruct (ticket st) as [t|]; [|set_solver]. rewrite not_elem_of_singleton. intros Heq.
    destruct (Ht t eq_refl) as ([Hth _] & _ & Hne & _). rewrite <- Heq in Hth. congruence. }
  unfold install in Hin. destruct (w_role h); cbn in Hin; injection Hin as <- <-; [set_solver|done|].
  apply not_elem_of_union. split; [done|]. intros [j [Hj Hlt]%map_lookup_filter_Some]%elem_of_dom.
  cbn in Hk'. apply map_lookup_filter_Some in Hk' as [_ Hnl]. cbn in *. congruence.
Qed.

Lemma retired_by_listed st' w :
  h.(w_root) <> "" -> install h st = (st', w) -> h.(w_root) = y.(rh).(connRoot) ->
  st'.(ticket) <> None \/ 0 < st'.(cleared) -> y.(rh).(connRetired) = true.
Proof using All.
  intros Hr Hin Hc Hor. pose proof (default_root_ok _ _ Hy Hr) as [_ _ _ _ Hrt]. fold st in Hrt.
  destruct (decide (h.(w_role) = roleFunnel)) as [Hhf|Hne].
  - unfold install in Hin. rewrite Hhf in Hin. injection Hin as <- <-. auto.
  - apply Hret. rewrite (bo_retires _ _ _ Hb). unfold retires_for.
    rewrite !bool_decide_false, bool_decide_true by done. done.
Qed.

Lemma register_installed_inv st' w :
  h.(w_root) <> "" -> install h st = (st', w) -> replaces st h = false ->
  holds_inv (mkHolds (set_root h.(w_root) (Some st') w y.(rh)) y.(pend) (<[h.(ptr) := h]> y.(held)) y.(cheld)).
Proof using All.
  intros Hr Hin Hnr. pose proof (fun k => install_in_force st' w k Hr Hin) as Hf.
  pose proof (default_root_ok _ _ Hy Hr) as [_ Hcl Ht Hfn Hrt]. fold st in Hcl, Ht, Hfn, Hrt.
  destruct (install_lists _ _ Hin) as (Hh & Ht' & Hfn' & Hc').
  pose proof Hy as []. pose proof Hb as []. pose proof (fun p => install_withdraws _ _ p Hr Hin) as Hwd.
  pose proof Hnr as Hnr'. unfold replaces in Hnr'. apply orb_false_iff in Hnr' as [Hnc%Z.ltb_ge _].
  apply set_root_inv; try done.
  - intros ? [= <-]. split; cbn; [done| | | |].
    + rewrite Hc'. case_decide; lia.
    + intros k [[-> Hne]|(Hk & Hhf & ->)]%Ht'.
      * split_and!; [apply Hf; by left|done|done|..]; rewrite Hc'; case_decide; intros; try done; lia.
      * destruct (Ht _ Hk) as (? & ? & ? & ? & ?). rewrite Hc'. case_decide; [congruence|].
        split_and!; try done.
        apply Hf. right. set_solver.
    + intros p k Hk. pose proof Hk as [(-> & -> & Hhf)|(Hk' & _ & Hn)]%Hfn'.
      * split_and!; [done|apply Hf; by left|done|done|]. rewrite Hc'. case_decide; [congruence|lia].
      * destruct (Hfn _ _ Hk') as (-> & ? & ? & ? & ?). split_and!; try done.
        { apply Hf. right. split; [done|]. by eapply install_kept. }
        rewrite Hc'. case_decide; [specialize (Hn ltac:(done))|]; lia.
    + intros Hc Hor. apply (retired_by_listed st' w); auto.
  - intros k Hk Hkr _. exists st'. split; [done|]. apply Hf in Hk as [->|[Hk Hkw]]; [done|].
    by eapply install_keeps.
  - intros p (k & <- & [Hk _] & _)%Hwd. destruct (hi_held0 _ _ Hk). split_and!; try done.
    intros [l Hl]%elem_of_dom. by apply (map_disjoint_spec (pend y) (held y)) with (ptr k) l k in Hl.
  - intros p k [[<- <-]|[_ Hk]]%lookup_insert_Some; [done|]. split; [auto|].
    intros [l Hl]%elem_of_dom. by apply (map_disjoint_spec (pend y) (held y)) with p l k in Hl.
  - intros p q k l. apply insert_held_inj.
  - intros k Hk. rewrite Hf. split; [|naive_solver]. intros Hkf. right. split; [done|].
    intros (j & Hj & [Hjf _] & Hjr)%Hwd. destruct Hkf as [Hkf _]. rewrite Hj in Hjf. congruence.
Qed.

(** A ticket of no root touches nothing. *)
Lemma register_rootless_inv :
  h.(w_root) = "" ->
  holds_inv (mkHolds y.(rh) y.(pend) (<[h.(ptr) := h]> y.(held)) y.(cheld)).
Proof using All.
  intros Hr. pose proof Hy as []. split; cbn; auto.
  - intros p k Hk. destruct (hi_pend0 _ _ Hk). split; [|done]. by eapply begun_ok_mono.
  - intros p k [[<- <-]|[_ Hk]]%lookup_insert_Some; apply (begun_ok_mono y); cbn; auto; lia.
  - apply map_disjoint_insert_r_2; [|done]. by apply not_elem_of_dom.
  - intros p q k l. apply insert_held_inj.
  - intros root st' Hst. eapply root_ok_mono; eauto; cbn; try done.
    intros k _ [Hk ?]. split; [|done]. cbn. rewrite lookup_insert_ne by congruence. done.
  - intros k [Hk Hkw] Hkr. cbn in Hk. apply lookup_insert_Some in Hk as [[? <-]|[_ Hk]]; [done|].
    by apply hi_live0.
Qed.
End Register.

Lemma pend_held x p h k : holds_inv x -> x.(pend) !! p = Some h -> x.(held) !! p = Some k -> False.
Proof. intros Hi. apply (proj1 (map_disjoint_spec _ _) (hi_disj _ Hi)). Qed.

Lemma begun_ne x p h q k :
  holds_inv x -> x.(pend) !! p = Some h -> known x q k -> k.(w_seq) = h.(w_seq) -> q = p.
Proof. intros [] Hp Hk Hs. eapply hi_inj0; [done|by left|done]. Qed.

Lemma register_inv x h b r :
  holds_inv x -> x.(pend) !! h.(ptr) = Some h -> registerTicket h x.(rh) = (b, r) ->
  holds_inv (mkHolds r (delete h.(ptr) x.(pend))
               (if b then <[h.(ptr) := h]> x.(held) else x.(held)) x.(cheld)).
Proof.
  intros Hi Hp Hreg. pose proof (retire_inv _ _ Hi Hp) as Hy.
  set (y := mkHolds (retire_conns h x.(rh)) (delete h.(ptr) x.(pend)) x.(held) x.(cheld)) in *.
  destruct (hi_pend _ Hi _ _ Hp) as [Hb Hw].
  assert (begun_ok y h.(ptr) h) as Hby.
  { eapply begun_ok_mono; eauto; subst y; cbn; rewrite retire_conns_eq; cbn; done || lia. }
  assert (h.(ptr) ∉ dom y.(pend)) as Hd by (subst y; cbn; rewrite dom_delete_L; set_solver).
  assert (y.(held) !! h.(ptr) = None) as Hq.
  { apply eq_None_not_Some. intros [k Hk]. by eapply (pend_held x). }
  assert (h.(ptr) ∉ y.(rh).(withdrawn)) as Hwy.
  { subst y. cbn. rewrite retire_conns_eq. cbn. intros [Hc|]%elem_of_union; [|done].
    destruct (retires h); [|done]. apply (hi_conns _ Hi) in Hc as [Hc _]. by apply (bo_conn _ _ _ Hb). }
  assert (forall p k, known y p k -> k.(w_seq) <> h.(w_seq)) as Hs.
  { intros p k Hk Heq. assert (p = h.(ptr)) as ->.
    { eapply (begun_ne x); [done|done| |done]. by eapply known_delete_pend. }
    destruct Hk as [Hk|Hk]; [|congruence]. subst y. cbn in Hk. by rewrite lookup_delete_eq in Hk. }
  assert (h.(retires) = true -> y.(rh).(connRetired) = true) as Hret.
  { subst y. cbn. rewrite retire_conns_eq. cbn. by intros ->. }
  unfold registerTicket in Hreg. case_bool_decide as Hr.
  - injection Hreg as <- <-. assert (h.(retires) = false) as Hrf.
    { rewrite (bo_retires _ _ _ Hb). unfold retires_for. by rewrite bool_decide_true by done. }
    assert (rh y = rh x) as Hxy by (subst y; cbn; unfold retire_conns; by rewrite Hrf).
    assert (holds_inv (mkHolds y.(rh) y.(pend) (<[h.(ptr) := h]> y.(held)) y.(cheld))) as Hz
      by (by apply register_rootless_inv). by rewrite Hxy in Hz.
  - change (retire_conns h (rh x)) with (rh y) in Hreg. case_match.
    + injection Hreg as <- <-. by apply (register_replaced_inv y h).
    + destruct (install _ _) as [st' w] eqn:Hin. injection Hreg as <- <-.
      by apply (register_installed_inv y h).
Qed.

(** What [release] leaves of the ticket's root. *)
Definition without (h : withdrawal) (cur : rootState) : rootState :=
  mkRootState (if bool_decide (ptr <$> cur.(ticket) = Some h.(ptr)) then None else cur.(ticket))
    (delete h.(ptr) cur.(funnel)) cur.(cleared).

Lemma release_eq h r :
  releaseTicket h r =
  set_root h.(w_root)
    (if bool_decide (h.(w_root) = "") then r.(byRoot) !! h.(w_root) else
     cur ← r.(byRoot) !! h.(w_root);
     if rootState_empty (without h cur) then None else Some (without h cur)) ∅ r.
Proof.
  assert (forall o, o = r.(byRoot) !! h.(w_root) -> set_root h.(w_root) o ∅ r = r) as Hid.
  { intros o ->. unfold set_root. rewrite partial_alter_self, (left_id_L ∅ (∪)). by destruct r. }
  unfold releaseTicket. case_bool_decide; [by rewrite Hid|].
  destruct (_ !! _) eqn:Hst; cbn; [done|]. by rewrite Hid.
Qed.

Lemma delete_in_force x h r c k :
  x.(held) !! h.(ptr) = Some h -> r.(withdrawn) = x.(rh).(withdrawn) ->
  in_force (mkHolds r x.(pend) (delete h.(ptr) x.(held)) c) k <-> in_force x k /\ k <> h.
Proof.
  intros Hh Hw. unfold in_force. cbn. rewrite Hw, lookup_delete_Some.
  split; [naive_solver|]. intros [[Hk ?] Hne]. split_and!; try done. congruence.
Qed.

Lemma without_ticket h cur k : (without h cur).(ticket) = Some k -> cur.(ticket) = Some k /\ k <> h.
Proof. cbn. case_bool_decide as Hp; [done|]. intros Hk. split; [done|]. intros ->. by rewrite Hk in Hp. Qed.

Lemma without_listed h cur k :
  k <> h -> k.(ptr) <> h.(ptr) ->
  (if decide (k.(w_role) = roleFunnel) then cur.(funnel) !! k.(ptr) = Some k else cur.(ticket) = Some k) ->
  if decide (k.(w_role) = roleFunnel) then (without h cur).(funnel) !! k.(ptr) = Some k
  else (without h cur).(ticket) = Some k.
Proof.
  intros Hne Hp Hk. case_decide; cbn; [by rewrite lookup_delete_ne|].
  rewrite Hk, bool_decide_false; [done|]. cbn. congruence.
Qed.

Lemma without_root_ok x h cur o :
  x.(held) !! h.(ptr) = Some h -> root_ok x h.(w_root) cur ->
  root_ok (mkHolds (set_root h.(w_root) o ∅ x.(rh)) x.(pend) (delete h.(ptr) x.(held)) x.(cheld))
    h.(w_root) (without h cur).
Proof.
  intros Hh []. assert (forall k, in_force x k -> k <> h -> in_force
    (mkHolds (set_root h.(w_root) o ∅ x.(rh)) x.(pend) (delete h.(ptr) x.(held)) x.(cheld)) k) as Hf.
  { intros k ??. apply delete_in_force; [done|cbn; set_solver|done]. }
  split; try done.
  - intros k [Hk Hne]%without_ticket. destruct (ro_ticket0 _ Hk) as (? & ? & ? & ? & ?). split_and!; auto.
  - cbn. intros p f [Hne Hk]%lookup_delete_Some. destruct (ro_funnel0 _ _ Hk) as (-> & ? & ? & ? & ?).
    split_and!; auto. apply Hf; [done|]. by intros ->.
  - cbn. intros Hc [Ht|]; apply ro_retired0; auto. left. by case_bool_decide.
Qed.

Lemma release_inv x h :
  holds_inv x -> x.(held) !! h.(ptr) = Some h ->
  holds_inv (mkHolds (releaseTicket h x.(rh)) x.(pend) (delete h.(ptr) x.(held)) x.(cheld)).
Proof.
  intros Hi Hh. pose proof Hi as []. rewrite release_eq. set (o := if bool_decide _ then _ else _).
  pose proof (fun k => delete_in_force x h (set_root h.(w_root) o ∅ x.(rh)) x.(cheld) k Hh
    ltac:(cbn; set_solver)) as Hf.
  apply set_root_inv; try done.
  - intros st Ho. subst o. case_bool_decide as Hr; [by destruct (ro_root _ _ _ (hi_root0 _ _ Ho))|].
    apply bind_Some in Ho as (cur & Hc & Ho). case_match; [done|]. injection Ho as <-.
    by apply without_root_ok, hi_root0.
  - intros k [Hk Hne]%Hf Hkr Hr. subst o. rewrite bool_decide_false by done.
    destruct (hi_live0 k Hk ltac:(congruence)) as (cur & Hc & Hl). rewrite <- Hkr, Hc. cbn.
    apply keep_nonempty, without_listed; [done| |done]. destruct Hk as [Hk _]. congruence.
  - intros p k [_ Hk]%lookup_delete_Some. split; [auto|]. intros [l Hl]%elem_of_dom.
    by apply (map_disjoint_spec (pend x) (held x)) with p l k in Hl.
  - intros p q k l Hk Hl. unfold known in *. cbn in *. rewrite lookup_delete_Some in Hk, Hl.
    eapply hi_inj0; unfold known; naive_solver.
  - intros k Hk. rewrite Hf. split; [|naive_solver]. intros. split; [done|]. by intros ->.
Qed.

Lemma present_inv x p r :
  holds_inv x -> registerConnection x.(rh) = (Some p, r) ->
  holds_inv (mkHolds r x.(pend) x.(held) ({[p]} ∪ x.(cheld))).
Proof.
  intros Hi Hreg. unfold registerConnection in Hreg. case_match eqn:Hc; [done|].
  injection Hreg as <- <-. bool_prop. pose proof Hi as [].
  assert (forall q k, known x q k -> q <> next (rh x)) as Hfresh.
  { intros q k [Hk|Hk] ->; [destruct (hi_pend0 _ _ Hk) as [[] _]|destruct (hi_held0 _ _ Hk)]; lia. }
  split; cbn; auto.
  - intros q k Hk. destruct (hi_pend0 _ _ Hk). split; [|done]. eapply begun_ok_mono; eauto; cbn; try lia.
    intros ?. apply (or_introl (B := held x !! q = Some k)), Hfresh in Hk. set_solver.
  - intros q k Hk. eapply begun_ok_mono; eauto; cbn; try lia.
    intros ?. apply (or_intror (A := pend x !! q = Some k)), Hfresh in Hk. set_solver.
  - intros root st Hst. by eapply root_ok_mono; eauto.
  - intros q. rewrite !elem_of_union, !elem_of_singleton, hi_conns0. split; [|naive_solver].
    intros [->|[]]; [|naive_solver]. split; [by left|]. intros ?%hi_withdrawn0. lia.
  - congruence.
  - intros q [->%elem_of_singleton|?%hi_cheld0]%elem_of_union; lia.
  - intros q ?%hi_withdrawn0. lia.
Qed.

Lemma unpresent_inv x p :
  holds_inv x -> holds_inv (mkHolds (releaseConnection p x.(rh)) x.(pend) x.(held) (x.(cheld) ∖ {[p]})).
Proof.
  intros []. split; cbn; auto.
  - intros q k Hk. destruct (hi_pend0 _ _ Hk). split; [|done]. eapply begun_ok_mono; eauto; set_solver.
  - intros q k Hk. eapply begun_ok_mono; eauto; set_solver.
  - intros root st Hst. by eapply root_ok_mono; eauto.
  - intros q. rewrite !elem_of_difference, hi_conns0. naive_solver.
  - intros Hr. rewrite (hi_retired0 Hr). set_solver.
  - set_solver.
Qed.

Lemma hold_step_inv x y : hold_step x y -> holds_inv x -> holds_inv y.
Proof.
  destruct 1; eauto using begin_inv, abandon_inv, register_inv, release_inv, present_inv, unpresent_inv.
Qed.

Lemma hold_reach_inv root x : rtc hold_step (hold_start root) x -> holds_inv x.
Proof.
  intros Hx. assert (holds_inv (hold_start root)) as H by apply holds_start_inv.
  induction Hx; eauto using hold_step_inv.
Qed.

(** ** What the invariant gives *)

(** At any moment of any interleaving of a session's handlers, a root has
    at most one ticket in force that is not of funnel actions alone; and when
    that ticket grants nothing, the funnel tickets in force beside it all began
    after it. *)
Theorem root_has_one_ticket croot x h k :
  rtc hold_step (hold_start croot) x ->
  in_force x h -> in_force x k -> h.(w_root) = k.(w_root) -> h.(w_root) <> "" ->
  h.(w_role) <> roleFunnel ->
  k = h \/ (k.(w_role) = roleFunnel /\ (h.(w_role) = roleNothing -> h.(w_seq) < k.(w_seq))).
Proof.
  intros Hx%hold_reach_inv Hh Hk Hr Hne Hhf.
  destruct (live_listed _ _ Hx Hh Hne) as [Hst Hl]. destruct (live_listed _ _ Hx Hk) as [_ Hl']; [congruence|].
  rewrite <- Hr in Hl'. set (st := default _ _) in *. rewrite decide_False in Hl by done.
  case_decide as Hkf; [|left; congruence]. right. split; [done|]. intros Hn.
  destruct (hi_root _ Hx _ _ Hst) as [_ _ Ht Hfn _].
  destruct (Ht _ Hl) as (_ & _ & _ & _ & Hc). destruct (Hfn _ _ Hl') as (_ & _ & _ & _ & Hc').
  specialize (Hc Hn). assert (w_seq h <> w_seq k); [|lia].
  intros Heq. destruct Hh as [Hh _], Hk as [Hk _].
  pose proof (hi_inj _ Hx _ _ _ _ (or_intror Hh) (or_intror Hk) Heq) as Hp.
  rewrite Hp in Hh. congruence.
Qed.

(** A ticket for the connection's root that was replaced finds the connection's
    credential retired already. *)
Lemma replaced_conns_empty x h :
  holds_inv x -> x.(pend) !! h.(ptr) = Some h -> h.(w_root) <> "" -> h.(retires) = true ->
  replaces (default (mkRootState None ∅ 0) (x.(rh).(byRoot) !! h.(w_root))) h = true ->
  x.(rh).(conns) = ∅.
Proof.
  intros Hi Hp Hr Hret Hrep. destruct (hi_pend _ Hi _ _ Hp) as [[_ _ Hs Hrt _] _].
  apply (hi_retired _ Hi). destruct (default_root_ok _ _ Hi Hr) as [_ _ _ _ Hre].
  rewrite Hret in Hrt. unfold retires_for in Hrt. symmetry in Hrt. bool_prop.
  apply Hre; [done|]. unfold replaces in Hrep. apply orb_true_iff in Hrep as [Hc|Ht]; bool_prop.
  - right. lia.
  - left. by destruct (ticket _).
Qed.

(** The tickets an accepted one withdraws began before it. *)
Lemma install_older x h st' w p :
  holds_inv x -> x.(pend) !! h.(ptr) = Some h -> h.(w_root) <> "" ->
  let st := default (mkRootState None ∅ 0) (x.(rh).(byRoot) !! h.(w_root)) in
  replaces st h = false -> install h st = (st', w) -> p ∈ w ->
  exists k, ptr k = p /\ in_force x k /\ k.(w_root) = h.(w_root) /\ k.(w_seq) < h.(w_seq).
Proof.
  intros Hi Hp Hr st Hrep Hin Hpw. destruct (default_root_ok _ _ Hi Hr) as [_ _ Ht Hfn _]. fold st in Ht, Hfn.
  assert (w_role h <> roleFunnel ->
    p ∈ (match ticket st with Some t => {[ptr t]} | None => ∅ end : gset nat) ->
    exists k, ptr k = p /\ in_force x k /\ k.(w_root) = h.(w_root) /\ k.(w_seq) < h.(w_seq)) as Hold.
  { intros Hne. destruct (ticket st) as [t|] eqn:Het; [|set_solver]. intros ->%elem_of_singleton. exists t.
    destruct (Ht t eq_refl) as ([Hth Htw] & ? & _). split_and!; try done.
    unfold replaces in Hrep. rewrite Het, bool_decide_false in Hrep by done. bool_prop. cbn in *. bool_prop.
    assert (w_seq t <> w_seq h); [|lia]. intros Heq.
    pose proof (begun_ne _ _ _ _ _ Hi Hp (or_intror Hth) Heq) as Hptr. rewrite Hptr in Hth.
    by eapply (pend_held x). }
  unfold install in Hin. destruct (w_role h) eqn:Hrole; cbn in Hin; injection Hin as <- <-; [set_solver|auto|].
  apply elem_of_union in Hpw as [|Hd]; [auto|].
  apply elem_of_dom in Hd as [k [Hk Hlt]%map_lookup_filter_Some]. exists k.
  destruct (Hfn _ _ Hk) as (-> & ? & ? & _). done.
Qed.

(** Registering a granted ticket never leaves its root uncovered. Whatever
    credential it withdraws (an earlier ticket for the root, or a presentation
    of the connection's own credential when the ticket retires it), the ticket
    is itself in force from that moment; and a ticket that a later one replaced
    withdraws itself and nothing else. *)
Theorem superseding_leaves_no_gap croot x h b r p :
  rtc hold_step (hold_start croot) x ->
  x.(pend) !! h.(ptr) = Some h -> registerTicket h x.(rh) = (b, r) ->
  p ∈ r.(withdrawn) -> p ∉ x.(rh).(withdrawn) ->
  if b then
    in_force (mkHolds r (delete h.(ptr) x.(pend)) (<[h.(ptr) := h]> x.(held)) x.(cheld)) h /\
    ((p ∈ x.(cheld) /\ h.(retires) = true) \/
     exists k, ptr k = p /\ in_force x k /\ k.(w_root) = h.(w_root) /\ k.(w_seq) < h.(w_seq))
  else p = h.(ptr).
Proof.
  intros Hi%hold_reach_inv Hp Hreg Hpr Hpx. unfold registerTicket in Hreg.
  case_bool_decide as Hr; [by injection Hreg as <- <-|]. rewrite retire_conns_eq in Hreg. cbn in Hreg.
  set (st := default _ _) in *. destruct (hi_pend _ Hi _ _ Hp) as [Hb Hw].
  destruct (replaces st h) eqn:Hrep.
  - injection Hreg as <- <-. cbn in Hpr. destruct (retires h) eqn:Hret; [|set_solver].
    rewrite (replaced_conns_empty x h) in Hpr by done. set_solver.
  - destruct (install h st) as [st' w] eqn:Hin. injection Hreg as <- <-. cbn in Hpr.
    assert (forall q, q ∈ w -> exists k, ptr k = q /\ in_force x k /\ k.(w_root) = h.(w_root) /\
      k.(w_seq) < h.(w_seq)) as Hold by (intros q; by apply (install_older x h st' w)).
    split; [split; cbn; [by rewrite lookup_insert_eq|]|].
    + intros [Hq|[Hq|?]%elem_of_union]%elem_of_union; [| |done].
      * destruct (Hold _ Hq) as (k & Hkp & [Hk _] & _). rewrite Hkp in Hk.
        by eapply (pend_held x).
      * destruct (retires h); [|done]. apply (hi_conns _ Hi) in Hq as [Hq _]. by apply (bo_conn _ _ _ Hb).
    + rewrite !elem_of_union in Hpr. destruct Hpr as [Hq|[Hq|?]]; [by right; apply Hold| |done].
      left. destruct (retires h); [|done]. by apply (hi_conns _ Hi) in Hq as [Hq _].
Qed.

(** The connection's root never changes, and its credential stays retired. *)
Lemma conn_step x y :
  hold_step x y -> y.(rh).(connRoot) = x.(rh).(connRoot) /\
    (x.(rh).(connRetired) = true -> y.(rh).(connRetired) = true).
Proof.
  destruct 1 as [? ? ? ? ? _ Hb|? h|? h ? ? _ Hr|? h|? ? ? Hr|]; cbn.
  - unfold beginTicket in Hb. by injection Hb as <- <-.
  - by rewrite abandonTicket_eq.
  - unfold registerTicket in Hr. case_bool_decide; [by injection Hr as <- <-|].
    rewrite retire_conns_eq in Hr. cbn in Hr. case_match; [|destruct (install _ _)];
      injection Hr as <- <-; cbn; (split; [done|]); intros ->; apply orb_true_r.
  - by rewrite release_eq.
  - unfold registerConnection in Hr. case_match; [done|]. by injection Hr as <- <-.
  - done.
Qed.

Lemma conn_steps x y :
  rtc hold_step x y -> y.(rh).(connRoot) = x.(rh).(connRoot) /\
    (x.(rh).(connRetired) = true -> y.(rh).(connRetired) = true).
Proof.
  induction 1 as [|x z y [Hc Hr]%conn_step _ [IHc IHr]]; [done|]. split; [congruence|auto].
Qed.

(** Once a ticket for the root of the connection's own credential is in
    force, that credential is retired for the rest of the session: every
    presentation of it still held was withdrawn, and any later one is refused,
    whatever the handlers do in between. *)
Theorem ticket_retires_connection croot x y h :
  rtc hold_step (hold_start croot) x -> in_force x h ->
  h.(w_root) = croot -> croot <> "" -> h.(w_role) <> roleFunnel ->
  rtc hold_step x y ->
  (forall p, p ∈ y.(cheld) -> p ∈ y.(rh).(withdrawn)) /\ registerConnection y.(rh) = (None, y.(rh)).
Proof.
  intros Hx Hh Hr Hne Hf Hy. destruct (conn_steps _ _ Hx) as [Hc _]. cbn in Hc.
  pose proof (hold_reach_inv _ _ Hx) as Hi. assert (connRetired (rh y) = true) as Hret.
  { apply (conn_steps _ _ Hy). destruct (live_listed _ _ Hi Hh) as [Hst Hl]; [congruence|].
    rewrite decide_False in Hl by done. apply (ro_retired _ _ _ (hi_root _ Hi _ _ Hst)); [congruence|].
    left. by rewrite Hl. }
  assert (holds_inv y) as Hj by (apply (hold_reach_inv croot); by etrans). split.
  - intros p Hp. destruct (decide (p ∈ y.(rh).(withdrawn))); [done|].
    assert (p ∈ y.(rh).(conns)) as Hpc by (by apply (hi_conns _ Hj)).
    rewrite (hi_retired _ Hj Hret) in Hpc. set_solver.
  - unfold registerConnection. by rewrite Hret.
Qed.

(** A presentation of the connection's own credential is refused exactly
    while it is retired or a ticket that would retire it is being granted. *)
Theorem registerConnection_refuses croot x :
  rtc hold_step (hold_start croot) x ->
  (registerConnection x.(rh)).1 = None <->
  x.(rh).(connRetired) = true \/ exists h, x.(pend) !! h.(ptr) = Some h /\ h.(retires) = true.
Proof.
  intros Hi%hold_reach_inv. unfold registerConnection. pose proof (hi_retiring _ Hi) as Hr.
  destruct (connRetired (rh x)); cbn; [naive_solver|]. rewrite Hr.
  destruct (decide (retiring_set (pend x) = ∅)) as [He|Hne].
  - rewrite He, map_size_empty. cbn. split; [done|]. intros [|(h & Hh & Hret)]; [done|].
    assert (retiring_set (pend x) !! ptr h = Some h) as Hl by (by apply map_lookup_filter_Some).
    by rewrite He in Hl.
  - apply map_choose in Hne as Hm. destruct Hm as (p & h & Hm).
    pose proof Hm as [Hph Hret]%map_lookup_filter_Some. destruct (0 <? _) eqn:Hz; cbn.
    + split; [|done]. intros _. right. exists h. destruct (hi_pend _ Hi _ _ Hph) as [[-> _ _ _ _] _]. done.
    + bool_prop. exfalso. apply Hne, map_size_empty_inv. unfold retiring_set in *. lia.
Qed.

(** ** A session that renews its own credential *)

(** The client presents its connection's credential (identity 0), then a ticket
    for the same root (identity 1). *)
Definition ex_conn : rootHolds := (registerConnection (newRootHolds "/r/")).2.
Definition ex_ticket : withdrawal := (beginTicket "/r/" roleRelay ex_conn).1.
Definition ex_presented : holds := mkHolds ex_conn ∅ ∅ ({[0%nat]} ∪ ∅).
Definition ex_begun : holds :=
  mkHolds (beginTicket "/r/" roleRelay ex_conn).2 (<[1%nat := ex_ticket]> ∅) ∅ ({[0%nat]} ∪ ∅).
Definition ex_granted : holds :=
  mkHolds (registerTicket ex_ticket ex_begun.(rh)).2 (delete 1%nat ex_begun.(pend))
    (<[1%nat := ex_ticket]> ∅) ex_begun.(cheld).

Lemma ex_begun_reach : rtc hold_step (hold_start "/r/") ex_begun.
Proof.
  apply (rtc_l _ _ ex_presented); [exact (hs_present (hold_start "/r/") 0 _ eq_refl)|].
  apply rtc_once. exact (hs_begin ex_presented "/r/" roleRelay ex_ticket _ eq_refl eq_refl).
Qed.

Lemma ex_granted_step : hold_step ex_begun ex_granted.
Proof.
  apply (hs_register ex_begun ex_ticket true); [done|].
  vm_compute. reflexivity.
Qed.

Lemma ex_granted_reach : rtc hold_step (hold_start "/r/") ex_granted.
Proof. eapply rtc_r; [apply ex_begun_reach|apply ex_granted_step]. Qed.

Lemma ex_in_force : in_force ex_granted ex_ticket.
Proof. split; [done|]. apply (bool_decide_eq_false_1 (_ ∈ _)). vm_compute. reflexivity. Qed.

Lemma root_has_one_ticket_witness :
  ex_ticket = ex_ticket \/ (ex_ticket.(w_role) = roleFunnel /\
    (ex_ticket.(w_role) = roleNothing -> ex_ticket.(w_seq) < ex_ticket.(w_seq))).
Proof.
  apply (root_has_one_ticket "/r/" ex_granted ex_ticket ex_ticket);
    [apply ex_granted_reach|apply ex_in_force|apply ex_in_force|done|done|done].
Defined.

Lemma superseding_leaves_no_gap_witness :
  in_force ex_granted ex_ticket /\
  ((0%nat ∈ ex_begun.(cheld) /\ ex_ticket.(retires) = true) \/
   exists k, ptr k = 0%nat /\ in_force ex_begun k /\ k.(w_root) = ex_ticket.(w_root) /\
     k.(w_seq) < ex_ticket.(w_seq)).
Proof.
  apply (superseding_leaves_no_gap "/r/" ex_begun ex_ticket true ex_granted.(rh) 0);
    [apply ex_begun_reach|done|vm_compute; reflexivity|..].
  - apply (bool_decide_eq_true_1 (_ ∈ _)). vm_compute. reflexivity.
  - apply (bool_decide_eq_false_1 (_ ∈ _)). vm_compute. reflexivity.
Defined.

Lemma ticket_retires_connection_witness :
  (forall p, p ∈ ex_granted.(cheld) -> p ∈ ex_granted.(rh).(withdrawn)) /\
  registerConnection ex_granted.(rh) = (None, ex_granted.(rh)).
Proof.
  apply (ticket_retires_connection "/r/" ex_granted ex_granted ex_ticket);
    [apply ex_granted_reach|apply ex_in_force|done|done|done|apply rtc_refl].
Defined.

