(* ===== verification/Usage.v ===== *)
(** * usage/usage.go and internal/auth/usage.go: usage reports

    The reporter adds viewers' bytes into one running total per key, reports
    each publishing session by itself, and sends what is pending in batches.
    Its methods run under a mutex, so each is a function on the state; [flush]
    releases the mutex while it sends, so it is split at those points and any
    method may run in between ([exec]). *)
From S2P Require Import Prelude GoTime.

#[local] Open Scope Z_scope.

(** ** package usage *)

Definition SessionOpen : string := "session_open".
Definition Usage : string := "usage".
Definition SessionClose : string := "session_close".
Definition Viewers : string := "viewers".

Definition IngressBytes : string := "gateway.ingress_bytes".
Definition EgressBytes : string := "gateway.egress_bytes".

(** [usage.Record]; its [Type] is an open string type. *)
Record urecord := mkRecord {
  Type_ : string;
  SessionID : string;
  Run : string;
  KID : string;
  Metrics : gmap string Z;
  Reason : string;
  TS : Time
}.

#[export] Instance urecord_eq_dec : EqDecision urecord.
Proof. solve_decision. Defined.

Inductive usage_error :=
| NeedsSessionID | HasRun | NeedsRun | HasSessionID | UnknownType | NeedsKID | NeedsTS | NeedsMetrics
| NegativeMetric.

Definition Validate_ids (r : urecord) : result usage_error unit :=
  if bool_decide (r.(Type_) ∈ [SessionOpen; Usage; SessionClose]) then
    guard_err (negb (bool_decide (r.(SessionID) = ""))) NeedsSessionID;;
    guard_err (bool_decide (r.(Run) = "")) HasRun
  else if bool_decide (r.(Type_) = Viewers) then
    guard_err (negb (bool_decide (r.(Run) = ""))) NeedsRun;;
    guard_err (bool_decide (r.(SessionID) = "")) HasSessionID
  else Err UnknownType.

Definition Validate (r : urecord) : result usage_error unit :=
  Validate_ids r;;
  guard_err (negb (bool_decide (r.(KID) = ""))) NeedsKID;;
  guard_err (negb (IsZero r.(TS))) NeedsTS;;
  guard_err (negb (negb (bool_decide (r.(Type_) = SessionOpen)) && bool_decide (r.(Metrics) = ∅))) NeedsMetrics;;
  guard_err (bool_decide (map_Forall (fun _ v => 0 <= v) r.(Metrics))) NegativeMetric.

(** ** The reporter's state *)

(** [Bytes]: uint64 totals. *)
Record Bytes := mkBytes { bSent : Z; bReceived : Z }.

#[export] Instance Bytes_eq_dec : EqDecision Bytes.
Proof. solve_decision. Defined.

Definition no_bytes : Bytes := mkBytes 0 0.

Record usageSession := mkSession {
  kid : string;
  publishes : bool;
  seen : Time;
  counted : Bytes
}.

Record viewerTotal := mkTotal { total : Bytes; reported : Bytes; sent : bool }.

Record usageReporter := mkReporter {
  runID : string;
  sessions : gmap string usageSession;
  events : list urecord;
  latest : gmap string urecord;
  viewers : gmap string viewerTotal;
  failing : bool;
  closed : gmap string Time
}.

Definition newUsageReporter (run : string) : usageReporter := mkReporter run ∅ [] ∅ ∅ false ∅.

Definition maxBatchRecords : nat := 500.
Definition maxPendingEvents : nat := Z.to_nat 50000.
#[global] Arguments maxBatchRecords : simpl never.
#[global] Arguments maxPendingEvents : simpl never.
Definition sessionGrace : Duration := 5 * Minute.

Definition set_sessions m (r : usageReporter) :=
  mkReporter r.(runID) m r.(events) r.(latest) r.(viewers) r.(failing) r.(closed).
Definition set_events l (r : usageReporter) :=
  mkReporter r.(runID) r.(sessions) l r.(latest) r.(viewers) r.(failing) r.(closed).
Definition set_latest m (r : usageReporter) :=
  mkReporter r.(runID) r.(sessions) r.(events) m r.(viewers) r.(failing) r.(closed).
Definition set_viewers m (r : usageReporter) :=
  mkReporter r.(runID) r.(sessions) r.(events) r.(latest) m r.(failing) r.(closed).
Definition set_closed m (r : usageReporter) :=
  mkReporter r.(runID) r.(sessions) r.(events) r.(latest) r.(viewers) r.(failing) m.

(** ** Operations *)

(** [timestamp]: now, truncated to the second. *)
Definition timestamp (now : Time) : Time := now - now mod Second.

Definition record (typ id : string) (s : usageSession) (now : Time) : urecord :=
  mkRecord typ id "" s.(kid) ∅ "" (timestamp now).

Definition clampInt64 (v : Z) : Z := if int64_max <? v then int64_max else v.

Definition usageMetrics (b : Bytes) : gmap string Z :=
  {[ IngressBytes := clampInt64 b.(bReceived); EgressBytes := clampInt64 b.(bSent) ]}.

Definition since (b base : Bytes) : Bytes :=
  mkBytes (b.(bSent) - b.(bSent) `min` base.(bSent)) (b.(bReceived) - b.(bReceived) `min` base.(bReceived)).

(** Drops the oldest events past the cap; the dropped ones are returned, which
    the code only counts in a warning. *)
Definition cap_events (l : list urecord) : list urecord * list urecord :=
  let over := (length l - maxPendingEvents)%nat in (take over l, drop over l).

Definition appendEvent (rec : urecord) (r : usageReporter) : list urecord * usageReporter :=
  let '(dropped, kept) := cap_events (r.(events) ++ [rec]) in (dropped, set_events kept r).

Definition open (id k : string) (pub : bool) (now : Time) (r : usageReporter) :
    list urecord * usageReporter :=
  match r.(closed) !! id with
  | Some _ => ([], r)
  | None =>
      let s := mkSession k pub now no_bytes in
      let r1 := set_sessions (<[id := s]> r.(sessions)) r in
      if pub then appendEvent (record SessionOpen id s now) r1 else ([], r1)
  end.

Definition publishing (id : string) (now : Time) (r : usageReporter) : list urecord * usageReporter :=
  match r.(sessions) !! id with
  | None => ([], r)
  | Some s =>
      if s.(publishes) then ([], r) else
      let s' := mkSession s.(kid) true s.(seen) s.(counted) in
      appendEvent (record SessionOpen id s' now) (set_sessions (<[id := s']> r.(sessions)) r)
  end.

(** One direction of [countViewer]: the new total and the new count. *)
Definition count_bytes (b cnt tot : Z) : Z * Z :=
  if cnt <? b then (wrapu 64 (tot + (b - cnt)), b) else (tot, cnt).

Definition countViewer (s : usageSession) (b : Bytes) (r : usageReporter) : usageSession * usageReporter :=
  let t := default (mkTotal no_bytes no_bytes false) (r.(viewers) !! s.(kid)) in
  let '(ts, cs) := count_bytes b.(bSent) s.(counted).(bSent) t.(total).(bSent) in
  let '(tr, cr) := count_bytes b.(bReceived) s.(counted).(bReceived) t.(total).(bReceived) in
  (mkSession s.(kid) s.(publishes) s.(seen) (mkBytes cs cr),
   set_viewers (<[s.(kid) := mkTotal (mkBytes ts tr) t.(reported) t.(sent)]> r.(viewers)) r).

Definition with_metrics (rec : urecord) (m : gmap string Z) (reason : string) : urecord :=
  mkRecord rec.(Type_) rec.(SessionID) rec.(Run) rec.(KID) m reason rec.(TS).

Definition revalidated (id : string) (b : Bytes) (live : bool) (now : Time) (r : usageReporter) : usageReporter :=
  match r.(sessions) !! id with
  | None => r
  | Some s =>
      let s1 := if live then mkSession s.(kid) s.(publishes) now s.(counted) else s in
      if negb s1.(publishes) then
        let '(s2, r1) := countViewer s1 b r in set_sessions (<[id := s2]> r1.(sessions)) r1
      else
        let r1 :=
          if (s1.(counted).(bSent) <? b.(bSent)) || (s1.(counted).(bReceived) <? b.(bReceived)) then
            set_latest (<[id := with_metrics (record Usage id s1 now) (usageMetrics (since b s1.(counted))) ""]>
                          r.(latest)) r
          else r in
        set_sessions (<[id := s1]> r1.(sessions)) r1
  end.

Definition close (id : string) (b : Bytes) (reason : string) (now : Time) (r : usageReporter) :
    bool * list urecord * usageReporter :=
  let r0 := set_closed (<[id := now]> r.(closed)) r in
  match r0.(sessions) !! id with
  | None => (false, [], r0)
  | Some s =>
      let r1 := set_sessions (delete id r0.(sessions)) r0 in
      if negb s.(publishes) then (true, [], (countViewer s b r1).2)
      else
        let r2 := set_latest (delete id r1.(latest)) r1 in
        let '(dropped, r3) := appendEvent
          (with_metrics (record SessionClose id s now) (usageMetrics (since b s.(counted))) reason) r2 in
        (true, dropped, r3)
  end.

Definition forgetStale (now : Time) (r : usageReporter) : usageReporter :=
  let cutoff := time_Add now (- sessionGrace) in
  set_closed (filter (fun kv => Before kv.2 cutoff = false) r.(closed))
    (set_sessions (filter (fun kv => Before kv.2.(seen) cutoff = false) r.(sessions)) r).

(** ** Sending *)

Section Flush.
(** Go ranges over a map in no set order. *)
Variable shuffle : list urecord -> list urecord.

Definition is_event (rec : urecord) : bool := bool_decide (rec.(Type_) ∈ [SessionOpen; SessionClose]).

(** The viewer totals that changed since they were acknowledged. *)
Definition changed (r : usageReporter) : gmap string viewerTotal :=
  filter (fun kv => (kv.2.(sent) && bool_decide (kv.2.(total) = kv.2.(reported))) = false) r.(viewers).

Definition viewer_record (run : string) (now : Time) (k : string) (t : viewerTotal) : urecord :=
  mkRecord Viewers "" run k (usageMetrics t.(total)) "" (timestamp now).

(** [flush] up to the first send: the records to send, in order, and the viewer
    totals among them. *)
Definition flush_take (now : Time) (r : usageReporter) : list urecord * gmap string Bytes * usageReporter :=
  let vs := shuffle ((map_to_list (map_imap (fun k t => Some (viewer_record r.(runID) now k t)) (changed r))).*2) in
  let all := filter (fun e => e.(Type_) = SessionOpen) r.(events) ++ shuffle ((map_to_list r.(latest)).*2) ++
             vs ++ filter (fun e => e.(Type_) = SessionClose) r.(events) in
  (all, total <$> changed r, set_latest ∅ (set_events [] r)).

Definition acknowledge_one (totals : gmap string Bytes) (r : usageReporter) (rec : urecord) : usageReporter :=
  if bool_decide (rec.(Type_) = Viewers) then
    match r.(viewers) !! rec.(KID) with
    | None => r
    | Some t => set_viewers (<[rec.(KID) := mkTotal t.(total) (default no_bytes (totals !! rec.(KID))) true]>
                              r.(viewers)) r
    end
  else r.

Definition acknowledge (batch : list urecord) (totals : gmap string Bytes) (r : usageReporter) : usageReporter :=
  foldl (acknowledge_one totals) r batch.

Definition requeue_one (r : usageReporter) (rec : urecord) : usageReporter :=
  if bool_decide (rec.(Type_) = Viewers) || is_event rec then r
  else match r.(latest) !! rec.(SessionID), r.(sessions) !! rec.(SessionID) with
       | None, Some _ => set_latest (<[rec.(SessionID) := rec]> r.(latest)) r
       | _, _ => r
       end.

Definition requeue (unsent : list urecord) (r : usageReporter) : list urecord * usageReporter :=
  let r1 := foldl requeue_one r unsent in
  let '(dropped, kept) := cap_events (filter (fun e => is_event e = true) unsent ++ r1.(events)) in
  (dropped, set_events kept r1).

(** What the receiver answered one batch. *)
Inductive outcome := Accepted | Malformed | Failed.

(** The loop of [flush] from the batch at the head of [all]: the batches
    answered and why it stopped. [fuel] bounds the number of batches. *)
Fixpoint flush_loop (fuel : nat) (send : list urecord -> outcome) (all : list urecord)
    (totals : gmap string Bytes) (r : usageReporter) :
    option (bool * list (list urecord) * list urecord * usageReporter) :=
  match all, fuel with
  | [], _ => Some (true, [], [], r)
  | _ :: _, O => None
  | _ :: _, S f =>
      let batch := take maxBatchRecords all in
      match send batch with
      | Failed => let '(dropped, r') := requeue all r in Some (false, [], dropped, r')
      | _ => '(ok, batches, dropped, r') ← flush_loop f send (drop maxBatchRecords all) totals (acknowledge batch totals r);
             Some (ok, batch :: batches, dropped, r')
      end
  end.

Definition flush (send : list urecord -> outcome) (now : Time) (r : usageReporter) :=
  let '(all, totals, r1) := flush_take now r in
  flush_loop (length all) send all totals r1.

(** ** Interleavings *)

Inductive uop :=
| Open (id k : string) (pub : bool)
| Publishing (id : string)
| Revalidated (id : string) (b : Bytes) (live : bool)
| Close (id : string) (b : Bytes) (reason : string)
| ForgetStale
| FlushTake
| FlushBatch (o : outcome)
| Tick (d : Duration).

(** The reporter, the clock, the flush under way (what it has still to send and
    its totals), what was answered by the receiver, and what was dropped. *)
Record world := mkWorld {
  rep : usageReporter;
  now : Time;
  flight : option (list urecord * gmap string Bytes);
  answered : list urecord;
  dropped : list urecord
}.

Definition set_rep (r : usageReporter) (d : list urecord) (x : world) : world :=
  mkWorld r x.(now) x.(flight) x.(answered) (x.(dropped) ++ d).

Definition exec (o : uop) (x : world) : world :=
  let r := x.(rep) in
  match o with
  | Open id k pub => let '(d, r') := open id k pub x.(now) r in set_rep r' d x
  | Publishing id => let '(d, r') := publishing id x.(now) r in set_rep r' d x
  | Revalidated id b live => set_rep (revalidated id b live x.(now) r) [] x
  | Close id b reason => let '(_, d, r') := close id b reason x.(now) r in set_rep r' d x
  | ForgetStale => set_rep (forgetStale x.(now) r) [] x
  | FlushTake =>
      match x.(flight) with
      | Some _ => x
      | None => let '(all, totals, r') := flush_take x.(now) r in
                mkWorld r' x.(now) (Some (all, totals)) x.(answered) x.(dropped)
      end
  | FlushBatch oc =>
      match x.(flight) with
      | None => x
      | Some ([], _) => mkWorld r x.(now) None x.(answered) x.(dropped)
      | Some (all, totals) =>
          let batch := take maxBatchRecords all in
          match oc with
          | Failed => let '(d, r') := requeue all r in
                      mkWorld r' x.(now) None x.(answered) (x.(dropped) ++ d)
          | _ => mkWorld (acknowledge batch totals r) x.(now) (Some (drop maxBatchRecords all, totals))
                         (x.(answered) ++ batch) x.(dropped)
          end
      end
  | Tick d => mkWorld r (x.(now) + Z.max 0 d) x.(flight) x.(answered) x.(dropped)
  end.

Definition exec_all (ops : list uop) (x : world) : world := foldl (fun x o => exec o x) x ops.

Definition world0 (run : string) (t : Time) : world := mkWorld (newUsageReporter run) t None [] [].

(** ** Specification: which events a call is to report *)

(** A publishing session is opened once and closed once; a viewer session is
    neither, until it publishes. *)
Definition produced (o : uop) (x : world) : list urecord :=
  let r := x.(rep) in
  match o with
  | Open id k pub =>
      if bool_decide (r.(closed) !! id = None) && pub then
        [mkRecord SessionOpen id "" k ∅ "" (timestamp x.(now))] else []
  | Publishing id =>
      match r.(sessions) !! id with
      | Some s => if s.(publishes) then [] else [mkRecord SessionOpen id "" s.(kid) ∅ "" (timestamp x.(now))]
      | None => []
      end
  | Close id b reason =>
      match r.(sessions) !! id with
      | Some s => if s.(publishes) then
                    [mkRecord SessionClose id "" s.(kid) (usageMetrics (since b s.(counted))) reason
                              (timestamp x.(now))] else []
      | None => []
      end
  | _ => []
  end.

Fixpoint produced_all (ops : list uop) (x : world) : list urecord :=
  match ops with
  | [] => []
  | o :: ops' => produced o x ++ produced_all ops' (exec o x)
  end.

(** ** No event is lost or sent twice *)

Hypothesis shuffle_perm : forall l, shuffle l ≡ₚ l.

Definition ev (l : list urecord) : list urecord := filter (fun e => is_event e = true) l.

Definition flying (x : world) : list urecord := match x.(flight) with Some (all, _) => all | None => [] end.

(** Where each event is. *)
Definition accounted (x : world) : list urecord :=
  ev x.(answered) ++ x.(dropped) ++ ev (flying x) ++ x.(rep).(events).

(** The queues hold what their names say, and a session that ended is not
    remembered as live. *)
Record rep_ok (r : usageReporter) : Prop := {
  ok_events : Forall (fun e => is_event e = true) r.(events);
  ok_latest id rec : r.(latest) !! id = Some rec -> rec.(Type_) = Usage /\ rec.(SessionID) = id;
  ok_closed id t : r.(closed) !! id = Some t -> r.(sessions) !! id = None
}.

Lemma Forall_filter_sub (P Q : urecord -> Prop) `{forall e, Decision (Q e)} l :
  Forall P l -> Forall P (filter Q l).
Proof. rewrite !Forall_forall. intros Hl e [_ He]%list_elem_of_filter. auto. Qed.

Lemma ev_app l m : ev (l ++ m) = ev l ++ ev m.
Proof. apply filter_app. Qed.

Lemma ev_all l : Forall (fun e => is_event e = true) l -> ev l = l.
Proof. induction 1 as [|e l He _ IH]; [done|]. unfold ev in *. rewrite filter_cons_True by done. by rewrite IH. Qed.

Lemma ev_none l : Forall (fun e => is_event e = false) l -> ev l = [].
Proof. induction 1 as [|e l He _ IH]; [done|]. unfold ev in *. rewrite filter_cons_False by congruence. done. Qed.

Lemma ev_Forall l : Forall (fun e => is_event e = true) (ev l).
Proof. apply Forall_forall. intros e He. by apply list_elem_of_filter in He as [? _]. Qed.

Lemma cap_events_eq l d k : cap_events l = (d, k) -> d ++ k = l.
Proof. unfold cap_events. intros [= <- <-]. apply take_drop. Qed.

Lemma appendEvent_spec rec r d r' :
  appendEvent rec r = (d, r') ->
  d ++ r'.(events) = r.(events) ++ [rec] /\ r' = set_events r'.(events) r.
Proof.
  unfold appendEvent. destruct (cap_events _) as [d' k] eqn:Hc. intros [= <- <-].
  apply cap_events_eq in Hc. done.
Qed.

Lemma appendEvent_ok rec r d r' :
  appendEvent rec r = (d, r') -> is_event rec = true -> rep_ok r -> rep_ok r'.
Proof.
  intros Ha Hrec []. apply appendEvent_spec in Ha as [Hd ->]. split; cbn; auto.
  assert (Forall (fun e => is_event e = true) (d ++ events r')) as Hf.
  { rewrite Hd. apply Forall_app. auto. }
  by apply Forall_app in Hf as [_ ?].
Qed.

Lemma countViewer_same s b r :
  let r' := (countViewer s b r).2 in
  r'.(events) = r.(events) /\ r'.(latest) = r.(latest) /\ r'.(sessions) = r.(sessions) /\ r'.(closed) = r.(closed).
Proof. unfold countViewer. by repeat destruct (count_bytes _ _ _). Qed.

Lemma acknowledge_same batch totals r :
  let r' := acknowledge batch totals r in
  r'.(events) = r.(events) /\ r'.(latest) = r.(latest) /\ r'.(sessions) = r.(sessions) /\ r'.(closed) = r.(closed).
Proof.
  unfold acknowledge. revert r. induction batch as [|rec batch IH]; intros r; [done|]. cbn.
  destruct (IH (acknowledge_one totals r rec)) as (-> & -> & -> & ->).
  unfold acknowledge_one. case_bool_decide; [|done]. by case_match.
Qed.

Lemma requeue_fold_same l r :
  let r' := foldl requeue_one r l in
  r'.(events) = r.(events) /\ r'.(sessions) = r.(sessions) /\ r'.(closed) = r.(closed).
Proof.
  revert r. induction l as [|rec l IH]; intros r; [done|]. cbn.
  destruct (IH (requeue_one r rec)) as (-> & -> & ->). unfold requeue_one. by repeat case_match.
Qed.

Lemma requeue_fold_latest l r :
  Forall (fun e => is_event e = true \/ e.(Type_) = Viewers \/ e.(Type_) = Usage) l -> rep_ok r ->
  rep_ok (foldl requeue_one r l).
Proof.
  intros Hl. revert r. induction Hl as [|rec l Hrec _ IH]; intros r Hr; [done|]. cbn. apply IH.
  unfold requeue_one. destruct Hrec as [->|[->| Hu]]; [by rewrite orb_true_r|done|].
  case_match; [done|]. repeat (case_match; try done). destruct Hr. split; cbn; auto.
  intros id rec'. rewrite lookup_insert_Some. intros [[<- <-]|[_ ?]]; auto.
Qed.

Definition reportable (e : urecord) : Prop := is_event e = true \/ e.(Type_) = Viewers \/ e.(Type_) = Usage.

Definition world_ok (x : world) : Prop := rep_ok x.(rep) /\ Forall reportable (flying x).

Lemma not_event e : e.(Type_) = Viewers \/ e.(Type_) = Usage -> is_event e = false.
Proof. intros [He|He]; unfold is_event; rewrite He; by vm_compute. Qed.

Lemma split_events l :
  Forall (fun e => is_event e = true) l ->
  filter (fun e => e.(Type_) = SessionOpen) l ++ filter (fun e => e.(Type_) = SessionClose) l ≡ₚ l.
Proof.
  clear shuffle_perm shuffle. induction 1 as [|e l He _ IH]; [done|].
  unfold is_event in He. apply bool_decide_eq_true in He.
  assert (Type_ e = SessionOpen \/ Type_ e = SessionClose) as [Ho|Ho] by set_solver.
  - rewrite filter_cons_True, filter_cons_False by (rewrite Ho; done). cbn. by rewrite IH.
  - rewrite filter_cons_False, filter_cons_True by (rewrite Ho; done).
    rewrite <- Permutation_middle. by rewrite IH.
Qed.

(** A flush takes the events, opens first. *)
Lemma flush_take_spec t r all totals r' :
  rep_ok r -> flush_take t r = (all, totals, r') ->
  ev all ≡ₚ r.(events) /\ Forall reportable all /\ r' = set_latest ∅ (set_events [] r).
Proof using shuffle_perm.
  intros [He Hl _] [= <- <- <-]. set (us := (map_to_list (latest r)).*2).
  set (vs := (map_to_list (map_imap _ _)).*2).
  assert (Forall (fun e => e.(Type_) = Viewers \/ e.(Type_) = Usage) (shuffle us ++ shuffle vs)) as Huv.
  { apply Forall_app. split; rewrite shuffle_perm; apply Forall_fmap, Forall_forall.
    - intros [id rec] Hin%elem_of_map_to_list. right. by destruct (Hl _ _ Hin).
    - intros [id rec] Hin%elem_of_map_to_list. cbn. rewrite map_lookup_imap in Hin.
      destruct (changed r !! id); [|done]. injection Hin as <-. by left. }
  split_and!; [| |done].
  - rewrite (app_assoc (shuffle us)), ev_app, (ev_app (shuffle us ++ shuffle vs)),
      (ev_none (shuffle us ++ shuffle vs)); cbn.
    2: { eapply Forall_impl; [exact Huv|]. apply not_event. }
    rewrite !ev_all; try (by apply Forall_filter_sub).
    by apply split_events.
  - rewrite (app_assoc (shuffle us)). apply Forall_app. split.
    { eapply Forall_impl; [apply Forall_filter_sub; exact He|]. by left. }
    apply Forall_app. split; [eapply Forall_impl; [exact Huv|]; by right|].
    eapply Forall_impl; [apply Forall_filter_sub; exact He|]. by left.
Qed.

Lemma rep_ok_ext r r' :
  rep_ok r -> r'.(events) = r.(events) -> r'.(latest) = r.(latest) ->
  (forall id, r.(sessions) !! id = None -> r'.(sessions) !! id = None) -> r'.(closed) = r.(closed) -> rep_ok r'.
Proof. intros [] He Hl Hs Hc. split; rewrite ?He, ?Hl, ?Hc; auto. intros. apply Hs. eauto. Qed.

Lemma revalidated_ok id b live t r : rep_ok r -> rep_ok (revalidated id b live t r).
Proof.
  intros Hr. unfold revalidated. destruct (sessions r !! id) as [s|] eqn:Hs; [|done].
  assert (forall s' j, sessions r !! j = None -> <[id:=s']> (sessions r) !! j = None) as Hins.
  { intros s' j Hj. rewrite lookup_insert_ne by congruence. done. }
  set (s1 := if live then _ else _). destruct (negb (publishes s1)).
  - destruct (countViewer s1 b r) as [s2 r1] eqn:Hc.
    destruct (countViewer_same s1 b r) as (He & Hl & Hss & Hcl). rewrite Hc in *. cbn in *.
    eapply rep_ok_ext; [exact Hr|..]; cbn; try done. rewrite Hss. auto.
  - case_match; cbn; [|eapply rep_ok_ext; [exact Hr|..]; cbn; auto]. destruct Hr. split; cbn; eauto.
    intros j rec [[<- <-]|[_ ?]]%lookup_insert_Some; [done|auto].
Qed.

Lemma close_ok id b reason t r ok d r' : rep_ok r -> close id b reason t r = (ok, d, r') -> rep_ok r'.
Proof.
  intros Hr. unfold close. cbn [sessions set_closed]. destruct (sessions r !! id) as [s|] eqn:Hs.
  2: { intros [= <- <- <-]. destruct Hr. split; cbn; auto.
       intros j u [[<- <-]|[_ ?]]%lookup_insert_Some; eauto. }
  set (r1 := set_sessions _ _). assert (rep_ok r1) as Hr1.
  { destruct Hr. split; cbn; auto. intros j u [[<- <-]|[_ ?]]%lookup_insert_Some; apply lookup_delete_None; eauto. }
  destruct (negb (publishes s)).
  - intros [= <- <- <-]. destruct (countViewer_same s b r1) as (He & Hl & Hss & Hcl).
    eapply rep_ok_ext; [exact Hr1|..]; try done. by rewrite Hss.
  - destruct (appendEvent _ _) as [d' r''] eqn:Ha. intros [= <- <- <-].
    eapply appendEvent_ok; [exact Ha|done|]. destruct Hr1. split; cbn; auto.
    intros j rec [_ ?]%lookup_delete_Some. auto.
Qed.

Lemma requeue_ok l r d r' : Forall reportable l -> rep_ok r -> requeue l r = (d, r') -> rep_ok r'.
Proof.
  intros Hl Hr. unfold requeue. destruct (cap_events _) as [d' k] eqn:Hc. intros [= <- <-].
  pose proof (requeue_fold_latest l r Hl Hr) as []. split; cbn; auto.
  apply cap_events_eq in Hc.
  assert (Forall (fun e => is_event e = true) (d' ++ k)) as Hf.
  { rewrite Hc. apply Forall_app. split; [apply ev_Forall|done]. }
  by apply Forall_app in Hf as [_ ?].
Qed.

Lemma acknowledge_ok l totals r : rep_ok r -> rep_ok (acknowledge l totals r).
Proof.
  intros Hr. destruct (acknowledge_same l totals r) as (He & Hl & Hs & Hc).
  eapply rep_ok_ext; [exact Hr|..]; try done. by rewrite Hs.
Qed.

Lemma exec_ok o x : world_ok x -> world_ok (exec o x).
Proof using shuffle_perm.
  intros [Hr Hf]. unfold exec.
  destruct o as [id k pub|id|id b live|id b reason| | |oc|d].
  - unfold open. destruct (closed (rep x) !! id) eqn:Hc; [done|].
    assert (rep_ok (set_sessions (<[id := mkSession k pub x.(now) no_bytes]> x.(rep).(sessions)) x.(rep))) as Hr1.
    { destruct Hr. split; cbn; auto. intros j t Hj. rewrite lookup_insert_ne by congruence. eauto. }
    destruct pub; [|by split]. destruct (appendEvent _ _) as [d r'] eqn:Ha.
    split; [|done]. by eapply appendEvent_ok.
  - unfold publishing. destruct (sessions (rep x) !! id) as [s|] eqn:Hs; [|done].
    destruct (publishes s); [done|]. destruct (appendEvent _ _) as [d r'] eqn:Ha.
    split; [|done]. eapply appendEvent_ok; [done|done|]. destruct Hr. split; cbn; auto.
    intros j t Hj. rewrite lookup_insert_ne; [eauto|]. intros <-. apply ok_closed0 in Hj. congruence.
  - split; [|done]. by apply revalidated_ok.
  - destruct (close _ _ _ _ _) as [[ok d] r'] eqn:Hc. split; [|done]. by eapply close_ok.
  - split; [|done]. destruct Hr. split; cbn; auto. intros j t [Hj _]%map_lookup_filter_Some.
    apply map_lookup_filter_None. left. eauto.
  - destruct (flight x) eqn:Hfl; [done|]. destruct (flush_take _ _) as [[all totals] r'] eqn:Ht.
    apply flush_take_spec in Ht as (_ & Hall & ->); [|done]. split; [|done].
    destruct Hr. split; cbn; auto. intros ? ? Hl. by rewrite lookup_empty in Hl.
  - unfold flying in Hf. destruct (flight x) as [[[|e l] totals]|] eqn:Hfl; [by split| |split; [done|]].
    2: { unfold flying. by rewrite Hfl. }
    assert (Forall reportable (drop maxBatchRecords (e :: l))) as Hd by (by apply Forall_drop).
    destruct oc.
    + split; [by apply acknowledge_ok|done].
    + split; [by apply acknowledge_ok|done].
    + destruct (requeue (e :: l) (rep x)) as [d r'] eqn:Hq. split; [|done]. exact (requeue_ok _ _ _ _ Hf Hr Hq).
  - done.
Qed.

Lemma revalidated_events id b live t r : (revalidated id b live t r).(events) = r.(events).
Proof.
  unfold revalidated. destruct (sessions r !! id) as [s|]; [|done].
  set (s1 := if live then _ else _). destruct (negb (publishes s1)); [|by case_match].
  destruct (countViewer s1 b r) as [s2 r1] eqn:Hc.
  destruct (countViewer_same s1 b r) as (He & _). by rewrite Hc in He.
Qed.

Lemma requeue_events l r d r' : requeue l r = (d, r') -> d ++ r'.(events) = ev l ++ r.(events).
Proof.
  unfold requeue. destruct (cap_events _) as [d' k] eqn:Hc. intros [= <- <-]. apply cap_events_eq in Hc.
  cbn. rewrite Hc. f_equal. apply requeue_fold_same.
Qed.

Lemma batch_accounted n a (d l e : list urecord) :
  ev (a ++ take n l) ++ d ++ ev (drop n l) ++ e ≡ₚ ev a ++ d ++ ev l ++ e.
Proof.
  rewrite ev_app, <- app_assoc. apply Permutation_app_head.
  rewrite <- (take_drop n l) at 3. rewrite ev_app, !app_assoc.
  do 2 apply Permutation_app_tail. apply Permutation_app_comm.
Qed.

(** Every event an operation reports joins those accounted for. *)
Lemma exec_accounted o x : world_ok x -> accounted (exec o x) ≡ₚ accounted x ++ produced o x.
Proof using shuffle_perm.
  intros [Hr Hf]. unfold exec.
  assert (forall d r' new, d ++ r'.(events) = x.(rep).(events) ++ new ->
    accounted (set_rep r' d x) ≡ₚ accounted x ++ new) as Hset.
  { intros d r' new He. unfold accounted, set_rep. cbn. change (flying _) with (flying x).
    rewrite <- !app_assoc, <- He. apply Permutation_app_head, Permutation_app_head.
    rewrite !app_assoc. apply Permutation_app_tail, Permutation_app_comm. }
  destruct o as [id k pub|id|id b live|id b reason| | |oc|d]; cbn [produced].
  - unfold open. destruct (closed (rep x) !! id) eqn:Hc; [by apply Hset; cbn; rewrite app_nil_r|].
    rewrite bool_decide_true by done. destruct pub; cbn [andb]; [|apply Hset; cbn; by rewrite app_nil_r].
    destruct (appendEvent _ _) as [d r'] eqn:Ha. apply appendEvent_spec in Ha as [Hd _]. apply Hset, Hd.
  - unfold publishing. destruct (sessions (rep x) !! id) as [s|]; [|apply Hset; cbn; by rewrite app_nil_r].
    destruct (publishes s); [apply Hset; cbn; by rewrite app_nil_r|].
    destruct (appendEvent _ _) as [d r'] eqn:Ha. apply appendEvent_spec in Ha as [Hd _]. apply Hset, Hd.
  - apply Hset. rewrite app_nil_r. cbn. apply revalidated_events.
  - unfold close. cbn [sessions set_closed]. destruct (sessions (rep x) !! id) as [s|] eqn:Hs;
      [|apply Hset; cbn; by rewrite app_nil_r].
    destruct (publishes s); cbn [negb].
    + destruct (appendEvent _ _) as [d r'] eqn:Ha. apply appendEvent_spec in Ha as [Hd _]. apply Hset, Hd.
    + apply Hset. rewrite app_nil_r. cbn. by rewrite (proj1 (countViewer_same _ _ _)).
  - apply Hset. by rewrite app_nil_r.
  - rewrite app_nil_r. destruct (flight x) eqn:Hfl; [done|].
    destruct (flush_take _ _) as [[all totals] r'] eqn:Ht.
    apply flush_take_spec in Ht as (Hall & _ & ->); [|done].
    unfold accounted, flying. rewrite Hfl. cbn. by rewrite Hall, app_nil_r.
  - rewrite app_nil_r. unfold accounted, flying in *. destruct (flight x) as [[[|e l] totals]|] eqn:Hfl; cbn [fst];
      [done| |by rewrite Hfl]. destruct oc.
    1,2: cbn [answered dropped rep flight]; rewrite (proj1 (acknowledge_same _ _ _)); apply batch_accounted.
    destruct (requeue (e :: l) (rep x)) as [d r'] eqn:Hq. cbn [answered dropped rep flight].
    apply requeue_events in Hq. rewrite <- !app_assoc. change (ev []) with (@nil urecord).
    by rewrite app_nil_l, Hq.
  - by rewrite app_nil_r.
Qed.

Lemma exec_all_ok ops x : world_ok x -> world_ok (exec_all ops x).
Proof using shuffle_perm. revert x. induction ops as [|o ops IH]; intros x Hx; [done|]. apply IH. by apply exec_ok. Qed.

Lemma world0_ok run t : world_ok (world0 run t).
Proof. split; [|constructor]. split; cbn; [constructor|..]; intros ? ? Hl; by rewrite lookup_empty in Hl. Qed.

End Flush.

(** ** Viewer totals *)

(** The specification of a viewer session's credit: the largest totals reported
    for it while it was a viewer. *)
Abbreviation ledger := (gmap string (string * Bytes)).

Definition bmax (a b : Bytes) : Bytes :=
  mkBytes (a.(bSent) `max` b.(bSent)) (a.(bReceived) `max` b.(bReceived)).

Definition credit_op (o : uop) (x : world) (L : ledger) : ledger :=
  let credited id b :=
    match x.(rep).(sessions) !! id, L !! id with
    | Some s, Some (k, c) => if s.(publishes) then L else <[id := (k, bmax c b)]> L
    | _, _ => L
    end in
  match o with
  | Open id k _ => if decide (x.(rep).(closed) !! id = None) then <[id := (k, no_bytes)]> L else L
  | Revalidated id b _ => credited id b
  | Close id b _ => credited id b
  | _ => L
  end.

Definition share (k : string) (f : Bytes -> Z) (v : string * Bytes) : Z := if decide (v.1 = k) then f v.2 else 0.

(** What a key's viewer sessions moved, in one direction. *)
Definition credit (k : string) (f : Bytes -> Z) (L : ledger) : Z := map_fold (fun _ v acc => share k f v + acc) 0 L.

Lemma credit_insert k f L id v : L !! id = None -> credit k f (<[id := v]> L) = share k f v + credit k f L.
Proof. intros Hid. unfold credit. rewrite map_fold_insert_L; [done|lia|done]. Qed.

Lemma credit_update k f L id v v' :
  L !! id = Some v -> credit k f (<[id := v']> L) = credit k f L - share k f v + share k f v'.
Proof.
  intros Hid. rewrite <- (insert_delete_id L id v Hid) at 2.
  rewrite <- insert_delete_eq, !credit_insert by apply lookup_delete_eq. lia.
Qed.

Definition total_of (k : string) (r : usageReporter) : Bytes :=
  (default (mkTotal no_bytes no_bytes false) (r.(viewers) !! k)).(total).

(** A key's running total is the sum of its viewer sessions' credits, as a
    uint64. *)
Definition totals_ok (r : usageReporter) (L : ledger) : Prop :=
  forall k, total_of k r = mkBytes (wrapu 64 (credit k bSent L)) (wrapu 64 (credit k bReceived L)).

Record ledger_ok (r : usageReporter) (L : ledger) : Prop := {
  lo_sessions id s : r.(sessions) !! id = Some s -> L !! id = Some (s.(kid), s.(counted));
  lo_totals : totals_ok r L
}.

Lemma count_bytes_spec b cnt tot c :
  tot = wrapu 64 c -> count_bytes b cnt tot = (wrapu 64 (c - cnt + cnt `max` b), cnt `max` b).
Proof.
  intros ->. unfold count_bytes. case_match; bool_prop; f_equal; try lia.
  - unfold wrapu. rewrite Zplus_mod_idemp_l. f_equal. lia.
  - f_equal. lia.
Qed.

Lemma countViewer_spec s b r L id :
  totals_ok r L -> L !! id = Some (s.(kid), s.(counted)) ->
  exists r', countViewer s b r = (mkSession s.(kid) s.(publishes) s.(seen) (bmax s.(counted) b), r') /\
    totals_ok r' (<[id := (s.(kid), bmax s.(counted) b)]> L).
Proof.
  intros Ht HL. unfold countViewer. pose proof (Ht s.(kid)) as Hk. unfold total_of in Hk.
  rewrite (count_bytes_spec _ _ _ (credit s.(kid) bSent L)) by (by rewrite Hk).
  rewrite (count_bytes_spec _ _ _ (credit s.(kid) bReceived L)) by (by rewrite Hk).
  eexists. split; [done|]. intros k. unfold total_of. cbn. rewrite !(credit_update _ _ _ _ _ _ HL).
  unfold share. cbn. destruct (decide (s.(kid) = k)) as [<-|Hne].
  - rewrite lookup_insert_eq. cbn. done.
  - rewrite lookup_insert_ne by done. rewrite !Z.sub_0_r, !Z.add_0_r. apply Ht.
Qed.

Section Viewers.
Variable shuffle : list urecord -> list urecord.

Fixpoint ledger_all (ops : list uop) (x : world) (L : ledger) : ledger :=
  match ops with
  | [] => L
  | o :: ops' => ledger_all ops' (exec shuffle o x) (credit_op o x L)
  end.

(** Each session is opened under an identifier of its own. *)
Fixpoint fresh_ids (ops : list uop) (x : world) (L : ledger) : bool :=
  match ops with
  | [] => true
  | o :: ops' =>
      match o with Open id _ _ => bool_decide (L !! id = None) | _ => true end &&
      fresh_ids ops' (exec shuffle o x) (credit_op o x L)
  end.

(** Events and reports do not touch sessions or totals. *)
Lemma ledger_ok_ext r r' L :
  ledger_ok r L -> (forall id s, r'.(sessions) !! id = Some s -> r.(sessions) !! id = Some s) ->
  (forall k, total_of k r' = total_of k r) -> ledger_ok r' L.
Proof. intros [] Hs Ht. split; [eauto|]. intros k. rewrite Ht. auto. Qed.

Lemma acknowledge_totals batch totals r k : total_of k (acknowledge batch totals r) = total_of k r.
Proof.
  unfold acknowledge. revert r. induction batch as [|rec batch IH]; intros r; [done|]. cbn. rewrite IH.
  unfold acknowledge_one. case_bool_decide; [|done]. destruct (viewers r !! KID rec) eqn:Hv; [|done].
  unfold total_of. cbn. destruct (decide (KID rec = k)) as [<-|]; by simplify_map_eq.
Qed.

Lemma requeue_totals l r k : total_of k (requeue l r).2 = total_of k r.
Proof.
  unfold requeue. destruct (cap_events _). cbn. change (total_of k (foldl requeue_one r l) = total_of k r).
  revert r. induction l as [|rec l IH]; intros r; [done|]. cbn. rewrite IH.
  unfold requeue_one. by repeat case_match.
Qed.

Lemma open_ledger id k pub t r L :
  ledger_ok r L -> L !! id = None ->
  ledger_ok (open id k pub t r).2 (if decide (r.(closed) !! id = None) then <[id := (k, no_bytes)]> L else L).
Proof.
  intros [Hs Ht] Hid. unfold open. destruct (closed r !! id) eqn:Hc; cbn [decide]; [by split|].
  rewrite decide_True by done.
  assert (ledger_ok (set_sessions (<[id := mkSession k pub t no_bytes]> r.(sessions)) r)
            (<[id := (k, no_bytes)]> L)) as Hr1.
  { split.
    - cbn. intros j s [[<- <-]|[Hne Hj]]%lookup_insert_Some; [by rewrite lookup_insert_eq|].
      rewrite lookup_insert_ne by done. auto.
    - intros j. rewrite !credit_insert by done. unfold share. cbn. case_decide; apply Ht. }
  destruct pub; [|done]. destruct (appendEvent _ _) as [d r'] eqn:Ha.
  apply appendEvent_spec in Ha as [_ ->]. by eapply ledger_ok_ext.
Qed.

(** A viewer session's bytes, counted at a revalidate or at its end. *)
Lemma counted_ledger id s b r L (m : gmap string usageSession) :
  ledger_ok r L -> L !! id = Some (s.(kid), s.(counted)) ->
  (forall j s', m !! j = Some s' -> j <> id -> r.(sessions) !! j = Some s') ->
  (forall s', m !! id = Some s' -> s'.(kid) = s.(kid) /\ s'.(counted) = bmax s.(counted) b) ->
  ledger_ok (set_sessions m (countViewer s b r).2) (<[id := (s.(kid), bmax s.(counted) b)]> L).
Proof.
  intros [Hs Ht] HL Hm Hid. destruct (countViewer_spec s b r L id Ht HL) as (r' & -> & Ht'). split; [|done].
  cbn. intros j s' Hj. destruct (decide (j = id)) as [->|Hne].
  - rewrite lookup_insert_eq. destruct (Hid _ Hj) as [-> ->]. done.
  - rewrite lookup_insert_ne by done. auto.
Qed.

Lemma revalidated_ledger id b live x L :
  ledger_ok x.(rep) L ->
  ledger_ok (revalidated id b live x.(now) x.(rep)) (credit_op (Revalidated id b live) x L).
Proof.
  intros HL. unfold revalidated. cbn. destruct (sessions (rep x) !! id) as [s|] eqn:Hid; [|done].
  pose proof (lo_sessions _ _ HL _ _ Hid) as HLi. rewrite HLi.
  set (s1 := if live then _ else s).
  assert (kid s1 = kid s /\ counted s1 = counted s /\ publishes s1 = publishes s) as (Hk & Hc & ->)
    by (by destruct live). destruct (publishes s); cbn [negb].
  - assert (ledger_ok (set_sessions (<[id := s1]> x.(rep).(sessions)) x.(rep)) L) as Hok.
    { split; [|apply HL]. cbn. intros j s' [[<- <-]|[_ Hj]]%lookup_insert_Some; [congruence|].
      by apply (lo_sessions _ _ HL). }
    case_match; by eapply ledger_ok_ext.
  - rewrite <- Hk, <- Hc in HLi |- *. destruct (countViewer s1 b (rep x)) as [s2 r1] eqn:Hcv.
    pose proof (countViewer_same s1 b (rep x)) as (_ & _ & Hss & _). rewrite Hcv in Hss. cbn in Hss.
    destruct (countViewer_spec s1 b (rep x) L id (lo_totals _ _ HL) HLi) as (r' & Hr' & _).
    pose proof (counted_ledger id s1 b (rep x) L (<[id := s2]> r1.(sessions)) HL HLi) as Hgoal.
    rewrite Hcv in Hgoal, Hr'. injection Hr' as -> ->. apply Hgoal.
    + intros j s' [[<- _]|[_ Hj]]%lookup_insert_Some; [done|]. by rewrite Hss in Hj.
    + intros s'. rewrite lookup_insert_eq. by intros [= <-].
Qed.

Lemma close_ledger id b reason x L :
  ledger_ok x.(rep) L ->
  ledger_ok (close id b reason x.(now) x.(rep)).2 (credit_op (Close id b reason) x L).
Proof.
  intros HL. unfold close. cbn [credit_op sessions set_closed]. destruct (sessions (rep x) !! id) as [s|] eqn:Hid.
  2: { by eapply ledger_ok_ext. }
  pose proof (lo_sessions _ _ HL _ _ Hid) as HLi. rewrite HLi. destruct (publishes s); cbn [negb].
  - destruct (appendEvent _ _) as [d r'] eqn:Ha. apply appendEvent_spec in Ha as [_ ->].
    eapply ledger_ok_ext; [exact HL| |done]. cbn. by intros j s' [_ ?]%lookup_delete_Some.
  - set (r1 := set_sessions _ _).
    assert (ledger_ok r1 L) as Hr1.
    { eapply ledger_ok_ext; [exact HL| |done]. cbn. by intros j s' [_ ?]%lookup_delete_Some. }
    destruct (counted_ledger id s b r1 L (delete id x.(rep).(sessions)) Hr1 HLi) as [Hs Ht].
    + done.
    + intros s'. by rewrite lookup_delete_eq.
    + split; [|exact Ht]. cbn [snd].
      rewrite (proj1 (proj2 (proj2 (countViewer_same s b r1)))). exact Hs.
Qed.

Lemma ledger_step o x L :
  rep_ok x.(rep) -> ledger_ok x.(rep) L ->
  match o with Open id _ _ => L !! id = None | _ => True end ->
  ledger_ok (exec shuffle o x).(rep) (credit_op o x L).
Proof.
  intros Hr HL Hfresh. pose proof HL as [Hs Ht].
  destruct o as [id k pub|id|id b live|id b reason| | |oc|d]; unfold exec; cbn [credit_op].
  - pose proof (open_ledger id k pub x.(now) x.(rep) L HL Hfresh) as Hgoal. by destruct (open _ _ _ _ _).
  - unfold publishing. destruct (sessions (rep x) !! id) as [s|] eqn:Hid; [|done].
    destruct (publishes s); [done|]. destruct (appendEvent _ _) as [d r'] eqn:Ha.
    apply appendEvent_spec in Ha as [_ ->]. split; [|done]. cbn.
    intros j s' [[<- <-]|[_ ?]]%lookup_insert_Some; [|auto]. cbn. auto.
  - by apply revalidated_ledger.
  - pose proof (close_ledger id b reason x L HL) as Hgoal. by destruct (close _ _ _ _ _) as [[??]?].
  - eapply ledger_ok_ext; [exact HL| |done]. cbn. by intros j s' [? _]%map_lookup_filter_Some.
  - destruct (flight x); [done|]. by eapply ledger_ok_ext.
  - destruct (flight x) as [[[|e l] totals]|]; [done| |done]. destruct oc.
    1,2: eapply ledger_ok_ext; [exact HL| |intros; apply acknowledge_totals]; cbn [rep];
      by rewrite (proj1 (proj2 (proj2 (acknowledge_same _ _ _)))).
    pose proof (requeue_totals (e :: l) (rep x)) as Hq.
    assert (sessions (requeue (e :: l) (rep x)).2 = sessions (rep x)) as Hss.
    { unfold requeue. destruct (cap_events _). apply requeue_fold_same. }
    destruct (requeue (e :: l) (rep x)). eapply ledger_ok_ext; [exact HL| |exact Hq]. cbn in *. by rewrite Hss.
  - done.
Qed.

Hypothesis shuffle_perm : forall l, shuffle l ≡ₚ l.

(** Viewers' bytes are counted once each. Whatever the calls, in whatever
    order and with whatever repeated or stale totals, a key's running viewer
    total is the sum, over the sessions of that key, of the largest totals
    reported for each while it was a viewer (as a uint64). *)
Theorem viewer_totals_exact run t ops k :
  fresh_ids ops (world0 run t) ∅ = true ->
  let L := ledger_all ops (world0 run t) ∅ in
  total_of k (exec_all shuffle ops (world0 run t)).(rep) =
    mkBytes (wrapu 64 (credit k bSent L)) (wrapu 64 (credit k bReceived L)).
Proof using shuffle_perm.
  assert (forall x L, world_ok x -> ledger_ok x.(rep) L -> fresh_ids ops x L = true ->
    ledger_ok (exec_all shuffle ops x).(rep) (ledger_all ops x L)) as Hgen.
  { induction ops as [|o ops IH]; intros x L Hx HL Hf; [done|]. cbn in *. apply andb_true_iff in Hf as [Ho Hf].
    apply IH; [by apply exec_ok| |done]. apply ledger_step; [apply Hx|done|].
    destruct o; try done. by apply bool_decide_eq_true in Ho. }
  intros Hf L. apply (Hgen (world0 run t) ∅ (world0_ok run t)); [|done]. split; [|done].
  cbn. intros id s Hid. by rewrite lookup_empty in Hid.
Qed.
End Viewers.

(** ** Ended sessions *)

Section Closed.
Variable shuffle : list urecord -> list urecord.
Hypothesis shuffle_perm : forall l, shuffle l ≡ₚ l.

Lemma exec_now o x : x.(now) <= (exec shuffle o x).(now).
Proof. destruct o; unfold exec; repeat case_match; cbn; lia. Qed.

Lemma exec_all_now ops x : x.(now) <= (exec_all shuffle ops x).(now).
Proof.
  revert x. induction ops as [|o ops IH]; intros x; cbn; [lia|].
  etransitivity; [apply (exec_now o x)|apply IH].
Qed.

Lemma countViewer_closed s b r : (countViewer s b r).2.(closed) = r.(closed).
Proof. apply countViewer_same. Qed.

Lemma requeue_closed l r : (requeue l r).2.(closed) = r.(closed).
Proof. unfold requeue. destruct (cap_events _). apply requeue_fold_same. Qed.

(** Only [forgetStale] forgets an end, and only a stale one. *)
Lemma exec_closed o x id t0 t :
  x.(rep).(closed) !! id = Some t -> t0 <= t -> t0 <= x.(now) ->
  0 <= x.(now) -> sane x.(now) -> x.(now) <= t0 + sessionGrace ->
  exists t', (exec shuffle o x).(rep).(closed) !! id = Some t' /\ t0 <= t'.
Proof.
  intros Hc Ht Hn Hp Hs Hg.
  destruct o as [j k pub|j|j b live|j b reason| | |oc|d]; unfold exec.
  - unfold open. destruct (closed (rep x) !! j); [by exists t|].
    destruct pub; [|by exists t]. destruct (appendEvent _ _) as [d r'] eqn:Ha. exists t. split; [|done].
    cbn. apply appendEvent_spec in Ha as [_ ->]. done.
  - unfold publishing. destruct (sessions (rep x) !! j) as [s|]; [|by exists t].
    destruct (publishes s); [by exists t|]. destruct (appendEvent _ _) as [d r'] eqn:Ha. exists t. split; [|done].
    cbn. apply appendEvent_spec in Ha as [_ ->]. done.
  - exists t. split; [|done]. cbn. unfold revalidated. destruct (sessions (rep x) !! j) as [s|]; [|done].
    set (s1 := if live then _ else _). destruct (negb (publishes s1)); [|by case_match].
    pose proof (countViewer_closed s1 b (rep x)) as Hcl. destruct (countViewer _ _ _). cbn in *. by rewrite Hcl.
  - assert (exists t', <[j := x.(now)]> (closed (rep x)) !! id = Some t' /\ t0 <= t') as Hex.
    { destruct (decide (j = id)) as [->|]; simplify_map_eq; eauto. }
    unfold close. cbn [sessions set_closed]. destruct (sessions (rep x) !! j) as [s|]; [|done].
    destruct (negb (publishes s)); [cbn; by rewrite countViewer_closed|].
    destruct (appendEvent _ _) as [d r'] eqn:Ha. apply appendEvent_spec in Ha as [_ ->]. done.
  - exists t. split; [|done]. cbn. apply map_lookup_filter_Some. split; [done|]. cbn.
    unfold Before. apply Z.ltb_ge. rewrite time_Add_sane; [lia|].
    unfold sane, sessionGrace, Minute, Second in *. Z.to_euclidean_division_equations. lia.
  - destruct (flight x); by exists t.
  - destruct (flight x) as [[[|e l] totals]|]; try (by exists t). destruct oc.
    1,2: exists t; split; [|done]; cbn [rep]; by rewrite (proj2 (proj2 (proj2 (acknowledge_same _ _ _)))).
    pose proof (requeue_closed (e :: l) (rep x)) as Hq. destruct (requeue _ _). cbn in *. rewrite Hq. by exists t.
  - by exists t.
Qed.

(** A session that ended is not brought back. For [sessionGrace] after its
    end was recorded, no sequence of calls (a late open from a ticket granted as
    the session ended, a late revalidate) makes the reporter remember it as live
    again. *)
Theorem closed_session_stays_closed run t ops id b reason ops' :
  let x := exec_all shuffle ops (world0 run t) in
  let y := exec_all shuffle ops' (exec shuffle (Close id b reason) x) in
  0 <= t -> sane y.(now) -> y.(now) <= x.(now) + sessionGrace ->
  y.(rep).(sessions) !! id = None.
Proof using shuffle_perm.
  intros x y Ht Hs Hg. assert (world_ok x) as Hx by (apply exec_all_ok; [done|apply world0_ok]).
  assert (0 <= x.(now)) as Hx0 by (etransitivity; [exact Ht|apply (exec_all_now ops (world0 run t))]).
  assert (world_ok y) as Hy by (by apply exec_all_ok, exec_ok).
  assert (exists u, y.(rep).(closed) !! id = Some u /\ x.(now) <= u) as (u & Hu & _).
  2: { by apply (ok_closed _ (proj1 Hy) _ u). }
  assert (exists u, (exec shuffle (Close id b reason) x).(rep).(closed) !! id = Some u /\ x.(now) <= u) as Hc0.
  { exists x.(now). split; [|lia]. unfold exec, close. cbn [sessions set_closed].
    destruct (sessions (rep x) !! id) as [s|]; [|cbn; by rewrite lookup_insert_eq].
    destruct (negb (publishes s)); [cbn; by rewrite countViewer_closed; cbn; rewrite lookup_insert_eq|].
    destruct (appendEvent _ _) as [d r'] eqn:Ha. apply appendEvent_spec in Ha as [_ ->]. cbn.
    by rewrite lookup_insert_eq. }
  assert (x.(now) <= (exec shuffle (Close id b reason) x).(now)) as Hn by apply exec_now.
  clear Hy. subst y. revert Hc0 Hn Hs Hg. generalize (exec shuffle (Close id b reason) x).
  induction ops' as [|o ops' IH]; intros z (u & Hu & Hux) Hn Hs Hg; [by exists u|].
  pose proof (exec_all_now (o :: ops') z) as Hm.
  apply IH; [|etransitivity; [exact Hn|apply exec_now]|done|done].
  apply (exec_closed o z id x.(now) u); try done; try lia.
  unfold sane in *. split.
  - transitivity 0; [lia|]. apply Z.div_pos; [lia|unfold Second; lia].
  - eapply Z.le_lt_trans; [|apply Hs]. apply Z.div_le_mono; [unfold Second; lia|exact Hm].
Qed.
End Closed.

(** ** One flush *)

Section OneFlush.
Variable shuffle : list urecord -> list urecord.
Hypothesis shuffle_perm : forall l, shuffle l ≡ₚ l.

Lemma maxBatchRecords_pos : (0 < maxBatchRecords)%nat.
Proof. unfold maxBatchRecords. lia. Qed.

Lemma flush_loop_spec send totals fuel all r :
  (length all <= fuel)%nat ->
  exists ok batches dropped r' rest,
    flush_loop fuel send all totals r = Some (ok, batches, dropped, r') /\
    all = concat batches ++ rest /\
    Forall (fun b => (0 < length b <= maxBatchRecords)%nat /\ send b <> Failed) batches /\
    (if ok then rest = [] /\ dropped = [] /\ r' = foldl (fun r b => acknowledge b totals r) r batches
     else send (take maxBatchRecords rest) = Failed /\
          requeue rest (foldl (fun r b => acknowledge b totals r) r batches) = (dropped, r')).
Proof.
  revert all r. induction fuel as [|fuel IH]; intros all r Hle.
  - destruct all; [|cbn in Hle; lia]. exists true, [], [], r, []. done.
  - destruct all as [|e l]; [exists true, [], [], r, []; done|]. cbn [flush_loop].
    set (b := take maxBatchRecords (e :: l)). destruct (send b) eqn:Hb.
    3: { destruct (requeue (e :: l) r) as [d r'] eqn:Hq. exists false, [], d, r', (e :: l). done. }
    1,2: destruct (IH (drop maxBatchRecords (e :: l)) (acknowledge b totals r))
           as (ok & batches & d & r' & rest & -> & Hall & Hbs & Hok);
      [rewrite length_drop; cbn [length] in *; pose proof maxBatchRecords_pos; lia|];
      exists ok, (b :: batches), d, r', rest; split_and!; [done| |constructor; [|done]|done];
      [cbn; rewrite <- app_assoc, <- Hall; symmetry; apply take_drop|];
      split; [subst b; rewrite length_take; cbn [length]; pose proof maxBatchRecords_pos; lia|congruence].
Qed.

(** A flush ends, sends batches of 1 to [maxBatchRecords] records that the
    receiver answered, and accounts for all it took: when every batch was
    answered, what it sent is exactly the queued events, the latest report of
    each session and the changed viewer totals; when a batch failed, every event
    not yet sent is queued again (or dropped by the cap). *)
Theorem flush_sends_or_requeues send t r :
  rep_ok r ->
  exists ok batches dropped r',
    flush shuffle send t r = Some (ok, batches, dropped, r') /\
    Forall (fun b => (0 < length b <= maxBatchRecords)%nat /\ send b <> Failed) batches /\
    (if ok then
       concat batches ≡ₚ r.(events) ++ (map_to_list r.(latest)).*2 ++
         (map_to_list (map_imap (fun k v => Some (viewer_record r.(runID) t k v)) (changed r))).*2 /\
       r'.(events) = [] /\ r'.(latest) = ∅
     else ev (concat batches) ++ dropped ++ r'.(events) ≡ₚ r.(events)).
Proof using shuffle_perm.
  intros Hr. unfold flush. destruct (flush_take shuffle t r) as [[all totals] r1] eqn:Htk.
  pose proof (flush_take_spec shuffle shuffle_perm _ _ _ _ _ Hr Htk) as (Hev & _ & ->).
  destruct (flush_loop_spec send totals (length all) all (set_latest ∅ (set_events [] r)) ltac:(lia))
    as (ok & batches & d & r' & rest & -> & Hall & Hbs & Hok).
  assert (forall r bs, (foldl (fun r b => acknowledge b totals r) r bs).(events) = r.(events) /\
    (foldl (fun r b => acknowledge b totals r) r bs).(latest) = r.(latest)) as Hack.
  { intros r0 bs. revert r0. induction bs as [|b bs IH]; intros r0; [done|]. cbn.
    destruct (IH (acknowledge b totals r0)) as [-> ->].
    destruct (acknowledge_same b totals r0) as (-> & -> & _). done. }
  eexists _, _, _, _. split_and!; [done|done|]. destruct ok.
  - destruct Hok as (-> & _ & ->). rewrite app_nil_r in Hall. rewrite <- Hall.
    destruct (Hack (set_latest ∅ (set_events [] r)) batches) as [-> ->]. split; [|done].
    injection Htk as <- _. rewrite !shuffle_perm.
    etransitivity; [|apply Permutation_app_tail, (split_events _ (ok_events _ Hr))]. rewrite <- app_assoc. apply Permutation_app_head. rewrite app_assoc. apply Permutation_app_comm.
  - destruct Hok as [_ Hq%requeue_events]. rewrite Hq, (proj1 (Hack _ _)). cbn.
    rewrite app_nil_r, <- ev_app, <- Hall. exact Hev.
Qed.
End OneFlush.

(** ** The records are well formed *)

Definition valid (rec : urecord) : Prop := Validate rec = Ok tt.

Definition op_ok (o : uop) : Prop :=
  match o with
  | Open id k _ => id <> "" /\ k <> ""
  | Revalidated _ b _ | Close _ b _ => 0 <= b.(bSent) /\ 0 <= b.(bReceived)
  | _ => True
  end.

Definition nonneg (b : Bytes) : Prop := 0 <= b.(bSent) /\ 0 <= b.(bReceived).

Record rep_valid (r : usageReporter) : Prop := {
  rv_run : r.(runID) <> "";
  rv_sessions id s : r.(sessions) !! id = Some s -> id <> "" /\ s.(kid) <> "";
  rv_events : Forall valid r.(events);
  rv_latest id rec : r.(latest) !! id = Some rec -> valid rec;
  rv_viewers k t : r.(viewers) !! k = Some t -> k <> "" /\ nonneg t.(total)
}.

Lemma clamp_nonneg v : 0 <= v -> 0 <= clampInt64 v.
Proof. unfold clampInt64, int64_max. case_match; lia. Qed.

Lemma metrics_nonneg b : nonneg b -> map_Forall (fun _ v => 0 <= v) (usageMetrics b) /\ usageMetrics b <> ∅.
Proof.
  intros [Hs Hr]. unfold usageMetrics. split.
  - apply map_Forall_insert_2; [by apply clamp_nonneg|]. apply map_Forall_singleton. by apply clamp_nonneg.
  - apply insert_non_empty.
Qed.

Lemma since_nonneg b base : nonneg (since b base).
Proof. split; cbn; lia. Qed.

Lemma timestamp_nonzero t : 0 <= t -> IsZero (timestamp t) = false.
Proof.
  intros Ht. unfold IsZero, timestamp, zero_time, unixToInternal, Second.
  apply Z.eqb_neq. Z.to_euclidean_division_equations. lia.
Qed.

Lemma valid_record typ id run k m reason t :
  (typ ∈ [SessionOpen; Usage; SessionClose] /\ id <> "" /\ run = "") \/ (typ = Viewers /\ id = "" /\ run <> "") ->
  k <> "" -> 0 <= t -> map_Forall (fun _ v => 0 <= v) m -> typ = SessionOpen \/ m <> ∅ ->
  valid (mkRecord typ id run k m reason (timestamp t)).
Proof.
  intros Hid Hk Ht Hm Hne. unfold valid, Validate, Validate_ids. cbn.
  rewrite timestamp_nonzero, (bool_decide_false (k = "")) by done.
  rewrite (bool_decide_true (map_Forall _ _)) by done.
  assert (negb (negb (bool_decide (typ = SessionOpen)) && bool_decide (m = ∅)) = true) as ->.
  { destruct Hne as [->|Hne]; [done|]. rewrite (bool_decide_false (m = ∅)) by done. by rewrite andb_false_r. }
  destruct Hid as [(Htyp & Hi & ->)|(-> & -> & Hr)].
  - rewrite bool_decide_true, (bool_decide_false (id = "")) by done. done.
  - rewrite (bool_decide_false (run = "")) by done. done.
Qed.

Lemma appendEvent_valid rec r d r' :
  appendEvent rec r = (d, r') -> valid rec -> rep_valid r -> rep_valid r'.
Proof.
  intros Ha Hrec []. apply appendEvent_spec in Ha as [Hd ->]. split; cbn; auto.
  assert (Forall valid (d ++ events r')) as Hf by (rewrite Hd; apply Forall_app; auto).
  by apply Forall_app in Hf as [_ ?].
Qed.

Lemma countViewer_valid s b r :
  rep_valid r -> s.(kid) <> "" -> rep_valid (countViewer s b r).2 /\ (countViewer s b r).1.(kid) = s.(kid).
Proof.
  intros [] Hk. unfold countViewer. set (t := default _ _).
  assert (nonneg t.(total)) as [Ht1 Ht2].
  { subst t. destruct (viewers r !! kid s) eqn:Hv; [by destruct (rv_viewers0 _ _ Hv)|done]. }
  assert (forall b c v, 0 <= v -> 0 <= (count_bytes b c v).1) as Hcb.
  { intros b' c v Hv. unfold count_bytes. case_match; [|done]. cbn. unfold wrapu. apply Z.mod_pos_bound. lia. }
  pose proof (Hcb b.(bSent) s.(counted).(bSent) _ Ht1). pose proof (Hcb b.(bReceived) s.(counted).(bReceived) _ Ht2).
  destruct (count_bytes _ _ _), (count_bytes _ _ _). split; [|done]. split; cbn; auto.
  intros k u [[<- <-]|[_ ?]]%lookup_insert_Some; [|auto]. done.
Qed.

Section Valid.
Variable shuffle : list urecord -> list urecord.
Hypothesis shuffle_perm : forall l, shuffle l ≡ₚ l.

Definition world_valid (x : world) : Prop :=
  rep_valid x.(rep) /\ Forall valid (flying x) /\ Forall valid x.(answered) /\ 0 <= x.(now).

Lemma flush_take_valid t r all totals r' :
  rep_valid r -> 0 <= t -> flush_take shuffle t r = (all, totals, r') -> Forall valid all /\ rep_valid r'.
Proof using shuffle_perm.
  intros Hr Ht [= <- <- <-]. pose proof Hr as []. split.
  - repeat (apply Forall_app; split).
    + by apply Forall_filter_sub.
    + rewrite shuffle_perm. apply Forall_fmap, Forall_forall. intros [id rec] Hin%elem_of_map_to_list. cbn. eauto.
    + rewrite shuffle_perm. apply Forall_fmap, Forall_forall. intros [k rec] Hin%elem_of_map_to_list. cbn.
      rewrite map_lookup_imap in Hin. destruct (changed r !! k) as [v|] eqn:Hv; [|done]. injection Hin as <-.
      apply map_lookup_filter_Some in Hv as [Hv _]. destruct (rv_viewers0 _ _ Hv).
      apply valid_record; auto; apply metrics_nonneg || (right; apply metrics_nonneg); done.
    + by apply Forall_filter_sub.
  - split; cbn; auto. intros id rec Hl. by rewrite lookup_empty in Hl.
Qed.

Lemma acknowledge_valid batch totals r : rep_valid r -> rep_valid (acknowledge batch totals r).
Proof.
  unfold acknowledge. revert r. induction batch as [|rec batch IH]; intros r Hr; [done|]. cbn. apply IH.
  unfold acknowledge_one. case_bool_decide; [|done]. destruct (viewers r !! KID rec) eqn:Hv; [|done].
  destruct Hr. split; cbn; auto. intros k u [[<- <-]|[_ ?]]%lookup_insert_Some; [|auto]. exact (rv_viewers0 _ _ Hv).
Qed.

Lemma requeue_valid l r d r' : Forall valid l -> rep_valid r -> requeue l r = (d, r') -> rep_valid r'.
Proof.
  intros Hl Hr. unfold requeue. destruct (cap_events _) as [d' k] eqn:Hc. intros [= <- <-].
  assert (rep_valid (foldl requeue_one r l)) as [].
  { clear Hc. revert r Hr. induction Hl as [|rec l Hrec _ IH]; intros r Hr; [done|]. cbn. apply IH.
    unfold requeue_one. repeat (case_match; try done). destruct Hr. split; cbn; auto.
    intros id rec' [[<- <-]|[_ ?]]%lookup_insert_Some; eauto. }
  apply cap_events_eq in Hc. split; cbn; auto.
  assert (Forall valid (d' ++ k)) as Hf by (rewrite Hc; apply Forall_app; split; [by apply Forall_filter_sub|done]).
  by apply Forall_app in Hf as [_ ?].
Qed.

Lemma revalidated_valid id b live t r :
  rep_valid r -> 0 <= t -> nonneg b -> rep_valid (revalidated id b live t r).
Proof.
  intros Hr Ht Hb. unfold revalidated. destruct (sessions r !! id) as [s|] eqn:Hs; [|done].
  destruct (rv_sessions _ Hr _ _ Hs) as [Hid Hk]. set (s1 := if live then _ else s).
  assert (kid s1 = kid s) as Hk1 by (by destruct live).
  assert (forall r1 s2, rep_valid r1 -> kid s2 = kid s -> rep_valid (set_sessions (<[id := s2]> r1.(sessions)) r1)) as Hins.
  { intros r1 s2 [] Hs2. split; cbn; auto.
    intros j s' [[<- <-]|[_ Hj]]%lookup_insert_Some; [|by apply rv_sessions0 in Hj]. by rewrite Hs2. }
  destruct (negb (publishes s1)).
  - destruct (countViewer_valid s1 b r Hr ltac:(congruence)) as [Hv Hks]. destruct (countViewer s1 b r).
    apply Hins; [done|]. cbn in Hks. congruence.
  - apply Hins; [|done]. case_match; [|done]. destruct Hr. split; cbn; auto.
    intros j rec [[<- <-]|[_ ?]]%lookup_insert_Some; [|eauto].
    destruct (metrics_nonneg (since b (counted s1)) (since_nonneg _ _)).
    apply valid_record; [left; split_and!; [set_solver|done|done]|by cbn; rewrite Hk1|done|done|by right].
Qed.

Lemma close_valid id b reason t r ok d r' :
  rep_valid r -> 0 <= t -> close id b reason t r = (ok, d, r') -> rep_valid r'.
Proof.
  intros Hr Ht. unfold close. cbn [sessions set_closed]. destruct (sessions r !! id) as [s|] eqn:Hs.
  2: { intros [= <- <- <-]. by destruct Hr; split. }
  destruct (rv_sessions _ Hr _ _ Hs) as [Hid Hk]. set (r1 := set_sessions _ _).
  assert (rep_valid r1) as Hr1.
  { destruct Hr; split; cbn; auto. intros j s' [_ Hj]%lookup_delete_Some. eauto. }
  destruct (negb (publishes s)).
  - intros [= <- <- <-]. by apply countViewer_valid.
  - destruct (appendEvent _ _) as [d' r''] eqn:Ha. intros [= <- <- <-]. eapply appendEvent_valid; [exact Ha|..].
    + destruct (metrics_nonneg (since b (counted s)) (since_nonneg _ _)).
      apply valid_record; [left; split_and!; [set_solver|done|done]|done|done|done|by right].
    + destruct Hr1; split; cbn; auto. intros j rec [_ Hj]%lookup_delete_Some. eauto.
Qed.

Lemma exec_valid o x : op_ok o -> world_valid x -> world_valid (exec shuffle o x).
Proof using shuffle_perm.
  intros Ho (Hr & Hf & Ha & Hn). unfold exec, world_valid.
  destruct o as [id k pub|id|id b live|id b reason| | |oc|d]; cbn in Ho.
  - unfold open. destruct (closed (rep x) !! id); [done|]. destruct Ho as [Hid Hk].
    assert (rep_valid (set_sessions (<[id := mkSession k pub x.(now) no_bytes]> x.(rep).(sessions)) x.(rep))) as Hr1.
    { destruct Hr; split; cbn; auto. intros j s [[<- <-]|[_ ?]]%lookup_insert_Some; eauto. }
    destruct pub; [|done]. destruct (appendEvent _ _) as [d r'] eqn:Hap. split; [|done].
    eapply appendEvent_valid; [exact Hap| |done].
    apply valid_record; [left; split_and!; [set_solver|done|done]|done|done|done|by left].
  - unfold publishing. destruct (sessions (rep x) !! id) as [s|] eqn:Hs; [|done].
    destruct (rv_sessions _ Hr _ _ Hs) as [Hid Hk]. destruct (publishes s); [done|].
    destruct (appendEvent _ _) as [d r'] eqn:Hap. split; [|done]. eapply appendEvent_valid; [exact Hap|..].
    + apply valid_record; [left; split_and!; [set_solver|done|done]|done|done|done|by left].
    + destruct Hr; split; cbn; auto. intros j s' [[<- <-]|[_ ?]]%lookup_insert_Some; eauto.
  - split; [|done]. by apply revalidated_valid.
  - destruct (close _ _ _ _ _) as [[ok d] r'] eqn:Hc. split; [|done]. by eapply close_valid.
  - split; [|done]. destruct Hr; split; cbn; auto. intros j s [Hj _]%map_lookup_filter_Some. eauto.
  - destruct (flight x) eqn:Hfl; [unfold flying in *; rewrite Hfl in *; done|].
    destruct (flush_take _ _ _) as [[all totals] r'] eqn:Ht.
    by apply flush_take_valid in Ht as [? ?].
  - unfold flying in *. destruct (flight x) as [[[|e l] totals]|] eqn:Hfl; [done| |by rewrite Hfl].
    destruct oc.
    1,2: split_and!; [by apply acknowledge_valid|by apply Forall_drop|apply Forall_app; split;
      [done|by apply Forall_take]|done].
    destruct (requeue (e :: l) (rep x)) as [d r'] eqn:Hq. split_and!; [|constructor|done|done].
    exact (requeue_valid _ _ _ _ Hf Hr Hq).
  - split_and!; [done|done|done|]. cbn. lia.
Qed.

End Valid.

(** ** A publisher and a viewer, with one failed send *)

Definition ex_usage : list uop :=
  [Open "pub" "kid" true; Open "view" "kid" false; Revalidated "view" (mkBytes 10 5) true; FlushTake;
   Close "pub" (mkBytes 3 7) "closed"; FlushBatch Failed; Revalidated "view" (mkBytes 12 4) true;
   FlushTake; FlushBatch Accepted; FlushBatch Accepted].

Definition ex_world : world := world0 "run" 0.

Lemma id_perm (l : list urecord) : l ≡ₚ l.
Proof. done. Qed.


Lemma viewer_totals_exact_witness :
  total_of "kid" (exec_all (fun l => l) ex_usage ex_world).(rep) =
    mkBytes (wrapu 64 (credit "kid" bSent (ledger_all (fun l => l) ex_usage ex_world ∅)))
            (wrapu 64 (credit "kid" bReceived (ledger_all (fun l => l) ex_usage ex_world ∅))).
Proof.
  apply (viewer_totals_exact (fun l => l) id_perm "run" 0 ex_usage "kid"). vm_compute. reflexivity.
Defined.

Lemma closed_session_stays_closed_witness :
  (exec_all (fun l => l) [Open "pub" "kid" true; ForgetStale]
     (exec (fun l => l) (Close "pub" (mkBytes 1 1) "closed")
        (exec_all (fun l => l) [Open "pub" "kid" true] ex_world))).(rep).(sessions) !! "pub" = None.
Proof.
  apply (closed_session_stays_closed (fun l => l) id_perm "run" 0 [Open "pub" "kid" true] "pub" (mkBytes 1 1) "closed"
           [Open "pub" "kid" true; ForgetStale]); vm_compute; split || idtac; discriminate || reflexivity.
Defined.

Definition ex_reporter : usageReporter := (exec_all (fun l => l) [Open "pub" "kid" true] ex_world).(rep).

Lemma ex_reporter_ok : rep_ok ex_reporter.
Proof.
  apply (exec_all_ok (fun l => l) id_perm [Open "pub" "kid" true] ex_world (world0_ok "run" 0)).
Qed.

Lemma flush_sends_or_requeues_witness :
  exists ok batches dropped r',
    flush (fun l => l) (fun _ => Accepted) 0 ex_reporter = Some (ok, batches, dropped, r') /\
    Forall (fun b => (0 < length b <= maxBatchRecords)%nat /\ Accepted <> Failed) batches /\
    (if ok then
       concat batches ≡ₚ ex_reporter.(events) ++ (map_to_list ex_reporter.(latest)).*2 ++
         (map_to_list (map_imap (fun k v => Some (viewer_record ex_reporter.(runID) 0 k v)) (changed ex_reporter))).*2 /\
       r'.(events) = [] /\ r'.(latest) = ∅
     else ev (concat batches) ++ dropped ++ r'.(events) ≡ₚ ex_reporter.(events)).
Proof.
  apply (flush_sends_or_requeues (fun l => l) id_perm (fun _ => Accepted) 0 ex_reporter ex_reporter_ok).
Defined.

Definition ex_sent : urecord := mkRecord SessionOpen "pub" "" "kid" ∅ "" 0.

