(* ===== verification/GoURL.v ===== *)
(** * net/url: query strings

    [url.ParseQuery] and the two methods of its result the sources call. *)
From S2P Require Import Prelude GoStrings.

(** The value of a hexadecimal digit. *)
Definition unhex (c : ascii) : option nat :=
  let n := nat_of_ascii c in
  if (48 <=? n)%nat && (n <=? 57)%nat then Some (n - 48)%nat
  else if (97 <=? n)%nat && (n <=? 102)%nat then Some (n - 87)%nat
  else if (65 <=? n)%nat && (n <=? 70)%nat then Some (n - 55)%nat
  else None.

(** [url.QueryUnescape]: a percent escape is a byte and a plus sign a space. *)
Fixpoint QueryUnescape (s : string) : option string :=
  match s with
  | EmptyString => Some EmptyString
  | String "%" (String a (String b s')) =>
      x ← unhex a; y ← unhex b; r ← QueryUnescape s'; Some (String (ascii_of_nat (x * 16 + y)) r)
  | String "%" _ => None
  | String "+" s' => String " " <$> QueryUnescape s'
  | String c s' => String c <$> QueryUnescape s'
  end.

(** [strings.Cut(s, "=")] without its last result. *)
Fixpoint cut_eq (s : string) : string * string :=
  match s with
  | EmptyString => (EmptyString, EmptyString)
  | String "=" s' => (EmptyString, s')
  | String c s' => let '(a, b) := cut_eq s' in (String c a, b)
  end.

(** One [key=value] part: [None] is its error, [Some None] an empty part. *)
Definition parse_pair (part : string) : option (option (string * string)) :=
  if ContainsFunc (fun c => bool_decide (c = ";"%char)) part then None
  else if bool_decide (part = "") then Some None
  else let '(k, v) := cut_eq part in
       k ← QueryUnescape k; v ← QueryUnescape v; Some (Some (k, v)).

(** [url.ParseQuery]: the pairs in order, or [None] when any part is
    malformed. *)
Definition ParseQuery (query : string) : option (list (string * string)) :=
  omap (fun p => p) <$> mapM parse_pair (Split "&"%char query).

(** [Values.Has] and [Values.Get]. *)
Definition Has (key : string) (m : list (string * string)) : bool := existsb (fun p => bool_decide (p.1 = key)) m.

Definition Get (key : string) (m : list (string * string)) : string :=
  match List.find (fun p => bool_decide (p.1 = key)) m with Some (_, v) => v | None => "" end.

Example parse_query_jwt : ParseQuery "a=1&jwt=x%2Ey+z" = Some [("a", "1"); ("jwt", "x.y z")].
Proof. reflexivity. Qed.
Example parse_query_bad : ParseQuery "jwt=%2" = None /\ ParseQuery "a;b" = None /\ ParseQuery "" = Some [].
Proof. done. Qed.
