(* ===== verification/AuthVerifier.v ===== *)
(** * internal/auth: verifying sessions against a key set

    verifier.go, keyset.go, keysource.go, grant.go and the error type of
    auth.go. The outcome of an operating-system or network call is an argument
    of the operation that makes it. *)
From S2P Require Import Prelude GoStrings GoURL TokenPath TokenGrant GoTime Base64 TokenClaims TokenKey Token Usage.

#[local] Open Scope Z_scope.

(** ** Errors: auth.go *)

(** A [RefusedError] with its status, or any other error: the session could not
    be checked. [ErrNoCredential] is [errNoCredential]. *)
Inductive auth_error := Refused (status : Z) | NoCredential | Unavailable.

#[export] Instance auth_error_eq_dec : EqDecision auth_error.
Proof. solve_decision. Defined.

Definition StatusUnauthorized : Z := 401.
Definition StatusForbidden : Z := 403.
Definition StatusServiceUnavailable : Z := 503.

Definition RefusalStatus (err : auth_error) : Z :=
  match err with Refused status => status | _ => StatusServiceUnavailable end.

Definition is_refused (err : auth_error) : bool := match err with Refused _ => true | _ => false end.

(** ** Grants: grant.go *)

Record AuthGrant := mkAuthGrant {
  grant : Grant;
  revalidate : Duration;
  keyID : string;
  expires : Time;
  anonymous : bool
}.

Definition NewGrant (g : Grant) (every : Duration) : AuthGrant := mkAuthGrant g every "" zero_time false.

Definition no_grant : Grant := mkGrant (mkMoqGrant "" [] [] 0) [] [] [] "".

(** ** The key store: keysource.go *)

Definition keysMaxStale : Duration := 6 * Hour.
Definition revalidateEvery : Duration := 30 * Second.

Record keyStore := mkStore { set : option (gmap string Key); lastSuccess : Time }.

Definition emptyStore : keyStore := mkStore None zero_time.

Definition current (s : keyStore) (now : Time) : option (gmap string Key) * bool :=
  (s.(set), bool_decide (s.(set) <> None) && (time_Sub now s.(lastSuccess) <=? keysMaxStale)).

Definition replace (keys : gmap string Key) (now : Time) (s : keyStore) : keyStore := mkStore (Some keys) now.

Definition confirm (now : Time) (s : keyStore) : keyStore := mkStore s.(set) now.

Section Verifier.
Context `{Moqt} `{Crypto} `{JsonText}.
Variable int64_oor : float64 -> Z.

(** *** keyset.go *)

(** A [*[]jsontext.Value] field. *)
Definition as_values_ptr (o : option json) : option (option (list json)) :=
  match o with
  | None | Some JNull => Some None
  | Some (JArr l) => Some (Some l)
  | _ => None
  end.

Definition parseKeySet (raw : string) : option (gmap string Key) :=
  v ← unmarshal raw;
  m ← as_members v;
  keys ← as_values_ptr (member "keys" m);
  match keys with
  | None => None
  | Some [] => Some ∅
  | Some _ => match ParseKeySet raw with Ok keys => Some keys | Err _ => None end
  end.

(** *** File and URL sources *)

Record fileKeySource := mkFileSource { path : string; modTime : Time }.

(** [os.Stat] gave [stat] (the modification time) and [os.ReadFile] gave
    [read]; [None] is their error. *)
Definition file_refresh (stat : option Time) (read : option string) (now : Time)
    (f : fileKeySource) (s : keyStore) : bool * fileKeySource * keyStore :=
  match stat with
  | None => (false, f, s)
  | Some mt =>
      if bool_decide ((current s now).1 <> None) && (mt =? f.(modTime)) then (true, f, confirm now s)
      else match raw ← read; parseKeySet raw with
           | None => (false, f, s)
           | Some keys => (true, mkFileSource f.(path) mt, replace keys now s)
           end
  end.

(** The cache file: its content and modification time. *)
Record cacheFile := mkCacheFile { content : string; mtime : Time }.

Record urlKeySource := mkUrlSource { etag : string; cache : option (option cacheFile) }.

(** [start]: [cache] is [None] when none is configured, and [Some None] when
    the file can't be read. *)
Definition url_start (now : Time) (u : urlKeySource) (s : keyStore) : keyStore :=
  match u.(cache) with
  | Some (Some c) =>
      match parseKeySet c.(content) with
      | None => s
      | Some keys => replace keys (if now <? c.(mtime) then now else c.(mtime)) s
      end
  | _ => s
  end.

(** What the server answered a conditional GET: no answer, 304, 200 with its
    body and ETag, or another status. *)
Inductive response := NoResponse | NotModified | OK (body : option string) (tag : string) | OtherStatus.

Definition maxKeySetBytes : Z := 32 * 2 ^ 20.

(** [saveCache] and [touchCache]; [saved] says whether the write succeeded, at
    [now]. *)
Definition saveCache (raw : string) (now : Time) (saved : bool) (u : urlKeySource) : urlKeySource :=
  match u.(cache) with
  | None => u
  | Some _ => if saved then mkUrlSource u.(etag) (Some (Some (mkCacheFile raw now))) else u
  end.

Definition touchCache (now : Time) (touched : bool) (u : urlKeySource) : urlKeySource :=
  match u.(cache) with
  | Some (Some c) => if touched then mkUrlSource u.(etag) (Some (Some (mkCacheFile c.(content) now))) else u
  | _ => u
  end.

Definition url_refresh (resp : response) (saved : bool) (now : Time) (u : urlKeySource) (s : keyStore) :
    bool * urlKeySource * keyStore :=
  match resp with
  | NotModified => (true, touchCache now saved u, confirm now s)
  | OK (Some raw) tag =>
      if maxKeySetBytes <? Z.of_nat (String.length raw) then (false, u, s)
      else match parseKeySet raw with
           | None => (false, u, s)
           | Some keys => (true, saveCache raw now saved (mkUrlSource tag u.(cache)), replace keys now s)
           end
  | _ => (false, u, s)
  end.

(** *** Deciding: verifier.go *)

Definition publishesBroadcast (g : Grant) : bool := bool_decide (g.(Publish) <> []).

Definition credentialOf (rawQuery : string) : result auth_error string :=
  query ← of_option (Refused StatusUnauthorized) (ParseQuery rawQuery);
  guard_err (Has "jwt" query) NoCredential;;
  Ok (Get "jwt" query).

(** The grant and what usage remembers of its session: the key, and whether it
    publishes. *)
Definition decide_credential (credential : result auth_error string) (connect : bool)
    (paused : AuthGrant -> bool) (now : Time) (st : keyStore) : result auth_error (AuthGrant * (string * bool)) :=
  let '(keys, fresh) := current st now in
  keys ← of_option Unavailable keys;
  guard_err (negb (connect && negb fresh)) Unavailable;;
  credential ← credential;
  c ← map_err (fun e => match e with ErrForbidden => Refused StatusForbidden | ErrInvalid => Refused StatusUnauthorized end)
        (if connect then Verify int64_oor credential keys now else VerifyLive int64_oor credential keys now);
  let g := mkAuthGrant c.(v_Grant) revalidateEvery c.(v_Key).(ID) c.(v_ExpiresAt) false in
  guard_err (negb (Pauses c.(v_Key) ActionPublish && paused g)) (Refused StatusForbidden);;
  Ok (g, (c.(v_Key).(ID), publishesBroadcast c.(v_Grant))).

Inductive event := EventConnect | EventRevalidate | EventEnd.

#[global] Instance event_eq_dec : EqDecision event.
Proof. solve_decision. Defined.

(** The fields of a [Request] the verifier reads. *)
Record Request := mkRequest {
  req_ID : string;
  Event : event;
  Query : string;
  req_Bytes : Bytes;
  req_Reason : string
}.

Record Verifier := mkVerifier { store : keyStore; usage : option usageReporter }.

Definition with_usage (f : usageReporter -> usageReporter) (v : Verifier) : Verifier :=
  mkVerifier v.(store) (f <$> v.(usage)).

Definition anonymous_session (req : Request) (now : Time) (v : Verifier) : AuthGrant * Verifier :=
  (mkAuthGrant no_grant revalidateEvery "" zero_time true,
   if bool_decide (req.(Event) = EventRevalidate)
   then with_usage (revalidated req.(req_ID) req.(req_Bytes) true now) v else v).

Definition Authorize (req : Request) (now : Time) (v : Verifier) : result auth_error AuthGrant * Verifier :=
  let connect := bool_decide (req.(Event) = EventConnect) in
  match credentialOf req.(Query) with
  | Err NoCredential => let '(g, v') := anonymous_session req now v in (Ok g, v')
  | cred =>
      let d := decide_credential cred connect (fun g => connect && publishesBroadcast g.(grant)) now v.(store) in
      let v1 := match d with
                | Ok (_, (k, pub)) => if connect then with_usage (fun r => (open req.(req_ID) k pub now r).2) v else v
                | Err _ => v
                end in
      let refused := match d with Err e => is_refused e | Ok _ => false end in
      let v2 := if bool_decide (req.(Event) = EventRevalidate)
                then with_usage (revalidated req.(req_ID) req.(req_Bytes) (negb refused) now) v1 else v1 in
      (fst <$> d, v2)
  end.

Definition Check (credential : string) (action : Action) (broadcast : string) (now : Time) (v : Verifier) :
    result auth_error AuthGrant :=
  fst <$> decide_credential (Ok credential) true
    (fun g => (bool_decide (action = ActionCreate) || bool_decide (action = ActionPublish)) &&
              Allows g.(grant) action broadcast) now v.(store).

Definition Ticket (credential key : string) (published : bool) (now : Time) (v : Verifier) :
    result auth_error AuthGrant :=
  d ← decide_credential (Ok credential) true (fun g => negb published && publishesBroadcast g.(grant)) now v.(store);
  guard_err (negb (bool_decide (key = ""))) (Refused StatusForbidden);;
  guard_err (bool_decide (d.1.(keyID) = key)) (Refused StatusForbidden);;
  Ok d.1.

Definition FirstTicket (credential : string) (now : Time) (v : Verifier) : result auth_error AuthGrant :=
  fst <$> decide_credential (Ok credential) true (fun g => publishesBroadcast g.(grant)) now v.(store).

Definition Trusts (g : AuthGrant) (now : Time) (v : Verifier) : result auth_error bool :=
  keys ← of_option Unavailable (current v.(store) now).1;
  Ok (match keys !! g.(keyID) with Some key => Holds key g.(grant).(Root) | None => false end).

Definition Bind (id key : string) (pub : bool) (now : Time) (v : Verifier) : Verifier :=
  with_usage (fun r => (open id key pub now r).2) v.

Definition Verifier_Publishing (id : string) (now : Time) (v : Verifier) : Verifier :=
  with_usage (fun r => (publishing id now r).2) v.

Definition End_ (req : Request) (now : Time) (v : Verifier) : Verifier :=
  with_usage (fun r => (close req.(req_ID) req.(req_Bytes) req.(req_Reason) now r).2) v.

(** ** Properties *)

Definition store_ok (st : keyStore) : Prop := forall keys, st.(set) = Some keys -> keys_ok keys.

Lemma parseKeySet_ok raw keys : parseKeySet raw = Some keys -> keys_ok keys.
Proof.
  unfold parseKeySet. intros (v & _ & (m & _ & (o & _ & Hk)%bind_Some)%bind_Some)%bind_Some.
  destruct o as [[|j l]|]; [injection Hk as <-; apply map_Forall_empty| |done].
  destruct (ParseKeySet raw) eqn:Hp; [|done]. injection Hk as <-. by eapply parse_key_set_ok.
Qed.

Lemma verify_live_or_not (connect : bool) credential keys now :
  (if connect then Verify int64_oor credential keys now else VerifyLive int64_oor credential keys now) =
  verify int64_oor credential keys now connect.
Proof. by destruct connect. Qed.

(** What a verified credential's key holds. *)
Lemma verified_key keys credential now e c :
  keys_ok keys -> verify int64_oor credential keys now e = Ok c ->
  keys !! c.(v_Key).(ID) = Some c.(v_Key) /\ Holds c.(v_Key) c.(v_Grant).(Root) = true.
Proof.
  intros Hks (p0 & p1 & p2 & hv & hd & sig & v & m & cl & _ & _ & _ & _ & _ & Hk & _ & _
          & _ & _ & _ & _ & _ & Hg & _)%verify_inv.
  destruct (Hks _ _ Hk) as [Hid _]. rewrite Hid. split; [done|].
  apply claimed_grant_confined in Hg as [[Hr _]|[_ Hw]]; unfold Holds.
  - by rewrite Hr.
  - rewrite Hw. apply orb_true_r.
Qed.

(** Everything an admission checked. *)
Lemma decide_inv cred connect paused now st g u :
  decide_credential cred connect paused now st = Ok (g, u) ->
  exists keys credential c, st.(set) = Some keys /\ cred = Ok credential /\
    (connect = true -> time_Sub now st.(lastSuccess) <= keysMaxStale) /\
    verify int64_oor credential keys now connect = Ok c /\
    g = mkAuthGrant c.(v_Grant) revalidateEvery c.(v_Key).(ID) c.(v_ExpiresAt) false /\
    u = (c.(v_Key).(ID), publishesBroadcast c.(v_Grant)) /\
    (Pauses c.(v_Key) ActionPublish = true -> paused g = false).
Proof.
  unfold decide_credential, current. intros Hd.
  apply bind_Ok in Hd as (keys & Hk%of_option_Ok & Hd).
  apply bind_Ok in Hd as ([] & Hf%guard_err_Ok & Hd).
  apply bind_Ok in Hd as (credential & Hcr & Hd).
  apply bind_Ok in Hd as (c & Hv%map_err_Ok & Hd). rewrite verify_live_or_not in Hv.
  apply bind_Ok in Hd as ([] & Hp%guard_err_Ok & [= <- <-]).
  exists keys, credential, c. split_and!; try done.
  - intros ->. rewrite Hk in Hf. cbn in Hf. rewrite negb_involutive in Hf. by bool_prop.
  - intros Hps. rewrite Hps in Hp. by bool_prop.
Qed.

(** C7: A ticket is granted only under the session's own key. [Ticket] returns a
    grant only when the session has a key, that key is in a set no older than
    the fail-static limit, the ticket is signed by it and stays within its
    prefix, and a key paused for publishing gives a publishing grant only to a
    session that published already; and a grant [Ticket] returns is one
    [Trusts] keeps in force on the same set. *)
Theorem Ticket_sound credential key published now v g :
  store_ok v.(store) -> Ticket credential key published now v = Ok g ->
  key <> "" /\ g.(keyID) = key /\ g.(anonymous) = false /\
  exists keys k, v.(store).(set) = Some keys /\ keys !! key = Some k /\
    time_Sub now v.(store).(lastSuccess) <= keysMaxStale /\ Holds k g.(grant).(Root) = true /\
    (Pauses k ActionPublish = true -> publishesBroadcast g.(grant) = true -> published = true) /\
    Trusts g now v = Ok true.
Proof.
  intros Hst Ht. unfold Ticket in Ht. apply bind_Ok in Ht as ([g' u] & Hd & Ht).
  apply bind_Ok in Ht as ([] & Hne%guard_err_Ok & Ht). apply bind_Ok in Ht as ([] & Hid%guard_err_Ok & [= <-]).
  bool_prop. apply decide_inv in Hd as (keys & cr & c & Hs & _ & Hf & Hv & -> & _ & Hp).
  cbn in *. destruct (verified_key _ _ _ _ _ (Hst _ Hs) Hv) as [Hk Hh]. rewrite Hid in Hk.
  split_and!; try done. exists keys, (v_Key c). split_and!; auto.
  - intros Hps Hpub. specialize (Hp Hps). rewrite Hpub, andb_true_r in Hp. by bool_prop.
  - unfold Trusts, current. cbn. rewrite Hs. cbn. by rewrite Hid, Hk, Hh.
Qed.

(** Fail-static. A key set older than the limit admits no session, and it is
    not a refusal: the client is told to try again. A live session's re-check
    does not depend on the set's age at all. *)
Theorem stale_set_fails_static cred paused now keys t :
  keysMaxStale < time_Sub now t ->
  decide_credential cred true paused now (mkStore (Some keys) t) = Err Unavailable /\
  RefusalStatus Unavailable = StatusServiceUnavailable /\
  forall t', decide_credential cred false paused now (mkStore (Some keys) t) =
             decide_credential cred false paused now (mkStore (Some keys) t').
Proof.
  intros Hs. split_and!; [|done|].
  - unfold decide_credential, current. cbn.
    replace (time_Sub now t <=? keysMaxStale) with false by (symmetry; by apply Z.leb_gt). done.
  - intros t'. done.
Qed.

(** A credential whose key left the set is invalid at any time. *)
Lemma verify_withdrawn credential keys now e c now' e' :
  keys_ok keys -> verify int64_oor credential keys now e = Ok c ->
  verify int64_oor credential (delete c.(v_Key).(ID) keys) now' e' = Err ErrInvalid.
Proof.
  intros Hks (p0 & p1 & p2 & hv & hd & sig & v & m & cl & Hsp & Hd0 & Hh & Hcr & Halg & Hk & _)%verify_inv.
  destruct (Hks _ _ Hk) as [Hid _]. unfold verify. rewrite Hsp, Hd0. cbn [of_option mbind result_bind].
  rewrite Hh. cbn [of_option mbind result_bind]. rewrite Hcr, Halg, !guard_true by done.
  rewrite Hid, lookup_delete_eq. done.
Qed.

(** Withdrawing a key ends its sessions. A session admitted with a
    credential is refused with 401 at its next re-check, whenever that is, once
    the key that signed the credential has left the set. *)
Theorem withdrawn_key_ends_session cred connect paused now st g u keys now' t' :
  store_ok st -> st.(set) = Some keys ->
  decide_credential cred connect paused now st = Ok (g, u) ->
  decide_credential cred false paused now' (mkStore (Some (delete g.(keyID) keys)) t') =
    Err (Refused StatusUnauthorized).
Proof.
  intros Hst Hset Hd. apply decide_inv in Hd as (keys' & credential & c & Hs & -> & _ & Hv & -> & _).
  assert (keys' = keys) as -> by congruence.
  unfold decide_credential, current. cbn. unfold VerifyLive.
  by rewrite (verify_withdrawn _ _ _ _ _ now' false (Hst _ Hset) Hv).
Qed.

(** Changing what the keys of a set pause. *)
Definition repause (f : Key -> list Action) (k : Key) : Key := mkKey k.(ID) k.(Public) k.(Prefix) (f k).

Lemma verify_repause f credential keys now e :
  verify int64_oor credential (repause f <$> keys) now e =
  (fun c => mkVerified c.(v_Grant) c.(v_ExpiresAt) c.(v_ID) (repause f c.(v_Key))) <$>
    verify int64_oor credential keys now e.
Proof.
  unfold verify. destruct (Split dot credential) as [|p0 [|p1 [|p2 [|]]]]; try done.
  destruct (decodeSegment p0) as [hv|]; cbn [of_option mbind result_bind]; [|done].
  destruct (as_header hv) as [hd|]; cbn [of_option mbind result_bind]; [|done].
  do 2 (match goal with |- context [guard_err ?b _] => destruct b; cbn [guard_err mbind result_bind]; [|done] end).
  rewrite lookup_fmap. destruct (keys !! Kid hd) as [k|]; cbn [fmap option_fmap option_map of_option mbind result_bind]; [|done].
  cbn [repause Public Prefix].
  match goal with |- context [guard_err ?b _] => destruct b; cbn [guard_err mbind result_bind]; [|done] end.
  destruct (decodeSegment p1) as [v|]; cbn [of_option mbind result_bind]; [|done].
  destruct (as_members v) as [m|]; cbn [of_option mbind result_bind]; [|done].
  match goal with |- context [guard_err ?b _] => destruct b; cbn [guard_err mbind result_bind]; [|done] end.
  destruct (as_claims v) as [cl|]; cbn [of_option mbind result_bind]; [|done].
  destruct (checkTime _ cl now e); cbn [mbind result_bind]; [|done].
  by destruct (claimed_grant m cl (Prefix k)).
Qed.

(** A pause stops what is new, never what is on air: a live session's
    re-check gives the same answer, whatever any key of the set pauses. *)
Theorem pause_spares_live_sessions f req now keys t r :
  req.(Event) = EventRevalidate ->
  (Authorize req now (mkVerifier (mkStore (Some (repause f <$> keys)) t) r)).1 =
  (Authorize req now (mkVerifier (mkStore (Some keys) t) r)).1.
Proof.
  intros He. unfold Authorize. rewrite He. cbn [store]. rewrite bool_decide_false by done.
  assert (forall cred, fst <$> decide_credential cred false (fun g => false && publishesBroadcast g.(grant)) now
            (mkStore (Some (repause f <$> keys)) t) =
          fst <$> decide_credential cred false (fun g => false && publishesBroadcast g.(grant)) now
            (mkStore (Some keys) t)) as Hd.
  { intros cred. unfold decide_credential, current. cbn. destruct cred; cbn; [|done].
    unfold VerifyLive. rewrite verify_repause. destruct (verify _ _ keys now false) as [c|]; cbn; [|done].
    by rewrite !andb_false_r. }
  destruct (credentialOf (Query req)) as [c|[| |]]; cbn [fst]; [apply Hd|apply Hd|done|apply Hd].
Qed.

(** *** Refreshing the key set *)

(** One refresh of either source. *)
Inductive refreshed (now : Time) (s : keyStore) : bool -> keyStore -> Prop :=
| refreshed_file stat read f ok f' s' :
    file_refresh stat read now f s = (ok, f', s') -> refreshed now s ok s'
| refreshed_url resp saved u ok u' s' :
    url_refresh resp saved now u s = (ok, u', s') -> refreshed now s ok s'.

(** A refresh either keeps the store as it is, or leaves a store confirmed
    now whose set is the one it had or a well-formed set just read; so a source
    that fails, in any way, changes nothing, and the sets in use are always well
    formed. *)
Theorem refresh_keeps_or_renews now s ok s' :
  store_ok s -> refreshed now s ok s' ->
  store_ok s' /\ if ok then s'.(lastSuccess) = now /\ (s'.(set) = s.(set) \/ s'.(set) <> None) else s' = s.
Proof.
  intros Hs [stat read f ok' f' s'' Hr|resp saved u ok' u' s'' Hr].
  - unfold file_refresh in Hr. destruct stat as [mt|]; [|by injection Hr as <- <- <-].
    case_match; [injection Hr as <- <- <-; split; [done|]; split; [done|by left]|].
    destruct (raw ← read; parseKeySet raw) as [keys|] eqn:Hk; injection Hr as <- <- <-; [|done].
    apply bind_Some in Hk as (raw & _ & Hk). split; [|split; [done|by right]].
    intros k [= <-]. by eapply parseKeySet_ok.
  - unfold url_refresh in Hr. destruct resp as [| |[raw|] tag|]; try (injection Hr as <- <- <-; done).
    + injection Hr as <- <- <-. split; [done|]. split; [done|by left].
    + case_match; [by injection Hr as <- <- <-|].
      destruct (parseKeySet raw) as [keys|] eqn:Hk; injection Hr as <- <- <-; [|done].
      split; [|split; [done|by right]]. intros k [= <-]. by eapply parseKeySet_ok.
Qed.

(** A run of a URL source whose cache writes succeed: the answers in order, each
    with its time. *)
Fixpoint url_run (l : list (response * Time)) (u : urlKeySource) (s : keyStore) : urlKeySource * keyStore :=
  match l with
  | [] => (u, s)
  | (resp, now) :: l' => let '(_, u', s') := url_refresh resp true now u s in url_run l' u' s'
  end.

(** The cache holds the store's set, dated when it was last confirmed. *)
Definition mirrors (u : urlKeySource) (s : keyStore) : Prop :=
  match s.(set) with
  | None => u.(cache) = Some None
  | Some keys => exists c, u.(cache) = Some (Some c) /\ parseKeySet c.(content) = Some keys /\
                           c.(mtime) = s.(lastSuccess)
  end.

Lemma url_refresh_mirrors resp now u s ok u' s' :
  mirrors u s -> url_refresh resp true now u s = (ok, u', s') -> mirrors u' s'.
Proof.
  intros Hm Hr. unfold url_refresh in Hr. destruct resp as [| |[raw|] tag|]; try (by injection Hr as <- <- <-).
  - injection Hr as <- <- <-. unfold mirrors, touchCache, confirm in *. cbn. destruct (set s).
    + destruct Hm as (c & -> & Hp & _). cbn. eauto.
    + by rewrite Hm.
  - case_match; [by injection Hr as <- <- <-|].
    destruct (parseKeySet raw) as [keys|] eqn:Hk; injection Hr as <- <- <-; [|done].
    unfold mirrors, saveCache in *. cbn. destruct (set s).
    + destruct Hm as (c & -> & _). cbn. eauto.
    + rewrite Hm. cbn. eauto.
Qed.

(** The fail-static limit holds across restarts: after any run of a URL
    source that kept its cache, a relay started from that cache at a later time
    has the set the run ended with, dated as it was, so it admits sessions
    exactly when the relay that stopped would have. *)
Theorem restart_from_cache l now u s :
  url_run l (mkUrlSource "" (Some None)) emptyStore = (u, s) -> s.(set) <> None -> s.(lastSuccess) <= now ->
  current (url_start now (mkUrlSource "" u.(cache)) emptyStore) now = current s now.
Proof.
  intros Hrun Hset Hle. assert (mirrors u s) as Hm.
  { assert (mirrors (mkUrlSource "" (Some None)) emptyStore) as H0' by done. revert Hrun H0'.
    generalize (mkUrlSource "" (Some None)), emptyStore. clear Hset Hle.
    induction l as [|[resp t] l IH]; intros u0 s0 Hrun Hm; cbn in Hrun; [by injection Hrun as <- <-|].
    destruct (url_refresh resp true t u0 s0) as [[ok u1] s1] eqn:Hr.
    eapply IH; [exact Hrun|]. by eapply url_refresh_mirrors. }
  unfold mirrors in Hm. destruct (set s) as [keys|] eqn:Hk; [|done]. destruct Hm as (c & Hc & Hp & Ht).
  unfold url_start. cbn. rewrite Hc, Hp, Ht.
  replace (now <? lastSuccess s) with false by (symmetry; by apply Z.ltb_ge).
  unfold current. cbn. by rewrite Hk.
Qed.
End Verifier.
