(* ===== verification/AuthExample.v ===== *)
(** * A worked example of the verifier

    The token example's key and token, presented to a verifier: the witnesses of
    the theorems of AuthVerifier.v. *)
From S2P Require Import Prelude GoStrings TokenPath TokenGrant GoTime Base64 TokenClaims TokenKey Token.
From S2P Require Import TokenExample Usage GoURL AuthVerifier.

#[local] Open Scope Z_scope.
#[local] Existing Instances literal_moqt toy_crypto toy_json.

Definition acme_store : keyStore := mkStore (Some acme_keys) signed_at.
Definition acme_verifier : Verifier := mkVerifier acme_store None.
Definition acme_grant : AuthGrant :=
  mkAuthGrant room_grant revalidateEvery acme_public.(ID) (1700000600 * Second) false.

Lemma acme_store_ok : store_ok acme_store.
Proof. intros keys [= <-]. apply map_Forall_singleton, acme_public_ok. Qed.

Lemma Ticket_sound_witness :
  acme_public.(ID) <> "" /\ acme_grant.(keyID) = acme_public.(ID) /\ acme_grant.(anonymous) = false /\
  exists keys k, acme_store.(set) = Some keys /\ keys !! acme_public.(ID) = Some k /\
    time_Sub signed_at acme_store.(lastSuccess) <= keysMaxStale /\ Holds k acme_grant.(grant).(Root) = true /\
    (Pauses k ActionPublish = true -> publishesBroadcast acme_grant.(grant) = true -> false = true) /\
    Trusts acme_grant signed_at acme_verifier = Ok true.
Proof.
  apply (Ticket_sound oor acme_token acme_public.(ID) false signed_at acme_verifier acme_grant acme_store_ok).
  vm_compute. reflexivity.
Defined.

Lemma stale_set_fails_static_witness :
  decide_credential oor (Ok acme_token) true (fun _ => false) (signed_at + 7 * Hour) acme_store = Err Unavailable /\
  RefusalStatus Unavailable = StatusServiceUnavailable /\
  forall t', decide_credential oor (Ok acme_token) false (fun _ => false) (signed_at + 7 * Hour) acme_store =
             decide_credential oor (Ok acme_token) false (fun _ => false) (signed_at + 7 * Hour)
               (mkStore (Some acme_keys) t').
Proof.
  apply (stale_set_fails_static oor (Ok acme_token) (fun _ => false) (signed_at + 7 * Hour) acme_keys signed_at).
  vm_compute. reflexivity.
Defined.

Lemma withdrawn_key_ends_session_witness :
  decide_credential oor (Ok acme_token) false (fun _ => false) (signed_at + Minute)
    (mkStore (Some (delete acme_public.(ID) acme_keys)) signed_at) = Err (Refused StatusUnauthorized).
Proof.
  apply (withdrawn_key_ends_session oor (Ok acme_token) true (fun _ => false) signed_at acme_store acme_grant
           (acme_public.(ID), true) acme_keys (signed_at + Minute) signed_at acme_store_ok eq_refl).
  vm_compute. reflexivity.
Defined.

Definition acme_recheck : Request :=
  mkRequest "id" EventRevalidate ("jwt=" +:+ acme_token) (mkBytes 0 0) "".

Lemma pause_spares_live_sessions_witness :
  (Authorize oor acme_recheck signed_at
     (mkVerifier (mkStore (Some (repause (fun _ => [ActionPublish]) <$> acme_keys)) signed_at) None)).1 =
  (Authorize oor acme_recheck signed_at (mkVerifier (mkStore (Some acme_keys) signed_at) None)).1.
Proof. apply (pause_spares_live_sessions oor (fun _ => [ActionPublish]) acme_recheck). reflexivity. Defined.

(** The re-check admits the session, paused key or not. *)
Example acme_recheck_admitted : (Authorize oor acme_recheck signed_at acme_verifier).1 = Ok acme_grant.
Proof. vm_compute. reflexivity. Qed.

Lemma restart_from_cache_witness :
  current (url_start 9 (mkUrlSource "" (Some (Some (mkCacheFile "keys" 7)))) emptyStore) 9 =
  current (mkStore (Some acme_keys) 7) 9.
Proof.
  apply (restart_from_cache [(OK (Some "keys") "tag", 5); (NoResponse, 6); (NotModified, 7)] 9
           (mkUrlSource "tag" (Some (Some (mkCacheFile "keys" 7)))) (mkStore (Some acme_keys) 7)).
  - vm_compute. reflexivity.
  - done.
  - cbn. lia.
Defined.
