(* ===== verification/AdmitSession.v ===== *)
(** * internal/relay/admit.go: the handlers of a session's credentials

    A session answers each credential presented on it with a handler of its own
    ([ServeAuth]), and the handlers run concurrently. They share the session's
    [heldGrants] and [rootHolds], each under its mutex, and two atomics. A
    handler is a program counter ([pc]) that makes one locked call or atomic
    operation per step, in the order of [serveTicket] and [serveConnection].
    The relay's verifier is an interface ([TicketVerifier]), which
    AuthVerifier.v implements. *)
From S2P Require Import Prelude GoStrings TokenPath TokenGrant GoTime Base64 TokenClaims TokenKey Token.
From S2P Require Import Usage GoURL AuthVerifier RootHolds.

#[local] Open Scope Z_scope.

(** ** The grants a session is given *)

Definition moqGrant (tg : Grant) : MoqGrant :=
  if bool_decide (tg.(Publish) = []) && bool_decide (tg.(Subscribe) = []) then mkMoqGrant "" [] [] 0
  else mkMoqGrant tg.(Root) tg.(Publish) tg.(Subscribe) 0.

Definition grantsSomething (g : MoqGrant) : bool :=
  nonempty g.(Publish) || nonempty g.(Subscribe).

Definition lapsesAt (g : AuthGrant) : Time :=
  if IsZero g.(expires) then zero_time else time_Add g.(expires) Leeway.

Definition maxCredentials : Z := 33.

(** ** heldGrants *)

(** [h_pending] is whether the session is counted in the server's pending
    anonymous sessions, [expire] whether the deadline is watched, [timer] the
    identity of the current [time.Timer], and [closedFor] whether the deadline
    closed the session. *)
Record heldGrants := mkHeld {
  key : string;
  opened : bool;
  h_publishes : bool;
  inFlight : Z;
  live : Z;
  h_pending : bool;
  wait : Duration;
  expire : bool;
  timer : option nat;
  closedFor : bool
}.

Definition newHeld (pending : bool) : heldGrants := mkHeld "" false false 0 0 pending 0 false None false.

Definition boundKey (h : heldGrants) : string := h.(key).

(** [admission.beginTicket]. *)
Definition bindTicket (kid : string) (h : heldGrants) : bool * heldGrants :=
  let bound k := mkHeld k h.(opened) h.(h_publishes) (h.(inFlight) + 1) h.(live) h.(h_pending) h.(wait)
                   h.(expire) h.(timer) h.(closedFor) in
  if bool_decide (h.(key) = "") then (true, bound kid)
  else if bool_decide (h.(key) = kid) then (true, bound h.(key))
  else (false, h).

Definition settleRefused (h : heldGrants) : heldGrants :=
  let n := h.(inFlight) - 1 in
  mkHeld (if negb h.(opened) && (n =? 0) then "" else h.(key)) h.(opened) h.(h_publishes) n h.(live)
    h.(h_pending) h.(wait) h.(expire) h.(timer) h.(closedFor).

(** The calls [settleGranted] makes: [open] (the verifier's [Bind]) and
    [publishing] (its [Publishing]). *)
Inductive call := CallBind (kid : string) (pub : bool) | CallPublishing.

Definition settleGranted (kid : string) (pub : bool) (h : heldGrants) : list call * heldGrants :=
  let settled op pb := mkHeld h.(key) op pb (h.(inFlight) - 1) h.(live) h.(h_pending) h.(wait) h.(expire)
                         h.(timer) h.(closedFor) in
  if negb h.(opened) then ([CallBind kid pub], settled true pub)
  else if pub && negb h.(h_publishes) then ([CallPublishing], settled h.(opened) true)
  else ([], settled h.(opened) h.(h_publishes)).

(** [releasePendingLocked], on the server's count. *)
Definition releasePending (h : heldGrants) (count : Z) : heldGrants * Z :=
  if h.(h_pending) then
    (mkHeld h.(key) h.(opened) h.(h_publishes) h.(inFlight) h.(live) false h.(wait) h.(expire) h.(timer)
       h.(closedFor), count - 1)
  else (h, count).

Definition add_live (d : Z) (h : heldGrants) : heldGrants :=
  mkHeld h.(key) h.(opened) h.(h_publishes) h.(inFlight) (h.(live) + d) h.(h_pending) h.(wait) h.(expire)
    h.(timer) h.(closedFor).

(** [holding]. Stopping a timer does not stop its function when it is already
    waiting for the mutex, so [Stop] is not modelled: any timer may fire. *)
Definition holding (h : heldGrants) (count : Z) : heldGrants * Z := releasePending (add_live 1 h) count.

(** [armLocked] at [now], with the new timer's identity: the timers and their
    deadlines. *)
Definition armLocked (now : Time) (h : heldGrants) (timers : gmap nat Time) : heldGrants * gmap nat Time :=
  let t := fresh (dom timers) in
  (mkHeld h.(key) h.(opened) h.(h_publishes) h.(inFlight) h.(live) h.(h_pending) h.(wait) h.(expire) (Some t)
     h.(closedFor), <[t := now + h.(wait)]> timers).

Definition released (now : Time) (h : heldGrants) (timers : gmap nat Time) : heldGrants * gmap nat Time :=
  let h1 := add_live (-1) h in
  if (h1.(live) =? 0) && h1.(expire) then armLocked now h1 timers else (h1, timers).

Definition watch (w : Duration) (now : Time) (h : heldGrants) (timers : gmap nat Time) :
    heldGrants * gmap nat Time :=
  let h1 := mkHeld h.(key) h.(opened) h.(h_publishes) h.(inFlight) h.(live) h.(h_pending) w true h.(timer)
              h.(closedFor) in
  if h1.(live) =? 0 then armLocked now h1 timers else (h1, timers).

(** The timer's function; the flag says that it closes the session. *)
Definition fire (t : nat) (h : heldGrants) : bool * heldGrants :=
  if negb (bool_decide (h.(timer) = Some t)) || (0 <? h.(live)) || negb h.(expire) then (false, h)
  else (true, mkHeld h.(key) h.(opened) h.(h_publishes) h.(inFlight) h.(live) h.(h_pending) h.(wait) false
                h.(timer) true).

Definition unwatch (h : heldGrants) (count : Z) : heldGrants * Z :=
  releasePending (mkHeld h.(key) h.(opened) h.(h_publishes) h.(inFlight) h.(live) h.(h_pending) h.(wait) false
                    h.(timer) h.(closedFor)) count.

(** [reservePending]: whether another anonymous session is taken, and the
    server's count. *)
Definition reservePending (max count : Z) : bool * Z :=
  if max <? count + 1 then (false, count) else (true, count + 1).

(** ** The verifier's interface *)

Class TicketVerifier (V : Type) := {
  tv_Ticket : string -> string -> bool -> Time -> V -> result auth_error AuthGrant;
  tv_FirstTicket : string -> Time -> V -> result auth_error AuthGrant;
  tv_good : V -> Prop
}.

(** What the relay relies on: a ticket is granted under the key it was asked
    for, and a key has a name. *)
Class TicketVerifierLaws (V : Type) `{TicketVerifier V} := {
  ticket_key c k p now v g : tv_good v -> tv_Ticket c k p now v = Ok g -> g.(keyID) = k /\ k <> "";
  first_ticket_key c now v g : tv_good v -> tv_FirstTicket c now v = Ok g -> g.(keyID) <> ""
}.

(** ** The session *)

(** Where a [serveTicket] handler is: each names the call it makes next. *)
Inductive pc :=
| PBind        (* a.beginTicket *)
| PBegin       (* a.roots.beginTicket *)
| PMark        (* a.published.Store *)
| PReplaced    (* a.roots.replaced *)
| PAbandon     (* a.roots.abandonTicket *)
| PRefuse      (* a.settleRefused *)
| PGrant       (* w.Grant *)
| PRegister    (* a.roots.registerTicket *)
| PHolding     (* a.holding *)
| PSettle      (* a.settleRefused or a.settleGranted *)
| PHold        (* hold *)
| PReleased    (* the deferred a.released *)
| PRelease     (* the deferred release *)
| PLeave.      (* the deferred a.credentials.Add(-1) *)

#[export] Instance pc_eq_dec : EqDecision pc.
Proof. solve_decision. Defined.

(** Where a [serveConnection] handler is. *)
Inductive cpc := CRegister | CCheck | CMark | CGrant | CHolding | CHold | CReleased | CRelease | CLeave.

(** A ticket's handler has its verified grant, its withdrawal once begun, the
    [current] of its registration, and whether [released] is deferred; the
    connection's has the identity of its registration. *)
Inductive handler :=
| TicketH (tg : AuthGrant) (w : option withdrawal) (p : pc) (cur hold : bool)
| ConnH (p : cpc) (reg : option nat) (hold : bool).

(** [roots] is the session's [rootHolds] together with the tickets that are
    registered or being granted (RootHolds.v). *)
Record session := mkSession {
  held_grants : heldGrants;
  published : bool;
  credentials : Z;
  roots : holds;
  handlers : gmap nat handler;
  calls : list call
}.

Section Session.
(** The grant the session was admitted with. *)
Variable sess : AuthGrant.

Definition anon : bool := sess.(anonymous).

(** Replaces a handler, or ends it. *)
Definition set_handler (i : nat) (o : option handler) (s : session) : session :=
  mkSession s.(held_grants) s.(published) s.(credentials) s.(roots) (partial_alter (fun _ => o) i s.(handlers))
    s.(calls).
Definition set_held h (s : session) : session :=
  mkSession h s.(published) s.(credentials) s.(roots) s.(handlers) s.(calls).
Definition set_roots r (s : session) : session :=
  mkSession s.(held_grants) s.(published) s.(credentials) r s.(handlers) s.(calls).
Definition add_calls l (s : session) : session :=
  mkSession s.(held_grants) s.(published) s.(credentials) s.(roots) s.(handlers) (s.(calls) ++ l).
Definition set_published (b : bool) (s : session) : session :=
  mkSession s.(held_grants) (b || s.(published)) s.(credentials) s.(roots) s.(handlers) s.(calls).
Definition add_credential (d : Z) (s : session) : session :=
  mkSession s.(held_grants) s.(published) (s.(credentials) + d) s.(roots) s.(handlers) s.(calls).

(** The operations of [rootHolds], with the tickets they begin and end. *)
Definition roots_begin (root : string) (role : rootRole) (x : holds) : withdrawal * holds :=
  let '(h, r) := beginTicket root role x.(rh) in
  (h, mkHolds r (<[h.(ptr) := h]> x.(pend)) x.(held) x.(cheld)).
Definition roots_abandon (h : withdrawal) (x : holds) : holds :=
  mkHolds (abandonTicket h x.(rh)) (delete h.(ptr) x.(pend)) x.(held) x.(cheld).
Definition roots_register (h : withdrawal) (x : holds) : bool * holds :=
  let '(b, r) := registerTicket h x.(rh) in
  (b, mkHolds r (delete h.(ptr) x.(pend)) (if b then <[h.(ptr) := h]> x.(held) else x.(held)) x.(cheld)).
Definition roots_release (h : withdrawal) (x : holds) : holds :=
  mkHolds (releaseTicket h x.(rh)) x.(pend) (delete h.(ptr) x.(held)) x.(cheld).
Definition roots_present (x : holds) : option nat * holds :=
  match registerConnection x.(rh) with
  | (Some p, r) => (Some p, mkHolds r x.(pend) x.(held) ({[p]} ∪ x.(cheld)))
  | (None, _) => (None, x)
  end.
Definition roots_unpresent (p : nat) (x : holds) : holds :=
  mkHolds (releaseConnection p x.(rh)) x.(pend) x.(held) (x.(cheld) ∖ {[p]}).

(** One step of [serveTicket]; [granted] is the result of [w.Grant]. The
    server's count of pending sessions and the deadline's timers are kept with
    [heldGrants] (section Deadline), so [holding] and [released] only count
    here. *)
Definition ticket_step (granted : bool) (i : nat) (tg : AuthGrant) (w : option withdrawal) (p : pc)
    (cur hold : bool) (s : session) : session :=
  let go p' s' := set_handler i (Some (TicketH tg w p' cur hold)) s' in
  let g := moqGrant tg.(grant) in
  match p, w with
  | PBind, _ =>
      if anon then
        let '(ok, h) := bindTicket tg.(keyID) s.(held_grants) in
        go (if ok then PBegin else PLeave) (set_held h s)
      else go PBegin s
  | PBegin, _ =>
      let '(h, r) := roots_begin tg.(grant).(Root) (roleOf tg.(grant)) s.(roots) in
      set_handler i (Some (TicketH tg (Some h) PMark cur hold)) (set_roots r s)
  | PMark, _ => go PReplaced (set_published (nonempty g.(Publish)) s)
  | PReplaced, Some h => go (if replaced h s.(roots).(rh) then PAbandon else PGrant) s
  | PAbandon, Some h => go (if anon then PRefuse else PLeave) (set_roots (roots_abandon h s.(roots)) s)
  | PRefuse, _ => go PLeave (set_held (settleRefused s.(held_grants)) s)
  | PGrant, _ => go (if granted then PRegister else PAbandon) s
  | PRegister, Some h =>
      let '(b, r) := roots_register h s.(roots) in
      set_handler i (Some (TicketH tg w PHolding b hold)) (set_roots r s)
  | PHolding, _ =>
      if cur && grantsSomething g then
        set_handler i (Some (TicketH tg w PSettle cur true)) (set_held (add_live 1 s.(held_grants)) s)
      else go PSettle s
  | PSettle, _ =>
      let pub := cur && nonempty g.(Publish) in
      let s1 :=
        if anon && negb cur then set_held (settleRefused s.(held_grants)) s
        else if anon then
          let '(cs, h) := settleGranted tg.(keyID) pub s.(held_grants) in add_calls cs (set_held h s)
        else if pub then add_calls [CallPublishing] s else s in
      go (if cur then PHold else PReleased) s1
  | PHold, _ => go PReleased s
  | PReleased, _ =>
      set_handler i (Some (TicketH tg w PRelease cur false))
        (if hold then set_held (add_live (-1) s.(held_grants)) s else s)
  | PRelease, Some h =>
      go PLeave (if cur then set_roots (roots_release h s.(roots)) s else s)
  | PLeave, _ => set_handler i None (add_credential (-1) s)
  | _, None => s
  end.

(** One step of [serveConnection] once the admission is decided and the
    credential has not lapsed. *)
Definition conn_step (granted : bool) (i : nat) (p : cpc) (reg : option nat) (hold : bool) (s : session) : session :=
  let go p' s' := set_handler i (Some (ConnH p' reg hold)) s' in
  let g := moqGrant sess.(grant) in
  match p with
  | CRegister =>
      if bool_decide (sess.(grant).(Root) = "") then go CMark s
      else match roots_present s.(roots) with
           | (Some q, r) => set_handler i (Some (ConnH CCheck (Some q) hold)) (set_roots r s)
           | (None, r) => go CLeave (set_roots r s)
           end
  | CCheck =>
      go (match reg with
          | Some q => if bool_decide (q ∈ s.(roots).(rh).(withdrawn)) then CRelease else CMark
          | None => CMark
          end) s
  | CMark => go CGrant (set_published (nonempty g.(Publish)) s)
  | CGrant => go (if granted then CHolding else CRelease) s
  | CHolding =>
      if grantsSomething g then
        set_handler i (Some (ConnH CHold reg true)) (set_held (add_live 1 s.(held_grants)) s)
      else go CHold s
  | CHold => go CReleased s
  | CReleased =>
      set_handler i (Some (ConnH CRelease reg false))
        (if hold then set_held (add_live (-1) s.(held_grants)) s else s)
  | CRelease =>
      go CLeave (match reg with Some q => set_roots (roots_unpresent q s.(roots)) s | None => s end)
  | CLeave => set_handler i None (add_credential (-1) s)
  end.

Definition handler_step (granted : bool) (i : nat) (s : session) : session :=
  match s.(handlers) !! i with
  | None => s
  | Some (TicketH tg w p cur hold) => ticket_step granted i tg w p cur hold s
  | Some (ConnH p reg hold) => conn_step granted i p reg hold s
  end.

(** [ServeAuth]: a handler starts when the session holds few enough
    credentials. *)
Definition serveAuth (i : nat) (h : handler) (s : session) : session :=
  if maxCredentials <? s.(credentials) + 1 then s else set_handler i (Some h) (add_credential 1 s).

Context {V : Type} `{TicketVerifier V}.

(** The ticket is verified under the session's key: its own, the one it is
    bound to, or any for the first ticket of an anonymous session. *)
Definition verify_ticket (token : string) (now : Time) (v : V) (s : session) : result auth_error AuthGrant :=
  if negb anon then tv_Ticket token sess.(keyID) s.(published) now v
  else if negb (bool_decide (boundKey s.(held_grants) = "")) then
    tv_Ticket token (boundKey s.(held_grants)) s.(published) now v
  else tv_FirstTicket token now v.

(** A step of the session: a ticket is presented and verified, the connection's
    credential is presented, or a handler moves on. A session begins fewer than
    2^64 tickets. *)
Inductive sstep : session -> session -> Prop :=
| ss_ticket s i token now v g :
    s.(handlers) !! i = None -> tv_good v -> verify_ticket token now v s = Ok g ->
    sstep s (serveAuth i (TicketH g None PBind false false) s)
| ss_conn s i :
    s.(handlers) !! i = None -> sstep s (serveAuth i (ConnH CRegister None false) s)
| ss_handler s i granted :
    s.(roots).(rh).(r_seq) + 1 < 2 ^ 64 -> sstep s (handler_step granted i s).

Definition session_start (pending : bool) : session :=
  mkSession (newHeld pending) false 0 (hold_start sess.(grant).(Root)) ∅ [].

(** ** Counting handlers *)

Definition cnt (f : handler -> bool) (m : gmap nat handler) : Z :=
  Z.of_nat (size (filter (fun kv => f kv.2 = true) m)).

Definition weigh (f : handler -> bool) (o : option handler) : Z :=
  match o with Some h => if f h then 1 else 0 | None => 0 end.

Lemma cnt_insert f m i h : m !! i = None -> cnt f (<[i := h]> m) = cnt f m + weigh f (Some h).
Proof.
  intros Hi. unfold cnt, weigh. destruct (f h) eqn:Hf.
  - rewrite map_filter_insert_True by done. rewrite map_size_insert_None; [lia|].
    apply map_lookup_filter_None. by left.
  - rewrite map_filter_insert_False by (cbn; congruence). rewrite delete_id by done. lia.
Qed.

Lemma cnt_alter f m i o :
  cnt f (partial_alter (fun _ => o) i m) = cnt f m - weigh f (m !! i) + weigh f o.
Proof.
  assert (cnt f m = cnt f (delete i m) + weigh f (m !! i)) as Hd.
  { destruct (m !! i) as [h|] eqn:Hi.
    - rewrite <- (insert_delete_id m i h Hi) at 1. apply cnt_insert, lookup_delete_eq.
    - rewrite delete_id by done. cbn. lia. }
  destruct o as [h|].
  - change (partial_alter (fun _ => Some h) i m) with (<[i := h]> m).
    rewrite <- insert_delete_eq, cnt_insert by apply lookup_delete_eq. lia.
  - change (partial_alter (fun _ => None) i m) with (delete i m). cbn. lia.
Qed.

(** Handlers between [a.beginTicket] and its settling. *)
Definition is_flying (p : pc) : bool :=
  match p with
  | PBegin | PMark | PReplaced | PAbandon | PRefuse | PGrant | PRegister | PHolding | PSettle => true
  | _ => false
  end.

Definition flying_h (h : handler) : bool := match h with TicketH _ _ p _ _ => is_flying p | _ => false end.
Definition holds_h (h : handler) : bool := match h with TicketH _ _ _ _ hold => hold | ConnH _ _ hold => hold end.

(** A deferred [released] is pending only between [holding] and its call. *)
Definition hold_ok (h : handler) : Prop :=
  match h with
  | TicketH _ _ p _ true => p = PSettle \/ p = PHold \/ p = PReleased
  | ConnH p _ true => p = CHold \/ p = CReleased
  | _ => True
  end.

Record counts_ok (s : session) : Prop := {
  co_flying : anon = true -> s.(held_grants).(inFlight) = cnt flying_h s.(handlers);
  co_live : s.(held_grants).(live) = cnt holds_h s.(handlers);
  co_cred : s.(credentials) = cnt (fun _ => true) s.(handlers);
  co_max : s.(credentials) <= maxCredentials;
  co_hold i h : s.(handlers) !! i = Some h -> hold_ok h
}.

Lemma set_handler_hold i o s :
  (forall j h, s.(handlers) !! j = Some h -> hold_ok h) -> match o with Some h => hold_ok h | None => True end ->
  forall j h, (set_handler i o s).(handlers) !! j = Some h -> hold_ok h.
Proof.
  intros Hs Ho j h. cbn. destruct (decide (j = i)) as [->|].
  - rewrite lookup_partial_alter_eq. by intros ->.
  - rewrite lookup_partial_alter_ne by done. apply Hs.
Qed.

(** A step that changes one handler and the counters accordingly. *)
Lemma counts_set i h o s s1 :
  counts_ok s -> s.(handlers) !! i = Some h -> s1.(handlers) = s.(handlers) ->
  (anon = true -> s1.(held_grants).(inFlight) = s.(held_grants).(inFlight) - weigh flying_h (Some h) + weigh flying_h o) ->
  s1.(held_grants).(live) = s.(held_grants).(live) - weigh holds_h (Some h) + weigh holds_h o ->
  s1.(credentials) = s.(credentials) - 1 + (match o with Some _ => 1 | None => 0 end) ->
  match o with Some h' => hold_ok h' | None => True end ->
  counts_ok (set_handler i o s1).
Proof.
  intros [] Hi Hm Hf Hl Hc Ho. split; cbn [set_handler held_grants credentials handlers].
  - intros Ha. rewrite (Hf Ha), Hm, cnt_alter, Hi, (co_flying0 Ha). done.
  - rewrite Hl, Hm, cnt_alter, Hi, co_live0. done.
  - rewrite Hc, Hm, cnt_alter, Hi, co_cred0. by destruct o.
  - rewrite Hc. destruct o; lia.
  - apply set_handler_hold; [|done]. rewrite Hm. done.
Qed.

Lemma bindTicket_counts kid h ok h' :
  bindTicket kid h = (ok, h') -> h'.(inFlight) = h.(inFlight) + (if ok then 1 else 0) /\ h'.(live) = h.(live).
Proof. unfold bindTicket. intros Hb. repeat case_match; simplify_eq/=; (split; [lia|done]). Qed.

Lemma settleGranted_counts kid pub h cs h' :
  settleGranted kid pub h = (cs, h') -> h'.(inFlight) = h.(inFlight) - 1 /\ h'.(live) = h.(live).
Proof. unfold settleGranted. intros Hb. repeat case_match; by simplify_eq/=. Qed.

Ltac counts_tac Hi :=
  eapply counts_set; [eassumption|exact Hi|try done|try done|try done|try done|try done];
  cbn; try lia; try (intros; lia).

Lemma ticket_counts granted i tg w p cur hold s :
  counts_ok s -> s.(handlers) !! i = Some (TicketH tg w p cur hold) ->
  counts_ok (ticket_step granted i tg w p cur hold s).
Proof.
  intros Hs Hi. pose proof (co_hold _ Hs _ _ Hi) as Hho. unfold ticket_step.
  destruct p.
  - destruct anon eqn:Ha.
    + destruct (bindTicket _ _) as [ok h'] eqn:Hb. apply bindTicket_counts in Hb as [Hb1 Hb2].
      destruct hold; [cbn in Hho; naive_solver|].
      destruct ok; counts_tac Hi.
    + destruct hold; [cbn in Hho; naive_solver|]. counts_tac Hi; congruence.
  - destruct hold; [cbn in Hho; naive_solver|]. destruct (roots_begin _ _ _). counts_tac Hi.
  - destruct hold; [cbn in Hho; naive_solver|]. counts_tac Hi.
  - destruct hold; [cbn in Hho; naive_solver|]. destruct w as [h|]; [|done]. destruct (replaced _ _); counts_tac Hi.
  - destruct hold; [cbn in Hho; naive_solver|]. destruct w as [h|]; [|done].
    destruct anon eqn:Ha; counts_tac Hi; congruence.
  - destruct hold; [cbn in Hho; naive_solver|]. counts_tac Hi.
  - destruct hold; [cbn in Hho; naive_solver|]. destruct granted; counts_tac Hi.
  - destruct hold; [cbn in Hho; naive_solver|]. destruct w as [h|]; [|done]. destruct (roots_register _ _). counts_tac Hi.
  - destruct hold; [cbn in Hho; naive_solver|]. destruct (cur && _); counts_tac Hi. by left.
  - set (s1 := if anon && negb cur then _ else _).
    assert (handlers s1 = handlers s /\ live (held_grants s1) = live (held_grants s) /\ credentials s1 = credentials s /\
      (anon = true -> inFlight (held_grants s1) = inFlight (held_grants s) - 1)) as (Hm & Hl & Hc & Hf).
    { subst s1. destruct anon, cur; cbn [andb negb]; try done.
      - destruct (settleGranted _ _ _) as [cs h'] eqn:Hg. by apply settleGranted_counts in Hg as [? ?].
      - by destruct (nonempty _). }
    destruct cur; counts_tac Hi; destruct hold; cbn; auto; try lia; intros Ha; specialize (Hf Ha); lia.
  - counts_tac Hi. destruct hold; cbn; auto.
  - destruct hold; counts_tac Hi.
  - destruct hold; [cbn in Hho; naive_solver|]. destruct w as [h|]; [|done]. destruct cur; counts_tac Hi.
  - destruct hold; [cbn in Hho; naive_solver|]. counts_tac Hi.
Qed.

Lemma conn_counts granted i p reg hold s :
  counts_ok s -> s.(handlers) !! i = Some (ConnH p reg hold) -> counts_ok (conn_step granted i p reg hold s).
Proof.
  intros Hs Hi. pose proof (co_hold _ Hs _ _ Hi) as Hho. unfold conn_step. destruct p.
  - destruct hold; [cbn in Hho; naive_solver|]. case_bool_decide; [counts_tac Hi|].
    destruct (roots_present _) as [[q|] r]; counts_tac Hi.
  - destruct hold; [cbn in Hho; naive_solver|]. counts_tac Hi.
  - destruct hold; [cbn in Hho; naive_solver|]. counts_tac Hi.
  - destruct hold; [cbn in Hho; naive_solver|]. destruct granted; counts_tac Hi.
  - destruct hold; [cbn in Hho; naive_solver|]. destruct (grantsSomething _); counts_tac Hi. by left.
  - counts_tac Hi. destruct hold; cbn; auto.
  - destruct hold; counts_tac Hi.
  - destruct hold; [cbn in Hho; naive_solver|]. destruct reg; counts_tac Hi.
  - destruct hold; [cbn in Hho; naive_solver|]. counts_tac Hi.
Qed.

Lemma serveAuth_counts i h s :
  counts_ok s -> s.(handlers) !! i = None -> flying_h h = false -> holds_h h = false -> hold_ok h ->
  counts_ok (serveAuth i h s).
Proof.
  intros [] Hi Hf Hh Ho. unfold serveAuth. destruct (maxCredentials <? _) eqn:Hm; [by split|]. bool_prop.
  split; cbn [set_handler add_credential held_grants credentials handlers].
  - intros Ha. rewrite cnt_alter, Hi, (co_flying0 Ha). cbn. rewrite Hf. lia.
  - rewrite cnt_alter, Hi, co_live0. cbn. rewrite Hh. lia.
  - rewrite cnt_alter, Hi, co_cred0. cbn. lia.
  - lia.
  - by apply set_handler_hold.
Qed.

Lemma sstep_counts s s' : sstep s s' -> counts_ok s -> counts_ok s'.
Proof.
  intros [s0 i token now v g Hi _ _|s0 i Hi|s0 i granted _] Hs.
  - by apply serveAuth_counts.
  - by apply serveAuth_counts.
  - unfold handler_step. destruct (handlers s0 !! i) as [[tg w p cur hold|p reg hold]|] eqn:Hi; [| |done].
    + by apply ticket_counts.
    + by apply conn_counts.
Qed.

(** ** The key of an anonymous session *)

Lemma cnt_zero f m i h : cnt f m = 0 -> m !! i = Some h -> f h = false.
Proof.
  intros Hc Hi. destruct (f h) eqn:Hf; [|done]. exfalso.
  assert (filter (fun kv => f kv.2 = true) m !! i = Some h) as Hl by (by apply map_lookup_filter_Some).
  unfold cnt in Hc. assert (size (filter (fun kv => f kv.2 = true) m) = 0%nat) as He%map_size_empty_inv by lia.
  by rewrite He in Hl.
Qed.

Lemma cnt_one f m i j h k :
  cnt f m = 1 -> m !! i = Some h -> f h = true -> m !! j = Some k -> f k = true -> i = j.
Proof.
  intros Hc Hi Hf Hj Hk. destruct (decide (i = j)) as [|Hne]; [done|]. exfalso.
  assert (cnt f (partial_alter (fun _ => None) i m) = 0) as H0' by (rewrite cnt_alter, Hi; cbn; rewrite Hf; lia).
  apply (cnt_zero f _ j k) in H0'; [congruence|]. by rewrite lookup_partial_alter_ne.
Qed.

(** Handlers whose ticket was granted and settled. *)
Definition is_granted (h : handler) : bool :=
  match h with
  | TicketH _ _ (PHold | PReleased | PRelease) cur _ => cur
  | _ => false
  end.

Record key_inv (s : session) : Prop := {
  ki_named i tg w p cur hold : s.(handlers) !! i = Some (TicketH tg w p cur hold) -> tg.(keyID) <> "";
  ki_key i tg w p cur hold : s.(handlers) !! i = Some (TicketH tg w p cur hold) ->
    flying_h (TicketH tg w p cur hold) = true \/ is_granted (TicketH tg w p cur hold) = true ->
    tg.(keyID) = s.(held_grants).(key);
  ki_granted i h : s.(handlers) !! i = Some h -> is_granted h = true -> s.(held_grants).(opened) = true;
  ki_opened : s.(held_grants).(opened) = true -> s.(held_grants).(key) <> "";
  ki_unbound : s.(held_grants).(opened) = false -> s.(held_grants).(inFlight) = 0 -> s.(held_grants).(key) = ""
}.

(** A handler moves on while what the others rely on stays. *)
Lemma key_set i o s s1 :
  key_inv s -> s1.(handlers) = s.(handlers) ->
  (s1.(held_grants).(key) = s.(held_grants).(key) \/
   forall j h, j <> i -> s.(handlers) !! j = Some h -> flying_h h = false /\ is_granted h = false) ->
  (s.(held_grants).(opened) = true -> s1.(held_grants).(opened) = true) ->
  match o with
  | Some (TicketH tg w p cur hold) => tg.(keyID) <> "" /\
      (is_flying p = true \/ is_granted (TicketH tg w p cur hold) = true -> tg.(keyID) = s1.(held_grants).(key)) /\
      (is_granted (TicketH tg w p cur hold) = true -> s1.(held_grants).(opened) = true)
  | _ => True
  end ->
  (s1.(held_grants).(opened) = true -> s1.(held_grants).(key) <> "") ->
  (s1.(held_grants).(opened) = false -> s1.(held_grants).(inFlight) = 0 -> s1.(held_grants).(key) = "") ->
  key_inv (set_handler i o s1).
Proof.
  intros [] Hm Hk Hop Ho Hopened Hun.
  assert (forall j h, handlers (set_handler i o s1) !! j = Some h ->
    (j = i /\ o = Some h) \/ (j <> i /\ handlers s !! j = Some h)) as Hlk.
  { intros j h. cbn. rewrite Hm. destruct (decide (j = i)) as [->|].
    - rewrite lookup_partial_alter_eq. auto.
    - rewrite lookup_partial_alter_ne by done. auto. }
  split; cbn [set_handler held_grants]; try done.
  - intros j tg w p cur hold [[-> ->]|[_ Hj]]%Hlk; [apply Ho|eauto].
  - intros j tg w p cur hold [[-> ->]|[Hne Hj]]%Hlk Hfg; [by apply Ho|].
    destruct Hk as [->|Hk]; [eauto|]. destruct (Hk _ _ Hne Hj) as [Hf Hg]. rewrite Hf, Hg in Hfg. naive_solver.
  - intros j h [[-> ->]|[_ Hj]]%Hlk Hg; [|eauto]. destruct h; [by apply Ho|done].
Qed.

(** Settling a refused ticket, which may undo the binding. *)
Lemma settleRefused_key i h o s :
  anon = true -> counts_ok s -> key_inv s -> s.(handlers) !! i = Some h -> flying_h h = true ->
  match o with
  | Some (TicketH tg w p cur hold) => tg.(keyID) <> "" /\ is_flying p = false /\
                                      is_granted (TicketH tg w p cur hold) = false
  | _ => True
  end ->
  key_inv (set_handler i o (set_held (settleRefused s.(held_grants)) s)).
Proof.
  intros Ha Hc Hk Hi Hf Ho. pose proof Hk as []. apply (key_set i o s); auto; cbn.
  - destruct (negb (opened (held_grants s)) && _) eqn:Hn; [right|by left]. bool_prop.
    intros j k Hne Hj. split.
    + destruct (flying_h k) eqn:Hfk; [|done]. exfalso. apply Hne. symmetry.
      apply (cnt_one flying_h (handlers s) i j h k); try done. rewrite <- (co_flying _ Hc Ha). lia.
    + destruct (is_granted k) eqn:Hg; [|done]. rewrite (ki_granted0 _ _ Hj Hg) in *. done.
  - destruct o as [[tg w p cur hold|]|]; [|done|done]. destruct Ho as (? & Hp & Hg). cbn in Hg.
    split_and!; [done|intros [?|?]; congruence|congruence].
  - intros Hop. rewrite Hop. cbn. auto.
  - intros Hop Hz. rewrite Hop. cbn. by rewrite Hz.
Qed.

Ltac key_tac Hk :=
  eapply key_set; [exact Hk|done|by left|done| |apply Hk|apply Hk].

Lemma ticket_key_inv granted i tg w p cur hold s :
  anon = true -> counts_ok s -> key_inv s -> s.(handlers) !! i = Some (TicketH tg w p cur hold) ->
  key_inv (ticket_step granted i tg w p cur hold s).
Proof.
  intros Ha Hc Hk Hi. pose proof (ki_named _ Hk _ _ _ _ _ _ Hi) as Hn.
  pose proof (ki_key _ Hk _ _ _ _ _ _ Hi) as Hkey. pose proof (ki_granted _ Hk _ _ Hi) as Hgr. unfold ticket_step.
  destruct p; rewrite ?Ha; cbn in Hkey, Hgr.
  - unfold bindTicket. case_bool_decide as Hb; [|case_bool_decide as Hb'].
    + eapply key_set; [exact Hk|done| |done| | |]; cbn.
      * right. intros j [tg' w' p' cur' hold'|] Hne Hj; [|done].
        pose proof (ki_named _ Hk _ _ _ _ _ _ Hj) as Hn'. pose proof (ki_key _ Hk _ _ _ _ _ _ Hj) as Hk'.
        rewrite Hb in Hk'. destruct (flying_h _); [destruct Hn'; auto|].
        destruct (is_granted _); [destruct Hn'; auto|done].
      * split_and!; [done|done|]. by destruct cur.
      * done.
      * intros _ Hz. pose proof (co_flying _ Hc Ha) as Hf. unfold cnt in Hf. lia.
    + eapply key_set; [exact Hk|done|by left|done| |apply Hk|]; cbn.
      * split_and!; try done; by destruct cur.
      * intros _ Hz. pose proof (co_flying _ Hc Ha) as Hf. unfold cnt in Hf. lia.
    + key_tac Hk. split_and!; [done| |]; by destruct cur; cbn; naive_solver.
  - destruct (roots_begin _ _ _). key_tac Hk. split_and!; [done|auto|done].
  - key_tac Hk. split_and!; [done|auto|done].
  - destruct w as [h|]; [|done]. key_tac Hk. split_and!; [done|auto|by destruct (replaced _ _)].
  - destruct w as [h|]; [|done]. key_tac Hk. split_and!; [done|auto|done].
  - eapply settleRefused_key; eauto.
  - key_tac Hk. split_and!; [done|auto|by destruct granted].
  - destruct w as [h|]; [|done]. destruct (roots_register _ _). key_tac Hk. split_and!; [done|auto|done].
  - destruct (cur && _); key_tac Hk; (split_and!; [done|auto|done]).
  - destruct cur; cbn [andb negb].
    + destruct (settleGranted _ _ _) as [cs h'] eqn:Hg.
      assert (key h' = key (held_grants s) /\ opened h' = true) as [Hk' Ho'].
      { unfold settleGranted in Hg. destruct (opened (held_grants s)) eqn:Hop; cbn in Hg;
          repeat case_match; simplify_eq/=; done. }
      assert (keyID tg = key (held_grants s)) as Hkk by auto.
      eapply key_set; [exact Hk|done|by left| | | |]; cbn; rewrite ?Hk', ?Ho'; try done.
      intros _. congruence.
    + eapply settleRefused_key; eauto.
  - key_tac Hk. destruct cur; cbn in *; (split_and!; [done|naive_solver|naive_solver]).
  - destruct hold; key_tac Hk; destruct cur; cbn in *; (split_and!; [done|naive_solver|naive_solver]).
  - destruct w as [h|]; [|done]. destruct cur; key_tac Hk; cbn; (split_and!; [done|naive_solver|done]).
  - key_tac Hk. done.
Qed.

Lemma conn_key_inv granted i p reg hold s :
  key_inv s -> key_inv (conn_step granted i p reg hold s).
Proof.
  intros Hk. unfold conn_step.
  destruct p; repeat case_match; try (key_tac Hk; done).
Qed.

(** What usage was told of an anonymous session: nothing until its first grant,
    then one [Bind] to its key, and at most one [Publishing] after it. *)
Definition calls_inv (s : session) : Prop :=
  let h := s.(held_grants) in
  if h.(opened) then
    exists pub, s.(calls) = CallBind h.(key) pub :: (if negb pub && h.(h_publishes) then [CallPublishing] else []) /\
                (pub = true -> h.(h_publishes) = true)
  else s.(calls) = [].

Lemma calls_ext s s' :
  calls_inv s -> s'.(calls) = s.(calls) -> s'.(held_grants).(opened) = s.(held_grants).(opened) ->
  (s.(held_grants).(opened) = true -> s'.(held_grants).(key) = s.(held_grants).(key)) ->
  s'.(held_grants).(h_publishes) = s.(held_grants).(h_publishes) -> calls_inv s'.
Proof.
  unfold calls_inv. intros Hc Hcs Ho Hk Hp. rewrite Hcs, Ho, Hp. destruct (opened (held_grants s)); [|done].
  by rewrite (Hk eq_refl).
Qed.

Lemma ticket_calls granted i tg w p cur hold s :
  anon = true -> key_inv s -> calls_inv s -> s.(handlers) !! i = Some (TicketH tg w p cur hold) ->
  calls_inv (ticket_step granted i tg w p cur hold s).
Proof.
  intros Ha Hk Hc Hi. pose proof (ki_key _ Hk _ _ _ _ _ _ Hi) as Hkey. unfold ticket_step.
  destruct p; rewrite ?Ha; cbn in Hkey;
    try (repeat case_match; simplify_eq/=; by eapply calls_ext).
  - unfold bindTicket. case_bool_decide as Hb; [|case_bool_decide]; (eapply calls_ext; [exact Hc|done|done| |done]).
    + cbn. intros Ho. by destruct (ki_opened _ Hk Ho).
    + done.
    + done.
  - eapply calls_ext; [exact Hc|done|done| |done]. cbn. by intros ->.
  - destruct cur; cbn [andb negb].
    2: { eapply calls_ext; [exact Hc|done|done| |done]. cbn. by intros ->. }
    assert (keyID tg = key (held_grants s)) as Hkk by auto.
    unfold calls_inv, settleGranted in *. destruct (opened (held_grants s)) eqn:Ho; cbn [negb].
    + destruct Hc as (pub & Hc & Hp). destruct (nonempty _ && negb (h_publishes _)) eqn:Hb; cbn; rewrite ?Ho.
      * bool_prop. exists pub. rewrite Hc. destruct pub; [by rewrite Hp in *|].
        match goal with Hz : h_publishes _ = false |- _ => rewrite Hz end. done.
      * exists pub. rewrite Hc, app_nil_r. done.
    + cbn. exists (nonempty (Publish (moqGrant (grant tg)))). rewrite Hc. cbn. rewrite Hkk.
      split; [|done]. by destruct (nonempty _).
Qed.

Lemma conn_calls granted i p reg hold s : calls_inv s -> calls_inv (conn_step granted i p reg hold s).
Proof. intros Hc. unfold conn_step. destruct p; repeat case_match; by eapply calls_ext. Qed.

Definition anon_inv (s : session) : Prop := counts_ok s /\ key_inv s /\ calls_inv s.

Context `{!TicketVerifierLaws V}.

Lemma sstep_anon s s' : anon = true -> sstep s s' -> anon_inv s -> anon_inv s'.
Proof.
  intros Ha Hst (Hc & Hk & Hcs). pose proof (sstep_counts _ _ Hst Hc) as Hc'. split; [done|].
  destruct Hst as [s i token now v g Hi Hgood Hv|s i Hi|s i granted _].
  - assert (keyID g <> "") as Hn.
    { unfold verify_ticket in Hv. rewrite Ha in Hv. cbn [negb] in Hv.
      case_bool_decide; cbn in Hv; [by eapply first_ticket_key|].
      apply ticket_key in Hv as [-> ?]; done. }
    unfold serveAuth. case_match; [done|]. split; [|by eapply calls_ext].
    key_tac Hk. split_and!; [done|..]; cbn; naive_solver.
  - unfold serveAuth. case_match; [done|]. split; [|by eapply calls_ext]. key_tac Hk. done.
  - unfold handler_step. destruct (handlers s !! i) as [[tg w p cur hold|p reg hold]|] eqn:Hi; [| |done].
    + split; [by apply ticket_key_inv|by apply ticket_calls].
    + split; [by apply conn_key_inv|by apply conn_calls].
Qed.

Lemma anon_start pending : anon_inv (session_start pending).
Proof. split_and!; [split; cbn; try done; lia || (by intros; simplify_map_eq)|split; cbn; try done; by intros; simplify_map_eq|done]. Qed.

Lemma anon_reach pending s : anon = true -> rtc sstep (session_start pending) s -> anon_inv s.
Proof.
  intros Ha Hr. assert (anon_inv (session_start pending)) as H0' by apply anon_start.
  induction Hr; eauto using sstep_anon.
Qed.

(** C5: An anonymous session has one tenant. However its handlers interleave,
    every ticket granted on it was signed by the one key it is bound to; its
    usage is opened once, under that key, and never before a ticket was
    granted; and it is reported as a publisher at most once more. *)
Theorem anonymous_session_one_tenant pending s i tg w p hold :
  anon = true -> rtc sstep (session_start pending) s ->
  s.(handlers) !! i = Some (TicketH tg w p true hold) -> p = PHold \/ p = PReleased \/ p = PRelease ->
  tg.(keyID) = boundKey s.(held_grants) /\
  exists pub rest, s.(calls) = CallBind (boundKey s.(held_grants)) pub :: rest /\
    (rest = [] \/ rest = [CallPublishing] /\ pub = false).
Proof.
  intros Ha Hr Hi Hp. destruct (anon_reach _ _ Ha Hr) as (_ & Hk & Hc).
  assert (is_granted (TicketH tg w p true hold) = true) as Hg by (by destruct Hp as [->|[->| ->]]).
  split; [by eapply (ki_key _ Hk); eauto|]. unfold calls_inv in Hc. rewrite (ki_granted _ Hk _ _ Hi Hg) in Hc.
  destruct Hc as (pub & -> & _). exists pub, (if negb pub && h_publishes (held_grants s) then [CallPublishing] else []).
  split; [done|]. destruct pub; cbn; [by left|]. destruct (h_publishes _); auto.
Qed.

(** The session's counters are exact: the credentials held number its
    running handlers and never exceed [maxCredentials], the live grants are
    those whose release is still due, and the tickets in flight of an anonymous
    session are those begun and not settled. *)
Theorem session_counters_exact pending s :
  rtc sstep (session_start pending) s ->
  s.(credentials) = Z.of_nat (size s.(handlers)) /\ s.(credentials) <= maxCredentials /\
  s.(held_grants).(live) = cnt holds_h s.(handlers) /\
  (anon = true -> s.(held_grants).(inFlight) = cnt flying_h s.(handlers)).
Proof.
  intros Hr. assert (counts_ok s) as [].
  { assert (counts_ok (session_start pending)) as H0' by apply anon_start.
    induction Hr; eauto using sstep_counts. }
  split_and!; try done. rewrite co_cred0. unfold cnt. do 2 f_equal. apply map_filter_id. done.
Qed.

(** ** The session's handlers drive [rootHolds] as RootHolds.v describes *)

Definition is_begun (p : pc) : bool :=
  match p with PMark | PReplaced | PAbandon | PGrant | PRegister => true | _ => false end.
Definition is_registered (p : pc) : bool :=
  match p with PHolding | PSettle | PHold | PReleased | PRelease => true | _ => false end.
Definition conn_left (p : cpc) : bool := match p with CLeave => true | _ => false end.

(** The registration a handler owns, by its identity. *)
Definition owned (h : handler) : option nat :=
  match h with
  | TicketH _ (Some w) p cur _ => if is_begun p || (cur && is_registered p) then Some w.(ptr) else None
  | ConnH p (Some q) _ => if conn_left p then None else Some q
  | _ => None
  end.

Definition for_grant (tg : AuthGrant) (h : withdrawal) : Prop :=
  h.(w_root) = tg.(grant).(Root) /\ h.(w_role) = roleOf tg.(grant).

Definition own_ok (x : holds) (h : handler) : Prop :=
  match h with
  | TicketH tg w p cur _ =>
      (is_begun p = true -> exists h, w = Some h /\ x.(pend) !! h.(ptr) = Some h /\ for_grant tg h) /\
      (cur && is_registered p = true -> exists h, w = Some h /\ x.(held) !! h.(ptr) = Some h /\ for_grant tg h)
  | ConnH p (Some q) _ => p <> CRegister /\ (conn_left p = false -> q ∈ x.(cheld))
  | _ => True
  end.

Record link_inv (s : session) : Prop := {
  li_reach : rtc hold_step (hold_start sess.(grant).(Root)) s.(roots);
  li_own i h : s.(handlers) !! i = Some h -> own_ok s.(roots) h;
  li_inj i j h k a : s.(handlers) !! i = Some h -> s.(handlers) !! j = Some k ->
    owned h = Some a -> owned k = Some a -> i = j
}.

Lemma owned_known x h a :
  own_ok x h -> owned h = Some a -> (exists w, x.(pend) !! a = Some w) \/ (exists w, x.(held) !! a = Some w) \/ a ∈ x.(cheld).
Proof.
  destruct h as [tg w p cur hold|p reg hold]; cbn.
  - intros [Hb Hr] Ho. destruct w as [h|]; [|done]. destruct (is_begun p) eqn:Hp.
    + injection Ho as <-. left. destruct (Hb eq_refl) as (h' & [= <-] & ? & _). eauto.
    + cbn in Ho. destruct (cur && is_registered p) eqn:Hq; [|done]. injection Ho as <-. right; left.
      destruct (Hr eq_refl) as (h' & [= <-] & ? & _). eauto.
  - intros Hc Ho. destruct reg as [q|]; [|done]. destruct (conn_left p); [done|]. injection Ho as <-.
    right; right. by apply Hc.
Qed.

Lemma owned_lt x h a : holds_inv x -> own_ok x h -> owned h = Some a -> (a < x.(rh).(next))%nat.
Proof.
  intros Hx Hh Ho. destruct (owned_known _ _ _ Hh Ho) as [[w Hw]|[[w Hw]|Hc]].
  - by destruct (hi_pend _ Hx _ _ Hw) as [[] _].
  - by destruct (hi_held _ Hx _ _ Hw).
  - by apply (hi_cheld _ Hx).
Qed.

(** A handler moves on, with at most one operation on the roots. *)
Lemma link_set i h o s s1 :
  link_inv s -> s.(handlers) !! i = Some h -> s1.(handlers) = s.(handlers) ->
  s1.(roots) = s.(roots) \/ hold_step s.(roots) s1.(roots) ->
  (forall k, own_ok s.(roots) k -> (forall a, owned k = Some a -> owned h <> Some a) -> own_ok s1.(roots) k) ->
  match o with
  | Some h' => own_ok s1.(roots) h' /\
      forall a, owned h' = Some a -> owned h = Some a \/ (s.(roots).(rh).(next) <= a)%nat
  | None => True
  end ->
  link_inv (set_handler i o s1).
Proof.
  intros [] Hi Hm Hst Hkeep Ho. pose proof (hold_reach_inv _ _ li_reach0) as Hx.
  assert (forall j k, handlers (set_handler i o s1) !! j = Some k ->
    (j = i /\ o = Some k) \/ (j <> i /\ handlers s !! j = Some k)) as Hlk.
  { intros j k. cbn. rewrite Hm. destruct (decide (j = i)) as [->|].
    - rewrite lookup_partial_alter_eq. auto.
    - rewrite lookup_partial_alter_ne by done. auto. }
  assert (forall j k a, j <> i -> handlers s !! j = Some k -> owned k = Some a -> owned h <> Some a) as Hdist.
  { intros j k a Hne Hj Hka Hha. by apply Hne, (li_inj0 _ _ _ _ _ Hj Hi Hka). }
  assert (forall j k h' a, j <> i -> handlers s !! j = Some k -> owned k = Some a -> o = Some h' ->
    owned h' = Some a -> False) as Hnew.
  { intros j k h' a Hne Hj Hka -> Hha. destruct Ho as [_ Ho]. destruct (Ho _ Hha) as [Hh|Hge].
    - by apply (Hdist _ _ _ Hne Hj Hka).
    - pose proof (owned_lt _ _ _ Hx (li_own0 _ _ Hj) Hka). lia. }
  split.
  - cbn. destruct Hst as [->|Hst]; [done|]. by eapply rtc_r.
  - intros j k [[-> ->]|[Hne Hj]]%Hlk; [by destruct Ho|]. cbn. apply Hkeep; eauto.
  - intros j1 j2 k1 k2 a Hk1 Hk2 H1 H2.
    destruct (Hlk _ _ Hk1) as [[-> ->]|[Hn1 Hj1]], (Hlk _ _ Hk2) as [[-> Ho2]|[Hn2 Hj2]]; try done.
    + by destruct (Hnew _ _ _ _ Hn2 Hj2 H2 eq_refl H1).
    + by destruct (Hnew _ _ _ _ Hn1 Hj1 H1 Ho2 H2).
    + by eapply li_inj0.
Qed.

Lemma own_ok_mono x y k :
  own_ok x k ->
  (forall a, owned k = Some a -> (forall w, x.(pend) !! a = Some w -> y.(pend) !! a = Some w) /\
     (forall w, x.(held) !! a = Some w -> y.(held) !! a = Some w) /\ (a ∈ x.(cheld) -> a ∈ y.(cheld))) ->
  own_ok y k.
Proof.
  destruct k as [tg w p cur hold|p reg hold]; cbn.
  - intros [Hb Hr] Hk. split.
    + intros Hp. destruct (Hb Hp) as (h & -> & Hh & Hfg). rewrite Hp in Hk. exists h.
      destruct (Hk _ eq_refl) as (Hk1 & _). auto.
    + intros Hp. destruct (Hr Hp) as (h & -> & Hh & Hfg). rewrite Hp, orb_true_r in Hk. exists h.
      destruct (Hk _ eq_refl) as (_ & Hk2 & _). auto.
  - destruct reg as [q|]; [|done]. intros [Hne Hc] Hk. split; [done|]. intros Hp. rewrite Hp in Hk.
    by apply (Hk q eq_refl), Hc.
Qed.

Lemma roots_begin_step x root role h y :
  x.(rh).(r_seq) + 1 < 2 ^ 64 -> roots_begin root role x = (h, y) ->
  hold_step x y /\ h.(ptr) = x.(rh).(next) /\ h.(w_root) = root /\ h.(w_role) = role /\
  y.(pend) = <[h.(ptr) := h]> x.(pend) /\ y.(held) = x.(held) /\ y.(cheld) = x.(cheld).
Proof.
  unfold roots_begin. intros Hs. destruct (beginTicket root role (rh x)) as [h' r] eqn:Hb. intros [= <- <-].
  split; [by eapply hs_begin|]. unfold beginTicket in Hb. injection Hb as <- <-. done.
Qed.

Lemma roots_register_step x h b y :
  x.(pend) !! h.(ptr) = Some h -> roots_register h x = (b, y) ->
  hold_step x y /\ y.(pend) = delete h.(ptr) x.(pend) /\ y.(cheld) = x.(cheld) /\
  y.(held) = (if b then <[h.(ptr) := h]> x.(held) else x.(held)).
Proof.
  unfold roots_register. intros Hp. destruct (registerTicket h (rh x)) as [b' r] eqn:Hr. intros [= <- <-].
  split; [by eapply hs_register|done].
Qed.

Lemma roots_present_step x q y :
  roots_present x = (Some q, y) ->
  hold_step x y /\ q = x.(rh).(next) /\ y.(pend) = x.(pend) /\ y.(held) = x.(held) /\ y.(cheld) = {[q]} ∪ x.(cheld).
Proof.
  unfold roots_present. destruct (registerConnection (rh x)) as [[p|] r] eqn:Hr; [|done]. intros [= <- <-].
  split; [by apply hs_present|]. unfold registerConnection in Hr. case_match; [done|]. by injection Hr as <- <-.
Qed.

Lemma roots_present_none x y : roots_present x = (None, y) -> y = x.
Proof. unfold roots_present. destruct (registerConnection (rh x)) as [[p|] r]; by intros [= <-]. Qed.

(** A handler that only changes its place, not what it owns. *)
Lemma link_stay i h h' s s1 :
  link_inv s -> s.(handlers) !! i = Some h -> s1.(handlers) = s.(handlers) -> s1.(roots) = s.(roots) ->
  (own_ok s.(roots) h -> own_ok s.(roots) h') -> (forall a, owned h' = Some a -> owned h = Some a) ->
  link_inv (set_handler i (Some h') s1).
Proof.
  intros Hs Hi Hm Hr Hok How. eapply link_set; [exact Hs|exact Hi|done|by left| |]; rewrite Hr; [done|].
  split; [|auto]. apply Hok, (li_own _ Hs _ _ Hi).
Qed.

Lemma ticket_link granted i tg w p cur hold s :
  s.(roots).(rh).(r_seq) + 1 < 2 ^ 64 -> link_inv s -> s.(handlers) !! i = Some (TicketH tg w p cur hold) ->
  link_inv (ticket_step granted i tg w p cur hold s).
Proof.
  intros Hseq Hs Hi. pose proof (li_own _ Hs _ _ Hi) as [Hb Hr]. pose proof (hold_reach_inv _ _ (li_reach _ Hs)) as Hx.
  unfold ticket_step. destruct p.
  - destruct anon; [destruct (bindTicket _ _) as [[] ?]|]; (eapply link_stay; [exact Hs|exact Hi|done|done|..]); cbn;
      destruct w; cbn; rewrite ?andb_false_r; try done; auto.
  - destruct (roots_begin _ _ _) as [h y] eqn:Hbg.
    apply roots_begin_step in Hbg as (Hst & Hp & Hrt & Hro & Hpd & Hhd & Hcd); [|done].
    eapply link_set; [exact Hs|exact Hi|done|by right|..]; cbn.
    + intros k Hk _. eapply own_ok_mono; [exact Hk|]. intros a Ha. pose proof (owned_lt _ _ _ Hx Hk Ha).
      rewrite Hpd, Hhd, Hcd. split_and!; try done. intros. rewrite lookup_insert_ne by lia. done.
    + rewrite andb_false_r. split; [|intros a [= <-]; right; lia]. split; [|done]. intros _. exists h.
      split_and!; [done| |done]. by rewrite Hpd, lookup_insert_eq.
  - eapply link_stay; [exact Hs|exact Hi|done|done|done|done].
  - destruct w as [h|]; [|done]. destruct (replaced _ _); (eapply link_stay; [exact Hs|exact Hi|done|done|done|done]).
  - destruct w as [h|]; [|done]. destruct (Hb eq_refl) as (h' & [= <-] & Hp & _).
    eapply link_set; [exact Hs|exact Hi|done|right; by apply hs_abandon|..]; cbn.
    + intros k Hk Hne. eapply own_ok_mono; [exact Hk|]. intros a Ha. specialize (Hne _ Ha). cbn.
      split_and!; try done. intros. rewrite lookup_delete_ne by congruence. done.
    + destruct anon; cbn; rewrite ?andb_false_r; cbn; (split; [|done]); done.
  - eapply link_stay; [exact Hs|exact Hi|done|done|..]; cbn; rewrite ?andb_false_r; destruct w; done.
  - destruct granted; (eapply link_stay; [exact Hs|exact Hi|done|done|done|done]).
  - destruct w as [h|]; [|done]. destruct (Hb eq_refl) as (h' & [= <-] & Hp & Hfg).
    destruct (roots_register h (roots s)) as [b y] eqn:Hrg.
    apply roots_register_step in Hrg as (Hst & Hpd & Hcd & Hhd); [|done].
    eapply link_set; [exact Hs|exact Hi|done|by right|..]; cbn.
    + intros k Hk Hne. eapply own_ok_mono; [exact Hk|]. intros a Ha. specialize (Hne _ Ha).
      rewrite Hpd, Hcd, Hhd. split_and!; try done.
      * intros. rewrite lookup_delete_ne by congruence. done.
      * intros. destruct b; [|done]. rewrite lookup_insert_ne by congruence. done.
    + destruct b; cbn; [|split; [|done]; done]. split; [|auto]. split; [done|]. intros _. exists h.
      split_and!; [done| |done]. by rewrite Hhd, lookup_insert_eq.
  - destruct (cur && grantsSomething _); (eapply link_stay; [exact Hs|exact Hi|done|done|done|done]).
  - eapply link_stay; [exact Hs|exact Hi| | | |]; try (repeat case_match; done).
  - eapply link_stay; [exact Hs|exact Hi|done|done|done|done].
  - eapply link_stay; [exact Hs|exact Hi|by destruct hold|by destruct hold|done|done].
  - destruct w as [h|]; [|done]. destruct cur.
    2: { eapply link_stay; [exact Hs|exact Hi|done|done|done|done]. }
    destruct (Hr eq_refl) as (h' & [= <-] & Hp & _).
    eapply link_set; [exact Hs|exact Hi|done|right; by apply hs_release|..]; cbn; [|split; [|done]; done].
    intros k Hk Hne. eapply own_ok_mono; [exact Hk|]. intros a Ha. specialize (Hne _ Ha). cbn.
    split_and!; try done. intros. rewrite lookup_delete_ne by congruence. done.
  - eapply link_set; [exact Hs|exact Hi|done|by left|done|done].
Qed.

Lemma conn_link granted i p reg hold s :
  link_inv s -> s.(handlers) !! i = Some (ConnH p reg hold) ->
  link_inv (conn_step granted i p reg hold s).
Proof.
  intros Hs Hi. pose proof (li_own _ Hs _ _ Hi) as Hok. pose proof (hold_reach_inv _ _ (li_reach _ Hs)) as Hx.
  unfold conn_step. destruct p; cbn in Hok.
  - destruct reg as [q|]; [by destruct Hok|]. case_bool_decide; [eapply link_stay; [exact Hs|exact Hi|done|done|done|done]|].
    destruct (roots_present _) as [[q|] y] eqn:Hp.
    + apply roots_present_step in Hp as (Hst & Hq & Hpd & Hhd & Hcd).
      eapply link_set; [exact Hs|exact Hi|done|by right|..]; cbn.
      * intros k Hk _. eapply own_ok_mono; [exact Hk|]. intros a _. rewrite Hpd, Hhd, Hcd. set_solver.
      * split; [|intros a [= <-]; right; lia]. split; [done|]. rewrite Hcd. set_solver.
    + apply roots_present_none in Hp as ->. eapply link_stay; [exact Hs|exact Hi|done|done|done|done].
  - eapply link_stay; [exact Hs|exact Hi|done|done|..]; destruct reg; cbn; try done;
      case_bool_decide; cbn; naive_solver.
  - eapply link_stay; [exact Hs|exact Hi|done|done|..]; destruct reg; cbn; naive_solver.
  - eapply link_stay; [exact Hs|exact Hi|done|done|..]; destruct reg, granted; cbn; naive_solver.
  - destruct (grantsSomething _); (eapply link_stay; [exact Hs|exact Hi|done|done|..]); destruct reg; cbn; naive_solver.
  - eapply link_stay; [exact Hs|exact Hi|done|done|..]; destruct reg; cbn; naive_solver.
  - eapply link_stay; [exact Hs|exact Hi|by destruct hold|by destruct hold|..]; destruct reg; cbn; naive_solver.
  - destruct reg as [q|].
    2: { eapply link_stay; [exact Hs|exact Hi|done|done|done|done]. }
    eapply link_set; [exact Hs|exact Hi|done|right; apply hs_unpresent; by apply Hok|..]; cbn; [|split; [|done]; done].
    intros k Hk Hne. eapply own_ok_mono; [exact Hk|]. intros a Ha. specialize (Hne _ Ha). cbn.
    split_and!; try done. rewrite elem_of_difference, elem_of_singleton. intros ?. split; [done|]. congruence.
  - eapply link_set; [exact Hs|exact Hi|done|by left|done|done].
Qed.

Lemma sstep_link s s' : sstep s s' -> link_inv s -> link_inv s'.
Proof.
  intros [s0 i token now v g Hi _ _|s0 i Hi|s0 i granted Hseq] Hs.
  1,2: unfold serveAuth; case_match; [done|]; pose proof Hs as []; split; [done|..];
    cbn; intros j;
    [intros h; destruct (decide (j = i)) as [->|];
       [rewrite lookup_partial_alter_eq; by intros [= <-]|rewrite lookup_partial_alter_ne by done; eauto]|];
    intros j' h k a; destruct (decide (j = i)) as [->|], (decide (j' = i)) as [->|]; try done;
    rewrite ?lookup_partial_alter_eq, ?lookup_partial_alter_ne by done; try (by intros [= <-]); try (by intros ? [= <-]);
    eauto.
  unfold handler_step. destruct (handlers s0 !! i) as [[tg w p cur hold|p reg hold]|] eqn:Hi; [| |done].
  - by apply ticket_link.
  - by apply conn_link.
Qed.

Lemma link_start pending : link_inv (session_start pending).
Proof. split; cbn; [done|..]; intros; by simplify_map_eq. Qed.

Lemma link_reach pending s : rtc sstep (session_start pending) s -> link_inv s.
Proof.
  intros Hr. assert (link_inv (session_start pending)) as H0' by apply link_start.
  induction Hr; eauto using sstep_link.
Qed.

(** C6: The handlers of a session refine the root discipline: every run of the
    session is, for its roots, a run of [hold_step]; and each handler holding a
    granted ticket owns a registration of its own, for its ticket's root and
    role. *)
Theorem session_refines_holds pending s :
  rtc sstep (session_start pending) s ->
  rtc hold_step (hold_start sess.(grant).(Root)) s.(roots) /\
  (forall i tg w hold, s.(handlers) !! i = Some (TicketH tg w PHold true hold) ->
     exists h, w = Some h /\ s.(roots).(held) !! h.(ptr) = Some h /\ for_grant tg h) /\
  forall i j tg tg' w w' hold hold', s.(handlers) !! i = Some (TicketH tg (Some w) PHold true hold) ->
    s.(handlers) !! j = Some (TicketH tg' (Some w') PHold true hold') -> w.(ptr) = w'.(ptr) -> i = j.
Proof.
  intros []%link_reach. split_and!; [done|..].
  - intros i tg w hold Hi. destruct (li_own0 _ _ Hi) as [_ Hr]. by apply Hr.
  - intros i j tg tg' w w' hold hold' Hi Hj Hp. apply (li_inj0 _ _ _ _ w.(ptr) Hi Hj); [done|]. cbn. by rewrite Hp.
Qed.
End Session.

(** ** The deadline of an anonymous session *)

Section Deadline.

(** The grants a session holds, its timers with their deadlines, the clock, the
    server's count of pending sessions, and since when the session has held no
    grant. *)
Record dstate := mkD {
  d_held : heldGrants;
  d_timers : gmap nat Time;
  d_now : Time;
  d_count : Z;
  d_idle : Time
}.

(** Grants are held and released by handlers in pairs ([session_counters_exact]),
    and [watch] is called once, by serveSession. Any timer past its deadline may
    run its function at any time. *)
Inductive dstep : dstate -> dstate -> Prop :=
| d_tick x d : 0 <= d -> dstep x (mkD x.(d_held) x.(d_timers) (x.(d_now) + d) x.(d_count) x.(d_idle))
| d_holding x h c :
    holding x.(d_held) x.(d_count) = (h, c) -> dstep x (mkD h x.(d_timers) x.(d_now) c x.(d_idle))
| d_released x h ts :
    0 < x.(d_held).(live) -> released x.(d_now) x.(d_held) x.(d_timers) = (h, ts) ->
    dstep x (mkD h ts x.(d_now) x.(d_count) (if h.(live) =? 0 then x.(d_now) else x.(d_idle)))
| d_watch x w h ts :
    0 <= w -> x.(d_held).(timer) = None -> x.(d_held).(expire) = false ->
    watch w x.(d_now) x.(d_held) x.(d_timers) = (h, ts) ->
    dstep x (mkD h ts x.(d_now) x.(d_count) x.(d_idle))
| d_unwatch x h c :
    unwatch x.(d_held) x.(d_count) = (h, c) -> dstep x (mkD h x.(d_timers) x.(d_now) c x.(d_idle))
| d_fire x t dl b h :
    x.(d_timers) !! t = Some dl -> dl <= x.(d_now) -> fire t x.(d_held) = (b, h) ->
    dstep x (mkD h x.(d_timers) x.(d_now) x.(d_count) x.(d_idle)).

Definition d_start (now count : Z) : dstate := mkD (newHeld true) ∅ now count now.

Record d_inv (count : Z) (x : dstate) : Prop := {
  di_live : 0 <= x.(d_held).(live);
  di_idle : x.(d_idle) <= x.(d_now);
  di_wait : 0 <= x.(d_held).(wait);
  di_timer t : x.(d_held).(timer) = Some t -> exists dl, x.(d_timers) !! t = Some dl;
  di_armed : x.(d_held).(live) = 0 -> x.(d_held).(expire) = true ->
    exists t dl, x.(d_held).(timer) = Some t /\ x.(d_timers) !! t = Some dl /\
      x.(d_idle) + x.(d_held).(wait) <= dl <= x.(d_now) + x.(d_held).(wait);
  di_count : x.(d_count) = count - (if x.(d_held).(h_pending) then 0 else 1)
}.

Lemma releasePending_spec h c h' c' :
  releasePending h c = (h', c') ->
  h'.(live) = h.(live) /\ h'.(timer) = h.(timer) /\ h'.(expire) = h.(expire) /\ h'.(wait) = h.(wait) /\
  h'.(h_pending) = false /\ c' = c - (if h.(h_pending) then 1 else 0).
Proof. unfold releasePending. destruct (h_pending h) eqn:Hp; intros [= <- <-]; cbn; split_and!; auto; lia. Qed.

Lemma dstep_inv count x y : dstep x y -> d_inv count x -> d_inv count y.
Proof.
  intros Hst []. destruct Hst as [x d Hd|x h c Hh|x h ts Hl Hr|x w h ts Hw Ht He Hwt|x h c Hu|x t dl b h Ht Hdl Hf].
  - split; cbn; auto; [lia|]. intros H1 H2. destruct (di_armed0 H1 H2) as (t & dl & ? & ? & ?). exists t, dl.
    split_and!; auto; lia.
  - unfold holding in Hh. apply releasePending_spec in Hh as (Hl & Ht & He & Hw & Hp & ->). cbn in *.
    split; cbn; rewrite ?Hl, ?Ht, ?He, ?Hw, ?Hp; auto; [lia|intros; lia|]. rewrite di_count0. cbn. destruct (h_pending (d_held x)); lia.
  - unfold released in Hr. cbn in Hr. destruct (live (d_held x) + -1 =? 0) eqn:Hz; bool_prop.
    + destruct (expire (d_held x)) eqn:Hex; cbn in Hr.
      * unfold armLocked in Hr. injection Hr as <- <-. rewrite Hz. cbn. split; cbn; auto; try lia.
        -- intros t [= <-]. rewrite lookup_insert_eq. eauto.
        -- intros _ _. eexists _, _. rewrite lookup_insert_eq. split_and!; [done|done|lia|lia].
      * injection Hr as <- <-. cbn. rewrite Hz. cbn. split; cbn; auto; try lia. congruence.
    + cbn in Hr. injection Hr as <- <-. cbn.
      replace (live (d_held x) + -1 =? 0) with false by (symmetry; by apply Z.eqb_neq).
      split; cbn; auto; lia.
  - unfold watch in Hwt. cbn in Hwt. destruct (live (d_held x) =? 0) eqn:Hz; bool_prop.
    + unfold armLocked in Hwt. injection Hwt as <- <-. split; cbn; auto; try lia.
      * intros t [= <-]. rewrite lookup_insert_eq. eauto.
      * intros _ _. eexists _, _. rewrite lookup_insert_eq. split_and!; [done|done|lia|lia].
    + injection Hwt as <- <-. split; cbn; auto; try lia.
  - unfold unwatch in Hu. apply releasePending_spec in Hu as (Hl & Ht & He & Hw & Hp & ->). cbn in *.
    split; cbn; rewrite ?Hl, ?Ht, ?He, ?Hw, ?Hp; auto; [done|]. rewrite di_count0. cbn. destruct (h_pending (d_held x)); lia.
  - unfold fire in Hf. destruct (negb _ || _ || _); inversion Hf; subst; split; cbn; auto; done.
Qed.

Lemma d_reach_inv now count x : rtc dstep (d_start now count) x -> d_inv count x.
Proof.
  intros Hr. assert (d_inv count (d_start now count)) as H0'.
  { split; cbn; try done; lia. }
  induction Hr; eauto using dstep_inv.
Qed.

(** The deadline closes an anonymous session exactly when it should. A timer
    past its deadline closes the session only if it holds no grant and has held
    none for the whole wait, whatever grants came and went before; and while a
    watched session holds none, its current timer closes it within the wait.
    The server's count of pending sessions drops by one at most once per
    session. *)
Theorem deadline_exact now count x :
  rtc dstep (d_start now count) x ->
  (forall t dl h, x.(d_timers) !! t = Some dl -> dl <= x.(d_now) -> fire t x.(d_held) = (true, h) ->
     x.(d_held).(live) = 0 /\ x.(d_idle) + x.(d_held).(wait) <= x.(d_now) /\ h.(closedFor) = true) /\
  (x.(d_held).(live) = 0 -> x.(d_held).(expire) = true ->
     exists t dl, x.(d_timers) !! t = Some dl /\ dl <= x.(d_now) + x.(d_held).(wait) /\ (fire t x.(d_held)).1 = true) /\
  x.(d_count) = count - (if x.(d_held).(h_pending) then 0 else 1).
Proof.
  intros []%d_reach_inv. split_and!; [| |done].
  - intros t dl h Ht Hdl Hf. unfold fire in Hf. case_match eqn:Hc; [done|]. injection Hf as <-. bool_prop.
    assert (live (d_held x) = 0) as Hl by lia. destruct (di_armed0 Hl) as (t' & dl' & Ht' & Hd' & Hr); [done|].
    assert (t' = t) as -> by congruence. assert (dl' = dl) as -> by congruence. split_and!; [done|lia|done].
  - intros Hl He. destruct (di_armed0 Hl He) as (t & dl & Ht & Hd & Hr). exists t, dl. split_and!; [done|lia|].
    unfold fire. rewrite Ht, Hl, He, bool_decide_true by done. done.
Qed.
End Deadline.

(** ** The verifier implements the interface *)

Section Instance_.
Context `{Moqt} `{CryptoLaws} `{JsonText} (int64_oor : float64 -> Z).

#[export] Instance verifier_tickets : TicketVerifier Verifier := {|
  tv_Ticket c k p now v := Ticket int64_oor c k p now v;
  tv_FirstTicket c now v := FirstTicket int64_oor c now v;
  tv_good v := store_ok v.(store)
|}.

#[export] Instance verifier_tickets_laws : TicketVerifierLaws Verifier.
Proof.
  split.
  - intros c k p now v g Hst Ht. change (Ticket int64_oor c k p now v = Ok g) in Ht. unfold Ticket in Ht. apply bind_Ok in Ht as ([g' u] & _ & Ht).
    apply bind_Ok in Ht as ([] & Hne%guard_err_Ok & Ht). apply bind_Ok in Ht as ([] & Hid%guard_err_Ok & [= <-]).
    bool_prop. done.
  - intros c now v g Hst Ht. change (FirstTicket int64_oor c now v = Ok g) in Ht. unfold FirstTicket in Ht.
    destruct (decide_credential _ _ _ _ _ _) as [[g' u]|] eqn:Hd; [|done]. injection Ht as <-.
    apply decide_inv in Hd as (keys & cr & cl & Hs & _ & _ & Hv & -> & _). cbn.
    destruct (verified_key _ _ _ _ _ _ (Hst _ Hs) Hv) as [Hk _].
    destruct (Hst _ Hs _ _ Hk) as (_ & -> & _). apply thumbprint_nonempty.
Qed.
End Instance_.
