(* ===== verification/AdmitExample.v ===== *)
(** * A worked example of a session's handlers

    An anonymous session that presents the token example's token as its first
    ticket, and the deadline of one that presents none: the witnesses of the
    theorems of AdmitSession.v. *)
From S2P Require Import Prelude GoStrings TokenPath TokenGrant GoTime Base64 TokenClaims TokenKey Token.
From S2P Require Import TokenExample Usage GoURL AuthVerifier AuthExample RootHolds AdmitSession.

#[local] Open Scope Z_scope.
#[local] Existing Instances literal_moqt toy_crypto toy_crypto_laws toy_json.
#[local] Instance acme_tickets : TicketVerifier Verifier := verifier_tickets oor.

Definition acme_anon : AuthGrant := mkAuthGrant no_grant revalidateEvery "" zero_time true.

Definition acme_presented : session :=
  serveAuth 0 (TicketH acme_grant None PBind false false) (session_start acme_anon true).

Definition acme_session (n : nat) : session := Nat.iter n (handler_step acme_anon true 0) acme_presented.

Lemma acme_presented_step : sstep acme_anon (session_start acme_anon true) acme_presented.
Proof.
  apply (ss_ticket acme_anon (session_start acme_anon true) 0 acme_token signed_at acme_verifier acme_grant);
    [done|apply acme_store_ok|]. vm_compute. reflexivity.
Qed.

Lemma acme_reach n : (n <= 8)%nat -> rtc (sstep acme_anon) (session_start acme_anon true) (acme_session n).
Proof.
  induction n as [|n IH]; intros Hn; [apply rtc_once, acme_presented_step|].
  eapply rtc_r; [apply IH; lia|]. apply ss_handler.
  do 8 (destruct n as [|n]; [vm_compute; reflexivity|]). lia.
Qed.

(** The ticket is granted, and holds. *)
Definition acme_withdrawal : withdrawal := mkWithdrawal 0 1 "/acme/room/" roleRelay false.

Example acme_granted :
  (acme_session 8).(handlers) !! 0%nat = Some (TicketH acme_grant (Some acme_withdrawal) PHold true true).
Proof. vm_compute. reflexivity. Qed.

Lemma anonymous_session_one_tenant_witness :
  acme_grant.(keyID) = boundKey (acme_session 8).(held_grants) /\
  exists pub rest, (acme_session 8).(calls) = CallBind (boundKey (acme_session 8).(held_grants)) pub :: rest /\
    (rest = [] \/ rest = [CallPublishing] /\ pub = false).
Proof.
  apply (anonymous_session_one_tenant acme_anon (V := Verifier) true (acme_session 8) 0 acme_grant (Some acme_withdrawal) PHold true);
    [done|apply acme_reach; lia|vm_compute; reflexivity|by left].
Defined.

Lemma session_counters_exact_witness :
  (acme_session 8).(credentials) = Z.of_nat (size (acme_session 8).(handlers)) /\
  (acme_session 8).(credentials) <= maxCredentials /\
  (acme_session 8).(held_grants).(live) = cnt holds_h (acme_session 8).(handlers) /\
  (anon acme_anon = true -> (acme_session 8).(held_grants).(inFlight) = cnt flying_h (acme_session 8).(handlers)).
Proof. apply (session_counters_exact acme_anon (V := Verifier) true). apply acme_reach. lia. Defined.

Lemma session_refines_holds_witness :
  rtc hold_step (hold_start "") (acme_session 8).(roots) /\
  (forall i tg w hold, (acme_session 8).(handlers) !! i = Some (TicketH tg w PHold true hold) ->
     exists h, w = Some h /\ (acme_session 8).(roots).(held) !! h.(ptr) = Some h /\ for_grant tg h) /\
  forall i j tg tg' w w' hold hold',
    (acme_session 8).(handlers) !! i = Some (TicketH tg (Some w) PHold true hold) ->
    (acme_session 8).(handlers) !! j = Some (TicketH tg' (Some w') PHold true hold') -> w.(ptr) = w'.(ptr) -> i = j.
Proof. apply (session_refines_holds acme_anon (V := Verifier) true). apply acme_reach. lia. Defined.

(** A session that presents nothing for its wait of ten seconds. *)
Definition idle_watched : dstate :=
  mkD (watch (10 * Second) 5 (newHeld true) ∅).1 (watch (10 * Second) 5 (newHeld true) ∅).2 5 3 5.
Definition idle_late : dstate :=
  mkD idle_watched.(d_held) idle_watched.(d_timers) (5 + 10 * Second) 3 5.

Lemma idle_late_reach : rtc dstep (d_start 5 3) idle_late.
Proof.
  apply (rtc_l _ _ idle_watched).
  - apply (d_watch (d_start 5 3) (10 * Second) _ _); [unfold Second; lia|done|done|reflexivity].
  - apply rtc_once. apply (d_tick idle_watched (10 * Second)). unfold Second. lia.
Qed.

Lemma deadline_exact_witness :
  (forall t dl h, idle_late.(d_timers) !! t = Some dl -> dl <= idle_late.(d_now) ->
     fire t idle_late.(d_held) = (true, h) ->
     idle_late.(d_held).(live) = 0 /\ idle_late.(d_idle) + idle_late.(d_held).(wait) <= idle_late.(d_now) /\
     h.(closedFor) = true) /\
  (idle_late.(d_held).(live) = 0 -> idle_late.(d_held).(expire) = true ->
     exists t dl, idle_late.(d_timers) !! t = Some dl /\ dl <= idle_late.(d_now) + idle_late.(d_held).(wait) /\
       (fire t idle_late.(d_held)).1 = true) /\
  idle_late.(d_count) = 3 - (if idle_late.(d_held).(h_pending) then 0 else 1).
Proof. apply (deadline_exact 5 3 idle_late), idle_late_reach. Defined.

Example idle_closed : (fire 0 idle_late.(d_held)).1 = true.
Proof. vm_compute. reflexivity. Qed.
