(* ===== verification/Lease.v ===== *)
(** * internal/relay/lease.go: re-checking a live session

    A lease owns one timer. When it fires, the check looks at [stopped], asks
    [Authorize] without the lock, and decides the reply under the lock; the
    session may be stopped in between. [lstep] is that machine, for any
    authorize function whose admitted grants have a cadence, which
    [Verifier.Authorize] is. *)
From S2P Require Import Prelude GoStrings TokenPath TokenGrant GoTime Base64 TokenClaims TokenKey Token.
From S2P Require Import Usage GoURL AuthVerifier.

#[local] Open Scope Z_scope.

Definition revalidateRetryBase : Duration := Second.
Definition revalidateRetryMax : Duration := 30 * Second.
Definition endRefused : string := "refused".
Definition endClosed : string := "closed".
Definition endDropped : string := "dropped".

(** An Authorize reply: an error, no grant (the session is not checked), or a
    grant. *)
Abbreviation reply := (result auth_error (option AuthGrant)).

Inductive outcome := authUnchecked | authAdmitted (g : AuthGrant) | authRefused | authError.

Definition authOutcome (r : reply) : outcome :=
  match r with
  | Ok None => authUnchecked
  | Ok (Some g) => authAdmitted g
  | Err e => if is_refused e then authRefused else authError
  end.

Record lease := mkLease { cadence : Duration; failures : Z; stopped : bool; ended : string }.

(** The lease, and the delay its timer is set to. *)
Definition startLease (c : Duration) : option (lease * Duration) :=
  if c <=? 0 then None else Some (mkLease c 0 false "", c).

Definition stop (l : lease) : lease := mkLease l.(cadence) l.(failures) true l.(ended).

Definition endedBy (o : option lease) : string := match o with Some l => l.(ended) | None => "" end.

(** The backoff before the [attempt]-th retry; [rnd n] is [rand.N(n)]. *)
Definition retryDelay (rnd : Z -> Z) (attempt : Z) : Duration :=
  let d := Z.shiftl revalidateRetryBase ((attempt - 1) `min` 30) `min` revalidateRetryMax in
  d / 2 + rnd (d / 2 + 1).

(** [check] once the reply is there: the reason to end the session, or [""],
    the lease, and the delay the timer is reset to. *)
Definition check_reply (rnd : Z -> Z) (r : reply) (l : lease) : string * lease * option Duration :=
  if l.(stopped) then ("", l, None)
  else
    let rearm l' next : string * lease * option Duration := ("", l', if 0 <? next then Some next else None) in
    match authOutcome r with
    | authRefused => (endRefused, mkLease l.(cadence) l.(failures) true endRefused, None)
    | authError => rearm (mkLease l.(cadence) (l.(failures) + 1) false l.(ended)) (retryDelay rnd (l.(failures) + 1))
    | authAdmitted g => rearm (mkLease g.(revalidate) 0 false l.(ended)) g.(revalidate)
    | authUnchecked => rearm (mkLease l.(cadence) 0 false l.(ended)) l.(cadence)
    end.

(** Why a session's connection ended, as far as [endReason] tells causes apart. *)
Inductive cause := IdleTimeout | StatelessReset | LostStream | OtherClose.

Definition endReason (l : option lease) (c : cause) : string :=
  if negb (bool_decide (endedBy l = "")) then endedBy l
  else match c with IdleTimeout | StatelessReset | LostStream => endDropped | OtherClose => endClosed end.

(** ** The lease of a running session *)

(** The timer is armed, a check is waiting for its reply, or neither. *)
Inductive phase := Armed (at_ : Time) | Checking | Off.

(** [decided] are the replies decided while the session was not stopped, newest
    first, and [closing] whether the lease closed the session. *)
Record lsys := mkLsys { ls : lease; ph : phase; clock : Time; decided : list reply; closing : bool }.

Section Lease.
Context {V : Type} (authorize : Request -> Time -> V -> reply * V).
Variable every : Duration.

(** What the lease relies on: a grant that admits names a cadence, no longer
    than [every]. *)
Hypothesis authorize_cadence : forall req now v g,
  req.(Event) = EventRevalidate -> (authorize req now v).1 = Ok (Some g) -> 0 < g.(revalidate) <= every.
Hypothesis every_pos : 0 < every.

Definition rnd_ok (rnd : Z -> Z) : Prop := forall n, 0 < n -> 0 <= rnd n < n.

Definition after (o : option Duration) (now : Time) : phase :=
  match o with Some d => Armed (now + d) | None => Off end.

Inductive lstep : lsys -> lsys -> Prop :=
| l_tick x d : 0 <= d -> lstep x (mkLsys x.(ls) x.(ph) (x.(clock) + d) x.(decided) x.(closing))
| l_fire x t :
    x.(ph) = Armed t -> t <= x.(clock) ->
    lstep x (mkLsys x.(ls) (if x.(ls).(stopped) then Off else Checking) x.(clock) x.(decided) x.(closing))
| l_reply x req v rnd reason l next :
    x.(ph) = Checking -> req.(Event) = EventRevalidate -> rnd_ok rnd ->
    check_reply rnd (authorize req x.(clock) v).1 x.(ls) = (reason, l, next) ->
    lstep x (mkLsys l (after next x.(clock)) x.(clock)
               (if x.(ls).(stopped) then x.(decided) else (authorize req x.(clock) v).1 :: x.(decided))
               (negb (bool_decide (reason = "")) || x.(closing)))
| l_stop x : lstep x (mkLsys (stop x.(ls)) x.(ph) x.(clock) x.(decided) x.(closing)).

(** How long the lease may wait for its next check. *)
Definition patience : Duration := every `max` revalidateRetryMax.

Definition refused_reply (r : reply) : bool := match authOutcome r with authRefused => true | _ => false end.

Record lease_inv (x : lsys) : Prop := {
  lv_cadence : 0 < x.(ls).(cadence) <= patience;
  lv_failures : 0 <= x.(ls).(failures);
  lv_armed : forall t, x.(ph) = Armed t -> t <= x.(clock) + patience;
  lv_running : x.(ls).(stopped) = false -> x.(ph) <> Off /\ x.(closing) = false;
  lv_closing : x.(closing) = existsb refused_reply x.(decided);
  lv_ended : x.(ls).(ended) = if x.(closing) then endRefused else ""
}.

Lemma retryDelay_bounds rnd n :
  rnd_ok rnd -> 0 < n -> revalidateRetryBase / 2 <= retryDelay rnd n <= revalidateRetryMax.
Proof.
  intros Hr Hn. unfold retryDelay. set (k := (n - 1) `min` 30). assert (0 <= k <= 30) as Hk by lia. clearbody k.
  rewrite Z.shiftl_mul_pow2 by lia.
  assert (1 <= 2 ^ k) by (change 1 with (2 ^ 0); apply Z.pow_le_mono_r; lia).
  set (d := _ `min` _). assert (revalidateRetryBase <= d <= revalidateRetryMax) as Hd.
  { subst d. unfold revalidateRetryBase, revalidateRetryMax, Second. lia. }
  clearbody d. specialize (Hr (d / 2 + 1)). unfold revalidateRetryBase, revalidateRetryMax, Second in *.
  pose proof (Z.div_mod d 2). pose proof (Z.mod_pos_bound d 2). pose proof (Z.div_le_mono 1000000000 d 2). lia.
Qed.

Lemma check_reply_cases rnd r l reason l' next :
  l.(stopped) = false -> check_reply rnd r l = (reason, l', next) ->
  (refused_reply r = true /\ reason = endRefused /\ l' = mkLease l.(cadence) l.(failures) true endRefused /\ next = None) \/
  (refused_reply r = false /\ reason = "" /\ l'.(stopped) = false /\ l'.(ended) = l.(ended) /\
   exists d, next = (if 0 <? d then Some d else None) /\
     ((exists g, r = Ok (Some g) /\ d = g.(revalidate) /\ l'.(cadence) = d /\ l'.(failures) = 0) \/
      (d = l.(cadence) /\ l'.(cadence) = d /\ l'.(failures) = 0) \/
      (d = retryDelay rnd (l.(failures) + 1) /\ l'.(cadence) = l.(cadence) /\ l'.(failures) = l.(failures) + 1))).
Proof.
  intros Hs. unfold check_reply, refused_reply. rewrite Hs. destruct r as [[g|]|e]; cbn [authOutcome].
  - intros [= <- <- <-]. right. split_and!; try done. exists g.(revalidate). split; [done|]. left. by exists g.
  - intros [= <- <- <-]. right. split_and!; try done. exists l.(cadence). split; [done|]. by right; left.
  - destruct (is_refused e); intros [= <- <- <-]; [by left|]. right. split_and!; try done.
    exists (retryDelay rnd (l.(failures) + 1)). split; [done|]. by right; right.
Qed.

Lemma lstep_inv x y : lease_inv x -> lstep x y -> lease_inv y.
Proof using authorize_cadence every_pos.
  intros Hi Hst. destruct Hst as [x d Hd|x t Hp Ht|x req v rnd reason l next Hp He Hrnd Hc|x]; destruct Hi.
  - split; cbn; try done. intros t Hp. specialize (lv_armed0 _ Hp). lia.
  - split; cbn; try done.
    + intros t'. by destruct (stopped (ls x)).
    + intros Hs. rewrite Hs. split; [done|]. by apply lv_running0.
  - destruct (stopped (ls x)) eqn:Hs.
    + unfold check_reply in Hc. rewrite Hs in Hc. injection Hc as <- <- <-. cbn. split; cbn; try done. congruence.
    + destruct (lv_running0 eq_refl) as [_ Hncl].
      destruct (check_reply_cases _ _ _ _ _ _ Hs Hc) as [(Hr & -> & -> & ->)|(Hr & -> & Hs' & He' & d & -> & Hd)].
      * split; cbn; try done. by rewrite Hr.
      * assert (0 < d <= patience /\ 0 < cadence l <= patience /\ 0 <= failures l) as (Hdp & Hcp & Hfp).
        { unfold patience in *. destruct Hd as [(g & Hg & -> & -> & ->)|[(-> & -> & ->)|(-> & -> & ->)]].
          - specialize (authorize_cadence _ _ _ _ He Hg). lia.
          - lia.
          - pose proof (retryDelay_bounds rnd (failures (ls x) + 1) Hrnd ltac:(lia)) as Hb.
            change (revalidateRetryBase / 2) with 500000000 in Hb. split_and!; lia. }
        destruct (Z.ltb_spec 0 d); [|lia]. split; cbn; try done.
        -- intros t [= <-]. lia.
        -- by rewrite Hr, <- lv_closing0.
        -- by rewrite He', lv_ended0, Hncl.
  - split; cbn; try done.
Qed.

Lemma lease_start_inv l d t0 :
  startLease every = Some (l, d) -> lease_inv (mkLsys l (Armed (t0 + d)) t0 [] false).
Proof using every_pos.
  unfold startLease. destruct (Z.leb_spec every 0); [done|]. intros [= <- <-]. unfold patience.
  split; cbn; try done; try lia; unfold patience; [lia|]. intros t [= <-]. lia.
Qed.

(** C8: The lease of a session does what it promises, however its checks
    interleave with the session's end: it closes the session if and only if a
    re-check decided while the session ran was refused, and then names that
    reason; and as long as neither happened nor the session ended, a check is in
    flight or the timer is armed to fire within the cadence or the longest
    retry delay, so no failure to check leaves a session unchecked. *)
Theorem lease_exact l d t0 x :
  startLease every = Some (l, d) -> rtc lstep (mkLsys l (Armed (t0 + d)) t0 [] false) x ->
  (x.(closing) = true <-> exists r, r ∈ x.(decided) /\ refused_reply r = true) /\
  endedBy (Some x.(ls)) = (if x.(closing) then endRefused else "") /\
  (x.(ls).(stopped) = false ->
     x.(closing) = false /\ (x.(ph) = Checking \/ exists t, x.(ph) = Armed t /\ t <= x.(clock) + patience)).
Proof using authorize_cadence every_pos.
  intros Hl Hr. assert (lease_inv x) as [].
  { pose proof (lease_start_inv l d t0 Hl) as Hi. clear Hl. induction Hr; eauto using lstep_inv. }
  split_and!; [|done|].
  - rewrite lv_closing0, existsb_exists. by setoid_rewrite list_elem_of_In.
  - intros Hs. destruct (lv_running0 Hs) as [Hoff Hncl]. split; [done|].
    destruct (ph x) as [t| |] eqn:Hp; [right; eauto|by left|done].
Qed.
End Lease.

(** ** The verifier's re-checks *)

Section VerifierLease.
Context `{Moqt} `{Crypto} `{JsonText}.
Variable int64_oor : float64 -> Z.

Definition verifier_authorize (req : Request) (now : Time) (v : Verifier) : reply * Verifier :=
  let '(r, v') := Authorize int64_oor req now v in (Some <$> r, v').

Lemma verifier_cadence req now v g :
  (verifier_authorize req now v).1 = Ok (Some g) -> 0 < g.(revalidate) <= revalidateEvery.
Proof.
  unfold verifier_authorize. destruct (Authorize int64_oor req now v) as [r v'] eqn:Ha. cbn.
  destruct r as [g'|e]; [|done]. cbn. intros [= ->]. assert (g.(revalidate) = revalidateEvery) as ->; [|done].
  assert (forall cred con pz, fst <$> decide_credential int64_oor cred con pz now (store v) = Ok g ->
    g.(revalidate) = revalidateEvery) as Hd.
  { intros cred con pz Hd. destruct (decide_credential int64_oor cred con pz now (store v)) as [[g' u]|] eqn:Hdc; [|done].
    apply decide_inv in Hdc as (? & ? & c & _ & _ & _ & _ & -> & _). cbn in Hd. by apply Ok_inj in Hd as <-. }
  unfold Authorize in Ha. destruct (credentialOf (Query req)) as [c|[s| |]]; cbn iota in Ha;
    try (injection Ha as Ha _; by eapply Hd).
  unfold anonymous_session in Ha. injection Ha as Ha _. by rewrite <- Ha.
Qed.
End VerifierLease.
