(* ===== verification/LeaseExample.v ===== *)
(** * A worked example of a lease

    The session of AuthExample.v, re-checked once by a verifier whose key set no
    longer lists its key: the witness of the theorem of Lease.v. *)
From S2P Require Import Prelude GoStrings TokenPath TokenGrant GoTime Base64 TokenClaims TokenKey Token.
From S2P Require Import TokenExample Usage GoURL AuthVerifier AuthExample Lease.

#[local] Open Scope Z_scope.
#[local] Existing Instances literal_moqt toy_crypto toy_json.

Definition ex_lease : lease := mkLease revalidateEvery 0 false "".
Definition ex_rotated : Verifier := mkVerifier (mkStore (Some (delete acme_public.(ID) acme_keys)) signed_at) None.
Definition ex_lsys : lsys := mkLsys ex_lease (Armed (signed_at + revalidateEvery)) signed_at [] false.
Definition ex_refusal : reply := Err (Refused StatusUnauthorized).
Definition ex_ended : lsys :=
  mkLsys (mkLease revalidateEvery 0 true endRefused) Off (signed_at + revalidateEvery) [ex_refusal] true.

Lemma ex_reply : (verifier_authorize oor acme_recheck (signed_at + revalidateEvery) ex_rotated).1 = ex_refusal.
Proof. vm_compute. reflexivity. Qed.

Lemma zero_rnd : rnd_ok (fun _ => 0).
Proof. intros n Hn. lia. Qed.

Lemma ex_lease_run : rtc (lstep (verifier_authorize oor)) ex_lsys ex_ended.
Proof.
  eapply rtc_l; [apply (l_tick _ ex_lsys revalidateEvery); done|].
  eapply rtc_l; [apply (l_fire _ _ (signed_at + revalidateEvery)); [reflexivity|cbn; lia]|]. cbn.
  eapply rtc_l; [|apply rtc_refl].
  pose proof (l_reply (verifier_authorize oor)
    (mkLsys ex_lease Checking (signed_at + revalidateEvery) [] false) acme_recheck ex_rotated (fun _ => 0)
    endRefused (mkLease revalidateEvery 0 true endRefused) None eq_refl eq_refl zero_rnd) as Hs.
  cbn [clock ls decided closing stopped ex_lease] in Hs. rewrite ex_reply in Hs. by apply Hs.
Qed.

Lemma lease_exact_witness :
  (true = true <-> exists r, r ∈ [ex_refusal] /\ refused_reply r = true) /\ endRefused = endRefused.
Proof.
  destruct (lease_exact (verifier_authorize oor) revalidateEvery
    (fun req now v g _ => verifier_cadence oor req now v g) eq_refl ex_lease revalidateEvery signed_at ex_ended eq_refl ex_lease_run)
    as (Hc & He & _).
  split; [exact Hc|exact He].
Defined.
