(* ===== verification/GoBytes.v ===== *)
(** * Byte streams

    A byte is a [Z] below 256 and a byte slice a list of them. Reading functions
    take what is left of the stream and return what they read with the rest;
    [None] is the reader's error, which at the end of a stream is [io.EOF] or
    [io.ErrUnexpectedEOF]. *)
From S2P Require Import Prelude.

#[local] Open Scope Z_scope.

Abbreviation bytes := (list Z).

Definition byte_ok (b : Z) : Prop := 0 <= b < 256.
Definition bytes_ok (l : bytes) : Prop := Forall byte_ok l.

(** [byte(v)], the conversion of an integer to a byte. *)
Definition byte (v : Z) : Z := v mod 256.

(** The [n] big-endian bytes of [v] ([binary.BigEndian.PutUint16], [PutUint32],
    [PutUint64]) and the integer of big-endian bytes. *)
Fixpoint be (n : nat) (v : Z) : bytes :=
  match n with
  | O => []
  | S n' => byte (v / 256 ^ Z.of_nat n') :: be n' v
  end.

Fixpoint of_be (l : bytes) : Z :=
  match l with
  | [] => 0
  | b :: l' => b * 256 ^ Z.of_nat (length l') + of_be l'
  end.

(** [io.ReadFull] of [n] bytes. *)
Definition read_full (n : Z) (s : bytes) : option (bytes * bytes) :=
  if Z.of_nat (length s) <? n then None else Some (take (Z.to_nat n) s, drop (Z.to_nat n) s).

Lemma length_be n v : length (be n v) = n.
Proof. induction n; cbn; congruence. Qed.

Lemma be_ok n v : bytes_ok (be n v).
Proof.
  induction n; cbn; constructor; [|done]. unfold byte_ok, byte. apply Z.mod_pos_bound. lia.
Qed.

Lemma of_be_be n v : 0 <= v -> of_be (be n v) = v mod 256 ^ Z.of_nat n.
Proof.
  intros Hv. induction n as [|n IH]; [cbn; by rewrite Z.mod_1_r|].
  cbn [be of_be]. rewrite length_be, IH, Nat2Z.inj_succ, Z.pow_succ_r by lia. unfold byte.
  rewrite (Z.mul_comm 256), Z.rem_mul_r by lia. lia.
Qed.

Lemma of_be_be_id n v : 0 <= v < 256 ^ Z.of_nat n -> of_be (be n v) = v.
Proof. intros Hv. rewrite of_be_be by lia. apply Z.mod_small. lia. Qed.

Lemma of_be_range l : bytes_ok l -> 0 <= of_be l < 256 ^ Z.of_nat (length l).
Proof.
  induction 1 as [|b l Hb _ IH]; cbn [of_be length]; [cbn; lia|].
  rewrite Nat2Z.inj_succ, Z.pow_succ_r by lia. unfold byte_ok in Hb. nia.
Qed.

Lemma be_mod n v : be n (v mod 256 ^ Z.of_nat n) = be n v.
Proof.
  assert (forall k, (n <= k)%nat -> forall v, be n (v mod 256 ^ Z.of_nat k) = be n v) as H; [|by apply (H n)].
  clear v. induction n as [|n IH]; intros k Hk v; [done|]. cbn [be]. f_equal; [|apply IH; lia]. unfold byte.
  replace (Z.of_nat k) with (Z.of_nat n + 1 + Z.of_nat (k - S n)) by lia. rewrite !Z.pow_add_r, Z.pow_1_r by lia.
  set (P := 256 ^ Z.of_nat n). set (Q := 256 ^ Z.of_nat (k - S n)). assert (0 < P) by (apply Z.pow_pos_nonneg; lia). assert (0 < Q) by (apply Z.pow_pos_nonneg; lia).
  rewrite <- (Z.mul_assoc P), (Z.rem_mul_r v P (256 * Q)) by lia. rewrite (Z.mul_comm P), Z.div_add, (Z.div_small (v mod P)), Z.add_0_l by (try apply Z.mod_pos_bound; lia).
  rewrite Z.rem_mul_r by lia. rewrite (Z.mul_comm 256), Z.mod_add by lia. apply Z.mod_mod. lia.
Qed.

Lemma be_of_be l : bytes_ok l -> be (length l) (of_be l) = l.
Proof.
  induction 1 as [|b l Hb Hl IH]; [done|]. cbn [length be of_be]. pose proof (of_be_range l Hl) as Hr. unfold byte_ok, byte in *. f_equal.
  - rewrite Z.div_add_l, (Z.div_small (of_be l)), Z.add_0_r by lia. apply Z.mod_small. lia.
  - rewrite <- (be_mod _ (b * _ + of_be l)), (Z.add_comm (b * _)), Z.mod_add, Z.mod_small by lia. done.
Qed.

Lemma read_full_app n a rest : Z.of_nat (length a) = n -> read_full n (a ++ rest) = Some (a, rest).
Proof.
  intros Hn. unfold read_full. rewrite length_app.
  destruct (Z.ltb_spec (Z.of_nat (length a + length rest)) n); [lia|].
  replace (Z.to_nat n) with (length a) by lia. by rewrite take_app_length, drop_app_length.
Qed.

Lemma read_full_inv n s a rest :
  0 <= n -> read_full n s = Some (a, rest) -> s = a ++ rest /\ Z.of_nat (length a) = n.
Proof.
  intros Hn. unfold read_full. destruct (Z.ltb_spec (Z.of_nat (length s)) n); [done|]. intros [= <- <-].
  rewrite take_drop, length_take. split; [done|]. lia.
Qed.

Lemma read_full_length n s a rest :
  0 <= n -> read_full n s = Some (a, rest) -> Z.of_nat (length s) = n + Z.of_nat (length rest).
Proof. intros Hn Hr. apply read_full_inv in Hr as [-> Hl]; [|done]. rewrite length_app. lia. Qed.

(** ** Indices and slices

    [b[i]], [b[lo:hi]] and [binary.BigEndian.Uint16(b[i:])], with the error that
    stands for Go's panic out of range. *)
Section Range.
Context {E : Type} (panic : E).

Definition index_or (b : bytes) (i : Z) : result E Z :=
  if i <? 0 then Err panic else of_option panic (b !! Z.to_nat i).
Definition slice_or (b : bytes) (lo hi : Z) : result E bytes :=
  guard_err ((0 <=? lo) && (lo <=? hi) && (hi <=? Z.of_nat (length b))) panic;;
  Ok (take (Z.to_nat (hi - lo)) (drop (Z.to_nat lo) b)).
Definition uint16_or (b : bytes) (i : Z) : result E Z :=
  s ← slice_or b i (Z.of_nat (length b)); b0 ← index_or s 0; b1 ← index_or s 1; Ok (b0 * 256 + b1).

Lemma slice_ok b lo hi :
  0 <= lo -> lo <= hi -> hi <= Z.of_nat (length b) -> slice_or b lo hi = Ok (take (Z.to_nat (hi - lo)) (drop (Z.to_nat lo) b)).
Proof. intros H1 H2 H3. unfold slice_or. apply Z.leb_le in H1 as ->, H2 as ->, H3 as ->. done. Qed.

Lemma index_ok b i x : 0 <= i -> b !! Z.to_nat i = Some x -> index_or b i = Ok x.
Proof. intros Hi Hx. unfold index_or. destruct (Z.ltb_spec i 0); [lia|]. by rewrite Hx. Qed.

Lemma index_some b i : 0 <= i < Z.of_nat (length b) -> exists x, b !! Z.to_nat i = Some x /\ index_or b i = Ok x.
Proof.
  intros Hi. destruct (lookup_lt_is_Some_2 b (Z.to_nat i)) as [x Hx]; [lia|]. exists x. split; [done|]. apply index_ok; [lia|done].
Qed.

Lemma slice_mid a b c lo hi :
  lo = Z.of_nat (length a) -> hi = lo + Z.of_nat (length b) -> slice_or (a ++ b ++ c) lo hi = Ok b.
Proof.
  intros -> ->. rewrite slice_ok by (rewrite ?length_app; lia). rewrite Nat2Z.id, drop_app_length.
  replace (Z.to_nat _) with (length b) by lia. by rewrite take_app_length.
Qed.

(** Two bytes at an offset. *)
Lemma uint16_ok buf off s :
  0 <= off -> drop (Z.to_nat off) buf = s ->
  if Z.of_nat (length s) <? 2 then Z.of_nat (length buf) < off + 2 \/ Z.of_nat (length buf) <= off
  else uint16_or buf off = Ok (of_be (take 2 s)) /\ off + 2 <= Z.of_nat (length buf) /\ drop (Z.to_nat (off + 2)) buf = drop 2 s.
Proof.
  intros Ho Hs. assert (Hl : length s = (length buf - Z.to_nat off)%nat) by (by rewrite <- Hs, length_drop).
  destruct (Z.ltb_spec (Z.of_nat (length s)) 2); [lia|]. split; [|split; [lia|]].
  - unfold uint16_or. rewrite slice_ok by lia. cbn [mbind result_bind]. rewrite Hs, take_ge by lia.
    destruct s as [|b0 [|b1 s]]; [cbn in *; lia..|]. rewrite (index_ok _ 0 b0), (index_ok _ 1 b1) by (done || lia).
    cbn [mbind result_bind]. f_equal. cbn. rewrite take_0. cbn. lia.
  - rewrite <- Hs, drop_drop. f_equal. lia.
Qed.
End Range.

(** ** Bits *)

Lemma testbit_high v n i : 0 <= v < 2 ^ n -> 0 <= n -> n <= i -> Z.testbit v i = false.
Proof. intros Hv Hn Hi. rewrite <- (Z.mod_small v (2 ^ n)) by done. by apply Z.mod_pow2_bits_high. Qed.

(** An or of numbers without a common bit is their sum. *)
Lemma lor_shiftl v c n : 0 <= n -> 0 <= c < 2 ^ n -> Z.lor (Z.shiftl v n) c = v * 2 ^ n + c.
Proof.
  intros Hn Hc. rewrite <- Z.shiftl_mul_pow2 by done. rewrite <- Z.add_lor_land.
  replace (Z.land (Z.shiftl v n) c) with 0; [by rewrite Z.add_0_r|]. symmetry. apply Z.bits_inj_iff'. intros i Hi.
  rewrite Z.land_spec, Z.bits_0. destruct (Z.ltb_spec i n).
  - by rewrite Z.shiftl_spec_low.
  - by rewrite (testbit_high c n), andb_false_r.
Qed.

#[export] Hint Rewrite length_be : lens.
