(* ===== verification/Amf0.v ===== *)
(** * internal/rtmp/amf0/amf0.go: AMF0 values

    A Go map is kept as the list of its entries in ascending key order, which
    determines it; [obj[key] = v] is [map_set]. Strings are byte strings. A
    float64 is an IEEE value ([spec_float]) with its binary64 bits
    ([Float64bits]); all NaNs are one. *)
From Stdlib Require Import Sorted.
From S2P Require Import Prelude GoBytes GoTime.

#[local] Open Scope Z_scope.

(** ** float64 bits *)

Definition sign_bit (s : bool) : Z := if s then 2 ^ 63 else 0.

Definition Float64bits (f : float64) : Z :=
  match f with
  | S754_zero s => sign_bit s
  | S754_infinity s => sign_bit s + 2047 * 2 ^ 52
  | S754_nan => 2047 * 2 ^ 52 + 2 ^ 51 + 1
  | S754_finite s m e =>
      if Z.pos m <? 2 ^ 52 then sign_bit s + Z.pos m
      else sign_bit s + (e + 1075) * 2 ^ 52 + (Z.pos m - 2 ^ 52)
  end.

Definition Float64frombits (z : Z) : float64 :=
  let s := 2 ^ 63 <=? z in
  let ex := (z / 2 ^ 52) mod 2 ^ 11 in
  let man := z mod 2 ^ 52 in
  if ex =? 2047 then (if man =? 0 then S754_infinity s else S754_nan)
  else match (if ex =? 0 then man else man + 2 ^ 52) with
       | Z.pos m => S754_finite s m (if ex =? 0 then -1074 else ex - 1075)
       | _ => S754_zero s
       end.

(** The binary64 values: subnormal or normal mantissas. *)
Definition float_ok (f : float64) : Prop :=
  match f with
  | S754_finite _ m e =>
      (Z.pos m < 2 ^ 52 /\ e = -1074) \/ (2 ^ 52 <= Z.pos m < 2 ^ 53 /\ -1074 <= e <= 971)
  | _ => True
  end.

Lemma Float64bits_range f : float_ok f -> 0 <= Float64bits f < 2 ^ 64.
Proof.
  destruct f as [s|s| |s m e]; cbn; unfold sign_bit; try (destruct s; lia); [lia|].
  intros Hf. destruct (Z.ltb_spec (Z.pos m) (2 ^ 52)); destruct s; lia.
Qed.

(** The three fields of a binary64 pattern. *)
Lemma bits_fields s ex man :
  0 <= ex < 2 ^ 11 -> 0 <= man < 2 ^ 52 ->
  let z := sign_bit s + ex * 2 ^ 52 + man in
  (2 ^ 63 <=? z) = s /\ (z / 2 ^ 52) mod 2 ^ 11 = ex /\ z mod 2 ^ 52 = man.
Proof.
  intros He Hm z. assert (z = (ex + (if s then 2 ^ 11 else 0)) * 2 ^ 52 + man) as Hz.
  { subst z. unfold sign_bit. destruct s; lia. }
  split_and!.
  - subst z. unfold sign_bit. destruct s; [apply Z.leb_le|apply Z.leb_gt]; lia.
  - rewrite Hz, Z.div_add_l, Z.div_small by lia. rewrite Z.add_0_r.
    destruct s; [|rewrite Z.add_0_r; by apply Z.mod_small].
    replace (ex + 2 ^ 11) with (ex + 1 * 2 ^ 11) by lia. rewrite Z.mod_add by lia. by apply Z.mod_small.
  - rewrite Hz, Z.add_comm, Z.mod_add by lia. by apply Z.mod_small.
Qed.

Lemma Float64frombits_bits f : float_ok f -> Float64frombits (Float64bits f) = f.
Proof.
  unfold Float64frombits. destruct f as [s|s| |s m e]; cbn [Float64bits float_ok]; intros Hf.
  - destruct (bits_fields s 0 0) as (Hs & He & Hm); [lia|lia|].
    replace (sign_bit s) with (sign_bit s + 0 * 2 ^ 52 + 0) by lia. by rewrite Hs, He, Hm.
  - destruct (bits_fields s 2047 0) as (Hs & He & Hm); [lia|lia|].
    replace (sign_bit s + 2047 * 2 ^ 52) with (sign_bit s + 2047 * 2 ^ 52 + 0) by lia. by rewrite Hs, He, Hm.
  - reflexivity.
  - destruct (Z.ltb_spec (Z.pos m) (2 ^ 52)).
    + destruct (bits_fields s 0 (Z.pos m)) as (Hs & He & Hm); [lia|lia|].
      replace (sign_bit s + Z.pos m) with (sign_bit s + 0 * 2 ^ 52 + Z.pos m) by lia.
      rewrite Hs, He, Hm. cbn. destruct Hf as [[_ ->]|[? _]]; [done|lia].
    + destruct Hf as [[? _]|[Hm He']]; [lia|].
      destruct (bits_fields s (e + 1075) (Z.pos m - 2 ^ 52)) as (Hs & He & Hmm); [lia|lia|].
      rewrite Hs, He, Hmm.
      destruct (Z.eqb_spec (e + 1075) 2047); [lia|]. destruct (Z.eqb_spec (e + 1075) 0); [lia|].
      replace (Z.pos m - 2 ^ 52 + 2 ^ 52) with (Z.pos m) by lia. f_equal. lia.
Qed.

(** ** Values *)

(** [VInt] is a value of any Go integer type, which the encoder converts to
    float64; the decoder never returns one. A [Date] is its time. *)
Inductive value :=
| VNull
| VUndefined
| VBool (b : bool)
| VNumber (f : float64)
| VInt (n : Z)
| VString (s : bytes)
| VObject (m : list (bytes * value))
| VECMAArray (m : list (bytes * value))
| VStrictArray (l : list value)
| VDate (t : Time).

(** Byte-wise order of strings, [sort.Strings]. *)
Fixpoint str_lt (a b : bytes) : bool :=
  match a, b with
  | _, [] => false
  | [], _ :: _ => true
  | x :: a', y :: b' => (x <? y) || ((x =? y) && str_lt a' b')
  end.

(** [m[key] = v]. *)
Fixpoint map_set {A} (key : bytes) (v : A) (m : list (bytes * A)) : list (bytes * A) :=
  match m with
  | [] => [(key, v)]
  | (k, w) :: m' =>
      if bool_decide (key = k) then (key, v) :: m'
      else if str_lt key k then (key, v) :: m else (k, w) :: map_set key v m'
  end.

Inductive amf_error := EOF | ErrInvalidMarker | ErrTooDeep | BadTerminator | KeyTooLong | OutOfFuel.

#[export] Instance amf_error_eq_dec : EqDecision amf_error.
Proof. solve_decision. Defined.

(** ** Encoding *)

Definition MaxUint16 : Z := 65535.

#[local] Opaque be.

Definition writeU16 (v : Z) : bytes := be 2 (wrapu 16 v).
Definition writeU32 (v : Z) : bytes := be 4 (wrapu 32 v).

Definition len (s : bytes) : Z := Z.of_nat (length s).

Definition encodeString (s : bytes) : bytes :=
  if len s <=? MaxUint16 then 2 :: writeU16 (len s) ++ s else 12 :: writeU32 (len s) ++ s.

Definition writeUTF8 (s : bytes) : result amf_error bytes :=
  guard_err (len s <=? MaxUint16) KeyTooLong;; Ok (writeU16 (len s) ++ s).

Definition writeObjectEnd : bytes := writeU16 0 ++ [9].

Definition writeNumber (f : float64) : bytes := be 8 (Float64bits f).

(** [t.UnixMilli()]. *)
Definition UnixMilli (t : Time) : Z := t / Millisecond.

Definition encode_members (enc : value -> result amf_error bytes) : list (bytes * value) -> result amf_error bytes :=
  fix go m :=
    match m with
    | [] => Ok writeObjectEnd
    | (k, v) :: m' => key ← writeUTF8 k; b ← enc v; rest ← go m'; Ok (key ++ b ++ rest)
    end.

Definition encode_items (enc : value -> result amf_error bytes) : list value -> result amf_error bytes :=
  fix go l :=
    match l with
    | [] => Ok []
    | v :: l' => b ← enc v; rest ← go l'; Ok (b ++ rest)
    end.

Fixpoint encodeValue (v : value) : result amf_error bytes :=
  match v with
  | VNull => Ok [5]
  | VUndefined => Ok [6]
  | VBool b => Ok [1; if b then 1 else 0]
  | VNumber f => Ok (0 :: writeNumber f)
  | VInt n => Ok (0 :: writeNumber (float_of_Z n))
  | VString s => Ok (encodeString s)
  | VObject m => b ← encode_members encodeValue m; Ok (3 :: b)
  | VECMAArray m => b ← encode_members encodeValue m; Ok (8 :: writeU32 (Z.of_nat (length m)) ++ b)
  | VStrictArray l => b ← encode_items encodeValue l; Ok (10 :: writeU32 (Z.of_nat (length l)) ++ b)
  | VDate t => Ok (11 :: writeNumber (float_of_Z (UnixMilli t)) ++ writeU16 0)
  end.

Definition Marshal (v : value) : result amf_error bytes := encodeValue v.

(** ** Decoding *)

Definition maxDecodeDepth : nat := 256.

Definition parser (A : Type) := bytes -> result amf_error (A * bytes).

Definition readByte : parser Z := fun s => match s with [] => Err EOF | b :: s' => Ok (b, s') end.

Definition readN (n : Z) : parser bytes := fun s => of_option EOF (read_full n s).

Definition readU16 : parser Z := fun s => '(b, s') ← readN 2 s; Ok (of_be b, s').
Definition readU32 : parser Z := fun s => '(b, s') ← readN 4 s; Ok (of_be b, s').
Definition readNumber : parser float64 := fun s => '(b, s') ← readN 8 s; Ok (Float64frombits (of_be b), s').

Definition readUTF8 : parser bytes := fun s => '(n, s') ← readU16 s; readN n s'.
Definition readLongUTF8 : parser bytes := fun s => '(n, s') ← readU32 s; readN n s'.

Section Decode.
Variable int64_oor : float64 -> Z.

(** [time.UnixMilli(int64(ms))], or the epoch when [ms] is not finite. *)
Definition date_of (ms : float64) : Time :=
  match ms with
  | S754_nan | S754_infinity _ => 0
  | _ => let n := int64_of_float int64_oor ms in time_Unix (n / 1000) ((n mod 1000) * Millisecond)
  end.

(** The loop of [decodeObject], with the decoder of a member's value. Each
    member takes at least one byte, so [fuel] is the length of the input. *)
Fixpoint decodeObject (fuel : nat) (dec : parser value) (obj : list (bytes * value)) : parser (list (bytes * value)) :=
  fun s =>
    '(key, s1) ← readUTF8 s;
    if bool_decide (key = []) then
      '(m, s2) ← readByte s1; guard_err (m =? 9) BadTerminator;; Ok (obj, s2)
    else match fuel with
         | O => Err OutOfFuel
         | S f => '(v, s2) ← dec s1; decodeObject f dec (map_set key v obj) s2
         end.

(** The loop over a strict array's [n] items, which an input of [k] bytes ends
    within [k + 1] rounds. *)
Fixpoint decode_items (fuel : nat) (dec : parser value) (n : Z) : parser (list value) :=
  fun s =>
    if n <=? 0 then Ok ([], s)
    else match fuel with
         | O => Err OutOfFuel
         | S f => '(v, s1) ← dec s; '(l, s2) ← decode_items f dec (n - 1) s1; Ok (v :: l, s2)
         end.

(** [decodeValue] at depth [257 - room]: [room] is how many levels are left
    before [ErrTooDeep]. *)
Fixpoint decodeValue (room : nat) : parser value :=
  fun s =>
    match room with
    | O => Err ErrTooDeep
    | S below =>
        let dec_item := decodeValue below in
        let dec_member := match below with O => fun _ => Err ErrTooDeep | S b => decodeValue b end in
        '(m, s1) ← readByte s;
        match m with
        | 0 => '(f, s2) ← readNumber s1; Ok (VNumber f, s2)
        | 1 => '(b, s2) ← readByte s1; Ok (VBool (negb (b =? 0)), s2)
        | 2 => '(t, s2) ← readUTF8 s1; Ok (VString t, s2)
        | 12 => '(t, s2) ← readLongUTF8 s1; Ok (VString t, s2)
        | 3 => '(o, s2) ← decodeObject (length s1) dec_member [] s1; Ok (VObject o, s2)
        | 5 => Ok (VNull, s1)
        | 6 => Ok (VUndefined, s1)
        | 8 => '(_, s2) ← readU32 s1; '(o, s3) ← decodeObject (length s2) dec_member [] s2; Ok (VECMAArray o, s3)
        | 10 => '(n, s2) ← readU32 s1; '(l, s3) ← decode_items (S (length s2)) dec_item n s2; Ok (VStrictArray l, s3)
        | 11 => '(ms, s2) ← readNumber s1; '(_, s3) ← readU16 s2; Ok (VDate (date_of ms), s3)
        | _ => Err ErrInvalidMarker
        end
    end.

Definition Decode : parser value := decodeValue (S maxDecodeDepth).
Definition Unmarshal (data : bytes) : result amf_error value := fst <$> Decode data.
End Decode.

(** ** Decoding ends *)

Section Total.
Variable int64_oor : float64 -> Z.

(** A parser that never runs out of fuel and, when it succeeds, consumes. *)
Definition consumes {A} (p : parser A) : Prop :=
  forall s, p s <> Err OutOfFuel /\ forall v s', p s = Ok (v, s') -> (length s' < length s)%nat.

Lemma readN_length n s b s' : 0 <= n -> readN n s = Ok (b, s') -> Z.of_nat (length s) = n + Z.of_nat (length s').
Proof. unfold readN. intros Hn Hr%of_option_Ok. by eapply read_full_length. Qed.

Lemma readN_err n s : readN n s <> Err OutOfFuel.
Proof. unfold readN. by destruct (read_full n s). Qed.

Lemma readN_shrinks n s b s' : readN n s = Ok (b, s') -> (length s' <= length s)%nat.
Proof.
  unfold readN, read_full. intros Hr%of_option_Ok. case_match; [done|]. injection Hr as <- <-.
  rewrite length_drop. lia.
Qed.

(** Every reader of a fixed number of bytes consumes. *)
Lemma bind_readN_consumes {A} n (f : bytes -> A) :
  0 < n -> consumes (fun s => '(b, s') ← readN n s; Ok (f b, s')).
Proof.
  intros Hn s. split.
  - pose proof (readN_err n s). by destruct (readN n s) as [[b s']|e]; cbn; [|congruence].
  - intros v s' Hr. destruct (readN n s) as [[b s1]|e] eqn:H1; [|done]. cbn in Hr. injection Hr as <- <-.
    apply readN_length in H1; lia.
Qed.

Lemma readU16_consumes : consumes readU16.
Proof. by apply bind_readN_consumes. Qed.
Lemma readU32_consumes : consumes readU32.
Proof. by apply bind_readN_consumes. Qed.
Lemma readNumber_consumes : consumes readNumber.
Proof. by apply bind_readN_consumes. Qed.

(** Sequencing a consuming parser with one that does not give back. *)
Lemma bind_consumes {A B} (p : parser A) (q : A -> parser B) :
  consumes p ->
  (forall a s, q a s <> Err OutOfFuel /\ forall v s', q a s = Ok (v, s') -> (length s' <= length s)%nat) ->
  consumes (fun s => '(a, s') ← p s; q a s').
Proof.
  intros Hp Hq s. destruct (Hp s) as [Hp1 Hp2]. destruct (p s) as [[a s1]|e]; cbn; [|split; congruence].
  destruct (Hq a s1) as [Hq1 Hq2]. split; [done|]. intros v s' Hv. specialize (Hp2 _ _ eq_refl).
  specialize (Hq2 _ _ Hv). lia.
Qed.

Lemma readN_stays (n : Z) s : readN n s <> Err OutOfFuel /\ forall v s', readN n s = Ok (v, s') -> (length s' <= length s)%nat.
Proof. split; [apply readN_err|intros; by eapply readN_shrinks]. Qed.

Lemma readUTF8_consumes : consumes readUTF8.
Proof. apply (bind_consumes readU16 readN); [apply readU16_consumes|intros; apply readN_stays]. Qed.
Lemma readLongUTF8_consumes : consumes readLongUTF8.
Proof. apply (bind_consumes readU32 readN); [apply readU32_consumes|intros; apply readN_stays]. Qed.

Lemma decodeObject_consumes dec fuel obj s :
  consumes dec -> (length s <= fuel)%nat ->
  decodeObject fuel dec obj s <> Err OutOfFuel /\
  forall o s', decodeObject fuel dec obj s = Ok (o, s') -> (length s' < length s)%nat.
Proof.
  intros Hd. revert obj s. induction fuel as [|f IH]; intros obj s Hle;
    destruct (readUTF8_consumes s) as [Hr1 Hr2]; cbn; destruct (readUTF8 s) as [[key s1]|e]; cbn; try (split; congruence);
    specialize (Hr2 _ _ eq_refl); (case_bool_decide;
    [destruct s1 as [|m s2]; cbn; [done|]; destruct (m =? 9); cbn; [|done]; split; [done|]; intros o s' [= <- <-]; cbn in Hr2; lia|]).
  - lia.
  - destruct (Hd s1) as [Hd1 Hd2]. destruct (dec s1) as [[v s2]|e]; cbn; [|split; congruence].
    specialize (Hd2 _ _ eq_refl). destruct (IH (map_set key v obj) s2 ltac:(lia)) as [IH1 IH2].
    split; [done|]. intros o s' Ho. specialize (IH2 _ _ Ho). lia.
Qed.

Lemma decode_items_stays dec fuel n s :
  consumes dec -> (length s < fuel)%nat ->
  decode_items fuel dec n s <> Err OutOfFuel /\
  forall l s', decode_items fuel dec n s = Ok (l, s') -> (length s' <= length s)%nat.
Proof.
  intros Hd. revert n s. induction fuel as [|f IH]; intros n s Hle; [lia|]. cbn.
  destruct (n <=? 0); [split; [done|]; intros l s' [= <- <-]; lia|].
  destruct (Hd s) as [Hd1 Hd2]. destruct (dec s) as [[v s1]|e]; cbn; [|split; congruence].
  specialize (Hd2 _ _ eq_refl). destruct (IH (n - 1) s1 ltac:(lia)) as [IH1 IH2].
  destruct (decode_items f dec (n - 1) s1) as [[l s2]|e]; cbn; [|split; congruence].
  split; [done|]. intros ? ? [= <- <-]. specialize (IH2 _ _ eq_refl). lia.
Qed.

(** The shapes [decodeValue] is built from, after the marker. *)
Lemma after_marker {A B} (p : parser A) (f : A -> B) s :
  (p s <> Err OutOfFuel /\ forall v s', p s = Ok (v, s') -> (length s' <= length s)%nat) ->
  ('(a, s') ← p s; Ok (f a, s')) <> Err OutOfFuel /\
  forall v s', ('(a, s') ← p s; Ok (f a, s')) = Ok (v, s') -> (length s' <= length s)%nat.
Proof.
  intros [H1 H2]. destruct (p s) as [[a s1]|e]; cbn; [|split; congruence].
  split; [done|]. intros v s' [= <- <-]. by eapply H2.
Qed.

Lemma consumes_stays {A} (p : parser A) s :
  consumes p -> p s <> Err OutOfFuel /\ forall v s', p s = Ok (v, s') -> (length s' <= length s)%nat.
Proof. intros Hp. destruct (Hp s) as [H1 H2]. split; [done|]. intros v s' Hv. specialize (H2 _ _ Hv). lia. Qed.

Lemma dec_too_deep : consumes (fun _ : bytes => Err ErrTooDeep : result amf_error (value * bytes)).
Proof. by intros s. Qed.

Lemma decodeValue_consumes_aux room :
  consumes (decodeValue int64_oor room) /\ consumes (decodeValue int64_oor (S room)).
Proof.
  assert (forall below, consumes (decodeValue int64_oor below) ->
    consumes (match below with O => fun _ => Err ErrTooDeep | S b => decodeValue int64_oor b end) ->
    consumes (decodeValue int64_oor (S below))) as Hstep.
  { intros below Hitem Hmember s. cbn [decodeValue]. destruct s as [|m s1]; cbn [readByte]; [done|].
    cbn [mbind result_bind length].
    set (dm := match below with O => _ | S b => _ end) in *. clearbody dm.
    assert (forall r : result amf_error (value * bytes),
      (r <> Err OutOfFuel /\ forall v s', r = Ok (v, s') -> (length s' <= length s1)%nat) ->
      r <> Err OutOfFuel /\ forall v s', r = Ok (v, s') -> (length s' < S (length s1))%nat) as Hlt.
    { intros r [Hr1 Hr2]. split; [done|]. intros v s' Hv. specialize (Hr2 _ _ Hv). lia. }
    apply Hlt. clear Hlt.
    assert (forall o (w : list (bytes * value) -> value) s2, (length s2 <= length s1)%nat ->
      ('(o, s3) ← decodeObject (length s2) dm o s2; Ok (w o, s3)) <> Err OutOfFuel /\
      forall v s', ('(o, s3) ← decodeObject (length s2) dm o s2; Ok (w o, s3)) = Ok (v, s') ->
        (length s' <= length s1)%nat) as Hobj.
    { intros o w s2 Hle. destruct (decodeObject_consumes dm (length s2) o s2 Hmember ltac:(lia)) as [Ho1 Ho2].
      destruct (decodeObject _ dm o s2) as [[o' s3]|e]; cbn; [|split; congruence]. split; [done|].
      intros v s' [= <- <-]. specialize (Ho2 _ _ eq_refl). lia. }
    assert (forall s2, (length s2 < length s1)%nat ->
      forall n, ('(l, s3) ← decode_items (S (length s2)) (decodeValue int64_oor below) n s2; Ok (VStrictArray l, s3)) <> Err OutOfFuel /\
      forall v s', ('(l, s3) ← decode_items (S (length s2)) (decodeValue int64_oor below) n s2; Ok (VStrictArray l, s3)) = Ok (v, s') ->
        (length s' <= length s1)%nat) as Harr.
    { intros s2 Hle n. destruct (decode_items_stays (decodeValue int64_oor below) (S (length s2)) n s2 Hitem ltac:(lia)) as [Ho1 Ho2].
      destruct (decode_items _ _ n s2) as [[l s3]|e]; cbn; [|split; congruence]. split; [done|].
      intros v s' [= <- <-]. specialize (Ho2 _ _ eq_refl). lia. }
    pose proof (readU32_consumes s1) as [Hu1 Hu2]. pose proof (readNumber_consumes s1) as [Hn1 Hn2].
    destruct m as [|p|p]; [by apply after_marker, consumes_stays, readNumber_consumes| |done].
    do 4 (try (destruct p as [p|p|]); try done); try (split; [done|]; intros v s' [= <- <-]; lia).
    all: try (apply after_marker, consumes_stays; first [apply readUTF8_consumes|apply readLongUTF8_consumes]).
    all: try (apply Hobj; lia).
    - destruct (readNumber s1) as [[ms s2]|e]; cbn; [|split; congruence]. specialize (Hn2 _ _ eq_refl).
      destruct (readU16_consumes s2) as [Hx1 Hx2]. destruct (readU16 s2) as [[x s3]|e]; cbn; [|split; congruence].
      split; [done|]. intros v s' [= <- <-]. specialize (Hx2 _ _ eq_refl). lia.
    - destruct (readU32 s1) as [[n s2]|e]; [|cbn; split; congruence]. specialize (Hu2 _ _ eq_refl).
      change ((n, s2).2) with s2. apply Harr. lia.
    - destruct (readU32 s1) as [[n s2]|e]; [|cbn; split; congruence]. specialize (Hu2 _ _ eq_refl). apply Hobj. lia.
    - destruct s1 as [|b s2]; cbn; [done|]. split; [done|]. intros v s' [= <- <-]. lia. }
  induction room as [|room [IH1 IH2]].
  - split; [by intros s|]. apply Hstep; [by intros s|apply dec_too_deep].
  - split; [done|]. by apply Hstep.
Qed.

(** Decoding an AMF0 value always ends: on any input, at any depth, the
    decoder returns a value after consuming at least its marker, or an error of
    the source's own; the bound on the loops of the model is never reached. *)
Theorem decodeValue_total room s :
  decodeValue int64_oor room s <> Err OutOfFuel /\
  forall v s', decodeValue int64_oor room s = Ok (v, s') -> (length s' < length s)%nat.
Proof. apply decodeValue_consumes_aux. Qed.
End Total.

(** ** Encoding, then decoding *)

Section ValueInd.
Variable P : value -> Prop.
Hypothesis Pnull : P VNull.
Hypothesis Pundef : P VUndefined.
Hypothesis Pbool : forall b, P (VBool b).
Hypothesis Pnum : forall f, P (VNumber f).
Hypothesis Pint : forall n, P (VInt n).
Hypothesis Pstr : forall s, P (VString s).
Hypothesis Pobj : forall m, Forall (fun kv => P kv.2) m -> P (VObject m).
Hypothesis Pecma : forall m, Forall (fun kv => P kv.2) m -> P (VECMAArray m).
Hypothesis Parr : forall l, Forall P l -> P (VStrictArray l).
Hypothesis Pdate : forall t, P (VDate t).

(** Induction on a value and the values inside it. *)
Fixpoint value_nested_ind (v : value) : P v :=
  let members := fix go (m : list (bytes * value)) : Forall (fun kv => P kv.2) m :=
    match m with
    | [] => Forall_nil_2 _
    | (k, v) :: m' => Forall_cons_2 (fun kv => P kv.2) (k, v) m' (value_nested_ind v) (go m')
    end in
  match v with
  | VNull => Pnull
  | VUndefined => Pundef
  | VBool b => Pbool b
  | VNumber f => Pnum f
  | VInt n => Pint n
  | VString s => Pstr s
  | VObject m => Pobj m (members m)
  | VECMAArray m => Pecma m (members m)
  | VStrictArray l => Parr l ((fix go (l : list value) : Forall P l :=
      match l with
      | [] => Forall_nil_2 _
      | v :: l' => Forall_cons_2 P v l' (value_nested_ind v) (go l')
      end) l)
  | VDate t => Pdate t
  end.
End ValueInd.

(** What a decoder returns for an encoded value: integers become numbers and a
    date is cut to milliseconds. *)
Fixpoint norm (v : value) : value :=
  match v with
  | VInt n => VNumber (float_of_Z n)
  | VObject m => VObject (map (fun kv => (kv.1, norm kv.2)) m)
  | VECMAArray m => VECMAArray (map (fun kv => (kv.1, norm kv.2)) m)
  | VStrictArray l => VStrictArray (map norm l)
  | VDate t => VDate (UnixMilli t * Millisecond)
  | _ => v
  end.

(** The depth at which the decoder meets a value's innermost parts. *)
Fixpoint need (v : value) : nat :=
  match v with
  | VObject m | VECMAArray m => S (foldr (fun kv n => max (S (need kv.2)) n) 0%nat m)
  | VStrictArray l => S (foldr (fun v n => max (need v) n) 0%nat l)
  | _ => 1%nat
  end.

(** Values the format can carry: finite lengths, keys that are not empty and,
    as a map has them, in ascending order, and dates and numbers that are exact
    as float64. *)
Fixpoint wf (v : value) : Prop :=
  match v with
  | VNumber f => float_ok f
  | VInt n => float_ok (float_of_Z n)
  | VString s => len s < 2 ^ 32
  | VObject m | VECMAArray m =>
      StronglySorted (fun a b => str_lt a b = true) m.*1 /\ Forall (fun k => k <> []) m.*1 /\
      foldr (fun kv p => wf kv.2 /\ p) True m
  | VStrictArray l => Z.of_nat (length l) < 2 ^ 32 /\ foldr (fun v p => wf v /\ p) True l
  | VDate t => 0 <= UnixMilli t < 2 ^ 53
  | _ => True
  end.

Lemma str_lt_irrefl a : str_lt a a = false.
Proof. induction a as [|x a IH]; [done|]. cbn. by rewrite Z.ltb_irrefl, Z.eqb_refl, IH. Qed.

Lemma str_lt_asym a b : str_lt a b = true -> str_lt b a = false.
Proof.
  revert b. induction a as [|x a IH]; intros [|y b]; cbn; try done. intros Hab.
  apply orb_true_iff in Hab as [Hlt|Heq]; bool_prop.
  - destruct (Z.ltb_spec y x); [lia|]. destruct (Z.eqb_spec y x); [lia|done].
  - subst. rewrite Z.ltb_irrefl, Z.eqb_refl. cbn. by apply IH.
Qed.

Lemma map_set_last {A} key (v : A) m :
  Forall (fun k => str_lt k key = true) m.*1 -> map_set key v m = m ++ [(key, v)].
Proof.
  induction m as [|[k w] m IH]; [done|]. cbn. intros Hf. inversion Hf as [|? ? Hk Hf']; subst.
  rewrite bool_decide_false by (intros ->; by rewrite str_lt_irrefl in Hk).
  rewrite (str_lt_asym _ _ Hk). by rewrite IH.
Qed.

Lemma readN_app n a rest : len a = n -> readN n (a ++ rest) = Ok (a, rest).
Proof. intros Hn. unfold readN. by rewrite read_full_app. Qed.

Lemma readU16_app v rest : 0 <= v < 2 ^ 16 -> readU16 (writeU16 v ++ rest) = Ok (v, rest).
Proof.
  intros Hv. unfold readU16, writeU16. rewrite readN_app by (unfold len; by rewrite length_be). cbn [mbind result_bind].
  rewrite wrapu_id by done. by rewrite of_be_be_id.
Qed.

Lemma readU32_app v rest : 0 <= v < 2 ^ 32 -> readU32 (writeU32 v ++ rest) = Ok (v, rest).
Proof.
  intros Hv. unfold readU32, writeU32. rewrite readN_app by (unfold len; by rewrite length_be). cbn [mbind result_bind].
  rewrite wrapu_id by done. by rewrite of_be_be_id.
Qed.

Lemma readNumber_app f rest : float_ok f -> readNumber (writeNumber f ++ rest) = Ok (f, rest).
Proof.
  intros Hf. unfold readNumber, writeNumber. rewrite readN_app by (unfold len; by rewrite length_be). cbn [mbind result_bind].
  rewrite of_be_be_id by (by apply Float64bits_range). by rewrite Float64frombits_bits.
Qed.

Lemma len_nonneg s : 0 <= len s.
Proof. unfold len. lia. Qed.

Lemma readUTF8_app k b rest : writeUTF8 k = Ok b -> readUTF8 (b ++ rest) = Ok (k, rest).
Proof.
  unfold writeUTF8. intros Hk. apply bind_Ok in Hk as ([] & Hl%guard_err_Ok & [= <-]). bool_prop.
  unfold readUTF8. rewrite <- app_assoc, readU16_app by (unfold MaxUint16 in *; pose proof (len_nonneg k); lia).
  cbn [mbind result_bind]. by apply readN_app.
Qed.

Section RoundTrip.
Variable int64_oor : float64 -> Z.

(** [dec] reads back what [enc] writes for a value. *)
Definition reads (dec : parser value) (v : value) : Prop :=
  forall b rest, encodeValue v = Ok b -> dec (b ++ rest) = Ok (norm v, rest).

Lemma decodeObject_app dec m acc b rest fuel :
  encode_members encodeValue m = Ok b -> Forall (fun kv => reads dec kv.2) m ->
  StronglySorted (fun a b => str_lt a b = true) m.*1 -> Forall (fun k => k <> []) m.*1 ->
  (forall k, k ∈ m.*1 -> Forall (fun k' => str_lt k' k = true) acc.*1) -> (length m <= fuel)%nat ->
  decodeObject fuel dec acc (b ++ rest) = Ok (acc ++ map (fun kv => (kv.1, norm kv.2)) m, rest).
Proof.
  revert acc b fuel. induction m as [|[k v] m IH]; intros acc b fuel He Hr Hs Hk Ha Hf.
  - injection He as <-. unfold writeObjectEnd. rewrite <- app_assoc. destruct fuel; cbn [decodeObject].
    all: unfold readUTF8; rewrite readU16_app by done; cbn [mbind result_bind].
    all: rewrite (readN_app 0 [] _ eq_refl : readN 0 ([9] ++ rest) = _); cbn; by rewrite app_nil_r.
  - cbn [encode_members] in He. apply bind_Ok in He as (kb & Hkb & He). apply bind_Ok in He as (vb & Hvb & He).
    apply bind_Ok in He as (mb & Hmb & [= <-]). destruct fuel as [|fuel]; [cbn in Hf; lia|].
    inversion Hr as [|? ? Hrv Hrm]; subst. cbn in Hs, Hk. inversion Hs as [|? ? Hsm Hlt]; subst.
    inversion Hk as [|? ? Hkne Hkm]; subst. cbn [decodeObject].
    rewrite <- !app_assoc, (readUTF8_app _ _ _ Hkb). cbn [mbind result_bind].
    rewrite bool_decide_false by done. rewrite (Hrv _ _ Hvb). cbn [mbind result_bind].
    rewrite map_set_last by (apply Ha; left). rewrite (IH _ mb); try done.
    + by rewrite <- app_assoc.
    + intros k' Hk'. rewrite fmap_app, Forall_app. split; [apply Ha; by right|].
      cbn. constructor; [|done]. rewrite Forall_forall in Hlt. by apply Hlt.
    + cbn in Hf. lia.
Qed.

Lemma decode_items_app dec l b rest fuel :
  encode_items encodeValue l = Ok b -> Forall (reads dec) l -> (length l <= fuel)%nat ->
  decode_items fuel dec (Z.of_nat (length l)) (b ++ rest) = Ok (map norm l, rest).
Proof.
  revert b fuel. induction l as [|v l IH]; intros b fuel He Hr Hf.
  - injection He as <-. by destruct fuel.
  - cbn [encode_items] in He. apply bind_Ok in He as (vb & Hvb & He). apply bind_Ok in He as (lb & Hlb & [= <-]).
    destruct fuel as [|fuel]; [cbn in Hf; lia|]. inversion Hr as [|? ? Hrv Hrl]; subst.
    cbn [decode_items length]. destruct (Z.leb_spec (Z.of_nat (S (length l))) 0); [lia|].
    rewrite <- app_assoc, (Hrv _ _ Hvb). cbn [mbind result_bind].
    replace (Z.of_nat (S (length l)) - 1) with (Z.of_nat (length l)) by lia.
    rewrite (IH lb fuel); [done|done|done|cbn in Hf; lia].
Qed.

(** Encodings are at least as long as what they hold. *)
Lemma encode_nonempty v b : encodeValue v = Ok b -> (1 <= length b)%nat.
Proof.
  destruct v; cbn; intros He; inv_ok; subst; cbn; try lia. unfold encodeString. case_match; cbn; lia.
Qed.

Lemma encode_members_length m b : encode_members encodeValue m = Ok b -> (length m <= length b)%nat.
Proof.
  revert b. induction m as [|[k v] m IH]; intros b He; [cbn; lia|]. cbn [encode_members] in He.
  apply bind_Ok in He as (kb & Hkb & He). apply bind_Ok in He as (vb & Hvb & He).
  apply bind_Ok in He as (mb & Hmb & [= <-]). rewrite !length_app. apply encode_nonempty in Hvb.
  specialize (IH _ Hmb). cbn. lia.
Qed.

Lemma encode_items_length l b : encode_items encodeValue l = Ok b -> (length l <= length b)%nat.
Proof.
  revert b. induction l as [|v l IH]; intros b He; [cbn; lia|]. cbn [encode_items] in He.
  apply bind_Ok in He as (vb & Hvb & He). apply bind_Ok in He as (lb & Hlb & [= <-]). rewrite length_app.
  apply encode_nonempty in Hvb. specialize (IH _ Hlb). cbn. lia.
Qed.

Lemma float_of_nonneg_ok n : 0 <= n < 2 ^ 53 -> float_ok (float_of_Z n).
Proof.
  intros Hn. destruct n as [|p|p]; [done| |lia].
  destruct (float_of_pos p) as (m & e & -> & _ & Hd & He); [lia|]. right.
  rewrite digits_size in Hd. pose proof (Pos.size_gt m) as Hg. pose proof (Pos.size_le m) as Hl.
  rewrite Hd in Hg, Hl. change (2 ^ 52) with (Z.pos (2 ^ 52)). change (2 ^ 53) with (Z.pos (2 ^ 53)).
  change (2 ^ 53)%positive with (2 * 2 ^ 52)%positive in *. lia.
Qed.

Lemma date_of_exact ms : 0 <= ms < 2 ^ 53 -> date_of int64_oor (float_of_Z ms) = ms * Millisecond.
Proof.
  intros Hm. unfold date_of.
  assert (match float_of_Z ms with S754_nan | S754_infinity _ => False | _ => True end) as Hfin.
  { destruct ms as [|p|p]; [done| |lia]. by destruct (float_of_pos p) as (m & e & -> & _); [lia|]. }
  rewrite int64_of_float_of_Z by done.
  assert (time_Unix (ms / 1000) (ms mod 1000 * Millisecond) = ms * Millisecond) as <-; [|by destruct (float_of_Z ms)].
  unfold time_Unix. rewrite wraps_id; [|lia|]; unfold in_s, unixToInternal, Second, Millisecond;
    Z.to_euclidean_division_equations; lia.
Qed.

Lemma foldr_max_ge {A} (f : A -> nat) l x : x ∈ l -> (f x <= foldr (fun a n => max (f a) n) 0 l)%nat.
Proof.
  induction l as [|y l IH]; [by intros ?%not_elem_of_nil|]. cbn. intros [->|Hx]%elem_of_cons; [lia|].
  specialize (IH Hx). lia.
Qed.

Lemma foldr_and {A} (P : A -> Prop) l : foldr (fun a p => P a /\ p) True l <-> Forall P l.
Proof. induction l as [|x l IH]; cbn; [split; [constructor|done]|]. by rewrite Forall_cons, IH. Qed.

Lemma reads_members room (m : list (bytes * value)) :
  Forall (fun kv => forall room, wf kv.2 -> (need kv.2 <= room)%nat -> reads (decodeValue int64_oor room) kv.2) m ->
  Forall (fun kv => wf kv.2) m -> (foldr (fun kv n => max (S (need kv.2)) n) 0 m <= room)%nat ->
  Forall (fun kv => reads (match room with O => fun _ => Err ErrTooDeep | S b => decodeValue int64_oor b end) kv.2) m.
Proof.
  intros Hind Hwf Hroom. rewrite Forall_forall in *. intros kv Hkv.
  pose proof (foldr_max_ge (fun kv => S (need kv.2)) m kv Hkv) as Hle. cbn in Hle.
  destruct room as [|room]; [lia|]. apply Hind; auto. lia.
Qed.

Lemma decodeValue_app v : forall room, wf v -> (need v <= room)%nat -> reads (decodeValue int64_oor room) v.
Proof.
  induction v as [| |b|f|n|s|m IH|m IH|l IH|t] using value_nested_ind; intros room Hwf Hroom bs rest He;
    (destruct room as [|room]; [cbn in Hroom; lia|]); cbn in He.
  - by injection He as <-.
  - by injection He as <-.
  - injection He as <-. by destruct b.
  - apply Ok_inj in He as <-. cbn. by rewrite readNumber_app.
  - apply Ok_inj in He as <-. cbn. by rewrite readNumber_app.
  - apply Ok_inj in He as <-. unfold encodeString. pose proof (len_nonneg s). cbn in Hwf. case_match; bool_prop; cbn [app decodeValue readByte mbind result_bind].
    + unfold readUTF8. rewrite <- app_assoc, readU16_app by (unfold MaxUint16 in *; lia). cbn [mbind result_bind].
      by rewrite readN_app.
    + unfold readLongUTF8. rewrite <- app_assoc, readU32_app by lia. cbn [mbind result_bind]. by rewrite readN_app.
  - apply bind_Ok in He as (mb & Hmb & He). apply Ok_inj in He as <-. cbn in Hwf, Hroom. destruct Hwf as (Hs & Hk & Hwf%foldr_and).
    cbn [app decodeValue readByte mbind result_bind].
    rewrite (decodeObject_app _ m [] mb rest); [done|done|apply reads_members; [done|done|lia]|done|done| |].
    + intros; constructor.
    + rewrite length_app. apply encode_members_length in Hmb. lia.
  - apply bind_Ok in He as (mb & Hmb & He). apply Ok_inj in He as <-. cbn in Hwf, Hroom. destruct Hwf as (Hs & Hk & Hwf%foldr_and).
    cbn [app decodeValue readByte mbind result_bind]. rewrite <- app_assoc.
    unfold readU32, writeU32. rewrite readN_app by (unfold len; by rewrite length_be). cbn [mbind result_bind].
    rewrite (decodeObject_app _ m [] mb rest); [done|done|apply reads_members; [done|done|lia]|done|done| |].
    + intros; constructor.
    + rewrite length_app. apply encode_members_length in Hmb. lia.
  - apply bind_Ok in He as (lb & Hlb & He). apply Ok_inj in He as <-. cbn in Hwf, Hroom. destruct Hwf as (Hl & Hwf%foldr_and).
    cbn [app decodeValue readByte mbind result_bind]. rewrite <- app_assoc, readU32_app by lia. cbn [mbind result_bind].
    rewrite (decode_items_app _ l lb rest); [done|done| |].
    + rewrite Forall_forall in *. intros v Hv. apply IH; auto.
      pose proof (foldr_max_ge need l v Hv). cbn in *. lia.
    + rewrite length_app. apply encode_items_length in Hlb. lia.
  - apply Ok_inj in He as <-. cbn in Hwf. cbn [app decodeValue readByte mbind result_bind].
    rewrite <- app_assoc, readNumber_app by (by apply float_of_nonneg_ok). cbn [mbind result_bind].
    rewrite readU16_app by done. cbn [mbind result_bind]. by rewrite date_of_exact.
Qed.

(** Round trip: a value the format can carry, nested no deeper than the
    decoder allows, is read back from its encoding as the same value (an integer
    as the number it was converted to, a date to the millisecond), leaving what
    follows in the stream unread. *)
Theorem Decode_Marshal v b rest :
  wf v -> (need v <= S maxDecodeDepth)%nat -> Marshal v = Ok b ->
  Decode int64_oor (b ++ rest) = Ok (norm v, rest).
Proof. intros Hwf Hn He. exact (decodeValue_app v _ Hwf Hn b rest He). Qed.
End RoundTrip.

(** ** A command's values *)

Definition ascii_bytes (s : String.string) : bytes := Z.of_nat ∘ Ascii.nat_of_ascii <$> String.list_ascii_of_string s.

(** An object as the server answers a connect with, and a stream number. *)
Definition ex_props : value :=
  VObject [(ascii_bytes "capabilities", VInt 31); (ascii_bytes "fmsVer", VString (ascii_bytes "FMS/3,0,1,123"));
           (ascii_bytes "list", VStrictArray [VBool true; VNull; VDate 1700000000123456789])].

Lemma ex_props_wf : wf ex_props.
Proof.
  cbn. split_and!; try done.
  - repeat constructor.
  - repeat constructor; discriminate.
  - apply (float_of_nonneg_ok 31). lia.
Qed.

Definition ex_props_bytes : bytes :=
  match Marshal ex_props with Ok b => b | Err _ => [] end.

Lemma Decode_Marshal_witness :
  Decode (fun _ => 0) (ex_props_bytes ++ [5]) = Ok (norm ex_props, [5]).
Proof.
  apply (Decode_Marshal (fun _ => 0) ex_props ex_props_bytes [5]); [apply ex_props_wf|apply Nat.leb_le; vm_compute; reflexivity|].
  vm_compute. reflexivity.
Defined.

(** The condition on keys is needed: an empty key encodes as the end of the
    object would, and is not read back. *)
Lemma empty_key_unreadable :
  Marshal (VObject [([], VNull)]) = Ok [3; 0; 0; 5; 0; 0; 9] /\
  Unmarshal (fun _ => 0) [3; 0; 0; 5; 0; 0; 9] = Err BadTerminator.
Proof. split; vm_compute; reflexivity. Qed.
