(* ===== verification/Amf3.v ===== *)
(** * internal/rtmp/amf3/amf3.go: AMF3 values

    The encoder walks a Go value, a tree here; the decoder builds one whose slices
    and maps are shared wherever the input refers back to them, so its values are
    in a store: [cell]s, which the decoder fills after it has handed out references
    to them. Maps are lists of entries in ascending key order, as in Amf0.v, whose
    float64 bits and byte readers this file uses. Readers and writers that fail
    for reasons of their own are not modelled: input ends, or it does not. *)
From Stdlib Require Import Sorted.
From S2P Require Import Prelude GoBytes GoTime GoFloat Amf0.

#[local] Open Scope Z_scope.

(** ** Values *)

Definition maxU29 : Z := 0x1FFFFFFF.
Definition minSignedU29 : Z := -268435456.
Definition maxSignedU29 : Z := 268435455.
(** maxDecodeDepth + 1: the depths from 0 that are allowed. *)
Definition rooms : nat := 257.

(** What the encoder is given: nil, Undefined, a bool, any signed and any unsigned
    integer, a float, a string, a time, []any, Array, map[string]any, Object,
    []byte, or something else. *)
Inductive any :=
| Nil
| Undefined
| Bool (b : bool)
| Int (n : Z)
| Uint (n : Z)
| Float (f : float64)
| Str (s : bytes)
| Time_ (t : Time)
| Slice (l : list any)
| Array (assoc : list (bytes * any)) (dense : list any)
| Map (m : list (bytes * any))
| Object (className : bytes) (sealed dynamic : list (bytes * any))
| Bytes (b : bytes)
| Other.

Inductive amf3_error := Eof | BadMarker | ErrInvalidRef | TooDeep | ErrUnsupportedType | OutOfRange | Externalizable | NoFuel.

#[export] Instance amf3_error_eq_dec : EqDecision amf3_error.
Proof. solve_decision. Defined.

(** ** Encoding *)

Section U29.
#[local] Opaque Z.shiftr Z.land Z.lor.

(** writeU29, of an int32. *)
Definition writeU29 (v : Z) : result amf3_error bytes :=
  if (v <? 0) || (maxU29 <? v) then Err OutOfRange
  else Ok (if v <? 0x80 then [byte v]
           else if v <? 0x4000 then [byte (Z.lor (Z.land (Z.shiftr v 7) 0x7F) 0x80); byte (Z.land v 0x7F)]
           else if v <? 0x200000 then
             [byte (Z.lor (Z.land (Z.shiftr v 14) 0x7F) 0x80); byte (Z.lor (Z.land (Z.shiftr v 7) 0x7F) 0x80); byte (Z.land v 0x7F)]
           else [byte (Z.lor (Z.land (Z.shiftr v 22) 0x7F) 0x80); byte (Z.lor (Z.land (Z.shiftr v 15) 0x7F) 0x80);
                 byte (Z.lor (Z.land (Z.shiftr v 8) 0x7F) 0x80); byte v]).
End U29.

(** The encoder's string table: the strings written, each with its place as index. *)
Fixpoint string_ref (s : bytes) (refs : list bytes) : option nat :=
  match refs with
  | [] => None
  | x :: t => if bool_decide (x = s) then Some O else S <$> string_ref s t
  end.

(** A part of the encoder: from the string table, what it writes and the table after. *)
Definition enc (A : Type) : Type := list bytes -> result amf3_error (A * list bytes).

(** [int32((n << s) | c)]. *)
Definition header (n s c : Z) : Z := wraps 32 (Z.lor (Z.shiftl n s) c).

Definition writeAMF3String (s : bytes) : enc bytes := fun refs =>
  if bool_decide (s = []) then b ← writeU29 1; Ok (b, refs)
  else match string_ref s refs with
    | Some idx => b ← writeU29 (wraps 32 (Z.shiftl (Z.of_nat idx) 1)); Ok (b, refs)
    | None => b ← writeU29 (header (len s) 1 1); Ok (b ++ s, refs ++ [s])
    end.

(** The entries of a map, in the order of its sorted keys. *)
Definition encode_entries (e : any -> enc bytes) : list (bytes * any) -> enc bytes :=
  fix go m refs :=
    match m with
    | [] => Ok ([], refs)
    | (k, v) :: m' =>
        '(kb, r1) ← writeAMF3String k refs; '(vb, r2) ← e v r1; '(rest, r3) ← go m' r2; Ok (kb ++ vb ++ rest, r3)
    end.

Fixpoint encode_keys (ks : list bytes) : enc bytes := fun refs =>
  match ks with
  | [] => Ok ([], refs)
  | k :: t => '(kb, r1) ← writeAMF3String k refs; '(rest, r2) ← encode_keys t r1; Ok (kb ++ rest, r2)
  end.

(** The values of a map's entries alone, in the order of its sorted keys. *)
Definition encode_values (e : any -> enc bytes) : list (bytes * any) -> enc bytes :=
  fix go m refs :=
    match m with
    | [] => Ok ([], refs)
    | (_, v) :: m' => '(vb, r1) ← e v refs; '(rest, r2) ← go m' r1; Ok (vb ++ rest, r2)
    end.

Definition encode_all (e : any -> enc bytes) : list any -> enc bytes :=
  fix go l refs :=
    match l with
    | [] => Ok ([], refs)
    | v :: l' => '(vb, r1) ← e v refs; '(rest, r2) ← go l' r1; Ok (vb ++ rest, r2)
    end.

Definition encodeDouble (f : float64) : bytes := 5 :: writeNumber f.

Definition encodeInt64 (n : Z) : result amf3_error bytes :=
  if (minSignedU29 <=? n) && (n <=? maxSignedU29) then b ← writeU29 (Z.land n maxU29); Ok (4 :: b)
  else Ok (encodeDouble (float_of_Z n)).
Definition encodeUint64 (n : Z) : result amf3_error bytes :=
  if n <=? maxSignedU29 then b ← writeU29 (Z.land n maxU29); Ok (4 :: b)
  else Ok (encodeDouble (float_of_Z n)).

Definition encodeDate (t : Time) : result amf3_error bytes :=
  h ← writeU29 1; Ok (8 :: h ++ writeNumber (float_of_Z (UnixMilli t))).
Definition encodeByteArray (b : bytes) : result amf3_error bytes := h ← writeU29 (header (len b) 1 1); Ok (12 :: h ++ b).

(** encodeArray, of the lists it is given and their encoder. *)
Definition encodeArray (e : any -> enc bytes) (assoc : list (bytes * any)) (dense : list any) : enc bytes := fun refs =>
  h ← writeU29 (header (Z.of_nat (length dense)) 1 1);
  '(a, r1) ← encode_entries e assoc refs;
  '(z, r2) ← writeAMF3String [] r1;
  '(d, r3) ← encode_all e dense r2;
  Ok (9 :: h ++ a ++ z ++ d, r3).

(** encodeObject: the sealed members when there are any, and then no others. *)
Definition encodeObject (e : any -> enc bytes) (cn : bytes) (sealed dynamic : list (bytes * any)) : enc bytes := fun refs =>
  match sealed with
  | _ :: _ =>
      h ← writeU29 (header (Z.of_nat (length sealed)) 4 3);
      '(c, r1) ← writeAMF3String cn refs;
      '(ks, r2) ← encode_keys sealed.*1 r1;
      '(vs, r3) ← encode_values e sealed r2;
      Ok (10 :: h ++ c ++ ks ++ vs, r3)
  | [] =>
      h ← writeU29 0x0B;
      '(c, r1) ← writeAMF3String cn refs;
      '(ms, r2) ← encode_entries e dynamic r1;
      '(z, r3) ← writeAMF3String [] r2;
      Ok (10 :: h ++ c ++ ms ++ z, r3)
  end.

Definition encodeMapObject (e : any -> enc bytes) (m : list (bytes * any)) : enc bytes := encodeObject e [] [] m.

Fixpoint encodeValue (v : any) : enc bytes := fun refs =>
  match v with
  | Nil => Ok ([1], refs)
  | Undefined => Ok ([0], refs)
  | Bool b => Ok ([if b then 3 else 2], refs)
  | Int n => b ← encodeInt64 n; Ok (b, refs)
  | Uint n => b ← encodeUint64 n; Ok (b, refs)
  | Float f => Ok (encodeDouble f, refs)
  | Str s => '(b, r) ← writeAMF3String s refs; Ok (6 :: b, r)
  | Time_ t => b ← encodeDate t; Ok (b, refs)
  | Slice l => encodeArray encodeValue [] l refs
  | Array assoc dense => encodeArray encodeValue assoc dense refs
  | Map m => encodeMapObject encodeValue m refs
  | Object cn sealed dynamic => encodeObject encodeValue cn sealed dynamic refs
  | Bytes x => b ← encodeByteArray x; Ok (b, refs)
  | Other => Err ErrUnsupportedType
  end.

Definition Marshal (v : any) : result amf3_error bytes := fst <$> encodeValue v [].

(** ** Decoding

    A decoded value: a slice, an Array, a map and the maps of an Object are
    references to cells of the store. *)
Inductive gval :=
| GNil
| GUndefined
| GBool (b : bool)
| GInt (n : Z)
| GFloat (f : float64)
| GStr (s : bytes)
| GTime (t : Time)
| GSlice (dense : nat)
| GArray (assoc dense : nat)
| GMap (m : nat)
| GObject (className : bytes) (sealed : nat) (dynamic : option nat)
| GBytes (b : bytes).

(** [make([]any, n)] with the first elements set, the others nil still; a map. *)
Inductive cell := CSlice (n : Z) (l : list gval) | CMap (m : list (bytes * gval)).

Record traitInfo := mkTraits { className : bytes; sealed : list bytes; dynamic : bool }.

Record decoder := mkDecoder {
  input : bytes; stringRefs : list bytes; objectRefs : list gval; traitRefs : list traitInfo; heap : list cell
}.

Definition NewDecoder (r : bytes) : decoder := mkDecoder r [] [] [] [].

(** A step of the decoder; an error leaves the decoder as it is by then. *)
Definition M (A : Type) : Type := decoder -> result amf3_error A * decoder.

#[export] Instance M_ret : MRet M := fun A a d => (Ok a, d).
#[export] Instance M_bind : MBind M := fun A B f m d =>
  match m d with (Ok a, d') => f a d' | (Err e, d') => (Err e, d') end.

Definition fail {A} (e : amf3_error) : M A := fun d => (Err e, d).
Definition lift {A} (r : result amf3_error A) : M A := fun d => (r, d).
Definition gets {A} (f : decoder -> A) : M A := fun d => (Ok (f d), d).
Definition modify (f : decoder -> decoder) : M unit := fun d => (Ok tt, f d).

Definition with_input (s : bytes) (d : decoder) : decoder := mkDecoder s d.(stringRefs) d.(objectRefs) d.(traitRefs) d.(heap).
Definition with_heap (h : list cell) (d : decoder) : decoder := mkDecoder d.(input) d.(stringRefs) d.(objectRefs) d.(traitRefs) h.
Definition with_objects (l : list gval) (d : decoder) : decoder := mkDecoder d.(input) d.(stringRefs) l d.(traitRefs) d.(heap).
Definition add_string (s : bytes) (d : decoder) : decoder :=
  mkDecoder d.(input) (d.(stringRefs) ++ [s]) d.(objectRefs) d.(traitRefs) d.(heap).
Definition add_traits (t : traitInfo) (d : decoder) : decoder :=
  mkDecoder d.(input) d.(stringRefs) d.(objectRefs) (d.(traitRefs) ++ [t]) d.(heap).

(** [d.objectRefs = append(d.objectRefs, v)], with the index it gets, and
    [d.objectRefs[idx] = v]. *)
Definition add_object (v : gval) : M nat := fun d =>
  (Ok (length d.(objectRefs)), with_objects (d.(objectRefs) ++ [v]) d).
Definition set_object (idx : nat) (v : gval) : M unit := modify (fun d => with_objects (<[idx := v]> d.(objectRefs)) d).

(** A new cell; an entry set in a map, an element in a slice. *)
Definition alloc (c : cell) : M nat := fun d => (Ok (length d.(heap)), with_heap (d.(heap) ++ [c]) d).
Definition set_entry (k : bytes) (v : gval) (c : cell) : cell :=
  match c with CMap m => CMap (map_set k v m) | CSlice _ _ => c end.
Definition set_element (v : gval) (c : cell) : cell :=
  match c with CSlice n l => CSlice n (l ++ [v]) | CMap _ => c end.
Definition change (a : nat) (f : cell -> cell) : M unit := modify (fun d => with_heap (alter f a d.(heap)) d).

(** [l[idx]] after the check of the index. *)
Definition nth_ref {A} (l : list A) (idx : Z) : M A :=
  if (idx <? 0) || (Z.of_nat (length l) <=? idx) then fail ErrInvalidRef else lift (of_option ErrInvalidRef (l !! Z.to_nat idx)).

Definition readByte : M Z := fun d =>
  match d.(input) with [] => (Err Eof, d) | b :: s => (Ok b, with_input s d) end.
(** io.ReadFull: at the end of the input it has read what there was. *)
Definition ReadFull (n : Z) : M bytes := fun d =>
  match read_full n d.(input) with Some (b, s) => (Ok b, with_input s d) | None => (Err Eof, with_input [] d) end.

(** readU29, of at most 29 bits, which an int32 holds. *)
Fixpoint readU29_from (k : nat) (v : Z) : M Z :=
  b ← readByte;
  match k with
  | O => mret (Z.lor (Z.shiftl v 8) b)
  | S k' =>
      let v := Z.lor (Z.shiftl v 7) (Z.land b 0x7F) in
      if Z.land b 0x80 =? 0 then mret v else readU29_from k' v
  end.
Definition readU29 : M Z := readU29_from 3 0.

Definition decodeSignedU29 (u : Z) : Z := if Z.land u 0x10000000 =? 0 then u else u - 0x20000000.

(** The result is a string always: the callers' type assertions cannot fail. *)
Definition readAMF3String : M bytes :=
  u ← readU29;
  if Z.land u 1 =? 0 then refs ← gets stringRefs; nth_ref refs (Z.shiftr u 1)
  else let ln := Z.shiftr u 1 in
    if ln =? 0 then mret []
    else b ← ReadFull ln; modify (add_string b);; mret b.

Definition readFloat : M float64 := b ← ReadFull 8; mret (Float64frombits (of_be b)).

(** A reference to an object read before, or else [k]. *)
Definition or_reference (k : Z -> M gval) : M gval :=
  u ← readU29;
  if Z.land u 1 =? 0 then refs ← gets objectRefs; nth_ref refs (Z.shiftr u 1) else k u.

Section Decode.
Variable int64_oor : float64 -> Z.

Definition decodeDate : M gval := or_reference (fun _ =>
  ms ← readFloat;
  let n := int64_of_float int64_oor ms in
  let t := GTime (time_Unix (n / 1000) ((n mod 1000) * Millisecond)) in
  _ ← add_object t; mret t).

Definition decodeByteArray : M gval := or_reference (fun u =>
  b ← ReadFull (Z.shiftr u 1); _ ← add_object (GBytes b); mret (GBytes b)).

(** The loop over the entries of the map at [a], to an empty key, with the decoder
    of their values. A round takes a byte at least: [fuel] is the input's length. *)
Fixpoint read_entries (fuel : nat) (dec : M gval) (a : nat) : M unit :=
  key ← readAMF3String;
  if bool_decide (key = []) then mret tt
  else match fuel with
       | O => fail NoFuel
       | S f => v ← dec; change a (set_entry key v);; read_entries f dec a
       end.

(** The loop over [n] elements of the slice at [a]; [fuel] rounds are enough. *)
Fixpoint read_elements (fuel : nat) (dec : M gval) (n : Z) (a : nat) : M unit :=
  if n <=? 0 then mret tt
  else match fuel with
       | O => fail NoFuel
       | S f => v ← dec; change a (set_element v);; read_elements f dec (n - 1) a
       end.

Fixpoint read_keys (fuel : nat) (n : Z) : M (list bytes) :=
  if n <=? 0 then mret []
  else match fuel with
       | O => fail NoFuel
       | S f => k ← readAMF3String; t ← read_keys f (n - 1); mret (k :: t)
       end.

Fixpoint read_sealed (dec : M gval) (ks : list bytes) (a : nat) : M unit :=
  match ks with
  | [] => mret tt
  | k :: t => v ← dec; change a (set_entry k v);; read_sealed dec t a
  end.

Definition map_at (a : nat) (d : decoder) : list (bytes * gval) :=
  match d.(heap) !! a with Some (CMap m) => m | _ => [] end.
Definition is_empty {A} (l : list A) : bool := match l with [] => true | _ => false end.
Definition fuel_left : M nat := gets (fun d => S (length d.(input))).

(** decodeArray, with the decoder of what is in the array. *)
Definition decodeArray (dec : M gval) : M gval := or_reference (fun u =>
  let denseLen := Z.shiftr u 1 in
  assoc ← alloc (CMap []);
  fuel ← fuel_left; read_entries fuel dec assoc;;
  dense ← alloc (CSlice denseLen []);
  m ← gets (map_at assoc);
  let out := if is_empty m then GSlice dense else GArray assoc dense in
  idx ← add_object out;
  fuel ← fuel_left; read_elements fuel dec denseLen dense;;
  set_object idx out;;
  mret out).

(** The traits of decodeObject: a reference, or inline. *)
Definition read_traits (u : Z) : M traitInfo :=
  if Z.land u 2 =? 0 then refs ← gets traitRefs; nth_ref refs (Z.shiftr u 2)
  else
    cn ← readAMF3String;
    fuel ← fuel_left; ks ← read_keys fuel (Z.shiftr u 4);
    if negb (Z.land u 4 =? 0) then fail Externalizable
    else let t := mkTraits cn ks (negb (Z.land u 8 =? 0)) in modify (add_traits t);; mret t.

(** decodeObject. What is in objectRefs while the members are read is a copy of the
    Object with no dynamic members. *)
Definition decodeObject (dec : M gval) : M gval := or_reference (fun u =>
  traits ← read_traits u;
  a ← alloc (CMap []);
  idx ← add_object (GObject traits.(className) a None);
  read_sealed dec traits.(sealed) a;;
  dyn ← (if traits.(dynamic)
         then b ← alloc (CMap []); fuel ← fuel_left; read_entries fuel dec b;; mret (Some b)
         else mret None);
  m ← gets (map_at a);
  out ← (if is_empty traits.(className) && is_empty m
         then b ← (match dyn with Some b => mret b | None => alloc (CMap []) end); mret (GMap b)
         else mret (GObject traits.(className) a dyn));
  set_object idx out;;
  mret out).

(** decodeValue at the depth [257 - room], whose arrays and objects decode what
    they hold two levels below. *)
Fixpoint decodeValue (room : nat) : M gval :=
  match room with
  | O => fail TooDeep
  | S below =>
      m ← readByte;
      match m with
      | 0 => mret GUndefined
      | 1 => mret GNil
      | 2 => mret (GBool false)
      | 3 => mret (GBool true)
      | 4 => u ← readU29; mret (GInt (decodeSignedU29 u))
      | 5 => f ← readFloat; mret (GFloat f)
      | 6 => s ← readAMF3String; mret (GStr s)
      | 8 => decodeDate
      | 9 => decodeArray (decodeValue (Nat.pred below))
      | 10 => decodeObject (decodeValue (Nat.pred below))
      | 12 => decodeByteArray
      | _ => fail BadMarker
      end
  end.

Definition Decode : M gval := decodeValue rooms.
Definition Unmarshal (data : bytes) : result amf3_error gval * decoder := Decode (NewDecoder data).
End Decode.

(** ** Decoding ends *)

(** A step that does not run out of fuel, and consumes [k] bytes if it succeeds. *)
Definition safe {A} (k : nat) (m : M A) (d : decoder) : Prop :=
  match m d with
  | (Ok _, d') => (length d'.(input) + k <= length d.(input))%nat
  | (Err e, _) => e <> NoFuel
  end.

Lemma safe_bind {A B} j k (m : M A) (f : A -> M B) d :
  safe j m d -> (forall a d', m d = (Ok a, d') -> (length d'.(input) + j <= length d.(input))%nat -> safe k (f a) d') ->
  safe (j + k) (m ≫= f) d.
Proof.
  unfold safe, mbind, M_bind. destruct (m d) as [[a|e] d'] eqn:Hm; [|done]. intros Hj Hf.
  specialize (Hf a d' eq_refl Hj). destruct (f a d') as [[b|e] d'']; [lia|done].
Qed.

Lemma safe_weaken {A} j k (m : M A) d : (k <= j)%nat -> safe j m d -> safe k m d.
Proof. unfold safe. intros Hk. destruct (m d) as [[a|e] d']; [lia|done]. Qed.

Lemma safe_ret {A} (a : A) d : safe 0 (mret a) d.
Proof. cbn. lia. Qed.
Lemma safe_gets {A} (f : decoder -> A) d : safe 0 (gets f) d.
Proof. cbn. lia. Qed.
Lemma safe_alloc c d : safe 0 (alloc c) d.
Proof. cbn. lia. Qed.
Lemma safe_add_object v d : safe 0 (add_object v) d.
Proof. cbn. lia. Qed.
Lemma safe_modify f d : (length (input (f d)) <= length d.(input))%nat -> safe 0 (modify f) d.
Proof. cbn. lia. Qed.
Lemma safe_change a f d : safe 0 (change a f) d.
Proof. by apply safe_modify. Qed.
Lemma safe_set_object i v d : safe 0 (set_object i v) d.
Proof. by apply safe_modify. Qed.
Lemma safe_add_string s d : safe 0 (modify (add_string s)) d.
Proof. by apply safe_modify. Qed.
Lemma safe_add_traits t d : safe 0 (modify (add_traits t)) d.
Proof. by apply safe_modify. Qed.
Lemma safe_fail {A} k e d : e <> NoFuel -> safe k (@fail A e) d.
Proof. done. Qed.
Lemma safe_nth_ref {A} (l : list A) i d : safe 0 (nth_ref l i) d.
Proof. unfold nth_ref, fail, lift, safe. destruct (_ || _); [done|]. destruct (l !! Z.to_nat i); cbn; [lia|done]. Qed.

Lemma safe_readByte d : safe 1 readByte d.
Proof. unfold safe, readByte. destruct (input d); cbn; [done|lia]. Qed.
Lemma safe_ReadFull n d : safe 0 (ReadFull n) d.
Proof.
  unfold safe, ReadFull, read_full. destruct (_ <? n); cbn; [done|].
  rewrite length_drop. lia.
Qed.

(** One step of a program known to be safe. *)
Ltac safe_step :=
  match goal with
  | |- safe _ (let x := _ in _) _ => cbv zeta
  | |- safe 0 (mret _) _ => apply safe_ret
  | |- safe _ (fail _) _ => by apply safe_fail
  | |- safe _ (if ?b then _ else _) _ => destruct b
  | |- safe _ (match ?o with Some _ => _ | None => _ end) _ => destruct o
  | |- safe 0 _ _ =>
      first [apply safe_gets | apply safe_alloc | apply safe_add_object | apply safe_change | apply safe_set_object
            | apply safe_add_string | apply safe_add_traits | apply safe_nth_ref | apply safe_ReadFull
            | apply (safe_bind 0 0); [|intros ????]]
  end.

Lemma safe_readU29_from k v d : safe 1 (readU29_from k v) d.
Proof.
  revert v d. induction k as [|k IH]; intros v d; cbn [readU29_from].
  - apply (safe_bind 1 0); [apply safe_readByte|]. intros b d' _ _. apply safe_ret.
  - apply (safe_bind 1 0); [apply safe_readByte|]. intros b d' _ _. case_match; [apply safe_ret|].
    eapply safe_weaken; [|apply IH]. lia.
Qed.
Lemma safe_readU29 d : safe 1 readU29 d.
Proof. apply safe_readU29_from. Qed.

Lemma safe_readAMF3String d : safe 1 readAMF3String d.
Proof. apply (safe_bind 1 0); [apply safe_readU29|]. intros u d' _ _. repeat safe_step. Qed.

Lemma safe_readFloat d : safe 0 readFloat d.
Proof. unfold readFloat. repeat safe_step. Qed.

Lemma safe_or_reference k d : (forall u d', (length d'.(input) < length d.(input))%nat -> safe 0 (k u) d') -> safe 1 (or_reference k) d.
Proof.
  intros Hk. apply (safe_bind 1 0); [apply safe_readU29|]. intros u d' _ Hd'. case_match; [repeat safe_step|]. apply Hk. lia.
Qed.

(** A decoder of values that is safe on what is shorter than the input of [d]. *)
Definition below (d : decoder) (dec : M gval) : Prop :=
  forall d', (length d'.(input) < length d.(input))%nat -> safe 1 dec d'.

Lemma safe_read_entries fuel dec a d0 d :
  below d0 dec -> (length d.(input) < length d0.(input))%nat -> (length d.(input) <= fuel)%nat -> safe 0 (read_entries fuel dec a) d.
Proof.
  intros Hdec. revert d. induction fuel as [|f IH]; intros d Hd Hf; cbn [read_entries];
    (apply (safe_weaken (1 + 0)); [lia|]); (apply safe_bind; [apply safe_readAMF3String|]); intros k d1 _ H1;
    (case_bool_decide; [apply safe_ret|]); [lia|].
  apply (safe_weaken (1 + 0)); [lia|]. apply safe_bind; [apply Hdec; lia|]. intros v d2 _ H2.
  apply (safe_bind 0 0); [apply safe_change|]. intros _ d3 _ H3. apply IH; lia.
Qed.

Lemma safe_read_elements fuel dec n a d0 d :
  below d0 dec -> (length d.(input) < length d0.(input))%nat -> (length d.(input) < fuel)%nat -> safe 0 (read_elements fuel dec n a) d.
Proof.
  intros Hdec. revert n d. induction fuel as [|f IH]; intros n d Hd Hf; [lia|]; cbn [read_elements].
  case_match; [apply safe_ret|]. apply (safe_weaken (1 + 0)); [lia|]. apply safe_bind; [apply Hdec; lia|]. intros v d2 _ H2.
  apply (safe_bind 0 0); [apply safe_change|]. intros _ d3 _ H3. apply IH; lia.
Qed.

Lemma safe_read_keys fuel n d : (length d.(input) < fuel)%nat -> safe 0 (read_keys fuel n) d.
Proof.
  revert n d. induction fuel as [|f IH]; intros n d Hf; [lia|]. cbn [read_keys]. case_match; [apply safe_ret|].
  apply (safe_weaken (1 + 0)); [lia|]. apply safe_bind; [apply safe_readAMF3String|]. intros v d2 _ H2.
  apply (safe_bind 0 0); [apply IH; lia|]. intros t d3 _ H3. apply safe_ret.
Qed.

Lemma safe_read_sealed dec ks a d0 d :
  below d0 dec -> (length d.(input) < length d0.(input))%nat -> safe 0 (read_sealed dec ks a) d.
Proof.
  intros Hdec. revert d. induction ks as [|k t IH]; intros d Hd; cbn [read_sealed]; [apply safe_ret|].
  apply (safe_weaken (1 + 0)); [lia|]. apply safe_bind; [apply Hdec; lia|]. intros v d2 _ H2.
  apply (safe_bind 0 0); [apply safe_change|]. intros _ d3 _ H3. apply IH; lia.
Qed.

Lemma safe_with_fuel {A} (f : nat -> M A) d :
  (forall n, (length d.(input) < n)%nat -> safe 0 (f n) d) -> safe 0 (fuel ← fuel_left; f fuel) d.
Proof. intros Hf. apply (safe_bind 0 0); [apply safe_gets|]. intros n d' [= <- <-] _. apply Hf. lia. Qed.

Lemma safe_decodeArray dec d : below d dec -> safe 1 (decodeArray dec) d.
Proof.
  intros Hdec. apply safe_or_reference. intros u d1 H1. apply (safe_bind 0 0); [apply safe_alloc|]. intros a d2 _ H2.
  apply safe_with_fuel. intros n Hn. apply (safe_bind 0 0); [apply (safe_read_entries _ _ _ d); [done|lia|lia]|].
  intros _ d3 _ H3. apply (safe_bind 0 0); [apply safe_alloc|]. intros b d4 _ H4.
  apply (safe_bind 0 0); [apply safe_gets|]. intros m d5 _ H5. apply (safe_bind 0 0); [apply safe_add_object|]. intros i d6 _ H6.
  apply safe_with_fuel. intros n' Hn'. apply (safe_bind 0 0); [apply (safe_read_elements _ _ _ _ d); [done|lia|lia]|].
  intros _ d7 _ H7. repeat safe_step.
Qed.

Lemma safe_read_traits u d : safe 0 (read_traits u) d.
Proof.
  unfold read_traits. case_match; [repeat safe_step|]. apply (safe_weaken (1 + 0)); [lia|].
  apply safe_bind; [apply safe_readAMF3String|]. intros cn d1 _ _. apply safe_with_fuel. intros n Hn.
  apply (safe_bind 0 0); [by apply safe_read_keys|]. intros ks d2 _ _. repeat safe_step.
Qed.

Lemma safe_decodeObject dec d : below d dec -> safe 1 (decodeObject dec) d.
Proof.
  intros Hdec. apply safe_or_reference. intros u d1 H1. apply (safe_bind 0 0); [apply safe_read_traits|]. intros t d2 _ H2.
  apply (safe_bind 0 0); [apply safe_alloc|]. intros a d3 _ H3. apply (safe_bind 0 0); [apply safe_add_object|]. intros i d4 _ H4.
  apply (safe_bind 0 0); [apply (safe_read_sealed _ _ _ d); [done|lia]|]. intros _ d5 _ H5.
  apply (safe_bind 0 0).
  { case_match; [|apply safe_ret]. apply (safe_bind 0 0); [apply safe_alloc|]. intros b d6 _ H6.
    apply safe_with_fuel. intros n Hn. apply (safe_bind 0 0); [apply (safe_read_entries _ _ _ d); [done|lia|lia]|].
    intros _ d7 _ _. apply safe_ret. }
  intros dyn d6 _ H6. apply (safe_bind 0 0); [apply safe_gets|]. intros m d7 _ H7.
  apply (safe_bind 0 0); [|intros out d8 _ H8; repeat safe_step].
  case_match; [|apply safe_ret]. apply (safe_bind 0 0); [destruct dyn; [apply safe_ret|apply safe_alloc]|]. intros b d8 _ _. apply safe_ret.
Qed.

Section Total.
Variable int64_oor : float64 -> Z.

Lemma decodeValue_safe_aux room d : safe 1 (decodeValue int64_oor room) d /\ safe 1 (decodeValue int64_oor (S room)) d.
Proof.
  assert (forall r d, (forall d, safe 1 (decodeValue int64_oor (Nat.pred r)) d) -> safe 1 (decodeValue int64_oor (S r)) d) as Hstep.
  { clear. intros r d Hr. cbn [decodeValue]. apply (safe_bind 1 0); [apply safe_readByte|]. intros m d' _ _.
    assert (forall m : M gval, safe 1 m d' -> safe 0 m d') as Hw by (intros ?; apply safe_weaken; lia).
    assert (below d' (decodeValue int64_oor (Nat.pred r))) as Hb by (intros ??; apply Hr).
    destruct m as [|p|p]; [apply safe_ret| |done].
    do 4 (try (destruct p as [p|p|]); try done); try apply safe_ret.
    all: try (by apply Hw, safe_decodeArray); try (by apply Hw, safe_decodeObject).
    all: try (apply Hw, safe_or_reference; intros u d1 _).
    all: try (apply (safe_bind 0 0); [apply safe_readFloat|]; intros; repeat safe_step).
    all: try (apply Hw, (safe_bind 1 0); [first [apply safe_readAMF3String|apply safe_readU29]|]; intros; apply safe_ret).
    all: repeat safe_step. }
  revert d. induction room as [|r IH]; intros d.
  - split; [done|]. apply Hstep. by intros d'.
  - split; [apply IH|]. apply Hstep. intros d'. apply IH.
Qed.

(** Decoding an AMF3 value always ends: on any input, whatever was decoded before,
    the decoder consumes at least a byte and returns a value, or returns an error of
    the source's own; the bounds on the loops of the model are never reached. *)
Theorem amf3_decode_total room d :
  match decodeValue int64_oor room d with
  | (Ok _, d') => (length d'.(input) < length d.(input))%nat
  | (Err e, _) => e <> NoFuel
  end.
Proof. destruct (decodeValue_safe_aux room d) as [H _]. unfold safe in H. destruct (decodeValue _ _ _) as [[v|e] d']; [lia|done]. Qed.
End Total.
