(* ===== verification/Amf3RoundTrip.v ===== *)
(** * internal/rtmp/amf3/amf3.go: what is encoded is decoded

    The round trip of AMF3 values: the headers of 29 bits, the string table the two
    sides share, the cells a decoded value takes in the store, and the decoder's
    loops over them; then runs that show where a value does not survive. *)
From Stdlib Require Import Sorted.
From S2P Require Import Prelude GoBytes GoTime GoFloat Amf0 Amf3.

#[local] Open Scope Z_scope.

(** ** Encoding, then decoding *)

(** The low bits of a byte, and the mark that more bytes follow. *)
Lemma low7 v : 0 <= v -> Z.land v 0x7F = v mod 128.
Proof. intros _. exact (Z.land_ones v 7 ltac:(lia)). Qed.

Lemma marked x : 0 <= x < 128 -> Z.lor x 0x80 = x + 128.
Proof. intros Hx. rewrite Z.lor_comm. change 128 with (Z.shiftl 1 7) at 1. rewrite lor_shiftl by lia. lia. Qed.

Lemma marked_bits x : 0 <= x < 128 -> Z.land (x + 128) 0x7F = x /\ Z.land (x + 128) 0x80 = 128.
Proof.
  intros Hx. split; [rewrite low7 by lia; Z.to_euclidean_division_equations; lia|].
  rewrite <- marked by done. apply Z.bits_inj_iff'. intros i Hi. rewrite Z.land_spec, Z.lor_spec.
  change 128 with (2 ^ 7). rewrite Z.pow2_bits_eqb by lia. destruct (Z.eqb_spec 7 i); [by rewrite orb_true_r|apply andb_false_r].
Qed.

Lemma unmarked_bits x : 0 <= x < 128 -> Z.land x 0x7F = x /\ Z.land x 0x80 = 0.
Proof.
  intros Hx. split; [rewrite low7 by lia; by apply Z.mod_small|]. apply Z.bits_inj_iff'. intros i Hi. rewrite Z.land_spec, Z.bits_0.
  change 128 with (2 ^ 7). rewrite Z.pow2_bits_eqb by lia. destruct (Z.eqb_spec 7 i) as [<-|]; [|apply andb_false_r].
  by rewrite (testbit_high x 7).
Qed.

Lemma readU29_last v b s d : 0 <= b < 128 -> d.(input) = b :: s -> forall k, readU29_from (S k) v d = (Ok (v * 128 + b), with_input s d).
Proof.
  intros Hb Hd k. cbn [readU29_from]. unfold mbind, M_bind, readByte. rewrite Hd. destruct (unmarked_bits b Hb) as [-> ->].
  cbn [Z.eqb]. rewrite lor_shiftl by lia. done.
Qed.

Lemma readU29_more v b s d k : 0 <= b < 128 -> d.(input) = b + 128 :: s ->
  readU29_from (S k) v d = readU29_from k (v * 128 + b) (with_input s d).
Proof.
  intros Hb Hd. cbn [readU29_from]. unfold mbind at 1, M_bind at 1, readByte at 1. rewrite Hd. destruct (marked_bits b Hb) as [-> ->].
  cbn [Z.eqb]. rewrite lor_shiftl by lia. done.
Qed.

Lemma writeU29_read v b rest d : writeU29 v = Ok b -> d.(input) = b ++ rest ->
  0 <= v < 2 ^ 29 /\ readU29 d = (Ok v, with_input rest d).
Proof.
  unfold writeU29. case_match eqn:Hr; [done|]. unfold maxU29 in Hr. bool_prop. intros [= <-] Hd. split; [lia|].
  assert (forall x, 0 <= x mod 128 < 128) as Hm by (intros; apply Z.mod_pos_bound; lia).
  assert (forall x, byte (x mod 128 + 128) = x mod 128 + 128) as Hb
    by (intros x; unfold byte; specialize (Hm x); apply Z.mod_small; lia).
  assert (forall x, byte (x mod 128) = x mod 128) as Hb' by (intros x; unfold byte; specialize (Hm x); apply Z.mod_small; lia).
  unfold readU29. rewrite !Z.shiftr_div_pow2, !low7, !marked, !Hb, !Hb' in Hd by (try apply Z.div_pos; try apply Hm; lia).
  assert (forall x s, d.(input) = x -> with_input rest (with_input s d) = with_input rest d) as Hw by done.
  destruct (Z.ltb_spec v 0x80); [|destruct (Z.ltb_spec v 0x4000); [|destruct (Z.ltb_spec v 0x200000)]]; cbn [app] in Hd.
  - replace (byte v) with v in Hd by (unfold byte; rewrite Z.mod_small; lia). by rewrite (readU29_last 0 v rest d ltac:(lia) Hd).
  - rewrite (readU29_more _ _ _ _ _ (Hm _) Hd). erewrite (readU29_last _ _ _ _ (Hm v)) by reflexivity.
    repeat f_equal. Z.to_euclidean_division_equations; lia.
  - rewrite (readU29_more _ _ _ _ _ (Hm _) Hd). erewrite (readU29_more _ _ _ _ _ (Hm (v / 2 ^ 7))) by reflexivity.
    erewrite (readU29_last _ _ _ _ (Hm v)) by reflexivity. repeat f_equal. Z.to_euclidean_division_equations; lia.
  - rewrite (readU29_more _ _ _ _ _ (Hm _) Hd). erewrite (readU29_more _ _ _ _ _ (Hm (v / 2 ^ 15))) by reflexivity.
    erewrite (readU29_more _ _ _ _ _ (Hm (v / 2 ^ 8))) by reflexivity.
    cbn [readU29_from]. unfold mbind, M_bind, readByte. cbn [input with_input].
    rewrite lor_shiftl by (unfold byte; try apply Z.mod_pos_bound; lia). unfold mret, M_ret, byte. repeat f_equal.
    Z.to_euclidean_division_equations; lia.
Qed.

Lemma land1 u : Z.land u 1 = u mod 2.
Proof. exact (Z.land_ones u 1 ltac:(lia)). Qed.

(** The headers of what is inline are odd, those of references even. *)
Lemma header_small n s c : 0 <= n < 2 ^ 28 -> 0 <= s <= 1 -> 0 <= c < 2 ^ s -> header n s c = n * 2 ^ s + c.
Proof.
  intros Hn Hs Hc. unfold header. rewrite lor_shiftl by lia. assert (s = 0 \/ s = 1) as [->| ->] by lia; apply wraps_id; unfold in_s; lia.
Qed.

Lemma inline_header n : 0 <= n -> Z.land (n * 2 + 1) 1 = 1 /\ Z.shiftr (n * 2 + 1) 1 = n.
Proof. intros Hn. rewrite land1, Z.shiftr_div_pow2 by lia. split; Z.to_euclidean_division_equations; lia. Qed.
Lemma reference_header n : 0 <= n -> Z.land (n * 2) 1 = 0 /\ Z.shiftr (n * 2) 1 = n.
Proof. intros Hn. rewrite land1, Z.shiftr_div_pow2 by lia. split; Z.to_euclidean_division_equations; lia. Qed.

Lemma string_ref_lookup s refs i : string_ref s refs = Some i -> refs !! i = Some s.
Proof.
  revert i. induction refs as [|x t IH]; intros i; cbn; [done|]. case_bool_decide as Hx; [by intros [= <-]; subst|].
  destruct (string_ref s t) as [j|]; [|done]. intros [= <-]. by apply IH.
Qed.

(** The decoder after it has read what was written: the rest of the input is left,
    its strings are those of the encoder. *)
Record after (rest : bytes) (refs : list bytes) (d' : decoder) : Prop := {
  after_input : d'.(input) = rest;
  after_refs : d'.(stringRefs) = refs
}.

(** A size the format's 29-bit headers can carry. *)
Definition small (n : nat) : Prop := Z.of_nat n < 2 ^ 28.

Lemma amf3_ReadFull_app s rest d : d.(input) = s ++ rest -> ReadFull (len s) d = (Ok s, with_input rest d).
Proof. intros Hd. unfold ReadFull. rewrite Hd, read_full_app by done. done. Qed.

Lemma nth_ref_ok {A} (l : list A) i x d : l !! i = Some x -> nth_ref l (Z.of_nat i) d = (Ok x, d).
Proof.
  intros Hi. pose proof (lookup_lt_Some _ _ _ Hi). unfold nth_ref.
  destruct (Z.ltb_spec (Z.of_nat i) 0); [lia|]. destruct (Z.leb_spec (Z.of_nat (length l)) (Z.of_nat i)); [lia|]. cbn [orb].
  rewrite Nat2Z.id, Hi. done.
Qed.

(** The header of what is inline, read back. *)
Lemma read_header n b rest d : 0 <= n -> n < 2 ^ 28 -> writeU29 (header n 1 1) = Ok b -> d.(input) = b ++ rest ->
  readU29 d = (Ok (n * 2 + 1), with_input rest d).
Proof. intros Hn Hl Hb Hd. rewrite header_small in Hb by lia. by destruct (writeU29_read _ _ _ _ Hb Hd). Qed.

Lemma readAMF3String_app s refs b refs' rest d :
  writeAMF3String s refs = Ok (b, refs') -> small (length b) -> small (length refs) -> after (b ++ rest) refs d ->
  exists d', readAMF3String d = (Ok s, d') /\ after rest refs' d' /\ d'.(heap) = d.(heap).
Proof.
  unfold writeAMF3String, small. intros Hw Hb Hrefs [Hi Hr]. unfold readAMF3String. case_bool_decide as Hs.
  - apply bind_Ok in Hw as (h & Hh & [= <- <-]). destruct (writeU29_read _ _ _ _ Hh Hi) as [_ Hu]. subst s.
    unfold mbind, M_bind. rewrite Hu. eexists. split; [done|]. by split.
  - destruct (string_ref s refs) as [i|] eqn:Hx; apply bind_Ok in Hw as (h & Hh & [= <- <-]).
    + apply string_ref_lookup in Hx. pose proof (lookup_lt_Some _ _ _ Hx).
      rewrite Z.shiftl_mul_pow2, wraps_id in Hh by (unfold in_s; lia). change (2 ^ 1) with 2 in Hh.
      destruct (writeU29_read _ _ _ _ Hh Hi) as [_ Hu]. destruct (reference_header (Z.of_nat i)) as [E1 E2]; [lia|].
      unfold mbind, M_bind. rewrite Hu, E1, E2. cbn [Z.eqb gets with_input stringRefs]. rewrite Hr, (nth_ref_ok _ _ _ _ Hx).
      eexists. split; [done|]. by split.
    + rewrite length_app in Hb. rewrite <- app_assoc in Hi.
      pose proof (read_header (len s) h (s ++ rest) d (len_nonneg s) ltac:(unfold len; lia) Hh Hi) as Hu.
      destruct (inline_header (len s) (len_nonneg s)) as [E1 E2]. unfold mbind, M_bind. rewrite Hu, E1, E2. cbn [Z.eqb].
      destruct (Z.eqb_spec (len s) 0) as [E|_]; [unfold len in E; destruct s; [done|cbn in E; lia]|].
      rewrite (amf3_ReadFull_app s rest) by done. eexists. split; [done|]. split; [|done]. split; cbn; congruence.
Qed.

Section AnyInd.
Variable P : any -> Prop.
Hypothesis Pnil : P Nil.
Hypothesis Pundef : P Undefined.
Hypothesis Pbool : forall b, P (Bool b).
Hypothesis Pint : forall n, P (Int n).
Hypothesis Puint : forall n, P (Uint n).
Hypothesis Pfloat : forall f, P (Float f).
Hypothesis Pstr : forall s, P (Str s).
Hypothesis Ptime : forall t, P (Time_ t).
Hypothesis Pslice : forall l, Forall P l -> P (Slice l).
Hypothesis Parray : forall a l, Forall (fun kv => P kv.2) a -> Forall P l -> P (Array a l).
Hypothesis Pmap : forall m, Forall (fun kv => P kv.2) m -> P (Map m).
Hypothesis Pobject : forall cn s d, Forall (fun kv => P kv.2) s -> Forall (fun kv => P kv.2) d -> P (Object cn s d).
Hypothesis Pbytes : forall b, P (Bytes b).
Hypothesis Pother : P Other.

(** Induction on a value and the values inside it. *)
Fixpoint any_nested_ind (v : any) : P v :=
  let members := fix go (m : list (bytes * any)) : Forall (fun kv => P kv.2) m :=
    match m with
    | [] => Forall_nil_2 _
    | (k, v) :: m' => Forall_cons_2 (fun kv => P kv.2) (k, v) m' (any_nested_ind v) (go m')
    end in
  let items := fix go (l : list any) : Forall P l :=
    match l with [] => Forall_nil_2 _ | v :: l' => Forall_cons_2 P v l' (any_nested_ind v) (go l') end in
  match v with
  | Nil => Pnil
  | Undefined => Pundef
  | Bool b => Pbool b
  | Int n => Pint n
  | Uint n => Puint n
  | Float f => Pfloat f
  | Str s => Pstr s
  | Time_ t => Ptime t
  | Slice l => Pslice l (items l)
  | Array a l => Parray a l (members a) (items l)
  | Map m => Pmap m (members m)
  | Object cn s d => Pobject cn s d (members s) (members d)
  | Bytes b => Pbytes b
  | Other => Pother
  end.
End AnyInd.

(** What a decoder gives for an encoded value: an integer beyond 29 bits becomes a
    number, a time is cut to milliseconds, an Array with no named entries is a slice,
    an anonymous Object without sealed members is a map, and the dynamic members of an
    Object with sealed ones are not written. *)
Fixpoint norm (v : any) : any :=
  let norm_entries := map (fun kv => (kv.1, norm kv.2)) in
  match v with
  | Int n => if (minSignedU29 <=? n) && (n <=? maxSignedU29) then Int n else Float (float_of_Z n)
  | Uint n => if n <=? maxSignedU29 then Int n else Float (float_of_Z n)
  | Time_ t => Time_ (UnixMilli t * Millisecond)
  | Slice l => Slice (map norm l)
  | Array a l => match a with [] => Slice (map norm l) | _ => Array (norm_entries a) (map norm l) end
  | Map m => Map (norm_entries m)
  | Object cn s d =>
      match s with
      | [] => if bool_decide (cn = []) then Map (norm_entries d) else Object cn [] (norm_entries d)
      | _ => Object cn (norm_entries s) []
      end
  | _ => v
  end.

(** The entries of a Go map, in the order of their keys. *)
Definition in_order {A} (m : list (bytes * A)) : Prop := StronglySorted (fun a b => str_lt a b = true) m.*1.

(** Values the format can carry: maps in the order of their keys, no empty key among
    those whose list an empty key ends, times and numbers exact as float64. *)
Fixpoint carried (v : any) : Prop :=
  let all := foldr (fun v p => carried v /\ p) True in
  let entries := foldr (fun kv p => carried kv.2 /\ p) True in
  let named m := in_order m /\ Forall (fun k => k <> []) m.*1 /\ entries m in
  match v with
  | Int n => minSignedU29 <= n <= maxSignedU29 \/ float_ok (float_of_Z n)
  | Uint n => 0 <= n /\ (n <= maxSignedU29 \/ float_ok (float_of_Z n))
  | Float f => float_ok f
  | Time_ t => 0 <= UnixMilli t < 2 ^ 53
  | Slice l => all l
  | Array a l => named a /\ all l
  | Map m => named m
  | Object _ s d => match s with [] => named d | _ => in_order s /\ entries s end
  | _ => True
  end.

(** The room a value takes: two levels for each array and object. *)
Fixpoint need (v : any) : nat :=
  let all := foldr (fun v n => max (S (S (need v))) n) 1%nat in
  let entries := foldr (fun kv n => max (S (S (need kv.2))) n) 1%nat in
  match v with
  | Slice l => all l
  | Array a l => max (entries a) (all l)
  | Map m => entries m
  | Object _ s d => max (entries s) (entries d)
  | _ => 1%nat
  end.

(** [P] of the elements of two lists side by side. *)
Definition all2 {A B} (P : A -> B -> Prop) : list A -> list B -> Prop :=
  fix go l m := match l, m with [], [] => True | x :: l', y :: m' => P x y /\ go l' m' | _, _ => False end.

(** The decoded value [g] is the value [v], in cells from [lo] to [hi] of the store. *)
Fixpoint den (lo hi : nat) (h : list cell) (v : any) (g : gval) : Prop :=
  let map_cell a m := (lo <= a < hi)%nat /\ exists es, h !! a = Some (CMap es) /\
    all2 (fun kv e => kv.1 = e.1 /\ den lo hi h kv.2 e.2) m es in
  let slice_cell a l := (lo <= a < hi)%nat /\ exists gs, h !! a = Some (CSlice (Z.of_nat (length l)) gs) /\
    all2 (den lo hi h) l gs in
  match v with
  | Nil => g = GNil
  | Undefined => g = GUndefined
  | Bool b => g = GBool b
  | Int n => g = GInt n
  | Float f => g = GFloat f
  | Str s => g = GStr s
  | Time_ t => g = GTime t
  | Slice l => exists a, g = GSlice a /\ slice_cell a l
  | Array m l => exists a b, g = GArray a b /\ map_cell a m /\ slice_cell b l
  | Map m => exists a, g = GMap a /\ map_cell a m
  | Object cn s d => exists a o, g = GObject cn a o /\ map_cell a s /\
      match o with Some b => map_cell b d | None => d = [] end
  | Bytes b => g = GBytes b
  | Uint _ | Other => False
  end.

Lemma all2_impl {A B} (P Q : A -> B -> Prop) l m :
  Forall (fun x => forall y, P x y -> Q x y) l -> all2 P l m -> all2 Q l m.
Proof.
  intros Hl. revert m. induction Hl as [|x l Hx Hl IH]; intros [|y m]; cbn; try done. intros [Hp Hr]. split; [by apply Hx|by apply IH].
Qed.

Lemma all2_app {A B} (P : A -> B -> Prop) l m l' m' : all2 P l m -> all2 P l' m' -> all2 P (l ++ l') (m ++ m').
Proof. revert m. induction l as [|x l IH]; intros [|y m]; cbn; try done. intros [??] ?. split; [done|by apply IH]. Qed.

(** Storing elsewhere does not change what is stored here. *)
Lemma den_mono lo hi h lo' hi' h' v : (lo' <= lo)%nat -> (hi <= hi')%nat ->
  (forall i, (lo <= i < hi)%nat -> h' !! i = h !! i) -> forall g, den lo hi h v g -> den lo' hi' h' v g.
Proof.
  intros Hlo Hhi Hh.
  assert (forall m, Forall (fun kv : bytes * any => forall g, den lo hi h kv.2 g -> den lo' hi' h' kv.2 g) m -> forall es : list (bytes * gval),
    all2 (fun kv e => kv.1 = e.1 /\ den lo hi h kv.2 e.2) m es -> all2 (fun kv e => kv.1 = e.1 /\ den lo' hi' h' kv.2 e.2) m es) as He.
  { intros m Hm es. apply all2_impl. eapply Forall_impl; [exact Hm|]. intros kv Hkv e [? ?]. split; [done|by apply Hkv]. }
  induction v as [| |b|n|n|f|s|t|l IHl|m l IHm IHl|m IHm|cn s d IHs IHd|b|] using any_nested_ind; intros g; cbn [den]; try done.
  - intros (a & -> & Ha & gs & Hc & Hl). exists a. split; [done|]. split; [lia|]. exists gs. split; [by rewrite Hh|by eapply all2_impl].
  - intros (a & b & -> & (Ha & es & Hc & Hm) & Hb & gs & Hd & Hl). exists a, b. split_and!; [done|lia|lia| |lia|lia|].
    + exists es. split; [by rewrite Hh|by apply He].
    + exists gs. split; [by rewrite Hh|by eapply all2_impl].
  - intros (a & -> & Ha & es & Hc & Hm). exists a. split; [done|]. split; [lia|]. exists es. split; [by rewrite Hh|by apply He].
  - intros (a & o & -> & (Ha & es & Hc & Hm) & Ho). exists a, o. split_and!; [done|lia|lia| |].
    + exists es. split; [by rewrite Hh|by apply He].
    + destruct o as [b|]; [|done]. destruct Ho as (Hb & ds & Hd & Hds). split; [lia|]. exists ds. split; [by rewrite Hh|by apply He].
Qed.

(** The encoder adds strings to its table, and writes at least a byte for a value. *)
Definition writes (e : enc bytes) : Prop := forall r b r', e r = Ok (b, r') -> r `prefix_of` r' /\ (1 <= length b)%nat.
Definition writes_all (n : nat) (e : enc bytes) : Prop := forall r b r', e r = Ok (b, r') -> r `prefix_of` r' /\ (n <= length b)%nat.

Lemma writeU29_length v b : writeU29 v = Ok b -> (1 <= length b)%nat.
Proof. unfold writeU29. repeat case_match; intros [= <-]; cbn; lia. Qed.

Lemma writeAMF3String_writes s : writes (writeAMF3String s).
Proof.
  intros r b r'. unfold writeAMF3String. repeat case_match; intros Hw; apply bind_Ok in Hw as (h & Hh%writeU29_length & [= <- <-]).
  - done.
  - done.
  - split; [by eexists|rewrite length_app; lia].
Qed.

(** A piece that writes, then the rest. *)
Lemma writes_cons e n (f : list bytes -> result amf3_error (bytes * list bytes)) r b r' :
  writes e -> writes_all n f -> ('(vb, r1) ← e r; '(rest, r2) ← f r1; Ok (vb ++ rest, r2)) = Ok (b, r') ->
  r `prefix_of` r' /\ (S n <= length b)%nat.
Proof.
  intros He Hf Hw. apply bind_Ok in Hw as ([vb r1] & H1 & Hw). apply bind_Ok in Hw as ([rest r2] & H2 & [= <- <-]).
  apply He in H1 as [? ?]. apply Hf in H2 as [? ?]. split; [by etrans|rewrite length_app; lia].
Qed.

Lemma encode_all_writes e l : Forall (fun v => writes (e v)) l -> writes_all (length l) (encode_all e l).
Proof.
  induction 1 as [|v l Hv Hl IH]; intros r b r' Hw; cbn in Hw; [by injection Hw as <- <-|]. by eapply writes_cons.
Qed.

Lemma encode_values_writes e m : Forall (fun kv => writes (e kv.2)) m -> writes_all (length m) (encode_values e m).
Proof.
  induction 1 as [|[k v] m Hv Hm IH]; intros r b r' Hw; cbn in Hw; [by injection Hw as <- <-|]. by eapply writes_cons.
Qed.

Lemma encode_keys_writes ks : writes_all (length ks) (encode_keys ks).
Proof.
  induction ks as [|k ks IH]; intros r b r' Hw; cbn in Hw; [by injection Hw as <- <-|].
  eapply writes_cons; [apply writeAMF3String_writes|exact IH|exact Hw].
Qed.

Lemma encode_entries_writes e m : Forall (fun kv => writes (e kv.2)) m -> writes_all (length m) (encode_entries e m).
Proof.
  induction 1 as [|[k v] m Hv Hm IH]; intros r b r' Hw; cbn in Hw; [by injection Hw as <- <-|].
  apply bind_Ok in Hw as ([kb r1] & H1 & Hw). apply bind_Ok in Hw as ([vb r2] & H2 & Hw).
  apply bind_Ok in Hw as ([rest r3] & H3 & [= <- <-]).
  apply writeAMF3String_writes in H1 as [? ?]. apply Hv in H2 as [? ?]. apply IH in H3 as [? ?].
  split; [by do 2 (etrans; [done|])|rewrite !length_app; cbn; lia].
Qed.

Lemma encodeArray_writes e a l : Forall (fun kv => writes (e kv.2)) a -> Forall (fun v => writes (e v)) l -> writes (encodeArray e a l).
Proof.
  intros Ha Hl r b r' Hw. unfold encodeArray in Hw. apply bind_Ok in Hw as (h & _ & Hw).
  apply bind_Ok in Hw as ([ab r1] & H1%(encode_entries_writes e a Ha) & Hw). apply bind_Ok in Hw as ([z r2] & H2%writeAMF3String_writes & Hw).
  apply bind_Ok in Hw as ([db r3] & H3%(encode_all_writes e l Hl) & [= <- <-]).
  split; [|cbn; lia]. destruct H1, H2, H3. by do 2 (etrans; [done|]).
Qed.

Lemma encodeObject_writes e cn s d :
  Forall (fun kv => writes (e kv.2)) s -> Forall (fun kv => writes (e kv.2)) d -> writes (encodeObject e cn s d).
Proof.
  intros Hs Hd r b r' Hw. unfold encodeObject in Hw. destruct s as [|kv s].
  - apply bind_Ok in Hw as (h & _ & Hw). apply bind_Ok in Hw as ([c r1] & H1%writeAMF3String_writes & Hw).
    apply bind_Ok in Hw as ([ms r2] & H2%(encode_entries_writes e d Hd) & Hw).
    apply bind_Ok in Hw as ([z r3] & H3%writeAMF3String_writes & [= <- <-]).
    split; [|cbn; lia]. destruct H1, H2, H3. by do 2 (etrans; [done|]).
  - apply bind_Ok in Hw as (h & _ & Hw). apply bind_Ok in Hw as ([c r1] & H1%writeAMF3String_writes & Hw).
    apply bind_Ok in Hw as ([ks r2] & H2%encode_keys_writes & Hw).
    apply bind_Ok in Hw as ([vs r3] & H3%(encode_values_writes e (kv :: s) Hs) & [= <- <-]).
    split; [|cbn; lia]. destruct H1, H2, H3. by do 2 (etrans; [done|]).
Qed.

Lemma encodeValue_writes v : writes (encodeValue v).
Proof.
  induction v as [| |b|n|n|f|s|t|l IHl|m l IHm IHl|m IHm|cn s d IHs IHd|b|] using any_nested_ind; cbn [encodeValue].
  all: try (intros r x r' [= <- <-]; split; [done|cbn; lia]).
  - intros r x r' Hw. apply bind_Ok in Hw as (h & Hh & [= <- <-]). unfold encodeInt64, encodeDouble in Hh.
    case_match; [apply bind_Ok in Hh as (? & _ & [= <-])|injection Hh as <-]; split; done || (cbn; lia).
  - intros r x r' Hw. apply bind_Ok in Hw as (h & Hh & [= <- <-]). unfold encodeUint64, encodeDouble in Hh.
    case_match; [apply bind_Ok in Hh as (? & _ & [= <-])|injection Hh as <-]; split; done || (cbn; lia).
  - intros r x r' Hw. apply bind_Ok in Hw as ([h r1] & [? ?]%writeAMF3String_writes & [= <- <-]). split; [done|cbn; lia].
  - by apply encodeArray_writes.
  - by apply encodeArray_writes.
  - by apply encodeObject_writes.
  - by apply encodeObject_writes.
  - intros r x r' Hw. apply bind_Ok in Hw as (h & Hh & [= <- <-]). apply bind_Ok in Hh as (? & _ & [= <-]). split; [done|cbn; lia].
  - done.
Qed.

Lemma small_prefix (r r' : list bytes) : r `prefix_of` r' -> small (length r') -> small (length r).
Proof. intros [t ->]. unfold small. rewrite length_app. lia. Qed.

Definition norm_entries : list (bytes * any) -> list (bytes * any) := map (fun kv => (kv.1, norm kv.2)).
Definition den_entries (lo hi : nat) (h : list cell) : list (bytes * any) -> list (bytes * gval) -> Prop :=
  all2 (fun kv e => kv.1 = e.1 /\ den lo hi h kv.2 e.2).

(** A store that grew, the cell [a] apart. *)
Definition extends (h h' : list cell) : Prop := (length h <= length h')%nat /\ forall i, (i < length h)%nat -> h' !! i = h !! i.
Definition extends_but (a : nat) (h h' : list cell) : Prop :=
  (length h <= length h')%nat /\ forall i, (i < length h)%nat -> i <> a -> h' !! i = h !! i.

Lemma den_entries_mono lo hi h lo' hi' h' m es : (lo' <= lo)%nat -> (hi <= hi')%nat ->
  (forall i, (lo <= i < hi)%nat -> h' !! i = h !! i) -> den_entries lo hi h m es -> den_entries lo' hi' h' m es.
Proof.
  intros Hlo Hhi Hh. apply all2_impl, Forall_forall. intros kv _ e [? ?]. split; [done|by eapply den_mono].
Qed.

Lemma all2_den_mono lo hi h lo' hi' h' l gs : (lo' <= lo)%nat -> (hi <= hi')%nat ->
  (forall i, (lo <= i < hi)%nat -> h' !! i = h !! i) -> all2 (den lo hi h) l gs -> all2 (den lo' hi' h') l gs.
Proof. intros Hlo Hhi Hh. apply all2_impl, Forall_forall. intros v _ g. by eapply den_mono. Qed.

Lemma den_entries_keys lo hi h m es : den_entries lo hi h m es -> es.*1 = m.*1.
Proof.
  unfold den_entries. revert es. induction m as [|kv m IH]; intros [|e es]; cbn; try done. intros [[-> _] Hr]. f_equal. by apply IH.
Qed.

Lemma extends_lookup h h' a c : extends h h' -> h !! a = Some c -> h' !! a = Some c.
Proof. intros [_ He] Ha. rewrite He; [done|by eapply lookup_lt_Some]. Qed.

Lemma bind_step {A B} (m : M A) (f : A -> M B) a d d' : m d = (Ok a, d') -> (m ≫= f) d = f a d'.
Proof. unfold mbind, M_bind. by intros ->. Qed.

(** [dec] reads back what the encoder writes for [v], in new cells of the store. *)
Definition reads (dec : M gval) (v : any) : Prop := forall refs b refs' d rest,
  encodeValue v refs = Ok (b, refs') -> small (length b) -> small (length refs') -> after (b ++ rest) refs d ->
  exists g d', dec d = (Ok g, d') /\ after rest refs' d' /\ extends d.(heap) d'.(heap) /\
    den (length d.(heap)) (length d'.(heap)) d'.(heap) (norm v) g.

(** A string that is followed by more. *)
Lemma read_string s refs b refs' more d :
  writeAMF3String s refs = Ok (b, refs') -> small (length b) -> small (length refs') -> after (b ++ more) refs d ->
  exists d', readAMF3String d = (Ok s, d') /\ after more refs' d' /\ d'.(heap) = d.(heap).
Proof.
  intros Hw Hb Hr Ha. pose proof (writeAMF3String_writes s _ _ _ Hw) as [Hp _].
  exact (readAMF3String_app _ _ _ _ _ _ Hw Hb (small_prefix _ _ Hp Hr) Ha).
Qed.

(** The empty string that ends the entries of a map. *)
Lemma read_end rest refs d : small (length refs) -> after (1 :: rest) refs d ->
  exists d', readAMF3String d = (Ok [], d') /\ after rest refs d' /\ d'.(heap) = d.(heap).
Proof. intros Hr Ha. by apply (read_string [] refs [1] refs). Qed.

Lemma change_step {B} a f (k : unit -> M B) d : (change a f ≫= k) d = k tt (with_heap (alter f a d.(heap)) d).
Proof. done. Qed.

Lemma after_with_heap rest refs h d : after rest refs d -> after rest refs (with_heap h d).
Proof. by intros [? ?]. Qed.

Lemma small_app (b c : bytes) : small (length (b ++ c)) -> small (length b) /\ small (length c).
Proof. unfold small. rewrite length_app. lia. Qed.

(** After an element is read and stored in the cell [a], what was read stays. *)
Lemma stored_extends a f h h1 h2 : (a < length h)%nat -> extends h h1 -> extends_but a (alter f a h1) h2 ->
  extends_but a h h2 /\ (length h1 <= length h2)%nat /\ forall i, (length h <= i < length h1)%nat -> h2 !! i = h1 !! i.
Proof.
  intros Ha [Hl He] [Hl2 He2]. rewrite length_alter in Hl2, He2.
  assert (forall i, i <> a -> (i < length h1)%nat -> h2 !! i = h1 !! i) as Hi.
  { intros i Hia Hil. rewrite He2 by done. by apply list_lookup_alter_ne. }
  split; [|split; [lia|intros; apply Hi; lia]]. split; [lia|]. intros i Hil Hia. rewrite Hi by lia. by apply He.
Qed.

Lemma read_entries_app dec a m : forall fuel refs b refs' d rest acc,
  encode_entries encodeValue m refs = Ok (b, refs') -> Forall (fun kv => reads dec kv.2) m ->
  in_order m -> Forall (fun k => k <> []) m.*1 -> (forall k, k ∈ m.*1 -> Forall (fun k' => str_lt k' k = true) acc.*1) ->
  small (length b) -> small (length refs') -> after (b ++ 1 :: rest) refs d -> (length m <= fuel)%nat ->
  d.(heap) !! a = Some (CMap acc) ->
  exists d' es, read_entries fuel dec a d = (Ok tt, d') /\ after rest refs' d' /\ extends_but a d.(heap) d'.(heap) /\
    d'.(heap) !! a = Some (CMap (acc ++ es)) /\ den_entries (length d.(heap)) (length d'.(heap)) d'.(heap) (norm_entries m) es.
Proof.
  induction m as [|[k v] m IH]; intros fuel refs b refs' d rest acc He Hr Ho Hk Hacc Hb Hrefs Ha Hf Hc.
  - injection He as <- <-. destruct (read_end _ _ _ Hrefs Ha) as (d' & Hd & Ha' & Hh). exists d', [].
    rewrite app_nil_r, Hh. split; [destruct fuel; cbn [read_entries]; by rewrite (bind_step _ _ _ _ _ Hd)|]. by repeat split; try apply Ha'.
  - cbn in He. apply bind_Ok in He as ([kb r1] & H1 & He). apply bind_Ok in He as ([vb r2] & H2 & He).
    apply bind_Ok in He as ([mb r3] & H3 & [= <- <-]). apply small_app in Hb as [Hkb Hb]. apply small_app in Hb as [Hvb Hmb].
    pose proof (encode_entries_writes encodeValue m (Forall_true _ _ (fun kv => encodeValue_writes kv.2)) _ _ _ H3) as [Hp3 _].
    pose proof (encodeValue_writes _ _ _ _ H2) as [Hp2 _].
    inversion Hr as [|? ? Hrv Hrm]; subst. cbn in Hrv. inversion Hk as [|? ? Hkne Hkm]; subst.
    inversion Ho as [|? ? Hom Hlt]; subst. cbn in Hkne. destruct fuel as [|fuel]; [cbn in Hf; lia|]. cbn [read_entries].
    rewrite <- !app_assoc in Ha.
    destruct (read_string _ _ _ _ _ _ H1 Hkb (small_prefix _ _ (transitivity Hp2 Hp3) Hrefs) Ha) as (d1 & Hs & Ha1 & Hh1).
    rewrite (bind_step _ _ _ _ _ Hs).
    rewrite bool_decide_false by done.
    destruct (Hrv _ _ _ _ _ H2 Hvb ltac:(by eapply small_prefix) Ha1) as (g & d2 & Hg & Ha2 & Hx2 & Hden).
    rewrite (bind_step _ _ _ _ _ Hg), change_step. rewrite Hh1 in Hx2, Hden.
    pose proof (lookup_lt_Some _ _ _ Hc) as Hal. pose proof (extends_lookup _ _ _ _ Hx2 Hc) as Hc2.
    destruct (IH fuel r2 mb r3 (with_heap (alter (set_entry k g) a d2.(heap)) d2) rest (acc ++ [(k, g)])) as (d3 & es & Hd3 & Ha3 & Hx3 & Hc3 & Hes).
    + done.
    + done.
    + done.
    + done.
    + intros k' Hk'. rewrite fmap_app, Forall_app. split; [apply Hacc; by right|]. cbn. constructor; [|done].
      rewrite Forall_forall in Hlt. by apply Hlt.
    + done.
    + done.
    + by apply after_with_heap.
    + cbn in Hf. lia.
    + cbn. rewrite list_lookup_alter_eq, Hc2. cbn. rewrite map_set_last; [done|]. apply Hacc. by left.
    + cbn [heap with_heap] in Hx3, Hes. destruct (stored_extends _ _ _ _ _ Hal Hx2 Hx3) as (Hx & Hl & Hst). rewrite length_alter in Hes.
      exists d3, ((k, g) :: es). rewrite <- app_assoc in Hc3. split; [exact Hd3|]. split; [done|]. split; [exact Hx|].
      split; [exact Hc3|]. split; [split; [done|]|].
      * eapply den_mono; [| | |exact Hden]; [lia|lia|done].
      * eapply den_entries_mono; [| | |exact Hes]; [apply Hx2|lia|done].
Qed.

Lemma encodeValue_prefix v r b r' : encodeValue v r = Ok (b, r') -> r `prefix_of` r'.
Proof. intros Hv. by apply encodeValue_writes in Hv as [? _]. Qed.

Lemma read_elements_app dec a n l : forall fuel refs b refs' d rest gs,
  encode_all encodeValue l refs = Ok (b, refs') -> Forall (reads dec) l ->
  small (length b) -> small (length refs') -> after (b ++ rest) refs d -> (length l <= fuel)%nat ->
  d.(heap) !! a = Some (CSlice n gs) ->
  exists d' gs', read_elements fuel dec (Z.of_nat (length l)) a d = (Ok tt, d') /\ after rest refs' d' /\
    extends_but a d.(heap) d'.(heap) /\ d'.(heap) !! a = Some (CSlice n (gs ++ gs')) /\
    all2 (den (length d.(heap)) (length d'.(heap)) d'.(heap)) (map norm l) gs'.
Proof.
  induction l as [|v l IH]; intros fuel refs b refs' d rest gs He Hr Hb Hrefs Ha Hf Hc.
  - injection He as <- <-. exists d, []. rewrite app_nil_r. split; [by destruct fuel|]. by repeat split; try apply Ha.
  - cbn in He. apply bind_Ok in He as ([vb r2] & H2 & He). apply bind_Ok in He as ([mb r3] & H3 & [= <- <-]).
    apply small_app in Hb as [Hvb Hmb]. inversion Hr as [|? ? Hrv Hrm]; subst.
    pose proof (encode_all_writes encodeValue l (Forall_true _ _ encodeValue_writes) _ _ _ H3) as [Hp3 _].
    destruct fuel as [|fuel]; [cbn in Hf; lia|]. cbn [read_elements length].
    destruct (Z.leb_spec (Z.of_nat (S (length l))) 0); [lia|]. replace (Z.of_nat (S (length l)) - 1) with (Z.of_nat (length l)) by lia.
    rewrite <- !app_assoc in Ha.
    destruct (Hrv _ _ _ _ _ H2 Hvb ltac:(by eapply small_prefix) Ha) as (g & d2 & Hg & Ha2 & Hx2 & Hden).
    rewrite (bind_step _ _ _ _ _ Hg), change_step.
    pose proof (lookup_lt_Some _ _ _ Hc) as Hal. pose proof (extends_lookup _ _ _ _ Hx2 Hc) as Hc2.
    destruct (IH fuel r2 mb r3 (with_heap (alter (set_element g) a d2.(heap)) d2) rest (gs ++ [g])) as (d3 & es & Hd3 & Ha3 & Hx3 & Hc3 & Hes);
      [done|done|done|done|by apply after_with_heap|cbn in Hf; lia|cbn; by rewrite list_lookup_alter_eq, Hc2|].
    cbn [heap with_heap] in Hx3, Hes. destruct (stored_extends _ _ _ _ _ Hal Hx2 Hx3) as (Hx & Hl & Hst). rewrite length_alter in Hes.
    exists d3, (g :: es). rewrite <- app_assoc in Hc3. split; [exact Hd3|]. split; [done|]. split; [exact Hx|].
    split; [exact Hc3|]. split.
    + eapply den_mono; [| | |exact Hden]; [lia|lia|done].
    + eapply all2_den_mono; [| | |exact Hes]; [apply Hx2|lia|done].
Qed.

Lemma read_sealed_app dec a m : forall refs b refs' d rest acc,
  encode_values encodeValue m refs = Ok (b, refs') -> Forall (fun kv => reads dec kv.2) m ->
  in_order m -> (forall k, k ∈ m.*1 -> Forall (fun k' => str_lt k' k = true) acc.*1) ->
  small (length b) -> small (length refs') -> after (b ++ rest) refs d -> d.(heap) !! a = Some (CMap acc) ->
  exists d' es, read_sealed dec m.*1 a d = (Ok tt, d') /\ after rest refs' d' /\ extends_but a d.(heap) d'.(heap) /\
    d'.(heap) !! a = Some (CMap (acc ++ es)) /\ den_entries (length d.(heap)) (length d'.(heap)) d'.(heap) (norm_entries m) es.
Proof.
  induction m as [|[k v] m IH]; intros refs b refs' d rest acc He Hr Ho Hacc Hb Hrefs Ha Hc.
  - injection He as <- <-. exists d, []. rewrite app_nil_r. split; [done|]. by repeat split; try apply Ha.
  - cbn in He. apply bind_Ok in He as ([vb r2] & H2 & He). apply bind_Ok in He as ([mb r3] & H3 & [= <- <-]).
    apply small_app in Hb as [Hvb Hmb]. inversion Hr as [|? ? Hrv Hrm]; subst. cbn in Hrv. inversion Ho as [|? ? Hom Hlt]; subst.
    pose proof (encode_values_writes encodeValue m (Forall_true _ _ (fun kv => encodeValue_writes kv.2)) _ _ _ H3) as [Hp3 _].
    cbn [read_sealed fmap list_fmap fst]. rewrite <- !app_assoc in Ha.
    destruct (Hrv _ _ _ _ _ H2 Hvb ltac:(by eapply small_prefix) Ha) as (g & d2 & Hg & Ha2 & Hx2 & Hden).
    rewrite (bind_step _ _ _ _ _ Hg), change_step.
    pose proof (lookup_lt_Some _ _ _ Hc) as Hal. pose proof (extends_lookup _ _ _ _ Hx2 Hc) as Hc2.
    destruct (IH r2 mb r3 (with_heap (alter (set_entry k g) a d2.(heap)) d2) rest (acc ++ [(k, g)])) as (d3 & es & Hd3 & Ha3 & Hx3 & Hc3 & Hes);
      [done|done|done| |done|done|by apply after_with_heap| |].
    + intros k' Hk'. rewrite fmap_app, Forall_app. split; [apply Hacc; by right|]. cbn. constructor; [|done].
      rewrite Forall_forall in Hlt. by apply Hlt.
    + cbn. rewrite list_lookup_alter_eq, Hc2. cbn. rewrite map_set_last; [done|]. apply Hacc. by left.
    + cbn [heap with_heap] in Hx3, Hes. destruct (stored_extends _ _ _ _ _ Hal Hx2 Hx3) as (Hx & Hl & Hst). rewrite length_alter in Hes.
      exists d3, ((k, g) :: es). rewrite <- app_assoc in Hc3. split; [exact Hd3|]. split; [done|]. split; [exact Hx|].
      split; [exact Hc3|]. split; [split; [done|]|].
      * eapply den_mono; [| | |exact Hden]; [lia|lia|done].
      * eapply den_entries_mono; [| | |exact Hes]; [apply Hx2|lia|done].
Qed.

Lemma read_keys_app ks : forall fuel refs b refs' d rest,
  encode_keys ks refs = Ok (b, refs') -> small (length b) -> small (length refs') -> after (b ++ rest) refs d -> (length ks <= fuel)%nat ->
  exists d', read_keys fuel (Z.of_nat (length ks)) d = (Ok ks, d') /\ after rest refs' d' /\ d'.(heap) = d.(heap).
Proof.
  induction ks as [|k ks IH]; intros fuel refs b refs' d rest He Hb Hrefs Ha Hf.
  - injection He as <- <-. exists d. by destruct fuel.
  - cbn in He. apply bind_Ok in He as ([kb r2] & H2 & He). apply bind_Ok in He as ([mb r3] & H3 & [= <- <-]).
    apply small_app in Hb as [Hkb Hmb]. pose proof (encode_keys_writes ks _ _ _ H3) as [Hp3 _].
    destruct fuel as [|fuel]; [cbn in Hf; lia|]. cbn [read_keys length].
    destruct (Z.leb_spec (Z.of_nat (S (length ks))) 0); [lia|]. replace (Z.of_nat (S (length ks)) - 1) with (Z.of_nat (length ks)) by lia.
    rewrite <- !app_assoc in Ha. destruct (read_string _ _ _ _ _ _ H2 Hkb ltac:(by eapply small_prefix) Ha) as (d1 & Hs & Ha1 & Hh1).
    destruct (IH fuel r2 mb r3 d1 rest) as (d2 & Hd2 & Ha2 & Hh2); [done|done|done|done|cbn in Hf; lia|].
    rewrite (bind_step _ _ _ _ _ Hs), (bind_step _ _ _ _ _ Hd2). exists d2. split; [done|]. split; [done|congruence].
Qed.

(** ** Steps of the decoder *)

Lemma alloc_step {B} c (k : nat -> M B) d : (alloc c ≫= k) d = k (length d.(heap)) (with_heap (d.(heap) ++ [c]) d).
Proof. done. Qed.
Lemma gets_step {A B} (f : decoder -> A) (k : A -> M B) d : (gets f ≫= k) d = k (f d) d.
Proof. done. Qed.
Lemma fuel_step {B} (k : nat -> M B) d : (fuel_left ≫= k) d = k (S (length d.(input))) d.
Proof. done. Qed.
Lemma add_object_step {B} v (k : nat -> M B) d :
  (add_object v ≫= k) d = k (length d.(objectRefs)) (with_objects (d.(objectRefs) ++ [v]) d).
Proof. done. Qed.
Lemma set_object_step {B} i v (k : unit -> M B) d :
  (set_object i v ≫= k) d = k tt (with_objects (<[i := v]> d.(objectRefs)) d).
Proof. done. Qed.
Lemma after_with_objects rest refs l d : after rest refs d -> after rest refs (with_objects l d).
Proof. by intros [? ?]. Qed.
Lemma after_length rest refs d : after rest refs d -> length d.(input) = length rest.
Proof. by intros [-> _]. Qed.

(** A new cell, and what is done to it alone, leave the store as it was. *)
Lemma alloc_extends h c h' : extends_but (length h) (h ++ [c]) h' -> extends h h' /\ (length h < length h')%nat.
Proof.
  intros [Hl He]. rewrite length_app in *. cbn in Hl. split; [|lia]. split; [lia|]. intros i Hi.
  rewrite He by (cbn; lia). by apply lookup_app_l.
Qed.

Lemma extends_trans h1 h2 h3 : extends h1 h2 -> extends h2 h3 -> extends h1 h3.
Proof. intros [? H12] [? H23]. split; [lia|]. intros i Hi. rewrite H23 by lia. by apply H12. Qed.

Lemma lookup_new {A} (h : list A) c : (h ++ [c]) !! length h = Some c.
Proof. by rewrite list_lookup_middle. Qed.

Lemma all2_nil_l {A B} (P : A -> B -> Prop) m : all2 P [] m -> m = [].
Proof. by destruct m. Qed.

(** What is inline is read by the decoder's second branch. *)
Lemma inline_step k h n rest d refs : writeU29 (header n 1 1) = Ok h -> 0 <= n < 2 ^ 28 -> after (h ++ rest) refs d ->
  or_reference k d = k (n * 2 + 1) (with_input rest d) /\ Z.shiftr (n * 2 + 1) 1 = n.
Proof.
  intros Hh Hn [Hi _]. destruct (inline_header n) as [E1 E2]; [lia|]. split; [|done]. unfold or_reference.
  rewrite (bind_step _ _ _ _ _ (read_header n h rest d ltac:(lia) ltac:(lia) Hh Hi)), E1. done.
Qed.

Lemma after_with_input rest refs s d : after s refs d -> after rest refs (with_input rest d).
Proof. by intros [? ?]. Qed.

Section RoundTrip.
Variable int64_oor : float64 -> Z.

Lemma decodeArray_app dec assoc l refs b refs' d rest :
  encodeArray encodeValue assoc l refs = Ok (9 :: b, refs') ->
  Forall (fun kv => reads dec kv.2) assoc -> Forall (reads dec) l -> in_order assoc -> Forall (fun k => k <> []) assoc.*1 ->
  small (length b) -> small (length refs') -> after (b ++ rest) refs d ->
  exists g d', decodeArray dec d = (Ok g, d') /\ after rest refs' d' /\ extends d.(heap) d'.(heap) /\
    den (length d.(heap)) (length d'.(heap)) d'.(heap) (norm (Array assoc l)) g.
Proof.
  intros He Hra Hrl Ho Hk Hb Hrefs Ha. unfold encodeArray in He. apply bind_Ok in He as (h & Hh & He).
  apply bind_Ok in He as ([ab r1] & H1 & He). apply bind_Ok in He as ([z r2] & H2 & He). injection H2 as <- <-.
  apply bind_Ok in He as ([lb r3] & H3 & [= <- <-]). apply small_app in Hb as [_ Hb]. apply small_app in Hb as [Hab Hb].
  apply (small_app [1]) in Hb as [_ Hlb].
  pose proof (encode_entries_writes encodeValue assoc (Forall_true _ _ (fun kv => encodeValue_writes kv.2)) _ _ _ H1) as [Hp1 Hl1].
  pose proof (encode_all_writes encodeValue l (Forall_true _ _ encodeValue_writes) _ _ _ H3) as [Hp3 Hl3].
  rewrite <- app_assoc in Ha. unfold decodeArray.
  match goal with |- context [or_reference ?k d] =>
    destruct (inline_step k h (Z.of_nat (length l)) _ d refs Hh ltac:(unfold small in Hlb; lia) Ha) as [-> E] end.
  cbv zeta. rewrite E.
  apply after_with_input with (rest := (ab ++ [1] ++ lb) ++ rest) in Ha. rewrite <- !app_assoc in *. cbn [app] in *.
  set (d1 := with_input _ d) in *. change (heap d) with (heap d1). clearbody d1. clear d. rename d1 into d.
  rewrite alloc_step, fuel_step.
  destruct (read_entries_app dec (length d.(heap)) assoc (S (length (input (with_heap (d.(heap) ++ [CMap []]) d)))) refs ab r1
    (with_heap (d.(heap) ++ [CMap []]) d) (lb ++ rest) []) as (d2 & es & Hd2 & Ha2 & Hx2 & Hc2 & Hes);
    [done|done|done|done|intros; constructor|done|by eapply small_prefix|by apply after_with_heap| |apply lookup_new|].
  { rewrite (after_length _ _ _ (after_with_heap _ _ _ _ Ha)), length_app. lia. }
  rewrite (bind_step _ _ _ _ _ Hd2), alloc_step, gets_step, add_object_step, fuel_step.
  cbn [heap with_heap] in Hx2, Hes. destruct (alloc_extends _ _ _ Hx2) as [Hx2' Hlt2]. cbn [app] in Hc2.
  replace (map_at _ _) with es by (unfold map_at; cbn [heap with_heap]; by rewrite lookup_app_l, Hc2 by (by eapply lookup_lt_Some)).
  set (out := if is_empty es then _ else _). set (d4 := with_objects _ _).
  destruct (read_elements_app dec (length d2.(heap)) (Z.of_nat (length l)) l (S (length (input d4))) r1 lb r3 d4 rest [])
    as (d5 & gs & Hd5 & Ha5 & Hx5 & Hc5 & Hgs); [done|done|done|done|by apply after_with_objects, after_with_heap| |apply lookup_new|].
  { unfold d4. rewrite (after_length _ _ _ (after_with_objects _ _ _ _ (after_with_heap _ _ _ _ Ha2))), length_app. lia. }
  rewrite (bind_step _ _ _ _ _ Hd5), set_object_step. unfold d4 in Hx5, Hgs. cbn [heap with_objects with_heap] in Hx5, Hgs.
  destruct (alloc_extends _ _ _ Hx5) as [Hx5' Hlt5]. rewrite length_app in Hgs.
  exists out, (with_objects (<[length d2.(objectRefs) := out]> d5.(objectRefs)) d5). split; [done|]. split; [by apply after_with_objects|].
  cbn [heap with_objects]. split; [by eapply extends_trans|].
  assert ((length d.(heap) <= length d2.(heap) < length d5.(heap))%nat /\ exists gs, heap d5 !! length d2.(heap) = Some (CSlice (Z.of_nat (length (map norm l))) gs) /\
    all2 (den (length d.(heap)) (length d5.(heap)) d5.(heap)) (map norm l) gs) as Hslice.
  { split; [lia|]. exists gs. rewrite length_map. split; [done|]. eapply all2_den_mono; [| | |exact Hgs]; [lia|lia|done]. }
  pose proof (den_entries_keys _ _ _ _ _ Hes) as Hkeys. subst out. destruct assoc as [|kv assoc].
  - destruct es; [|done]. cbn [is_empty norm map den]. by eexists.
  - destruct es as [|e es]; [done|]. cbn [is_empty norm]. cbn [den]. eexists _, _. split; [done|]. split; [|exact Hslice].
    split; [lia|]. exists (e :: es). split; [by eapply extends_lookup|]. rewrite length_app in Hes.
    eapply den_entries_mono; [| | |exact Hes]; [lia|lia|]. intros i Hi. destruct Hx5' as [_ He]. apply He. lia.
Qed.

(** The flags of a header of traits with [n] sealed members. *)
Lemma traits_header n c : 0 <= n -> 0 <= c < 16 ->
  Z.land (n * 16 + 3) c = Z.land 3 c /\ Z.shiftr (n * 16 + 3) 4 = n.
Proof.
  intros Hn Hc. split; [|rewrite Z.shiftr_div_pow2 by lia; Z.to_euclidean_division_equations; lia].
  replace (n * 16 + 3) with (Z.lor (Z.shiftl n 4) 3) by (rewrite lor_shiftl; lia). rewrite Z.land_lor_distr_l. replace (Z.land (Z.shiftl n 4) c) with 0; [by rewrite Z.lor_0_l|].
  symmetry. apply Z.bits_inj_iff'. intros i Hi. rewrite Z.land_spec, Z.bits_0. destruct (Z.ltb_spec i 4).
  - by rewrite Z.shiftl_spec_low.
  - by rewrite (testbit_high c 4), andb_false_r.
Qed.

(** A header that is written did not wrap. *)
Lemma traits_header_written n h : 0 <= n < 2 ^ 28 -> writeU29 (header n 4 3) = Ok h -> header n 4 3 = n * 16 + 3.
Proof.
  intros Hn. unfold header. rewrite lor_shiftl by lia. unfold writeU29. case_match eqn:Hr; [done|]. intros _. bool_prop.
  unfold maxU29 in *. destruct (Z.ltb_spec (n * 16 + 3) (2 ^ 31)); [apply wraps_id; unfold in_s; lia|]. exfalso.
  assert (wraps 32 (n * 2 ^ 4 + 3) = n * 2 ^ 4 + 3 - 2 ^ 32) as E; [|lia]. unfold wraps. Z.to_euclidean_division_equations. lia.
Qed.

(** Where an object's traits and members start. *)
Lemma object_step k h u rest d refs : writeU29 u = Ok h -> Z.land u 1 = 1 -> after (h ++ rest) refs d ->
  or_reference k d = k u (with_input rest d).
Proof.
  intros Hh Hu [Hi _]. unfold or_reference. destruct (writeU29_read _ _ _ _ Hh Hi) as [_ Hr].
  rewrite (bind_step _ _ _ _ _ Hr), Hu. done.
Qed.

Lemma read_traits_app u cn ks c kb refs r1 r2 rest d :
  Z.land u 2 <> 0 -> Z.land u 4 = 0 -> Z.shiftr u 4 = Z.of_nat (length ks) ->
  writeAMF3String cn refs = Ok (c, r1) -> encode_keys ks r1 = Ok (kb, r2) -> small (length c) -> small (length kb) -> small (length r2) ->
  after (c ++ kb ++ rest) refs d ->
  exists d', read_traits u d = (Ok (mkTraits cn ks (negb (Z.land u 8 =? 0))), d') /\ after rest r2 d' /\ d'.(heap) = d.(heap).
Proof.
  intros H2 H4 Hn Hc Hks Hsc Hskb Hr2 Ha. unfold read_traits. destruct (Z.eqb_spec (Z.land u 2) 0) as [|_]; [done|].
  pose proof (encode_keys_writes ks _ _ _ Hks) as [Hp Hl].
  destruct (read_string _ _ _ _ _ _ Hc Hsc (small_prefix _ _ Hp Hr2) Ha) as (d1 & Hd1 & Ha1 & Hh1).
  rewrite (bind_step _ _ _ _ _ Hd1), fuel_step, Hn.
  destruct (read_keys_app ks (S (length d1.(input))) _ _ _ _ _ Hks Hskb Hr2 Ha1) as (d2 & Hd2 & Ha2 & Hh2).
  { rewrite (after_length _ _ _ Ha1), length_app. lia. }
  rewrite (bind_step _ _ _ _ _ Hd2), H4. cbn [Z.eqb negb]. eexists. split; [done|]. split; [by destruct Ha2|]. cbn. congruence.
Qed.

Lemma bind_assoc {A B C} (m : M A) (f : A -> M B) (g : B -> M C) d : ((m ≫= f) ≫= g) d = (m ≫= (fun a => f a ≫= g)) d.
Proof. unfold mbind, M_bind. by destruct (m d) as [[a|e] d']. Qed.
Lemma ret_step {A B} (a : A) (k : A -> M B) d : (mret a ≫= k) d = k a d.
Proof. done. Qed.

(** Sealed members, and no others. *)
Lemma sealed_object_app dec cn kv s dyn refs b refs' d rest :
  encodeObject encodeValue cn (kv :: s) dyn refs = Ok (10 :: b, refs') ->
  Forall (fun kv => reads dec kv.2) (kv :: s) -> in_order (kv :: s) ->
  small (length b) -> small (length refs') -> after (b ++ rest) refs d ->
  exists g d', decodeObject dec d = (Ok g, d') /\ after rest refs' d' /\ extends d.(heap) d'.(heap) /\
    den (length d.(heap)) (length d'.(heap)) d'.(heap) (norm (Object cn (kv :: s) dyn)) g.
Proof.
  intros He Hr Ho Hb Hrefs Ha. unfold encodeObject in He. apply bind_Ok in He as (h & Hh & He).
  apply bind_Ok in He as ([c r1] & H1 & He). apply bind_Ok in He as ([kb r2] & H2 & He).
  apply bind_Ok in He as ([vb r3] & H3 & [= <- <-]). set (m := kv :: s) in *.
  apply small_app in Hb as [_ Hb]. apply small_app in Hb as [Hc Hb]. apply small_app in Hb as [Hkb Hvb].
  pose proof (encode_keys_writes m.*1 _ _ _ H2) as [_ Hl2]. rewrite length_fmap in Hl2.
  pose proof (encode_values_writes encodeValue m (Forall_true _ _ (fun kv => encodeValue_writes kv.2)) _ _ _ H3) as [Hp3 Hl3].
  rewrite (traits_header_written (Z.of_nat (length m)) h ltac:(unfold small in Hvb; lia) Hh) in Hh. rewrite <- app_assoc in Ha.
  assert (forall c, 0 <= c < 16 -> Z.land (Z.of_nat (length m) * 16 + 3) c = Z.land 3 c) as Hbits by (intros; apply traits_header; lia).
  unfold decodeObject. rewrite (object_step _ _ _ _ _ _ Hh (Hbits 1 ltac:(lia)) Ha).
  apply after_with_input with (rest := (c ++ kb ++ vb) ++ rest) in Ha. rewrite <- !app_assoc in *.
  set (d1 := with_input _ d) in *. change (heap d) with (heap d1). clearbody d1. clear d. rename d1 into d.
  destruct (read_traits_app (Z.of_nat (length m) * 16 + 3) cn m.*1 c kb refs r1 r2 (vb ++ rest) d) as (d1 & Hd1 & Ha1 & Hh1);
    [by rewrite Hbits|by rewrite Hbits|rewrite length_fmap; apply (traits_header _ 0); lia|done|done|done|done|by eapply small_prefix|done|].
  rewrite Hbits in Hd1 by lia. cbn in Hd1. rewrite (bind_step _ _ _ _ _ Hd1), alloc_step, add_object_step. cbn [className sealed dynamic].
  rewrite Hh1. set (d2 := with_objects _ _).
  destruct (read_sealed_app dec (length d.(heap)) m r2 vb r3 d2 rest []) as (d3 & es & Hd3 & Ha3 & Hx3 & Hc3 & Hes);
    [done|done|done|intros; constructor|done|done|by apply after_with_objects, after_with_heap| |].
  { apply lookup_new. }
  rewrite (bind_step _ _ _ _ _ Hd3). change (negb (Z.land 3 8 =? 0)) with false. cbv iota. rewrite ret_step, gets_step. cbn [app] in Hc3.
  replace (map_at _ _) with es by (unfold map_at; by rewrite Hc3).
  cbn [d2 heap with_objects with_heap] in Hx3, Hes. destruct (alloc_extends _ _ _ Hx3) as [Hx Hlt].
  pose proof (den_entries_keys _ _ _ _ _ Hes) as Hkeys. destruct es as [|e es]; [done|]. cbn [is_empty]. rewrite andb_false_r, ret_step, set_object_step.
  eexists _, _. split; [done|]. split; [by apply after_with_objects|]. cbn [heap with_objects]. split; [done|].
  subst m. cbn [norm den]. eexists _, None. split; [done|]. split; [|done]. split; [lia|]. exists (e :: es). split; [done|].
  rewrite length_app in Hes. eapply den_entries_mono; [| | |exact Hes]; [lia|lia|done].
Qed.

(** Dynamic members, and no sealed ones. *)
Lemma dynamic_object_app dec cn m refs b refs' d rest :
  encodeObject encodeValue cn [] m refs = Ok (10 :: b, refs') ->
  Forall (fun kv => reads dec kv.2) m -> in_order m -> Forall (fun k => k <> []) m.*1 ->
  small (length b) -> small (length refs') -> after (b ++ rest) refs d ->
  exists g d', decodeObject dec d = (Ok g, d') /\ after rest refs' d' /\ extends d.(heap) d'.(heap) /\
    den (length d.(heap)) (length d'.(heap)) d'.(heap) (norm (Object cn [] m)) g.
Proof.
  intros He Hr Ho Hk Hb Hrefs Ha. unfold encodeObject in He. apply bind_Ok in He as (h & Hh & He).
  apply bind_Ok in He as ([c r1] & H1 & He). apply bind_Ok in He as ([mb r2] & H2 & He).
  apply bind_Ok in He as ([z r3] & H3 & He). injection H3 as <- <-. injection He as <- <-.
  apply small_app in Hb as [_ Hb]. apply small_app in Hb as [Hc Hb]. apply small_app in Hb as [Hmb _].
  pose proof (encode_entries_writes encodeValue m (Forall_true _ _ (fun kv => encodeValue_writes kv.2)) _ _ _ H2) as [Hp2 Hl2].
  rewrite <- app_assoc in Ha. unfold decodeObject. rewrite (object_step _ _ _ _ _ _ Hh eq_refl Ha).
  apply after_with_input with (rest := (c ++ mb ++ [1]) ++ rest) in Ha. rewrite <- !app_assoc in *.
  set (d1 := with_input _ d) in *. change (heap d) with (heap d1). clearbody d1. clear d. rename d1 into d.
  destruct (read_traits_app 11 cn [] c [] refs r1 r1 (mb ++ [1] ++ rest) d) as (d1 & Hd1 & Ha1 & Hh1);
    [done|done|done|done|done|done|done|by eapply small_prefix|done|].
  rewrite (bind_step _ _ _ _ _ Hd1), alloc_step, add_object_step. cbn [className sealed dynamic read_sealed].
  change (negb (Z.land 11 8 =? 0)) with true. cbv iota. rewrite ret_step, bind_assoc, alloc_step, bind_assoc, fuel_step, bind_assoc.
  cbn [heap with_objects with_heap]. rewrite Hh1. set (o := with_objects _ _). set (d2 := with_heap _ o).
  destruct (read_entries_app dec (length (d.(heap) ++ [CMap []])) m (S (length (input d2))) r1 mb r2 d2 rest []) as (d3 & es & Hd3 & Ha3 & Hx3 & Hc3 & Hes);
    [done|done|done|done|intros; constructor|done|done|by apply after_with_heap, after_with_objects, after_with_heap| |apply lookup_new|].
  { subst d2 o. cbn [input with_heap with_objects]. rewrite (after_length _ _ _ Ha1), length_app. lia. }
  rewrite (bind_step _ _ _ _ _ Hd3), ret_step, gets_step. cbn [app] in Hc3.
  cbn [d2 heap with_heap] in Hx3, Hes. destruct (alloc_extends _ _ _ Hx3) as [Hx Hlt].
  assert (d3.(heap) !! length d.(heap) = Some (CMap [])) as Ha0 by (eapply extends_lookup; [exact Hx|apply lookup_new]).
  replace (map_at _ _) with (@nil (bytes * gval)) by (unfold map_at; by rewrite Ha0). cbn [is_empty]. rewrite andb_true_r.
  rewrite length_app in Hlt, Hes, Hc3. rewrite !length_app in Hes. cbn [length] in *.
  assert (extends d.(heap) d3.(heap)) as Hx0.
  { eapply extends_trans; [|exact Hx]. split; [rewrite length_app; lia|]. intros i Hi. by apply lookup_app_l. }
  assert (den_entries (length d.(heap)) (length d3.(heap)) d3.(heap) (norm_entries m) es) as Hes'
    by (eapply den_entries_mono; [| | |exact Hes]; [lia|lia|done]).
  destruct cn as [|x cn]; cbn [is_empty]; cbv iota; rewrite ?bind_assoc, !ret_step, set_object_step; eexists _, _;
    (split; [reflexivity|]); (split; [by apply after_with_objects|]); cbn [heap with_objects]; (split; [exact Hx0|]).
  - cbn [norm]. rewrite bool_decide_true by done. cbn [den]. eexists. split; [reflexivity|]. rewrite length_app. cbn [length].
    split; [lia|]. by exists es.
  - cbn [norm]. rewrite bool_decide_false by done. cbn [den]. eexists _, _. split; [reflexivity|]. rewrite length_app. cbn [length].
    split; [split; [lia|by exists []]|]. split; [lia|]. by exists es.
Qed.

Lemma reads_all room l : Forall (fun v => forall room, carried v -> (need v <= room)%nat -> reads (decodeValue int64_oor room) v) l ->
  foldr (fun v p => carried v /\ p) True l -> (foldr (fun v n => max (S (S (need v))) n) 1 l <= S room)%nat ->
  Forall (reads (decodeValue int64_oor (Nat.pred room))) l.
Proof.
  intros Hind Hc%foldr_and Hn. rewrite Forall_forall in *. intros v Hv.
  pose proof (foldr_max_ge (fun v => S (S (need v))) l v Hv) as Hle. apply Hind; [done|by apply Hc|].
  assert (forall l, foldr (fun v n => max (S (S (need v))) n) 0%nat l <= foldr (fun v n => max (S (S (need v))) n) 1%nat l)%nat as Hm.
  { clear. induction l as [|v l IH]; cbn; lia. }
  specialize (Hm l). cbn beta in Hle. lia.
Qed.

Lemma reads_entries room (m : list (bytes * any)) :
  Forall (fun kv => forall room, carried kv.2 -> (need kv.2 <= room)%nat -> reads (decodeValue int64_oor room) kv.2) m ->
  foldr (fun kv p => carried kv.2 /\ p) True m -> (foldr (fun kv n => max (S (S (need kv.2))) n) 1 m <= S room)%nat ->
  Forall (fun kv => reads (decodeValue int64_oor (Nat.pred room)) kv.2) m.
Proof.
  intros Hind Hc Hn.
  assert (Forall (reads (decodeValue int64_oor (Nat.pred room))) m.*2) as Hr.
  { apply reads_all; [by rewrite Forall_fmap| |].
    - clear -Hc. induction m as [|kv m IH]; cbn in *; [done|]. destruct Hc. split; [done|by apply IH].
    - clear -Hn. assert (foldr (fun v n => max (S (S (need v))) n) 1%nat m.*2 = foldr (fun kv n => max (S (S (need kv.2))) n) 1%nat m) as ->; [|done].
      clear. induction m as [|kv m IH]; cbn; [done|]. by rewrite <- IH. }
  by rewrite Forall_fmap in Hr.
Qed.

(** The 29 bits of a signed integer. *)
Lemma signed29 n : minSignedU29 <= n <= maxSignedU29 -> decodeSignedU29 (Z.land n maxU29) = n.
Proof.
  unfold minSignedU29, maxSignedU29, maxU29, decodeSignedU29. intros Hn. change 0x1FFFFFFF with (Z.ones 29). rewrite Z.land_ones by lia.
  assert (Z.land (n mod 2 ^ 29) 0x10000000 = 2 ^ 28 * (n mod 2 ^ 29 / 2 ^ 28)) as ->.
  { pose proof (Z.mod_pos_bound n (2 ^ 29) ltac:(lia)). apply Z.bits_inj_iff'. intros i Hi. rewrite Z.land_spec.
    change 0x10000000 with (2 ^ 28). rewrite Z.pow2_bits_eqb by lia. rewrite Z.mul_comm, <- Z.shiftl_mul_pow2, <- Z.shiftr_div_pow2 by lia.
    destruct (Z.eqb_spec 28 i) as [<-|Hne].
    - rewrite andb_true_r, Z.shiftl_spec, Z.shiftr_spec by lia. f_equal; lia.
    - rewrite andb_false_r. symmetry. destruct (Z.ltb_spec i 28); [by apply Z.shiftl_spec_low|].
      rewrite Z.shiftl_spec, Z.shiftr_spec by lia. apply (testbit_high _ 29); lia. }
  destruct (Z.eqb_spec (2 ^ 28 * (n mod 2 ^ 29 / 2 ^ 28)) 0); Z.to_euclidean_division_equations; lia.
Qed.

Lemma need_pos v : (1 <= need v)%nat.
Proof.
  assert (forall A (f : A -> nat) l, (1 <= foldr (fun a n => max (f a) n) 1 l)%nat) as H by (intros A f l; induction l; cbn; lia).
  destruct v; cbn [need]; try lia; try apply H; (etrans; [apply H|apply Nat.le_max_l]).
Qed.

(** After the marker of a value. *)
Lemma marker_step m s refs room d : after (m :: s) refs d ->
  decodeValue int64_oor (S room) d = decodeValue int64_oor (S room) (with_input (m :: s) d) /\ after s refs (with_input s d).
Proof. intros [Hi Hr]. split; [|by split]. destruct d; cbn in *. by subst. Qed.

Lemma cells_extend_refl h : extends h h.
Proof. by split. Qed.

(** A float64 that was written. *)
Lemma readFloat_app f rest refs d : float_ok f -> after (writeNumber f ++ rest) refs d ->
  exists d', readFloat d = (Ok f, d') /\ after rest refs d' /\ d'.(heap) = d.(heap).
Proof.
  intros Hf [Hi Hr]. unfold readFloat. assert (len (writeNumber f) = 8) as E by (unfold len, writeNumber; by rewrite length_be).
  pose proof (amf3_ReadFull_app _ _ _ Hi) as Hd. rewrite E in Hd. rewrite (bind_step _ _ _ _ _ Hd). unfold writeNumber.
  rewrite of_be_be_id by (by apply Float64bits_range). rewrite Float64frombits_bits by done. eexists. split; [done|]. by split.
Qed.

(** What is read without a new cell. *)
Lemma read_scalar m x rest refs refs' room d (k : M gval) g v :
  after (m :: x ++ rest) refs d -> decodeValue int64_oor (S room) (with_input (m :: x ++ rest) d) = k (with_input (x ++ rest) d) ->
  (exists d', k (with_input (x ++ rest) d) = (Ok g, d') /\ after rest refs' d' /\ d'.(heap) = d.(heap)) ->
  (forall lo hi h, den lo hi h v g) ->
  exists g d', decodeValue int64_oor (S room) d = (Ok g, d') /\ after rest refs' d' /\ extends d.(heap) d'.(heap) /\
    den (length d.(heap)) (length d'.(heap)) d'.(heap) v g.
Proof.
  intros Ha Hk (d' & Hd & Ha' & Hh) Hv. destruct (marker_step m (x ++ rest) refs room d Ha) as [-> _]. exists g, d'.
  rewrite Hk, Hd, Hh. split; [done|]. split; [done|]. split; [apply cells_extend_refl|apply Hv].
Qed.

(** An integer or a number. *)
Lemma read_number n in_range b refs rest room d :
  (if in_range : bool then b ← writeU29 (Z.land n maxU29); Ok (4 :: b) else Ok (encodeDouble (float_of_Z n))) = Ok b ->
  (in_range = true -> minSignedU29 <= n <= maxSignedU29) -> (in_range = false -> float_ok (float_of_Z n)) -> after (b ++ rest) refs d ->
  exists g d', decodeValue int64_oor (S room) d = (Ok g, d') /\ after rest refs d' /\ extends d.(heap) d'.(heap) /\
    den (length d.(heap)) (length d'.(heap)) d'.(heap) (if in_range then Int n else Float (float_of_Z n)) g.
Proof.
  intros He Hr Hf Ha. destruct in_range.
  - apply bind_Ok in He as (h & Hh & [= <-]). cbn [app] in Ha. destruct (marker_step _ _ _ room _ Ha) as [_ Ha'].
    destruct (writeU29_read _ _ _ _ Hh (after_input _ _ _ Ha')) as [_ Hu].
    eapply (read_scalar 4 h); [done|reflexivity| |by cbn].
    eexists. rewrite (bind_step _ _ _ _ _ Hu), signed29 by auto. split; [done|]. split; [by split; [|apply Ha]|done].
  - injection He as <-. unfold encodeDouble in Ha. cbn [app] in Ha. destruct (marker_step _ _ _ room _ Ha) as [_ Ha'].
    destruct (readFloat_app _ _ _ _ (Hf eq_refl) Ha') as (d' & Hd & Ha2 & Hh).
    eapply (read_scalar 5 (writeNumber _)); [done|reflexivity| |by cbn].
    exists d'. by rewrite (bind_step _ _ _ _ _ Hd).
Qed.

Lemma encodeArray_marker e a l r x r' : encodeArray e a l r = Ok (x, r') -> exists b, x = 9 :: b.
Proof.
  unfold encodeArray. intros He. apply bind_Ok in He as (? & _ & He). apply bind_Ok in He as ([? ?] & _ & He).
  apply bind_Ok in He as ([? ?] & _ & He). apply bind_Ok in He as ([? ?] & _ & [= <- _]). by eexists.
Qed.
Lemma encodeObject_marker e cn s m r x r' : encodeObject e cn s m r = Ok (x, r') -> exists b, x = 10 :: b.
Proof.
  unfold encodeObject. intros He. destruct s; apply bind_Ok in He as (? & _ & He); apply bind_Ok in He as ([? ?] & _ & He);
    apply bind_Ok in He as ([? ?] & _ & He); apply bind_Ok in He as ([? ?] & _ & [= <- _]); by eexists.
Qed.

Lemma small_cons (x : Z) b : small (length (x :: b)) -> small (length b).
Proof. unfold small. cbn. lia. Qed.

(** A composite value is read as its own decoder reads what follows the marker. *)
Lemma read_composite m b rest refs refs' room d (k : M gval) v :
  after ((m :: b) ++ rest) refs d ->
  decodeValue int64_oor (S room) (with_input (m :: b ++ rest) d) = k (with_input (b ++ rest) d) ->
  (forall d, after (b ++ rest) refs d -> exists g d', k d = (Ok g, d') /\ after rest refs' d' /\ extends d.(heap) d'.(heap) /\
    den (length d.(heap)) (length d'.(heap)) d'.(heap) v g) ->
  exists g d', decodeValue int64_oor (S room) d = (Ok g, d') /\ after rest refs' d' /\ extends d.(heap) d'.(heap) /\
    den (length d.(heap)) (length d'.(heap)) d'.(heap) v g.
Proof.
  intros Ha Hk Hd. cbn [app] in Ha. destruct (marker_step m (b ++ rest) refs room d Ha) as [-> Ha']. rewrite Hk.
  exact (Hd (with_input (b ++ rest) d) Ha').
Qed.

Lemma date_of_ms ms : 0 <= ms < 2 ^ 53 ->
  let n := int64_of_float int64_oor (float_of_Z ms) in time_Unix (n / 1000) ((n mod 1000) * Millisecond) = ms * Millisecond.
Proof.
  intros Hm n. subst n. rewrite int64_of_float_of_Z by done. unfold time_Unix.
  rewrite wraps_id; [|lia|]; unfold in_s, unixToInternal, Second, Millisecond; Z.to_euclidean_division_equations; lia.
Qed.

Lemma read_date t refs rest room d : 0 <= UnixMilli t < 2 ^ 53 ->
  after ((8 :: [1] ++ writeNumber (float_of_Z (UnixMilli t))) ++ rest) refs d ->
  exists g d', decodeValue int64_oor (S room) d = (Ok g, d') /\ after rest refs d' /\ extends d.(heap) d'.(heap) /\
    den (length d.(heap)) (length d'.(heap)) d'.(heap) (norm (Time_ t)) g.
Proof.
  intros Ht Ha. eapply (read_composite 8); [exact Ha|reflexivity|]. clear d Ha. intros d Ha. rewrite <- app_assoc in Ha.
  unfold decodeDate. rewrite (object_step _ [1] 1 _ _ refs eq_refl eq_refl Ha).
  apply after_with_input with (rest := writeNumber (float_of_Z (UnixMilli t)) ++ rest) in Ha.
  destruct (readFloat_app _ _ _ _ (float_of_nonneg_ok _ Ht) Ha) as (d' & Hd & Ha' & Hh).
  rewrite (bind_step _ _ _ _ _ Hd). cbv zeta. rewrite (date_of_ms _ Ht), add_object_step. eexists _, _. split; [done|].
  split; [by apply after_with_objects|]. cbn [heap with_objects with_input] in *. rewrite Hh. split; [apply cells_extend_refl|done].
Qed.

Lemma read_bytes b h refs rest room d : writeU29 (header (len b) 1 1) = Ok h -> small (length b) ->
  after ((12 :: h ++ b) ++ rest) refs d ->
  exists g d', decodeValue int64_oor (S room) d = (Ok g, d') /\ after rest refs d' /\ extends d.(heap) d'.(heap) /\
    den (length d.(heap)) (length d'.(heap)) d'.(heap) (Bytes b) g.
Proof.
  intros Hh Hb Ha. eapply (read_composite 12); [exact Ha|reflexivity|]. clear d Ha. intros d Ha. rewrite <- app_assoc in Ha.
  unfold decodeByteArray. match goal with |- context [or_reference ?k d] =>
    destruct (inline_step k h (len b) _ d refs Hh ltac:(unfold small, len in *; lia) Ha) as [-> E] end. rewrite E.
  apply after_with_input with (rest := b ++ rest) in Ha.
  rewrite (bind_step _ _ _ _ _ (amf3_ReadFull_app _ _ _ (after_input _ _ _ Ha))), add_object_step. eexists _, _. split; [done|].
  split; [apply after_with_objects; split; [done|apply Ha]|]. cbn [heap with_objects with_input]. split; [apply cells_extend_refl|done].
Qed.

(** The decoder's value is the encoded one, whatever was decoded before. *)
Lemma decodeValue_reads v : forall room, carried v -> (need v <= room)%nat -> reads (decodeValue int64_oor room) v.
Proof.
  induction v as [| |b|n|n|f|s|t|l IHl|m l IHm IHl|m IHm|cn s m IHs IHm|b|] using any_nested_ind;
    intros room Hc Hn refs x refs' d rest He Hx Hrefs Ha;
    (destruct room as [|room]; [match type of Hn with (need ?v <= 0)%nat => pose proof (need_pos v); lia end|]); cbn [encodeValue] in He.
  - injection He as <- <-. eapply (read_scalar 1 []); [exact Ha|reflexivity| |by cbn]. eexists. split; [reflexivity|]. by repeat split; try apply Ha.
  - injection He as <- <-. eapply (read_scalar 0 []); [exact Ha|reflexivity| |by cbn]. eexists. split; [reflexivity|]. by repeat split; try apply Ha.
  - injection He as <- <-. destruct b; (eapply (read_scalar _ []); [exact Ha|reflexivity| |by cbn]; eexists; (split; [reflexivity|]); by repeat split; try apply Ha).
  - apply bind_Ok in He as (b & Hb & [= <- <-]). eapply read_number; [exact Hb| | |done]; intros Hr; [bool_prop; lia|].
    destruct Hc as [Hc|Hc]; [|done]. apply andb_false_iff in Hr as [Hr|Hr]; bool_prop; lia.
  - apply bind_Ok in He as (b & Hb & [= <- <-]). destruct Hc as [Hc Hf]. eapply read_number; [exact Hb| | |done]; intros Hr; bool_prop; unfold minSignedU29 in *; [lia|].
    destruct Hf as [Hf|Hf]; [lia|done].
  - injection He as <- <-. destruct (readFloat_app f rest refs (with_input (writeNumber f ++ rest) d) Hc) as (d' & Hd & Ha2 & Hh).
    { destruct (marker_step _ _ _ room _ Ha) as [_ Ha']. exact Ha'. }
    eapply (read_scalar 5 (writeNumber _)); [exact Ha|reflexivity| |by cbn]. exists d'. by rewrite (bind_step _ _ _ _ _ Hd).
  - apply bind_Ok in He as ([b r] & Hb & [= <- <-]). apply small_cons in Hx.
    destruct (read_string s refs b r rest (with_input (b ++ rest) d) Hb Hx Hrefs) as (d' & Hd & Ha2 & Hh).
    { destruct (marker_step _ _ _ room _ Ha) as [_ Ha']. exact Ha'. }
    eapply (read_scalar 6 b); [exact Ha|reflexivity| |by cbn]. exists d'. by rewrite (bind_step _ _ _ _ _ Hd).
  - apply bind_Ok in He as (h & Hh & [= <- <-]). injection Hh as <-. by apply read_date.
  - destruct (encodeArray_marker _ _ _ _ _ _ He) as [b ->]. apply small_cons in Hx.
    eapply (read_composite 9); [exact Ha|reflexivity|]. intros d1 Ha1.
    by apply (decodeArray_app _ [] l refs b); try done; [by apply reads_all|constructor].
  - destruct (encodeArray_marker _ _ _ _ _ _ He) as [b ->]. apply small_cons in Hx. destruct Hc as ((Ho & Hk & Hm) & Hl). cbn [need] in Hn.
    eapply (read_composite 9); [exact Ha|reflexivity|]. intros d1 Ha1.
    apply (decodeArray_app _ m l refs b); try done; [apply reads_entries; try done; lia|apply reads_all; try done; lia].
  - destruct (encodeObject_marker _ _ _ _ _ _ _ He) as [b ->]. apply small_cons in Hx. destruct Hc as (Ho & Hk & Hm).
    eapply (read_composite 10); [exact Ha|reflexivity|]. intros d1 Ha1.
    by apply (dynamic_object_app _ [] m refs b); try done; apply reads_entries.
  - destruct (encodeObject_marker _ _ _ _ _ _ _ He) as [b ->]. apply small_cons in Hx. cbn [need] in Hn.
    eapply (read_composite 10); [exact Ha|reflexivity|]. intros d1 Ha1. destruct s as [|kv s].
    + destruct Hc as (Ho & Hk & Hm). apply (dynamic_object_app _ cn m refs b); try done. apply reads_entries; try done. lia.
    + destruct Hc as (Ho & Hm). apply (sealed_object_app _ cn kv s m refs b); try done. apply reads_entries; try done. lia.
  - apply bind_Ok in He as (h' & Hh' & [= <- <-]). apply bind_Ok in Hh' as (h & Hh & [= <-]). apply small_cons, small_app in Hx as [_ Hb]. by eapply read_bytes.
  - done.
Qed.

(** The table has no more strings than bytes were written. *)
Definition counted (e : enc bytes) : Prop := forall r b r', e r = Ok (b, r') -> (length r' <= length r + length b)%nat.

Lemma counted_string s : counted (writeAMF3String s).
Proof.
  intros r b r'. unfold writeAMF3String. repeat case_match; intros Hw; apply bind_Ok in Hw as (h & Hh%writeU29_length & [= <- <-]);
    rewrite ?length_app; cbn; lia.
Qed.

(** Two pieces, and what is around them. *)
Ltac count :=
  repeat match goal with
  | H : _ ≫= _ = Ok _ |- _ => first [apply bind_Ok in H as ([??] & ? & H) | apply bind_Ok in H as (? & _ & H)]
  | H : Ok (_, _) = Ok (_, _) |- _ => injection H as <- <-
  | H : writeAMF3String _ _ = Ok _ |- _ => apply counted_string in H
  | H : ?e ?r = Ok (_, _), He : counted ?e |- _ => apply He in H
  end; cbn; rewrite ?length_app; cbn; rewrite ?length_app; lia.

Lemma counted_list {A} (e : any -> enc bytes) (f : A -> any) (enc_list : list A -> enc bytes) :
  (forall r, enc_list [] r = Ok ([], r)) ->
  (forall x l r b r', enc_list (x :: l) r = Ok (b, r') -> counted (e (f x)) -> counted (enc_list l) -> (length r' <= length r + length b)%nat) ->
  forall l, Forall (fun x => counted (e (f x))) l -> counted (enc_list l).
Proof.
  intros Hnil Hcons l Hl. induction Hl as [|x l Hx Hl IH]; intros r b r' He; [rewrite Hnil in He; injection He as <- <-; lia|].
  by eapply Hcons.
Qed.

Lemma counted_all e l : Forall (fun v => counted (e v)) l -> counted (encode_all e l).
Proof. apply (counted_list e id (encode_all e)); [done|]. intros v l' r b r' He Hv Hl. cbn in He. count. Qed.
Lemma counted_entries e m : Forall (fun kv => counted (e kv.2)) m -> counted (encode_entries e m).
Proof. apply (counted_list e snd (encode_entries e)); [done|]. intros [k v] l' r b r' He Hv Hl. cbn in He, Hv. count. Qed.
Lemma counted_values e m : Forall (fun kv => counted (e kv.2)) m -> counted (encode_values e m).
Proof. apply (counted_list e snd (encode_values e)); [done|]. intros [k v] l' r b r' He Hv Hl. cbn in He, Hv. count. Qed.
Lemma counted_keys ks : counted (encode_keys ks).
Proof. induction ks as [|k ks IH]; intros r b r' He; cbn in He; count. Qed.

Lemma encodeValue_counted v : counted (encodeValue v).
Proof.
  induction v as [| |b|n|n|f|s|t|l IHl|m l IHm IHl|m IHm|cn s m IHs IHm|b|] using any_nested_ind; cbn [encodeValue].
  all: try (intros r x r' He; count).
  all: try apply counted_all in IHl; try apply counted_entries in IHm; try apply counted_values in IHs.
  - intros r x r' He. unfold encodeArray in He. pose proof (counted_entries encodeValue [] (Forall_nil_2 _)). count.
  - intros r x r' He. unfold encodeArray in He. count.
  - intros r x r' He. unfold encodeMapObject, encodeObject in He. count.
  - intros r x r' He. unfold encodeObject in He. pose proof (counted_keys s.*1). destruct s; count.
  - done.
Qed.

(** Round trip: a value AMF3 can carry, nested no deeper than the decoder allows, is
    read back from its encoding as the same value (an integer beyond 29 bits as a
    number, a time to the millisecond, without the dynamic members of an Object that
    has sealed ones), in cells of its own, leaving what follows unread. *)
Theorem amf3_round_trip v b rest :
  carried v -> (need v <= rooms)%nat -> Marshal v = Ok b -> small (length b) ->
  exists g d, Unmarshal int64_oor (b ++ rest) = (Ok g, d) /\ d.(input) = rest /\ den 0 (length d.(heap)) d.(heap) (norm v) g.
Proof.
  intros Hc Hn Hm Hb. unfold Marshal in Hm. apply fmap_Ok in Hm as ([b' refs] & He & Hm). cbn in Hm. subst b'.
  assert (small (length refs)) as Hr by (apply encodeValue_counted in He; unfold small in *; cbn in He; lia).
  destruct (decodeValue_reads v rooms Hc Hn [] b refs (NewDecoder (b ++ rest)) rest He Hb Hr) as (g & d & Hd & [Hi _] & _ & Hden); [by split|].
  by exists g, d.
Qed.
End RoundTrip.

(** ** Examples *)

Definition ex_value : any :=
  Array [(ascii_bytes "tags", Slice [Str (ascii_bytes "live"); Str (ascii_bytes "tags"); Bool true])]
        [Int (-5); Object (ascii_bytes "Point") [(ascii_bytes "x", Uint 300000000); (ascii_bytes "y", Nil)] [];
         Map [(ascii_bytes "at", Time_ 1700000000123000000); (ascii_bytes "raw", Bytes [0; 255])]; Undefined].

Definition ex_value_bytes : bytes := match Marshal ex_value with Ok b => b | Err _ => [] end.

Lemma amf3_round_trip_witness : exists g d, Unmarshal (fun _ => 0) (ex_value_bytes ++ [1]) = (Ok g, d) /\ d.(input) = [1] /\
  den 0 (length d.(heap)) d.(heap) (norm ex_value) g.
Proof.
  apply (amf3_round_trip (fun _ => 0) ex_value ex_value_bytes [1]).
  - cbn -[float_of_Z]. split_and!; try done; try (by repeat constructor); try (by repeat constructor; discriminate).
  - apply Nat.leb_le. vm_compute. reflexivity.
  - vm_compute. reflexivity.
  - unfold small. vm_compute. reflexivity.
Defined.

(** An object one of whose members is the object itself, as a cyclic ActionScript
    object is sent, decodes to a map with an empty Object in that member's place:
    the table holds a copy of the Object made before its dynamic members were. *)
Theorem self_reference_lost : exists d, Unmarshal (fun _ => 0) [10; 11; 1; 3; 97; 10; 0; 1] = (Ok (GMap 1), d) /\
  d.(input) = [] /\ d.(heap) = [CMap []; CMap [([97], GObject [] 0 None)]].
Proof. eexists. split; [vm_compute; reflexivity|done]. Qed.

(** Six bytes make the decoder allocate a slice of 2^28 - 1 elements, 4 GiB, before
    it finds that none follows. *)
Theorem six_bytes_allocate : exists d, Unmarshal (fun _ => 0) [9; 255; 255; 255; 255; 1] = (Err Eof, d) /\
  d.(heap) !! 1%nat = Some (CSlice (2 ^ 28 - 1) []).
Proof. eexists. split; vm_compute; reflexivity. Qed.

(** The dynamic members of an Object with sealed ones are not written, without an error. *)
Theorem dynamic_members_dropped cn kv s m : encodeValue (Object cn (kv :: s) m) = encodeValue (Object cn (kv :: s) []).
Proof. done. Qed.

(** An empty key ends the list of members it is in: the value under it, and what
    follows, are left for the next decode. *)
Theorem amf3_empty_key : Marshal (Map [([], Bool true)]) = Ok [10; 11; 1; 1; 3; 1] /\
  exists d, Unmarshal (fun _ => 0) [10; 11; 1; 1; 3; 1] = (Ok (GMap 1), d) /\ d.(input) = [3; 1] /\ d.(heap) !! 1%nat = Some (CMap []).
Proof. split; [done|]. eexists. split; [vm_compute; reflexivity|done]. Qed.

(** Each array or object takes two of the 257 levels: 129 may be nested, not 257. *)
Fixpoint nested (n : nat) : any := match n with O => Slice [] | S k => Slice [nested k] end.

Theorem nesting_limit :
  (b ← Marshal (nested 128); Ok (Unmarshal (fun _ => 0) b).1) ≠ Ok (Err TooDeep) /\
  (b ← Marshal (nested 129); Ok (Unmarshal (fun _ => 0) b).1) = Ok (Err TooDeep).
Proof. split; vm_compute; [discriminate|reflexivity]. Qed.
