(* ===== verification/Rtmp.v ===== *)
(** * internal/rtmp: chunks, messages and control messages

    stream.go, message.go and the reading and writing half of conn.go. What a
    connection writes is appended to [out]; the transport's read side is the
    list of bytes still to come. A slice operation that Go would refuse is
    [Panic]. *)
From S2P Require Import Prelude GoBytes GoTime Amf0.

#[local] Open Scope Z_scope.

(** ** Chunk headers: stream.go *)

Record chunkBasicHeader := mkBasic { h_fmt : Z; h_csid : Z }.

Definition basic_encode (h : chunkBasicHeader) : bytes :=
  let top := byte (Z.shiftl h.(h_fmt) 6) in
  if h.(h_csid) <=? 63 then [Z.lor top (byte h.(h_csid))]
  else if h.(h_csid) <=? 319 then [top; byte (h.(h_csid) - 64)]
  else [Z.lor top 1; byte (h.(h_csid) - 64); byte (Z.shiftr (h.(h_csid) - 64) 8)].

Definition basic_decode (s : bytes) : option (chunkBasicHeader * bytes) :=
  '(b, s1) ← read_full 1 s;
  let b0 := of_be b in
  let f := Z.shiftr b0 6 in
  let part := Z.land b0 63 in
  if part =? 0 then
    '(b, s2) ← read_full 1 s1; Some (mkBasic f (of_be b + 64), s2)
  else if part =? 1 then
    '(b, s2) ← read_full 2 s1; Some (mkBasic f (of_be (reverse b) + 64), s2)
  else Some (mkBasic f part, s1).

Definition chunkTimestampMax : Z := 16777215.

Definition encodeExtendedTimestamp (ts : Z) : bytes := be 4 ts.
Definition decodeExtendedTimestamp (s : bytes) : option (Z * bytes) :=
  '(b, s1) ← read_full 4 s; Some (of_be b, s1).

(** ** Connection state: conn.go *)

Definition maxMessageSize : Z := 16 * 1024 * 1024.
Definition defaultWindowAckSize : Z := 2500000.
Definition serverChunkSize : Z := 4096.

(** [payload] with the capacity it was allocated with. *)
Record chunkReadState := mkChunkState {
  cs_timestamp : Z;
  cs_timestampDelta : Z;
  cs_messageLength : Z;
  cs_messageTypeID : Z;
  cs_messageStreamID : Z;
  cs_hasExtended : bool;
  cs_payload : bytes;
  cs_cap : Z;
  cs_remaining : Z
}.

Definition newChunkState : chunkReadState := mkChunkState 0 0 0 0 0 false [] 0 0.

Record rawMessage := mkMessage { typeID : Z; streamID : Z; timestamp : Z; payload : bytes }.

Record Conn := mkConn {
  readChunkSize : Z;
  writeChunkSize : Z;
  readStates : gmap Z chunkReadState;
  windowAckSize : Z;
  lastAcked : Z;
  peerAckedBytes : Z;
  nextStreamID : Z;
  out : bytes
}.

Definition newConn : Conn := mkConn 128 128 ∅ defaultWindowAckSize 0 0 1 [].

Inductive rtmp_error := ReadError | ErrMessageTooLarge | ErrInvalidChunkSize | CommandError (e : amf_error)
  | ErrServerRejected | ErrCreateStreamRejected | ErrUnsupportedFrameType | Panic | RtmpFuel.

Definition set_states m (c : Conn) :=
  mkConn c.(readChunkSize) c.(writeChunkSize) m c.(windowAckSize) c.(lastAcked) c.(peerAckedBytes) c.(nextStreamID) c.(out).
Definition add_out b (c : Conn) :=
  mkConn c.(readChunkSize) c.(writeChunkSize) c.(readStates) c.(windowAckSize) c.(lastAcked) c.(peerAckedBytes)
    c.(nextStreamID) (c.(out) ++ b).
Definition set_acked n (c : Conn) :=
  mkConn c.(readChunkSize) c.(writeChunkSize) c.(readStates) c.(windowAckSize) n c.(peerAckedBytes) c.(nextStreamID) c.(out).
Definition set_readChunkSize n (c : Conn) :=
  mkConn n c.(writeChunkSize) c.(readStates) c.(windowAckSize) c.(lastAcked) c.(peerAckedBytes) c.(nextStreamID) c.(out).
Definition set_writeChunkSize n (c : Conn) :=
  mkConn c.(readChunkSize) n c.(readStates) c.(windowAckSize) c.(lastAcked) c.(peerAckedBytes) c.(nextStreamID) c.(out).
Definition set_window n (c : Conn) :=
  mkConn c.(readChunkSize) c.(writeChunkSize) c.(readStates) n c.(lastAcked) c.(peerAckedBytes) c.(nextStreamID) c.(out).
Definition set_peerAcked n (c : Conn) :=
  mkConn c.(readChunkSize) c.(writeChunkSize) c.(readStates) c.(windowAckSize) c.(lastAcked) n c.(nextStreamID) c.(out).
Definition set_nextStreamID n (c : Conn) :=
  mkConn c.(readChunkSize) c.(writeChunkSize) c.(readStates) c.(windowAckSize) c.(lastAcked) c.(peerAckedBytes) n c.(out).

(** ** Writing *)

(** The header of a message's first chunk (fmt 0). *)
Definition full_header (msg : rawMessage) (msgLen : Z) : bytes :=
  (if chunkTimestampMax <=? msg.(timestamp) then [255; 255; 255] else be 3 msg.(timestamp)) ++
  be 3 msgLen ++ [byte msg.(typeID)] ++ reverse (be 4 msg.(streamID)) ++
  (if chunkTimestampMax <=? msg.(timestamp) then encodeExtendedTimestamp msg.(timestamp) else []).

(** The loop of [writeRawMessage] from [offset] on. *)
Fixpoint write_chunks (fuel : nat) (csid chunkSize : Z) (msg : rawMessage) (offset : Z) (first : bool) : option bytes :=
  match fuel with
  | O => None
  | S f =>
      let msgLen := wrapu 32 (len msg.(payload)) in
      let rem := wrapu 32 (msgLen - offset) in
      let n := if rem <? chunkSize then rem else chunkSize in
      let hdr :=
        if first then basic_encode (mkBasic 0 csid) ++ full_header msg msgLen
        else basic_encode (mkBasic 3 csid) ++
             (if chunkTimestampMax <=? msg.(timestamp) then encodeExtendedTimestamp msg.(timestamp) else []) in
      let chunk := hdr ++ take (Z.to_nat n) (drop (Z.to_nat offset) msg.(payload)) in
      if msgLen <=? offset + n then Some chunk
      else rest ← write_chunks f csid chunkSize msg (offset + n) false; Some (chunk ++ rest)
  end.

(** A message of [k] bytes takes at most [k] chunks, and one if it is empty. *)
Definition message_bytes (csid chunkSize : Z) (msg : rawMessage) : option bytes :=
  write_chunks (S (length msg.(payload))) csid chunkSize msg 0 true.

Definition writeRawMessage (csid : Z) (msg : rawMessage) (c : Conn) : option Conn :=
  b ← message_bytes csid c.(writeChunkSize) msg; Some (add_out b c).

(** ** Control messages: message.go *)

Definition csidControl : Z := 2.
Definition csidCommand : Z := 3.

Definition SetChunkSize_encode (size : Z) : bytes := be 4 (Z.land size 2147483647).
Definition SetChunkSize_decode (s : bytes) : option Z := '(b, _) ← read_full 4 s; Some (Z.land (of_be b) 2147483647).
Definition Abort_encode (id : Z) : bytes := be 4 id.
Definition Abort_decode (s : bytes) : option Z := '(b, _) ← read_full 4 s; Some (of_be b).
Definition Ack_encode (sq : Z) : bytes := be 4 sq.
Definition Ack_decode (s : bytes) : option Z := '(b, _) ← read_full 4 s; Some (of_be b).
Definition WindowAckSize_encode (size : Z) : bytes := be 4 size.
Definition WindowAckSize_decode (s : bytes) : option Z := '(b, _) ← read_full 4 s; Some (of_be b).
Definition UserControl_encode (ev : Z) (data : bytes) : bytes := be 2 ev ++ data.
Definition UserControl_decode (s : bytes) : option (Z * bytes) := '(b, s1) ← read_full 2 s; Some (of_be b, s1).
Definition SetPeerBandwidth_encode (bw limit : Z) : bytes := be 4 bw ++ [byte limit].
Definition SetPeerBandwidth_decode (s : bytes) : option (Z * Z) :=
  '(b, _) ← read_full 5 s; Some (of_be (take 4 b), of_be (drop 4 b)).

(** The senders. *)
Definition send_control (ty : Z) (b : bytes) (c : Conn) : option Conn :=
  writeRawMessage csidControl (mkMessage ty 0 0 b) c.
Definition sendAck (sq : Z) : Conn -> option Conn := send_control 3 (Ack_encode sq).
Definition sendSetChunkSize (size : Z) : Conn -> option Conn := send_control 1 (SetChunkSize_encode size).
Definition sendWindowAckSize (size : Z) : Conn -> option Conn := send_control 5 (WindowAckSize_encode size).
Definition sendSetPeerBandwidth (bw limit : Z) : Conn -> option Conn := send_control 6 (SetPeerBandwidth_encode bw limit).
Definition sendUserControl (ev : Z) (data : bytes) : Conn -> option Conn := send_control 4 (UserControl_encode ev data).
Definition sendStreamBegin (sid : Z) : Conn -> option Conn := sendUserControl 0 (be 4 sid).
Definition sendStreamEOF (sid : Z) : Conn -> option Conn := sendUserControl 1 (be 4 sid).

(** [checkAck], when the counter of bytes read stands at [bytesRead]. *)
Definition checkAck (bytesRead : Z) (c : Conn) : option Conn :=
  if c.(windowAckSize) =? 0 then Some c
  else if c.(windowAckSize) <=? wrapu 64 (bytesRead - c.(lastAcked)) then
    sendAck (wrapu 32 bytesRead) (set_acked bytesRead c)
  else Some c.

(** ** Reading *)

(** The timestamp field of a header, with its extension when it is all ones. *)
Definition read_timestamp (ts : Z) (s : bytes) : option (Z * bool * bytes) :=
  if ts =? chunkTimestampMax then '(ext, s1) ← decodeExtendedTimestamp s; Some (ext, true, s1)
  else Some (ts, false, s).

(** A fresh payload of capacity [n]. *)
Definition alloc (ts delta n ty sid : Z) (ext : bool) : chunkReadState :=
  mkChunkState ts delta n ty sid ext [] n n.

(** A chunk with no message header (fmt 3) continues its message, or starts one
    like the last. *)
Definition read_header3 (st : chunkReadState) (s : bytes) : result rtmp_error (chunkReadState * bytes) :=
  s1 ← of_option ReadError (if st.(cs_hasExtended) then snd <$> decodeExtendedTimestamp s else Some s);
  Ok (if st.(cs_remaining) =? 0 then
        alloc (wrapu 32 (st.(cs_timestamp) + st.(cs_timestampDelta))) st.(cs_timestampDelta) st.(cs_messageLength)
          st.(cs_messageTypeID) st.(cs_messageStreamID) st.(cs_hasExtended)
      else st, s1).

(** The message header of a chunk, by its fmt. *)
Definition read_header (f : Z) (st : chunkReadState) (s : bytes) : result rtmp_error (chunkReadState * bytes) :=
  match f with
  | 0 =>
      '(hdr, s1) ← of_option ReadError (read_full 11 s);
      let n := of_be (take 3 (drop 3 hdr)) in
      '(ts, ext, s2) ← of_option ReadError (read_timestamp (of_be (take 3 hdr)) s1);
      guard_err (n <=? maxMessageSize) ErrMessageTooLarge;;
      Ok (alloc ts 0 n (of_be (take 1 (drop 6 hdr))) (of_be (reverse (drop 7 hdr))) ext, s2)
  | 1 =>
      '(hdr, s1) ← of_option ReadError (read_full 7 s);
      let n := of_be (take 3 (drop 3 hdr)) in
      '(td, ext, s2) ← of_option ReadError (read_timestamp (of_be (take 3 hdr)) s1);
      guard_err (n <=? maxMessageSize) ErrMessageTooLarge;;
      Ok (alloc (wrapu 32 (st.(cs_timestamp) + td)) td n (of_be (drop 6 hdr)) st.(cs_messageStreamID) ext, s2)
  | 2 =>
      '(hdr, s1) ← of_option ReadError (read_full 3 s);
      '(td, ext, s2) ← of_option ReadError (read_timestamp (of_be hdr) s1);
      Ok (alloc (wrapu 32 (st.(cs_timestamp) + td)) td st.(cs_messageLength) st.(cs_messageTypeID)
            st.(cs_messageStreamID) ext, s2)
  | _ => read_header3 st s
  end.

(** The chunk's part of the payload, read into the slice grown in place. *)
Definition read_payload (chunkSize : Z) (st : chunkReadState) (s : bytes) : result rtmp_error (chunkReadState * bytes) :=
  let toRead := st.(cs_remaining) `min` chunkSize in
  if toRead <=? 0 then Ok (st, s)
  else
    guard_err (len st.(cs_payload) + toRead <=? st.(cs_cap)) Panic;;
    '(b, s1) ← of_option ReadError (read_full toRead s);
    Ok (mkChunkState st.(cs_timestamp) st.(cs_timestampDelta) st.(cs_messageLength) st.(cs_messageTypeID)
          st.(cs_messageStreamID) st.(cs_hasExtended) (st.(cs_payload) ++ b) st.(cs_cap) (st.(cs_remaining) - toRead), s1).

(** The state once its message was taken. *)
Definition taken (st : chunkReadState) : chunkReadState :=
  mkChunkState st.(cs_timestamp) st.(cs_timestampDelta) st.(cs_messageLength) st.(cs_messageTypeID)
    st.(cs_messageStreamID) st.(cs_hasExtended) [] 0 st.(cs_remaining).

(** [readMessage]: [count] gives what the byte counter stands at when a given
    rest of the stream is left. Each chunk takes a byte, so [fuel] is the length
    of the stream. *)
Fixpoint readMessage (fuel : nat) (count : bytes -> Z) (c : Conn) (s : bytes) : result rtmp_error (rawMessage * Conn * bytes) :=
  match fuel with
  | O => Err RtmpFuel
  | S f =>
      '(bh, s1) ← of_option ReadError (basic_decode s);
      let st := default newChunkState (c.(readStates) !! bh.(h_csid)) in
      '(st1, s2) ← read_header bh.(h_fmt) st s1;
      '(st2, s3) ← read_payload c.(readChunkSize) st1 s2;
      c1 ← of_option RtmpFuel (checkAck (count s3) c);
      if st2.(cs_remaining) =? 0 then
        Ok (mkMessage st2.(cs_messageTypeID) st2.(cs_messageStreamID) st2.(cs_timestamp) st2.(cs_payload),
            set_states (<[bh.(h_csid) := taken st2]> c1.(readStates)) c1, s3)
      else readMessage f count (set_states (<[bh.(h_csid) := st2]> c1.(readStates)) c1) s3
  end.

(** ** Control messages received *)

Definition messageTypeSetChunkSize : Z := 1.
Definition messageTypeSetPeerBandwidth : Z := 6.

Definition isControlMessage (ty : Z) : bool :=
  (messageTypeSetChunkSize <=? ty) && (ty <=? messageTypeSetPeerBandwidth).

Definition handleControlMessage (msg : rawMessage) (c : Conn) : result rtmp_error Conn :=
  match msg.(typeID) with
  | 1 =>
      size ← of_option ReadError (SetChunkSize_decode msg.(payload));
      guard_err (1 <=? size) ErrInvalidChunkSize;; Ok (set_readChunkSize size c)
  | 2 =>
      id ← of_option ReadError (Abort_decode msg.(payload));
      Ok (match c.(readStates) !! id with
          | Some st => set_states (<[id := mkChunkState st.(cs_timestamp) st.(cs_timestampDelta) st.(cs_messageLength)
                         st.(cs_messageTypeID) st.(cs_messageStreamID) st.(cs_hasExtended) [] 0 0]> c.(readStates)) c
          | None => c
          end)
  | 3 => n ← of_option ReadError (Ack_decode msg.(payload)); Ok (set_peerAcked n c)
  | 4 =>
      '(ev, data) ← of_option ReadError (UserControl_decode msg.(payload));
      if (ev =? 6) && (4 <=? len data) then of_option RtmpFuel (sendUserControl 7 (take 4 data) c) else Ok c
  | 5 => n ← of_option ReadError (WindowAckSize_decode msg.(payload)); Ok (set_window n c)
  | 6 => _ ← of_option ReadError (SetPeerBandwidth_decode msg.(payload)); Ok c
  | _ => Ok c
  end.

(** ** Properties *)

(** The first byte of a basic header, on all its values. *)
Lemma basic_byte f id :
  0 <= f < 4 -> 0 <= id < 64 ->
  let b := Z.lor (byte (Z.shiftl f 6)) id in byte_ok b /\ Z.shiftr b 6 = f /\ Z.land b 63 = id.
Proof.
  intros Hf Hid. assert (forallb (fun f => forallb (fun id =>
    let b := Z.lor (byte (Z.shiftl f 6)) id in
    (0 <=? b) && (b <? 256) && (Z.shiftr b 6 =? f) && (Z.land b 63 =? id)) (seqZ 0 64)) (seqZ 0 4) = true) as Hall
    by (vm_compute; reflexivity).
  rewrite forallb_elem in Hall. specialize (Hall f ltac:(apply elem_of_seqZ; lia)). cbn beta in Hall.
  rewrite forallb_elem in Hall. specialize (Hall id ltac:(apply elem_of_seqZ; lia)). cbn zeta in Hall.
  bool_prop. unfold byte_ok. cbn zeta. split_and!; auto; lia.
Qed.

Lemma read_full_cons b rest : read_full 1 (b :: rest) = Some ([b], rest).
Proof. apply (read_full_app 1 [b]). done. Qed.

Lemma of_be_one b : of_be [b] = b.
Proof. cbn. lia. Qed.

Lemma basic_decode_app f id rest :
  0 <= f < 4 -> 2 <= id <= 65599 ->
  basic_decode (basic_encode (mkBasic f id) ++ rest) = Some (mkBasic f id, rest).
Proof.
  intros Hf Hid. unfold basic_encode, basic_decode. cbn [h_fmt h_csid].
  destruct (Z.leb_spec id 63); [|destruct (Z.leb_spec id 319)]; cbn [app]; rewrite read_full_cons; cbn [mbind option_bind];
    rewrite of_be_one.
  - assert (byte id = id) as -> by (apply Z.mod_small; lia).
    destruct (basic_byte f id) as (_ & -> & ->); [lia|lia|].
    destruct (Z.eqb_spec id 0); [lia|]. by destruct (Z.eqb_spec id 1); [lia|].
  - destruct (basic_byte f 0) as (_ & Hs & Hl); [lia|lia|]. rewrite Z.lor_0_r in Hs, Hl. rewrite Hs, Hl. cbn [Z.eqb].
    rewrite read_full_cons. cbn [mbind option_bind]. rewrite of_be_one. unfold byte. rewrite Z.mod_small by lia.
    repeat f_equal. lia.
  - destruct (basic_byte f 1) as (_ & -> & ->); [lia|lia|]. cbn [Z.eqb Pos.eqb].
    rewrite (read_full_app 2 [byte (id - 64); byte (Z.shiftr (id - 64) 8)] rest eq_refl
      : read_full 2 (byte (id - 64) :: byte (Z.shiftr (id - 64) 8) :: rest) = _). cbn [mbind option_bind].
    unfold byte. rewrite Z.shiftr_div_pow2 by lia. cbn. do 3 f_equal.
    Z.to_euclidean_division_equations. lia.
Qed.

(** A writer of a positive chunk size ends. *)
Lemma write_chunks_total fuel csid cs msg offset first :
  1 <= cs -> len msg.(payload) < 2 ^ 32 -> 0 <= offset <= len msg.(payload) ->
  (Z.to_nat (len msg.(payload) - offset) < fuel)%nat ->
  is_Some (write_chunks fuel csid cs msg offset first).
Proof.
  intros Hcs Hlen. revert offset first. induction fuel as [|f IH]; intros offset first Ho Hf; [lia|].
  cbn [write_chunks]. pose proof (len_nonneg msg.(payload)).
  rewrite !(wrapu_id 32) by (unfold in_u; rewrite ?wrapu_id; unfold in_u; lia).
  set (n := if _ <? cs then _ else cs).
  assert (n = (len (payload msg) - offset) `min` cs) as Hn.
  { subst n. destruct (Z.ltb_spec (len (payload msg) - offset) cs); lia. }
  destruct (Z.leb_spec (len (payload msg)) (offset + n)); [eauto|].
  destruct (IH (offset + n) false ltac:(lia) ltac:(lia)) as [b ->]. cbn. eauto.
Qed.

Lemma message_bytes_total csid cs msg :
  1 <= cs -> len msg.(payload) < 2 ^ 32 -> is_Some (message_bytes csid cs msg).
Proof.
  intros Hcs Hl. pose proof (len_nonneg msg.(payload)). apply write_chunks_total; try done; try lia.
  unfold len in *. lia.
Qed.

(** What acknowledging changes of a connection. *)
Definition acked (la : Z) (o : bytes) (c : Conn) : Conn := add_out o (set_acked la c).

Lemma acked_none c : acked c.(lastAcked) [] c = c.
Proof. destruct c. unfold acked, add_out, set_acked. cbn. by rewrite app_nil_r. Qed.

Lemma checkAck_total n c : 1 <= c.(writeChunkSize) -> exists la o, checkAck n c = Some (acked la o c).
Proof.
  intros Hw. unfold checkAck.
  destruct (windowAckSize c =? 0); [by exists c.(lastAcked), []; rewrite acked_none|].
  destruct (windowAckSize c <=? _); [|by exists c.(lastAcked), []; rewrite acked_none].
  unfold sendAck, send_control, writeRawMessage. cbn [writeChunkSize set_acked].
  edestruct (message_bytes_total csidControl c.(writeChunkSize)) as [b Hb]; [done| |rewrite Hb; cbn; by eexists _, _].
  cbn [payload]. unfold len, Ack_encode. rewrite length_be. lia.
Qed.

(** *** The reader is safe on any input *)

Definition state_ok (st : chunkReadState) : Prop :=
  0 <= st.(cs_remaining) /\ 0 <= st.(cs_messageLength) <= maxMessageSize /\
  len st.(cs_payload) + st.(cs_remaining) <= maxMessageSize /\
  (st.(cs_remaining) = 0 \/ len st.(cs_payload) + st.(cs_remaining) = st.(cs_cap)).

Record conn_ok (c : Conn) : Prop := {
  cn_read : 1 <= c.(readChunkSize);
  cn_write : 1 <= c.(writeChunkSize);
  cn_states : map_Forall (fun _ st => state_ok st) c.(readStates)
}.

Lemma alloc_ok ts d n ty sid ext : 0 <= n <= maxMessageSize -> state_ok (alloc ts d n ty sid ext).
Proof. intros Hn. unfold state_ok, alloc, len. cbn. split_and!; try lia. Qed.

Lemma read_full_ok n s a rest : 0 <= n -> bytes_ok s -> read_full n s = Some (a, rest) ->
  bytes_ok a /\ bytes_ok rest /\ (length rest <= length s)%nat.
Proof.
  intros Hn Hs Hr. apply read_full_inv in Hr as [-> _]; [|done]. apply Forall_app in Hs as [? ?].
  rewrite length_app. split_and!; try done. lia.
Qed.

Lemma read_timestamp_ok t s ts ext s1 :
  bytes_ok s -> read_timestamp t s = Some (ts, ext, s1) -> bytes_ok s1 /\ (length s1 <= length s)%nat.
Proof.
  unfold read_timestamp, decodeExtendedTimestamp. intros Hs. destruct (t =? chunkTimestampMax).
  - destruct (read_full 4 s) as [[b s2]|] eqn:Hr; [|done]. intros [= <- <- <-].
    by apply read_full_ok in Hr as (_ & ? & ?).
  - by intros [= <- <- <-].
Qed.

Lemma of_be_take3 (hdr : bytes) k : bytes_ok hdr -> 0 <= of_be (take 3 (drop k hdr)) <= maxMessageSize.
Proof.
  intros Hh. assert (bytes_ok (take 3 (drop k hdr))) as Ht by (by apply Forall_take, Forall_drop).
  pose proof (of_be_range _ Ht) as Hr. assert (256 ^ Z.of_nat (length (take 3 (drop k hdr))) <= 256 ^ 3).
  { apply Z.pow_le_mono_r; [lia|]. rewrite length_take. lia. }
  unfold maxMessageSize. lia.
Qed.

Definition harmless (e : rtmp_error) : Prop := e <> Panic /\ e <> RtmpFuel.

(** What a step of the reader promises. *)
Definition header_post (s : bytes) (r : result rtmp_error (chunkReadState * bytes)) : Prop :=
  match r with
  | Ok (st1, s1) => state_ok st1 /\ bytes_ok s1 /\ (length s1 <= length s)%nat
  | Err e => harmless e
  end.

Lemma read_header3_ok st s : state_ok st -> bytes_ok s -> header_post s (read_header3 st s).
Proof.
  intros Hst Hs. unfold read_header3.
  assert (match (if cs_hasExtended st then snd <$> decodeExtendedTimestamp s else Some s) with
          | Some s1 => bytes_ok s1 /\ (length s1 <= length s)%nat | None => True end) as Hx.
  { destruct (cs_hasExtended st); [|done]. unfold decodeExtendedTimestamp.
    destruct (read_full 4 s) as [[b s1]|] eqn:Hr; [|done]. cbn. by apply read_full_ok in Hr as (_ & ? & ?). }
  destruct (if cs_hasExtended st then _ else _) as [s1|]; cbn; [|done]. destruct Hx.
  split_and!; [|done|done]. destruct (cs_remaining st =? 0); [|done]. apply alloc_ok, Hst.
Qed.

Lemma read_header_ok f st s : state_ok st -> bytes_ok s -> header_post s (read_header f st s).
Proof.
  intros Hst Hs. pose proof (read_header3_ok st s Hst Hs) as H3. unfold read_header.
  assert (forall n, match (read_full n s) with Some (a, r) => 0 <= n -> bytes_ok a /\ bytes_ok r /\ (length r <= length s)%nat | None => True end) as Hrf.
  { intros n. destruct (read_full n s) as [[a r]|] eqn:Hr; [|done]. intros Hn. by apply read_full_ok in Hr. }
  destruct f as [|[p|[p|p|]|]|p]; try exact H3.
  - specialize (Hrf 11). destruct (read_full 11 s) as [[hdr s1]|]; cbn; [|done]. destruct Hrf as (Hh & Hs1 & Hl); [lia|].
    destruct (read_timestamp _ s1) as [[[ts ext] s2]|] eqn:Ht; cbn; [|done]. apply read_timestamp_ok in Ht as [? ?]; [|done].
    destruct (_ <=? maxMessageSize) eqn:Hm; cbn; [|done]. split_and!; [|done|lia].
    apply alloc_ok, of_be_take3. done.
  - specialize (Hrf 3). destruct (read_full 3 s) as [[hdr s1]|]; cbn; [|done]. destruct Hrf as (Hh & Hs1 & Hl); [lia|].
    destruct (read_timestamp _ s1) as [[[ts ext] s2]|] eqn:Ht; cbn; [|done]. apply read_timestamp_ok in Ht as [? ?]; [|done].
    split_and!; [|done|lia]. apply alloc_ok, Hst.
  - specialize (Hrf 7). destruct (read_full 7 s) as [[hdr s1]|]; cbn; [|done]. destruct Hrf as (Hh & Hs1 & Hl); [lia|].
    destruct (read_timestamp _ s1) as [[[ts ext] s2]|] eqn:Ht; cbn; [|done]. apply read_timestamp_ok in Ht as [? ?]; [|done].
    destruct (_ <=? maxMessageSize) eqn:Hm; cbn; [|done]. split_and!; [|done|lia].
    apply alloc_ok, of_be_take3. done.
Qed.

Lemma read_payload_ok cs st s : 1 <= cs -> state_ok st -> bytes_ok s -> header_post s (read_payload cs st s).
Proof.
  intros Hcs Hst Hs. unfold read_payload. set (n := _ `min` cs). destruct (Z.leb_spec n 0); [done|].
  destruct Hst as (Hr & Hm & Hl & Hc). assert (0 < cs_remaining st) as Hpos by lia.
  destruct Hc as [?|Hc]; [lia|]. rewrite guard_true by (apply Z.leb_le; lia).
  destruct (read_full n s) as [[b s1]|] eqn:Hf; cbn; [|done].
  assert (Z.of_nat (length b) = n) as Hb by (apply read_full_inv in Hf as [_ Hx]; [done|lia]).
  apply read_full_ok in Hf as (? & ? & ?); [|lia|done]. split_and!; [|done|done].
  unfold state_ok, len in *. cbn. rewrite length_app. split_and!; try lia.
Qed.

Lemma basic_decode_ok s h s1 : bytes_ok s -> basic_decode s = Some (h, s1) -> bytes_ok s1 /\ (length s1 < length s)%nat.
Proof.
  unfold basic_decode. intros Hs Hb. destruct (read_full 1 s) as [[b s2]|] eqn:H1; [|done]. cbn in Hb.
  pose proof (read_full_length 1 _ _ _ ltac:(lia) H1) as Hl. apply read_full_ok in H1 as (_ & Hs2 & _); [|lia|done].
  destruct (Z.land (of_be b) 63 =? 0); [|destruct (Z.land (of_be b) 63 =? 1)].
  - destruct (read_full 1 s2) as [[b' s3]|] eqn:H2; [|done]. injection Hb as <- <-.
    apply read_full_ok in H2 as (_ & ? & ?); [|lia|done]. split; [done|lia].
  - destruct (read_full 2 s2) as [[b' s3]|] eqn:H2; [|done]. injection Hb as <- <-.
    apply read_full_ok in H2 as (_ & ? & ?); [|lia|done]. split; [done|lia].
  - injection Hb as <- <-. split; [done|lia].
Qed.

(** C40: Reading is safe on any input: from a connection in a good state and
    whatever bytes arrive, in any chunking and with any lengths, [readMessage]
    grows no payload past its allocation (Go would panic), ends, and returns an
    error or a message no larger than the limit, leaving the connection in a
    good state. *)
Theorem readMessage_safe fuel count c s :
  conn_ok c -> bytes_ok s -> (length s < fuel)%nat ->
  match readMessage fuel count c s with
  | Ok (msg, c', s') => conn_ok c' /\ (length s' < length s)%nat /\ len msg.(payload) <= maxMessageSize
  | Err e => harmless e
  end.
Proof.
  revert c s. induction fuel as [|f IH]; intros c s Hc Hs Hf; [lia|]. cbn [readMessage].
  destruct (basic_decode s) as [[bh s1]|] eqn:Hbh; cbn; [|done].
  apply basic_decode_ok in Hbh as [Hs1 Hl1]; [|done].
  set (st := default newChunkState _). assert (state_ok st) as Hst.
  { subst st. destruct (readStates c !! h_csid bh) eqn:Hl; [exact (cn_states _ Hc _ _ Hl)|].
    cbn. unfold state_ok, newChunkState, len, maxMessageSize. cbn. lia. }
  pose proof (read_header_ok (h_fmt bh) st s1 Hst Hs1) as Hh.
  destruct (read_header (h_fmt bh) st s1) as [[st1 s2]|e]; cbn; [|done]. destruct Hh as (Hst1 & Hs2 & Hl2).
  pose proof (read_payload_ok (readChunkSize c) st1 s2 (cn_read _ Hc) Hst1 Hs2) as Hp.
  destruct (read_payload (readChunkSize c) st1 s2) as [[st2 s3]|e]; cbn; [|done]. destruct Hp as (Hst2 & Hs3 & Hl3).
  destruct (checkAck_total (count s3) c (cn_write _ Hc)) as (la & o & ->). cbn [of_option mbind result_bind].
  set (c1 := acked la o c).
  assert (forall st', state_ok st' -> conn_ok (set_states (<[h_csid bh := st']> c1.(readStates)) c1)) as Hset.
  { intros st' Hst'. destruct Hc. split; cbn; [lia|lia|]. by apply map_Forall_insert_2. }
  destruct (Z.eqb_spec (cs_remaining st2) 0) as [Hz|Hnz].
  - split_and!; [|lia|cbn; destruct Hst2 as (? & ? & ? & _); lia]. apply Hset.
    destruct Hst2 as (? & ? & ? & ?). unfold state_ok, taken, len, maxMessageSize in *. cbn. lia.
  - specialize (IH (set_states (<[h_csid bh := st2]> c1.(readStates)) c1) s3 (Hset _ Hst2) Hs3 ltac:(lia)).
    destruct (readMessage _ _ _ s3) as [[[msg c'] s']|e]; [|done]. destruct IH as (? & ? & ?). split_and!; try done. lia.
Qed.

(** *** Writing and reading back *)

Lemma message_eta m : mkMessage m.(typeID) m.(streamID) m.(timestamp) m.(payload) = m.
Proof. by destruct m. Qed.

Lemma firstn_all_len (l : bytes) : take (Z.to_nat (len l)) l = l.
Proof. unfold len. by rewrite Nat2Z.id, firstn_all. Qed.

Section RoundTrip.
Variables (csid cs : Z) (msg : rawMessage).
Hypotheses (Hcsid : 2 <= csid <= 65599) (Hcs : 1 <= cs).
Hypotheses (Hty : byte_ok msg.(typeID)) (Hsid : 0 <= msg.(streamID) < 2 ^ 32) (Hts : 0 <= msg.(timestamp) < 2 ^ 32)
  (Hlen : len msg.(payload) < 2 ^ 24).

Definition is_ext : bool := chunkTimestampMax <=? msg.(timestamp).

(** The reader's state of the chunk stream with [o] bytes of the message read. *)
Definition st_at (o : Z) : chunkReadState :=
  mkChunkState msg.(timestamp) 0 (len msg.(payload)) msg.(typeID) msg.(streamID) is_ext
    (take (Z.to_nat o) msg.(payload)) (len msg.(payload)) (len msg.(payload) - o).

Lemma st_at_0 :
  alloc msg.(timestamp) 0 (len msg.(payload)) msg.(typeID) msg.(streamID) is_ext = st_at 0.
Proof. unfold alloc, st_at. by rewrite Z.sub_0_r. Qed.

Lemma wrap_len : wrapu 32 (len msg.(payload)) = len msg.(payload).
Proof. apply wrapu_id. pose proof (len_nonneg msg.(payload)). unfold in_u. lia. Qed.

Lemma ext_read s :
  (if is_ext then snd <$> decodeExtendedTimestamp ((if is_ext then encodeExtendedTimestamp msg.(timestamp) else []) ++ s)
   else Some ((if is_ext then encodeExtendedTimestamp msg.(timestamp) else []) ++ s)) = Some s.
Proof.
  destruct is_ext; [|done]. unfold decodeExtendedTimestamp, encodeExtendedTimestamp.
  by rewrite (read_full_app 4) by (by rewrite length_be).
Qed.

Lemma read_header3_app o s :
  0 <= o < len msg.(payload) ->
  read_header 3 (st_at o) ((if is_ext then encodeExtendedTimestamp msg.(timestamp) else []) ++ s) = Ok (st_at o, s).
Proof.
  intros Ho. unfold read_header, read_header3. cbn [cs_hasExtended st_at]. rewrite ext_read. cbn [of_option mbind result_bind].
  cbn [cs_remaining st_at]. destruct (Z.eqb_spec (len (payload msg) - o) 0); [lia|done].
Qed.

Lemma read_timestamp_app s :
  read_timestamp (of_be (if is_ext then [255; 255; 255] else be 3 msg.(timestamp)))
    ((if is_ext then encodeExtendedTimestamp msg.(timestamp) else []) ++ s) = Some (msg.(timestamp), is_ext, s).
Proof.
  unfold read_timestamp. destruct is_ext eqn:He; unfold is_ext, chunkTimestampMax in He; bool_prop.
  - change (of_be [255; 255; 255] =? chunkTimestampMax) with true. cbn iota.
    unfold decodeExtendedTimestamp, encodeExtendedTimestamp. rewrite (read_full_app 4) by (by rewrite length_be).
    cbn [mbind option_bind]. rewrite of_be_be_id by (cbn; lia). done.
  - rewrite of_be_be_id by (cbn; lia). unfold chunkTimestampMax. destruct (Z.eqb_spec (timestamp msg) 16777215); [lia|done].
Qed.

Lemma read_header0_app st s : read_header 0 st (full_header msg (len msg.(payload)) ++ s) = Ok (st_at 0, s).
Proof.
  unfold full_header, read_header. fold is_ext. pose proof (len_nonneg msg.(payload)).
  set (t := if is_ext then [255; 255; 255] else be 3 (timestamp msg)).
  set (e := if is_ext then encodeExtendedTimestamp (timestamp msg) else []).
  set (h := t ++ be 3 (len (payload msg)) ++ [byte (typeID msg)] ++ reverse (be 4 (streamID msg))).
  assert (length t = 3%nat) as Ht by (subst t; destruct is_ext; [done|by rewrite length_be]).
  replace ((t ++ be 3 (len (payload msg)) ++ [byte (typeID msg)] ++ reverse (be 4 (streamID msg)) ++ e) ++ s) with (h ++ e ++ s)
    by (subst h; by rewrite !app_assoc).
  rewrite (read_full_app 11) by (subst h; rewrite !length_app, length_reverse, !length_be, Ht; done).
  cbn [of_option mbind result_bind].
  assert (take 3 h = t) as Ht3 by (subst h; by rewrite <- Ht, take_app_length).
  assert (drop 3 h = be 3 (len (payload msg)) ++ [byte (typeID msg)] ++ reverse (be 4 (streamID msg))) as Hd3
    by (subst h; by rewrite <- Ht, drop_app_length).
  assert (drop 6 h = [byte (typeID msg)] ++ reverse (be 4 (streamID msg))) as Hd6
    by (change 6%nat with (3 + 3)%nat; rewrite <- drop_drop, Hd3; by rewrite drop_app_length' by (by rewrite length_be)).
  assert (drop 7 h = reverse (be 4 (streamID msg))) as Hd7
    by (change 7%nat with (6 + 1)%nat; rewrite <- drop_drop, Hd6; done).
  rewrite Hd3, Hd6, Hd7, Ht3, take_app_length' by (by rewrite length_be).
  subst t e. rewrite read_timestamp_app. cbn [of_option mbind result_bind app]. rewrite reverse_involutive.
  rewrite !of_be_be_id by (cbn; lia). rewrite guard_true by (apply Z.leb_le; unfold maxMessageSize; lia).
  cbn [mbind result_bind]. change (take 1 (byte (typeID msg) :: reverse (be 4 (streamID msg)))) with [byte (typeID msg)].
  rewrite of_be_one. unfold byte. rewrite Z.mod_small by exact Hty. by rewrite st_at_0.
Qed.

Lemma read_payload_app o s :
  0 <= o <= len msg.(payload) ->
  let n := (len msg.(payload) - o) `min` cs in
  read_payload cs (st_at o) (take (Z.to_nat n) (drop (Z.to_nat o) msg.(payload)) ++ s) = Ok (st_at (o + n), s).
Proof.
  intros Ho n. unfold read_payload. cbn [cs_remaining st_at]. fold n.
  assert (0 <= n <= len (payload msg) - o) as Hn by lia. clearbody n. destruct (Z.leb_spec n 0).
  - assert (n = 0) as -> by lia. cbn. by rewrite Z.add_0_r.
  - cbn [cs_payload cs_cap st_at]. unfold len in *.
    rewrite guard_true by (apply Z.leb_le; rewrite length_take; lia). cbn [mbind result_bind].
    rewrite (read_full_app n) by (rewrite length_take, length_drop; lia). cbn [of_option mbind result_bind].
    unfold st_at, len. cbn. rewrite take_take_drop, Z2Nat.inj_add by lia. by rewrite Z.sub_add_distr.
Qed.

(** What the reader holds of the chunk stream when the writer is at [o]. *)
Definition in_step (c : Conn) (o : Z) (first : bool) : Prop :=
  if first then o = 0 else c.(readStates) !! csid = Some (st_at o) /\ 0 <= o < len msg.(payload).

Lemma chunk_size o :
  0 <= o <= len msg.(payload) ->
  (if wrapu 32 (len msg.(payload) - o) <? cs then wrapu 32 (len msg.(payload) - o) else cs) =
  (len msg.(payload) - o) `min` cs.
Proof.
  intros Ho. rewrite wrapu_id by (unfold in_u; lia). destruct (Z.ltb_spec (len (payload msg) - o) cs); lia.
Qed.

(** The header the writer puts at [o] brings the reader to the same place. *)
Lemma chunk_header c o (first : bool) s :
  in_step c o first ->
  let hdr := if first then basic_encode (mkBasic 0 csid) ++ full_header msg (len msg.(payload))
             else basic_encode (mkBasic 3 csid) ++ (if is_ext then encodeExtendedTimestamp msg.(timestamp) else []) in
  exists f s1, basic_decode (hdr ++ s) = Some (mkBasic f csid, s1) /\
    read_header f (default newChunkState (c.(readStates) !! csid)) s1 = Ok (st_at o, s) /\ 0 <= o <= len msg.(payload).
Proof.
  intros Hin hdr. pose proof (len_nonneg msg.(payload)). subst hdr. destruct first; cbn in Hin; rewrite <- app_assoc.
  - subst o. exists 0, (full_header msg (len msg.(payload)) ++ s). rewrite basic_decode_app by lia.
    split_and!; [done|apply read_header0_app|lia|lia].
  - destruct Hin as [Hst Ho]. eexists 3, _. rewrite basic_decode_app by lia. split; [done|]. rewrite Hst.
    cbn [default]. split; [by apply read_header3_app|lia].
Qed.

Lemma set_states_acked m la o la' o' m' c :
  set_states m' (acked la' o' (set_states m (acked la o c))) = set_states m' (acked la' (o ++ o') c).
Proof. unfold set_states, acked, add_out, set_acked. cbn. by rewrite app_assoc. Qed.

Lemma read_chunks count rest wf : forall rf c o first b,
  (wf <= rf)%nat -> c.(readChunkSize) = cs -> 1 <= c.(writeChunkSize) -> in_step c o first ->
  write_chunks wf csid cs msg o first = Some b ->
  exists la out', readMessage rf count c (b ++ rest) =
    Ok (msg, set_states (<[csid := taken (st_at (len msg.(payload)))]> c.(readStates)) (acked la out' c), rest).
Proof.
  induction wf as [|wf IH]; intros rf c o first b Hrf Hrcs Hwcs Hin Hw; [done|].
  destruct rf as [|rf]; [lia|]. cbn [write_chunks] in Hw. rewrite wrap_len in Hw. fold is_ext in Hw.
  set (hdr := if first then _ else _) in Hw.
  assert (forall s, exists f s1, basic_decode (hdr ++ s) = Some (mkBasic f csid, s1) /\
    read_header f (default newChunkState (c.(readStates) !! csid)) s1 = Ok (st_at o, s) /\ 0 <= o <= len msg.(payload)) as Hh.
  { intros s. exact (chunk_header c o first s Hin). }
  destruct (Hh []) as (_ & _ & _ & _ & Ho). rewrite chunk_size in Hw by done.
  set (n := (len (payload msg) - o) `min` cs) in Hw.
  destruct (checkAck_total (count rest) c Hwcs) as (la & o' & _).
  destruct (Z.leb_spec (len (payload msg)) (o + n)) as [Hend|Hmore].
  - injection Hw as <-. rewrite <- app_assoc. destruct (Hh (take (Z.to_nat n) (drop (Z.to_nat o) (payload msg)) ++ rest)) as (f & s1 & Hbd & Hrh & _).
    cbn [readMessage]. rewrite Hbd. cbn [of_option mbind result_bind h_fmt h_csid]. rewrite Hrh. cbn [mbind result_bind].
    rewrite Hrcs, read_payload_app by done. fold n. cbn [mbind result_bind].
    destruct (checkAck_total (count rest) c Hwcs) as (la1 & o1 & ->). cbn [of_option mbind result_bind].
    assert (o + n = len (payload msg)) as -> by lia. cbn [cs_remaining st_at]. rewrite Z.sub_diag. cbn [Z.eqb].
    exists la1, o1. cbn [cs_messageTypeID cs_messageStreamID cs_timestamp cs_payload st_at]. rewrite (firstn_all_len msg.(payload)).
    by rewrite message_eta.
  - destruct (write_chunks wf csid cs msg (o + n) false) as [b'|] eqn:Hw'; [|done]. injection Hw as <-.
    rewrite <- !app_assoc. destruct (Hh (take (Z.to_nat n) (drop (Z.to_nat o) (payload msg)) ++ b' ++ rest)) as (f & s1 & Hbd & Hrh & _).
    cbn [readMessage]. rewrite Hbd. cbn [of_option mbind result_bind h_fmt h_csid]. rewrite Hrh. cbn [mbind result_bind].
    rewrite Hrcs, read_payload_app by done. fold n. cbn [mbind result_bind].
    destruct (checkAck_total (count (b' ++ rest)) c Hwcs) as (la1 & o1 & ->). cbn [of_option mbind result_bind].
    cbn [cs_remaining st_at]. destruct (Z.eqb_spec (len (payload msg) - (o + n)) 0); [lia|].
    edestruct (IH rf (set_states (<[csid:=st_at (o + n)]> (readStates (acked la1 o1 c))) (acked la1 o1 c)) (o + n) false b')
      as (la2 & o2 & ->); [lia|done|done| |done|].
    { split; [cbn; apply lookup_insert_eq|lia]. }
    exists la2, (o1 ++ o2). cbn [readStates set_states acked add_out set_acked]. rewrite insert_insert_eq. by rewrite set_states_acked.
Qed.
End RoundTrip.

Lemma write_chunks_length wf csid cs msg : forall o first b,
  1 <= cs -> len msg.(payload) < 2 ^ 32 -> 0 <= o <= len msg.(payload) ->
  write_chunks wf csid cs msg o first = Some b -> len msg.(payload) - o <= len b.
Proof.
  induction wf as [|wf IH]; intros o first b Hcs Hl Ho Hw; [done|]. cbn [write_chunks] in Hw.
  rewrite !(wrapu_id 32) in Hw by (unfold in_u; rewrite ?wrapu_id; unfold in_u; lia).
  set (n := if _ <? cs then _ else cs) in Hw.
  assert (n = (len (payload msg) - o) `min` cs) as Hn.
  { subst n. destruct (Z.ltb_spec (len (payload msg) - o) cs); lia. }
  set (hdr := if first then _ else _) in Hw. clearbody n hdr.
  assert (len (take (Z.to_nat n) (drop (Z.to_nat o) (payload msg))) = n) as Hc.
  { unfold len in *. rewrite length_take, length_drop. lia. }
  destruct (Z.leb_spec (len (payload msg)) (o + n)).
  - injection Hw as <-. unfold len in *. rewrite length_app. lia.
  - destruct (write_chunks wf csid cs msg (o + n) false) as [b'|] eqn:Hw'; [|done]. injection Hw as <-.
    apply IH in Hw'; [|done|done|lia]. unfold len in *. rewrite !length_app. lia.
Qed.

Lemma message_bytes_length csid cs msg b :
  1 <= cs -> len msg.(payload) < 2 ^ 32 -> message_bytes csid cs msg = Some b -> (length msg.(payload) <= length b)%nat.
Proof.
  intros Hcs Hl Hb. apply write_chunks_length in Hb; [unfold len in *; lia|done|done|]. pose proof (len_nonneg msg.(payload)). lia.
Qed.

(** A message whose fields fit what its header gives them. *)
Definition message_ok (m : rawMessage) : Prop :=
  byte_ok m.(typeID) /\ 0 <= m.(streamID) < 2 ^ 32 /\ 0 <= m.(timestamp) < 2 ^ 32 /\ len m.(payload) < 2 ^ 24.

Lemma write_then_read csid msg w c count rest fuel :
  2 <= csid <= 65599 -> message_ok msg -> 1 <= w.(writeChunkSize) -> c.(readChunkSize) = w.(writeChunkSize) ->
  1 <= c.(writeChunkSize) -> (length msg.(payload) < fuel)%nat ->
  exists b la o st,
    writeRawMessage csid msg w = Some (add_out b w) /\
    readMessage fuel count c (b ++ rest) = Ok (msg, set_states (<[csid := st]> c.(readStates)) (acked la o c), rest).
Proof.
  intros Hid (Hty & Hsid & Hts & Hl) Hw Hc Hcw Hf.
  destruct (message_bytes_total csid w.(writeChunkSize) msg) as [b Hb]; [done|lia|].
  destruct (read_chunks csid w.(writeChunkSize) msg Hid Hw Hty Hsid Hts Hl count rest (S (length msg.(payload))) fuel c 0 true b)
    as (la & o & Hr); try done.
  exists b, la, o. eexists. unfold writeRawMessage. by rewrite Hb.
Qed.

(** C39: What one side writes the other reads: a message whose fields fit the wire
    format, cut into chunks of the writer's chunk size with extended timestamps
    where it needs them, is read back whole and equal by a reader that was told
    that chunk size; the reader stops at the end of the message, keeps its chunk
    size, and touches no other chunk stream's partial message. *)
Theorem message_round_trip csid msg w c count rest fuel :
  2 <= csid <= 65599 -> message_ok msg -> 1 <= w.(writeChunkSize) -> c.(readChunkSize) = w.(writeChunkSize) ->
  1 <= c.(writeChunkSize) -> (length msg.(payload) < fuel)%nat ->
  exists b c',
    writeRawMessage csid msg w = Some (add_out b w) /\ readMessage fuel count c (b ++ rest) = Ok (msg, c', rest) /\
    c'.(readChunkSize) = c.(readChunkSize) /\ forall id, id <> csid -> c'.(readStates) !! id = c.(readStates) !! id.
Proof.
  intros Hid Hm Hw Hc Hcw Hf.
  destruct (write_then_read csid msg w c count rest fuel Hid Hm Hw Hc Hcw Hf) as (b & la & o & st & Hwr & Hr).
  exists b. eexists. split; [done|]. split; [exact Hr|]. split; [done|]. intros id Hne. cbn. by rewrite lookup_insert_ne.
Qed.

(** A message of 300 bytes with an extended timestamp on chunk stream 400. *)
Definition ex_message : rawMessage := mkMessage 9 1 20000000 (replicate 300 7).

Lemma message_round_trip_witness :
  exists b c',
    writeRawMessage 400 ex_message newConn = Some (add_out b newConn) /\
    readMessage 301 (fun _ => 0) newConn (b ++ [1; 2]) = Ok (ex_message, c', [1; 2]) /\
    c'.(readChunkSize) = 128 /\ forall id, id <> 400 -> c'.(readStates) !! id = newConn.(readStates) !! id.
Proof.
  apply (message_round_trip 400 ex_message newConn newConn (fun _ => 0) [1; 2] 301).
  - lia.
  - unfold message_ok, byte_ok, len. cbn. lia.
  - cbn. lia.
  - reflexivity.
  - cbn. lia.
  - cbn. lia.
Defined.

(** Two chunks of a five byte message with a chunk size told first. *)
Lemma readMessage_safe_witness :
  match readMessage 19 (fun _ => 0) (set_readChunkSize 3 newConn) [4; 0; 0; 1; 0; 0; 5; 8; 1; 0; 0; 0; 10; 20; 30; 196; 40; 50] with
  | Ok (msg, c', s') => conn_ok c' /\ (length s' < 18)%nat /\ len msg.(payload) <= maxMessageSize
  | Err e => harmless e
  end.
Proof.
  apply (readMessage_safe 19 (fun _ => 0) (set_readChunkSize 3 newConn)
    [4; 0; 0; 1; 0; 0; 5; 8; 1; 0; 0; 0; 10; 20; 30; 196; 40; 50]).
  - split; cbn; [lia|lia|apply map_Forall_empty].
  - repeat (constructor; [unfold byte_ok; lia|]). constructor.
  - cbn. lia.
Defined.
