(* ===== verification/RtmpStream.v ===== *)
(** * internal/rtmp/conn.go: commands, stream negotiation and frames

    The server's half, [AcceptStreamFunc], and the client's, [OpenStream], over
    the message layer of [Rtmp], with [ReadFrame] and [WriteFrame] on the stream
    they agree on. Every message takes at least a byte of the stream, so the
    loops are given the stream's length as fuel. *)
From Stdlib Require Import Sorted.
From S2P Require Import Prelude GoBytes GoTime Amf0 Rtmp.

#[local] Open Scope Z_scope.

Definition str (s : String.string) : bytes := ascii_bytes s.
Arguments str s%_string_scope.

Definition messageTypeAudio : Z := 8.
Definition messageTypeVideo : Z := 9.
Definition messageTypeAMF3Data : Z := 15.
Definition messageTypeAMF3Command : Z := 17.
Definition messageTypeAMF0Data : Z := 18.
Definition messageTypeAMF0Command : Z := 20.
Definition bandwidthLimitDynamic : Z := 2.
Definition csidAudio : Z := 6.
Definition csidVideo : Z := 7.

(** ** Commands *)

Definition num (n : Z) : value := VNumber (float_of_Z n).

Definition command_values (name : bytes) (txID : float64) (args : list value) : list value :=
  VString name :: VNumber txID :: args.

Definition sendCommand (sid : Z) (name : bytes) (txID : float64) (args : list value) (c : Conn) : result rtmp_error Conn :=
  b ← map_err CommandError (encode_items encodeValue (command_values name txID args));
  of_option RtmpFuel (writeRawMessage csidCommand (mkMessage messageTypeAMF0Command sid 0 b) c).

(** [x.(string)], [x.(float64)] and [x.(map[string]any)] with the zero value for
    another type, and [obj[key]] likewise. *)
Definition as_string (v : option value) : bytes := match v with Some (VString s) => s | _ => [] end.
Definition as_float (v : value) : float64 := match v with VNumber f => f | _ => S754_zero false end.
Definition member (key : bytes) (m : list (bytes * value)) : option value :=
  snd <$> List.find (fun kv => bool_decide (kv.1 = key)) m.

Section Commands.
Variable int64_oor : float64 -> Z.

(** The arguments up to the end of the payload or the first that does not
    decode. *)
Fixpoint decode_args (fuel : nat) (s : bytes) : list value :=
  match fuel with
  | O => []
  | S f => match Decode int64_oor s with Ok (v, s') => v :: decode_args f s' | Err _ => [] end
  end.

Definition readCommand (msg : rawMessage) : result rtmp_error (bytes * float64 * list value) :=
  let s := if (msg.(typeID) =? messageTypeAMF3Command) && (0 <? len msg.(payload)) then tl msg.(payload) else msg.(payload) in
  '(nameVal, s1) ← map_err CommandError (Decode int64_oor s);
  '(txVal, s2) ← map_err CommandError (Decode int64_oor s1);
  Ok (as_string (Some nameVal), as_float txVal, decode_args (length s2) s2).

Definition isCommand (ty : Z) : bool := (ty =? messageTypeAMF0Command) || (ty =? messageTypeAMF3Command).

(** ** The server: [AcceptStreamFunc] *)

Record MessageReader := mkReader { r_streamID : Z; r_app : bytes; r_streamKey : bytes }.

(** The loop's variables. *)
Record accept_vars := mkVars { activeStreamID : Z; app : bytes }.

(** What one message leads to: the next round, the reader, the refusal of [allow]
    (after it was answered), or an error. *)
Inductive accept_outcome :=
| Continue (v : accept_vars) (c : Conn)
| Accepted (r : MessageReader) (c : Conn)
| Denied (reason : String.string) (c : Conn)
| Stopped (e : rtmp_error).

Definition or_stop (m : result rtmp_error Conn) (k : Conn -> accept_outcome) : accept_outcome :=
  match m with Ok c => k c | Err e => Stopped e end.

Definition connect_props : value :=
  VObject [(str "capabilities", num 31); (str "fmsVer", VString (str "FMS/3,0,1,123"))].
Definition connect_info : value :=
  VObject [(str "code", VString (str "NetConnection.Connect.Success"));
           (str "description", VString (str "Connection succeeded."));
           (str "level", VString (str "status")); (str "objectEncoding", num 0)].
Definition status_object (code description level : bytes) : value :=
  VObject [(str "code", VString code); (str "description", VString description); (str "level", VString level)].

Definition lift_send (o : option Conn) : result rtmp_error Conn := of_option RtmpFuel o.

Definition handleConnect (txID : float64) (c : Conn) : result rtmp_error Conn :=
  c1 ← lift_send (sendWindowAckSize defaultWindowAckSize c);
  c2 ← lift_send (sendSetPeerBandwidth defaultWindowAckSize bandwidthLimitDynamic c1);
  c3 ← lift_send (sendSetChunkSize serverChunkSize c2);
  c4 ← lift_send (sendStreamBegin 0 (set_writeChunkSize serverChunkSize c3));
  sendCommand 0 (str "_result") txID [connect_props; connect_info] c4.

(** The [publish] case. *)
Definition accept_publish (allow : option (bytes -> bytes -> option String.string)) (v : accept_vars) (msg : rawMessage)
  (args : list value) (c : Conn) : accept_outcome :=
  let pubName := as_string (args !! 1%nat) in
  let sid := if msg.(streamID) =? 0 then v.(activeStreamID) else msg.(streamID) in
  match (f ← allow; f v.(app) pubName) with
  | Some denied =>
      or_stop (sendCommand sid (str "onStatus") (S754_zero false)
        [VNull; status_object (str "NetStream.Publish.Denied") (str "publishing was refused") (str "error")] c) (Denied denied)
  | None =>
      or_stop (lift_send (sendStreamBegin sid c)) (fun c1 =>
      or_stop (sendCommand sid (str "onStatus") (S754_zero false)
        [VNull; status_object (str "NetStream.Publish.Start") (pubName ++ str " is now published.") (str "status")] c1)
        (Accepted (mkReader sid v.(app) pubName)))
  end.

(** The loop's body on a command. *)
Definition accept_command (allow : option (bytes -> bytes -> option String.string)) (v : accept_vars) (msg : rawMessage)
  (name : bytes) (txID : float64) (args : list value) (c : Conn) : accept_outcome :=
  if bool_decide (name = str "connect") then
    match args with
    | [] => Stopped Panic
    | a :: _ =>
        let v1 := match a with VObject m => mkVars v.(activeStreamID) (as_string (member (str "app") m)) | _ => v end in
        or_stop (handleConnect txID c) (Continue v1)
    end
  else if bool_decide (name = str "releaseStream") || bool_decide (name = str "FCPublish") then
    or_stop (sendCommand 0 (str "_result") txID [VNull] c) (Continue v)
  else if bool_decide (name = str "createStream") then
    let v1 := mkVars c.(nextStreamID) v.(app) in
    or_stop (sendCommand 0 (str "_result") txID [VNull; num c.(nextStreamID)]
              (set_nextStreamID (wrapu 32 (c.(nextStreamID) + 1)) c)) (Continue v1)
  else if bool_decide (name = str "publish") then accept_publish allow v msg args c
  else Continue v c.

(** The loop's body on a message. *)
Definition accept_message (allow : option (bytes -> bytes -> option String.string)) (v : accept_vars) (msg : rawMessage)
  (c : Conn) : accept_outcome :=
  if isControlMessage msg.(typeID) then or_stop (handleControlMessage msg c) (Continue v)
  else if negb (isCommand msg.(typeID)) then Continue v c
  else match readCommand msg with
       | Err e => Stopped e
       | Ok (name, txID, args) => accept_command allow v msg name txID args c
       end.

(** The loop, returning what is left of the stream as well. *)
Fixpoint accept_loop (fuel : nat) (count : bytes -> Z) (allow : option (bytes -> bytes -> option String.string))
  (v : accept_vars) (c : Conn) (s : bytes) : accept_outcome * bytes :=
  match fuel with
  | O => (Stopped RtmpFuel, s)
  | S f =>
      match readMessage (S (length s)) count c s with
      | Err e => (Stopped e, s)
      | Ok (msg, c1, s1) =>
          match accept_message allow v msg c1 with
          | Continue v' c2 => accept_loop f count allow v' c2 s1
          | out => (out, s1)
          end
      end
  end.

Definition AcceptStreamFunc (count : bytes -> Z) (allow : option (bytes -> bytes -> option String.string)) (c : Conn)
  (s : bytes) : accept_outcome * bytes :=
  accept_loop (S (length s)) count allow (mkVars 0 []) c s.

Definition AcceptStream (count : bytes -> Z) := AcceptStreamFunc count None.

(** ** The client: [OpenStream] *)

Fixpoint readNextCommand (fuel : nat) (count : bytes -> Z) (c : Conn) (s : bytes) :
  result rtmp_error (bytes * float64 * list value * Conn * bytes) :=
  match fuel with
  | O => Err RtmpFuel
  | S f =>
      '(msg, c1, s1) ← readMessage (S (length s)) count c s;
      if isControlMessage msg.(typeID) then c2 ← handleControlMessage msg c1; readNextCommand f count c2 s1
      else if isCommand msg.(typeID) then '(name, tx, args) ← readCommand msg; Ok (name, tx, args, c1, s1)
      else readNextCommand f count c1 s1
  end.

(** [messageStreamID(sid)], with the conversion of a number out of range as the
    platform has it. *)
Variable uint32_oor : float64 -> Z.
Definition uint32_of_float (f : float64) : Z :=
  match f with
  | S754_zero _ => 0
  | S754_finite s m e => let n := trunc_finite s m e in if (0 <=? n) && (n <? 2 ^ 32) then n else uint32_oor f
  | _ => uint32_oor f
  end.

(** The three waits: what ends each on a command. *)
Inductive waited (A : Type) := Go_on | Done (a : A) | Rejected (e : rtmp_error).
Arguments Go_on {A}.
Arguments Done {A}.
Arguments Rejected {A}.

Fixpoint wait_for {A} (fuel : nat) (count : bytes -> Z) (verdict : bytes -> float64 -> list value -> waited A)
  (c : Conn) (s : bytes) : result rtmp_error (A * Conn * bytes) :=
  match fuel with
  | O => Err RtmpFuel
  | S f =>
      '(name, tid, args, c1, s1) ← readNextCommand (S (length s)) count c s;
      match verdict name tid args with
      | Done a => Ok (a, c1, s1)
      | Rejected e => Err e
      | Go_on => wait_for f count verdict c1 s1
      end
  end.

Definition waitForResult (txID : float64) : bytes -> float64 -> list value -> waited unit := fun name tid _ =>
  if bool_decide (name = str "_result") && SFeqb tid txID then Done tt
  else if bool_decide (name = str "_error") && SFeqb tid txID then Rejected ErrServerRejected else Go_on.

Definition waitForStreamID (txID : float64) : bytes -> float64 -> list value -> waited Z := fun name tid args =>
  match (if bool_decide (name = str "_result") && SFeqb tid txID then args !! 1%nat else None) with
  | Some (VNumber sid) => Done (uint32_of_float sid)
  | _ => if bool_decide (name = str "_error") && SFeqb tid txID then Rejected ErrCreateStreamRejected else Go_on
  end.

Definition waitForOnStatus : bytes -> float64 -> list value -> waited unit := fun name _ _ =>
  if bool_decide (name = str "onStatus") then Done tt else Go_on.

Record MessageWriter := mkWriter { w_streamID : Z; w_app : bytes; w_streamKey : bytes }.

Definition connectObj (app : bytes) : value :=
  VObject [(str "app", VString app); (str "audioCodecs", num 1028); (str "capabilities", num 239);
           (str "flashVer", VString (str "FMLE/3.0")); (str "fpad", VBool false); (str "objectEncoding", num 0);
           (str "tcUrl", VString (str "rtmp://localhost/" ++ app)); (str "type", VString (str "nonprivate"));
           (str "videoCodecs", num 128); (str "videoFunction", num 1)].

Definition OpenStream (count : bytes -> Z) (app streamKey : bytes) (c : Conn) (s : bytes) :
  result rtmp_error (MessageWriter * Conn * bytes) :=
  let fuel := S (length s) in
  c1 ← sendCommand 0 (str "connect") (float_of_Z 1) [connectObj app] c;
  '(_, c2, s2) ← wait_for fuel count (waitForResult (float_of_Z 1)) c1 s;
  c3 ← sendCommand 0 (str "createStream") (float_of_Z 2) [VNull] c2;
  '(sid, c4, s4) ← wait_for fuel count (waitForStreamID (float_of_Z 2)) c3 s2;
  c5 ← sendCommand sid (str "publish") (S754_zero false) [VNull; VString streamKey; VString (str "live")] c4;
  '(_, c6, s6) ← wait_for fuel count waitForOnStatus c5 s4;
  Ok (mkWriter sid app streamKey, c6, s6).
End Commands.

(** ** Frames: frame.go, [ReadFrame] and [WriteFrame] *)

Definition FrameTypeAudio : Z := messageTypeAudio.
Definition FrameTypeVideo : Z := messageTypeVideo.
Definition FrameTypeMetadata : Z := messageTypeAMF0Data.

Record Frame := mkFrame { f_Type : Z; f_Timestamp : Z; f_Data : bytes }.

Definition frame_of (msg : rawMessage) : option Frame :=
  if msg.(typeID) =? messageTypeAudio then Some (mkFrame FrameTypeAudio msg.(timestamp) msg.(payload))
  else if msg.(typeID) =? messageTypeVideo then Some (mkFrame FrameTypeVideo msg.(timestamp) msg.(payload))
  else if (msg.(typeID) =? messageTypeAMF0Data) || (msg.(typeID) =? messageTypeAMF3Data)
  then Some (mkFrame FrameTypeMetadata msg.(timestamp) msg.(payload))
  else None.

Fixpoint ReadFrame (fuel : nat) (count : bytes -> Z) (r : MessageReader) (c : Conn) (s : bytes) :
  result rtmp_error (Frame * Conn * bytes) :=
  match fuel with
  | O => Err RtmpFuel
  | S f =>
      '(msg, c1, s1) ← readMessage (S (length s)) count c s;
      if isControlMessage msg.(typeID) then c2 ← handleControlMessage msg c1; ReadFrame f count r c2 s1
      else if negb (msg.(streamID) =? r.(r_streamID)) then ReadFrame f count r c1 s1
      else match frame_of msg with
           | Some fr => Ok (fr, c1, s1)
           | None => ReadFrame f count r c1 s1
           end
  end.

Definition WriteFrame (w : MessageWriter) (fr : Frame) (c : Conn) : result rtmp_error Conn :=
  '(ty, csid) ← of_option ErrUnsupportedFrameType
    (if fr.(f_Type) =? FrameTypeAudio then Some (messageTypeAudio, csidAudio)
     else if fr.(f_Type) =? FrameTypeVideo then Some (messageTypeVideo, csidVideo)
     else if fr.(f_Type) =? FrameTypeMetadata then Some (messageTypeAMF0Data, csidCommand)
     else None);
  lift_send (writeRawMessage csid (mkMessage ty w.(w_streamID) fr.(f_Timestamp) fr.(f_Data)) c).

(** [Close] of each end, before the transport is closed: a message that can't be
    sent is ignored. *)
Definition MessageReader_Close (r : MessageReader) (c : Conn) : Conn := default c (sendStreamEOF r.(r_streamID) c).
Definition MessageWriter_Close (w : MessageWriter) (c : Conn) : Conn :=
  match sendCommand 0 (str "deleteStream") (S754_zero false) [VNull; num w.(w_streamID)] c with Ok c' => c' | Err _ => c end.

(** ** Properties *)

Section Negotiation.
Variable int64_oor : float64 -> Z.

Lemma Decode_encode v b rest :
  wf v -> (need v <= S maxDecodeDepth)%nat -> encodeValue v = Ok b -> Decode int64_oor (b ++ rest) = Ok (norm v, rest).
Proof. intros Hw Hn He. by apply (decodeValue_app int64_oor v _ Hw Hn). Qed.

(** A command the encoder and the decoder agree on. *)
Definition value_ok (v : value) : Prop := wf v /\ (need v <= S maxDecodeDepth)%nat.

Lemma decode_args_sent args b fuel :
  Forall value_ok args -> encode_items encodeValue args = Ok b -> (length b <= fuel)%nat ->
  decode_args int64_oor fuel b = norm <$> args.
Proof.
  intros Hok. revert b fuel. induction Hok as [|v args [Hw Hn] _ IH]; intros b fuel He Hf.
  - apply Ok_inj in He as <-. by destruct fuel.
  - cbn in He. destruct (encodeValue v) as [b1|] eqn:He1; [|done]. cbn in He.
    destruct (encode_items encodeValue args) as [b2|] eqn:He2; [|done]. cbn in He. apply Ok_inj in He as <-.
    pose proof (encode_nonempty _ _ He1). rewrite length_app in Hf. destruct fuel as [|fuel]; [lia|].
    cbn [decode_args]. rewrite (Decode_encode v b1 b2) by done. cbn [fmap list_fmap]. f_equal. apply IH; [done|lia].
Qed.

Lemma readCommand_sent name tx args sid ts b :
  len name < 2 ^ 32 -> float_ok tx -> Forall value_ok args ->
  encode_items encodeValue (command_values name tx args) = Ok b ->
  readCommand int64_oor (mkMessage messageTypeAMF0Command sid ts b) = Ok (name, tx, norm <$> args).
Proof.
  intros Hn Htx Hargs He. cbn [encode_items command_values] in He.
  destruct (encodeValue (VString name)) as [b1|] eqn:H1; [|done]. cbn [mbind result_bind] in He.
  destruct (encodeValue (VNumber tx)) as [b2|] eqn:H2; [|done]. cbn [mbind result_bind] in He.
  change ((fix go (l : list value) : result amf_error bytes :=
    match l with [] => Ok [] | v :: l' => b ← encodeValue v; rest ← go l'; Ok (b ++ rest) end) args)
    with (encode_items encodeValue args) in He.
  destruct (encode_items encodeValue args) as [b3|] eqn:H3; [|done]. cbn [mbind result_bind] in He. apply Ok_inj in He as <-.
  unfold readCommand. cbn [typeID payload].
  change ((messageTypeAMF0Command =? messageTypeAMF3Command) && (0 <? len (b1 ++ b2 ++ b3))) with false. cbn iota.
  rewrite (Decode_encode (VString name) b1 (b2 ++ b3)) by (try done; unfold maxDecodeDepth; cbn; lia). cbn [map_err mbind result_bind norm].
  rewrite (Decode_encode (VNumber tx) b2 b3) by (try done; unfold maxDecodeDepth; cbn; lia). cbn [map_err mbind result_bind norm as_string as_float].
  by rewrite (decode_args_sent args b3).
Qed.

(** The size of an encoding. *)
Fixpoint vsize (v : value) : Z :=
  match v with
  | VString s => len s + 5
  | VObject m => 4 + foldr (fun kv n => 2 + len kv.1 + vsize kv.2 + n) 0 m
  | VECMAArray m => 8 + foldr (fun kv n => 2 + len kv.1 + vsize kv.2 + n) 0 m
  | VStrictArray l => 5 + foldr (fun v n => vsize v + n) 0 l
  | _ => 11
  end.

Lemma len_app a b : len (a ++ b) = len a + len b.
Proof. unfold len. rewrite length_app. lia. Qed.

Lemma len_cons b l : len (b :: l) = 1 + len l.
Proof. unfold len. cbn [length]. lia. Qed.

Lemma len_be n v : len (be n v) = Z.of_nat n.
Proof. unfold len. by rewrite length_be. Qed.

Lemma encode_members_size m b :
  Forall (fun kv => forall b, encodeValue kv.2 = Ok b -> len b <= vsize kv.2) m ->
  encode_members encodeValue m = Ok b -> len b <= 3 + foldr (fun kv n => 2 + len kv.1 + vsize kv.2 + n) 0 m.
Proof.
  intros Hm. revert b. induction Hm as [|[k v] m Hv _ IH]; intros b He.
  - apply Ok_inj in He as <-. vm_compute. discriminate.
  - cbn in He. destruct (writeUTF8 k) as [kb|] eqn:Hk; [|done]. cbn in He.
    destruct (encodeValue v) as [vb|] eqn:Hvb; [|done]. cbn in He.
    change (match encode_members encodeValue m with Ok a => Ok (kb ++ vb ++ a) | Err e => Err e end = Ok b) in He.
    destruct (encode_members encodeValue m) as [mb|] eqn:Hmb; [|done]. apply Ok_inj in He as <-.
    unfold writeUTF8 in Hk. apply bind_Ok in Hk as (_ & _ & Hk). apply Ok_inj in Hk as <-. rewrite !len_app. unfold writeU16. rewrite len_be.
    specialize (Hv _ Hvb). specialize (IH _ eq_refl). cbn [foldr fst snd] in *. lia.
Qed.

Lemma encode_items_size l b :
  Forall (fun v => forall b, encodeValue v = Ok b -> len b <= vsize v) l ->
  encode_items encodeValue l = Ok b -> len b <= foldr (fun v n => vsize v + n) 0 l.
Proof.
  intros Hm. revert b. induction Hm as [|v l Hv _ IH]; intros b He.
  - apply Ok_inj in He as <-. vm_compute. discriminate.
  - cbn in He. destruct (encodeValue v) as [vb|] eqn:Hvb; [|done]. cbn in He.
    change (match encode_items encodeValue l with Ok a => Ok (vb ++ a) | Err e => Err e end = Ok b) in He.
    destruct (encode_items encodeValue l) as [mb|] eqn:Hmb; [|done]. apply Ok_inj in He as <-.
    rewrite !len_app. specialize (Hv _ eq_refl). specialize (IH _ eq_refl). cbn [foldr] in *. lia.
Qed.

Lemma encode_size v b : encodeValue v = Ok b -> len b <= vsize v.
Proof.
  revert b. induction v as [| |x|f|n|s|m IH|m IH|l IH|t] using value_nested_ind; intros b He; cbn [encodeValue] in He.
  all: try (apply Ok_inj in He as <-; unfold writeNumber, writeU16;
            rewrite ?len_cons, ?len_app, ?len_cons, ?len_be; unfold len; cbn; lia).
  - apply Ok_inj in He as <-. unfold encodeString, writeU16, writeU32.
    destruct (len s <=? MaxUint16); rewrite len_cons, len_app, len_be; cbn; lia.
  - destruct (encode_members encodeValue m) as [mb|] eqn:Hm; [|done]. cbn in He. apply Ok_inj in He as <-.
    apply encode_members_size in Hm; [|done]. rewrite len_cons. cbn [vsize]. lia.
  - destruct (encode_members encodeValue m) as [mb|] eqn:Hm; [|done]. cbn [mbind result_bind] in He. apply Ok_inj in He as <-.
    apply encode_members_size in Hm; [|done]. unfold writeU32. rewrite len_cons, len_app, len_be. cbn [vsize]. lia.
  - destruct (encode_items encodeValue l) as [mb|] eqn:Hm; [|done]. cbn [mbind result_bind] in He. apply Ok_inj in He as <-.
    apply encode_items_size in Hm; [|done]. unfold writeU32. rewrite len_cons, len_app, len_be. cbn [vsize]. lia.
Qed.

Definition command_size (name : bytes) (args : list value) : Z := len name + 16 + foldr (fun v n => vsize v + n) 0 args.

Lemma command_bytes_size name tx args b :
  encode_items encodeValue (command_values name tx args) = Ok b -> len b <= command_size name args.
Proof.
  intros He. apply encode_items_size in He; [unfold command_size; cbn [command_values foldr vsize] in *; lia|].
  apply Forall_forall. intros v _ b'. apply encode_size.
Qed.

Lemma write_total csid msg c :
  1 <= c.(writeChunkSize) -> len msg.(payload) < 2 ^ 32 -> exists o, writeRawMessage csid msg c = Some (add_out o c).
Proof.
  intros Hw Hl. unfold writeRawMessage. destruct (message_bytes_total csid _ msg Hw Hl) as [b ->]. by exists b.
Qed.

Lemma sendCommand_total sid name tx args c :
  is_ok (encode_items encodeValue (command_values name tx args)) = true -> command_size name args < 2 ^ 32 ->
  1 <= c.(writeChunkSize) -> exists o, sendCommand sid name tx args c = Ok (add_out o c).
Proof.
  unfold sendCommand. intros He Hs Hw.
  destruct (encode_items encodeValue (command_values name tx args)) as [b|] eqn:Hb; [|done]. apply command_bytes_size in Hb.
  cbn [map_err mbind result_bind].
  edestruct (write_total csidCommand (mkMessage messageTypeAMF0Command sid 0 b) c) as [o ->]; [done|cbn; lia|]. by exists o.
Qed.

Lemma send_control_total ty b c :
  1 <= c.(writeChunkSize) -> len b < 2 ^ 32 -> exists o, lift_send (send_control ty b c) = Ok (add_out o c).
Proof.
  intros Hw Hl. unfold send_control, lift_send.
  edestruct (write_total csidControl (mkMessage ty 0 0 b) c) as [o ->]; [done|done|]. by exists o.
Qed.

Lemma add_out_add_out a b c : add_out b (add_out a c) = add_out (a ++ b) c.
Proof. unfold add_out. cbn. by rewrite app_assoc. Qed.

Ltac eval_lens :=
  repeat match goal with
  | |- context [len (str ?s)] => let n := eval vm_compute in (len (str s)) in change (len (str s)) with n
  end.

(** Bounds the size of a command whose strings are known but for their lengths. *)
Ltac command_bound :=
  unfold command_size; cbn [foldr vsize fst snd status_object connectObj connect_props connect_info num];
  rewrite ?len_app; eval_lens; lia.

Lemma handleConnect_total tx c :
  1 <= c.(writeChunkSize) -> exists o, handleConnect tx c = Ok (set_writeChunkSize serverChunkSize (add_out o c)).
Proof.
  intros Hw. unfold handleConnect, sendWindowAckSize, sendSetPeerBandwidth, sendSetChunkSize, sendStreamBegin, sendUserControl.
  edestruct (send_control_total 5 (WindowAckSize_encode defaultWindowAckSize) c) as [o1 ->]; [done|done|]. cbn [mbind result_bind].
  edestruct (send_control_total 6 (SetPeerBandwidth_encode defaultWindowAckSize bandwidthLimitDynamic) (add_out o1 c)) as [o2 ->];
    [done|done|]. cbn [mbind result_bind].
  edestruct (send_control_total 1 (SetChunkSize_encode serverChunkSize) (add_out o2 (add_out o1 c))) as [o3 ->]; [done|done|].
  cbn [mbind result_bind].
  edestruct (send_control_total 4 (UserControl_encode 0 (be 4 0)) (set_writeChunkSize serverChunkSize (add_out o3 (add_out o2 (add_out o1 c)))))
    as [o4 ->]; [done|done|]. cbn [mbind result_bind].
  edestruct (sendCommand_total 0 (str "_result") tx [connect_props; connect_info]
    (add_out o4 (set_writeChunkSize serverChunkSize (add_out o3 (add_out o2 (add_out o1 c)))))) as [o5 ->];
    [reflexivity|command_bound|done|].
  exists (o1 ++ o2 ++ o3 ++ o4 ++ o5). unfold add_out, set_writeChunkSize. cbn. by rewrite !app_assoc.
Qed.

(** *** Receiving a command *)

Lemma sendCommand_inv sid name tx args w b :
  sendCommand sid name tx args w = Ok (add_out b w) -> command_size name args < 2 ^ 24 -> 1 <= w.(writeChunkSize) ->
  exists pl, encode_items encodeValue (command_values name tx args) = Ok pl /\ len pl < 2 ^ 24 /\
    message_bytes csidCommand w.(writeChunkSize) (mkMessage messageTypeAMF0Command sid 0 pl) = Some b /\
    (2 <= length pl <= length b)%nat.
Proof.
  intros Hs Hsize Hw. unfold sendCommand in Hs.
  destruct (encode_items encodeValue (command_values name tx args)) as [pl|] eqn:He; [|done]. cbn [map_err mbind result_bind] in Hs.
  pose proof (command_bytes_size _ _ _ _ He) as Hpl. apply encode_items_length in He as Hlen.
  unfold writeRawMessage in Hs. destruct (message_bytes _ _ _) as [b'|] eqn:Hb; [|done]. cbn in Hs. apply Ok_inj in Hs.
  apply (f_equal out) in Hs; cbn in Hs. apply app_inv_head in Hs as ->.
  exists pl. split_and!; [done|lia|done|cbn in Hlen; lia|]. apply message_bytes_length in Hb; [done|done|cbn; lia].
Qed.

Lemma recv_command count allow v sid name tx args w c b rest f :
  sendCommand sid name tx args w = Ok (add_out b w) ->
  0 <= sid < 2 ^ 32 -> float_ok tx -> Forall value_ok args -> len name < 2 ^ 16 -> command_size name args < 2 ^ 24 ->
  1 <= w.(writeChunkSize) -> c.(readChunkSize) = w.(writeChunkSize) -> 1 <= c.(writeChunkSize) ->
  exists pl m la o,
    accept_loop int64_oor (S f) count allow v c (b ++ rest) =
    match accept_command allow v (mkMessage messageTypeAMF0Command sid 0 pl) name tx (norm <$> args) (set_states m (acked la o c)) with
    | Continue v' c2 => accept_loop int64_oor f count allow v' c2 rest
    | out => (out, rest)
    end.
Proof.
  intros Hs Hsid Htx Hargs Hname Hsize Hw Hc Hcw. apply sendCommand_inv in Hs as (pl & He & Hpl & Hb & Hlen); [|done|done].
  destruct (write_then_read csidCommand (mkMessage messageTypeAMF0Command sid 0 pl) w c count rest (S (length (b ++ rest))))
    as (b2 & la & o & st & Hw2 & Hr); try done.
  { cbn. rewrite length_app. lia. }
  unfold writeRawMessage in Hw2. rewrite Hb in Hw2. injection Hw2 as Hw2. apply app_inv_head in Hw2 as <-.
  exists pl. eexists _, la, o. cbn [accept_loop]. rewrite Hr. unfold accept_message. cbn [typeID].
  change (isControlMessage messageTypeAMF0Command) with false. change (isCommand messageTypeAMF0Command) with true. cbn [negb].
  by rewrite (readCommand_sent name tx args sid 0 pl) by (done || lia).
Qed.

Lemma value_ok_string s : len s < 2 ^ 32 -> value_ok (VString s).
Proof. intros Hs. split; [exact Hs|cbn; unfold maxDecodeDepth; lia]. Qed.

Lemma value_ok_null : value_ok VNull.
Proof. split; [done|cbn; lia]. Qed.

Lemma num_ok n : 0 <= n < 2 ^ 53 -> float_ok (float_of_Z n).
Proof. apply float_of_nonneg_ok. Qed.

Lemma connectObj_ok app : len app < 2 ^ 16 -> value_ok (connectObj app).
Proof.
  intros Ha. split; [|apply Nat.leb_le; vm_compute; reflexivity]. cbn [connectObj wf foldr snd num]. split_and!.
  all: first [done | lia | by apply num_ok | by repeat constructor | (repeat constructor; discriminate) | (rewrite len_app; eval_lens; lia)].
Qed.

(** The cases of the loop's body. *)
Lemma accept_connect allow v msg tx app c :
  accept_command allow v msg (str "connect") tx (norm <$> [connectObj app]) c =
  or_stop (handleConnect tx c) (Continue (mkVars v.(activeStreamID) app)).
Proof. reflexivity. Qed.

Lemma accept_createStream allow v msg tx args c :
  accept_command allow v msg (str "createStream") tx args c =
  or_stop (sendCommand 0 (str "_result") tx [VNull; num c.(nextStreamID)]
            (set_nextStreamID (wrapu 32 (c.(nextStreamID) + 1)) c)) (Continue (mkVars c.(nextStreamID) v.(app))).
Proof. reflexivity. Qed.

Lemma accept_publish_case allow v msg tx args c :
  accept_command allow v msg (str "publish") tx args c = accept_publish allow v msg args c.
Proof. reflexivity. Qed.

(** What the gate promises of one round. *)
Definition gated (allow : option (bytes -> bytes -> option String.string)) (out : accept_outcome) : Prop :=
  match out with
  | Accepted r _ => (f ← allow; f r.(r_app) r.(r_streamKey)) = None
  | Denied d c' => (exists app key, (f ← allow; f app key) = Some d) /\
      exists sid c0, sendCommand sid (str "onStatus") (S754_zero false)
        [VNull; status_object (str "NetStream.Publish.Denied") (str "publishing was refused") (str "error")] c0 = Ok c'
  | _ => True
  end.

Lemma gated_or_stop allow m k : (forall c, m = Ok c -> gated allow (k c)) -> gated allow (or_stop m k).
Proof. intros Hk. destruct m as [c|e]; cbn [or_stop]; [by apply Hk|done]. Qed.

Lemma accept_publish_gate allow v msg args c : gated allow (accept_publish allow v msg args c).
Proof.
  unfold accept_publish. destruct (f ← allow; f (app v) (as_string (args !! 1%nat))) as [d|] eqn:Ha.
  - apply gated_or_stop. intros c' Hs. split; [by eexists _, _|by eexists _, _].
  - apply gated_or_stop. intros c1 _. apply gated_or_stop. intros c2 _. exact Ha.
Qed.

Lemma accept_message_gate allow v msg c : gated allow (accept_message int64_oor allow v msg c).
Proof.
  unfold accept_message. destruct (isControlMessage (typeID msg)); [by apply gated_or_stop|].
  destruct (negb (isCommand (typeID msg))); [done|]. destruct (readCommand int64_oor msg) as [[[name tx] args]|e]; [|done].
  unfold accept_command. case_bool_decide; [destruct args; [done|by apply gated_or_stop]|].
  destruct (_ || _); [by apply gated_or_stop|]. case_bool_decide; [by apply gated_or_stop|].
  case_bool_decide; [apply accept_publish_gate|done].
Qed.

(** The answer to a publish. *)
Lemma accept_publish_total allow v sid pl key c :
  1 <= c.(writeChunkSize) -> sid <> 0 -> len key < 2 ^ 16 ->
  exists o,
    accept_publish allow v (mkMessage messageTypeAMF0Command sid 0 pl) [VNull; VString key; VString (str "live")] c =
    match (f ← allow; f v.(app) key) with
    | Some d => Denied d (add_out o c)
    | None => Accepted (mkReader sid v.(app) key) (add_out o c)
    end.
Proof.
  intros Hw Hsid Hk. unfold accept_publish. cbn [streamID lookup list_lookup as_string].
  destruct (Z.eqb_spec sid 0) as [|_]; [done|]. destruct (f ← allow; f v.(app) key) as [d|].
  - edestruct (sendCommand_total sid (str "onStatus") (S754_zero false)
      [VNull; status_object (str "NetStream.Publish.Denied") (str "publishing was refused") (str "error")] c) as [o ->];
      [reflexivity|command_bound|done|]. by exists o.
  - unfold sendStreamBegin, sendUserControl.
    edestruct (send_control_total 4 (UserControl_encode 0 (be 4 sid)) c) as [o1 ->]; [done|done|]. cbn [or_stop].
    edestruct (sendCommand_total sid (str "onStatus") (S754_zero false)
      [VNull; status_object (str "NetStream.Publish.Start") (key ++ str " is now published.") (str "status")] (add_out o1 c)) as [o2 ->];
      [reflexivity|command_bound|done|]. exists (o1 ++ o2). cbn [or_stop]. by rewrite add_out_add_out.
Qed.

(** The commands [OpenStream] writes, on a connection at its first chunk size,
    with the stream number the server gave. *)
Definition open_writes (app key : bytes) (sid : Z) (bc bs bp : bytes) : Prop :=
  sendCommand 0 (str "connect") (float_of_Z 1) [connectObj app] newConn = Ok (add_out bc newConn) /\
  sendCommand 0 (str "createStream") (float_of_Z 2) [VNull] newConn = Ok (add_out bs newConn) /\
  sendCommand sid (str "publish") (S754_zero false) [VNull; VString key; VString (str "live")] newConn = Ok (add_out bp newConn).

(** Negotiation: a server that receives the three commands of [OpenStream]
    (connect with the application name, createStream, publish with the stream
    key, each cut into chunks) asks [allow] about exactly that application and
    key, and either returns the reader of stream 1 with them, having answered
    that publishing started, or reports the refusal; it reads nothing beyond
    the publish. *)
Theorem AcceptStreamFunc_serves_OpenStream count allow app key bc bs bp rest :
  len app < 2 ^ 16 -> len key < 2 ^ 16 -> open_writes app key 1 bc bs bp ->
  exists c,
    AcceptStreamFunc int64_oor count allow newConn (bc ++ bs ++ bp ++ rest) =
    (match (f ← allow; f app key) with
     | Some d => Denied d c
     | None => Accepted (mkReader 1 app key) c
     end, rest).
Proof.
  intros Ha Hk (H1 & H2 & H3). unfold AcceptStreamFunc.
  assert (exists f, length (bc ++ bs ++ bp ++ rest) = S (S f)) as [f ->].
  { apply sendCommand_inv in H1 as (? & _ & _ & _ & ?); [|command_bound|done]. rewrite length_app.
    exists (length bc - 2 + length (bs ++ bp ++ rest))%nat. lia. }
  edestruct (recv_command count allow (mkVars 0 []) _ _ _ _ newConn newConn bc (bs ++ bp ++ rest) (S (S f)) H1)
    as (pl1 & m1 & la1 & o1 & ->); [lia|by apply num_ok| |done|command_bound|done|done|done|].
  { constructor; [by apply connectObj_ok|constructor]. }
  rewrite accept_connect by done.
  edestruct (handleConnect_total (float_of_Z 1) (set_states m1 (acked la1 o1 newConn))) as [q1 ->]; [done|]. cbn [or_stop activeStreamID].
  edestruct (recv_command count allow (mkVars 0 app) _ _ _ _ newConn
    (set_writeChunkSize serverChunkSize (add_out q1 (set_states m1 (acked la1 o1 newConn)))) bs (bp ++ rest) (S f) H2)
    as (pl2 & m2 & la2 & o2 & ->); [lia|by apply num_ok| |done|command_bound|done|done|done|].
  { repeat constructor. }
  set (c2 := set_states m2 _). rewrite accept_createStream by done.
  change (nextStreamID c2) with 1.
  edestruct (sendCommand_total 0 (str "_result") (float_of_Z 2) [VNull; num 1] (set_nextStreamID (wrapu 32 (1 + 1)) c2)) as [q2 ->];
    [reflexivity|command_bound|done|]. cbn [or_stop RtmpStream.app].
  edestruct (recv_command count allow (mkVars 1 app) _ _ _ _ newConn
    (add_out q2 (set_nextStreamID (wrapu 32 (1 + 1)) c2)) bp rest f H3)
    as (pl3 & m3 & la3 & o3 & ->); [lia|done| |done|command_bound|done|done|done|].
  { repeat (constructor; [first [apply value_ok_null|apply value_ok_string; (lia || done)]|]). constructor. }
  rewrite accept_publish_case by done. cbn [fmap list_fmap norm].
  edestruct (accept_publish_total allow (mkVars 1 app) 1 pl3 key (set_states m3 (acked la3 o3 (add_out q2 (set_nextStreamID (wrapu 32 (1 + 1)) c2)))))
    as [q3 ->]; [done|done|done|]. cbn [RtmpStream.app].
  eexists. by destruct (f0 ← allow; f0 app key).
Qed.

(** The gate of a publish: whatever a peer sends, in any order, a stream is
    accepted only if [allow] approved its application and key, and a refusal by
    [allow] is reported as one, after the peer was sent the denial. *)
Theorem AcceptStreamFunc_gate count allow c s :
  match fst (AcceptStreamFunc int64_oor count allow c s) with
  | Accepted r _ => (f ← allow; f r.(r_app) r.(r_streamKey)) = None
  | Denied d c' => (exists app key, (f ← allow; f app key) = Some d) /\
      exists sid c0, sendCommand sid (str "onStatus") (S754_zero false)
        [VNull; status_object (str "NetStream.Publish.Denied") (str "publishing was refused") (str "error")] c0 = Ok c'
  | _ => True
  end.
Proof.
  unfold AcceptStreamFunc. generalize (S (length s)) as fuel. intros fuel. generalize (mkVars 0 []) as v.
  revert c s. induction fuel as [|fuel IH]; intros c s v; [done|]. cbn [accept_loop].
  destruct (readMessage (S (length s)) count c s) as [[[msg c1] s1]|e]; [|done].
  pose proof (accept_message_gate allow v msg c1) as Hg. destruct (accept_message int64_oor allow v msg c1); [apply IH|exact Hg|exact Hg|done].
Qed.

(** A connect command with no argument, which any peer can send, makes the
    server index an empty argument list: the goroutine panics, whatever [allow]
    says and whatever was negotiated before. *)
Theorem connect_without_arguments_panics count allow sid tx w c b rest :
  sendCommand sid (str "connect") tx [] w = Ok (add_out b w) ->
  0 <= sid < 2 ^ 32 -> float_ok tx -> 1 <= w.(writeChunkSize) -> c.(readChunkSize) = w.(writeChunkSize) -> 1 <= c.(writeChunkSize) ->
  AcceptStreamFunc int64_oor count allow c (b ++ rest) = (Stopped Panic, rest).
Proof.
  intros Hs Hsid Htx Hw Hc Hcw. unfold AcceptStreamFunc.
  edestruct (recv_command count allow (mkVars 0 []) _ _ _ _ w c b rest (length (b ++ rest)) Hs) as (pl & m & la & o & ->);
    [done|done|done|done|command_bound|done|done|done|]. done.
Qed.
End Negotiation.

(** ** Frames *)

(** What of a frame the wire can carry. *)
Definition frame_ok (fr : Frame) : Prop :=
  0 <= fr.(f_Timestamp) < 2 ^ 32 /\ len fr.(f_Data) < 2 ^ 24 /\
  (fr.(f_Type) = FrameTypeAudio \/ fr.(f_Type) = FrameTypeVideo \/ fr.(f_Type) = FrameTypeMetadata).

(** The message of a frame of each type. *)
Lemma frame_message fr sid :
  frame_ok fr -> 0 <= sid < 2 ^ 32 ->
  exists ty csid, 2 <= csid <= 65599 /\
    (if fr.(f_Type) =? FrameTypeAudio then Some (messageTypeAudio, csidAudio)
     else if fr.(f_Type) =? FrameTypeVideo then Some (messageTypeVideo, csidVideo)
     else if fr.(f_Type) =? FrameTypeMetadata then Some (messageTypeAMF0Data, csidCommand)
     else None) = Some (ty, csid) /\
    let m := mkMessage ty sid fr.(f_Timestamp) fr.(f_Data) in
    message_ok m /\ isControlMessage ty = false /\ frame_of m = Some fr.
Proof.
  destruct fr as [t ts d]. intros (Hts & Hd & Ht) Hsid. cbn [f_Type f_Timestamp f_Data] in *.
  destruct Ht as [-> | [-> | ->]]; eexists _, _; (split; [|split; [reflexivity|]]);
    unfold csidAudio, csidVideo, csidCommand, message_ok, byte_ok;
    cbn [typeID streamID timestamp payload]; unfold messageTypeAudio, messageTypeVideo, messageTypeAMF0Data;
    split_and?; try lia; reflexivity.
Qed.

(** Frames arrive as they were sent: an audio, video or metadata frame written
    on a stream is what [ReadFrame] returns next at a peer reading that stream
    with the writer's chunk size, with its type, timestamp and data, and nothing
    after it is consumed. *)
Theorem ReadFrame_WriteFrame w r fr wc c count rest fuel :
  frame_ok fr -> w.(w_streamID) = r.(r_streamID) -> 0 <= r.(r_streamID) < 2 ^ 32 ->
  1 <= wc.(writeChunkSize) -> c.(readChunkSize) = wc.(writeChunkSize) -> 1 <= c.(writeChunkSize) ->
  exists b c', WriteFrame w fr wc = Ok (add_out b wc) /\ ReadFrame (S fuel) count r c (b ++ rest) = Ok (fr, c', rest) /\
    c'.(readChunkSize) = c.(readChunkSize).
Proof.
  intros Hfr Hid Hsid Hw Hc Hcw. destruct (frame_message fr _ Hfr Hsid) as (ty & csid & Hcs & Hty & Hm & Hctl & Hf).
  set (m := mkMessage ty (r_streamID r) (f_Timestamp fr) (f_Data fr)) in *.
  destruct (message_bytes_total csid (writeChunkSize wc) m Hw) as [b Hb]; [destruct Hm as (_ & _ & _ & ?); lia|].
  apply message_bytes_length in Hb as Hl; [|done|destruct Hm as (_ & _ & _ & ?); lia].
  destruct (write_then_read csid m wc c count rest (S (length (b ++ rest))) Hcs Hm Hw Hc Hcw) as (b2 & la & o & st & Hwr & Hr).
  { rewrite length_app. lia. }
  unfold writeRawMessage in Hwr. rewrite Hb in Hwr. injection Hwr as Hwr. apply app_inv_head in Hwr as <-.
  exists b. eexists. split.
  - unfold WriteFrame. rewrite Hty. cbn [of_option mbind result_bind]. rewrite Hid. fold m.
    unfold writeRawMessage, lift_send. by rewrite Hb.
  - split; [|shelve]. cbn [ReadFrame]. rewrite Hr. cbn [mbind result_bind]. change (typeID m) with ty. rewrite Hctl.
    change (streamID m) with (r_streamID r). rewrite Z.eqb_refl. cbn [negb]. rewrite Hf. done.
    Unshelve. done.
Qed.

(** ** A negotiation and a frame *)

Definition ex_sent (m : result rtmp_error Conn) : bytes := match m with Ok c => c.(out) | Err _ => [] end.
Definition ex_app : bytes := str "live".
Definition ex_key : bytes := str "room/alice".
Definition ex_connect : bytes := ex_sent (sendCommand 0 (str "connect") (float_of_Z 1) [connectObj ex_app] newConn).
Definition ex_create : bytes := ex_sent (sendCommand 0 (str "createStream") (float_of_Z 2) [VNull] newConn).
Definition ex_publish : bytes :=
  ex_sent (sendCommand 1 (str "publish") (S754_zero false) [VNull; VString ex_key; VString (str "live")] newConn).
Definition ex_allow (app key : bytes) : option String.string :=
  if bool_decide (app = ex_app) then None else Some "unknown application"%string.

Lemma AcceptStreamFunc_serves_OpenStream_witness :
  exists c,
    AcceptStreamFunc (fun _ => 0) (fun _ => 0) (Some ex_allow) newConn (ex_connect ++ ex_create ++ ex_publish ++ [1; 2]) =
    (Accepted (mkReader 1 ex_app ex_key) c, [1; 2]).
Proof.
  destruct (AcceptStreamFunc_serves_OpenStream (fun _ => 0) (fun _ => 0) (Some ex_allow) ex_app ex_key ex_connect ex_create ex_publish [1; 2])
    as [c Hc]; [reflexivity|reflexivity|split_and!; vm_compute; reflexivity|].
  exists c. exact Hc.
Defined.

(** The client on what the server answers: both ends agree on stream 1. *)
Lemma OpenStream_example :
  match AcceptStreamFunc (fun _ => 0) (fun _ => 0) (Some ex_allow) newConn (ex_connect ++ ex_create ++ ex_publish) with
  | (Accepted _ c, _) =>
      match OpenStream (fun _ => 0) (fun _ => 0) (fun _ => 0) ex_app ex_key newConn c.(out) with
      | Ok (w, c', _) => w = mkWriter 1 ex_app ex_key /\ c'.(readChunkSize) = serverChunkSize
      | Err _ => False
      end
  | _ => False
  end.
Proof. vm_compute. split; reflexivity. Qed.

Definition ex_bare_connect : bytes := ex_sent (sendCommand 0 (str "connect") (float_of_Z 1) [] newConn).

Lemma connect_without_arguments_panics_witness :
  AcceptStreamFunc (fun _ => 0) (fun _ => 0) (Some ex_allow) newConn (ex_bare_connect ++ ex_create) = (Stopped Panic, ex_create).
Proof.
  apply (connect_without_arguments_panics (fun _ => 0) (fun _ => 0) (Some ex_allow) 0 (float_of_Z 1) newConn newConn ex_bare_connect ex_create).
  - vm_compute. reflexivity.
  - lia.
  - by apply num_ok.
  - cbn. lia.
  - reflexivity.
  - cbn. lia.
Defined.

Definition ex_frame : Frame := mkFrame FrameTypeVideo 16777300 (replicate 200 9).

Lemma ReadFrame_WriteFrame_witness :
  exists b c', WriteFrame (mkWriter 1 ex_app ex_key) ex_frame newConn = Ok (add_out b newConn) /\
    ReadFrame 1 (fun _ => 0) (mkReader 1 ex_app ex_key) newConn (b ++ [7]) = Ok (ex_frame, c', [7]) /\ c'.(readChunkSize) = 128.
Proof.
  apply (ReadFrame_WriteFrame (mkWriter 1 ex_app ex_key) (mkReader 1 ex_app ex_key) ex_frame newConn newConn (fun _ => 0) [7] 0).
  - unfold frame_ok, len. cbn. split_and!; first [lia | (right; left; reflexivity)].
  - reflexivity.
  - cbn. lia.
  - cbn. lia.
  - reflexivity.
  - cbn. lia.
Defined.
