(* ===== verification/RtmpHandshake.v ===== *)
(** * internal/rtmp/handshake.go: the handshake

    Each side is a function of what it reads, its clock and the random bytes it
    drew, and returns what it wrote. The server reads C0 and C1 before it writes
    anything, and C2 last; the client writes C2 last. *)
From S2P Require Import Prelude GoBytes Amf0.

#[local] Open Scope Z_scope.

Inductive hs_error := HsRead.

Definition version3 : Z := 3.

Record handshakeChunk1 := mkC1 { c1_time : Z; c1_rand : bytes }.
Record handshakeChunk2 := mkC2 { c2_received : Z; c2_readTime : Z; c2_echo : bytes }.

Definition chunk0_encode (v : Z) : bytes := [v].
Definition chunk0_decode (s : bytes) : option (Z * bytes) := '(b, s1) ← read_full 1 s; Some (of_be b, s1).

Definition chunk1_encode (c : handshakeChunk1) : bytes := be 4 c.(c1_time) ++ [0; 0; 0; 0] ++ c.(c1_rand).
Definition chunk1_decode (s : bytes) : option (handshakeChunk1 * bytes) :=
  '(b, s1) ← read_full 1536 s; Some (mkC1 (of_be (take 4 b)) (drop 8 b), s1).

Definition chunk2_encode (c : handshakeChunk2) : bytes := be 4 c.(c2_received) ++ be 4 c.(c2_readTime) ++ c.(c2_echo).
Definition chunk2_decode (s : bytes) : option (handshakeChunk2 * bytes) :=
  '(b, s1) ← read_full 1536 s; Some (mkC2 (of_be (take 4 b)) (of_be (take 4 (drop 4 b))) (drop 8 b), s1).

(** The server: what it writes, what it learned (C1 and C2), and what is left to
    read. *)
Definition serverHandshake (serverTime : Z) (rnd : bytes) (s : bytes) :
  result hs_error (bytes * (handshakeChunk1 * handshakeChunk2) * bytes) :=
  '(_, s1) ← of_option HsRead (chunk0_decode s);
  '(c1, s2) ← of_option HsRead (chunk1_decode s1);
  let wrote := chunk0_encode version3 ++ chunk1_encode (mkC1 serverTime rnd) ++
               chunk2_encode (mkC2 c1.(c1_time) serverTime c1.(c1_rand)) in
  '(c2, s3) ← of_option HsRead (chunk2_decode s2);
  Ok (wrote, (c1, c2), s3).

(** The client, whose clock stands at [clientTime] first and [readTime] when it
    answers. *)
Definition clientHandshake (clientTime readTime : Z) (rnd : bytes) (s : bytes) :
  result hs_error (bytes * (handshakeChunk1 * handshakeChunk2) * bytes) :=
  '(_, s1) ← of_option HsRead (chunk0_decode s);
  '(r1, s2) ← of_option HsRead (chunk1_decode s1);
  '(r2, s3) ← of_option HsRead (chunk2_decode s2);
  Ok (chunk0_encode version3 ++ chunk1_encode (mkC1 clientTime rnd) ++
      chunk2_encode (mkC2 r1.(c1_time) readTime r1.(c1_rand)), (r1, r2), s3).

(** ** Properties *)

Definition chunk1_ok (c : handshakeChunk1) : Prop := 0 <= c.(c1_time) < 2 ^ 32 /\ len c.(c1_rand) = 1528.
Definition chunk2_ok (c : handshakeChunk2) : Prop :=
  0 <= c.(c2_received) < 2 ^ 32 /\ 0 <= c.(c2_readTime) < 2 ^ 32 /\ len c.(c2_echo) = 1528.

Lemma chunk0_decode_app v rest : chunk0_decode (chunk0_encode v ++ rest) = Some (v, rest).
Proof. unfold chunk0_decode, chunk0_encode. rewrite (read_full_app 1 [v]) by done. cbn. do 2 f_equal. lia. Qed.

Lemma chunk1_decode_app c rest : chunk1_ok c -> chunk1_decode (chunk1_encode c ++ rest) = Some (c, rest).
Proof.
  intros [Ht Hr]. unfold chunk1_decode, chunk1_encode. unfold len in Hr.
  rewrite (read_full_app 1536) by (rewrite !length_app, length_be; cbn; lia). cbn [mbind option_bind].
  rewrite take_app_length' by (by rewrite length_be). rewrite of_be_be_id by (cbn; lia).
  change 8%nat with (4 + 4)%nat. rewrite <- drop_drop, drop_app_length' by (by rewrite length_be).
  change (drop 4 ([0; 0; 0; 0] ++ c1_rand c)) with (c1_rand c). by destruct c.
Qed.

Lemma chunk2_decode_app c rest : chunk2_ok c -> chunk2_decode (chunk2_encode c ++ rest) = Some (c, rest).
Proof.
  intros (Ht & Ht' & Hr). unfold chunk2_decode, chunk2_encode. unfold len in Hr.
  rewrite (read_full_app 1536) by (rewrite !length_app, !length_be; lia). cbn [mbind option_bind].
  rewrite take_app_length' by (by rewrite length_be). rewrite of_be_be_id by (cbn; lia).
  change 8%nat with (4 + 4)%nat. rewrite <- drop_drop, !(drop_app_length' _ _ 4) by (by rewrite length_be).
  rewrite take_app_length' by (by rewrite length_be). rewrite of_be_be_id by (cbn; lia).
  by destruct c.
Qed.

(** A client and a server talking to each other both complete the handshake:
    each reads exactly what the other wrote, learns its clock and random bytes,
    and gets its own echoed; what follows on either stream is left to the
    connection. *)
Theorem handshake_completes ct crt crnd st srnd crest srest :
  chunk1_ok (mkC1 ct crnd) -> chunk1_ok (mkC1 st srnd) -> 0 <= crt < 2 ^ 32 ->
  exists cout sout,
    serverHandshake st srnd (cout ++ crest) = Ok (sout, (mkC1 ct crnd, mkC2 st crt srnd), crest) /\
    clientHandshake ct crt crnd (sout ++ srest) = Ok (cout, (mkC1 st srnd, mkC2 ct st crnd), srest).
Proof.
  intros Hc Hs Ht.
  exists (chunk0_encode version3 ++ chunk1_encode (mkC1 ct crnd) ++ chunk2_encode (mkC2 st crt srnd)).
  exists (chunk0_encode version3 ++ chunk1_encode (mkC1 st srnd) ++ chunk2_encode (mkC2 ct st crnd)).
  destruct Hc as [Hc1 Hc2], Hs as [Hs1 Hs2]. cbn in Hc1, Hc2, Hs1, Hs2. split.
  - unfold serverHandshake. rewrite <- !app_assoc, chunk0_decode_app. cbn [of_option mbind result_bind].
    rewrite chunk1_decode_app by done. cbn [of_option mbind result_bind]. by rewrite chunk2_decode_app.
  - unfold clientHandshake. rewrite <- !app_assoc, chunk0_decode_app. cbn [of_option mbind result_bind].
    rewrite chunk1_decode_app by done. cbn [of_option mbind result_bind]. by rewrite chunk2_decode_app.
Qed.

(** The version a client offers is not looked at: any byte is answered with
    version 3. *)
Lemma version_not_checked v w st srnd s :
  serverHandshake st srnd (chunk0_encode v ++ s) = serverHandshake st srnd (chunk0_encode w ++ s).
Proof. unfold serverHandshake. by rewrite !chunk0_decode_app. Qed.
