(* ===== verification/Drops.v ===== *)
(** * Drops: telling a subscriber which groups it will not receive

    The relay keeps the SUBSCRIBE_DROP notifications of a track in a small ring
    ([dropDistributor], src/internal/relay/drop_distributor.go) and each
    subscriber's egress goroutine reads it, adds the groups it skipped itself,
    and reports every group at most once ([dropReporter],
    src/internal/relay/drop_reporter.go).

    Module [Spans] models the sorted list of handled spans: the binary search,
    the difference, and the insertion that merges. Module [Ring] models the
    distributor and shows that it refines the list of all drops ever recorded.
    The reporter follows, as operations on its record; [wstep] interleaves them
    with the ingest goroutine's recordings.

    A group sequence is a uint64, kept as a [Z]; [end + 1] wraps as in Go. The
    results assume sequences below 2^64 - 1: MoQ carries them in 62 bits. *)
From S2P Require Import Prelude.
From stdpp Require Import sorting.
From Stdlib Require Import Sorted.

Open Scope Z_scope.

(** groupSpan: an inclusive range of group sequences. *)
Record groupSpan := mkSpan { start : Z; end_ : Z }.

(** moqt.SubscribeDrop. *)
Record SubscribeDrop := mkDrop { StartGroup : Z; EndGroup : Z; ErrorCode : Z }.

#[export] Instance groupSpan_eq_dec : EqDecision groupSpan.
Proof. solve_decision. Defined.
#[export] Instance SubscribeDrop_eq_dec : EqDecision SubscribeDrop.
Proof. solve_decision. Defined.

Definition maxHandledSpans : nat := 64.
Definition dropRingSize : Z := 64.

(** [slices.SortFunc] by start. Its order of equal elements is not specified:
    any function that sorts is admitted. *)
Definition start_le (a b : groupSpan) : Prop := start a <= start b.

Class SortsSpans (sort : list groupSpan -> list groupSpan) : Prop := {
  sort_perm l : sort l ≡ₚ l;
  sort_sorted l : StronglySorted start_le (sort l)
}.

Module Spans.

(** *** The operations *)

(** The comparison isHandled searches with. *)
Definition span_cmp (s : groupSpan) (seq : Z) : Z :=
  if s.(end_) <? seq then -1 else if seq <? s.(start) then 1 else 0.

(** [slices.BinarySearchFunc]: the loop [for i < j], then the test at [i]. *)
Fixpoint search_loop (fuel : nat) (h : list groupSpan) (seq : Z) (i j : nat) : nat :=
  match fuel with
  | O => i
  | S fuel =>
      if (i <? j)%nat then
        let m := ((i + j) / 2)%nat in
        match h !! m with
        | Some s => if span_cmp s seq <? 0 then search_loop fuel h seq (S m) j else search_loop fuel h seq i m
        | None => i
        end
      else i
  end.

Definition isHandled (h : list groupSpan) (seq : Z) : bool :=
  match h !! search_loop (length h) h seq 0 (length h) with
  | Some s => span_cmp s seq =? 0
  | None => false
  end.

(** unhandled: the loop over the handled spans, [next] the first group not yet
    accounted for. *)
Fixpoint unhandled_from (h : list groupSpan) (next last : Z) : list groupSpan :=
  match h with
  | [] => [mkSpan next last]
  | s :: t =>
      if s.(end_) <? next then unhandled_from t next last
      else if last <? s.(start) then [mkSpan next last]
      else
        let out := if next <? s.(start) then [mkSpan next (s.(start) - 1)] else [] in
        if last <=? s.(end_) then out
        else out ++ unhandled_from t (wrapu 64 (s.(end_) + 1)) last
  end.

Definition unhandled (h : list groupSpan) (span : groupSpan) : list groupSpan :=
  unhandled_from h span.(start) span.(end_).

(** [spans[n-1].end = max(spans[n-1].end, e)]. *)
Fixpoint extend_last (h : list groupSpan) (e : Z) : list groupSpan :=
  match h with
  | [] => []
  | [s] => [mkSpan s.(start) (Z.max s.(end_) e)]
  | s :: t => s :: extend_last t e
  end.

(** The body of mergeSpans' loop. *)
Definition merge_step (out : list groupSpan) (s : groupSpan) : list groupSpan :=
  match last out with
  | Some l => if s.(start) <=? wrapu 64 (l.(end_) + 1) then extend_last out s.(end_) else out ++ [s]
  | None => out ++ [s]
  end.

Definition mergeSpans (sort : list groupSpan -> list groupSpan) (spans : list groupSpan) : list groupSpan :=
  foldl merge_step [] (sort spans).

(** add: the append, the extension of the newest span, or the merge; then the
    two oldest spans are joined when there are too many. *)
Definition insertSpan (sort : list groupSpan -> list groupSpan) (h : list groupSpan) (span : groupSpan) : list groupSpan :=
  match last h with
  | None => h ++ [span]
  | Some l =>
      if wrapu 64 (l.(end_) + 1) <? span.(start) then h ++ [span]
      else if l.(start) <=? span.(start) then extend_last h span.(end_)
      else mergeSpans sort (h ++ [span])
  end.

Definition capSpans (h : list groupSpan) : list groupSpan :=
  if (maxHandledSpans <? length h)%nat then
    match h with
    | a :: b :: t => mkSpan a.(start) b.(end_) :: t
    | _ => h
    end
  else h.

Definition add (sort : list groupSpan -> list groupSpan) (h : list groupSpan) (span : groupSpan) : list groupSpan :=
  capSpans (insertSpan sort h span).

(** *** Well-formed lists *)

(** Sequences stay below the largest uint64. *)
Definition seq_ok (g : Z) : Prop := 0 <= g < 2 ^ 64 - 1.
Definition span_ok (s : groupSpan) : Prop := seq_ok s.(start) /\ seq_ok s.(end_) /\ s.(start) <= s.(end_).

(** Sorted from [lo] on, with neither overlapping nor adjacent spans. *)
Fixpoint spans_from (lo : Z) (h : list groupSpan) : Prop :=
  match h with
  | [] => True
  | s :: t => lo <= s.(start) /\ span_ok s /\ spans_from (s.(end_) + 2) t
  end.

Definition spans_ok (h : list groupSpan) : Prop := spans_from 0 h.

Definition covered (h : list groupSpan) (g : Z) : Prop :=
  exists s, s ∈ h /\ s.(start) <= g <= s.(end_).

(** *** Lemmas *)

Lemma wrap_next g : seq_ok g -> wrapu 64 (g + 1) = g + 1.
Proof. unfold seq_ok. intros. apply wrapu_id. unfold in_u. lia. Qed.

Lemma covered_nil g : ~ covered [] g.
Proof. by intros (s & ?%not_elem_of_nil & _). Qed.

Lemma covered_cons s h g : covered (s :: h) g <-> s.(start) <= g <= s.(end_) \/ covered h g.
Proof.
  unfold covered. setoid_rewrite elem_of_cons. naive_solver.
Qed.

Lemma covered_app h h' g : covered (h ++ h') g <-> covered h g \/ covered h' g.
Proof. unfold covered. setoid_rewrite elem_of_app. naive_solver. Qed.

Lemma covered_single s g : covered [s] g <-> s.(start) <= g <= s.(end_).
Proof. rewrite covered_cons. pose proof (covered_nil g). tauto. Qed.

#[export] Instance covered_perm : Proper ((≡ₚ) ==> eq ==> iff) covered.
Proof.
  intros h h' Hp g g' ->. unfold covered. split; intros (s & Hs & Hg); exists s; split; auto;
    [rewrite <- Hp | rewrite Hp]; done.
Qed.

Lemma spans_from_weaken lo lo' h : lo' <= lo -> spans_from lo h -> spans_from lo' h.
Proof. destruct h; cbn; [done|]. intros ? (? & ? & ?). split; [lia|]. by split. Qed.

Lemma spans_from_low lo h g : spans_from lo h -> covered h g -> lo <= g.
Proof.
  revert lo. induction h as [|s t IH]; cbn; intros lo; [by intros _ ?%covered_nil|].
  intros (? & (_ & _ & ?) & Ht). rewrite covered_cons. intros [?|Hc]; [lia|].
  apply (IH _ Ht) in Hc. lia.
Qed.

(** The bound that a span following [h] has to respect. *)
Definition after (lo : Z) (h : list groupSpan) : Z :=
  match last h with Some l => l.(end_) + 2 | None => lo end.

Lemma after_cons lo s h : after lo (s :: h) = after (s.(end_) + 2) h.
Proof. unfold after. destruct h as [|a t]; [done|]. rewrite last_cons_cons.
  destruct (last (a :: t)) eqn:E; [done|by apply last_None in E]. Qed.

Lemma spans_from_app lo h h' : spans_from lo (h ++ h') <-> spans_from lo h /\ spans_from (after lo h) h'.
Proof.
  revert lo. induction h as [|s t IH]; intros lo; cbn; [unfold after; cbn; tauto|].
  rewrite IH, after_cons. tauto.
Qed.

Lemma spans_from_last lo h s :
  spans_from lo (h ++ [s]) <-> spans_from lo h /\ after lo h <= s.(start) /\ span_ok s.
Proof. rewrite spans_from_app. cbn. tauto. Qed.

Lemma spans_from_all lo h : spans_from lo h -> Forall span_ok h.
Proof.
  revert lo. induction h as [|s t IH]; intros lo; cbn; [constructor|].
  intros (_ & ? & ?). constructor; eauto.
Qed.

Lemma extend_last_snoc h s e : extend_last (h ++ [s]) e = h ++ [mkSpan s.(start) (Z.max s.(end_) e)].
Proof.
  induction h as [|x t IH]; cbn; [done|]. rewrite IH. by destruct t.
Qed.

(** Case analysis on the newest span. *)
Lemma last_cases (h : list groupSpan) : (h = [] /\ last h = None) \/ exists h' l, h = h' ++ [l] /\ last h = Some l.
Proof.
  destruct h as [|l h' _] using rev_ind; [by left|]. right. exists h', l. by rewrite last_snoc.
Qed.

(** Extending or appending a span that starts no earlier than the newest. *)
Lemma merge_step_ok lo h s :
  spans_from lo h -> span_ok s -> lo <= s.(start) ->
  (forall l, last h = Some l -> l.(start) <= s.(start)) ->
  spans_from lo (merge_step h s) /\
  (forall g, covered (merge_step h s) g <-> covered h g \/ s.(start) <= g <= s.(end_)) /\
  (length (merge_step h s) <= S (length h))%nat /\
  (exists l, last (merge_step h s) = Some l /\ l.(start) <= s.(start)).
Proof.
  intros Hh Hs Hlo Hl. unfold merge_step.
  destruct (last_cases h) as [[-> ->]|(h' & l & -> & Hlast)]; [|rewrite Hlast].
  - split; [by apply spans_from_last|]. split; [intros g; rewrite covered_app, covered_single; tauto|].
    split; [done|]. exists s. by split.
  - apply spans_from_last in Hh as (Hh' & Hal & Hol). specialize (Hl l Hlast).
    pose proof Hol as (? & ? & ?). destruct Hs as (? & ? & ?). rewrite wrap_next by done.
    destruct (Z.leb_spec s.(start) (l.(end_) + 1)) as [Hle|Hgt].
    + rewrite extend_last_snoc. split.
      { apply spans_from_last. split; [done|]. split; [done|]. unfold span_ok, seq_ok in *. cbn. lia. }
      split.
      { intros g. rewrite !covered_app, !covered_single. cbn. split; [|intros [[?|?]|?]; [by left|right; lia|right; lia]].
        intros [?|?]; [by do 2 left|].
        destruct (decide (g <= l.(end_))); [left; right; lia|right; lia]. }
      rewrite !length_app. cbn. split; [lia|]. exists (mkSpan l.(start) (Z.max l.(end_) s.(end_))).
      by rewrite last_snoc.
    + split.
      { rewrite <- (app_assoc h'). apply spans_from_app. split; [done|].
        cbn. repeat split; first [done | lia | unfold seq_ok in *; lia]. }
      split; [intros g; rewrite covered_app, covered_single; tauto|].
      rewrite !length_app. cbn. split; [lia|]. exists s. by rewrite last_snoc.
Qed.

(** The merge loop on sorted spans: a well-formed list of the same groups. *)
Lemma merge_ok l out :
  spans_ok out -> Forall span_ok l -> StronglySorted start_le l ->
  (forall a s, last out = Some a -> s ∈ l -> a.(start) <= s.(start)) ->
  spans_ok (foldl merge_step out l) /\
  (forall g, covered (foldl merge_step out l) g <-> covered out g \/ covered l g) /\
  (length (foldl merge_step out l) <= length out + length l)%nat.
Proof.
  revert out. induction l as [|s t IH]; intros out Hout Hl Hs Hlast.
  - cbn. split; [done|]. split; [intros g; pose proof (covered_nil g); tauto|lia].
  - apply Forall_cons in Hl as [Hs1 Hl]. apply StronglySorted_inv in Hs as [Hs Hf].
    destruct (merge_step_ok 0 out s) as (Hok & Hc & Hlen & (a & Ha & Has)); [done|done|apply Hs1|..].
    { intros a Ha. apply (Hlast a); [done|]. apply elem_of_cons. by left. }
    destruct (IH (merge_step out s)) as (Hok' & Hc' & Hlen'); [done|done|done|..].
    { intros a' x Ha' Hx. rewrite Ha in Ha'. injection Ha' as <-.
      rewrite List.Forall_forall in Hf. specialize (Hf x). rewrite <- list_elem_of_In in Hf.
      unfold start_le in Hf. specialize (Hf Hx). lia. }
    cbn [foldl]. split; [done|]. split; [|cbn; lia].
    intros g. rewrite Hc', Hc, covered_cons. tauto.
Qed.

(** Exhaustively: insertion adds the span's groups and no other. *)
Lemma insertSpan_ok sort `{!SortsSpans sort} h s :
  spans_ok h -> span_ok s ->
  spans_ok (insertSpan sort h s) /\
  (forall g, covered (insertSpan sort h s) g <-> covered h g \/ s.(start) <= g <= s.(end_)) /\
  (length (insertSpan sort h s) <= S (length h))%nat.
Proof.
  intros Hh Hs.
  assert (Hm : (forall l, last h = Some l -> l.(start) <= s.(start)) ->
    spans_ok (merge_step h s) /\
    (forall g, covered (merge_step h s) g <-> covered h g \/ s.(start) <= g <= s.(end_)) /\
    (length (merge_step h s) <= S (length h))%nat).
  { intros Hl. destruct (merge_step_ok 0 h s) as (? & ? & ? & _); [done|done|apply Hs|done|done]. }
  unfold insertSpan. destruct (last_cases h) as [[-> ->]|(h' & l & -> & Hlast)]; [apply Hm; done|].
  rewrite Hlast. unfold merge_step in Hm. rewrite Hlast in Hm.
  pose proof Hh as (_ & Hal & Hol)%spans_from_last.
  assert (Hw : wrapu 64 (l.(end_) + 1) = l.(end_) + 1) by (apply wrap_next, Hol).
  rewrite Hw in *. pose proof Hol as (_ & _ & ?).
  destruct (Z.ltb_spec (l.(end_) + 1) s.(start)) as [Hlt|Hge].
  - destruct (Z.leb_spec s.(start) (l.(end_) + 1)); [lia|].
    apply Hm. intros ? [= <-]. lia.
  - destruct (Z.leb_spec s.(start) (l.(end_) + 1)); [|lia].
    destruct (Z.leb_spec l.(start) s.(start)).
    + apply Hm. by intros ? [= <-].
    + unfold mergeSpans. destruct (merge_ok (sort ((h' ++ [l]) ++ [s])) []) as (Hok & Hc & Hlen); [done| | |done|].
      * rewrite (sort_perm (sort := sort)). apply Forall_app. split; [by eapply spans_from_all|by apply Forall_singleton].
      * apply sort_sorted.
      * split; [done|]. split.
        -- intros g. rewrite Hc, (sort_perm (sort := sort)), covered_app, covered_single. pose proof (covered_nil g). tauto.
        -- rewrite (Permutation_length (sort_perm (sort := sort) _)) in Hlen. rewrite !length_app in *. cbn in *. lia.
Qed.

(** The cap only adds groups, and keeps the list well-formed and short. *)
Lemma capSpans_ok h :
  spans_ok h -> (length h <= S maxHandledSpans)%nat ->
  spans_ok (capSpans h) /\ (length (capSpans h) <= maxHandledSpans)%nat /\
  (forall g, covered h g -> covered (capSpans h) g) /\
  ((length h <= maxHandledSpans)%nat -> capSpans h = h).
Proof.
  intros Hh Hlen. unfold capSpans. destruct (Nat.ltb_spec maxHandledSpans (length h)) as [Hlt|Hge]; [|by auto].
  unfold maxHandledSpans in *. destruct h as [|a [|b t]]; cbn in Hlt, Hlen; [lia..|].
  cbn in Hh. destruct Hh as (? & (? & ? & ?) & ? & (? & ? & ?) & Ht).
  split; [cbn; split; [lia|]; split; [unfold span_ok, seq_ok in *; cbn; lia|done]|].
  split; [cbn; lia|]. split; [|intros Hc; cbn in Hc; lia].
  intros g. rewrite !covered_cons. cbn. intros [?|[?|?]]; [left; lia|left; lia|by right].
Qed.

Lemma add_ok sort `{!SortsSpans sort} h s :
  spans_ok h -> (length h <= maxHandledSpans)%nat -> span_ok s ->
  spans_ok (add sort h s) /\ (length (add sort h s) <= maxHandledSpans)%nat /\
  (forall g, covered h g \/ s.(start) <= g <= s.(end_) -> covered (add sort h s) g) /\
  ((length h < maxHandledSpans)%nat -> forall g, covered (add sort h s) g <-> covered h g \/ s.(start) <= g <= s.(end_)).
Proof.
  intros Hh Hlen Hs. destruct (insertSpan_ok sort h s Hh Hs) as (Hi & Hc & Hl).
  destruct (capSpans_ok (insertSpan sort h s) Hi) as (Hok & Hcl & Hm & Hid); [lia|].
  unfold add. split; [done|]. split; [done|]. split.
  - intros g Hg. apply Hm, Hc, Hg.
  - intros Hlt g. rewrite Hid by lia. apply Hc.
Qed.

(** A later span lies wholly above an earlier one. *)
Lemma spans_from_lookup lo h i j a b :
  spans_from lo h -> (i < j)%nat -> h !! i = Some a -> h !! j = Some b -> a.(end_) + 1 < b.(start).
Proof.
  revert lo i j. induction h as [|s t IH]; intros lo i j; [by rewrite !lookup_nil|].
  destruct i as [|i], j as [|j]; cbn; intros (_ & _ & Ht) Hij; [lia| |lia|].
  - intros [= <-] Hb. apply (spans_from_low _ _ b.(start)) in Ht; [lia|].
    exists b. split; [by eapply list_elem_of_lookup_2|]. pose proof (spans_from_all _ _ Ht) as Hall.
    eapply Forall_lookup_1 in Hall; [|exact Hb]. destruct Hall as (_ & _ & ?). lia.
  - intros. eapply (IH _ i j); eauto. lia.
Qed.

Lemma span_cmp_neg s seq : (span_cmp s seq <? 0) = true <-> s.(end_) < seq.
Proof. unfold span_cmp. repeat case_match; bool_prop; split; intros; bool_prop; lia. Qed.

Lemma span_cmp_zero s seq : (span_cmp s seq =? 0) = true <-> s.(start) <= seq <= s.(end_).
Proof. unfold span_cmp. repeat case_match; bool_prop; split; intros; bool_prop; lia. Qed.

(** The search returns the index of the first span that does not end before
    [seq]; the fuel, the length of the list, is enough. *)
Lemma search_loop_spec fuel h seq i j :
  spans_ok h -> (i <= j <= length h)%nat -> (j - i <= fuel)%nat ->
  (forall k s, (k < i)%nat -> h !! k = Some s -> s.(end_) < seq) ->
  (forall k s, (j <= k)%nat -> h !! k = Some s -> seq <= s.(end_)) ->
  (forall k s, (k < search_loop fuel h seq i j)%nat -> h !! k = Some s -> s.(end_) < seq) /\
  (forall k s, (search_loop fuel h seq i j <= k)%nat -> h !! k = Some s -> seq <= s.(end_)).
Proof.
  intros Hok. revert i j. induction fuel as [|fuel IH]; intros i j Hij Hf Hlo Hhi; cbn [search_loop].
  { split; [done|]. intros k s Hk. apply Hhi. lia. }
  destruct (Nat.ltb_spec i j) as [Hlt|Hge]; [|split; [done|]; intros k s Hk; apply Hhi; lia].
  assert (Hm : (i <= (i + j) / 2 < j)%nat).
  { split; [apply Nat.div_le_lower_bound; lia|apply Nat.Div0.div_lt_upper_bound; lia]. }
  destruct (h !! ((i + j) / 2)%nat) as [s|] eqn:Hs; [|apply lookup_ge_None in Hs; lia].
  destruct (span_cmp s seq <? 0) eqn:Hc.
  - apply span_cmp_neg in Hc. apply IH; [lia|lia| |done].
    intros k s' Hk Hs'. destruct (decide (k = ((i + j) / 2)%nat)) as [->|].
    { rewrite Hs in Hs'. by injection Hs' as <-. }
    eapply (spans_from_lookup 0 h k ((i + j) / 2)) in Hs as Hgap; [|done|lia|exact Hs'].
    assert (span_ok s) as (_ & _ & ?) by (eapply Forall_lookup_1; [by apply (spans_from_all 0)|exact Hs]). lia.
  - assert (~ s.(end_) < seq) as Hn by (rewrite <- span_cmp_neg; congruence). apply IH; [lia|lia|done|].
    intros k s' Hk Hs'. destruct (decide (k = ((i + j) / 2)%nat)) as [->|].
    { rewrite Hs in Hs'. injection Hs' as <-. lia. }
    eapply (spans_from_lookup 0 h ((i + j) / 2) k) in Hs as Hgap; [|done|lia|exact Hs'].
    assert (span_ok s') as (_ & _ & ?) by (eapply Forall_lookup_1; [by apply (spans_from_all 0)|exact Hs']). lia.
Qed.

(** The binary search decides membership. *)
Lemma isHandled_covered h seq : spans_ok h -> isHandled h seq = true <-> covered h seq.
Proof.
  intros Hok. unfold isHandled. set (p := search_loop _ _ _ _ _).
  destruct (search_loop_spec (length h) h seq 0 (length h)) as [Hlo Hhi]; [done|lia|lia|lia| |].
  { intros k s Hk Hs. apply lookup_lt_Some in Hs. lia. }
  fold p in Hlo, Hhi. split.
  - destruct (h !! p) as [s|] eqn:Hs; [|done]. rewrite span_cmp_zero. exists s.
    split; [by eapply list_elem_of_lookup_2|done].
  - intros (s & Hs & Hin). apply list_elem_of_lookup_1 in Hs as [k Hk].
    destruct (decide (k = p)) as [->|Hne]; [rewrite Hk; by apply span_cmp_zero|].
    destruct (decide (k < p)%nat) as [Hlt|]; [specialize (Hlo _ _ Hlt Hk); lia|].
    destruct (h !! p) as [s'|] eqn:Hs'; [|apply lookup_ge_None in Hs'; apply lookup_lt_Some in Hk; lia].
    pose proof (spans_from_lookup 0 h p k s' s Hok ltac:(lia) Hs' Hk).
    specialize (Hhi p s' ltac:(lia) Hs'). lia.
Qed.

#[export] Instance covered_dec h g : Decision (covered h g).
Proof.
  refine (cast_if (decide (Exists (fun s => s.(start) <= g <= s.(end_)) h))); unfold covered.
  - abstract (by rewrite <- Exists_exists).
  - abstract (by rewrite <- Exists_exists).
Defined.

(** unhandled is the set difference, as a well-formed list of spans. *)
Lemma unhandled_from_ok lo h next last :
  spans_from lo h -> seq_ok next -> seq_ok last -> next <= last ->
  spans_from next (unhandled_from h next last) /\
  forall g, covered (unhandled_from h next last) g <-> next <= g <= last /\ ~ covered h g.
Proof.
  revert lo next. induction h as [|s t IH]; intros lo next Hh Hn Hl Hle.
  { cbn [unhandled_from]. split; [cbn; unfold span_ok, seq_ok in *; cbn; lia|].
    intros g. rewrite covered_single. pose proof (covered_nil g). cbn. tauto. }
  cbn [spans_from] in Hh. destruct Hh as (Hlo & (Hs1 & Hs2 & Hs3) & Ht).
  assert (Hlow : forall g, covered t g -> s.(end_) + 2 <= g) by (intros g; by apply spans_from_low). cbn [unhandled_from].
  destruct (Z.ltb_spec s.(end_) next) as [Hb|Hb].
  { destruct (IH _ next Ht) as [Hw Hc]; [done..|]. split; [done|].
    intros g. rewrite Hc, covered_cons. split; [intros []; split; [done|]; intros [?|?]; [lia|done]|naive_solver]. }
  destruct (Z.ltb_spec last s.(start)) as [Ha|Ha].
  { split; [cbn; unfold span_ok, seq_ok in *; cbn; lia|]. intros g. rewrite covered_single, covered_cons. cbn.
    split; [|tauto]. intros ?. split; [done|]. intros [?|Hc]; [lia|]. apply Hlow in Hc; lia. }
  assert (Hout : forall out, out = (if next <? s.(start) then [mkSpan next (s.(start) - 1)] else []) ->
    spans_from next out /\ (forall g, covered out g <-> next <= g < s.(start)) /\ after next out <= s.(end_) + 1).
  { intros out ->. destruct (Z.ltb_spec next s.(start)).
    - split; [cbn; unfold span_ok, seq_ok in *; cbn; lia|]. split; [|unfold after; cbn; lia].
      intros g. rewrite covered_single. cbn. lia.
    - split; [done|]. split; [|unfold after; cbn; lia]. intros g. pose proof (covered_nil g). split; [done|lia]. }
  destruct (Hout _ eq_refl) as (Hw1 & Hc1 & Ha1). clear Hout.
  destruct (Z.leb_spec last s.(end_)) as [Hd|Hd].
  { split; [done|]. intros g. rewrite Hc1, covered_cons. split; [|intros [? ?]; lia || (assert (~ s.(start) <= g <= s.(end_)) by tauto; lia)].
    intros ?. split; [lia|]. intros [?|Hc]; [lia|]. apply Hlow in Hc; lia. }
  rewrite wrap_next by done.
  destruct (IH _ (s.(end_) + 1) Ht) as [Hw Hc]; [unfold seq_ok in *; lia|done|lia|].
  split; [apply spans_from_app; split; [done|]; by eapply spans_from_weaken|].
  intros g. rewrite covered_app, Hc1, Hc, covered_cons. split.
  - intros [?|[? ?]]; (split; [lia|]); intros [?|Hcc]; first [lia | done | apply Hlow in Hcc; lia].
  - intros [? Hno]. assert (~ s.(start) <= g <= s.(end_)) by tauto.
    destruct (decide (g < s.(start))); [left; lia|right; split; [lia|tauto]].
Qed.

Lemma unhandled_ok h s :
  spans_ok h -> span_ok s ->
  spans_from s.(start) (unhandled h s) /\
  forall g, covered (unhandled h s) g <-> s.(start) <= g <= s.(end_) /\ ~ covered h g.
Proof. intros Hh (? & ? & ?). by apply (unhandled_from_ok 0). Qed.

End Spans.

Module Ring.

(** dropDistributor: [pos] counts every drop ever recorded. *)
Record dropDistributor := mkDist { drops : list SubscribeDrop; pos : Z }.

Definition noDrop : SubscribeDrop := mkDrop 0 0 0.

Definition newDropDistributor (size : Z) : dropDistributor :=
  mkDist (replicate (Z.to_nat (if size <=? 0 then dropRingSize else size)) noDrop) 0.

Definition size (d : dropDistributor) : Z := Z.of_nat (length d.(drops)).

Definition record (drop : SubscribeDrop) (d : dropDistributor) : dropDistributor :=
  let p := wrapu 64 (d.(pos) + 1) in
  mkDist (<[Z.to_nat (wrapu 64 (p - 1) mod size d) := drop]> d.(drops)) p.

Definition head (d : dropDistributor) : Z := d.(pos).

Definition oldest (d : dropDistributor) : Z :=
  if size d <? head d then head d - size d else 0.

(** The loop [for pos := start; pos <= head; pos++]. An index out of range
    would panic; the loop is only entered with a non-empty ring. *)
Fixpoint read_loop (d : dropDistributor) (p : Z) (n : nat) : list SubscribeDrop :=
  match n with
  | O => []
  | S n => default noDrop (d.(drops) !! Z.to_nat ((p - 1) mod size d)) :: read_loop d (p + 1) n
  end.

(** since with [buf[:0]]: the drops, the next position, how many were lost. *)
Definition since (lastPos : Z) (d : dropDistributor) : list SubscribeDrop * Z * Z :=
  let hd := head d in
  if hd <=? lastPos then ([], lastPos, 0)
  else
    let start := lastPos + 1 in
    let '(start, lost) :=
      if (size d <? hd) && (start <=? hd - size d) then
        let oldest := hd - size d + 1 in (oldest, oldest - start)
      else (start, 0) in
    (read_loop d start (Z.to_nat (hd - start + 1)), hd, lost).

(** *** The list of all drops *)

(** The ring holds the last [size] entries of [hist]. *)
Record holds (d : dropDistributor) (hist : list SubscribeDrop) : Prop := {
  h_pos : d.(pos) = Z.of_nat (length hist);
  h_size : 0 < size d < 2 ^ 64;
  h_entry i x : hist !! i = Some x -> Z.of_nat (length hist) - size d <= Z.of_nat i ->
    d.(drops) !! Z.to_nat (Z.of_nat i mod size d) = Some x
}.

Lemma newDropDistributor_holds n : n < 2 ^ 64 -> holds (newDropDistributor n) [].
Proof.
  intros Hn. split; [done| |done]. unfold size, newDropDistributor. cbn [drops]. rewrite length_replicate.
  case_match; bool_prop; unfold dropRingSize; lia.
Qed.

Lemma record_size x d : size (record x d) = size d.
Proof. unfold size, record. cbn [drops]. by rewrite length_insert. Qed.

Lemma mod_lt_nat a d : 0 < size d -> (Z.to_nat (a mod size d) < length d.(drops))%nat.
Proof. intros H. pose proof (Z.mod_pos_bound a (size d) H). unfold size in *. lia. Qed.

(** Two entries of the window never share a slot. *)
Lemma slots_apart a b n : 0 < n -> a - n < b < a -> a mod n <> b mod n.
Proof.
  intros Hn Hb Heq. assert (H : (a - b) mod n = 0) by (rewrite Zminus_mod, Heq, Z.sub_diag; apply Z.mod_0_l; lia).
  rewrite Z.mod_small in H; lia.
Qed.

Lemma record_holds x d hist :
  holds d hist -> Z.of_nat (length hist) + 1 < 2 ^ 64 -> holds (record x d) (hist ++ [x]).
Proof.
  intros [Hp Hs He] Hlt. pose proof (mod_lt_nat (Z.of_nat (length hist)) d ltac:(lia)) as Hm.
  assert (Hi : record x d = mkDist (<[Z.to_nat (Z.of_nat (length hist) mod size d) := x]> d.(drops)) (Z.of_nat (length hist) + 1)).
  { unfold record. cbv zeta. rewrite Hp, (wrapu_id 64 (_ + 1)) by (unfold in_u; lia).
    rewrite wrapu_id by (unfold in_u; lia). do 2 f_equal. f_equal. f_equal. lia. }
  split; [rewrite Hi, length_app; cbn; lia|by rewrite record_size|].
  rewrite record_size. intros i y Hy Hw. rewrite Hi. cbn [drops]. rewrite length_app in Hw. cbn in Hw.
  apply lookup_snoc_Some in Hy as [[Hil Hy]|[-> <-]].
  - rewrite list_lookup_insert_ne; [apply He; [done|lia]|].
    intros Heq%Z2Nat.inj; [|apply Z.mod_pos_bound; lia..]. revert Heq. apply slots_apart; lia.
  - apply list_lookup_insert_eq, Hm.
Qed.

Lemma read_loop_spec d hist k n :
  holds d hist -> Z.of_nat (length hist) - size d <= Z.of_nat k -> (k + n <= length hist)%nat ->
  read_loop d (Z.of_nat k + 1) n = take n (List.skipn k hist).
Proof.
  intros Hd. revert k. induction n as [|n IH]; intros k Hk Hn; [done|].
  destruct (lookup_lt_is_Some_2 hist k) as [x Hx]; [lia|].
  cbn [read_loop]. replace (Z.of_nat k + 1 - 1) with (Z.of_nat k) by lia.
  rewrite (h_entry _ _ Hd _ _ Hx Hk). cbn [default].
  replace (Z.of_nat k + 1 + 1) with (Z.of_nat (S k) + 1) by lia. rewrite IH by lia.
  change (List.skipn k hist) with (drop k hist). rewrite (drop_S hist x k Hx). done.
Qed.

(** Reading from [lastPos] returns what was recorded since and is still held,
    in order, and counts the rest as lost. *)
Lemma since_spec d hist lastPos :
  holds d hist -> (lastPos <= length hist)%nat ->
  since (Z.of_nat lastPos) d =
    (drop (Nat.max lastPos (length hist - length d.(drops))) hist, Z.of_nat (length hist),
     Z.of_nat (length hist - length d.(drops) - lastPos)).
Proof.
  intros Hd Hl. pose proof (h_size _ _ Hd) as Hs. unfold since, head. cbv zeta. rewrite (h_pos _ _ Hd).
  unfold size in *.
  destruct (Z.leb_spec (Z.of_nat (length hist)) (Z.of_nat lastPos)).
  { rewrite drop_ge by lia. repeat f_equal; lia. }
  destruct ((Z.of_nat (length (drops d)) <? Z.of_nat (length hist)) &&
            (Z.of_nat lastPos + 1 <=? Z.of_nat (length hist) - Z.of_nat (length (drops d)))) eqn:Hc.
  - bool_prop.
    replace (Z.of_nat (length hist) - Z.of_nat (length (drops d)) + 1)
      with (Z.of_nat (length hist - length (drops d)) + 1) by lia.
    rewrite (read_loop_spec d hist); [|done|unfold size; lia|lia].
    change List.skipn with (@drop SubscribeDrop). rewrite take_ge by (rewrite length_drop; lia).
    repeat f_equal; lia.
  - assert (Z.of_nat (length hist) <= Z.of_nat (length (drops d)) + Z.of_nat lastPos).
    { apply andb_false_iff in Hc as [Hc|Hc]; bool_prop; lia. }
    rewrite (read_loop_spec d hist); [|done|unfold size; lia|lia].
    change List.skipn with (@drop SubscribeDrop). rewrite take_ge by (rewrite length_drop; lia).
    repeat f_equal; lia.
Qed.

Lemma oldest_spec d hist :
  holds d hist -> oldest d = Z.of_nat (length hist - length d.(drops)).
Proof.
  intros Hd. unfold oldest, head, size. rewrite (h_pos _ _ Hd). case_match; bool_prop; lia.
Qed.

End Ring.

Import Spans.

(** ** The reporter *)

(** dropReporter. [rpos] is its read position in the distributor; [written] is
    what it handed to [w.DropGroups], whose error it ignores; [lostTotal] is its
    share of the metric of lost notifications. *)
Record dropReporter := mkReporter {
  rpos : Z;
  started : bool;
  rstart : Z;
  handled : list groupSpan;
  written : list SubscribeDrop;
  lostTotal : Z
}.

Definition newDropReporter (src : Ring.dropDistributor) : dropReporter :=
  mkReporter (Ring.oldest src) false 0 [] [] 0.

Section Reporter.
Context (sort : list groupSpan -> list groupSpan) `{!SortsSpans sort}.

Definition set_handled (h : list groupSpan) (r : dropReporter) : dropReporter :=
  mkReporter r.(rpos) r.(started) r.(rstart) h r.(written) r.(lostTotal).

Definition sent (seq : Z) (r : dropReporter) : dropReporter :=
  let r := if r.(started) then r else mkReporter r.(rpos) true seq r.(handled) r.(written) r.(lostTotal) in
  set_handled (add sort r.(handled) (mkSpan seq seq)) r.

(** The first group of a drop that may be reported. *)
Definition trimmed (drop : SubscribeDrop) (r : dropReporter) : Z :=
  Z.max (Z.max drop.(StartGroup) r.(rstart)) 1.

Definition report (drop : SubscribeDrop) (r : dropReporter) : dropReporter :=
  if negb r.(started) || (drop.(EndGroup) <? drop.(StartGroup)) || (drop.(EndGroup) <? r.(rstart)) then r
  else if drop.(EndGroup) <? trimmed drop r then r
  else
    let span := mkSpan (trimmed drop r) drop.(EndGroup) in
    let out := (fun s => mkDrop s.(start) s.(end_) drop.(ErrorCode)) <$> unhandled r.(handled) span in
    mkReporter r.(rpos) r.(started) r.(rstart) (add sort r.(handled) span) (r.(written) ++ out) r.(lostTotal).

Definition reportSkipped (next highest code : Z) (r : dropReporter) : dropReporter :=
  if negb r.(started) then r
  else
    let r := if r.(rstart) <? next then report (mkDrop r.(rstart) (next - 1) code) r else r in
    if next <? highest then report (mkDrop (next + 1) highest code) r else r.

(** flush: the upstream drops recorded since the last one. *)
Definition flush (src : Ring.dropDistributor) (r : dropReporter) : dropReporter :=
  if negb r.(started) || (Ring.head src =? r.(rpos)) then r
  else
    let '(buf, p, lost) := Ring.since r.(rpos) src in
    foldl (fun r drop => report drop r)
      (mkReporter p r.(started) r.(rstart) r.(handled) r.(written) (r.(lostTotal) + lost)) buf.

(** *** One operation *)

Definition drop_ok (d : SubscribeDrop) : Prop := seq_ok d.(StartGroup) /\ seq_ok d.(EndGroup).

(** The groups a drop names. *)
Definition groups (d : SubscribeDrop) : list Z := seqZ d.(StartGroup) (d.(EndGroup) - d.(StartGroup) + 1).

Lemma elem_of_groups d g : g ∈ groups d <-> d.(StartGroup) <= g <= d.(EndGroup).
Proof. unfold groups. rewrite elem_of_seqZ. lia. Qed.

(** The groups told to the subscriber as dropped. *)
Definition reported (r : dropReporter) : list Z := r.(written) ≫= groups.

Record reporter_ok (r : dropReporter) : Prop := {
  ro_spans : spans_ok r.(handled);
  ro_cap : (length r.(handled) <= maxHandledSpans)%nat;
  ro_start : seq_ok r.(rstart)
}.

(** The span [report] adds, when it adds one. *)
Lemma report_cases drop r :
  drop_ok drop -> reporter_ok r ->
  (report drop r = r /\ forall g, g ∈ groups drop -> r.(started) = false \/ g < r.(rstart) \/ g = 0) \/
  exists span, span_ok span /\ r.(started) = true /\ Z.max r.(rstart) 1 <= span.(start) /\
    (forall g, span.(start) <= g <= span.(end_) <-> g ∈ groups drop /\ r.(rstart) <= g /\ g <> 0) /\
    report drop r = mkReporter r.(rpos) r.(started) r.(rstart) (add sort r.(handled) span)
      (r.(written) ++ ((fun s => mkDrop s.(start) s.(end_) drop.(ErrorCode)) <$> unhandled r.(handled) span)) r.(lostTotal).
Proof.
  intros [Hd1 Hd2] Hr. pose proof (ro_start _ Hr) as Hst. unfold report.
  destruct (r.(started)) eqn:Hs; cbn [negb orb]; [|left; split; [done|by left]].
  destruct ((EndGroup drop <? StartGroup drop) || (EndGroup drop <? rstart r)) eqn:Hc.
  { left. split; [done|]. intros g Hg%elem_of_groups. apply orb_true_iff in Hc as [?|?]; bool_prop; lia. }
  bool_prop. unfold trimmed, seq_ok in *. destruct (Z.ltb_spec (EndGroup drop) (Z.max (Z.max (StartGroup drop) (rstart r)) 1)).
  { left. split; [done|]. intros g Hg%elem_of_groups. lia. }
  right. eexists. split; [|split; [done|]; split; [|split; [|done]]].
  - unfold span_ok, seq_ok. cbn. lia.
  - cbn. lia.
  - intros g. rewrite elem_of_groups. cbn. lia.
Qed.

(** The groups of the spans [unhandled] returns, as reported. *)
Lemma elem_of_written (out : list groupSpan) code g :
  g ∈ (((fun s => mkDrop s.(start) s.(end_) code) <$> out) ≫= groups) <-> covered out g.
Proof.
  rewrite list_elem_of_bind. unfold covered. split.
  - intros (d & Hg & Hd). apply list_elem_of_fmap in Hd as (s & -> & Hs). apply elem_of_groups in Hg. eauto.
  - intros (s & Hs & Hg). eexists. split; [|by apply list_elem_of_fmap_2]. by apply elem_of_groups.
Qed.

Lemma NoDup_written lo (out : list groupSpan) code :
  spans_from lo out -> NoDup (((fun s => mkDrop s.(start) s.(end_) code) <$> out) ≫= groups).
Proof.
  revert lo. induction out as [|s t IH]; intros lo; cbn; [constructor|]. intros (_ & _ & Ht).
  apply NoDup_app. split; [unfold groups; apply NoDup_seqZ|]. split; [|by eapply IH].
  intros g Hg%elem_of_groups Hin%elem_of_written. cbn in Hg. pose proof (spans_from_low _ _ _ Ht Hin). lia.
Qed.

(** Reporting a drop: every group of it from the start on that was not handled
    yet is told once, in increasing order, under the drop's code; nothing else
    is told; afterwards the whole drop is handled, and below the cap nothing
    else is. *)
Lemma report_exact drop r :
  drop_ok drop -> reporter_ok r ->
  reporter_ok (report drop r) /\
  (report drop r).(started) = r.(started) /\ (report drop r).(rstart) = r.(rstart) /\
  (report drop r).(rpos) = r.(rpos) /\ (report drop r).(lostTotal) = r.(lostTotal) /\
  exists out, (report drop r).(written) = r.(written) ++ out /\
    Forall (fun d => d.(ErrorCode) = drop.(ErrorCode)) out /\ NoDup (out ≫= groups) /\
    (forall g, g ∈ out ≫= groups <->
       r.(started) = true /\ g ∈ groups drop /\ r.(rstart) <= g /\ g <> 0 /\ ~ covered r.(handled) g) /\
    (forall g, covered r.(handled) g \/ (r.(started) = true /\ g ∈ groups drop /\ r.(rstart) <= g /\ g <> 0) ->
       covered (report drop r).(handled) g) /\
    ((length r.(handled) < maxHandledSpans)%nat -> forall g, covered (report drop r).(handled) g ->
       covered r.(handled) g \/ (r.(started) = true /\ g ∈ groups drop /\ r.(rstart) <= g /\ g <> 0)).
Proof.
  intros Hd Hr. destruct (report_cases drop r Hd Hr) as [[Heq Hno]|(span & Hsp & Hst & Hlow & Hin & Heq)]; rewrite Heq.
  - do 5 (split; [done|]). exists []. rewrite app_nil_r. split; [done|]. split; [constructor|]. split; [constructor|].
    split.
    { intros g. split; [by intros ?%not_elem_of_nil|]. intros (? & Hg & ? & ? & ?).
      destruct (Hno _ Hg) as [?|[?|?]]; [congruence|lia|done]. }
    split; [|tauto]. intros g [?|(? & Hg & ? & ?)]; [done|]. destruct (Hno _ Hg) as [?|[?|?]]; [congruence|lia|done].
  - destruct (add_ok sort r.(handled) span (ro_spans _ Hr) (ro_cap _ Hr) Hsp) as (Ha & Hcap & Hsup & Hexact).
    destruct (unhandled_ok r.(handled) span (ro_spans _ Hr) Hsp) as (Hu & Huc).
    split; [split; [done|done|apply (ro_start _ Hr)]|]. do 4 (split; [done|]). cbn [written handled].
    eexists. split; [done|]. split; [by apply Forall_fmap, Forall_true|]. split; [by eapply NoDup_written|].
    split; [|split].
    + intros g. rewrite elem_of_written, Huc, Hin. tauto.
    + intros g [?|(_ & ?)]; apply Hsup; [by left|right; by apply Hin].
    + intros Hlt g Hg. apply Hexact in Hg as [?|Hg]; [by left| |done]. right. split; [done|]. by apply Hin.
Qed.

(** *** A subscriber among the track's other goroutines *)

(** The subscriber's reporter and the track's distributor, with three records
    of what happened: the groups delivered, the drops ever recorded, and those
    flush passed on. *)
Record world := mkWorld {
  rep : dropReporter;
  src : Ring.dropDistributor;
  delivered : list Z;
  hist : list SubscribeDrop;
  forwarded : list SubscribeDrop
}.

Definition joined (d : Ring.dropDistributor) (h : list SubscribeDrop) : world :=
  mkWorld (newDropReporter d) d [] h [].

Definition with_rep (r : dropReporter) (w : world) : world :=
  mkWorld r w.(src) w.(delivered) w.(hist) w.(forwarded).

(** What flush hands to report. *)
Definition flushed (w : world) : list SubscribeDrop :=
  if negb w.(rep).(started) || (Ring.head w.(src) =? w.(rep).(rpos)) then []
  else (Ring.since w.(rep).(rpos) w.(src)).1.1.

Inductive wstep : world -> world -> Prop :=
| w_record w d : drop_ok d -> Z.of_nat (length w.(hist)) + 1 < 2 ^ 64 ->
    wstep w (mkWorld w.(rep) (Ring.record d w.(src)) w.(delivered) (w.(hist) ++ [d]) w.(forwarded))
| w_sent w seq : seq_ok seq -> isHandled w.(rep).(handled) seq = false ->
    wstep w (mkWorld (sent seq w.(rep)) w.(src) (w.(delivered) ++ [seq]) w.(hist) w.(forwarded))
| w_report w d : drop_ok d -> wstep w (with_rep (report d w.(rep)) w)
| w_skipped w next highest code : seq_ok next -> seq_ok highest ->
    wstep w (with_rep (reportSkipped next highest code w.(rep)) w)
| w_flush w :
    wstep w (mkWorld (flush w.(src) w.(rep)) w.(src) w.(delivered) w.(hist) (w.(forwarded) ++ flushed w)).

(** What a reporter has told its subscriber: nothing twice, and everything told
    is handled. *)
Record told_ok (del : list Z) (r : dropReporter) : Prop := {
  to_ok : reporter_ok r;
  to_nodup : NoDup (del ++ reported r);
  to_handled g : g ∈ del ++ reported r -> covered r.(handled) g;
  to_start : r.(started) = true -> List.head del = Some r.(rstart);
  to_silent : r.(started) = false -> del = [] /\ r.(written) = [];
  to_low : Forall (fun d => Z.max r.(rstart) 1 <= d.(StartGroup) <= d.(EndGroup)) r.(written)
}.

Lemma report_told del d r : drop_ok d -> told_ok del r -> told_ok del (report d r).
Proof.
  intros Hd Ht. pose proof (to_ok _ _ Ht) as Hr.
  destruct (report_exact d r Hd Hr) as (Hok & Hst & Hrs & _ & _ & out & Hw & _ & Hnd & Hout & Hsup & _).
  assert (Hrep : reported (report d r) = reported r ++ (out ≫= groups)).
  { unfold reported. by rewrite Hw, bind_app. }
  split; [done|..].
  - rewrite Hrep, app_assoc. apply NoDup_app. split; [apply (to_nodup _ _ Ht)|]. split; [|done].
    intros g Hg Ho. apply Hout in Ho as (_ & _ & _ & _ & Hn). apply Hn, (to_handled _ _ Ht), Hg.
  - intros g. rewrite Hrep, app_assoc, elem_of_app. intros [Hg|Hg]; apply Hsup; [left; by apply (to_handled _ _ Ht)|].
    apply Hout in Hg. right. tauto.
  - rewrite Hst, Hrs. apply (to_start _ _ Ht).
  - rewrite Hst. intros Hs. destruct (to_silent _ _ Ht Hs) as [? Hnil]. split; [done|].
    destruct (report_cases d r Hd Hr) as [[-> _]|(? & _ & Hs' & _)]; [done|congruence].
  - rewrite Hrs. destruct (report_cases d r Hd Hr) as [[-> _]|(sp & Hsp & _ & Hlow & _ & Heq)]; [apply (to_low _ _ Ht)|].
    rewrite Heq. cbn [written]. apply Forall_app. split; [apply (to_low _ _ Ht)|].
    destruct (unhandled_ok r.(handled) sp (ro_spans _ Hr) Hsp) as [Hu _].
    apply Forall_fmap, List.Forall_forall. intros s Hs%list_elem_of_In. cbn.
    pose proof (spans_from_all _ _ Hu) as Hall. rewrite List.Forall_forall in Hall.
    destruct (Hall s) as (_ & _ & ?); [by apply list_elem_of_In|].
    assert (sp.(start) <= s.(start)) by (apply (spans_from_low _ _ s.(start) Hu); exists s; split; [done|lia]). lia.
Qed.

Lemma reports_told del ds r :
  Forall drop_ok ds -> told_ok del r -> told_ok del (foldl (fun r d => report d r) r ds).
Proof.
  revert r. induction ds as [|d t IH]; intros r Hds Ht; [done|]. apply Forall_cons in Hds as [? ?].
  cbn. apply IH; [done|]. by apply report_told.
Qed.

Lemma reportSkipped_told del next highest code r :
  seq_ok next -> seq_ok highest -> told_ok del r -> told_ok del (reportSkipped next highest code r).
Proof.
  intros Hn Hh Ht. unfold reportSkipped. destruct (r.(started)); [|done]. cbn [negb]. cbv zeta.
  pose proof (ro_start _ (to_ok _ _ Ht)) as Hs. unfold seq_ok in *.
  assert (Ht' : told_ok del (if r.(rstart) <? next then report (mkDrop r.(rstart) (next - 1) code) r else r)).
  { case_match; [|done]. bool_prop. apply report_told; [|done]. unfold drop_ok, seq_ok. cbn. lia. }
  destruct (Z.ltb_spec next highest); [|done]. apply report_told; [|done].
  unfold drop_ok, seq_ok. cbn. lia.
Qed.

Lemma sent_told del seq r :
  seq_ok seq -> isHandled r.(handled) seq = false -> told_ok del r -> told_ok (del ++ [seq]) (sent seq r).
Proof.
  intros Hs Hn Ht. pose proof (to_ok _ _ Ht) as Hr.
  assert (Hnc : ~ covered r.(handled) seq).
  { rewrite <- isHandled_covered by apply (ro_spans _ Hr). congruence. }
  destruct (add_ok sort r.(handled) (mkSpan seq seq) (ro_spans _ Hr) (ro_cap _ Hr)) as (Ha & Hcap & Hsup & _).
  { unfold span_ok. cbn. split; [done|]. split; [done|lia]. }
  assert (Hf : (sent seq r).(handled) = add sort r.(handled) (mkSpan seq seq) /\
               (sent seq r).(written) = r.(written) /\ (sent seq r).(started) = true /\
               (sent seq r).(rstart) = if r.(started) then r.(rstart) else seq).
  { unfold sent. destruct (r.(started)) eqn:E; cbn; rewrite ?E; done. }
  destruct Hf as (Hh & Hw & Hst & Hrs). assert (Hrep : reported (sent seq r) = reported r) by (unfold reported; by rewrite Hw).
  split.
  - split; rewrite ?Hh, ?Hrs; [done|done|]. destruct (r.(started)); [apply (ro_start _ Hr)|done].
  - rewrite Hrep, <- app_assoc. cbn [app]. rewrite <- Permutation_middle. apply NoDup_cons.
    split; [|apply (to_nodup _ _ Ht)]. intros Hin. apply Hnc, (to_handled _ _ Ht), Hin.
  - intros g. rewrite Hrep, <- app_assoc. cbn [app]. rewrite <- Permutation_middle, elem_of_cons, Hh.
    intros [->|Hg]; apply Hsup; [right; cbn; lia|left; by apply (to_handled _ _ Ht)].
  - intros _. rewrite Hrs. destruct (r.(started)) eqn:E.
    + apply (to_start _ _ Ht) in E. by destruct del.
    + by destruct (to_silent _ _ Ht E) as [-> _].
  - by rewrite Hst.
  - rewrite Hw, Hrs. destruct (r.(started)) eqn:E; [apply (to_low _ _ Ht)|].
    destruct (to_silent _ _ Ht E) as [_ ->]. constructor.
Qed.

(** Nothing handled is forgotten, and the start never moves once set. *)
Definition grows (r r' : dropReporter) : Prop :=
  (r.(started) = true -> r'.(started) = true /\ r'.(rstart) = r.(rstart)) /\
  forall g, covered r.(handled) g -> covered r'.(handled) g.

Lemma grows_refl r : grows r r.
Proof. by split. Qed.

Lemma grows_trans r1 r2 r3 : grows r1 r2 -> grows r2 r3 -> grows r1 r3.
Proof.
  intros [H1 C1] [H2 C2]. split; [|auto]. intros Hs. destruct (H1 Hs) as [Hs2 ?]. destruct (H2 Hs2). split; congruence.
Qed.

Lemma report_grows d r : drop_ok d -> reporter_ok r -> grows r (report d r).
Proof.
  intros Hd Hr. destruct (report_exact d r Hd Hr) as (_ & Hst & Hrs & _ & _ & out & _ & _ & _ & _ & Hsup & _).
  split; [rewrite Hst, Hrs; by split|]. intros g Hg. apply Hsup. by left.
Qed.

Lemma reports_grow ds r : Forall drop_ok ds -> reporter_ok r -> grows r (foldl (fun r d => report d r) r ds).
Proof.
  revert r. induction ds as [|d t IH]; intros r Hds Hr; [apply grows_refl|]. apply Forall_cons in Hds as [Hd ?]. cbn.
  eapply grows_trans; [by apply report_grows|]. apply IH; [done|]. by destruct (report_exact d r Hd Hr).
Qed.

Lemma reportSkipped_grows next highest code r :
  seq_ok next -> seq_ok highest -> reporter_ok r -> grows r (reportSkipped next highest code r).
Proof.
  intros Hn Hh Hr. unfold reportSkipped. destruct (r.(started)); [|apply grows_refl]. cbn [negb]. cbv zeta.
  pose proof (ro_start _ Hr) as Hs. unfold seq_ok in *.
  set (r1 := if r.(rstart) <? next then _ else r).
  assert (Hr1 : reporter_ok r1 /\ grows r r1).
  { subst r1. destruct (Z.ltb_spec r.(rstart) next); [|split; [done|apply grows_refl]].
    assert (Hd : drop_ok (mkDrop r.(rstart) (next - 1) code)) by (unfold drop_ok, seq_ok; cbn; lia).
    split; [by destruct (report_exact _ r Hd Hr)|by apply report_grows]. }
  destruct Hr1 as [Hr1 Hg1]. destruct (Z.ltb_spec next highest); [|done].
  eapply grows_trans; [exact Hg1|]. apply report_grows; [|done]. unfold drop_ok, seq_ok. cbn. lia.
Qed.

Lemma sent_grows seq r : seq_ok seq -> reporter_ok r -> grows r (sent seq r) /\ covered (sent seq r).(handled) seq /\
  (sent seq r).(started) = true /\ (r.(started) = false -> (sent seq r).(rstart) = seq).
Proof.
  intros Hs Hr. destruct (add_ok sort r.(handled) (mkSpan seq seq) (ro_spans _ Hr) (ro_cap _ Hr)) as (_ & _ & Hsup & _).
  { unfold span_ok. cbn. split; [done|]. split; [done|lia]. }
  assert (Hh : (sent seq r).(handled) = add sort r.(handled) (mkSpan seq seq)) by (unfold sent; by destruct (r.(started))).
  unfold grows. rewrite Hh. split; [split; [intros Hst; unfold sent; rewrite Hst; by split|intros g Hg; apply Hsup; by left]|].
  split; [apply Hsup; right; cbn; lia|]. unfold sent. destruct (r.(started)) eqn:E; cbn; rewrite ?E; done.
Qed.

(** *** Reachable worlds *)

(** Positions of [hist] flush has passed on: in order, and with the lost ones
    they are all up to the read position. *)
Definition read_ok (p0 : nat) (w : world) : Prop :=
  exists idx p, w.(rep).(rpos) = Z.of_nat p /\ (p0 <= p <= length w.(hist))%nat /\
    StronglySorted lt idx /\ Forall (fun i => (p0 <= i < p)%nat) idx /\
    Forall2 (fun i d => w.(hist) !! i = Some d) idx w.(forwarded) /\
    Z.of_nat p0 + Z.of_nat (length idx) + w.(rep).(lostTotal) = Z.of_nat p.

Record world_ok (p0 : nat) (w : world) : Prop := {
  wo_told : told_ok w.(delivered) w.(rep);
  wo_ring : Ring.holds w.(src) w.(hist);
  wo_hist : Forall drop_ok w.(hist);
  wo_read : read_ok p0 w
}.

Lemma joined_ok d h :
  Ring.holds d h -> Forall drop_ok h -> world_ok (length h - length d.(Ring.drops)) (joined d h).
Proof.
  intros Hd Hh. split; [|done|done|].
  - split; cbn; [|constructor|by intros ? ?%not_elem_of_nil|done|done|constructor].
    split; cbn; [done|unfold maxHandledSpans; lia|unfold seq_ok; lia].
  - exists [], (length h - length d.(Ring.drops))%nat. cbn. rewrite (Ring.oldest_spec _ _ Hd).
    split; [done|]. split; [lia|]. split; [constructor|]. split; [constructor|]. split; [constructor|lia].
Qed.

Lemma Forall2_seq_drop {A} (l : list A) k :
  Forall2 (fun i x => l !! i = Some x) (seq k (length l - k)) (drop k l).
Proof.
  apply Forall2_same_length_lookup. split; [by rewrite length_seq, length_drop|].
  intros i j x Hj Hx. apply lookup_seq in Hj as [-> _]. by rewrite lookup_drop in Hx.
Qed.

Lemma StronglySorted_app_lt (l l' : list nat) m :
  StronglySorted lt l -> StronglySorted lt l' -> Forall (fun i => (i < m)%nat) l -> Forall (fun i => (m <= i)%nat) l' ->
  StronglySorted lt (l ++ l').
Proof.
  intros Hl Hl' Hm Hm'. induction Hl as [|x t Ht IH Hx]; [done|]. apply Forall_cons in Hm as [? Hm].
  cbn. constructor; [by apply IH|]. apply Forall_app. split; [done|].
  eapply Forall_impl; [exact Hm'|]. cbn. lia.
Qed.

Lemma seq_sorted k n : StronglySorted lt (seq k n).
Proof.
  revert k. induction n as [|n IH]; intros k; cbn; constructor; [apply IH|].
  apply Forall_seq. lia.
Qed.

(** What flush does, in terms of the list of all drops. *)
Lemma flush_spec w p :
  Ring.holds w.(src) w.(hist) -> w.(rep).(rpos) = Z.of_nat p -> (p <= length w.(hist))%nat ->
  (w.(rep).(started) = false /\ flushed w = [] /\ flush w.(src) w.(rep) = w.(rep)) \/
  (w.(rep).(started) = true /\
   let k := Nat.max p (length w.(hist) - length w.(src).(Ring.drops)) in
   flushed w = drop k w.(hist) /\
   flush w.(src) w.(rep) =
     foldl (fun r d => report d r)
       (mkReporter (Z.of_nat (length w.(hist))) true w.(rep).(rstart) w.(rep).(handled) w.(rep).(written)
          (w.(rep).(lostTotal) + Z.of_nat (k - p))) (drop k w.(hist))).
Proof.
  intros Hd Hp Hle. unfold flushed, flush. destruct (w.(rep).(started)) eqn:Hs; [|by left]. right. split; [done|].
  cbv zeta. cbn [negb orb]. unfold Ring.head. rewrite (Ring.h_pos _ _ Hd), Hp.
  destruct (Z.eqb_spec (Z.of_nat (length w.(hist))) (Z.of_nat p)) as [Heq|Hne].
  - rewrite drop_ge by lia. split; [done|]. cbn. replace (_ - p)%nat with 0%nat by lia.
    rewrite Z.add_0_r, Heq, <- Hp, <- Hs. by destruct (w.(rep)).
  - rewrite (Ring.since_spec _ _ _ Hd Hle). cbn [fst]. split; [done|]. do 3 f_equal. lia.
Qed.

Lemma reports_keep ds r : Forall drop_ok ds -> reporter_ok r ->
  (foldl (fun r d => report d r) r ds).(rpos) = r.(rpos) /\
  (foldl (fun r d => report d r) r ds).(lostTotal) = r.(lostTotal).
Proof.
  revert r. induction ds as [|d t IH]; intros r Hds Hr; [done|]. apply Forall_cons in Hds as [Hd ?]. cbn.
  destruct (report_exact d r Hd Hr) as (Hok & _ & _ & Hp & Hl & _).
  destruct (IH (report d r)) as [-> ->]; done.
Qed.

Lemma report_keep d r : drop_ok d -> reporter_ok r ->
  (report d r).(rpos) = r.(rpos) /\ (report d r).(lostTotal) = r.(lostTotal).
Proof. intros Hd Hr. apply (reports_keep [d] r); [by apply Forall_singleton|done]. Qed.

(** A step that leaves the read position, the history and what was forwarded
    alone keeps the account of what was read. *)
Lemma read_ok_keep p0 w w' :
  read_ok p0 w -> w'.(rep).(rpos) = w.(rep).(rpos) -> w'.(rep).(lostTotal) = w.(rep).(lostTotal) ->
  w.(hist) `prefix_of` w'.(hist) -> w'.(forwarded) = w.(forwarded) -> read_ok p0 w'.
Proof.
  intros (idx & p & Hp & Hle & Hs & Hi & Hf & Hc) Hp' Hl' [ext Hh] Hf'. exists idx, p.
  rewrite Hp', Hl', Hf', Hh, length_app. split; [done|]. split; [lia|]. do 2 (split; [done|]). split; [|done].
  eapply Forall2_impl; [exact Hf|]. cbn. intros. by apply lookup_app_l_Some.
Qed.

Lemma flush_ok p0 w : world_ok p0 w ->
  world_ok p0 (mkWorld (flush w.(src) w.(rep)) w.(src) w.(delivered) w.(hist) (w.(forwarded) ++ flushed w)).
Proof.
  intros [Ht Hd Hh Hr]. destruct Hr as (idx & p & Hp & Hle & Hs & Hi & Hf & Hc).
  destruct (flush_spec w p Hd Hp) as [(Hst & Hfl & Hfu)|(Hst & Hfl & Hfu)]; [lia|..]; rewrite Hfl, Hfu.
  { split; [done|done|done|]. exists idx, p. cbn. rewrite app_nil_r. auto 10. }
  set (k := Nat.max p (length (hist w) - length (Ring.drops (src w)))) in *.
  pose proof (Forall_drop _ k _ Hh) as Hdk.
  assert (Ht' : told_ok w.(delivered) (mkReporter (Z.of_nat (length w.(hist))) true w.(rep).(rstart) w.(rep).(handled)
     w.(rep).(written) (w.(rep).(lostTotal) + Z.of_nat (k - p)))).
  { destruct Ht as [[? ? ?] ? ? ? ? ?]. split; [by split|done|done| |by cbn|done].
    intros _. cbn [rstart]. auto. }
  split; [by apply reports_told|done|done|].
  exists (idx ++ seq k (length w.(hist) - k)), (length w.(hist)). cbn [rep hist forwarded].
  destruct (reports_keep (drop k w.(hist)) _ Hdk (to_ok _ _ Ht')) as [-> ->]. cbn [rpos lostTotal].
  assert (p <= k)%nat by lia. split; [done|]. split; [lia|]. split; [|split; [|split]].
  - apply (StronglySorted_app_lt _ _ p); [done|apply seq_sorted| |].
    + eapply Forall_impl; [exact Hi|]. cbn. lia.
    + apply Forall_seq. lia.
  - apply Forall_app. split; [eapply Forall_impl; [exact Hi|]; cbn; lia|]. apply Forall_seq. lia.
  - apply Forall2_app; [done|apply Forall2_seq_drop].
  - rewrite length_app, length_seq. lia.
Qed.

Lemma wstep_ok p0 w w' : wstep w w' -> world_ok p0 w -> world_ok p0 w'.
Proof.
  destruct 1 as [w d Hd Hlt|w seq Hs Hn|w d Hd|w next highest code Hn Hh|w]; intros Hw; [..|by apply flush_ok];
    destruct Hw as [Ht Hr Hf Hre]; pose proof (to_ok _ _ Ht) as Hro.
  - split; cbn; [done|by apply Ring.record_holds|by apply Forall_app_2, Forall_singleton|].
    eapply read_ok_keep; [exact Hre|done|done|by eexists|done].
  - split; cbn; [by apply sent_told|done|done|]. eapply read_ok_keep; [exact Hre|cbn..|done|done];
      unfold sent; by destruct (w.(rep).(started)).
  - split; cbn; [by apply report_told|done|done|].
    eapply read_ok_keep; [exact Hre|apply report_keep; done|apply report_keep; done|done|done].
  - split; cbn; [by apply reportSkipped_told|done|done|]. pose proof (ro_start _ Hro).
    assert (Hk : forall r, reporter_ok r -> (reportSkipped next highest code r).(rpos) = r.(rpos) /\
                           (reportSkipped next highest code r).(lostTotal) = r.(lostTotal)); [|
      eapply read_ok_keep; [exact Hre|apply Hk; done|apply Hk; done|done|done]].
    intros r Hr'. unfold reportSkipped. destruct (r.(started)); [|done]. cbn [negb]. cbv zeta. unfold seq_ok in *.
    pose proof (ro_start _ Hr'). unfold seq_ok in *.
    assert (Hd1 : r.(rstart) < next -> drop_ok (mkDrop r.(rstart) (next - 1) code)) by (unfold drop_ok, seq_ok; cbn; lia).
    assert (Hd2 : drop_ok (mkDrop (next + 1) highest code) \/ highest <= next) by (unfold drop_ok, seq_ok; cbn; lia).
    destruct (Z.ltb_spec r.(rstart) next), (Z.ltb_spec next highest); [| | |done].
    + destruct Hd2 as [Hd2|]; [|lia]. specialize (Hd1 ltac:(done)).
      destruct (report_exact _ r Hd1 Hr') as (Hok & _). destruct (report_keep _ _ Hd2 Hok) as [-> ->]. by apply report_keep.
    + apply report_keep; auto.
    + apply report_keep; [|done]. destruct Hd2; [done|lia].
Qed.

Lemma reachable_ok d h w :
  Ring.holds d h -> Forall drop_ok h -> rtc wstep (joined d h) w -> world_ok (length h - length d.(Ring.drops)) w.
Proof.
  intros Hd Hh Hr. pose proof (joined_ok d h Hd Hh) as Hj. induction Hr as [|w1 w2 w3 Hst _ IH]; [done|].
  apply IH. by eapply wstep_ok.
Qed.

(** C20: A subscriber is told about each group at most once: over every
    interleaving of deliveries, skips, time-outs, flushes and upstream drops no
    group is delivered twice, reported twice, or both delivered and reported,
    and whatever was told is known to the reporter as handled. Only groups from
    the first delivered one on are reported, and never group 0. *)
Theorem drops_told_once d h w :
  Ring.holds d h -> Forall drop_ok h -> rtc wstep (joined d h) w ->
  NoDup (w.(delivered) ++ reported w.(rep)) /\
  (forall g, g ∈ w.(delivered) ++ reported w.(rep) -> isHandled w.(rep).(handled) g = true) /\
  (forall g, g ∈ reported w.(rep) -> 1 <= g /\ exists g0, List.head w.(delivered) = Some g0 /\ g0 <= g).
Proof.
  intros Hd Hh Hr. destruct (wo_told _ _ (reachable_ok d h w Hd Hh Hr)) as [Hok Hnd Hha Hst Hsi Hlo].
  split; [done|]. split.
  - intros g Hg. apply isHandled_covered; [apply (ro_spans _ Hok)|]. by apply Hha.
  - intros g Hg. apply list_elem_of_bind in Hg as (x & Hg%elem_of_groups & Hx).
    rewrite List.Forall_forall in Hlo. specialize (Hlo x ltac:(by apply list_elem_of_In)).
    split; [lia|]. destruct (w.(rep).(started)) eqn:E.
    + exists w.(rep).(rstart). split; [auto|lia].
    + destruct (Hsi eq_refl) as [_ Hnil]. rewrite Hnil in Hx. by apply not_elem_of_nil in Hx.
Qed.

(** C21: The memory of a reporter is bounded and canonical: in every reachable
    state it keeps at most 64 spans, sorted, none overlapping or touching the
    next, and the binary search over them decides membership exactly. *)
Theorem handled_spans_bounded d h w :
  Ring.holds d h -> Forall drop_ok h -> rtc wstep (joined d h) w ->
  (length w.(rep).(handled) <= maxHandledSpans)%nat /\
  (forall i j a b, (i < j)%nat -> w.(rep).(handled) !! i = Some a -> w.(rep).(handled) !! j = Some b ->
     a.(end_) + 1 < b.(start)) /\
  (forall g, isHandled w.(rep).(handled) g = true <-> covered w.(rep).(handled) g).
Proof.
  intros Hd Hh Hr. destruct (to_ok _ _ (wo_told _ _ (reachable_ok d h w Hd Hh Hr))) as [Hs Hc _].
  split; [done|]. split; [intros i j a b; by apply (spans_from_lookup 0)|]. intros g. by apply isHandled_covered.
Qed.

(** The first half of a skip: the groups below the next one. *)
Lemma report_below next code r :
  reporter_ok r -> r.(started) = true -> seq_ok next ->
  let r1 := if r.(rstart) <? next then report (mkDrop r.(rstart) (next - 1) code) r else r in
  reporter_ok r1 /\ r1.(started) = true /\ r1.(rstart) = r.(rstart) /\
  exists o, r1.(written) = r.(written) ++ o /\ NoDup (o ≫= groups) /\
    (forall g, g ∈ o ≫= groups <-> r.(rstart) <= g < next /\ g <> 0 /\ ~ covered r.(handled) g) /\
    (forall g, covered r.(handled) g \/ (r.(rstart) <= g < next /\ g <> 0) -> covered r1.(handled) g) /\
    ((length r.(handled) < maxHandledSpans)%nat ->
      forall g, covered r1.(handled) g -> covered r.(handled) g \/ r.(rstart) <= g < next).
Proof.
  intros Hr Hst Hn r1. subst r1. pose proof (ro_start _ Hr) as Hs. unfold seq_ok in *.
  destruct (Z.ltb_spec r.(rstart) next).
  - destruct (report_exact (mkDrop r.(rstart) (next - 1) code) r) as (Ho & Hst' & Hrs' & _ & _ & o & Hw & _ & Hnd & Hin & Hsup & Hex);
      [unfold drop_ok, seq_ok; cbn; lia|done|].
    split; [done|]. split; [congruence|]. split; [done|]. exists o. setoid_rewrite elem_of_groups in Hin.
    setoid_rewrite elem_of_groups in Hsup. setoid_rewrite elem_of_groups in Hex. cbn in Hin, Hsup, Hex. rewrite Hst in *.
    split; [done|]. split; [done|]. split; [intros g; rewrite Hin; clear; intuition lia|].
    split; [intros g [?|?]; apply Hsup; [by left|right; intuition lia]|].
    intros Hlt g Hg. destruct (Hex Hlt g Hg); [by left|right; intuition lia].
  - split; [done|]. split; [done|]. split; [done|]. exists []. rewrite app_nil_r. split; [done|]. split; [constructor|].
    split; [intros g; split; [by intros ?%not_elem_of_nil|lia]|]. split; [intros g [?|?]; [done|lia]|]. tauto.
Qed.

(** A skip leaves every group up to the highest one handled, but the next. *)
Lemma skip_covers next highest code r g :
  reporter_ok r -> r.(started) = true -> seq_ok next -> seq_ok highest ->
  r.(rstart) <= g <= Z.max (next - 1) highest -> g <> next -> g <> 0 ->
  covered (reportSkipped next highest code r).(handled) g.
Proof.
  intros Hr Hst Hn Hh Hg Hne H0. unfold reportSkipped. rewrite Hst. cbn [negb]. cbv zeta.
  destruct (report_below next code r Hr Hst Hn) as (Hr1 & Hst1 & Hrs1 & o1 & _ & _ & _ & Hsup1 & _).
  pose proof (ro_start _ Hr) as Hs. revert Hr1 Hst1 Hrs1 Hsup1.
  set (r1 := if r.(rstart) <? next then _ else r). intros. unfold seq_ok in *.
  destruct (Z.ltb_spec next highest); [|apply Hsup1; right; lia].
  destruct (report_exact (mkDrop (next + 1) highest code) r1) as (_ & _ & _ & _ & _ & o2 & _ & _ & _ & _ & Hsup2 & _);
    [unfold drop_ok, seq_ok; cbn; lia|done|].
  apply Hsup2. destruct (decide (g < next)); [left; apply Hsup1; right; lia|right].
  rewrite Hst1, Hrs1, elem_of_groups. cbn. lia.
Qed.

(** When a subscriber jumps ahead in the ring, the skip tells it every group
    from its start to the highest one reserved that was neither delivered nor
    told, except the one it is sent next; none twice, and no other. Afterwards
    all of them are handled. The reports are complete while the reporter holds
    fewer than 63 spans. *)
Theorem skip_reports_gap next highest code r :
  reporter_ok r -> r.(started) = true -> seq_ok next -> seq_ok highest ->
  exists out, (reportSkipped next highest code r).(written) = r.(written) ++ out /\ NoDup (out ≫= groups) /\
    (forall g, g ∈ out ≫= groups ->
       r.(rstart) <= g <= Z.max (next - 1) highest /\ g <> next /\ ~ covered r.(handled) g) /\
    (forall g, r.(rstart) <= g <= Z.max (next - 1) highest -> g <> next -> g <> 0 ->
       covered (reportSkipped next highest code r).(handled) g) /\
    ((S (length r.(handled)) < maxHandledSpans)%nat ->
     forall g, r.(rstart) <= g <= Z.max (next - 1) highest -> g <> next -> g <> 0 ->
       ~ covered r.(handled) g -> g ∈ out ≫= groups).
Proof.
  intros Hr Hst Hn Hh. unfold reportSkipped. rewrite Hst. cbn [negb]. cbv zeta.
  destruct (report_below next code r Hr Hst Hn) as (Hr1 & Hst1 & Hrs1 & o1 & Hw1 & Hnd1 & Hin1 & Hsup1 & Hex1).
  pose proof (ro_start _ Hr) as Hs. revert Hr1 Hst1 Hrs1 Hw1 Hsup1 Hex1.
  set (r1 := if r.(rstart) <? next then _ else r). intros. unfold seq_ok in *.
  destruct (Z.ltb_spec next highest) as [Hlt|Hge].
  - destruct (report_exact (mkDrop (next + 1) highest code) r1) as (Ho & _ & _ & _ & _ & o2 & Hw2 & _ & Hnd2 & Hin2 & Hsup2 & _);
      [unfold drop_ok, seq_ok; cbn; lia|done|].
    setoid_rewrite elem_of_groups in Hin2. setoid_rewrite elem_of_groups in Hsup2. cbn in Hin2, Hsup2. rewrite Hst1, Hrs1 in *.
    exists (o1 ++ o2). rewrite Hw2, Hw1, <- app_assoc. split; [done|]. rewrite bind_app. split; [|split; [|split]].
    + apply NoDup_app. split; [done|]. split; [|done]. intros g Hg1%Hin1 Hg2%Hin2. lia.
    + intros g [Hg|Hg]%elem_of_app; [apply Hin1 in Hg; intuition lia|apply Hin2 in Hg].
      destruct Hg as (_ & ? & ? & ? & Hnc). split; [lia|]. split; [lia|]. intros Hc. apply Hnc, Hsup1. by left.
    + intros g Hg Hne H0. apply Hsup2. destruct (decide (g < next)); [left; apply Hsup1; right; lia|right; lia].
    + intros Hlen g Hg Hne H0 Hnc. apply elem_of_app. destruct (decide (g < next)); [left; apply Hin1; intuition lia|].
      right. apply Hin2. split; [done|]. split; [lia|]. split; [lia|]. split; [done|].
      intros Hc. apply Hex1 in Hc as [?|?]; [done|lia|]. unfold maxHandledSpans in *. lia.
  - exists o1. split; [done|]. split; [done|]. split; [intros g Hg%Hin1; intuition lia|]. split.
    + intros g Hg Hne H0. apply Hsup1. right. lia.
    + intros _ g Hg Hne H0 Hnc. apply Hin1. intuition lia.
Qed.

(** The ring of drops refines the list of all drops ever recorded: what
    flush has passed on is, in order and without repetition, a selection of the
    drops recorded since the subscriber joined (or held when it did); the ones
    left out are exactly those counted as lost; and a flush of a started
    subscriber leaves none unread. *)
Theorem upstream_drops_forwarded d h w :
  Ring.holds d h -> Forall drop_ok h -> rtc wstep (joined d h) w ->
  exists idx p, w.(rep).(rpos) = Z.of_nat p /\ (p <= length w.(hist))%nat /\
    StronglySorted lt idx /\ Forall (fun i => (length h - length d.(Ring.drops) <= i < p)%nat) idx /\
    Forall2 (fun i x => w.(hist) !! i = Some x) idx w.(forwarded) /\
    Z.of_nat (length h - length d.(Ring.drops)) + Z.of_nat (length idx) + w.(rep).(lostTotal) = Z.of_nat p /\
    (w.(rep).(started) = true -> (flush w.(src) w.(rep)).(rpos) = Z.of_nat (length w.(hist))).
Proof.
  intros Hd Hh Hr. destruct (reachable_ok d h w Hd Hh Hr) as [Ht Hri Hhi (idx & p & Hp & Hle & Hs & Hi & Hf & Hc)].
  exists idx, p. split; [done|]. split; [lia|]. split; [done|]. split; [done|]. split; [done|].
  split; [done|]. intros Hst. destruct (flush_spec w p Hri Hp) as [(? & _)|(_ & _ & ->)]; [lia|congruence|].
  destruct (reports_keep (drop (Nat.max p (length (hist w) - length (Ring.drops (src w)))) w.(hist))
    (mkReporter (Z.of_nat (length w.(hist))) true w.(rep).(rstart) w.(rep).(handled) w.(rep).(written)
          (w.(rep).(lostTotal) + Z.of_nat (Nat.max p (length (hist w) - length (Ring.drops (src w))) - p)))) as [-> _];
    [by apply Forall_drop| |done].
  destruct (to_ok _ _ Ht). by split.
Qed.

End Reporter.

(** ** A subscriber that missed a drop *)

#[export] Instance start_le_dec a b : Decision (start_le a b).
Proof. unfold start_le. apply _. Defined.

Definition sortSpans : list groupSpan -> list groupSpan := merge_sort start_le.

#[export] Instance sortSpans_sorts : SortsSpans sortSpans.
Proof.
  assert (Transitive start_le) by (intros a b c; unfold start_le; lia).
  assert (Total start_le) by (intros a b; unfold start_le; lia).
  split; [intros l; apply merge_sort_Permutation|]. intros l. by apply (StronglySorted_merge_sort start_le).
Qed.

Definition ex_joined : world := joined (Ring.newDropDistributor 0) [].
Definition ex_sent : world := mkWorld (sent sortSpans 5 ex_joined.(rep)) ex_joined.(src) [5] [] [].
Definition ex_recorded : world :=
  mkWorld ex_sent.(rep) (Ring.record (mkDrop 4 8 2) ex_sent.(src)) [5] [mkDrop 4 8 2] [].
Definition ex_flushed : world :=
  mkWorld (flush sortSpans ex_recorded.(src) ex_recorded.(rep)) ex_recorded.(src) [5] [mkDrop 4 8 2] [mkDrop 4 8 2].

Lemma ex_holds : Ring.holds (Ring.newDropDistributor 0) [].
Proof. apply Ring.newDropDistributor_holds. lia. Qed.

Lemma ex_reachable : rtc (wstep sortSpans) ex_joined ex_flushed.
Proof.
  eapply rtc_l; [apply (w_sent _ ex_joined 5); [unfold seq_ok; lia|vm_compute; reflexivity]|].
  eapply rtc_l; [apply (w_record _ ex_sent (mkDrop 4 8 2)); [unfold drop_ok, seq_ok; cbn; lia|cbn; lia]|].
  eapply rtc_l; [apply (w_flush _ ex_recorded)|]. apply rtc_refl.
Qed.

Lemma drops_told_once_witness :
  NoDup ([5] ++ reported ex_flushed.(rep)) /\ reported ex_flushed.(rep) = [6; 7; 8].
Proof.
  split; [|vm_compute; reflexivity].
  apply (drops_told_once sortSpans _ [] ex_flushed ex_holds (Forall_nil_2 _) ex_reachable).
Defined.

Lemma handled_spans_bounded_witness :
  (length ex_flushed.(rep).(handled) <= maxHandledSpans)%nat /\ ex_flushed.(rep).(handled) = [mkSpan 5 8].
Proof.
  split; [|vm_compute; reflexivity].
  apply (handled_spans_bounded sortSpans _ [] ex_flushed ex_holds (Forall_nil_2 _) ex_reachable).
Defined.

Lemma skip_reports_gap_witness :
  exists out, (reportSkipped sortSpans 9 11 3 ex_sent.(rep)).(written) = [] ++ out /\ NoDup (out ≫= groups) /\
    covered (reportSkipped sortSpans 9 11 3 ex_sent.(rep)).(handled) 10.
Proof.
  destruct (skip_reports_gap sortSpans 9 11 3 ex_sent.(rep)) as (out & Hw & Hnd & _ & Hall & _).
  - split; [vm_compute; repeat split; discriminate|vm_compute; lia|vm_compute; split; [discriminate|reflexivity]].
  - reflexivity.
  - split; [discriminate|reflexivity].
  - split; [discriminate|reflexivity].
  - exists out. split; [exact Hw|]. split; [exact Hnd|]. apply Hall; [split; vm_compute; discriminate|discriminate..].
Defined.

Lemma upstream_drops_forwarded_witness :
  exists idx p, ex_flushed.(rep).(rpos) = Z.of_nat p /\
    Forall2 (fun i x => [mkDrop 4 8 2] !! i = Some x) idx [mkDrop 4 8 2] /\
    Z.of_nat (length idx) + ex_flushed.(rep).(lostTotal) = Z.of_nat p.
Proof.
  destruct (upstream_drops_forwarded sortSpans _ [] ex_flushed ex_holds (Forall_nil_2 _) ex_reachable)
    as (idx & p & Hp & _ & _ & _ & Hf & Hc & _).
  exists idx, p. split; [exact Hp|]. split; [exact Hf|exact Hc].
Defined.
