(* ===== verification/Notify.v ===== *)
(** * Notify: waking every waiter, in the relay and in the ingest

    Both packages wake their egress goroutines with a sequence number and a
    channel that is closed and replaced
    (src/internal/relay/broadcast_notify.go,
    src/internal/ingest/broadcast_notify.go). The two differ in how the pair is
    published and in how the first one is made.

    Each model lets any number of goroutines call [notify] and [listen] at once;
    one step is one atomic action of one goroutine: a load, a store, a
    compare-and-swap, an add, a lock, a close. A channel is a number; a closed
    channel is in [closed]; closing it again panics, as does the dereference of
    a nil pointer. The sequence number is assumed not to wrap. *)
From S2P Require Import Prelude.

Open Scope Z_scope.

Module Relay.

Record notifyState := mkNS { seq : Z; ch : nat }.

(** The two methods. *)
Inductive call := Listen | Notify.

(** Where a goroutine is: outside, at lazyInit's load, at init's store, at
    listen's load, and at notify's lock, load, store, close and unlock. *)
Inductive pc :=
| Idle | LazyInit (c : call) | Init (c : call) | LoadState
| Lock | LoadOld | StoreNew (old : notifyState) | CloseOld (old : notifyState) | Unlock
| Panicked.

(** broadcastNotify, the channels made and closed, the goroutines, and every
    snapshot listen has returned. *)
Record state := mkState {
  ptr : option notifyState;
  mu : option nat;
  fresh : nat;
  closed : gset nat;
  pcs : list pc;
  snaps : list notifyState
}.

Definition goto (i : nat) (p : pc) (s : state) : state :=
  mkState s.(ptr) s.(mu) s.(fresh) s.(closed) (<[i := p]> s.(pcs)) s.(snaps).

(** [b.state.Store(&notifyState{seq: n, ch: make(chan struct{})})]. *)
Definition publish (n : Z) (s : state) : state :=
  mkState (Some (mkNS n s.(fresh))) s.(mu) (S s.(fresh)) s.(closed) s.(pcs) s.(snaps).

Definition set_mu (m : option nat) (s : state) : state :=
  mkState s.(ptr) m s.(fresh) s.(closed) s.(pcs) s.(snaps).

Definition close (c : nat) (s : state) : state :=
  mkState s.(ptr) s.(mu) s.(fresh) ({[c]} ∪ s.(closed)) s.(pcs) s.(snaps).

Definition snapshot (x : notifyState) (s : state) : state :=
  mkState s.(ptr) s.(mu) s.(fresh) s.(closed) s.(pcs) (x :: s.(snaps)).

(** The first action after lazyInit. *)
Definition enter (c : call) : pc := match c with Listen => LoadState | Notify => Lock end.

(** The next action of goroutine [i]; [a] is the method an idle one calls. [None]
    when it is blocked on the mutex or has panicked. *)
Definition step (i : nat) (a : call) (s : state) : option state :=
  match s.(pcs) !! i with
  | Some Idle => Some (goto i (LazyInit a) s)
  | Some (LazyInit c) =>
      Some (goto i (match s.(ptr) with None => Init c | Some _ => enter c end) s)
  | Some (Init c) => Some (goto i (enter c) (publish 0 s))
  | Some LoadState =>
      match s.(ptr) with
      | Some x => Some (goto i Idle (snapshot x s))
      | None => Some (goto i Panicked s)
      end
  | Some Lock => match s.(mu) with None => Some (goto i LoadOld (set_mu (Some i) s)) | Some _ => None end
  | Some LoadOld =>
      match s.(ptr) with
      | Some old => Some (goto i (StoreNew old) s)
      | None => Some (goto i Panicked s)
      end
  | Some (StoreNew old) => Some (goto i (CloseOld old) (publish (wrapu 64 (old.(seq) + 1)) s))
  | Some (CloseOld old) =>
      if decide (old.(ch) ∈ s.(closed)) then Some (goto i Panicked s)
      else Some (goto i Unlock (close old.(ch) s))
  | Some Unlock => Some (goto i Idle (set_mu None s))
  | Some Panicked | None => None
  end.

(** The sequence number does not wrap at this step. *)
Definition no_wrap (i : nat) (s : state) : bool :=
  match s.(pcs) !! i with Some (StoreNew old) => old.(seq) + 1 <? 2 ^ 64 | _ => true end.

Definition tstep (s s' : state) : Prop := exists i a, step i a s = Some s' /\ no_wrap i s = true.

(** After [init], and as the zero value, with [n] goroutines. *)
Definition initialised (n : nat) : state := mkState (Some (mkNS 0 0)) None 1 ∅ (replicate n Idle) [].
Definition zero (n : nat) : state := mkState None None 0 ∅ (replicate n Idle) [].

Fixpoint run (sched : list (nat * call)) (s : state) : option state :=
  match sched with
  | [] => Some s
  | (i, a) :: t => if no_wrap i s then step i a s ≫= run t else None
  end.

(** *** The invariant of an initialised broadcast *)

(** Inside the critical section. *)
Definition inside (p : pc) : bool :=
  match p with LoadOld | StoreNew _ | CloseOld _ | Unlock => true | _ => false end.

Record inv (s : state) : Prop := {
  i_cur : exists cur, s.(ptr) = Some cur /\ (cur.(ch) < s.(fresh))%nat /\ (cur.(ch) ∉ s.(closed)) /\ 0 <= cur.(seq);
  i_fresh c : c ∈ s.(closed) -> (c < s.(fresh))%nat;
  i_mu i p : s.(pcs) !! i = Some p -> inside p = true -> s.(mu) = Some i;
  i_held i : s.(mu) = Some i -> exists p, s.(pcs) !! i = Some p /\ inside p = true;
  i_good i p : s.(pcs) !! i = Some p -> p <> Panicked /\ forall c, p <> Init c;
  i_store i old : s.(pcs) !! i = Some (StoreNew old) -> s.(ptr) = Some old;
  i_close i old cur : s.(pcs) !! i = Some (CloseOld old) -> s.(ptr) = Some cur ->
    (old.(ch) ∉ s.(closed)) /\ old.(ch) <> cur.(ch) /\ (old.(ch) < s.(fresh))%nat /\ cur.(seq) = old.(seq) + 1;
  i_snap x cur : x ∈ s.(snaps) -> s.(ptr) = Some cur ->
    (x = cur \/ x.(seq) < cur.(seq) /\ (x.(ch) ∈ s.(closed) \/ exists i, s.(pcs) !! i = Some (CloseOld x)))
}.

Lemma initialised_inv n : inv (initialised n).
Proof.
  assert (Hp : forall i p, replicate n Idle !! i = Some p -> p = Idle) by (intros i p Hr; apply lookup_replicate in Hr; tauto).
  split; cbn.
  - exists (mkNS 0 0). cbn. split; [done|]. split; [lia|]. split; [set_solver|lia].
  - set_solver.
  - by intros i p ->%Hp.
  - done.
  - by intros i p ->%Hp.
  - by intros i old ?%Hp.
  - by intros i old cur ?%Hp.
  - by intros x cur ?%not_elem_of_nil.
Qed.

(** The program counters after one of them moved. *)
Lemma goto_lookup i p s j q :
  (goto i p s).(pcs) !! j = Some q -> (j = i /\ q = p) \/ (j <> i /\ s.(pcs) !! j = Some q).
Proof.
  cbn. rewrite list_lookup_insert_Some. intros [(-> & -> & _)|[? ?]]; [by left|right; auto].
Qed.

Lemma goto_lookup_eq i p s q : s.(pcs) !! i = Some q -> (goto i p s).(pcs) !! i = Some p.
Proof. intros H. cbn. apply list_lookup_insert_eq, lookup_lt_is_Some. eauto. Qed.

Lemma goto_lookup_ne i j p s : i <> j -> (goto i p s).(pcs) !! j = s.(pcs) !! j.
Proof. intros H. cbn. by apply list_lookup_insert_ne. Qed.

(** A move that stays inside or outside the critical section and neither
    starts nor ends a close. *)
Lemma move_inv s i p p' :
  inv s -> s.(pcs) !! i = Some p -> inside p' = inside p ->
  (p' <> Panicked /\ forall c, p' <> Init c) -> (forall old, p <> CloseOld old) -> (forall old, p' <> CloseOld old) ->
  (forall old, p' = StoreNew old -> s.(ptr) = Some old) -> inv (goto i p' s).
Proof.
  intros Hi Hp Hin Hg Hnc Hnc' Hst. split.
  - apply (i_cur _ Hi).
  - apply (i_fresh _ Hi).
  - intros j q [[-> ->]|[Hj Hq]]%goto_lookup Hq'; cbn; [|by apply (i_mu _ Hi _ _ Hq)].
    apply (i_mu _ Hi _ _ Hp). congruence.
  - cbn [mu goto]. intros j Hj. apply (i_held _ Hi) in Hj as (q & Hq & Hin').
    destruct (decide (i = j)) as [<-|Hne]; [|exists q; by rewrite goto_lookup_ne].
    exists p'. split; [by eapply goto_lookup_eq|]. congruence.
  - intros j q [[-> ->]|[Hj Hq]]%goto_lookup; [done|by apply (i_good _ Hi _ _ Hq)].
  - intros j old [[-> Heq]|[Hj Hq]]%goto_lookup; [by apply Hst|by apply (i_store _ Hi _ _ Hq)].
  - intros j old cur [[-> Heq]|[Hj Hq]]%goto_lookup; [by destruct (Hnc' old)|by apply (i_close _ Hi _ _ _ Hq)].
  - intros x cur Hx Hc. destruct (i_snap _ Hi x cur Hx Hc) as [?|(? & [?|(j & Hj)])]; [by left|right; auto|].
    right. split; [done|]. right. exists j. destruct (decide (i = j)) as [<-|Hne].
    + rewrite Hp in Hj. injection Hj as ->. by destruct (Hnc x).
    + by rewrite goto_lookup_ne.
Qed.

Lemma snapshot_inv s cur : inv s -> s.(ptr) = Some cur -> inv (snapshot cur s).
Proof.
  intros [] Hc. split; try done. cbn. intros x c [->|Hx]%elem_of_cons Hp; [|by apply i_snap0].
  left. congruence.
Qed.

Lemma lock_inv s i : inv s -> s.(pcs) !! i = Some Lock -> s.(mu) = None -> inv (goto i LoadOld (set_mu (Some i) s)).
Proof.
  intros Hi Hp Hm.
  assert (Hout : forall j q, s.(pcs) !! j = Some q -> inside q = true -> False).
  { intros j q Hq Hin. pose proof (i_mu _ Hi _ _ Hq Hin). congruence. }
  split; cbn [ptr mu closed snaps fresh goto set_mu].
  - apply (i_cur _ Hi).
  - apply (i_fresh _ Hi).
  - intros j q [[-> ->]|[Hj Hq]]%goto_lookup Hq'; [done|]. by destruct (Hout _ _ Hq Hq').
  - intros j [= <-]. exists LoadOld. split; [|done]. eapply (goto_lookup_eq i LoadOld (set_mu (Some i) s)). exact Hp.
  - intros j q [[-> ->]|[Hj Hq]]%goto_lookup; [done|by apply (i_good _ Hi _ _ Hq)].
  - intros j old [[-> Heq]|[Hj Hq]]%goto_lookup; [done|by destruct (Hout _ _ Hq)].
  - intros j old cur [[-> Heq]|[Hj Hq]]%goto_lookup; [done|by destruct (Hout _ _ Hq)].
  - intros x cur Hx Hc. destruct (i_snap _ Hi x cur Hx Hc) as [?|(? & [?|(j & Hj)])]; [by left|right; auto|].
    by destruct (Hout _ _ Hj).
Qed.

(** Only the holder of the mutex is inside. *)
Lemma inside_unique s i j p q :
  inv s -> s.(pcs) !! i = Some p -> inside p = true -> s.(pcs) !! j = Some q -> inside q = true -> i = j.
Proof.
  intros Hi Hp Hin Hq Hin'. pose proof (i_mu _ Hi _ _ Hp Hin). pose proof (i_mu _ Hi _ _ Hq Hin'). congruence.
Qed.

Lemma unlock_inv s i : inv s -> s.(pcs) !! i = Some Unlock -> inv (goto i Idle (set_mu None s)).
Proof.
  intros Hi Hp.
  assert (Hout : forall j q, j <> i -> s.(pcs) !! j = Some q -> inside q = true -> False).
  { intros j q Hne Hq Hin. apply Hne. symmetry. by eapply inside_unique. }
  split; cbn [ptr mu closed snaps fresh goto set_mu].
  - apply (i_cur _ Hi).
  - apply (i_fresh _ Hi).
  - intros j q [[-> ->]|[Hj Hq]]%goto_lookup Hq'; [done|]. by destruct (Hout _ _ Hj Hq Hq').
  - done.
  - intros j q [[-> ->]|[Hj Hq]]%goto_lookup; [done|by apply (i_good _ Hi _ _ Hq)].
  - intros j old [[-> Heq]|[Hj Hq]]%goto_lookup; [done|by destruct (Hout _ _ Hj Hq)].
  - intros j old cur [[-> Heq]|[Hj Hq]]%goto_lookup; [done|by destruct (Hout _ _ Hj Hq)].
  - intros x cur Hx Hc. destruct (i_snap _ Hi x cur Hx Hc) as [?|(? & [?|(j & Hj)])]; [by left|right; auto|].
    destruct (decide (j = i)) as [->|Hne]; [congruence|]. by destruct (Hout _ _ Hne Hj).
Qed.

Lemma relay_store_inv s i old :
  inv s -> s.(pcs) !! i = Some (StoreNew old) -> old.(seq) + 1 < 2 ^ 64 ->
  inv (goto i (CloseOld old) (publish (wrapu 64 (old.(seq) + 1)) s)).
Proof.
  intros Hi Hp Hlt. pose proof (i_store _ Hi _ _ Hp) as Hptr.
  destruct (i_cur _ Hi) as (cur & Hcur & Hfr & Hop & Hpos). rewrite Hptr in Hcur. injection Hcur as <-.
  rewrite wrapu_id by (unfold in_u; lia).
  assert (Hout : forall j q, j <> i -> s.(pcs) !! j = Some q -> inside q = true -> False).
  { intros j q Hne Hq Hin. apply Hne. symmetry. by eapply inside_unique. }
  split; cbn [ptr mu closed snaps fresh goto publish].
  - exists (mkNS (old.(seq) + 1) s.(fresh)). cbn. split; [done|]. split; [lia|]. split; [|lia].
    intros Hc%(i_fresh _ Hi). lia.
  - intros c Hc%(i_fresh _ Hi). lia.
  - intros j q [[-> ->]|[Hj Hq]]%goto_lookup Hq'; [by apply (i_mu _ Hi _ _ Hp)|by apply (i_mu _ Hi _ _ Hq)].
  - intros j Hj. apply (i_held _ Hi) in Hj as (q & Hq & Hin'). destruct (decide (i = j)) as [<-|Hne].
    + exists (CloseOld old). split; [|done]. eapply (goto_lookup_eq i (CloseOld old) (publish (seq old + 1) s)). exact Hp.
    + exists q. by rewrite goto_lookup_ne.
  - intros j q [[-> ->]|[Hj Hq]]%goto_lookup; [done|by apply (i_good _ Hi _ _ Hq)].
  - intros j old' [[-> Heq]|[Hj Hq]]%goto_lookup; [done|by destruct (Hout _ _ Hj Hq)].
  - intros j old' cur' [[-> Heq]|[Hj Hq]]%goto_lookup [= <-]; [|by destruct (Hout _ _ Hj Hq)].
    injection Heq as ->. cbn. split; [done|]. split; [lia|]. split; [lia|done].
  - intros x cur' Hx [= <-]. right. cbn. destruct (i_snap _ Hi x old Hx Hptr) as [->|(? & [?|(j & Hj)])].
    + split; [lia|]. right. exists i. eapply (goto_lookup_eq i (CloseOld old) (publish (seq old + 1) s)). exact Hp.
    + split; [lia|by left].
    + destruct (decide (j = i)) as [->|Hne]; [congruence|]. by destruct (Hout _ _ Hne Hj).
Qed.

Lemma relay_close_inv s i old :
  inv s -> s.(pcs) !! i = Some (CloseOld old) -> inv (goto i Unlock (close old.(ch) s)).
Proof.
  intros Hi Hp. destruct (i_cur _ Hi) as (cur & Hcur & Hfr & Hop & Hpos).
  destruct (i_close _ Hi _ _ _ Hp Hcur) as (Hno & Hne & Hfo & Hseq).
  assert (Hout : forall j q, j <> i -> s.(pcs) !! j = Some q -> inside q = true -> False).
  { intros j q Hji Hq Hin. apply Hji. symmetry. by eapply inside_unique. }
  split; cbn [ptr mu closed snaps fresh goto close].
  - exists cur. split; [done|]. split; [done|]. split; [set_solver|done].
  - intros c [->%elem_of_singleton|Hc]%elem_of_union; [done|]. by apply (i_fresh _ Hi).
  - intros j q [[-> ->]|[Hj Hq]]%goto_lookup Hq'; [by apply (i_mu _ Hi _ _ Hp)|by apply (i_mu _ Hi _ _ Hq)].
  - intros j Hj. apply (i_held _ Hi) in Hj as (q & Hq & Hin'). destruct (decide (i = j)) as [<-|Hij].
    + exists Unlock. split; [|done]. eapply (goto_lookup_eq i Unlock (close (ch old) s)). exact Hp.
    + exists q. by rewrite goto_lookup_ne.
  - intros j q [[-> ->]|[Hj Hq]]%goto_lookup; [done|by apply (i_good _ Hi _ _ Hq)].
  - intros j old' [[-> Heq]|[Hj Hq]]%goto_lookup; [done|by destruct (Hout _ _ Hj Hq)].
  - intros j old' cur' [[-> Heq]|[Hj Hq]]%goto_lookup; [done|by destruct (Hout _ _ Hj Hq)].
  - intros x cur' Hx Hc. destruct (i_snap _ Hi x cur' Hx Hc) as [?|(? & [?|(j & Hj)])]; [by left|right; set_solver|].
    right. split; [done|]. left. destruct (decide (j = i)) as [->|Hji]; [|by destruct (Hout _ _ Hji Hj)].
    rewrite Hp in Hj. injection Hj as ->. set_solver.
Qed.

Lemma relay_step_inv s s' : tstep s s' -> inv s -> inv s'.
Proof.
  intros (i & a & Hstep & Hov) Hi. unfold step in Hstep.
  destruct (i_cur _ Hi) as (cur & Hcur & _ & Hop & _). rewrite Hcur in Hstep.
  destruct (s.(pcs) !! i) as [p|] eqn:Hp; [|done]. destruct p; simplify_eq.
  - by eapply move_inv.
  - by destruct c; eapply move_inv.
  - by destruct (i_good _ Hi _ _ Hp) as [_ ?%(fun H => H c)].
  - eapply move_inv; [by apply snapshot_inv|done..].
  - case_match; simplify_eq. by apply lock_inv.
  - eapply move_inv; [done|done|done|done|done|done|]. by intros ? [= <-].
  - apply relay_store_inv; [done|done|]. unfold no_wrap in Hov. rewrite Hp in Hov. by apply Z.ltb_lt.
  - destruct (i_close _ Hi _ _ _ Hp Hcur) as (Hno & _). rewrite decide_False in Hstep by done. simplify_eq. by apply relay_close_inv.
  - by apply unlock_inv.
Qed.

(** No wake-up is lost once the broadcast is initialised, however many
    goroutines call notify and listen at once: none ever panics, and a snapshot
    listen returned is either still the current one or older, and then its
    channel is closed or about to be closed by the goroutine that holds the
    mutex. So with no notify under way every goroutine waiting on an older
    snapshot is awake. *)
Theorem relay_notify_wakes n s :
  rtc tstep (initialised n) s ->
  (Panicked ∉ s.(pcs)) /\
  exists cur, s.(ptr) = Some cur /\ (cur.(ch) ∉ s.(closed)) /\
    forall x, x ∈ s.(snaps) ->
      x = cur \/
      x.(seq) < cur.(seq) /\
      (x.(ch) ∈ s.(closed) \/ exists i, s.(mu) = Some i /\ s.(pcs) !! i = Some (CloseOld x)).
Proof.
  intros Hr. assert (Hi : inv s).
  { pose proof (initialised_inv n) as H0. induction Hr as [|a b c Hab _ IH]; [done|]. apply IH. by eapply relay_step_inv. }
  split; [intros Hp; apply list_elem_of_lookup in Hp as (i & Hp); by apply (i_good _ Hi) in Hp as [? _]|].
  destruct (i_cur _ Hi) as (cur & Hcur & _ & Hop & _). exists cur. split; [done|]. split; [done|].
  intros x Hx. destruct (i_snap _ Hi x cur Hx Hcur) as [?|(? & [?|(i & Hp)])]; [by left|auto|].
  right. split; [done|]. right. exists i. split; [|done]. by apply (i_mu _ Hi _ _ Hp).
Qed.

(** *** The zero value *)

(** A channel no goroutine will ever close: it is not the current one, nobody
    is about to close it or to read it as the current one. *)
Definition orphan (c : nat) (s : state) : Prop :=
  (c < s.(fresh))%nat /\ (c ∉ s.(closed)) /\ (forall x, s.(ptr) = Some x -> x.(ch) <> c) /\
  forall i x, s.(pcs) !! i = Some (StoreNew x) \/ s.(pcs) !! i = Some (CloseOld x) -> x.(ch) <> c.

Lemma orphan_step c s s' : tstep s s' -> orphan c s -> orphan c s'.
Proof.
  intros (i & a & Hstep & _) (Hf & Hc & Hp & Ht). unfold step in Hstep.
  assert (Hmove : forall p s1, s1.(pcs) = s.(pcs) ->
    (forall x, p = StoreNew x \/ p = CloseOld x -> x.(ch) <> c) ->
    (c < s1.(fresh))%nat -> (c ∉ s1.(closed)) -> (forall x, s1.(ptr) = Some x -> x.(ch) <> c) -> orphan c (goto i p s1)).
  { intros p s1 Hs1 Hx Hf1 Hc1 Hp1. split; [done|]. split; [done|]. split; [done|].
    intros j x [Hj|Hj]; apply goto_lookup in Hj as [[-> <-]|[_ Hj]]; first [solve [apply Hx; auto] | apply (Ht j); rewrite <- Hs1; auto]. }
  destruct (s.(pcs) !! i) as [p|] eqn:Hpc; [|done].
  destruct p; simplify_eq; repeat (case_match; simplify_eq); apply Hmove; cbn; try done;
    try (by intros ? [|]); try lia; try (by intros ? [= <-]; cbn; lia);
    try (by destruct c0; intros ? [|]); try (by intros x Hx; apply Hp; congruence).
  - intros x [[= <-]|]; [auto|done].
  - intros x [?|[= <-]]; [done|]. apply (Ht i). auto.
  - intros Hin%elem_of_union. destruct Hin as [Heq%elem_of_singleton|]; [|done]. revert Heq. apply not_eq_sym, (Ht i). auto.
Qed.

(** Two goroutines enter lazyInit before the first store: the first waits on
    the pair it installed, then the second overwrites it. *)
Definition lazy_race : list (nat * call) :=
  [(0, Listen); (0, Listen); (1, Listen); (1, Listen); (1, Listen); (1, Listen); (0, Listen)]%nat.

(** As the zero value, which is how newTrackDistributor leaves it, the
    broadcast can lose every wake-up of a waiter. When two goroutines run
    lazyInit at once, the second store replaces the pair the first already
    returned to a caller; the channel of that caller is then never closed,
    whatever notifications follow. *)
Theorem relay_zero_value_loses_wakeups n :
  (2 <= n)%nat ->
  exists s x, run lazy_race (zero n) = Some s /\ x ∈ s.(snaps) /\
    forall s', rtc tstep s s' -> x.(ch) ∉ s'.(closed).
Proof.
  intros Hn. destruct n as [|[|n]]; [lia..|].
  eexists _, (mkNS 0 0). split; [reflexivity|]. split; [apply elem_of_cons; by left|]. intros s' Hr.
  assert (Ho : orphan 0 s'); [|apply Ho].
  match type of Hr with rtc _ ?s0 _ => assert (H0 : orphan 0 s0) end.
  { split; [cbn; lia|]. split; [set_solver|]. split; [by intros x [= <-]|].
    intros [|[|i]] x; cbn; [by intros [|]..|]. intros [H|H]; apply lookup_replicate in H as [? _]; done. }
  induction Hr as [|a b c Hab _ IH]; [done|]. apply IH. by eapply orphan_step.
Qed.

(** *** Examples *)

Definition one_notify : list (nat * call) :=
  [(0, Listen); (0, Listen); (0, Listen); (1, Notify); (1, Notify); (1, Notify); (1, Notify); (1, Notify); (1, Notify); (1, Notify)]%nat.

Definition notified : state := default (zero 2) (run one_notify (initialised 2)).

Lemma relay_run_steps sched s s' : run sched s = Some s' -> rtc tstep s s'.
Proof.
  revert s. induction sched as [|[i a] t IH]; intros s; cbn; [intros [= ->]; apply rtc_refl|].
  destruct (no_wrap i s) eqn:Hw; [|done]. destruct (step i a s) as [s1|] eqn:Hs; [|done]. cbn. intros Hr.
  eapply rtc_l; [by exists i, a|]. by apply IH.
Qed.

Lemma notified_reachable : rtc tstep (initialised 2) notified.
Proof. apply (relay_run_steps one_notify). vm_compute. reflexivity. Qed.

Lemma relay_notify_wakes_witness :
  (Panicked ∉ notified.(pcs)) /\ exists cur, notified.(ptr) = Some cur /\ (cur.(ch) ∉ notified.(closed)) /\
    (mkNS 0 0 = cur \/ 0 < cur.(seq) /\ (0%nat ∈ notified.(closed) \/
       exists i, notified.(mu) = Some i /\ notified.(pcs) !! i = Some (CloseOld (mkNS 0 0)))).
Proof.
  destruct (relay_notify_wakes 2 notified notified_reachable) as (Hnp & cur & Hc & Ho & Hall).
  split; [exact Hnp|]. exists cur. split; [exact Hc|]. split; [exact Ho|].
  apply (Hall (mkNS 0 0)). vm_compute. apply elem_of_cons. by left.
Defined.

Lemma relay_zero_value_loses_wakeups_witness :
  exists s x, run lazy_race (zero 2) = Some s /\ x ∈ s.(snaps) /\ forall s', rtc tstep s s' -> x.(ch) ∉ s'.(closed).
Proof. apply (relay_zero_value_loses_wakeups 2). lia. Defined.

End Relay.

Module Ingest.

Record notifyState := mkNS { seq : Z; ch : nat }.

Inductive call := Notify | AddListener | Listen | RemoveListener.

(** The actions of the methods, in order. [b] is the sequence number after a
    notify's own increment. *)
Inductive pc :=
| Idle
| LazyInit (c : call) | LazySwap (c : call)
| Bump | Check1 (b : Z) | Lock (b : Z) | Check2 (b : Z) | LoadOld (b : Z) | StoreNew (old : nat) | CloseOld (old : nat) | Unlock
| ALock | AAdd | ALoadSeq | ALoadCh (q : Z) | AUnlock (x : notifyState)
| LLoadCh | LLoadSeq (c : nat)
| Remove
| Panicked.

(** A goroutine, with the latest snapshot of a registered listener. *)
Record thread := mkThread { at_ : pc; snap : option notifyState }.

Record state := mkState {
  bseq : Z;
  bch : option nat;
  listeners : Z;
  mu : option nat;
  fresh : nat;
  closed : gset nat;
  threads : list thread
}.

Definition upd (i : nat) (t : thread) (s : state) : state :=
  mkState s.(bseq) s.(bch) s.(listeners) s.(mu) s.(fresh) s.(closed) (<[i := t]> s.(threads)).
Definition set_seq (n : Z) (s : state) : state :=
  mkState n s.(bch) s.(listeners) s.(mu) s.(fresh) s.(closed) s.(threads).
Definition set_listeners (n : Z) (s : state) : state :=
  mkState s.(bseq) s.(bch) n s.(mu) s.(fresh) s.(closed) s.(threads).
Definition set_mu (m : option nat) (s : state) : state :=
  mkState s.(bseq) s.(bch) s.(listeners) m s.(fresh) s.(closed) s.(threads).
(** [ch := make(chan struct{}); b.ch.Store(&ch)]. *)
Definition install (s : state) : state :=
  mkState s.(bseq) (Some s.(fresh)) s.(listeners) s.(mu) (S s.(fresh)) s.(closed) s.(threads).
Definition close (c : nat) (s : state) : state :=
  mkState s.(bseq) s.(bch) s.(listeners) s.(mu) s.(fresh) ({[c]} ∪ s.(closed)) s.(threads).

(** What an idle goroutine may call: a registered listener may listen and
    deregister, the others may register; all may notify. *)
Definition may (c : call) (t : thread) : bool :=
  match c, t.(snap) with
  | Notify, _ => true
  | AddListener, None => true
  | Listen, Some _ => true
  | RemoveListener, Some _ => true
  | _, _ => false
  end.

Definition enter (c : call) : pc :=
  match c with Notify => Bump | AddListener => ALock | Listen => LLoadCh | RemoveListener => Remove end.

Definition step (i : nat) (a : call) (s : state) : option state :=
  t ← s.(threads) !! i;
  let go p := upd i (mkThread p t.(snap)) in
  match t.(at_) with
  | Idle =>
      if may a t then
        Some (go (match a with RemoveListener => Remove | _ => LazyInit a end) s)
      else None
  | LazyInit c => Some (go (match s.(bch) with None => LazySwap c | Some _ => enter c end) s)
  | LazySwap c => (* CompareAndSwap(nil, &ch) *)
      Some (go (enter c) (match s.(bch) with None => install s | Some _ => s end))
  | Bump => let n := wrapu 64 (s.(bseq) + 1) in Some (go (Check1 n) (set_seq n s))
  | Check1 b => Some (go (if s.(listeners) =? 0 then Idle else Lock b) s)
  | Lock b => match s.(mu) with None => Some (go (Check2 b) (set_mu (Some i) s)) | Some _ => None end
  | Check2 b => Some (go (if s.(listeners) =? 0 then Unlock else LoadOld b) s)
  | LoadOld b => Some (go (match s.(bch) with Some c => StoreNew c | None => Panicked end) s)
  | StoreNew old => Some (go (CloseOld old) (install s))
  | CloseOld old =>
      if decide (old ∈ s.(closed)) then Some (go Panicked s) else Some (go Unlock (close old s))
  | Unlock => Some (go Idle (set_mu None s))
  | ALock => match s.(mu) with None => Some (go AAdd (set_mu (Some i) s)) | Some _ => None end
  | AAdd => Some (go ALoadSeq (set_listeners (s.(listeners) + 1) s))
  | ALoadSeq => Some (go (ALoadCh s.(bseq)) s)
  | ALoadCh q => Some (go (match s.(bch) with Some c => AUnlock (mkNS q c) | None => Panicked end) s)
  | AUnlock x => Some (upd i (mkThread Idle (Some x)) (set_mu None s))
  | LLoadCh => Some (go (match s.(bch) with Some c => LLoadSeq c | None => Panicked end) s)
  | LLoadSeq c => Some (upd i (mkThread Idle (Some (mkNS s.(bseq) c))) s)
  | Remove => Some (upd i (mkThread Idle None) (set_listeners (s.(listeners) - 1) s))
  | Panicked => None
  end.

Definition no_wrap (s : state) : bool := s.(bseq) + 1 <? 2 ^ 64.

Definition tstep (s s' : state) : Prop := exists i a, step i a s = Some s' /\ no_wrap s = true.

(** The zero value, with [n] goroutines. *)
Definition zero (n : nat) : state := mkState 0 None 0 None 0 ∅ (replicate n (mkThread Idle None)).

Fixpoint run (sched : list (nat * call)) (s : state) : option state :=
  match sched with
  | [] => Some s
  | (i, a) :: t => if no_wrap s then step i a s ≫= run t else None
  end.

(** *** The invariant *)

(** In the critical section. *)
Definition inside (p : pc) : bool :=
  match p with
  | Check2 _ | LoadOld _ | StoreNew _ | CloseOld _ | Unlock | AAdd | ALoadSeq | ALoadCh _ | AUnlock _ => true
  | _ => false
  end.

(** Counted in [listeners]. *)
Definition counted (t : thread) : bool :=
  match t.(at_), t.(snap) with
  | (ALoadSeq | ALoadCh _ | AUnlock _), _ => true
  | _, Some _ => true
  | _, None => false
  end.

Definition ncounted (l : list thread) : Z := foldr (fun t n => Z.b2z (counted t) + n) 0 l.

(** A notify that incremented past [q] and has yet to close the channel. *)
Definition after_bump (q : Z) (p : pc) : Prop :=
  match p with
  | Check1 b | Lock b | Check2 b | LoadOld b => q < b
  | StoreNew _ => True
  | _ => False
  end.

(** The actions that need the pointer to be set. *)
Definition needs_ch (p : pc) : bool :=
  match p with Idle | LazyInit _ | LazySwap _ | Remove => false | _ => true end.

Definition past (s : state) (q : Z) : Prop :=
  s.(bseq) = q \/ exists j t, s.(threads) !! j = Some t /\ after_bump q t.(at_).

(** [c] wakes whoever waits on it: closed, about to be, or current. *)
Definition fading (s : state) (c : nat) : Prop :=
  c ∈ s.(closed) \/ exists j t, s.(threads) !! j = Some t /\ t.(at_) = CloseOld c.

(** Who is registered while in which method. *)
Definition role_ok (t : thread) : bool :=
  match t.(at_) with
  | LazyInit c | LazySwap c => may c t
  | ALock | AAdd | ALoadSeq | ALoadCh _ | AUnlock _ => may AddListener t
  | LLoadCh | LLoadSeq _ | Remove => may Listen t
  | _ => true
  end.

(** What holds of goroutine [i]. *)
Record tinv (s : state) (i : nat) (t : thread) : Prop := {
  t_set : needs_ch t.(at_) = true -> is_Some s.(bch);
  t_ok : t.(at_) <> Panicked;
  t_role : role_ok t = true;
  t_mu : inside t.(at_) = true -> s.(mu) = Some i;
  t_store c : t.(at_) = StoreNew c -> s.(bch) = Some c;
  t_close c : t.(at_) = CloseOld c -> (c ∉ s.(closed)) /\ s.(bch) <> Some c /\ (c < s.(fresh))%nat;
  t_loaded q : t.(at_) = ALoadCh q -> past s q;
  t_new x : t.(at_) = AUnlock x -> s.(bch) = Some x.(ch) /\ past s x.(seq);
  t_listen c : t.(at_) = LLoadSeq c -> fading s c \/ s.(bch) = Some c;
  t_snap x : t.(snap) = Some x -> fading s x.(ch) \/ s.(bch) = Some x.(ch) /\ past s x.(seq)
}.

Record inv (s : state) : Prop := {
  i_seq : 0 <= s.(bseq);
  i_cur c : s.(bch) = Some c -> (c < s.(fresh))%nat /\ (c ∉ s.(closed));
  i_fresh c : c ∈ s.(closed) -> (c < s.(fresh))%nat;
  i_count : s.(listeners) = ncounted s.(threads);
  i_thread i t : s.(threads) !! i = Some t -> tinv s i t
}.

Lemma zero_inv n : inv (zero n).
Proof.
  split; cbn; [lia|done|set_solver| |].
  - induction n as [|n IH]; [done|]. cbn. by rewrite <- IH.
  - intros i t [-> _]%lookup_replicate. by split.
Qed.

(** What another goroutine's step must respect. *)
Lemma tinv_mono s s' j t :
  tinv s j t ->
  (is_Some s.(bch) -> is_Some s'.(bch)) ->
  (inside t.(at_) = true -> s.(mu) = Some j ->
     s'.(mu) = Some j /\ s'.(bch) = s.(bch) /\ s'.(closed) = s.(closed) /\ (s.(fresh) <= s'.(fresh))%nat) ->
  (counted t = true -> s'.(bch) = s.(bch) -> forall q, past s q -> past s' q) ->
  (forall c, fading s c -> fading s' c) ->
  (forall c, s.(bch) = Some c -> s'.(bch) = Some c \/ fading s' c) ->
  tinv s' j t.
Proof.
  intros Ht Hset Hin Hpast Hfad Hcur.
  assert (Hin' : inside t.(at_) = true -> s'.(mu) = Some j /\ s'.(bch) = s.(bch) /\ s'.(closed) = s.(closed) /\ (s.(fresh) <= s'.(fresh))%nat).
  { intros Hi. apply Hin; [done|]. by apply (t_mu _ _ _ Ht). }
  split.
  - intros Hn. by apply Hset, (t_set _ _ _ Ht).
  - apply (t_ok _ _ _ Ht).
  - apply (t_role _ _ _ Ht).
  - intros Hi. by destruct (Hin' Hi).
  - intros c Hc. destruct Hin' as (_ & -> & _); [by rewrite Hc|]. by apply (t_store _ _ _ Ht).
  - intros c Hc. destruct Hin' as (_ & -> & -> & Hf); [by rewrite Hc|]. destruct (t_close _ _ _ Ht c Hc) as (? & ? & ?).
    split; [done|]. split; [done|lia].
  - intros q Hq. destruct Hin' as (_ & Hb & _); [by rewrite Hq|]. apply Hpast; [unfold counted; by rewrite Hq|done|].
    by apply (t_loaded _ _ _ Ht).
  - intros x Hx. destruct Hin' as (_ & Hb & _); [by rewrite Hx|]. destruct (t_new _ _ _ Ht x Hx) as [? ?].
    split; [congruence|]. apply Hpast; [unfold counted; by rewrite Hx|done|done].
  - intros c Hc. destruct (t_listen _ _ _ Ht c Hc) as [?|Hb]; [left; auto|]. destruct (Hcur _ Hb); auto.
  - intros x Hx. assert (Hct : counted t = true) by (unfold counted; rewrite Hx; by destruct (at_ t)).
    destruct (t_snap _ _ _ Ht x Hx) as [?|[Hb Hp]]; [left; auto|]. destruct (Hcur _ Hb) as [Hb'|]; [|by left].
    right. split; [done|]. apply Hpast; [done|congruence|done].
Qed.

Lemma upd_lookup i t s j u :
  (upd i t s).(threads) !! j = Some u -> (j = i /\ u = t) \/ (j <> i /\ s.(threads) !! j = Some u).
Proof.
  cbn. rewrite list_lookup_insert_Some. intros [(-> & -> & _)|[? ?]]; [by left|right; auto].
Qed.

Lemma count_insert (l : list thread) i t t' :
  l !! i = Some t -> ncounted (<[i := t']> l) = ncounted l - Z.b2z (counted t) + Z.b2z (counted t').
Proof.
  revert i. induction l as [|x l IH]; intros i Hi; [done|]. destruct i as [|i]; cbn in Hi.
  - injection Hi as ->. cbn. lia.
  - change (<[S i := t']> (x :: l)) with (x :: <[i := t']> l).
    unfold ncounted in *. cbn [foldr]. rewrite (IH i Hi). lia.
Qed.

Lemma ncounted_pos l t : t ∈ l -> counted t = true -> 0 < ncounted l.
Proof.
  assert (Hp : forall l', 0 <= ncounted l').
  { induction l' as [|x l' IH]; cbn; [lia|]. fold (ncounted l'). destruct (counted x); cbn; lia. }
  induction l as [|x l IH]; [by intros ?%not_elem_of_nil|]. rewrite elem_of_cons. specialize (Hp l).
  change (ncounted (x :: l)) with (Z.b2z (counted x) + ncounted l). intros [<-|Hin] Hc; [rewrite Hc; cbn; lia|].
  specialize (IH Hin Hc). destruct (counted x); cbn; lia.
Qed.

(** With no listener counted, no goroutine has a snapshot to honour. *)
Lemma none_counted s i t : inv s -> s.(listeners) = 0 -> s.(threads) !! i = Some t -> counted t = false.
Proof.
  intros Hi Hl Ht. destruct (counted t) eqn:Hc; [|done]. pose proof (i_count _ Hi) as Hn.
  pose proof (ncounted_pos s.(threads) t ltac:(by eapply list_elem_of_lookup_2) Hc). lia.
Qed.

(** The generic step: goroutine [i] moves to [t'] and the shared fields change
    from [s] to [s1]. *)
Lemma upd_inv s s1 i t t' :
  inv s -> s.(threads) !! i = Some t -> s1.(threads) = s.(threads) ->
  0 <= s1.(bseq) ->
  (forall c, s1.(bch) = Some c -> (c < s1.(fresh))%nat /\ (c ∉ s1.(closed))) ->
  (forall c, c ∈ s1.(closed) -> (c < s1.(fresh))%nat) ->
  s1.(listeners) = s.(listeners) - Z.b2z (counted t) + Z.b2z (counted t') ->
  (is_Some s.(bch) -> is_Some s1.(bch)) ->
  (forall j u, j <> i -> s.(threads) !! j = Some u -> inside u.(at_) = true ->
     s1.(mu) = Some j /\ s1.(bch) = s.(bch) /\ s1.(closed) = s.(closed) /\ (s.(fresh) <= s1.(fresh))%nat) ->
  (s1.(bch) = s.(bch) -> s.(listeners) <> 0 -> forall q, past s q -> past (upd i t' s1) q) ->
  (forall c, fading s c -> fading (upd i t' s1) c) ->
  (forall c, s.(bch) = Some c -> s1.(bch) = Some c \/ fading (upd i t' s1) c) ->
  tinv (upd i t' s1) i t' ->
  inv (upd i t' s1).
Proof.
  intros Hi Ht Hth Hseq Hcur Hfr Hl Hset Hin Hpast Hfad Hold Hti.
  split; cbn [bseq bch listeners closed fresh upd]; [done|done|done| |].
  - cbn [threads upd]. rewrite Hth, (count_insert _ _ _ _ Ht), <- (i_count _ Hi). done.
  - intros j u [[-> ->]|[Hj Hu]]%upd_lookup; [done|]. rewrite Hth in Hu.
    apply (tinv_mono s); [by apply (i_thread _ Hi)|done| |..|done|done].
    + intros Hins _. by apply (Hin j u).
    + intros Hc Hb q. apply Hpast; [done|]. intros H0. rewrite (none_counted s j u Hi H0 Hu) in Hc. done.
Qed.

(** Pending notifies stay pending when goroutine [i] keeps its own. *)
Lemma past_upd s s1 i t t' q :
  s.(threads) !! i = Some t -> s1.(threads) = s.(threads) -> s1.(bseq) = s.(bseq) ->
  (after_bump q t.(at_) -> after_bump q t'.(at_)) -> past s q -> past (upd i t' s1) q.
Proof.
  intros Ht Hth Hseq Hab [Hq|(j & u & Hj & Hu)]; [left; cbn; congruence|]. right.
  destruct (decide (i = j)) as [<-|Hne].
  - exists i, t'. cbn. rewrite Ht in Hj. injection Hj as <-. split; [|auto]. rewrite Hth.
    apply list_lookup_insert_eq, lookup_lt_is_Some. eauto.
  - exists j, u. cbn. by rewrite list_lookup_insert_ne, Hth.
Qed.

Lemma fading_upd s s1 i t t' c :
  s.(threads) !! i = Some t -> s1.(threads) = s.(threads) -> s.(closed) ⊆ s1.(closed) ->
  (t.(at_) = CloseOld c -> c ∈ s1.(closed)) -> fading s c -> fading (upd i t' s1) c.
Proof.
  intros Ht Hth Hcl Hc [Hin|(j & u & Hj & Hu)]; [left; cbn; set_solver|].
  destruct (decide (i = j)) as [<-|Hne]; [left; cbn; apply Hc; congruence|].
  right. exists j, u. cbn. by rewrite list_lookup_insert_ne, Hth.
Qed.

(** What the new position of a goroutine must satisfy by itself. *)
Definition self_ok (s : state) (p : pc) : Prop :=
  match p with
  | Panicked | CloseOld _ => False
  | StoreNew c | LLoadSeq c => s.(bch) = Some c
  | ALoadCh q => past s q
  | AUnlock x => s.(bch) = Some x.(ch) /\ past s x.(seq)
  | _ => True
  end.

(** Moves that change at most the mutex. *)
Lemma local_inv s i t p m :
  inv s -> s.(threads) !! i = Some t -> counted (mkThread p t.(snap)) = counted t ->
  (forall c, t.(at_) <> CloseOld c) ->
  (s.(listeners) <> 0 -> forall q, after_bump q t.(at_) -> after_bump q p) ->
  (forall j u, j <> i -> s.(threads) !! j = Some u -> inside u.(at_) = true -> m = Some j) ->
  (inside p = true -> m = Some i) -> (needs_ch p = true -> is_Some s.(bch)) -> self_ok s p -> role_ok (mkThread p t.(snap)) = true ->
  inv (upd i (mkThread p t.(snap)) (set_mu m s)).
Proof.
  intros Hi Ht Hc Hnc Hab Hmu Hm Hn Hself Hrole. pose proof (i_thread _ Hi _ _ Ht) as Hti.
  assert (Hpast : s.(listeners) <> 0 -> forall q, past s q -> past (upd i (mkThread p t.(snap)) (set_mu m s)) q).
  { intros Hl q. by apply (past_upd s (set_mu m s) i t); [| | |apply Hab]. }
  assert (Hpt : counted t = true -> forall q, past s q -> past (upd i (mkThread p t.(snap)) (set_mu m s)) q).
  { intros Hct. apply Hpast. intros H0. rewrite (none_counted s i t Hi H0 Ht) in Hct. done. }
  assert (Hfad : forall c, fading s c -> fading (upd i (mkThread p t.(snap)) (set_mu m s)) c).
  { intros c. apply (fading_upd s (set_mu m s) i t); [done|done|done|]. intros Hx. by destruct (Hnc c). }
  apply (upd_inv s (set_mu m s) i t); try done.
  - apply (i_seq _ Hi).
  - apply (i_cur _ Hi).
  - apply (i_fresh _ Hi).
  - rewrite Hc. cbn. lia.
  - intros j u Hj Hu Hin. cbn. by rewrite (Hmu j u).
  - by left.
  - split; cbn [at_ snap bch mu closed fresh upd set_mu]; try done.
    + by destruct p.
    + intros c ->. done.
    + by intros c ->.
    + intros q ->. apply Hpt; [by rewrite <- Hc|done].
    + intros x ->. destruct Hself. split; [done|]. apply Hpt; [by rewrite <- Hc|done].
    + intros c ->. by right.
    + intros x Hx. destruct (t_snap _ _ _ Hti x Hx) as [?|[? ?]]; [left; auto|]. right. split; [done|]. apply Hpt; [|done].
      unfold counted. rewrite Hx. by destruct (at_ t).
Qed.

(** Inside the mutex a goroutine is alone. *)
Lemma alone s i t j u :
  inv s -> s.(threads) !! i = Some t -> inside t.(at_) = true ->
  j <> i -> s.(threads) !! j = Some u -> inside u.(at_) = true -> False.
Proof.
  intros Hi Ht Hin Hj Hu Hin'. pose proof (t_mu _ _ _ (i_thread _ Hi _ _ Ht) Hin).
  pose proof (t_mu _ _ _ (i_thread _ Hi _ _ Hu) Hin'). congruence.
Qed.

Lemma set_mu_same s : set_mu s.(mu) s = s.
Proof. by destruct s. Qed.

(** Moves that change nothing shared. *)
Lemma plain_inv s i t p :
  inv s -> s.(threads) !! i = Some t -> counted (mkThread p t.(snap)) = counted t ->
  (forall c, t.(at_) <> CloseOld c) ->
  (s.(listeners) <> 0 -> forall q, after_bump q t.(at_) -> after_bump q p) ->
  inside p = inside t.(at_) -> (needs_ch p = true -> is_Some s.(bch)) -> self_ok s p -> role_ok (mkThread p t.(snap)) = true ->
  inv (upd i (mkThread p t.(snap)) s).
Proof.
  intros Hi Ht Hc Hnc Hab Hin Hn Hs Hrole. rewrite <- (set_mu_same s). apply local_inv; try done.
  - intros j u _ Hu. apply (t_mu _ _ _ (i_thread _ Hi _ _ Hu)).
  - rewrite Hin. apply (t_mu _ _ _ (i_thread _ Hi _ _ Ht)).
Qed.

(** The first channel: nobody depends on one yet. *)
Lemma first_inv s i t c :
  inv s -> s.(threads) !! i = Some t -> t.(at_) = LazySwap c -> s.(bch) = None ->
  inv (upd i (mkThread (enter c) t.(snap)) (install s)).
Proof.
  intros Hi Ht Ha Hb. pose proof (i_thread _ Hi _ _ Ht) as Hti.
  assert (Hfad : forall c', fading s c' -> fading (upd i (mkThread (enter c) t.(snap)) (install s)) c').
  { intros c'. apply (fading_upd s (install s) i t); try done. by rewrite Ha. }
  apply (upd_inv s (install s) i t); try done.
  - apply (i_seq _ Hi).
  - cbn. intros c' [= <-]. split; [lia|]. intros Hx%(i_fresh _ Hi). lia.
  - cbn. intros c' Hx%(i_fresh _ Hi). lia.
  - unfold counted. rewrite Ha. cbn. destruct c, (snap t); cbn; lia.
  - intros j u Hj Hu Hin. destruct (t_set _ _ _ (i_thread _ Hi _ _ Hu)) as [? Hs]; [by destruct (at_ u)|congruence].
  - cbn. congruence.
  - congruence.
  - pose proof (t_role _ _ _ Hti) as Hrole. unfold role_ok in Hrole. rewrite Ha in Hrole.
    split; cbn [at_ snap bch mu closed fresh upd install]; try (by destruct c); try done.
    intros x Hx. destruct (t_snap _ _ _ Hti x Hx) as [?|[? ?]]; [left; auto|congruence].
Qed.

Lemma bump_inv s i t :
  inv s -> s.(threads) !! i = Some t -> t.(at_) = Bump -> s.(bseq) + 1 < 2 ^ 64 ->
  inv (upd i (mkThread (Check1 (wrapu 64 (s.(bseq) + 1))) t.(snap)) (set_seq (wrapu 64 (s.(bseq) + 1)) s)).
Proof.
  intros Hi Ht Ha Hw. pose proof (i_thread _ Hi _ _ Ht) as Hti. pose proof (i_seq _ Hi) as Hs0.
  rewrite wrapu_id by (unfold in_u; lia).
  set (s1 := set_seq (s.(bseq) + 1) s). set (t' := mkThread (Check1 (s.(bseq) + 1)) t.(snap)).
  assert (Hpast : forall q, past s q -> past (upd i t' s1) q).
  { intros q [Hq|(j & u & Hj & Hu)]; right.
    - exists i, t'. cbn. split; [|lia]. apply list_lookup_insert_eq, lookup_lt_is_Some. eauto.
    - destruct (decide (i = j)) as [<-|Hne].
      + rewrite Ht in Hj. injection Hj as <-. by rewrite Ha in Hu.
      + exists j, u. cbn. by rewrite list_lookup_insert_ne. }
  assert (Hfad : forall c', fading s c' -> fading (upd i t' s1) c').
  { intros c'. apply (fading_upd s s1 i t); try done. by rewrite Ha. }
  apply (upd_inv s s1 i t); try done.
  - cbn. lia.
  - apply (i_cur _ Hi).
  - apply (i_fresh _ Hi).
  - unfold counted. rewrite Ha. cbn. destruct (snap t); cbn; lia.
  - intros j u _ Hu Hin. cbn. by rewrite (t_mu _ _ _ (i_thread _ Hi _ _ Hu) Hin).
  - by left.
  - split; cbn [at_ snap bch mu closed fresh upd s1 t' set_seq]; try done.
    + intros _. apply (t_set _ _ _ Hti). by rewrite Ha.
    + intros x Hx. destruct (t_snap _ _ _ Hti x Hx) as [?|[? ?]]; [left; auto|right; auto].
Qed.

Lemma ingest_store_inv s i t old :
  inv s -> s.(threads) !! i = Some t -> t.(at_) = StoreNew old -> inv (upd i (mkThread (CloseOld old) t.(snap)) (install s)).
Proof.
  intros Hi Ht Ha. pose proof (i_thread _ Hi _ _ Ht) as Hti.
  pose proof (t_store _ _ _ Hti _ Ha) as Hb. destruct (i_cur _ Hi _ Hb) as [Hof Hoc].
  assert (Hclosing : fading (upd i (mkThread (CloseOld old) t.(snap)) (install s)) old).
  { right. exists i, (mkThread (CloseOld old) t.(snap)). cbn. split; [|done]. apply list_lookup_insert_eq, lookup_lt_is_Some. eauto. }
  assert (Hfad : forall c', fading s c' -> fading (upd i (mkThread (CloseOld old) t.(snap)) (install s)) c').
  { intros c'. apply (fading_upd s (install s) i t); try done. by rewrite Ha. }
  assert (Hold : forall c, s.(bch) = Some c -> fading (upd i (mkThread (CloseOld old) t.(snap)) (install s)) c) by (intros c; rewrite Hb; by intros [= <-]).
  apply (upd_inv s (install s) i t); try done.
  - apply (i_seq _ Hi).
  - cbn. intros c' [= <-]. split; [lia|]. intros Hx%(i_fresh _ Hi). lia.
  - cbn. intros c' Hx%(i_fresh _ Hi). lia.
  - unfold counted. rewrite Ha. cbn. destruct (snap t); cbn; lia.
  - intros j u Hj Hu Hin. by destruct (alone s i t j u Hi Ht ltac:(by rewrite Ha) Hj Hu Hin).
  - cbn. intros Heq. rewrite Hb in Heq. injection Heq. lia.
  - auto.
  - split; cbn [at_ snap bch mu closed fresh upd install]; try done.
    + intros _. apply (t_mu _ _ _ Hti). by rewrite Ha.
    + intros c [= <-]. split; [done|]. split; [intros [= Heq]; lia|lia].
    + intros x Hx. left. destruct (t_snap _ _ _ Hti x Hx) as [?|[? ?]]; auto.
Qed.

Lemma ingest_close_inv s i t old :
  inv s -> s.(threads) !! i = Some t -> t.(at_) = CloseOld old -> inv (upd i (mkThread Unlock t.(snap)) (close old s)).
Proof.
  intros Hi Ht Ha. pose proof (i_thread _ Hi _ _ Ht) as Hti.
  destruct (t_close _ _ _ Hti _ Ha) as (Hoc & Hne & Hof).
  assert (Hfad : forall c', fading s c' -> fading (upd i (mkThread Unlock t.(snap)) (close old s)) c').
  { intros c'. apply (fading_upd s (close old s) i t); cbn; [done|done|set_solver|]. rewrite Ha. intros [= ->]. set_solver. }
  assert (Hpast : forall q, past s q -> past (upd i (mkThread Unlock t.(snap)) (close old s)) q).
  { intros q. apply (past_upd s (close old s) i t); try done. by rewrite Ha. }
  apply (upd_inv s (close old s) i t); try done.
  - apply (i_seq _ Hi).
  - cbn. intros c' Hc. destruct (i_cur _ Hi _ Hc). split; [done|]. intros [->%elem_of_singleton|?]%elem_of_union; done.
  - cbn. intros c' [->%elem_of_singleton|Hx]%elem_of_union; [done|]. by apply (i_fresh _ Hi).
  - unfold counted. rewrite Ha. cbn. destruct (snap t); cbn; lia.
  - intros j u Hj Hu Hin. by destruct (alone s i t j u Hi Ht ltac:(by rewrite Ha) Hj Hu Hin).
  - by left.
  - split; cbn [at_ snap bch mu closed fresh upd close]; try done.
    + intros _. apply (t_set _ _ _ Hti). by rewrite Ha.
    + intros _. apply (t_mu _ _ _ Hti). by rewrite Ha.
    + intros x Hx. destruct (t_snap _ _ _ Hti x Hx) as [?|[? ?]]; [left; auto|right; auto].
Qed.

Lemma may_add t : may AddListener t = true -> t.(snap) = None.
Proof. unfold may. by destruct (snap t). Qed.

Lemma may_listen t : may Listen t = true -> exists x, t.(snap) = Some x.
Proof. unfold may. destruct (snap t); [eauto|done]. Qed.

(** A role that [at_] fixes. *)
Lemma role_at s i t p : inv s -> s.(threads) !! i = Some t -> t.(at_) = p -> role_ok (mkThread p t.(snap)) = true.
Proof. intros Hi Ht <-. pose proof (t_role _ _ _ (i_thread _ Hi _ _ Ht)). by destruct t. Qed.

Lemma ingest_register_inv s i t :
  inv s -> s.(threads) !! i = Some t -> t.(at_) = AAdd ->
  inv (upd i (mkThread ALoadSeq t.(snap)) (set_listeners (s.(listeners) + 1) s)).
Proof.
  intros Hi Ht Ha. pose proof (i_thread _ Hi _ _ Ht) as Hti.
  pose proof (role_at s i t _ Hi Ht Ha) as Hn%may_add. cbn in Hn.
  set (s1 := set_listeners (s.(listeners) + 1) s).
  apply (upd_inv s s1 i t); try done.
  - apply (i_seq _ Hi).
  - apply (i_cur _ Hi).
  - apply (i_fresh _ Hi).
  - unfold counted. rewrite Ha, Hn. cbn. lia.
  - intros j u Hj Hu Hin. by destruct (alone s i t j u Hi Ht ltac:(by rewrite Ha) Hj Hu Hin).
  - intros _ _ q. apply (past_upd s s1 i t); try done. by rewrite Ha.
  - intros c. apply (fading_upd s s1 i t); try done. by rewrite Ha.
  - by left.
  - rewrite Hn. split; cbn [at_ snap bch mu closed fresh upd s1 set_listeners]; try done.
    + intros _. apply (t_set _ _ _ Hti). by rewrite Ha.
    + intros _. apply (t_mu _ _ _ Hti). by rewrite Ha.
Qed.

(** A goroutine returns to idle with the snapshot [x], counted as before. *)
Lemma snap_inv s i t x m :
  inv s -> s.(threads) !! i = Some t -> counted t = true -> (forall c, t.(at_) <> CloseOld c) ->
  (forall q, ~ after_bump q t.(at_)) ->
  (forall j u, j <> i -> s.(threads) !! j = Some u -> inside u.(at_) = true -> m = Some j) ->
  (fading s x.(ch) \/ s.(bch) = Some x.(ch) /\ past s x.(seq)) ->
  inv (upd i (mkThread Idle (Some x)) (set_mu m s)).
Proof.
  intros Hi Ht Hc Hnc Hab Hmu Hx.
  assert (Hpast : forall q, past s q -> past (upd i (mkThread Idle (Some x)) (set_mu m s)) q).
  { intros q. apply (past_upd s (set_mu m s) i t); try done. intros H. by destruct (Hab q). }
  assert (Hfad : forall c', fading s c' -> fading (upd i (mkThread Idle (Some x)) (set_mu m s)) c').
  { intros c'. apply (fading_upd s (set_mu m s) i t); try done. intros H. by destruct (Hnc c'). }
  apply (upd_inv s (set_mu m s) i t); try done.
  - apply (i_seq _ Hi).
  - apply (i_cur _ Hi).
  - apply (i_fresh _ Hi).
  - rewrite Hc. cbn. lia.
  - intros j u Hj Hu Hin. cbn. by rewrite (Hmu j u).
  - by left.
  - split; cbn [at_ snap bch mu closed fresh upd set_mu]; try done.
    intros y [= <-]. destruct Hx as [?|[? ?]]; [left; auto|right; auto].
Qed.

Lemma ingest_remove_inv s i t :
  inv s -> s.(threads) !! i = Some t -> t.(at_) = Remove ->
  inv (upd i (mkThread Idle None) (set_listeners (s.(listeners) - 1) s)).
Proof.
  intros Hi Ht Ha. destruct (may_listen _ (role_at s i t _ Hi Ht Ha)) as [x Hx]. cbn in Hx.
  set (s1 := set_listeners (s.(listeners) - 1) s).
  apply (upd_inv s s1 i t); try done.
  - apply (i_seq _ Hi).
  - apply (i_cur _ Hi).
  - apply (i_fresh _ Hi).
  - unfold counted. rewrite Ha, Hx. cbn. lia.
  - intros j u _ Hu Hin. cbn. by rewrite (t_mu _ _ _ (i_thread _ Hi _ _ Hu) Hin).
  - intros _ _ q. apply (past_upd s s1 i t); try done. by rewrite Ha.
  - intros c. apply (fading_upd s s1 i t); try done. by rewrite Ha.
  - by left.
Qed.

(** Taking and leaving the mutex. *)
Lemma enter_inv s i t p :
  inv s -> s.(threads) !! i = Some t -> s.(mu) = None -> counted (mkThread p t.(snap)) = counted t ->
  (forall c, t.(at_) <> CloseOld c) -> (forall q, after_bump q t.(at_) -> after_bump q p) ->
  (needs_ch p = true -> is_Some s.(bch)) -> self_ok s p -> role_ok (mkThread p t.(snap)) = true ->
  inv (upd i (mkThread p t.(snap)) (set_mu (Some i) s)).
Proof.
  intros Hi Ht Hm Hc Hnc Hab Hn Hs Hr. apply local_inv; try done.
  intros j u _ Hu Hin. pose proof (t_mu _ _ _ (i_thread _ Hi _ _ Hu) Hin). congruence.
Qed.

Lemma leave_alone s i t j u :
  inv s -> s.(threads) !! i = Some t -> inside t.(at_) = true ->
  j <> i -> s.(threads) !! j = Some u -> inside u.(at_) = true -> @None nat = Some j.
Proof. intros Hi Ht Hin Hj Hu Hin'. by destruct (alone s i t j u Hi Ht Hin Hj Hu Hin'). Qed.

Lemma ingest_step_inv s s' : tstep s s' -> inv s -> inv s'.
Proof.
  intros (i & a & Hstep & Hw) Hi. unfold step in Hstep.
  destruct (s.(threads) !! i) as [t|] eqn:Ht; [|done]. cbn [mbind option_bind] in Hstep.
  pose proof (i_thread _ Hi _ _ Ht) as Hti. pose proof (t_set _ _ _ Hti) as Hset. pose proof (t_role _ _ _ Hti) as Hrole.
  assert (Hbch : needs_ch t.(at_) = true -> exists c, s.(bch) = Some c) by (intros H; by destruct (Hset H); eauto).
  destruct (at_ t) eqn:Ha; unfold role_ok in Hrole; rewrite Ha in Hrole; cbn in Hbch, Hset.
  - destruct (may a t) eqn:Hmay; [|done]. apply (inj Some) in Hstep as <-.
    apply plain_inv; rewrite ?Ha; try done; try (by destruct a); unfold counted; rewrite ?Ha; by destruct a, (snap t).
  - apply (inj Some) in Hstep as <-.
    apply plain_inv; rewrite ?Ha; try done; destruct (bch s); try (by destruct c); try done;
      unfold counted; rewrite ?Ha; by destruct c, (snap t).
  - apply (inj Some) in Hstep as <-. destruct (bch s) eqn:Hb; [|by apply first_inv].
    apply plain_inv; rewrite ?Ha, ?Hb; try done; try (by destruct c); unfold counted; rewrite ?Ha; by destruct c, (snap t).
  - apply (inj Some) in Hstep as <-. apply bump_inv; [done|done|done|]. by apply Z.ltb_lt.
  - apply (inj Some) in Hstep as <-. apply plain_inv; rewrite ?Ha; try done; destruct (Z.eqb_spec s.(listeners) 0); try done;
      unfold counted; rewrite ?Ha; by destruct (snap t).
  - destruct (mu s) eqn:Hm; [done|]. apply (inj Some) in Hstep as <-. apply enter_inv; rewrite ?Ha; try done.
    unfold counted. rewrite Ha. by destruct (snap t).
  - apply (inj Some) in Hstep as <-. apply plain_inv; rewrite ?Ha; try done; destruct (Z.eqb_spec s.(listeners) 0); try done;
      unfold counted; rewrite ?Ha; by destruct (snap t).
  - apply (inj Some) in Hstep as <-. destruct (Hbch eq_refl) as [c Hc]. rewrite Hc.
    apply plain_inv; rewrite ?Ha; try done. unfold counted; rewrite ?Ha; by destruct (snap t).
  - apply (inj Some) in Hstep as <-. by apply ingest_store_inv.
  - destruct (t_close _ _ _ Hti _ Ha) as (Hno & _). rewrite decide_False in Hstep by done.
    apply (inj Some) in Hstep as <-. by apply ingest_close_inv.
  - apply (inj Some) in Hstep as <-. apply local_inv; rewrite ?Ha; try done.
    + unfold counted; rewrite ?Ha; by destruct (snap t).
    + intros j u. apply (leave_alone s i t); [done|done|by rewrite Ha].
  - destruct (mu s) eqn:Hm; [done|]. apply (inj Some) in Hstep as <-. apply enter_inv; rewrite ?Ha; try done.
    unfold counted. rewrite Ha. by destruct (snap t).
  - apply (inj Some) in Hstep as <-. by apply ingest_register_inv.
  - apply (inj Some) in Hstep as <-. apply plain_inv; rewrite ?Ha; try done; [|by left].
    unfold counted; rewrite ?Ha; by destruct (snap t).
  - apply (inj Some) in Hstep as <-. destruct (Hbch eq_refl) as [c Hc]. rewrite Hc.
    apply plain_inv; rewrite ?Ha; try done; [unfold counted; rewrite ?Ha; by destruct (snap t)|].
    cbn. split; [done|]. by apply (t_loaded _ _ _ Hti).
  - apply (inj Some) in Hstep as <-. apply (snap_inv s i t); rewrite ?Ha; try done; [unfold counted; by rewrite Ha|by intros q []| |].
    + intros j u. apply (leave_alone s i t); [done|done|by rewrite Ha].
    + right. by apply (t_new _ _ _ Hti).
  - apply (inj Some) in Hstep as <-. destruct (Hbch eq_refl) as [c Hc]. rewrite Hc.
    apply plain_inv; rewrite ?Ha; try done. unfold counted; rewrite ?Ha; by destruct (snap t).
  - apply (inj Some) in Hstep as <-. rewrite <- (set_mu_same s) at 2. apply (snap_inv s i t); rewrite ?Ha; try done.
    + destruct (may_listen _ Hrole) as [x Hx]. unfold counted. by rewrite Ha, Hx.
    + by intros q [].
    + intros j u _ Hu. apply (t_mu _ _ _ (i_thread _ Hi _ _ Hu)).
    + destruct (t_listen _ _ _ Hti _ Ha) as [?|?]; [by left|right]. split; [done|by left].
  - apply (inj Some) in Hstep as <-. by apply (ingest_remove_inv s i t).
  - done.
Qed.

(** A notify under way past its increment. *)
Definition notifying (t : thread) : bool :=
  match t.(at_) with
  | Check1 _ | Lock _ | Check2 _ | LoadOld _ | StoreNew _ | CloseOld _ => true
  | _ => false
  end.

(** C24: The ingest's broadcast is safe as the zero value and loses no wake-up,
    with any number of goroutines registering, listening, leaving and notifying
    at once: no channel is closed twice, nothing nil is read, the listener count
    is the number of registered goroutines, and whenever the sequence has moved
    past a registered listener's snapshot, its channel is closed or a notify is
    still on its way to close it. *)
Theorem ingest_notify_wakes n s i t x :
  rtc tstep (zero n) s -> s.(threads) !! i = Some t -> t.(snap) = Some x ->
  Forall (fun u => u.(at_) <> Panicked) s.(threads) /\ s.(listeners) = ncounted s.(threads) /\
  (s.(bseq) <> x.(seq) -> Forall (fun u => notifying u = false) s.(threads) -> x.(ch) ∈ s.(closed)).
Proof.
  intros Hr Ht Hx. assert (Hi : inv s).
  { pose proof (zero_inv n) as H0. induction Hr as [|a b c Hab _ IH]; [done|]. apply IH; [done|]. by eapply ingest_step_inv. }
  split; [|split; [apply (i_count _ Hi)|]].
  - apply Forall_lookup_2. intros j u Hu. apply (t_ok _ _ _ (i_thread _ Hi _ _ Hu)).
  - intros Hne Hq. rewrite Forall_lookup in Hq. destruct (t_snap _ _ _ (i_thread _ Hi _ _ Ht) x Hx) as [[?|(j & u & Hu & Hc)]|[_ [?|(j & u & Hu & Hp)]]].
    + done.
    + specialize (Hq _ _ Hu). unfold notifying in Hq. by rewrite Hc in Hq.
    + done.
    + specialize (Hq _ _ Hu). unfold notifying in Hq. by destruct (at_ u).
Qed.

(** Two goroutines initialise at once, one registers, the other notifies. *)
Definition ex_sched : list (nat * call) :=
  ([(0, AddListener); (0, AddListener); (1, Notify); (1, Notify); (1, Notify); (0, AddListener)] ++
   replicate 5 (0, AddListener) ++ replicate 8 (1, Notify))%nat.

Definition ex_state : state := default (zero 2) (run ex_sched (zero 2)).
Definition ex_listener : thread := mkThread Idle (Some (mkNS 0 0)).

Lemma ingest_run_steps sched s s' : run sched s = Some s' -> rtc tstep s s'.
Proof.
  revert s. induction sched as [|[i a] t IH]; intros s; cbn; [intros [= ->]; apply rtc_refl|].
  destruct (no_wrap s) eqn:Hw; [|done]. destruct (step i a s) as [s1|] eqn:Hs; [|done]. cbn. intros Hr.
  eapply rtc_l; [by exists i, a|]. by apply IH.
Qed.

Lemma ex_state_reachable : rtc tstep (zero 2) ex_state.
Proof. apply (ingest_run_steps ex_sched). vm_compute. reflexivity. Qed.

Lemma ingest_notify_wakes_witness :
  ex_state.(bseq) = 1 /\ 0%nat ∈ ex_state.(closed).
Proof.
  split; [vm_compute; reflexivity|].
  destruct (ingest_notify_wakes 2 ex_state 0 ex_listener (mkNS 0 0) ex_state_reachable) as (_ & _ & H).
  - vm_compute. reflexivity.
  - reflexivity.
  - apply H; [vm_compute; discriminate|vm_compute; repeat constructor].
Defined.

End Ingest.
