(* ===== verification/Egress.v ===== *)
(** * Egress: delivering a track to one subscriber

    The egress goroutine of src/internal/relay/handler.go
    ([trackDistributor.egress], [startPosition], [deliverGroup]) composed with
    the ring of groups (GroupRing.v), the drop reporter and the ring of drops
    (Drops.v) and the broadcast (Notify.v). Everybody else of the track, the
    ingest goroutine, its fill workers and the other subscribers, may act between
    any two of its reads: one step here is one read or one update of shared
    state.

    The broadcast is taken at its proved interface ([relay_notify_wakes]): a
    sequence number, and a waiter that wakes once it has moved past its snapshot.
    Writing a group to QUIC is an outcome the environment chooses. Metrics, logs
    and the stage stamps are left out. *)
From stdpp Require Import gmultiset.
From Stdlib Require Import Sorted.
From S2P Require Import Prelude GroupRing Drops.
Import Spans.

Open Scope Z_scope.

(** ** What the ring's caches say about the groups reserved *)

(** Group [p] of the track, counted from 1 as ring positions are. *)
Definition group_at (gs : list Z) (p : Z) : option Z :=
  if p <? 1 then None else gs !! Z.to_nat (p - 1).

Definition highest (gs : list Z) : Z := foldl Z.max 0 gs.

(** Every live cache carries its group's sequence and the highest sequence
    reserved up to it. *)
Record hist_inv (r : ring) (gs : list Z) : Prop := {
  hi_pos : r.(GroupRing.rpos) = Z.of_nat (length gs);
  hi_max : r.(maxSeq) = highest gs;
  hi_cache c gc : r.(heap) !! c = Some gc -> gc.(released) = false ->
    group_at gs gc.(pos) = Some gc.(seq) /\ gc.(highestSeq) = highest (take (Z.to_nat gc.(pos)) gs)
}.

Lemma group_at_app gs ext p g : group_at gs p = Some g -> group_at (gs ++ ext) p = Some g.
Proof. unfold group_at. case_match; [done|]. apply lookup_app_l_Some. Qed.

Lemma group_at_range gs p g : group_at gs p = Some g -> 1 <= p <= Z.of_nat (length gs).
Proof.
  unfold group_at. destruct (Z.ltb_spec p 1); [done|]. intros Hl%lookup_lt_Some. lia.
Qed.

Lemma group_at_elem gs p g : group_at gs p = Some g -> g ∈ gs.
Proof. unfold group_at. case_match; [done|]. apply list_elem_of_lookup_2. Qed.

Lemma highest_ge gs m : m <= foldl Z.max m gs.
Proof. revert m. induction gs as [|x t IH]; intros m; cbn; [lia|]. specialize (IH (Z.max m x)). lia. Qed.

Lemma highest_elem gs g : g ∈ gs -> g <= highest gs.
Proof.
  unfold highest. generalize 0. induction gs as [|x t IH]; intros m; [by intros ?%not_elem_of_nil|].
  intros [->|Hg]%elem_of_cons; cbn; [pose proof (highest_ge t (Z.max m x)); lia|by apply IH].
Qed.

Lemma highest_ok gs : Forall seq_ok gs -> seq_ok (highest gs).
Proof.
  unfold highest. assert (H0 : seq_ok 0) by (unfold seq_ok; lia). revert H0. generalize 0.
  induction gs as [|x t IH]; intros m Hm Hf; [done|]. apply Forall_cons in Hf as [? ?]. cbn. apply IH; [|done].
  unfold seq_ok in *. lia.
Qed.

Lemma highest_snoc gs s : highest (gs ++ [s]) = Z.max (highest gs) s.
Proof. unfold highest. by rewrite foldl_app. Qed.

(** An earlier group's sequence is at most a later cache's [highestSeq]. *)
Lemma group_below gs p q g : group_at gs p = Some g -> p <= q -> g <= highest (take (Z.to_nat q) gs).
Proof.
  unfold group_at. destruct (Z.ltb_spec p 1); [done|]. intros Hg Hle. apply highest_elem.
  apply (list_elem_of_lookup_2 _ (Z.to_nat (p - 1))). rewrite lookup_take_lt; [done|lia].
Qed.

Lemma StronglySorted_snoc {A} (R : A -> A -> Prop) l x :
  StronglySorted R l -> Forall (fun y => R y x) l -> StronglySorted R (l ++ [x]).
Proof.
  induction 1 as [|y t Ht IH Hy]; intros Hf; cbn; [by repeat constructor|]. apply Forall_cons in Hf as [? ?].
  constructor; [by apply IH|]. apply Forall_app. split; [done|]. by apply Forall_singleton.
Qed.

(** *** Operations that neither reserve nor revive a cache *)

(** Every live cache of [r'] was live in [r] and names the same group. *)
Definition quiet (r r' : ring) : Prop :=
  r'.(GroupRing.rpos) = r.(GroupRing.rpos) /\ (r'.(maxSeq) = r.(maxSeq) /\ r'.(size) = r.(size)) /\
  forall c gc', r'.(heap) !! c = Some gc' -> gc'.(released) = false ->
    exists gc, r.(heap) !! c = Some gc /\ gc.(released) = false /\
      gc'.(pos) = gc.(pos) /\ gc'.(seq) = gc.(seq) /\ gc'.(highestSeq) = gc.(highestSeq).

Lemma quiet_refl r : quiet r r.
Proof. split; [done|]. split; [done|]. eauto 10. Qed.

Lemma quiet_trans r1 r2 r3 : quiet r1 r2 -> quiet r2 r3 -> quiet r1 r3.
Proof.
  intros (? & [? ?] & H12) (? & [? ?] & H23). split; [congruence|]. split; [split; congruence|].
  intros c gc3 Hc3 Hr3. destruct (H23 _ _ Hc3 Hr3) as (gc2 & Hc2 & Hr2 & ? & ? & ?).
  destruct (H12 _ _ Hc2 Hr2) as (gc1 & ? & ? & ? & ? & ?). exists gc1. repeat split; congruence.
Qed.

Lemma quiet_inv r r' gs : quiet r r' -> hist_inv r gs -> hist_inv r' gs.
Proof.
  intros (Hp & [Hm _] & Hq) [? ? Hc]. split; [congruence|congruence|].
  intros c gc' Hc' Hr'. destruct (Hq _ _ Hc' Hr') as (gc & Hgc & Hr & -> & -> & ->). by apply (Hc c).
Qed.

Lemma quiet_put r c gc gc' :
  r.(heap) !! c = Some gc -> gc'.(pos) = gc.(pos) -> gc'.(seq) = gc.(seq) ->
  gc'.(highestSeq) = gc.(highestSeq) -> (gc'.(released) = false -> gc.(released) = false) ->
  quiet r (put_cache r c gc').
Proof.
  intros Hc ? ? ? Hr. split; [done|]. split; [done|]. intros c' g Hg Hgr. cbn in Hg.
  destruct (decide (c' = c)) as [->|Hne].
  - rewrite lookup_insert_eq in Hg. injection Hg as <-. exists gc. auto.
  - rewrite lookup_insert_ne in Hg by done. eauto 10.
Qed.

Lemma quiet_heap r r' :
  r'.(GroupRing.rpos) = r.(GroupRing.rpos) -> r'.(maxSeq) = r.(maxSeq) -> r'.(size) = r.(size) ->
  r'.(heap) = r.(heap) -> quiet r r'.
Proof. intros H1 H2 H2' H3. split; [done|]. split; [done|]. rewrite H3. eauto 10. Qed.

Lemma quiet_release r c : quiet r (releaseCache c r).
Proof.
  destruct (heap r !! c) as [gc|] eqn:Hc; [|unfold releaseCache; rewrite Hc; apply quiet_refl].
  destruct (released gc) eqn:Hr; [unfold releaseCache; rewrite Hc, Hr; apply quiet_refl|].
  rewrite (releaseCache_eq _ _ _ Hc Hr). eapply quiet_trans; [apply (quiet_put r c gc (released_cache gc))|];
    [done..|by apply quiet_heap].
Qed.

Lemma quiet_decrRef r c : quiet r (decrRef c r).
Proof.
  unfold decrRef. destruct (heap r !! c) as [gc|] eqn:Hc; [|apply quiet_refl].
  assert (Hq : quiet r (put_cache r c (add_ref (-1) gc))) by (by apply (quiet_put r c gc)).
  cbv zeta. case_match; [|done]. eapply quiet_trans; [exact Hq|apply quiet_release].
Qed.

Lemma quiet_evict r c : quiet r (markEvictedLocked c r).
Proof.
  unfold markEvictedLocked. destruct (heap r !! c) as [gc|] eqn:Hc; [|apply quiet_refl]. cbv zeta.
  match goal with |- quiet _ (if _ then releaseCache c ?r1 else _) => assert (Hq : quiet r r1) by (by apply (quiet_put r c gc)) end.
  case_match; [|done]. eapply quiet_trans; [exact Hq|apply quiet_release].
Qed.

Lemma quiet_evict_opt r (o : option cid) : quiet r (match o with Some c => markEvictedLocked c r | None => r end).
Proof. destruct o; [apply quiet_evict|apply quiet_refl]. Qed.

Lemma quiet_get p r o r' : get p r = (o, r') -> quiet r r'.
Proof.
  unfold get. intros H. repeat case_match; simplify_eq; try apply quiet_refl.
  eapply quiet_put; [eassumption|done..].
Qed.

(** A reservation adds one group at the next position. *)
Lemma reserve_swap_spec r hs s ch c r' :
  ring_inv (mkSys r hs) -> r.(GroupRing.rpos) + 1 < 2 ^ 64 -> reserve s ch r = (c, r') ->
  exists r2 gc2, quiet r2 r' /\ r2.(GroupRing.rpos) = r.(GroupRing.rpos) + 1 /\
    (r2.(maxSeq) = Z.max r.(maxSeq) s /\ r2.(size) = r.(size)) /\ r2.(heap) !! c = Some gc2 /\
    gc2.(seq) = s /\ gc2.(pos) = r.(GroupRing.rpos) + 1 /\ gc2.(highestSeq) = Z.max r.(maxSeq) s /\
    (forall c', c' <> c -> r2.(heap) !! c' = r.(heap) !! c').
Proof.
  intros Hi Hw Hres. unfold reserve in Hres. destruct (gcPool_Get ch r) as [c1 r1] eqn:Hg.
  destruct (gcPool_Get_spec _ _ _ _ _ Hi Hg) as ((gc0 & Hc0 & _) & _ & _ & Hrest & Hr1).
  rewrite Hc0 in Hres. rewrite Hr1 in Hres. cbn in Hres.
  pose proof (inv_pos _ _ Hi) as Hp. cbn in Hp. rewrite wrapu_id in Hres by (unfold in_u; lia).
  injection Hres as -> <-.
  assert (Hmax : (if maxSeq r <? s then s else maxSeq r) = Z.max (maxSeq r) s) by (case_match; bool_prop; lia).
  rewrite Hmax. eexists _, _. split; [apply quiet_evict_opt|]. cbn.
  split; [done|]. split; [done|]. split; [apply lookup_insert_eq|]. split; [done|]. split; [done|]. split; [done|].
  intros c' Hne. rewrite lookup_insert_ne by done. by apply Hrest.
Qed.

Lemma reserve_rpos r hs s ch c r' :
  ring_inv (mkSys r hs) -> r.(GroupRing.rpos) + 1 < 2 ^ 64 -> reserve s ch r = (c, r') ->
  r'.(GroupRing.rpos) = r.(GroupRing.rpos) + 1 /\ r'.(size) = r.(size).
Proof.
  intros Hi Hw Hres. destruct (reserve_swap_spec _ _ _ _ _ _ Hi Hw Hres) as (r2 & gc2 & (-> & [_ ->] & _) & -> & [_ ->] & _). done.
Qed.

Lemma reserve_hist r hs s ch c r' gs :
  ring_inv (mkSys r hs) -> r.(GroupRing.rpos) + 1 < 2 ^ 64 -> reserve s ch r = (c, r') ->
  hist_inv r gs -> hist_inv r' (gs ++ [s]).
Proof.
  intros Hi Hw Hres [Hp Hm Hc].
  destruct (reserve_swap_spec _ _ _ _ _ _ Hi Hw Hres) as (r2 & gc2 & Hq & Hp2 & [Hm2 _] & Hc2 & Hs2 & Hps2 & Hh2 & Hrest).
  apply (quiet_inv _ _ _ Hq). split.
  - rewrite Hp2, Hp, length_app. cbn. lia.
  - by rewrite Hm2, Hm, highest_snoc.
  - intros c' gc' Hc' Hr'. destruct (decide (c' = c)) as [->|Hne].
    + rewrite Hc2 in Hc'. injection Hc' as <-. rewrite Hs2, Hps2, Hh2, Hp, Hm. split.
      * unfold group_at. destruct (Z.ltb_spec (Z.of_nat (length gs) + 1) 1); [lia|].
        replace (Z.to_nat (Z.of_nat (length gs) + 1 - 1)) with (length gs) by lia. by rewrite lookup_app_r, Nat.sub_diag by lia.
      * rewrite take_ge by (rewrite length_app; cbn; lia). by rewrite highest_snoc.
    + rewrite Hrest in Hc' by done. destruct (Hc _ _ Hc' Hr') as [Hg ->].
      split; [by apply group_at_app|]. apply group_at_range in Hg. rewrite take_app_le by lia. done.
Qed.

(** Any step of the ring's users but a reservation. *)
Lemma quiet_fstep z z' :
  fstep z z' -> z'.1.(st).(GroupRing.rpos) = z.1.(st).(GroupRing.rpos) -> ring_inv z.1 -> quiet z.1.(st) z'.1.(st).
Proof.
  intros Hs Hp Hi. destruct Hs as [x y b Hs|r hs b ch f r' Hg|r hs b f payload Hb|r hs b f Hb]; cbn in *.
  - destruct Hs as [r hs s ch c r' Hlt Hre|r hs p c r' Hg|r hs p r' Hg|r hs c payload ch Hc|r hs c Hc|r hs c Hc]; cbn in *.
    + exfalso. pose proof (reserve_rpos _ _ _ _ _ _ Hi Hlt Hre). lia.
    + by eapply quiet_get.
    + by eapply quiet_get.
    + unfold append. destruct (heap r !! c) as [gc|] eqn:Hgc; [|apply quiet_refl]. case_decide; [apply quiet_refl|].
      cbn. eapply quiet_trans; [|by eapply quiet_put]. by apply quiet_heap.
    + unfold complete_cache. destruct (heap r !! c) eqn:Hgc; [|apply quiet_refl]. by eapply quiet_put.
    + apply quiet_decrRef.
  - unfold pool_Get in Hg. simplify_eq. by apply quiet_heap.
  - by apply quiet_heap.
  - by apply quiet_heap.
Qed.

(** ** The egress goroutine *)

Section Egress.
Context (sort : list groupSpan -> list groupSpan) `{!SortsSpans sort}.
(** moqt.SubscribeErrorCodeInternal and moqt.SubscribeErrorCodeTimeout. *)
Context (codeInternal codeTimeout : Z).

(** Where egress is. [ls] is lastState.seq, [last] the position reached:
    before startPosition; at the read of the head; at the read of the earliest
    position, [latest] being the head read; at [get]; in deliverGroup with the
    cache held; at the flush before waiting; at the second listen; in the
    select with the snapshot [sn]; returned. *)
Inductive epc :=
| Begin (fromStart : bool) (ls : Z)
| Top (ls last : Z) (skipped : bool)
| Early (ls last latest : Z) (skipped : bool)
| Get (ls last : Z) (skipped : bool)
| Deliver (ls last : Z) (c : cid) (sq : Z)
| Flush (ls last : Z) (skipped : bool)
| Listen (ls last : Z) (skipped : bool)
| Wait (ls last : Z) (skipped : bool) (sn : Z)
| Returned.

(** The ring with its users, the broadcast's sequence, whether done is closed,
    the reporter with the ring of drops, and the goroutine. The last five are records of what
    happened: the groups reserved, the head and the number of drops at the last
    notify, the positions delivered, and the positions at which [get] found
    nothing. *)
Record esys := mkE {
  ez : sys * gset fid;
  nseq : Z;
  edone : bool;
  ew : world;
  at_ : epc;
  gs : list Z;
  nhead : Z;
  ndrops : Z;
  sentat : list (Z * Z);
  missed : list Z
}.

Definition ering (e : esys) : ring := e.(ez).1.(st).
Definition eheld (e : esys) : gmultiset cid := e.(ez).1.(held).

Definition with_ring (r : ring) (hs : gmultiset cid) (e : esys) : esys :=
  mkE (mkSys r hs, e.(ez).2) e.(nseq) e.(edone) e.(ew) e.(at_) e.(gs) e.(nhead) e.(ndrops) e.(sentat) e.(missed).
Definition with_world (w : world) (e : esys) : esys :=
  mkE e.(ez) e.(nseq) e.(edone) w e.(at_) e.(gs) e.(nhead) e.(ndrops) e.(sentat) e.(missed).
Definition goto (p : epc) (e : esys) : esys :=
  mkE e.(ez) e.(nseq) e.(edone) e.(ew) p e.(gs) e.(nhead) e.(ndrops) e.(sentat) e.(missed).
Definition log_sent (p s : Z) (e : esys) : esys :=
  mkE e.(ez) e.(nseq) e.(edone) e.(ew) e.(at_) e.(gs) e.(nhead) e.(ndrops) (e.(sentat) ++ [(p, s)]) e.(missed).
Definition log_missed (p : Z) (e : esys) : esys :=
  mkE e.(ez) e.(nseq) e.(edone) e.(ew) e.(at_) e.(gs) e.(nhead) e.(ndrops) e.(sentat) (e.(missed) ++ [p]).

Definition startPosition (fromStart : bool) (r : ring) : Z :=
  if fromStart then earliestAvailable r - 1
  else let last := head r in if 0 <? last then last - 1 else last.

(** What deliverGroup returns, from what QUIC and the frame loop did: whether
    OpenGroupAt failed, whether its timer fired, whether the subscriber's
    context ended, whether a write failed, whether a wait was cancelled. *)
Inductive deliverResult := groupSent | groupTimedOut | deliveryStopped.

Record delivery := mkDelivery { openErr : bool; timedOut : bool; ctxErr : bool; writeErr : bool; cancelled : bool }.

Definition deliverGroup (o : delivery) : deliverResult :=
  if o.(openErr) then
    if o.(timedOut) && negb o.(ctxErr) then groupTimedOut else deliveryStopped
  else if o.(writeErr) then deliveryStopped
  else if o.(cancelled) then deliveryStopped
  else groupSent.

(** The operations of the reporter on the subscriber's world (Drops.v). *)
Definition do_flush (w : world) : world :=
  mkWorld (flush sort w.(src) w.(rep)) w.(src) w.(delivered) w.(hist) (w.(forwarded) ++ flushed w).
Definition do_sent (s : Z) (w : world) : world :=
  mkWorld (sent sort s w.(rep)) w.(src) (w.(delivered) ++ [s]) w.(hist) w.(forwarded).

(** Which case of the select is taken. *)
Inductive wake := Notified | TrackDone | Gone.

(** One step of egress. [o] is what deliverGroup met and [k] the case of the
    select, where the step needs them; [None] while the select blocks. *)
Definition estep (o : delivery) (k : wake) (e : esys) : option esys :=
  let r := ering e in
  match e.(at_) with
  | Begin fromStart ls => Some (goto (Top ls (startPosition fromStart r) false) e)
  | Top ls last sk =>
      let latest := head r in
      Some (goto (if last <? latest then Early ls (last + 1) latest sk else Flush ls last sk) e)
  | Early ls last latest sk =>
      Some (goto (if last <? earliestAvailable r then Get ls latest true else Get ls last sk) e)
  | Get ls last sk =>
      match get last r with
      | (Some c, r') =>
          match r'.(heap) !! c with
          | Some gc =>
              let w := if sk then with_rep (reportSkipped sort gc.(seq) gc.(highestSeq) codeInternal e.(ew).(rep)) e.(ew)
                       else e.(ew) in
              if isHandled w.(rep).(handled) gc.(seq)
              then Some (goto (Top ls last false) (with_world w (with_ring (decrRef c r') (eheld e) e)))
              else Some (goto (Deliver ls last c gc.(seq)) (with_world w (with_ring r' ({[+ c +]} ⊎ eheld e) e)))
          | None => None
          end
      | (None, _) => Some (goto (Flush ls last sk) (log_missed last e))
      end
  | Deliver ls last c s =>
      let e' := with_ring (decrRef c r) (eheld e ∖ {[+ c +]}) e in
      match deliverGroup o with
      | deliveryStopped => Some (goto Returned e')
      | groupTimedOut =>
          Some (goto (Top ls last false) (with_world (with_rep (report sort (mkDrop s s codeTimeout) e.(ew).(rep)) e.(ew)) e'))
      | groupSent =>
          Some (goto (Top ls last false) (with_world (do_flush (do_sent s e.(ew))) (log_sent last s e')))
      end
  | Flush ls last sk => Some (goto (Listen ls last sk) (with_world (do_flush e.(ew)) e))
  | Listen ls last sk =>
      Some (goto (if ls <? e.(nseq) then Top e.(nseq) last sk else Wait ls last sk e.(nseq)) e)
  | Wait ls last sk sn =>
      match k with
      | Notified => if sn <? e.(nseq) then Some (goto (Top e.(nseq) last sk) e) else None
      | TrackDone => if e.(edone) then Some (goto Returned (with_world (do_flush e.(ew)) e)) else None
      | Gone => Some (goto Returned e)
      end
  | Returned => None
  end.

(** The cache egress holds a reference to. *)
Definition mine (e : esys) : option cid := match e.(at_) with Deliver _ _ c _ => Some c | _ => None end.

(** The others: a reservation, any other use of the ring that leaves egress its
    own reference, an upstream drop, a notify, and the close of done, which ingest
    does once every group reserved is filled and announced and every drop is
    recorded and announced. *)
Inductive env : esys -> esys -> Prop :=
| env_reserve e s ch c r' :
    e.(edone) = false -> seq_ok s -> (ering e).(GroupRing.rpos) + 1 < 2 ^ 64 -> reserve s ch (ering e) = (c, r') ->
    env e (mkE (mkSys r' ({[+ c +]} ⊎ eheld e), e.(ez).2) e.(nseq) e.(edone) e.(ew) e.(at_) (e.(gs) ++ [s])
               e.(nhead) e.(ndrops) e.(sentat) e.(missed))
| env_ring e z' :
    fstep e.(ez) z' -> z'.1.(st).(GroupRing.rpos) = (ering e).(GroupRing.rpos) ->
    (forall c, mine e = Some c -> c ∈ z'.1.(held)) ->
    env e (mkE z' e.(nseq) e.(edone) e.(ew) e.(at_) e.(gs) e.(nhead) e.(ndrops) e.(sentat) e.(missed))
| env_drop e d :
    e.(edone) = false -> drop_ok d -> Z.of_nat (length e.(ew).(hist)) + 1 < 2 ^ 64 ->
    env e (with_world (mkWorld e.(ew).(rep) (Ring.record d e.(ew).(src)) e.(ew).(delivered)
                               (e.(ew).(hist) ++ [d]) e.(ew).(forwarded)) e)
| env_notify e :
    e.(edone) = false ->
    env e (mkE e.(ez) (e.(nseq) + 1) e.(edone) e.(ew) e.(at_) e.(gs) (head (ering e)) (Z.of_nat (length e.(ew).(hist)))
               e.(sentat) e.(missed))
| env_done e :
    e.(nhead) = head (ering e) -> e.(ndrops) = Z.of_nat (length e.(ew).(hist)) ->
    env e (mkE e.(ez) e.(nseq) true e.(ew) e.(at_) e.(gs) e.(nhead) e.(ndrops) e.(sentat) e.(missed)).

Definition any (e e' : esys) : Prop := env e e' \/ exists o k, estep o k e = Some e'.

(** A subscriber joins a track in any state the ring and its drops can be in. *)
Definition joins (fromStart : bool) (z : sys * gset fid) (g : list Z) (n h d : Z) (src : Ring.dropDistributor)
    (drops : list SubscribeDrop) : esys :=
  mkE z n false (joined src drops) (Begin fromStart n) g h d [] [].

(** *** The invariant *)

(** Positions up to which every group is accounted for: handled, or missed. *)
Definition accounted (e : esys) (bound : Z) (but : Z -> Prop) : Prop :=
  forall p0 s0 p g, List.head e.(sentat) = Some (p0, s0) -> p0 <= p <= bound -> group_at e.(gs) p = Some g ->
    e.(ew).(rep).(rstart) <= g -> g <> 0 -> covered e.(ew).(rep).(handled) g \/ p ∈ e.(missed) \/ but g.

Definition no_group (g : Z) : Prop := False.

(** Below the position to come, unless a skip is pending. *)
Definition settled (e : esys) (bound : Z) (sk : bool) : Prop := sk = false -> accounted e bound no_group.

(** Caught up with what was announced, unless more was reserved since. *)
Definition caught_up (e : esys) (last : Z) : Prop := e.(nhead) <= last \/ e.(nhead) < head (ering e).

Definition drops_read (e : esys) : Prop :=
  e.(ew).(rep).(started) = true -> e.(ndrops) <= e.(ew).(rep).(Drops.rpos).

Definition at_ok (e : esys) : Prop :=
  let hd := head (ering e) in
  match e.(at_) with
  | Begin _ ls => ls <= e.(nseq) /\ e.(sentat) = []
  | Top ls last sk => ls <= e.(nseq) /\ 0 <= last <= hd /\ settled e last sk
  | Early ls last latest sk =>
      ls <= e.(nseq) /\ 1 <= last <= latest /\ latest <= hd /\ settled e (last - 1) sk /\ (ls = e.(nseq) -> e.(nhead) <= latest)
  | Get ls last sk =>
      ls <= e.(nseq) /\ 1 <= last <= hd /\ settled e (last - 1) sk /\
      (ls = e.(nseq) -> earliestAvailable (ering e) <= last \/ e.(nhead) < hd)
  | Deliver ls last c s =>
      ls <= e.(nseq) /\ 1 <= last <= hd /\ c ∈ eheld e /\ isHandled e.(ew).(rep).(handled) s = false /\
      group_at e.(gs) last = Some s /\ accounted e last (fun g => g = s)
  | Flush ls last sk => ls <= e.(nseq) /\ 0 <= last <= hd /\ settled e last sk /\ (ls = e.(nseq) -> caught_up e last)
  | Listen ls last sk =>
      ls <= e.(nseq) /\ 0 <= last <= hd /\ settled e last sk /\ (ls = e.(nseq) -> caught_up e last /\ drops_read e)
  | Wait ls last sk sn =>
      ls <= e.(nseq) /\ sn <= ls /\ 0 <= last <= hd /\ settled e last sk /\ (sn = e.(nseq) -> caught_up e last /\ drops_read e)
  | Returned => True
  end.

(** The position the next delivery has to exceed. *)
Definition reached (p : epc) : option Z :=
  match p with
  | Begin _ _ | Returned => None
  | Top _ last _ | Flush _ last _ | Listen _ last _ | Wait _ last _ _ => Some last
  | Early _ last _ _ | Get _ last _ | Deliver _ last _ _ => Some (last - 1)
  end.

Record einv (n : nat) (e : esys) : Prop := {
  ei_ring : ring_inv e.(ez).1;
  ei_hist : hist_inv (ering e) e.(gs);
  ei_seqs : Forall seq_ok e.(gs);
  ei_world : world_ok n e.(ew);
  ei_nhead : e.(nhead) <= head (ering e);
  ei_ndrops : e.(ndrops) <= Z.of_nat (length e.(ew).(hist));
  ei_sent : e.(ew).(delivered) = e.(sentat).*2;
  ei_groups : Forall (fun x => group_at e.(gs) x.1 = Some x.2) e.(sentat);
  ei_order : StronglySorted Z.lt e.(sentat).*1;
  ei_reached : forall l, reached e.(at_) = Some l -> Forall (fun p => p <= l) e.(sentat).*1;
  ei_at : at_ok e
}.

(** *** Preservation: the others *)

Lemma group_at_app_inv (g : list Z) ext p x : group_at (g ++ ext) p = Some x -> p <= Z.of_nat (length g) -> group_at g p = Some x.
Proof.
  unfold group_at. destruct (Z.ltb_spec p 1); [done|]. intros Hx Hp. by rewrite lookup_app_l in Hx by lia.
Qed.

(** The groups accounted for stay so when groups are added beyond the bound and
    the reporter grows. *)
Lemma accounted_mono e e' bound but :
  accounted e bound but -> bound <= Z.of_nat (length e.(gs)) -> e.(gs) `prefix_of` e'.(gs) ->
  e'.(sentat) = e.(sentat) -> e.(missed) ⊆ e'.(missed) ->
  (List.head e.(sentat) <> None -> e.(ew).(rep).(started) = true) -> grows e.(ew).(rep) e'.(ew).(rep) ->
  accounted e' bound but.
Proof.
  intros Ha Hb [ext Hg] Hs Hm Hst [Hgr Hc] p0 s0 p g Hh Hp Hga Hr H0. rewrite Hs in Hh. rewrite Hg in Hga.
  apply group_at_app_inv in Hga; [|lia]. destruct Hgr as [_ Hrs]; [apply Hst; by rewrite Hh|]. rewrite Hrs in Hr.
  destruct (Ha p0 s0 p g Hh Hp Hga Hr H0) as [?|[?|?]]; auto.
Qed.

Lemma head_gs n e : einv n e -> head (ering e) = Z.of_nat (length e.(gs)).
Proof. intros Hi. apply (hi_pos _ _ (ei_hist _ _ Hi)). Qed.

Lemma sent_started n e : einv n e -> List.head e.(sentat) <> None -> e.(ew).(rep).(started) = true.
Proof.
  intros Hi Hh. destruct (e.(ew).(rep).(started)) eqn:Hs; [done|].
  destruct (to_silent _ _ (wo_told _ _ (ei_world _ _ Hi)) Hs) as [Hd _]. rewrite (ei_sent _ _ Hi) in Hd.
  apply fmap_nil_inv in Hd. by rewrite Hd in Hh.
Qed.

(** [at_ok] after a step of the others that keeps the reporter. *)
Lemma at_ok_env n e e' :
  einv n e -> e'.(at_) = e.(at_) -> e'.(ew).(rep) = e.(ew).(rep) -> e'.(sentat) = e.(sentat) -> e'.(missed) = e.(missed) ->
  e.(gs) `prefix_of` e'.(gs) -> e.(nseq) <= e'.(nseq) -> head (ering e) <= head (ering e') ->
  (e'.(nseq) = e.(nseq) -> e'.(nhead) = e.(nhead) /\ e'.(ndrops) = e.(ndrops)) ->
  (earliestAvailable (ering e') = earliestAvailable (ering e) \/ head (ering e) < head (ering e')) ->
  (forall c, mine e = Some c -> c ∈ eheld e') -> at_ok e'.
Proof.
  intros Hi Hat Hrep Hs Hm Hg Hn Hh Hne He Hmi. pose proof (ei_at _ _ Hi) as Ha. pose proof (head_gs _ _ Hi) as Hgs.
  pose proof (ei_nhead _ _ Hi) as Hnh.
  assert (Hacc : forall b but, b <= head (ering e) -> accounted e b but -> accounted e' b but).
  { intros b but Hb Hx. eapply accounted_mono; [exact Hx|lia|done|done|by rewrite Hm|by eapply sent_started|].
    rewrite Hrep. apply grows_refl. }
  assert (Hset : forall b sk, b <= head (ering e) -> settled e b sk -> settled e' b sk) by (intros b sk Hb Hx Hsk; apply Hacc; auto).
  assert (Hcu : forall last, e'.(nseq) = e.(nseq) -> caught_up e last -> caught_up e' last).
  { intros last Heq. unfold caught_up. destruct (Hne Heq) as [-> _]. lia. }
  assert (Hdr : e'.(nseq) = e.(nseq) -> drops_read e -> drops_read e').
  { intros Heq. unfold drops_read. rewrite Hrep. by destruct (Hne Heq) as [_ ->]. }
  unfold at_ok in *. rewrite Hat. unfold mine in Hmi. destruct (e.(at_)).
  - destruct Ha. split; [lia|congruence].
  - destruct Ha as (? & ? & ?). split; [lia|]. split; [lia|]. apply Hset; [lia|done].
  - destruct Ha as (? & ? & ? & ? & Hl). split; [lia|]. split; [lia|]. split; [lia|]. split; [apply Hset; [lia|done]|].
    intros Heq. assert (Heq' : nseq e' = nseq e) by lia. destruct (Hne Heq') as [-> _]. apply Hl. lia.
  - destruct Ha as (? & ? & ? & Hl). split; [lia|]. split; [lia|]. split; [apply Hset; [lia|done]|].
    intros Heq. assert (Heq' : nseq e' = nseq e) by lia. destruct (Hne Heq') as [-> _].
    destruct Hl as [?|?]; [lia| |right; lia]. destruct He as [->|?]; [by left|right; lia].
  - destruct Ha as (? & ? & ? & ? & Hga & ?). split; [lia|]. split; [lia|]. split; [by apply Hmi|]. rewrite Hrep.
    split; [done|]. split; [destruct Hg as [ext ->]; by apply group_at_app|]. apply Hacc; [lia|done].
  - destruct Ha as (? & ? & ? & Hl). split; [lia|]. split; [lia|]. split; [apply Hset; [lia|done]|].
    intros Heq. apply Hcu; [lia|]. apply Hl. lia.
  - destruct Ha as (? & ? & ? & Hl). split; [lia|]. split; [lia|]. split; [apply Hset; [lia|done]|].
    intros Heq. assert (Heq' : nseq e' = nseq e) by lia. destruct Hl as [? ?]; [lia|]. auto.
  - destruct Ha as (? & ? & ? & ? & Hl). split; [lia|]. split; [lia|]. split; [lia|]. split; [apply Hset; [lia|done]|].
    intros Heq. assert (Heq' : nseq e' = nseq e) by lia. destruct Hl as [? ?]; [lia|]. auto.
  - done.
Qed.

Lemma earliest_same r r' : r'.(GroupRing.rpos) = r.(GroupRing.rpos) -> r'.(size) = r.(size) -> earliestAvailable r' = earliestAvailable r.
Proof. intros Hp Hs. unfold earliestAvailable, head. by rewrite Hp, Hs. Qed.

Lemma groups_extend (g ext : list Z) (l : list (Z * Z)) :
  Forall (fun x => group_at g x.1 = Some x.2) l -> Forall (fun x => group_at (g ++ ext) x.1 = Some x.2) l.
Proof. intros Hf. eapply Forall_impl; [exact Hf|]. intros x. apply group_at_app. Qed.

Lemma env_inv n e e' : env e e' -> einv n e -> einv n e'.
Proof.
  intros Hs Hi. destruct Hs as [e s ch c r' Hd Hso Hlt Hres|e z' Hf Hp Hm|e d Hd Hdo Hlt|e Hd|e Hnh Hnd].
  - assert (Hri : ring_inv (mkSys (ering e) (eheld e))) by (pose proof (ei_ring _ _ Hi); unfold ering, eheld; by destruct (e.(ez).1)).
    destruct (reserve_rpos _ _ _ _ _ _ Hri Hlt Hres) as [Hrp Hsz].
    split; cbn; try apply Hi.
    + by eapply inv_reserve.
    + eapply reserve_hist; [exact Hri|done|exact Hres|apply (ei_hist _ _ Hi)].
    + apply Forall_app. split; [apply (ei_seqs _ _ Hi)|by apply Forall_singleton].
    + pose proof (ei_nhead _ _ Hi). unfold head, ering in *. cbn. lia.
    + apply groups_extend, (ei_groups _ _ Hi).
    + eapply (at_ok_env n e); try done; [by eexists|unfold head, ering in *; cbn in *; lia|right; unfold head, ering in *; cbn in *; lia|].
      intros c' Hc'. pose proof (ei_at _ _ Hi) as Ha. unfold mine in Hc'. unfold at_ok in Ha.
      destruct (e.(at_)); try done. injection Hc' as ->. destruct Ha as (_ & _ & Hin & _).
      change (c' ∈ {[+ c +]} ⊎ eheld e). apply gmultiset_elem_of_disj_union. by right.
  - pose proof (quiet_fstep _ _ Hf Hp (ei_ring _ _ Hi)) as Hq.
    split; cbn; try apply Hi.
    + eapply fstep_inv; [exact Hf|apply (ei_ring _ _ Hi)].
    + by eapply quiet_inv, (ei_hist _ _ Hi).
    + pose proof (ei_nhead _ _ Hi). unfold head, ering in *. cbn in *. lia.
    + eapply (at_ok_env n e); try done; cbn; [unfold head, ering in *; cbn in *; lia|].
      left. apply earliest_same; [done|]. apply Hq.
  - assert (Hw : world_ok n (with_world (mkWorld e.(ew).(rep) (Ring.record d e.(ew).(src)) e.(ew).(delivered)
        (e.(ew).(hist) ++ [d]) e.(ew).(forwarded)) e).(ew)) by (apply (wstep_ok sort n e.(ew)); [by apply w_record|apply (ei_world _ _ Hi)]).
    split; cbn; try apply Hi; [done|]. pose proof (ei_ndrops _ _ Hi). rewrite length_app. lia.
  - split; cbn; try apply Hi; [done|done|].
    eapply (at_ok_env n e); try done; cbn; [lia|lia|by left|]. intros c Hc. pose proof (ei_at _ _ Hi) as Ha.
    unfold mine in Hc. unfold at_ok in Ha. destruct (e.(at_)); try done. injection Hc as ->. apply Ha.
  - split; cbn; try apply Hi.
Qed.

(** *** Preservation: egress itself *)

Lemma earliest_bounds r hs : ring_inv (mkSys r hs) -> 1 <= earliestAvailable r /\ (1 <= head r -> earliestAvailable r <= head r).
Proof.
  intros Hi. pose proof (inv_size _ _ Hi). pose proof (inv_pos _ _ Hi). cbn in *.
  unfold earliestAvailable, head. case_match; bool_prop; lia.
Qed.

Lemma get_in_window r hs p :
  ring_inv (mkSys r hs) -> earliestAvailable r <= p <= head r -> exists c r', get p r = (Some c, r').
Proof.
  intros Hi Hp. pose proof (earliest_bounds _ _ Hi) as [He _].
  destruct (inv_window _ _ Hi p) as (c & gc & Hat & Hc & Hpos); cbn in *.
  { unfold head in Hp. lia. }
  { unfold earliestAvailable, head in Hp. case_match; bool_prop; lia. }
  destruct (inv_slot _ _ Hi _ _ Hat) as (g & Hg & Hr & _). cbn in Hg. rewrite Hc in Hg. injection Hg as <-.
  exists c, (put_cache r c (incrRef gc)). unfold get. fold (slot_of r p). by rewrite Hat, Hc, Hpos, Z.eqb_refl, Hr.
Qed.

(** What a successful [get] found. *)
Lemma get_found r hs g p c r' :
  ring_inv (mkSys r hs) -> hist_inv r g -> get p r = (Some c, r') ->
  exists gc, r'.(heap) !! c = Some gc /\ group_at g p = Some gc.(seq) /\
    gc.(highestSeq) = highest (take (Z.to_nat p) g) /\
    ring_inv (mkSys r' ({[+ c +]} ⊎ hs)) /\ hist_inv r' g /\ head r' = head r /\
    ring_inv (mkSys (decrRef c r') hs) /\ hist_inv (decrRef c r') g /\ head (decrRef c r') = head r.
Proof.
  intros Hi Hh Hg. pose proof (quiet_get _ _ _ _ Hg) as Hq. pose proof (inv_get _ _ _ _ _ Hi Hg) as Hi'.
  pose proof (quiet_decrRef r' c) as Hqd. pose proof (quiet_inv _ _ _ Hq Hh) as Hh'.
  pose proof (inv_decrRef _ _ c Hi' ltac:(multiset_solver)) as Hid.
  replace (({[+ c +]} ⊎ hs) ∖ {[+ c +]}) with hs in Hid by multiset_solver.
  unfold get in Hg. destruct (caches r !! Z.to_nat _) as [[c'|]|] eqn:Hat; [|done..].
  destruct (heap r !! c') as [g0|] eqn:Hc; [|done]. destruct ((pos g0 =? p) && negb (released g0)) eqn:Hb; [|done].
  injection Hg as -> <-. bool_prop. subst p.
  exists (incrRef g0). cbn [heap put_cache set_heap]. rewrite lookup_insert_eq. split; [done|].
  destruct (hi_cache _ _ Hh c g0 Hc) as [Hga Hhi]; [done|].
  split; [exact Hga|]. split; [exact Hhi|]. split; [done|]. split; [done|]. split; [done|]. split; [done|].
  split; [by eapply quiet_inv|]. destruct Hqd as [Hr _]. unfold head. rewrite Hr. done.
Qed.

Lemma flush_grows n w : world_ok n w ->
  grows w.(rep) (do_flush w).(rep) /\
  ((do_flush w).(rep).(started) = true -> (do_flush w).(rep).(Drops.rpos) = Z.of_nat (length w.(hist))).
Proof.
  intros Hw. destruct (wo_read _ _ Hw) as (idx & p & Hp & Hle & _). cbn [do_flush rep].
  destruct (flush_spec sort w p (wo_ring _ _ Hw) Hp) as [(Hst & _ & ->)|(Hst & _ & ->)]; [lia|split; [apply grows_refl|congruence]|].
  set (k := Nat.max p (length (hist w) - length (Ring.drops (src w)))).
  set (r1 := mkReporter (Z.of_nat (length (hist w))) true (rstart (rep w)) (handled (rep w)) (written (rep w))
               (lostTotal (rep w) + Z.of_nat (k - p))).
  assert (Hok : reporter_ok r1) by (destruct (to_ok _ _ (wo_told _ _ Hw)); by split).
  pose proof (Forall_drop _ k _ (wo_hist _ _ Hw)) as Hd. split.
  - eapply (grows_trans _ r1); [split; [by intros _|done]|]. by apply reports_grow.
  - intros _. by destruct (reports_keep sort _ _ Hd Hok) as [-> _].
Qed.

Lemma world_reporter n w : world_ok n w -> reporter_ok w.(rep).
Proof. intros Hw. apply (to_ok _ _ (wo_told _ _ Hw)). Qed.

Lemma do_flush_ok n w : world_ok n w -> world_ok n (do_flush w).
Proof. intros Hw. apply (wstep_ok sort n w); [apply w_flush|done]. Qed.

Lemma group_ok n e p g : einv n e -> group_at e.(gs) p = Some g -> seq_ok g.
Proof.
  intros Hi Hg. pose proof (ei_seqs _ _ Hi) as Hf. rewrite List.Forall_forall in Hf. apply Hf, list_elem_of_In.
  by eapply group_at_elem.
Qed.

(** The account when the reporter grows and nothing else changes. *)
Lemma accounted_grows n e e' bound but :
  einv n e -> accounted e bound but -> bound <= head (ering e) -> e'.(gs) = e.(gs) -> e'.(sentat) = e.(sentat) ->
  e.(missed) ⊆ e'.(missed) -> grows e.(ew).(rep) e'.(ew).(rep) -> accounted e' bound but.
Proof.
  intros Hi Ha Hb Hg Hs Hm Hgr. rewrite (head_gs _ _ Hi) in Hb.
  eapply accounted_mono; [exact Ha|done|by rewrite Hg|done|done|by eapply sent_started|done].
Qed.

(** Moves that only change the program counter. *)
Lemma goto_inv n e p :
  einv n e -> at_ok (goto p e) -> (forall l, reached p = Some l -> exists l', reached e.(at_) = Some l' /\ l' <= l \/ e.(sentat) = []) ->
  einv n (goto p e).
Proof.
  intros Hi Ha Hr. split; try apply Hi; [|done]. cbn. intros l Hl. destruct (Hr l Hl) as (l' & [[Hl' Hle]|Hn]).
  - eapply Forall_impl; [apply (ei_reached _ _ Hi _ Hl')|]. cbn. lia.
  - rewrite Hn. constructor.
Qed.

Lemma eta_ring n e : einv n e -> ring_inv (mkSys (ering e) (eheld e)).
Proof. intros Hi. pose proof (ei_ring _ _ Hi). unfold ering, eheld. by destruct (e.(ez).1). Qed.

Lemma egress_begin_inv n e fromStart ls :
  einv n e -> e.(at_) = Begin fromStart ls -> einv n (goto (Top ls (startPosition fromStart (ering e)) false) e).
Proof.
  intros Hi Hat. pose proof (ei_at _ _ Hi) as Ha. unfold at_ok in Ha. rewrite Hat in Ha. destruct Ha as [Hls Hse].
  pose proof (earliest_bounds _ _ (eta_ring _ _ Hi)) as [He1 He2]. pose proof (inv_pos _ _ (ei_ring _ _ Hi)) as Hp.
  pose proof (inv_size _ _ (ei_ring _ _ Hi)) as Hsz.
  change (st (ez e).1) with (ering e) in Hp, Hsz.
  apply goto_inv; [done| |intros l _; exists l; by right]. unfold at_ok. cbn. split; [done|]. split.
  - change (ering (goto _ e)) with (ering e). unfold startPosition, head in *. cbv zeta.
    destruct fromStart; [unfold earliestAvailable, head in *; case_match; bool_prop; lia|case_match; bool_prop; lia].
  - intros _ p0 s0 p g Hh. cbn in Hh. rewrite Hse in Hh. done.
Qed.

Lemma top_inv n e ls last sk :
  einv n e -> e.(at_) = Top ls last sk ->
  einv n (goto (if last <? head (ering e) then Early ls (last + 1) (head (ering e)) sk else Flush ls last sk) e).
Proof.
  intros Hi Hat. pose proof (ei_at _ _ Hi) as Ha. unfold at_ok in Ha. rewrite Hat in Ha. destruct Ha as (Hls & Hl & Hs).
  pose proof (ei_nhead _ _ Hi) as Hnh. destruct (Z.ltb_spec last (head (ering e))).
  - apply goto_inv; [done| |]; cbn.
    + split; [done|]. split; [lia|]. split; [unfold ering in *; cbn; lia|]. split; [|intros _; unfold ering in *; cbn; lia].
      replace (last + 1 - 1) with last by lia. exact Hs.
    + intros l [= <-]. exists last. left. rewrite Hat. split; [done|lia].
  - apply goto_inv; [done| |]; cbn.
    + split; [done|]. split; [done|]. split; [exact Hs|]. intros _. left. unfold ering in *. cbn. lia.
    + intros l [= <-]. exists last. left. by rewrite Hat.
Qed.

Lemma early_inv n e ls last latest sk :
  einv n e -> e.(at_) = Early ls last latest sk ->
  einv n (goto (if last <? earliestAvailable (ering e) then Get ls latest true else Get ls last sk) e).
Proof.
  intros Hi Hat. pose proof (ei_at _ _ Hi) as Ha. unfold at_ok in Ha. rewrite Hat in Ha. destruct Ha as (Hls & Hl & Hh & Hs & Hn).
  pose proof (earliest_bounds _ _ (eta_ring _ _ Hi)) as [He1 He2].
  destruct (Z.ltb_spec last (earliestAvailable (ering e))).
  - apply goto_inv; [done| |]; cbn.
    + split; [done|]. split; [unfold ering in *; cbn; lia|]. split; [done|]. intros Heq. specialize (Hn Heq).
      change (ering (goto (Get ls latest true) e)) with (ering e). specialize (He2 ltac:(lia)). lia.
    + intros l [= <-]. exists (last - 1). left. rewrite Hat. split; [done|lia].
  - apply goto_inv; [done| |]; cbn.
    + split; [done|]. split; [unfold ering in *; cbn; lia|]. split; [exact Hs|]. intros _. left. done.
    + intros l [= <-]. exists (last - 1). left. by rewrite Hat.
Qed.

(** The world after the report of a skip, if one is pending. *)
Definition after_skip (sk : bool) (gc : groupCache) (w : world) : world :=
  if sk then with_rep (reportSkipped sort gc.(seq) gc.(highestSeq) codeInternal w.(rep)) w else w.

Lemma after_skip_ok n sk gc w :
  world_ok n w -> seq_ok gc.(seq) -> seq_ok gc.(highestSeq) ->
  world_ok n (after_skip sk gc w) /\ grows w.(rep) (after_skip sk gc w).(rep).
Proof.
  intros Hw Hs Hh. destruct sk; [|split; [done|apply grows_refl]]. split.
  - apply (wstep_ok sort n w); [by apply w_skipped|done].
  - cbn. apply reportSkipped_grows; [done..|]. by eapply world_reporter.
Qed.

(** With a group in hand and a pending skip reported, every earlier group is
    accounted for, but the group itself. *)
Lemma after_skip_accounted n e last sk gc :
  einv n e -> settled e (last - 1) sk -> 1 <= last <= head (ering e) ->
  group_at e.(gs) last = Some gc.(seq) -> gc.(highestSeq) = highest (take (Z.to_nat last) e.(gs)) ->
  accounted (with_world (after_skip sk gc e.(ew)) e) last (fun g => g = gc.(seq)).
Proof.
  intros Hi Hs Hl Hg Hh. assert (Hso : seq_ok gc.(seq)) by (by eapply group_ok).
  assert (Hho : seq_ok gc.(highestSeq)).
  { rewrite Hh. apply highest_ok, Forall_take, (ei_seqs _ _ Hi). }
  destruct (after_skip_ok n sk gc e.(ew) (ei_world _ _ Hi) Hso Hho) as [_ Hgr].
  destruct sk.
  - intros p0 s0 p g Hhd Hp Hga Hr H0. cbn in *. destruct (decide (g = gc.(seq))); [by auto|]. left.
    assert (Hst : e.(ew).(rep).(started) = true) by (eapply sent_started; [done|by rewrite Hhd]).
    apply skip_covers; [done|by eapply world_reporter, (ei_world _ _ Hi)|done|done|done| |done|done].
    destruct Hgr as [Hgr _]. destruct (Hgr Hst) as [_ Hrs]. cbn in Hrs. rewrite Hrs in Hr. split; [done|].
    pose proof (group_below _ _ last _ Hga ltac:(lia)). lia.
  - intros p0 s0 p g Hhd Hp Hga Hr H0. cbn in *. destruct (decide (p = last)) as [->|Hne].
    + right. right. congruence.
    + destruct (Hs eq_refl p0 s0 p g Hhd ltac:(lia) Hga Hr H0) as [?|[?|[]]]; auto.
Qed.

Lemma get_inv n e ls last sk c r' gc :
  einv n e -> e.(at_) = Get ls last sk -> get last (ering e) = (Some c, r') -> r'.(heap) !! c = Some gc ->
  let w := after_skip sk gc e.(ew) in
  (isHandled w.(rep).(handled) gc.(seq) = true ->
     einv n (goto (Top ls last false) (with_world w (with_ring (decrRef c r') (eheld e) e)))) /\
  (isHandled w.(rep).(handled) gc.(seq) = false ->
     einv n (goto (Deliver ls last c gc.(seq)) (with_world w (with_ring r' ({[+ c +]} ⊎ eheld e) e)))).
Proof.
  intros Hi Hat Hget Hc w. pose proof (ei_at _ _ Hi) as Ha. unfold at_ok in Ha. rewrite Hat in Ha. destruct Ha as (Hls & Hl & Hs & _).
  destruct (get_found _ _ _ _ _ _ (eta_ring _ _ Hi) (ei_hist _ _ Hi) Hget) as
    (gc' & Hc' & Hga & Hhi & Hri & Hhist & Hhd & Hrid & Hhistd & Hhdd).
  rewrite Hc in Hc'. injection Hc' as <-.
  assert (Hso : seq_ok gc.(seq)) by (by eapply group_ok).
  assert (Hho : seq_ok gc.(highestSeq)) by (rewrite Hhi; apply highest_ok, Forall_take, (ei_seqs _ _ Hi)).
  destruct (after_skip_ok n sk gc e.(ew) (ei_world _ _ Hi) Hso Hho) as [Hw Hgr].
  pose proof (after_skip_accounted n e last sk gc Hi Hs Hl Hga Hhi) as Hacc.
  assert (Hdel : w.(delivered) = e.(ew).(delivered) /\ w.(hist) = e.(ew).(hist)) by (subst w; by destruct sk).
  destruct Hdel as [Hdel Hhs]. pose proof (ei_nhead _ _ Hi) as Hnh.
  split; intros Hha; split; try apply Hi; try done; cbn -[disj_union];
    try (unfold ering in *; cbn -[disj_union]; lia);
    try (rewrite Hhs; apply (ei_ndrops _ _ Hi)); try (rewrite Hdel; apply (ei_sent _ _ Hi));
    try (intros l [= <-]; eapply Forall_impl; [apply (ei_reached _ _ Hi (last - 1)); by rewrite Hat|]; cbn; lia).
  - split; [done|]. split; [unfold ering in *; cbn in *; lia|]. intros _ p0 s0 p g H1 H2 H3 H4 H5.
    destruct (Hacc p0 s0 p g H1 H2 H3 H4 H5) as [? | [? | ->]]; [by left|by right; left|]. left.
    apply isHandled_covered; [apply (ro_spans _ (world_reporter _ _ Hw))|done].
  - split; [done|]. split; [unfold ering in *; cbn -[disj_union] in *; lia|]. split; [unfold eheld; cbn -[disj_union]; multiset_solver|].
    split; [done|]. split; [done|]. exact Hacc.
Qed.

(** [get] found nothing: the ring moved on since the earliest position was
    read. *)
Lemma miss_inv n e ls last sk r' :
  einv n e -> e.(at_) = Get ls last sk -> get last (ering e) = (None, r') ->
  einv n (goto (Flush ls last sk) (log_missed last e)).
Proof.
  intros Hi Hat Hget. pose proof (ei_at _ _ Hi) as Ha. unfold at_ok in Ha. rewrite Hat in Ha. destruct Ha as (Hls & Hl & Hs & Hn).
  split; try apply Hi; cbn.
  - intros l [= <-]. eapply Forall_impl; [apply (ei_reached _ _ Hi (last - 1)); by rewrite Hat|]. cbn. lia.
  - split; [done|]. split; [unfold ering in *; cbn in *; lia|]. split.
    + intros Hsk p0 s0 p g H1 H2 H3 H4 H5. cbn in *. destruct (decide (p = last)) as [->|Hne].
      * right. left. apply elem_of_app. right. by apply list_elem_of_singleton.
      * destruct (Hs Hsk p0 s0 p g H1 ltac:(lia) H3 H4 H5) as [?|[?|[]]]; [by left|]. right. left. apply elem_of_app. by left.
    + intros Heq. destruct (Hn Heq) as [He|?]; [|by right].
      destruct (get_in_window _ _ last (eta_ring _ _ Hi)) as (c & r1 & Hg1); [lia|]. congruence.
Qed.

(** Releasing the cache after the delivery. *)
Lemma release_facts n e ls last c s :
  einv n e -> e.(at_) = Deliver ls last c s ->
  ring_inv (mkSys (decrRef c (ering e)) (eheld e ∖ {[+ c +]})) /\ hist_inv (decrRef c (ering e)) e.(gs) /\
  head (decrRef c (ering e)) = head (ering e).
Proof.
  intros Hi Hat. pose proof (ei_at _ _ Hi) as Ha. unfold at_ok in Ha. rewrite Hat in Ha. destruct Ha as (_ & _ & Hc & _).
  pose proof (quiet_decrRef (ering e) c) as Hq. split; [apply inv_decrRef; [by eapply eta_ring|done]|].
  split; [by eapply quiet_inv, (ei_hist _ _ Hi)|]. apply Hq.
Qed.

Lemma stopped_inv n e ls last c s :
  einv n e -> e.(at_) = Deliver ls last c s ->
  einv n (goto Returned (with_ring (decrRef c (ering e)) (eheld e ∖ {[+ c +]}) e)).
Proof.
  intros Hi Hat. destruct (release_facts _ _ _ _ _ _ Hi Hat) as (Hr & Hh & Hd). pose proof (ei_nhead _ _ Hi) as Hnh.
  split; try apply Hi; try done. unfold head, ering in *. cbn. lia.
Qed.

(** The common part of a delivery that goes on: the reporter grew so that the
    group is handled. *)
Lemma timedout_inv n e ls last c s :
  einv n e -> e.(at_) = Deliver ls last c s ->
  einv n (goto (Top ls last false)
    (with_world (with_rep (report sort (mkDrop s s codeTimeout) e.(ew).(rep)) e.(ew))
       (with_ring (decrRef c (ering e)) (eheld e ∖ {[+ c +]}) e))).
Proof.
  intros Hi Hat. destruct (release_facts _ _ _ _ _ _ Hi Hat) as (Hr & Hh & Hd). pose proof (ei_nhead _ _ Hi) as Hnh.
  pose proof (ei_at _ _ Hi) as Ha. unfold at_ok in Ha. rewrite Hat in Ha. destruct Ha as (Hls & Hl & _ & _ & Hg & Hacc).
  assert (Hd' : drop_ok (mkDrop s s codeTimeout)) by (split; cbn; by eapply group_ok).
  pose proof (world_reporter _ _ (ei_world _ _ Hi)) as Hro.
  destruct (report_exact sort _ _ Hd' Hro) as (_ & Hst' & Hrs' & _ & _ & _ & _ & _ & _ & _ & Hsup & _).
  split; try apply Hi; try done.
  - apply (wstep_ok sort n e.(ew)); [by apply w_report|apply (ei_world _ _ Hi)].
  - unfold head, ering in *. cbn in *. lia.
  - cbn. intros l [= <-]. eapply Forall_impl; [apply (ei_reached _ _ Hi (last - 1)); by rewrite Hat|]. cbn. lia.
  - cbn. split; [done|]. split; [unfold head, ering in *; cbn in *; lia|]. intros _ p0 s0 p g H1 H2 H3 H4 H5. cbn in *. rewrite Hrs' in H4.
    assert (Hst : e.(ew).(rep).(started) = true) by (eapply sent_started; [done|by rewrite H1]).
    destruct (Hacc p0 s0 p g H1 H2 H3 H4 H5) as [? | [? | ->]]; [left; apply Hsup; by left|auto|].
    left. apply Hsup. right. rewrite elem_of_groups. cbn. split; [done|lia].
Qed.

Lemma sent_inv n e ls last c s :
  einv n e -> e.(at_) = Deliver ls last c s ->
  einv n (goto (Top ls last false)
    (with_world (do_flush (do_sent s e.(ew))) (log_sent last s (with_ring (decrRef c (ering e)) (eheld e ∖ {[+ c +]}) e)))).
Proof.
  intros Hi Hat. destruct (release_facts _ _ _ _ _ _ Hi Hat) as (Hr & Hh & Hd). pose proof (ei_nhead _ _ Hi) as Hnh.
  pose proof (ei_at _ _ Hi) as Ha. unfold at_ok in Ha. rewrite Hat in Ha. destruct Ha as (Hls & Hl & _ & Hha & Hg & Hacc).
  assert (Hso : seq_ok s) by (by eapply group_ok).
  assert (Hw1 : world_ok n (do_sent s e.(ew))) by (apply (wstep_ok sort n e.(ew)); [by apply w_sent|apply (ei_world _ _ Hi)]).
  pose proof (do_flush_ok _ _ Hw1) as Hw2. destruct (flush_grows _ _ Hw1) as [Hgf _].
  destruct (sent_grows sort s _ Hso (world_reporter _ _ (ei_world _ _ Hi))) as (Hgs & Hcov & Hst1 & Hfirst).
  destruct Hgf as [Hgf1 Hgf2]. destruct (Hgf1 Hst1) as [_ Hrs2].
  pose proof (ei_reached _ _ Hi (last - 1) ltac:(by rewrite Hat)) as Hlt.
  split; try apply Hi; try done.
  - unfold head, ering in *. cbn in *. lia.
  - cbn. rewrite fmap_app. cbn. by rewrite (ei_sent _ _ Hi).
  - cbn. apply Forall_app. split; [apply (ei_groups _ _ Hi)|]. by apply Forall_singleton.
  - cbn. rewrite fmap_app. cbn. apply StronglySorted_snoc; [apply (ei_order _ _ Hi)|]. eapply Forall_impl; [exact Hlt|]. cbn. lia.
  - cbn. intros l [= <-]. rewrite fmap_app. apply Forall_app. split; [eapply Forall_impl; [exact Hlt|]; cbn; lia|].
    apply Forall_singleton. cbn. lia.
  - cbn. split; [done|]. split; [unfold head, ering in *; cbn in *; lia|]. intros _ p0 s0 p g H1 H2 H3 H4 H5. cbn in *.
    assert (Hgs' : g = s -> covered (handled (rep (do_flush (do_sent s (ew e))))) g \/ p ∈ missed e \/ no_group g).
    { intros ->. left. apply Hgf2. exact Hcov. }
    destruct (e.(sentat)) as [|x l] eqn:Hse; cbn in H1.
    + injection H1 as <- <-. assert (p = last) as -> by lia. apply Hgs'. congruence.
    + assert (Hst : e.(ew).(rep).(started) = true) by (eapply sent_started; [done|by rewrite Hse]).
      destruct Hgs as [Hgs1 Hgs2]. destruct (Hgs1 Hst) as [_ Hrs1].
      assert (Hrs : rstart (rep (do_flush (do_sent s (ew e)))) = rstart (rep (ew e))) by (etrans; [exact Hrs2|exact Hrs1]).
      change (rstart (rep (do_flush (do_sent s (ew e)))) <= g) in H4. rewrite Hrs in H4.
      destruct (Hacc p0 s0 p g ltac:(by rewrite Hse) H2 H3 H4 H5) as [?|[?|?]]; [left; apply Hgf2, Hgs2; done|auto|auto].
Qed.

Lemma flush_step_inv n e ls last sk :
  einv n e -> e.(at_) = Flush ls last sk -> einv n (goto (Listen ls last sk) (with_world (do_flush e.(ew)) e)).
Proof.
  intros Hi Hat. pose proof (ei_at _ _ Hi) as Ha. unfold at_ok in Ha. rewrite Hat in Ha. destruct Ha as (Hls & Hl & Hs & Hn).
  destruct (flush_grows _ _ (ei_world _ _ Hi)) as [Hg Hp].
  split; try apply Hi; try done.
  - apply do_flush_ok, (ei_world _ _ Hi).
  - cbn. intros l [= <-]. apply (ei_reached _ _ Hi). by rewrite Hat.
  - cbn. split; [done|]. split; [done|]. split.
    + intros Hsk. eapply (accounted_grows n e); [done|by apply Hs|lia|done..].
    + intros Heq. split; [apply Hn, Heq|]. intros Hst. cbn. pose proof (ei_ndrops _ _ Hi). pose proof (Hp Hst) as Hx. cbn in Hx. lia.
Qed.

Lemma listen_inv n e ls last sk :
  einv n e -> e.(at_) = Listen ls last sk ->
  einv n (goto (if ls <? e.(nseq) then Top e.(nseq) last sk else Wait ls last sk e.(nseq)) e).
Proof.
  intros Hi Hat. pose proof (ei_at _ _ Hi) as Ha. unfold at_ok in Ha. rewrite Hat in Ha. destruct Ha as (Hls & Hl & Hs & Hn).
  destruct (Z.ltb_spec ls e.(nseq)); (apply goto_inv; [done| |intros l [= <-]; exists last; left; by rewrite Hat]); cbn.
  - split; [lia|]. by split.
  - split; [done|]. split; [lia|]. split; [done|]. split; [done|]. intros _. apply Hn. lia.
Qed.

Lemma estep_inv n o k e e' : estep o k e = Some e' -> einv n e -> einv n e'.
Proof.
  intros Hs Hi. unfold estep in Hs. destruct (e.(at_)) as [fs ls|ls lp sk|ls lp latest sk|ls lp sk|ls lp c s|ls lp sk|ls lp sk|ls lp sk sn|] eqn:Hat.
  - injection Hs as <-. by apply egress_begin_inv.
  - injection Hs as <-. by apply top_inv.
  - injection Hs as <-. by apply early_inv.
  - destruct (get lp (ering e)) as [[c|] r'] eqn:Hg; [|injection Hs as <-; by eapply miss_inv].
    destruct (r'.(heap) !! c) as [gc|] eqn:Hc; [|done].
    destruct (get_inv n e ls lp sk c r' gc Hi Hat Hg Hc) as [H1 H2]. cbv zeta in Hs.
    fold (after_skip sk gc (ew e)) in Hs.
    destruct (isHandled (handled (rep (after_skip sk gc (ew e)))) (seq gc)); injection Hs as <-; auto.
  - cbv zeta in Hs. destruct (deliverGroup o); injection Hs as <-.
    + by eapply sent_inv.
    + by eapply timedout_inv.
    + by eapply stopped_inv.
  - injection Hs as <-. by apply flush_step_inv.
  - injection Hs as <-. by apply listen_inv.
  - pose proof (ei_at _ _ Hi) as Ha. unfold at_ok in Ha. rewrite Hat in Ha. destruct Ha as (Hls & Hsn & Hl & Hse & Hn).
    destruct k.
    + destruct (Z.ltb_spec sn e.(nseq)); [|done]. injection Hs as <-.
      apply goto_inv; [done| |intros l [= <-]; exists lp; left; by rewrite Hat]. cbn. split; [lia|]. by split.
    + destruct (e.(edone)); [|done]. injection Hs as <-. split; try apply Hi; try done. apply do_flush_ok, (ei_world _ _ Hi).
    + injection Hs as <-. split; try apply Hi; done.
  - done.
Qed.

Lemma any_inv n e e' : any e e' -> einv n e -> einv n e'.
Proof. intros [He|(o & k & He)]; [by apply env_inv|by eapply estep_inv]. Qed.

Lemma reachable_einv n e e' : rtc any e e' -> einv n e -> einv n e'.
Proof. induction 1 as [|a b c Hab _ IH]; [done|]. intros Hi. apply IH. by eapply any_inv. Qed.

(** *** A subscriber of a track *)

(** A state the track can be in when the subscriber joins: the ring holds the
    groups [g], the distributor the drops [ds], and no more was announced than
    happened. *)
Record track_ok (z : sys * gset fid) (g : list Z) (h d : Z) (sr : Ring.dropDistributor) (ds : list SubscribeDrop) : Prop := {
  tr_ring : ring_inv z.1;
  tr_hist : hist_inv z.1.(st) g;
  tr_seqs : Forall seq_ok g;
  tr_head : h <= head z.1.(st);
  tr_drops : d <= Z.of_nat (length ds);
  tr_holds : Ring.holds sr ds;
  tr_dok : Forall drop_ok ds
}.

Lemma joins_inv fromStart z g n h d sr ds :
  track_ok z g h d sr ds -> einv (length ds - length sr.(Ring.drops)) (joins fromStart z g n h d sr ds).
Proof.
  intros []. split; try done.
  - by apply joined_ok.
  - constructor.
Qed.

(** Egress delivers groups in the order the ring received them, each at most
    once, over every interleaving with the ingest and the other subscribers:
    the positions delivered strictly increase, what is delivered at a position is
    the group reserved there, and no group is delivered or reported twice, or
    delivered after it was reported. *)
Theorem egress_delivers_in_order fromStart z g n h d sr ds e :
  track_ok z g h d sr ds -> rtc any (joins fromStart z g n h d sr ds) e ->
  StronglySorted Z.lt e.(sentat).*1 /\
  Forall (fun x => group_at e.(gs) x.1 = Some x.2) e.(sentat) /\
  e.(ew).(delivered) = e.(sentat).*2 /\
  NoDup (e.(ew).(delivered) ++ reported e.(ew).(rep)).
Proof.
  intros Ht Hr. pose proof (reachable_einv _ _ _ Hr (joins_inv fromStart z g n h d sr ds Ht)) as Hi.
  split; [apply (ei_order _ _ Hi)|]. split; [apply (ei_groups _ _ Hi)|]. split; [apply (ei_sent _ _ Hi)|].
  apply (to_nodup _ _ (wo_told _ _ (ei_world _ _ Hi))).
Qed.

(** Where no group is in hand and no skip pending: the position reached. *)
Definition between (p : epc) : option Z :=
  match p with
  | Top _ last false | Flush _ last false | Listen _ last false | Wait _ last false _ => Some last
  | _ => None
  end.


(** Egress never sleeps on news. When it waits, either a notify moved past
    its snapshot and the select can go on, or it has delivered up to the head of
    the ring, if every group reserved was announced, and has read every upstream
    drop, if every drop was. *)
Theorem egress_sleeps_caught_up fromStart z g n h d sr ds e ls last sk sn :
  track_ok z g h d sr ds -> rtc any (joins fromStart z g n h d sr ds) e -> e.(at_) = Wait ls last sk sn ->
  (sn < e.(nseq) /\ forall o, exists e', estep o Notified e = Some e') \/
  (e.(nhead) = head (ering e) -> last = head (ering e)) /\
  (e.(ndrops) = Z.of_nat (length e.(ew).(hist)) -> e.(ew).(rep).(started) = true ->
     e.(ew).(rep).(Drops.rpos) = Z.of_nat (length e.(ew).(hist))).
Proof.
  intros Ht Hr Hat. pose proof (reachable_einv _ _ _ Hr (joins_inv fromStart z g n h d sr ds Ht)) as Hi.
  pose proof (ei_at _ _ Hi) as Ha. unfold at_ok in Ha. rewrite Hat in Ha. destruct Ha as (Hls & Hsn & Hl & _ & Hn).
  destruct (decide (sn < e.(nseq))) as [Hlt|Hge].
  - left. split; [done|]. intros o. unfold estep. rewrite Hat. destruct (Z.ltb_spec sn (e.(nseq))); [|lia]. eauto.
  - right. destruct (Hn ltac:(lia)) as [Hc Hd]. split.
    + unfold caught_up in Hc. lia.
    + intros Heq Hst. specialize (Hd Hst). destruct (wo_read _ _ (ei_world _ _ Hi)) as (idx & p & Hp & Hle & _). lia.
Qed.

End Egress.

(** ** Schedules *)

(** Actions of the others and of egress, run one after the other. *)
Inductive act := Reserve (s : Z) | Announce | CloseDone | Go (o : delivery) (k : wake).

Definition act_step (ci ct : Z) (a : act) (e : esys) : option esys :=
  match a with
  | Reserve s =>
      if negb e.(edone) && (0 <=? s) && (s <? 2 ^ 64 - 1) && ((ering e).(GroupRing.rpos) + 1 <? 2 ^ 64) then
        let '(c, r') := reserve s None (ering e) in
        Some (mkE (mkSys r' ({[+ c +]} ⊎ eheld e), e.(ez).2) e.(nseq) e.(edone) e.(ew) e.(at_) (e.(gs) ++ [s])
                  e.(nhead) e.(ndrops) e.(sentat) e.(missed))
      else None
  | Announce =>
      if e.(edone) then None
      else Some (mkE e.(ez) (e.(nseq) + 1) e.(edone) e.(ew) e.(at_) e.(gs) (head (ering e)) (Z.of_nat (length e.(ew).(hist)))
                     e.(sentat) e.(missed))
  | CloseDone =>
      if (e.(nhead) =? head (ering e)) && (e.(ndrops) =? Z.of_nat (length e.(ew).(hist)))
      then Some (mkE e.(ez) e.(nseq) true e.(ew) e.(at_) e.(gs) e.(nhead) e.(ndrops) e.(sentat) e.(missed)) else None
  | Go o k => estep sortSpans ci ct o k e
  end.

Fixpoint run_acts (ci ct : Z) (l : list act) (e : esys) : option esys :=
  match l with [] => Some e | a :: t => act_step ci ct a e ≫= run_acts ci ct t end.

Lemma run_acts_any ci ct l e e' : run_acts ci ct l e = Some e' -> rtc (any sortSpans ci ct) e e'.
Proof.
  revert e. induction l as [|a t IH]; intros e; cbn; [intros [= ->]; apply rtc_refl|].
  destruct (act_step ci ct a e) as [e1|] eqn:Ha; [|done]. cbn. intros Hr. eapply rtc_l; [|by apply IH].
  destruct a as [s| | |o k]; unfold act_step in Ha.
  - destruct (negb _ && _ && _ && _) eqn:Hb; [|done]. bool_prop.
    destruct (reserve s None (ering e)) as [c r'] eqn:Hre. injection Ha as <-. left. by apply (env_reserve e s None).
  - destruct (edone e) eqn:Hd; [done|]. injection Ha as <-. left. rewrite <- Hd. by apply env_notify.
  - destruct (_ && _) eqn:Hb; [|done]. bool_prop. injection Ha as <-. left. by apply env_done.
  - right. eauto.
Qed.

(** A new track with a ring of [n] groups, and its first subscriber. *)
Definition new_track (n : nat) : esys :=
  joins false (init n, ∅) [] 0 0 0 (Ring.newDropDistributor 0) [].

Lemma new_track_ok n : (0 < n)%nat -> track_ok (init n, ∅) [] 0 0 (Ring.newDropDistributor 0) [].
Proof.
  intros Hn. split; [by apply inv_init|split; done|by constructor|done|done|by apply Ring.newDropDistributor_holds|by constructor].
Qed.

Definition fine : delivery := mkDelivery false false false false false.
Definition go : act := Go fine Notified.

(** A ring of one group. Group 10 is delivered; then group 12 takes the place of
    group 11 after egress checked that 11 is still held and before it reads
    it. *)
Definition raced : list act :=
  [Reserve 10] ++ replicate 5 go ++ [Reserve 11; Announce] ++ replicate 2 go ++ [Reserve 12; Announce] ++ replicate 7 go.

(** The exception is real: a group can be left out without a word. When the
    ring evicts a group between egress's check of the earliest position and its
    read, the read finds nothing, the position is passed over as if it had been
    delivered, no skip is recorded, and the next group is delivered; group 11 is
    neither delivered nor reported, between two that are. *)
Theorem egress_can_lose_a_group ci ct :
  exists e, rtc (any sortSpans ci ct) (new_track 1) e /\
    e.(gs) = [10; 11; 12] /\ e.(ew).(delivered) = [10; 12] /\ reported e.(ew).(rep) = [] /\
    isHandled e.(ew).(rep).(handled) 11 = false /\ e.(missed) = [2] /\ between e.(at_) = Some 3.
Proof.
  destruct (run_acts ci ct raced (new_track 1)) as [e|] eqn:Hr; [|vm_compute in Hr; discriminate Hr].
  exists e. split; [by eapply run_acts_any|]. vm_compute in Hr. apply (inj Some) in Hr as <-. by repeat split.
Qed.

(** A ring of two groups. Egress waits after group 10; group 11 arrives, is
    announced, and the track ends. *)
Definition ended : list act :=
  [Reserve 10] ++ replicate 5 go ++ replicate 3 go ++ [Reserve 11; Announce; CloseDone].

(** At the end of a track the select may lose the last groups. With a group
    announced and done closed both cases are ready and either may be taken: the
    one wakes egress to deliver group 11, the other returns with group 11 still
    in the ring, neither delivered nor reported. *)
Theorem egress_can_lose_the_tail ci ct :
  exists e e1, rtc (any sortSpans ci ct) (new_track 2) e /\
    (exists e2, estep sortSpans ci ct fine Notified e = Some e2) /\
    estep sortSpans ci ct fine TrackDone e = Some e1 /\ e1.(at_) = Returned /\
    (get 2 (ering e1)).1 <> None /\ e1.(gs) = [10; 11] /\
    e1.(ew).(delivered) = [10] /\ reported e1.(ew).(rep) = [].
Proof.
  destruct (run_acts ci ct ended (new_track 2)) as [e|] eqn:Hr; [|vm_compute in Hr; discriminate Hr].
  eexists e, _. split; [by eapply run_acts_any|]. vm_compute in Hr. apply (inj Some) in Hr as <-.
  split; [eexists; vm_compute; reflexivity|]. split; [reflexivity|]. split; [reflexivity|].
  split; [vm_compute; discriminate|]. by repeat split.
Qed.

Definition ex_raced : esys := default (new_track 1) (run_acts 0 0 raced (new_track 1)).
Definition asleep : list act := [Reserve 10] ++ replicate 8 go.
Definition ex_asleep : esys := default (new_track 2) (run_acts 0 0 asleep (new_track 2)).

Lemma ex_raced_reachable : rtc (any sortSpans 0 0) (new_track 1) ex_raced.
Proof. apply (run_acts_any 0 0 raced). vm_compute. reflexivity. Qed.

Lemma ex_asleep_reachable : rtc (any sortSpans 0 0) (new_track 2) ex_asleep.
Proof. apply (run_acts_any 0 0 asleep). vm_compute. reflexivity. Qed.

Lemma egress_delivers_in_order_witness :
  StronglySorted Z.lt ex_raced.(sentat).*1 /\ ex_raced.(sentat) = [(1, 10); (3, 12)].
Proof.
  split; [|vm_compute; reflexivity].
  apply (egress_delivers_in_order sortSpans 0 0 false _ _ _ _ _ _ _ ex_raced (new_track_ok 1 ltac:(lia)) ex_raced_reachable).
Defined.


Lemma egress_sleeps_caught_up_witness :
  ex_asleep.(at_) = Wait 0 1 false 0 /\
  ((0 < ex_asleep.(nseq) /\ forall o, exists e', estep sortSpans 0 0 o Notified ex_asleep = Some e') \/
   (ex_asleep.(nhead) = head (ering ex_asleep) -> 1 = head (ering ex_asleep)) /\
   (ex_asleep.(ndrops) = Z.of_nat (length ex_asleep.(ew).(hist)) -> ex_asleep.(ew).(rep).(started) = true ->
      ex_asleep.(ew).(rep).(Drops.rpos) = Z.of_nat (length ex_asleep.(ew).(hist)))).
Proof.
  split; [vm_compute; reflexivity|].
  apply (egress_sleeps_caught_up sortSpans 0 0 false _ _ _ _ _ _ _ ex_asleep 0 1 false 0 (new_track_ok 2 ltac:(lia)) ex_asleep_reachable).
  vm_compute. reflexivity.
Defined.
