(* ===== verification/Routes.v ===== *)
(** * Routes: which of two routes to a broadcast is kept

    [compareRoutes] of src/internal/relay/handler.go decides whether a newly
    announced route displaces the current one: liveness, then hops, then bitrate
    and round-trip time with margins, the last two in float64 arithmetic. The
    arithmetic is binary64 with its rounding (GoFloat.v). *)
From S2P Require Import Prelude GoTime GoFloat.

Open Scope Z_scope.

Record RouteStats := mkStats { Alive : bool; Hops : Z; EstimatedBitrate : Z; RTT : Z }.

Inductive routeDecision :=
| decisionAlive | decisionHops | decisionBitrate | decisionRTT
| decisionDeadCandidate | decisionInferiorHops | decisionInferiorBitrate | decisionInferiorRTT
| decisionEqualOrUnknown | decisionLowBitrateMargin | decisionLowRTTMargin.

#[export] Instance routeDecision_eq_dec : EqDecision routeDecision.
Proof. solve_decision. Defined.

(** The iota values; [accepted] compares them. *)
Definition ordinal (d : routeDecision) : Z :=
  match d with
  | decisionAlive => 0 | decisionHops => 1 | decisionBitrate => 2 | decisionRTT => 3
  | decisionDeadCandidate => 4 | decisionInferiorHops => 5 | decisionInferiorBitrate => 6
  | decisionInferiorRTT => 7 | decisionEqualOrUnknown => 8 | decisionLowBitrateMargin => 9
  | decisionLowRTTMargin => 10
  end.

Definition accepted (d : routeDecision) : bool := ordinal d <=? ordinal decisionRTT.

(** [routeDecision.String]. *)
Definition decision_String (d : routeDecision) : string :=
  match d with
  | decisionAlive => "alive"
  | decisionHops => "hops"
  | decisionBitrate => "bitrate"
  | decisionRTT => "rtt"
  | decisionDeadCandidate => "dead_candidate"
  | decisionInferiorHops => "inferior_hops"
  | decisionInferiorBitrate => "inferior_bitrate"
  | decisionInferiorRTT => "inferior_rtt"
  | decisionEqualOrUnknown => "equal_or_unknown"
  | decisionLowBitrateMargin => "insufficient_bitrate_margin"
  | decisionLowRTTMargin => "insufficient_rtt_margin"
  end.

(** The untyped constants 1.2 and 0.8 as float64, and 5 ms. *)
Definition bitrateMargin : float64 := S754_finite false 5404319552844595 (-52).
Definition rttMarginRel : float64 := S754_finite false 7205759403792794 (-53).
Definition rttMarginAbs : Z := 5 * Millisecond.

(** [float64(candidate) >= float64(current)*bitrateMargin]. *)
Definition clears_bitrate (candidate current : Z) : bool :=
  SFleb (SFmul 53 1024 (float_of_Z current) bitrateMargin) (float_of_Z candidate).

Definition compareRoutes (candidate current : RouteStats) : routeDecision :=
  if negb (Bool.eqb candidate.(Alive) current.(Alive)) then
    if candidate.(Alive) then decisionAlive else decisionDeadCandidate
  else if negb candidate.(Alive) then decisionDeadCandidate
  else if candidate.(Hops) <? current.(Hops) then decisionHops
  else if current.(Hops) <? candidate.(Hops) then decisionInferiorHops
  else if negb (candidate.(EstimatedBitrate) =? current.(EstimatedBitrate)) then
    if clears_bitrate candidate.(EstimatedBitrate) current.(EstimatedBitrate) then decisionBitrate
    else if current.(EstimatedBitrate) <? candidate.(EstimatedBitrate) then decisionLowBitrateMargin
    else decisionInferiorBitrate
  else if (candidate.(RTT) =? 0) || (current.(RTT) =? 0) then decisionEqualOrUnknown
  else
    let candidateBetter := candidate.(RTT) <? current.(RTT) in
    let absImprovement := wraps 64 (current.(RTT) - candidate.(RTT)) in
    let relImprovement := SFdiv 53 1024 (float_of_Z candidate.(RTT)) (float_of_Z current.(RTT)) in
    if candidateBetter && ((rttMarginAbs <=? absImprovement) || SFleb relImprovement rttMarginRel) then decisionRTT
    else if candidateBetter then decisionLowRTTMargin
    else decisionInferiorRTT.

(** ** The margin *)

(** A positive float64 with a 53-bit mantissa, in units of 2^-104. *)
Definition scaled (m : positive) (e : Z) : Z := Z.pos m * 2 ^ (e + 104).

Lemma SFleb_scaled m1 e1 m2 e2 :
  digits2_pos m1 = 53%positive -> digits2_pos m2 = 53%positive -> -104 <= e1 -> -104 <= e2 ->
  SFleb (S754_finite false m1 e1) (S754_finite false m2 e2) = true -> scaled m1 e1 <= scaled m2 e2.
Proof.
  intros Hd1 Hd2 He1 He2. unfold SFleb, SFcompare, scaled.
  pose proof (digits_range m1) as H1. pose proof (digits_range m2) as H2. rewrite Hd1 in H1. rewrite Hd2 in H2.
  destruct (Z.compare_spec e1 e2) as [->|Hlt|Hgt]; [| |done].
  - change (Pos.compare_cont Eq m1 m2) with (m1 ?= m2)%positive. intros Hc. apply Z.mul_le_mono_nonneg_r; [lia|].
    destruct (Pos.compare_spec m1 m2); [lia|lia|done].
  - intros _. assert (Hp : 2 ^ (e2 + 104) = 2 ^ (e2 - e1) * 2 ^ (e1 + 104)) by (rewrite <- Z.pow_add_r by lia; f_equal; lia).
    assert (Hp2 : 2 <= 2 ^ (e2 - e1)) by (change 2 with (2 ^ 1) at 1; apply Z.pow_le_mono_r; lia).
    assert (0 < 2 ^ (e1 + 104)) by (apply Z.pow_pos_nonneg; lia).
    rewrite Hp. change (53 - 1) with 52 in *. nia.
Qed.

(** A route that clears the bitrate margin has more than 1.2 times the other's
    bitrate, up to the rounding of the three float64 operations. *)
Lemma clears_bitrate_margin c k :
  0 <= c < 2 ^ 64 -> 0 < k < 2 ^ 64 -> clears_bitrate c k = true -> 6 * k * (2 ^ 50 - 1) <= 5 * c * 2 ^ 50.
Proof.
  intros Hc Hk. unfold clears_bitrate.
  destruct (float_of_Z_near k Hk) as (mk & ek & -> & Hdk & Hek & Hbk).
  unfold bitrateMargin. cbn [SFmul xorb].
  pose proof (digits_range mk) as Hrk. rewrite Hdk in Hrk.
  assert (Hdp : 104 <= Z.pos (digits2_pos (mk * 5404319552844595)) <= 106).
  { pose proof (digits_range (mk * 5404319552844595)) as Hr. rewrite Pos2Z.inj_mul in Hr.
    set (d := Z.pos (digits2_pos (mk * 5404319552844595))) in *. split.
    - destruct (Z.le_gt_cases 104 d); [done|]. assert (2 ^ d <= 2 ^ 103) by (apply Z.pow_le_mono_r; lia).
      change (53 - 1) with 52 in *. lia.
    - destruct (Z.le_gt_cases d 106); [done|]. assert (2 ^ 106 <= 2 ^ (d - 1)) by (apply Z.pow_le_mono_r; lia). lia. }
  destruct (round_aux_near (mk * 5404319552844595) (ek + -52)) as (mp & ep & -> & Hdmp & Hep & Hbp); [lia|lia|].
  destruct c as [|c|c]; [done| |lia].
  destruct (float_of_Z_near (Z.pos c)) as (mc & ec & -> & Hdc & Hec & Hbc); [lia|].
  intros Hle%SFleb_scaled; [|done|done|lia|lia]. unfold scaled in Hle.
  set (X := Z.pos mk * 2 ^ (ek + 52)) in *. set (Y := Z.pos mc * 2 ^ (ec + 52)) in *.
  set (R := Z.pos mp * 2 ^ (ep - (ek + -52))) in *.
  assert (HR : Z.pos mp * 2 ^ (ep + 104) = R * 2 ^ (ek + 52)).
  { subst R. rewrite <- Z.mul_assoc, <- Z.pow_add_r by lia. do 2 f_equal. lia. }
  assert (HY : Z.pos mc * 2 ^ (ec + 104) = Y * 2 ^ 52).
  { subst Y. rewrite <- Z.mul_assoc, <- Z.pow_add_r by lia. do 2 f_equal. lia. }
  rewrite HR, HY in Hle. rewrite Pos2Z.inj_mul in Hbp.
  assert (Hp0 : 0 < 2 ^ (ek + 52)) by (apply Z.pow_pos_nonneg; lia).
  assert (HRX : (2 ^ 52 - 1) * 5404319552844595 * X <= R * 2 ^ (ek + 52) * 2 ^ 52).
  { subst X. assert (Hl : (2 ^ 52 - 1) * (Z.pos mk * 5404319552844595) <= R * 2 ^ 52) by lia.
    apply (Z.mul_le_mono_nonneg_r _ _ (2 ^ (ek + 52))) in Hl; [|lia]. lia. }
  lia.
Qed.

Lemma clears_bitrate_more c k :
  0 <= c < 2 ^ 64 -> 0 <= k < 2 ^ 64 -> c <> k -> clears_bitrate c k = true -> k < c.
Proof.
  intros Hc Hk Hne Hcl. destruct (decide (k = 0)) as [->|Hk0]; [lia|].
  pose proof (clears_bitrate_margin c k Hc ltac:(lia) Hcl). lia.
Qed.

(** ** No cycle of replacements *)

(** Statistics as the session reports them. *)
Definition stats_ok (s : RouteStats) : Prop := in_u 64 s.(EstimatedBitrate).

(** Liveness first, then fewer hops, a higher bitrate, a shorter round trip. *)
Definition better (c k : RouteStats) : Prop :=
  (c.(Alive) = true /\ k.(Alive) = false) \/
  (c.(Alive) = k.(Alive) /\
   (c.(Hops) < k.(Hops) \/ c.(Hops) = k.(Hops) /\
     (k.(EstimatedBitrate) < c.(EstimatedBitrate) \/
      c.(EstimatedBitrate) = k.(EstimatedBitrate) /\ c.(RTT) < k.(RTT)))).

#[export] Instance better_trans : Transitive better.
Proof. intros a b c. unfold better. destruct (Alive a), (Alive b), (Alive c); intuition (try done; lia). Qed.

#[export] Instance better_irrefl : Irreflexive better.
Proof. intros a Ha. unfold better in Ha. destruct (Alive a); intuition (try done; lia). Qed.

Lemma accepted_better c k : stats_ok c -> stats_ok k -> accepted (compareRoutes c k) = true -> better c k.
Proof.
  intros Hc Hk. unfold compareRoutes, better. destruct (Alive c), (Alive k); cbn [Bool.eqb negb]; try done; [|by left].
  intros Ha. right. split; [done|]. destruct (Z.ltb_spec (Hops c) (Hops k)); [by left|].
  destruct (Z.ltb_spec (Hops k) (Hops c)); [done|]. right. split; [lia|].
  destruct (Z.eqb_spec (EstimatedBitrate c) (EstimatedBitrate k)) as [Heq|Hne]; cbn [negb] in Ha.
  - right. split; [done|]. cbv zeta in Ha. destruct (_ || _); [done|].
    destruct (Z.ltb_spec (RTT c) (RTT k)); [done|]. done.
  - left. destruct (clears_bitrate _ _) eqn:Hcl; [|by destruct (_ <? _)]. by apply clears_bitrate_more.
Qed.

(** A replacement of the current route by a candidate. *)
Definition replaced (k c : RouteStats) : Prop := stats_ok c /\ stats_ok k /\ accepted (compareRoutes c k) = true.

(** Routes cannot chase one another: while their statistics stay the same,
    no sequence of accepted replacements comes back to a route it left, whatever
    the margins and the rounding of the float64 comparisons do. *)
Theorem route_replacements_acyclic r : ~ tc replaced r r.
Proof.
  assert (Hb : forall a b, tc replaced a b -> better b a).
  { induction 1 as [a b (? & ? & ?)|a b c (? & ? & ?) _ IH]; [by apply accepted_better|].
    etrans; [exact IH|]. by apply accepted_better. }
  intros Ht%Hb. by apply (irreflexivity better r).
Qed.

(** The bitrate margin: a candidate with as many hops is accepted on bitrate
    only if its bitrate is at least 1.2 times the current one, to within one part
    in 2^50. *)
Theorem bitrate_hysteresis c k :
  stats_ok c -> stats_ok k -> 0 < k.(EstimatedBitrate) -> compareRoutes c k = decisionBitrate ->
  6 * k.(EstimatedBitrate) * (2 ^ 50 - 1) <= 5 * c.(EstimatedBitrate) * 2 ^ 50.
Proof.
  unfold stats_ok, in_u. intros Hc Hk H0 Hd. apply clears_bitrate_margin; [done|lia|].
  unfold compareRoutes in Hd. cbv zeta in Hd. destruct (clears_bitrate _ _); [done|].
  repeat case_match; done.
Qed.

(** An unknown bitrate does not protect the current route: the comment
    promises that the current route is preferred when a metric cannot be
    determined (0), yet against a current route whose bitrate is unknown every
    candidate with the same hops and any known bitrate is accepted. *)
Theorem unknown_bitrate_displaced h b rc rk :
  0 < b < 2 ^ 64 -> accepted (compareRoutes (mkStats true h b rc) (mkStats true h 0 rk)) = true.
Proof.
  intros Hb. unfold compareRoutes. cbn [Alive Hops EstimatedBitrate Bool.eqb negb]. rewrite Z.ltb_irrefl.
  destruct (Z.eqb_spec b 0); [lia|]. cbn [negb]. unfold clears_bitrate.
  destruct (float_of_Z_near b Hb) as (m & e & -> & _). done.
Qed.

Lemma bitrate_hysteresis_witness :
  6 * 1000 * (2 ^ 50 - 1) <= 5 * 1200 * 2 ^ 50.
Proof.
  apply (bitrate_hysteresis (mkStats true 2 1200 0) (mkStats true 2 1000 0)); vm_compute; try (split; [discriminate|reflexivity]); reflexivity.
Defined.

Lemma unknown_bitrate_displaced_witness :
  accepted (compareRoutes (mkStats true 3 1 900000000) (mkStats true 3 0 1000000)) = true.
Proof. apply (unknown_bitrate_displaced 3 1 900000000 1000000). lia. Defined.
