(* ===== verification/Election.v ===== *)
(** * Election: the active route of each broadcast path, and its fallback

    The relay keeps, for every broadcast path, the route that won the election
    in the track multiplexer and at most one loser as a fallback
    (src/internal/relay/server.go: the election in [serveSession],
    [installRoute], [retainRouteLocked], [discardAlternate], [promoteAlternate],
    [setPathStatus], [clearPathStatus]; handler.go: [Drain], [RouteStats]).

    The election, a promotion and a discard run under routeMu: each is one step.
    They interleave with announcements that end, contexts that are cancelled and
    local publishers. An announcement that ends runs its callbacks; those that
    start a goroutine or wait for routeMu are queued in [tasks] and may run at
    any later time, in any order.

    gomoqt's TrackMux is a parameter: a map from paths to handlers in which
    announcing replaces, whose displaced announcement ends, and from which an
    ended announcement is removed. *)
From S2P Require Import Prelude Routes.

Open Scope Z_scope.

(** A handler in the multiplexer: one of the relay's, or a local publisher's. *)
Inductive entry := Relay (h : nat) | Foreign.

#[export] Instance entry_eq_dec : EqDecision entry.
Proof. solve_decision. Defined.

Class TrackMux (M : Type) := {
  mlookup : M -> string -> option entry;
  mannounce : string -> entry -> M -> M;
  mremove : string -> M -> M
}.

(** What the relay relies on. *)
Class TrackMuxLaws (M : Type) `{!TrackMux M} : Prop := {
  mlookup_announce m p e : mlookup (mannounce p e m) p = Some e;
  mlookup_announce_ne m p q e : p <> q -> mlookup (mannounce p e m) q = mlookup m q;
  mlookup_remove m p : mlookup (mremove p m) p = None;
  mlookup_remove_ne m p q : p <> q -> mlookup (mremove p m) q = mlookup m q
}.

Section Election.
Context {M : Type} `{!TrackMux M}.

(** What a callback of an announcement queues. *)
Inductive task := TPromote (p : string) | TDiscard (p : string) (h : nat).

#[local] Instance task_eq_dec : EqDecision task.
Proof. solve_decision. Defined.

(** relayHandler: its path, whether its announcement is active and its context
    cancelled, whether Drain was called, and its announcement's callbacks. *)
Record handler := mkH { hpath : string; active : bool; cancelled : bool; draining : bool; cbs : list task }.

(** The server's routes. [retained] is the gauge of retained routes;
    [pathStatus] the handler the status page shows for a path. *)
Record srv := mkSrv {
  hs : gmap nat handler;
  mux : M;
  alternates : gmap string nat;
  pathStatus : gmap string nat;
  retained : Z;
  tasks : list task
}.

Definition set_hs (m : gmap nat handler) (s : srv) : srv :=
  mkSrv m s.(mux) s.(alternates) s.(pathStatus) s.(retained) s.(tasks).
Definition set_mux (m : M) (s : srv) : srv := mkSrv s.(hs) m s.(alternates) s.(pathStatus) s.(retained) s.(tasks).
Definition set_alternates (m : gmap string nat) (d : Z) (s : srv) : srv :=
  mkSrv s.(hs) s.(mux) m s.(pathStatus) (s.(retained) + d) s.(tasks).
Definition set_status (m : gmap string nat) (s : srv) : srv :=
  mkSrv s.(hs) s.(mux) s.(alternates) m s.(retained) s.(tasks).
Definition queue (l : list task) (s : srv) : srv :=
  mkSrv s.(hs) s.(mux) s.(alternates) s.(pathStatus) s.(retained) (s.(tasks) ++ l).
Definition on (h : nat) (f : handler -> handler) (s : srv) : srv := set_hs (alter f h s.(hs)) s.

Definition cancel (h : nat) : srv -> srv :=
  on h (fun x => mkH x.(hpath) x.(active) true x.(draining) x.(cbs)).
(** Drain schedules the cancellation; the timer is a later step. *)
Definition Drain (h : nat) : srv -> srv :=
  on h (fun x => mkH x.(hpath) x.(active) x.(cancelled) true x.(cbs)).
Definition set_cbs (h : nat) (l : list task) : srv -> srv :=
  on h (fun x => mkH x.(hpath) x.(active) x.(cancelled) x.(draining) l).

Definition alive (s : srv) (h : nat) : bool :=
  match s.(hs) !! h with Some x => x.(active) && negb x.(cancelled) | None => false end.

(** RouteStats: what the session reports at this moment is [obs]. *)
Definition stats (s : srv) (obs : nat -> Z * Z * Z) (h : nat) : RouteStats :=
  let '(hops, bitrate, rtt) := obs h in mkStats (alive s h) hops bitrate rtt.

Definition clearPathStatus (p : string) (h : nat) (s : srv) : srv :=
  if decide (s.(pathStatus) !! p = Some h) then set_status (delete p s.(pathStatus)) s else s.

(** The callbacks of an announcement: installRoute's clears the status at once. *)
Definition callback (h : nat) (s : srv) (t : task) : srv :=
  match t with TPromote p => clearPathStatus p h s | TDiscard _ _ => s end.

(** The announcement of [h] ends: its callbacks run, and the multiplexer removes
    it. *)
Definition endAnnouncement (h : nat) (s : srv) : srv :=
  match s.(hs) !! h with
  | Some x =>
      if x.(active) then
        let s1 := on h (fun x => mkH x.(hpath) false x.(cancelled) x.(draining) []) s in
        let s2 := queue x.(cbs) (foldl (callback h) s1 x.(cbs)) in
        if decide (mlookup s2.(mux) x.(hpath) = Some (Relay h)) then set_mux (mremove x.(hpath) s2.(mux)) s2 else s2
      else s
  | None => s
  end.

(** Announcement.AfterFunc, and the stop function it returns. *)
Definition AfterFunc (h : nat) (t : task) (s : srv) : srv :=
  match s.(hs) !! h with
  | Some x => if x.(active) then set_cbs h (x.(cbs) ++ [t]) s else queue [t] s
  | None => s
  end.
Definition stop (h : nat) (t : task) (s : srv) : srv :=
  match s.(hs) !! h with
  | Some x => set_cbs h (filter (fun u => u <> t) x.(cbs)) s
  | None => s
  end.

(** TrackMux.Announce: the displaced announcement ends. *)
Definition Announce (p : string) (e : entry) (s : srv) : srv :=
  let s1 := set_mux (mannounce p e s.(mux)) s in
  match mlookup s.(mux) p with
  | Some (Relay k) => if decide (e = Relay k) then s1 else endAnnouncement k s1
  | _ => s1
  end.

Definition installRoute (h : nat) (p : string) (s : srv) : srv :=
  let s1 := set_status (<[p := h]> s.(pathStatus)) s in
  Announce p (Relay h) (AfterFunc h (TPromote p) s1).

Definition retainRouteLocked (obs : nat -> Z * Z * Z) (h : nat) (p : string) (s : srv) : srv :=
  if negb (alive s h) then cancel h s
  else
    let store s := AfterFunc h (TDiscard p h) (set_alternates (<[p := h]> s.(alternates)) 1 s) in
    match s.(alternates) !! p with
    | Some prev =>
        if negb (accepted (compareRoutes (stats s obs h) (stats s obs prev))) then cancel h s
        else store (set_alternates s.(alternates) (-1) (cancel prev (stop prev (TDiscard p prev) s)))
    | None => store s
    end.

(** The election serveSession runs for an announcement. *)
Definition elect (obs : nat -> Z * Z * Z) (h : nat) (p : string) (s : srv) : srv :=
  match mlookup s.(mux) p with
  | Some (Relay k) =>
      if accepted (compareRoutes (stats s obs h) (stats s obs k)) then installRoute h p (Drain k s)
      else retainRouteLocked obs h p s
  | _ => installRoute h p s
  end.

Definition discardAlternate (p : string) (h : nat) (s : srv) : srv :=
  if decide (s.(alternates) !! p = Some h) then cancel h (set_alternates (delete p s.(alternates)) (-1) s) else s.

Definition promoteAlternate (obs : nat -> Z * Z * Z) (p : string) (s : srv) : srv :=
  match s.(alternates) !! p with
  | None => s
  | Some h =>
      let s1 := stop h (TDiscard p h) (set_alternates (delete p s.(alternates)) (-1) s) in
      if negb (alive s1 h) then cancel h s1
      else
        match mlookup s1.(mux) p with
        | Some (Relay k) => if (stats s1 obs k).(Alive) then cancel h s1 else installRoute h p s1
        | Some Foreign => cancel h s1
        | None => installRoute h p s1
        end
  end.

Definition run_task (obs : nat -> Z * Z * Z) (t : task) (s : srv) : srv :=
  match t with TPromote p => promoteAlternate obs p s | TDiscard p h => discardAlternate p h s end.

(** The steps: a new announcement is elected, one ends, a context is cancelled
    (its session ended or its drain expired), a queued goroutine runs, a local
    publisher announces. *)
Inductive step : srv -> srv -> Prop :=
| s_announce s obs h p c :
    s.(hs) !! h = None ->
    step s (elect obs h p (set_hs (<[h := mkH p true c false []]> s.(hs)) s))
| s_end s h : step s (endAnnouncement h s)
| s_cancel s h : step s (cancel h s)
| s_task s obs l t l' :
    s.(tasks) = l ++ t :: l' ->
    step s (run_task obs t (mkSrv s.(hs) s.(mux) s.(alternates) s.(pathStatus) s.(retained) (l ++ l')))
| s_foreign s p : step s (Announce p Foreign s)
| s_foreign_end s p : mlookup s.(mux) p = Some Foreign -> step s (set_mux (mremove p s.(mux)) s).

Definition started (m : M) : srv := mkSrv ∅ m ∅ ∅ 0 [].

(** ** The invariant *)

Context `{!TrackMuxLaws M}.

(** Within a step, the handlers of [L] may be neither placed nor cancelled, those
    of [E] are displaced and about to end, and at the paths of [R] a callback was
    taken from the queue. Between steps all three are empty. *)
Record inv_d (L E : gset nat) (R : gset string) (s : srv) : Prop := {
  v_ret : s.(retained) = Z.of_nat (size s.(alternates));
  v_mux p h : mlookup s.(mux) p = Some (Relay h) ->
    exists x, s.(hs) !! h = Some x /\ x.(hpath) = p /\ x.(active) = true /\ TPromote p ∈ x.(cbs);
  v_alt p h : s.(alternates) !! p = Some h ->
    exists x, s.(hs) !! h = Some x /\ x.(hpath) = p /\ mlookup s.(mux) p <> Some (Relay h) /\
      (p ∉ R -> (x.(active) = true /\ TDiscard p h ∈ x.(cbs)) \/ TDiscard p h ∈ s.(tasks));
  v_rec p h : s.(alternates) !! p = Some h -> p ∉ R ->
    (exists k, mlookup s.(mux) p = Some (Relay k)) \/ TPromote p ∈ s.(tasks) \/ TDiscard p h ∈ s.(tasks) \/
    (exists k x, k ∈ E /\ s.(hs) !! k = Some x /\ x.(active) = true /\ TPromote p ∈ x.(cbs));
  v_leak h x : s.(hs) !! h = Some x -> x.(cancelled) = false -> x.(active) = true ->
    mlookup s.(mux) x.(hpath) = Some (Relay h) \/ s.(alternates) !! x.(hpath) = Some h \/ h ∈ L;
  v_shown p h : s.(pathStatus) !! p = Some h ->
    mlookup s.(mux) p = Some (Relay h) \/
    (h ∈ E /\ exists x, s.(hs) !! h = Some x /\ x.(active) = true /\ TPromote p ∈ x.(cbs));
  v_show p h : mlookup s.(mux) p = Some (Relay h) -> s.(pathStatus) !! p = Some h
}.

Definition inv : srv -> Prop := inv_d ∅ ∅ ∅.

Lemma started_inv m : (forall p, mlookup m p = None) -> inv (started m).
Proof.
  intros Hm. split; cbn; try done; intros p h; rewrite ?Hm; done.
Qed.

(** What a step on one handler changes. *)
Lemma on_lookup h f s k : (on h f s).(hs) !! k = if decide (h = k) then f <$> s.(hs) !! k else s.(hs) !! k.
Proof.
  cbn. case_decide as Hd; [subst; by rewrite lookup_alter_eq|by rewrite lookup_alter_ne].
Qed.

(** Changing a handler in ways the invariant does not see. *)
Lemma on_inv L L' E R h f s :
  inv_d L E R s ->
  (forall x, s.(hs) !! h = Some x -> (f x).(hpath) = x.(hpath) /\ (f x).(active) = x.(active) /\ (f x).(cbs) = x.(cbs) /\
     ((f x).(cancelled) = false -> x.(cancelled) = false)) ->
  L' ⊆ L ->
  (forall k, k ∈ L -> k ∉ L' -> k = h /\ forall x, s.(hs) !! h = Some x -> (f x).(cancelled) = true) ->
  inv_d L' E R (on h f s).
Proof.
  intros Hi Hf HL Hd.
  assert (Hlk : forall k x, s.(hs) !! k = Some x -> exists x', (on h f s).(hs) !! k = Some x' /\ x'.(hpath) = x.(hpath) /\
     x'.(active) = x.(active) /\ x'.(cbs) = x.(cbs)).
  { intros k x Hx. rewrite on_lookup. case_decide as Hk; [|eauto]. subst k. rewrite Hx. cbn.
    destruct (Hf _ Hx) as (? & ? & ? & _). eauto. }
  split; cbn [retained alternates mux tasks pathStatus on set_hs].
  - apply (v_ret _ _ _ _ Hi).
  - intros p k Hp. destruct (v_mux _ _ _ _ Hi _ _ Hp) as (x & Hx & <- & ? & ?).
    destruct (Hlk _ _ Hx) as (x' & ? & ? & Ha & Hc). exists x'. rewrite Ha, Hc. auto.
  - intros p k Hp. destruct (v_alt _ _ _ _ Hi _ _ Hp) as (x & Hx & <- & ? & ?).
    destruct (Hlk _ _ Hx) as (x' & ? & ? & Ha & Hc). exists x'. rewrite Ha, Hc. auto.
  - intros p k Hp Hr. destruct (v_rec _ _ _ _ Hi _ _ Hp Hr) as [?|[?|[?|(k' & x & ? & Hx & ? & ?)]]]; [by auto..|].
    destruct (Hlk _ _ Hx) as (x' & ? & _ & Ha & Hc). right. right. right. exists k', x'. rewrite Ha, Hc. auto.
  - intros k x' Hx' Hc Ha. pose proof Hx' as Hx. cbn [on set_hs hs] in Hx. fold (on h f s) in Hx.
    change (alter f h (hs s) !! k) with ((on h f s).(hs) !! k) in Hx. rewrite on_lookup in Hx. case_decide as Hk.
    + subst k. destruct (s.(hs) !! h) as [x|] eqn:Hh; [|done]. injection Hx as <-.
      destruct (Hf _ eq_refl) as (Hp & Hac & _ & Hcc). rewrite Hp. destruct (v_leak _ _ _ _ Hi _ _ Hh) as [?|[?|?]]; [auto|congruence|auto|auto|].
      destruct (decide (h ∈ L')); [auto|]. destruct (Hd h) as [_ Hcan]; [done|done|]. specialize (Hcan _ eq_refl). congruence.
    + destruct (v_leak _ _ _ _ Hi _ _ Hx Hc Ha) as [?|[?|?]]; [auto|auto|].
      destruct (decide (k ∈ L')); [auto|]. destruct (Hd k) as [? _]; [done|done|congruence].
  - intros p k Hp. destruct (v_shown _ _ _ _ Hi _ _ Hp) as [?|(? & x & Hx & ? & ?)]; [by left|].
    destruct (Hlk _ _ Hx) as (x' & ? & _ & Hac & Hcb). right. split; [done|]. exists x'. rewrite Hac, Hcb. auto.
  - apply (v_show _ _ _ _ Hi).
Qed.

Lemma cancel_inv L E R h s : inv_d L E R s -> inv_d (L ∖ {[h]}) E R (cancel h s).
Proof.
  intros Hi. eapply on_inv; [exact Hi|by intros x _|set_solver|].
  intros k Hk Hn. split; [|by intros x _]. destruct (decide (k = h)); [done|]. exfalso. apply Hn. set_solver.
Qed.

Lemma Drain_inv L E R h s : inv_d L E R s -> inv_d L E R (Drain h s).
Proof. intros Hi. eapply on_inv; [exact Hi|by intros x _|done|done]. Qed.

(** The callbacks only touch the status. *)
Lemma callbacks_fields h l s :
  let s' := foldl (callback h) s l in
  s'.(hs) = s.(hs) /\ s'.(mux) = s.(mux) /\ s'.(alternates) = s.(alternates) /\ s'.(retained) = s.(retained) /\
  s'.(tasks) = s.(tasks) /\
  forall p k, s'.(pathStatus) !! p = Some k <-> s.(pathStatus) !! p = Some k /\ ~ (k = h /\ TPromote p ∈ l).
Proof.
  revert s. induction l as [|t l IH]; intros s; cbn.
  { do 5 (split; [done|]). intros p k. split; [|tauto]. intros ?. split; [done|]. by intros [_ ?%not_elem_of_nil]. }
  destruct (IH (callback h s t)) as (-> & -> & -> & -> & -> & Hst).
  assert (Hf : hs (callback h s t) = hs s /\ mux (callback h s t) = mux s /\ alternates (callback h s t) = alternates s /\
    retained (callback h s t) = retained s /\ tasks (callback h s t) = tasks s /\
    forall p k, pathStatus (callback h s t) !! p = Some k <-> pathStatus s !! p = Some k /\ ~ (k = h /\ t = TPromote p)).
  { destruct t as [q|q k']; cbn; [|do 5 (split; [done|]); intros p k; naive_solver].
    unfold clearPathStatus. case_decide as Hd; do 5 (split; [done|]); intros p k; [|split; [|tauto]].
    - cbn. rewrite lookup_delete_Some. split; [intros [Hne ?]; split; [done|]; intros [_ [= ->]]; done|].
      intros [Hp Hn]. split; [|done]. intros ->. apply Hn. split; [congruence|done].
    - intros Hp. split; [done|]. intros [-> [= ->]]. done. }
  destruct Hf as (-> & -> & -> & -> & -> & Hf). do 5 (split; [done|]). intros p k.
  rewrite Hst, Hf, elem_of_cons. naive_solver.
Qed.

(** Ending an announcement settles a displaced handler. *)
Lemma end_inv k s : inv_d {[k]} {[k]} ∅ s -> inv (endAnnouncement k s).
Proof.
  intros Hi. unfold endAnnouncement.
  assert (Hsame : (forall x, s.(hs) !! k = Some x -> x.(active) = false) -> inv s).
  { intros Hn. destruct Hi as [Hret Hmux Halt Hrec Hleak Hshown Hshow]. split; try done.
    - intros p h Hp Hr. destruct (Hrec p h Hp Hr) as [?|[?|[?|(k' & x & Hk' & Hx & Hac & _)]]]; [by auto..|].
      apply elem_of_singleton in Hk' as ->. rewrite (Hn _ Hx) in Hac. done.
    - intros h x Hx Hc Ha. destruct (Hleak h x Hx Hc Ha) as [?|[?|Hk]]; [by auto..|].
      apply elem_of_singleton in Hk as ->. rewrite (Hn _ Hx) in Ha. done.
    - intros p h Hp. destruct (Hshown p h Hp) as [?|(Hk & x & Hx & Hac & _)]; [by left|].
      apply elem_of_singleton in Hk as ->. rewrite (Hn _ Hx) in Hac. done. }
  destruct (s.(hs) !! k) as [x|] eqn:Hk; [|by apply Hsame]. destruct (active x) eqn:Hact; [|apply Hsame; by intros ? [= <-]].
  clear Hsame. cbv zeta. set (s1 := on k _ s).
  destruct (callbacks_fields k x.(cbs) s1) as (Hhs & Hmx & Hal & Hre & Hta & Hst).
  set (s2 := queue x.(cbs) (foldl (callback k) s1 x.(cbs))).
  set (s3 := if decide (mlookup s2.(mux) x.(hpath) = Some (Relay k)) then set_mux (mremove x.(hpath) s2.(mux)) s2 else s2).
  assert (H3 : s3.(hs) = s1.(hs) /\ s3.(alternates) = s.(alternates) /\ s3.(retained) = s.(retained) /\ s3.(tasks) = s.(tasks) ++ x.(cbs) /\
    (forall p h, s3.(pathStatus) !! p = Some h <-> s.(pathStatus) !! p = Some h /\ ~ (h = k /\ TPromote p ∈ x.(cbs))) /\
    (forall p h, mlookup s3.(mux) p = Some (Relay h) <-> mlookup s.(mux) p = Some (Relay h) /\ h <> k)).
  { assert (H2 : s2.(mux) = s.(mux) /\ s2.(hs) = s1.(hs) /\ s2.(alternates) = s.(alternates) /\ s2.(retained) = s.(retained) /\
      s2.(tasks) = s.(tasks) ++ x.(cbs) /\
      forall p h, s2.(pathStatus) !! p = Some h <-> s.(pathStatus) !! p = Some h /\ ~ (h = k /\ TPromote p ∈ x.(cbs))).
    { subst s2. cbn [mux hs alternates retained tasks pathStatus queue]. rewrite Hmx, Hhs, Hal, Hre, Hta.
      do 5 (split; [done|]). exact Hst. }
    destruct H2 as (Hm2 & H2h & H2a & H2r & H2t & H2s). subst s3. clearbody s2. rewrite Hm2.
    case_decide as Hd; cbn [mux hs alternates retained tasks pathStatus set_mux]; do 4 (split; [done|]); (split; [done|]); intros p h.
    - destruct (decide (x.(hpath) = p)) as [<-|Hne].
      + rewrite mlookup_remove. split; [done|]. intros [Hp Hn]. congruence.
      + rewrite mlookup_remove_ne by done. split; [|tauto]. intros Hp. split; [done|]. intros ->.
        destruct (v_mux _ _ _ _ Hi _ _ Hp) as (x' & Hx' & ? & _). congruence.
    - rewrite Hm2. split; [|tauto]. intros Hp. split; [done|]. intros ->.
      destruct (v_mux _ _ _ _ Hi _ _ Hp) as (x' & Hx' & ? & _). congruence. }
  destruct H3 as (H3h & H3a & H3r & H3t & H3s & H3m). clearbody s3. clear s2 Hhs Hmx Hal Hre Hta Hst.
  assert (Hlk : forall h y, h <> k -> s.(hs) !! h = Some y -> s3.(hs) !! h = Some y).
  { intros h y Hne Hy. rewrite H3h. subst s1. rewrite on_lookup. by rewrite decide_False. }
  assert (Hself : exists y, s3.(hs) !! k = Some y /\ y.(hpath) = x.(hpath) /\ y.(active) = false).
  { rewrite H3h. subst s1. rewrite on_lookup, decide_True, Hk by done. eexists. split; [done|]. by cbn. }
  split.
  - rewrite H3r, H3a. apply (v_ret _ _ _ _ Hi).
  - intros p h [Hp Hne]%H3m. destruct (v_mux _ _ _ _ Hi _ _ Hp) as (y & Hy & ? & ? & ?). exists y. auto.
  - rewrite H3a. intros p h Hp. destruct (v_alt _ _ _ _ Hi _ _ Hp) as (y & Hy & Hpath & Hnm & Hcb).
    assert (Hnm3 : mlookup s3.(mux) p <> Some (Relay h)) by (intros [? _]%H3m; done). rewrite H3t.
    destruct (decide (h = k)) as [->|Hne].
    + destruct Hself as (y' & Hy' & Hp' & Hac'). exists y'. rewrite Hk in Hy. injection Hy as <-. split; [done|]. split; [congruence|].
      split; [done|]. intros Hr. right. apply elem_of_app. destruct (Hcb Hr) as [[_ ?]|?]; auto.
    + exists y. split; [auto|]. split; [done|]. split; [done|]. intros Hr. destruct (Hcb Hr) as [?|?]; [by left|]. right. apply elem_of_app. by left.
  - rewrite H3a, H3t. intros p h Hp Hr. setoid_rewrite elem_of_app.
    destruct (v_rec _ _ _ _ Hi _ _ Hp Hr) as [[k' Hk']|[?|[?|(k' & y & Hk' & Hy & _ & Hcb)]]]; [|by auto|by auto|].
    + destruct (decide (k' = k)) as [->|Hne].
      * destruct (v_mux _ _ _ _ Hi _ _ Hk') as (y & Hy & _ & _ & Hcb). rewrite Hk in Hy. injection Hy as <-. auto.
      * left. exists k'. by apply H3m.
    + apply elem_of_singleton in Hk' as ->. rewrite Hk in Hy. injection Hy as <-. auto.
  - intros h y Hy Hc Ha. destruct (decide (h = k)) as [->|Hne].
    + destruct Hself as (y' & Hy' & _ & Hac'). congruence.
    + rewrite H3h in Hy. subst s1. rewrite on_lookup, decide_False in Hy by done. rewrite H3a.
      destruct (v_leak _ _ _ _ Hi _ _ Hy Hc Ha) as [?|[?|Hl]]; [left; by apply H3m|by auto|].
      apply elem_of_singleton in Hl. done.
  - intros p h [Hp Hn]%H3s. left. apply H3m. destruct (v_shown _ _ _ _ Hi _ _ Hp) as [Hm|(Hl & y & Hy & _ & Hcb)].
    + split; [done|]. intros ->. apply Hn. split; [done|]. destruct (v_mux _ _ _ _ Hi _ _ Hm) as (y & Hy & _ & _ & Hcb).
      rewrite Hk in Hy. by injection Hy as <-.
    + exfalso. apply elem_of_singleton in Hl as ->. apply Hn. split; [done|]. rewrite Hk in Hy. by injection Hy as <-.
  - intros p h [Hp Hne]%H3m. apply H3s. split; [by apply (v_show _ _ _ _ Hi)|]. by intros [? _].
Qed.

Lemma inv_weaken L E s : inv s -> inv_d L E ∅ s.
Proof.
  intros [Hret Hmux Halt Hrec Hleak Hshown Hshow]. split; try done.
  - intros p h Hp Hr. destruct (Hrec p h Hp Hr) as [?|[?|[?|(k & x & Hk & _)]]]; [by auto..|set_solver].
  - intros h x Hx Hc Ha. destruct (Hleak h x Hx Hc Ha) as [?|[?|?]]; [by auto..|set_solver].
  - intros p h Hp. destruct (Hshown p h Hp) as [?|(Hk & _)]; [by left|set_solver].
Qed.

(** The relay handler that announcing at [p] displaces. *)
Definition displaced (p : string) (s : srv) : gset nat :=
  match mlookup s.(mux) p with Some (Relay k) => {[k]} | _ => ∅ end.

(** Once the displaced handler has ended, the invariant holds again. *)
Lemma announce_inv p e s :
  (forall k, mlookup s.(mux) p = Some (Relay k) -> e <> Relay k) ->
  inv_d (displaced p s) (displaced p s) ∅ (set_mux (mannounce p e s.(mux)) s) -> inv (Announce p e s).
Proof.
  intros Hne Hi. unfold Announce, displaced in *. destruct (mlookup s.(mux) p) as [[k|]|] eqn:Hk; [|done|done].
  rewrite decide_False by (by apply Hne). by apply end_inv.
Qed.

(** A displaced route's callback, the reason why its path is looked at again. *)
Lemma displaced_spec L R p s k :
  inv_d L ∅ R s -> k ∈ displaced p s ->
  mlookup s.(mux) p = Some (Relay k) /\ exists x, s.(hs) !! k = Some x /\ x.(hpath) = p /\ x.(active) = true /\ TPromote p ∈ x.(cbs).
Proof.
  unfold displaced. intros Hi Hk. destruct (mlookup s.(mux) p) as [[k'|]|] eqn:Hm; [|set_solver..].
  apply elem_of_singleton in Hk as ->. split; [done|]. by apply (v_mux _ _ _ _ Hi).
Qed.

Lemma in_displaced p s k : mlookup s.(mux) p = Some (Relay k) -> k ∈ displaced p s.
Proof. unfold displaced. intros ->. set_solver. Qed.

Lemma foreign_inv p s : inv s -> inv (Announce p Foreign s).
Proof.
  intros Hi. apply announce_inv; [done|].
  assert (Hm : forall q h, mlookup (mannounce p Foreign s.(mux)) q = Some (Relay h) <-> q <> p /\ mlookup s.(mux) q = Some (Relay h)).
  { intros q h. destruct (decide (p = q)) as [<-|Hne]; [rewrite mlookup_announce; naive_solver|].
    rewrite mlookup_announce_ne by done. naive_solver. }
  split; cbn [retained alternates mux tasks pathStatus hs set_mux].
  - apply (v_ret _ _ _ _ Hi).
  - intros q h [_ Hq]%Hm. by apply (v_mux _ _ _ _ Hi).
  - intros q h Hq. destruct (v_alt _ _ _ _ Hi _ _ Hq) as (x & ? & ? & Hn & ?). exists x. split; [done|]. split; [done|].
    split; [|done]. by intros [_ ?]%Hm.
  - intros q h Hq Hr. destruct (v_rec _ _ _ _ Hi _ _ Hq Hr) as [[k Hk]|[?|[?|(k & x & Hk & _)]]]; [|by auto|by auto|set_solver].
    destruct (decide (q = p)) as [->|Hne]; [|left; exists k; by apply Hm].
    right. right. right. pose proof (in_displaced _ _ _ Hk) as Hd.
    destruct (displaced_spec _ _ _ _ _ Hi Hd) as (_ & x & ? & _ & ? & ?). eauto 10.
  - intros h x Hx Hc Ha. destruct (v_leak _ _ _ _ Hi _ _ Hx Hc Ha) as [Hl|[?|?]]; [|by auto|set_solver].
    destruct (decide (x.(hpath) = p)) as [Heq|Hne]; [|left; by apply Hm]. right. right. subst p. by apply in_displaced.
  - intros q h Hq. destruct (v_shown _ _ _ _ Hi _ _ Hq) as [Hl|[? _]]; [|set_solver].
    destruct (decide (q = p)) as [->|Hne]; [|left; by apply Hm]. right.
    pose proof (in_displaced _ _ _ Hl) as Hd. split; [done|]. destruct (displaced_spec _ _ _ _ _ Hi Hd) as (_ & x & ? & _ & ? & ?). eauto.
  - intros q h [_ Hq]%Hm. by apply (v_show _ _ _ _ Hi).
Qed.

(** A handler that is about to be placed. *)
Record placeable (h : nat) (p : string) (s : srv) : Prop := {
  pl_inv : inv_d {[h]} ∅ ∅ s;
  pl_mux : mlookup s.(mux) p <> Some (Relay h);
  pl_alt : s.(alternates) !! p <> Some h;
  pl_h : exists x, s.(hs) !! h = Some x /\ x.(hpath) = p /\ x.(active) = true
}.

Lemma installRoute_inv h p s : placeable h p s -> inv (installRoute h p s).
Proof.
  intros [Hi Hnm Hna (x & Hx & Hp & Hact)]. unfold installRoute. cbv zeta.
  unfold AfterFunc. cbn [hs set_status]. rewrite Hx, Hact.
  set (s1 := set_cbs h (x.(cbs) ++ [TPromote p]) (set_status (<[p := h]> s.(pathStatus)) s)).
  assert (Hm1 : s1.(mux) = s.(mux)) by done. assert (Hd1 : displaced p s1 = displaced p s) by done.
  apply announce_inv; [intros k; rewrite Hm1; congruence|]. rewrite Hd1, Hm1. clear Hm1 Hd1.
  assert (Hm : forall q k, mlookup (mannounce p (Relay h) s.(mux)) q = Some (Relay k) <->
     (q = p /\ k = h) \/ (q <> p /\ mlookup s.(mux) q = Some (Relay k))).
  { intros q k. destruct (decide (p = q)) as [<-|Hne]; [rewrite mlookup_announce; naive_solver|].
    rewrite mlookup_announce_ne by done. naive_solver. }
  assert (Hlk : forall k y, s.(hs) !! k = Some y -> exists y', s1.(hs) !! k = Some y' /\ y'.(hpath) = y.(hpath) /\
     y'.(active) = y.(active) /\ y'.(cancelled) = y.(cancelled) /\ forall t, t ∈ y.(cbs) -> t ∈ y'.(cbs)).
  { intros k y Hy. subst s1. unfold set_cbs. rewrite on_lookup. case_decide as Hk; [|eauto 10]. subst k. cbn. rewrite Hx in Hy. injection Hy as <-.
    rewrite Hx. eexists. split; [done|]. cbn. do 3 (split; [done|]). intros t Ht. apply elem_of_app. by left. }
  assert (Hself : exists y, s1.(hs) !! h = Some y /\ y.(hpath) = p /\ y.(active) = true /\ TPromote p ∈ y.(cbs)).
  { subst s1. unfold set_cbs. rewrite on_lookup, decide_True by done. cbn. rewrite Hx. eexists. split; [done|]. cbn.
    split; [done|]. split; [done|]. apply elem_of_app. right. by apply list_elem_of_singleton. }
  assert (Hback : forall k y', s1.(hs) !! k = Some y' -> exists y, s.(hs) !! k = Some y /\ y'.(hpath) = y.(hpath) /\
     y'.(active) = y.(active) /\ y'.(cancelled) = y.(cancelled)).
  { intros k y'. subst s1. unfold set_cbs. rewrite on_lookup. case_decide; [|eauto]. cbn. subst k. rewrite Hx. intros [= <-]. eauto 10. }
  assert (Hdis : forall k, mlookup s.(mux) p = Some (Relay k) -> k ∈ displaced p s /\ exists y, s1.(hs) !! k = Some y /\ y.(active) = true /\ TPromote p ∈ y.(cbs)).
  { intros k Hk. split; [by apply in_displaced|]. destruct (v_mux _ _ _ _ Hi _ _ Hk) as (y & Hy & _ & Hya & Hyc).
    destruct (Hlk _ _ Hy) as (y' & ? & _ & Ha' & _ & Hc'). exists y'. rewrite Ha'. auto. }
  split; cbn [retained alternates mux tasks pathStatus hs set_mux].
  - apply (v_ret _ _ _ _ Hi).
  - intros q k [[-> ->]|[Hne Hq]]%Hm; [done|]. destruct (v_mux _ _ _ _ Hi _ _ Hq) as (y & Hy & ? & ? & ?).
    destruct (Hlk _ _ Hy) as (y' & ? & ? & ? & _ & Hc). exists y'. repeat split; [done|congruence|congruence|auto].
  - intros q k Hq. destruct (v_alt _ _ _ _ Hi _ _ Hq) as (y & Hy & ? & Hn & Hcb). destruct (Hlk _ _ Hy) as (y' & ? & ? & Ha & _ & Hc).
    exists y'. split; [done|]. split; [congruence|]. split; [intros [[-> ->]|[_ ?]]%Hm; done|].
    intros Hr. destruct (Hcb Hr) as [[? ?]|?]; [left; rewrite Ha; auto|by right].
  - intros q k Hq Hr. destruct (decide (q = p)) as [->|Hne]; [left; exists h; apply Hm; by left|].
    destruct (v_rec _ _ _ _ Hi _ _ Hq Hr) as [[k' Hk']|[?|[?|(k' & y & Hk' & _)]]]; [|by auto|by auto|set_solver].
    left. exists k'. apply Hm. by right.
  - intros k y' Hy' Hc Ha. destruct (Hback _ _ Hy') as (y & Hy & -> & Hya & Hyc). rewrite Hya in Ha. rewrite Hyc in Hc.
    destruct (decide (k = h)) as [->|Hkh].
    { left. rewrite Hx in Hy. injection Hy as <-. rewrite Hp. apply Hm. by left. }
    destruct (v_leak _ _ _ _ Hi _ _ Hy Hc Ha) as [Hl|[?|?]]; [|by auto|set_solver].
    destruct (decide (y.(hpath) = p)) as [Heq|Hne]; [|left; apply Hm; by right].
    right. right. rewrite Heq in Hl. by apply Hdis.
  - subst s1. cbn [pathStatus set_cbs on set_hs set_status]. intros q k Hq. destruct (decide (q = p)) as [->|Hne].
    + rewrite lookup_insert_eq in Hq. injection Hq as <-. left. apply Hm. by left.
    + rewrite lookup_insert_ne in Hq by done. destruct (v_shown _ _ _ _ Hi _ _ Hq) as [Hl|[? _]]; [|set_solver].
      left. apply Hm. by right.
  - subst s1. cbn [pathStatus set_cbs on set_hs set_status]. intros q k [[-> ->]|[Hne Hq]]%Hm; [by rewrite lookup_insert_eq|].
    rewrite lookup_insert_ne by done. by apply (v_show _ _ _ _ Hi).
Qed.


Lemma exempt_inv L E R s : inv_d L E R s -> (forall p, p ∈ R -> s.(alternates) !! p = None) -> inv_d L E ∅ s.
Proof.
  intros [Hret Hmux Halt Hrec Hleak Hshown Hshow] HR.
  assert (Hout : forall p h, s.(alternates) !! p = Some h -> p ∉ R) by (intros p h Hp Hr; rewrite (HR p Hr) in Hp; done).
  split; try done.
  - intros p h Hp. destruct (Halt p h Hp) as (x & ? & ? & ? & Hcb). exists x. repeat split; [done..|]. eauto.
  - intros p h Hp _. eauto.
Qed.

(** Taking the fallback of a path out of the table leaves its handler to place. *)
Lemma alternate_remove_inv L E R p h s :
  inv_d L E R s -> s.(alternates) !! p = Some h ->
  inv_d (L ∪ {[h]}) E R (set_alternates (delete p s.(alternates)) (-1) s).
Proof.
  intros [Hret Hmux Halt Hrec Hleak Hshown Hshow] Hp. split; cbn [retained alternates mux tasks pathStatus hs set_alternates]; try done.
  - rewrite Hret, map_size_delete_Some by eauto.
    assert (size (alternates s) <> 0%nat) by (apply (map_size_ne_0_lookup_2 _ p); eauto). lia.
  - intros q k [_ Hq]%lookup_delete_Some. eauto.
  - intros q k [_ Hq]%lookup_delete_Some. eauto.
  - intros k x Hx Hc Ha. destruct (Hleak k x Hx Hc Ha) as [?|[Hl|?]]; [by left| |set_solver].
    destruct (decide (p = x.(hpath))) as [->|Hne]; [right; right; set_solver|]. right. left. by rewrite lookup_delete_ne.
Qed.

(** Deregistering the discard of a handler that is no longer a fallback. *)
Lemma stop_inv L E R p h s : inv_d L E R s -> s.(alternates) !! p <> Some h -> inv_d L E R (stop h (TDiscard p h) s).
Proof.
  intros Hi Hn. unfold stop. destruct (s.(hs) !! h) as [x|] eqn:Hx; [|done].
  assert (Hlk : forall k y, s.(hs) !! k = Some y -> exists y', (set_cbs h (filter (fun u => u <> TDiscard p h) x.(cbs)) s).(hs) !! k = Some y' /\
     y'.(hpath) = y.(hpath) /\ y'.(active) = y.(active) /\ y'.(cancelled) = y.(cancelled) /\
     forall t, t <> TDiscard p h -> t ∈ y.(cbs) -> t ∈ y'.(cbs)).
  { intros k y Hy. unfold set_cbs. rewrite on_lookup. case_decide as Hk; [|eauto 10]. subst k. rewrite Hx in Hy. injection Hy as <-.
    rewrite Hx. eexists. split; [done|]. cbn. do 3 (split; [done|]). intros t ? ?. by apply list_elem_of_filter. }
  assert (Hback : forall k y', (set_cbs h (filter (fun u => u <> TDiscard p h) x.(cbs)) s).(hs) !! k = Some y' ->
     exists y, s.(hs) !! k = Some y /\ y'.(hpath) = y.(hpath) /\ y'.(active) = y.(active) /\ y'.(cancelled) = y.(cancelled)).
  { intros k y'. unfold set_cbs. rewrite on_lookup. case_decide; [|eauto]. subst k. rewrite Hx. intros [= <-]. eauto 10. }
  destruct Hi as [Hret Hmux Halt Hrec Hleak Hshown Hshow].
  split; cbn [retained alternates mux tasks pathStatus set_cbs on set_hs]; try done.
  - intros q k Hq. destruct (Hmux q k Hq) as (y & Hy & ? & ? & ?). destruct (Hlk _ _ Hy) as (y' & ? & ? & ? & _ & Hc).
    exists y'. repeat split; [done|congruence|congruence|]. by apply Hc.
  - intros q k Hq. destruct (Halt q k Hq) as (y & Hy & ? & ? & Hcb). destruct (Hlk _ _ Hy) as (y' & ? & ? & Ha & _ & Hc).
    exists y'. repeat split; [done|congruence|done|]. intros Hr. destruct (Hcb Hr) as [[? ?]|?]; [|by right]. left.
    split; [congruence|]. apply Hc; [|done]. congruence.
  - intros q k Hq Hr. destruct (Hrec q k Hq Hr) as [?|[?|[?|(k' & y & ? & Hy & ? & ?)]]]; [by auto..|].
    destruct (Hlk _ _ Hy) as (y' & ? & _ & Ha & _ & Hc). right. right. right. exists k', y'. rewrite Ha. repeat split; [done..|]. by apply Hc.
  - intros k y' Hy' Hc Ha. destruct (Hback _ _ Hy') as (y & Hy & -> & Hya & Hyc). apply Hleak; [done|congruence|congruence].
  - intros q k Hq. destruct (Hshown q k Hq) as [?|(? & y & Hy & ? & ?)]; [by left|]. right. split; [done|].
    destruct (Hlk _ _ Hy) as (y' & ? & _ & Ha & _ & Hc). exists y'. rewrite Ha. repeat split; [done..|]. by apply Hc.
Qed.

(** Storing a live loser as the fallback of an occupied path. *)
Lemma alternate_store_inv h p s :
  placeable h p s -> s.(alternates) !! p = None -> (exists k, mlookup s.(mux) p = Some (Relay k)) ->
  inv (AfterFunc h (TDiscard p h) (set_alternates (<[p := h]> s.(alternates)) 1 s)).
Proof.
  intros [Hi Hnm _ (x & Hx & Hp & Hact)] Hnone Hocc. unfold AfterFunc. cbn [hs set_alternates]. rewrite Hx, Hact.
  set (s1 := set_cbs h (x.(cbs) ++ [TDiscard p h]) (set_alternates (<[p := h]> s.(alternates)) 1 s)).
  assert (Hlk : forall k y, s.(hs) !! k = Some y -> exists y', s1.(hs) !! k = Some y' /\ y'.(hpath) = y.(hpath) /\
     y'.(active) = y.(active) /\ y'.(cancelled) = y.(cancelled) /\ forall t, t ∈ y.(cbs) -> t ∈ y'.(cbs)).
  { intros k y Hy. subst s1. unfold set_cbs. rewrite on_lookup. case_decide as Hk; [|eauto 10]. subst k. cbn. rewrite Hx in Hy. injection Hy as <-.
    rewrite Hx. eexists. split; [done|]. cbn. do 3 (split; [done|]). intros t Ht. apply elem_of_app. by left. }
  assert (Hself : exists y, s1.(hs) !! h = Some y /\ y.(hpath) = p /\ y.(active) = true /\ TDiscard p h ∈ y.(cbs)).
  { subst s1. unfold set_cbs. rewrite on_lookup, decide_True by done. cbn. rewrite Hx. eexists. split; [done|]. cbn.
    split; [done|]. split; [done|]. apply elem_of_app. right. by apply list_elem_of_singleton. }
  assert (Hback : forall k y', s1.(hs) !! k = Some y' -> exists y, s.(hs) !! k = Some y /\ y'.(hpath) = y.(hpath) /\
     y'.(active) = y.(active) /\ y'.(cancelled) = y.(cancelled)).
  { intros k y'. subst s1. unfold set_cbs. rewrite on_lookup. case_decide; [|eauto]. cbn. subst k. rewrite Hx. intros [= <-]. eauto 10. }
  destruct Hi as [Hret Hmux Halt Hrec Hleak Hshown Hshow].
  split; change (mux s1) with (mux s); change (alternates s1) with (<[p := h]> s.(alternates)); change (tasks s1) with (tasks s);
    change (pathStatus s1) with (pathStatus s); change (retained s1) with (retained s + 1); try done.
  - rewrite Hret, map_size_insert_None by done. lia.
  - intros q k Hq. destruct (Hmux q k Hq) as (y & Hy & ? & ? & ?). destruct (Hlk _ _ Hy) as (y' & ? & ? & ? & _ & Hc).
    exists y'. repeat split; [done|congruence|congruence|auto].
  - intros q k [[<- <-]|[Hne Hq]]%lookup_insert_Some.
    + destruct Hself as (y & ? & ? & ? & ?). exists y. auto 10.
    + destruct (Halt q k Hq) as (y & Hy & ? & ? & Hcb). destruct (Hlk _ _ Hy) as (y' & ? & ? & Ha & _ & Hc).
      exists y'. repeat split; [done|congruence|done|]. intros Hr. destruct (Hcb Hr) as [[? ?]|?]; [left; rewrite Ha; auto|by right].
  - intros q k [[<- <-]|[Hne Hq]]%lookup_insert_Some Hr; [by left|].
    destruct (Hrec q k Hq Hr) as [?|[?|[?|(k' & y & ? & _)]]]; [by auto..|set_solver].
  - intros k y' Hy' Hc Ha. destruct (Hback _ _ Hy') as (y & Hy & -> & Hya & Hyc). rewrite Hya in Ha. rewrite Hyc in Hc.
    destruct (Hleak k y Hy Hc Ha) as [?|[Hl|Hl]]; [by left| |]; right; left.
    + rewrite lookup_insert_ne; [done|]. congruence.
    + apply elem_of_singleton in Hl as ->. rewrite Hx in Hy. injection Hy as <-. rewrite Hp. by rewrite lookup_insert_eq.
  - intros q k Hq. destruct (Hshown q k Hq) as [?|[? _]]; [by left|set_solver].
Qed.

(** Two ways of writing the replacement of a fallback. *)
Lemma replace_alternate p prev h s :
  set_alternates (<[p := h]> s.(alternates)) 1 (set_alternates s.(alternates) (-1) (cancel prev (stop prev (TDiscard p prev) s))) =
  let s1 := cancel prev (stop prev (TDiscard p prev) (set_alternates (delete p s.(alternates)) (-1) s)) in
  set_alternates (<[p := h]> s1.(alternates)) 1 s1.
Proof.
  cbv zeta. unfold stop. cbn [hs set_alternates].
  destruct (s.(hs) !! prev) as [x|]; unfold cancel, set_cbs, on, set_hs, set_alternates;
    cbn [hs mux alternates pathStatus retained tasks]; by rewrite insert_delete_eq.
Qed.

Lemma stop_fields h t s :
  let s' := stop h t s in
  s'.(mux) = s.(mux) /\ s'.(alternates) = s.(alternates) /\ s'.(tasks) = s.(tasks) /\ s'.(pathStatus) = s.(pathStatus) /\
  (forall k x, s.(hs) !! k = Some x -> exists x', s'.(hs) !! k = Some x' /\ x'.(hpath) = x.(hpath) /\ x'.(active) = x.(active) /\
     x'.(cancelled) = x.(cancelled)) /\
  (forall k, alive s' k = alive s k).
Proof.
  cbv zeta. unfold stop. destruct (s.(hs) !! h) as [y|] eqn:Hy; [|by eauto 10]. do 4 (split; [done|]). split.
  - intros k x Hx. unfold set_cbs. rewrite on_lookup. case_decide; [|eauto]. subst. rewrite Hx. cbn. eauto.
  - intros k. unfold alive, set_cbs. rewrite on_lookup. case_decide; [|done]. subst. by rewrite Hy.
Qed.

Lemma cancel_lookup h s k x : s.(hs) !! k = Some x -> exists x', (cancel h s).(hs) !! k = Some x' /\ x'.(hpath) = x.(hpath) /\ x'.(active) = x.(active).
Proof. intros Hx. unfold cancel. rewrite on_lookup. case_decide; [|eauto]. rewrite Hx. cbn. eauto. Qed.

(** A fallback that leaves the table, its discard deregistered, can be placed. *)
Lemma pop_placeable R p h s :
  inv_d ∅ ∅ R s -> R ⊆ {[p]} -> s.(alternates) !! p = Some h ->
  let s1 := stop h (TDiscard p h) (set_alternates (delete p s.(alternates)) (-1) s) in
  inv_d {[h]} ∅ ∅ s1 /\ mlookup s1.(mux) p <> Some (Relay h) /\ s1.(alternates) !! p = None /\ s1.(mux) = s.(mux) /\
  (exists x, s1.(hs) !! h = Some x /\ x.(hpath) = p) /\ forall k, alive s1 k = alive s k.
Proof.
  intros Hi HR Hp. cbv zeta. destruct (stop_fields h (TDiscard p h) (set_alternates (delete p s.(alternates)) (-1) s)) as (Hm & Ha & _ & _ & Hh & Hal).
  destruct (v_alt _ _ _ _ Hi _ _ Hp) as (x & Hx & Hpath & Hn & _).
  rewrite Hm, Ha. cbn [mux alternates set_alternates]. split; [|split; [done|split; [apply lookup_delete_eq|split; [done|split]]]].
  - apply (exempt_inv _ _ R); [|intros q Hq; rewrite Ha; cbn [alternates set_alternates]; apply HR, elem_of_singleton in Hq as ->; apply lookup_delete_eq].
    apply stop_inv; [|cbn [alternates set_alternates]; by rewrite lookup_delete_eq].
    pose proof (alternate_remove_inv _ _ _ _ _ _ Hi Hp) as Hr. by rewrite union_empty_l_L in Hr.
  - destruct (Hh _ _ Hx) as (x' & ? & ? & _). exists x'. split; [done|congruence].
  - intros k. by rewrite Hal.
Qed.

Lemma alive_active s h : alive s h = true -> exists x, s.(hs) !! h = Some x /\ x.(active) = true /\ x.(cancelled) = false.
Proof.
  unfold alive. destruct (s.(hs) !! h) as [x|]; [|done]. intros [? ?%negb_true_iff]%andb_prop. eauto.
Qed.

Lemma cancel_settles h s : inv_d {[h]} ∅ ∅ s -> inv (cancel h s).
Proof. intros Hi. pose proof (cancel_inv _ _ _ h _ Hi) as Hc. by rewrite difference_diag_L in Hc. Qed.

Lemma retain_inv obs h p s :
  placeable h p s -> (exists k, mlookup s.(mux) p = Some (Relay k)) -> inv (retainRouteLocked obs h p s).
Proof.
  intros Hpl Hocc. unfold retainRouteLocked. destruct (alive s h) eqn:Hal; cbn [negb]; [|by apply cancel_settles, Hpl].
  destruct (s.(alternates) !! p) as [prev|] eqn:Hprev; [|by apply alternate_store_inv].
  destruct (accepted _); cbn [negb]; [|by apply cancel_settles, Hpl].
  change (alternates (set_alternates (alternates s) (-1) _)) with (alternates s).
  rewrite replace_alternate. cbv zeta. destruct Hpl as [Hi Hnm Hna (x & Hx & Hpath & Hact)].
  destruct (stop_fields prev (TDiscard p prev) (set_alternates (delete p s.(alternates)) (-1) s)) as (Hm & Ha & _ & _ & Hh & _).
  pose proof (alternate_remove_inv _ _ _ _ _ _ Hi Hprev) as Hr.
  apply (stop_inv _ _ _ p prev) in Hr; [|cbn [alternates set_alternates]; by rewrite lookup_delete_eq].
  apply (cancel_inv _ _ _ prev) in Hr.
  replace (({[h]} ∪ {[prev]}) ∖ {[prev]} : gset nat) with ({[h]} : gset nat) in Hr by (assert (h <> prev) by congruence; set_solver).
  apply alternate_store_inv; [|cbn [alternates cancel on set_hs]; rewrite Ha; apply lookup_delete_eq|cbn [mux cancel on set_hs]; by rewrite Hm].
  split; [done|cbn [mux cancel on set_hs]; by rewrite Hm|cbn [alternates cancel on set_hs]; rewrite Ha; cbn [alternates set_alternates]; by rewrite lookup_delete_eq|].
  destruct (Hh _ _ Hx) as (x1 & Hx1 & Hp1 & Ha1 & _). destruct (cancel_lookup prev _ _ _ Hx1) as (x2 & ? & ? & ?).
  exists x2. split; [done|]. split; congruence.
Qed.

Lemma placeable_drain h p k s : placeable h p s -> placeable h p (Drain k s).
Proof.
  intros [Hi Hnm Hna (x & Hx & ? & ?)]. split; [by apply Drain_inv|done|done|]. unfold Drain. rewrite on_lookup.
  case_decide; [|eauto]. rewrite Hx. cbn. eauto.
Qed.

Lemma elect_inv obs h p s : placeable h p s -> inv (elect obs h p s).
Proof.
  intros Hpl. unfold elect. destruct (mlookup s.(mux) p) as [[k|]|] eqn:Hm; [|by apply installRoute_inv..].
  destruct (accepted _); [by apply installRoute_inv, placeable_drain|]. apply retain_inv; eauto.
Qed.

Lemma announced_placeable h p c s :
  inv s -> s.(hs) !! h = None -> placeable h p (set_hs (<[h := mkH p true c false []]> s.(hs)) s).
Proof.
  intros [Hret Hmux Halt Hrec Hleak Hshown Hshow] Hh.
  assert (Hlk : forall k x, s.(hs) !! k = Some x -> <[h := mkH p true c false []]> s.(hs) !! k = Some x).
  { intros k x Hx. rewrite lookup_insert_ne; [done|]. congruence. }
  split; [split| | |]; cbn [retained alternates mux tasks pathStatus hs set_hs]; try done.
  - intros q k Hq. destruct (Hmux q k Hq) as (x & ? & ?). eauto.
  - intros q k Hq. destruct (Halt q k Hq) as (x & ? & ?). eauto.
  - intros q k Hq Hr. destruct (Hrec q k Hq Hr) as [?|[?|[?|(k' & y & ? & _)]]]; [by auto..|set_solver].
  - intros k x [[<- <-]|[Hne Hx]]%lookup_insert_Some Hc Ha; [set_solver|]. destruct (Hleak k x Hx Hc Ha) as [?|[?|?]]; [by auto..|set_solver].
  - intros q k Hq. destruct (Hshown q k Hq) as [?|[? _]]; [by left|set_solver].
  - intros Hp. destruct (Hmux _ _ Hp) as (x & ? & _). congruence.
  - intros Hp. destruct (Halt _ _ Hp) as (x & ? & _). congruence.
  - exists (mkH p true c false []). by rewrite lookup_insert_eq.
Qed.

Definition without (l l' : list task) (s : srv) : srv := mkSrv s.(hs) s.(mux) s.(alternates) s.(pathStatus) s.(retained) (l ++ l').

Lemma task_inv R s l t l' :
  inv s -> s.(tasks) = l ++ t :: l' ->
  (forall q k, s.(alternates) !! q = Some k -> q ∉ R -> t <> TPromote q /\ t <> TDiscard q k) ->
  inv_d ∅ ∅ R (without l l' s).
Proof.
  intros [Hret Hmux Halt Hrec Hleak Hshown Hshow] Ht Hn.
  assert (Hin : forall u, u <> t -> u ∈ s.(tasks) -> u ∈ l ++ l').
  { intros u Hu. rewrite Ht, !elem_of_app, elem_of_cons. naive_solver. }
  split; cbn [retained alternates mux tasks pathStatus hs without]; try done.
  - intros q k Hq. destruct (Halt q k Hq) as (x & ? & ? & ? & Hcb). exists x. repeat split; [done..|]. intros Hr.
    destruct (Hcb (not_elem_of_empty q)) as [?|?]; [by left|]. right. apply Hin; [|done]. destruct (Hn q k Hq Hr). congruence.
  - intros q k Hq Hr. destruct (Hn q k Hq Hr). destruct (Hrec q k Hq (not_elem_of_empty q)) as [?|[?|[?|?]]]; [by auto| | |by auto].
    + right. left. apply Hin; [congruence|done].
    + right. right. left. apply Hin; [congruence|done].
Qed.

Lemma promote_inv obs p s : inv_d ∅ ∅ {[p]} s -> inv (promoteAlternate obs p s).
Proof.
  intros Hi. unfold promoteAlternate. destruct (s.(alternates) !! p) as [h|] eqn:Hp;
    [|by apply (exempt_inv _ _ {[p]}); [|intros q ->%elem_of_singleton]].
  destruct (pop_placeable _ _ _ _ Hi (reflexivity _) Hp) as (Hi1 & Hnm & Hna & _ & Hh & _). cbv zeta in *.
  set (s1 := stop h _ _) in *. clearbody s1.
  destruct (alive s1 h) eqn:Hal; cbn [negb]; [|by apply cancel_settles].
  assert (Hpl : placeable h p s1).
  { split; [done|done|congruence|]. destruct Hh as (x & Hx & ?). destruct (alive_active _ _ Hal) as (x' & ? & ? & _). exists x'. split; [done|].
    split; congruence. }
  destruct (mlookup s1.(mux) p) as [[k|]|]; [destruct (Alive _)|..]; (by apply cancel_settles) || (by apply installRoute_inv).
Qed.

Lemma discard_inv obs p h s l l' :
  inv s -> s.(tasks) = l ++ TDiscard p h :: l' -> inv (run_task obs (TDiscard p h) (without l l' s)).
Proof.
  intros Hi Ht. cbn [run_task]. unfold discardAlternate. cbn [alternates without]. case_decide as Hd.
  - apply cancel_settles. apply (exempt_inv _ _ {[p]}); [|intros q ->%elem_of_singleton; apply lookup_delete_eq].
    assert (Hi1 : inv_d ∅ ∅ {[p]} (without l l' s)) by (eapply task_inv; [done|done|]; intros q k Hq Hr; split; [done|intros [= -> ->]; set_solver]).
    pose proof (alternate_remove_inv _ _ _ p h _ Hi1 Hd) as Hr. by rewrite union_empty_l_L in Hr.
  - eapply task_inv; [done|done|]. intros q k Hq _. split; [done|]. intros [= -> ->]. done.
Qed.

Lemma foreign_end_inv p s : mlookup s.(mux) p = Some Foreign -> inv s -> inv (set_mux (mremove p s.(mux)) s).
Proof.
  intros Hp [Hret Hmux Halt Hrec Hleak Hshown Hshow].
  assert (Hm : forall q h, mlookup (mremove p s.(mux)) q = Some (Relay h) <-> mlookup s.(mux) q = Some (Relay h)).
  { intros q h. destruct (decide (p = q)) as [<-|]; [rewrite mlookup_remove, Hp; done|by rewrite mlookup_remove_ne]. }
  split; cbn [retained alternates mux tasks pathStatus hs set_mux]; try setoid_rewrite Hm; done.
Qed.

Lemma route_step_inv s s' : step s s' -> inv s -> inv s'.
Proof.
  intros Hs Hi. destruct Hs as [s obs h p c Hh|s h|s h|s obs l t l' Ht|s p|s p Hp].
  - by apply elect_inv, announced_placeable.
  - by apply end_inv, inv_weaken.
  - pose proof (cancel_inv _ _ _ h _ Hi) as Hc. by replace (∅ ∖ {[h]} : gset nat) with (∅ : gset nat) in Hc by set_solver.
  - destruct t as [p|p h]; [|by apply discard_inv]. apply promote_inv. eapply task_inv; [done|exact Ht|].
    intros q k Hq Hr. split; [|done]. intros [= ->]. set_solver.
  - by apply foreign_inv.
  - by apply foreign_end_inv.
Qed.

Lemma steps_inv m s : (forall p, mlookup m p = None) -> rtc step (started m) s -> inv s.
Proof.
  intros Hm Hr. assert (Hi : inv (started m)) by (by apply started_inv). revert Hi.
  induction Hr as [|x y z Hxy _ IH]; [done|]. intros Hi. apply IH. by eapply route_step_inv.
Qed.

(** ** Callbacks that wait for routeMu

    A discard callback takes routeMu and runs inside the end of its
    announcement. Only the fallback of a path has one, and none is queued for a
    handler whose announcement is active. *)
Record calm (s : srv) : Prop := {
  c_cb h x q k : s.(hs) !! h = Some x -> TDiscard q k ∈ x.(cbs) -> k = h /\ s.(alternates) !! q = Some h;
  c_off h x : s.(hs) !! h = Some x -> x.(active) = false -> x.(cbs) = [];
  c_task q k : TDiscard q k ∈ s.(tasks) -> exists x, s.(hs) !! k = Some x /\ x.(active) = false
}.

(** Steps that leave the discards alone. *)
Lemma calm_same s s' :
  calm s -> s'.(alternates) = s.(alternates) ->
  (forall q k, TDiscard q k ∈ s'.(tasks) -> TDiscard q k ∈ s.(tasks)) ->
  (forall h x', s'.(hs) !! h = Some x' -> exists x, s.(hs) !! h = Some x /\ x.(active) = x'.(active) /\
     (x.(active) = false -> x'.(cbs) = x.(cbs)) /\ forall q k, TDiscard q k ∈ x'.(cbs) -> TDiscard q k ∈ x.(cbs)) ->
  (forall h x, s.(hs) !! h = Some x -> is_Some (s'.(hs) !! h)) ->
  calm s'.
Proof.
  intros [Hcb Hoff Htask] Ha Ht Hh Hd. split.
  - intros h x' q k Hx' Hin. destruct (Hh _ _ Hx') as (x & Hx & _ & _ & Hq). rewrite Ha. eauto.
  - intros h x' Hx' Hf. destruct (Hh _ _ Hx') as (x & Hx & Hac & Hc & _). rewrite Hc by congruence. apply (Hoff h); [done|congruence].
  - intros q k Hin. destruct (Htask q k) as (x & Hx & Hf); [by apply Ht|]. destruct (Hd _ _ Hx) as [x' Hx']. exists x'. split; [done|].
    destruct (Hh _ _ Hx') as (y & Hy & ? & _). congruence.
Qed.

Lemma calm_ext s s' : calm s -> s'.(alternates) = s.(alternates) -> s'.(tasks) = s.(tasks) -> s'.(hs) = s.(hs) -> calm s'.
Proof. intros Hc Ha Ht Hh. eapply calm_same; [exact Hc|done|by rewrite Ht|rewrite Hh; eauto 10|rewrite Hh; eauto]. Qed.

Lemma calm_on h f s :
  calm s -> (forall x, (f x).(active) = x.(active) /\ (f x).(cbs) = x.(cbs)) -> calm (on h f s).
Proof.
  intros Hc Hf. eapply calm_same; [exact Hc|done|done|..]; intros k x; rewrite on_lookup; case_decide; subst; [|by eauto 10| |by eauto].
  - destruct (s.(hs) !! k) as [y|]; [|done]. intros [= <-]. exists y. destruct (Hf y) as [-> ->]. eauto.
  - intros ->. eauto.
Qed.

Lemma calm_end k s : calm s -> calm (endAnnouncement k s).
Proof.
  intros [Hcb Hoff Htask]. unfold endAnnouncement. destruct (s.(hs) !! k) as [x|] eqn:Hk; [|by split].
  destruct (active x) eqn:Hact; [|by split]. cbv zeta. set (s1 := on k _ s).
  destruct (callbacks_fields k x.(cbs) s1) as (Hhs & _ & Hal & _ & Hta & _).
  set (s2 := queue x.(cbs) (foldl (callback k) s1 x.(cbs))).
  assert (H2 : s2.(hs) = s1.(hs) /\ s2.(alternates) = s.(alternates) /\ s2.(tasks) = s.(tasks) ++ x.(cbs)).
  { subst s2. cbn [hs alternates tasks queue]. by rewrite Hhs, Hal, Hta. }
  clearbody s2. destruct H2 as (H2h & H2a & H2t).
  assert (Hc : calm s2).
  { split; rewrite ?H2h, ?H2a, ?H2t; subst s1.
    - intros h y q j. rewrite on_lookup. case_decide; [|by apply Hcb]. subst h. rewrite Hk. intros [= <-]. by intros ?%not_elem_of_nil.
    - intros h y. rewrite on_lookup. case_decide; [|by apply Hoff]. subst h. rewrite Hk. by intros [= <-].
    - intros q j Hin. rewrite on_lookup. case_decide; [subst j; rewrite Hk; cbn; by eauto|].
      apply elem_of_app in Hin as [Hin|Hin]; [by apply (Htask q)|]. destruct (Hcb _ _ _ _ Hk Hin) as [-> _]. done. }
  case_decide; [by eapply calm_ext|done].
Qed.

Lemma calm_announce p e s : calm s -> calm (Announce p e s).
Proof.
  intros Hc. unfold Announce. assert (H1 : calm (set_mux (mannounce p e s.(mux)) s)) by (by eapply calm_ext).
  destruct (mlookup s.(mux) p) as [[k|]|]; [case_decide|..]; [done|by apply calm_end|done..].
Qed.

Lemma calm_after h t s :
  calm s -> (forall q k, t = TDiscard q k -> k = h /\ s.(alternates) !! q = Some h) -> calm (AfterFunc h t s).
Proof.
  intros [Hcb Hoff Htask] Ht. unfold AfterFunc. destruct (s.(hs) !! h) as [x|] eqn:Hx; [|by split]. destruct (active x) eqn:Hact.
  - split; cbn [alternates tasks set_cbs on set_hs].
    + intros k y q j. unfold set_cbs. rewrite on_lookup. case_decide; [|by apply Hcb]. subst k. rewrite Hx. intros [= <-]. cbn.
      intros [?|?%list_elem_of_singleton]%elem_of_app; [by eapply Hcb|by apply Ht].
    + intros k y. unfold set_cbs. rewrite on_lookup. case_decide; [|by apply Hoff]. subst k. rewrite Hx. intros [= <-]. cbn. congruence.
    + intros q j Hin. destruct (Htask q j Hin) as (y & Hy & Hf). unfold set_cbs. rewrite on_lookup. case_decide; [|eauto].
      subst j. congruence.
  - split; cbn [alternates tasks hs queue]; [done|done|]. intros q j [?|?%list_elem_of_singleton]%elem_of_app; [by apply (Htask q)|].
    destruct (Ht q j) as [-> _]; [done|]. eauto.
Qed.

Lemma calm_pop p h s :
  calm s -> s.(alternates) !! p = Some h -> calm (stop h (TDiscard p h) (set_alternates (delete p s.(alternates)) (-1) s)).
Proof.
  intros [Hcb Hoff Htask] Hp. unfold stop. cbn [hs set_alternates].
  assert (Hother : forall k x q j, s.(hs) !! k = Some x -> TDiscard q j ∈ x.(cbs) -> TDiscard q j <> TDiscard p h ->
    j = k /\ delete p s.(alternates) !! q = Some k).
  { intros k x q j Hx Hin Hne. destruct (Hcb _ _ _ _ Hx Hin) as [-> Hq]. split; [done|]. rewrite lookup_delete_ne; [done|]. congruence. }
  destruct (s.(hs) !! h) as [x|] eqn:Hx.
  - split; cbn [alternates tasks set_alternates set_cbs on set_hs].
    + intros k y q j. unfold set_cbs. rewrite on_lookup. case_decide as Hd; cbn [hs set_alternates]; [subst k; rewrite Hx; intros [= <-]; cbn|].
      * intros [Hne Hin]%list_elem_of_filter. by eapply Hother.
      * intros Hy Hin. eapply Hother; [done..|]. intros [= -> ->]. destruct (Hcb _ _ _ _ Hy Hin). congruence.
    + intros k y. unfold set_cbs. rewrite on_lookup. cbn [hs set_alternates]. case_decide; [|by apply Hoff]. subst k. rewrite Hx.
      intros [= <-] Hf. cbn in *. by rewrite (Hoff _ _ Hx Hf).
    + intros q j Hin. destruct (Htask q j Hin) as (y & Hy & Hf). unfold set_cbs. rewrite on_lookup. cbn [hs set_alternates]. case_decide; [|eauto].
      rewrite Hy. cbn. eauto.
  - split; cbn [alternates tasks hs set_alternates]; [|done|done]. intros k y q j Hy Hin. eapply Hother; [done..|].
    intros [= -> ->]. destruct (Hcb _ _ _ _ Hy Hin). congruence.
Qed.

Lemma calm_store h p s :
  calm s -> s.(alternates) !! p = None -> calm (AfterFunc h (TDiscard p h) (set_alternates (<[p := h]> s.(alternates)) 1 s)).
Proof.
  intros [Hcb Hoff Htask] Hp. apply calm_after.
  - split; [|done|done]. cbn [hs alternates set_alternates]. intros k x q j Hx Hin. destruct (Hcb _ _ _ _ Hx Hin) as [-> Hq].
    split; [done|]. rewrite lookup_insert_ne; [done|]. congruence.
  - intros q k [= <- <-]. cbn [alternates set_alternates]. by rewrite lookup_insert_eq.
Qed.

Lemma calm_install h p s : calm s -> calm (installRoute h p s).
Proof. intros Hc. apply calm_announce, calm_after; [by eapply calm_ext|done]. Qed.

Lemma calm_cancel h s : calm s -> calm (cancel h s).
Proof. intros Hc. by apply calm_on. Qed.

Lemma calm_retain obs h p s : calm s -> calm (retainRouteLocked obs h p s).
Proof.
  intros Hc. unfold retainRouteLocked. destruct (alive s h); cbn [negb]; [|by apply calm_cancel].
  destruct (s.(alternates) !! p) as [prev|] eqn:Hprev; [|by apply calm_store].
  destruct (accepted _); cbn [negb]; [|by apply calm_cancel].
  change (alternates (set_alternates (alternates s) (-1) _)) with (alternates s). rewrite replace_alternate. cbv zeta.
  destruct (stop_fields prev (TDiscard p prev) (set_alternates (delete p s.(alternates)) (-1) s)) as (_ & Ha & _).
  apply calm_store; [by apply calm_cancel, calm_pop|]. cbn [alternates cancel on set_hs]. rewrite Ha. apply lookup_delete_eq.
Qed.

Lemma calm_promote obs p s : calm s -> calm (promoteAlternate obs p s).
Proof.
  intros Hc. unfold promoteAlternate. destruct (s.(alternates) !! p) as [h|] eqn:Hp; [|done]. cbv zeta.
  pose proof (calm_pop _ _ _ Hc Hp) as H1. set (s1 := stop h _ _) in *. clearbody s1.
  destruct (alive s1 h); cbn [negb]; [|by apply calm_cancel].
  destruct (mlookup s1.(mux) p) as [[k|]|]; [destruct (Alive _)|..]; (by apply calm_cancel) || (by apply calm_install).
Qed.

Lemma calm_step s s' : step s s' -> calm s -> calm s'.
Proof.
  intros Hs Hc. destruct Hs as [s obs h p c Hh|s h|s h|s obs l t l' Ht|s p|s p Hp].
  - assert (H1 : calm (set_hs (<[h := mkH p true c false []]> s.(hs)) s)).
    { destruct Hc as [Hcb Hoff Htask]. split; cbn [hs alternates tasks set_hs].
      - intros k x q j [[<- <-]|[? ?]]%lookup_insert_Some; [by intros ?%not_elem_of_nil|by eapply Hcb].
      - intros k x [[<- <-]|[? ?]]%lookup_insert_Some; [done|by eapply Hoff].
      - intros q k Hin. destruct (Htask q k Hin) as (x & ? & ?). exists x. rewrite lookup_insert_ne; [done|]. congruence. }
    unfold elect. destruct (mlookup _ p) as [[k|]|]; [destruct (accepted _)|..]; [|by apply calm_retain|by apply calm_install..].
    apply calm_install. by apply calm_on.
  - by apply calm_end.
  - by apply calm_cancel.
  - fold (without l l' s).
    assert (H1 : calm (without l l' s)).
    { eapply calm_same; [exact Hc|done| |by eauto 10|by eauto]. intros q k. rewrite Ht. cbn [tasks without]. rewrite !elem_of_app, elem_of_cons. tauto. }
    destruct t as [p|p h]; cbn [run_task]; [by apply calm_promote|]. unfold discardAlternate. cbn [alternates without]. case_decide as Hd; [|done].
    apply calm_cancel. destruct (c_task _ Hc p h) as (x & Hx & Hf); [rewrite Ht; set_solver|].
    destruct H1 as [Hcb Hoff Htask]. split; cbn [hs alternates tasks set_alternates]; [|done|done].
    intros k y q j Hy Hin. destruct (Hcb _ _ _ _ Hy Hin) as [-> Hq]. split; [done|]. rewrite lookup_delete_ne; [done|]. intros <-.
    cbn [alternates without hs] in Hq, Hy. assert (h = k) as <- by congruence. rewrite (c_off _ Hc _ _ Hy) in Hin by congruence. by apply not_elem_of_nil in Hin.
  - by apply calm_announce.
  - by eapply calm_ext.
Qed.

Lemma steps_calm m s : rtc step (started m) s -> calm s.
Proof.
  intros Hr. assert (Hi : calm (started m)) by (split; cbn; [done..|by intros q k ?%not_elem_of_nil]). revert Hi.
  induction Hr as [|x y z Hxy _ IH]; [done|]. intros Hi. apply IH. by eapply calm_step.
Qed.

(** ** What the relay promises *)

(** C22: however elections, endings, cancellations, local publishers and queued
    promotions and discards interleave, no route is orphaned: a handler whose
    announcement is active and whose context is not cancelled is installed at its
    path or is the one fallback of it. The gauge of retained routes is the number
    of fallbacks, and the status page shows exactly the installed routes. *)
Theorem routes_settled m s :
  (forall p, mlookup m p = None) -> rtc step (started m) s ->
  (forall h x, s.(hs) !! h = Some x -> alive s h = true ->
     mlookup s.(mux) x.(hpath) = Some (Relay h) \/ s.(alternates) !! x.(hpath) = Some h) /\
  s.(retained) = Z.of_nat (size s.(alternates)) /\
  (forall p h, s.(pathStatus) !! p = Some h <-> mlookup s.(mux) p = Some (Relay h)).
Proof.
  intros Hm Hr. pose proof (steps_inv m s Hm Hr) as Hi. split; [|split; [apply (v_ret _ _ _ _ Hi)|]].
  - intros h x Hx Hal. destruct (alive_active _ _ Hal) as (y & Hy & ? & ?). assert (x = y) as <- by congruence.
    destruct (v_leak _ _ _ _ Hi _ _ Hx) as [?|[?|?]]; [done|done|by auto..|set_solver].
  - intros p h. split; [|apply (v_show _ _ _ _ Hi)]. intros Hp. destruct (v_shown _ _ _ _ Hi _ _ Hp) as [?|[? _]]; [done|set_solver].
Qed.

(** What announcing installs. *)
Lemma end_lookup k s p h :
  (forall x, s.(hs) !! k = Some x -> x.(hpath) = p -> mlookup s.(mux) p <> Some (Relay k)) -> mlookup s.(mux) p = Some (Relay h) ->
  mlookup (endAnnouncement k s).(mux) p = Some (Relay h).
Proof.
  intros Hn Hp. unfold endAnnouncement. destruct (s.(hs) !! k) as [x|] eqn:Hk; [|done]. destruct (active x); [|done]. cbv zeta.
  destruct (callbacks_fields k x.(cbs) (on k (fun x => mkH x.(hpath) false x.(cancelled) x.(draining) []) s)) as (_ & Hmx & _).
  set (s2 := queue _ _). assert (H2 : s2.(mux) = s.(mux)) by (subst s2; cbn [mux queue]; by rewrite Hmx). clearbody s2.
  case_decide as Hd; rewrite H2 in *; [|done]. cbn [mux set_mux]. rewrite ?H2. rewrite mlookup_remove_ne; [done|]. intros <-. by apply (Hn x).
Qed.

Lemma install_lookup h p s :
  mlookup s.(mux) p <> Some (Relay h) -> mlookup (installRoute h p s).(mux) p = Some (Relay h).
Proof.
  intros Hn. unfold installRoute, Announce. cbv zeta. set (s1 := AfterFunc h _ _).
  assert (Hm1 : s1.(mux) = s.(mux)) by (subst s1; unfold AfterFunc; cbn [hs set_status]; destruct (s.(hs) !! h) as [x|]; [destruct (active x)|]; done).
  rewrite Hm1. destruct (mlookup s.(mux) p) as [[k|]|] eqn:Hk; [|cbn [mux set_mux]; apply mlookup_announce..].
  rewrite decide_False by congruence. apply end_lookup; cbn [mux set_mux]; [|apply mlookup_announce].
  intros x _ _. rewrite mlookup_announce. congruence.
Qed.

(** C23: a fallback takes over. Whenever a path is empty while its fallback is
    alive, a promotion of that path is queued, and whatever the other queued
    goroutines are, running it next installs the fallback; so a path whose
    goroutines have all run has a fallback only beside an installed route. *)
Theorem fallback_takes_over m s p h :
  (forall p, mlookup m p = None) -> rtc step (started m) s -> s.(alternates) !! p = Some h ->
  (alive s h = true -> mlookup s.(mux) p = None -> exists l l', s.(tasks) = l ++ TPromote p :: l' /\
     forall obs, let s' := run_task obs (TPromote p) (without l l' s) in
       step s s' /\ mlookup s'.(mux) p = Some (Relay h) /\ s'.(alternates) !! p = None) /\
  (s.(tasks) = [] -> exists k, mlookup s.(mux) p = Some (Relay k)).
Proof.
  intros Hm Hr Hp. pose proof (steps_inv m s Hm Hr) as Hi. pose proof (steps_calm m s Hr) as Hc. split.
  - intros Hal Hslot. assert (Hin : TPromote p ∈ s.(tasks)).
    { destruct (alive_active _ _ Hal) as (x & Hx & Hact & _).
      destruct (v_rec _ _ _ _ Hi _ _ Hp (not_elem_of_empty p)) as [[k Hk]|[?|[Hd|(k & y & ? & _)]]]; [congruence|done| |set_solver].
      destruct (c_task _ Hc _ _ Hd) as (y & Hy & Hf). congruence. }
    apply list_elem_of_split in Hin as (l & l' & Ht). exists l, l'. split; [done|]. intros obs. cbv zeta. split; [by apply (s_task s obs l _ l')|].
    cbn [run_task]. unfold promoteAlternate. cbn [alternates without]. rewrite Hp.
    assert (Hi1 : inv_d ∅ ∅ {[p]} (without l l' s)) by (eapply task_inv; [done|exact Ht|]; intros q k Hq Hn; split; [|done]; intros [= ->]; set_solver).
    destruct (pop_placeable _ _ _ _ Hi1 (reflexivity _) Hp) as (_ & _ & Hna & Hmx & _ & Hlive). cbv zeta in *.
    set (s1 := stop h _ _) in *. clearbody s1. rewrite Hlive. change (alive (without l l' s) h) with (alive s h). rewrite Hal. cbn [negb].
    change (mux (without l l' s)) with (mux s) in Hmx. rewrite Hmx, Hslot. split; [apply install_lookup; congruence|].
    assert (Ha : forall t q s0, (AfterFunc h t (set_status q s0)).(alternates) = s0.(alternates)).
    { intros t q s0. unfold AfterFunc. cbn [hs set_status]. destruct (s0.(hs) !! h) as [y|]; [destruct (active y)|]; done. }
    assert (Hm1 : forall t q s0, (AfterFunc h t (set_status q s0)).(mux) = s0.(mux)).
    { intros t q s0. unfold AfterFunc. cbn [hs set_status]. destruct (s0.(hs) !! h) as [y|]; [destruct (active y)|]; done. }
    unfold installRoute, Announce. cbv zeta. rewrite Hm1, Hmx, Hslot. cbn [alternates set_mux]. by rewrite Ha.
  - intros Ht. destruct (v_rec _ _ _ _ Hi _ _ Hp (not_elem_of_empty p)) as [?|[Hd|[Hd|(k & y & ? & _)]]]; [done| | |set_solver];
      rewrite Ht in Hd; by apply not_elem_of_nil in Hd.
Qed.

(** No election or promotion deadlocks on routeMu. Announcing at a path while
    holding the lock ends the displaced announcement, which runs its callbacks
    inline; a discard callback takes the same lock. No installed route ever
    carries one, so every callback a displacement runs only clears the status and
    starts a goroutine. *)
Theorem displacement_takes_no_lock m s p h :
  (forall p, mlookup m p = None) -> rtc step (started m) s -> mlookup s.(mux) p = Some (Relay h) ->
  exists x, s.(hs) !! h = Some x /\ x.(active) = true /\ TPromote p ∈ x.(cbs) /\ forall t, t ∈ x.(cbs) -> exists q, t = TPromote q.
Proof.
  intros Hm Hr Hp. pose proof (steps_inv m s Hm Hr) as Hi. pose proof (steps_calm m s Hr) as Hc.
  destruct (v_mux _ _ _ _ Hi _ _ Hp) as (x & Hx & Hpath & Hact & Hcb). exists x. repeat split; [done..|].
  intros [q|q k] Ht; [by eauto|]. destruct (c_cb _ Hc _ _ _ _ Hx Ht) as [-> Hq]. destruct (v_alt _ _ _ _ Hi _ _ Hq) as (y & Hy & Hpy & Hn & _).
  assert (q = p) as -> by congruence. done.
Qed.

(** A promotion that arrives late displaces nobody. When a live route or a
    local publisher holds the path, the fallback is dropped and cancelled, and
    the multiplexer, the status and the holder are as they were. *)
Theorem promotion_spares_holder obs m s p h e :
  (forall p, mlookup m p = None) -> rtc step (started m) s -> s.(alternates) !! p = Some h -> mlookup s.(mux) p = Some e ->
  match e with Relay k => alive s k = true | Foreign => True end ->
  let s' := promoteAlternate obs p s in
  s'.(mux) = s.(mux) /\ s'.(pathStatus) = s.(pathStatus) /\ s'.(alternates) = delete p s.(alternates) /\ alive s' h = false /\
  forall k, k <> h -> alive s' k = alive s k.
Proof.
  intros Hm Hr Hp He Hlive. pose proof (steps_inv m s Hm Hr) as Hi. cbv zeta. unfold promoteAlternate. rewrite Hp. cbv zeta.
  destruct (stop_fields h (TDiscard p h) (set_alternates (delete p s.(alternates)) (-1) s)) as (Hmx & Ha & _ & Hst & _ & Hal).
  set (s1 := stop h _ _) in *. clearbody s1.
  assert (Hdone : let s' := cancel h s1 in s'.(mux) = s.(mux) /\ s'.(pathStatus) = s.(pathStatus) /\ s'.(alternates) = delete p s.(alternates) /\
    alive s' h = false /\ forall k, k <> h -> alive s' k = alive s k).
  { cbv zeta. cbn [mux pathStatus alternates cancel on set_hs]. rewrite Hmx, Hst, Ha. do 3 (split; [done|]). split.
    - unfold alive, cancel. rewrite on_lookup, decide_True by done. destruct (s1.(hs) !! h) as [x|]; [|done]. cbn. apply andb_false_r.
    - intros k Hk. change (alive s k) with (alive (set_alternates (delete p s.(alternates)) (-1) s) k). rewrite <- Hal.
      unfold alive, cancel. by rewrite on_lookup, decide_False. }
  destruct (alive s1 h); cbn [negb]; [|done]. rewrite Hmx. cbn [mux set_alternates]. rewrite He. destruct e as [k|]; [|done].
  assert (Hk : Alive (stats s1 obs k) = true). { unfold stats. destruct (obs k) as [[? ?] ?]. cbn. by rewrite Hal. }
  by rewrite Hk.
Qed.

End Election.

(** ** A multiplexer that satisfies the laws *)

#[export] Instance map_mux : TrackMux (gmap string entry) := {
  mlookup m p := m !! p;
  mannounce p e m := <[p := e]> m;
  mremove p m := delete p m
}.

#[export] Instance map_mux_laws : TrackMuxLaws (gmap string entry).
Proof.
  split; intros; cbn; [apply lookup_insert_eq|by apply lookup_insert_ne|apply lookup_delete_eq|by apply lookup_delete_ne].
Qed.

(** Two equal routes for one path: the first is installed, the second retained;
    then the first ends. *)
Definition even_routes (h : nat) : Z * Z * Z := (1, 0, 0).
Definition new_handler (p : string) : handler := mkH p true false false [].
Definition meet (h : nat) (s : srv (M := gmap string entry)) : srv := elect even_routes h "cam" (set_hs (<[h := new_handler "cam"]> s.(hs)) s).
Definition two_routes : srv := meet 2 (meet 1 (started ∅)).
Definition first_ended : srv := endAnnouncement 1 two_routes.

Lemma two_routes_reachable : rtc step (started (∅ : gmap string entry)) two_routes.
Proof.
  eapply rtc_l; [apply (s_announce _ even_routes 1 "cam" false); reflexivity|].
  eapply rtc_l; [apply (s_announce _ even_routes 2 "cam" false); vm_compute; reflexivity|]. apply rtc_refl.
Qed.

Lemma first_ended_reachable : rtc step (started (∅ : gmap string entry)) first_ended.
Proof. eapply rtc_r; [apply two_routes_reachable|apply s_end]. Qed.

Lemma empty_mux (p : string) : mlookup (∅ : gmap string entry) p = None.
Proof. apply lookup_empty. Qed.

Lemma routes_settled_witness : two_routes.(retained) = 1 /\ two_routes.(retained) = Z.of_nat (size two_routes.(alternates)).
Proof.
  split; [vm_compute; reflexivity|]. apply (routes_settled ∅ two_routes empty_mux two_routes_reachable).
Defined.

Lemma fallback_takes_over_witness :
  mlookup first_ended.(mux) "cam" = None /\
  exists l l', first_ended.(tasks) = l ++ TPromote "cam" :: l' /\
    forall obs, let s' := run_task obs (TPromote "cam") (without l l' first_ended) in
      step first_ended s' /\ mlookup s'.(mux) "cam" = Some (Relay 2) /\ s'.(alternates) !! "cam" = None.
Proof.
  split; [vm_compute; reflexivity|].
  apply (fallback_takes_over ∅ first_ended "cam" 2 empty_mux first_ended_reachable); vm_compute; reflexivity.
Defined.

Lemma displacement_takes_no_lock_witness :
  exists x, two_routes.(hs) !! 1%nat = Some x /\ x.(active) = true /\ TPromote "cam" ∈ x.(cbs) /\ forall t, t ∈ x.(cbs) -> exists q, t = TPromote q.
Proof.
  apply (displacement_takes_no_lock ∅ two_routes "cam" 1 empty_mux two_routes_reachable). vm_compute. reflexivity.
Defined.

Lemma promotion_spares_holder_witness :
  alive (promoteAlternate even_routes "cam" two_routes) 2 = false /\
  (promoteAlternate even_routes "cam" two_routes).(mux) = two_routes.(mux).
Proof.
  destruct (promotion_spares_holder even_routes ∅ two_routes "cam" 2 (Relay 1) empty_mux two_routes_reachable) as (H1 & _ & _ & H2 & _);
    [vm_compute; reflexivity..|]. split; [exact H2|exact H1].
Defined.
