(* ===== verification/GoText.v ===== *)
(** * Text parameters: [strings], [strconv], [hex] and [base64]

    What the SDP and RTSP code uses of Go's text functions, on ASCII text: the
    case and space functions leave bytes from 128 on as they are. *)
From S2P Require Import Prelude GoStrings GoURL GoBytes.
From stdpp Require Import pretty.

#[local] Open Scope Z_scope.

(** [strings.Cut(s, sep)]: what is before and after the first [sep]. *)
Fixpoint Cut (s sep : string) : option (string * string) :=
  if HasPrefix s sep then Some (EmptyString, TrimPrefix s sep)
  else match s with
    | EmptyString => None
    | String a s' => '(x, y) ← Cut s' sep; Some (String a x, y)
    end.

Definition Contains (s sub : string) : bool := match Cut s sub with Some _ => true | None => false end.

Definition lower (a : ascii) : ascii :=
  let n := nat_of_ascii a in if (65 <=? n)%nat && (n <=? 90)%nat then ascii_of_nat (n + 32) else a.

(** [strings.ToLower]. *)
Fixpoint ToLower (s : string) : string :=
  match s with EmptyString => EmptyString | String a s' => String (lower a) (ToLower s') end.

Definition is_space (a : ascii) : bool :=
  let n := nat_of_ascii a in ((9 <=? n)%nat && (n <=? 13)%nat) || (n =? 32)%nat.

Fixpoint TrimLeft (s : string) : string :=
  match s with String a s' => if is_space a then TrimLeft s' else s | EmptyString => EmptyString end.

(** Without the spaces at the end: a space is kept when something is kept after it. *)
Fixpoint TrimRight (s : string) : string :=
  match s with
  | EmptyString => EmptyString
  | String a s' => match TrimRight s' with EmptyString => if is_space a then EmptyString else String a EmptyString | t => String a t end
  end.

(** [strings.TrimSpace]. *)
Definition TrimSpace (s : string) : string := TrimRight (TrimLeft s).

(** The value of decimal digits, after [acc]. *)
Fixpoint digits (s : string) (acc : Z) : option Z :=
  match s with
  | EmptyString => Some acc
  | String a s' =>
      let n := Z.of_nat (nat_of_ascii a) in
      if (48 <=? n) && (n <=? 57) then digits s' (acc * 10 + (n - 48)) else None
  end.

Definition digits1 (s : string) : option Z := match s with EmptyString => None | _ => digits s 0 end.

(** [strconv.Atoi]: a sign and digits, within an int64. *)
Definition Atoi (s : string) : option Z :=
  z ← match s with
      | String "-" s' => Z.opp <$> digits1 s'
      | String "+" s' => digits1 s'
      | _ => digits1 s
      end;
  if (- 2 ^ 63 <=? z) && (z <? 2 ^ 63) then Some z else None.

(** [strconv.Itoa], and [%d] of an integer. *)
Definition Itoa (z : Z) : string := pretty z.

Lemma digits_pretty_go x s : digits (pretty_N_go x s) 0 = digits s (Z.of_N x).
Proof.
  revert s. induction (N.lt_wf_0 x) as [x _ IH]. intros s. destruct (decide (x = 0%N)) as [->|Hne].
  - by rewrite pretty_N_go_0.
  - rewrite pretty_N_go_step by lia. rewrite IH by (apply N.div_lt; lia).
    assert (Hm : (x mod 10 < 10)%N) by (apply N.mod_lt; lia).
    assert (Hx : Z.of_N x = Z.of_N (x / 10) * 10 + Z.of_N (x mod 10)).
    { pose proof (N.div_mod x 10). lia. }
    cbn [digits]. rewrite Hx. generalize dependent (x mod 10)%N. intros d Hd _.
    assert (d = 0 \/ d = 1 \/ d = 2 \/ d = 3 \/ d = 4 \/ d = 5 \/ d = 6 \/ d = 7 \/ d = 8 \/ d = 9)%N as Hc by lia.
    destruct_or! Hc; subst d; cbn; done.
Qed.

(** What [Itoa] writes, [Atoi] reads. *)
Lemma Atoi_Itoa z : 0 <= z < 2 ^ 63 -> Atoi (Itoa z) = Some z.
Proof.
  intros Hz. unfold Itoa. destruct z as [|p|p]; [done| |lia]. change (pretty (Z.pos p)) with (pretty (N.pos p)).
  assert (Hd : forall s, pretty (N.pos p) = s -> match s with EmptyString => False | String a _ => a <> "-"%char /\ a <> "+"%char end /\ digits s 0 = Some (Z.pos p)).
  { intros s <-. unfold pretty, pretty_N. rewrite decide_False by lia. split.
    - destruct (pretty_N_go (N.pos p) "") as [|a s] eqn:He.
      + pose proof (digits_pretty_go (N.pos p) "") as H. rewrite He in H. cbn in H. congruence.
      + pose proof (digits_pretty_go (N.pos p) "") as H. rewrite He in H. split; intros ->; by cbn in H.
    - by rewrite digits_pretty_go. }
  unfold Atoi. destruct (pretty (N.pos p)) as [|a s] eqn:He; [by destruct (Hd _ eq_refl)|].
  destruct (Hd _ eq_refl) as [[H1 H2] Hv]. unfold digits1.
  assert (Ha : match String a s with String "-" s' => Z.opp <$> match s' with "" => None | String _ _ => digits s' 0 end
                 | String "+" s' => match s' with "" => None | String _ _ => digits s' 0 end
                 | "" => None | String _ _ => digits (String a s) 0 end = Some (Z.pos p)).
  { destruct a as [[] [] [] [] [] [] [] []]; first [exact Hv | by destruct H1 | by destruct H2]. }
  rewrite Ha. cbn. rewrite (proj2 (Z.leb_le _ _)), (proj2 (Z.ltb_lt _ _)) by lia. done.
Qed.

(** [hex.DecodeString]. *)
Fixpoint hex_decode (s : string) : option bytes :=
  match s with
  | EmptyString => Some []
  | String a (String b s') => x ← unhex a; y ← unhex b; l ← hex_decode s'; Some (Z.of_nat (x * 16 + y) :: l)
  | String _ EmptyString => None
  end.

(** [base64.StdEncoding.DecodeString]: padded, line breaks skipped, the unused
    bits of the last symbol not looked at. *)
Definition std_value (a : ascii) : option Z :=
  let c := Z.of_nat (nat_of_ascii a) in
  if (65 <=? c) && (c <=? 90) then Some (c - 65)
  else if (97 <=? c) && (c <=? 122) then Some (c - 97 + 26)
  else if (48 <=? c) && (c <=? 57) then Some (c - 48 + 52)
  else if c =? 43 then Some 62
  else if c =? 47 then Some 63
  else None.

Fixpoint std_groups (l : list ascii) : option bytes :=
  match l with
  | [] => Some []
  | a :: b :: c :: d :: r =>
      va ← std_value a; vb ← std_value b;
      if bool_decide (c = "="%char) then
        if bool_decide (d = "="%char) && bool_decide (r = []) then Some [(va * 4 + vb / 16) mod 256] else None
      else
        vc ← std_value c;
        let two := [(va * 4 + vb / 16) mod 256; (vb * 16 + vc / 4) mod 256] in
        if bool_decide (d = "="%char) then if bool_decide (r = []) then Some two else None
        else vd ← std_value d; t ← std_groups r; Some (two ++ [(vc * 64 + vd) mod 256] ++ t)
  | _ => None
  end.

Definition is_break (a : ascii) : bool := let n := nat_of_ascii a in (n =? 10)%nat || (n =? 13)%nat.
Definition std_decode (s : string) : option bytes := std_groups (filter (fun a => is_break a = false) (String.list_ascii_of_string s)).

Example text_ex :
  Cut "a;config=1190;b" "config=" = Some ("a;", "1190;b") /\ TrimSpace "  x y " = "x y" /\ Atoi "-12" = Some (-12) /\
  Atoi "9223372036854775808" = None /\ hex_decode "1190" = Some [17; 144] /\ std_decode "Z2QAKA==" = Some [103; 100; 0; 40].
Proof. repeat split. Qed.
