(* ===== verification/GoPath.v ===== *)
(** * Go's [path] package, as far as the sources use it

    [Clean], [Base], [Dir] and [Join] on slash-separated paths, segment by
    segment: the same results as Go's byte-wise loops. *)
From S2P Require Import Prelude GoStrings TokenPath.

(** ** Suffixes *)

Fixpoint srev (s : string) : string := match s with EmptyString => "" | String a s => srev s +:+ String a "" end.

(** [strings.HasSuffix] and [strings.TrimSuffix]. *)
Definition HasSuffix (s suffix : string) : bool := HasPrefix (srev s) (srev suffix).
Definition TrimSuffix (s suffix : string) : string := srev (TrimPrefix (srev s) (srev suffix)).

Lemma srev_app s t : srev (s +:+ t) = srev t +:+ srev s.
Proof. induction s as [|a s IH]; [by rewrite sapp_nil_l; cbn; rewrite sapp_nil_r|]. rewrite sapp_cons. cbn [srev]. by rewrite IH, sapp_assoc. Qed.

Lemma srev_involutive s : srev (srev s) = s.
Proof. induction s as [|a s IH]; [done|]. cbn. rewrite srev_app, IH. done. Qed.

Lemma TrimSuffix_app s suffix : TrimSuffix (s +:+ suffix) suffix = s.
Proof. unfold TrimSuffix. by rewrite srev_app, TrimPrefix_app, srev_involutive. Qed.

(** ** Paths *)

(** One segment of [Clean]; [out] is what was kept, the last segment first. *)
Definition clean_segment (rooted : bool) (out : list string) (seg : string) : list string :=
  if bool_decide (seg = "") || bool_decide (seg = ".") then out
  else if bool_decide (seg = "..") then
    match out with
    | [] => if rooted then [] else [".."]
    | top :: rest => if bool_decide (top = "..") then ".." :: out else rest
    end
  else seg :: out.

(** [path.Clean]. *)
Definition Clean (p : string) : string :=
  let rooted := HasPrefix p "/" in
  let kept := Join slash (reverse (foldl (clean_segment rooted) [] (Split slash p))) in
  if rooted then "/" +:+ kept else if bool_decide (kept = "") then "." else kept.

(** [path.Base]: the last segment that is not empty. *)
Definition Base (p : string) : string :=
  if bool_decide (p = "") then "." else default "/" (last (filter (fun s => s <> "") (Split slash p))).

(** [path.Dir]: what precedes the last slash, cleaned. *)
Definition Dir (p : string) : string :=
  match removelast (Split slash p) with
  | [] => "."
  | d => Clean (Join slash d +:+ "/")
  end.

(** [path.Join]. *)
Definition PathJoin (elem : list string) : string :=
  match foldl (fun buf e => if bool_decide (buf = "") then e else buf +:+ "/" +:+ e) "" elem with
  | "" => ""
  | buf => Clean buf
  end.

Lemma path_examples :
  Clean "/live//cam1/./x/../" = "/live/cam1" /\ Clean "../../a" = "../../a" /\ Clean "/../a" = "/a" /\ Clean "" = "." /\ Clean "/" = "/" /\
  Base "/live/cam1/" = "cam1" /\ Base "/" = "/" /\ Base "" = "." /\ Dir "/live/cam1/master.m3u8" = "/live/cam1" /\
  Dir "/master.m3u8" = "/" /\ Dir "master.m3u8" = "." /\ Dir "/" = "/" /\ PathJoin ["/live/cam1"; "video"; "manifest.mpd"] = "/live/cam1/video/manifest.mpd" /\
  PathJoin [""; "a"] = "a".
Proof. vm_compute. done. Qed.

(** ** Canonical paths *)

(** A segment [Clean] keeps. *)
Definition plain_segment (s : string) : Prop := clean slash s /\ s <> "" /\ s <> "." /\ s <> "..".

Lemma segment_ok_plain s : segment_ok s -> plain_segment s.
Proof. intros (? & ? & ? & ? & _). done. Qed.

(** The path with the given segments. *)
Definition path_of (l : list string) : string := "/" +:+ Join slash l.

Lemma clean_plain rooted out l :
  Forall plain_segment l -> foldl (clean_segment rooted) out l = reverse l ++ out.
Proof.
  intros Hl. revert out. induction Hl as [|s l (_ & H1 & H2 & H3) Hl IH]; intros out; [done|].
  cbn [foldl]. unfold clean_segment at 2. rewrite !bool_decide_false by done. cbn [orb]. rewrite IH, reverse_cons, <- app_assoc. done.
Qed.

Lemma plain_clean l : Forall plain_segment l -> Forall (clean slash) l.
Proof. intros Hl. eapply Forall_impl; [exact Hl|]. by intros s (? & _). Qed.

Lemma Split_path_of l : Forall plain_segment l -> l <> [] -> Split slash (path_of l) = "" :: l.
Proof.
  intros Hl Hne. unfold path_of. change ("/" +:+ Join slash l) with ("" +:+ String slash (Join slash l)).
  rewrite Split_app, Split_Join by (done || by apply plain_clean). done.
Qed.

Lemma path_of_rooted l : HasPrefix (path_of l) "/" = true.
Proof. unfold path_of. apply HasPrefix_app. Qed.

(** [Clean] leaves a canonical path as it is. *)
Lemma Clean_path_of l : Forall plain_segment l -> Clean (path_of l) = path_of l.
Proof.
  intros Hl. unfold Clean. rewrite path_of_rooted. destruct (decide (l = [])) as [->|Hne]; [done|].
  rewrite Split_path_of by done. cbn [foldl]. change (clean_segment true [] "") with (@nil string).
  by rewrite clean_plain, app_nil_r, reverse_involutive.
Qed.

(** The last segment of a path. *)
Lemma Base_last p s : clean slash s -> s <> "" -> Base (p +:+ "/" +:+ s) = s.
Proof.
  intros Hc Hs. unfold Base. rewrite bool_decide_false.
  - change (p +:+ "/" +:+ s) with (p +:+ String slash s). rewrite Split_app, (Split_clean slash s) by done.
    rewrite filter_app, filter_cons_True, filter_nil, last_snoc by done. done.
  - destruct p; done.
Qed.
