(* ===== verification/Rtsp.v ===== *)
(** * Rtsp: the messages of an RTSP connection

    src/internal/rtsp: requests and responses (rtsp.go), the connection that
    carries them between interleaved frames (conn.go), session descriptions
    (sdp.go) and authentication (auth.go).

    What a connection has received and not yet read is a string of bytes, its
    end the end of the stream. A read takes the stream and returns what it read
    with the stream left. [bufio.Reader]'s buffer of 4096 bytes bounds a line.
    net/url is the class [URLs]; [http.Header] is modelled below. Text is ASCII. *)
From stdpp Require Import sorting.
From S2P Require Import Prelude GoBytes GoStrings GoURL GoText GoPath Base64.

#[local] Open Scope Z_scope.

(** ** What the code uses of [net/url] and [net/http] *)

(** [url.Parse], [URL.String], [URL.Scheme], [URL.Host], [URL.Path],
    [URL.Query().Get]; [URL.User] with its password, and the URL with [User] set to
    nil; the URL with a slash after its path, and [URL.ResolveReference]. *)
Class URLs := {
  url : Type;
  url_Parse : string -> option url;
  url_String : url -> string;
  url_Scheme : url -> string;
  url_Host : url -> string;
  url_Path : url -> string;
  url_Query_Get : string -> url -> string;
  url_User : url -> option (string * string);
  url_NoUser : url -> url;
  url_AddSlash : url -> url;
  url_Resolve : url -> url -> url
}.

Abbreviation fields := (gmap string (list string)).

Definition is_letter (a : ascii) : bool :=
  let n := nat_of_ascii a in ((65 <=? n)%nat && (n <=? 90)%nat) || ((97 <=? n)%nat && (n <=? 122)%nat).
Definition is_digit (a : ascii) : bool := let n := nat_of_ascii a in (48 <=? n)%nat && (n <=? 57)%nat.

(** The bytes of a header field's name (RFC 7230, token). *)
Definition token_char (a : ascii) : bool := is_letter a || is_digit a || mem_char a "!#$%&'*+-.^_`|~".

Definition upper (a : ascii) : ascii :=
  let n := nat_of_ascii a in if (97 <=? n)%nat && (n <=? 122)%nat then ascii_of_nat (n - 32) else a.

Fixpoint title (start : bool) (s : string) : string :=
  match s with
  | EmptyString => EmptyString
  | String a s => String (if start then upper a else lower a) (title (bool_decide (a = "-"%char)) s)
  end.

(** [textproto.CanonicalMIMEHeaderKey]. *)
Definition CanonicalKey (s : string) : string := if ContainsFunc (fun a => negb (token_char a)) s then s else title true s.

Definition Header_Add (k v : string) (h : fields) : fields :=
  <[CanonicalKey k := default [] (h !! CanonicalKey k) ++ [v]]> h.
Definition Header_Set (k v : string) (h : fields) : fields := <[CanonicalKey k := [v]]> h.
Definition Header_Get (k : string) (h : fields) : string :=
  match h !! CanonicalKey k with Some (v :: _) => v | _ => "" end.

Definition cr : string := String "013" "".
Definition lf : string := String "010" "".
Definition crlf : string := cr +:+ lf.

(** A value as [Header.Write] writes it: line breaks become spaces, and the
    spaces at its ends go. *)
Fixpoint newline_to_space (s : string) : string :=
  match s with
  | EmptyString => EmptyString
  | String a s => String (if bool_decide (a = "010"%char) || bool_decide (a = "013"%char) then " "%char else a) (newline_to_space s)
  end.

Definition header_line (k v : string) : string := k +:+ ": " +:+ TrimSpace (newline_to_space v) +:+ crlf.

Definition valid_name (k : string) : bool := negb (bool_decide (k = "")) && negb (ContainsFunc (fun a => negb (token_char a)) k).

Definition sapps (l : list string) : string := foldr String.append "" l.

(** A header's fields in the order of their names. *)
Definition key_le (a b : string * list string) : Prop := String.leb a.1 b.1 = true.
#[export] Instance key_le_dec a b : Decision (key_le a b).
Proof. unfold key_le. apply _. Defined.
Definition sorted_fields (h : fields) : list (string * list string) := merge_sort key_le (map_to_list h).

(** [Header.Write]. *)
Definition Header_Write (h : fields) : string :=
  sapps (concat ((fun '(k, vs) => if valid_name k then header_line k <$> vs else []) <$> sorted_fields h)).

(** ** Lines *)

Inductive msg_error :=
| EOF | UnexpectedEOF | LineTooLong | MalformedRequestLine (line : string) | MalformedResponseLine (line : string)
| MalformedHeaderLine (line : string) | BadURL (s : string) | BadNumber (s : string) | MalformedFrame | OutOfFuel.

#[export] Instance msg_error_eq_dec : EqDecision msg_error.
Proof. solve_decision. Defined.

Definition slen (s : string) : Z := Z.of_nat (String.length s).

Definition bufSize : Z := 4096.

(** [bufio.Reader.ReadLine]: a line without its end, or what is left without one. *)
Definition readLine (s : string) : result msg_error (string * string) :=
  match Cut s lf with
  | Some (l, r) => if slen l <? bufSize then Ok (TrimSuffix l cr, r) else Err LineTooLong
  | None =>
      if bool_decide (s = "") then Err EOF
      else if slen s <? bufSize then Ok (s, "") else Err LineTooLong
  end.

(** [strings.SplitN(s, sep, n)], n at least 1. *)
Fixpoint SplitN (n : nat) (s sep : string) : list string :=
  match n with
  | S (S _ as n') => match Cut s sep with Some (x, y) => x :: SplitN n' y sep | None => [s] end
  | _ => [s]
  end.

Fixpoint readHeader_loop (fuel : nat) (s : string) (h : fields) : result msg_error (fields * string) :=
  match fuel with
  | O => Err OutOfFuel
  | S fuel =>
      '(line, s) ← readLine s;
      if bool_decide (line = "") then Ok (h, s)
      else match SplitN 2 line ":" with
      | [k; v] => readHeader_loop fuel s (Header_Add (TrimSpace k) (TrimSpace v) h)
      | _ => Err (MalformedHeaderLine line)
      end
  end.

(** A line takes at least a byte. *)
Definition readHeader (s : string) (h : fields) : result msg_error (fields * string) :=
  readHeader_loop (S (String.length s)) s h.

(** ** Requests and responses *)

Section messages.
Context {U : URLs}.

Record Request := mkRequest { Method : string; URL : url; Proto : string; ReqHeader : fields }.
Record Response := mkResponse { RespProto : string; StatusCode : Z; Status : string; RespHeader : fields }.

Definition statusText (code : Z) : string :=
  if code =? 200 then "OK"
  else if code =? 400 then "Bad Request"
  else if code =? 401 then "Unauthorized"
  else if code =? 404 then "Not Found"
  else if code =? 405 then "Method Not Allowed"
  else if code =? 454 then "Session Not Found"
  else if code =? 461 then "Unsupported Transport"
  else if code =? 500 then "Internal Server Error"
  else if code =? 501 then "Not Implemented"
  else "Unknown".

Definition NewResponse (code : Z) : Response :=
  mkResponse "RTSP/1.0" code (Itoa code +:+ " " +:+ statusText code) ∅.

(** The length of the body's window on the stream, from Content-Length; [None]
    is a nil Body. *)
Definition body_window (h : fields) : result msg_error (option Z) :=
  let cl := Header_Get "Content-Length" h in
  if bool_decide (cl = "") then Ok None else n ← of_option (BadNumber cl) (Atoi cl); Ok (Some n).

Definition ReadRequest (s : string) : result msg_error (Request * option Z * string) :=
  '(line, s) ← readLine s;
  match Split " " line with
  | [m; u; p] =>
      u ← of_option (BadURL u) (url_Parse u);
      '(h, s) ← readHeader s ∅;
      n ← body_window h;
      Ok (mkRequest m u p h, n, s)
  | _ => Err (MalformedRequestLine line)
  end.

Definition ReadResponse (s : string) : result msg_error (Response * option Z * string) :=
  '(line, s) ← readLine s;
  match SplitN 3 line " " with
  | p :: c :: more =>
      code ← of_option (BadNumber c) (Atoi c);
      '(h, s) ← readHeader s ∅;
      n ← body_window h;
      Ok (mkResponse p code (Join " " (c :: more)) h, n, s)
  | _ => Err (MalformedResponseLine line)
  end.

(** Reading a body to its end: what its window has on the stream. *)
Fixpoint cut_at (n : nat) (s : string) : string * string :=
  match n, s with
  | S n, String a s => let '(x, y) := cut_at n s in (String a x, y)
  | _, _ => ("", s)
  end.
Definition read_body (n : option Z) (s : string) : string * string := cut_at (Z.to_nat (default 0 n)) s.
Definition discardBody (n : option Z) (s : string) : string := (read_body n s).2.

Definition write_body (body : option string) : string := default "" body.

(** [Request.Write] and [Response.Write]. *)
Definition request_text (r : Request) (body : option string) : string :=
  r.(Method) +:+ " " +:+ url_String r.(URL) +:+ " " +:+ r.(Proto) +:+ crlf +:+ Header_Write r.(ReqHeader) +:+ crlf +:+ write_body body.
Definition response_text (r : Response) (body : option string) : string :=
  r.(RespProto) +:+ " " +:+ Itoa r.(StatusCode) +:+ " " +:+ statusText r.(StatusCode) +:+ crlf +:+
  Header_Write r.(RespHeader) +:+ crlf +:+ write_body body.

(** ** Interleaved frames *)

Record InterleavedFrame := mkFrame { Channel : Z; FramePayload : bytes }.

Definition char_byte (a : ascii) : Z := Z.of_nat (nat_of_ascii a).
Definition byte_char (z : Z) : ascii := ascii_of_nat (Z.to_nat (z mod 256)).
Fixpoint sbytes (s : string) : bytes := match s with EmptyString => [] | String a s => char_byte a :: sbytes s end.
Fixpoint bstring (b : bytes) : string := match b with [] => EmptyString | z :: b => String (byte_char z) (bstring b) end.

(** [io.ReadFull]. *)
Definition ReadFull (n : Z) (s : string) : result msg_error (string * string) :=
  if n =? 0 then Ok ("", s)
  else if bool_decide (s = "") then Err EOF
  else if slen s <? n then Err UnexpectedEOF else Ok (cut_at (Z.to_nat n) s).

Definition readInterleavedFrame (s : string) : result msg_error (InterleavedFrame * string) :=
  '(header, s) ← ReadFull 4 s;
  match sbytes header with
  | [dollar; channel; hi; lo] =>
      guard_err (dollar =? 36) MalformedFrame;;
      '(payload, s) ← ReadFull (hi * 256 + lo) s;
      Ok (mkFrame channel (sbytes payload), s)
  | _ => Err MalformedFrame
  end.

(** [Conn.WriteInterleavedFrame]: the length is its low 16 bits. *)
Definition frame_text (f : InterleavedFrame) : string :=
  bstring (36 :: f.(Channel) :: be 2 (wrapu 16 (Z.of_nat (length f.(FramePayload)))) ++ f.(FramePayload)).

(** ** Reading the connection *)

(** [Conn.ReadRequest] and [Conn.ReadResponse]: a message with the window of its
    body, or an interleaved frame. *)
Definition Conn_ReadRequest (s : string) : result msg_error ((Request * option Z + InterleavedFrame) * string) :=
  if bool_decide (s = "") then Err EOF
  else if HasPrefix s "$" then '(f, s) ← readInterleavedFrame s; Ok (inr f, s)
  else '(r, n, s) ← ReadRequest s; Ok (inl (r, n), s).

Definition Conn_ReadResponse (s : string) : result msg_error ((Response * option Z + InterleavedFrame) * string) :=
  if bool_decide (s = "") then Err EOF
  else if HasPrefix s "$" then '(f, s) ← readInterleavedFrame s; Ok (inr f, s)
  else '(r, n, s) ← ReadResponse s; Ok (inl (r, n), s).

Definition responsePrefix : string := "RTSP/".

(** What the server sends while it streams. *)
Inductive streamed := SFrame (f : InterleavedFrame) | SResponse (r : Response) | SDropped.

Definition readStreamed (s : string) : result msg_error (streamed * string) :=
  if bool_decide (s = "") then Err EOF
  else if HasPrefix s "$" then '(f, s) ← readInterleavedFrame s; Ok (SFrame f, s)
  else if slen s <? slen responsePrefix then Err EOF
  else if negb (HasPrefix s responsePrefix) then '(r, n, s) ← ReadRequest s; Ok (SDropped, discardBody n s)
  else '(r, n, s) ← ReadResponse s; Ok (SResponse r, discardBody n s).

End messages.

(** ** Reading text *)

Lemma length_sapp s t : String.length (s +:+ t) = (String.length s + String.length t)%nat.
Proof. induction s as [|a s IH]; [done|]. rewrite sapp_cons. cbn. by rewrite IH. Qed.

Lemma slen_app s t : slen (s +:+ t) = slen s + slen t.
Proof. unfold slen. rewrite length_sapp. lia. Qed.

Lemma slen_nonneg s : 0 <= slen s.
Proof. unfold slen. lia. Qed.

Lemma clean_app c s t : clean c (s +:+ t) <-> clean c s /\ clean c t.
Proof. unfold clean. induction s as [|a s IH]; [rewrite sapp_nil_l; cbn; tauto|]. rewrite sapp_cons. cbn. rewrite !orb_false_iff. tauto. Qed.

Lemma prefix_one c a s : HasPrefix (String a s) (String c "") = bool_decide (a = c).
Proof. unfold HasPrefix. cbn. destruct (ascii_dec c a) as [->|Hne]; [|by rewrite bool_decide_false].
  rewrite bool_decide_true by done. by destruct s.
Qed.

Lemma Cut_char c l r : clean c l -> Cut (l +:+ String c r) (String c "") = Some (l, r).
Proof.
  unfold clean. induction l as [|a l IH].
  - intros _. rewrite sapp_nil_l. cbn [Cut]. rewrite prefix_one, bool_decide_true by done. cbn [TrimPrefix].
    rewrite prefix_one, bool_decide_true by done. by destruct r.
  - cbn. intros [Ha Hl]%orb_false_iff. rewrite sapp_cons. cbn [Cut]. rewrite prefix_one. rewrite Ha, IH by done. done.
Qed.

Lemma Cut_char_clean c l : clean c l -> Cut l (String c "") = None.
Proof.
  unfold clean. induction l as [|a l IH]; [by cbn|]. cbn [mem_char]. intros [Ha Hl]%orb_false_iff.
  cbn [Cut]. rewrite prefix_one, Ha, IH by done. done.
Qed.

(** What [Cut] finds. *)
Lemma Cut_one_sound c s l r : Cut s (String c "") = Some (l, r) -> s = l +:+ String c r /\ clean c l.
Proof.
  revert l r. induction s as [|a s IH]; intros l r; [done|]. cbn [Cut]. rewrite prefix_one. case_bool_decide as Ha.
  - cbn [TrimPrefix]. rewrite prefix_one, bool_decide_true by done. intros [= <- <-]. subst a. split; [by destruct s|done].
  - destruct (Cut s _) as [[x y]|] eqn:He; cbn; [|done]. intros [= <- <-]. destruct (IH _ _ eq_refl) as [-> Hc]. split; [done|].
    unfold clean in *. cbn. by rewrite bool_decide_false.
Qed.

Lemma readLine_crlf l r : clean "010" l -> slen l + 1 < bufSize -> readLine (l +:+ crlf +:+ r) = Ok (l, r).
Proof.
  intros Hc Hl. unfold readLine. change (crlf +:+ r) with (cr +:+ String "010" r). rewrite <- sapp_assoc.
  unfold lf at 1. rewrite Cut_char by (apply clean_app; done). rewrite slen_app. rewrite (proj2 (Z.ltb_lt _ _)) by (change (slen cr) with 1; lia).
  by rewrite TrimSuffix_app.
Qed.

(** A read line is shorter than what it is read from. *)
Lemma readLine_shorter s l r : readLine s = Ok (l, r) -> (String.length r < String.length s)%nat.
Proof.
  unfold readLine. destruct (Cut s lf) as [[x y]|] eqn:He.
  - apply Cut_one_sound in He as [-> _]. case_match; [|done]. intros [= _ <-]. rewrite length_sapp. cbn. lia.
  - case_bool_decide as Hs; [done|]. case_match; [|done]. intros [= _ <-]. destruct s; [done|]. cbn. lia.
Qed.

(** *** Trimming *)

Definition no_space (s : string) : Prop := ContainsFunc is_space s = false.

Lemma TrimRight_no_space s : no_space s -> TrimRight s = s.
Proof.
  unfold no_space. induction s as [|a s IH]; [done|]. cbn. intros [Ha Hs]%orb_false_iff. rewrite IH by done.
  destruct s; [by rewrite Ha|done].
Qed.

Lemma TrimSpace_no_space s : no_space s -> TrimSpace s = s.
Proof.
  intros Hs. unfold TrimSpace. assert (TrimLeft s = s) as ->; [|by apply TrimRight_no_space].
  destruct s as [|a s]; [done|]. unfold no_space in Hs. cbn in *. apply orb_false_iff in Hs as [-> _]. done.
Qed.

Lemma TrimSpace_left s : TrimSpace (String " " s) = TrimSpace s.
Proof. done. Qed.

Lemma token_not_space a : token_char a = true -> is_space a = false /\ a <> ":"%char /\ a <> "010"%char.
Proof. destruct a as [[] [] [] [] [] [] [] []]; vm_compute; naive_solver. Qed.

Lemma valid_name_facts k : valid_name k = true -> k <> "" /\ no_space k /\ clean ":" k /\ clean "010" k.
Proof.
  unfold valid_name, no_space, clean. intros [Hne Hk]%andb_true_iff. bool_prop. split; [done|]. clear Hne.
  induction k as [|a k IH]; [done|]. cbn in *. bool_prop. destruct (token_not_space a) as (-> & H1 & H2); [done|].
  rewrite !bool_decide_false by done. by apply IH.
Qed.

Lemma newline_to_space_clean v : clean "010" v -> clean "013" v -> newline_to_space v = v.
Proof.
  unfold clean. induction v as [|a v IH]; [done|]. cbn. intros [H1 H2]%orb_false_iff [H3 H4]%orb_false_iff. rewrite H1, H3, IH by done. done.
Qed.

(** ** Headers *)

Definition value_ok (v : string) : Prop := clean "010" v /\ clean "013" v /\ TrimSpace v = v.

(** A field that is written and read back as it is. *)
Record field_ok (k : string) (vs : list string) : Prop := {
  f_name : valid_name k = true;
  f_canonical : CanonicalKey k = k;
  f_some : vs <> [];
  f_values : Forall (fun v => value_ok v /\ slen k + slen v + 3 < bufSize) vs
}.
Definition header_ok (h : fields) : Prop := map_Forall field_ok h.

Lemma header_line_ok k v : value_ok v -> header_line k v = (k +:+ ": " +:+ v) +:+ crlf.
Proof. intros (H1 & H2 & H3). unfold header_line. rewrite newline_to_space_clean, H3, !sapp_assoc by done. done. Qed.

Definition line_ok (kv : string * string) : Prop :=
  valid_name kv.1 = true /\ value_ok kv.2 /\ slen kv.1 + slen kv.2 + 3 < bufSize.
Definition add_field (h : fields) (kv : string * string) : fields := Header_Add kv.1 kv.2 h.

Lemma readHeader_lines fs fuel rest h :
  Forall line_ok fs -> (length fs < fuel)%nat ->
  readHeader_loop fuel (sapps ((fun kv => header_line kv.1 kv.2) <$> fs) +:+ crlf +:+ rest) h = Ok (foldl add_field h fs, rest).
Proof.
  intros Hfs. revert fuel h. induction Hfs as [|[k v] fs (Hk & Hv & Hl) Hfs IH]; intros fuel h Hfuel; (destruct fuel as [|fuel]; [cbn in Hfuel; lia|]).
  - cbn [fmap list_fmap sapps foldr]. cbn [readHeader_loop]. change ("" +:+ crlf +:+ rest) with ("" +:+ (crlf +:+ rest)).
    rewrite readLine_crlf by done. done.
  - cbn [fmap list_fmap sapps foldr fst snd foldl] in *. fold (sapps ((fun kv => header_line kv.1 kv.2) <$> fs)).
    rewrite header_line_ok by done. destruct Hv as (Hv1 & Hv2 & Hv3). destruct (valid_name_facts _ Hk) as (Hne & Hns & Hcol & Hnl).
    cbn [readHeader_loop]. rewrite !sapp_assoc. rewrite <- (sapp_assoc k), <- (sapp_assoc (k +:+ ": ")), (sapp_assoc k).
    rewrite readLine_crlf; [|apply clean_app; split; [done|by apply clean_app]|rewrite !slen_app; change (slen ": ") with 2; lia].
    cbn [mbind result_bind]. rewrite bool_decide_false by (by destruct k).
    assert (SplitN 2 (k +:+ ": " +:+ v) ":" = [k; String " " v]) as ->.
    { cbn [SplitN]. change (k +:+ ": " +:+ v) with (k +:+ String ":" (String " " v)). by rewrite Cut_char. }
    rewrite TrimSpace_left, TrimSpace_no_space, Hv3 by done. apply IH. cbn in Hfuel. lia.
Qed.

(** Adding a field's values one by one. *)
Lemma add_values k vs done h :
  CanonicalKey k = k -> h !! k = Some done ->
  foldl add_field h (pair k <$> vs) = <[k := done ++ vs]> h.
Proof.
  intros Hk. revert done h. induction vs as [|v vs IH]; intros done h Hh; cbn.
  - rewrite app_nil_r. by rewrite (insert_id h).
  - unfold add_field at 2. unfold Header_Add. cbn [fst snd]. rewrite Hk, Hh. cbn [default].
    rewrite (IH (done ++ [v])) by apply lookup_insert_eq. rewrite insert_insert_eq. by rewrite <- app_assoc.
Qed.

Lemma add_new_values k vs h :
  CanonicalKey k = k -> h !! k = None -> vs <> [] ->
  foldl add_field h (pair k <$> vs) = <[k := vs]> h.
Proof.
  intros Hk Hh Hvs. destruct vs as [|v vs]; [done|]. cbn. unfold add_field at 2, Header_Add. cbn [fst snd]. rewrite Hk, Hh. cbn [default].
  rewrite (add_values _ _ [v]) by (done || apply lookup_insert_eq). by rewrite insert_insert_eq.
Qed.

Definition flat (l : list (string * list string)) : list (string * string) := concat ((fun kvs : string * list string => pair kvs.1 <$> kvs.2) <$> l).

Lemma add_all l h :
  Forall (fun kv => field_ok kv.1 kv.2) l -> NoDup l.*1 -> (forall k, k ∈ l.*1 -> h !! k = None) ->
  foldl add_field h (flat l) = list_to_map l ∪ h.
Proof.
  revert h. induction l as [|[k vs] l IH]; intros h Hok Hnd Hh; [cbn; by rewrite (left_id_L ∅ (∪))|].
  apply Forall_cons in Hok as [[_ Hc Hs _] Hok]. cbn in Hnd. apply NoDup_cons in Hnd as [Hk Hnd]. unfold flat. cbn [fmap list_fmap concat fst snd] in *.
  fold (flat l). rewrite foldl_app, add_new_values by (done || apply Hh; by left). rewrite IH; [|done..|].
  - change (list_to_map ((k, vs) :: l) : fields) with (<[k:=vs]> (list_to_map l : fields)). rewrite <- insert_union_l. symmetry. apply insert_union_r. by apply not_elem_of_list_to_map_1.
  - intros k' Hk'. rewrite lookup_insert_ne by (intros ->; by apply Hk). apply Hh. by right.
Qed.

Lemma sorted_fields_perm h : sorted_fields h ≡ₚ map_to_list h.
Proof. apply merge_sort_Permutation. Qed.

Lemma sorted_fields_nodup h : NoDup (sorted_fields h).*1.
Proof. rewrite sorted_fields_perm. apply NoDup_fst_map_to_list. Qed.

Lemma sorted_fields_map h : list_to_map (sorted_fields h) = h.
Proof.
  rewrite <- (list_to_map_to_list h) at 2. apply list_to_map_proper; [apply sorted_fields_nodup|apply sorted_fields_perm].
Qed.

Lemma sorted_fields_ok h : header_ok h -> Forall (fun kv => field_ok kv.1 kv.2) (sorted_fields h).
Proof.
  intros Hh. rewrite sorted_fields_perm. apply Forall_forall. intros [k vs] Hin. apply elem_of_map_to_list in Hin. apply (Hh _ _ Hin).
Qed.

Lemma Header_Write_flat h : header_ok h -> Header_Write h = sapps ((fun kv => header_line kv.1 kv.2) <$> flat (sorted_fields h)).
Proof.
  intros Hh. unfold Header_Write, flat. f_equal. pose proof (sorted_fields_ok h Hh) as Hok. clear Hh. revert Hok. generalize (sorted_fields h). clear h. intros l.
  induction 1 as [|[k vs] l [Hn _ _ _] Hl IH]; [done|]. cbn in *. rewrite Hn, IH, fmap_app. f_equal. rewrite <- list_fmap_compose. done.
Qed.

Lemma flat_ok l : Forall (fun kv => field_ok kv.1 kv.2) l -> Forall line_ok (flat l).
Proof.
  induction 1 as [|[k vs] l [Hn _ _ Hv] Hl IH]; [constructor|]. unfold flat. cbn. apply Forall_app. split; [|done].
  apply Forall_fmap. eapply Forall_impl; [exact Hv|]. intros v [? ?]. split; [done|]. by split.
Qed.

Lemma length_sapps_lines (fs : list (string * string)) rest :
  (length fs <= String.length (sapps ((fun kv => header_line kv.1 kv.2) <$> fs) +:+ rest))%nat.
Proof.
  induction fs as [|kv fs IH]; cbn; [lia|]. fold (sapps ((fun kv => header_line kv.1 kv.2) <$> fs)).
  rewrite sapp_assoc, length_sapp. unfold header_line at 1. rewrite !length_sapp. change (String.length crlf) with 2%nat. rewrite length_sapp in IH. lia.
Qed.

(** A header is read back as it was written. *)
Lemma readHeader_Write h rest : header_ok h -> readHeader (Header_Write h +:+ crlf +:+ rest) ∅ = Ok (h, rest).
Proof.
  intros Hh. unfold readHeader. pose proof (sorted_fields_ok h Hh) as Hok. rewrite Header_Write_flat by done. rewrite readHeader_lines.
  - f_equal. f_equal. rewrite add_all; [|done|apply sorted_fields_nodup|by intros; rewrite lookup_empty].
    rewrite (right_id_L ∅ (∪)). apply sorted_fields_map.
  - by apply flat_ok.
  - apply Nat.lt_succ_r, length_sapps_lines.
Qed.

(** Reading a header never runs out of fuel. *)
Lemma readHeader_loop_fuel fuel s h : (String.length s < fuel)%nat -> readHeader_loop fuel s h <> Err OutOfFuel.
Proof.
  revert s h. induction fuel as [|fuel IH]; intros s h Hf; [lia|]. cbn [readHeader_loop]. destruct (readLine s) as [[l r]|e] eqn:He; cbn.
  - case_bool_decide; [done|]. repeat case_match; try done. apply IH. apply readLine_shorter in He. lia.
  - intros [= ->]. unfold readLine in He. repeat case_match; done.
Qed.

(** ** Messages are read back *)

Lemma cut_at_app s t : cut_at (String.length s) (s +:+ t) = (s, t).
Proof. induction s as [|a s IH]; [by destruct t|]. rewrite sapp_cons. cbn. by rewrite IH. Qed.

Lemma cut_at_split n s : let '(x, y) := cut_at n s in s = x +:+ y.
Proof.
  revert s. induction n as [|n IH]; intros s; [done|]. destruct s as [|a s]; [done|]. cbn. specialize (IH s).
  destruct (cut_at n s) as [x y]. rewrite sapp_cons. by f_equal.
Qed.

Lemma cut_at_shorter n s : (String.length (cut_at n s).2 <= String.length s)%nat.
Proof. pose proof (cut_at_split n s) as H. destruct (cut_at n s) as [x y]. subst s. cbn. rewrite length_sapp. lia. Qed.

Lemma length_sbytes s : length (sbytes s) = String.length s.
Proof. induction s as [|a s IH]; [done|]. cbn. by rewrite IH. Qed.

Lemma length_bstring b : String.length (bstring b) = length b.
Proof. induction b as [|z b IH]; [done|]. cbn. by f_equal. Qed.

Lemma char_byte_char z : byte_ok z -> char_byte (byte_char z) = z.
Proof.
  unfold byte_ok, char_byte, byte_char. intros Hz. rewrite Z.mod_small by lia. rewrite nat_ascii_embedding; lia.
Qed.

Lemma sbytes_bstring b : bytes_ok b -> sbytes (bstring b) = b.
Proof. induction 1 as [|z b Hz Hb IH]; [done|]. cbn [bstring sbytes]. by rewrite char_byte_char, IH. Qed.

Lemma bstring_app b c : bstring (b ++ c) = bstring b +:+ bstring c.
Proof. induction b as [|z b IH]; [done|]. cbn. by rewrite IH. Qed.

Lemma slen_0 s : slen s = 0 -> s = "".
Proof. destruct s; [done|]. unfold slen. cbn. lia. Qed.

Lemma ReadFull_app n s rest : slen s = n -> ReadFull n (s +:+ rest) = Ok (s, rest).
Proof.
  intros <-. unfold ReadFull. destruct (Z.eqb_spec (slen s) 0) as [H0|H0]; [by rewrite (slen_0 _ H0)|].
  rewrite bool_decide_false by (destruct s; done). rewrite slen_app. pose proof (slen_nonneg rest).
  rewrite (proj2 (Z.ltb_ge _ _)) by lia. unfold slen. by rewrite Nat2Z.id, cut_at_app.
Qed.

Lemma ReadFull_sound n s x r : 0 <= n -> ReadFull n s = Ok (x, r) -> s = x +:+ r /\ slen x = n.
Proof.
  intros Hn. unfold ReadFull. destruct (Z.eqb_spec n 0) as [->|Hne]; [by intros [= <- <-]|]. case_bool_decide; [done|].
  destruct (Z.ltb_spec (slen s) n) as [|Hl]; [done|]. intros [= He]. pose proof (cut_at_split (Z.to_nat n) s) as Hs. rewrite He in Hs. split; [done|].
  clear Hs. assert (forall n s x r, (n <= String.length s)%nat -> cut_at n s = (x, r) -> String.length x = n) as Hlen.
  { clear. induction n as [|n IH]; intros s x r Hs He; [by injection He as <- _|]. destruct s as [|a s]; [cbn in Hs; lia|]. cbn in *.
    destruct (cut_at n s) as [y q] eqn:Hy. injection He as <- _. cbn. f_equal. apply (IH s y q); [lia|done]. }
  apply Hlen in He; unfold slen in *; lia.
Qed.

Section readback.
Context {U : URLs}.

(** A body of the length its header gives. *)
Definition body_ok (h : fields) (body : option string) : Prop :=
  match body with
  | None => Header_Get "Content-Length" h = ""
  | Some b => Header_Get "Content-Length" h = Itoa (slen b) /\ slen b < 2 ^ 63
  end.

(** A word of a first line. *)
Definition word_ok (w : string) : Prop := clean " " w /\ clean "010" w.

Record request_ok (r : Request) (body : option string) : Prop := {
  q_method : word_ok r.(Method) /\ r.(Method) <> "" /\ HasPrefix r.(Method) "$" = false /\ clean "/" r.(Method);
  q_url : word_ok (url_String r.(URL)) /\ url_Parse (url_String r.(URL)) = Some r.(URL);
  q_proto : word_ok r.(Proto);
  q_line : slen r.(Method) + slen (url_String r.(URL)) + slen r.(Proto) + 3 < bufSize;
  q_header : header_ok r.(ReqHeader);
  q_body : body_ok r.(ReqHeader) body
}.

Record response_ok (r : Response) (body : option string) : Prop := {
  a_proto : word_ok r.(RespProto) /\ HasPrefix r.(RespProto) responsePrefix = true /\ slen r.(RespProto) < 100;
  a_code : 100 <= r.(StatusCode) < 1000;
  a_status : r.(Status) = Itoa r.(StatusCode) +:+ " " +:+ statusText r.(StatusCode);
  a_header : header_ok r.(RespHeader);
  a_body : body_ok r.(RespHeader) body
}.

Record frame_ok (f : InterleavedFrame) : Prop := {
  fr_channel : byte_ok f.(Channel);
  fr_bytes : bytes_ok f.(FramePayload);
  fr_length : Z.of_nat (length f.(FramePayload)) < 65536
}.

Lemma body_window_ok h body : body_ok h body -> body_window h = Ok (slen <$> body).
Proof.
  unfold body_ok, body_window. destruct body as [b|]; cbn; [|by intros ->]. intros [-> Hb]. rewrite bool_decide_false.
  - rewrite Atoi_Itoa by (pose proof (slen_nonneg b); lia). done.
  - intros He. pose proof (Atoi_Itoa (slen b) ltac:(pose proof (slen_nonneg b); lia)) as Hz. by rewrite He in Hz.
Qed.

Lemma read_body_back body rest : read_body (slen <$> body) (write_body body +:+ rest) = (write_body body, rest).
Proof. destruct body as [b|]; [|by destruct rest]. unfold read_body, slen. cbn. by rewrite Nat2Z.id, cut_at_app. Qed.

Lemma ReadRequest_back r body rest :
  request_ok r body -> ReadRequest (request_text r body +:+ rest) = Ok (r, slen <$> body, write_body body +:+ rest).
Proof.
  intros [([Hm1 Hm2] & _) [[Hu1 Hu2] Hu] [Hp1 Hp2] Hl Hh Hb]. unfold ReadRequest, request_text.
  set (line := r.(Method) +:+ " " +:+ url_String r.(URL) +:+ " " +:+ r.(Proto)).
  assert (Ht : forall t, (r.(Method) +:+ " " +:+ url_String r.(URL) +:+ " " +:+ r.(Proto) +:+ t) = line +:+ t) by (intros t; unfold line; by rewrite !sapp_assoc).
  rewrite Ht, !sapp_assoc. rewrite readLine_crlf.
  - cbn [mbind result_bind]. assert (Split " " line = [r.(Method); url_String r.(URL); r.(Proto)]) as ->.
    { unfold line. change (r.(Method) +:+ " " +:+ ?t) with (r.(Method) +:+ String " " t). rewrite Split_app, Split_clean by done.
      change (url_String r.(URL) +:+ " " +:+ ?t) with (url_String r.(URL) +:+ String " " t). by rewrite Split_app, !Split_clean by done. }
    rewrite Hu. cbn [of_option mbind result_bind]. rewrite readHeader_Write by done. cbn [mbind result_bind]. rewrite (body_window_ok _ _ Hb). by destruct r.
  - unfold line. rewrite !clean_app. done.
  - unfold line. rewrite !slen_app. change (slen " ") with 1. lia.
Qed.

Lemma statusText_clean code : clean "010" (statusText code) /\ slen (statusText code) < 100.
Proof. unfold statusText. repeat case_match; done. Qed.

Lemma small_codes code : 100 <= code < 1000 -> clean " " (Itoa code) /\ clean "010" (Itoa code) /\ slen (Itoa code) < 100.
Proof.
  intros Hc. assert (Hall : forallb (fun n => let s := Itoa (Z.of_nat n) in negb (mem_char " " s) && negb (mem_char "010" s) && (slen s <? 100)) (seq 100 900) = true)
    by (vm_compute; done).
  rewrite forallb_forall in Hall. specialize (Hall (Z.to_nat code)). rewrite Z2Nat.id in Hall by lia.
  assert (In (Z.to_nat code) (seq 100 900)) as Hin by (apply in_seq; lia). specialize (Hall Hin). cbn zeta in Hall. unfold clean. bool_prop. done.
Qed.

Lemma ReadResponse_back r body rest :
  response_ok r body -> ReadResponse (response_text r body +:+ rest) = Ok (r, slen <$> body, write_body body +:+ rest).
Proof.
  intros [([Hp1 Hp2] & _ & Hp3) Hc Hs Hh Hb]. unfold ReadResponse, response_text. destruct (small_codes _ Hc) as (Hc1 & Hc2 & Hc3).
  destruct (statusText_clean r.(StatusCode)) as [Ht1 Ht2].
  set (line := r.(RespProto) +:+ " " +:+ Itoa r.(StatusCode) +:+ " " +:+ statusText r.(StatusCode)).
  assert (Ht : forall t, (r.(RespProto) +:+ " " +:+ Itoa r.(StatusCode) +:+ " " +:+ statusText r.(StatusCode) +:+ t) = line +:+ t)
    by (intros t; unfold line; by rewrite !sapp_assoc).
  rewrite Ht, !sapp_assoc. rewrite readLine_crlf.
  - cbn [mbind result_bind]. assert (SplitN 3 line " " = [r.(RespProto); Itoa r.(StatusCode); statusText r.(StatusCode)]) as ->.
    { unfold line. cbn [SplitN]. change (r.(RespProto) +:+ " " +:+ ?t) with (r.(RespProto) +:+ String " " t). rewrite Cut_char by done.
      change (Itoa r.(StatusCode) +:+ " " +:+ ?t) with (Itoa r.(StatusCode) +:+ String " " t). by rewrite Cut_char. }
    rewrite Atoi_Itoa by lia. cbn [of_option mbind result_bind]. rewrite readHeader_Write by done. cbn [mbind result_bind].
    rewrite (body_window_ok _ _ Hb). cbn [mbind result_bind Join]. change (Itoa r.(StatusCode) +:+ String " " ?t) with (Itoa r.(StatusCode) +:+ " " +:+ t).
    rewrite <- Hs. by destruct r.
  - unfold line. rewrite !clean_app. done.
  - unfold line. rewrite !slen_app. change (slen " ") with 1. unfold bufSize. lia.
Qed.

Lemma frame_text_head f : frame_text f = String "$" (bstring (f.(Channel) :: be 2 (wrapu 16 (Z.of_nat (length f.(FramePayload)))) ++ f.(FramePayload))).
Proof. done. Qed.

Lemma readInterleavedFrame_back f rest : frame_ok f -> readInterleavedFrame (frame_text f +:+ rest) = Ok (f, rest).
Proof.
  intros [Hc Hb Hl]. unfold readInterleavedFrame, frame_text. set (n := Z.of_nat (length f.(FramePayload))) in *.
  assert (Hn : 0 <= n) by lia. rewrite wrapu_id by (split; lia).
  change (36 :: f.(Channel) :: be 2 n ++ f.(FramePayload)) with ((36 :: f.(Channel) :: be 2 n) ++ f.(FramePayload)).
  rewrite bstring_app, sapp_assoc. assert (Hbe : length (be 2 n) = 2%nat) by apply length_be.
  rewrite ReadFull_app by (unfold slen; rewrite length_bstring; cbn [length]; rewrite Hbe; done). cbn [mbind result_bind].
  rewrite sbytes_bstring by (constructor; [by unfold byte_ok; lia|constructor; [done|apply be_ok]]).
  pose proof (of_be_be_id 2 n ltac:(lia)) as Hof. destruct (be 2 n) as [|hi [|lo [|? ?]]]; try done. cbn [Z.eqb guard_err mbind result_bind].
  change (36 =? 36) with true. cbn [guard_err mbind result_bind].
  assert (hi * 256 + lo = n) as -> by (rewrite <- Hof; cbn; lia).
  rewrite ReadFull_app by (unfold slen; by rewrite length_bstring). cbn [mbind result_bind]. rewrite sbytes_bstring by done. by destruct f.
Qed.

(** What travels on a connection. *)
Inductive message := MFrame (f : InterleavedFrame) | MRequest (r : Request) (body : option string) | MResponse (r : Response) (body : option string).

Definition message_text (m : message) : string :=
  match m with MFrame f => frame_text f | MRequest r b => request_text r b | MResponse r b => response_text r b end.
Definition message_ok (m : message) : Prop :=
  match m with MFrame f => frame_ok f | MRequest r b => request_ok r b | MResponse r b => response_ok r b end.

(** What the streaming client makes of it. *)
Definition seen (m : message) : streamed := match m with MFrame f => SFrame f | MRequest _ _ => SDropped | MResponse r _ => SResponse r end.

Lemma prefix_app_false s t p : HasPrefix s p = false -> (String.length p <= String.length s)%nat -> HasPrefix (s +:+ t) p = false.
Proof.
  unfold HasPrefix. revert s. induction p as [|a p IH]; intros s; [by destruct s|]. destruct s as [|b s]; [cbn; lia|].
  rewrite sapp_cons. cbn. destruct (ascii_dec a b); [|done]. intros Hp Hl. apply IH; [done|lia].
Qed.

Lemma prefix_char_false s t a : HasPrefix s (String a "") = false -> s <> "" -> HasPrefix (s +:+ t) (String a "") = false.
Proof. intros H Hs. apply prefix_app_false; [done|]. destruct s; [done|]. cbn. lia. Qed.

Lemma prefix_cons a s b p : HasPrefix (String a s) (String b p) = bool_decide (b = a) && HasPrefix s p.
Proof.
  unfold HasPrefix. cbn [String.prefix]. destruct (ascii_dec b a) as [->|Hne]; [by rewrite bool_decide_true|by rewrite bool_decide_false].
Qed.

(** A text whose first space comes before its first slash does not begin with one
    that has them the other way round. *)
Lemma space_first m t p q : clean "/" m -> clean " " p -> HasPrefix (m +:+ String " " t) (p +:+ String "/" q) = false.
Proof.
  unfold clean. revert m. induction p as [|b p IH]; intros m Hm Hp; destruct m as [|a m]; rewrite ?sapp_cons, ?sapp_nil_l, prefix_cons; cbn in Hm, Hp.
  - done.
  - apply orb_false_iff in Hm as [Ha _]. apply bool_decide_eq_false in Ha. by rewrite bool_decide_false.
  - apply orb_false_iff in Hp as [Hb _]. by rewrite Hb.
  - apply orb_false_iff in Hm as [_ Hm], Hp as [_ Hp]. rewrite IH by done. apply andb_false_r.
Qed.

Lemma not_response m t : clean "/" m -> HasPrefix (m +:+ " " +:+ t) responsePrefix = false.
Proof. intros Hm. by apply (space_first m t "RTSP" ""). Qed.

Lemma readStreamed_back m rest : message_ok m -> readStreamed (message_text m +:+ rest) = Ok (seen m, rest).
Proof.
  destruct m as [f|r body|r body]; cbn [message_ok message_text seen]; intros Hok; unfold readStreamed.
  - rewrite readInterleavedFrame_back by done. rewrite frame_text_head, sapp_cons, prefix_one, bool_decide_false by done.
    by rewrite bool_decide_true.
  - pose proof (ReadRequest_back r body rest Hok) as Hback. destruct Hok as [(_ & Hne & Hd & Hslash) _ _ _ _ _].
    assert (Ht : exists t, request_text r body +:+ rest = r.(Method) +:+ " " +:+ t /\ 5 <= slen t).
    { unfold request_text. eexists. split; [rewrite !sapp_assoc; reflexivity|]. rewrite !slen_app. change (slen crlf) with 2. change (slen " ") with 1.
      pose proof (slen_nonneg (url_String r.(URL))). pose proof (slen_nonneg r.(Proto)). pose proof (slen_nonneg (Header_Write r.(ReqHeader))).
      pose proof (slen_nonneg (write_body body)). pose proof (slen_nonneg rest). lia. }
    destruct Ht as (t & Ht & Hlt). rewrite Hback. rewrite Ht.
    rewrite bool_decide_false by (by destruct (Method r)). rewrite prefix_char_false by done.
    rewrite (proj2 (Z.ltb_ge _ _)) by (rewrite !slen_app; change (slen responsePrefix) with 5; pose proof (slen_nonneg r.(Method)); change (slen " ") with 1; lia).
    rewrite not_response by done. cbn [negb mbind result_bind]. unfold discardBody. by rewrite read_body_back.
  - pose proof (ReadResponse_back r body rest Hok) as Hback. destruct Hok as [(_ & Hpre & _) _ _ _ _].
    apply HasPrefix_spec in Hpre as [p Hp]. assert (Ht : exists t, response_text r body +:+ rest = responsePrefix +:+ t).
    { unfold response_text. rewrite Hp. eexists. rewrite !sapp_assoc. reflexivity. }
    destruct Ht as (t & Ht). rewrite Hback. rewrite Ht. rewrite bool_decide_false by done.
    change (HasPrefix (responsePrefix +:+ t) "$") with false. rewrite slen_app, (proj2 (Z.ltb_ge _ _)) by (pose proof (slen_nonneg t); lia).
    rewrite HasPrefix_app. cbn [negb mbind result_bind]. unfold discardBody. by rewrite read_body_back.
Qed.

(** The client's reads of a connection, until one fails. *)
Fixpoint readStreamed_all (fuel : nat) (s : string) : list streamed * msg_error :=
  match fuel with
  | O => ([], OutOfFuel)
  | S fuel =>
      match readStreamed s with
      | Ok (x, s) => let '(l, e) := readStreamed_all fuel s in (x :: l, e)
      | Err e => ([], e)
      end
  end.

Lemma readInterleavedFrame_shorter s f r : readInterleavedFrame s = Ok (f, r) -> (String.length r < String.length s)%nat.
Proof.
  unfold readInterleavedFrame. destruct (ReadFull 4 s) as [[h s1]|] eqn:He; cbn [mbind result_bind]; [|done].
  apply ReadFull_sound in He as [-> Hh]; [|lia]. destruct (sbytes h) as [|d [|c [|hi [|lo [|? ?]]]]] eqn:Hs; try done.
  destruct (d =? 36); cbn [guard_err mbind result_bind]; [|done]. destruct (ReadFull _ s1) as [[p s2]|] eqn:Hp; cbn [mbind result_bind]; [|done]. intros [= _ <-].
  destruct (decide (0 <= hi * 256 + lo)) as [Hpos|Hneg].
  - apply ReadFull_sound in Hp as [-> _]; [|done]. rewrite !length_sapp. unfold slen in Hh. lia.
  - unfold ReadFull in Hp. rewrite (proj2 (Z.eqb_neq _ 0)) in Hp by lia. case_bool_decide; [done|].
    case_match; [done|]. injection Hp as Hp. pose proof (cut_at_shorter (Z.to_nat (hi * 256 + lo)) s1) as Hc. rewrite Hp in Hc. cbn in Hc.
    rewrite length_sapp. unfold slen in Hh. lia.
Qed.

Lemma readHeader_shorter fuel s h h' r : readHeader_loop fuel s h = Ok (h', r) -> (String.length r < String.length s)%nat.
Proof.
  revert s h. induction fuel as [|fuel IH]; intros s h; cbn [readHeader_loop]; [done|]. destruct (readLine s) as [[l s1]|] eqn:He; cbn [mbind result_bind]; [|done].
  apply readLine_shorter in He. case_bool_decide; [by intros [= _ <-]|]. repeat case_match; try done. intros Hl. apply IH in Hl. lia.
Qed.

Lemma ReadRequest_shorter s q n r : ReadRequest s = Ok (q, n, r) -> (String.length r < String.length s)%nat.
Proof.
  unfold ReadRequest. destruct (readLine s) as [[l s1]|] eqn:Hl; cbn [mbind result_bind]; [|done]. apply readLine_shorter in Hl.
  destruct (Split " " l) as [|m [|u [|p [|? ?]]]]; try done. destruct (url_Parse _); cbn [mbind result_bind of_option]; [|done].
  destruct (readHeader s1 ∅) as [[h s2]|] eqn:Hh; cbn [mbind result_bind]; [|done]. apply readHeader_shorter in Hh.
  destruct (body_window h); cbn [mbind result_bind]; [|done]. intros [= _ _ <-]. lia.
Qed.

Lemma ReadResponse_shorter s q n r : ReadResponse s = Ok (q, n, r) -> (String.length r < String.length s)%nat.
Proof.
  unfold ReadResponse. destruct (readLine s) as [[l s1]|] eqn:Hl; cbn [mbind result_bind]; [|done]. apply readLine_shorter in Hl.
  destruct (SplitN 3 l " ") as [|p [|c more]]; try done. destruct (Atoi _); cbn [mbind result_bind of_option]; [|done].
  destruct (readHeader s1 ∅) as [[h s2]|] eqn:Hh; cbn [mbind result_bind]; [|done]. apply readHeader_shorter in Hh.
  destruct (body_window h); cbn [mbind result_bind]; [|done]. intros [= _ _ <-]. lia.
Qed.

Lemma discardBody_shorter n s : (String.length (discardBody n s) <= String.length s)%nat.
Proof. apply cut_at_shorter. Qed.

Lemma readStreamed_shorter s x r : readStreamed s = Ok (x, r) -> (String.length r < String.length s)%nat.
Proof.
  unfold readStreamed. case_bool_decide as Hs; [done|]. destruct (HasPrefix s "$").
  - destruct (readInterleavedFrame s) as [[f s1]|] eqn:He; cbn [mbind result_bind]; [|done]. intros [= _ <-]. by eapply readInterleavedFrame_shorter.
  - case_match; [done|]. case_match.
    + destruct (ReadRequest s) as [[[q n] s1]|] eqn:He; cbn [mbind result_bind]; [|done]. apply ReadRequest_shorter in He. intros [= _ <-].
      pose proof (discardBody_shorter n s1). lia.
    + destruct (ReadResponse s) as [[[q n] s1]|] eqn:He; cbn [mbind result_bind]; [|done]. apply ReadResponse_shorter in He. intros [= _ <-].
      pose proof (discardBody_shorter n s1). lia.
Qed.

(** A streaming client stays in step with its server: whatever the server
    interleaves of frames, responses and requests, with bodies, every frame and
    every response is read as it was sent, in order, requests are dropped, and
    the end of the stream is reached at the end of the last message. *)
Theorem streamed_in_sync ms :
  Forall message_ok ms -> readStreamed_all (S (length ms)) (sapps (message_text <$> ms)) = (seen <$> ms, EOF).
Proof.
  induction 1 as [|m ms Hm Hms IH]; [done|]. cbn [length fmap list_fmap sapps foldr]. fold (sapps (message_text <$> ms)).
  remember (S (length ms)) as n. cbn [readStreamed_all]. rewrite readStreamed_back by done. rewrite IH. done.
Qed.

Lemma readLine_fuel s : readLine s <> Err OutOfFuel.
Proof. unfold readLine. repeat case_match; done. Qed.

Lemma ReadFull_fuel n s : ReadFull n s <> Err OutOfFuel.
Proof. unfold ReadFull. repeat case_match; done. Qed.

Lemma body_window_fuel h : body_window h <> Err OutOfFuel.
Proof. unfold body_window. case_bool_decide; [done|]. by destruct (Atoi _). Qed.

Lemma bind_fuel {A B} (m : result msg_error A) (f : A -> result msg_error B) :
  m <> Err OutOfFuel -> (forall a, m = Ok a -> f a <> Err OutOfFuel) -> m ≫= f <> Err OutOfFuel.
Proof. intros Hm Hf. destruct m as [a|e]; cbn; [by apply Hf|]. intros [= ->]. done. Qed.

Lemma frame_fuel s : readInterleavedFrame s <> Err OutOfFuel.
Proof.
  apply bind_fuel; [apply ReadFull_fuel|]. intros [h r] _. destruct (sbytes h) as [|d [|c [|hi [|lo [|? ?]]]]]; try done.
  apply bind_fuel; [by destruct (_ =? _)|]. intros _ _. apply bind_fuel; [apply ReadFull_fuel|]. by intros [? ?] _.
Qed.

Lemma ReadRequest_fuel s : ReadRequest s <> Err OutOfFuel.
Proof.
  apply bind_fuel; [apply readLine_fuel|]. intros [l r] _. destruct (Split " " l) as [|m [|u [|p [|? ?]]]]; try done.
  apply bind_fuel; [by destruct (url_Parse u)|]. intros v _. apply bind_fuel; [apply readHeader_loop_fuel; lia|]. intros [h t] _.
  apply bind_fuel; [apply body_window_fuel|done].
Qed.

Lemma ReadResponse_fuel s : ReadResponse s <> Err OutOfFuel.
Proof.
  apply bind_fuel; [apply readLine_fuel|]. intros [l r] _. destruct (SplitN 3 l " ") as [|p [|c more]]; try done.
  apply bind_fuel; [by destruct (Atoi c)|]. intros v _. apply bind_fuel; [apply readHeader_loop_fuel; lia|]. intros [h t] _.
  apply bind_fuel; [apply body_window_fuel|done].
Qed.

Lemma readStreamed_fuel s : readStreamed s <> Err OutOfFuel.
Proof.
  unfold readStreamed. case_bool_decide; [done|]. case_match.
  - apply bind_fuel; [apply frame_fuel|]. by intros [? ?] _.
  - case_match; [done|]. case_match; (apply bind_fuel; [apply ReadRequest_fuel || apply ReadResponse_fuel|]; by intros [[? ?] ?] _).
Qed.

(** Whatever a server sends, reading it ends: each read takes a byte at least,
    so a stream is read to its end, or to a read that fails. *)
Theorem streamed_total s : (readStreamed_all (S (String.length s)) s).2 <> OutOfFuel.
Proof.
  remember (S (String.length s)) as n eqn:Hn. assert (Hl : (String.length s < n)%nat) by lia. clear Hn. revert s Hl.
  induction n as [|n IH]; intros s Hl; [lia|]. cbn [readStreamed_all]. destruct (readStreamed s) as [[x r]|e] eqn:He.
  - apply readStreamed_shorter in He. specialize (IH r ltac:(lia)). by destruct (readStreamed_all n r).
  - cbn. intros ->. by apply (readStreamed_fuel s).
Qed.

End readback.

(** ** Session descriptions (sdp.go) *)

Record SDPMedia := mkMedia { MediaType : string; Control : string; RtpMap : string; Fmtp : string; Attributes : gmap string string }.

Definition set_attr (attr v : string) (m : SDPMedia) : SDPMedia :=
  mkMedia m.(MediaType)
    (if bool_decide (attr = "control") then v else m.(Control))
    (if bool_decide (attr = "rtpmap") then v else m.(RtpMap))
    (if bool_decide (attr = "fmtp") then v else m.(Fmtp))
    (<[attr := v]> m.(Attributes)).

(** An attribute line of a media; one without a colon has no value to set a
    field to. *)
Definition sdp_attr (val : string) (m : SDPMedia) : SDPMedia :=
  match SplitN 2 val ":" with
  | [attr; v] => set_attr attr v m
  | attr :: _ => mkMedia m.(MediaType) m.(Control) m.(RtpMap) m.(Fmtp) (<[attr := ""]> m.(Attributes))
  | [] => m
  end.

Definition sdp_line (medias : list SDPMedia) (line : string) : list SDPMedia :=
  let line := TrimSpace line in
  if bool_decide (line = "") then medias
  else match SplitN 2 line "=" with
  | [tag; val] =>
      if bool_decide (tag = "m") then medias ++ [mkMedia (hd "" (Split " " val)) "" "" "" ∅]
      else if bool_decide (tag = "a") then alter (sdp_attr val) (pred (length medias)) medias
      else medias
  | _ => medias
  end.

Definition ParseSDP (data : string) : list SDPMedia := foldl sdp_line [] (Split "010" data).

(** A description: its session lines, and its media, each with its attributes. *)
Record sdp_media := mkSDP { d_type : string; d_rest : string; d_attrs : list (string * option string) }.

Definition attr_text (a : string * option string) : string := "a=" +:+ a.1 +:+ match a.2 with Some v => ":" +:+ v | None => "" end.
Definition media_lines (m : sdp_media) : list string := ("m=" +:+ m.(d_type) +:+ " " +:+ m.(d_rest)) :: (attr_text <$> m.(d_attrs)).
Definition sdp_text (session : list string) (ms : list sdp_media) : string :=
  sapps ((fun l => l +:+ crlf) <$> (session ++ concat (media_lines <$> ms))).

(** The last value given for an attribute. *)
Definition last_attr (k : string) (attrs : list (string * option string)) : string :=
  default "" (last (omap (fun a => if bool_decide (a.1 = k) then a.2 else None) attrs)).
Definition media_of (m : sdp_media) : SDPMedia :=
  mkMedia m.(d_type) (last_attr "control" m.(d_attrs)) (last_attr "rtpmap" m.(d_attrs)) (last_attr "fmtp" m.(d_attrs))
    (foldl (fun t a => <[a.1 := default "" a.2]> t) ∅ m.(d_attrs)).

Definition sdp_line_ok (l : string) : Prop := clean "010" l /\ TrimSpace l = l.
Definition session_line_ok (l : string) : Prop := sdp_line_ok l /\ exists tag val, l = tag +:+ "=" +:+ val /\ clean "=" tag /\ tag <> "m" /\ tag <> "a".
Record sdp_media_ok (m : sdp_media) : Prop := {
  d_lines : Forall sdp_line_ok (media_lines m);
  d_word : clean " " m.(d_type);
  d_names : Forall (fun a => clean ":" a.1) m.(d_attrs)
}.

Lemma sdp_line_shape tag val medias :
  sdp_line_ok (tag +:+ "=" +:+ val) -> clean "=" tag ->
  sdp_line medias ((tag +:+ "=" +:+ val) +:+ cr) =
  if bool_decide (tag = "m") then medias ++ [mkMedia (hd "" (Split " " val)) "" "" "" ∅]
  else if bool_decide (tag = "a") then alter (sdp_attr val) (pred (length medias)) medias else medias.
Proof.
  intros [_ Ht] Hc. unfold sdp_line. set (l := tag +:+ "=" +:+ val) in *.
  assert (TrimSpace (l +:+ cr) = l) as ->.
  { assert (Hr : forall s, TrimRight (s +:+ cr) = TrimRight s).
    { induction s as [|a s IH]; [done|]. rewrite sapp_cons. cbn [TrimRight]. by rewrite IH. }
    assert (Hl : forall s, TrimRight (TrimLeft (s +:+ cr)) = TrimRight (TrimLeft s)).
    { induction s as [|a s IH]; [done|]. rewrite sapp_cons. cbn [TrimLeft]. destruct (is_space a); [done|]. rewrite <- sapp_cons. apply Hr. }
    unfold TrimSpace. rewrite Hl. apply Ht. }
  rewrite bool_decide_false by (unfold l; destruct tag; done). cbn [SplitN]. unfold l.
  change (tag +:+ "=" +:+ val) with (tag +:+ String "=" val). by rewrite Cut_char.
Qed.

Lemma attr_lines medias m attrs :
  Forall sdp_line_ok (attr_text <$> attrs) -> Forall (fun a => clean ":" a.1) attrs ->
  foldl sdp_line (medias ++ [m]) ((fun l => l +:+ cr) <$> (attr_text <$> attrs)) =
  medias ++ [mkMedia m.(MediaType)
    (default m.(Control) (last (omap (fun a => if bool_decide (a.1 = "control") then a.2 else None) attrs)))
    (default m.(RtpMap) (last (omap (fun a => if bool_decide (a.1 = "rtpmap") then a.2 else None) attrs)))
    (default m.(Fmtp) (last (omap (fun a => if bool_decide (a.1 = "fmtp") then a.2 else None) attrs)))
    (foldl (fun t a => <[a.1 := default "" a.2]> t) m.(Attributes) attrs)].
Proof.
  intros Hl Hn. revert m. induction attrs as [|[k v] attrs IH]; intros m; [by destruct m|]. cbn [fmap list_fmap] in *.
  apply Forall_cons in Hl as [Hk Hl], Hn as [Hkc Hn]. cbn [foldl fst snd] in *.
  change (attr_text (k, v)) with ("a" +:+ "=" +:+ (k +:+ match v with Some v => ":" +:+ v | None => "" end)) in *. rewrite sdp_line_shape by done.
  rewrite bool_decide_false, bool_decide_true by done. rewrite length_app. cbn [length]. rewrite Nat.add_1_r. cbn [pred].
  assert (alter (sdp_attr (k +:+ match v with Some v => ":" +:+ v | None => "" end)) (length medias) (medias ++ [m]) =
          medias ++ [match v with Some v => set_attr k v m | None => mkMedia m.(MediaType) m.(Control) m.(RtpMap) m.(Fmtp) (<[k := ""]> m.(Attributes)) end]) as ->.
  { replace (length medias) with (length medias + 0)%nat by lia. rewrite alter_app_r. f_equal. cbn. f_equal. unfold sdp_attr. cbn [SplitN].
    destruct v as [v|].
    - change (k +:+ ":" +:+ v) with (k +:+ String ":" v). by rewrite Cut_char.
    - rewrite sapp_nil_r. by rewrite Cut_char_clean. }
  rewrite IH by done. do 2 f_equal. destruct v as [v|]; cbn. 2: by repeat case_bool_decide.
  f_equal; case_bool_decide; try done. all: rewrite last_cons; by case_match.
Qed.

Lemma Split_lines l : Forall (clean "010") l -> Split "010" (sapps ((fun x => x +:+ crlf) <$> l)) = ((fun x => x +:+ cr) <$> l) ++ [""].
Proof.
  induction 1 as [|x l Hx Hl IH]; [done|]. cbn [fmap list_fmap sapps foldr]. fold (sapps ((fun x => x +:+ crlf) <$> l)).
  rewrite sapp_assoc. change (x +:+ crlf +:+ ?t) with (x +:+ cr +:+ String "010" t). rewrite <- sapp_assoc, Split_app, Split_clean.
  - by rewrite IH.
  - by apply clean_app.
Qed.

(** A session description is read back as it was written: each media with its
    type, and with the attributes of its own section alone, the last value of an
    attribute given twice. *)
Theorem sdp_read_back session ms :
  Forall session_line_ok session -> Forall sdp_media_ok ms -> ParseSDP (sdp_text session ms) = media_of <$> ms.
Proof.
  intros Hs Hms. unfold ParseSDP, sdp_text. rewrite Split_lines.
  - rewrite foldl_app. cbn [foldl]. change (sdp_line ?l "") with l. rewrite fmap_app, foldl_app.
    assert (foldl sdp_line [] ((fun x => x +:+ cr) <$> session) = []) as ->.
    { induction Hs as [|l session [Hl (tag & val & -> & Hc & H1 & H2)] Hs IH]; [done|]. cbn [fmap list_fmap foldl]. rewrite sdp_line_shape by done.
      by rewrite !bool_decide_false by done. }
    enough (forall acc, foldl sdp_line acc ((fun x => x +:+ cr) <$> concat (media_lines <$> ms)) = acc ++ (media_of <$> ms)) as He by apply He.
    induction Hms as [|m ms [Hl Hw Hn] Hms IH]; intros acc; [by rewrite app_nil_r|]. cbn [fmap list_fmap concat]. rewrite fmap_app, foldl_app.
    assert (foldl sdp_line acc ((fun x => x +:+ cr) <$> media_lines m) = acc ++ [media_of m]) as ->.
    { unfold media_lines in *. cbn [fmap list_fmap foldl]. apply Forall_cons in Hl as [Hm Hl].
      change ("m=" +:+ ?t) with ("m" +:+ "=" +:+ t) in *. rewrite sdp_line_shape by done. rewrite bool_decide_true by done.
      change (m.(d_type) +:+ " " +:+ ?t) with (m.(d_type) +:+ String " " t). rewrite Split_app, Split_clean by done.
      fold (fmap (M:=list) attr_text m.(d_attrs)). fold (fmap (M:=list) (fun x => x +:+ cr) (attr_text <$> m.(d_attrs))).
      rewrite attr_lines by done. done. }
    rewrite IH. by rewrite <- app_assoc.
  - apply Forall_app. split.
    + eapply Forall_impl; [exact Hs|]. by intros l [[? _] _].
    + apply Forall_concat, Forall_fmap. eapply Forall_impl; [exact Hms|]. intros m [Hl _ _]. eapply Forall_impl; [exact Hl|]. by intros l [? _].
Qed.

(** ** Authentication (auth.go) *)

Record Credentials := mkCred { Username : string; Password : string }.
Definition HasCredentials (c : Credentials) : bool := negb (bool_decide (c.(Username) = "")) && negb (bool_decide (c.(Password) = "")).

Record AuthChallenge := mkChallenge { Scheme : string; Params : gmap string string }.

(** The scan of [parseAuthParams]: the key and the value read so far. *)
Record scan := mkScan { s_key : string; s_val : string; inQuotes : bool; inValue : bool; params : gmap string string }.

Definition flush (s : scan) : scan :=
  let k := TrimSpace s.(s_key) in
  mkScan "" "" s.(inQuotes) false
    (if bool_decide (k = "") then s.(params) else <[ToLower k := TrimSpace s.(s_val)]> s.(params)).

Definition quote : ascii := "034".

Definition scan_char (s : scan) (c : ascii) : scan :=
  if bool_decide (c = "="%char) then mkScan s.(s_key) s.(s_val) s.(inQuotes) true s.(params)
  else if bool_decide (c = quote) then mkScan s.(s_key) s.(s_val) (negb s.(inQuotes)) s.(inValue) s.(params)
  else if bool_decide (c = ","%char) && negb s.(inQuotes) then flush s
  else if s.(inValue) then mkScan s.(s_key) (s.(s_val) +:+ String c "") s.(inQuotes) s.(inValue) s.(params)
  else mkScan (s.(s_key) +:+ String c "") s.(s_val) s.(inQuotes) s.(inValue) s.(params).

Fixpoint scan_all (s : scan) (t : string) : scan := match t with EmptyString => s | String c t => scan_all (scan_char s c) t end.

Definition parseAuthParams (s : string) : gmap string string := params (flush (scan_all (mkScan "" "" false false ∅) s)).

(** The scheme and the rest, cut at the first space or tab. *)
Fixpoint cut_blank (s : string) : option (string * string) :=
  match s with
  | EmptyString => None
  | String a s' =>
      if bool_decide (a = " "%char) || bool_decide (a = "009"%char) then Some ("", s') else '(x, y) ← cut_blank s'; Some (String a x, y)
  end.

Definition ParseAuthChallenge (h : string) : option AuthChallenge :=
  let h := TrimSpace h in
  if bool_decide (h = "") then None
  else
    let '(scheme, rest) := match cut_blank h with Some (x, y) => (ToLower x, y) | None => (ToLower h, "") end in
    if bool_decide (scheme = "basic") || bool_decide (scheme = "digest") then Some (mkChallenge scheme (parseAuthParams rest)) else None.

(** [selectQop]: the loop ends with the commas. *)
Fixpoint select_qop (options : list string) : string :=
  match options with [] => "" | o :: options => if bool_decide (TrimSpace o = "auth") then "auth" else select_qop options end.
Definition selectQop (advertised : string) : string := if bool_decide (advertised = "") then "" else select_qop (Split "," advertised).

Inductive digest_error := UnsupportedScheme (s : string) | MissingRealmOrNonce | UnsupportedAlgorithm (s : string).

Definition ToUpper (s : string) : string :=
  (fix go s := match s with EmptyString => EmptyString | String a s => String (upper a) (go s) end) s.

Definition quoted (k v : string) : string := k +:+ "=" +:+ String quote (v +:+ String quote "").
Definition bare (k v : string) : string := k +:+ "=" +:+ v.

Definition comma_join (l : list string) : string :=
  match l with [] => "" | x :: l => foldl (fun acc y => acc +:+ ", " +:+ y) x l end.

Section digest.
(** MD5 in hexadecimal, and the client nonce drawn. *)
Context (md5hex : string -> string) (cnonce : string).

Definition digest_param (p : gmap string string) (k : string) : string := default "" (p !! k).
Definition colons (l : list string) : string := Join ":" l.

Definition digest_response (method uri : string) (cred : Credentials) (realm nonce qop : string) : string :=
  let ha1 := md5hex (colons [cred.(Username); realm; cred.(Password)]) in
  let ha2 := md5hex (colons [method; uri]) in
  if bool_decide (qop = "") then md5hex (colons [ha1; nonce; ha2])
  else md5hex (colons [ha1; nonce; "00000001"; cnonce; qop; ha2]).

Definition digestHeader (method uri : string) (cred : Credentials) (p : gmap string string) : result digest_error string :=
  let realm := digest_param p "realm" in
  let nonce := digest_param p "nonce" in
  guard_err (negb (bool_decide (realm = "") || bool_decide (nonce = ""))) MissingRealmOrNonce;;
  let algo := ToUpper (digest_param p "algorithm") in
  let algo := if bool_decide (algo = "") then "MD5" else algo in
  guard_err (bool_decide (algo = "MD5")) (UnsupportedAlgorithm algo);;
  let qop := selectQop (digest_param p "qop") in
  let response := digest_response method uri cred realm nonce qop in
  let opaque := digest_param p "opaque" in
  Ok ("Digest " +:+ comma_join (
    [quoted "username" cred.(Username); quoted "realm" realm; quoted "nonce" nonce; quoted "uri" uri] ++
    (if bool_decide (qop = "") then [] else [bare "qop" qop; bare "nc" "00000001"; quoted "cnonce" cnonce]) ++
    [quoted "response" response; bare "algorithm" algo] ++
    (if bool_decide (opaque = "") then [] else [quoted "opaque" opaque]))).

(** [base64.StdEncoding.EncodeToString]: the other two symbols, padded. *)
Definition std_sym (a : ascii) : ascii := if bool_decide (a = "-"%char) then "+"%char else if bool_decide (a = "_"%char) then "/"%char else a.
Definition std_encode (s : string) : string :=
  let e := std_sym <$> encode_bytes (String.list_ascii_of_string s) in
  String.string_of_list_ascii (e ++ replicate ((4 - length e mod 4) mod 4) "="%char).

Definition basicHeader (cred : Credentials) : string := std_encode (cred.(Username) +:+ ":" +:+ cred.(Password)).

Definition BuildAuthorization (method uri : string) (cred : Credentials) (ch : AuthChallenge) : result digest_error string :=
  if bool_decide (ch.(Scheme) = "basic") then Ok ("Basic " +:+ basicHeader cred)
  else if bool_decide (ch.(Scheme) = "digest") then digestHeader method uri cred ch.(Params)
  else Err (UnsupportedScheme ch.(Scheme)).

End digest.

(** *** What is written is read back *)

Record auth_param := mkParam { p_quoted : bool; p_key : string; p_val : string }.
Definition render (p : auth_param) : string := (if p.(p_quoted) then quoted else bare) p.(p_key) p.(p_val).

Definition plain_char (q : bool) (c : ascii) : bool :=
  negb (bool_decide (c = "="%char)) && negb (bool_decide (c = quote)) && (q || negb (bool_decide (c = ","%char))).
Definition plain (q : bool) (s : string) : Prop := ContainsFunc (fun c => negb (plain_char q c)) s = false.

Record param_ok (p : auth_param) : Prop := {
  pk_key : p.(p_key) <> "" /\ no_space p.(p_key) /\ plain false p.(p_key) /\ ToLower p.(p_key) = p.(p_key);
  pk_val : plain p.(p_quoted) p.(p_val) /\ TrimSpace p.(p_val) = p.(p_val)
}.

Lemma plain_char_facts q c :
  negb (plain_char q c) = false -> c <> "="%char /\ c <> quote /\ bool_decide (c = ","%char) && negb q = false.
Proof.
  unfold plain_char. intros Hc. bool_prop. split; [done|]. split; [done|]. destruct q; [apply andb_false_r|]. cbn in *. bool_prop. by rewrite bool_decide_false.
Qed.

Lemma scan_key k s t :
  plain false k -> s.(inValue) = false -> s.(inQuotes) = false ->
  scan_all s (k +:+ t) = scan_all (mkScan (s.(s_key) +:+ k) s.(s_val) false false s.(params)) t.
Proof.
  unfold plain. revert s. induction k as [|c k IH]; intros s Hk Hv Hq.
  - rewrite sapp_nil_l, sapp_nil_r. destruct s. cbn in *. by subst.
  - cbn in Hk. apply orb_false_iff in Hk as [Hc Hk]. apply plain_char_facts in Hc as (H1 & H2 & H3). rewrite sapp_cons. cbn [scan_all].
    unfold scan_char at 1. rewrite Hq, H3, Hv, !bool_decide_false by done. rewrite IH by done. cbn [s_key s_val params].
    by rewrite sapp_assoc.
Qed.

Lemma scan_val v s t :
  plain s.(inQuotes) v -> s.(inValue) = true ->
  scan_all s (v +:+ t) = scan_all (mkScan s.(s_key) (s.(s_val) +:+ v) s.(inQuotes) true s.(params)) t.
Proof.
  unfold plain. revert s. induction v as [|c v IH]; intros s Hk Hv.
  - rewrite sapp_nil_l, sapp_nil_r. destruct s. cbn in *. by subst.
  - cbn in Hk. apply orb_false_iff in Hk as [Hc Hk]. apply plain_char_facts in Hc as (H1 & H2 & H3). rewrite sapp_cons. cbn [scan_all].
    unfold scan_char at 1. rewrite H3, Hv, !bool_decide_false by done.
    rewrite IH by done. cbn [s_key s_val params inQuotes]. by rewrite sapp_assoc.
Qed.

Lemma quoted_app k v t : quoted k v +:+ t = k +:+ String "=" (String quote (v +:+ String quote t)).
Proof.
  unfold quoted. rewrite sapp_assoc. f_equal. change ("=" +:+ ?x) with (String "=" x). rewrite !sapp_cons. do 2 f_equal. by rewrite sapp_assoc.
Qed.

Lemma bare_app k v t : bare k v +:+ t = k +:+ String "=" (v +:+ t).
Proof. unfold bare. by rewrite sapp_assoc. Qed.

(** A parameter is scanned into the key and the value of the state. *)
Lemma scan_param p pre P t :
  param_ok p -> scan_all (mkScan pre "" false false P) (render p +:+ t) = scan_all (mkScan (pre +:+ p.(p_key)) p.(p_val) false true P) t.
Proof.
  intros [(_ & _ & Hk & _) [Hv _]]. unfold render. destruct (p_quoted p) eqn:Hq.
  - rewrite quoted_app, scan_key by done. cbn [inQuotes s_key s_val params scan_all]. unfold scan_char at 1 2.
    change (bool_decide ("="%char = "="%char)) with true. change (bool_decide (quote = "="%char)) with false. change (bool_decide (quote = quote)) with true.
    cbn [inValue inQuotes s_key s_val params negb]. rewrite scan_val by done. cbn [s_key s_val inQuotes params scan_all]. unfold scan_char at 1.
    change (bool_decide (quote = "="%char)) with false. change (bool_decide (quote = quote)) with true. done.
  - rewrite bare_app, scan_key by done. cbn [inQuotes s_key s_val params scan_all].
    unfold scan_char at 1. change (bool_decide ("="%char = "="%char)) with true. cbn [s_key s_val inQuotes params]. by rewrite scan_val.
Qed.

Lemma flush_param p pre P :
  param_ok p -> (pre = "" \/ pre = " ") ->
  flush (mkScan (pre +:+ p.(p_key)) p.(p_val) false true P) = mkScan "" "" false false (<[p.(p_key) := p.(p_val)]> P).
Proof.
  intros [(Hne & Hs & _ & Hl) [_ Hv]] Hpre. unfold flush. cbn [s_key s_val inQuotes params].
  assert (TrimSpace (pre +:+ p.(p_key)) = p.(p_key)) as ->.
  { destruct Hpre as [-> | ->]; [|rewrite sapp_cons, TrimSpace_left]; rewrite sapp_nil_l; by apply TrimSpace_no_space. }
  by rewrite bool_decide_false, Hl, Hv.
Qed.

Lemma comma_join_cons x l : comma_join (x :: l) = x +:+ sapps ((fun y => ", " +:+ y) <$> l).
Proof.
  cbn. revert x. induction l as [|y l IH]; intros x; cbn; [by rewrite sapp_nil_r|]. rewrite IH, !sapp_assoc. done.
Qed.

(** The parameters of a challenge, or of an answer to one, are read as they were
    written, quoted values with their commas. *)
Theorem params_read_back l :
  Forall param_ok l ->
  parseAuthParams (comma_join (render <$> l)) = foldl (fun P p => <[p.(p_key) := p.(p_val)]> P) (∅ : gmap string string) l.
Proof.
  intros Hl. unfold parseAuthParams. destruct l as [|p l]; [done|]. cbn [fmap list_fmap]. rewrite comma_join_cons. apply Forall_cons in Hl as [Hp Hl].
  rewrite scan_param by done. cbn [foldl].
  enough (forall p pre P, param_ok p -> (pre = "" \/ pre = " ") ->
    params (flush (scan_all (mkScan (pre +:+ p.(p_key)) p.(p_val) false true P) (sapps ((fun y => ", " +:+ y) <$> (render <$> l))))) =
    foldl (fun P p => <[p.(p_key) := p.(p_val)]> P) (<[p.(p_key) := p.(p_val)]> P) l) as He by (apply He; [done|by left]).
  clear p Hp. induction Hl as [|q l Hq Hl IH]; intros p pre P Hp Hpre; cbn [fmap list_fmap sapps foldr foldl].
  - cbn [scan_all]. by rewrite flush_param.
  - fold (sapps ((fun y => ", " +:+ y) <$> (render <$> l))). rewrite sapp_assoc, sapp_cons. cbn [scan_all]. unfold scan_char at 1.
    change (bool_decide (","%char = "="%char)) with false. change (bool_decide (","%char = quote)) with false.
    change (bool_decide (","%char = ","%char)) with true. cbn [inQuotes negb andb]. rewrite flush_param by done.
    rewrite sapp_cons, sapp_nil_l. cbn [scan_all]. unfold scan_char at 1. cbn [inValue inQuotes s_key s_val params].
    change (bool_decide (" "%char = "="%char)) with false. change (bool_decide (" "%char = quote)) with false.
    change (bool_decide (" "%char = ","%char)) with false. cbn [andb]. rewrite scan_param by done. apply IH; [done|by right].
Qed.

(** A value that survives the quotes. *)
Definition quotable (v : string) : Prop := plain true v /\ TrimSpace v = v.

Definition solid_end (s : string) : Prop := exists t c, s = t +:+ String c "" /\ is_space c = false.

Lemma TrimRight_solid t c : is_space c = false -> TrimRight (t +:+ String c "") = t +:+ String c "".
Proof.
  intros Hc. induction t as [|a t IH]; [rewrite sapp_nil_l; cbn [TrimRight]; by rewrite Hc|]. rewrite sapp_cons. cbn [TrimRight]. rewrite IH. by destruct t.
Qed.

Lemma TrimSpace_solid a s : is_space a = false -> solid_end (String a s) -> TrimSpace (String a s) = String a s.
Proof.
  intros Ha (t & c & Hs & Hc). unfold TrimSpace. cbn [TrimLeft]. rewrite Ha, Hs. by apply TrimRight_solid.
Qed.

Lemma solid_app s t : solid_end t -> solid_end (s +:+ t).
Proof. intros (u & c & -> & Hc). exists (s +:+ u), c. by rewrite sapp_assoc. Qed.

Lemma comma_join_snoc l x : exists s, comma_join (l ++ [x]) = s +:+ x.
Proof.
  destruct l as [|y l]; [by exists ""|]. cbn [app comma_join]. rewrite foldl_app. cbn [foldl]. eexists. by rewrite <- sapp_assoc.
Qed.

Lemma render_solid p : p.(p_quoted) = true -> solid_end (render p).
Proof.
  unfold render. intros ->. unfold quoted. do 2 apply solid_app. exists (String quote p.(p_val)), quote. by rewrite sapp_cons.
Qed.

Lemma ParseAuthChallenge_digest ps : solid_end ps -> ParseAuthChallenge ("Digest " +:+ ps) = Some (mkChallenge "digest" (parseAuthParams ps)).
Proof.
  intros Hps. unfold ParseAuthChallenge. assert (TrimSpace ("Digest " +:+ ps) = "Digest " +:+ ps) as ->.
  { change ("Digest " +:+ ps) with (String "D" ("igest " +:+ ps)). apply TrimSpace_solid; [done|]. by apply (solid_app "Digest "). }
  rewrite bool_decide_false by done. reflexivity.
Qed.

Lemma last_of_three {A} (l m : list A) x y : l ++ m ++ [x; y] = (l ++ m ++ [x]) ++ [y].
Proof. by rewrite <- !app_assoc. Qed.

Lemma last_of_four {A} (l m n : list A) x : l ++ m ++ n ++ [x] = (l ++ m ++ n) ++ [x].
Proof. by rewrite <- !app_assoc. Qed.

Section answers.
Context (md5hex : string -> string) (cnonce : string).

(** The parameters of the answer. *)
Definition answer_params (method uri : string) (cred : Credentials) (realm nonce qop opaque : string) : list auth_param :=
  [mkParam true "username" cred.(Username); mkParam true "realm" realm; mkParam true "nonce" nonce; mkParam true "uri" uri] ++
  (if bool_decide (qop = "") then [] else [mkParam false "qop" qop; mkParam false "nc" "00000001"; mkParam true "cnonce" cnonce]) ++
  [mkParam true "response" (digest_response md5hex cnonce method uri cred realm nonce qop); mkParam false "algorithm" "MD5"] ++
  (if bool_decide (opaque = "") then [] else [mkParam true "opaque" opaque]).

Lemma digestHeader_params method uri cred p h :
  digestHeader md5hex cnonce method uri cred p = Ok h ->
  h = "Digest " +:+ comma_join (render <$> answer_params method uri cred (digest_param p "realm") (digest_param p "nonce") (selectQop (digest_param p "qop")) (digest_param p "opaque")).
Proof.
  unfold digestHeader. intros H. inv_ok. bool_prop. subst h. unfold answer_params.
  repeat match goal with H : guard_err _ _ = _ |- _ => apply guard_err_Ok in H end. bool_prop.
  match goal with H : (if _ then _ else _) = "MD5" |- _ => rewrite H end.
  f_equal. f_equal. by repeat case_bool_decide.
Qed.

Lemma qop_cases l : select_qop l = "" \/ select_qop l = "auth".
Proof. induction l as [|o l IH]; [by left|]. cbn. case_bool_decide; [by right|done]. Qed.

Lemma selectQop_cases s : selectQop s = "" \/ selectQop s = "auth".
Proof. unfold selectQop. case_bool_decide; [by left|apply qop_cases]. Qed.

Lemma answer_params_ok method uri cred realm nonce qop opaque :
  Forall quotable [cred.(Username); realm; nonce; uri; cnonce; digest_response md5hex cnonce method uri cred realm nonce qop; opaque] ->
  qop = "" \/ qop = "auth" -> Forall param_ok (answer_params method uri cred realm nonce qop opaque).
Proof.
  intros Hq Hqop. assert (Hmk : forall q k v, (q = true \/ plain false v) -> quotable v -> k <> "" -> no_space k -> plain false k -> ToLower k = k -> param_ok (mkParam q k v)).
  { intros q k v Hpl [Hv Ht] Hk1 Hk2 Hk3 Hk4. split; [done|]. split; [|done]. cbn. destruct Hpl as [-> |]; [done|]. by destruct q. }
  repeat (apply Forall_cons in Hq as [? Hq]). unfold answer_params. rewrite !Forall_app.
  split; [|split; [|split]]; [|case_bool_decide| |case_bool_decide]; repeat (apply Forall_cons; split); try apply Forall_nil_2; apply Hmk; try done; try (by left); try (right; by destruct Hqop as [-> | ->]); by destruct Hqop as [-> | ->].
Qed.

(** The answer to a digest challenge is read back as it was meant: an answer
    under the same realm and nonce, for the request's URI, whose response is the
    digest RFC 2617 asks for (RFC 2069's without a quality of protection). *)
Theorem digest_answer_read method uri cred p h :
  digestHeader md5hex cnonce method uri cred p = Ok h ->
  let qop := selectQop (digest_param p "qop") in
  let response := digest_response md5hex cnonce method uri cred (digest_param p "realm") (digest_param p "nonce") qop in
  Forall quotable [cred.(Username); digest_param p "realm"; digest_param p "nonce"; uri; cnonce; response; digest_param p "opaque"] ->
  exists P, ParseAuthChallenge h = Some (mkChallenge "digest" P) /\
    P !! "username" = Some cred.(Username) /\ P !! "realm" = Some (digest_param p "realm") /\ P !! "nonce" = Some (digest_param p "nonce") /\
    P !! "uri" = Some uri /\ P !! "response" = Some response /\
    P !! "qop" = (if bool_decide (qop = "") then None else Some "auth") /\ P !! "cnonce" = (if bool_decide (qop = "") then None else Some cnonce) /\
    P !! "opaque" = (if bool_decide (digest_param p "opaque" = "") then None else Some (digest_param p "opaque")).
Proof.
  intros Hh qop response Hq. apply digestHeader_params in Hh. fold qop in Hh.
  pose proof (answer_params_ok method uri cred (digest_param p "realm") (digest_param p "nonce") qop (digest_param p "opaque") Hq (selectQop_cases _)) as Hok.
  pose proof (params_read_back _ Hok) as Hread. set (ps := answer_params _ _ _ _ _ _ _) in *.
  assert (Hsolid : exists x ps', ps = ps' ++ [x] /\ solid_end (render x)).
  { unfold ps, answer_params. destruct (decide (digest_param p "opaque" = "")) as [He|He].
    - rewrite (bool_decide_true (digest_param p "opaque" = "")), app_nil_r by done. eexists _, _. split; [apply last_of_three|]. by exists "algorithm=MD", "5"%char.
    - rewrite (bool_decide_false (digest_param p "opaque" = "")) by done. eexists _, _. split; [apply last_of_four|by apply render_solid]. }
  destruct Hsolid as (x & ps' & Hps & Hx). exists (foldl (fun P q => <[q.(p_key) := q.(p_val)]> P) ∅ ps). split.
  - rewrite <- Hread, Hh. apply ParseAuthChallenge_digest. rewrite Hps, fmap_app. destruct (comma_join_snoc (render <$> ps') (render x)) as [s Hs].
    cbn [fmap list_fmap]. rewrite Hs. by apply solid_app.
  - clear Hread Hok Hps Hx Hh. unfold ps, answer_params. destruct (selectQop_cases (digest_param p "qop")) as [Hqq|Hqq]; fold qop in Hqq; rewrite Hqq; cbn [bool_decide].
    all: rewrite ?(bool_decide_true ("" = "")), ?(bool_decide_false ("auth" = "")) by done; case_bool_decide; cbn [app foldl p_key p_val];
      split_and!; repeat first [rewrite lookup_insert_eq | rewrite lookup_insert_ne by done | rewrite lookup_empty]; try done; unfold response; by rewrite Hqq.
Qed.

End answers.

(** ** Interleaved channels *)

(** The digits at the front. *)
Fixpoint span_digits (s : string) : string * string :=
  match s with
  | String a s' => if is_digit a then let '(d, r) := span_digits s' in (String a d, r) else ("", s)
  | EmptyString => ("", "")
  end.

(** [%d] of [fmt.Sscanf], in text without line breaks: spaces, a sign, digits,
    within an int64. *)
Definition scan_int (s : string) : option (Z * string) :=
  let s := TrimLeft s in
  let '(sign, s) := match s with String "-" t => (-1, t) | String "+" t => (1, t) | _ => (1, s) end in
  let '(d, r) := span_digits s in
  v ← digits1 d;
  let z := sign * v in
  if (- 2 ^ 63 <=? z) && (z <? 2 ^ 63) then Some (z, r) else None.

(** ["%d-%d"]. *)
Definition scan_pair (s : string) : option (Z * Z) :=
  '(a, r) ← scan_int s;
  match r with String "-" r => '(b, _) ← scan_int r; Some (a, b) | _ => None end.

(** The client's [parseInterleaved]: the conversion to uint8 wraps. *)
Definition parseInterleaved (transport : string) : option (Z * Z) :=
  '(_, rest) ← Cut transport "interleaved=";
  match scan_pair rest with
  | Some (a, b) => Some (wrapu 8 a, wrapu 8 b)
  | None => '(a, _) ← scan_int rest; Some (wrapu 8 a, wrapu 8 a)
  end.

Definition validChannel (n : Z) : bool := (0 <=? n) && (n <=? 255).

(** The ingest's [parseInterleavedChannels]. *)
Definition parseInterleavedChannels (transport : string) : option (Z * Z) :=
  '(_, rest) ← Cut transport "interleaved=";
  match scan_pair rest with
  | Some (a, b) => if validChannel a && validChannel b then Some (a, b) else None
  | None => '(a, _) ← scan_int rest; if validChannel a then Some (a, a) else None
  end.

Lemma parseInterleavedChannels_range t a b : parseInterleavedChannels t = Some (a, b) -> byte_ok a /\ byte_ok b.
Proof.
  unfold parseInterleavedChannels, validChannel, byte_ok. destruct (Cut t _) as [[? rest]|]; cbn; [|done].
  destruct (scan_pair rest) as [[x y]|].
  - case_match eqn:H; [|done]. intros [= <- <-]. bool_prop. lia.
  - destruct (scan_int rest) as [[x ?]|]; cbn; [|done]. case_match eqn:H; [|done]. intros [= <- <-]. bool_prop. lia.
Qed.

(** The two readers agree on the channels the ingest accepts; what it refuses,
    the client wraps. *)
Theorem channel_readers_agree t a b : parseInterleavedChannels t = Some (a, b) -> parseInterleaved t = Some (a, b).
Proof.
  intros H. destruct (parseInterleavedChannels_range _ _ _ H) as [Ha Hb]. unfold byte_ok in *. revert H.
  unfold parseInterleavedChannels, parseInterleaved. destruct (Cut t _) as [[? rest]|]; cbn; [|done].
  destruct (scan_pair rest) as [[x y]|].
  - case_match; [|done]. intros [= -> ->]. by rewrite !wrapu_id.
  - destruct (scan_int rest) as [[x ?]|]; cbn; [|done]. case_match; [|done]. intros [= -> <-]. by rewrite !wrapu_id.
Qed.

(** ** Examples *)

Lemma interleaved_ex :
  parseInterleavedChannels "RTP/AVP/TCP;unicast;interleaved=0-1;mode=record" = Some (0, 1) /\
  parseInterleavedChannels "interleaved=2;x" = Some (2, 2) /\ parseInterleavedChannels "interleaved=256-257" = None /\
  parseInterleaved "interleaved=256-257" = Some (0, 1) /\ parseInterleavedChannels "RTP/AVP;unicast" = None.
Proof. vm_compute. done. Qed.

(** An equals sign inside a quoted value is dropped: a nonce in padded base64 is
    answered without its padding. *)
Theorem padded_nonce_lost :
  (fun c => c.(Params) !! "nonce") <$> ParseAuthChallenge ("Digest realm=" +:+ String quote ("cam" +:+ String quote (", nonce=" +:+ String quote ("c2VjcmV0==" +:+ String quote "")))) =
  Some (Some "c2VjcmV0").
Proof. vm_compute. done. Qed.

(** URLs without escapes, as their parts. *)
Record parts := mkParts { pu_scheme : string; pu_user : option (string * string); pu_host : string; pu_path : string; pu_query : string }.

Definition parts_of (s : string) : option parts :=
  if ContainsFunc (fun a => bool_decide (a = "%"%char) || is_space a) s then None
  else
    let '(s, query) := default (s, "") (Cut s "?") in
    match Cut s "://" with
    | None => Some (mkParts "" None "" s query)
    | Some (scheme, rest) =>
        let '(authority, path) := match Cut rest "/" with Some (a, p) => (a, "/" +:+ p) | None => (rest, "") end in
        let '(user, host) := match Cut authority "@" with Some (u, h) => (Some (default (u, "") (Cut u ":")), h) | None => (None, authority) end in
        Some (mkParts scheme user host path query)
    end.

Definition parts_text (u : parts) : string :=
  (if bool_decide (u.(pu_scheme) = "") then "" else u.(pu_scheme) +:+ "://") +:+
  match u.(pu_user) with Some (n, p) => n +:+ ":" +:+ p +:+ "@" | None => "" end +:+ u.(pu_host) +:+ u.(pu_path) +:+
  (if bool_decide (u.(pu_query) = "") then "" else "?" +:+ u.(pu_query)).

#[export] Instance plain_urls : URLs := {|
  url := parts;
  url_Parse := parts_of;
  url_String := parts_text;
  url_Scheme := pu_scheme;
  url_Host := pu_host;
  url_Path := pu_path;
  url_Query_Get := fun k u => match ParseQuery u.(pu_query) with Some m => Get k m | None => "" end;
  url_User := pu_user;
  url_NoUser := fun u => mkParts u.(pu_scheme) None u.(pu_host) u.(pu_path) u.(pu_query);
  url_AddSlash := fun u => mkParts u.(pu_scheme) u.(pu_user) u.(pu_host) (u.(pu_path) +:+ "/") u.(pu_query);
  url_Resolve := fun b r => mkParts b.(pu_scheme) b.(pu_user) b.(pu_host) (if HasPrefix r.(pu_path) "/" then r.(pu_path) else b.(pu_path) +:+ r.(pu_path)) r.(pu_query)
|}.

Definition ex_answer : Response := mkResponse "RTSP/1.0" 200 "200 OK" {["Cseq" := ["4"]; "Content-Length" := ["3"]]}.
Definition ex_poll : Request := mkRequest (U := plain_urls) "GET_PARAMETER" (mkParts "rtsp" None "cam" "/live" "") "RTSP/1.0" {["Cseq" := ["1"]]}.
Definition ex_frame : InterleavedFrame := mkFrame 0 [128; 96; 0; 1; 36; 13; 10].

Ltac header_ex :=
  unfold header_ok; repeat (apply map_Forall_insert_2; [split; [vm_compute; done|vm_compute; done|done|repeat constructor; vm_compute; done]|]);
  try apply map_Forall_empty; try (apply map_Forall_singleton; split; [vm_compute; done|vm_compute; done|done|repeat constructor; vm_compute; done]).

Lemma streamed_in_sync_witness :
  readStreamed_all 4 (sapps (message_text <$> [MFrame ex_frame; MRequest ex_poll None; MResponse ex_answer (Some "$a:")])) =
  ([SFrame ex_frame; SDropped; SResponse ex_answer], EOF).
Proof.
  apply (streamed_in_sync [MFrame ex_frame; MRequest ex_poll None; MResponse ex_answer (Some "$a:")]).
  apply Forall_cons; split; [|apply Forall_cons; split; [|apply Forall_cons; split; [|apply Forall_nil_2]]].
  - split; [unfold byte_ok; cbn; lia|repeat (apply Forall_cons; split; [unfold byte_ok; lia|]); apply Forall_nil_2|cbn; lia].
  - split; [done..| |done]. header_ex.
  - split; [done|cbn; lia|done| |done]. header_ex.
Defined.
