(* ===== verification/Frames.v ===== *)
(** * Frames: QUIC varints, group payloads and media frames

    The frames of a group as the HLS egress stores them
    (src/internal/hls/frame.go: [encodeFrames], [allFrames] and their helpers),
    the MediaFrame envelope of the ingest (src/internal/ingest/media_frame.go)
    and its reader (src/internal/integration/media.go), which share the QUIC
    variable-length integers of RFC 9000, section 16.

    A function that writes into a slice returns the bytes it leaves there; an
    index or a slice out of range is [Panic]. *)
From S2P Require Import Prelude GoBytes.

Open Scope Z_scope.

(** ** QUIC variable-length integers *)

Definition maxVarint : Z := 2 ^ 62 - 1.

Definition appendVarint (b : bytes) (v : Z) : bytes :=
  let at_ k := byte (Z.shiftr v k) in
  if v <? Z.shiftl 1 6 then b ++ [byte v]
  else if v <? Z.shiftl 1 14 then b ++ [Z.lor 64 (at_ 8); byte v]
  else if v <? Z.shiftl 1 30 then b ++ [Z.lor 128 (at_ 24); at_ 16; at_ 8; byte v]
  else b ++ [Z.lor 192 (at_ 56); at_ 48; at_ 40; at_ 32; at_ 24; at_ 16; at_ 8; byte v].

(** [readVarint]: the value and the bytes it took, 0 when the slice is short. *)
Definition readVarint (b : bytes) : Z * Z :=
  match b with
  | [] => (0, 0)
  | b0 :: _ =>
      let n := Z.shiftl 1 (Z.shiftr b0 6) in
      if Z.of_nat (length b) <? n then (0, 0)
      else (foldl (fun v c => Z.lor (wrapu 64 (Z.shiftl v 8)) c) (Z.land b0 63) (drop 1 (take (Z.to_nat n) b)), n)
  end.

(** The ingest's encoder. *)
Definition quicVarintLen (v : Z) : Z :=
  if v <=? 63 then 1 else if v <=? 16383 then 2 else if v <=? 1073741823 then 4 else 8.

Definition putQuicVarint (v : Z) : bytes :=
  if v <=? 63 then [byte v]
  else if v <=? 16383 then be 2 (Z.lor (wrapu 16 v) 0x4000)
  else if v <=? 1073741823 then be 4 (Z.lor (wrapu 32 v) 0x80000000)
  else be 8 (Z.lor v 0xC000000000000000).

(** A varint: a first byte whose two top bits say how many bytes follow. *)
Lemma first_byte k x : 0 <= k < 4 -> 0 <= x < 64 ->
  Z.lor (64 * k) x = 64 * k + x /\ Z.shiftr (64 * k + x) 6 = k /\ Z.land (64 * k + x) 63 = x.
Proof.
  intros Hk Hx. rewrite Z.shiftr_div_pow2 by lia. change 63 with (Z.ones 6). rewrite Z.land_ones by lia.
  change (2 ^ 6) with 64. split; [|split; Z.div_mod_to_equations; lia].
  rewrite (Z.mul_comm 64 k). change 64 with (2 ^ 6) at 1. rewrite <- Z.shiftl_mul_pow2, lor_shiftl by lia. lia.
Qed.

(** Reading the bytes after the first is reading a big-endian number. *)
Lemma read_tail l v : bytes_ok l -> 0 <= v -> (v + 1) * 256 ^ Z.of_nat (length l) <= 2 ^ 64 ->
  foldl (fun v c => Z.lor (wrapu 64 (Z.shiftl v 8)) c) v l = v * 256 ^ Z.of_nat (length l) + of_be l.
Proof.
  intros Hl. revert v. induction Hl as [|c l Hc Hl IH]; intros v Hv Hb; [cbn; lia|].
  cbn [foldl length of_be] in *. rewrite Nat2Z.inj_succ, Z.pow_succ_r in * by lia.
  assert (Hp : 0 < 256 ^ Z.of_nat (length l)) by (apply Z.pow_pos_nonneg; lia). unfold byte_ok in Hc.
  set (P := 256 ^ Z.of_nat (length l)) in *. assert (Hv1 : (v + 1) * 256 <= (v + 1) * 256 * P) by nia.
  assert (Hs : Z.shiftl v 8 = v * 256) by (by rewrite Z.shiftl_mul_pow2). rewrite wrapu_id by (unfold in_u; rewrite Hs; lia).
  rewrite lor_shiftl by lia. change (2 ^ 8) with 256. assert ((v * 256 + c + 1) * P <= (v + 1) * (256 * P)) by nia.
  rewrite IH by nia. ring.
Qed.

(** What a varint of [1 + length l] bytes is read as. *)
Lemma readVarint_bytes k x l rest :
  0 <= k < 4 -> 0 <= x < 64 -> bytes_ok l -> Z.of_nat (length l) = 2 ^ k - 1 ->
  readVarint ((64 * k + x) :: l ++ rest) = (x * 256 ^ Z.of_nat (length l) + of_be l, Z.of_nat (S (length l))).
Proof.
  intros Hk Hx Hl Hn. destruct (first_byte k x Hk Hx) as (_ & Hs & Ha). unfold readVarint. rewrite Hs, Ha.
  rewrite Z.shiftl_mul_pow2, Z.mul_1_l by lia. replace (2 ^ k) with (Z.of_nat (S (length l))) by lia.
  destruct (Z.ltb_spec (Z.of_nat (length ((64 * k + x) :: l ++ rest))) (Z.of_nat (S (length l))));
    [cbn [length] in *; rewrite length_app in *; lia|].
  rewrite Nat2Z.id. cbn [take drop]. rewrite take_app_length, read_tail; [done|done|lia|].
  assert (Hp : 256 ^ Z.of_nat (length l) <= 256 ^ 7).
  { apply Z.pow_le_mono_r; [lia|]. assert (2 ^ k <= 2 ^ 3) by (apply Z.pow_le_mono_r; lia). lia. }
  change (256 ^ 7) with 72057594037927936 in Hp. change (2 ^ 64) with 18446744073709551616.
  assert (0 < 256 ^ Z.of_nat (length l)) by (apply Z.pow_pos_nonneg; lia). change (drop 0 l) with l. nia.
Qed.

Lemma be_value n v : 0 <= v < 256 ^ Z.of_nat n -> of_be (be n v) = v.
Proof. apply of_be_be_id. Qed.

(** Shifting a byte out of a number is dividing it. *)
Lemma byte_shiftr v k : 0 <= k -> byte (Z.shiftr v k) = byte (v / 2 ^ k).
Proof. intros Hk. by rewrite Z.shiftr_div_pow2. Qed.

(** Both encoders write the class of the value and its bytes: a number below
    64 * 256^n takes n bytes after the first. *)
Definition varint (k n v : Z) : bytes := (64 * k + v / 256 ^ n) :: be (Z.to_nat n) v.

Lemma readVarint_varint k n v rest :
  0 <= k < 4 -> n = 2 ^ k - 1 -> 0 <= v < 64 * 256 ^ n -> readVarint (varint k n v ++ rest) = (v, n + 1).
Proof.
  intros Hk Hn Hv. assert (Hn0 : 0 <= n) by (assert (2 ^ 0 <= 2 ^ k) by (apply Z.pow_le_mono_r; lia); lia).
  assert (Hp : 0 < 256 ^ n) by (apply Z.pow_pos_nonneg; lia). unfold varint. cbn [app].
  rewrite readVarint_bytes; [|done| |apply be_ok|rewrite length_be; lia].
  - rewrite length_be. rewrite Z2Nat.id by done. rewrite of_be_be by lia. rewrite Z2Nat.id by done.
    f_equal; [|lia]. rewrite (Z.div_mod v (256 ^ n)) at 3 by lia. ring.
  - split; [apply Z.div_pos; lia|]. apply Z.div_lt_upper_bound; lia.
Qed.

(** The class of a value. *)
Definition class (v : Z) : Z * Z :=
  if v <? 64 then (0, 0) else if v <? 16384 then (1, 1) else if v <? 1073741824 then (2, 3) else (3, 7).

Lemma class_ok v : 0 <= v <= maxVarint ->
  let '(k, n) := class v in 0 <= k < 4 /\ n = 2 ^ k - 1 /\ 0 <= v < 64 * 256 ^ n.
Proof.
  unfold class, maxVarint. intros Hv.
  destruct (Z.ltb_spec v 64); [cbn; lia|]. destruct (Z.ltb_spec v 16384); [cbn; lia|]. destruct (Z.ltb_spec v 1073741824); cbn; lia.
Qed.

Lemma appendVarint_class b v : 0 <= v <= maxVarint -> appendVarint b v = b ++ varint (class v).1 (class v).2 v.
Proof.
  intros Hv. pose proof (class_ok v Hv) as Hc. unfold appendVarint, class in *.
  change (Z.shiftl 1 6) with 64. change (Z.shiftl 1 14) with 16384. change (Z.shiftl 1 30) with 1073741824.
  assert (Hlead : forall k n, 0 <= k < 4 -> 0 <= v / 2 ^ (8 * n) < 64 -> 0 <= n ->
    Z.lor (64 * k) (byte (Z.shiftr v (8 * n))) = 64 * k + v / 256 ^ n).
  { intros k n Hk Hn Hn0. rewrite Z.shiftr_div_pow2 by lia. unfold byte. rewrite Z.mod_small by lia.
    destruct (first_byte k (v / 2 ^ (8 * n)) Hk Hn) as (-> & _). change 256 with (2 ^ 8). by rewrite <- Z.pow_mul_r by lia. }
  assert (Hlast : byte v = byte (v / 256 ^ Z.of_nat 0)) by (cbn; by rewrite Z.div_1_r).
  repeat case_match; simplify_eq/=; f_equal; unfold varint; destruct Hc as (_ & _ & Hc); cbn [fst snd];
    change (Z.to_nat 0) with 0%nat; change (Z.to_nat 1) with 1%nat; change (Z.to_nat 3) with 3%nat; change (Z.to_nat 7) with 7%nat; cbn [be].
  - change (256 ^ 0) with 1. rewrite Z.div_1_r. unfold byte. by rewrite Z.mod_small by lia.
  - rewrite Hlast. f_equal. apply (Hlead 1 1); [lia| |lia]. change (2 ^ (8 * 1)) with 256. Z.div_mod_to_equations. lia.
  - rewrite Hlast, !byte_shiftr by lia. f_equal. rewrite <- byte_shiftr by lia. apply (Hlead 2 3); [lia| |lia].
    change (2 ^ (8 * 3)) with 16777216. Z.div_mod_to_equations. lia.
  - rewrite Hlast, !byte_shiftr by lia. f_equal. rewrite <- byte_shiftr by lia. apply (Hlead 3 7); [lia| |lia].
    change (2 ^ (8 * 7)) with 72057594037927936. Z.div_mod_to_equations. lia.
Qed.

Lemma be_add_high n m a v : (n <= m)%nat -> be n (a * 256 ^ Z.of_nat m + v) = be n v.
Proof.
  induction n as [|n IH]; intros Hm; [done|]. cbn [be]. rewrite IH by lia. f_equal. unfold byte.
  replace (a * 256 ^ Z.of_nat m) with (a * 256 ^ Z.of_nat (m - S n) * 256 * 256 ^ Z.of_nat n).
  - assert (0 < 256 ^ Z.of_nat n) by (apply Z.pow_pos_nonneg; lia).
    rewrite Z.div_add_l by lia. by rewrite Z.add_comm, Z_mod_plus_full.
  - rewrite <- !Z.mul_assoc. f_equal. rewrite Z.mul_assoc, (Z.mul_comm _ 256), <- !Z.mul_assoc, <- Z.pow_add_r by lia.
    rewrite <- (Z.pow_succ_r 256) by lia. f_equal. lia.
Qed.

(** A number with its length class in the two top bits, big-endian. *)
Lemma be_varint n k v :
  0 <= k < 4 -> 0 <= v < 64 * 256 ^ Z.of_nat n ->
  be (S n) (64 * k * 256 ^ Z.of_nat n + v) = varint k (Z.of_nat n) v.
Proof.
  intros Hk Hv. assert (0 < 256 ^ Z.of_nat n) by (apply Z.pow_pos_nonneg; lia).
  unfold varint. cbn [be]. rewrite be_add_high, Nat2Z.id, Z.div_add_l by lia. f_equal. unfold byte. apply Z.mod_small.
  assert (0 <= v / 256 ^ Z.of_nat n < 64); [|lia]. split; [apply Z.div_pos; lia|apply Z.div_lt_upper_bound; lia].
Qed.

(** Setting the two top bits of a 64-bit number overwrites them. *)
Lemma lor_top v : 0 <= v < 2 ^ 64 -> Z.lor v 0xC000000000000000 = 0xC000000000000000 + v mod 2 ^ 62.
Proof.
  intros Hv. assert (Hq : 0 <= v / 2 ^ 62 < 4) by (split; [apply Z.div_pos|apply Z.div_lt_upper_bound]; lia).
  assert (Hr : 0 <= v mod 2 ^ 62 < 2 ^ 62) by (by apply Z.mod_pos_bound).
  rewrite (Z.div_mod v (2 ^ 62)) at 1 by lia. rewrite (Z.mul_comm (2 ^ 62)), <- lor_shiftl by lia.
  change 0xC000000000000000 with (Z.shiftl 3 62). rewrite <- Z.lor_assoc, (Z.lor_comm (v mod 2 ^ 62)), Z.lor_assoc, <- Z.shiftl_lor.
  replace (Z.lor (v / 2 ^ 62) 3) with 3; [rewrite lor_shiftl by lia; reflexivity|].
  assert (v / 2 ^ 62 = 0 \/ v / 2 ^ 62 = 1 \/ v / 2 ^ 62 = 2 \/ v / 2 ^ 62 = 3) as [-> | [-> | [-> | ->]]] by lia; done.
Qed.

(** The ingest's encoder writes the same bytes; past the largest varint it loses
    the two top bits. *)
Lemma putQuicVarint_class v : 0 <= v < 2 ^ 64 ->
  putQuicVarint v = varint (class v).1 (class v).2 (v mod 2 ^ 62) /\ quicVarintLen v = (class v).2 + 1.
Proof.
  intros Hv. unfold putQuicVarint, quicVarintLen, class.
  destruct (Z.leb_spec v 63), (Z.ltb_spec v 64); try lia.
  { split; [|done]. cbn [fst snd]. rewrite Z.mod_small by lia. unfold varint. cbn. rewrite Z.div_1_r. unfold byte. by rewrite Z.mod_small by lia. }
  destruct (Z.leb_spec v 16383), (Z.ltb_spec v 16384); try lia.
  { split; [|done]. cbn [fst snd]. rewrite (Z.mod_small v), wrapu_id by (unfold in_u; lia). rewrite Z.lor_comm.
    change 16384 with (Z.shiftl 1 14). rewrite lor_shiftl by lia. apply (be_varint 1 1 v); lia. }
  destruct (Z.leb_spec v 1073741823), (Z.ltb_spec v 1073741824); try lia.
  { split; [|done]. cbn [fst snd]. rewrite (Z.mod_small v), wrapu_id by (unfold in_u; lia). rewrite Z.lor_comm.
    change 2147483648 with (Z.shiftl 2 30). rewrite lor_shiftl by lia. apply (be_varint 3 2 v); lia. }
  split; [|done]. cbn [fst snd]. rewrite lor_top by done. apply (be_varint 7 3 (v mod 2 ^ 62)); [lia|].
  pose proof (Z.mod_pos_bound v (2 ^ 62) ltac:(lia)). lia.
Qed.

Lemma read_putQuicVarint v rest : 0 <= v < 2 ^ 64 ->
  readVarint (putQuicVarint v ++ rest) = (v mod 2 ^ 62, quicVarintLen v) /\ Z.of_nat (length (putQuicVarint v)) = quicVarintLen v.
Proof.
  intros Hv. destruct (putQuicVarint_class v Hv) as [-> ->].
  assert (Hc : 0 <= (class v).1 < 4 /\ (class v).2 = 2 ^ (class v).1 - 1 /\ 0 <= v mod 2 ^ 62 < 64 * 256 ^ (class v).2 /\ 0 <= (class v).2).
  { unfold class. pose proof (Z.mod_pos_bound v (2 ^ 62) ltac:(lia)).
    pose proof (Z.mod_le v (2 ^ 62) ltac:(lia) ltac:(lia)).
    destruct (Z.ltb_spec v 64); [cbn; lia|]. destruct (Z.ltb_spec v 16384); [cbn; lia|]. destruct (Z.ltb_spec v 1073741824); cbn; lia. }
  destruct Hc as (Hk & Hn & Hr & H0). split; [by apply readVarint_varint|]. unfold varint. cbn [length]. rewrite length_be. lia.
Qed.

Lemma read_appendVarint v rest : 0 <= v <= maxVarint ->
  exists n, readVarint (appendVarint [] v ++ rest) = (v, n) /\ n = Z.of_nat (length (appendVarint [] v)) /\ 0 < n.
Proof.
  intros Hv. rewrite appendVarint_class by done. cbn [app]. pose proof (class_ok v Hv) as Hc. destruct (class v) as [k n].
  destruct Hc as (Hk & Hn & Hb). cbn [fst snd]. exists (n + 1). split; [by apply readVarint_varint|].
  assert (0 <= n) by (assert (2 ^ 0 <= 2 ^ k) by (apply Z.pow_le_mono_r; lia); lia).
  split; [|lia]. unfold varint. cbn [length]. rewrite length_be. lia.
Qed.

Lemma appendVarint_app b v : appendVarint b v = b ++ appendVarint [] v.
Proof. unfold appendVarint. repeat case_match; done. Qed.

(** What is read of any bytes is a varint, and takes at least a byte. *)
Lemma readVarint_ok b : bytes_ok b ->
  let '(v, n) := readVarint b in (n = 0 /\ v = 0) \/ (1 <= n <= Z.of_nat (length b) /\ 0 <= v <= maxVarint).
Proof.
  intros Hb. unfold readVarint. destruct b as [|b0 l]; [by left|]. apply Forall_cons in Hb as [H0 Hl]. unfold byte_ok in H0.
  set (n := Z.shiftl 1 (Z.shiftr b0 6)). destruct (Z.ltb_spec (Z.of_nat (length (b0 :: l))) n); [by left|]. right.
  assert (Hs : 0 <= Z.shiftr b0 6 < 4) by (rewrite Z.shiftr_div_pow2 by lia; change (2 ^ 6) with 64; Z.div_mod_to_equations; lia).
  assert (Hn : 1 <= n <= 8).
  { subst n. rewrite Z.shiftl_mul_pow2, Z.mul_1_l by lia. split; [apply (Z.pow_le_mono_r 2 0); lia|apply (Z.pow_le_mono_r 2 _ 3); lia]. }
  split; [lia|]. change (Z.land b0 63) with (Z.land b0 (Z.ones 6)). rewrite Z.land_ones by lia.
  pose proof (Z.mod_pos_bound b0 (2 ^ 6) ltac:(lia)) as Hm. change (2 ^ 6) with 64 in *. set (x := b0 mod 64) in *.
  set (t := drop 1 (take (Z.to_nat n) (b0 :: l))).
  assert (Ht : bytes_ok t) by (apply Forall_drop, Forall_take; constructor; done).
  assert (Hlen : Z.of_nat (length t) <= 7) by (subst t; rewrite length_drop, length_take; lia).
  pose proof (of_be_range t Ht) as Hr.
  assert (Hp : 256 ^ Z.of_nat (length t) <= 72057594037927936) by (apply (Z.pow_le_mono_r 256 _ 7); lia).
  assert (0 < 256 ^ Z.of_nat (length t)) by (apply Z.pow_pos_nonneg; lia).
  rewrite read_tail; [|done|lia|change (2 ^ 64) with 18446744073709551616; nia]. unfold maxVarint. change (2 ^ 62) with 4611686018427387904. nia.
Qed.

(** ** Group payloads: hls/frame.go *)

Record frame := mkFrame { Timestamp : Z; Body : bytes }.

Definition MaxInt64 : Z := 2 ^ 63 - 1.

Definition zigzag (s : Z) : Z := Z.lxor (wrapu 64 (Z.shiftl s 1)) (wrapu 64 (Z.shiftr s 63)).
Definition unzigzag (u : Z) : Z := Z.lxor (wraps 64 (Z.shiftr u 1)) (- wraps 64 (Z.land u 1)).

(** [addDelta]: the sum, and whether it stays on the timeline. *)
Definition addDelta (prev delta : Z) : Z * bool :=
  let sum := wraps 64 (wraps 64 prev + delta) in
  if (0 <? delta) && (sum <? wraps 64 prev) then (0, false)
  else if sum <? 0 then (0, false)
  else (wrapu 64 sum, true).

Inductive frame_error := errTimestampRange (i : nat).

Fixpoint encode_loop (i : nat) (prev : Z) (payload : bytes) (frames : list frame) : result frame_error bytes :=
  match frames with
  | [] => Ok payload
  | f :: fs =>
      guard_err (negb (MaxInt64 <? f.(Timestamp))) (errTimestampRange i);;
      let delta := zigzag (wraps 64 (wraps 64 f.(Timestamp) - wraps 64 prev)) in
      guard_err (negb (maxVarint <? delta)) (errTimestampRange i);;
      encode_loop (S i) f.(Timestamp)
        (appendVarint (appendVarint payload delta) (Z.of_nat (length f.(Body))) ++ f.(Body)) fs
  end.

Definition encodeFrames (frames : list frame) : result frame_error bytes := encode_loop 0 0 [] frames.

(** The iterator [allFrames] returns: the frames it yields, and whether it ends
    with [errMalformed]. [None] when the fuel runs out, which a fuel of the
    payload's length never does: every frame takes bytes. *)
Fixpoint frames_loop (fuel : nat) (payload : bytes) (prev : Z) : option (list frame * bool) :=
  match payload, fuel with
  | [], _ => Some ([], false)
  | _, O => None
  | _, S fuel =>
      let '(delta, n) := readVarint payload in
      if n =? 0 then Some ([], true) else
      let payload := drop (Z.to_nat n) payload in
      let '(len, n) := readVarint payload in
      if n =? 0 then Some ([], true) else
      let payload := drop (Z.to_nat n) payload in
      if Z.of_nat (length payload) <? len then Some ([], true) else
      let '(ts, ok) := addDelta prev (unzigzag delta) in
      if negb ok then Some ([], true) else
      '(fs, bad) ← frames_loop fuel (drop (Z.to_nat len) payload) ts;
      Some (mkFrame ts (take (Z.to_nat len) payload) :: fs, bad)
  end.

Definition allFrames (payload : bytes) : option (list frame * bool) := frames_loop (length payload) payload 0.

(** *** Timestamps *)

Lemma lxor_ones x n : 0 <= n -> 0 <= x < 2 ^ n -> Z.lxor x (2 ^ n - 1) = 2 ^ n - 1 - x.
Proof.
  intros Hn Hx. replace (2 ^ n - 1) with (Z.ones n) by (rewrite Z.ones_equiv; lia).
  assert (Hl : Z.ldiff x (Z.ones n) = 0).
  { apply Z.bits_inj_iff'. intros i Hi. rewrite Z.ldiff_spec, Z.bits_0, Z.testbit_ones_nonneg by lia.
    destruct (Z.ltb_spec i n); [by rewrite andb_false_r|]. by rewrite (testbit_high x n). }
  rewrite Z.sub_nocarry_ldiff by done. apply Z.bits_inj_iff'. intros i Hi. rewrite Z.lxor_spec, Z.ldiff_spec, Z.testbit_ones_nonneg by lia.
  destruct (Z.ltb_spec i n); cbn; [by rewrite xorb_true_r|]. by rewrite (testbit_high x n).
Qed.

Lemma zigzag_value s : in_s 64 s -> zigzag s = if s <? 0 then - 2 * s - 1 else 2 * s.
Proof.
  unfold in_s. change (2 ^ (64 - 1)) with 9223372036854775808. intros Hs. unfold zigzag. rewrite Z.shiftl_mul_pow2, Z.shiftr_div_pow2 by lia.
  change (2 ^ 1) with 2. change (2 ^ 63) with 9223372036854775808. unfold wrapu. change (2 ^ 64) with 18446744073709551616.
  destruct (Z.ltb_spec s 0).
  - replace (s / 9223372036854775808) with (-1) by (Z.div_mod_to_equations; lia). change (-1 mod 18446744073709551616) with (2 ^ 64 - 1).
    replace ((s * 2) mod 18446744073709551616) with (18446744073709551616 + 2 * s) by (Z.div_mod_to_equations; lia).
    rewrite lxor_ones by (change (2 ^ 64) with 18446744073709551616; lia). change (2 ^ 64) with 18446744073709551616. lia.
  - rewrite (Z.div_small s) by lia. rewrite Z.mod_0_l, Z.lxor_0_r by lia. rewrite Z.mod_small by lia. lia.
Qed.

Lemma unzigzag_value u : 0 <= u < 2 ^ 64 -> unzigzag u = if Z.even u then u / 2 else - ((u + 1) / 2).
Proof.
  change (2 ^ 64) with 18446744073709551616. intros Hu. unfold unzigzag. rewrite Z.shiftr_div_pow2 by lia. change (2 ^ 1) with 2.
  change (Z.land u 1) with (Z.land u (Z.ones 1)). rewrite Z.land_ones by lia. change (2 ^ 1) with 2.
  rewrite (wraps_id 64 (u / 2)) by (unfold in_s; change (2 ^ (64 - 1)) with 9223372036854775808; Z.div_mod_to_equations; lia).
  rewrite Zmod_even. destruct (Z.even u) eqn:He.
  - change (- wraps 64 0) with 0. apply Z.lxor_0_r.
  - change (- wraps 64 1) with (-1). rewrite Z.lxor_m1_r. unfold Z.lnot.
    assert (Ho : u mod 2 = 1) by (by rewrite Zmod_even, He). Z.div_mod_to_equations. lia.
Qed.

Lemma unzigzag_zigzag s : in_s 64 s -> unzigzag (zigzag s) = s.
Proof.
  intros Hs. assert (Hr := Hs). unfold in_s in Hr. change (2 ^ (64 - 1)) with 9223372036854775808 in Hr.
  rewrite zigzag_value by done. destruct (Z.ltb_spec s 0); rewrite unzigzag_value by (change (2 ^ 64) with 18446744073709551616; lia).
  - replace (-2 * s - 1) with (1 + 2 * (- s - 1)) by lia. rewrite Z.even_add_mul_2. cbn [Z.even]. Z.div_mod_to_equations. lia.
  - replace (2 * s) with (0 + 2 * s) by lia. rewrite Z.even_add_mul_2. cbn [Z.even]. Z.div_mod_to_equations. lia.
Qed.

Lemma zigzag_unzigzag u : 0 <= u < 2 ^ 64 -> zigzag (unzigzag u) = u /\ in_s 64 (unzigzag u).
Proof.
  intros Hu. rewrite unzigzag_value by done. change (2 ^ 64) with 18446744073709551616 in Hu.
  pose proof (Zmod_even u) as He. destruct (Z.even u).
  - assert (Hs : in_s 64 (u / 2)) by (unfold in_s; change (2 ^ (64 - 1)) with 9223372036854775808; Z.div_mod_to_equations; lia).
    rewrite zigzag_value by done. split; [|done]. destruct (Z.ltb_spec (u / 2) 0); Z.div_mod_to_equations; lia.
  - assert (Hs : in_s 64 (- ((u + 1) / 2))) by (unfold in_s; change (2 ^ (64 - 1)) with 9223372036854775808; Z.div_mod_to_equations; lia).
    rewrite zigzag_value by done. split; [|done]. destruct (Z.ltb_spec (- ((u + 1) / 2)) 0); Z.div_mod_to_equations; lia.
Qed.

(** *** Reading what was written *)

Definition on_timeline (t : Z) : Prop := 0 <= t <= MaxInt64.

Definition frame_ok (f : frame) : Prop := 0 <= f.(Timestamp) /\ Z.of_nat (length f.(Body)) <= maxVarint.

Lemma timeline_s t : on_timeline t -> wraps 64 t = t /\ in_s 64 t.
Proof.
  unfold on_timeline, MaxInt64. intros Ht. assert (in_s 64 t) by (unfold in_s; change (2 ^ (64 - 1)) with (2 ^ 63); lia).
  split; [by apply wraps_id|done].
Qed.

Lemma delta_s t prev : on_timeline t -> on_timeline prev -> wraps 64 (t - prev) = t - prev /\ in_s 64 (t - prev).
Proof.
  unfold on_timeline, MaxInt64. intros Ht Hp. assert (in_s 64 (t - prev)) by (unfold in_s; change (2 ^ (64 - 1)) with (2 ^ 63); lia).
  split; [by apply wraps_id|done].
Qed.

Lemma addDelta_back t prev : on_timeline t -> on_timeline prev -> addDelta prev (t - prev) = (t, true).
Proof.
  intros Ht Hp. unfold addDelta. rewrite (proj1 (timeline_s prev Hp)). replace (prev + (t - prev)) with t by lia.
  rewrite (proj1 (timeline_s t Ht)). unfold on_timeline, MaxInt64 in *.
  destruct (Z.ltb_spec 0 (t - prev)), (Z.ltb_spec t prev); try lia; cbn [andb]; (destruct (Z.ltb_spec t 0); [lia|]);
    rewrite wrapu_id by (unfold in_u; lia); done.
Qed.

(** What [addDelta] accepts lies on the timeline, at that distance. *)
Lemma addDelta_ok prev d t : on_timeline prev -> in_s 64 d -> addDelta prev d = (t, true) -> on_timeline t /\ t - prev = d.
Proof.
  intros Hp Hd. unfold addDelta. rewrite (proj1 (timeline_s prev Hp)). unfold on_timeline, MaxInt64, in_s in *.
  change (2 ^ (64 - 1)) with 9223372036854775808 in *. change (2 ^ 63) with 9223372036854775808 in *.
  set (s := wraps 64 (prev + d)). assert (Hs : (s = prev + d \/ s = prev + d - 2 ^ 64) /\ s < 9223372036854775808).
  { subst s. unfold wraps. change (2 ^ (64 - 1)) with 9223372036854775808. change (2 ^ 64) with 18446744073709551616. Z.div_mod_to_equations. lia. }
  change (2 ^ 64) with 18446744073709551616 in Hs.
  destruct (Z.ltb_spec 0 d), (Z.ltb_spec s prev); cbn [andb]; try done; (destruct (Z.ltb_spec s 0); [done|]);
    intros [= <-]; unfold wrapu; change (2 ^ 64) with 18446744073709551616; rewrite Z.mod_small by lia; lia.
Qed.

Lemma read_frame fuel delta body rest prev ts :
  0 <= delta <= maxVarint -> Z.of_nat (length body) <= maxVarint -> addDelta prev (unzigzag delta) = (ts, true) ->
  frames_loop (S fuel) (appendVarint [] delta ++ appendVarint [] (Z.of_nat (length body)) ++ body ++ rest) prev =
  '(fs, bad) ← frames_loop fuel rest ts; Some (mkFrame ts body :: fs, bad).
Proof.
  intros Hd Hb Ha. set (q := appendVarint [] (Z.of_nat (length body)) ++ body ++ rest).
  destruct (read_appendVarint delta q Hd) as (n & Hn & Hl & Hn0).
  destruct (read_appendVarint (Z.of_nat (length body)) (body ++ rest) ltac:(lia)) as (n' & Hn' & Hl' & Hn0').
  destruct (appendVarint [] delta) as [|a0 al] eqn:Hap; [cbn in Hl; lia|]. cbn [app frames_loop]. rewrite app_comm_cons, Hn.
  destruct (Z.eqb_spec n 0); [lia|]. rewrite Hl, Nat2Z.id, drop_app_length. subst q. rewrite Hn'. destruct (Z.eqb_spec n' 0); [lia|].
  rewrite Hl', !Nat2Z.id, drop_app_length. rewrite length_app. destruct (Z.ltb_spec (Z.of_nat (length body + length rest)) (Z.of_nat (length body))); [lia|].
  rewrite Ha. cbn [negb]. by rewrite take_app_length, drop_app_length.
Qed.

Lemma appendVarint_pos v : (0 < length (appendVarint [] v))%nat.
Proof. unfold appendVarint. repeat case_match; cbn; lia. Qed.

Lemma encode_read i prev payload fs p fuel :
  Forall frame_ok fs -> on_timeline prev -> encode_loop i prev payload fs = Ok p ->
  exists q, p = payload ++ q /\ (length q <= fuel -> frames_loop fuel q prev = Some (fs, false))%nat.
Proof.
  intros Hfs. revert i prev payload p fuel. induction Hfs as [|f fs [Hts Hbody] Hfs IH]; intros i prev payload p fuel Hp He; cbn [encode_loop] in He.
  { injection He as <-. exists []. rewrite app_nil_r. split; [done|]. by destruct fuel. }
  inv_ok. bool_prop. assert (Ht : on_timeline f.(Timestamp)) by (unfold on_timeline; lia).
  rewrite (proj1 (timeline_s _ Hp)), (proj1 (timeline_s _ Ht)) in *. destruct (delta_s _ _ Ht Hp) as [Hw Hs]. rewrite Hw in *.
  set (d := zigzag (f.(Timestamp) - prev)) in *.
  assert (Hd : 0 <= d <= maxVarint).
  { split; [|lia]. subst d. rewrite zigzag_value by done. destruct (Z.ltb_spec (Timestamp f - prev) 0); lia. }
  destruct (IH _ _ _ _ (pred fuel) Ht He) as (q & -> & Hq).
  exists (appendVarint [] d ++ appendVarint [] (Z.of_nat (length f.(Body))) ++ f.(Body) ++ q). split.
  { rewrite (appendVarint_app (appendVarint payload d)), (appendVarint_app payload), <- !app_assoc. done. }
  intros Hfuel. pose proof (appendVarint_pos d). rewrite !length_app in Hfuel. destruct fuel as [|fuel]; [lia|].
  rewrite (read_frame _ _ _ _ _ f.(Timestamp)); [|done|done|].
  - cbn [Init.Nat.pred] in Hq. rewrite Hq by lia. by destruct f.
  - subst d. rewrite unzigzag_zigzag by done. by apply addDelta_back.
Qed.

(** A group's frames survive storage: whatever [encodeFrames] accepts,
    [allFrames] yields again, the same timestamps and bodies in the same order,
    and ends without an error. *)
Theorem frames_round_trip fs p :
  Forall frame_ok fs -> encodeFrames fs = Ok p -> allFrames p = Some (fs, false).
Proof.
  intros Hfs He. destruct (encode_read 0 0 [] fs p (length p) Hfs) as (q & -> & Hq);
    [unfold on_timeline, MaxInt64; lia|done|]. by apply Hq.
Qed.

(** What is read is on the timeline and can be written. *)
Lemma frames_loop_ok fuel payload prev :
  bytes_ok payload -> on_timeline prev -> (length payload <= fuel)%nat ->
  exists fs bad, frames_loop fuel payload prev = Some (fs, bad) /\
    Forall (fun f => on_timeline f.(Timestamp)) fs /\
    (list_sum (length ∘ Body <$> fs) <= length payload)%nat /\
    forall i out, exists p, encode_loop i prev out fs = Ok p.
Proof.
  revert payload prev. induction fuel as [|fuel IH]; intros payload prev Hb Hp Hlen.
  { destruct payload; [|cbn in Hlen; lia]. exists [], false. cbn. split; [done|]. split; [done|]. split; [lia|]. eauto. }
  assert (Hstop : exists fs bad, Some ([], true) = Some (fs, bad) /\ Forall (fun f => on_timeline f.(Timestamp)) fs /\
    (list_sum (length ∘ Body <$> fs) <= length payload)%nat /\ forall i out, exists p, encode_loop i prev out fs = Ok p).
  { exists [], true. cbn. split; [done|]. split; [done|]. split; [lia|]. eauto. }
  destruct payload as [|b0 l] eqn:Hpl. { exists [], false. cbn. split; [done|]. split; [done|]. split; [lia|]. eauto. }
  rewrite <- Hpl in *. assert (Hun : frames_loop (S fuel) payload prev = let '(delta, n) := readVarint payload in
      if n =? 0 then Some ([], true) else let payload := drop (Z.to_nat n) payload in let '(len, n) := readVarint payload in
      if n =? 0 then Some ([], true) else let payload := drop (Z.to_nat n) payload in
      if Z.of_nat (length payload) <? len then Some ([], true) else
      let '(ts, ok) := addDelta prev (unzigzag delta) in if negb ok then Some ([], true) else
      '(fs, bad) ← frames_loop fuel (drop (Z.to_nat len) payload) ts; Some (mkFrame ts (take (Z.to_nat len) payload) :: fs, bad)) by (by rewrite Hpl).
  rewrite Hun. clear Hun Hpl. pose proof (readVarint_ok payload Hb) as H1. destruct (readVarint payload) as [delta n].
  destruct (Z.eqb_spec n 0); [done|]. destruct H1 as [[? _]|[Hn Hd]]; [done|]. cbv zeta. set (r := drop (Z.to_nat n) payload).
  assert (Hr : bytes_ok r) by (by apply Forall_drop). assert (Hrl : (length r < length payload)%nat) by (subst r; rewrite length_drop; lia).
  pose proof (readVarint_ok r Hr) as H2. destruct (readVarint r) as [len n'].
  destruct (Z.eqb_spec n' 0); [done|]. destruct H2 as [[? _]|[Hn' Hlen']]; [done|]. set (r' := drop (Z.to_nat n') r).
  assert (Hr' : bytes_ok r') by (by apply Forall_drop). assert (Hrl' : (length r' < length r)%nat) by (subst r'; rewrite length_drop; lia).
  destruct (Z.ltb_spec (Z.of_nat (length r')) len); [done|]. unfold maxVarint in Hd.
  destruct (zigzag_unzigzag delta) as [Hz Hs]; [lia|]. destruct (addDelta prev (unzigzag delta)) as [ts ok] eqn:Ha. destruct ok; cbn [negb]; [|done].
  destruct (addDelta_ok _ _ _ Hp Hs Ha) as [Hts Hdiff].
  destruct (IH (drop (Z.to_nat len) r') ts) as (fs & bad & -> & Hall & Hsum & Henc); [by apply Forall_drop|done|rewrite length_drop; lia|].
  cbn [mbind option_bind]. eexists _, bad. split; [done|]. split; [by constructor|]. split.
  { cbn [fmap list_fmap list_sum foldr]. change (foldr Init.Nat.add 0%nat (length ∘ Body <$> fs)) with (list_sum (length ∘ Body <$> fs)).
    unfold compose. cbn [Body]. rewrite length_take. rewrite length_drop in Hsum. unfold compose in Hsum. lia. }
  intros i out. cbn [encode_loop Timestamp Body]. rewrite (proj1 (timeline_s _ Hts)), (proj1 (timeline_s _ Hp)), Hdiff, (wraps_id 64), Hz by done.
  unfold on_timeline in Hts. destruct (Z.ltb_spec MaxInt64 ts); [lia|]. unfold maxVarint. destruct (Z.ltb_spec (2 ^ 62 - 1) delta); [lia|]. cbn [negb].
  apply Henc.
Qed.

(** Reading a group payload ends on any bytes: it yields frames on the
    timeline whose bodies together are no longer than the payload, and then ends
    or reports the fault; and the frames it yielded can always be stored again
    and are then read back without a fault. *)
Theorem allFrames_total p :
  bytes_ok p ->
  exists fs bad, allFrames p = Some (fs, bad) /\
    Forall (fun f => on_timeline f.(Timestamp)) fs /\ (list_sum (length ∘ Body <$> fs) <= length p)%nat /\
    (Z.of_nat (length p) <= maxVarint -> exists p', encodeFrames fs = Ok p' /\ allFrames p' = Some (fs, false)).
Proof.
  intros Hp. assert (H0 : on_timeline 0) by (unfold on_timeline, MaxInt64; lia).
  destruct (frames_loop_ok (length p) p 0 Hp H0) as (fs & bad & Hl & Ht & Hsum & He); [lia|].
  exists fs, bad. split; [done|]. split; [done|]. split; [done|]. intros Hmax. destruct (He 0%nat []) as [p' Hp']. exists p'. split; [done|].
  assert (Hfs : Forall frame_ok fs).
  { clear -Ht Hsum Hmax. induction Ht as [|f fs Hf _ IH]; [done|]. cbn [fmap list_fmap list_sum foldr] in Hsum.
    change (foldr Init.Nat.add 0%nat (length ∘ Body <$> fs)) with (list_sum (length ∘ Body <$> fs)) in Hsum. unfold compose in Hsum at 1.
    constructor; [|apply IH; lia]. destruct Hf as [? _]. split; [done|lia]. }
  destruct (encode_read 0 0 [] fs p' (length p') Hfs H0 Hp') as (q & -> & Hq). by apply Hq.
Qed.

(** ** The MediaFrame envelope: ingest/media_frame.go, integration/media.go *)

Definition mediaFrameSize (timestampUS dataLen : Z) : Z :=
  quicVarintLen (wrapu 64 timestampUS) + quicVarintLen (wrapu 64 dataLen) + dataLen.

(** Writing into a slice: the bytes at [n] replaced; [None] is the panic of a
    slice too short for a varint. [copy] writes what fits. *)
Definition put (dst : bytes) (n : Z) (b : bytes) : option bytes :=
  if Z.of_nat (length dst) <? n + Z.of_nat (length b) then None
  else Some (take (Z.to_nat n) dst ++ b ++ drop (Z.to_nat n + length b) dst).

Definition copy_at (dst : bytes) (n : Z) (b : bytes) : bytes * Z :=
  let k := Z.min (Z.of_nat (length b)) (Z.of_nat (length dst) - n) in
  (take (Z.to_nat n) dst ++ take (Z.to_nat k) b ++ drop (Z.to_nat (n + k)) dst, k).

Definition encodeMediaFrame (dst : bytes) (timestampUS : Z) (data : bytes) : option (bytes * Z) :=
  dst ← put dst 0 (putQuicVarint (wrapu 64 timestampUS));
  let n := Z.of_nat (length (putQuicVarint (wrapu 64 timestampUS))) in
  dst ← put dst n (putQuicVarint (wrapu 64 (Z.of_nat (length data))));
  let n := n + Z.of_nat (length (putQuicVarint (wrapu 64 (Z.of_nat (length data))))) in
  let '(dst, k) := copy_at dst n data in
  Some (dst, n + k).

Definition buildMediaFrame (timestampUS : Z) (data : bytes) : option bytes :=
  let size := mediaFrameSize timestampUS (Z.of_nat (length data)) in
  '(buf, _) ← encodeMediaFrame (replicate (Z.to_nat size) 0) timestampUS data; Some buf.

(** A moqt frame's [Write] appends to its body. *)
Definition writeMediaFrame (f : bytes) (timestampUS : Z) (data : bytes) : bytes :=
  f ++ putQuicVarint (wrapu 64 timestampUS) ++ putQuicVarint (wrapu 64 (Z.of_nat (length data))) ++ data.

Inductive media_error := ErrShortMediaFrame | ErrBadMediaVarint.

Definition readQuicVarint (buf : bytes) : result media_error (Z * Z) :=
  match buf with
  | [] => Err ErrBadMediaVarint
  | b0 :: _ =>
      let n := Z.shiftl 1 (Z.shiftr b0 6) in
      guard_err (negb (Z.of_nat (length buf) <? n)) ErrBadMediaVarint;;
      Ok (foldl (fun v c => Z.lor (wrapu 64 (Z.shiftl v 8)) c) (Z.land b0 63) (drop 1 (take (Z.to_nat n) buf)), n)
  end.

Definition decodeMediaFrame (body : bytes) : result media_error (Z * bytes) :=
  '(ts, n) ← readQuicVarint body;
  let rest := drop (Z.to_nat n) body in
  '(dataLen, m) ← readQuicVarint rest;
  let rest := drop (Z.to_nat m) rest in
  guard_err (negb (Z.of_nat (length rest) <? dataLen)) ErrShortMediaFrame;;
  Ok (wraps 64 ts, take (Z.to_nat dataLen) rest).

(** The two readers of varints agree. *)
Lemma readQuicVarint_eq b :
  bytes_ok b -> readQuicVarint b = if (readVarint b).2 =? 0 then Err ErrBadMediaVarint else Ok (readVarint b).
Proof.
  intros Hb. pose proof (readVarint_ok b Hb) as Hr. unfold readQuicVarint, readVarint in *. destruct b as [|b0 l]; [done|].
  destruct (Z.ltb_spec (Z.of_nat (length (b0 :: l))) (Z.shiftl 1 (Z.shiftr b0 6))); cbn [snd negb] in *; [done|].
  destruct (Z.eqb_spec (Z.shiftl 1 (Z.shiftr b0 6)) 0) as [He|]; [|done].
  exfalso. apply Z.shiftl_eq_0_iff in He; [done|]. apply Z.shiftr_nonneg. apply Forall_cons in Hb as [Hb _]. unfold byte_ok in Hb. lia.
Qed.

Lemma putQuicVarint_bytes v : 0 <= v < 2 ^ 64 -> bytes_ok (putQuicVarint v).
Proof.
  intros Hv. unfold putQuicVarint. repeat case_match; try apply be_ok. constructor; [|done]. unfold byte_ok, byte. by apply Z.mod_pos_bound.
Qed.

Lemma read_put v rest : 0 <= v < 2 ^ 64 -> bytes_ok rest ->
  readQuicVarint (putQuicVarint v ++ rest) = Ok (v mod 2 ^ 62, Z.of_nat (length (putQuicVarint v))).
Proof.
  intros Hv Hr. destruct (read_putQuicVarint v rest Hv) as [Hrd Hl].
  rewrite readQuicVarint_eq by (apply Forall_app; split; [by apply putQuicVarint_bytes|done]). rewrite Hrd. cbn [snd]. rewrite Hl.
  destruct (Z.eqb_spec (quicVarintLen v) 0) as [He|]; [|done]. unfold quicVarintLen in He. repeat case_match; done.
Qed.

Lemma put_next dst b1 b2 z : length dst = Z.to_nat z -> 0 <= z ->
  put (b1 ++ replicate (length b2) 0 ++ dst) (Z.of_nat (length b1)) b2 = Some (b1 ++ b2 ++ dst).
Proof.
  intros Hd Hz. unfold put. rewrite !length_app, length_replicate.
  destruct (Z.ltb_spec (Z.of_nat (length b1 + (length b2 + length dst))) (Z.of_nat (length b1) + Z.of_nat (length b2))); [lia|].
  rewrite Nat2Z.id, take_app_length. do 2 f_equal. f_equal. rewrite drop_app, drop_ge by lia. cbn [app].
  replace (length b1 + length b2 - length b1)%nat with (length (replicate (length b2) 0)) by (rewrite length_replicate; lia).
  by rewrite drop_app_length.
Qed.

Lemma buildMediaFrame_write ts data :
  Z.of_nat (length data) < 2 ^ 63 -> buildMediaFrame ts data = Some (writeMediaFrame [] ts data).
Proof.
  intros Hd. unfold buildMediaFrame, writeMediaFrame, mediaFrameSize. cbn [app].
  assert (Ht : 0 <= wrapu 64 ts < 2 ^ 64) by (apply wrapu_range; lia).
  assert (Hl : 0 <= wrapu 64 (Z.of_nat (length data)) < 2 ^ 64) by (apply wrapu_range; lia).
  destruct (read_putQuicVarint _ [] Ht) as [_ <-]. destruct (read_putQuicVarint _ [] Hl) as [_ <-].
  set (v1 := putQuicVarint (wrapu 64 ts)). set (v2 := putQuicVarint (wrapu 64 (Z.of_nat (length data)))).
  replace (Z.to_nat (Z.of_nat (length v1) + Z.of_nat (length v2) + Z.of_nat (length data))) with (length v1 + (length v2 + length data))%nat by lia.
  rewrite !replicate_add. unfold encodeMediaFrame. fold v1. fold v2.
  pose proof (put_next (replicate (length v2) 0 ++ replicate (length data) 0) [] v1 (Z.of_nat (length v2 + length data))) as H1.
  cbn [app length] in H1. change (Z.of_nat 0) with 0 in H1. rewrite H1; [|rewrite length_app, !length_replicate; lia|lia]. cbn [mbind option_bind].
  rewrite (put_next _ v1 v2 (Z.of_nat (length data))); [|rewrite length_replicate; lia|lia]. cbn [mbind option_bind]. unfold copy_at.
  rewrite !length_app, length_replicate.
  replace (Z.min _ _) with (Z.of_nat (length data)) by lia. rewrite Nat2Z.id, firstn_all. do 2 f_equal.
  replace (Z.to_nat (Z.of_nat (length v1) + Z.of_nat (length v2))) with (length v1 + length v2)%nat by lia.
  assert (Htk : take (length v1 + length v2) (v1 ++ v2 ++ replicate (length data) 0) = v1 ++ v2)
    by (rewrite app_assoc, <- length_app; apply take_app_length).
  rewrite Htk, drop_ge, app_nil_r by (rewrite !length_app, length_replicate; lia). by rewrite <- app_assoc.
Qed.

(** What is written is read back. *)
Lemma media_frame_back ts data :
  in_s 64 ts -> bytes_ok data -> Z.of_nat (length data) <= maxVarint ->
  decodeMediaFrame (writeMediaFrame [] ts data) = Ok (ts mod 2 ^ 62, data).
Proof.
  intros Hs Hb Hl. unfold maxVarint in Hl.
  assert (Ht : 0 <= wrapu 64 ts < 2 ^ 64) by (apply wrapu_range; lia).
  assert (Hd : wrapu 64 (Z.of_nat (length data)) = Z.of_nat (length data)) by (apply wrapu_id; unfold in_u; lia).
  unfold writeMediaFrame, decodeMediaFrame. rewrite Hd. cbn [app].
  rewrite read_put by first [done|apply Forall_app; split; [apply putQuicVarint_bytes; lia|done]]. cbn [mbind result_bind].
  rewrite Nat2Z.id, drop_app_length, read_put by (try done; lia). cbn [mbind result_bind].
  rewrite Nat2Z.id, drop_app_length, (Z.mod_small (Z.of_nat (length data))) by lia.
  rewrite Z.ltb_irrefl. cbn [negb guard_err mbind result_bind]. rewrite Nat2Z.id, firstn_all. do 2 f_equal.
  assert (Hm : wrapu 64 ts mod 2 ^ 62 = ts mod 2 ^ 62).
  { unfold wrapu. change (2 ^ 64) with 18446744073709551616. change (2 ^ 62) with 4611686018427387904. Z.div_mod_to_equations. lia. }
  rewrite Hm. pose proof (Z.mod_pos_bound ts (2 ^ 62) ltac:(lia)). apply wraps_id; [lia|]. unfold in_s. change (2 ^ (64 - 1)) with (2 ^ 63). lia.
Qed.

(** The MediaFrame envelope the ingest writes is what its reader takes
    apart: the preallocated buffer is filled exactly, whatever the way it is
    written, and the data comes back whole with the timestamp modulo 2^62; so a
    timestamp from 0 to 2^62 - 1 comes back as it was, and a negative one, which a
    negative composition offset yields, as one of over a hundred thousand years. *)
Theorem media_frame_round_trip ts data :
  in_s 64 ts -> bytes_ok data -> Z.of_nat (length data) <= maxVarint ->
  buildMediaFrame ts data = Some (writeMediaFrame [] ts data) /\
  Z.of_nat (length (writeMediaFrame [] ts data)) = mediaFrameSize ts (Z.of_nat (length data)) /\
  decodeMediaFrame (writeMediaFrame [] ts data) = Ok (ts mod 2 ^ 62, data).
Proof.
  intros Hs Hb Hl. unfold maxVarint in Hl. split; [apply buildMediaFrame_write; lia|].
  assert (Ht : 0 <= wrapu 64 ts < 2 ^ 64) by (apply wrapu_range; lia).
  assert (Hd : wrapu 64 (Z.of_nat (length data)) = Z.of_nat (length data)) by (apply wrapu_id; unfold in_u; lia).
  split; [|apply media_frame_back; unfold maxVarint; done || lia].
  unfold writeMediaFrame, mediaFrameSize. rewrite Hd. cbn [app].
  rewrite !length_app. destruct (read_putQuicVarint _ [] Ht) as [_ <-].
  destruct (read_putQuicVarint (Z.of_nat (length data)) [] ltac:(lia)) as [_ <-]. lia.
Qed.

(** A negative presentation time is read as one of over a hundred thousand
    years. *)
Lemma negative_pts_wraps ts data :
  - 2 ^ 62 <= ts < 0 -> bytes_ok data -> Z.of_nat (length data) <= maxVarint ->
  decodeMediaFrame (writeMediaFrame [] ts data) = Ok (2 ^ 62 + ts, data).
Proof.
  intros Ht Hb Hl. rewrite media_frame_back by (done || (unfold in_s; change (2 ^ (64 - 1)) with (2 ^ 63); lia)). do 2 f_equal.
  change (2 ^ 62) with 4611686018427387904 in *. Z.div_mod_to_equations. lia.
Qed.

(** ** Examples *)

Definition ex_frames : list frame := [mkFrame 90000 [1; 2; 3]; mkFrame 80000 []; mkFrame MaxInt64 [255]].
Definition near_frames : list frame := [mkFrame 90000 [1; 2; 3]; mkFrame 80000 []].

Lemma frames_round_trip_witness :
  exists p, encodeFrames near_frames = Ok p /\ allFrames p = Some (near_frames, false).
Proof.
  destruct (encodeFrames near_frames) as [p|] eqn:He; [|vm_compute in He; discriminate He].
  exists p. split; [reflexivity|]. apply (frames_round_trip near_frames p); [|exact He].
  repeat constructor; vm_compute; discriminate.
Defined.

Lemma frame_out_of_range : encodeFrames ex_frames = Err (errTimestampRange 2).
Proof. vm_compute. reflexivity. Qed.

Lemma allFrames_total_witness :
  exists fs bad, allFrames [64; 100; 2; 7; 8; 0] = Some (fs, bad) /\
    Forall (fun f => on_timeline f.(Timestamp)) fs /\ (list_sum (length ∘ Body <$> fs) <= 6)%nat.
Proof.
  destruct (allFrames_total [64; 100; 2; 7; 8; 0]) as (fs & bad & H1 & H2 & H3 & _).
  - repeat constructor; vm_compute; discriminate.
  - exists fs, bad. split; [exact H1|]. split; [exact H2|exact H3].
Defined.

Lemma media_frame_round_trip_witness :
  decodeMediaFrame (writeMediaFrame [] 1000000 [9; 8; 7]) = Ok (1000000, [9; 8; 7]).
Proof.
  destruct (media_frame_round_trip 1000000 [9; 8; 7]) as (_ & _ & H).
  - split; vm_compute; [discriminate|reflexivity].
  - repeat constructor; vm_compute; discriminate.
  - vm_compute. discriminate.
  - exact H.
Defined.
