(* ===== verification/Flv.v ===== *)
(** * Flv: codec configurations of the RTMP ingest

    src/internal/ingest/flv.go: the AVCDecoderConfigurationRecord and the
    AudioSpecificConfig a publisher sends, parsed into configurations and
    serialised again for the catalog, the tags' headers, and the picture size
    read from an H.264 sequence parameter set. Also [isVideoKeyframe] of rtmp.go.

    An index or a slice out of range is [Panic]; the theorems show that no input
    reaches one. *)
From S2P Require Import Prelude GoBytes.

Open Scope Z_scope.

Inductive flv_error :=
| ErrShortVideoTag | ErrShortAudioTag | ErrNotAVC | ErrNotAAC | ErrBadAVCConfig | ErrBadAACConfig
| ErrPacketType (got : Z) | ErrShortASC | Panic.

Abbreviation len b := (Z.of_nat (length b)).

Abbreviation index := (index_or Panic).
Abbreviation slice := (slice_or Panic).
Abbreviation uint16_at := (uint16_or Panic).

Definition flvCodecIDAVC : Z := 7.
Definition flvAVCSeqHeader : Z := 0.
Definition flvSoundFormatAAC : Z := 10.
Definition flvAACSeqHeader : Z := 0.
Definition flvAACRaw : Z := 1.

(** ** The bit reader *)

(** [data] and the bit offset. Past the end it reads zeros. *)
Definition bit (data : bytes) (off : Z) : Z :=
  match data !! Z.to_nat (off / 8) with
  | Some b => Z.land (Z.shiftr b (7 - off mod 8)) 1
  | None => 0
  end.

Fixpoint readBits_from (data : bytes) (n : nat) (val off : Z) : Z * Z :=
  match n with
  | O => (val, off)
  | S n => readBits_from data n (Z.lor (wrapu 32 (Z.shiftl val 1)) (bit data off)) (off + 1)
  end.
Definition readBits (data : bytes) (n : nat) (off : Z) : Z * Z := readBits_from data n 0 off.

(** The loop of [readExpGolomb]: the number of zeros before a one, or [None] past
    31 of them; [k] is how many more it allows. *)
Fixpoint leading (data : bytes) (k : nat) (zeros off : Z) : option Z * Z :=
  let '(b, off) := readBits data 1 off in
  if b =? 0 then
    match k with
    | O => (None, off)
    | S k => leading data k (zeros + 1) off
    end
  else (Some zeros, off).

Definition readExpGolomb (data : bytes) (off : Z) : Z * Z :=
  match leading data 31 0 off with
  | (None, off) => (0, off)
  | (Some zeros, off) =>
      if zeros =? 0 then (0, off)
      else let '(v, off) := readBits data (Z.to_nat zeros) off in
           (wrapu 32 (wrapu 32 (wrapu 32 (Z.shiftl 1 zeros) - 1) + v), off)
  end.

Definition readSignedEG (data : bytes) (off : Z) : Z * Z :=
  let '(v, off) := readExpGolomb data off in
  if v mod 2 =? 0 then (wraps 32 (- wraps 32 (v / 2)), off) else (wraps 32 (wrapu 32 (v + 1) / 2), off).

(** [skipScalingList]; the remainder is Go's, with the sign of the dividend. *)
Fixpoint skipScaling (data : bytes) (size : nat) (lastScale nextScale off : Z) : Z :=
  match size with
  | O => off
  | S size =>
      let '(nextScale, off) :=
        if negb (nextScale =? 0) then let '(delta, off) := readSignedEG data off in (Z.rem (lastScale + delta + 256) 256, off)
        else (nextScale, off) in
      skipScaling data size (if negb (nextScale =? 0) then nextScale else lastScale) nextScale off
  end.
Definition skipScalingList (data : bytes) (size : nat) (off : Z) : Z := skipScaling data size 8 8 off.

(** The scaling lists [i], [i + 1], ..., [count] of them. *)
Fixpoint scaling_lists (data : bytes) (count : nat) (i off : Z) : Z :=
  match count with
  | O => off
  | S count =>
      let '(b, off) := readBits data 1 off in
      scaling_lists data count (i + 1)
        (if b =? 1 then skipScalingList data (if 6 <=? i then 64 else 16) off else off)
  end.

Definition skipExpGolomb (data : bytes) (off : Z) : Z := (readExpGolomb data off).2.
Definition skipSignedEG (data : bytes) (off : Z) : Z := (readSignedEG data off).2.

Definition highProfiles : list Z := [100; 110; 122; 244; 44; 83; 86; 118; 128].

(** The fields of the high profiles. *)
Definition sps_high (data : bytes) (off : Z) : Z :=
  let '(chroma, off) := readExpGolomb data off in
  let off := if chroma =? 3 then off + 1 else off in
  let off := skipExpGolomb data off in
  let off := skipExpGolomb data off in
  let off := off + 1 in
  let '(scaling, off) := readBits data 1 off in
  if scaling =? 1 then scaling_lists data (if chroma =? 3 then 12 else 8) 0 off else off.

(** From the NAL header to the picture order count type. *)
Definition sps_head (sps : bytes) : Z * Z :=
  let off := 8 in
  let '(profileIDC, off) := readBits sps 8 off in
  let off := off + 8 + 8 in
  let off := skipExpGolomb sps off in
  let off := if bool_decide (profileIDC ∈ highProfiles) then sps_high sps off else off in
  let off := skipExpGolomb sps off in
  readExpGolomb sps off.

(** The switch on the picture order count type. *)
Definition sps_poc (sps : bytes) (ty off : Z) : Z :=
  if ty =? 0 then skipExpGolomb sps off
  else if ty =? 1 then
    let off := off + 1 in
    let off := skipSignedEG sps off in
    let off := skipSignedEG sps off in
    let '(n, off) := readExpGolomb sps off in
    Z.iter n (skipSignedEG sps) off
  else off.

(** The picture size, and the offset the reader ends at. *)
Definition sps_tail (sps : bytes) (off : Z) : Z * Z * Z :=
  let off := skipExpGolomb sps off in
  let off := off + 1 in
  let '(w, off) := readExpGolomb sps off in
  let picWidthMbs := wrapu 32 (w + 1) in
  let '(h, off) := readExpGolomb sps off in
  let picHeightMapUnits := wrapu 32 (h + 1) in
  let '(frameMbsOnlyFlag, off) := readBits sps 1 off in
  let off := if frameMbsOnlyFlag =? 0 then off + 1 else off in
  let off := off + 1 in
  let '(frameCropFlag, off) := readBits sps 1 off in
  let '(cropLeft, cropRight, cropTop, cropBottom, off) :=
    if frameCropFlag =? 1 then
      let '(l, off) := readExpGolomb sps off in
      let '(r, off) := readExpGolomb sps off in
      let '(t, off) := readExpGolomb sps off in
      let '(b, off) := readExpGolomb sps off in
      (l, r, t, b, off)
    else (0, 0, 0, 0, off) in
  (picWidthMbs * 16 - (cropLeft + cropRight) * 2,
   (2 - frameMbsOnlyFlag) * picHeightMapUnits * 16 - (cropTop + cropBottom) * 2, off).

Definition parseSPS (sps : bytes) : Z * Z * Z :=
  let '(ty, off) := sps_head sps in sps_tail sps (sps_poc sps ty off).

Definition parseSPSDimensions (sps : bytes) : Z * Z :=
  if len sps <? 4 then (0, 0) else (parseSPS sps).1.

(** ** AVCDecoderConfigurationRecord *)

Record AVCConfig := mkAVC {
  ProfileIDC : Z; ProfileCompat : Z; LevelIDC : Z;
  NALULenSize : Z;
  SPS : list bytes; PPS : list bytes;
  Width : Z; Height : Z
}.

(** [BuildAVCDecoderConfigurationRecord] for a configuration that is not nil. *)
Fixpoint append_nalus (buf : bytes) (nalus : list bytes) : result flv_error bytes :=
  match nalus with
  | [] => Ok buf
  | n :: nalus =>
      guard_err (negb (65535 <? len n)) ErrBadAVCConfig;;
      append_nalus (buf ++ be 2 (wrapu 16 (len n)) ++ n) nalus
  end.

Definition BuildAVCDecoderConfigurationRecord (cfg : AVCConfig) : result flv_error bytes :=
  guard_err (negb ((cfg.(NALULenSize) <? 1) || (4 <? cfg.(NALULenSize)))) ErrBadAVCConfig;;
  guard_err (negb ((len cfg.(SPS) =? 0) || (31 <? len cfg.(SPS)))) ErrBadAVCConfig;;
  guard_err (negb (255 <? len cfg.(PPS))) ErrBadAVCConfig;;
  buf ← append_nalus [1; cfg.(ProfileIDC); cfg.(ProfileCompat); cfg.(LevelIDC);
                      Z.lor 252 (byte (cfg.(NALULenSize) - 1)); Z.lor 224 (byte (len cfg.(SPS)))] cfg.(SPS);
  append_nalus (buf ++ [byte (len cfg.(PPS))]) cfg.(PPS).

(** Pass 1 of the parser: the offset after [n] parameter sets and their total
    length. *)
Fixpoint scan_nalus (n : nat) (buf : bytes) (calcOff totalLen : Z) : result flv_error (Z * Z) :=
  match n with
  | O => Ok (calcOff, totalLen)
  | S n =>
      guard_err (negb (len buf <? calcOff + 2)) ErrBadAVCConfig;;
      l ← uint16_at buf calcOff;
      let calcOff := calcOff + 2 in
      guard_err (negb (len buf <? calcOff + l)) ErrBadAVCConfig;;
      scan_nalus n buf (calcOff + l) (totalLen + l)
  end.

(** Pass 2: the parameter sets are copied one after another into [paramBytes];
    what is kept of each is its place there. *)
Fixpoint copy_nalus (n : nat) (buf : bytes) (off : Z) (paramBytes : bytes) (byteOff : Z) (acc : list (Z * Z)) :
    result flv_error (Z * bytes * Z * list (Z * Z)) :=
  match n with
  | O => Ok (off, paramBytes, byteOff, acc)
  | S n =>
      l ← uint16_at buf off;
      let off := off + 2 in
      dst ← slice paramBytes byteOff (len paramBytes);
      src ← slice buf off (off + l);
      let k := Z.min (len dst) (len src) in
      let paramBytes := take (Z.to_nat byteOff) paramBytes ++ take (Z.to_nat k) src ++ drop (Z.to_nat (byteOff + k)) paramBytes in
      _ ← slice paramBytes byteOff (byteOff + l);
      copy_nalus n buf (off + l) paramBytes (byteOff + l) (acc ++ [(byteOff, l)])
  end.

Definition param (paramBytes : bytes) (p : Z * Z) : bytes := take (Z.to_nat p.2) (drop (Z.to_nat p.1) paramBytes).

Definition parseAVCDecoderConfigurationRecord (buf : bytes) : result flv_error AVCConfig :=
  guard_err (negb (len buf <? 6)) ErrBadAVCConfig;;
  b1 ← index buf 1; b2 ← index buf 2; b3 ← index buf 3; b4 ← index buf 4; b5 ← index buf 5;
  let numSPS := Z.land b5 31 in
  '(calcOff, totalLen) ← scan_nalus (Z.to_nat numSPS) buf 6 0;
  guard_err (negb (len buf <=? calcOff)) ErrBadAVCConfig;;
  numPPS ← index buf calcOff;
  '(_, totalLen) ← scan_nalus (Z.to_nat numPPS) buf (calcOff + 1) totalLen;
  '(off, paramBytes, byteOff, sps) ← copy_nalus (Z.to_nat numSPS) buf 6 (replicate (Z.to_nat totalLen) 0) 0 [];
  numPPS ← index buf off;
  '(_, paramBytes, _, pps) ← copy_nalus (Z.to_nat numPPS) buf (off + 1) paramBytes byteOff [];
  let SPS := param paramBytes <$> sps in
  let PPS := param paramBytes <$> pps in
  let '(w, h) := match SPS with [] => (0, 0) | s :: _ => parseSPSDimensions s end in
  Ok (mkAVC b1 b2 b3 (Z.land b4 3 + 1) SPS PPS w h).

Definition ParseAVCConfig (data : bytes) : result flv_error AVCConfig :=
  guard_err (negb (len data <? 6)) ErrShortVideoTag;;
  b0 ← index data 0;
  guard_err (Z.land b0 15 =? flvCodecIDAVC) ErrNotAVC;;
  b1 ← index data 1;
  guard_err (b1 =? flvAVCSeqHeader) (ErrPacketType b1);;
  rec ← slice data 5 (len data);
  parseAVCDecoderConfigurationRecord rec.

(** [parseFLVVideoCTS]; [^0xFFFFFF] is the complement. *)
Definition parseFLVVideoCTS (data : bytes) : result flv_error Z :=
  b2 ← index data 2; b3 ← index data 3; b4 ← index data 4;
  let cts := Z.lor (Z.lor (wraps 32 (Z.shiftl b2 16)) (wraps 32 (Z.shiftl b3 8))) b4 in
  Ok (if negb (Z.land cts 0x800000 =? 0) then Z.lor cts (Z.lnot 0xFFFFFF) else cts).

(** ** AudioSpecificConfig *)

Record AACConfig := mkAAC { ObjectType : Z; SampleRate : Z; ChannelConfig : Z }.

Definition aacSampleRates : list Z :=
  [96000; 88200; 64000; 48000; 44100; 32000; 24000; 22050; 16000; 12000; 11025; 8000; 7350].

Definition parseAudioSpecificConfig (asc : bytes) : result flv_error AACConfig :=
  guard_err (negb (len asc <? 2)) ErrShortASC;;
  a0 ← index asc 0; a1 ← index asc 1;
  let objectType := Z.land (Z.shiftr a0 3) 31 in
  let freqIdx := Z.lor (byte (Z.shiftl (Z.land a0 7) 1)) (Z.shiftr a1 7) in
  let chanCfg := Z.land (Z.shiftr a1 3) 15 in
  let sampleRate := if freqIdx <? len aacSampleRates then default 0 (aacSampleRates !! Z.to_nat freqIdx) else 0 in
  Ok (mkAAC objectType sampleRate chanCfg).

Definition ParseAACConfig (data : bytes) : result flv_error AACConfig :=
  guard_err (negb (len data <? 4)) ErrShortAudioTag;;
  b0 ← index data 0;
  guard_err (Z.land (Z.shiftr b0 4) 15 =? flvSoundFormatAAC) ErrNotAAC;;
  b1 ← index data 1;
  guard_err (b1 =? flvAACSeqHeader) (ErrPacketType b1);;
  asc ← slice data 2 (len data);
  parseAudioSpecificConfig asc.

Fixpoint rate_index (i : Z) (rates : list Z) (hz : Z) : option Z :=
  match rates with
  | [] => None
  | r :: rates => if r =? hz then Some i else rate_index (i + 1) rates hz
  end.
Definition aacSampleRateIndex (hz : Z) : option Z := rate_index 0 aacSampleRates hz.

Definition BuildAudioSpecificConfig (cfg : AACConfig) : result flv_error bytes :=
  guard_err (negb ((cfg.(ObjectType) <? 1) || (31 <? cfg.(ObjectType)))) ErrBadAACConfig;;
  guard_err (negb ((cfg.(ChannelConfig) <? 1) || (15 <? cfg.(ChannelConfig)))) ErrBadAACConfig;;
  freqIdx ← of_option ErrBadAACConfig (aacSampleRateIndex cfg.(SampleRate));
  Ok [Z.lor (byte (Z.shiftl cfg.(ObjectType) 3)) (byte (Z.shiftr freqIdx 1));
      Z.lor (byte (Z.shiftl (byte (Z.land freqIdx 1)) 7)) (byte (Z.shiftl cfg.(ChannelConfig) 3))].

Definition StripFLVAudioHeader (data : bytes) : result flv_error bytes :=
  guard_err (negb (len data <? 2)) ErrShortAudioTag;;
  b0 ← index data 0;
  guard_err (Z.land (Z.shiftr b0 4) 15 =? flvSoundFormatAAC) ErrNotAAC;;
  b1 ← index data 1;
  guard_err (b1 =? flvAACRaw) (ErrPacketType b1);;
  slice data 2 (len data).

(** The tests read their bytes only after the length test. *)
Definition IsVideoSequenceHeader (data : bytes) : bool :=
  match data with b0 :: b1 :: _ => (Z.land b0 15 =? flvCodecIDAVC) && (b1 =? flvAVCSeqHeader) | _ => false end.
Definition IsAudioSequenceHeader (data : bytes) : bool :=
  match data with
  | b0 :: b1 :: _ => (Z.land (Z.shiftr b0 4) 15 =? flvSoundFormatAAC) && (b1 =? flvAACSeqHeader)
  | _ => false
  end.
Definition isVideoKeyframe (data : bytes) : bool :=
  match data with b0 :: _ => Z.land (Z.shiftr b0 4) 7 =? 1 | [] => false end.

(** ** The record, read in one pass *)

Fixpoint nalus (n : nat) (s : bytes) : option (list bytes * bytes) :=
  match n with
  | O => Some ([], s)
  | S n =>
      '(l, s) ← read_full 2 s;
      '(nalu, s) ← read_full (of_be l) s;
      '(l, s) ← nalus n s;
      Some (nalu :: l, s)
  end.

Definition record_of (buf : bytes) : option AVCConfig :=
  match buf with
  | _ :: pf :: cp :: lv :: b4 :: b5 :: s =>
      '(sps, s) ← nalus (Z.to_nat (Z.land b5 31)) s;
      match s with
      | [] => None
      | np :: s =>
          '(pps, _) ← nalus (Z.to_nat np) s;
          let '(w, h) := match sps with [] => (0, 0) | s :: _ => parseSPSDimensions s end in
          Some (mkAVC pf cp lv (Z.land b4 3 + 1) sps pps w h)
      end
  | _ => None
  end.

(** The total length of parameter sets, and the places they are copied to. *)
Definition total (l : list bytes) : Z := len (concat l).

Fixpoint places (at_ : Z) (l : list bytes) : list (Z * Z) :=
  match l with [] => [] | n :: l => (at_, len n) :: places (at_ + len n) l end.

Lemma of_be_take_ok s n : bytes_ok s -> 0 <= of_be (take n s).
Proof. intros Hs. apply of_be_range. by apply Forall_take. Qed.

Lemma scan_nalus_spec n buf off tot :
  bytes_ok buf -> 0 <= off <= len buf ->
  scan_nalus n buf off tot =
  match nalus n (drop (Z.to_nat off) buf) with
  | Some (l, rest) => Ok (len buf - len rest, tot + total l)
  | None => Err ErrBadAVCConfig
  end.
Proof.
  intros Hb. revert off tot. induction n as [|n IH]; intros off tot Ho; cbn [scan_nalus nalus].
  { rewrite length_drop. unfold total. cbn. do 2 f_equal; lia. }
  set (s := drop (Z.to_nat off) buf). assert (Hs : bytes_ok s) by (by apply Forall_drop).
  pose proof (uint16_ok Panic buf off s ltac:(lia) eq_refl) as Hu. assert (Hl : length s = (length buf - Z.to_nat off)%nat) by (subst s; apply length_drop).
  unfold read_full. destruct (Z.ltb_spec (len s) 2); [destruct (Z.ltb_spec (len buf) (off + 2)); [done|lia]|].
  destruct (Z.ltb_spec (len buf) (off + 2)); [lia|]. destruct Hu as (-> & _ & Hd). cbn [negb guard_err mbind result_bind option_bind].
  change (Z.to_nat 2) with 2%nat. set (k := of_be (take 2 s)). pose proof (of_be_take_ok s 2 Hs) as Hk. fold k in Hk.
  rewrite length_drop. destruct (Z.ltb_spec (Z.of_nat (length s - 2)) k), (Z.ltb_spec (len buf) (off + 2 + k)); try lia; [done|].
  cbn [negb guard_err mbind result_bind option_bind]. rewrite IH by lia.
  replace (drop (Z.to_nat (off + 2 + k)) buf) with (drop (Z.to_nat k) (drop 2 s)).
  2:{ rewrite <- Hd, drop_drop. f_equal. lia. }
  destruct (nalus n (drop (Z.to_nat k) (drop 2 s))) as [[l rest]|]; cbn [mbind option_bind]; [|done].
  unfold total. cbn [concat]. rewrite length_app, length_take, length_drop. do 2 f_equal. lia.
Qed.

Lemma param_places pre l post : param (pre ++ concat l ++ post) <$> places (len pre) l = l.
Proof.
  revert pre. induction l as [|n l IH]; intros pre; [done|]. cbn [places fmap list_fmap concat]. f_equal.
  - unfold param. cbn [fst snd]. rewrite !Nat2Z.id, drop_app_length, <- app_assoc. apply take_app_length.
  - rewrite <- Nat2Z.inj_add, <- length_app. replace (pre ++ (n ++ concat l) ++ post) with ((pre ++ n) ++ concat l ++ post) by (by rewrite <- !app_assoc).
    apply IH.
Qed.

(** Copying leaves the parameter sets one after another. *)
Lemma copy_nalus_spec n buf off pre pad acc l rest :
  bytes_ok buf -> 0 <= off <= len buf -> nalus n (drop (Z.to_nat off) buf) = Some (l, rest) -> total l <= len pad ->
  copy_nalus n buf off (pre ++ pad) (len pre) acc =
  Ok (len buf - len rest, pre ++ concat l ++ drop (length (concat l)) pad, len pre + total l, acc ++ places (len pre) l).
Proof.
  intros Hb. revert off pre pad acc l. induction n as [|n IH]; intros off pre pad acc l Ho Hn Ht; cbn [copy_nalus nalus] in *.
  { injection Hn as <- <-. rewrite length_drop. cbn. rewrite drop_0, app_nil_r. unfold total. cbn. repeat f_equal; lia. }
  set (s := drop (Z.to_nat off) buf) in *. assert (Hs : bytes_ok s) by (by apply Forall_drop).
  pose proof (uint16_ok Panic buf off s ltac:(lia) eq_refl) as Hu. assert (Hl : length s = (length buf - Z.to_nat off)%nat) by (subst s; apply length_drop).
  unfold read_full in Hn. destruct (Z.ltb_spec (len s) 2); [done|]. destruct Hu as (-> & _ & Hd). cbn [mbind result_bind option_bind] in *.
  change (Z.to_nat 2) with 2%nat in *. set (k := of_be (take 2 s)) in *. pose proof (of_be_take_ok s 2 Hs) as Hk. fold k in Hk.
  rewrite length_drop in Hn. destruct (Z.ltb_spec (Z.of_nat (length s - 2)) k); [done|]. cbn [mbind option_bind] in Hn.
  destruct (nalus n (drop (Z.to_nat k) (drop 2 s))) as [[l' rest']|] eqn:Hn'; [|done]. cbn [mbind option_bind] in Hn. injection Hn as <- <-.
  set (nalu := take (Z.to_nat k) (drop 2 s)) in *. assert (Hnl : len nalu = k) by (subst nalu; rewrite length_take, length_drop; lia).
  unfold total in Ht. cbn [concat] in Ht. rewrite length_app in Ht.
  rewrite (slice_ok Panic (pre ++ pad)) by (rewrite ?length_app; lia || reflexivity). cbn [mbind result_bind].
  rewrite slice_ok by lia. cbn [mbind result_bind]. rewrite Hd. replace (off + 2 + k - (off + 2)) with k by lia. fold nalu.
  rewrite !Nat2Z.id, drop_app_length, length_app. rewrite (take_ge pad) by lia.
  replace (Z.min (len pad) (len nalu)) with (len nalu) by lia. rewrite Nat2Z.id, take_app_length, firstn_all.
  replace (Z.to_nat (len pre + len nalu)) with (length pre + length nalu)%nat by lia. rewrite drop_app_add.
  assert (Hpn : pre ++ nalu ++ drop (length nalu) pad = (pre ++ nalu) ++ drop (length nalu) pad) by apply app_assoc.
  rewrite slice_ok by (rewrite ?length_app, ?length_drop; lia). cbn [mbind result_bind].
  replace (len pre + k) with (len (pre ++ nalu)) by (rewrite length_app; lia). rewrite Hpn.
  rewrite (IH (off + 2 + k) (pre ++ nalu) (drop (length nalu) pad) _ l').
  - unfold total. cbn [concat places]. rewrite !length_app, drop_drop, <- !app_assoc, <- Hnl, Nat2Z.inj_add. cbn [app]. by rewrite Nat2Z.inj_add, Z.add_assoc.
  - lia.
  - rewrite <- Hn', <- Hd, drop_drop. f_equal. f_equal. lia.
  - unfold total. rewrite length_drop. lia.
Qed.

Lemma nalus_rest n s l rest : bytes_ok s -> nalus n s = Some (l, rest) -> exists k, rest = drop k s /\ (k <= length s)%nat.
Proof.
  intros Hs. revert s l Hs. induction n as [|n IH]; intros s l Hs Hn; cbn [nalus] in Hn.
  { injection Hn as _ <-. exists 0%nat. split; [by rewrite drop_0|lia]. }
  destruct (read_full 2 s) as [[a s1]|] eqn:H1; [|done]. cbn [mbind option_bind] in Hn.
  destruct (read_full (of_be a) s1) as [[b s2]|] eqn:H2; [|done]. cbn [mbind option_bind] in Hn.
  destruct (nalus n s2) as [[l' r]|] eqn:H3; [|done]. cbn [mbind option_bind] in Hn. injection Hn as _ <-.
  apply read_full_inv in H1 as [-> Ha]; [|lia]. apply Forall_app in Hs as [Hoa Hs1].
  apply read_full_inv in H2 as [-> Hb]; [|by apply of_be_range]. apply Forall_app in Hs1 as [_ Hs2].
  destruct (IH _ _ Hs2 H3) as (k & -> & Hk). exists (length a + (length b + k))%nat.
  rewrite drop_app_add, drop_app_add. split; [done|]. rewrite !length_app. lia.
Qed.

(** Parsing an AVCDecoderConfigurationRecord in two passes, measuring the
    parameter sets, then copying them one after another into one array, gives on
    any bytes what reading the record once from front to back gives: the same
    configuration, or ErrBadAVCConfig exactly when it is cut short. No slice of
    either pass is out of range. *)
Theorem avc_two_passes buf :
  bytes_ok buf -> parseAVCDecoderConfigurationRecord buf = of_option ErrBadAVCConfig (record_of buf).
Proof.
  intros Hb. unfold parseAVCDecoderConfigurationRecord, record_of.
  destruct buf as [|b0 [|b1 [|b2 [|b3 [|b4 [|b5 s]]]]]]; try done. set (buf := b0 :: b1 :: b2 :: b3 :: b4 :: b5 :: s) in *.
  assert (Hlb : length buf = (6 + length s)%nat) by done. assert (Hs : bytes_ok s) by (repeat (apply Forall_cons in Hb as [_ Hb]); done).
  destruct (Z.ltb_spec (len buf) 6); [lia|]. cbn [negb guard_err mbind result_bind].
  rewrite (index_ok Panic buf 1 b1), (index_ok Panic buf 2 b2), (index_ok Panic buf 3 b3), (index_ok Panic buf 4 b4), (index_ok Panic buf 5 b5) by (done || lia).
  cbn [mbind result_bind]. assert (Hd : drop (Z.to_nat 6) buf = s) by (change (Z.to_nat 6) with 6%nat; apply drop_0).
  rewrite scan_nalus_spec, Hd by (done || lia).
  destruct (nalus (Z.to_nat (Z.land b5 31)) s) as [[sps s1]|] eqn:Hsps; [|done]. cbn [mbind result_bind option_bind].
  destruct (nalus_rest _ _ _ _ Hs Hsps) as (k & Hk & Hkl). assert (Hl1 : length s1 = (length s - k)%nat) by (by rewrite Hk, length_drop).
  assert (Hd1 : drop (Z.to_nat (len buf - len s1)) buf = s1).
  { rewrite Hk, <- Hd, drop_drop. f_equal. change (Z.to_nat 6) with 6%nat. rewrite length_drop. lia. }
  destruct s1 as [|np s2]; cbn [length] in *; [destruct (Z.leb_spec (len buf) (len buf - Z.of_nat 0)); [done|lia]|].
  destruct (Z.leb_spec (len buf) (len buf - Z.of_nat (S (length s2)))); [lia|]. cbn [negb guard_err mbind result_bind].
  set (off := len buf - Z.of_nat (S (length s2))) in *. assert (Ho : 0 <= off) by lia.
  assert (Hnp : index buf off = Ok np) by (apply index_ok; [done|]; rewrite <- (Nat.add_0_r (Z.to_nat off)), <- lookup_drop, Hd1; done).
  assert (Hd2 : drop (Z.to_nat (off + 1)) buf = s2).
  { replace (Z.to_nat (off + 1)) with (Z.to_nat off + 1)%nat by lia. rewrite <- drop_drop, Hd1. done. }
  rewrite Hnp. cbn [mbind result_bind]. rewrite scan_nalus_spec, Hd2 by (done || lia).
  destruct (nalus (Z.to_nat np) s2) as [[pps rest]|] eqn:Hpps; [|done]. cbn [mbind result_bind option_bind]. rewrite Z.add_0_l.
  assert (Hpad : replicate (Z.to_nat (total sps + total pps)) 0 = [] ++ replicate (Z.to_nat (total sps)) 0 ++ replicate (Z.to_nat (total pps)) 0).
  { cbn [app]. rewrite <- replicate_add. f_equal. unfold total. lia. }
  rewrite Hpad. pose proof (copy_nalus_spec (Z.to_nat (Z.land b5 31)) buf 6 [] (replicate (Z.to_nat (total sps)) 0 ++ replicate (Z.to_nat (total pps)) 0)
    [] sps (np :: s2) Hb ltac:(lia)) as Hc1. rewrite Hd in Hc1. cbn [length] in Hc1. change (Z.of_nat 0) with 0 in Hc1.
  rewrite Hc1; [|done|rewrite length_app, !length_replicate; unfold total; lia]. clear Hc1. cbn [mbind result_bind app]. fold off. rewrite Hnp. cbn [mbind result_bind].
  replace (drop (length (concat sps)) _) with (replicate (Z.to_nat (total pps)) 0).
  2:{ replace (length (concat sps)) with (length (replicate (Z.to_nat (total sps)) 0)) by (rewrite length_replicate; unfold total; lia). by rewrite drop_app_length. }
  rewrite Z.add_0_l. unfold total at 2. rewrite (copy_nalus_spec _ _ _ _ _ _ pps rest) by (rewrite ?Hd2, ?length_replicate; unfold total; done || lia).
  cbn [mbind result_bind app]. rewrite (drop_ge (replicate _ _)) by (rewrite length_replicate; unfold total; lia).
  pose proof (param_places [] sps (concat pps ++ [])) as Hp1. cbn [app length] in Hp1. change (Z.of_nat 0) with 0 in Hp1. rewrite Hp1, (param_places (concat sps) pps []).
  destruct sps as [|s0 sps]; [done|]. by destruct (parseSPSDimensions s0).
Qed.

(** ** Serialising a configuration *)

Definition encode_nalus (l : list bytes) : bytes := concat ((fun n => be 2 (len n) ++ n) <$> l).

Lemma append_nalus_ok buf l p : append_nalus buf l = Ok p <-> p = buf ++ encode_nalus l /\ Forall (fun n => len n <= 65535) l.
Proof.
  revert buf. induction l as [|n l IH]; intros buf; cbn [append_nalus].
  { unfold encode_nalus. cbn. rewrite app_nil_r. split; [intros [= ->]; done|by intros [-> _]]. }
  unfold encode_nalus in *. cbn [fmap list_fmap concat]. rewrite Forall_cons. destruct (Z.ltb_spec 65535 (len n)); cbn [negb guard_err mbind result_bind].
  - split; [done|]. intros (_ & ? & _). lia.
  - rewrite IH, wrapu_id by (unfold in_u; lia). rewrite <- !app_assoc. intuition.
Qed.

Lemma nalus_encode l rest : Forall (fun n => len n <= 65535) l -> nalus (length l) (encode_nalus l ++ rest) = Some (l, rest).
Proof.
  induction 1 as [|n l Hn _ IH]; [done|]. unfold encode_nalus in *. cbn [fmap list_fmap concat length nalus]. rewrite <- !app_assoc.
  rewrite read_full_app by (by rewrite length_be). cbn [mbind option_bind]. rewrite of_be_be_id by (change (256 ^ Z.of_nat 2) with 65536; lia).
  rewrite read_full_app by done. cbn [mbind option_bind]. by rewrite IH.
Qed.

Lemma nalus_inv n s l rest :
  bytes_ok s -> nalus n s = Some (l, rest) -> length l = n /\ s = encode_nalus l ++ rest /\ Forall (fun n => len n <= 65535) l.
Proof.
  intros Hs. revert s l Hs. induction n as [|n IH]; intros s l Hs Hn; cbn [nalus] in Hn.
  { injection Hn as <- <-. done. }
  destruct (read_full 2 s) as [[a s1]|] eqn:H1; [|done]. cbn [mbind option_bind] in Hn.
  destruct (read_full (of_be a) s1) as [[b s2]|] eqn:H2; [|done]. cbn [mbind option_bind] in Hn.
  destruct (nalus n s2) as [[l' r]|] eqn:H3; [|done]. cbn [mbind option_bind] in Hn. injection Hn as <- <-.
  apply read_full_inv in H1 as [-> Ha]; [|lia]. apply Forall_app in Hs as [Hoa Hs1]. pose proof (of_be_range a Hoa) as Hr.
  apply read_full_inv in H2 as [-> Hb]; [|lia]. apply Forall_app in Hs1 as [_ Hs2].
  destruct (IH _ _ Hs2 H3) as (Hl & -> & Hf). rewrite Ha in Hr. change (256 ^ 2) with 65536 in Hr. cbn [length].
  split; [by rewrite Hl|]. split; [|constructor; [lia|done]]. unfold encode_nalus. cbn [fmap list_fmap concat]. rewrite <- !app_assoc. f_equal.
  destruct a as [|a0 [|a1 [|]]]; [done..| |cbn in Ha; lia]. apply Forall_cons in Hoa as [Ha0 Hoa]. apply Forall_cons in Hoa as [Ha1 _]. unfold byte_ok in *.
  rewrite Hb. cbn. unfold byte. change (Z.pow_pos 256 1) with 256. change (256 ^ Z.of_nat 1) with 256. f_equal; [|f_equal]; Z.div_mod_to_equations; lia.
Qed.

Definition avc_ok (c : AVCConfig) : Prop :=
  byte_ok c.(ProfileIDC) /\ byte_ok c.(ProfileCompat) /\ byte_ok c.(LevelIDC) /\
  Forall bytes_ok c.(SPS) /\ Forall bytes_ok c.(PPS).

(** The dimensions the parser derives. *)
Definition with_size (c : AVCConfig) : AVCConfig :=
  let '(w, h) := match c.(SPS) with [] => (0, 0) | s :: _ => parseSPSDimensions s end in
  mkAVC c.(ProfileIDC) c.(ProfileCompat) c.(LevelIDC) c.(NALULenSize) c.(SPS) c.(PPS) w h.

(** The flags bytes. *)
Lemma flag_bits hi n v : 0 <= n -> 0 <= v < 2 ^ n -> Z.lor (Z.shiftl hi n) v = hi * 2 ^ n + v /\ Z.land (hi * 2 ^ n + v) (Z.ones n) = v.
Proof.
  intros Hn Hv. split; [by apply lor_shiftl|]. rewrite Z.land_ones by done. rewrite Z.add_comm, Z_mod_plus_full. by apply Z.mod_small.
Qed.

Lemma build_ok c p :
  BuildAVCDecoderConfigurationRecord c = Ok p <->
  1 <= c.(NALULenSize) <= 4 /\ 1 <= len c.(SPS) <= 31 /\ len c.(PPS) <= 255 /\
  Forall (fun n => len n <= 65535) c.(SPS) /\ Forall (fun n => len n <= 65535) c.(PPS) /\
  p = [1; c.(ProfileIDC); c.(ProfileCompat); c.(LevelIDC); 252 + (c.(NALULenSize) - 1); 224 + len c.(SPS)] ++
      encode_nalus c.(SPS) ++ [len c.(PPS)] ++ encode_nalus c.(PPS).
Proof.
  unfold BuildAVCDecoderConfigurationRecord.
  destruct (Z.ltb_spec (NALULenSize c) 1), (Z.ltb_spec 4 (NALULenSize c)); cbn [orb negb guard_err mbind result_bind]; try (split; [done|lia]).
  destruct (Z.eqb_spec (len (SPS c)) 0), (Z.ltb_spec 31 (len (SPS c))); cbn [orb negb guard_err mbind result_bind]; try (split; [done|lia]).
  destruct (Z.ltb_spec 255 (len (PPS c))); cbn [negb guard_err mbind result_bind]; [split; [done|lia]|].
  assert (Hf1 : Z.lor 252 (byte (NALULenSize c - 1)) = 252 + (NALULenSize c - 1)).
  { unfold byte. rewrite Z.mod_small by lia. apply (flag_bits 63 2 (NALULenSize c - 1)); lia. }
  assert (Hf2 : Z.lor 224 (byte (len (SPS c))) = 224 + len (SPS c)).
  { unfold byte. rewrite Z.mod_small by lia. apply (flag_bits 7 5 (len (SPS c))); lia. }
  assert (Hf3 : byte (len (PPS c)) = len (PPS c)) by (unfold byte; apply Z.mod_small; lia). rewrite Hf1, Hf2, Hf3.
  rewrite bind_Ok. setoid_rewrite append_nalus_ok. split.
  - intros (b & (-> & Hs1) & -> & Hs2). rewrite <- !app_assoc. repeat split; try done; lia.
  - intros (_ & _ & _ & Hs1 & Hs2 & ->). eexists. split; [split; [done|done]|]. split; [|done]. by rewrite <- !app_assoc.
Qed.

Lemma avc_build_parse c p rest :
  avc_ok c -> bytes_ok rest -> BuildAVCDecoderConfigurationRecord c = Ok p ->
  parseAVCDecoderConfigurationRecord (p ++ rest) = Ok (with_size c).
Proof.
  intros (Hpf & Hcp & Hlv & Hsps & Hpps) Hrest Hb. apply build_ok in Hb as (Hn & Hs & Hp & Hfs & Hfp & ->).
    assert (Hen : forall l, Forall bytes_ok l -> bytes_ok (encode_nalus l)).
    { induction 1 as [|n l Hnb _ IH]; [constructor|]. unfold encode_nalus. cbn [fmap list_fmap concat]. apply Forall_app. split; [|exact IH].
      apply Forall_app. split; [apply be_ok|done]. }
    rewrite avc_two_passes.
    + cbn [app record_of]. rewrite <- app_assoc. cbn [app].
      pose proof (flag_bits 63 2 (NALULenSize c - 1) ltac:(lia) ltac:(lia)) as [_ H1]. change (63 * 2 ^ 2) with 252 in H1. change (Z.ones 2) with 3 in H1.
      pose proof (flag_bits 7 5 (len (SPS c)) ltac:(lia) ltac:(lia)) as [_ H2]. change (7 * 2 ^ 5) with 224 in H2. change (Z.ones 5) with 31 in H2.
      rewrite H1, H2, Nat2Z.id, nalus_encode by done. cbn [mbind option_bind]. rewrite Nat2Z.id, nalus_encode by done. cbn [mbind option_bind].
      unfold with_size. destruct (match SPS c with [] => _ | _ => _ end) as [w h]. cbn [of_option]. do 2 f_equal. lia.
    + apply Forall_app. split; [|done]. repeat (apply Forall_app; split); try (by apply Hen); repeat constructor; unfold byte_ok in *; lia.
Qed.

Lemma avc_parse_build buf c' :
  bytes_ok buf -> parseAVCDecoderConfigurationRecord buf = Ok c' -> c'.(SPS) <> [] ->
  exists b0 pf cp lv b4 b5 body tail, buf = b0 :: pf :: cp :: lv :: b4 :: b5 :: body ++ tail /\
    BuildAVCDecoderConfigurationRecord c' = Ok (1 :: pf :: cp :: lv :: Z.lor 252 (Z.land b4 3) :: Z.lor 224 (Z.land b5 31) :: body).
Proof.
  intros Hbuf Hp Hne. rewrite avc_two_passes in Hp by done. apply of_option_Ok in Hp. unfold record_of in Hp.
    destruct buf as [|b0 [|b1 [|b2 [|b3 [|b4 [|b5 s]]]]]]; try done. assert (Hs : bytes_ok s) by (repeat (apply Forall_cons in Hbuf as [_ Hbuf]); done).
    assert (H45 : byte_ok b4 /\ byte_ok b5) by (repeat (apply Forall_cons in Hbuf as [? Hbuf]); done).
    destruct (nalus (Z.to_nat (Z.land b5 31)) s) as [[sps s1]|] eqn:H1; [|done]. cbn [mbind option_bind] in Hp.
    destruct s1 as [|np s2]; [done|]. destruct (nalus (Z.to_nat np) s2) as [[pps tail]|] eqn:H2; [|done]. cbn [mbind option_bind] in Hp.
    assert (Hc : exists w h, c' = mkAVC b1 b2 b3 (Z.land b4 3 + 1) sps pps w h) by (destruct (match sps with [] => _ | _ => _ end) as [w h]; injection Hp as <-; eauto).
    destruct Hc as (w & h & ->). cbn in Hne. apply nalus_inv in H1 as (Hl1 & -> & Hf1); [|done].
    apply Forall_app in Hs as [_ Hs2]. apply Forall_cons in Hs2 as [Hnp Hs2]. unfold byte_ok in *. apply nalus_inv in H2 as (Hl2 & -> & Hf2); [|done].
    change 3 with (Z.ones 2) in *. change 31 with (Z.ones 5) in *. rewrite Z.land_ones in * by lia.
    pose proof (Z.mod_pos_bound b4 (2 ^ 2) ltac:(lia)) as Hm4. pose proof (Z.mod_pos_bound b5 (2 ^ 5) ltac:(lia)) as Hm5.
    exists b0, b1, b2, b3, b4, b5, (encode_nalus sps ++ np :: encode_nalus pps), tail. split; [by rewrite <- app_assoc|].
    rewrite !Z.land_ones by lia. change (2 ^ 2) with 4 in *. change (2 ^ 5) with 32 in *.
    apply build_ok. cbn [NALULenSize SPS PPS ProfileIDC ProfileCompat LevelIDC].
    assert (len sps = b5 mod 32 /\ len pps = np /\ sps <> []) as (-> & -> & _) by (split; [lia|split; [lia|done]]).
    assert (1 <= b5 mod 32) by (destruct sps; [done|cbn in Hl1; lia]).
    split; [lia|]. split; [lia|]. split; [lia|]. split; [done|]. split; [done|].
    destruct (flag_bits 63 2 (b4 mod 4)) as [Hq4 _]; [lia|done|]. destruct (flag_bits 7 5 (b5 mod 32)) as [Hq5 _]; [lia|done|].
    change (Z.shiftl 63 2) with 252 in Hq4. change (Z.shiftl 7 5) with 224 in Hq5. rewrite Hq4, Hq5. cbn [app]. repeat f_equal; lia.
Qed.

(** The codec configuration sent to browsers is the publisher's, both ways.
    A configuration that can be serialised is parsed back whole, with the picture
    size of its first parameter set, whatever follows the record; and a record
    that parses with at least one SPS is serialised to the same bytes, but for
    the version and the reserved bits, which are set. *)
Theorem avc_round_trip c p rest :
  avc_ok c -> bytes_ok rest -> BuildAVCDecoderConfigurationRecord c = Ok p ->
  parseAVCDecoderConfigurationRecord (p ++ rest) = Ok (with_size c) /\
  forall buf c', bytes_ok buf -> parseAVCDecoderConfigurationRecord buf = Ok c' -> c'.(SPS) <> [] ->
    exists b0 pf cp lv b4 b5 body tail, buf = b0 :: pf :: cp :: lv :: b4 :: b5 :: body ++ tail /\
      BuildAVCDecoderConfigurationRecord c' = Ok (1 :: pf :: cp :: lv :: Z.lor 252 (Z.land b4 3) :: Z.lor 224 (Z.land b5 31) :: body).
Proof.
  intros Hc Hrest Hb. split; [by apply avc_build_parse|]. intros buf c' Hbuf Hp Hne. by apply avc_parse_build.
Qed.

(** ** Reading bits *)

(** The bits [l] stand at [off]. *)
Fixpoint reads (data : bytes) (off : Z) (l : list Z) : bool :=
  match l with [] => true | b :: l => (bit data off =? b) && reads data (off + 1) l end.

Fixpoint bits_of (k : nat) (v : Z) : list Z :=
  match k with O => [] | S k => (v / 2 ^ Z.of_nat k) mod 2 :: bits_of k v end.

(** The Exp-Golomb codes of H.264, 9.1. *)
Definition ue (v : Z) : list Z :=
  let k := Z.to_nat (Z.log2 (v + 1)) in replicate k 0 ++ 1 :: bits_of k (v + 1).
Definition se (s : Z) : list Z := ue (if 0 <? s then 2 * s - 1 else - 2 * s).

Lemma reads_app data off a b : reads data off (a ++ b) = reads data off a && reads data (off + len a) b.
Proof.
  revert off. induction a as [|x a IH]; intros off; cbn [app reads length]; [by rewrite Z.add_0_r|].
  rewrite IH, andb_assoc. f_equal. f_equal. lia.
Qed.

Lemma length_bits_of k v : length (bits_of k v) = k.
Proof. induction k; cbn; congruence. Qed.

(** [readBits] takes the bits most significant first. *)
Lemma readBits_from_spec data k v acc off :
  reads data off (bits_of k v) = true -> 0 <= acc -> (acc + 1) * 2 ^ Z.of_nat k <= 2 ^ 32 ->
  readBits_from data k acc off = (acc * 2 ^ Z.of_nat k + v mod 2 ^ Z.of_nat k, off + Z.of_nat k).
Proof.
  revert acc off. induction k as [|k IH]; intros acc off Hr Ha Hb; cbn [readBits_from bits_of reads] in *.
  { rewrite Z.mod_1_r. f_equal; lia. }
  apply andb_prop in Hr as [Hbit Hr]. apply Z.eqb_eq in Hbit. rewrite Hbit. rewrite Nat2Z.inj_succ, Z.pow_succ_r in * by lia.
  set (P := 2 ^ Z.of_nat k) in *. assert (HP : 0 < P) by (apply Z.pow_pos_nonneg; lia).
  pose proof (Z.mod_pos_bound (v / P) 2 ltac:(lia)) as Hm.
  assert (Hs : Z.shiftl acc 1 = acc * 2) by (by rewrite Z.shiftl_mul_pow2). rewrite wrapu_id by (unfold in_u; rewrite Hs; nia).
  rewrite lor_shiftl by (cbn; lia). change (2 ^ 1) with 2. rewrite IH; [|done|lia|nia].
  rewrite (Z.mul_comm 2 P), Z.rem_mul_r by lia. f_equal; [ring|lia].
Qed.

Lemma readBits_spec data k v off :
  reads data off (bits_of k v) = true -> Z.of_nat k <= 32 -> readBits data k off = (v mod 2 ^ Z.of_nat k, off + Z.of_nat k).
Proof.
  intros Hr Hk. unfold readBits. rewrite (readBits_from_spec _ _ v) by (try done; rewrite Z.mul_1_l; apply Z.pow_le_mono_r; lia). f_equal; lia.
Qed.

Lemma read_one data off : readBits data 1 off = (bit data off, off + 1).
Proof. unfold readBits. cbn [readBits_from]. change (wrapu 32 (Z.shiftl 0 1)) with 0. by rewrite Z.lor_0_l. Qed.

Lemma leading_zeros data k z n off l :
  reads data off (replicate n 0 ++ 1 :: l) = true -> (n <= k)%nat ->
  leading data k z off = (Some (z + Z.of_nat n), off + Z.of_nat n + 1).
Proof.
  revert k z off. induction n as [|n IH]; intros k z off Hr Hn; cbn [replicate app reads] in Hr; apply andb_prop in Hr as [Hb Hr]; apply Z.eqb_eq in Hb.
  - destruct k; cbn [leading]; rewrite read_one, Hb; cbn; do 2 f_equal; lia.
  - destruct k as [|k]; [lia|]. cbn [leading]. rewrite read_one, Hb. cbn [Z.eqb]. rewrite IH by (done || lia). f_equal; [f_equal|]; lia.
Qed.

(** An Exp-Golomb code is read as its value. *)
Lemma read_ue data off v l :
  0 <= v < 2 ^ 32 - 1 -> reads data off (ue v ++ l) = true ->
  readExpGolomb data off = (v, off + len (ue v)) /\ reads data (off + len (ue v)) l = true.
Proof.
  intros Hv Hr. pose proof Hr as Hl. rewrite reads_app in Hl. apply andb_prop in Hl as [_ Hl]. split; [|done].
  unfold ue in *. cbv zeta in *. set (k := Z.to_nat (Z.log2 (v + 1))) in *.
  assert (Hk : Z.of_nat k = Z.log2 (v + 1)) by (subst k; apply Z2Nat.id, Z.log2_nonneg).
  assert (Hk31 : Z.of_nat k <= 31) by (rewrite Hk; apply Z.lt_succ_r, Z.log2_lt_pow2; lia).
  pose proof (Z.log2_spec (v + 1) ltac:(lia)) as Hlog. rewrite <- Hk, Z.pow_succ_r in Hlog by lia.
  rewrite <- app_assoc, <- app_comm_cons in Hr. unfold readExpGolomb. rewrite (leading_zeros _ 31 0 k _ (bits_of k (v + 1) ++ l)) by (done || lia).
  rewrite reads_app in Hr. apply andb_prop in Hr as [_ Hr]. cbn [reads] in Hr. apply andb_prop in Hr as [_ Hr].
  rewrite reads_app in Hr. apply andb_prop in Hr as [Hr _]. rewrite length_replicate in Hr. rewrite Z.add_0_l.
  rewrite length_app, length_replicate. cbn [length]. rewrite length_bits_of.
  destruct (Z.eqb_spec (Z.of_nat k) 0) as [H0|H0].
  - rewrite H0 in Hlog. change (2 ^ 0) with 1 in Hlog. f_equal; lia.
  - rewrite Nat2Z.id, (readBits_spec _ _ (v + 1)) by (done || lia).
    assert (Hp : 2 ^ Z.of_nat k <= 2 ^ 31) by (apply Z.pow_le_mono_r; lia).
    assert (0 < 2 ^ Z.of_nat k) by (apply Z.pow_pos_nonneg; lia).
    assert (Hm : (v + 1) mod 2 ^ Z.of_nat k = v + 1 - 2 ^ Z.of_nat k) by (symmetry; apply Z.mod_unique with 1; lia).
    rewrite Hm, Z.shiftl_mul_pow2, Z.mul_1_l by lia. set (P := 2 ^ Z.of_nat k) in *.
    rewrite (wrapu_id 32 P), (wrapu_id 32 (P - 1)), wrapu_id by (unfold in_u; lia). f_equal; lia.
Qed.

(** A signed code. *)
Lemma read_se data off s l :
  - 2 ^ 31 < s < 2 ^ 31 -> reads data off (se s ++ l) = true ->
  readSignedEG data off = (s, off + len (se s)) /\ reads data (off + len (se s)) l = true.
Proof.
  intros Hs Hr. unfold se in *. set (v := if 0 <? s then 2 * s - 1 else -2 * s) in *.
  assert (Hv : (0 < s /\ v = 2 * s - 1) \/ (s <= 0 /\ v = - 2 * s)) by (subst v; destruct (Z.ltb_spec 0 s); [left|right]; split; lia).
  destruct (read_ue data off v l) as [Hu Hl]; [lia|done|]. split; [|done]. unfold readSignedEG. rewrite Hu.
  destruct Hv as [[? ->]|[? ->]].
  - replace ((2 * s - 1) mod 2) with 1 by (apply Z.mod_unique with (s - 1); lia). cbn [Z.eqb].
    rewrite (wrapu_id 32) by (unfold in_u; lia). replace (2 * s - 1 + 1) with (s * 2) by lia. rewrite Z.div_mul, wraps_id by (unfold in_s; change (2 ^ (32 - 1)) with (2 ^ 31); lia).
    done.
  - replace (-2 * s) with ((- s) * 2) by lia. rewrite Z.mod_mul, Z.div_mul by lia. cbn [Z.eqb].
    rewrite (wraps_id 32 (- s)) by (unfold in_s; change (2 ^ (32 - 1)) with (2 ^ 31); lia). rewrite Z.opp_involutive, wraps_id by (unfold in_s; change (2 ^ (32 - 1)) with (2 ^ 31); lia).
    done.
Qed.

Lemma read_u data off k v l :
  0 <= v < 2 ^ Z.of_nat k -> Z.of_nat k <= 32 -> reads data off (bits_of k v ++ l) = true ->
  readBits data k off = (v, off + Z.of_nat k) /\ reads data (off + Z.of_nat k) l = true.
Proof.
  intros Hv Hk Hr. rewrite reads_app, length_bits_of in Hr. apply andb_prop in Hr as [H1 H2].
  rewrite (readBits_spec _ _ v), Z.mod_small by done. done.
Qed.

Lemma reads_skip data off a l : reads data off (a ++ l) = true -> reads data (off + len a) l = true.
Proof. rewrite reads_app. by intros [_ ?]%andb_prop. Qed.

(** ** The syntax of a sequence parameter set: H.264, 7.3.2.1.1

    Without scaling lists; [rest] is what follows the cropping. *)
Inductive poc := Poc0 (lsb : Z) | Poc1 (zero : Z) (non_ref top_bottom : Z) (offsets : list Z) | Poc2 (ty : Z).

Record sps_syntax := mkSyntax {
  nal : Z; profile : Z; constraints : Z; level : Z; sps_id : Z;
  chroma : Z; separate : Z; luma_depth : Z; chroma_depth : Z; bypass : Z;
  frame_num : Z; order : poc; refs : Z; gaps : Z;
  width_mbs : Z; height_units : Z; frame_mbs_only : Z; mbaff : Z; direct : Z;
  crop : option (Z * Z * Z * Z); rest : list Z
}.

Definition poc_bits (p : poc) : list Z :=
  match p with
  | Poc0 lsb => ue 0 ++ ue lsb
  | Poc1 z a b l => ue 1 ++ [z] ++ se a ++ se b ++ ue (len l) ++ concat (se <$> l)
  | Poc2 ty => ue ty
  end.

Definition high_bits (s : sps_syntax) : list Z :=
  if bool_decide (s.(profile) ∈ highProfiles) then
    ue s.(chroma) ++ (if s.(chroma) =? 3 then [s.(separate)] else []) ++ ue s.(luma_depth) ++ ue s.(chroma_depth) ++ [s.(bypass)] ++ [0]
  else [].

Definition crop_bits (c : option (Z * Z * Z * Z)) : list Z :=
  match c with Some (l, r, t, b) => [1] ++ ue l ++ ue r ++ ue t ++ ue b | None => [0] end.

Definition sps_bits (s : sps_syntax) : list Z :=
  bits_of 8 s.(nal) ++ bits_of 8 s.(profile) ++ bits_of 8 s.(constraints) ++ bits_of 8 s.(level) ++ ue s.(sps_id) ++
  high_bits s ++ ue s.(frame_num) ++ poc_bits s.(order) ++ ue s.(refs) ++ [s.(gaps)] ++
  ue s.(width_mbs) ++ ue s.(height_units) ++ [s.(frame_mbs_only)] ++
  (if s.(frame_mbs_only) =? 0 then [s.(mbaff)] else []) ++ [s.(direct)] ++ crop_bits s.(crop) ++ s.(rest).

Definition ue_ok (v : Z) : Prop := 0 <= v < 2 ^ 32 - 1.
Definition se_ok (s : Z) : Prop := - 2 ^ 31 < s < 2 ^ 31.

Definition poc_ok (p : poc) : Prop :=
  match p with
  | Poc0 lsb => ue_ok lsb
  | Poc1 _ a b l => se_ok a /\ se_ok b /\ ue_ok (len l) /\ Forall se_ok l
  | Poc2 ty => 2 <= ty < 2 ^ 32 - 1
  end.

Definition crop_ok (c : option (Z * Z * Z * Z)) : Prop :=
  match c with Some (l, r, t, b) => ue_ok l /\ ue_ok r /\ ue_ok t /\ ue_ok b | None => True end.

Record syntax_ok (s : sps_syntax) : Prop := {
  so_profile : byte_ok s.(profile);
  so_id : ue_ok s.(sps_id);
  so_chroma : ue_ok s.(chroma);
  so_luma : ue_ok s.(luma_depth);
  so_cdepth : ue_ok s.(chroma_depth);
  so_frame_num : ue_ok s.(frame_num);
  so_order : poc_ok s.(order);
  so_refs : ue_ok s.(refs);
  so_width : 0 <= s.(width_mbs) < 2 ^ 32 - 1;
  so_height : 0 <= s.(height_units) < 2 ^ 32 - 1;
  so_mbs : s.(frame_mbs_only) = 0 \/ s.(frame_mbs_only) = 1;
  so_crop : crop_ok s.(crop)
}.

(** The size the parser is to report: 16 pixels to a macroblock, two to a crop
    unit. *)
Definition size_of (s : sps_syntax) : Z * Z :=
  let '(l, r, t, b) := default (0, 0, 0, 0) s.(crop) in
  (16 * (s.(width_mbs) + 1) - 2 * (l + r),
   16 * (2 - s.(frame_mbs_only)) * (s.(height_units) + 1) - 2 * (t + b)).

(** One field read: the reader's result and what stands next. *)
Ltac field H :=
  let read := fresh "Hread" in let next := fresh "Hnext" in
  first [apply read_se in H as [read next] | apply read_ue in H as [read next]];
  [unfold skipExpGolomb, skipSignedEG; rewrite read; cbn [fst snd]; clear read; rename next into H|].

Lemma iter_succ {A} n (f : A -> A) x : Z.iter (Z.succ (Z.of_nat n)) f x = f (Z.iter (Z.of_nat n) f x).
Proof. rewrite <- Nat2Z.inj_succ. destruct n as [|n]; [done|]. cbn [Z.of_nat Z.iter Pos.of_succ_nat]. apply Pos.iter_succ. Qed.

Lemma skip_offsets data l off bs :
  Forall se_ok l -> reads data off (concat (se <$> l) ++ bs) = true ->
  Z.iter (len l) (skipSignedEG data) off = off + len (concat (se <$> l)) /\ reads data (off + len (concat (se <$> l))) bs = true.
Proof.
  intros Hl. revert off bs. induction l as [|s l IH] using rev_ind; intros off bs Hr.
  { cbn in *. by rewrite Z.add_0_r. }
  apply Forall_app in Hl as [Hl Hs]. apply Forall_cons in Hs as [Hs _]. rewrite fmap_app, concat_app in *. cbn [fmap list_fmap concat] in *. rewrite app_nil_r, <- app_assoc in *.
  destruct (IH Hl off _ Hr) as [Hi Hn]. apply read_se in Hn as [Hrd Hnx]; [|done].
  rewrite !length_app. cbn [length]. rewrite Nat.add_1_r, !Nat2Z.inj_succ, Nat2Z.inj_add, !Z.add_assoc. split; [|done].
  rewrite iter_succ, Hi. unfold skipSignedEG. by rewrite Hrd.
Qed.

Definition poc_type (p : poc) : Z := match p with Poc0 _ => 0 | Poc1 _ _ _ _ => 1 | Poc2 ty => ty end.
Definition poc_fields (p : poc) : list Z :=
  match p with
  | Poc0 lsb => ue lsb
  | Poc1 z a b l => [z] ++ se a ++ se b ++ ue (len l) ++ concat (se <$> l)
  | Poc2 _ => []
  end.

Lemma poc_bits_eq p : poc_bits p = ue (poc_type p) ++ poc_fields p.
Proof. destruct p; cbn [poc_bits poc_type poc_fields]; [done|done|by rewrite app_nil_r]. Qed.

Lemma poc_type_ok p : poc_ok p -> ue_ok (poc_type p).
Proof. unfold ue_ok. destruct p; cbn; lia. Qed.

(** The fields of the high profiles, without scaling lists. *)
Lemma sps_high_spec data s off l :
  syntax_ok s -> s.(profile) ∈ highProfiles -> reads data off (high_bits s ++ l) = true ->
  exists off', sps_high data off = off' /\ reads data off' l = true.
Proof.
  intros Hs Hp. unfold high_bits. rewrite bool_decide_eq_true_2 by done. rewrite <- !app_assoc. intros Hr. unfold sps_high.
  field Hr; [|apply Hs]. set (o := off + len (ue (chroma s))) in *. clearbody o.
  assert (Hsep : exists o', (if chroma s =? 3 then o + 1 else o) = o' /\ reads data o' (ue (luma_depth s) ++ ue (chroma_depth s) ++ [bypass s] ++ [0] ++ l) = true).
  { destruct (chroma s =? 3); [|eauto]. apply reads_skip in Hr. eauto. }
  destruct Hsep as (o' & -> & Hr'). clear Hr o. cbv zeta. field Hr'; [|apply Hs]. field Hr'; [|apply Hs].
  apply reads_skip in Hr'. cbn [length] in Hr'. change (Z.of_nat 1) with 1 in Hr'. rewrite read_one. cbn [app reads] in Hr'. apply andb_prop in Hr' as [Hb Hr']. apply Z.eqb_eq in Hb.
  rewrite Hb. cbn [Z.eqb]. eauto.
Qed.

Lemma sps_head_spec data s l :
  syntax_ok s -> 
  reads data 0 (bits_of 8 s.(nal) ++ bits_of 8 s.(profile) ++ bits_of 8 s.(constraints) ++ bits_of 8 s.(level) ++ ue s.(sps_id) ++
    high_bits s ++ ue s.(frame_num) ++ ue (poc_type s.(order)) ++ l) = true ->
  exists off, sps_head data = (poc_type s.(order), off) /\ reads data off l = true.
Proof.
  intros Hs Hr. unfold sps_head. apply reads_skip in Hr. rewrite length_bits_of in Hr. change (0 + Z.of_nat 8) with 8 in Hr.
  apply read_u in Hr as [Hrd Hr]; [|apply Hs|lia]. rewrite Hrd. apply reads_skip in Hr. apply reads_skip in Hr. rewrite !length_bits_of in Hr.
  change (8 + Z.of_nat 8) with 16 in *. change (16 + Z.of_nat 8 + Z.of_nat 8) with 32 in Hr. change (16 + 8 + 8) with 32. cbv zeta.
  field Hr; [|apply Hs]. set (o := 32 + len (ue (sps_id s))) in *. clearbody o.
  assert (Hh : exists o', (if bool_decide (profile s ∈ highProfiles) then sps_high data o else o) = o' /\ reads data o' (ue (frame_num s) ++ ue (poc_type (order s)) ++ l) = true).
  { case_bool_decide as Hp; [by eapply sps_high_spec|]. unfold high_bits in Hr. rewrite bool_decide_eq_false_2 in Hr by done. eauto. }
  destruct Hh as (o' & -> & Hr'). clear Hr o. field Hr'; [|apply Hs]. apply read_ue in Hr' as [Hrd' Hn]; [|apply poc_type_ok, Hs]. eauto.
Qed.

Lemma sps_poc_spec data p off l :
  poc_ok p -> reads data off (poc_fields p ++ l) = true ->
  exists off', sps_poc data (poc_type p) off = off' /\ reads data off' l = true.
Proof.
  intros Hp Hr. unfold sps_poc. destruct p as [lsb|z a b os|ty]; cbn [poc_type poc_fields poc_ok] in *.
  - cbn [Z.eqb]. field Hr; [|done]. eauto.
  - cbn [Z.eqb]. destruct Hp as (Ha & Hb & Hn & Hos). rewrite <- !app_assoc in Hr. apply reads_skip in Hr. cbn [length] in Hr. change (Z.of_nat 1) with 1 in Hr.
    cbv zeta. field Hr; [|done]. field Hr; [|done]. apply read_ue in Hr as [Hrd Hr]; [|done]. rewrite Hrd.
    change (fun off => (readSignedEG data off).2) with (skipSignedEG data). destruct (skip_offsets _ _ _ _ Hos Hr) as [-> ?]. eauto.
  - destruct (Z.eqb_spec ty 0), (Z.eqb_spec ty 1); try lia. cbn [app] in Hr. eauto.
Qed.

Lemma sps_tail_spec data s off :
  syntax_ok s ->
  reads data off (ue s.(refs) ++ [s.(gaps)] ++ ue s.(width_mbs) ++ ue s.(height_units) ++ [s.(frame_mbs_only)] ++
    (if s.(frame_mbs_only) =? 0 then [s.(mbaff)] else []) ++ [s.(direct)] ++ crop_bits s.(crop) ++ s.(rest)) = true ->
  (sps_tail data off).1 = size_of s.
Proof.
  intros Hs Hr. unfold sps_tail, size_of. cbv zeta. field Hr; [|apply Hs]. apply reads_skip in Hr. cbn [length] in Hr. change (Z.of_nat 1) with 1 in Hr.
  apply read_ue in Hr as [Hw Hr]; [|apply Hs]. rewrite Hw. apply read_ue in Hr as [Hh Hr]; [|apply Hs]. rewrite Hh. clear Hw Hh.
  rewrite read_one. cbn [app reads] in Hr. apply andb_prop in Hr as [Hb Hr]. apply Z.eqb_eq in Hb. rewrite Hb.
  match goal with |- context [if _ =? 0 then ?o + 1 else ?o] => set (o1 := o) in * end. clearbody o1. clear Hb off.
  assert (Hm : exists o', (if frame_mbs_only s =? 0 then o1 + 1 else o1) = o' /\ reads data (o' + 1) (crop_bits (crop s) ++ rest s) = true).
  { destruct (frame_mbs_only s =? 0); cbn [app reads] in Hr; repeat (apply andb_prop in Hr as [_ Hr]); eauto. }
  destruct Hm as (o2 & -> & Hc). clear Hr o1. rewrite read_one. pose proof (so_width _ Hs) as Hw. pose proof (so_height _ Hs) as Hh. pose proof (so_crop _ Hs) as Hok.
  rewrite (wrapu_id 32 (width_mbs s + 1)), (wrapu_id 32 (height_units s + 1)) by (unfold in_u; lia).
  destruct (crop s) as [[[[l r] t] b]|]; cbn [crop_bits app reads default id] in *; apply andb_prop in Hc as [Hb Hc]; apply Z.eqb_eq in Hb; rewrite Hb; cbn [Z.eqb Pos.eqb].
  - destruct Hok as (Hl & Hrr & Ht & Hbb). rewrite <- !app_assoc in Hc. apply read_ue in Hc as [H1 Hc]; [|done]. rewrite H1.
    apply read_ue in Hc as [H2 Hc]; [|done]. rewrite H2. apply read_ue in Hc as [H3 Hc]; [|done]. rewrite H3.
    apply read_ue in Hc as [H4 _]; [|done]. rewrite H4. cbn [fst from_option]. unfold id. f_equal; ring.
  - cbn [fst from_option]. f_equal; ring.
Qed.

(** The picture size in the catalog is the one the sequence parameter set
    encodes: for every set in the syntax of H.264, of any profile, picture order
    count type and cropping, without scaling lists, [parseSPSDimensions] gives
    its macroblock size in pixels less two pixels for every crop unit. *)
Theorem sps_size_read sps s :
  syntax_ok s -> 4 <= len sps -> reads sps 0 (sps_bits s) = true -> parseSPSDimensions sps = size_of s.
Proof.
  intros Hs Hl Hr. unfold parseSPSDimensions. destruct (Z.ltb_spec (len sps) 4); [lia|]. unfold parseSPS, sps_bits in *.
  rewrite poc_bits_eq, <- (app_assoc (ue (poc_type _))) in Hr. apply sps_head_spec in Hr as (off & -> & Hr); [|done].
  apply sps_poc_spec in Hr as (off' & -> & Hr); [|apply Hs]. by apply sps_tail_spec.
Qed.

(** ** What a hostile set makes the reader do *)

(** Past the last one bit, every code is 32 zeros. *)
Lemma read_zeros data off : (forall o, off <= o -> bit data o = 0) -> readExpGolomb data off = (0, off + 32).
Proof.
  intros Hz. assert (Hl : forall k z o, off <= o -> leading data k z o = (None, o + Z.of_nat k + 1)).
  { induction k as [|k IH]; intros z o Ho; cbn [leading]; rewrite read_one, Hz by done; cbn [Z.eqb]; [f_equal; lia|].
    rewrite IH by lia. f_equal. lia. }
  unfold readExpGolomb. rewrite Hl by lia. f_equal. lia.
Qed.

Lemma skip_zeros data n off :
  (forall o, off <= o -> bit data o = 0) -> Z.iter (Z.of_nat n) (skipSignedEG data) off = off + 32 * Z.of_nat n.
Proof.
  intros Hz. induction n as [|n IH]; [change (off = off + 32 * 0); lia|]. rewrite Nat2Z.inj_succ, iter_succ, IH. unfold skipSignedEG, readSignedEG.
  rewrite read_zeros by (intros; apply Hz; lia). change (0 mod 2 =? 0) with true. cbn [snd]. lia.
Qed.

Definition hostile_sps : bytes := [103; 66; 0; 30; 211; 0; 0; 0; 1; 255; 255; 255; 254].

Lemma hostile_zeros o : 103 <= o -> bit hostile_sps o = 0.
Proof.
  intros Ho. destruct (decide (o = 103)) as [->|]; [reflexivity|]. unfold bit. rewrite lookup_ge_None_2; [done|].
  cbn [length hostile_sps]. assert (13 <= o / 8) by (apply Z.div_le_lower_bound; lia). lia.
Qed.

(** The number of iterations of the picture order count loop is read from the
    set and not compared with what is left of it: this set of 13 bytes makes the
    reader take more than 10^11 bits. *)
Lemma sps_work_unbounded : len hostile_sps = 13 /\ (parseSPS hostile_sps).2 > 100 * 1000 * 1000 * 1000.
Proof.
  split; [done|]. unfold parseSPS.
  assert (Hh : sps_head hostile_sps = (1, 37)) by (vm_compute; reflexivity). rewrite Hh. unfold sps_poc. cbn [Z.eqb Pos.eqb].
  assert (Hn : readExpGolomb hostile_sps (skipSignedEG hostile_sps (skipSignedEG hostile_sps (37 + 1))) = (2 ^ 32 - 2, 103)) by (vm_compute; reflexivity).
  cbv zeta. rewrite Hn. assert (Hi : Z.iter (2 ^ 32 - 2) (skipSignedEG hostile_sps) 103 = 103 + 32 * (2 ^ 32 - 2)).
  { rewrite <- (Z2Nat.id (2 ^ 32 - 2)) by lia. apply skip_zeros, hostile_zeros. }
  rewrite Hi. set (off := 103 + 32 * (2 ^ 32 - 2)). assert (Ho : 103 + 32 * 4294967294 <= off) by (subst off; lia). clearbody off.
  unfold sps_tail, skipExpGolomb. rewrite (read_zeros hostile_sps off) by (intros; apply hostile_zeros; lia). cbn [snd].
  repeat (first [rewrite read_zeros by (intros; apply hostile_zeros; lia) | rewrite read_one, hostile_zeros by lia]; cbn [fst snd Z.eqb]).
  lia.
Qed.

(** ** AudioSpecificConfig and the tags *)

#[local] Instance aac_eq_dec : EqDecision AACConfig.
Proof. solve_decision. Defined.
#[local] Instance flv_error_eq_dec : EqDecision flv_error.
Proof. solve_decision. Defined.

Lemma aac_all : forallb (fun t => forallb (fun ch => forallb (fun r =>
    match BuildAudioSpecificConfig (mkAAC t r ch) with
    | Ok a => bool_decide (parseAudioSpecificConfig a = Ok (mkAAC t r ch)) && forallb (fun b => (0 <=? b) && (b <? 256)) a
    | Err _ => false
    end) aacSampleRates) (seqZ 1 15)) (seqZ 1 31) = true.
Proof. vm_compute. reflexivity. Qed.

(** An AudioSpecificConfig is written for exactly the object types 1 to 31,
    the channel configurations 1 to 15 and the thirteen indexed sample rates, and
    is parsed back to the same configuration. *)
Theorem aac_round_trip c :
  (exists a, BuildAudioSpecificConfig c = Ok a) <->
  (1 <= c.(ObjectType) <= 31 /\ 1 <= c.(ChannelConfig) <= 15 /\ c.(SampleRate) ∈ aacSampleRates) /\
  exists a, BuildAudioSpecificConfig c = Ok a /\ bytes_ok a /\ parseAudioSpecificConfig a = Ok c.
Proof.
  split; [|intros (_ & a & ? & _); eauto]. intros [a Ha]. pose proof Ha as Hb. unfold BuildAudioSpecificConfig in Hb. inv_ok. bool_prop.
  assert (Hr : c.(SampleRate) ∈ aacSampleRates).
  { match goal with H : aacSampleRateIndex _ = Some _ |- _ => revert H end. unfold aacSampleRateIndex. generalize 0. induction aacSampleRates as [|r l IH]; intros i; cbn [rate_index]; [done|].
    rewrite elem_of_cons. destruct (Z.eqb_spec r (SampleRate c)); [by left|]. intros Hi. right. by eapply IH. }
  split; [repeat split; (lia || done)|]. exists a. split; [done|].
  pose proof aac_all as Hall. rewrite forallb_elem in Hall. specialize (Hall c.(ObjectType) ltac:(apply elem_of_seqZ; lia)).
  rewrite forallb_elem in Hall. specialize (Hall c.(ChannelConfig) ltac:(apply elem_of_seqZ; lia)). rewrite forallb_elem in Hall. specialize (Hall _ Hr).
  destruct c as [t r ch]. cbn [ObjectType SampleRate ChannelConfig] in *. rewrite Ha in Hall. apply andb_prop in Hall as [Hp Hf].
  apply bool_decide_eq_true in Hp. split; [|done]. rewrite forallb_elem in Hf. apply Forall_forall. intros b Hbb. specialize (Hf b Hbb). bool_prop. split; lia.
Qed.

(** The sign of a 24-bit number. *)
Lemma land_top u : 0 <= u < 2 ^ 24 -> (Z.land u 0x800000 =? 0) = (u <? 2 ^ 23).
Proof.
  intros Hu. destruct (Z.ltb_spec u (2 ^ 23)); [apply Z.eqb_eq|apply Z.eqb_neq].
  - apply Z.bits_inj_iff'. intros i Hi. rewrite Z.land_spec, Z.bits_0. change 0x800000 with (2 ^ 23).
    destruct (Z.ltb_spec i 23); [by rewrite Z.pow2_bits_false, andb_false_r by lia|]. by rewrite (testbit_high u 23) by lia.
  - intros H0. assert (Ht : Z.testbit (Z.land u 0x800000) 23 = true); [|rewrite H0 in Ht; done]. rewrite Z.land_spec.
    change (Z.testbit 0x800000 23) with true. rewrite andb_true_r, Z.testbit_odd, Z.shiftr_div_pow2 by lia.
    replace (u / 2 ^ 23) with 1; [done|]. apply Z.div_unique with (u - 2 ^ 23); lia.
Qed.

Lemma index_tag h t a b c rest :
  let d := h :: t :: a :: b :: c :: rest in index d 2 = Ok a /\ index d 3 = Ok b /\ index d 4 = Ok c.
Proof. done. Qed.

(** The composition offset is the signed 24-bit number of the tag. *)
Lemma cts_read h t v rest :
  - 2 ^ 23 <= v < 2 ^ 23 -> parseFLVVideoCTS (h :: t :: be 3 (v mod 2 ^ 24) ++ rest) = Ok v.
Proof.
  intros Hv. pose proof (Z.mod_pos_bound v (2 ^ 24) ltac:(lia)) as Hm. set (u := v mod 2 ^ 24) in *. unfold parseFLVVideoCTS. cbn [be app].
  destruct (index_tag h t (byte (u / 256 ^ Z.of_nat 2)) (byte (u / 256 ^ Z.of_nat 1)) (byte (u / 256 ^ Z.of_nat 0)) rest) as (-> & -> & ->).
  cbn [mbind result_bind]. f_equal.
  change (256 ^ Z.of_nat 2) with 65536. change (256 ^ Z.of_nat 1) with 256. change (256 ^ Z.of_nat 0) with 1. unfold byte.
  change (2 ^ 24) with 16777216 in *. rewrite Z.div_1_r, (Z.mod_small (u / 65536)) by (Z.div_mod_to_equations; lia).
  assert (Hs1 : Z.shiftl (u / 65536) 16 = u / 65536 * 65536) by (by rewrite Z.shiftl_mul_pow2).
  assert (Hs2 : Z.shiftl ((u / 256) mod 256) 8 = (u / 256) mod 256 * 256) by (by rewrite Z.shiftl_mul_pow2).
  rewrite (wraps_id 32), (wraps_id 32) by (unfold in_s; change (2 ^ (32 - 1)) with 2147483648; rewrite ?Hs1, ?Hs2; Z.div_mod_to_equations; lia).
  assert (Hl : Z.lor (Z.lor (Z.shiftl (u / 65536) 16) (Z.shiftl ((u / 256) mod 256) 8)) (u mod 256) = u).
  { rewrite <- Z.lor_assoc, (lor_shiftl _ (u mod 256) 8), lor_shiftl by (change (2 ^ 8) with 256; change (2 ^ 16) with 65536; Z.div_mod_to_equations; lia).
    change (2 ^ 8) with 256. change (2 ^ 16) with 65536. Z.div_mod_to_equations. lia. }
  rewrite Hl, land_top by (change (2 ^ 24) with 16777216; lia). assert (Hu : u = v \/ u = v + 16777216 /\ v < 0) by (subst u; Z.div_mod_to_equations; lia).
  change (2 ^ 23) with 8388608 in *. destruct (Z.ltb_spec u 8388608); cbn [negb]; [lia|].
  rewrite Z.lor_comm. change (Z.lnot 16777215) with (Z.shiftl (-1) 24). rewrite lor_shiftl by (change (2 ^ 24) with 16777216; lia). change (2 ^ 24) with 16777216. lia.
Qed.

(** Steps of a guarded function that reads inside its input. *)
Ltac inside :=
  repeat match goal with
  | |- context [guard_err (negb (?a <? ?b)) _] => destruct (Z.ltb_spec a b); cbn [negb guard_err mbind result_bind]; [done|]
  | |- context [index ?b ?i] => let x := fresh "x" in let Hx := fresh "Hx" in destruct (index_some Panic b i) as (x & _ & Hx); [lia|]; rewrite Hx; cbn [mbind result_bind]
  | |- context [guard_err (?a =? ?b) _] => destruct (Z.eqb_spec a b); cbn [guard_err mbind result_bind]; [|done]
  | |- context [slice ?b ?lo ?hi] => rewrite (slice_ok Panic b lo hi) by lia; cbn [mbind result_bind]
  end.

Lemma tags_facts data :
  bytes_ok data -> 5 <= len data ->
  exists v, parseFLVVideoCTS data = Ok v /\ - 2 ^ 23 <= v < 2 ^ 23 /\ v mod 2 ^ 24 = of_be (take 3 (drop 2 data)).
Proof.
  intros Hb Hl. destruct data as [|h [|t [|c0 [|c1 [|c2 rest]]]]]; try (cbn in Hl; lia).
  do 2 (apply Forall_cons in Hb as [_ Hb]). apply Forall_cons in Hb as [H0 Hb]. apply Forall_cons in Hb as [H1 Hb]. apply Forall_cons in Hb as [H2 _].
  change (take 3 (drop 2 (h :: t :: c0 :: c1 :: c2 :: rest))) with [c0; c1; c2]. set (u := of_be [c0; c1; c2]).
  assert (Hu : u = c0 * 65536 + c1 * 256 + c2) by (subst u; cbn; lia). unfold byte_ok in *. set (v := if u <? 2 ^ 23 then u else u - 2 ^ 24).
  assert (Hv : - 2 ^ 23 <= v < 2 ^ 23 /\ v mod 2 ^ 24 = u).
  { change (2 ^ 23) with 8388608 in *. change (2 ^ 24) with 16777216 in *. subst v. destruct (Z.ltb_spec u 8388608); split; try lia; Z.div_mod_to_equations; lia. }
  destruct Hv as [Hv Hm]. exists v. split; [|done]. rewrite <- (cts_read h t v rest Hv), Hm. f_equal. do 2 f_equal.
  rewrite Hu. cbn [be app]. change (256 ^ Z.of_nat 2) with 65536. change (256 ^ Z.of_nat 1) with 256. change (256 ^ Z.of_nat 0) with 1. unfold byte.
  f_equal; [|f_equal; [|f_equal]]; Z.div_mod_to_equations; lia.
Qed.

(** No tag a publisher sends makes the ingest panic: every parser of a tag
    answers any bytes with a result or an error of its own, and the composition
    offset of a tag with at least five bytes is read, as the signed 24-bit number
    it holds. *)
Theorem tags_never_panic data :
  bytes_ok data ->
  ParseAVCConfig data <> Err Panic /\ ParseAACConfig data <> Err Panic /\ StripFLVAudioHeader data <> Err Panic /\
  (5 <= len data -> exists v, parseFLVVideoCTS data = Ok v /\ - 2 ^ 23 <= v < 2 ^ 23 /\ v mod 2 ^ 24 = of_be (take 3 (drop 2 data))).
Proof.
  intros Hb. split; [|split; [|split]].
  - unfold ParseAVCConfig. inside. rewrite avc_two_passes by (by apply Forall_take, Forall_drop). by destruct (record_of _).
  - unfold ParseAACConfig, parseAudioSpecificConfig. inside. done.
  - unfold StripFLVAudioHeader. inside. done.
  - by apply tags_facts.
Qed.

(** ** Examples: 1920 by 1080 in the High profile *)

Definition hd_syntax : sps_syntax :=
  mkSyntax 103 100 0 40 0  1 0 0 0 0  0 (Poc0 2) 3 0  119 67 1 0 1  (Some (0, 0, 0, 4)) [0; 1].
Definition hd_sps : bytes := [103; 100; 0; 40; 172; 217; 0; 120; 2; 39; 229; 64].

Lemma hd_syntax_ok : syntax_ok hd_syntax.
Proof. split; cbn; unfold byte_ok, ue_ok; lia || (repeat split; lia). Qed.

Definition hd_config : AVCConfig := mkAVC 100 0 40 4 [hd_sps] [[104; 238; 60; 128]] 1920 1080.
Definition hd_record : bytes :=
  match BuildAVCDecoderConfigurationRecord hd_config with Ok p => p | Err _ => [] end.

Lemma hd_config_ok : avc_ok hd_config.
Proof. repeat split; try (repeat constructor; unfold byte_ok; lia); cbn; lia. Qed.

Lemma sps_size_read_witness : parseSPSDimensions hd_sps = (1920, 1080).
Proof. apply (sps_size_read hd_sps hd_syntax hd_syntax_ok); [vm_compute; discriminate|vm_compute; reflexivity]. Defined.

Lemma avc_round_trip_witness : parseAVCDecoderConfigurationRecord (hd_record ++ [7; 7]) = Ok hd_config.
Proof.
  destruct (avc_round_trip hd_config hd_record [7; 7] hd_config_ok) as [H _].
  - repeat constructor; unfold byte_ok; lia.
  - vm_compute. reflexivity.
  - rewrite H. vm_compute. reflexivity.
Defined.

Lemma avc_two_passes_witness :
  parseAVCDecoderConfigurationRecord [1; 100; 0; 40; 255; 225; 0; 9; 103] = Err ErrBadAVCConfig.
Proof.
  rewrite (avc_two_passes [1; 100; 0; 40; 255; 225; 0; 9; 103]); [vm_compute; reflexivity|]. repeat constructor; unfold byte_ok; lia.
Defined.

Lemma tags_never_panic_witness :
  exists v, parseFLVVideoCTS [23; 1; 255; 255; 216; 0; 0] = Ok v /\ - 2 ^ 23 <= v < 2 ^ 23 /\ v mod 2 ^ 24 = 16777176.
Proof.
  destruct (tags_never_panic [23; 1; 255; 255; 216; 0; 0]) as (_ & _ & _ & H).
  - repeat constructor; unfold byte_ok; lia.
  - destruct H as (v & H1 & H2 & H3); [vm_compute; discriminate|]. exists v. split; [exact H1|]. split; [exact H2|]. rewrite H3. vm_compute. reflexivity.
Defined.
