(* ===== verification/Ingest.v ===== *)
(** * Ingest: tracks of a publisher and their subscribers

    src/internal/ingest: the RTMP loop ([ingestRTMP], rtmp.go), the session
    ([PushVideo], [PushAudio], session.go), and the tracks (handler.go):
    [videoTrack] groups frames by keyframes, [singleTrack] makes a group of each
    push, [trackBuffer] is the ring they share with their subscribers, whose
    [serve] loop delivers the groups, [sourceGroup] the frames of one.

    A track has one producer, as the session requires of its callers. Its pushes
    are lists of atomic actions on the shared ring; a subscriber's loop is a step
    machine whose every access to shared state is a step. What QUIC answers, and
    when a wait ends (a notification, the fallback timer, the end of a context),
    is left open, so a wait may always go on. *)
From S2P Require Import Prelude GoBytes Frames Flv.

Open Scope Z_scope.

(** ** The ring *)

Definition defaultRingSize : Z := 8.

Record sourceGroup := mkGroup { seq : Z; frames : list bytes; complete : bool }.

(** Groups are numbered as they are created; a ring slot holds the number of one. *)
Record trackBuffer := mkBuffer { pos : Z; ring : gmap Z nat; groups : list sourceGroup }.

Definition newTrackBuffer : trackBuffer := mkBuffer 0 ∅ [].

Definition head (b : trackBuffer) : Z := b.(pos).

Definition earliest_of (h : Z) : Z := if h <=? defaultRingSize then 1 else h - defaultRingSize + 1.
Definition earliestAvailable (b : trackBuffer) : Z := earliest_of (head b).

Definition get (s : Z) (b : trackBuffer) : option nat :=
  i ← b.(ring) !! (s mod defaultRingSize);
  g ← b.(groups) !! i;
  if g.(seq) =? s then Some i else None.

Definition next_frame (i idx : nat) (b : trackBuffer) : option bytes := g ← b.(groups) !! i; g.(frames) !! idx.
Definition isComplete (i : nat) (b : trackBuffer) : bool :=
  match b.(groups) !! i with Some g => g.(complete) | None => false end.

Definition append_frame (f : bytes) (g : sourceGroup) : sourceGroup := mkGroup g.(seq) (g.(frames) ++ [f]) g.(complete).
Definition complete_group (g : sourceGroup) : sourceGroup := mkGroup g.(seq) g.(frames) true.

(** ** The producer *)

(** What a push does, in order: [openGroup]'s increment of the position and its
    store of the new group, an append to the current group, its completion, the
    notification. *)
Inductive action := AAdd | AStore | AAppend (f : bytes) | AComplete | ANotify.

#[local] Instance action_eq_dec : EqDecision action.
Proof. solve_decision. Defined.

(** The producer's own variables: the position [openGroup] took, the current
    group, and the time it was opened at. *)
Record producer := mkProducer { opening : Z; current : option nat; currentTS : Z }.

Definition act (a : action) (p : producer) (b : trackBuffer) : producer * trackBuffer :=
  match a with
  | AAdd => (mkProducer (b.(pos) + 1) p.(current) p.(currentTS), mkBuffer (b.(pos) + 1) b.(ring) b.(groups))
  | AStore =>
      let i := length b.(groups) in
      (mkProducer p.(opening) (Some i) p.(currentTS),
       mkBuffer b.(pos) (<[p.(opening) mod defaultRingSize := i]> b.(ring)) (b.(groups) ++ [mkGroup p.(opening) [] false]))
  | AAppend f =>
      match p.(current) with
      | Some i => (p, mkBuffer b.(pos) b.(ring) (alter (append_frame f) i b.(groups)))
      | None => (p, b)
      end
  | AComplete =>
      match p.(current) with
      | Some i => (p, mkBuffer b.(pos) b.(ring) (alter complete_group i b.(groups)))
      | None => (p, b)
      end
  | ANotify => (p, b)
  end.

(** videoTrack.push: whether it opens a group, and its actions. *)
Definition opens (isKeyframe : bool) (timestampUS : Z) (p : producer) : bool :=
  match p.(current) with None => true | Some _ => isKeyframe && negb (timestampUS =? p.(currentTS)) end.

Definition video_push (f : bytes) (isKeyframe : bool) (timestampUS : Z) (p : producer) : producer * list action :=
  if opens isKeyframe timestampUS p then
    (mkProducer p.(opening) p.(current) timestampUS,
     (match p.(current) with Some _ => [AComplete] | None => [] end) ++ [AAdd; AStore; AAppend f; ANotify])
  else (p, [AAppend f; ANotify]).

Definition video_close (p : producer) : list action :=
  (match p.(current) with Some _ => [AComplete] | None => [] end) ++ [ANotify].

(** singleTrack.push and pushFrames. *)
Definition single_push (f : bytes) : list action := [AAdd; AStore; AAppend f; AComplete; ANotify].
Definition pushFrames (fs : list bytes) : list action :=
  match fs with [] => [] | _ => [AAdd; AStore] ++ (AAppend <$> fs) ++ [AComplete; ANotify] end.

Fixpoint acts (l : list action) (p : producer) (b : trackBuffer) : producer * trackBuffer :=
  match l with [] => (p, b) | a :: l => let '(p, b) := act a p b in acts l p b end.

Definition noProducer : producer := mkProducer 0 None 0.

(** ** The session and the RTMP loop *)

Inductive frameType := FrameVideo | FrameAudio | FrameOther.
Record rtmpFrame := mkRtmp { Type_ : frameType; Timestamp : Z; Data : bytes }.

(** What the loop calls on the session. *)
Inductive push_call :=
| RegisterVideo (cfg : AVCConfig) | RegisterAudio (cfg : AACConfig)
| PushVideo (pts : Z) (data : bytes) (key : bool) | PushAudio (pts : Z) (data : bytes).

(** One frame, in the state [avcCfg], [aacCfg]. *)
Definition ingest_frame (fr : rtmpFrame) (st : option AVCConfig * option AACConfig) :
    (option AVCConfig * option AACConfig) * list push_call :=
  let '(avcCfg, aacCfg) := st in
  match fr.(Type_) with
  | FrameVideo =>
      if IsVideoSequenceHeader fr.(Data) then
        match ParseAVCConfig fr.(Data) with
        | Ok cfg => ((Some cfg, aacCfg), [RegisterVideo cfg])
        | Err _ => (st, [])
        end
      else match avcCfg with
        | None => (st, [])
        | Some _ =>
            if len fr.(Data) <? 5 then (st, [])
            else match parseFLVVideoCTS fr.(Data) with
              | Ok cts =>
                  let pts := wraps 64 (wraps 64 (fr.(Timestamp) + cts) * 1000) in
                  (st, [PushVideo pts (drop 5 fr.(Data)) (isVideoKeyframe fr.(Data))])
              | Err _ => (st, [])
              end
        end
  | FrameAudio =>
      if IsAudioSequenceHeader fr.(Data) then
        match ParseAACConfig fr.(Data) with
        | Ok cfg => ((avcCfg, Some cfg), [RegisterAudio cfg])
        | Err _ => (st, [])
        end
      else match StripFLVAudioHeader fr.(Data) with
        | Ok raw => (st, [PushAudio (wraps 64 (fr.(Timestamp) * 1000)) raw])
        | Err _ => (st, [])
        end
  | FrameOther => (st, [])
  end.

Fixpoint ingestRTMP (frs : list rtmpFrame) (st : option AVCConfig * option AACConfig) : list push_call :=
  match frs with
  | [] => []
  | fr :: frs => let '(st, cs) := ingest_frame fr st in cs ++ ingestRTMP frs st
  end.

(** PushVideo and PushAudio wrap the data in a MediaFrame and push it. *)
Definition push_video (pts : Z) (data : bytes) (key : bool) (p : producer) : producer * list action :=
  video_push (writeMediaFrame [] pts data) key pts p.
Definition push_audio (pts : Z) (data : bytes) : list action := single_push (writeMediaFrame [] pts data).
Definition PushAudioFrames (ptss : list Z) (fs : list bytes) : list action :=
  if (length fs =? 0)%nat || negb (length ptss =? length fs)%nat then []
  else pushFrames (zip_with (writeMediaFrame []) ptss fs).

(** ** Groups of the video track *)

Record push := mkPush { pframe : bytes; pkey : bool; pts : Z }.

Definition push_one (x : push) (s : producer * trackBuffer) : producer * trackBuffer :=
  let '(p, l) := video_push x.(pframe) x.(pkey) x.(pts) s.1 in acts l p s.2.

Definition push_all (xs : list push) : producer * trackBuffer :=
  foldl (fun s x => push_one x s) (noProducer, newTrackBuffer) xs.

(** A group of pushes opened by the first: no later one is a key frame of another
    time. *)
Definition group_of (g : list push) : Prop :=
  match g with
  | [] => False
  | x :: xs => Forall (fun y => y.(pkey) = false \/ y.(pts) = x.(pts)) xs
  end.

(** Each group but the first is opened by a key frame of another time than the
    one before. *)
Fixpoint cut_at_keys (gs : list (list push)) : Prop :=
  match gs with
  | (x :: _) :: (((y :: _) :: _) as gs') => y.(pkey) = true /\ y.(pts) <> x.(pts) /\ cut_at_keys gs'
  | _ => True
  end.

(** The groups 1, 2, ... of the segments, all complete but the last. *)
Definition holds_groups (b : trackBuffer) (gs : list (list push)) : Prop :=
  b.(pos) = len gs /\ length b.(groups) = length gs /\
  forall i g, gs !! i = Some g -> b.(groups) !! i = Some (mkGroup (Z.of_nat i + 1) (pframe <$> g) (negb (S i =? length gs)%nat)).

Lemma cut_snoc gs g h :
  cut_at_keys (gs ++ [g]) -> Forall group_of (gs ++ [g]) ->
  match g, h with x :: _, y :: _ => y.(pkey) = true /\ y.(pts) <> x.(pts) | _, _ => False end ->
  cut_at_keys ((gs ++ [g]) ++ [h]).
Proof.
  intros Hc Hg Hh. induction gs as [|a gs IH]; cbn [app] in *.
  - destruct g as [|x g], h as [|y h]; try done. cbn. tauto.
  - apply Forall_cons in Hg as [Ha Hg]. destruct a as [|x a]; [done|].
    destruct gs as [|[|y b] gs]; cbn [app] in *; [| |].
    + destruct g as [|y g]; [done|]. cbn [cut_at_keys] in *. destruct Hc as (? & ? & ?). split; [done|]. split; [done|]. by apply IH.
    + apply Forall_cons in Hg as [[] _].
    + cbn [cut_at_keys] in *. destruct Hc as (? & ? & ?). split; [done|]. split; [done|]. by apply IH.
Qed.

Lemma cut_grow gs g x : g <> [] -> cut_at_keys (gs ++ [g]) -> cut_at_keys (gs ++ [g ++ [x]]).
Proof.
  intros Hg. induction gs as [|a gs IH]; cbn [app]; [by destruct g|].
  destruct a as [|y a]; [by destruct gs|]. destruct gs as [|[|z b] gs]; cbn [app] in *.
  - destruct g as [|w g]; [done|]. done.
  - done.
  - cbn [cut_at_keys]. intros (? & ? & ?). split; [done|]. split; [done|]. by apply IH.
Qed.

(** What the video track holds after some pushes. *)
Record video_inv (xs : list push) (s : producer * trackBuffer) (gs : list (list push)) : Prop := {
  vi_concat : concat gs = xs;
  vi_groups : holds_groups s.2 gs;
  vi_ok : Forall group_of gs;
  vi_cut : cut_at_keys gs;
  vi_cur : (gs = [] /\ s.1.(current) = None) \/
           exists gs0 x g, gs = gs0 ++ [x :: g] /\ s.1.(current) = Some (length gs0) /\ s.1.(currentTS) = x.(pts)
}.

(** Opening a group after the last: the last is completed, the new one holds one
    frame. *)
Lemma open_group b p p' gs x :
  holds_groups b gs -> p'.(current) = p.(current) ->
  ((gs = [] /\ p.(current) = None) \/ exists n, length gs = S n /\ p.(current) = Some n) ->
  let '(q, b') := acts ((match p.(current) with Some _ => [AComplete] | None => [] end) ++ [AAdd; AStore; AAppend x.(pframe); ANotify]) p' b in
  holds_groups b' (gs ++ [[x]]) /\ q.(current) = Some (length gs) /\ q.(currentTS) = p'.(currentTS).
Proof.
  intros (Hpos & Hlen & Hgs) Hpp Hcur.
  assert (Hgo : forall bg, length bg = length gs ->
    (forall i g, gs !! i = Some g -> bg !! i = Some (mkGroup (Z.of_nat i + 1) (pframe <$> g) true)) ->
    let '(q, b') := acts [AAdd; AStore; AAppend x.(pframe); ANotify] p' (mkBuffer b.(pos) b.(ring) bg) in
    holds_groups b' (gs ++ [[x]]) /\ q.(current) = Some (length gs) /\ q.(currentTS) = p'.(currentTS)).
  { intros bg Hbl Hbg. cbn [acts act opening current currentTS pos ring groups]. split; [|by rewrite Hbl]. unfold holds_groups. cbn [pos groups].
    rewrite length_alter, !length_app, Hbl, Hpos. cbn [length]. split; [lia|]. split; [done|]. intros i g Hi.
    destruct (decide (i = length gs)) as [->|Hne].
    - rewrite lookup_app_r, Nat.sub_diag in Hi by lia. injection Hi as <-. rewrite list_lookup_alter_eq, lookup_app_r, Hbl, Nat.sub_diag by lia. cbn.
      unfold append_frame. cbn. f_equal. f_equal. rewrite Nat.add_1_r. by rewrite Nat.eqb_refl.
    - apply lookup_snoc_Some in Hi as [[Hlt Hi]|[? _]]; [|lia]. rewrite list_lookup_alter_ne by lia.
      rewrite lookup_app_l, (Hbg i g) by (done || lia). do 2 f_equal. destruct (Nat.eqb_spec (S i) (length gs + 1)); [lia|done]. }
  destruct Hcur as [[-> Hn]|(n & Hn & Hsome)].
  - rewrite Hn. cbn [app]. destruct b as [bp br bg]. apply Hgo; done.
  - rewrite Hsome. cbn [app]. change (acts (AComplete :: ?l) p' b) with (let '(q, c) := act AComplete p' b in acts l q c).
    unfold act. rewrite Hpp, Hsome. apply Hgo; [by rewrite length_alter|]. intros i g Hi. pose proof (lookup_lt_Some _ _ _ Hi).
    destruct (decide (i = n)) as [->|].
    + rewrite list_lookup_alter_eq, (Hgs _ _ Hi). done.
    + rewrite list_lookup_alter_ne, (Hgs _ _ Hi) by done. do 2 f_equal. destruct (Nat.eqb_spec (S i) (length gs)); [lia|done].
Qed.

(** Appending to the last group. *)
Lemma append_group b p gs0 g x :
  holds_groups b (gs0 ++ [g]) -> p.(current) = Some (length gs0) ->
  let '(q, b') := acts [AAppend x.(pframe); ANotify] p b in holds_groups b' (gs0 ++ [g ++ [x]]) /\ q = p.
Proof.
  intros (Hpos & Hlen & Hgs) Hcur. cbn [acts act]. rewrite Hcur. cbn [acts act]. split; [|done]. unfold holds_groups. cbn [pos groups].
  rewrite length_alter, Hlen, Hpos, !length_app. cbn [length]. split; [done|]. split; [done|]. intros i h Hi.
  apply lookup_snoc_Some in Hi as [[Hlt Hi]|[-> <-]].
  - rewrite list_lookup_alter_ne, (Hgs i h) by (lia || by rewrite lookup_app_l). by rewrite length_app.
  - rewrite list_lookup_alter_eq, (Hgs (length gs0) g) by (by rewrite lookup_app_r, Nat.sub_diag). cbn. unfold append_frame. cbn.
    by rewrite fmap_app, length_app.
Qed.

Lemma push_one_inv xs s gs x : video_inv xs s gs -> exists gs', video_inv (xs ++ [x]) (push_one x s) gs'.
Proof.
  intros [Hc Hg Hok Hcut Hcur]. unfold push_one, video_push. destruct (opens (pkey x) (pts x) s.1) eqn:Ho.
  - set (p' := mkProducer _ _ _).
    pose proof (open_group s.2 s.1 p' gs x Hg eq_refl) as Hopen.
    assert (Hpre : (gs = [] /\ s.1.(current) = None) \/ exists n, length gs = S n /\ s.1.(current) = Some n).
    { destruct Hcur as [?|(gs0 & y & g & -> & Hs & _)]; [by left|]. right. exists (length gs0). rewrite length_app. cbn. split; [lia|done]. }
    specialize (Hopen Hpre). destruct (acts _ p' s.2) as [q b']. destruct Hopen as (Hb & Hq & Hts). exists (gs ++ [[x]]). split; cbn [fst snd].
    + rewrite concat_app, Hc. done.
    + done.
    + apply Forall_app. split; [done|]. constructor; [constructor|done].
    + destruct Hcur as [[-> _]|(gs0 & y & g & -> & Hs & Hy)]; [done|]. apply cut_snoc; [done|done|].
      unfold opens in Ho. rewrite Hs in Ho. bool_prop. split; [done|]. congruence.
    + right. exists gs, x, []. split; [done|]. split; [done|]. by rewrite Hts.
  - unfold opens in Ho. destruct Hcur as [[-> Hn]|(gs0 & y & g & -> & Hs & Hy)]; [by rewrite Hn in Ho|]. rewrite Hs in Ho.
    pose proof (append_group s.2 s.1 gs0 (y :: g) x Hg Hs) as Ha. destruct (acts _ s.1 s.2) as [q b']. destruct Ha as [Hb ->].
    exists (gs0 ++ [(y :: g) ++ [x]]). split; cbn [fst snd].
    + rewrite concat_app in *. cbn [concat] in *. rewrite app_nil_r in *. by rewrite app_assoc, Hc.
    + done.
    + apply Forall_app in Hok as [Hok Hlast]. apply Forall_app. split; [done|]. constructor; [|done]. apply Forall_cons in Hlast as [Hlast _].
      cbn [group_of app] in *. apply Forall_app. split; [done|]. constructor; [|done]. apply andb_false_iff in Ho as [?|Ho]; [by left|]. right.
      bool_prop. congruence.
    + by apply cut_grow.
    + right. exists gs0, y, (g ++ [x]). done.
Qed.

(** The video track keeps every frame, in order, in groups numbered from 1:
    however frames and key frames arrive, the groups together hold exactly the
    frames pushed; each group after the first is opened by a key frame of another
    time than its predecessor, holds no further key frame of a new time, and
    every group but the one being filled is complete. The first group is opened
    by whatever frame comes first, key frame or not. *)
Theorem video_track_groups xs :
  exists gs, concat gs = xs /\ Forall group_of gs /\ cut_at_keys gs /\ holds_groups (push_all xs).2 gs.
Proof.
  assert (Hi : exists gs, video_inv xs (push_all xs) gs).
  { induction xs as [|x xs IH] using rev_ind.
    - exists []. split; cbn; [done| |done|done|by left]. split; [done|]. split; [done|]. intros i g Hi. by rewrite lookup_nil in Hi.
    - destruct IH as [gs Hgs]. unfold push_all. rewrite foldl_app. cbn [foldl]. by eapply push_one_inv. }
  destruct Hi as (gs & [Hc Hg Hok Hcut _]). by exists gs.
Qed.

(** ** A subscriber's loop *)

(** Where [serve] is: at its start; in [next], at the read of the head, at the
    read of the earliest position with the head read, and at the read of the slot
    of a sequence; at OpenGroupAt; in the frame loop, at the read of a frame, at
    the look at the completion and in the wait; in the outer wait; returned. *)
Inductive spc :=
| SBegin
| SHead | SEarly (latest : Z) | SGet (q : Z)
| SOpen (i : nat)
| SNext (i idx : nat) | SComplete (i idx : nat) | SWait (i idx : nat)
| SIdle
| SReturned.

(** What QUIC and the contexts answer at a step. *)
Record answer := mkAnswer { openErr : bool; writeErr : bool; ended : bool }.
Definition fine : answer := mkAnswer false false false.

(** A track with its producer and a subscriber. [served] records the groups
    opened, the frames written to each, and whether the frame loop was left
    because the group was complete. *)
Record sys := mkSys {
  prod : producer; pend : list action; tb : trackBuffer;
  at_ : spc; last : Z; served : list (Z * list bytes * bool)
}.

Definition goto (p : spc) (s : sys) : sys := mkSys s.(prod) s.(pend) s.(tb) p s.(last) s.(served).
Definition set_last (n : Z) (s : sys) : sys := mkSys s.(prod) s.(pend) s.(tb) s.(at_) n s.(served).
Definition set_served (l : list (Z * list bytes * bool)) (s : sys) : sys :=
  mkSys s.(prod) s.(pend) s.(tb) s.(at_) s.(last) l.

(** The last entry of [served], with one more frame, or delivered. *)
Definition wrote (f : bytes) (l : list (Z * list bytes * bool)) : list (Z * list bytes * bool) :=
  alter (fun x => (x.1.1, x.1.2 ++ [f], x.2)) (pred (length l)) l.
Definition delivered (l : list (Z * list bytes * bool)) : list (Z * list bytes * bool) :=
  alter (fun x => (x.1, true)) (pred (length l)) l.

Definition serve_step (o : answer) (s : sys) : option sys :=
  match s.(at_) with
  | SBegin => let h := head s.(tb) in Some (goto SHead (set_last (if 0 <? h then h - 1 else h) s))
  | SHead => let latest := head s.(tb) in Some (goto (if latest <=? s.(last) then SIdle else SEarly latest) s)
  | SEarly latest =>
      let q := s.(last) + 1 in
      Some (if q <? earliestAvailable s.(tb) then goto (SGet latest) (set_last (latest - 1) s) else goto (SGet q) s)
  | SGet q =>
      Some (match get q s.(tb) with Some i => goto (SOpen i) (set_last q s) | None => goto SIdle s end)
  | SOpen i =>
      Some (if o.(openErr) then goto SReturned s
            else goto (SNext i 0) (set_served (s.(served) ++ [(s.(last), [], false)]) s))
  | SNext i idx =>
      Some (match next_frame i idx s.(tb) with
            | Some f => if o.(writeErr) then goto SReturned s else goto (SNext i (S idx)) (set_served (wrote f s.(served)) s)
            | None => goto (SComplete i idx) s
            end)
  | SComplete i idx =>
      Some (if isComplete i s.(tb) then goto SHead (set_served (delivered s.(served)) s) else goto (SWait i idx) s)
  | SWait i idx => Some (goto (if o.(ended) then SReturned else SNext i idx) s)
  | SIdle => Some (goto (if o.(ended) then SReturned else SHead) s)
  | SReturned => None
  end.

(** The producer takes the next push, of video or of single groups, when the last
    is done, or takes an action. *)
Inductive pstep (video : bool) : sys -> sys -> Prop :=
| p_video s x :
    video = true -> s.(pend) = [] ->
    pstep video s (let '(p, l) := video_push x.(pframe) x.(pkey) x.(pts) s.(prod) in mkSys p l s.(tb) s.(at_) s.(last) s.(served))
| p_close s :
    video = true -> s.(pend) = [] ->
    pstep video s (mkSys s.(prod) (video_close s.(prod)) s.(tb) s.(at_) s.(last) s.(served))
| p_single s fs :
    video = false -> s.(pend) = [] -> pstep video s (mkSys s.(prod) (pushFrames fs) s.(tb) s.(at_) s.(last) s.(served))
| p_act s a l :
    s.(pend) = a :: l ->
    pstep video s (let '(p, b) := act a s.(prod) s.(tb) in mkSys p l b s.(at_) s.(last) s.(served)).

Definition tstep (video : bool) (s s' : sys) : Prop := pstep video s s' \/ exists o, serve_step o s = Some s'.

(** A subscriber that joins a track. *)
Definition started : sys := mkSys noProducer [] newTrackBuffer SBegin 0 [].

(** *** The ring's invariant *)

Fixpoint paired (l : list action) : bool :=
  match l with
  | [] => true
  | AAdd :: AStore :: l => paired l
  | AAdd :: _ | AStore :: _ => false
  | _ :: l => paired l
  end.

Lemma paired_appends fs l : paired (((AAppend <$> fs) : list action) ++ l) = paired l.
Proof. by induction fs. Qed.

Record ring_ok (s : sys) : Prop := {
  ro_pend : (exists l, s.(pend) = AStore :: l /\ paired l = true /\ s.(tb).(pos) = len s.(tb).(groups) + 1 /\ s.(prod).(opening) = s.(tb).(pos)) \/
            (paired s.(pend) = true /\ s.(tb).(pos) = len s.(tb).(groups));
  ro_seq i g : s.(tb).(groups) !! i = Some g -> g.(seq) = Z.of_nat i + 1;
  ro_slot q i : s.(tb).(ring) !! q = Some i -> (i < length s.(tb).(groups))%nat;
  ro_held i : (i < length s.(tb).(groups))%nat -> len s.(tb).(groups) <= Z.of_nat i + defaultRingSize ->
              s.(tb).(ring) !! ((Z.of_nat i + 1) mod defaultRingSize) = Some i
}.

Lemma paired_cons a l : paired (a :: l) = true -> a <> AAdd -> paired l = true.
Proof. destruct a; done. Qed.

(** An action on a group changes neither its number nor the ring. *)
Lemma act_group a p b :
  a <> AAdd -> a <> AStore ->
  (act a p b).1 = p /\ (act a p b).2.(pos) = b.(pos) /\ (act a p b).2.(ring) = b.(ring) /\
  length (act a p b).2.(groups) = length b.(groups) /\
  forall i g, (act a p b).2.(groups) !! i = Some g -> exists g0, b.(groups) !! i = Some g0 /\ g0.(seq) = g.(seq).
Proof.
  intros H1 H2. destruct a; try done; cbn [act]; [..|by eauto 10]; destruct (current p) as [j|]; [|by eauto 10| |by eauto 10]; cbn [fst snd pos ring groups].
  all: rewrite length_alter; do 4 (split; [done|]); intros i g Hi; destruct (decide (i = j)) as [->|];
    [rewrite list_lookup_alter_eq in Hi; destruct (b.(groups) !! j) as [g0|]; [|done]; injection Hi as <-; eauto|rewrite list_lookup_alter_ne in Hi by done; eauto].
Qed.

Lemma ring_ok_pstep video s s' : pstep video s s' -> ring_ok s -> ring_ok s'.
Proof.
  intros Hs [Hpend Hseq Hslot Hheld].
  assert (Hidle : s.(pend) = [] -> s.(tb).(pos) = len s.(tb).(groups)) by (intros Hp; rewrite Hp in Hpend; destruct Hpend as [(? & ? & _)|[_ ?]]; done).
  destruct Hs as [s x _ Hp|s _ Hp|s fs _ Hp|s a l Hp].
  - unfold video_push. destruct (opens _ _ _); split; cbn [pend tb prod]; try done; right; (split; [|by apply Hidle]); [by destruct (current (prod s))|done].
  - split; cbn [pend tb prod]; try done. right. split; [|by apply Hidle]. unfold video_close. by destruct (current (prod s)).
  - split; cbn [pend tb prod]; try done. right. split; [|by apply Hidle]. unfold pushFrames. destruct fs; [done|]. cbn [app paired fmap list_fmap]. by rewrite paired_appends.
  - destruct (decide (a = AAdd)) as [->|Ha]; [|destruct (decide (a = AStore)) as [->|Hb]].
    + cbn [act]. rewrite Hp in Hpend. destruct Hpend as [(? & ? & _)|[Hpl Hpos]]; [done|].
      split; cbn [pend tb prod pos groups ring opening]; try done. left. destruct l as [|[] l]; try done. exists l. split; [done|]. split; [done|]. split; [lia|done].
    + cbn [act]. rewrite Hp in Hpend. destruct Hpend as [(l' & [= <-] & Hl & Hpos & Hop)|[? _]]; [|done].
      split; cbn [pend tb prod pos groups ring opening]; rewrite ?length_app; cbn [length].
      * right. split; [done|]. lia.
      * intros i g Hi. apply lookup_snoc_Some in Hi as [[_ Hi]|[-> <-]]; [by apply Hseq|]. cbn. lia.
      * intros q i [[_ <-]|[_ Hi]]%lookup_insert_Some; [lia|]. apply Hslot in Hi. lia.
      * intros i Hi Hl8. rewrite Hop, Hpos. destruct (decide (i = length (groups (tb s)))) as [->|Hne]; [by rewrite lookup_insert_eq|].
        rewrite lookup_insert_ne; [apply Hheld; lia|]. unfold defaultRingSize in *. intros He. Z.div_mod_to_equations. lia.
    + pose proof (act_group a s.(prod) s.(tb) Ha Hb) as (Hp1 & Hpos & Hring & Hlen & Hg). destruct (act a (prod s) (tb s)) as [p b]. cbn [fst snd] in *. subst p.
      split; cbn [pend tb prod]; rewrite ?Hpos, ?Hring, ?Hlen; try done.
      * right. rewrite Hp in Hpend. destruct Hpend as [(? & [= ->] & _)|[Hpl ?]]; [done|]. split; [|done]. by eapply paired_cons.
      * intros i g Hi. destruct (Hg i g Hi) as (g0 & H0 & <-). by apply Hseq.
Qed.

(** *** The subscriber's invariant *)

(** What a producer's step does to the groups. *)
Record grows (b b' : trackBuffer) : Prop := {
  gr_pos : b.(pos) <= b'.(pos);
  gr_len : (length b.(groups) <= length b'.(groups))%nat;
  gr_group i g : b.(groups) !! i = Some g -> exists g', b'.(groups) !! i = Some g' /\ g'.(seq) = g.(seq) /\
    g.(frames) `prefix_of` g'.(frames) /\ (g.(complete) = true -> g'.(complete) = true)
}.

Lemma track_grows_refl b : grows b b.
Proof. split; [lia|lia|eauto]. Qed.

Lemma act_grows a p b : grows b (act a p b).2.
Proof.
  destruct a; cbn [act]; [| |destruct (current p) as [j|]; [|apply track_grows_refl]|destruct (current p) as [j|]; [|apply track_grows_refl]|apply track_grows_refl];
    cbn [snd]; split; cbn [pos groups]; rewrite ?length_app, ?length_alter; cbn [length]; try lia; intros i g Hi.
  - eauto.
  - exists g. split; [|eauto]. rewrite lookup_app_l; [done|]. by eapply lookup_lt_Some.
  - destruct (decide (i = j)) as [->|]; [|rewrite list_lookup_alter_ne by done; eauto]. rewrite list_lookup_alter_eq, Hi. cbn. eexists. split; [done|]. cbn.
    split; [done|]. split; [by eexists|done].
  - destruct (decide (i = j)) as [->|]; [|rewrite list_lookup_alter_ne by done; eauto]. rewrite list_lookup_alter_eq, Hi. cbn. eexists. split; [done|]. cbn. done.
Qed.

Lemma pstep_grows video s s' :
  pstep video s s' -> grows s.(tb) s'.(tb) /\ s'.(at_) = s.(at_) /\ s'.(last) = s.(last) /\ s'.(served) = s.(served).
Proof.
  intros [? x|?|? fs|? a l]; [|split; [apply track_grows_refl|done]..|].
  - destruct (video_push _ _ _ _). split; [apply track_grows_refl|done].
  - pose proof (act_grows a s0.(prod) s0.(tb)) as Hg. destruct (act a _ _). split; [exact Hg|done].
Qed.

Definition seqs (l : list (Z * list bytes * bool)) : list Z := (fun x => x.1.1) <$> l.

(** Two sequences one after the other, or the group after the first was evicted. *)
Definition follows (p a b : Z) : Prop := a < b /\ (b = a + 1 \/ a + 1 + defaultRingSize <= p).

Fixpoint gaps_ok (p : Z) (l : list Z) : Prop :=
  match l with a :: ((b :: _) as l') => follows p a b /\ gaps_ok p l' | _ => True end.

(** [n] is the last sequence opened, or past an evicted group. *)
Definition reached (p n : Z) (l : list Z) : Prop :=
  match List.rev l with [] => True | a :: _ => a = n \/ (a < n /\ a + 1 + defaultRingSize <= p) end.

Lemma gaps_snoc p l n : gaps_ok p l -> match List.rev l with [] => True | a :: _ => follows p a n end -> gaps_ok p (l ++ [n]).
Proof.
  intros Hl Hn. induction l as [|a l IH]; [done|]. cbn [List.rev] in Hn. destruct l as [|b l]; cbn [app gaps_ok] in *; [done|].
  destruct Hl as [? Hl]. split; [done|]. apply IH; [done|]. cbn [List.rev] in *. destruct (List.rev l ++ [b]) as [|c r] eqn:He; [by destruct (List.rev l)|]. done.
Qed.

Lemma gaps_mono p p' l : p <= p' -> gaps_ok p l -> gaps_ok p' l.
Proof.
  intros Hp. induction l as [|a [|b l] IH]; [done..|]. cbn [gaps_ok] in *. intros [[? ?] Hg]. split; [|by apply IH]. unfold follows. lia.
Qed.

Lemma reached_mono p p' n l : p <= p' -> reached p n l -> reached p' n l.
Proof. unfold reached. intros Hp. destruct (List.rev l); [done|]. lia. Qed.

Lemma reached_next p n l : reached p n l -> match List.rev l with [] => True | a :: _ => follows p a (n + 1) end.
Proof. unfold reached, follows. destruct (List.rev l); [done|]. lia. Qed.

Definition in_group (s : sys) (i idx : nat) : Prop :=
  exists sv fs, s.(served) = sv ++ [(s.(last), fs, false)] /\ length fs = idx /\ s.(last) = Z.of_nat i + 1.

Definition at_ok (s : sys) : Prop :=
  let p := s.(tb).(pos) in
  match s.(at_) with
  | SBegin => s.(served) = []
  | SHead | SIdle => reached p s.(last) (seqs s.(served))
  | SEarly latest => reached p s.(last) (seqs s.(served)) /\ s.(last) < latest <= p
  | SGet q => reached p s.(last) (seqs s.(served)) /\ q = s.(last) + 1 /\ q <= p
  | SOpen i => s.(last) = Z.of_nat i + 1 /\ (i < length s.(tb).(groups))%nat /\
      match List.rev (seqs s.(served)) with [] => True | a :: _ => follows p a s.(last) end
  | SNext i idx | SComplete i idx | SWait i idx => in_group s i idx
  | SReturned => True
  end.

Record serve_ok (s : sys) : Prop := {
  so_last : 0 <= s.(last) <= s.(tb).(pos);
  so_gaps : gaps_ok s.(tb).(pos) (seqs s.(served));
  so_served q fs d : (q, fs, d) ∈ s.(served) -> exists g, s.(tb).(groups) !! Z.to_nat (q - 1) = Some g /\ g.(seq) = q /\
    fs `prefix_of` g.(frames) /\ (d = true -> g.(complete) = true);
  so_at : at_ok s
}.

Lemma serve_ok_grow s s' :
  grows s.(tb) s'.(tb) -> s'.(at_) = s.(at_) -> s'.(last) = s.(last) -> s'.(served) = s.(served) -> serve_ok s -> serve_ok s'.
Proof.
  intros [Hpos Hlen Hg] Ha Hl Hsv [Hlast Hgaps Hserved Hat]. split; rewrite ?Hl, ?Hsv.
  - lia.
  - by eapply gaps_mono.
  - intros q fs d Hin. destruct (Hserved q fs d Hin) as (g & Hq & Hs & Hp & Hd). destruct (Hg _ _ Hq) as (g' & ? & ? & ? & ?).
    exists g'. split; [done|]. split; [congruence|]. split; [by etrans|auto].
  - unfold at_ok, in_group in *. rewrite Ha, Hl, Hsv. destruct (at_ s) as [| |n|q|i|i n|i n|i n| |]; try done.
    + by eapply reached_mono.
    + destruct Hat. split; [by eapply reached_mono|lia].
    + destruct Hat as (? & ? & ?). split; [by eapply reached_mono|lia].
    + destruct Hat as (? & ? & Hf). split; [done|]. split; [lia|]. destruct (List.rev _); [done|]. unfold follows in *. lia.
    + by eapply reached_mono.
Qed.

Lemma wrote_snoc f sv q fs d : wrote f (sv ++ [(q, fs, d)]) = sv ++ [(q, fs ++ [f], d)].
Proof.
  unfold wrote. rewrite length_app. cbn [length]. rewrite Nat.add_1_r. cbn [Init.Nat.pred]. induction sv as [|x sv IH]; [done|]. cbn. by f_equal.
Qed.

Lemma delivered_snoc sv q fs d : delivered (sv ++ [(q, fs, d)]) = sv ++ [(q, fs, true)].
Proof.
  unfold delivered. rewrite length_app. cbn [length]. rewrite Nat.add_1_r. cbn [Init.Nat.pred]. induction sv as [|x sv IH]; [done|]. cbn. by f_equal.
Qed.

Lemma seqs_snoc sv q fs d : seqs (sv ++ [(q, fs, d)]) = seqs sv ++ [q].
Proof. unfold seqs. by rewrite fmap_app. Qed.

Lemma seq_group s i g : ring_ok s -> s.(tb).(groups) !! i = Some g -> g.(seq) = Z.of_nat i + 1.
Proof. intros Hr. apply (ro_seq _ Hr). Qed.

Lemma get_ok s q i : ring_ok s -> get q s.(tb) = Some i -> q = Z.of_nat i + 1 /\ (i < length s.(tb).(groups))%nat.
Proof.
  intros Hr. unfold get. destruct (ring (tb s) !! _) as [j|] eqn:Hj; [|done]. cbn [mbind option_bind].
  destruct (groups (tb s) !! j) as [g|] eqn:Hg; [|done]. cbn [mbind option_bind]. destruct (Z.eqb_spec (seq g) q) as [<-|]; [|done]. intros [= ->].
  split; [by apply (ro_seq _ Hr)|by eapply lookup_lt_Some].
Qed.

(** Within a group: the entry being written is the last. *)
Lemma serve_ok_frame s i idx f :
  ring_ok s -> serve_ok s -> s.(at_) = SNext i idx -> next_frame i idx s.(tb) = Some f ->
  serve_ok (goto (SNext i (S idx)) (set_served (wrote f s.(served)) s)).
Proof.
  intros Hr [Hlast Hgaps Hserved Hat] Ha Hf. unfold at_ok in Hat. rewrite Ha in Hat. destruct Hat as (sv & fs & Hsv & Hfl & Hli).
  unfold next_frame in Hf. destruct (groups (tb s) !! i) as [g|] eqn:Hg; [|done]. cbn [mbind option_bind] in Hf.
  assert (Hw : wrote f s.(served) = sv ++ [(s.(last), fs ++ [f], false)]) by (by rewrite Hsv, wrote_snoc).
  split; cbn [last tb served goto set_served]; rewrite ?Hw.
  - done.
  - rewrite Hsv, seqs_snoc in Hgaps. by rewrite seqs_snoc.
  - intros q fs' d [Hin|Hin]%elem_of_app; [apply Hserved; rewrite Hsv; set_solver|]. apply list_elem_of_singleton in Hin. injection Hin as -> -> ->.
    destruct (Hserved s.(last) fs false) as (g' & Hq & Hsq & Hp & _); [rewrite Hsv; set_solver|].
    replace (Z.to_nat (last s - 1)) with i in * by lia. assert (g = g') as <- by congruence. exists g. split; [done|]. split; [done|]. split; [|done].
    destruct Hp as [r Hr2]. rewrite Hr2 in Hf. rewrite lookup_app_r in Hf by lia. rewrite Hfl, Nat.sub_diag in Hf.
    destruct r as [|f' r]; [done|]. injection Hf as ->. exists r. by rewrite Hr2, <- app_assoc.
  - unfold at_ok, in_group. cbn [at_ goto set_served served last]. exists sv, (fs ++ [f]). split; [done|]. split; [|done]. rewrite length_app. cbn. lia.
Qed.

Lemma serve_ok_done s i idx :
  serve_ok s -> s.(at_) = SComplete i idx -> isComplete i s.(tb) = true ->
  serve_ok (goto SHead (set_served (delivered s.(served)) s)).
Proof.
  intros [Hlast Hgaps Hserved Hat] Ha Hc. unfold at_ok in Hat. rewrite Ha in Hat. destruct Hat as (sv & fs & Hsv & Hfl & Hli).
  assert (Hw : delivered s.(served) = sv ++ [(s.(last), fs, true)]) by (by rewrite Hsv, delivered_snoc).
  split; cbn [last tb served goto set_served]; rewrite ?Hw.
  - done.
  - rewrite Hsv, seqs_snoc in Hgaps. by rewrite seqs_snoc.
  - intros q fs' d [Hin|Hin]%elem_of_app; [apply Hserved; rewrite Hsv; set_solver|]. apply list_elem_of_singleton in Hin. injection Hin as -> -> ->.
    destruct (Hserved s.(last) fs false) as (g' & Hq & Hsq & Hp & _); [rewrite Hsv; set_solver|].
    exists g'. split; [done|]. split; [done|]. split; [done|]. intros _. unfold isComplete in Hc.
    replace (Z.to_nat (last s - 1)) with i in Hq by lia. by rewrite Hq in Hc.
  - unfold at_ok. cbn [at_ goto set_served served last]. rewrite seqs_snoc. unfold reached. rewrite rev_app_distr. by left.
Qed.

Lemma serve_ok_open s i :
  ring_ok s -> serve_ok s -> s.(at_) = SOpen i ->
  serve_ok (goto (SNext i 0) (set_served (s.(served) ++ [(s.(last), [], false)]) s)).
Proof.
  intros Hr [Hlast Hgaps Hserved Hat] Ha. unfold at_ok in Hat. rewrite Ha in Hat. destruct Hat as (Hli & Hi & Hf).
  split; cbn [last tb served goto set_served].
  - done.
  - rewrite seqs_snoc. by apply gaps_snoc.
  - intros q fs d [Hin|Hin]%elem_of_app; [by apply Hserved|]. apply list_elem_of_singleton in Hin. injection Hin as -> -> ->.
    destruct (lookup_lt_is_Some_2 _ _ Hi) as [g Hg]. exists g. replace (Z.to_nat (last s - 1)) with i by lia. split; [done|].
    rewrite (ro_seq _ Hr _ _ Hg). split; [done|]. split; [apply prefix_nil|done].
  - unfold at_ok, in_group. cbn [at_ goto set_served served last]. eauto.
Qed.

(** Moving on without touching what was served. *)
Lemma serve_ok_goto s p n :
  serve_ok s -> 0 <= n <= s.(tb).(pos) -> at_ok (goto p (set_last n s)) -> serve_ok (goto p (set_last n s)).
Proof. intros [Hlast Hgaps Hserved Hat] Hn Ha. by split. Qed.

Lemma set_last_same s : set_last s.(last) s = s.
Proof. by destruct s. Qed.

Lemma serve_ok_step o s s' : serve_step o s = Some s' -> ring_ok s -> serve_ok s -> serve_ok s'.
Proof.
  intros Hs Hr Hi. pose proof (so_at _ Hi) as Hat. pose proof (so_last _ Hi) as Hl. unfold at_ok in Hat. unfold serve_step in Hs.
  assert (Hgoto : forall p, at_ok (goto p s) -> serve_ok (goto p s)) by (intros p Hp; rewrite <- (set_last_same s); apply serve_ok_goto; by rewrite ?set_last_same).
  destruct (at_ s) as [| |latest|q|i|i idx|i idx|i idx| |] eqn:Ha; [| | | | | | | | |done]; apply (inj Some) in Hs as <-.
  - unfold head. apply serve_ok_goto; [done| |].
    + destruct (Z.ltb_spec 0 (pos (tb s))); lia.
    + unfold at_ok. cbn [at_ goto set_last served]. by rewrite Hat.
  - unfold head. destruct (Z.leb_spec (pos (tb s)) (last s)); apply Hgoto; unfold at_ok; cbn [at_ goto tb last served]; [done|]. split; [done|lia].
  - destruct Hat as [Hreach Hlt]. destruct (Z.ltb_spec (last s + 1) (earliestAvailable (tb s))) as [He|He].
    + apply serve_ok_goto; [done|lia|]. unfold at_ok. cbn [at_ goto set_last tb last served]. split; [|lia]. unfold reached in *.
      destruct (List.rev _) as [|a r]; [done|]. unfold earliestAvailable, earliest_of, head, defaultRingSize in *. destruct (Z.leb_spec (pos (tb s)) 8); lia.
    + apply Hgoto. unfold at_ok. cbn [at_ goto tb last served]. split; [done|]. lia.
  - destruct Hat as (Hreach & -> & Hq). destruct (get (last s + 1) (tb s)) as [i|] eqn:Hg; [|by apply Hgoto].
    destruct (get_ok _ _ _ Hr Hg) as [Hi1 Hi2]. apply serve_ok_goto; [done|lia|]. unfold at_ok. cbn [at_ goto set_last tb last served].
    split; [done|]. split; [done|]. by apply reached_next.
  - destruct (openErr o); [by apply Hgoto|]. by apply serve_ok_open.
  - destruct (next_frame i idx (tb s)) as [f|] eqn:Hf; [|by apply Hgoto]. destruct (writeErr o); [by apply Hgoto|]. by apply serve_ok_frame.
  - destruct (isComplete i (tb s)) eqn:Hc; [by eapply serve_ok_done|by apply Hgoto].
  - destruct (ended o); by apply Hgoto.
  - destruct (ended o); by apply Hgoto.
Qed.

Lemma serve_step_ring o s s' : serve_step o s = Some s' -> ring_ok s -> ring_ok s'.
Proof.
  intros Hs [Hpend Hseq Hslot Hheld]. assert (He : s'.(pend) = s.(pend) /\ s'.(tb) = s.(tb) /\ s'.(prod) = s.(prod)).
  { unfold serve_step in Hs. destruct (at_ s); try done; apply (inj Some) in Hs as <-; repeat case_match; done. }
  destruct He as (He1 & He2 & He3). split; rewrite ?He1, ?He2, ?He3; done.
Qed.

Lemma started_ok : ring_ok started /\ serve_ok started.
Proof.
  split; split; cbn; try done; try lia.
  - by intros q fs d ?%not_elem_of_nil.
Qed.

Lemma reachable_track video s : rtc (tstep video) started s -> ring_ok s /\ serve_ok s.
Proof.
  intros Hr. assert (Hi : ring_ok started /\ serve_ok started) by apply started_ok. revert Hi.
  induction Hr as [|x y z Hxy _ IH]; [done|]. intros [Hr Hs]. apply IH. destruct Hxy as [Hp|[o Ho]].
  - split; [by eapply ring_ok_pstep|]. destruct (pstep_grows _ _ _ Hp) as (? & ? & ? & ?). by eapply serve_ok_grow.
  - split; [by eapply serve_step_ring|by eapply serve_ok_step].
Qed.


(** [n] steps of the subscriber alone, QUIC accepting everything. *)
Fixpoint srun (n : nat) (s : sys) : option sys :=
  match n with O => Some s | S n => s ← serve_step fine s; srun n s end.

Lemma srun_add n m s s1 : srun n s = Some s1 -> srun (n + m) s = srun m s1.
Proof.
  revert s. induction n as [|n IH]; intros s Hn; cbn [srun Init.Nat.add] in *; [by injection Hn as ->|].
  destruct (serve_step fine s); [|done]. by apply IH.
Qed.

(** With no push under way, the last groups are in their slots. *)
Lemma get_held s q :
  ring_ok s -> s.(pend) = [] -> earliestAvailable s.(tb) <= q <= s.(tb).(pos) -> get q s.(tb) = Some (Z.to_nat (q - 1)).
Proof.
  intros Hr Hp Hq. assert (Hpos : s.(tb).(pos) = len s.(tb).(groups)).
  { destruct (ro_pend _ Hr) as [(l & Hl & _)|[_ ?]]; [congruence|done]. }
  unfold earliestAvailable, earliest_of, head, defaultRingSize in Hq.
  assert (Hq1 : 1 <= q /\ pos (tb s) <= q - 1 + 8) by (destruct (Z.leb_spec (pos (tb s)) 8); lia).
  pose proof (ro_held _ Hr (Z.to_nat (q - 1)) ltac:(lia) ltac:(unfold defaultRingSize; lia)) as Hh.
  unfold get. replace (Z.of_nat (Z.to_nat (q - 1)) + 1) with q in Hh by lia. rewrite Hh. cbn [mbind option_bind].
  destruct (lookup_lt_is_Some_2 (groups (tb s)) (Z.to_nat (q - 1))) as [g Hg]; [lia|]. rewrite Hg. cbn [mbind option_bind].
  rewrite (ro_seq _ Hr _ _ Hg). destruct (Z.eqb_spec (Z.of_nat (Z.to_nat (q - 1)) + 1) q); [done|lia].
Qed.

(** The frame loop writes what the group holds. *)
Lemma frames_run s i g sv q n : 
  s.(tb).(groups) !! i = Some g -> (n <= length g.(frames))%nat ->
  s.(at_) = SNext i (length g.(frames) - n) -> s.(served) = sv ++ [(q, take (length g.(frames) - n) g.(frames), false)] ->
  srun n s = Some (goto (SNext i (length g.(frames))) (set_served (sv ++ [(q, g.(frames), false)]) s)).
Proof.
  intros Hg. revert s Hg. induction n as [|n IH]; intros s Hg Hn Ha Hsv; cbn [srun].
  { rewrite Nat.sub_0_r in *. rewrite firstn_all in Hsv. f_equal. destruct s. cbn in *. by subst. }
  destruct (lookup_lt_is_Some_2 g.(frames) (length g.(frames) - S n)) as [f Hf]; [lia|].
  assert (Hst : serve_step fine s = Some (goto (SNext i (length g.(frames) - n)) (set_served (sv ++ [(q, take (length g.(frames) - n) g.(frames), false)]) s))).
  { unfold serve_step. rewrite Ha. unfold next_frame. rewrite Hg. cbn [mbind option_bind]. rewrite Hf. cbn [writeErr fine]. rewrite Hsv, wrote_snoc.
    replace (length g.(frames) - n)%nat with (S (length g.(frames) - S n)) by lia. do 3 f_equal. f_equal. f_equal. f_equal. by rewrite (take_S_r _ _ f). }
  rewrite Hst. cbn [mbind option_bind]. set (s1 := goto _ _). rewrite (IH s1); [done|exact Hg|lia|done|done].
Qed.

(** A subscriber is never stuck behind a publisher that is idle: with groups
    it has not been served and no push under way, it delivers on its own, in
    finitely many steps, the whole next group, or the newest if the next one has
    left the ring, and knows it finished if it is complete. *)
Theorem subscriber_progress video s :
  rtc (tstep video) started s -> s.(pend) = [] -> s.(at_) = SIdle \/ s.(at_) = SHead -> s.(last) < s.(tb).(pos) ->
  let q := if s.(last) + 1 <? earliestAvailable s.(tb) then s.(tb).(pos) else s.(last) + 1 in
  exists n s' g, srun n s = Some s' /\ s'.(tb) = s.(tb) /\ s.(tb).(groups) !! Z.to_nat (q - 1) = Some g /\
    s'.(served) = s.(served) ++ [(q, g.(frames), g.(complete))].
Proof.
  intros Hr Hp Ha Hlt. apply reachable_track in Hr as [Hro Hso]. pose proof (so_last _ Hso) as Hl. cbv zeta. set (q := if s.(last) + 1 <? _ then _ else _).
  assert (Hq : earliestAvailable s.(tb) <= q <= s.(tb).(pos) /\ 1 <= q).
  { subst q. unfold earliestAvailable, earliest_of, head, defaultRingSize in *. destruct (Z.leb_spec (pos (tb s)) 8);
      match goal with |- context [if ?a <? ?b then _ else _] => destruct (Z.ltb_spec a b) end; lia. }
  assert (Hqd : if s.(last) + 1 <? earliestAvailable s.(tb) then q = s.(tb).(pos) else q = s.(last) + 1) by (subst q; destruct (_ <? _); done). clearbody q.
  assert (Hget : get q s.(tb) = Some (Z.to_nat (q - 1))) by (by apply get_held; [| |apply Hq]).
  destruct (get_ok _ _ _ Hro Hget) as [_ Hlen]. destruct (lookup_lt_is_Some_2 _ _ Hlen) as [g Hg]. set (i := Z.to_nat (q - 1)) in *.
  set (s4 := goto (SNext i 0) (set_served (s.(served) ++ [(q, [], false)]) (set_last q s))).
  assert (H1 : serve_step fine (goto SHead s) = Some (goto (SEarly s.(tb).(pos)) s)).
  { unfold serve_step, head. cbn [at_ goto tb last]. destruct (Z.leb_spec (pos (tb s)) (last s)); [lia|done]. }
  assert (H2 : serve_step fine (goto (SEarly s.(tb).(pos)) s) = Some (goto (SGet q) (set_last (q - 1) s))).
  { unfold serve_step. cbn [at_ goto tb last]. destruct (last s + 1 <? earliestAvailable (tb s)); rewrite <- Hqd; [done|].
    replace (q - 1) with (last s) by lia. by rewrite set_last_same. }
  assert (H3 : serve_step fine (goto (SGet q) (set_last (q - 1) s)) = Some (goto (SOpen i) (set_last q s))).
  { unfold serve_step. cbn [at_ goto set_last tb]. by rewrite Hget. }
  assert (H4 : serve_step fine (goto (SOpen i) (set_last q s)) = Some s4) by done.
  assert (Hhead : exists n, srun n s = Some s4).
  { assert (Hh : srun 4 (goto SHead s) = Some s4) by (cbn [srun]; rewrite H1; cbn [mbind option_bind]; rewrite H2; cbn [mbind option_bind]; rewrite H3; cbn [mbind option_bind]; by rewrite H4).
    destruct Ha as [Ha|Ha].
    - exists 5%nat. change (srun 5 s) with (serve_step fine s ≫= srun 4). replace (serve_step fine s) with (Some (goto SHead s)) by (unfold serve_step; by rewrite Ha). exact Hh.
    - exists 4%nat. rewrite <- Hh. f_equal. destruct s. cbn in *. by subst. }
  destruct Hhead as [n Hn].
  pose proof (frames_run s4 i g s.(served) q (length g.(frames)) Hg (le_n _)) as Hf.
  rewrite Nat.sub_diag in Hf. specialize (Hf eq_refl eq_refl). set (s5 := goto _ (set_served (served s ++ [(q, frames g, false)]) s4)) in *.
  assert (H5 : serve_step fine s5 = Some (goto (SComplete i (length g.(frames))) s5)).
  { unfold serve_step. cbn [s5 at_ goto set_served tb s4 set_last]. unfold next_frame. rewrite Hg. cbn [mbind option_bind]. by rewrite (lookup_ge_None_2 g.(frames) _ (le_n _)). }
  assert (H6 : exists s', serve_step fine (goto (SComplete i (length g.(frames))) s5) = Some s' /\ s'.(tb) = s.(tb) /\
    s'.(served) = s.(served) ++ [(q, g.(frames), g.(complete))]).
  { unfold serve_step. cbn [at_ goto]. unfold isComplete. cbn [s5 s4 tb goto set_served set_last]. rewrite Hg.
    destruct (complete g); eexists; (split; [done|]); (split; [done|]); [|done].
    change (delivered (s.(served) ++ [(q, g.(frames), false)]) = s.(served) ++ [(q, g.(frames), true)]). by rewrite delivered_snoc. }
  destruct H6 as (s' & H6 & Htb & Hsv). exists (n + (length g.(frames) + 2))%nat, s', g. rewrite (srun_add _ _ _ _ Hn), (srun_add _ _ _ _ Hf).
  cbn [srun]. rewrite H5. cbn [mbind option_bind]. by rewrite H6.
Qed.

(** A schedule: the pushes, actions and the subscriber's steps. *)
Inductive event := EPush (fs : list bytes) | EAct | EStep.

Definition run_event (e : event) (s : sys) : option sys :=
  match e with
  | EPush fs => match s.(pend) with [] => Some (mkSys s.(prod) (pushFrames fs) s.(tb) s.(at_) s.(last) s.(served)) | _ => None end
  | EAct =>
      match s.(pend) with
      | a :: l => let '(p, b) := act a s.(prod) s.(tb) in Some (mkSys p l b s.(at_) s.(last) s.(served))
      | [] => None
      end
  | EStep => serve_step fine s
  end.

Fixpoint run_events (l : list event) (s : sys) : option sys :=
  match l with [] => Some s | e :: l => s ← run_event e s; run_events l s end.

Lemma run_events_reach l s s' : run_events l s = Some s' -> rtc (tstep false) s s'.
Proof.
  revert s. induction l as [|e l IH]; intros s Hr; cbn [run_events] in Hr; [injection Hr as ->; apply rtc_refl|].
  destruct (run_event e s) as [s1|] eqn:He; [|done]. cbn [mbind option_bind] in Hr. eapply rtc_l; [|by apply IH].
  destruct e as [fs| |]; cbn [run_event] in He.
  - destruct (pend s) eqn:Hp; [|done]. injection He as <-. left. by apply p_single.
  - destruct (pend s) as [|a l'] eqn:Hp; [done|]. left. pose proof (p_act false s a l' Hp) as Ha. destruct (act a (prod s) (tb s)). by injection He as <-.
  - right. eauto.
Qed.

(** The subscriber reads the new group before its frame is appended, and its
    completion after. *)
Definition lost_frame : list event :=
  [EPush [[1; 2; 3]]; EAct; EAct] ++ replicate 6 EStep ++ [EAct; EAct; EStep].

(** An audio frame can be lost: [openGroup] shows the group before its frame is
    in it, and the frame loop looks for the next frame first and for the completion
    after; when the frame and the completion fall between the two looks, the group
    is delivered as finished without its frame. *)
Theorem ingest_can_lose_a_frame :
  exists s, rtc (tstep false) started s /\ s.(pend) = [ANotify] /\ s.(at_) = SHead /\
    s.(served) = [(1, [], true)] /\ s.(tb).(groups) = [mkGroup 1 [[1; 2; 3]] true].
Proof.
  destruct (run_events lost_frame started) as [s|] eqn:Hr; [|vm_compute in Hr; discriminate Hr].
  exists s. split; [by eapply run_events_reach|]. vm_compute in Hr. apply (inj Some) in Hr as <-. done.
Qed.

(** ** What the RTMP loop pushes *)

(** An RTMP message: 24 bits of length and 32 of time. *)
Definition rtmp_ok (fr : rtmpFrame) : Prop :=
  in_u 32 fr.(Timestamp) /\ bytes_ok fr.(Data) /\ len fr.(Data) < 2 ^ 24.

(** What a call on the session comes from. *)
Definition call_from (frs : list rtmpFrame) (c : push_call) : Prop :=
  match c with
  | PushVideo pts data key => exists fr cts,
      fr ∈ frs /\ fr.(Type_) = FrameVideo /\ data = drop 5 fr.(Data) /\ key = isVideoKeyframe fr.(Data) /\
      - 2 ^ 23 <= cts < 2 ^ 23 /\ cts mod 2 ^ 24 = of_be (take 3 (drop 2 fr.(Data))) /\ pts = (fr.(Timestamp) + cts) * 1000 /\
      decodeMediaFrame (writeMediaFrame [] pts data) = Ok (pts mod 2 ^ 62, data)
  | PushAudio pts data => exists fr,
      fr ∈ frs /\ fr.(Type_) = FrameAudio /\ StripFLVAudioHeader fr.(Data) = Ok data /\ pts = fr.(Timestamp) * 1000 /\
      decodeMediaFrame (writeMediaFrame [] pts data) = Ok (pts, data)
  | RegisterVideo cfg => exists fr, fr ∈ frs /\ fr.(Type_) = FrameVideo /\ ParseAVCConfig fr.(Data) = Ok cfg
  | RegisterAudio cfg => exists fr, fr ∈ frs /\ fr.(Type_) = FrameAudio /\ ParseAACConfig fr.(Data) = Ok cfg
  end.

Lemma media_back pts (data : bytes) n (d : bytes) :
  in_s 64 pts -> data = drop n d -> bytes_ok d -> len d < 2 ^ 24 -> decodeMediaFrame (writeMediaFrame [] pts data) = Ok (pts mod 2 ^ 62, data).
Proof.
  intros Hp -> Hd Hl. apply media_frame_back; [done|by apply Forall_drop|]. rewrite length_drop. unfold maxVarint. lia.
Qed.

Lemma ingest_frame_calls fr frs st :
  rtmp_ok fr -> fr ∈ frs ->
  Forall (call_from frs) (ingest_frame fr st).2 /\
  (st.1 = None -> Forall (fun c => match c with PushVideo _ _ _ => False | _ => True end) (ingest_frame fr st).2) /\
  ((ingest_frame fr st).1.1 <> st.1 -> exists cfg, (ingest_frame fr st).2 = [RegisterVideo cfg]).
Proof.
  intros (Ht & Hb & Hl) Hin. destruct st as [avc aac]. unfold ingest_frame. unfold in_u in Ht.
  change (2 ^ 32) with 4294967296 in Ht. destruct (Type_ fr) eqn:Hty; [| |done].
  - destruct (IsVideoSequenceHeader (Data fr)).
    + destruct (ParseAVCConfig (Data fr)) as [cfg|e] eqn:Hp; [|done]. cbn [fst snd]. split; [|split; [by repeat constructor|eauto]].
      constructor; [|done]. cbn. eauto.
    + destruct avc as [c|]; [|done]. destruct (Z.ltb_spec (len (Data fr)) 5); [done|].
      destruct (tags_facts (Data fr) Hb ltac:(done)) as (cts & Hc & Hr & Hm). rewrite Hc. change (2 ^ 23) with 8388608 in Hr.
      assert (H64 : forall z, - 2 ^ 50 < z < 2 ^ 50 -> in_s 64 z) by (unfold in_s; change (2 ^ 50) with 1125899906842624; change (2 ^ (64 - 1)) with 9223372036854775808; lia).
      rewrite !(wraps_id 64) by (rewrite ?(wraps_id 64) by (try lia; apply H64; change (2 ^ 50) with 1125899906842624; lia); try lia; apply H64; change (2 ^ 50) with 1125899906842624; lia).
      cbn [fst snd]. split; [|done]. constructor; [|done]. exists fr, cts. do 4 (split; [done|]). split; [done|]. split; [done|]. split; [done|].
      eapply media_back; [|done|done|done]. apply H64. change (2 ^ 50) with 1125899906842624. lia.
  - destruct (IsAudioSequenceHeader (Data fr)).
    + destruct (ParseAACConfig (Data fr)) as [cfg|e] eqn:Hp; [|done]. cbn [fst snd]. split; [|split; [by repeat constructor|done]].
      constructor; [|done]. cbn. eauto.
    + destruct (StripFLVAudioHeader (Data fr)) as [raw|e] eqn:Hs; [|done]. cbn [fst snd]. split; [|split; [by repeat constructor|done]].
      assert (H64 : in_s 64 (Timestamp fr * 1000)) by (unfold in_s; change (2 ^ (64 - 1)) with 9223372036854775808; lia). rewrite wraps_id by (lia || done).
      constructor; [|done]. exists fr. do 4 (split; [done|]). rewrite <- (Z.mod_small (Timestamp fr * 1000) (2 ^ 62)) at 2 by (change (2 ^ 62) with 4611686018427387904; lia).
      eapply media_back; [done| |done|done]. unfold StripFLVAudioHeader in Hs. inv_ok. unfold slice_or in Hs. inv_ok. subst raw.
      rewrite take_ge by (rewrite length_drop; lia). done.
Qed.

(** What an RTMP publisher's frames become: every video frame pushed is a
    video tag without its five header bytes, stamped with the tag's time plus its
    signed composition offset in microseconds, and every audio frame is an AAC tag
    without its two, the arithmetic never overflowing; each, in its MediaFrame, is
    read back whole with its time (a negative one modulo 2^62). Only configurations
    that parse are registered, and no video is pushed before one is. *)
Theorem rtmp_calls frs :
  Forall rtmp_ok frs ->
  Forall (call_from frs) (ingestRTMP frs (None, None)) /\
  forall pre pts data key post, ingestRTMP frs (None, None) = pre ++ PushVideo pts data key :: post -> exists cfg, RegisterVideo cfg ∈ pre.
Proof.
  intros Hok. assert (Hgen : forall l st, l ⊆ frs -> Forall (call_from frs) (ingestRTMP l st) /\
    (st.1 = None -> forall pre pts data key post, ingestRTMP l st = pre ++ PushVideo pts data key :: post -> exists cfg, RegisterVideo cfg ∈ pre)).
  { induction l as [|fr l IH]; intros st Hsub; cbn [ingestRTMP]; [split; [done|]; by intros _ []|].
    assert (Hin : fr ∈ frs) by set_solver. rewrite Forall_forall in Hok.
    destruct (ingest_frame_calls fr frs st (Hok fr Hin) Hin) as (Hf & Hno & Hreg). destruct (ingest_frame fr st) as [st' cs]. cbn [fst snd] in *.
    destruct (IH st' ltac:(set_solver)) as [Hl Hgate]. split; [apply Forall_app; done|]. intros Hn pre pts data key post He. specialize (Hno Hn).
    destruct st'.1 as [cfg'|] eqn:Hst'.
    - destruct Hreg as [cfg ->]; [congruence|]. destruct pre as [|c pre]; [done|]. injection He as <- _. exists cfg. set_solver.
    - rewrite Forall_forall in Hno. assert (Hsplit : exists pre', pre = cs ++ pre' /\ ingestRTMP l st' = pre' ++ PushVideo pts data key :: post).
      { clear -He Hno. revert pre He. induction cs as [|c cs IHc]; intros pre He; [by exists pre|].
        destruct pre as [|c' pre]; [injection He as -> _; by destruct (Hno (PushVideo pts data key) ltac:(set_solver))|].
        injection He as <- He. destruct (IHc ltac:(set_solver) pre He) as (pre' & -> & ?). by exists pre'. }
      destruct Hsplit as (pre' & -> & He'). destruct (Hgate ltac:(done) _ _ _ _ _ He') as [cfg ?]. exists cfg. set_solver. }
  destruct (Hgen frs (None, None) ltac:(done)) as [H1 H2]. split; [done|]. by apply H2.
Qed.

(** ** Examples *)

(** Two single groups pushed, the subscriber waiting after the first. *)
Definition pushed : list event :=
  [EPush [[1; 2]]; EAct; EAct; EAct; EAct; EAct] ++ replicate 9 EStep ++ [EPush [[3]; [4]]] ++ replicate 6 EAct.
Definition ex_sys : sys := default started (run_events pushed started).

Lemma ex_sys_reachable : rtc (tstep false) started ex_sys.
Proof. apply (run_events_reach pushed). vm_compute. reflexivity. Qed.


Lemma subscriber_progress_witness :
  exists n s' g, srun n ex_sys = Some s' /\ s'.(tb) = ex_sys.(tb) /\ ex_sys.(tb).(groups) !! 1%nat = Some g /\
    s'.(served) = ex_sys.(served) ++ [(2, g.(frames), g.(complete))].
Proof.
  apply (subscriber_progress false ex_sys ex_sys_reachable); [vm_compute; reflexivity|left; vm_compute; reflexivity|vm_compute; reflexivity].
Defined.

Definition ex_tags : list rtmpFrame :=
  [mkRtmp FrameVideo 0 ([23; 0; 0; 0; 0] ++ hd_record); mkRtmp FrameVideo 40 [39; 1; 255; 255; 216; 9; 9]; mkRtmp FrameAudio 41 [175; 1; 33]].

Lemma rtmp_calls_witness :
  ingestRTMP ex_tags (None, None) = [RegisterVideo hd_config; PushVideo 0 [9; 9] false; PushAudio 41000 [33]] /\
  Forall (call_from ex_tags) (ingestRTMP ex_tags (None, None)).
Proof.
  split; [vm_compute; reflexivity|]. apply (rtmp_calls ex_tags).
  repeat constructor; try (vm_compute; discriminate); vm_compute; reflexivity.
Defined.
