(* ===== verification/Rtp.v ===== *)
(** * Rtp: from RTP packets to frames

    src/internal/rtsp/rtp.go ([UnmarshalRTP]) and the depacketizers of the RTSP
    ingest: H.264 access units (src/internal/ingest/rtsp.go: [rtspTrack], from
    [handleFrame] to [appendAVCC], and [newRTSPTrackFromMedia]) and AAC access
    units (src/internal/ingest/rtsp_aac.go).

    A track is a state, a packet a step that returns the new state and the calls
    made on the ingest session. An index, a slice or a make out of range is
    [Panic]. Payloads are never written to, so they are values. *)
From S2P Require Import Prelude GoBytes GoStrings GoText Rtsp Flv.

#[local] Open Scope Z_scope.

Inductive rtsp_error :=
| RTPTooShort | RTPShortCSRC | RTPShortExtensionHeader | RTPShortExtensionBody | RTPNoPaddingByte | RTPBadPadding (n : Z)
| errShortRTPPayload | errBadAUHeaderField | Panic.

#[export] Instance rtsp_error_eq_dec : EqDecision rtsp_error.
Proof. solve_decision. Defined.

Abbreviation index := (index_or Panic).
Abbreviation slice := (slice_or Panic).
Abbreviation uint16_at := (uint16_or Panic).

(** ** RTP packets *)

Record RTPHeader := mkHeader {
  Version : Z; Padding : bool; Extension : bool; Marker : bool; PayloadType : Z;
  SequenceNumber : Z; Timestamp : Z; SSRC : Z
}.
Record RTPPacket := mkPacket { Header : RTPHeader; Payload : bytes }.

(** The fixed header. *)
Definition parse_header (data : bytes) : result rtsp_error RTPHeader :=
  b0 ← index data 0; b1 ← index data 1;
  sq ← slice data 2 4; ts ← slice data 4 8; ss ← slice data 8 12;
  Ok (mkHeader (Z.shiftr b0 6) (Z.land (Z.shiftr b0 5) 1 =? 1) (Z.land (Z.shiftr b0 4) 1 =? 1)
        (Z.land (Z.shiftr b1 7) 1 =? 1) (Z.land b1 127) (of_be sq) (of_be ts) (of_be ss)).

(** The offset after the header extension at [off], if there is one. *)
Definition skip_extension (data : bytes) (extension : bool) (off : Z) : result rtsp_error Z :=
  if extension then
    guard_err (negb (len data <? off + 4)) RTPShortExtensionHeader;;
    words ← uint16_at data (off + 2);
    let off := off + (4 + words * 4) in
    guard_err (negb (len data <? off)) RTPShortExtensionBody;; Ok off
  else Ok off.

Definition strip_padding (padding : bool) (payload : bytes) : result rtsp_error bytes :=
  if padding then
    guard_err (negb (len payload =? 0)) RTPNoPaddingByte;;
    padLen ← index payload (len payload - 1);
    guard_err (negb ((padLen =? 0) || (len payload <? padLen))) (RTPBadPadding padLen);;
    slice payload 0 (len payload - padLen)
  else Ok payload.

Definition UnmarshalRTP (data : bytes) : result rtsp_error RTPPacket :=
  guard_err (negb (len data <? 12)) RTPTooShort;;
  h ← parse_header data;
  b0 ← index data 0;
  let off := 12 + Z.land b0 15 * 4 in
  guard_err (negb (len data <? off)) RTPShortCSRC;;
  off ← skip_extension data h.(Extension) off;
  payload ← slice data off (len data);
  payload ← strip_padding h.(Padding) payload;
  Ok (mkPacket h payload).

(** *** RFC 3550, 5.1 *)

(** A packet: its header's fields, contributing sources, extension (profile and
    body), payload, and the padding before the last byte. *)
Record rtp_syntax := mkSyntax {
  s_version : Z; s_marker : bool; s_type : Z; s_seq : Z; s_ts : Z; s_ssrc : Z;
  s_csrc : bytes; s_ext : option (bytes * bytes); s_payload : bytes; s_pad : option bytes
}.

Definition flag (b : bool) : Z := if b then 1 else 0.
Definition present {A} (o : option A) : bool := match o with Some _ => true | None => false end.

Definition ext_bytes (e : option (bytes * bytes)) : bytes :=
  match e with Some (profile, body) => profile ++ be 2 (len body / 4) ++ body | None => [] end.
Definition pad_bytes (p : option bytes) : bytes :=
  match p with Some fill => fill ++ [len fill + 1] | None => [] end.

Definition wire (s : rtp_syntax) : bytes :=
  (s.(s_version) * 64 + flag (present s.(s_pad)) * 32 + flag (present s.(s_ext)) * 16 + len s.(s_csrc) / 4) ::
  (flag s.(s_marker) * 128 + s.(s_type)) :: be 2 s.(s_seq) ++ be 4 s.(s_ts) ++ be 4 s.(s_ssrc) ++
  s.(s_csrc) ++ ext_bytes s.(s_ext) ++ s.(s_payload) ++ pad_bytes s.(s_pad).

Definition ext_ok (e : option (bytes * bytes)) : Prop :=
  match e with Some (profile, body) => len profile = 2 /\ len body mod 4 = 0 /\ len body / 4 < 65536 | None => True end.
Definition pad_ok (p : option bytes) : Prop := match p with Some fill => len fill < 255 | None => True end.

Record packet_ok (s : rtp_syntax) : Prop := {
  p_version : 0 <= s.(s_version) < 4; p_type : 0 <= s.(s_type) < 128; p_seq : in_u 16 s.(s_seq);
  p_ts : in_u 32 s.(s_ts); p_ssrc : in_u 32 s.(s_ssrc);
  p_csrc : len s.(s_csrc) mod 4 = 0 /\ len s.(s_csrc) / 4 < 16; p_ext : ext_ok s.(s_ext); p_pad : pad_ok s.(s_pad)
}.

Definition header_of (s : rtp_syntax) : RTPHeader :=
  mkHeader s.(s_version) (present s.(s_pad)) (present s.(s_ext)) s.(s_marker) s.(s_type) s.(s_seq) s.(s_ts) s.(s_ssrc).
Definition packet_of (s : rtp_syntax) : RTPPacket := mkPacket (header_of s) s.(s_payload).

(** The fields of the first two bytes. *)
Lemma rtp_first_byte v p e c :
  0 <= v < 4 -> 0 <= c < 16 ->
  let b := v * 64 + flag p * 32 + flag e * 16 + c in
  Z.shiftr b 6 = v /\ (Z.land (Z.shiftr b 5) 1 =? 1) = p /\ (Z.land (Z.shiftr b 4) 1 =? 1) = e /\ Z.land b 15 = c.
Proof.
  intros Hv Hc. cbv zeta. change 1 with (Z.ones 1). change 15 with (Z.ones 4). rewrite !Z.land_ones, !Z.shiftr_div_pow2 by lia.
  change (2 ^ 6) with 64. change (2 ^ 5) with 32. change (2 ^ 4) with 16. change (2 ^ 1) with 2. change (Z.ones 1) with 1.
  destruct p, e; cbn [flag]; (split; [|split; [|split]]); rewrite ?Z.eqb_eq, ?Z.eqb_neq; Z.div_mod_to_equations; lia.
Qed.

Lemma rtp_second_byte m t :
  0 <= t < 128 -> let b := flag m * 128 + t in (Z.land (Z.shiftr b 7) 1 =? 1) = m /\ Z.land b 127 = t.
Proof.
  intros Ht. cbv zeta. change 1 with (Z.ones 1). change 127 with (Z.ones 7). rewrite !Z.land_ones, Z.shiftr_div_pow2 by lia.
  change (2 ^ 7) with 128. change (2 ^ 1) with 2. change (Z.ones 1) with 1.
  destruct m; cbn [flag]; split; rewrite ?Z.eqb_eq, ?Z.eqb_neq; Z.div_mod_to_equations; lia.
Qed.

(** A byte is its fields. *)
Lemma first_byte_fields b :
  byte_ok b -> b = Z.shiftr b 6 * 64 + flag (Z.land (Z.shiftr b 5) 1 =? 1) * 32 + flag (Z.land (Z.shiftr b 4) 1 =? 1) * 16 + Z.land b 15 /\
  0 <= Z.shiftr b 6 < 4 /\ 0 <= Z.land b 15 < 16.
Proof.
  unfold byte_ok. intros Hb. change 1 with (Z.ones 1). change 15 with (Z.ones 4). rewrite !Z.land_ones, !Z.shiftr_div_pow2 by lia.
  change (2 ^ 6) with 64. change (2 ^ 5) with 32. change (2 ^ 4) with 16. change (2 ^ 1) with 2. change (Z.ones 1) with 1.
  destruct (Z.eqb_spec ((b / 32) mod 2) 1), (Z.eqb_spec ((b / 16) mod 2) 1); cbn [flag]; Z.div_mod_to_equations; lia.
Qed.

Lemma second_byte_fields b :
  byte_ok b -> b = flag (Z.land (Z.shiftr b 7) 1 =? 1) * 128 + Z.land b 127 /\ 0 <= Z.land b 127 < 128.
Proof.
  unfold byte_ok. intros Hb. change 1 with (Z.ones 1). change 127 with (Z.ones 7). rewrite !Z.land_ones, Z.shiftr_div_pow2 by lia.
  change (2 ^ 7) with 128. change (2 ^ 1) with 2. change (Z.ones 1) with 1.
  destruct (Z.eqb_spec ((b / 128) mod 2) 1); cbn [flag]; Z.div_mod_to_equations; lia.
Qed.

Lemma parse_header_eq b0 b1 sq ts ss rest :
  length sq = 2%nat -> length ts = 4%nat -> length ss = 4%nat ->
  parse_header (b0 :: b1 :: sq ++ ts ++ ss ++ rest) =
  Ok (mkHeader (Z.shiftr b0 6) (Z.land (Z.shiftr b0 5) 1 =? 1) (Z.land (Z.shiftr b0 4) 1 =? 1)
        (Z.land (Z.shiftr b1 7) 1 =? 1) (Z.land b1 127) (of_be sq) (of_be ts) (of_be ss)).
Proof.
  intros H1 H2 H3. unfold parse_header. rewrite (index_ok _ _ 0 b0), (index_ok _ _ 1 b1) by done. cbn [mbind result_bind].
  change (b0 :: b1 :: sq ++ ts ++ ss ++ rest) with ([b0; b1] ++ sq ++ ts ++ ss ++ rest).
  rewrite (slice_mid _ [b0; b1] sq _ 2 4) by (cbn; lia). cbn [mbind result_bind]. rewrite (app_assoc [b0; b1]).
  rewrite (slice_mid _ ([b0; b1] ++ sq) ts _ 4 8) by (rewrite ?length_app; cbn; lia). cbn [mbind result_bind]. rewrite (app_assoc ([b0; b1] ++ sq)).
  rewrite (slice_mid _ (([b0; b1] ++ sq) ++ ts) ss _ 8 12) by (rewrite ?length_app; cbn; lia). done.
Qed.

(** The extension is skipped exactly when it is there whole. *)
Lemma skip_extension_exact data e off off' :
  bytes_ok data -> 0 <= off <= len data ->
  skip_extension data e off = Ok off' <->
  exists x, present x = e /\ ext_ok x /\ drop (Z.to_nat off) data = ext_bytes x ++ drop (Z.to_nat off') data /\ off <= off' <= len data.
Proof.
  intros Hb Ho. unfold skip_extension. destruct e.
  2:{ split; [intros [= <-]; exists None; cbn; repeat split; (done || lia)|]. intros ([?|] & Hx & _ & Hd & Hl); [done|]. f_equal.
      apply (f_equal length) in Hd. cbn [ext_bytes app] in Hd. rewrite !length_drop in Hd. lia. }
  set (s := drop (Z.to_nat off) data). assert (Hs : length s = (length data - Z.to_nat off)%nat) by (subst s; apply length_drop).
  assert (Hbs : bytes_ok s) by (by apply Forall_drop).
  split.
  - intros H. destruct (Z.ltb_spec (len data) (off + 4)); [done|]. cbn [negb guard_err mbind result_bind] in H.
    pose proof (uint16_ok Panic data (off + 2) (drop 2 s) ltac:(lia)) as Hu. rewrite length_drop in Hu.
    destruct (Z.ltb_spec (Z.of_nat (length s - 2)) 2) in Hu; [lia|]. destruct Hu as (Hu & _ & _); [subst s; rewrite drop_drop; f_equal; lia|].
    rewrite Hu in H. cbn [mbind result_bind] in H. set (w := take 2 (drop 2 s)) in *.
    assert (Hw : bytes_ok w) by (by apply Forall_take, Forall_drop). assert (Hwl : length w = 2%nat) by (subst w; rewrite length_take, length_drop; lia).
    pose proof (of_be_range w Hw) as Hr. rewrite Hwl in Hr. change (256 ^ Z.of_nat 2) with 65536 in Hr.
    destruct (Z.ltb_spec (len data) (off + (4 + of_be w * 4))); [done|]. injection H as <-.
    set (k := Z.to_nat (of_be w * 4)). set (body := take k (drop 4 s)).
    assert (Hbl : len body = of_be w * 4) by (subst body k; rewrite length_take, length_drop; lia).
    exists (Some (take 2 s, body)). cbn [present ext_ok ext_bytes]. rewrite Hbl, Z.mod_mul, Z.div_mul, length_take by lia.
    split; [done|]. split; [lia|]. split; [|lia]. assert (Hbe : be 2 (of_be w) = w) by (pose proof (be_of_be w Hw) as Hbe; by rewrite Hwl in Hbe). rewrite Hbe.
    replace (Z.to_nat (off + (4 + of_be w * 4))) with (Z.to_nat off + 4 + k)%nat by lia. clearbody k. subst w body.
    rewrite <- drop_drop, <- drop_drop. fold s. clearbody s. change (drop 4 s) with (drop (2 + 2) s). rewrite <- drop_drop, <- !app_assoc, !take_drop. done.
  - intros ([[profile body]|] & Hx & Hok & Hd & Hl); [|done]. cbn [ext_ok ext_bytes] in Hok, Hd. destruct Hok as (Hp & Hm & Hw).
    assert (Hlen : length s = (2 + 2 + length body + (length data - Z.to_nat off'))%nat).
    { rewrite Hd, !length_app, length_be, length_drop. lia. }
    destruct (Z.ltb_spec (len data) (off + 4)); [lia|]. cbn [negb guard_err mbind result_bind].
    assert (Hd2 : drop (Z.to_nat (off + 2)) data = be 2 (len body / 4) ++ body ++ drop (Z.to_nat off') data).
    { replace (Z.to_nat (off + 2)) with (Z.to_nat off + length profile)%nat by lia. rewrite <- drop_drop. fold s. rewrite Hd, <- !app_assoc. apply drop_app_length. }
    pose proof (uint16_ok Panic data (off + 2) _ ltac:(lia) Hd2) as Hu. rewrite length_app, length_be in Hu. destruct (Z.ltb_spec (Z.of_nat (2 + length (body ++ drop (Z.to_nat off') data))) 2) in Hu; [lia|].
    destruct Hu as (-> & _ & _). cbn [mbind result_bind]. rewrite (take_app_le), (take_ge (be 2 _)) by (rewrite length_be; lia).
    rewrite of_be_be_id by (change (256 ^ Z.of_nat 2) with 65536; Z.div_mod_to_equations; lia).
    replace (len body / 4 * 4) with (len body) by (Z.div_mod_to_equations; lia).
    destruct (Z.ltb_spec (len data) (off + (4 + len body))); [lia|]. cbn [negb guard_err mbind result_bind]. f_equal. lia.
Qed.

(** Padding is stripped exactly when its last byte counts it. *)
Lemma strip_padding_exact p s s' :
  bytes_ok s -> strip_padding p s = Ok s' <-> exists x, present x = p /\ pad_ok x /\ s = s' ++ pad_bytes x.
Proof.
  intros Hb. unfold strip_padding. destruct p.
  2:{ split; [intros [= ->]; exists None; cbn; by rewrite app_nil_r|]. intros ([?|] & Hx & _ & ->); [done|]. cbn. by rewrite app_nil_r. }
  split.
  - intros H. inv_ok. bool_prop. destruct s as [|last s0 _] using rev_ind; [done|]. rewrite length_app in *. cbn [length] in *.
    assert (Hi : index (s0 ++ [last]) (Z.of_nat (length s0 + 1) - 1) = Ok last).
    { apply index_ok; [lia|]. replace (Z.to_nat _) with (length s0) by lia. by apply list_lookup_middle. }
    match goal with H : index_or _ _ _ = Ok _ |- _ => rewrite Hi in H; injection H as <- end.
    unfold slice_or in *. inv_ok. subst s'. apply Forall_app in Hb as [_ Hb]. apply Forall_cons in Hb as [Hb _]. unfold byte_ok in Hb.
    bool_prop. exists (Some (drop (length s0 + 1 - Z.to_nat last) s0)). cbn [present pad_ok pad_bytes]. rewrite length_drop.
    split; [done|]. split; [lia|]. rewrite drop_0, take_app_le by lia.
    replace (Z.to_nat (Z.of_nat (length s0 + 1) - last - 0)) with (length s0 + 1 - Z.to_nat last)%nat by lia.
    rewrite app_assoc, take_drop. do 2 f_equal. lia.
  - intros ([fill|] & Hx & Hok & ->); [|done]. cbn [pad_bytes pad_ok] in *. rewrite !length_app. cbn [length].
    destruct (Z.eqb_spec (Z.of_nat (length s' + (length fill + 1))) 0); [lia|]. cbn [negb guard_err mbind result_bind].
    rewrite (index_ok _ _ _ (len fill + 1)); [|lia|].
    2:{ rewrite app_assoc. replace (Z.to_nat _) with (length (s' ++ fill)) by (rewrite length_app; lia). by apply list_lookup_middle. }
    cbn [mbind result_bind]. destruct (Z.eqb_spec (len fill + 1) 0); [lia|]. destruct (Z.ltb_spec (Z.of_nat (length s' + (length fill + 1))) (len fill + 1)); [lia|].
    cbn [orb negb guard_err mbind result_bind]. rewrite slice_ok by (rewrite ?length_app; cbn [length]; lia). rewrite drop_0, take_app_le by lia.
    f_equal. apply take_ge. lia.
Qed.

Lemma unmarshal_sound data p :
  bytes_ok data -> UnmarshalRTP data = Ok p -> exists s, packet_ok s /\ data = wire s /\ p = packet_of s.
Proof.
  intros Hb. unfold UnmarshalRTP. destruct (Z.ltb_spec (len data) 12); [done|]. cbn [negb guard_err mbind result_bind].
  destruct data as [|b0 [|b1 [|q0 [|q1 [|t0 [|t1 [|t2 [|t3 [|c0 [|c1 [|c2 [|c3 rest]]]]]]]]]]]]; try (cbn [length] in *; lia).
  change (b0 :: b1 :: q0 :: q1 :: _) with (b0 :: b1 :: [q0; q1] ++ [t0; t1; t2; t3] ++ [c0; c1; c2; c3] ++ rest) in *.
  set (sq := [q0; q1]) in *. set (ts := [t0; t1; t2; t3]) in *. set (ss := [c0; c1; c2; c3]) in *. set (data := b0 :: _) in *.
  assert (Hd12 : forall n, drop (12 + n) data = drop n rest) by done. assert (Hlen : length data = (12 + length rest)%nat) by done.
  pose proof Hb as Hb'. apply Forall_cons in Hb' as [Hb0 Hb']. apply Forall_cons in Hb' as [Hb1 Hb'].
  apply Forall_app in Hb' as [Hsq Hb']. apply Forall_app in Hb' as [Hts Hb']. apply Forall_app in Hb' as [Hss Hrest].
  pose proof (parse_header_eq b0 b1 sq ts ss rest eq_refl eq_refl eq_refl) as Hph. fold data in Hph. rewrite Hph. cbn [mbind result_bind Extension Padding]. rewrite (index_ok _ _ 0 b0) by done. cbn [mbind result_bind].
  destruct (first_byte_fields b0 Hb0) as (He0 & Hv & Hcc). destruct (second_byte_fields b1 Hb1) as (He1 & Ht). set (cc := Z.land b0 15) in *.
  destruct (Z.ltb_spec (len data) (12 + cc * 4)); [done|]. cbn [negb guard_err mbind result_bind]. intros Hp. apply bind_Ok in Hp as (off & Ho & Hp).
  apply skip_extension_exact in Ho as (ext & Hpe & Hoe & Hde & Hoff); [|done|lia]. apply bind_Ok in Hp as (pl & Hsl & Hp).
  rewrite slice_ok in Hsl by lia. injection Hsl as <-. apply bind_Ok in Hp as (pl & Hst & Hp). injection Hp as <-.
  rewrite take_ge in Hst by (rewrite length_drop; lia). apply strip_padding_exact in Hst as (pad & Hpp & Hop & Hdp); [|by apply Forall_drop].
  exists (mkSyntax (Z.shiftr b0 6) (Z.land (Z.shiftr b1 7) 1 =? 1) (Z.land b1 127) (of_be sq) (of_be ts) (of_be ss) (take (Z.to_nat (cc * 4)) rest) ext pl pad).
  assert (Hcl : len (take (Z.to_nat (cc * 4)) rest) = cc * 4) by (rewrite length_take; lia).
  pose proof (of_be_range sq Hsq). pose proof (of_be_range ts Hts). pose proof (of_be_range ss Hss).
  split; [|split].
  + split; cbn; try done; rewrite ?Hcl, ?Z.mod_mul, ?Z.div_mul by lia; (done || lia).
  + unfold wire. cbn [s_version s_marker s_type s_seq s_ts s_ssrc s_csrc s_ext s_payload s_pad]. rewrite Hcl, Z.div_mul, Hpe, Hpp, <- He0, <- He1 by lia.
    pose proof (be_of_be sq Hsq) as Hq. pose proof (be_of_be ts Hts) as Hq'. pose proof (be_of_be ss Hss) as Hq''. cbn [length sq ts ss] in Hq, Hq', Hq''.
    rewrite Hq, Hq', Hq''. unfold data. do 5 f_equal.
    rewrite <- Hdp, <- Hde. replace (Z.to_nat (12 + cc * 4)) with (12 + Z.to_nat (cc * 4))%nat by lia. rewrite Hd12. by rewrite take_drop.
  + unfold packet_of, header_of. cbn. by rewrite Hpe, Hpp.
Qed.

Lemma unmarshal_complete s : bytes_ok (wire s) -> packet_ok s -> UnmarshalRTP (wire s) = Ok (packet_of s).
Proof.
  unfold UnmarshalRTP. intros Hb Hs. destruct Hs as [Hv Ht Hq Hts Hss [Hc4 Hcc] He Hp]. unfold wire in *. destruct s as [v m t q ts ss csrc ext pl pad]. cbn [s_version s_marker s_type s_seq s_ts s_ssrc s_csrc s_ext s_payload s_pad] in *.
  set (b0 := v * 64 + _ + _ + _) in *. set (b1 := flag m * 128 + t) in *. set (rest := csrc ++ ext_bytes ext ++ pl ++ pad_bytes pad) in *. set (data := b0 :: _) in *.
  assert (Hd12 : forall n, drop (12 + n) data = drop n rest) by done. assert (Hlen : length data = (12 + length rest)%nat) by done.
  assert (Hcc0 : 0 <= len csrc / 4 < 16) by (Z.div_mod_to_equations; lia).
  destruct (rtp_first_byte v (present pad) (present ext) (len csrc / 4) Hv Hcc0) as (H1 & H2 & H3 & H4). destruct (rtp_second_byte m t Ht) as (H5 & H6).
  destruct (Z.ltb_spec (len data) 12); [lia|]. cbn [negb guard_err mbind result_bind]. pose proof (parse_header_eq b0 b1 (be 2 q) (be 4 ts) (be 4 ss) rest (length_be _ _) (length_be _ _) (length_be _ _)) as Hph. fold data in Hph. rewrite Hph.
  cbn [mbind result_bind Extension Padding]. rewrite (index_ok _ _ 0 b0) by done. cbn [mbind result_bind]. fold b0 in H1, H2, H3, H4; fold b1 in H5, H6.
  rewrite H1, H2, H3, H4, H5, H6, !of_be_be_id by (unfold in_u in *; lia || done). assert (Hrl : length rest = (length csrc + length (ext_bytes ext ++ pl ++ pad_bytes pad))%nat) by (subst rest; apply length_app).
  replace (12 + len csrc / 4 * 4) with (12 + len csrc) by (Z.div_mod_to_equations; lia).
  destruct (Z.ltb_spec (len data) (12 + len csrc)); [lia|]. cbn [negb guard_err mbind result_bind].
  set (off := 12 + len csrc + len (ext_bytes ext)). rewrite length_app in Hrl.
  assert (Ho : skip_extension data (present ext) (12 + len csrc) = Ok off).
  { apply skip_extension_exact; [done|lia|]. exists ext. split; [done|]. split; [done|]. split; [|subst off; lia].
    replace (Z.to_nat (12 + len csrc)) with (12 + length csrc)%nat by lia. rewrite Hd12. unfold rest at 1. rewrite drop_app_length. f_equal.
    replace (Z.to_nat off) with (12 + (length csrc + length (ext_bytes ext)))%nat by (subst off; lia). rewrite Hd12. unfold rest. by rewrite drop_app_add, drop_app_length. }
  rewrite Ho. cbn [mbind result_bind]. rewrite slice_ok by (subst off; lia). cbn [mbind result_bind].
  assert (Hdo : drop (Z.to_nat off) data = pl ++ pad_bytes pad).
  { replace (Z.to_nat off) with (12 + (length csrc + length (ext_bytes ext)))%nat by (subst off; lia). rewrite Hd12. unfold rest. by rewrite drop_app_add, drop_app_length. }
  rewrite take_ge by (rewrite length_drop; lia). rewrite Hdo.
  assert (Hst : strip_padding (present pad) (pl ++ pad_bytes pad) = Ok pl) by (apply strip_padding_exact; [rewrite <- Hdo; by apply Forall_drop|by exists pad]).
  rewrite Hst. done.
Qed.

(** An RTP packet is taken apart as RFC 3550 lays it out: [UnmarshalRTP]
    answers any bytes with a header and a payload exactly when they are a packet
    of that layout, and then with its header's fields and its payload, whole and
    without its contributing sources, header extension and padding. *)
Theorem rtp_packet_exact data p :
  bytes_ok data -> UnmarshalRTP data = Ok p <-> exists s, packet_ok s /\ data = wire s /\ p = packet_of s.
Proof.
  intros Hb. split; [by apply unmarshal_sound|]. intros (s & Hs & -> & ->). by apply unmarshal_complete.
Qed.

(** ** The AAC depacketizer *)

Definition aacFrameSamples : Z := 1024.

Record aacDepacketizer := mkDepack { clockRate : Z; sizeLength : Z; indexLength : Z; indexDelta : Z }.

(** [make] of elements of [size] bytes: the largest allocation is 2^48 bytes. *)
Definition makeslice (size n : Z) : result rtsp_error unit := guard_err ((0 <=? n) && (n * size <=? 2 ^ 48)) Panic.

Fixpoint readBits_loop (data : bytes) (bitOff : Z) (n : nat) (i v : Z) : result rtsp_error Z :=
  match n with
  | O => Ok v
  | S n =>
      let bitIdx := wraps 64 (bitOff + i) in
      let byteIdx := Z.shiftr bitIdx 3 in
      if len data <=? byteIdx then Ok v
      else
        b ← index data byteIdx;
        readBits_loop data bitOff n (i + 1)
          (Z.lor (wrapu 64 (Z.shiftl v 1)) (Z.land (Z.shiftr b (7 - Z.land bitIdx 7)) 1))
  end.
Definition readBits (data : bytes) (bitOff n : Z) : result rtsp_error Z := readBits_loop data bitOff (Z.to_nat n) 0 0.

(** The bit offsets of the size fields of access units [i], [i + 1], ... *)
Fixpoint size_offsets (d : aacDepacketizer) (n : nat) (i off : Z) : list Z :=
  match n with
  | O => []
  | S n =>
      off :: size_offsets d n (i + 1) (wraps 64 (wraps 64 (off + d.(sizeLength)) + (if i =? 0 then d.(indexLength) else d.(indexDelta))))
  end.

Definition aacFrameDurationMicros (rate : Z) : Z := if rate <=? 0 then 0 else aacFrameSamples * 1000000 / rate.
Definition toMicros (d : aacDepacketizer) (ts : Z) : Z :=
  if d.(clockRate) <=? 0 then 0 else wraps 64 (ts * 1000000) / d.(clockRate).

(** The access units' data and times, from number [i] at [dataOff]. *)
Fixpoint cut_units (d : aacDepacketizer) (payload : bytes) (basePTS frameDelta : Z) (offs : list Z) (i dataOff : Z) :
    result rtsp_error (list (bytes * Z)) :=
  match offs with
  | [] => Ok []
  | o :: offs =>
      v ← readBits payload o d.(sizeLength);
      let size := wraps 64 v in
      let next := wraps 64 (dataOff + size) in
      guard_err (negb (len payload <? next)) errShortRTPPayload;;
      au ← slice payload dataOff next;
      rest ← cut_units d payload basePTS frameDelta offs (i + 1) next;
      Ok ((au, wraps 64 (basePTS + wraps 64 (i * frameDelta))) :: rest)
  end.

Definition depacketize (d : aacDepacketizer) (payload : bytes) (ts : Z) : result rtsp_error (list (bytes * Z)) :=
  guard_err (negb (len payload <? 2)) errShortRTPPayload;;
  l ← slice payload 0 2;
  let auHeadersLenBits := of_be l in
  let headerWidth := wraps 64 (d.(sizeLength) + d.(indexDelta)) in
  guard_err (negb ((d.(sizeLength) <=? 0) || (headerWidth <=? 0))) errBadAUHeaderField;;
  let numAUs := Z.quot (wraps 64 (wraps 64 (auHeadersLenBits - d.(indexLength)) + d.(indexDelta))) headerWidth in
  guard_err (negb (numAUs <=? 0)) errBadAUHeaderField;;
  makeslice 8 numAUs;;
  let sizeBitOff := size_offsets d (Z.to_nat numAUs) 0 16 in
  let dataOff := 2 + (auHeadersLenBits + 7) / 8 in
  guard_err (negb (len payload <? dataOff)) errShortRTPPayload;;
  makeslice 32 numAUs;;
  cut_units d payload (toMicros d ts) (aacFrameDurationMicros d.(clockRate)) sizeBitOff 0 dataOff.

(** [parseMpeg4GenericFmtp]: the parameters under their lower-case names, the last
    of a name counting. *)
Definition parseMpeg4GenericFmtp (fmtp : string) : gmap string string :=
  foldl (fun params p => match Cut (TrimSpace p) "=" with
                         | Some (k, v) => <[ToLower (TrimSpace k) := TrimSpace v]> params
                         | None => params
                         end) ∅ (Split ";" fmtp).

Definition atoiParam (params : gmap string string) (key : string) : option Z := v ← params !! key; Atoi v.

Definition newAACDepacketizer (fmtp : string) (rate : Z) : aacDepacketizer :=
  let params := parseMpeg4GenericFmtp fmtp in
  let il := default 3 (atoiParam params "indexlength") in
  mkDepack rate (default 13 (atoiParam params "sizelength")) il (default il (atoiParam params "indexdeltalength")).

Definition parseAACConfigFromFmtp (fmtp : string) : AACConfig :=
  let usable :=
    '(_, after) ← Cut fmtp "config=";
    asc ← hex_decode (match Cut after ";" with Some (h, _) => h | None => after end);
    match parseAudioSpecificConfig asc with Ok cfg => Some cfg | Err _ => None end in
  default (mkAAC 2 44100 2) usable.

(** ** A track *)

Inductive trackKind := trackKindVideo | trackKindAudio.

Record rtspTrack := mkTrack {
  session : bool; kind : trackKind; avcCfg : option AVCConfig; aacDepack : option aacDepacketizer;
  fuBuffer : option bytes;
  auNALUs : list bytes; auTS : Z; auOpen : bool;
  ptsBase : Z; ptsBased : bool
}.

(** What a track calls on its session. *)
Inductive session_call :=
| RegisterVideo (cfg : AVCConfig) | RegisterAudio (cfg : AACConfig)
| PushVideo (pts : Z) (data : bytes) (key : bool) | PushAudioFrames (pts : list Z) (frames : list bytes).

Definition normalizePTS (pts : Z) (t : rtspTrack) : rtspTrack * Z :=
  let t := if t.(ptsBased) then t
           else mkTrack t.(session) t.(kind) t.(avcCfg) t.(aacDepack) t.(fuBuffer) t.(auNALUs) t.(auTS) t.(auOpen) pts true in
  (t, wraps 64 (pts - t.(ptsBase))).

Definition set_fu (b : option bytes) (t : rtspTrack) : rtspTrack :=
  mkTrack t.(session) t.(kind) t.(avcCfg) t.(aacDepack) b t.(auNALUs) t.(auTS) t.(auOpen) t.(ptsBase) t.(ptsBased).
Definition set_au (l : list bytes) (ts : Z) (o : bool) (t : rtspTrack) : rtspTrack :=
  mkTrack t.(session) t.(kind) t.(avcCfg) t.(aacDepack) t.(fuBuffer) l ts o t.(ptsBase) t.(ptsBased).

Fixpoint normalize_all (l : list Z) (t : rtspTrack) : rtspTrack * list Z :=
  match l with
  | [] => (t, [])
  | p :: l => let '(t, x) := normalizePTS p t in let '(t, xs) := normalize_all l t in (t, x :: xs)
  end.

Definition handleAudioRTP (p : RTPPacket) (t : rtspTrack) : result rtsp_error (rtspTrack * list session_call) :=
  match t.(session), t.(aacDepack) with
  | true, Some d =>
      match depacketize d p.(Payload) p.(Header).(Timestamp) with
      | Err Panic => Err Panic
      | Err _ => Ok (t, [])
      | Ok aus => let '(t, ptss) := normalize_all aus.*2 t in Ok (t, [PushAudioFrames ptss aus.*1])
      end
  | _, _ => Ok (t, [])
  end.

(** *** H.264: RFC 6184 *)

Definition maxFUBufferSize : Z := 16 * 2 ^ 20.

(** The loop of [parseSTAPA]; each round takes at least three bytes. *)
Fixpoint stapa_loop (fuel : nat) (payload : bytes) (off : Z) : result rtsp_error (list bytes) :=
  match fuel with
  | O => Ok []
  | S fuel =>
      if len payload <? off + 2 then Ok []
      else
        n ← uint16_at payload off;
        let off := off + 2 in
        if (len payload <? off + n) || (n =? 0) then Ok []
        else nalu ← slice payload off (off + n); rest ← stapa_loop fuel payload (off + n); Ok (nalu :: rest)
  end.
Definition parseSTAPA (payload : bytes) : result rtsp_error (list bytes) := stapa_loop (length payload) payload 1.

Definition reassembleFU (payload : bytes) (t : rtspTrack) : result rtsp_error (rtspTrack * option bytes) :=
  if len payload <? 2 then Ok (t, None)
  else
    fuHeader ← index payload 1;
    b0 ← index payload 0;
    rest ← slice payload 2 (len payload);
    let start := Z.land (Z.shiftr fuHeader 7) 1 in
    let last := Z.land (Z.shiftr fuHeader 6) 1 in
    let nalType := Z.land fuHeader 31 in
    let buf := if start =? 1 then Some [Z.lor (Z.land b0 224) nalType] else t.(fuBuffer) in
    match buf with
    | None => Ok (t, None)
    | Some buf =>
        let buf := buf ++ rest in
        Ok (if maxFUBufferSize <? len buf then (set_fu None t, None)
            else if last =? 1 then (set_fu None t, Some buf)
            else (set_fu (Some buf) t, None))
    end.

Definition extractNALUs (payload : bytes) (t : rtspTrack) : result rtsp_error (rtspTrack * list bytes) :=
  b0 ← index payload 0;
  let typ := Z.land b0 31 in
  if (1 <=? typ) && (typ <=? 23) then Ok (t, [payload])
  else if typ =? 24 then l ← parseSTAPA payload; Ok (t, l)
  else if typ =? 28 then '(t, nalu) ← reassembleFU payload t; Ok (t, match nalu with Some n => [n] | None => [] end)
  else Ok (t, []).

Definition appendAVCC (data nalu : bytes) : bytes := data ++ be 4 (wrapu 32 (len nalu)) ++ nalu.

(** The sample of an access unit, and whether it holds an IDR slice. *)
Fixpoint build_sample (data : bytes) (isKey : bool) (nalus : list bytes) : result rtsp_error (bytes * bool) :=
  match nalus with
  | [] => Ok (data, isKey)
  | nalu :: nalus =>
      let data := appendAVCC data nalu in
      b0 ← index nalu 0;
      build_sample data (if Z.land b0 31 =? 5 then true else isKey) nalus
  end.

Definition flushAccessUnit (t : rtspTrack) : result rtsp_error (rtspTrack * list session_call) :=
  if negb t.(auOpen) || (length t.(auNALUs) =? 0)%nat then Ok (set_au [] t.(auTS) false t, [])
  else
    '(data, isKey) ← build_sample [] false t.(auNALUs);
    let '(t, pts) := normalizePTS (wraps 64 (t.(auTS) * 1000) / 90) t in
    Ok (set_au [] t.(auTS) false t, if t.(session) then [PushVideo pts data isKey] else []).

Definition handleVideoRTP (p : RTPPacket) (t : rtspTrack) : result rtsp_error (rtspTrack * list session_call) :=
  if (length p.(Payload) =? 0)%nat then Ok (t, [])
  else
    let ts := p.(Header).(Timestamp) in
    '(t, c1) ← (if t.(auOpen) && negb (ts =? t.(auTS)) then flushAccessUnit t else Ok (t, []));
    let t := set_au t.(auNALUs) ts true t in
    '(t, nalus) ← extractNALUs p.(Payload) t;
    let t := set_au (t.(auNALUs) ++ nalus) ts true t in
    '(t, c2) ← (if p.(Header).(Marker) then flushAccessUnit t else Ok (t, []));
    Ok (t, c1 ++ c2).

(** A frame of the track's channel. Only a panic is not recovered from. *)
Definition handleFrame (frame : bytes) (t : rtspTrack) : result rtsp_error (rtspTrack * list session_call) :=
  match UnmarshalRTP frame with
  | Err Panic => Err Panic
  | Err _ => Ok (t, [])
  | Ok packet => match t.(kind) with trackKindVideo => handleVideoRTP packet t | trackKindAudio => handleAudioRTP packet t end
  end.

Fixpoint handleFrames (frames : list bytes) (t : rtspTrack) : result rtsp_error (rtspTrack * list session_call) :=
  match frames with
  | [] => Ok (t, [])
  | f :: frames => '(t, c) ← handleFrame f t; '(t, cs) ← handleFrames frames t; Ok (t, c ++ cs)
  end.

(** *** A track from its description *)

Definition newTrack : rtspTrack := mkTrack true trackKindVideo None None None [] 0 false 0 false.

(** The parameter sets of [sprop-parameter-sets]. *)
Definition add_set (acc : list bytes * list bytes) (s : string) : list bytes * list bytes :=
  match std_decode s with
  | Some ((b0 :: _) as b) =>
      if Z.land b0 31 =? 7 then (acc.1 ++ [b], acc.2) else if Z.land b0 31 =? 8 then (acc.1, acc.2 ++ [b]) else acc
  | _ => acc
  end.
Definition extractParameterSets (fmtp : string) : list bytes * list bytes :=
  match Cut fmtp "sprop-parameter-sets=" with
  | None => ([], [])
  | Some (_, after) => foldl add_set ([], []) (Split "," (default "" (head (Split ";" after))))
  end.

Definition newRTSPTrackFromMedia (media : option SDPMedia) : result rtsp_error (rtspTrack * list session_call) :=
  match media with
  | None => Ok (newTrack, [])
  | Some m =>
      let rtpMap := ToLower m.(RtpMap) in
      if bool_decide (m.(MediaType) = "video") && Contains rtpMap "h264" then
        if bool_decide (m.(Fmtp) = "") then Ok (newTrack, [])
        else match extractParameterSets m.(Fmtp) with
        | ((sps :: _) as spss, ppss) =>
            if 4 <=? len sps then
              p ← index sps 1; c ← index sps 2; l ← index sps 3;
              let '(w, h) := parseSPSDimensions sps in
              let cfg := mkAVC p c l 4 spss ppss w h in
              Ok (mkTrack true trackKindVideo (Some cfg) None None [] 0 false 0 false, [RegisterVideo cfg])
            else Ok (newTrack, [])
        | _ => Ok (newTrack, [])
        end
      else if bool_decide (m.(MediaType) = "audio") && Contains rtpMap "mpeg4-generic" then
        let cfg := parseAACConfigFromFmtp m.(Fmtp) in
        let d := newAACDepacketizer m.(Fmtp) cfg.(SampleRate) in
        Ok (mkTrack true trackKindAudio None (Some d) None [] 0 false 0 false, [RegisterAudio cfg])
      else Ok (newTrack, [])
  end.

(** ** Delivering a stream: RFC 6184 *)

(** How NAL units are carried: alone, aggregated, or in fragments. A NAL unit's
    first byte is [nri * 32 + type]. *)
Inductive h264_unit :=
| USingle (nri ty : Z) (body : bytes)
| UStap (nri : Z) (nalus : list bytes)
| UFu (nri ty : Z) (fragments : list bytes).

Fixpoint fu_payloads (nri ty : Z) (first : bool) (fragments : list bytes) : list bytes :=
  match fragments with
  | [] => []
  | f :: fs => ((nri * 32 + 28) :: (flag first * 128 + flag (bool_decide (fs = [])) * 64 + ty) :: f) :: fu_payloads nri ty false fs
  end.

Definition unit_payloads (u : h264_unit) : list bytes :=
  match u with
  | USingle nri ty body => [(nri * 32 + ty) :: body]
  | UStap nri nalus => [(nri * 32 + 24) :: encode_nalus nalus]
  | UFu nri ty fs => fu_payloads nri ty true fs
  end.

Definition unit_nalus (u : h264_unit) : list bytes :=
  match u with
  | USingle nri ty body => [(nri * 32 + ty) :: body]
  | UStap _ nalus => nalus
  | UFu nri ty fs => [(nri * 32 + ty) :: concat fs]
  end.

Definition unit_ok (u : h264_unit) : Prop :=
  match u with
  | USingle nri ty body => 0 <= nri < 8 /\ 1 <= ty <= 23 /\ len body < 2 ^ 31
  | UStap nri nalus => 0 <= nri < 8 /\ nalus <> [] /\ Forall (fun n => 0 < len n < 65536) nalus
  | UFu nri ty fs => 0 <= nri < 8 /\ 0 <= ty < 32 /\ fs <> [] /\ 1 + len (concat fs) <= maxFUBufferSize
  end.

(** An access unit: its time, its units, and whether its last packet is marked. *)
Record access_unit := mkAU { au_ts : Z; au_units : list h264_unit; au_marked : bool }.

Definition au_payloads (a : access_unit) : list bytes := concat (unit_payloads <$> a.(au_units)).
Definition au_nalus (a : access_unit) : list bytes := concat (unit_nalus <$> a.(au_units)).
Definition au_ok (a : access_unit) : Prop := in_u 32 a.(au_ts) /\ a.(au_units) <> [] /\ Forall unit_ok a.(au_units).

(** The payload, time and marker of its packets. *)
Fixpoint marked_last (ts : Z) (m : bool) (pls : list bytes) : list (bytes * Z * bool) :=
  match pls with
  | [] => []
  | [pl] => [(pl, ts, m)]
  | pl :: pls => (pl, ts, false) :: marked_last ts m pls
  end.
Definition au_packets (a : access_unit) : list (bytes * Z * bool) := marked_last a.(au_ts) a.(au_marked) (au_payloads a).

(** Access units are told apart by a marker or a change of time; the last is marked. *)
Fixpoint closed (aus : list access_unit) : Prop :=
  match aus with
  | [] => True
  | a :: rest => (a.(au_marked) = true \/ match rest with b :: _ => a.(au_ts) <> b.(au_ts) | [] => False end) /\ closed rest
  end.

Definition micros (ts : Z) : Z := ts * 1000 / 90.
Definition is_idr (nalu : bytes) : bool := match nalu with b :: _ => Z.land b 31 =? 5 | [] => false end.
Definition avcc (nalus : list bytes) : bytes := concat ((fun n => be 4 (len n) ++ n) <$> nalus).
Definition sample (base : Z) (a : access_unit) : session_call :=
  PushVideo (micros a.(au_ts) - base) (avcc (au_nalus a)) (existsb is_idr (au_nalus a)).

(** A video track: what it holds of a fragmented unit, the NAL units, time and
    openness of the access unit, and its base. *)
Definition vt (cfg : option AVCConfig) (b : option bytes) (l : list bytes) (ts : Z) (o : bool) (base : option Z) : rtspTrack :=
  mkTrack true trackKindVideo cfg None b l ts o (default 0 base) (present base).

(** *** What a payload adds *)

(** [pl] turns the fragment buffer [b] into [b'] and completes [ns]. *)
Definition extracts (pl : bytes) (b b' : option bytes) (ns : list bytes) : Prop :=
  pl <> [] /\ forall t, t.(fuBuffer) = b -> extractNALUs pl t = Ok (set_fu b' t, ns).

Inductive extracts_all : list bytes -> option bytes -> option bytes -> list bytes -> Prop :=
| ea_nil b : extracts_all [] b b []
| ea_cons pl pls b b1 b2 ns ns' : extracts pl b b1 ns -> extracts_all pls b1 b2 ns' -> extracts_all (pl :: pls) b b2 (ns ++ ns').

Lemma extracts_all_app p1 p2 b b1 b2 n1 n2 :
  extracts_all p1 b b1 n1 -> extracts_all p2 b1 b2 n2 -> extracts_all (p1 ++ p2) b b2 (n1 ++ n2).
Proof. induction 1; intros H2; cbn; [done|]. rewrite <- app_assoc. econstructor; eauto. Qed.

Lemma extracts_one pl b b' ns : extracts pl b b' ns -> extracts_all [pl] b b' ns.
Proof. intros H. rewrite <- (app_nil_r ns). econstructor; [done|constructor]. Qed.

Lemma set_fu_same t : set_fu t.(fuBuffer) t = t.
Proof. by destruct t. Qed.

(** The type in a NAL unit's first byte. *)
Lemma nal_type nri ty : 0 <= ty < 32 -> Z.land (nri * 32 + ty) 31 = ty.
Proof. intros Ht. change 31 with (Z.ones 5). rewrite Z.land_ones by lia. change (2 ^ 5) with 32. rewrite Z.add_comm, Z.mod_add, Z.mod_small by lia. done. Qed.

Lemma nal_head nri ty x : 0 <= nri < 8 -> 0 <= ty < 32 -> 0 <= x < 32 -> Z.lor (Z.land (nri * 32 + x) 224) ty = nri * 32 + ty.
Proof.
  intros Hn Ht Hx. assert (Hl : Z.land (nri * 32 + x) 224 = Z.shiftl nri 5).
  { change 224 with (Z.shiftl 7 5). replace (nri * 32 + x) with (Z.lor (Z.shiftl nri 5) x) by (rewrite lor_shiftl by lia; reflexivity).
    rewrite Z.land_lor_distr_l, <- Z.shiftl_land. change 7 with (Z.ones 3) at 1. rewrite Z.land_ones, Z.mod_small by (cbn; lia).
    replace (Z.land x (Z.shiftl 7 5)) with 0; [by rewrite Z.lor_0_r|]. symmetry. apply Z.bits_inj_iff'. intros i Hi. rewrite Z.land_spec, Z.bits_0.
    destruct (Z.ltb_spec i 5); [by rewrite Z.shiftl_spec_low, andb_false_r|]. by rewrite (testbit_high x 5) by (cbn; lia). }
  rewrite Hl, lor_shiftl by (cbn; lia). done.
Qed.

(** The fields of a fragment's header byte. *)
Lemma fu_fields s e ty :
  0 <= ty < 32 -> let h := flag s * 128 + flag e * 64 + ty in
  Z.land (Z.shiftr h 7) 1 = flag s /\ Z.land (Z.shiftr h 6) 1 = flag e /\ Z.land h 31 = ty.
Proof.
  intros Ht. cbv zeta. change 1 with (Z.ones 1). change 31 with (Z.ones 5). rewrite !Z.land_ones, !Z.shiftr_div_pow2 by lia.
  change (2 ^ 7) with 128. change (2 ^ 6) with 64. change (2 ^ 1) with 2. change (2 ^ 5) with 32.
  destruct s, e; cbn [flag]; Z.div_mod_to_equations; lia.
Qed.

Lemma extracts_single nri ty body b : 1 <= ty <= 23 -> extracts ((nri * 32 + ty) :: body) b b [(nri * 32 + ty) :: body].
Proof.
  intros Ht. split; [done|]. intros t Hb. unfold extractNALUs. rewrite (index_ok _ _ 0 (nri * 32 + ty)) by done. cbn [mbind result_bind].
  rewrite nal_type by lia. destruct (Z.leb_spec 1 ty), (Z.leb_spec ty 23); try lia. cbn [andb]. by rewrite <- Hb, set_fu_same.
Qed.

Lemma encode_nalus_cons n ns : encode_nalus (n :: ns) = be 2 (len n) ++ n ++ encode_nalus ns.
Proof. unfold encode_nalus. cbn [fmap list_fmap concat]. by rewrite <- app_assoc. Qed.

Lemma stapa_loop_spec ns payload off fuel :
  Forall (fun n => 0 < len n < 65536) ns -> 0 <= off -> drop (Z.to_nat off) payload = encode_nalus ns -> off <= len payload ->
  (length ns < fuel)%nat -> stapa_loop fuel payload off = Ok ns.
Proof.
  revert off fuel. induction ns as [|n ns IH]; intros off fuel Hns Ho Hd Hl Hf; destruct fuel as [|fuel]; try lia; cbn [stapa_loop].
  - apply (f_equal length) in Hd. rewrite length_drop in Hd. cbn in Hd. destruct (Z.ltb_spec (len payload) (off + 2)); [done|lia].
  - apply Forall_cons in Hns as [Hn Hns]. rewrite encode_nalus_cons in Hd.
    pose proof (uint16_ok Panic payload off _ Ho Hd) as Hu. pose proof (f_equal length Hd) as Hdl. rewrite length_drop, !length_app, length_be in Hdl.
    rewrite !length_app, length_be in Hu. destruct (Z.ltb_spec (Z.of_nat (2 + (length n + length (encode_nalus ns)))) 2) in Hu; [lia|]. destruct Hu as (-> & _ & Hd2).
    destruct (Z.ltb_spec (len payload) (off + 2)); [lia|]. cbn [mbind result_bind].
    rewrite (take_app_le (be 2 _)), (take_ge (be 2 _)), of_be_be_id by (rewrite ?length_be; change (256 ^ Z.of_nat 2) with 65536; lia).
    destruct (Z.ltb_spec (len payload) (off + 2 + len n)); [lia|]. destruct (Z.eqb_spec (len n) 0); [lia|]. cbn [orb].
    rewrite slice_ok by lia. cbn [mbind result_bind]. rewrite Hd2. replace (Z.to_nat (off + 2 + len n - (off + 2))) with (length n) by lia.
    rewrite (drop_app_le (be 2 _)), (drop_ge (be 2 _)) by (rewrite length_be; lia). cbn [app]. rewrite take_app_length.
    rewrite (IH (off + 2 + len n)); [done|done|lia| |lia|cbn [length] in Hf; lia].
    replace (Z.to_nat (off + 2 + len n)) with (Z.to_nat (off + 2) + length n)%nat by lia. rewrite <- drop_drop, Hd2.
    rewrite (drop_app_le (be 2 _)), (drop_ge (be 2 _)) by (rewrite length_be; lia). cbn [app]. apply drop_app_length.
Qed.

Lemma extracts_stap nri ns b : Forall (fun n => 0 < len n < 65536) ns -> extracts ((nri * 32 + 24) :: encode_nalus ns) b b ns.
Proof.
  intros Hns. split; [done|]. intros t Hb. unfold extractNALUs. rewrite (index_ok _ _ 0 (nri * 32 + 24)) by done. cbn [mbind result_bind].
  rewrite nal_type by lia. cbn [Z.leb Z.compare Pos.compare Pos.compare_cont andb Z.eqb Pos.eqb]. unfold parseSTAPA.
  assert (Hlen : (length ns <= length (encode_nalus ns))%nat).
  { clear Hb. induction ns as [|n ns IH]; [done|]. rewrite encode_nalus_cons, !length_app, length_be. apply Forall_cons in Hns as [_ Hns]. specialize (IH Hns). cbn. lia. }
  rewrite (stapa_loop_spec ns) by (cbn; done || lia). cbn [mbind result_bind]. by rewrite <- Hb, set_fu_same.
Qed.

(** A fragment, the first or a later one. *)
Lemma extracts_fragment nri ty (first last : bool) f b buf :
  0 <= nri < 8 -> 0 <= ty < 32 -> (if first then buf = [nri * 32 + ty] else b = Some buf) -> len (buf ++ f) <= maxFUBufferSize ->
  extracts ((nri * 32 + 28) :: (flag first * 128 + flag last * 64 + ty) :: f) b
    (if last then None else Some (buf ++ f)) (if last then [buf ++ f] else []).
Proof.
  intros Hn Ht Hbuf Hmax. split; [done|]. intros t Hb. unfold extractNALUs. rewrite (index_ok _ _ 0 (nri * 32 + 28)) by done. cbn [mbind result_bind].
  rewrite nal_type by lia. cbn [Z.leb Z.compare Pos.compare Pos.compare_cont andb Z.eqb Pos.eqb]. unfold reassembleFU.
  destruct (Z.ltb_spec (len ((nri * 32 + 28) :: (flag first * 128 + flag last * 64 + ty) :: f)) 2); [cbn [length] in *; lia|].
  rewrite (index_ok _ _ 1 (flag first * 128 + flag last * 64 + ty)), (index_ok _ _ 0 (nri * 32 + 28)) by done. cbn [mbind result_bind].
  rewrite slice_ok by (cbn [length]; lia). cbn [mbind result_bind]. change (drop (Z.to_nat 2) (_ :: _ :: f)) with f.
  rewrite take_ge by (cbn [length]; lia). destruct (fu_fields first last ty Ht) as (-> & -> & ->). rewrite nal_head by lia.
  assert (Hc : (if flag first =? 1 then Some [nri * 32 + ty] else fuBuffer t) = Some buf) by (destruct first; cbn; congruence).
  rewrite Hc. destruct (Z.ltb_spec maxFUBufferSize (len (buf ++ f))); [lia|]. by destruct last.
Qed.

Lemma extracts_fragments nri ty fs (first : bool) b buf :
  0 <= nri < 8 -> 0 <= ty < 32 -> fs <> [] -> (if first then buf = [nri * 32 + ty] else b = Some buf) ->
  len (buf ++ concat fs) <= maxFUBufferSize -> extracts_all (fu_payloads nri ty first fs) b None [buf ++ concat fs].
Proof.
  intros Hn Ht. revert first b buf. induction fs as [|f fs IH]; intros first b buf Hne Hbuf Hmax; [done|]. cbn [fu_payloads concat] in *.
  pose proof (extracts_fragment nri ty first (bool_decide (fs = [])) f b buf Hn Ht Hbuf) as Hx. rewrite !length_app in *.
  destruct fs as [|f' fs].
  - cbn [concat] in *. rewrite app_nil_r. apply extracts_one. apply Hx. lia.
  - rewrite (bool_decide_eq_false_2 (f' :: fs = [])) in * by done. rewrite app_assoc.
    eapply (ea_cons _ _ _ _ _ []); [apply Hx; lia|]. apply (IH false); [done|done|]. rewrite length_app in *. cbn [concat] in *. rewrite !length_app in *. lia.
Qed.

Lemma extracts_unit u : unit_ok u -> extracts_all (unit_payloads u) None None (unit_nalus u).
Proof.
  destruct u as [nri ty body|nri ns|nri ty fs]; cbn [unit_ok unit_payloads unit_nalus].
  - intros (_ & Ht & _). by apply extracts_one, extracts_single.
  - intros (_ & _ & Hns). by apply extracts_one, extracts_stap.
  - intros (Hn & Ht & Hne & Hmax). apply (extracts_fragments nri ty fs true None [nri * 32 + ty]); [done|done|done|done|]. cbn [app length]. lia.
Qed.

Lemma extracts_units us : Forall unit_ok us -> extracts_all (concat (unit_payloads <$> us)) None None (concat (unit_nalus <$> us)).
Proof. induction 1; cbn; [constructor|]. eapply extracts_all_app; [by apply extracts_unit|done]. Qed.

(** *** A packet on a track *)

Lemma set_fu_vt cfg b b' l ts o base : set_fu b' (vt cfg b l ts o base) = vt cfg b' l ts o base.
Proof. done. Qed.
Lemma set_au_vt cfg b l l' ts ts' o o' base : set_au l' ts' o' (vt cfg b l ts o base) = vt cfg b l' ts' o' base.
Proof. done. Qed.

Definition nal_ok (n : bytes) : Prop := 0 < len n < 2 ^ 32.

Lemma build_sample_spec l data k : Forall nal_ok l -> build_sample data k l = Ok (data ++ avcc l, k || existsb is_idr l).
Proof.
  intros Hl. revert data k. induction Hl as [|n l Hn _ IH]; intros data k; cbn [build_sample].
  { unfold avcc. cbn. by rewrite app_nil_r, orb_false_r. }
  unfold nal_ok in Hn. destruct n as [|b n]; [cbn in Hn; lia|]. rewrite (index_ok _ _ 0 b) by done. cbn [mbind result_bind].
  rewrite IH. unfold appendAVCC, avcc. rewrite wrapu_id by (unfold in_u; lia). cbn [fmap list_fmap concat existsb is_idr]. rewrite <- !app_assoc.
  do 2 f_equal. destruct (Z.land b 31 =? 5), k; done.
Qed.

Lemma micros_range ts : in_u 32 ts -> 0 <= micros ts < 2 ^ 36.
Proof. unfold in_u, micros. intros ?. change (2 ^ 32) with 4294967296 in *. change (2 ^ 36) with 68719476736. Z.div_mod_to_equations. lia. Qed.

Definition base_ok (base : option Z) : Prop := forall x, base = Some x -> 0 <= x < 2 ^ 36.

(** The access unit is delivered. *)
Lemma flush_vt cfg b l ts base :
  l <> [] -> Forall nal_ok l -> in_u 32 ts -> base_ok base ->
  let base' := default (micros ts) base in
  flushAccessUnit (vt cfg b l ts true base) = Ok (vt cfg b [] ts false (Some base'), [PushVideo (micros ts - base') (avcc l) (existsb is_idr l)]).
Proof.
  intros Hne Hl Hts Hb base'. unfold flushAccessUnit. cbn [vt auOpen auNALUs negb orb]. destruct l as [|n l]; [done|]. cbn [length Nat.eqb].
  rewrite build_sample_spec by done. unfold vt. cbn [mbind result_bind app auTS].
  assert (Hw : wraps 64 (ts * 1000) / 90 = micros ts).
  { unfold micros. rewrite wraps_id; [done|done|]. unfold in_u, in_s in *. change (2 ^ 32) with 4294967296 in *. change (2 ^ (64 - 1)) with 9223372036854775808. lia. }
  rewrite Hw. pose proof (micros_range ts Hts) as Hm. change (2 ^ 36) with 68719476736 in *.
  destruct base as [x|]; cbn [vt normalizePTS ptsBased present default from_option id session] in *; subst base'; unfold normalizePTS; cbn [ptsBased ptsBase present default from_option id vt session].
  - pose proof (Hb x eq_refl). change (2 ^ 36) with 68719476736 in *. rewrite wraps_id by (try done; unfold in_s; change (2 ^ (64 - 1)) with 9223372036854775808; lia). done.
  - rewrite wraps_id by (try done; unfold in_s; change (2 ^ (64 - 1)) with 9223372036854775808; lia). done.
Qed.

Lemma bind_pair_nil {A B} (m : result rtsp_error (A * list B)) : ('(t, c) ← m; Ok (t, [] ++ c)) = m.
Proof. destruct m as [[? ?]|]; done. Qed.

(** A packet of the open access unit, or the first of one. *)
Lemma video_packet p cfg b b' l ts0 o base ns :
  extracts p.(Payload) b b' ns -> o = false \/ p.(Header).(Timestamp) = ts0 ->
  handleVideoRTP p (vt cfg b l ts0 o base) =
  if p.(Header).(Marker) then flushAccessUnit (vt cfg b' (l ++ ns) p.(Header).(Timestamp) true base)
  else Ok (vt cfg b' (l ++ ns) p.(Header).(Timestamp) true base, []).
Proof.
  intros [Hne Hx] Ho. unfold handleVideoRTP. destruct (length (Payload p)) eqn:Hlp; [by destruct (Payload p)|]. cbn [Nat.eqb].
  assert (Hc : auOpen (vt cfg b l ts0 o base) && negb (Timestamp (Header p) =? auTS (vt cfg b l ts0 o base)) = false).
  { cbn. destruct Ho as [->| ->]; [done|]. by rewrite Z.eqb_refl, andb_false_r. }
  rewrite Hc. cbn [mbind result_bind]. rewrite !set_au_vt. rewrite Hx by done. cbn [mbind result_bind]. rewrite set_fu_vt, set_au_vt. cbn [vt auNALUs].
  destruct (Marker (Header p)); [apply bind_pair_nil|done].
Qed.

(** The first packet of another time delivers the open access unit first. *)
Lemma video_packet_new p cfg b l ts0 base base' c :
  p.(Payload) <> [] -> p.(Header).(Timestamp) <> ts0 ->
  flushAccessUnit (vt cfg b l ts0 true base) = Ok (vt cfg b [] ts0 false base', c) ->
  handleVideoRTP p (vt cfg b l ts0 true base) = ('(t, c') ← handleVideoRTP p (vt cfg b [] ts0 false base'); Ok (t, c ++ c')).
Proof.
  intros Hne Hts Hf. unfold handleVideoRTP. destruct (length (Payload p)) eqn:Hlp; [by destruct (Payload p)|]. cbn [Nat.eqb].
  apply Z.eqb_neq in Hts. cbn [vt auOpen auTS] in *. rewrite Hts. cbn [andb negb]. fold (vt cfg b l ts0 true base) in *. rewrite Hf. cbn [mbind result_bind].
  change (mkTrack true trackKindVideo cfg None b [] ts0 false (default 0 base') (present base')) with (vt cfg b [] ts0 false base').
  destruct (extractNALUs _ _) as [[t ns]|]; [|done]. cbn [mbind result_bind].
  destruct (Marker (Header p)); [|done].
  set (m := flushAccessUnit (set_au (auNALUs t ++ ns) _ true t)). by destruct m as [[? ?]|].
Qed.

Fixpoint video_run (ps : list RTPPacket) (t : rtspTrack) : result rtsp_error (rtspTrack * list session_call) :=
  match ps with
  | [] => Ok (t, [])
  | p :: ps => '(t, c) ← handleVideoRTP p t; '(t, cs) ← video_run ps t; Ok (t, c ++ cs)
  end.

Lemma video_run_app ps qs t :
  video_run (ps ++ qs) t = ('(t, c) ← video_run ps t; '(t, cs) ← video_run qs t; Ok (t, c ++ cs)).
Proof.
  revert t. induction ps as [|p ps IH]; intros t; cbn [app video_run].
  { cbn [mbind result_bind]. by rewrite bind_pair_nil. }
  destruct (handleVideoRTP p t) as [[t1 c1]|]; [|done]. cbn [mbind result_bind]. rewrite IH. destruct (video_run ps t1) as [[t2 c2]|]; [|done].
  cbn [mbind result_bind]. destruct (video_run qs t2) as [[t3 c3]|]; [|done]. cbn [mbind result_bind]. by rewrite app_assoc.
Qed.

Definition key_of (p : RTPPacket) : bytes * Z * bool := (p.(Payload), p.(Header).(Timestamp), p.(Header).(Marker)).

(** An access unit's packets, from an idle track or within the same time. *)
Lemma au_run pls b b' ns ts m ps cfg l ts0 o base :
  extracts_all pls b b' ns -> pls <> [] -> key_of <$> ps = marked_last ts m pls -> o = false \/ ts = ts0 ->
  video_run ps (vt cfg b l ts0 o base) =
  if m then flushAccessUnit (vt cfg b' (l ++ ns) ts true base) else Ok (vt cfg b' (l ++ ns) ts true base, []).
Proof.
  intros Hx. revert ps l ts0 o. induction Hx as [b|pl pls b b1 b2 ns ns' Hpl Hx IH]; intros ps l ts0 o Hne Hk Ho; [done|]. cbn [marked_last] in Hk.
  destruct ps as [|p ps]; [by destruct pls|]. cbn [fmap list_fmap] in Hk. cbn [video_run].
  assert (Hp : p.(Payload) = pl /\ p.(Header).(Timestamp) = ts) by (unfold key_of in Hk; by destruct pls; injection Hk). destruct Hp as [Hp Ht].
  rewrite (video_packet p cfg b b1 l ts0 o base ns) by (rewrite ?Hp, ?Ht; done). rewrite Ht. unfold key_of in Hk.
  destruct pls as [|pl' pls].
  - injection Hk as _ _ -> Hnil. destruct ps; [|done]. inversion Hx; subst. rewrite app_nil_r. destruct m; [|done].
    destruct (flushAccessUnit _) as [[? ?]|]; [|done]. cbn [video_run mbind result_bind]. by rewrite app_nil_r.
  - injection Hk as _ _ -> Hk. cbn [mbind result_bind]. rewrite (IH ps (l ++ ns) ts true); [|done|done|by right]. rewrite bind_pair_nil. by rewrite app_assoc.
Qed.

(** *** The stream *)

Lemma unit_facts u : unit_ok u -> unit_payloads u <> [] /\ unit_nalus u <> [] /\ Forall nal_ok (unit_nalus u).
Proof.
  destruct u as [nri ty body|nri ns|nri ty fs]; cbn [unit_ok unit_payloads unit_nalus]; unfold nal_ok.
  - intros (_ & _ & Hl). split; [done|]. split; [done|]. constructor; [|done]. cbn [length]. lia.
  - intros (_ & Hne & Hns). split; [done|]. split; [done|]. eapply Forall_impl; [done|]. cbn. lia.
  - intros (_ & _ & Hne & Hmax). unfold maxFUBufferSize in Hmax. split; [by destruct fs|]. split; [done|]. constructor; [|done]. cbn [length]. lia.
Qed.

Lemma au_facts a :
  au_ok a -> au_payloads a <> [] /\ au_nalus a <> [] /\ Forall nal_ok (au_nalus a) /\ extracts_all (au_payloads a) None None (au_nalus a).
Proof.
  intros (_ & Hne & Hus). unfold au_payloads, au_nalus. split; [|split; [|split]].
  - destruct (au_units a) as [|u us]; [done|]. apply Forall_cons in Hus as [Hu _]. apply unit_facts in Hu as (Hu & _). cbn. by destruct (unit_payloads u).
  - destruct (au_units a) as [|u us]; [done|]. apply Forall_cons in Hus as [Hu _]. apply unit_facts in Hu as (_ & Hu & _). cbn. by destruct (unit_nalus u).
  - apply Forall_concat, Forall_fmap. eapply Forall_impl; [done|]. intros u Hu. by apply unit_facts.
  - by apply extracts_units.
Qed.

Lemma marked_last_payload ts m pls x : x ∈ marked_last ts m pls -> x.1.1 ∈ pls /\ x.1.2 = ts.
Proof.
  induction pls as [|pl pls IH]; cbn [marked_last]; [set_solver|]. destruct pls as [|pl' pls]; [set_solver|].
  intros [->|Hx]%elem_of_cons; [set_solver|]. apply IH in Hx. set_solver.
Qed.

Lemma extracts_all_nonempty pls b b' ns : extracts_all pls b b' ns -> Forall (fun pl => pl <> []) pls.
Proof. induction 1 as [|? ? ? ? ? ? ? [? _]]; by constructor. Qed.

(** The packets of a closed stream, from an idle track, or from one whose open
    access unit has another time and is delivered first. *)
Lemma stream_run cfg aus ps ts0 base b :
  Forall au_ok aus -> closed aus -> key_of <$> ps = concat (au_packets <$> aus) -> base_ok base ->
  (forall a rest, aus = a :: rest -> b = default (micros a.(au_ts)) base) -> 
  exists ts', video_run ps (vt cfg None [] ts0 false base) =
    Ok (vt cfg None [] ts' false (match aus with [] => base | _ => Some b end), sample b <$> aus).
Proof.
  intros Hok. revert ps ts0 base. induction Hok as [|a aus Ha Hok IH]; intros ps ts0 base Hc Hk Hb Hbase.
  { destruct ps; [|done]. by exists ts0. }
  destruct Hc as [Hm Hc]. cbn [fmap list_fmap concat] in Hk. specialize (Hbase a aus eq_refl).
  apply fmap_app_inv in Hk as (p1 & p2 & Hk1 & Hk2 & ->). symmetry in Hk1, Hk2. destruct (au_facts a Ha) as (Hpne & Hnne & Hnok & Hx).
  rewrite video_run_app, (au_run _ _ _ _ a.(au_ts) a.(au_marked) p1 cfg [] ts0 false base Hx) by (done || by left). cbn [app].
  pose proof (flush_vt cfg None (au_nalus a) a.(au_ts) base Hnne Hnok (proj1 Ha) Hb) as Hf. cbv zeta in Hf. rewrite <- Hbase in Hf.
  assert (Hb' : base_ok (Some b)).
  { intros x [= <-]. subst b. destruct base as [x|]; [by apply Hb|]. apply micros_range, Ha. }
  assert (Hnext : forall a' rest, aus = a' :: rest -> b = default (micros a'.(au_ts)) (Some b)) by done.
  destruct (au_marked a).
  - rewrite Hf. cbn [mbind result_bind]. destruct (IH p2 a.(au_ts) (Some b) Hc Hk2 Hb' Hnext) as [ts' ->]. exists ts'.
    cbn [mbind result_bind]. by destruct aus.
  - destruct Hm as [Hm|Hm]; [done|]. destruct aus as [|a' aus]; [done|]. cbn [mbind result_bind].
    pose proof Hok as Hok'. apply Forall_cons in Hok' as [Ha' _]. destruct (au_facts a' Ha') as (Hpne' & _ & _ & Hx').
    destruct (IH p2 a.(au_ts) (Some b) Hc Hk2 Hb' Hnext) as [ts' Hrun]. destruct p2 as [|p p2].
    { exfalso. cbn in Hk2. unfold au_packets in Hk2. by destruct (au_payloads a') as [|? []]. }
    assert (Hin : key_of p ∈ marked_last a'.(au_ts) a'.(au_marked) (au_payloads a')).
    { cbn [fmap list_fmap concat] in Hk2. unfold au_packets in Hk2 at 1. destruct (marked_last _ _ (au_payloads a')) eqn:He; [by destruct (au_payloads a') as [|? []]|].
      injection Hk2 as -> _. set_solver. }
    apply marked_last_payload in Hin as [Hpl Hts]. cbn [key_of fst snd] in Hpl, Hts.
    pose proof (extracts_all_nonempty _ _ _ _ Hx') as Hnn. rewrite Forall_forall in Hnn.
    cbn [video_run] in Hrun |- *. rewrite (video_packet_new p cfg None (au_nalus a) a.(au_ts) base (Some b) _ (Hnn _ Hpl) ltac:(congruence) Hf).
    destruct (handleVideoRTP p _) as [[t1 c1]|]; [|done]. cbn [mbind result_bind] in *. destruct (video_run p2 t1) as [[t2 c2]|]; [|done].
    cbn [mbind result_bind] in *. injection Hrun as -> Hcs. exists ts'. cbn [app]. by rewrite Hcs.
Qed.

(** Frames are packets; the track stays a video track. *)
Lemma flush_kind t t' c : flushAccessUnit t = Ok (t', c) -> t'.(kind) = t.(kind).
Proof.
  unfold flushAccessUnit. destruct (_ || _); [by intros [= <- _]|]. intros H. apply bind_Ok in H as ([d k] & _ & H). cbn in H.
  by destruct (ptsBased t); injection H as <- _.
Qed.

Lemma reassembleFU_kind pl t t' o : reassembleFU pl t = Ok (t', o) -> exists b, t' = set_fu b t.
Proof.
  assert (Hs : exists b, t = set_fu b t) by (exists (fuBuffer t); by rewrite set_fu_same).
  unfold reassembleFU. destruct (_ <? 2); [by intros [= <- _]|]. intros H. do 3 (apply bind_Ok in H as (? & _ & H)).
  destruct (if _ =? 1 then _ else _); [|by injection H as <- _]. apply Ok_inj in H. destruct (_ <? _); [|destruct (_ =? 1)]; injection H as <- _; eauto.
Qed.

Lemma extract_kind pl t t' ns : extractNALUs pl t = Ok (t', ns) -> exists b, t' = set_fu b t.
Proof.
  assert (Hs : exists b, t = set_fu b t) by (exists (fuBuffer t); by rewrite set_fu_same).
  unfold extractNALUs. intros H. apply bind_Ok in H as (b0 & _ & H).
  destruct (_ && _); [by injection H as <- _|]. destruct (_ =? 24); [apply bind_Ok in H as (? & _ & H); by injection H as <- _|].
  destruct (_ =? 28); [|by injection H as <- _]. apply bind_Ok in H as ([t1 o] & Hr & H). injection H as <- _. by eapply reassembleFU_kind.
Qed.

Lemma handleVideo_kind p t t' c : handleVideoRTP p t = Ok (t', c) -> t'.(kind) = t.(kind).
Proof.
  unfold handleVideoRTP. destruct (_ =? _)%nat; [by intros [= <- _]|]. intros H. apply bind_Ok in H as ([t1 c1] & H1 & H).
  assert (Hk1 : kind t1 = kind t) by (destruct (_ && _); [by eapply flush_kind|by injection H1 as <- _]).
  apply bind_Ok in H as ([t2 ns] & H2 & H). apply extract_kind in H2 as [b ->]. apply bind_Ok in H as ([t3 c3] & H3 & H). injection H as <- _.
  rewrite <- Hk1. destruct (Marker _); [apply flush_kind in H3; by rewrite H3|by injection H3 as <- _].
Qed.

Lemma handleFrames_run ss t :
  Forall packet_ok ss -> Forall bytes_ok (wire <$> ss) -> t.(kind) = trackKindVideo -> handleFrames (wire <$> ss) t = video_run (packet_of <$> ss) t.
Proof.
  intros Hs. revert t. induction Hs as [|s ss Hs _ IH]; intros t Hb Hk; [done|]. cbn [fmap list_fmap] in *. apply Forall_cons in Hb as [Hb Hbs].
  cbn [handleFrames video_run]. unfold handleFrame. rewrite unmarshal_complete, Hk by done.
  destruct (handleVideoRTP (packet_of s) t) as [[t1 c1]|] eqn:H1; [|done]. cbn [mbind result_bind]. rewrite IH; [done|done|]. by rewrite (handleVideo_kind _ _ _ _ H1).
Qed.

(** C28: A camera's video arrives whole: from whatever RTP packets carry a stream
    of access units as RFC 6184 lays down, NAL units alone, aggregated and in
    fragments, in any mixture, access units told apart by a marker or by their
    time, the track pushes each access unit once, in order, as one sample of its
    NAL units with their lengths, marked as a key frame exactly when it holds an
    IDR slice, timed in microseconds from the first; and it is left with nothing
    pending. *)
Theorem h264_stream_delivered cfg a aus ss :
  Forall au_ok (a :: aus) -> closed (a :: aus) -> Forall packet_ok ss -> Forall bytes_ok (wire <$> ss) ->
  key_of ∘ packet_of <$> ss = concat (au_packets <$> a :: aus) ->
  exists ts, handleFrames (wire <$> ss) (vt cfg None [] 0 false None) =
    Ok (vt cfg None [] ts false (Some (micros a.(au_ts))), sample (micros a.(au_ts)) <$> a :: aus).
Proof.
  intros Hok Hc Hs Hb Hk. rewrite handleFrames_run by done. rewrite list_fmap_compose in Hk.
  apply (stream_run cfg (a :: aus) _ 0 None (micros a.(au_ts)) Hok Hc Hk); [by intros ?|]. by intros ? ? [= <- <-].
Qed.

(** ** Delivering AAC: RFC 3640 *)

(** An access unit with the index bits of its header. *)
Abbreviation aac_unit := (bytes * list Z)%type.

Definition header_bits (d : aacDepacketizer) (us : list aac_unit) : list Z :=
  concat ((fun u => bits_of (Z.to_nat d.(sizeLength)) (len u.1) ++ u.2) <$> us).

(** The payload of a packet that carries [us]: the length of the headers in bits,
    the headers, padded to whole bytes, and the units' data. *)
Definition carries (d : aacDepacketizer) (payload : bytes) (us : list aac_unit) : Prop :=
  let n := len (header_bits d us) in
  exists hdr, payload = be 2 n ++ hdr ++ concat us.*1 /\ n < 65536 /\ len hdr = (n + 7) / 8 /\
    reads payload 16 (header_bits d us) = true /\ len payload < 2 ^ 32 /\
    match us with
    | [] => False
    | u :: rest => len u.2 = d.(indexLength) /\ Forall (fun u => len u.2 = d.(indexDelta)) rest
    end /\ Forall (fun u => len u.1 < 2 ^ d.(sizeLength)) us.

Definition widths_ok (d : aacDepacketizer) : Prop :=
  1 <= d.(sizeLength) <= 62 /\ 0 <= d.(indexLength) < 2 ^ 31 /\ 0 <= d.(indexDelta) < 2 ^ 31.

(** The units with their times, from number [i]. *)
Fixpoint timed (base delta i : Z) (us : list bytes) : list (bytes * Z) :=
  match us with [] => [] | u :: us => (u, base + i * delta) :: timed base delta (i + 1) us end.

Lemma readBits_loop_spec data off n i acc v :
  0 <= off -> 0 <= i -> off + i + Z.of_nat n <= 8 * len data -> 8 * len data < 2 ^ 62 ->
  reads data (off + i) (bits_of n v) = true -> 0 <= acc -> (acc + 1) * 2 ^ Z.of_nat n <= 2 ^ 64 ->
  readBits_loop data off n i acc = Ok (acc * 2 ^ Z.of_nat n + v mod 2 ^ Z.of_nat n).
Proof.
  revert i acc. induction n as [|n IH]; intros i acc Ho Hi Hl H62 Hr Ha Hb; cbn [readBits_loop bits_of reads] in *.
  { rewrite Z.mod_1_r. f_equal. lia. }
  apply andb_prop in Hr as [Hbit Hr]. apply Z.eqb_eq in Hbit. rewrite Nat2Z.inj_succ, Z.pow_succ_r in * by lia.
  change (2 ^ 62) with 4611686018427387904 in *. rewrite wraps_id by (unfold in_s; change (2 ^ (64 - 1)) with 9223372036854775808; lia).
  rewrite Z.shiftr_div_pow2 by lia. change (2 ^ 3) with 8. destruct (Z.leb_spec (len data) ((off + i) / 8)); [Z.div_mod_to_equations; lia|].
  destruct (index_some Panic data ((off + i) / 8)) as (b & Hb8 & ->); [Z.div_mod_to_equations; lia|]. cbn [mbind result_bind].
  change 7 with (Z.ones 3) at 2. rewrite Z.land_ones by lia. change (2 ^ 3) with 8. unfold bit in Hbit. rewrite Hb8 in Hbit. rewrite Hbit.
  set (P := 2 ^ Z.of_nat n) in *. assert (HP : 0 < P) by (apply Z.pow_pos_nonneg; lia).
  pose proof (Z.mod_pos_bound (v / P) 2 ltac:(lia)) as Hm. assert (Hs : Z.shiftl acc 1 = acc * 2) by (by rewrite Z.shiftl_mul_pow2).
  rewrite wrapu_id by (unfold in_u; rewrite Hs; nia). rewrite lor_shiftl by (cbn; lia). change (2 ^ 1) with 2.
  rewrite IH; [|done|lia|lia|done|by rewrite Z.add_assoc|lia|nia]. rewrite (Z.mul_comm 2 P), Z.rem_mul_r by lia. f_equal. ring.
Qed.

Lemma cut_units_spec d payload base delta us i o dataOff :
  widths_ok d -> 8 * len payload < 2 ^ 62 -> 0 <= base < 2 ^ 53 -> 0 <= delta < 2 ^ 31 -> 0 <= i -> i + len us < 65536 + 1 ->
  0 <= o -> o + len (header_bits d us) <= 8 * len payload -> reads payload o (header_bits d us) = true ->
  Forall (fun u => len u.1 < 2 ^ d.(sizeLength)) us ->
  match us with [] => True | u :: rest => len u.2 = (if i =? 0 then d.(indexLength) else d.(indexDelta)) /\ Forall (fun u => len u.2 = d.(indexDelta)) rest end ->
  0 <= dataOff <= len payload -> drop (Z.to_nat dataOff) payload = concat us.*1 ->
  cut_units d payload base delta (size_offsets d (length us) i o) i dataOff = Ok (timed base delta i us.*1).
Proof.
  intros (Hs & Hil & Hid) H62 Hbase Hdelta. revert i o dataOff. induction us as [|[u idx] us IH]; intros i o dataOff Hi Hn Ho Hol Hr Hsz Hidx Hd Hdd; [done|].
  cbn [length size_offsets cut_units fmap list_fmap timed fst snd] in *. destruct Hidx as [Hx Hidx]. apply Forall_cons in Hsz as [Hu Hsz]. cbn [fst] in Hu.
  unfold header_bits in Hr, Hol. cbn [fmap list_fmap concat fst snd] in Hr, Hol. fold (header_bits d us) in Hr, Hol.
  rewrite <- app_assoc, !length_app, length_bits_of in *. rewrite reads_app, reads_app, length_bits_of, Z2Nat.id in Hr by lia.
  apply andb_prop in Hr as [Hr1 Hr]. apply andb_prop in Hr as [_ Hr]. cbn [concat] in Hdd.
  pose proof (f_equal length Hdd) as Hlen. rewrite length_drop, length_app in Hlen. change (2 ^ 62) with 4611686018427387904 in *.
  unfold readBits. rewrite (readBits_loop_spec _ _ _ _ _ (len u)); [|done|lia|lia|done|by rewrite Z.add_0_r|lia|].
  2:{ rewrite Z2Nat.id, Z.mul_1_l by lia. apply Z.pow_le_mono_r; lia. }
  cbn [mbind result_bind]. rewrite Z2Nat.id, Z.mul_0_l, Z.add_0_l, Z.mod_small by lia.
  rewrite (wraps_id 64 (len u)) by (try done; unfold in_s; change (2 ^ (64 - 1)) with 9223372036854775808; lia).
  rewrite (wraps_id 64 (dataOff + len u)) by (try done; unfold in_s; change (2 ^ (64 - 1)) with 9223372036854775808; lia).
  destruct (Z.ltb_spec (len payload) (dataOff + len u)); [lia|]. cbn [negb guard_err mbind result_bind]. rewrite slice_ok by lia. cbn [mbind result_bind].
  rewrite Hdd. replace (Z.to_nat (dataOff + len u - dataOff)) with (length u) by lia. rewrite take_app_length.
  change (2 ^ 31) with 2147483648 in *. change (2 ^ 53) with 9007199254740992 in *.
  rewrite (wraps_id 64 (i * delta)) by (try done; unfold in_s; change (2 ^ (64 - 1)) with 9223372036854775808; nia).
  rewrite (wraps_id 64 (base + i * delta)) by (try done; unfold in_s; change (2 ^ (64 - 1)) with 9223372036854775808; nia).
  rewrite (wraps_id 64 (o + sizeLength d)) by (try done; unfold in_s; change (2 ^ (64 - 1)) with 9223372036854775808; lia).
  set (w := if i =? 0 then _ else _) in *. rewrite (wraps_id 64 (o + sizeLength d + w)) by (try done; unfold in_s; change (2 ^ (64 - 1)) with 9223372036854775808; lia).
  rewrite (IH (i + 1) (o + sizeLength d + w) (dataOff + len u)); [done|lia|lia|lia|lia|by rewrite <- Hx|done| |lia|].
  - destruct us as [|u' us]; [done|]. apply Forall_cons in Hidx as [Hu' Hrest]. destruct (Z.eqb_spec (i + 1) 0); [lia|done].
  - replace (Z.to_nat (dataOff + len u)) with (Z.to_nat dataOff + length u)%nat by lia. rewrite <- drop_drop, Hdd. apply drop_app_length.
Qed.

(** The bits of [n] headers. *)
Lemma header_bits_length d us :
  0 <= d.(sizeLength) ->
  match us with [] => True | u :: rest => len u.2 = d.(indexLength) /\ Forall (fun u => len u.2 = d.(indexDelta)) rest end ->
  us <> [] -> len (header_bits d us) = len us * d.(sizeLength) + d.(indexLength) + (len us - 1) * d.(indexDelta).
Proof.
  intros Hs. destruct us as [|[u idx] us]; [done|]. intros [Hx Hr] _. unfold header_bits. cbn [fmap list_fmap concat fst snd length] in *.
  rewrite !length_app, length_bits_of. assert (Ht : len (concat ((fun v : aac_unit => bits_of (Z.to_nat (sizeLength d)) (len v.1) ++ v.2) <$> us)) = len us * (sizeLength d + indexDelta d)).
  { clear Hx. induction Hr as [|[v ix] us Hv _ IH]; [done|]. cbn [fmap list_fmap concat fst snd length] in *. rewrite !length_app, length_bits_of. lia. }
  rewrite !Nat2Z.inj_add, Ht. lia.
Qed.

Definition unit_times (d : aacDepacketizer) (ts : Z) (us : list aac_unit) : list (bytes * Z) :=
  timed (ts * 1000000 / d.(clockRate)) (1024000000 / d.(clockRate)) 0 us.*1.

Lemma depacketize_carries d payload us ts :
  widths_ok d -> 1 <= d.(clockRate) -> in_u 32 ts -> carries d payload us -> depacketize d payload ts = Ok (unit_times d ts us).
Proof.
  intros Hw Hc Hts (hdr & Hp & Hn & Hh & Hr & Hpl & Hx & Hsz). pose proof Hw as (Hs & Hil & Hid). set (n := len (header_bits d us)) in *.
  assert (Hne : us <> []) by (by destruct us). assert (Hnb : n = len us * d.(sizeLength) + d.(indexLength) + (len us - 1) * d.(indexDelta)).
  { subst n. apply header_bits_length; [lia| |done]. by destruct us. }
  assert (Hlp : len payload = 2 + (n + 7) / 8 + len (concat us.*1)) by (rewrite Hp, !length_app, length_be; lia).
  assert (Hus : 1 <= len us) by (destruct us; [done|cbn [length]; lia]). unfold in_u in Hts.
  change (2 ^ 31) with 2147483648 in *. change (2 ^ 32) with 4294967296 in *. unfold depacketize.
  destruct (Z.ltb_spec (len payload) 2); [Z.div_mod_to_equations; lia|]. cbn [negb guard_err mbind result_bind].
  assert (Hsl : slice payload 0 2 = Ok (be 2 n)).
  { rewrite slice_ok by lia. rewrite drop_0, Hp. change (Z.to_nat (2 - 0)) with (length (be 2 n)). by rewrite take_app_length. }
  rewrite Hsl. cbn [mbind result_bind]. rewrite of_be_be_id by (change (256 ^ Z.of_nat 2) with 65536; lia).
  rewrite (wraps_id 64 (sizeLength d + indexDelta d)) by (try done; unfold in_s; change (2 ^ (64 - 1)) with 9223372036854775808; lia).
  destruct (Z.leb_spec (sizeLength d) 0), (Z.leb_spec (sizeLength d + indexDelta d) 0); try lia. cbn [orb negb guard_err mbind result_bind].
  rewrite (wraps_id 64 (n - indexLength d)) by (try done; unfold in_s; change (2 ^ (64 - 1)) with 9223372036854775808; lia).
  rewrite wraps_id by (try done; unfold in_s; change (2 ^ (64 - 1)) with 9223372036854775808; lia).
  replace (n - indexLength d + indexDelta d) with (len us * (sizeLength d + indexDelta d)) by (rewrite Hnb; ring). rewrite Z.quot_mul by lia.
  assert (Hcnt : len us < 65536) by nia. destruct (Z.leb_spec (len us) 0); [lia|]. cbn [negb guard_err mbind result_bind].
  unfold makeslice. change (2 ^ 48) with 281474976710656. destruct (Z.leb_spec 0 (len us)); [|lia].
  destruct (Z.leb_spec (len us * 8) 281474976710656); [|lia]. cbn [andb guard_err mbind result_bind].
  destruct (Z.ltb_spec (len payload) (2 + (n + 7) / 8)); [lia|]. cbn [negb guard_err mbind result_bind].
  destruct (Z.leb_spec (len us * 32) 281474976710656); [|lia]. cbn [andb guard_err mbind result_bind]. rewrite Nat2Z.id.
  unfold toMicros, aacFrameDurationMicros, aacFrameSamples, unit_times. destruct (Z.leb_spec (clockRate d) 0); [lia|].
  rewrite wraps_id by (try done; unfold in_s; change (2 ^ (64 - 1)) with 9223372036854775808; lia).
  apply cut_units_spec; try done.
  - change (2 ^ 62) with 4611686018427387904. lia.
  - split; [apply Z.div_pos; lia|]. change (2 ^ 53) with 9007199254740992. apply Z.div_lt_upper_bound; [lia|]. nia.
  - split; [apply Z.div_pos; lia|]. change (2 ^ 31) with 2147483648. apply Z.div_lt_upper_bound; [lia|]. nia.
  - lia.
  - fold n. Z.div_mod_to_equations. lia.
  - by destruct us.
  - split; [Z.div_mod_to_equations; lia|lia].
  - rewrite Hp. replace (Z.to_nat (2 + (n + 7) / 8)) with (length (be 2 n) + length hdr)%nat by (rewrite length_be; Z.div_mod_to_equations; lia).
    by rewrite drop_app_add, drop_app_length.
Qed.

Definition at_ (d : aacDepacketizer) (base : option Z) : rtspTrack :=
  mkTrack true trackKindAudio None (Some d) None [] 0 false (default 0 base) (present base).

Definition time_ok (p : Z) : Prop := 0 <= p < 2 ^ 62.

Lemma normalize_all_based d b l :
  time_ok b -> Forall time_ok l -> normalize_all l (at_ d (Some b)) = (at_ d (Some b), (fun p => p - b) <$> l).
Proof.
  unfold time_ok. change (2 ^ 62) with 4611686018427387904. intros Hb. induction 1 as [|p l Hp _ IH]; [done|]. cbn [normalize_all].
  unfold normalizePTS. cbn [at_ ptsBased ptsBase present default from_option id]. fold (at_ d (Some b)).
  change (mkTrack true trackKindAudio None (Some d) None [] 0 false b true) with (at_ d (Some b)). rewrite IH. cbn [fmap list_fmap].
  rewrite wraps_id; [done|done|]. unfold in_s. change (2 ^ (64 - 1)) with 9223372036854775808. lia.
Qed.

Lemma normalize_all_at d base p l :
  time_ok (default p base) -> Forall time_ok (p :: l) ->
  normalize_all (p :: l) (at_ d base) = (at_ d (Some (default p base)), (fun x => x - default p base) <$> p :: l).
Proof.
  intros Hb Hl. destruct base as [b|]; cbn [default from_option id] in *; [by apply normalize_all_based|].
  pose proof (normalize_all_based d p (p :: l) Hb Hl) as H. cbn [normalize_all] in *. exact H.
Qed.

Lemma timed_fst base delta i us : (timed base delta i us).*1 = us.
Proof. revert i. induction us as [|u us IH]; intros i; [done|]. cbn. by rewrite IH. Qed.

Lemma timed_ok base delta i us :
  0 <= base < 2 ^ 53 -> 0 <= delta < 2 ^ 31 -> 0 <= i -> i + len us <= 65536 -> Forall time_ok (timed base delta i us).*2.
Proof.
  unfold time_ok. change (2 ^ 53) with 9007199254740992. change (2 ^ 31) with 2147483648. change (2 ^ 62) with 4611686018427387904.
  intros Hb Hd. revert i. induction us as [|u us IH]; intros i Hi Hn; [constructor|]. cbn [timed fmap list_fmap length] in *. constructor; [|apply IH; lia]. cbn [snd]. assert (0 <= i * delta) by (apply Z.mul_nonneg_nonneg; lia). assert (i * delta <= 65536 * 2147483648) by (apply Z.mul_le_mono_nonneg; lia). lia.
Qed.

Lemma unit_times_ok d ts us :
  widths_ok d -> 1 <= d.(clockRate) -> in_u 32 ts -> (exists payload, carries d payload us) ->
  Forall time_ok (unit_times d ts us).*2 /\ time_ok (ts * 1000000 / d.(clockRate)) /\
  exists l, (unit_times d ts us).*2 = ts * 1000000 / d.(clockRate) :: l.
Proof.
  intros (Hs & Hil & Hid) Hc Hts (payload & hdr & _ & Hn & _ & _ & _ & Hx & _). unfold in_u in Hts. change (2 ^ 32) with 4294967296 in *.
  assert (Hne : us <> []) by (by destruct us). rewrite header_bits_length in Hn by (lia || by destruct us).
  assert (Hr : 0 <= ts * 1000000 / clockRate d < 2 ^ 53).
  { split; [apply Z.div_pos; lia|]. change (2 ^ 53) with 9007199254740992. apply Z.div_lt_upper_bound; [lia|]. nia. }
  assert (Hus : 1 <= len us) by (destruct us; [done|cbn [length]; lia]).
  split; [|split].
  - apply timed_ok; [done| |lia|rewrite length_fmap; nia]. split; [apply Z.div_pos; lia|]. change (2 ^ 31) with 2147483648. apply Z.div_lt_upper_bound; [lia|]. nia.
  - unfold time_ok. change (2 ^ 53) with 9007199254740992 in Hr. change (2 ^ 62) with 4611686018427387904. lia.
  - destruct us as [|u us]; [done|]. unfold unit_times. cbn. rewrite Z.add_0_r. eauto.
Qed.

Lemma audio_packet s d base us :
  widths_ok d -> 1 <= d.(clockRate) -> packet_ok s -> bytes_ok (wire s) -> carries d s.(s_payload) us ->
  let t0 := s.(s_ts) * 1000000 / d.(clockRate) in
  base = None \/ (exists b, base = Some b /\ time_ok b) ->
  handleFrame (wire s) (at_ d base) =
  Ok (at_ d (Some (default t0 base)), [PushAudioFrames ((fun t => t - default t0 base) <$> (unit_times d s.(s_ts) us).*2) us.*1]).
Proof.
  intros Hw Hc Hs Hb Hp t0 Hbase. unfold handleFrame. rewrite unmarshal_complete by done. cbn [at_ kind]. unfold handleAudioRTP. cbn [at_ session aacDepack packet_of Payload Header header_of Timestamp].
  rewrite (depacketize_carries d _ us _ Hw Hc (p_ts s Hs) Hp).
  destruct (unit_times_ok d s.(s_ts) us Hw Hc (p_ts s Hs) (ex_intro (fun payload => carries d payload us) _ Hp)) as (Hok & Ht0 & l & Hl). fold t0 in Ht0, Hl.
  assert (Hn : normalize_all (unit_times d s.(s_ts) us).*2 (at_ d base) = (at_ d (Some (default t0 base)), (fun t => t - default t0 base) <$> (unit_times d s.(s_ts) us).*2)).
  { rewrite Hl. apply normalize_all_at; [|by rewrite <- Hl]. destruct Hbase as [->|(b & -> & Hbb)]; done. }
  rewrite Hn. unfold unit_times at 2. by rewrite timed_fst.
Qed.

(** A camera's sound arrives whole: each RTP packet laid out as RFC 3640 says,
    with headers of any widths up to 62 bits for the size, is pushed as one group
    of exactly its access units, in order, timed in microseconds from the track's
    first packet, each unit one frame's duration after the one before it. *)
Theorem aac_stream_delivered d s ss us uss :
  widths_ok d -> 1 <= d.(clockRate) -> Forall packet_ok (s :: ss) -> Forall bytes_ok (wire <$> s :: ss) ->
  Forall2 (fun s us => carries d s.(s_payload) us) (s :: ss) (us :: uss) ->
  let base := s.(s_ts) * 1000000 / d.(clockRate) in
  handleFrames (wire <$> s :: ss) (at_ d None) =
  Ok (at_ d (Some base),
      zip_with (fun s us => PushAudioFrames ((fun t => t - base) <$> (unit_times d s.(s_ts) us).*2) us.*1) (s :: ss) (us :: uss)).
Proof.
  intros Hw Hc Hs Hb Hp base. apply Forall_cons in Hs as [Hs1 Hs], Hb as [Hb1 Hb]. apply Forall2_cons in Hp as [Hp1 Hp].
  assert (Hbase : time_ok base) by (by apply (unit_times_ok d s.(s_ts) us Hw Hc (p_ts s Hs1)); eexists).
  cbn [fmap list_fmap handleFrames]. rewrite (audio_packet s d None us) by (done || by left). cbn [mbind result_bind default]. fold base.
  assert (Hrest : handleFrames (wire <$> ss) (at_ d (Some base)) =
    Ok (at_ d (Some base), zip_with (fun s us => PushAudioFrames ((fun t => t - base) <$> (unit_times d s.(s_ts) us).*2) us.*1) ss uss)).
  { clearbody base. clear s us Hs1 Hb1 Hp1. revert uss Hp. induction Hs as [|s ss Hs1 Hs IH]; intros uss Hp; inversion Hp as [|? us ? uss' Hp1 Hp' E1 E2]; subst; [done|].
    cbn [fmap list_fmap] in Hb. apply Forall_cons in Hb as [Hb1 Hb]. cbn [fmap list_fmap handleFrames].
    rewrite (audio_packet s d (Some base) us) by (done || (right; by eexists)). cbn [mbind result_bind default from_option id].
    specialize (IH Hb uss' Hp'). rewrite IH. done. }
  rewrite Hrest. done.
Qed.

(** ** Safety on any bytes *)

Lemma unmarshal_no_panic data : bytes_ok data -> UnmarshalRTP data <> Err Panic.
Proof.
  intros Hb. unfold UnmarshalRTP. destruct (Z.ltb_spec (len data) 12); [done|]. cbn [negb guard_err mbind result_bind]. unfold parse_header.
  destruct (index_some Panic data 0) as (b0 & Hb0 & ->); [lia|]. destruct (index_some Panic data 1) as (b1 & _ & ->); [lia|]. cbn [mbind result_bind].
  rewrite !slice_ok by lia. cbn [mbind result_bind Extension Padding]. assert (Hcc : 0 <= Z.land b0 15 < 16) by (apply first_byte_fields; by eapply Forall_lookup_1).
  destruct (Z.ltb_spec (len data) (12 + Z.land b0 15 * 4)); [done|]. cbn [negb guard_err mbind result_bind]. set (off := 12 + Z.land b0 15 * 4) in *. assert (Hoff : 12 <= off) by (subst off; lia). clearbody off. set (e := Z.land (Z.shiftr b0 4) 1 =? 1).
  assert (Hse : skip_extension data e off <> Err Panic).
  { unfold skip_extension. destruct e; [|done]. destruct (Z.ltb_spec (len data) (off + 4)); [done|]. cbn [negb guard_err mbind result_bind].
    pose proof (uint16_ok Panic data (off + 2) _ ltac:(lia) eq_refl) as Hu. rewrite length_drop in Hu.
    destruct (Z.ltb_spec (Z.of_nat (length data - Z.to_nat (off + 2))) 2) in Hu; [lia|]. destruct Hu as (-> & _). cbn [mbind result_bind].
    by destruct (_ <? _). }
  destruct (skip_extension data e off) as [off'|er] eqn:He; [|cbn; congruence]. apply skip_extension_exact in He as (_ & _ & _ & _ & Ho); [|done|lia].
  cbn [mbind result_bind]. rewrite slice_ok by lia. cbn [mbind result_bind]. rewrite (take_ge (drop (Z.to_nat off') data)) by (rewrite length_drop; lia).
  set (pl := drop (Z.to_nat off') data). assert (Hpl : bytes_ok pl) by (by apply Forall_drop). unfold strip_padding. destruct (Z.land (Z.shiftr b0 5) 1 =? 1); [|done].
  destruct (Z.eqb_spec (len pl) 0) as [|Hpl0]; [done|]. cbn [negb guard_err mbind result_bind].
  destruct (index_some Panic pl (len pl - 1)) as (pn & Hn & ->); [lia|]. cbn [mbind result_bind]. assert (0 <= pn < 256) by (by eapply (Forall_lookup_1 _ _ _ _ Hpl)).
  destruct (Z.eqb_spec pn 0); [done|]. destruct (Z.ltb_spec (len pl) pn); [done|]. cbn [orb negb guard_err mbind result_bind]. by rewrite slice_ok by lia.
Qed.

Lemma unmarshal_payload_ok data p : bytes_ok data -> UnmarshalRTP data = Ok p -> bytes_ok p.(Payload) /\ in_u 32 p.(Header).(Timestamp).
Proof.
  intros Hb Hu. apply unmarshal_sound in Hu as (s & Hs & -> & ->); [|done]. split; [|apply Hs]. unfold wire in Hb.
  apply Forall_cons in Hb as [_ Hb]. apply Forall_cons in Hb as [_ Hb]. by repeat (apply Forall_app in Hb as [? Hb]).
Qed.

Definition fu_ok (b : option bytes) : Prop := match b with Some b => b <> [] /\ len b <= maxFUBufferSize | None => True end.

(** A video track: its fragment buffer is bounded, and its NAL units have a first byte. *)
Record video_ok (t : rtspTrack) : Prop := {
  vo_kind : t.(kind) = trackKindVideo; vo_fu : fu_ok t.(fuBuffer); vo_nalus : Forall (fun n => n <> []) t.(auNALUs)
}.

Lemma stapa_safe fuel payload off :
  bytes_ok payload -> 0 <= off -> exists l, stapa_loop fuel payload off = Ok l /\ Forall (fun n => n <> []) l.
Proof.
  intros Hb. revert off. induction fuel as [|fuel IH]; intros off Ho; cbn [stapa_loop]; [by eexists|].
  destruct (Z.ltb_spec (len payload) (off + 2)); [by eexists|]. pose proof (uint16_ok Panic payload off _ Ho eq_refl) as Hu. rewrite length_drop in Hu.
  destruct (Z.ltb_spec (Z.of_nat (length payload - Z.to_nat off)) 2) in Hu; [lia|]. destruct Hu as (-> & _). cbn [mbind result_bind].
  set (n := of_be _). assert (0 <= n) by (by apply of_be_range, Forall_take, Forall_drop).
  destruct (Z.ltb_spec (len payload) (off + 2 + n)); [by eexists|]. destruct (Z.eqb_spec n 0); [by eexists|]. cbn [orb].
  rewrite slice_ok by lia. cbn [mbind result_bind]. destruct (IH (off + 2 + n)) as (l & -> & Hl); [lia|]. cbn [mbind result_bind]. eexists. split; [done|]. constructor; [|done].
  intros Hnil. apply (f_equal length) in Hnil. rewrite length_take, length_drop in Hnil. cbn in Hnil. lia.
Qed.

Lemma reassemble_safe payload t :
  fu_ok t.(fuBuffer) -> exists b o, reassembleFU payload t = Ok (set_fu b t, o) /\ fu_ok b /\ fu_ok o.
Proof.
  intros Hf. assert (Hsame : exists b, t = set_fu b t /\ fu_ok b) by (exists t.(fuBuffer); by rewrite set_fu_same).
  unfold reassembleFU. destruct (Z.ltb_spec (len payload) 2); [destruct Hsame as (b & Hb & ?); exists b, None; rewrite <- Hb; done|].
  destruct (index_some Panic payload 1) as (h & _ & ->); [lia|]. destruct (index_some Panic payload 0) as (b0 & _ & ->); [lia|]. cbn [mbind result_bind].
  rewrite slice_ok by lia. cbn [mbind result_bind]. set (rest := take _ _). set (buf := if _ =? 1 then _ else _).
  assert (Hbuf : match buf with Some b => b <> [] | None => True end) by (subst buf; destruct (_ =? 1); [done|]; by destruct (fuBuffer t) as [?|]; [apply Hf|]).
  destruct buf as [buf|]; [|destruct Hsame as (b & Hb & ?); exists b, None; rewrite <- Hb; done].
  assert (Hne : buf ++ rest <> []) by (by destruct buf). destruct (Z.ltb_spec maxFUBufferSize (len (buf ++ rest))); [by exists None, None|].
  destruct (_ =? 1); [by exists None, (Some (buf ++ rest))|by exists (Some (buf ++ rest)), None].
Qed.

Lemma extract_safe payload t :
  bytes_ok payload -> payload <> [] -> fu_ok t.(fuBuffer) ->
  exists b ns, extractNALUs payload t = Ok (set_fu b t, ns) /\ fu_ok b /\ Forall (fun n => n <> []) ns.
Proof.
  intros Hb Hne Hf. unfold extractNALUs. destruct (index_some Panic payload 0) as (b0 & _ & ->); [destruct payload; cbn; lia || done|]. cbn [mbind result_bind].
  destruct (_ && _); [exists t.(fuBuffer), [payload]; rewrite set_fu_same; split; [done|]; split; [done|]; by constructor|].
  destruct (_ =? 24).
  - destruct (stapa_safe (length payload) payload 1 Hb) as (l & Hl & Hl'); [lia|]. unfold parseSTAPA. rewrite Hl. cbn [mbind result_bind].
    exists t.(fuBuffer), l. by rewrite set_fu_same.
  - destruct (_ =? 28); [|exists t.(fuBuffer), []; rewrite set_fu_same; done].
    destruct (reassemble_safe payload t Hf) as (b & o & -> & Hb' & Ho). cbn [mbind result_bind]. exists b, (match o with Some n => [n] | None => [] end). split; [done|]. split; [done|].
    destruct o as [n|]; [|done]. constructor; [apply Ho|done].
Qed.

(** A push of an access unit of NAL units. *)
Definition au_push (c : session_call) : Prop :=
  exists pts l, l <> [] /\ Forall (fun n => n <> []) l /\ c = PushVideo pts (avcc l) (existsb is_idr l).

Lemma build_sample_safe l data k : Forall (fun n => n <> []) l -> build_sample data k l = Ok (data ++ avcc l, k || existsb is_idr l).
Proof.
  intros Hl. revert data k. induction Hl as [|n l Hn _ IH]; intros data k; cbn [build_sample].
  { unfold avcc. cbn. by rewrite app_nil_r, orb_false_r. }
  destruct n as [|b n]; [done|]. rewrite (index_ok _ _ 0 b) by done. cbn [mbind result_bind]. rewrite IH. unfold appendAVCC, avcc.
  unfold wrapu. change (2 ^ 32) with (256 ^ Z.of_nat 4). rewrite be_mod. cbn [fmap list_fmap concat existsb is_idr]. rewrite <- !app_assoc.
  do 2 f_equal. destruct (Z.land b 31 =? 5), k; done.
Qed.

Lemma flush_safe t : video_ok t -> exists t' cs, flushAccessUnit t = Ok (t', cs) /\ video_ok t' /\ Forall au_push cs.
Proof.
  intros [Hk Hf Hn]. unfold flushAccessUnit. destruct (negb (auOpen t) || (length (auNALUs t) =? 0)%nat) eqn:Hc.
  { eexists _, _. split; [done|]. split; [by split|done]. }
  apply orb_false_iff in Hc as [_ Hc]. rewrite build_sample_safe by done. cbn [mbind result_bind]. unfold normalizePTS.
  assert (Hne : auNALUs t <> []) by (by destruct (auNALUs t)).
  destruct (ptsBased t); (eexists _, _; split; [done|]; split; [by split|]); destruct (session t); cbn [session]; (constructor || idtac); try done; by eexists _, _.
Qed.

Lemma handleVideo_safe p t :
  bytes_ok p.(Payload) -> video_ok t -> exists t' cs, handleVideoRTP p t = Ok (t', cs) /\ video_ok t' /\ Forall au_push cs.
Proof.
  intros Hb Hv. unfold handleVideoRTP. destruct (length (Payload p)) eqn:Hl; [eexists _, _; by split|]. cbn [Nat.eqb].
  assert (H1 : exists t1 c1, (if auOpen t && negb (Timestamp (Header p) =? auTS t) then flushAccessUnit t else Ok (t, [])) = Ok (t1, c1) /\ video_ok t1 /\ Forall au_push c1).
  { destruct (_ && _); [by apply flush_safe|]. eexists _, _. by split. }
  destruct H1 as (t1 & c1 & -> & [Hk Hf Hn] & Hc1). cbn [mbind result_bind].
  destruct (extract_safe (Payload p) (set_au (auNALUs t1) (Timestamp (Header p)) true t1) Hb) as (b & ns & -> & Hfb & Hns); [by destruct (Payload p)|done|].
  cbn [mbind result_bind]. set (t2 := set_au _ _ true _). assert (Hv2 : video_ok t2) by (split; [done|done|cbn; by apply Forall_app]).
  assert (H3 : exists t3 c3, (if Marker (Header p) then flushAccessUnit t2 else Ok (t2, [])) = Ok (t3, c3) /\ video_ok t3 /\ Forall au_push c3).
  { destruct (Marker _); [by apply flush_safe|]. eexists _, _. by split. }
  destruct H3 as (t3 & c3 & -> & Hv3 & Hc3). cbn [mbind result_bind]. eexists _, _. split; [done|]. split; [done|]. by apply Forall_app.
Qed.

Lemma handleFrames_safe frames t :
  Forall bytes_ok frames -> video_ok t -> exists t' cs, handleFrames frames t = Ok (t', cs) /\ video_ok t' /\ Forall au_push cs.
Proof.
  intros Hfs. revert t. induction Hfs as [|f frames Hf _ IH]; intros t Hv; [by eexists _, _|]. cbn [handleFrames]. unfold handleFrame.
  pose proof (unmarshal_no_panic f Hf) as Hnp. destruct (UnmarshalRTP f) as [p|e] eqn:Hu.
  - rewrite (vo_kind t Hv). destruct (handleVideo_safe p t) as (t1 & c1 & -> & Hv1 & Hc1); [by apply (unmarshal_payload_ok f)|done|]. cbn [mbind result_bind].
    destruct (IH t1 Hv1) as (t2 & c2 & -> & Hv2 & Hc2). cbn [mbind result_bind]. eexists _, _. split; [done|]. split; [done|]. by apply Forall_app.
  - destruct (IH t Hv) as (t2 & c2 & Hr & Hv2 & Hc2). exists t2, c2. split; [|done]. by destruct e; cbn [mbind result_bind]; rewrite ?Hr.
Qed.

(** A track is made from any description; one that is not of the AAC kind is a
    video track at rest. *)
Lemma new_track media :
  exists t cs, newRTSPTrackFromMedia media = Ok (t, cs) /\
    (t.(kind) = trackKindVideo -> exists cfg, t = vt cfg None [] 0 false None).
Proof.
  assert (Hd : exists t cs, Ok (newTrack, []) = @Ok rtsp_error _ (t, cs) /\ (t.(kind) = trackKindVideo -> exists cfg, t = vt cfg None [] 0 false None))
    by (exists newTrack, (@nil session_call); split; [done|]; intros _; by exists None).
  unfold newRTSPTrackFromMedia. destruct media as [m|]; [|done]. destruct (_ && _).
  - destruct (bool_decide _); [done|]. destruct (extractParameterSets _) as [[|sps spss] ppss]; [done|]. destruct (Z.leb_spec 4 (len sps)); [|done].
    destruct (index_some Panic sps 1) as (p & _ & ->); [lia|]. destruct (index_some Panic sps 2) as (c & _ & ->); [lia|].
    destruct (index_some Panic sps 3) as (l & _ & ->); [lia|]. cbn [mbind result_bind]. destruct (parseSPSDimensions sps) as [w h].
    eexists _, _. split; [done|]. intros _. by eexists (Some _).
  - destruct (_ && _); [|done]. eexists _, _. split; [done|]. done.
Qed.

(** C29: Nothing a publisher sends on a video channel stops the ingest: a track is
    made from any media description, and on any frames at all it keeps going,
    never indexing out of range; what it holds of a fragmented NAL unit stays
    within [maxFUBufferSize], every NAL unit it has collected is not empty, and
    what it pushes are samples of whole NAL units with their right key flag. *)
Theorem video_never_panics media frames :
  Forall bytes_ok frames ->
  exists t cs, newRTSPTrackFromMedia media = Ok (t, cs) /\
    (t.(kind) = trackKindVideo ->
     exists t' cs', handleFrames frames t = Ok (t', cs') /\ Forall au_push cs' /\ Forall (fun n => n <> []) t'.(auNALUs) /\
       match t'.(fuBuffer) with Some b => len b <= maxFUBufferSize | None => True end).
Proof.
  intros Hf. destruct (new_track media) as (t & cs & Ht & Hk). exists t, cs. split; [done|]. intros Hv. destruct (Hk Hv) as [cfg ->].
  destruct (handleFrames_safe frames (vt cfg None [] 0 false None) Hf) as (t' & cs' & Hr & [_ Hfu Hn] & Hc); [by split|].
  exists t', cs'. split; [done|]. split; [done|]. split; [done|]. destruct (fuBuffer t'); [apply Hfu|done].
Qed.

(** *** AAC *)

Lemma readBits_range data off n i acc :
  0 <= off -> 0 <= i -> off + i + Z.of_nat n < 2 ^ 62 -> 0 <= acc -> (acc + 1) * 2 ^ Z.of_nat n <= 2 ^ 62 ->
  exists v, readBits_loop data off n i acc = Ok v /\ 0 <= v /\ v + 1 <= (acc + 1) * 2 ^ Z.of_nat n.
Proof.
  revert i acc. induction n as [|n IH]; intros i acc Ho Hi Hl Ha Hb; cbn [readBits_loop].
  { exists acc. split; [done|]. cbn. lia. }
  rewrite Nat2Z.inj_succ, Z.pow_succ_r in * by lia. set (P := 2 ^ Z.of_nat n) in *. assert (HP : 0 < P) by (apply Z.pow_pos_nonneg; lia).
  change (2 ^ 62) with 4611686018427387904 in *. rewrite wraps_id by (try done; unfold in_s; change (2 ^ (64 - 1)) with 9223372036854775808; lia).
  rewrite Z.shiftr_div_pow2 by lia. change (2 ^ 3) with 8. destruct (Z.leb_spec (len data) ((off + i) / 8)); [exists acc; split; [done|]; nia|].
  destruct (index_some Panic data ((off + i) / 8)) as (b & _ & ->); [Z.div_mod_to_equations; lia|]. cbn [mbind result_bind].
  assert (Hs : Z.shiftl acc 1 = acc * 2) by (by rewrite Z.shiftl_mul_pow2). rewrite wrapu_id by (unfold in_u; rewrite Hs; change (2 ^ 64) with 18446744073709551616; nia).
  set (x := Z.land (Z.shiftr b _) 1). assert (Hx : 0 <= x < 2) by (subst x; change 1 with (Z.ones 1); rewrite Z.land_ones by lia; by apply Z.mod_pos_bound).
  rewrite lor_shiftl by (cbn; lia). change (2 ^ 1) with 2.
  assert (Hle : (acc * 2 + x + 1) * P <= (acc + 1) * (2 * P)).
  { replace ((acc + 1) * (2 * P)) with ((acc * 2 + 2) * P) by ring. apply Z.mul_le_mono_nonneg_r; lia. }
  destruct (IH (i + 1) (acc * 2 + x)) as (v & -> & Hv); [lia..|]. exists v. split; [done|]. lia.
Qed.

Lemma cut_units_safe d payload base delta n i o dataOff :
  widths_ok d -> len payload < 2 ^ 32 -> 0 <= i -> 0 <= o -> o + Z.of_nat n * (d.(sizeLength) + d.(indexDelta)) + (if i =? 0 then d.(indexLength) else 0) < 2 ^ 40 ->
  0 <= dataOff <= len payload -> cut_units d payload base delta (size_offsets d n i o) i dataOff <> Err Panic.
Proof.
  intros (Hs & Hil & Hid) Hlp. change (2 ^ 40) with 1099511627776. change (2 ^ 31) with 2147483648 in *. change (2 ^ 32) with 4294967296 in *.
  revert i o dataOff. induction n as [|n IH]; intros i o dataOff Hi Ho Hol Hd; cbn [size_offsets cut_units]; [done|].
  unfold readBits. assert (Hp : 2 ^ sizeLength d <= 2 ^ 62) by (apply Z.pow_le_mono_r; lia). change (2 ^ 62) with 4611686018427387904 in Hp.
  assert (Ho40 : o < 1099511627776).
  { assert (0 <= Z.of_nat (S n) * (sizeLength d + indexDelta d)) by (apply Z.mul_nonneg_nonneg; lia). destruct (i =? 0); lia. }
  destruct (readBits_range payload o (Z.to_nat (sizeLength d)) 0 0) as (v & -> & Hv); rewrite ?Z2Nat.id in * by lia; change (2 ^ 62) with 4611686018427387904; [lia..|].
  cbn [mbind result_bind]. rewrite (wraps_id 64 v) by (try done; unfold in_s; change (2 ^ (64 - 1)) with 9223372036854775808; lia).
  rewrite (wraps_id 64 (dataOff + v)) by (try done; unfold in_s; change (2 ^ (64 - 1)) with 9223372036854775808; lia).
  destruct (Z.ltb_spec (len payload) (dataOff + v)); [done|]. cbn [negb guard_err mbind result_bind]. rewrite slice_ok by lia. cbn [mbind result_bind].
  rewrite (wraps_id 64 (o + sizeLength d)) by (try done; unfold in_s; change (2 ^ (64 - 1)) with 9223372036854775808; lia).
  set (w := if i =? 0 then indexLength d else indexDelta d).
  assert (Hnext : 0 <= o + sizeLength d + w /\ o + sizeLength d + w + Z.of_nat n * (sizeLength d + indexDelta d) < 1099511627776).
  { subst w. rewrite Nat2Z.inj_succ in Hol. destruct (i =? 0); nia. }
  rewrite (wraps_id 64 (o + sizeLength d + w)) by (try done; unfold in_s; change (2 ^ (64 - 1)) with 9223372036854775808; nia).
  assert (Hrec : cut_units d payload base delta (size_offsets d n (i + 1) (o + sizeLength d + w)) (i + 1) (dataOff + v) <> Err Panic).
  { apply IH; [lia|lia| |lia]. destruct (Z.eqb_spec (i + 1) 0); lia. }
  destruct (cut_units _ _ _ _ _ _ _) as [rest|e]; [done|]. cbn. congruence.
Qed.

(** No AAC payload stops the ingest, whatever its bytes, as long as the
    advertised field widths are not out of range: sizes of at most 62 bits and
    index fields that are not negative. *)
Theorem aac_never_panics d payload ts :
  widths_ok d -> bytes_ok payload -> len payload < 2 ^ 32 -> depacketize d payload ts <> Err Panic.
Proof.
  intros Hw Hb Hlp. pose proof Hw as (Hs & Hil & Hid). change (2 ^ 31) with 2147483648 in *. unfold depacketize.
  destruct (Z.ltb_spec (len payload) 2); [done|]. cbn [negb guard_err mbind result_bind]. rewrite slice_ok by lia. cbn [mbind result_bind].
  set (l := take _ _). assert (Hl : bytes_ok l) by (by apply Forall_take, Forall_drop). pose proof (of_be_range l Hl) as Hn.
  assert (Hll : length l = 2%nat) by (subst l; rewrite length_take, length_drop; lia). rewrite Hll in Hn. change (256 ^ Z.of_nat 2) with 65536 in Hn. set (n := of_be l) in *.
  rewrite (wraps_id 64 (sizeLength d + indexDelta d)) by (try done; unfold in_s; change (2 ^ (64 - 1)) with 9223372036854775808; lia).
  destruct (Z.leb_spec (sizeLength d) 0), (Z.leb_spec (sizeLength d + indexDelta d) 0); try lia. cbn [orb negb guard_err mbind result_bind].
  rewrite (wraps_id 64 (n - indexLength d)) by (try done; unfold in_s; change (2 ^ (64 - 1)) with 9223372036854775808; lia).
  rewrite wraps_id by (try done; unfold in_s; change (2 ^ (64 - 1)) with 9223372036854775808; lia).
  set (w := sizeLength d + indexDelta d) in *. set (k := Z.quot _ w). destruct (Z.leb_spec k 0); [done|]. cbn [negb guard_err mbind result_bind].
  assert (Hk : k * w <= n + indexDelta d).
  { destruct (Z.leb_spec 0 (n - indexLength d + indexDelta d)) as [Hq0|Hq0].
    - pose proof (Z.mul_quot_le (n - indexLength d + indexDelta d) w Hq0 ltac:(lia)) as Hq. fold k in Hq. lia.
    - pose proof (Z.quot_opp_l (- (n - indexLength d + indexDelta d)) w ltac:(lia)) as Hq. rewrite Z.opp_involutive in Hq. fold k in Hq.
      pose proof (Z.quot_pos (- (n - indexLength d + indexDelta d)) w ltac:(lia) ltac:(lia)). lia. }
  assert (Hkb : k <= 4294967296) by nia. unfold makeslice. change (2 ^ 48) with 281474976710656. destruct (Z.leb_spec 0 k); [|lia].
  destruct (Z.leb_spec (k * 8) 281474976710656); [|lia]. cbn [andb guard_err mbind result_bind].
  destruct (Z.ltb_spec (len payload) (2 + (n + 7) / 8)); [done|]. cbn [negb guard_err mbind result_bind].
  destruct (Z.leb_spec (k * 32) 281474976710656); [|lia]. cbn [andb guard_err mbind result_bind].
  apply cut_units_safe; [done|done|lia|lia| |Z.div_mod_to_equations; lia]. rewrite Z2Nat.id by lia. cbn [Z.eqb]. change (2 ^ 40) with 1099511627776. fold w. lia.
Qed.

(** ** What breaks *)

Definition plain (marker : bool) (q ts : Z) (payload : bytes) : rtp_syntax := mkSyntax 2 marker 96 q ts 1 [] None payload None.

(** A publisher stops the whole ingest with one packet: the field widths of its
    description are not checked, and with sizes of 64 bits an eleven-byte-long
    packet's size field is read as a negative size, with which the payload is
    sliced out of range. *)
Theorem aac_hostile_widths_panic :
  exists media t cs frame,
    newRTSPTrackFromMedia (Some media) = Ok (t, cs) /\ bytes_ok frame /\ len frame = 22 /\ handleFrame frame t = Err Panic.
Proof.
  exists (mkMedia "audio" "" "96 mpeg4-generic/48000/2" "96 mode=AAC-hbr;config=1190;sizelength=64;indexlength=0;indexdeltalength=0" ∅).
  eexists _, _, (wire (plain true 0 0 (be 2 64 ++ replicate 8 255))). split; [vm_compute; reflexivity|]. split; [|by vm_compute].
  vm_compute. repeat constructor; done.
Qed.

(** Media the ingest does not support becomes a video track: its packets are pushed
    as video. *)
Lemma unsupported_media_is_video :
  exists t, newRTSPTrackFromMedia (Some (mkMedia "audio" "" "0 PCMU/8000" "" ∅)) = Ok (t, []) /\
    exists t', handleFrame (wire (plain true 7 160 [65; 1; 2])) t = Ok (t', [PushVideo 0 [0; 0; 0; 3; 65; 1; 2] false]).
Proof. eexists. split; [reflexivity|]. eexists. vm_compute. reflexivity. Qed.

(** RTP times are 32 bits and wrap: a frame a millisecond after another can be
    pushed with a time thirteen hours before it. *)
Lemma rtp_wrap_goes_back :
  exists t, handleFrames (wire <$> [plain true 0 (2 ^ 32 - 90) [65; 1]; plain true 1 0 [65; 2]]) newTrack =
    Ok (t, [PushVideo 0 [0; 0; 0; 2; 65; 1] false; PushVideo (-47721857844) [0; 0; 0; 2; 65; 2] false]).
Proof. eexists. vm_compute. reflexivity. Qed.

(** Packets of one time without a marker pile up without a bound. *)
Lemma access_unit_unbounded n :
  handleFrames (replicate n (wire (plain false 0 5 [65; 1]))) (vt None None [] 5 false None) =
  Ok (vt None None (replicate n [65; 1]) 5 (negb (n =? 0)%nat) None, []).
Proof.
  assert (Hg : forall l o, handleFrames (replicate n (wire (plain false 0 5 [65; 1]))) (vt None None l 5 o None) =
    Ok (vt None None (l ++ replicate n [65; 1]) 5 (o || negb (n =? 0)%nat) None, [])); [|by apply Hg].
  induction n as [|n IH]; intros l o; cbn [replicate handleFrames]; [by rewrite app_nil_r, orb_false_r|].
  unfold handleFrame. rewrite unmarshal_complete; [|vm_compute; repeat constructor; done|split; cbn; unfold in_u; lia || done].
  cbn [vt kind]. fold (vt None None l 5 o None). rewrite (video_packet _ None None None l 5 o None [[65; 1]]) by (done || (by apply (extracts_single 2 1 [1])) || by right).
  cbn [packet_of Header header_of Marker plain s_marker Timestamp s_ts mbind result_bind]. rewrite IH. cbn [mbind result_bind]. rewrite <- app_assoc. by destruct o.
Qed.

(** ** Examples *)

(** A video packet with a contributing source, an extension and padding. *)
Definition full_packet : rtp_syntax :=
  mkSyntax 2 true 97 65535 4294967295 305419896 [1; 2; 3; 4] (Some ([190; 222], [16; 7; 0; 0])) [65; 9; 9] (Some [0; 0]).

Lemma rtp_packet_exact_witness :
  UnmarshalRTP [177; 225; 255; 255; 255; 255; 255; 255; 18; 52; 86; 120; 1; 2; 3; 4; 190; 222; 0; 1; 16; 7; 0; 0; 65; 9; 9; 0; 0; 3] =
  Ok (packet_of full_packet).
Proof.
  apply rtp_packet_exact; [repeat constructor; unfold byte_ok; lia|]. exists full_packet. split; [|split; reflexivity].
  split; cbn; unfold in_u; lia || done.
Defined.

(** Parameter sets aggregated, an IDR slice in two fragments, then a slice of the
    next time. *)
Definition ex_units : list access_unit :=
  [mkAU 4294963000 [UStap 3 [[103; 66; 0; 30]; [104; 206]]; UFu 3 5 [[1; 2]; [3]]] false; mkAU 4294966600 [USingle 2 1 [7; 8]] true].
Definition ex_video : list rtp_syntax :=
  [plain false 1 4294963000 [120; 0; 4; 103; 66; 0; 30; 0; 2; 104; 206]; plain false 2 4294963000 [124; 133; 1; 2];
   plain false 3 4294963000 [124; 69; 3]; plain true 4 4294966600 [65; 7; 8]].

Lemma h264_stream_delivered_witness :
  exists t, handleFrames (wire <$> ex_video) newTrack =
    Ok (t, [PushVideo 0 [0; 0; 0; 4; 103; 66; 0; 30; 0; 0; 0; 2; 104; 206; 0; 0; 0; 4; 101; 1; 2; 3] true;
            PushVideo 40000 [0; 0; 0; 3; 65; 7; 8] false]).
Proof.
  destruct (h264_stream_delivered None (mkAU 4294963000 [UStap 3 [[103; 66; 0; 30]; [104; 206]]; UFu 3 5 [[1; 2]; [3]]] false)
    [mkAU 4294966600 [USingle 2 1 [7; 8]] true] ex_video) as [ts Ht].
  - unfold au_ok, in_u. repeat constructor; cbn; lia || done.
  - cbn. split; [right; lia|]. split; [by left|done].
  - repeat constructor; cbn; unfold in_u; lia || done.
  - vm_compute. repeat constructor; done.
  - reflexivity.
  - eexists. etrans; [exact Ht|]. vm_compute. reflexivity.
Defined.

(** Two units in a packet, as ffmpeg describes them. *)
Definition ex_depack : aacDepacketizer :=
  newAACDepacketizer "96 profile-level-id=1;mode=AAC-hbr;sizelength=13;indexlength=3;indexdeltalength=3;config=1190" 48000.

Lemma ex_widths : widths_ok ex_depack.
Proof. assert (He : ex_depack = mkDepack 48000 13 3 3) by (vm_compute; reflexivity). rewrite He. unfold widths_ok. cbn. lia. Qed.

Lemma aac_stream_delivered_witness :
  handleFrames (wire <$> [plain true 1 96000 [0; 32; 0; 24; 0; 16; 1; 2; 3; 4; 5]; plain true 2 98048 [0; 16; 0; 8; 6]]) (at_ ex_depack None) =
  Ok (at_ ex_depack (Some 2000000), [PushAudioFrames [0; 21333] [[1; 2; 3]; [4; 5]]; PushAudioFrames [42666] [[6]]]).
Proof.
  etrans; [apply (aac_stream_delivered ex_depack _ _ [([1; 2; 3], [0; 0; 0]); ([4; 5], [0; 0; 0])] [[([6], [0; 0; 0])]])|].
  - apply ex_widths.
  - by vm_compute.
  - repeat constructor; cbn; unfold in_u; lia || done.
  - vm_compute. repeat constructor; done.
  - constructor; [|constructor; [|constructor]]; unfold carries; cbn zeta.
    + exists [0; 24; 0; 16]. vm_compute. repeat constructor; done.
    + exists [0; 8]. vm_compute. repeat constructor; done.
  - vm_compute. reflexivity.
Defined.

Lemma video_never_panics_witness :
  exists t cs, newRTSPTrackFromMedia (Some (mkMedia "video" "" "96 H264/90000" "96 sprop-parameter-sets=Z0IAHg==,aM4=" ∅)) = Ok (t, cs) /\
    (t.(kind) = trackKindVideo ->
     exists t' cs', handleFrames [[]; wire (plain true 0 0 [28; 64; 1]); wire (plain true 0 0 [24; 0; 9; 1])] t = Ok (t', cs') /\
       Forall au_push cs' /\ Forall (fun n => n <> []) t'.(auNALUs) /\
       match t'.(fuBuffer) with Some b => len b <= maxFUBufferSize | None => True end).
Proof. apply video_never_panics. vm_compute. repeat constructor; done. Defined.

Lemma aac_never_panics_witness : depacketize ex_depack [0; 255; 1; 2] 0 <> Err Panic.
Proof.
  apply aac_never_panics; [apply ex_widths|repeat constructor; unfold byte_ok; lia|by vm_compute].
Defined.
