(* ===== verification/RtspServer.v ===== *)
(** * RtspServer: a publisher's RTSP connection

    src/internal/ingest/rtsp.go: [RTSPServer.handleConn], the loop that reads a
    publisher's requests and interleaved frames, and session.go's [NewSession]
    and [Close] as far as the loop uses them.

    The state of a connection is what the loop's variables hold, with the bytes
    not read yet. One step is one round of the loop at a time, or the close of the
    connection while a read waits: by the timer [cut] when the publisher's
    permission lapses, or by the server's shutdown. A close leaves what
    [bufio.Reader] has buffered. The publish check is a function of the time, the
    token and the path. Frames are handled by [Rtp.handleFrame]; a panic there
    ends the process and is the step's error. *)
From S2P Require Import Prelude GoBytes GoStrings GoText Rtsp Flv Rtp.

#[local] Open Scope Z_scope.

Section server.
Context {U : URLs}.
(** [config.Authorize]: nil, or what it answers at a time to a token and a path:
    refused, or when the permission lapses (never, for the zero time). *)
Context (Authorize : option (Z -> string -> string -> option (option Z))).
(** Whether msf makes an empty broadcast. *)
Context (broadcast_ok : bool).

(** A session made by the connection. *)
Record session := mkSession { sess_path : string; sess_open : bool }.

Record conn := mkConn {
  sess : option nat;
  sessions : list session;
  tracks : gmap Z (nat * rtspTrack);
  sdp : option (list SDPMedia);
  cut : option Z;
  stream : string;
  closed : bool;
  returned : bool
}.

Definition start (bytes : string) : conn := mkConn None [] ∅ None None bytes false false.

Inductive output :=
| Opened (id : nat) (path : string) | Closed (id : nat)
| Pushed (id : nat) (call : session_call)
| Answered (r : Response).

Definition pushes (id : nat) (calls : list session_call) : list output := Pushed id <$> calls.

(** [sess.Close()], for a session that is not nil. *)
Definition close_session (o : option nat) (l : list session) : list session :=
  match o with Some id => alter (fun s => mkSession s.(sess_path) false) id l | None => l end.
Definition closed_output (o : option nat) : list output := match o with Some id => [Closed id] | None => [] end.

(** [NewSession]: an announced path begins with a slash. *)
Definition NewSession_ok (path : string) : bool := HasPrefix path "/" && broadcast_ok.

Definition set_header (k v : string) (r : Response) : Response :=
  mkResponse r.(RespProto) r.(StatusCode) r.(Status) (Header_Set k v r.(RespHeader)).
Definition set_code (code : Z) (r : Response) : Response := mkResponse r.(RespProto) code r.(Status) r.(RespHeader).

(** The answer a request starts with. *)
Definition first_response (r : Request) : Response :=
  let cseq := Header_Get "CSeq" r.(ReqHeader) in
  if bool_decide (cseq = "") then NewResponse 200 else set_header "CSeq" cseq (NewResponse 200).

(** The publish check of an ANNOUNCE: what the permission's end is, if it is given. *)
Definition permission (now : Z) (jwt path : string) (c : conn) : option (option Z) :=
  match Authorize with Some f => f now jwt path | None => Some c.(cut) end.

(** An ANNOUNCE with its body read. *)
Definition announce (now : Z) (r : Request) (body : string) (c : conn) : conn * Z * list output :=
  let path := url_Path r.(URL) in
  let path := if bool_decide (path = "") then "/live/stream" else path in
  match permission now (url_Query_Get "jwt" r.(URL)) path c with
  | None => (c, 401, [])
  | Some lapses =>
      let l := close_session c.(sess) c.(sessions) in
      if NewSession_ok path then
        (mkConn (Some (length l)) (l ++ [mkSession path true]) c.(tracks) (Some (ParseSDP body)) lapses c.(stream) c.(closed) c.(returned),
         200, closed_output c.(sess) ++ [Opened (length l) path])
      else
        (mkConn None l c.(tracks) (Some (ParseSDP body)) lapses c.(stream) c.(closed) c.(returned), 500, closed_output c.(sess))
  end.

(** The body of an ANNOUNCE; a closed connection fails the read of one that is
    not there whole. *)
Definition handle_announce (now : Z) (r : Request) (window : option Z) (c : conn) : conn * Z * list output :=
  match window with
  | None => (c, 400, [])
  | Some n =>
      let '(body, rest) := read_body window c.(stream) in
      let c := mkConn c.(sess) c.(sessions) c.(tracks) c.(sdp) c.(cut) rest c.(closed) c.(returned) in
      if c.(closed) && (slen body <? n) then (c, 400, []) else announce now r body c
  end.

Definition names_media (u : string) (m : SDPMedia) : bool :=
  negb (bool_decide (m.(Control) = "")) && (Contains u m.(Control) || bool_decide (m.(Control) = "*")).

(** The track of a channel, from the media its SETUP names. *)
Definition setup_track (ch : Z) (id : nat) (media : option SDPMedia) (c : conn) : result rtsp_error (conn * list output) :=
  '(t, calls) ← newRTSPTrackFromMedia media;
  Ok (mkConn c.(sess) c.(sessions) (<[ch := (id, t)]> c.(tracks)) c.(sdp) c.(cut) c.(stream) c.(closed) c.(returned), pushes id calls).

Definition setup (r : Request) (resp : Response) (c : conn) : result rtsp_error (conn * Response * list output) :=
  match c.(sdp), c.(sess) with
  | Some medias, Some id =>
      let transport := Header_Get "Transport" r.(ReqHeader) in
      if negb (Contains transport "interleaved") then Ok (c, set_code 461 resp, [])
      else match parseInterleavedChannels transport with
      | None => Ok (c, set_code 400 resp, [])
      | Some (ch, _) =>
          '(c, out) ← setup_track ch id (List.find (names_media (url_String r.(URL))) medias) c;
          Ok (c, set_header "Session" "12345678" (set_header "Transport" transport resp), out)
      end
  | _, _ => Ok (c, set_code 400 resp, [])
  end.

(** The switch on the method: the connection, the answer, what it did. *)
Definition serve_request (now : Z) (r : Request) (window : option Z) (c : conn) : result rtsp_error (conn * Response * list output) :=
  let resp := first_response r in
  if bool_decide (r.(Method) = "OPTIONS") then
    Ok (c, set_header "Public" "DESCRIBE, SETUP, TEARDOWN, PLAY, PAUSE, ANNOUNCE, RECORD" resp, [])
  else if bool_decide (r.(Method) = "ANNOUNCE") then
    let '(c, code, out) := handle_announce now r window c in Ok (c, set_code code resp, out)
  else if bool_decide (r.(Method) = "SETUP") then setup r resp c
  else if bool_decide (r.(Method) = "RECORD") || bool_decide (r.(Method) = "TEARDOWN") then Ok (c, resp, [])
  else Ok (c, set_code 405 resp, []).

(** What the loop's deferred calls leave. *)
Definition finish (c : conn) : conn * list output :=
  (mkConn None (close_session c.(sess) c.(sessions)) c.(tracks) c.(sdp) None c.(stream) true true, closed_output c.(sess)).

Definition set_stream (s : string) (c : conn) : conn := mkConn c.(sess) c.(sessions) c.(tracks) c.(sdp) c.(cut) s c.(closed) c.(returned).

Definition serve_frame (f : InterleavedFrame) (c : conn) : result rtsp_error (conn * list output) :=
  match c.(tracks) !! f.(Channel) with
  | Some (id, t) =>
      '(t, calls) ← handleFrame f.(FramePayload) t;
      Ok (mkConn c.(sess) c.(sessions) (<[f.(Channel) := (id, t)]> c.(tracks)) c.(sdp) c.(cut) c.(stream) c.(closed) c.(returned), pushes id calls)
  | None => Ok (c, [])
  end.

(** A round of the loop; [written] is whether an open connection takes the answer. *)
Definition serve_round (now : Z) (written : bool) (c : conn) : result rtsp_error (conn * list output) :=
  match Conn_ReadRequest c.(stream) with
  | Err _ => Ok (finish c)
  | Ok (inr f, s) => serve_frame f (set_stream s c)
  | Ok (inl (r, window), s) =>
      '(c, resp, out) ← serve_request now r window (set_stream s c);
      let sent := if c.(closed) || negb written then [] else [Answered resp] in
      if bool_decide (r.(Method) = "TEARDOWN") || c.(closed) || negb written
      then let '(c, out') := finish c in Ok (c, out ++ sent ++ out')
      else Ok (c, out ++ sent)
  end.

(** What happens to a connection: a round at a time; the timer, with the bytes the
    reader has buffered; the server's shutdown. *)
Inductive event := Round (now : Z) (written : bool) | Fires (now : Z) (buffered : nat) | Shutdown (buffered : nat).

Definition close_conn (buffered : nat) (c : conn) : conn :=
  mkConn c.(sess) c.(sessions) c.(tracks) c.(sdp) c.(cut) (cut_at buffered c.(stream)).1 true c.(returned).

Definition step (e : event) (c : conn) : result rtsp_error (conn * list output) :=
  if c.(returned) then Ok (c, [])
  else match e with
  | Round now written => serve_round now written c
  | Fires now buffered =>
      match c.(cut) with Some due => if due <=? now then Ok (close_conn buffered c, []) else Ok (c, []) | None => Ok (c, []) end
  | Shutdown buffered => Ok (close_conn buffered c, [])
  end.

(** A run, with the state each event finds. *)
Fixpoint run (es : list event) (c : conn) : result rtsp_error (conn * list output) :=
  match es with
  | [] => Ok (c, [])
  | e :: es => '(c, out) ← step e c; '(c, outs) ← run es c; Ok (c, out ++ outs)
  end.

(** ** What holds of a connection *)

(** Its permission: the session it publishes on was opened by an ANNOUNCE the check
    accepted, and the timer is the one of that permission. *)
Definition permitted (now : Z) (c : conn) : Prop :=
  forall f id, Authorize = Some f -> c.(sess) = Some id ->
  exists t jwt s, t <= now /\ c.(sessions) !! id = Some s /\ f t jwt s.(sess_path) = Some c.(cut).

Record conn_inv (now : Z) (c : conn) : Prop := {
  i_tracks : map_Forall (fun _ x => (x.1 < length c.(sessions))%nat) c.(tracks);
  i_sess : forall id, c.(sess) = Some id -> (id < length c.(sessions))%nat;
  i_only : forall id s, c.(sessions) !! id = Some s -> s.(sess_open) = true -> c.(sess) = Some id;
  i_permitted : permitted now c;
  i_returned : c.(returned) = true -> c.(sess) = None
}.

Lemma start_inv now bytes : conn_inv now (start bytes).
Proof. split; cbn; [apply map_Forall_empty|done|done|by intros|done]. Qed.

Lemma inv_later now now' c : now <= now' -> conn_inv now c -> conn_inv now' c.
Proof.
  intros Hle [H1 H2 H3 H4 H5]. split; try done. intros f id Hf Hid. destruct (H4 f id Hf Hid) as (t & jwt & s & Ht & ?). exists t, jwt, s. split; [lia|done].
Qed.

Lemma length_close_session o l : length (close_session o l) = length l.
Proof. destruct o; [apply length_alter|done]. Qed.

Lemma close_session_open o l id s :
  (forall id s, l !! id = Some s -> s.(sess_open) = true -> o = Some id) -> close_session o l !! id = Some s -> s.(sess_open) = false.
Proof.
  intros Ho. destruct o as [i|]; cbn.
  - destruct (decide (i = id)) as [->|Hne].
    + rewrite list_lookup_alter_eq. destruct (l !! id); [|done]. by intros [= <-].
    + rewrite list_lookup_alter_ne by done. intros Hl. destruct (sess_open s) eqn:He; [|done]. specialize (Ho _ _ Hl He). congruence.
  - intros Hl. destruct (sess_open s) eqn:He; [|done]. by specialize (Ho _ _ Hl He).
Qed.

(** What changes neither the session nor the permission. *)
Lemma inv_same now c c' :
  conn_inv now c -> c'.(sess) = c.(sess) -> c'.(sessions) = c.(sessions) -> c'.(cut) = c.(cut) -> c'.(returned) = c.(returned) ->
  map_Forall (fun _ x => (x.1 < length c.(sessions))%nat) c'.(tracks) -> conn_inv now c'.
Proof.
  intros [H1 H2 H3 H4 H5] E1 E2 E3 E4 Ht. split; unfold permitted; rewrite ?E1, ?E2, ?E3, ?E4; done.
Qed.

Lemma inv_stream now s c : conn_inv now c -> conn_inv now (set_stream s c).
Proof. intros H. eapply inv_same; [exact H|done..|apply H]. Qed.

Lemma inv_close now k c : conn_inv now c -> conn_inv now (close_conn k c).
Proof. intros H. eapply inv_same; [exact H|done..|apply H]. Qed.

Lemma announced_inv now r body c : conn_inv now c -> c.(returned) = false -> conn_inv now (announce now r body c).1.1.
Proof.
  intros Hc Hret. pose proof Hc as [H1 H2 H3 H4 H5]. unfold announce. set (path := if bool_decide _ then _ else _).
  destruct (permission now _ path c) as [lapses|] eqn:Hp; [|done].
  assert (Ht : map_Forall (fun _ x => (x.1 < S (length c.(sessions)))%nat) c.(tracks)) by (eapply map_Forall_impl; [exact H1|]; cbn; lia).
  destruct (NewSession_ok path); cbn [fst].
  - split; cbn.
    + rewrite length_app, length_close_session. cbn. by rewrite Nat.add_1_r.
    + intros id [= <-]. rewrite length_app. cbn. lia.
    + intros id s [Hl|[-> _]]%lookup_snoc_Some Ho; [|done]. destruct Hl as [_ Hl]. apply close_session_open in Hl; [|done]. congruence.
    + intros f id Hf [= <-]. cbn. exists now, (url_Query_Get "jwt" r.(URL)), (mkSession path true). split; [lia|]. split.
      * by rewrite lookup_app_r, Nat.sub_diag by done.
      * cbn. unfold permission in Hp. by rewrite Hf in Hp.
    + congruence.
  - split; cbn; [by rewrite length_close_session|done| |by intros f id|done].
    intros id s Hl Ho. apply close_session_open in Hl; [|done]. congruence.
Qed.

Lemma finish_inv now c : conn_inv now c -> conn_inv now (finish c).1.
Proof.
  intros [H1 H2 H3 H4 H5]. split; cbn; [by rewrite length_close_session|done| |by intros f id|done].
  intros id s Hl Ho. apply close_session_open in Hl; [|done]. congruence.
Qed.

(** A new track, or a track in its new state, belongs to a session of the
    connection. *)
Lemma inv_track now c ch id t :
  conn_inv now c -> (id < length c.(sessions))%nat ->
  conn_inv now (mkConn c.(sess) c.(sessions) (<[ch := (id, t)]> c.(tracks)) c.(sdp) c.(cut) c.(stream) c.(closed) c.(returned)).
Proof. intros H Hid. eapply inv_same; [exact H|done..|]. apply map_Forall_insert_2; [done|apply H]. Qed.

Lemma serve_request_inv now r window c c' resp out :
  conn_inv now c -> c.(returned) = false -> serve_request now r window c = Ok (c', resp, out) ->
  conn_inv now c' /\ c'.(returned) = false /\ c'.(closed) = c.(closed) /\
  Forall (fun o => match o with Pushed id _ => c'.(sess) = Some id /\ c'.(cut) = c.(cut) | _ => True end) out.
Proof.
  intros Hc Hr. unfold serve_request. case_bool_decide; [by intros [= <- <- <-]|]. case_bool_decide.
  - unfold handle_announce. destruct window as [n|]; [|by intros [= <- <- <-]]. destruct (read_body _ _) as [body rest].
    set (c1 := mkConn _ _ _ _ _ rest _ _). assert (conn_inv now c1 /\ c1.(returned) = false) as [H1 Hr1] by (split; [by apply (inv_stream now rest)|done]).
    destruct (closed c1 && (slen body <? n)); [by intros [= <- <- <-]|]. pose proof (announced_inv now r body c1 H1 Hr1) as Ha.
    destruct (announce now r body c1) as [[c2 code] o] eqn:He. intros [= <- <- <-]. split; [done|]. unfold announce in He.
    destruct (permission _ _ _ c1); [|injection He as <- _ <-; done]. destruct (NewSession_ok _); injection He as <- _ <-; cbn.
    + split; [done|]. split; [done|]. apply Forall_app. split; [destruct (sess c); by repeat constructor|]. by repeat constructor.
    + split; [done|]. split; [done|]. destruct (sess c); repeat constructor.
  - case_bool_decide; [|case_match; by intros [= <- <- <-]]. unfold setup. destruct (sdp c) as [medias|]; [|by intros [= <- <- <-]].
    destruct (sess c) as [id|] eqn:Hs; [|by intros [= <- <- <-]]. destruct (negb _); [by intros [= <- <- <-]|].
    destruct (parseInterleavedChannels _) as [[ch ?]|]; [|by intros [= <- <- <-]]. unfold setup_track.
    destruct (newRTSPTrackFromMedia _) as [[t calls]|]; cbn; [|done]. intros [= <- <- <-]. split; [|split; [done|split; [done|]]].
    + apply inv_track; [done|]. by apply (i_sess now c Hc).
    + cbn. unfold pushes. apply Forall_fmap, Forall_true. done.
Qed.

Lemma serve_frame_inv now f c c' out :
  conn_inv now c -> serve_frame f c = Ok (c', out) ->
  conn_inv now c' /\ c'.(returned) = c.(returned) /\ c'.(closed) = c.(closed) /\ c'.(cut) = c.(cut) /\ c'.(stream) = c.(stream) /\
  c'.(sessions) = c.(sessions) /\ c'.(sess) = c.(sess) /\
  Forall (fun o => match o with Pushed id _ => (id < length c.(sessions))%nat | _ => False end) out.
Proof.
  intros Hc. unfold serve_frame. destruct (tracks c !! _) as [[id t]|] eqn:Ht; [|intros [= <- <-]; by repeat split_and!].
  assert (Hid : (id < length c.(sessions))%nat) by apply (i_tracks now c Hc _ _ Ht).
  destruct (handleFrame _ t) as [[t' calls]|]; cbn; [|done]. intros [= <- <-]. split; [by apply inv_track|].
  do 6 (split; [done|]). unfold pushes. apply Forall_fmap, Forall_true. done.
Qed.

Lemma round_inv now w c c' out :
  conn_inv now c -> c.(returned) = false -> serve_round now w c = Ok (c', out) -> conn_inv now c'.
Proof.
  intros Hc Hr. unfold serve_round. destruct (Conn_ReadRequest c.(stream)) as [[[[r window]|f] s]|e].
  - destruct (serve_request now r window (set_stream s c)) as [[[c1 resp] o]|] eqn:He; cbn; [|done].
    apply serve_request_inv in He as (H1 & H2 & _); [|by apply inv_stream|done]. case_match; intros [= <- <-]; [by apply finish_inv|done].
  - intros H. by apply serve_frame_inv with (now := now) in H as [H _]; [|apply inv_stream].
  - intros [= <- <-]. by apply finish_inv.
Qed.

Definition event_time (last : Z) (e : event) : Z := match e with Round now _ | Fires now _ => now | Shutdown _ => last end.

Lemma event_inv last e c c' out :
  conn_inv last c -> last <= event_time last e -> step e c = Ok (c', out) -> conn_inv (event_time last e) c'.
Proof.
  intros Hc Hle. apply (inv_later _ _ _ Hle) in Hc. unfold step. destruct (returned c) eqn:Hr; [by intros [= <- <-]|]. destruct e as [now w|now k|k]; cbn in *.
  - by apply round_inv.
  - destruct (cut c) as [due|]; [|by intros [= <- <-]]. case_match; intros [= <- <-]; [by apply inv_close|done].
  - intros [= <- <-]. by apply inv_close.
Qed.

(** A run in time: the clock does not go back, and the timer fires by the time it
    is due, before a serve_round that comes later. *)
Fixpoint timely (last : Z) (es : list event) (c : conn) : Prop :=
  match es with
  | [] => True
  | e :: es =>
      last <= event_time last e /\
      (forall now w, e = Round now w -> c.(closed) = false -> forall due, c.(cut) = Some due -> now < due) /\
      (forall c' out, step e c = Ok (c', out) -> timely (event_time last e) es c')
  end.

Lemma timely_app last es es' c0 c out :
  conn_inv last c0 -> timely last (es ++ es') c0 -> run es c0 = Ok (c, out) -> exists now, last <= now /\ conn_inv now c /\ timely now es' c.
Proof.
  revert last c0 out. induction es as [|e es IH]; intros last c0 out Hc; cbn [app run timely].
  - intros Ht [= <- <-]. exists last. split; [lia|done].
  - intros (Hle & _ & Ht). destruct (step e c0) as [[c1 o]|] eqn:He; cbn [mbind result_bind]; [|done]. destruct (run es c1) as [[c2 o2]|] eqn:Hrun; cbn [mbind result_bind]; [|done].
    intros [= <- <-]. apply (event_inv last) in He as H1; [|done..]. destruct (IH _ _ _ H1 (Ht _ _ eq_refl) Hrun) as (now & Hn & ?).
    exists now. split; [lia|done].
Qed.

Lemma run_inv last es c c' out :
  conn_inv last c -> timely last es c -> run es c = Ok (c', out) -> exists now, last <= now /\ conn_inv now c'.
Proof.
  intros Hc Ht Hr. rewrite <- (app_nil_r es) in Ht. destruct (timely_app _ _ _ _ _ _ Hc Ht Hr) as (now & ? & ? & _). by exists now.
Qed.

(** What a push at a time is allowed to be: to a session that is over, or to one
    whose permission was given and lasts. *)
Definition push_ok (now : Z) (f : Z -> string -> string -> option (option Z)) (c c' : conn) (id : nat) : Prop :=
  exists s, c'.(sessions) !! id = Some s /\
    (s.(sess_open) = false \/
     exists t jwt lapses, t <= now /\ f t jwt s.(sess_path) = Some lapses /\ (c.(closed) = false -> forall due, lapses = Some due -> now < due)).

Lemma push_ok_inv now f c c' id :
  Authorize = Some f -> conn_inv now c' -> c'.(cut) = c.(cut) -> (id < length c'.(sessions))%nat ->
  (c.(closed) = false -> forall due, c.(cut) = Some due -> now < due) -> push_ok now f c c' id.
Proof.
  intros Hf Hc Hcut Hid Htime. apply lookup_lt_is_Some in Hid as [s Hs]. exists s. split; [done|]. destruct (sess_open s) eqn:Ho; [right|by left].
  pose proof (i_only now c' Hc _ _ Hs Ho) as Hsess. destruct (i_permitted now c' Hc f id Hf Hsess) as (t & jwt & s' & Ht & Hl & Hp).
  rewrite Hs in Hl. injection Hl as <-. exists t, jwt, (cut c'). split; [done|]. split; [done|]. by rewrite Hcut.
Qed.

Lemma push_ok_finish now f c c' id :
  conn_inv now c' -> c'.(sess) = Some id -> push_ok now f c (finish c').1 id.
Proof.
  intros Hc Hs. pose proof (i_sess now c' Hc id Hs) as Hid.
  assert (exists s, (finish c').1.(sessions) !! id = Some s) as [s Hl] by (apply lookup_lt_is_Some; cbn; by rewrite length_close_session).
  exists s. split; [done|]. left. cbn in Hl. by apply close_session_open in Hl; [|apply (i_only now c' Hc)].
Qed.

(** C30: Media reaches viewers only under a permission. Whatever a publisher
    sends, whenever its ANNOUNCEs are accepted, refused or fail, every call a serve_round
    makes on a session is on one that is over, or on one that an ANNOUNCE opened
    with a token the check accepted for that session's path; and while the
    connection is open, before that permission lapses. *)
Theorem published_while_permitted f bytes last es c out now w c' o :
  Authorize = Some f -> timely last (es ++ [Round now w]) (start bytes) ->
  run es (start bytes) = Ok (c, out) -> step (Round now w) c = Ok (c', o) ->
  Forall (fun x => match x with Pushed id _ => push_ok now f c c' id | _ => True end) o.
Proof.
  intros Hf Ht Hrun Hstep. assert (Hinv : conn_inv now c /\ (c.(closed) = false -> forall due, c.(cut) = Some due -> now < due)).
  { destruct (timely_app _ _ _ _ _ _ (start_inv last bytes) Ht Hrun) as (last' & _ & Hc & Hle & Hd & _). split; [by eapply inv_later|]. by apply (Hd now w). }
  destruct Hinv as [Hc Hd]. unfold step in Hstep. destruct (returned c) eqn:Hret; [by injection Hstep as <- <-|].
  unfold serve_round in Hstep. destruct (Conn_ReadRequest c.(stream)) as [[[[r window]|fr] s]|e].
  - destruct (serve_request now r window (set_stream s c)) as [[[c1 resp] o1]|] eqn:He; cbn in Hstep; [|done].
    apply serve_request_inv in He as (H1 & _ & Hcl & Ho1); [|by apply inv_stream|done]. cbn in Hcl, Ho1.
    assert (Hsent : forall c', Forall (fun x => match x with Pushed id _ => push_ok now f c c' id | _ => True end)
      (if closed c1 || negb w then [] else [Answered resp])) by (intros; destruct (closed c1 || negb w); by repeat constructor).
    destruct (_ || negb w) in Hstep; injection Hstep as <- <-; rewrite ?Forall_app; split; [|split; [apply Hsent|destruct (sess c1); repeat constructor]| |apply Hsent].
    + eapply Forall_impl; [exact Ho1|]. intros [] Hx; try done. apply push_ok_finish; [done|by destruct Hx].
    + eapply Forall_impl; [exact Ho1|]. intros [] Hx; try done. destruct Hx as [Hx Hcut]. apply push_ok_inv; [done..|by apply (i_sess now c1 H1)|done].
  - apply (serve_frame_inv now) in Hstep as (H1 & _ & _ & H2 & _ & H3 & _ & Ho); [|by apply inv_stream].
    eapply Forall_impl; [exact Ho|]. intros [] Hx; try done. apply push_ok_inv; [done..|by rewrite H3|done].
  - injection Hstep as <- <-. destruct (sess c); repeat constructor.
Qed.

(** ** Ending *)

Lemma Conn_ReadRequest_shorter s x r : Conn_ReadRequest s = Ok (x, r) -> (String.length r < String.length s)%nat.
Proof.
  unfold Conn_ReadRequest. case_bool_decide; [done|]. case_match.
  - destruct (readInterleavedFrame s) as [[f s1]|] eqn:He; cbn; [|done]. intros [= _ <-]. by eapply readInterleavedFrame_shorter.
  - destruct (ReadRequest s) as [[[q n] s1]|] eqn:He; cbn; [|done]. intros [= _ <-]. by eapply ReadRequest_shorter.
Qed.

Lemma serve_request_stream now r window c c' resp out :
  serve_request now r window c = Ok (c', resp, out) -> (String.length c'.(stream) <= String.length c.(stream))%nat /\ c'.(closed) = c.(closed).
Proof.
  unfold serve_request. case_bool_decide; [by intros [= <- <- <-]|]. case_bool_decide.
  - unfold handle_announce. destruct window as [n|]; [|by intros [= <- <- <-]]. destruct (read_body _ _) as [body rest] eqn:Hb.
    assert (String.length rest <= String.length c.(stream))%nat as Hrest.
    { pose proof (cut_at_shorter (Z.to_nat n) c.(stream)) as Hs. unfold read_body in Hb. cbn in Hb. rewrite Hb in Hs. done. }
    destruct (_ && _); [by intros [= <- <- <-]|]. destruct (announce _ _ _ _) as [[c2 code] o] eqn:He. intros [= <- <- <-]. unfold announce in He.
    destruct (permission _ _ _ _); [|by injection He as <- _ _]. by destruct (NewSession_ok _); injection He as <- _ _.
  - case_bool_decide; [|case_match; by intros [= <- <- <-]]. unfold setup. destruct (sdp c); [|by intros [= <- <- <-]].
    destruct (sess c); [|by intros [= <- <- <-]]. destruct (negb _); [by intros [= <- <- <-]|].
    destruct (parseInterleavedChannels _) as [[ch ?]|]; [|by intros [= <- <- <-]]. unfold setup_track.
    destruct (newRTSPTrackFromMedia _) as [[t calls]|]; cbn; [|done]. by intros [= <- <- <-].
Qed.

(** A serve_round returns, or leaves less to read. *)
Lemma round_progress now w c c' out :
  serve_round now w c = Ok (c', out) -> c'.(returned) = true \/ ((String.length c'.(stream) < String.length c.(stream))%nat /\ c'.(closed) = c.(closed)).
Proof.
  unfold serve_round. destruct (Conn_ReadRequest c.(stream)) as [[[[r window]|fr] s]|e] eqn:Hr.
  - apply Conn_ReadRequest_shorter in Hr. destruct (serve_request _ _ _ _) as [[[c1 resp] o1]|] eqn:He; cbn; [|done].
    apply serve_request_stream in He as [Hs Hcl]. cbn in Hs, Hcl. destruct (_ || negb w); intros [= <- _]; [by left|right]. split; [lia|done].
  - apply Conn_ReadRequest_shorter in Hr. intros H. right. unfold serve_frame in H. destruct (tracks _ !! _) as [[id t]|]; [|by injection H as <- _].
    destruct (handleFrame _ t) as [[t' calls]|]; cbn in H; [|done]. by injection H as <- _.
  - intros [= <- _]. by left.
Qed.

Fixpoint rounds (es : list event) : nat := match es with [] => 0 | Round _ _ :: es => S (rounds es) | _ :: es => rounds es end.

Lemma returned_stays es c c' out : c.(returned) = true -> run es c = Ok (c', out) -> c' = c.
Proof.
  intros Hr. revert out. induction es as [|e es IH]; intros out; cbn [run]; [by intros [= <- _]|]. unfold step. rewrite Hr. cbn.
  destruct (run es c) as [[c2 o]|]; cbn; [|done]. intros [= <- _]. by eapply IH.
Qed.

(** However a serve_round ends a connection's reads, it ends within as many rounds as
    there are bytes, and then no session of the connection is announced. *)
Lemma rounds_end es c c' out :
  (String.length c.(stream) < rounds es)%nat -> run es c = Ok (c', out) -> c'.(returned) = true.
Proof.
  revert c out. induction es as [|e es IH]; intros c out; [cbn; lia|]. destruct (returned c) eqn:Hr; [intros _ H; by apply returned_stays in H as ->|].
  cbn [run]. destruct (step e c) as [[c1 o1]|] eqn:He; cbn [mbind result_bind]; [|done]. destruct (run es c1) as [[c2 o2]|] eqn:Hrun; cbn [mbind result_bind]; [|done].
  intros Hn [= <- _]. unfold step in He. rewrite Hr in He. destruct e as [now w|now k|k]; cbn [rounds] in Hn.
  - apply round_progress in He as [He|[He _]]; [by apply returned_stays in Hrun as ->|].
    eapply IH; [|done]. lia.
  - eapply IH; [|done]. destruct (cut c) as [due|]; [|by injection He as <- _]. case_match; injection He as <- _; [|done].
    cbn. pose proof (cut_at_split k c.(stream)) as Hs. destruct (cut_at k (stream c)) as [x y]. rewrite Hs, length_sapp in Hn. cbn. lia.
  - eapply IH; [|done]. injection He as <- _.
    cbn. pose proof (cut_at_split k c.(stream)) as Hs. destruct (cut_at k (stream c)) as [x y]. rewrite Hs, length_sapp in Hn. cbn. lia.
Qed.

Lemma length_cut_at k s : (String.length (cut_at k s).1 <= k)%nat.
Proof.
  revert s. induction k as [|k IH]; intros s; [done|]. destruct s as [|a s]; [cbn; lia|]. cbn. specialize (IH s). destruct (cut_at k s). cbn in *. lia.
Qed.

Definition silent (o : output) : Prop := match o with Answered _ => False | _ => True end.

(** A closed connection answers nothing more. *)
Lemma serve_request_silent now r window c c' resp out : serve_request now r window c = Ok (c', resp, out) -> Forall silent out.
Proof.
  unfold serve_request. case_bool_decide; [by intros [= <- <- <-]|]. case_bool_decide.
  - unfold handle_announce. destruct window as [n|]; [|by intros [= <- <- <-]]. destruct (read_body _ _) as [body rest].
    destruct (_ && _); [by intros [= <- <- <-]|]. destruct (announce _ _ _ _) as [[c2 code] o] eqn:He. intros [= <- <- <-]. unfold announce in He.
    destruct (permission _ _ _ _); [|by injection He as _ _ <-]. destruct (NewSession_ok _); injection He as _ _ <-; cbn; destruct (sess c); by repeat constructor.
  - case_bool_decide; [|case_match; by intros [= <- <- <-]]. unfold setup. destruct (sdp c); [|by intros [= <- <- <-]].
    destruct (sess c); [|by intros [= <- <- <-]]. destruct (negb _); [by intros [= <- <- <-]|].
    destruct (parseInterleavedChannels _) as [[ch ?]|]; [|by intros [= <- <- <-]]. unfold setup_track.
    destruct (newRTSPTrackFromMedia _) as [[t calls]|]; cbn; [|done]. intros [= <- <- <-]. apply Forall_fmap, Forall_true. done.
Qed.

Lemma step_closed e c c' out : c.(closed) = true -> step e c = Ok (c', out) -> c'.(closed) = true /\ Forall silent out.
Proof.
  intros Hcl. unfold step. destruct (returned c); [by intros [= <- <-]|]. destruct e as [now w|now k|k].
  - unfold serve_round. destruct (Conn_ReadRequest c.(stream)) as [[[[r window]|fr] s]|e].
    + destruct (serve_request _ _ _ _) as [[[c1 resp] o1]|] eqn:He; cbn; [|done]. pose proof (serve_request_silent _ _ _ _ _ _ _ He) as Ho.
      apply serve_request_stream in He as [_ Hc1]. cbn in Hc1. rewrite Hc1, Hcl, orb_true_r. cbn. intros [= <- <-]. split; [done|].
      apply Forall_app. split; [done|]. destruct (sess c1); repeat constructor.
    + unfold serve_frame. cbn. destruct (tracks c !! _) as [[id t]|]; [|by intros [= <- <-]].
      destruct (handleFrame _ t) as [[t' calls]|]; cbn; [|done]. intros [= <- <-]. split; [done|]. apply Forall_fmap, Forall_true. done.
    + intros [= <- <-]. split; [done|]. destruct (sess c); repeat constructor.
  - destruct (cut c); [case_match|]; by intros [= <- <-].
  - by intros [= <- <-].
Qed.

Lemma run_closed es c c' out : c.(closed) = true -> run es c = Ok (c', out) -> Forall silent out.
Proof.
  revert c out. induction es as [|e es IH]; intros c out Hc; cbn [run]; [by intros [= _ <-]|].
  destruct (step e c) as [[c1 o1]|] eqn:He; cbn [mbind result_bind]; [|done]. destruct (run es c1) as [[c2 o2]|] eqn:Hrun; cbn [mbind result_bind]; [|done].
  intros [= -> <-]. apply step_closed in He as [H1 H2]; [|done]. apply Forall_app. split; [done|by apply (IH c1 o2)].
Qed.

(** A lapsed permission ends the publishing. When the timer fires with k
    bytes in the reader's buffer, the connection ends within k + 1 rounds, answers
    nothing any more, and at its end announces no session. *)
Theorem lapse_ends_publishing last bytes es c out now k due es' c' out' :
  timely last (es ++ Fires now k :: es') (start bytes) -> run es (start bytes) = Ok (c, out) ->
  c.(returned) = false -> c.(cut) = Some due -> due <= now -> (k < rounds es')%nat -> run (Fires now k :: es') c = Ok (c', out') ->
  c'.(returned) = true /\ Forall (fun s => s.(sess_open) = false) c'.(sessions) /\ Forall silent out'.
Proof.
  intros Ht Hrun Hret Hcut Hdue Hk Hrun'. destruct (timely_app _ _ _ _ _ _ (start_inv last bytes) Ht Hrun) as (last' & _ & Hc & Ht').
  destruct (run_inv _ _ _ _ _ Hc Ht' Hrun') as (now' & _ & Hc'). cbn [run] in Hrun'. unfold step in Hrun'.
  rewrite Hret, Hcut, (proj2 (Z.leb_le _ _) Hdue) in Hrun'. cbn [mbind result_bind] in Hrun'.
  destruct (run es' (close_conn k c)) as [[c2 o2]|] eqn:He; cbn [mbind result_bind] in Hrun'; [|done]. injection Hrun' as <- <-.
  assert (Hr : returned c2 = true).
  { eapply rounds_end; [|done]. cbn. pose proof (length_cut_at k c.(stream)). lia. }
  split; [done|]. split; [|by eapply run_closed; [|done]]. apply Forall_lookup. intros id s Hs. destruct (sess_open s) eqn:Ho; [|done].
  pose proof (i_only now' c2 Hc' _ _ Hs Ho) as Hid. rewrite (i_returned now' c2 Hc' Hr) in Hid. done.
Qed.

(** ** Answering *)

Lemma Conn_ReadRequest_frame f rest : frame_ok f -> Conn_ReadRequest (frame_text f +:+ rest) = Ok (inr f, rest).
Proof.
  intros Hf. unfold Conn_ReadRequest. rewrite readInterleavedFrame_back by done. rewrite frame_text_head, sapp_cons, prefix_one, bool_decide_false by done.
  by rewrite bool_decide_true.
Qed.

Lemma Conn_ReadRequest_request r body rest :
  request_ok r body -> Conn_ReadRequest (request_text r body +:+ rest) = Ok (inl (r, slen <$> body), write_body body +:+ rest).
Proof.
  intros Hr. unfold Conn_ReadRequest. rewrite ReadRequest_back by done. destruct Hr as [(_ & Hne & Hd & _) _ _ _ _ _].
  assert (exists t, request_text r body +:+ rest = r.(Method) +:+ t) as [t ->] by (eexists; unfold request_text; rewrite sapp_assoc; reflexivity).
  rewrite bool_decide_false by (by destruct (Method r)). by rewrite prefix_char_false.
Qed.

(** What a publisher sends that keeps the connection in step: frames, and requests
    of which an ANNOUNCE alone has a body. *)
Definition publisher_ok (m : message) : Prop :=
  match m with
  | MFrame f => frame_ok f
  | MRequest r body => request_ok r body /\ r.(Method) <> "TEARDOWN" /\ (body = None \/ r.(Method) = "ANNOUNCE")
  | MResponse _ _ => False
  end.

Definition asked (m : message) : option string := match m with MRequest r _ => Some (Header_Get "CSeq" r.(ReqHeader)) | _ => None end.
Definition answered (o : output) : option string := match o with Answered r => Some (Header_Get "CSeq" r.(RespHeader)) | _ => None end.

Lemma Header_Get_Set_ne k k' v h : CanonicalKey k <> CanonicalKey k' -> Header_Get k (Header_Set k' v h) = Header_Get k h.
Proof. intros H. unfold Header_Get, Header_Set. by rewrite lookup_insert_ne. Qed.

Lemma first_response_cseq r : Header_Get "CSeq" (first_response r).(RespHeader) = Header_Get "CSeq" r.(ReqHeader).
Proof.
  unfold first_response. case_bool_decide as H; [rewrite H; done|]. unfold set_header, Header_Get at 1, Header_Set. cbn [RespHeader]. by rewrite lookup_insert_eq.
Qed.

Lemma silent_answered out : Forall silent out -> omap answered out = [].
Proof. induction 1 as [|o out Ho Hout IH]; [done|]. by destruct o. Qed.

(** The answer to a request carries its number, and an ANNOUNCE's body is read. *)
Lemma serve_request_answer now r body rest c c' resp out :
  c.(stream) = write_body body +:+ rest -> (body = None \/ r.(Method) = "ANNOUNCE") -> c.(closed) = false ->
  serve_request now r (slen <$> body) c = Ok (c', resp, out) ->
  Header_Get "CSeq" resp.(RespHeader) = Header_Get "CSeq" r.(ReqHeader) /\ c'.(stream) = rest /\ c'.(returned) = c.(returned).
Proof.
  intros Hs Hb Hcl. unfold serve_request. pose proof (first_response_cseq r) as Hq.
  case_bool_decide as Hm.
  { intros [= <- <- _]. destruct Hb as [-> |Hb]; [|congruence]. split; [|by rewrite Hs]. cbn [set_header RespHeader]. by rewrite Header_Get_Set_ne. }
  clear Hm. case_bool_decide as Hm.
  { unfold handle_announce. destruct body as [b|]; cbn [fmap option_fmap option_map]; [|intros [= <- <- _]; by rewrite Hs].
    assert (Hread : read_body (Some (slen b)) (stream c) = (b, rest)) by (rewrite Hs; apply (read_body_back (Some b) rest)). rewrite Hread.
    destruct (_ && _); [by intros [= <- <- _]|]. destruct (announce _ _ _ _) as [[c2 code] o] eqn:He. intros [= <- <- _]. split; [done|]. unfold announce in He.
    destruct (permission _ _ _ _); [|by injection He as <- _ _]. by destruct (NewSession_ok _); injection He as <- _ _. }
  destruct Hb as [-> |Hb]; [|congruence]. case_bool_decide; [|case_match; intros [= <- <- _]; by rewrite Hs].
  unfold setup. destruct (sdp c); [|intros [= <- <- _]; by rewrite Hs].
  destruct (sess c); [|intros [= <- <- _]; by rewrite Hs]. destruct (negb _); [intros [= <- <- _]; by rewrite Hs|].
  destruct (parseInterleavedChannels _) as [[ch ?]|]; [|intros [= <- <- _]; by rewrite Hs]. unfold setup_track.
  destruct (newRTSPTrackFromMedia _) as [[t calls]|]; cbn [mbind result_bind]; [|done]. intros [= <- <- _]. split; [|cbn; by rewrite Hs].
  cbn [set_header RespHeader]. by rewrite !Header_Get_Set_ne.
Qed.

Lemma round_in_step now m rest c c' out :
  publisher_ok m -> c.(stream) = message_text m +:+ rest -> c.(closed) = false -> c.(returned) = false -> serve_round now true c = Ok (c', out) ->
  c'.(stream) = rest /\ c'.(closed) = false /\ c'.(returned) = false /\ omap answered out = option_list (asked m).
Proof.
  intros Hm Hs Hcl Hret. unfold serve_round. rewrite Hs. destruct m as [f|r body|]; [| |done]; cbn [message_text].
  - rewrite Conn_ReadRequest_frame by done. unfold serve_frame. cbn. destruct (tracks c !! _) as [[id t]|]; [|by intros [= <- <-]].
    destruct (handleFrame _ t) as [[t' calls]|]; cbn [mbind result_bind]; [|done]. intros [= <- <-]. do 3 (split; [done|]).
    apply silent_answered, Forall_fmap, Forall_true. done.
  - destruct Hm as (Hr & Ht & Hb). rewrite Conn_ReadRequest_request by done.
    destruct (serve_request _ _ _ _) as [[[c1 resp] o]|] eqn:He; cbn [mbind result_bind]; [|done].
    pose proof (serve_request_silent _ _ _ _ _ _ _ He) as Ho. pose proof (serve_request_stream _ _ _ _ _ _ _ He) as [_ Hc1]. cbn in Hc1.
    apply (serve_request_answer now r body rest) in He as (H1 & H2 & H3); [|done..]. rewrite bool_decide_false, Hc1, Hcl by done. cbn [orb negb].
    intros [= <- <-]. split; [done|]. split; [congruence|]. split; [by rewrite H3|]. rewrite omap_app, silent_answered by done. cbn. by rewrite H1.
Qed.

(** The loop stays in step with a publisher. Requests and frames, however
    interleaved and whatever the requests ask, are each read as they were sent;
    every request is answered once, in order, under its own sequence number, and
    the connection goes on after the last. *)
Theorem publisher_in_step ms nows rest c c' out :
  Forall publisher_ok ms -> length nows = length ms ->
  c.(stream) = sapps (message_text <$> ms) +:+ rest -> c.(closed) = false -> c.(returned) = false ->
  run ((fun now => Round now true) <$> nows) c = Ok (c', out) ->
  c'.(stream) = rest /\ c'.(closed) = false /\ c'.(returned) = false /\ omap answered out = omap asked ms.
Proof.
  intros Hms. revert nows c out. induction Hms as [|m ms Hm Hms IH]; intros nows c out Hl Hs Hcl Hret.
  - destruct nows; [|done]. cbn. intros [= <- <-]. done.
  - destruct nows as [|now nows]; [done|]. cbn [fmap list_fmap run]. unfold step. rewrite Hret.
    destruct (serve_round now true c) as [[c1 o1]|] eqn:He; cbn [mbind result_bind]; [|done].
    cbn [fmap list_fmap sapps foldr] in Hs. rewrite sapp_assoc in Hs. destruct (round_in_step _ _ _ _ _ _ Hm Hs Hcl Hret He) as (H1 & H2 & H3 & H4).
    destruct (run _ c1) as [[c2 o2]|] eqn:Hrun; cbn [mbind result_bind]; [|done]. intros [= <- <-].
    injection Hl as Hl. destruct (IH nows c1 o2 Hl H1 H2 H3 Hrun) as (? & ? & ? & Ha). do 3 (split; [done|]). rewrite omap_app, H4, Ha. cbn.
    by destruct (asked m).
Qed.

(** [timely], decided. *)
Fixpoint timelyb (last : Z) (es : list event) (c : conn) : bool :=
  match es with
  | [] => true
  | e :: es =>
      (last <=? event_time last e) &&
      match e, c.(cut) with Round now _, Some due => c.(closed) || (now <? due) | _, _ => true end &&
      match step e c with Ok (c', _) => timelyb (event_time last e) es c' | Err _ => true end
  end.

Lemma timelyb_sound last es c : timelyb last es c = true -> timely last es c.
Proof.
  revert last c. induction es as [|e es IH]; intros last c; cbn [timelyb timely]; [done|]. intros H. bool_prop. split; [lia|]. split.
  - intros now w -> Hcl due Hd. rewrite Hd, Hcl in *. cbn in *. bool_prop. lia.
  - intros c' out He. rewrite He in *. by apply IH.
Qed.

End server.

(** ** Examples *)

(** A token for one path, until 100. *)
Definition ex_check (now : Z) (jwt path : string) : option (option Z) :=
  if bool_decide (jwt = "t") && bool_decide (path = "/live/cam") then Some (Some 100) else None.

Definition ex_sdp : string :=
  "v=0" +:+ crlf +:+ "m=video 0 RTP/AVP 96" +:+ crlf +:+ "a=rtpmap:96 H264/90000" +:+ crlf +:+ "a=control:trackID=0" +:+ crlf.

Definition ex_url (path query : string) : parts := mkParts "rtsp" None "gw" path query.
Definition ex_request (m : string) (u : parts) (h : fields) : Request := mkRequest (U := plain_urls) m u "RTSP/1.0" h.
Definition ex_announce (jwt : string) : message :=
  MRequest (ex_request "ANNOUNCE" (ex_url "/live/cam" ("jwt=" +:+ jwt)) {["Cseq" := ["1"]; "Content-Length" := ["72"]]}) (Some ex_sdp).
Definition ex_setup : message :=
  MRequest (ex_request "SETUP" (ex_url "/live/cam/trackID=0" "") {["Cseq" := ["2"]; "Transport" := ["RTP/AVP/TCP;unicast;interleaved=0-1"]]}) None.
Definition ex_record : message := MRequest (ex_request "RECORD" (ex_url "/live/cam" "") {["Cseq" := ["3"]]}) None.
Definition ex_media : message := MFrame (mkFrame 0 [128; 224; 0; 7; 0; 0; 0; 90; 0; 0; 0; 1; 101; 1; 2]).

Definition ex_msgs : list message := [ex_announce "t"; ex_setup; ex_record; ex_media].
Definition ex_bytes : string := sapps (message_text <$> ex_msgs).

Definition ex_run (es : list event) : result rtsp_error (conn * list output) := run (Some ex_check) true es (start ex_bytes).
Definition ex_at (es : list event) : conn * list output := match ex_run es with Ok x => x | Err _ => (start "", []) end.
Definition ex_three : list event := [Round 10 true; Round 11 true; Round 12 true].

Lemma ex_run_ok : ex_run ex_three = Ok (ex_at ex_three).
Proof. vm_compute. reflexivity. Qed.

Lemma ex_publishes :
  omap (fun o => match o with Answered r => Some r.(StatusCode) | _ => None end) (ex_at ex_three).2 = [200; 200; 200] /\
  snd <$> step (Some ex_check) true (Round 20 true) (ex_at ex_three).1 = Ok [Pushed 0 (PushVideo 0 [0; 0; 0; 3; 101; 1; 2] true)].
Proof. vm_compute. done. Qed.

Lemma ex_bound k : forallb (fun z => (0 <=? z) && (z <? 256)) k = true -> bytes_ok k.
Proof. intros H. apply Forall_forall. intros z Hz. apply list_elem_of_In in Hz. rewrite forallb_forall in H. specialize (H z Hz). unfold byte_ok. bool_prop. lia. Qed.

Lemma ex_msgs_ok : Forall publisher_ok ex_msgs.
Proof.
  apply Forall_cons; split; [|apply Forall_cons; split; [|apply Forall_cons; split; [|apply Forall_cons; split; [|apply Forall_nil_2]]]].
  - split; [|split; [done|by right]]. split; [done..| |done]. header_ex.
  - split; [|split; [done|by left]]. split; [done..| |done]. header_ex.
  - split; [|split; [done|by left]]. split; [done..| |done]. header_ex.
  - split; [unfold byte_ok; cbn; lia|by apply ex_bound|cbn; lia].
Qed.

Lemma publisher_in_step_witness :
  exists c' out, run (Some ex_check) true ((fun now => Round now true) <$> [10; 11; 12; 20]) (start ex_bytes) = Ok (c', out) /\
    c'.(stream) = "" /\ omap answered out = ["1"; "2"; "3"].
Proof.
  set (x := ex_at [Round 10 true; Round 11 true; Round 12 true; Round 20 true]).
  assert (Hr : run (Some ex_check) true ((fun now => Round now true) <$> [10; 11; 12; 20]) (start ex_bytes) = Ok (x.1, x.2)) by (vm_compute; reflexivity).
  exists x.1, x.2. split; [exact Hr|].
  destruct (publisher_in_step (Some ex_check) true ex_msgs [10; 11; 12; 20] "" (start ex_bytes) x.1 x.2 ex_msgs_ok) as (H1 & _ & _ & H2); [done|by rewrite sapp_nil_r|done|done|exact Hr|].
  split; [exact H1|]. exact H2.
Defined.

Lemma published_while_permitted_witness :
  exists c' o, step (Some ex_check) true (Round 20 true) (ex_at ex_three).1 = Ok (c', o) /\ o <> [] /\
    Forall (fun x => match x with Pushed id _ => push_ok 20 ex_check (ex_at ex_three).1 c' id | _ => True end) o.
Proof.
  set (x := match step (Some ex_check) true (Round 20 true) (ex_at ex_three).1 with Ok x => x | Err _ => (start "", []) end).
  assert (Hs : step (Some ex_check) true (Round 20 true) (ex_at ex_three).1 = Ok (x.1, x.2)) by (vm_compute; reflexivity).
  exists x.1, x.2. split; [exact Hs|]. split; [vm_compute; done|].
  apply (published_while_permitted (Some ex_check) true ex_check ex_bytes 0 ex_three (ex_at ex_three).1 (ex_at ex_three).2 20 true x.1 x.2 eq_refl); [|vm_compute; reflexivity|exact Hs].
  apply timelyb_sound. vm_compute. reflexivity.
Defined.

(** The token lapses at 100 with the frame still in the reader's buffer. *)
Lemma lapse_ends_publishing_witness :
  exists c' out', run (Some ex_check) true (Fires 100 19 :: replicate 20 (Round 101 true)) (ex_at ex_three).1 = Ok (c', out') /\
    Forall (fun s => s.(sess_open) = false) c'.(sessions).
Proof.
  pose (es := replicate 20 (Round 101 true)).
  set (x := match run (Some ex_check) true (Fires 100 19 :: es) (ex_at ex_three).1 with Ok x => x | Err _ => (start "", []) end).
  assert (Hr : run (Some ex_check) true (Fires 100 19 :: es) (ex_at ex_three).1 = Ok (x.1, x.2)) by (vm_compute; reflexivity).
  assert (Hclosed : returned x.1 = true /\ Forall (fun s => s.(sess_open) = false) x.1.(sessions) /\ Forall silent x.2).
  { apply (lapse_ends_publishing (Some ex_check) true 0 ex_bytes ex_three (ex_at ex_three).1 (ex_at ex_three).2 100 19 100 es x.1 x.2);
      [apply timelyb_sound; vm_compute; reflexivity|vm_compute; reflexivity|vm_compute; reflexivity|vm_compute; reflexivity|lia|vm_compute; lia|exact Hr]. }
  exists x.1, x.2. split; [exact Hr|]. apply Hclosed.
Defined.

(** A request's body other than an ANNOUNCE's is left on the connection, where its
    bytes are taken for the next message: a parameter that is set ends the
    publishing, and a request inside a body is served. *)
Definition ex_options (q : string) : message := MRequest (ex_request "OPTIONS" (ex_url "/live/cam" "") {["Cseq" := [q]]}) None.
Definition ex_set_parameter (body : string) : message :=
  MRequest (ex_request "SET_PARAMETER" (ex_url "/live/cam" "") {["Cseq" := ["7"]; "Content-Length" := [Itoa (slen body)]]}) (Some body).

Definition ex_answers (ms : list message) : result rtsp_error (list string * bool) :=
  match run (Some ex_check) true [Round 1 true; Round 2 true; Round 3 true] (start (sapps (message_text <$> ms))) with
  | Ok (c, out) => Ok (omap answered out, c.(returned))
  | Err e => Err e
  end.

Theorem unread_body_taken_for_a_request :
  ex_answers [ex_options "6"; ex_set_parameter ("volume: 3" +:+ crlf); ex_options "8"] = Ok (["6"; "7"], true) /\
  ex_answers [ex_options "6"; ex_set_parameter (message_text (ex_options "66")); ex_options "8"] = Ok (["6"; "7"; "66"], false).
Proof. vm_compute. done. Qed.

(** A second ANNOUNCE replaces the session and the description, but the channels
    stay with the tracks of the first: their frames go to the session that is
    over. *)
Theorem channels_outlive_their_session :
  match run (Some ex_check) true (ex_three ++ [Round 13 true; Round 14 true]) (start (sapps (message_text <$> [ex_announce "t"; ex_setup; ex_record; ex_announce "t"; ex_media]))) with
  | Ok (c, out) => c.(sess) = Some 1%nat /\ (sess_open <$> c.(sessions)) = [false; true] /\ last out = Some (Pushed 0 (PushVideo 0 [0; 0; 0; 3; 101; 1; 2] true))
  | Err _ => False
  end.
Proof. vm_compute. done. Qed.
