(* ===== verification/Cmaf.v ===== *)
(** * Cmaf: LOC frames and the fragments made of them

    The container a frame travels in (src/internal/cmaf/loc.go: [DecodeLOC],
    [EncodeLOC], [varint], [appendVarint]) and the packager that turns a group of
    frames into one CMAF fragment (src/internal/cmaf/cmaf.go: [NewPackager],
    [Fragment], [frameGaps], [describe], [vpxConfig]). The boxes of the MP4 file
    are written by a library (mp4ff): the class [Mp4] holds what the packager asks
    of it. *)
From S2P Require Import Prelude GoBytes GoStrings GoText Frames.

Open Scope Z_scope.

Abbreviation len l := (Z.of_nat (length l)).

(** ** The LOC container: loc.go *)

Inductive varint_error := NoBytes | NeedBytes (size have : Z).

Inductive loc_error := LocTimestamp (e : varint_error) | LocSize (e : varint_error) | LocShort (size held : Z).

Definition varint (b : bytes) : result varint_error (Z * Z) :=
  match b with
  | [] => Err NoBytes
  | b0 :: _ =>
      let size := Z.shiftl 1 (Z.shiftr b0 6) in
      guard_err (negb (len b <? size)) (NeedBytes size (len b));;
      Ok (if size =? 1 then (Z.land b0 0x3f, 1)
          else if size =? 2 then (Z.land (of_be (take 2 b)) 0x3fff, 2)
          else if size =? 4 then (Z.land (of_be (take 4 b)) 0x3fffffff, 4)
          else (Z.land (of_be (take 8 b)) 0x3fffffffffffffff, 8))
  end.

Definition appendVarint (b : bytes) (v : Z) : bytes :=
  let at_ k := byte (Z.shiftr v k) in
  if v <? Z.shiftl 1 6 then b ++ [byte v]
  else if v <? Z.shiftl 1 14 then b ++ [Z.lor (at_ 8) 0x40; byte v]
  else if v <? Z.shiftl 1 30 then b ++ [Z.lor (at_ 24) 0x80; at_ 16; at_ 8; byte v]
  else b ++ [Z.lor (at_ 56) 0xc0; at_ 48; at_ 40; at_ 32; at_ 24; at_ 16; at_ 8; byte v].

Definition DecodeLOC (b : bytes) : result loc_error (Z * bytes) :=
  '(timestamp, n) ← map_err LocTimestamp (varint b);
  let b := drop (Z.to_nat n) b in
  '(size, n) ← map_err LocSize (varint b);
  let b := drop (Z.to_nat n) b in
  guard_err (negb (len b <? size)) (LocShort size (len b));;
  Ok (timestamp, take (Z.to_nat size) b).

Definition EncodeLOC (timestamp : Z) (payload : bytes) : bytes :=
  appendVarint (appendVarint [] timestamp) (len payload) ++ payload.

(** ** The packager: cmaf.go *)

Definition Timescale : Z := 1000000.
Definition trackID : Z := 1.
Definition maxSampleDuration : Z := 10 * Timescale.

Record Frame := mkCmafFrame { FTimestamp : Z; Sync : bool; Data : bytes }.

Record VideoConfig := mkVideo { Codec : string; VWidth : Z; VHeight : Z; Description : bytes }.

(** [mp4.VppCBox], the fields the packager sets. *)
Record VppCBox := mkVppC {
  Profile : Z; Level : Z; BitDepth : Z; ChromaSubsampling : Z; ColourPrimaries : Z;
  TransferCharacteristics : Z; MatrixCoefficients : Z; VideoFullRangeFlag : Z }.

(** What is attached to the track: [SetVPxDescriptor] or [SetAVCDescriptor]. *)
Inductive descriptor :=
| VPxDescriptor (fourcc : string) (vpcc : VppCBox) (width height : Z)
| AVCDescriptor (fourcc : string) (sps pps : list bytes) (include_ps : bool).

(** A sample as it is handed to [AddFullSample]. *)
Record FullSample := mkSample { SyncFlags : bool; Dur : Z; Size : Z; DecodeTime : Z; SData : bytes }.

Inductive cmaf_error :=
| NoPictureSize | UnsupportedCodec | NoCodecFields | UnreadableField (i : nat)
| NoParameterSets | BadAVCRecord | DescribeFailed | EncodeInitFailed
| NoFrames | LastDuration (last : Z) | NotAdvancing (i : nat) | GapTooLong (i : nat)
| CreateFragmentFailed | EncodeFragmentFailed.

(** What the packager uses of mp4ff: the record of AVC parameter sets, whether a
    descriptor is accepted, the init segment of one track, and a fragment of a
    sequence number, a track and its samples. *)
Class Mp4 := {
  DecodeAVCDecConfRec : bytes -> option (list bytes * list bytes);
  SetDescriptor : descriptor -> bool;
  EncodeInit : Z -> string -> string -> descriptor -> option bytes;
  CreateFragment : Z -> Z -> bool;
  EncodeFragment : Z -> Z -> list FullSample -> option bytes
}.

Definition family (codec : string) : string :=
  if (String.length codec <? 4)%nat then codec else String.substring 0 4 codec.

(** [strconv.ParseUint(s, 10, 8)]. *)
Definition ParseUint8 (s : string) : option Z := v ← digits1 s; if v <=? 255 then Some v else None.

Definition vpx_field (parts : list string) (i : nat) : result cmaf_error Z :=
  of_option (UnreadableField i) (parts !! i ≫= ParseUint8).

(** The loop over the colour fields: field [i] when the string has one, else the
    default. *)
Definition colour (parts : list string) (i : nat) (default : Z) : result cmaf_error Z :=
  if (i <? length parts)%nat then vpx_field parts i else Ok default.

Definition vpxConfig (codec : string) : result cmaf_error VppCBox :=
  let parts := Split "." codec in
  guard_err (negb (length parts <? 4)%nat) NoCodecFields;;
  profile ← vpx_field parts 1;
  level ← vpx_field parts 2;
  bitDepth ← vpx_field parts 3;
  chroma ← colour parts 4 1;
  primaries ← colour parts 5 1;
  transfer ← colour parts 6 1;
  matrix ← colour parts 7 1;
  fullRange ← colour parts 8 0;
  Ok (mkVppC profile level bitDepth chroma primaries transfer matrix fullRange).

Section Packager.
Context `{Mp4}.

Definition avcParameterSets (description : bytes) : result cmaf_error (list bytes * list bytes) :=
  guard_err (negb (length description =? 0)%nat) NoParameterSets;;
  of_option BadAVCRecord (DecodeAVCDecConfRec description).

(** The sample description of the track, once the library accepts it. *)
Definition describe (cfg : VideoConfig) : result cmaf_error descriptor :=
  let f := family cfg.(Codec) in
  d ← (if bool_decide (f = "vp09" \/ f = "vp08") then
         vpcc ← vpxConfig cfg.(Codec); Ok (VPxDescriptor f vpcc cfg.(VWidth) cfg.(VHeight))
       else if bool_decide (f = "avc1" \/ f = "avc3") then
         '(sps, pps) ← avcParameterSets cfg.(Description); Ok (AVCDescriptor "avc1" sps pps true)
       else Err UnsupportedCodec);
  guard_err (SetDescriptor d) DescribeFailed;;
  Ok d.

(** [NewPackager]: a packager is its init segment. *)
Definition NewPackager (cfg : VideoConfig) : result cmaf_error bytes :=
  guard_err (negb ((cfg.(VWidth) =? 0) || (cfg.(VHeight) =? 0))) NoPictureSize;;
  d ← describe cfg;
  of_option EncodeInitFailed (EncodeInit Timescale "video" "und" d).

Fixpoint frameGaps (i : nat) (frames : list Frame) : result cmaf_error (list Z) :=
  match frames with
  | this :: ((next :: _) as rest) =>
      guard_err (negb (next.(FTimestamp) <=? this.(FTimestamp))) (NotAdvancing (S i));;
      let delta := next.(FTimestamp) - this.(FTimestamp) in
      guard_err (negb (maxSampleDuration <? delta)) (GapTooLong (S i));;
      gaps ← frameGaps (S i) rest;
      Ok (wrapu 32 delta :: gaps)
  | _ => Ok []
  end.

(** The samples of a fragment, [decodeTime] running on. *)
Fixpoint add_samples (decodeTime : Z) (frames : list Frame) (durations : list Z) : list FullSample :=
  match frames, durations with
  | f :: frames, d :: durations =>
      mkSample f.(Sync) d (wrapu 32 (len f.(Data))) decodeTime f.(Data)
      :: add_samples (wrapu 64 (decodeTime + d)) frames durations
  | _, _ => []
  end.

Definition Fragment (sequence : Z) (frames : list Frame) (decodeTime last : Z) : result cmaf_error (bytes * Z) :=
  guard_err (negb (length frames =? 0)%nat) NoFrames;;
  guard_err (negb ((last =? 0) || (maxSampleDuration <? last))) (LastDuration last);;
  gaps ← frameGaps 0 frames;
  let durations := gaps ++ [last] in
  let total := foldl (fun t d => wrapu 64 (t + d)) 0 durations in
  guard_err (CreateFragment sequence trackID) CreateFragmentFailed;;
  data ← of_option EncodeFragmentFailed (EncodeFragment sequence trackID (add_samples decodeTime frames durations));
  Ok (data, total).
End Packager.

(** ** The container read back *)

Lemma first_bits k n v rest :
  0 <= k < 4 -> n = 2 ^ k - 1 -> 0 <= v < 64 * 256 ^ n ->
  of_be (take (Z.to_nat (n + 1)) (Frames.varint k n v ++ rest)) = 64 * k * 256 ^ n + v /\
  len (Frames.varint k n v) = n + 1.
Proof.
  intros Hk Hn Hv. assert (Hn0 : 0 <= n) by (assert (2 ^ 0 <= 2 ^ k) by (apply Z.pow_le_mono_r; lia); lia).
  assert (Hl : len (Frames.varint k n v) = n + 1) by (unfold Frames.varint; cbn [length]; rewrite length_be; lia).
  split; [|done]. replace (Z.to_nat (n + 1)) with (length (Frames.varint k n v)) by lia. rewrite take_app_length.
  unfold Frames.varint. cbn [of_be]. rewrite length_be, Z2Nat.id, of_be_be, Z2Nat.id by lia.
  rewrite (Z.div_mod v (256 ^ n)) at 3; [ring|]. pose proof (Z.pow_pos_nonneg 256 n). lia.
Qed.

(** Masking off the two length bits leaves the value. *)
Lemma mask_value k n v :
  0 <= n -> 0 <= v < 64 * 256 ^ n -> Z.land (64 * k * 256 ^ n + v) (Z.ones (8 * n + 6)) = v.
Proof.
  intros Hn Hv. rewrite Z.land_ones by lia. replace (2 ^ (8 * n + 6)) with (64 * 256 ^ n).
  - replace (64 * k * 256 ^ n) with (k * (64 * 256 ^ n)) by ring. rewrite Z.add_comm, Z_mod_plus_full. by apply Z.mod_small.
  - rewrite Z.pow_add_r by lia. rewrite (Z.pow_mul_r 2 8 n) by lia. change (2 ^ 8) with 256. change (2 ^ 6) with 64. ring.
Qed.

Lemma varint_read k n v rest :
  0 <= k < 4 -> n = 2 ^ k - 1 -> 0 <= v < 64 * 256 ^ n -> varint (Frames.varint k n v ++ rest) = Ok (v, n + 1).
Proof.
  intros Hk Hn Hv. destruct (first_bits k n v rest Hk Hn Hv) as [Hb Hl].
  assert (Hn0 : 0 <= n) by (assert (2 ^ 0 <= 2 ^ k) by (apply Z.pow_le_mono_r; lia); lia).
  assert (Hp : 0 < 256 ^ n) by (apply Z.pow_pos_nonneg; lia).
  assert (Hx : 0 <= v / 256 ^ n < 64) by (split; [apply Z.div_pos; lia|apply Z.div_lt_upper_bound; lia]).
  pose proof (mask_value k n v Hn0 Hv) as Hm. destruct (first_byte k (v / 256 ^ n) Hk Hx) as (_ & Hs & Ha).
  set (w := Frames.varint k n v ++ rest) in *. assert (Hw : len w = n + 1 + len rest) by (subst w; rewrite length_app; lia).
  assert (He : w = (64 * k + v / 256 ^ n) :: be (Z.to_nat n) v ++ rest) by done. clearbody w. subst w.
  unfold varint. rewrite Hs, Z.shiftl_mul_pow2, Z.mul_1_l by lia. replace (2 ^ k) with (n + 1) by lia.
  destruct (Z.ltb_spec (len ((64 * k + v / 256 ^ n) :: be (Z.to_nat n) v ++ rest)) (n + 1)); [lia|]. cbn [negb]. rewrite guard_true by done.
  assert (Hcase : k = 0 /\ n = 0 \/ k = 1 /\ n = 1 \/ k = 2 /\ n = 3 \/ k = 3 /\ n = 7).
  { assert (Hc : k = 0 \/ k = 1 \/ k = 2 \/ k = 3) by lia. destruct Hc as [->|[->|[->| ->]]]; cbn in Hn; lia. }
  clear Hs Hn. f_equal. destruct Hcase as [[-> ->]|[[-> ->]|[[-> ->]|[-> ->]]]]; cbn [Z.eqb Pos.eqb Z.add Pos.add Pos.succ].
  - change (0x3f) with (63). rewrite Ha. f_equal. change (256 ^ 0) with 1. apply Z.div_1_r.
  - etransitivity; [|exact (f_equal (fun x => (x, 2)) Hm)]. by rewrite <- Hb.
  - etransitivity; [|exact (f_equal (fun x => (x, 4)) Hm)]. by rewrite <- Hb.
  - etransitivity; [|exact (f_equal (fun x => (x, 8)) Hm)]. by rewrite <- Hb.
Qed.

(** The two packages write varints alike. *)
Lemma appendVarint_frames b v : appendVarint b v = Frames.appendVarint b v.
Proof. unfold appendVarint, Frames.appendVarint. repeat case_match; try done; f_equal; by rewrite Z.lor_comm. Qed.

Lemma varint_append v rest : 0 <= v <= maxVarint ->
  varint (appendVarint [] v ++ rest) = Ok (v, len (appendVarint [] v)).
Proof.
  intros Hv. rewrite appendVarint_frames, appendVarint_class by done. cbn [app].
  pose proof (class_ok v Hv) as Hc. destruct (class v) as [k n]. destruct Hc as (Hk & Hn & Hb). cbn [fst snd].
  destruct (first_bits k n v [] Hk Hn Hb) as [_ Hl]. rewrite Hl. by apply varint_read.
Qed.

Lemma appendVarint_split b v : appendVarint b v = b ++ appendVarint [] v.
Proof. by rewrite !appendVarint_frames, appendVarint_app. Qed.

(** A LOC frame is read back as it was written, timestamp and payload, for
    every timestamp and size a QUIC varint carries; what follows the frame is
    left alone. *)
Theorem loc_round_trip ts payload rest :
  0 <= ts <= maxVarint -> len payload <= maxVarint -> DecodeLOC (EncodeLOC ts payload ++ rest) = Ok (ts, payload).
Proof.
  intros Ht Hp. unfold DecodeLOC, EncodeLOC. rewrite appendVarint_split, <- !app_assoc, varint_append by done. cbn [map_err mbind result_bind].
  rewrite !Nat2Z.id, drop_app_length, varint_append by lia. cbn [map_err mbind result_bind]. rewrite !Nat2Z.id, drop_app_length.
  rewrite guard_true by (rewrite length_app; apply negb_true_iff, Z.ltb_ge; lia). by rewrite take_app_length.
Qed.

Lemma varint_range b v n : bytes_ok b -> varint b = Ok (v, n) -> 0 <= v <= maxVarint /\ 1 <= n <= len b.
Proof.
  unfold varint. destruct b as [|b0 l]; [done|]. intros [H0 _]%Forall_cons (u & Hg & He)%bind_Ok. apply guard_err_Ok, negb_true_iff, Z.ltb_ge in Hg.
  assert (Hones : forall x m, 0 <= m <= 62 -> 0 <= Z.land x (Z.ones m) <= maxVarint).
  { intros x m Hm. rewrite Z.land_ones by lia. pose proof (Z.mod_pos_bound x (2 ^ m) ltac:(lia)).
    assert (2 ^ m <= 2 ^ 62) by (apply Z.pow_le_mono_r; lia). unfold maxVarint. lia. }
  change (0x3f) with (Z.ones 6) in He. change 0x3fff with (Z.ones 14) in He. change 0x3fffffff with (Z.ones 30) in He.
  change 0x3fffffffffffffff with (Z.ones 62) in He. unfold byte_ok in H0.
  assert (Hs : 0 <= Z.shiftr b0 6 < 4) by (rewrite Z.shiftr_div_pow2 by lia; change (2 ^ 6) with 64; Z.div_mod_to_equations; lia).
  assert (Hc : Z.shiftr b0 6 = 0 \/ Z.shiftr b0 6 = 1 \/ Z.shiftr b0 6 = 2 \/ Z.shiftr b0 6 = 3) by lia.
  destruct Hc as [E|[E|[E|E]]]; rewrite E in He, Hg;
    [change (Z.shiftl 1 0) with 1 in *|change (Z.shiftl 1 1) with 2 in *|change (Z.shiftl 1 2) with 4 in *|change (Z.shiftl 1 3) with 8 in *];
    cbn [Z.eqb Pos.eqb] in He; injection He as <- <-; (split; [apply Hones; lia|lia]).
Qed.

Lemma DecodeLOC_range b ts payload : bytes_ok b -> DecodeLOC b = Ok (ts, payload) -> 0 <= ts <= maxVarint.
Proof.
  unfold DecodeLOC. intros Hb ([t n] & Hv & H)%bind_Ok. apply map_err_Ok, varint_range in Hv as [Hv _]; [|done].
  apply bind_Ok in H as ([s m] & _ & H). apply bind_Ok in H as (u & _ & [= <- <-]). done.
Qed.

(** ** What a fragment covers *)

(** The distances between consecutive timestamps. *)
Fixpoint intervals (l : list Z) : list Z :=
  match l with a :: ((b :: _) as rest) => b - a :: intervals rest | _ => [] end.

(** A group can be measured: its timestamps advance, by at most ten seconds. *)
Definition paced (l : list Z) : Prop := Forall (fun d => 0 < d <= maxSampleDuration) (intervals l).

#[export] Instance paced_dec l : Decision (paced l).
Proof. unfold paced. apply _. Defined.

Definition zsum (l : list Z) : Z := foldr Z.add 0 l.

Lemma sum_app l1 l2 : zsum (l1 ++ l2) = zsum l1 + zsum l2.
Proof. unfold zsum. rewrite foldr_app. induction l1 as [|x l1 IH]; [done|]. cbn. rewrite IH. lia. Qed.

Lemma intervals_length l : length (intervals l) = Nat.pred (length l).
Proof. induction l as [|a [|b l] IH]; [done..|]. cbn [intervals length] in *. rewrite IH. done. Qed.

(** The intervals up to a timestamp add up to its distance from the first. *)
Lemma intervals_sum l i a t : head l = Some a -> l !! i = Some t -> zsum (take i (intervals l)) = t - a.
Proof.
  revert i a. induction l as [|x [|y l] IH]; intros i a Ha Ht; [done| |].
  - destruct i; [|done]. cbn in *. injection Ha as ->. injection Ht as ->. lia.
  - injection Ha as ->. destruct i as [|i].
    + injection Ht as ->. cbn. lia.
    + change (intervals (a :: y :: l)) with (y - a :: intervals (y :: l)). cbn [take]. change (zsum (?x :: ?l)) with (x + zsum l).
      rewrite (IH i y) by done. lia.
Qed.

Lemma intervals_lookup l i a b : l !! i = Some a -> l !! S i = Some b -> intervals l !! i = Some (b - a).
Proof.
  revert i. induction l as [|x [|y l] IH]; intros i Ha Hb; [done|by destruct i|]. destruct i as [|i].
  - injection Ha as ->. injection Hb as ->. done.
  - change (intervals (x :: y :: l)) with (y - x :: intervals (y :: l)). by apply IH.
Qed.

Lemma sum_nonneg l : Forall (fun d => 0 <= d) l -> 0 <= zsum l.
Proof. induction 1; cbn; [lia|]. unfold zsum in *. lia. Qed.

Lemma sum_take_le l i : Forall (fun d => 0 <= d) l -> zsum (take i l) <= zsum l.
Proof.
  intros Hl. rewrite <- (take_drop i l) at 2. rewrite sum_app. pose proof (sum_nonneg (drop i l) (Forall_drop _ _ _ Hl)). lia.
Qed.

(** [frameGaps] succeeds exactly on groups that can be measured. *)
Lemma frameGaps_spec i frames :
  (paced (FTimestamp <$> frames) /\ frameGaps i frames = Ok (intervals (FTimestamp <$> frames))) \/
  (~ paced (FTimestamp <$> frames) /\ exists e, frameGaps i frames = Err e).
Proof.
  revert i. induction frames as [|f [|g fs] IH]; intros i; [left; split; [constructor|done]..|].
  specialize (IH (S i)). set (rest := g :: fs) in *. unfold paced in *.
  change (intervals (FTimestamp <$> f :: rest)) with (FTimestamp g - FTimestamp f :: intervals (FTimestamp <$> rest)).
  assert (Hg : frameGaps i (f :: rest) =
    (guard_err (negb (FTimestamp g <=? FTimestamp f)) (NotAdvancing (S i));;
     guard_err (negb (maxSampleDuration <? FTimestamp g - FTimestamp f)) (GapTooLong (S i));;
     gaps ← frameGaps (S i) rest; Ok (wrapu 32 (FTimestamp g - FTimestamp f) :: gaps))) by done.
  rewrite Hg. clear Hg. destruct (Z.leb_spec (FTimestamp g) (FTimestamp f)).
  { right. split; [|by eexists]. intros [? _]%Forall_cons. lia. }
  cbn [negb]. rewrite guard_true by done. destruct (Z.ltb_spec maxSampleDuration (FTimestamp g - FTimestamp f)).
  { right. split; [|by eexists]. intros [? _]%Forall_cons. lia. }
  cbn [negb]. rewrite guard_true by done. destruct IH as [[Hp ->]|[Hp [e ->]]].
  - left. split; [constructor; [lia|done]|]. cbn [mbind result_bind].
    rewrite wrapu_id; [done|]. unfold in_u, maxSampleDuration, Timescale in *. lia.
  - right. split; [by intros [_ ?]%Forall_cons|]. by eexists.
Qed.

Lemma wrap_sum l t : 0 <= t -> Forall (fun d => 0 <= d) l -> t + zsum l < 2 ^ 64 -> foldl (fun t d => wrapu 64 (t + d)) t l = t + zsum l.
Proof.
  intros Ht Hl. revert t Ht. induction Hl as [|d l Hd Hl IH]; intros t Ht Hs; [cbn; lia|].
  change (zsum (d :: l)) with (d + zsum l) in *. pose proof (sum_nonneg l Hl). cbn beta in Hd. cbn [foldl]. rewrite wrapu_id by (unfold in_u; lia). rewrite IH; lia.
Qed.

Lemma add_samples_lookup t frames ds i :
  0 <= t -> Forall (fun d => 0 <= d) ds -> t + zsum ds < 2 ^ 64 ->
  add_samples t frames ds !! i =
    (f ← frames !! i; d ← ds !! i;
     Some (mkSample f.(Sync) d (wrapu 32 (len f.(Data))) (t + zsum (take i ds)) f.(Data))).
Proof.
  intros Ht Hds. revert t frames ds Ht Hds. induction i as [|i IH]; intros t [|f fs] [|d ds] Ht Hds Hs; try done.
  - cbn. by rewrite Z.add_0_r.
  - cbn. by destruct (fs !! i).
  - apply Forall_cons in Hds as [Hd Hds]. change (zsum (d :: ds)) with (d + zsum ds) in Hs. pose proof (sum_nonneg ds Hds). cbn beta in Hd.
    cbn [add_samples lookup list_lookup]. rewrite wrapu_id by (unfold in_u; lia). rewrite IH by (done || lia).
    change (zsum (take (S i) (d :: ds))) with (d + zsum (take i ds)). rewrite Z.add_assoc. done.
Qed.

Lemma paced_pos l : paced l -> Forall (fun d => 0 <= d) (intervals l).
Proof. intros Hp. eapply Forall_impl; [exact Hp|]. cbn. lia. Qed.

Lemma loc_round_trip_witness : DecodeLOC (EncodeLOC 151288809941952652 [1; 2; 3] ++ [9]) = Ok (151288809941952652, [1; 2; 3]).
Proof. apply (loc_round_trip 151288809941952652 [1; 2; 3] [9]); by vm_compute. Defined.

(** The codec strings of the package's documentation. *)
Lemma vpx_example :
  vpxConfig "vp09.00.10.08" = Ok (mkVppC 0 10 8 1 1 1 1 0) /\
  vpxConfig "vp09.02.31.10.02.09.16.09.01" = Ok (mkVppC 2 31 10 2 9 16 9 1) /\
  vpxConfig "vp09.00.10" = Err NoCodecFields /\ vpxConfig "vp09.00.10.256" = Err (UnreadableField 3).
Proof. vm_compute. done. Qed.
