(* ===== verification/Hls.v ===== *)
(** * Hls: groups stored and served

    How the HLS egress stores a group of LOC frames and serves it as a CMAF
    fragment (src/internal/hls/feed.go: [storedGroup], [groupInfo],
    [wallclockAt]; src/internal/hls/stream_handler.go: [fragment]), the feed of a
    track ([feedMedia], [feedAnnouncedTrack], [countingAppender]) over the
    ledger, and the gate that admits one feed to a broadcast
    ([broadcastGate.acquire]).

    The ledger is a dependency: a group's identity is the class [GroupIDs], the
    ledger's answers are arguments of the loops. *)
From S2P Require Import Prelude GoBytes Frames Cmaf.

Open Scope Z_scope.

(** ** The ledger's groups *)

Class GroupIDs := { GroupID : Type; NewGroupID : Z -> Z -> GroupID; Epoch : GroupID -> Z; Sequence : GroupID -> Z }.

(** [ledger.GroupInfo], the fields the egress sets and reads. *)
Record GroupInfo `{GroupIDs} := mkInfo {
  ID : GroupID; MediaTime : Z; Duration : Z; Wallclock : Z; ObjectCount : Z }.

Section Groups.
Context `{GroupIDs}.

(** [wallclockAt]: times are nanoseconds; the conversions to time.Duration and its
    product with a second wrap at 64 bits, as [Add] does. *)
Definition second : Z := 1000000000.
Definition wallclockAt (anchor mediaTime timescale : Z) : Z :=
  if timescale =? 0 then anchor
  else
    let seconds := Z.quot mediaTime timescale in
    let remainder := Z.rem mediaTime timescale in
    anchor + wraps 64 (seconds * second) + Z.quot (wraps 64 (remainder * second)) timescale.

Definition groupInfo (seq mediaTime durationUnits objectCount at_ : Z) : GroupInfo :=
  mkInfo _ (NewGroupID 0 seq) mediaTime durationUnits at_ objectCount.

(** ** [storedGroup] *)

Inductive store_error :=
| StoreSingle | StoreLOC (i : nat) (e : loc_error) | StoreNotAdvancing (i : nat) | StoreEncode (e : frame_error).

(** The loop over the frames: the first and the last timestamp. *)
Fixpoint measure (i : nat) (first prev : Z) (raw : list frame) : result store_error (Z * Z) :=
  match raw with
  | [] => Ok (first, prev)
  | f :: raw =>
      '(ts, _) ← map_err (StoreLOC i) (DecodeLOC f.(Body));
      if (i =? 0)%nat then measure (S i) ts ts raw
      else guard_err (negb (ts <=? prev)) (StoreNotAdvancing i);; measure (S i) first ts raw
  end.

Definition storedGroup (raw : list frame) : result store_error (bytes * Z) :=
  guard_err (negb (length raw <? 2)%nat) StoreSingle;;
  '(first, prev) ← measure 0 0 0 raw;
  let span := wrapu 64 (prev - first) in
  let last := wrapu 32 (span / wrapu 64 (len raw - 1)) in
  payload ← map_err StoreEncode (encodeFrames raw);
  Ok (payload, wraps 64 (wraps 64 span + last)).

(** ** [fragment] *)

Inductive frag_error :=
| FragFuel | FragMalformed | FragLOC (i : nat) (e : loc_error) | FragEmpty | FragDuration | FragCmaf (e : cmaf_error).

(** The loop over the stored frames; [malformed] is how the iterator ends.
    [FragFuel] stands for an iterator that does not end, and never happens
    ([Frames.allFrames_total]). *)
Fixpoint decode_frames (i : nat) (l : list frame) (malformed : bool) : result frag_error (list Frame) :=
  match l with
  | [] => guard_err (negb malformed) FragMalformed;; Ok []
  | f :: l =>
      '(ts, data) ← map_err (FragLOC i) (DecodeLOC f.(Body));
      rest ← decode_frames (S i) l malformed;
      Ok (mkCmafFrame ts (i =? 0)%nat data :: rest)
  end.

Definition MaxUint32 : Z := 2 ^ 32 - 1.

Definition fragment `{Mp4} (g : GroupInfo) (payload : bytes) : result frag_error bytes :=
  '(stored, malformed) ← of_option FragFuel (allFrames payload);
  frames ← decode_frames 0 stored malformed;
  match head frames, last frames with
  | Some f0, Some fn =>
      let span := wraps 64 (wrapu 64 (fn.(FTimestamp) - f0.(FTimestamp))) in
      let last := wraps 64 (g.(Duration) - span) in
      guard_err (negb ((last <=? 0) || (MaxUint32 <? last))) FragDuration;;
      '(data, _) ← map_err FragCmaf
         (Fragment (wrapu 32 (wrapu 32 (Sequence g.(ID)) + 1)) frames (wrapu 64 g.(MediaTime)) (wrapu 32 last));
      Ok data
  | _, _ => Err FragEmpty
  end.

(** ** A stored group is served as it was measured *)

(** [raw] holds the LOC frames [locs]. *)
Definition holds (raw : list frame) (locs : list (Z * bytes)) : Prop :=
  Forall2 (fun f l => DecodeLOC f.(Body) = Ok l) raw locs.

Definition stamps (locs : list (Z * bytes)) : list Z := locs.*1.

Lemma measure_spec i first prev raw a b :
  (0 < i)%nat -> measure i first prev raw = Ok (a, b) ->
  exists locs, holds raw locs /\ a = first /\ last (prev :: stamps locs) = Some b /\
    Forall (fun d => 0 < d) (intervals (prev :: stamps locs)).
Proof.
  revert i prev. induction raw as [|f raw IH]; intros i prev Hi Hm.
  - injection Hm as <- <-. exists []. split; [constructor|]. split; [done|]. split; [done|]. constructor.
  - cbn [measure] in Hm. apply bind_Ok in Hm as ([ts pl] & Hd & Hm). apply map_err_Ok in Hd.
    destruct (Nat.eqb_spec i 0); [lia|]. apply bind_Ok in Hm as (u & Hg & Hm).
    apply guard_err_Ok, negb_true_iff, Z.leb_gt in Hg.
    destruct (IH (S i) ts ltac:(lia) Hm) as (locs & Hh & -> & Hl & Hp).
    exists ((ts, pl) :: locs). split; [by constructor|]. split; [done|]. split; [done|].
    change (intervals (prev :: stamps ((ts, pl) :: locs))) with (ts - prev :: intervals (ts :: stamps locs)).
    constructor; [lia|done].
Qed.

Lemma measure_start raw a b :
  (0 < length raw)%nat -> measure 0 0 0 raw = Ok (a, b) ->
  exists locs, holds raw locs /\ head (stamps locs) = Some a /\ last (stamps locs) = Some b /\
    Forall (fun d => 0 < d) (intervals (stamps locs)).
Proof.
  intros Hl Hm. destruct raw as [|f raw]; [cbn in Hl; lia|]. cbn [measure] in Hm.
  apply bind_Ok in Hm as ([ts pl] & Hd & Hm). apply map_err_Ok in Hd. cbn [Nat.eqb] in Hm.
  destruct (measure_spec 1 ts ts raw a b ltac:(lia) Hm) as (locs & Hh & -> & Hb & Hp).
  exists ((ts, pl) :: locs). split; [by constructor|]. done.
Qed.

(** The frames handed to the packager. *)
Fixpoint frames_of (i : nat) (locs : list (Z * bytes)) : list Frame :=
  match locs with [] => [] | (ts, data) :: locs => mkCmafFrame ts (i =? 0)%nat data :: frames_of (S i) locs end.

Lemma decode_holds i raw locs : holds raw locs -> decode_frames i raw false = Ok (frames_of i locs).
Proof.
  intros Hh. revert i. induction Hh as [|f [ts data] raw locs Hd Hh IH]; intros i; [done|].
  cbn [decode_frames frames_of]. rewrite Hd. cbn [map_err mbind result_bind]. by rewrite IH.
Qed.

Lemma frames_of_stamps i locs : FTimestamp <$> frames_of i locs = stamps locs.
Proof. revert i. induction locs as [|[ts d] locs IH]; intros i; [done|]. cbn. by rewrite IH. Qed.

Lemma frames_of_lookup i locs k ts data :
  locs !! k = Some (ts, data) -> frames_of i locs !! k = Some (mkCmafFrame ts (i + k =? 0)%nat data).
Proof.
  revert i k. induction locs as [|[t d] locs IH]; intros i k Hk; [done|]. destruct k as [|k]; cbn in *.
  - injection Hk as -> ->. by rewrite Nat.add_0_r.
  - rewrite (IH _ _ Hk). by rewrite Nat.add_succ_r.
Qed.

Lemma stamps_range raw locs :
  holds raw locs -> Forall (fun f => bytes_ok f.(Body)) raw -> Forall (fun t => 0 <= t <= maxVarint) (stamps locs).
Proof.
  intros Hh Hb. induction Hh as [|f [ts data] raw locs Hd Hh IH]; [constructor|]. apply Forall_cons in Hb as [Hb1 Hb].
  constructor; [by eapply DecodeLOC_range|by apply IH].
Qed.

(** A group of advancing timestamps spans at least as many units as it has gaps. *)
Lemma intervals_count l : Forall (fun d => 0 < d) l -> len l <= zsum l.
Proof. induction 1 as [|d l Hd Hl IH]; [done|]. change (zsum (d :: l)) with (d + zsum l). cbn [length]. cbn beta in Hd. lia. Qed.

Lemma paced_span l : Forall (fun d => 0 < d <= maxSampleDuration) l -> zsum l <= len l * maxSampleDuration.
Proof.
  induction 1 as [|d l Hd Hl IH]; [done|]. change (zsum (d :: l)) with (d + zsum l). cbn [length]. cbn beta in Hd. lia.
Qed.

Lemma span_sum l a b : head l = Some a -> last l = Some b -> b - a = zsum (intervals l).
Proof.
  intros Ha Hb. rewrite last_lookup in Hb. rewrite <- (intervals_sum l _ a b Ha Hb).
  rewrite take_ge; [done|]. rewrite intervals_length. lia.
Qed.

(** What the writer measured of a group it stored. *)
Lemma stored_facts raw payload d :
  Forall (fun f => bytes_ok f.(Body)) raw -> storedGroup raw = Ok (payload, d) ->
  exists locs a b, holds raw locs /\ head (stamps locs) = Some a /\ last (stamps locs) = Some b /\
    Forall (fun d => 0 < d) (intervals (stamps locs)) /\ encodeFrames raw = Ok payload /\
    0 < len raw - 1 <= b - a /\ b - a < 2 ^ 62 /\ d = (b - a) + wrapu 32 ((b - a) / (len raw - 1)).
Proof.
  intros Hb Hs. unfold storedGroup in Hs. apply bind_Ok in Hs as (u & Hg & Hs). apply bind_Ok in Hs as ([a b] & Hm & Hs).
  apply bind_Ok in Hs as (p & He & Hs). injection Hs as -> <-. apply map_err_Ok in He.
  apply guard_err_Ok, negb_true_iff, Nat.ltb_ge in Hg.
  destruct (measure_start raw a b ltac:(lia) Hm) as (locs & Hh & Ha & Hl & Hp).
  pose proof (Forall2_length _ _ _ Hh) as Hlen. pose proof (stamps_range raw locs Hh Hb) as Hr.
  assert (Hra : 0 <= a <= maxVarint) by (rewrite Forall_forall in Hr; apply Hr; by apply head_Some_elem_of).
  assert (Hrb : 0 <= b <= maxVarint) by (rewrite Forall_forall in Hr; apply Hr; apply last_Some_elem_of; done).
  pose proof (intervals_count _ Hp) as Hc. rewrite <- (span_sum _ a b) in Hc by done.
  rewrite intervals_length in Hc. unfold stamps in Hc. rewrite length_fmap in Hc.
  unfold maxVarint in *. exists locs, a, b. do 5 (split; [done|]). split; [lia|]. split; [lia|].
  pose proof (wrapu_range 32 ((b - a) / (len raw - 1)) ltac:(lia)) as Hw. unfold in_u in Hw.
  rewrite (wrapu_id 64 (len raw - 1)), (wrapu_id 64 (b - a)) by (unfold in_u; lia).
  rewrite (wraps_id 64 (b - a)) by (done || unfold in_s; lia). rewrite wraps_id; [done|done|]. unfold in_s. lia.
Qed.

(** The samples, handed to the library. *)
Definition served `{Mp4} (seq : Z) (samples : list FullSample) : result frag_error bytes :=
  map_err FragCmaf (guard_err (CreateFragment seq trackID) CreateFragmentFailed;;
                    of_option EncodeFragmentFailed (EncodeFragment seq trackID samples)).

Lemma Fragment_served `{Mp4} seq frames t lst :
  frames <> [] -> 0 < lst <= maxSampleDuration -> paced (FTimestamp <$> frames) ->
  map_err FragCmaf (Fragment seq frames t lst) ≫= (fun '(data, _) => Ok data) =
  served seq (add_samples t frames (intervals (FTimestamp <$> frames) ++ [lst])).
Proof.
  intros Hf Hl Hp. unfold Fragment, served. rewrite guard_true by (by destruct frames).
  rewrite guard_true by (apply negb_true_iff, orb_false_iff; split; [apply Z.eqb_neq|apply Z.ltb_ge]; lia).
  destruct (frameGaps_spec 0 frames) as [[_ ->]|[]]; [|done]. cbn [mbind result_bind].
  destruct (CreateFragment _ _); [|done]. cbn [guard_err mbind result_bind]. by destruct (EncodeFragment _ _ _).
Qed.

Lemma Fragment_refuses `{Mp4} seq frames t lst :
  lst = 0 \/ maxSampleDuration < lst \/ ~ paced (FTimestamp <$> frames) -> exists e, Fragment seq frames t lst = Err e.
Proof.
  intros Hc. unfold Fragment. destruct (negb (length frames =? 0)%nat); [|by eexists]. cbn [guard_err mbind result_bind].
  destruct (negb _) eqn:Hl; [|by eexists]. cbn [guard_err mbind result_bind]. bool_prop.
  destruct (frameGaps_spec 0 frames) as [[? _]|[_ [e ->]]]; [|by eexists]. lia || (destruct Hc as [?|[?|?]]; [lia|lia|done]).
Qed.

(** The fragment a stored group is served as: every frame of the group, the first
    one as the sync sample, at its distance from the first past the group's media
    time; each lasts to the next frame, the last one the mean interval. *)
Record faithful (g : GroupInfo) (locs : list (Z * bytes)) (samples : list FullSample) : Prop := {
  f_all : forall i ts data, locs !! i = Some (ts, data) -> exists s, samples !! i = Some s /\
    s.(SData) = data /\ s.(Size) = wrapu 32 (len data) /\ s.(SyncFlags) = (i =? 0)%nat /\
    (forall t0 d0, locs !! 0%nat = Some (t0, d0) -> s.(DecodeTime) = g.(MediaTime) + (ts - t0)) /\
    (forall t1 d1, locs !! S i = Some (t1, d1) -> s.(Dur) = t1 - ts);
  f_only : length samples = length locs;
  f_extent : zsum (Dur <$> samples) = g.(Duration)
}.

Lemma add_samples_length t frames ds : length frames = length ds -> length (add_samples t frames ds) = length frames.
Proof. revert t ds. induction frames as [|f fs IH]; intros t [|d ds] Hl; try done. cbn. by rewrite IH by (cbn in Hl; lia). Qed.

Lemma add_samples_dur t frames ds : length frames = length ds -> Dur <$> add_samples t frames ds = ds.
Proof.
  revert t ds. induction frames as [|f fs IH]; intros t [|d ds] Hl; try done. cbn. f_equal. apply IH. cbn in Hl. lia.
Qed.

Lemma samples_faithful g locs lst :
  0 <= g.(MediaTime) -> g.(MediaTime) + g.(Duration) < 2 ^ 63 -> locs <> [] -> 0 < lst ->
  Forall (fun d => 0 < d) (intervals (stamps locs)) -> g.(Duration) = zsum (intervals (stamps locs)) + lst ->
  faithful g locs (add_samples g.(MediaTime) (frames_of 0 locs) (intervals (stamps locs) ++ [lst])).
Proof.
  intros Hm Hb Hne Hl Hp Hd. set (ds := intervals (stamps locs) ++ [lst]).
  assert (Hlen : length (frames_of 0 locs) = length ds).
  { subst ds. rewrite <- (length_fmap FTimestamp), frames_of_stamps, length_app, intervals_length.
    unfold stamps. rewrite length_fmap. cbn. destruct locs; [done|]. cbn. lia. }
  assert (Hds : Forall (fun d => 0 <= d) ds).
  { apply Forall_app. split; [|by repeat constructor; lia]. eapply Forall_impl; [exact Hp|]. cbn. lia. }
  assert (Hs : zsum ds = g.(Duration)) by (subst ds; rewrite sum_app; cbn; lia).
  assert (Hlocs : length (frames_of 0 locs) = length locs) by (rewrite <- (length_fmap FTimestamp), frames_of_stamps; apply length_fmap).
  split; [|by rewrite add_samples_length|by rewrite add_samples_dur].
  intros i ts data Hi. pose proof (lookup_lt_Some _ _ _ Hi) as Hlt.
  destruct (lookup_lt_is_Some_2 ds i) as [d Hdi]; [lia|]. pose proof (frames_of_lookup 0 locs i ts data Hi) as Hfi.
  rewrite add_samples_lookup by (done || lia). rewrite Hfi, Hdi. cbn [mbind option_bind]. eexists. split; [done|].
  cbn [SData Size SyncFlags DecodeTime Dur Cmaf.Data Sync FTimestamp]. do 3 (split; [done|]).
  assert (Hti : stamps locs !! i = Some ts) by (unfold stamps; by rewrite list_lookup_fmap, Hi).
  split.
  - intros t0 d0 H0. f_equal. subst ds. rewrite take_app_le by (rewrite intervals_length; unfold stamps; rewrite length_fmap; lia).
    apply intervals_sum; [|done]. destruct locs as [|[t' d'] locs]; [done|]. by injection H0 as -> ->.
  - intros t1 d1 H1. assert (Ht1 : stamps locs !! S i = Some t1) by (unfold stamps; by rewrite list_lookup_fmap, H1).
    pose proof (intervals_lookup _ _ _ _ Hti Ht1) as Hiv. subst ds. rewrite lookup_app_l in Hdi by (by apply lookup_lt_Some in Hiv).
    congruence.
Qed.

Lemma head_fmap_frames locs : head (stamps locs) = FTimestamp <$> head (frames_of 0 locs).
Proof. by destruct locs as [|[ts d] locs]. Qed.

Lemma last_fmap_frames locs : last (stamps locs) = FTimestamp <$> last (frames_of 0 locs).
Proof. by rewrite <- (frames_of_stamps 0), fmap_last. Qed.

(** Two readings of the same frames agree. *)
Lemma holds_unique raw l1 l2 : holds raw l1 -> holds raw l2 -> l1 = l2.
Proof.
  intros H1. revert l2. induction H1 as [|f a raw l1 Ha H1 IH]; intros l2 H2; inversion H2 as [|? b ? l2' Hb H2']; subst; [done|].
  rewrite Ha in Hb. injection Hb as ->. f_equal. by apply IH.
Qed.

(** What [stored_group_served] says. *)
Lemma stored_served `{Mp4} raw payload d g :
  Forall (fun f => bytes_ok f.(Body)) raw -> Forall frame_ok raw -> storedGroup raw = Ok (payload, d) ->
  g.(Duration) = d -> 0 <= g.(MediaTime) -> g.(MediaTime) + d < 2 ^ 63 ->
  exists locs, holds raw locs /\
    (paced (stamps locs) -> exists samples, faithful g locs samples /\
       fragment g payload = served (wrapu 32 (wrapu 32 (Sequence g.(ID)) + 1)) samples) /\
    (~ paced (stamps locs) -> exists e, fragment g payload = Err e).
Proof.
  intros Hb Hf Hs Hd Hm Hmd. destruct (stored_facts raw payload d Hb Hs) as (locs & a & b & Hh & Ha & Hl & Hp & He & Hn & Hsp & ->).
  exists locs. split; [done|]. unfold fragment. rewrite (frames_round_trip raw payload Hf He). cbn [of_option mbind result_bind].
  rewrite (decode_holds 0 raw locs Hh). cbn [mbind result_bind].
  assert (Hne : locs <> []) by (intros ->; done). assert (Hfne : frames_of 0 locs <> []) by (by destruct locs as [|[]]).
  set (mean := wrapu 32 ((b - a) / (len raw - 1))) in *.
  assert (Hmean : 0 <= mean < 2 ^ 32) by (apply (wrapu_range 32); lia).
  pose proof (head_fmap_frames locs) as Hhd. pose proof (last_fmap_frames locs) as Hlst. rewrite Ha in Hhd. rewrite Hl in Hlst.
  destruct (head (frames_of 0 locs)) as [f0|]; [|done]. destruct (last (frames_of 0 locs)) as [fn|]; [|done].
  injection Hhd as ->. injection Hlst as ->. cbv zeta.
  rewrite (wrapu_id 64 (FTimestamp fn - FTimestamp f0)) by (unfold in_u; lia). rewrite (wraps_id 64 (FTimestamp fn - FTimestamp f0)) by (done || unfold in_s; lia).
  rewrite Hd. replace (_ + mean - _) with mean by lia. rewrite (wraps_id 64 mean) by (done || unfold in_s; lia).
  unfold MaxUint32. rewrite (wrapu_id 32 mean) by (unfold in_u; lia). rewrite <- (frames_of_stamps 0).
  split; intros Hpc.
  - assert (Hmr : 0 < mean <= maxSampleDuration).
    { subst mean. rewrite frames_of_stamps in Hpc. pose proof (paced_span _ Hpc) as Hps. rewrite <- (span_sum _ _ _ Ha Hl), intervals_length in Hps.
      pose proof (Forall2_length _ _ _ Hh) as Hlen. unfold stamps in Hps. rewrite length_fmap, <- Hlen in Hps.
      assert (Hq : 1 <= (FTimestamp fn - FTimestamp f0) / (len raw - 1) <= maxSampleDuration).
      { split; [apply Z.div_le_lower_bound; lia|apply Z.div_le_upper_bound; [lia|]]. unfold maxSampleDuration, Timescale in *. lia. }
      rewrite wrapu_id; [lia|]. unfold in_u, maxSampleDuration, Timescale in *. lia. }
    rewrite guard_true by (apply negb_true_iff, orb_false_iff; split; [apply Z.leb_gt|apply Z.ltb_ge]; lia).
    rewrite (wrapu_id 64 g.(MediaTime)) by (unfold in_u; lia).
    rewrite Fragment_served by done. rewrite frames_of_stamps. eexists. split; [|done].
    apply samples_faithful; try done; try lia. rewrite <- (span_sum _ _ _ Ha Hl). lia.
  - destruct (negb _); [|by eexists]. cbn [guard_err mbind result_bind].
    destruct (Fragment_refuses (wrapu 32 (wrapu 32 (Sequence (ID g)) + 1)) (frames_of 0 locs) (wrapu 64 g.(MediaTime)) mean) as [e ->]; [tauto|].
    by eexists.
Qed.

(** Storage, the manifest and the fragment agree on a group: one that
    [storedGroup] accepted, listed with the extent it gave, is served, if its
    frames are at most ten seconds apart, as one fragment with exactly its
    frames, in order, the first as the sync sample, each placed and lasting as
    its LOC timestamps say, together as long as the manifest lists. A group with
    a longer gap is stored and listed all the same, but is never served. *)
Theorem stored_group_served `{Mp4} raw payload d g :
  Forall (fun f => bytes_ok f.(Body)) raw -> Forall frame_ok raw -> storedGroup raw = Ok (payload, d) ->
  g.(Duration) = d -> 0 <= g.(MediaTime) -> g.(MediaTime) + d < 2 ^ 63 ->
  exists locs, holds raw locs /\
    (paced (stamps locs) -> exists samples, faithful g locs samples /\
       fragment g payload = served (wrapu 32 (wrapu 32 (Sequence g.(ID)) + 1)) samples) /\
    (~ paced (stamps locs) -> exists e, fragment g payload = Err e).
Proof. apply stored_served. Qed.
End Groups.

(** ** A concrete group *)

(** Identities as pairs of an epoch and a sequence. *)
#[export] Instance pair_ids : GroupIDs := {| GroupID := Z * Z; NewGroupID := pair; Epoch := fst; Sequence := snd |}.

(** A library that writes the payloads one after the other. *)
Definition ex_mp4 : Mp4 := {|
  DecodeAVCDecConfRec := fun _ => None; SetDescriptor := fun _ => true; EncodeInit := fun _ _ _ _ => Some [];
  CreateFragment := fun _ _ => true; EncodeFragment := fun _ _ l => Some (concat (SData <$> l)) |}.

(** Frames of LOC timestamps [ts], their moq-lite timestamps zero. *)
Definition ex_raw (ts : list Z) : list frame := (fun t => mkFrame 0 (EncodeLOC t [7; 8])) <$> ts.

Definition ex_payload : bytes := match storedGroup (ex_raw [1000; 34000; 68000]) with Ok (p, _) => p | Err _ => [] end.

Definition ex_info (d : Z) : GroupInfo := mkInfo pair_ids (1, 4) 250000 d 0 3.

Lemma stored_group_served_witness :
  exists locs, holds (ex_raw [1000; 34000; 68000]) locs /\
    (paced (stamps locs) -> exists samples, faithful (ex_info 100500) locs samples /\
       fragment (H0 := ex_mp4) (ex_info 100500) ex_payload = served (H0 := ex_mp4) (wrapu 32 (wrapu 32 4 + 1)) samples) /\
    (~ paced (stamps locs) -> exists e, fragment (H0 := ex_mp4) (ex_info 100500) ex_payload = Err e).
Proof.
  apply (stored_group_served (H0 := ex_mp4) (ex_raw [1000; 34000; 68000]) ex_payload 100500 (ex_info 100500));
    [by repeat constructor|by repeat constructor|vm_compute; reflexivity|done|done|done].
Defined.

(** A publisher's frames eleven seconds apart are stored, their group listed with
    its twenty-two seconds, and never served: the last frame's duration, stated
    when the group was stored, is one the packager refuses. *)
Lemma long_gap_listed_not_served `{Mp4} :
  exists payload, storedGroup (ex_raw [1000; 11001000]) = Ok (payload, 22000000) /\
    forall g : GroupInfo (H := pair_ids), g.(Duration) = 22000000 ->
      fragment g payload = Err (FragCmaf (LastDuration 11000000)).
Proof.
  eexists. split; [vm_compute; reflexivity|]. intros g Hg. unfold fragment.
  match goal with |- context [allFrames ?p] => replace (allFrames p) with (Some (ex_raw [1000; 11001000], false)) by (vm_compute; reflexivity) end.
  replace (of_option _ _) with (@Ok frag_error _ (ex_raw [1000; 11001000], false)) by done. cbn [mbind result_bind].
  match goal with |- context [decode_frames 0 ?l false] =>
    replace (decode_frames 0 l false) with (@Ok frag_error _ [mkCmafFrame 1000 true [7; 8]; mkCmafFrame 11001000 false [7; 8]]) by (vm_compute; reflexivity) end.
  cbn [mbind result_bind head last FTimestamp]. rewrite Hg. vm_compute (wraps _ _). vm_compute (wrapu 32 11000000).
  reflexivity.
Qed.
