(* ===== verification/HlsFeed.v ===== *)
(** * HlsFeed: feeding a track of an announced broadcast

    The loop that stores a track's groups in the ledger and the loop around it
    that closes the ledger's epochs (src/internal/hls/feed.go: [feedMedia],
    [feedAnnouncedTrack], [countingAppender], the part of [handleAnnouncement]
    that opens a track), and the gate that lets one handler at a time feed a
    broadcast ([broadcastGate.acquire]).

    What arrives, the clock and the ledger's answers are arguments; a loop gives
    the calls it makes on the ledger, the liveness and the broadcast, in order.
    The list of what arrives may end before the loop does: it then is waiting. *)
From S2P Require Import Prelude GoBytes Frames Cmaf Hls.

Open Scope Z_scope.

Section Feed.
Context `{GroupIDs}.

(** What [AcceptGroup] gives next. A group: its sequence, its frames unless
    reading them failed, the clock when it was measured and the ledger's answer
    should it be appended. *)
Inductive arrival :=
| Arrived (seq : Z) (frames : option (list frame)) (now : Z) (accepted : bool)
| Silent          (* the deadline passed *)
| AcceptFailed
| Cancelled.      (* the announcement ended *)

(** The calls made. *)
Inductive fcall :=
| Append (info : GroupInfo) (payload : bytes) (ok : bool)
| Mark (now : Z)
| NewEpoch (ok : bool)
| RemoveTrack.

Record feed := mkFeed { mediaTime : Z; anchor : option Z }.

(** The body of the loop, for a group that was received. *)
Definition feed_group (st : feed) (seq : Z) (frames : option (list frame)) (now : Z) (accepted : bool) : feed * list fcall :=
  match frames with
  | None => (st, [])
  | Some raw =>
      if (length raw =? 0)%nat then (st, [])
      else
        match storedGroup raw with
        | Err _ => (st, [])
        | Ok (payload, duration) =>
            let anchor := default now st.(anchor) in
            let info := groupInfo seq st.(mediaTime) duration (len raw) (wallclockAt anchor st.(mediaTime) Timescale) in
            if accepted then (mkFeed (wraps 64 (st.(mediaTime) + duration)) (Some anchor), [Append info payload true; Mark now])
            else (mkFeed st.(mediaTime) (Some anchor), [Append info payload false])
        end
  end.

(** The loop: the calls, and whether it returned. *)
Fixpoint feed_loop (st : feed) (l : list arrival) : list fcall * bool :=
  match l with
  | [] => ([], false)
  | Arrived seq frames now accepted :: l =>
      let '(st, c1) := feed_group st seq frames now accepted in
      let '(c2, done) := feed_loop st l in (c1 ++ c2, done)
  | _ :: _ => ([], true)
  end.

Definition feedMedia (subscribed : bool) (l : list arrival) : list fcall * bool :=
  if subscribed then feed_loop (mkFeed 0 None) l else ([], true).

(** [countingAppender.appended] after a feed. *)
Definition commits (c : fcall) : bool := match c with Append _ _ ok => ok | _ => false end.
Definition appended (cs : list fcall) : nat := length (filter (fun c => commits c = true) cs).

(** One round of the outer loop: the feed, then whether the announcement has
    ended, the ledger's answer to closing the epoch, and whether the
    announcement ends during the pause. *)
Record round := mkRound {
  r_subscribed : bool; r_arrivals : list arrival; r_cancelled : bool; r_epoch_ok : bool; r_ends : bool }.

(** [feedAnnouncedTrack]; [close_ok] is the ledger's answer to the deferred
    closing. *)
Definition deferred (filled close_ok : bool) : list fcall := if filled then [NewEpoch close_ok] else [].

Fixpoint announced (filled : bool) (rounds : list round) (close_ok : bool) : list fcall * bool :=
  match rounds with
  | [] => ([], false)
  | r :: rounds =>
      let '(fed, returned) := feedMedia r.(r_subscribed) r.(r_arrivals) in
      if negb returned then (fed, false)
      else
        let filled := filled || (0 <? appended fed)%nat in
        if r.(r_cancelled) then (fed ++ deferred filled close_ok, true)
        else if filled && negb r.(r_epoch_ok) then (fed ++ [NewEpoch false; RemoveTrack] ++ deferred filled close_ok, true)
        else
          let c := if filled then [NewEpoch true] else [] in
          if r.(r_ends) then (fed ++ c, true)
          else let '(rest, done) := announced false rounds close_ok in (fed ++ c ++ rest, done)
  end.

Definition feedAnnouncedTrack (rounds : list round) (close_ok : bool) : list fcall * bool := announced false rounds close_ok.

(** Opening the track: one the ledger already had gets an epoch of its own for
    this announcement, or is not fed. *)
Definition openAndFeed (adopted epoch_ok : bool) (rounds : list round) (close_ok : bool) : list fcall * bool :=
  if adopted then
    if epoch_ok then let '(cs, done) := feedAnnouncedTrack rounds close_ok in (NewEpoch true :: cs, done)
    else ([NewEpoch false], true)
  else feedAnnouncedTrack rounds close_ok.

(** ** The timeline *)

(** The groups committed to the ledger. *)
Definition committed (cs : list fcall) : list GroupInfo :=
  omap (fun c => match c with Append g _ true => Some g | _ => None end) cs.

(** What an epoch of one session looks like: the groups follow one another on the
    timeline from 0, and stand on the clock at their media time past one instant. *)
Definition timeline (l : list GroupInfo) : Prop :=
  exists t0, forall i g, l !! i = Some g ->
    g.(MediaTime) = zsum (Duration <$> take i l) /\ g.(Wallclock) = t0 + 1000 * g.(MediaTime).

(** The durations of the groups that were stored are in bounds: their sum is
    below 2^53 microseconds, 285 years. *)
Definition extent (cs : list fcall) : Z := zsum (Duration <$> committed cs).

Lemma committed_app a b : committed (a ++ b) = committed a ++ committed b.
Proof. unfold committed. by rewrite omap_app. Qed.

Lemma wallclock_exact a mt : 0 <= mt < 2 ^ 53 -> wallclockAt a mt Timescale = a + 1000 * mt.
Proof.
  intros Hm. unfold wallclockAt, Timescale, second. change (1000000 =? 0) with false. cbv iota zeta.
  rewrite Z.quot_div_nonneg, Z.rem_mod_nonneg by lia. pose proof (Z.div_mod mt 1000000 ltac:(lia)). pose proof (Z.mod_pos_bound mt 1000000 ltac:(lia)).
  rewrite !wraps_id by (done || unfold in_s; lia). rewrite Z.quot_div_nonneg by lia.
  replace (mt mod 1000000 * 1000000000) with (mt mod 1000000 * 1000 * 1000000) by ring. rewrite Z.div_mul by lia. lia.
Qed.

(** ** A feed *)

(** What the loop keeps, [done] being the groups committed so far: the media time
    is their extent, and they stand on the clock where the anchor puts them. *)
Record placed (done : list GroupInfo) (st : feed) : Prop := {
  p_time : st.(mediaTime) = zsum (Duration <$> done);
  p_line : match st.(anchor) with
           | Some a => forall i g, done !! i = Some g ->
               g.(MediaTime) = zsum (Duration <$> take i done) /\ g.(Wallclock) = a + 1000 * g.(MediaTime)
           | None => done = []
           end
}.

(** A committed group is a stored group: its payload and its duration are what
    [storedGroup] made of the frames that arrived under its sequence. *)
Definition faithful_append (l : list arrival) (c : fcall) : Prop :=
  match c with
  | Append g p ok => exists seq raw now, Arrived seq (Some raw) now ok ∈ l /\
      g.(ID) = NewGroupID 0 seq /\ storedGroup raw = Ok (p, g.(Duration)) /\ g.(ObjectCount) = len raw
  | _ => True
  end.

(** The bodies that arrive are bytes. *)
Definition arrival_ok (a : arrival) : Prop :=
  match a with Arrived _ (Some raw) _ _ => Forall (fun f => bytes_ok f.(Body)) raw | _ => True end.

Lemma stored_pos raw p d : Forall (fun f => bytes_ok f.(Body)) raw -> storedGroup raw = Ok (p, d) -> 0 < d.
Proof.
  intros Hb Hs. destruct (stored_facts raw p d Hb Hs) as (locs & a & b & _ & _ & _ & _ & _ & Hn & _ & ->).
  pose proof (wrapu_range 32 ((b - a) / (len raw - 1)) ltac:(lia)) as Hw. unfold in_u in Hw. lia.
Qed.

(** The calls of a feed: commits, each marked at once, and refusals. *)
Inductive feed_calls : list fcall -> Prop :=
| calls_nil : feed_calls []
| calls_commit g p now cs : feed_calls cs -> feed_calls (Append g p true :: Mark now :: cs)
| calls_refusal g p cs : feed_calls cs -> feed_calls (Append g p false :: cs).

Lemma feed_calls_app a b : feed_calls a -> feed_calls b -> feed_calls (a ++ b).
Proof. intros Ha Hb. induction Ha; cbn; [done|by constructor..]. Qed.

Lemma feed_group_calls st seq frames now ok : feed_calls (feed_group st seq frames now ok).2.
Proof.
  unfold feed_group. destruct frames as [raw|]; [|constructor]. destruct (_ =? _)%nat; [constructor|].
  destruct (storedGroup raw) as [[p d]|]; [|constructor]. destruct ok; by repeat constructor.
Qed.

Lemma feed_group_faithful st seq frames now ok l :
  Arrived seq frames now ok ∈ l -> Forall (faithful_append l) (feed_group st seq frames now ok).2.
Proof.
  unfold feed_group. intros Hl. destruct frames as [raw|]; [|constructor]. destruct (_ =? _)%nat; [constructor|].
  destruct (storedGroup raw) as [[p d]|] eqn:Hs; [|constructor].
  destruct ok; repeat constructor; by exists seq, raw, now.
Qed.

Lemma feed_loop_calls st l : feed_calls (feed_loop st l).1.
Proof.
  revert st. induction l as [|a l IH]; intros st; [constructor|]. destruct a as [seq fr now ok| | |]; try constructor. cbn [feed_loop].
  pose proof (feed_group_calls st seq fr now ok) as Hg. destruct (feed_group st seq fr now ok) as [st' c1].
  specialize (IH st'). destruct (feed_loop st' l). by apply feed_calls_app.
Qed.

Lemma feed_loop_faithful st l l' : l ⊆ l' -> Forall (faithful_append l') (feed_loop st l).1.
Proof.
  revert st. induction l as [|a l IH]; intros st Hl; [constructor|]. destruct a as [seq fr now ok| | |]; try constructor. cbn [feed_loop].
  pose proof (feed_group_faithful st seq fr now ok l' ltac:(apply Hl; constructor)) as Hg.
  destruct (feed_group st seq fr now ok) as [st' c1]. specialize (IH st' ltac:(set_solver)). destruct (feed_loop st' l).
  by apply Forall_app.
Qed.

Lemma committed_pos l cs :
  Forall arrival_ok l -> Forall (faithful_append l) cs -> Forall (fun g => 0 < g.(Duration)) (committed cs).
Proof.
  intros Hl Hc. induction Hc as [|c cs Hc Hcs IH]; [constructor|].
  destruct c as [g p [|]| | |]; try exact IH. constructor; [|exact IH]. destruct Hc as (seq & raw & now & Hin & _ & Hs & _).
  rewrite Forall_forall in Hl. specialize (Hl _ Hin). by eapply stored_pos.
Qed.

Lemma extent_nonneg l : Forall (fun g => 0 < g.(Duration)) l -> 0 <= zsum (Duration <$> l).
Proof. intros Hl. apply sum_nonneg. apply Forall_fmap. eapply Forall_impl; [exact Hl|]. cbn. lia. Qed.

Lemma feed_group_placed done st seq fr now ok :
  placed done st -> arrival_ok (Arrived seq fr now ok) -> Forall (fun g => 0 < g.(Duration)) done ->
  zsum (Duration <$> done ++ committed (feed_group st seq fr now ok).2) < 2 ^ 53 ->
  placed (done ++ committed (feed_group st seq fr now ok).2) (feed_group st seq fr now ok).1.
Proof.
  intros [Ht Hp] Ha Hpos Hb. pose proof (extent_nonneg done Hpos) as Hn. revert Hb. unfold feed_group.
  destruct fr as [raw|]; [|by rewrite app_nil_r]. destruct (_ =? _)%nat; [by rewrite app_nil_r|].
  destruct (storedGroup raw) as [[p d]|] eqn:Hs; [|by rewrite app_nil_r]. pose proof (stored_pos raw p d Ha Hs) as Hd.
  destruct ok; cbn [fst snd committed omap list_omap].
  - rewrite fmap_app, sum_app. cbn. intros Hb. split.
    + cbn. rewrite fmap_app, sum_app, Ht. cbn. rewrite wraps_id; [lia|lia|]. unfold in_s. lia.
    + cbn. intros i g Hi. apply lookup_app_Some in Hi as [Hi|[Hge Hi]].
      * rewrite take_app_le by (apply lookup_lt_Some in Hi; lia). destruct (anchor st); [by apply Hp|]. by subst done.
      * destruct (i - length done)%nat eqn:Hz; [|done]. injection Hi as <-. cbn.
        replace i with (length done) by lia. rewrite take_app_length, Ht. split; [done|]. apply wallclock_exact. lia.
  - rewrite app_nil_r. intros Hb. split; [done|]. cbn. destruct (anchor st); [done|]. subst done. intros i g Hi. done.
Qed.

Lemma feed_loop_placed done st l :
  placed done st -> Forall arrival_ok l -> Forall (fun g => 0 < g.(Duration)) done ->
  zsum (Duration <$> done ++ committed (feed_loop st l).1) < 2 ^ 53 ->
  exists st', placed (done ++ committed (feed_loop st l).1) st'.
Proof.
  revert done st. induction l as [|a l IH]; intros done st Hp Hl Hpos Hb; [exists st; by rewrite app_nil_r|].
  destruct a as [seq fr now ok| | |]; try (exists st; by rewrite app_nil_r). apply Forall_cons in Hl as [Ha Hl]. cbn [feed_loop] in *.
  pose proof (feed_group_placed done st seq fr now ok Hp Ha Hpos) as Hg.
  pose proof (feed_group_faithful st seq fr now ok [Arrived seq fr now ok] ltac:(constructor)) as Hf.
  destruct (feed_group st seq fr now ok) as [st1 c1]. cbn [fst snd] in *.
  pose proof (feed_loop_faithful st1 l l ltac:(done)) as Hfl. specialize (IH (done ++ committed c1) st1).
  destruct (feed_loop st1 l) as [c2 dn]. cbn [fst snd] in *. rewrite committed_app, app_assoc in *.
  pose proof (committed_pos _ _ (Forall_cons_2 _ _ _ Ha (Forall_nil_2 _)) Hf) as Hp1. pose proof (committed_pos _ _ Hl Hfl) as Hp2.
  apply IH; [|done|by apply Forall_app|done]. apply Hg.
  rewrite fmap_app, sum_app in Hb. pose proof (extent_nonneg _ Hp2). lia.
Qed.

Lemma placed_timeline done st : placed done st -> timeline done.
Proof. intros [_ Hp]. destruct (anchor st) as [a|]; [by exists a|]. subst done. exists 0. intros i g Hi. done. Qed.

Lemma feed_timeline b l :
  Forall arrival_ok l -> extent (feedMedia b l).1 < 2 ^ 53 -> timeline (committed (feedMedia b l).1).
Proof.
  intros Hl Hb. unfold feedMedia in *. destruct b; [|exists 0; by intros i g Hi].
  destruct (feed_loop_placed [] (mkFeed 0 None) l) as [st Hst]; [by split|done|constructor|done|]. by eapply placed_timeline.
Qed.

Lemma feedMedia_calls b l : feed_calls (feedMedia b l).1.
Proof. unfold feedMedia. destruct b; [apply feed_loop_calls|constructor]. Qed.

Lemma feedMedia_faithful b l : Forall (faithful_append l) (feedMedia b l).1.
Proof. unfold feedMedia. destruct b; [by apply feed_loop_faithful|constructor]. Qed.

(** ** Epochs *)

(** The groups of each epoch, the first one holding [cur] already: a call that
    closed an epoch starts the next. *)
Fixpoint epochs (cur : list GroupInfo) (cs : list fcall) : list (list GroupInfo) :=
  match cs with
  | [] => [cur]
  | NewEpoch true :: cs => cur :: epochs [] cs
  | Append g _ true :: cs => epochs (cur ++ [g]) cs
  | _ :: cs => epochs cur cs
  end.

Lemma epochs_feed cur fed cs : feed_calls fed -> epochs cur (fed ++ cs) = epochs (cur ++ committed fed) cs.
Proof.
  intros Hf. revert cur. induction Hf as [|g p now fed Hf IH|g p fed Hf IH]; intros cur; cbn; [by rewrite app_nil_r| |apply IH].
  rewrite IH. by rewrite <- app_assoc.
Qed.

Lemma appended_committed fed : feed_calls fed -> (0 <? appended fed)%nat = negb (length (committed fed) =? 0)%nat.
Proof. unfold appended. induction 1 as [|g p now fed Hf IH|g p fed Hf IH]; [done..|]. exact IH. Qed.

Lemma committed_empty fed : feed_calls fed -> (0 <? appended fed)%nat = false -> committed fed = [].
Proof. intros Hf Ha. rewrite appended_committed in Ha by done. by destruct (committed fed). Qed.

Lemma committed_some fed : feed_calls fed -> (0 <? appended fed)%nat = true -> committed fed <> [].
Proof. intros Hf Ha. rewrite appended_committed in Ha by done. by destruct (committed fed). Qed.

(** What the trace of a run with no open groups is. *)
Record well_fed (cs : list fcall) (returned : bool) : Prop := {
  w_lines : Forall timeline (epochs [] cs);
  w_filled : Forall (fun e => e <> []) (removelast (epochs [] cs));
  w_closed : returned = true -> last (epochs [] cs) = Some [] \/ exists cs', cs = cs' ++ [NewEpoch false]
}.

Lemma epochs_nonempty cur cs : epochs cur cs <> [].
Proof. revert cur. induction cs as [|c cs IH]; intros cur; [done|]. destruct c as [? ? []| |[]|]; try apply IH; done. Qed.

Lemma timeline_nil : timeline [].
Proof. exists 0. by intros i g Hi. Qed.

Lemma well_fed_feed fed b :
  feed_calls fed -> timeline (committed fed) -> (b = true -> committed fed = []) -> well_fed fed b.
Proof.
  intros Hf Ht Hb. assert (He : epochs [] fed = [committed fed]) by (rewrite <- (app_nil_r fed) at 1; by rewrite epochs_feed).
  split; rewrite He; [by repeat constructor|constructor|]. intros Hr. left. cbn. by rewrite Hb.
Qed.

(** A feed, then the end of the loop with what it left to close. *)
Lemma well_fed_end fed mid close :
  feed_calls fed -> timeline (committed fed) -> mid = [] \/ mid = [NewEpoch false; RemoveTrack] ->
  well_fed (fed ++ mid ++ [NewEpoch close]) true \/ committed fed = [].
Proof.
  intros Hf Ht Hm. destruct (committed fed) as [|g0 gs] eqn:Hc; [by right|left].
  assert (He : epochs [] (fed ++ mid ++ [NewEpoch close]) = if close then [committed fed; []] else [committed fed]).
  { rewrite epochs_feed by done. destruct Hm as [->| ->]; by destruct close. }
  rewrite <- Hc in Ht. split; rewrite He.
  - destruct close; repeat constructor; [done|apply timeline_nil|done].
  - destruct close; repeat constructor. by rewrite Hc.
  - intros _. destruct close; [by left|right]. exists (fed ++ mid). by rewrite app_assoc.
Qed.

Lemma well_fed_cons fed cs b :
  feed_calls fed -> timeline (committed fed) -> committed fed <> [] -> well_fed cs b -> well_fed (fed ++ [NewEpoch true] ++ cs) b.
Proof.
  intros Hf Ht Hne [Hl Hn Hc].
  assert (He : epochs [] (fed ++ [NewEpoch true] ++ cs) = committed fed :: epochs [] cs) by (by rewrite epochs_feed).
  split; rewrite He.
  - by constructor.
  - destruct (epochs [] cs) eqn:Hec; [by destruct (epochs_nonempty [] cs)|]. by constructor.
  - intros Hb. destruct (Hc Hb) as [Hlast|[cs' ->]]; [left|right].
    + destruct (epochs [] cs) eqn:Hec; [done|]. exact Hlast.
    + exists (fed ++ [NewEpoch true] ++ cs'). by rewrite <- !app_assoc.
Qed.

Lemma well_fed_skip fed cs b :
  feed_calls fed -> committed fed = [] -> well_fed cs b -> well_fed (fed ++ cs) b.
Proof.
  intros Hf Hc [Hl Hn Hcl]. assert (He : epochs [] (fed ++ cs) = epochs [] cs) by (rewrite epochs_feed, Hc; done).
  split; rewrite He; [done|done|]. intros Hb. destruct (Hcl Hb) as [?|[cs' ->]]; [by left|right]. exists (fed ++ cs'). by rewrite app_assoc.
Qed.

Lemma extent_app a b : extent (a ++ b) = extent a + extent b.
Proof. unfold extent. by rewrite committed_app, fmap_app, sum_app. Qed.

Definition arrivals_of (rounds : list round) : list arrival := concat (r_arrivals <$> rounds).

Lemma faithful_mono l l' c : l ⊆ l' -> faithful_append l c -> faithful_append l' c.
Proof. intros Hl. destruct c as [g p ok| | |]; try done. intros (seq & raw & now & Hin & ?). exists seq, raw, now. split; [by apply Hl|done]. Qed.

Lemma deferred_faithful l b ok : Forall (faithful_append l) (deferred b ok).
Proof. destruct b; by repeat constructor. Qed.

Lemma announced_faithful b rounds ok : Forall (faithful_append (arrivals_of rounds)) (announced b rounds ok).1.
Proof.
  revert b. induction rounds as [|r rounds IH]; intros b; [constructor|]. cbn [announced].
  pose proof (feedMedia_faithful (r_subscribed r) (r_arrivals r)) as Hf. destruct (feedMedia _ _) as [fed ret]. cbn [fst] in Hf.
  assert (Hfed : Forall (faithful_append (arrivals_of (r :: rounds))) fed).
  { eapply Forall_impl; [exact Hf|]. intros c. apply faithful_mono. unfold arrivals_of. cbn. set_solver. }
  destruct ret; [|exact Hfed]. cbn [negb]. pose proof (deferred_faithful (arrivals_of (r :: rounds))) as Hd.
  destruct (r_cancelled r); [by apply Forall_app|]. destruct (_ && _); [apply Forall_app; split; [done|by repeat constructor]|].
  destruct (r_ends r); [apply Forall_app; split; [done|by case_match; repeat constructor]|].
  specialize (IH false). destruct (announced false rounds ok) as [rest dn]. cbn [fst] in *.
  apply Forall_app. split; [done|]. apply Forall_app. split; [by case_match; repeat constructor|].
  eapply Forall_impl; [exact IH|]. intros c. apply faithful_mono. unfold arrivals_of. cbn. set_solver.
Qed.

Lemma announced_extent_nonneg b rounds ok :
  Forall arrival_ok (arrivals_of rounds) -> 0 <= extent (announced b rounds ok).1.
Proof. intros Ha. apply extent_nonneg. eapply committed_pos; [exact Ha|apply announced_faithful]. Qed.

(** A run of the loop, on its own. *)
Lemma announced_well_fed rounds close_ok :
  Forall arrival_ok (arrivals_of rounds) -> extent (feedAnnouncedTrack rounds close_ok).1 < 2 ^ 53 ->
  well_fed (feedAnnouncedTrack rounds close_ok).1 (feedAnnouncedTrack rounds close_ok).2.
Proof.
  intros Ha Hb. unfold feedAnnouncedTrack in *.
  induction rounds as [|r rounds IH]; [by apply well_fed_feed; [constructor|apply timeline_nil|]|].
  change (arrivals_of (r :: rounds)) with (r_arrivals r ++ arrivals_of rounds) in Ha. apply Forall_app in Ha as [Har Ha].
  pose proof (announced_extent_nonneg false rounds close_ok Ha) as Hn. specialize (IH Ha).
  cbn [announced] in *. pose proof (feed_timeline (r_subscribed r) (r_arrivals r) Har) as Ht.
  pose proof (extent_nonneg _ (committed_pos _ _ Har (feedMedia_faithful (r_subscribed r) (r_arrivals r)))) as Hpf.
  pose proof (feedMedia_calls (r_subscribed r) (r_arrivals r)) as Hf. destruct (feedMedia _ _) as [fed ret]. cbn [fst] in Ht, Hf, Hpf.
  assert (Hext : forall cs, extent (fed ++ cs) < 2 ^ 53 -> 0 <= extent cs -> timeline (committed fed)).
  { intros cs Hx Hnn. rewrite extent_app in Hx. apply Ht. lia. }
  destruct ret; cbn [negb orb fst snd] in *; [|apply well_fed_feed; [done|by apply Ht|done]].
  destruct (0 <? appended fed)%nat eqn:Happ; cbn [andb deferred] in *.
  - pose proof (committed_some _ Hf Happ) as Hne. destruct (r_cancelled r); cbn [fst snd] in *.
    { destruct (well_fed_end fed [] close_ok Hf) as [?|?]; [by eapply Hext|by left|done|done]. }
    destruct (r_epoch_ok r); cbn [negb fst snd] in *; [|by destruct (well_fed_end fed [NewEpoch false; RemoveTrack] close_ok Hf) as [?|?]; [eapply Hext|right| |]].
    destruct (r_ends r); cbn [fst snd] in *.
    { apply (well_fed_cons fed [] true Hf); [by eapply Hext|done|]. by apply well_fed_feed; [constructor|apply timeline_nil|]. }
    destruct (announced false rounds close_ok) as [rest dn]. cbn [fst snd] in *.
    apply well_fed_cons; [done|by eapply (Hext (_ ++ _))|done|]. apply IH. rewrite !extent_app in Hb.
    fold (extent fed) in Hpf. cbn in Hb. lia.
  - pose proof (committed_empty _ Hf Happ) as Hem. assert (Htf : timeline (committed fed)) by (rewrite Hem; apply timeline_nil).
    destruct (r_cancelled r); cbn [fst snd] in *; [rewrite app_nil_r in *; by apply well_fed_feed|].
    destruct (r_ends r); cbn [fst snd] in *; [rewrite app_nil_r in *; by apply well_fed_feed|].
    destruct (announced false rounds close_ok) as [rest dn]. cbn [fst snd app] in *. apply well_fed_skip; [done|done|].
    apply IH. rewrite extent_app in Hb. unfold extent in Hb at 1. rewrite Hem in Hb. cbn in Hb. exact Hb.
Qed.

(** The announcements of a broadcast one after the other, as the gate admits them:
    the first creates the track, each later one adopts it. *)
Record run := mkRun { n_epoch_ok : bool; n_rounds : list round; n_close_ok : bool }.

Definition run_calls (adopted : bool) (r : run) : list fcall := (openAndFeed adopted r.(n_epoch_ok) r.(n_rounds) r.(n_close_ok)).1.

Definition sessions (runs : list run) : list fcall :=
  match runs with [] => [] | r :: runs => run_calls false r ++ concat (run_calls true <$> runs) end.

Definition run_ok (r : run) : Prop :=
  Forall arrival_ok (arrivals_of r.(n_rounds)) /\ extent (feedAnnouncedTrack r.(n_rounds) r.(n_close_ok)).1 < 2 ^ 53.

Lemma epochs_then (Q : list GroupInfo -> Prop) cur a b :
  Forall Q (epochs cur a) -> (forall c, Q c -> Forall Q (epochs c b)) -> Forall Q (epochs cur (a ++ b)).
Proof.
  intros Ha Hb. revert cur Ha. induction a as [|x a IH]; intros cur Ha; [apply Hb; by apply Forall_cons in Ha as [? _]|].
  destruct x as [g p []| |[]|]; cbn in *; try by apply IH. apply Forall_cons in Ha as [? ?]. constructor; [done|by apply IH].
Qed.

Lemma adopted_epochs runs cur :
  Forall run_ok runs -> timeline cur -> Forall timeline (epochs cur (concat (run_calls true <$> runs))).
Proof.
  intros Hr. revert cur. induction Hr as [|r runs [Ha Hb] Hr IH]; intros cur Hc; [by repeat constructor|].
  change (concat (run_calls true <$> r :: runs)) with (run_calls true r ++ concat (run_calls true <$> runs)).
  apply epochs_then; [|exact IH]. unfold run_calls, openAndFeed. destruct (n_epoch_ok r); [|by repeat constructor].
  pose proof (announced_well_fed _ _ Ha Hb) as [Hl _ _]. destruct (feedAnnouncedTrack _ _). by constructor.
Qed.

End Feed.

(** ** A concrete broadcast *)

(** A feed of two groups, the second one offered twice, and a group that cannot be
    measured; silence; a feed that cannot subscribe; one more group, and the
    announcement ends. *)
Definition ex_rounds : list round := [
  mkRound true [Arrived 0 (Some (ex_raw [1000; 34000])) 500 true; Arrived 1 (Some (ex_raw [90000])) 600 true;
                Arrived 2 (Some (ex_raw [67000; 100000])) 700 true; Arrived 2 (Some (ex_raw [67000; 100000])) 800 false; Silent] false true false;
  mkRound false [] false true false;
  mkRound true [Arrived 0 (Some (ex_raw [5; 10])) 900 true; Cancelled] true true false].

Definition ex_runs : list run := [mkRun true ex_rounds true; mkRun true ex_rounds true].

Lemma ex_runs_groups :
  map (map (fun g : GroupInfo => (g.(MediaTime), g.(Duration)))) (epochs [] (sessions ex_runs)) =
  [[(0, 66000); (66000, 66000)]; [(0, 10)]; []; [(0, 66000); (66000, 66000)]; [(0, 10)]; []].
Proof. vm_compute. reflexivity. Qed.

