(* ===== verification/HlsGate.v ===== *)
(** * HlsGate: one handler at a time feeds a broadcast

    The gate of src/internal/hls/feed.go ([broadcastGate], [newBroadcastGate],
    [acquire] and the release function it returns) as a step machine: each
    section under the gate's mutex, each wait and each end of a context is a step
    of one of the handlers, which interleave freely. *)
From stdpp Require Import gmap strings.
From S2P Require Import Prelude.

(** ** The gate *)

(** A channel is a number, and closed when in [closed_chans]. *)
Record gate := mkGate { held : gmap string nat; closed_chans : gset nat; fresh_chan : nat }.

Definition newBroadcastGate : gate := mkGate ∅ ∅ 0.

(** Where a handler is in [acquire], or past it. *)
Inductive gpc := Trying | Waiting (ch : nat) | Holding (ch : nat) | Released | GaveUp.

Record handler := mkHandler { h_broadcast : string; h_pc : gpc }.

Record gstate := mkGState { the_gate : gate; handlers : gmap nat handler }.

Inductive gact := ATry | AWake | ACtxDone | ARelease.

Definition goto (h : handler) (pc : gpc) : handler := mkHandler h.(h_broadcast) pc.

(** One step of handler [i]; [None] when it cannot take it. [close] of a closed
    channel panics: the step then is refused, which [gate_exclusive] excludes. *)
Definition gstep (i : nat) (a : gact) (s : gstate) : option gstate :=
  h ← s.(handlers) !! i;
  let g := s.(the_gate) in
  let to g pc := Some (mkGState g (<[i := goto h pc]> s.(handlers))) in
  match a, h.(h_pc) with
  | ATry, Trying =>
      match g.(held) !! h.(h_broadcast) with
      | None =>
          let ch := g.(fresh_chan) in
          to (mkGate (<[h.(h_broadcast) := ch]> g.(held)) g.(closed_chans) (S ch)) (Holding ch)
      | Some ch => to g (Waiting ch)
      end
  | AWake, Waiting ch => if bool_decide (ch ∈ g.(closed_chans)) then to g Trying else None
  | ACtxDone, Waiting ch => to g GaveUp
  | ARelease, Holding ch =>
      if bool_decide (ch ∈ g.(closed_chans)) then None
      else to (mkGate (delete h.(h_broadcast) g.(held)) ({[ch]} ∪ g.(closed_chans)) g.(fresh_chan)) Released
  | _, _ => None
  end.

Fixpoint gruns (l : list (nat * gact)) (s : gstate) : option gstate :=
  match l with [] => Some s | (i, a) :: l => s ← gstep i a s; gruns l s end.

(** Handlers of the given broadcasts, about to acquire. *)
Definition gstart (bs : gmap nat string) : gstate := mkGState newBroadcastGate ((fun b => mkHandler b Trying) <$> bs).

(** ** Who holds what *)

Record gate_inv (s : gstate) : Prop := {
  gi_holds : forall i h ch, s.(handlers) !! i = Some h -> h.(h_pc) = Holding ch ->
    s.(the_gate).(held) !! h.(h_broadcast) = Some ch;
  gi_held : forall b ch, s.(the_gate).(held) !! b = Some ch ->
    ch < s.(the_gate).(fresh_chan) /\ (ch ∉ s.(the_gate).(closed_chans)) /\
    exists i h, s.(handlers) !! i = Some h /\ h.(h_broadcast) = b /\ h.(h_pc) = Holding ch;
  gi_one : forall i j h k ch, s.(handlers) !! i = Some h -> s.(handlers) !! j = Some k ->
    h.(h_pc) = Holding ch -> k.(h_pc) = Holding ch -> i = j;
  gi_waits : forall i h ch, s.(handlers) !! i = Some h -> h.(h_pc) = Waiting ch ->
    ch ∈ s.(the_gate).(closed_chans) \/ s.(the_gate).(held) !! h.(h_broadcast) = Some ch;
  gi_closed : forall ch, ch ∈ s.(the_gate).(closed_chans) -> ch < s.(the_gate).(fresh_chan);
  gi_inj : forall b c ch, s.(the_gate).(held) !! b = Some ch -> s.(the_gate).(held) !! c = Some ch -> b = c
}.

Lemma gate_inv_start bs : gate_inv (gstart bs).
Proof.
  split; cbn; try done.
  - intros i h ch Hi Hp. apply lookup_fmap_Some in Hi as (b & <- & _). done.
  - intros i j h k ch Hi _ Hp. apply lookup_fmap_Some in Hi as (b & <- & _). done.
  - intros i h ch Hi Hp. apply lookup_fmap_Some in Hi as (b & <- & _). done.
Qed.

(** A step that leaves the gate and moves a handler that holds nothing to a
    place where it holds nothing. *)
Lemma gate_inv_move s i h pc :
  gate_inv s -> s.(handlers) !! i = Some h -> (forall ch, h.(h_pc) <> Holding ch) -> (forall ch, pc <> Holding ch) ->
  (forall ch, pc = Waiting ch -> ch ∈ s.(the_gate).(closed_chans) \/ s.(the_gate).(held) !! h.(h_broadcast) = Some ch) ->
  gate_inv (mkGState s.(the_gate) (<[i := goto h pc]> s.(handlers))).
Proof.
  intros [H1 H2 H3 H4 H5 H6] Hi Hn Hpc Hw. split; cbn; [| | | |done|done].
  - intros j k ch [[-> <-]|[Hij Hj]]%lookup_insert_Some Hp; [by destruct (Hpc ch)|by eapply H1].
  - intros b ch Hb. destruct (H2 b ch Hb) as (? & ? & j & k & Hj & Hk & Hp). split; [done|]. split; [done|]. exists j, k.
    split; [|done]. apply lookup_insert_Some. right. split; [intros <-|done]. rewrite Hi in Hj. injection Hj as ->. by destruct (Hn ch).
  - intros j l k m ch [[-> <-]|[Hij Hj]]%lookup_insert_Some [[-> <-]|[Hil Hl]]%lookup_insert_Some Hp Hq;
      [done|by destruct (Hpc ch)|by destruct (Hpc ch)|by eapply H3].
  - intros j k ch [[-> <-]|[Hij Hj]]%lookup_insert_Some Hp; [by apply Hw|by eapply H4].
Qed.

Lemma gate_inv_step i a s s' : gate_inv s -> gstep i a s = Some s' -> gate_inv s'.
Proof.
  intros Hs Hst. unfold gstep in Hst. apply bind_Some in Hst as (h & Hi & Hst).
  destruct a, (h_pc h) as [|w|w| |] eqn:Hpc; try done.
  - destruct (held (the_gate s) !! h_broadcast h) as [ch|] eqn:Hb; injection Hst as <-.
    + apply gate_inv_move; try done; [congruence|]. intros c [= <-]. by right.
    + destruct Hs as [H1 H2 H3 H4 H5 H6]. remember (fresh_chan (the_gate s)) as ch eqn:Hch in *.
      assert (Hfresh : forall b c, held (the_gate s) !! b = Some c -> c <> ch) by (intros b c Hc; destruct (H2 _ _ Hc) as [? _]; lia).
      assert (Hold : forall j k c, handlers s !! j = Some k -> h_pc k = Holding c -> c <> ch) by (intros j k c Hj Hk; eapply Hfresh, H1; done).
      split; cbn.
      * intros j k c [[-> <-]|[Hij Hj]]%lookup_insert_Some Hp; [injection Hp as <-; apply lookup_insert_eq|].
        rewrite lookup_insert_ne; [by eapply H1|]. intros He. pose proof (H1 _ _ _ Hj Hp) as Hc. congruence.
      * intros b c [[<- <-]|[Hne Hc]]%lookup_insert_Some.
        -- split; [lia|]. split; [intros Hin; apply H5 in Hin; lia|]. exists i, (goto h (Holding ch)). split; [apply lookup_insert_eq|done].
        -- destruct (H2 _ _ Hc) as (Hlt & Hncl & j & k & Hj & Hk & Hp). split; [lia|]. split; [done|]. exists j, k. split; [|done].
           rewrite lookup_insert_ne; [done|]. intros ->. rewrite Hi in Hj. injection Hj as ->. congruence.
      * intros j l k m c [[-> <-]|[Hij Hj]]%lookup_insert_Some [[-> <-]|[Hil Hl]]%lookup_insert_Some Hp Hq; [done| | |by eapply H3].
        -- injection Hp as <-. by destruct (Hold _ _ _ Hl Hq).
        -- injection Hq as <-. by destruct (Hold _ _ _ Hj Hp).
      * intros j k c [[-> <-]|[Hij Hj]]%lookup_insert_Some Hp; [done|]. destruct (H4 _ _ _ Hj Hp) as [?|Hc]; [by left|right].
        rewrite lookup_insert_ne; [done|]. congruence.
      * intros c Hc. apply H5 in Hc. lia.
      * intros b c d [[<- E]|[? Hx]]%lookup_insert_Some [[<- F]|[? Hy]]%lookup_insert_Some; [done| | |by eapply H6].
        -- by destruct (Hfresh _ _ Hy).
        -- by destruct (Hfresh _ _ Hx).
  - destruct (bool_decide _); [|done]. injection Hst as <-. apply gate_inv_move; try done; congruence.
  - injection Hst as <-. apply gate_inv_move; try done; congruence.
  - case_bool_decide as Hcl; [done|]. injection Hst as <-. destruct Hs as [H1 H2 H3 H4 H5 H6]. pose proof (H1 _ _ _ Hi Hpc) as Hb.
    split; cbn.
    + intros j k c [[-> <-]|[Hij Hj]]%lookup_insert_Some Hp; [done|]. rewrite lookup_delete_ne; [by eapply H1|].
      intros He. pose proof (H1 _ _ _ Hj Hp) as Hc. rewrite <- He, Hb in Hc. injection Hc as ->. by apply Hij, (H3 i j h k c).
    + intros b c [Hne Hc]%lookup_delete_Some. destruct (H2 _ _ Hc) as (Hlt & Hncl & j & k & Hj & Hk & Hp). split; [done|].
      split; [|exists j, k; split; [|done]].
      * intros [->%elem_of_singleton|?]%elem_of_union; [|done]. by apply Hne, (H6 _ _ w).
      * rewrite lookup_insert_ne; [done|]. intros ->. rewrite Hi in Hj. injection Hj as ->. congruence.
    + intros j l k m c [[-> <-]|[Hij Hj]]%lookup_insert_Some [[-> <-]|[Hil Hl]]%lookup_insert_Some Hp Hq; try done. by eapply H3.
    + intros j k c [[-> <-]|[Hij Hj]]%lookup_insert_Some Hp; [done|]. destruct (H4 _ _ _ Hj Hp) as [?|Hc]; [left; set_solver|].
      destruct (decide (h_broadcast h = h_broadcast k)) as [He|He]; [left|right; by rewrite lookup_delete_ne].
      rewrite <- He, Hb in Hc. injection Hc as ->. set_solver.
    + intros c [->%elem_of_singleton|?]%elem_of_union; [|by apply H5]. by destruct (H2 _ _ Hb).
    + intros b c d [? Hx]%lookup_delete_Some [? Hy]%lookup_delete_Some. by eapply H6.
Qed.

Lemma gate_inv_runs l s s' : gate_inv s -> gruns l s = Some s' -> gate_inv s'.
Proof.
  revert s. induction l as [|[i a] l IH]; intros s Hs Hr; [by injection Hr as <-|].
  cbn in Hr. apply bind_Some in Hr as (s1 & Hs1 & Hr). eapply IH; [|exact Hr]. by eapply gate_inv_step.
Qed.

(** However the handlers' steps interleave, at most one holds a broadcast at a
    time; a handler that waits can go on at once, or waits for the holder of its
    own broadcast, whose release is always possible and wakes it; a broadcast
    nobody holds is not held up. *)
Theorem gate_exclusive bs l s :
  gruns l (gstart bs) = Some s ->
  (forall i j h k c d, s.(handlers) !! i = Some h -> s.(handlers) !! j = Some k ->
     h.(h_pc) = Holding c -> k.(h_pc) = Holding d -> h.(h_broadcast) = k.(h_broadcast) -> i = j) /\
  (forall i h c, s.(handlers) !! i = Some h -> h.(h_pc) = Waiting c ->
     is_Some (gstep i AWake s) \/
     exists j k s', s.(handlers) !! j = Some k /\ k.(h_broadcast) = h.(h_broadcast) /\ k.(h_pc) = Holding c /\
       gstep j ARelease s = Some s' /\ is_Some (gstep i AWake s')) /\
  (forall i h, s.(handlers) !! i = Some h -> h.(h_pc) = Trying ->
     (forall j k c, s.(handlers) !! j = Some k -> k.(h_broadcast) = h.(h_broadcast) -> k.(h_pc) <> Holding c) ->
     exists s' k c, gstep i ATry s = Some s' /\ s'.(handlers) !! i = Some k /\ k.(h_pc) = Holding c).
Proof.
  intros Hr. pose proof (gate_inv_runs l _ _ (gate_inv_start bs) Hr) as [H1 H2 H3 H4 _ _]. split; [|split].
  - intros i j h k c d Hi Hj Hp Hq He. pose proof (H1 _ _ _ Hi Hp) as Hc. pose proof (H1 _ _ _ Hj Hq) as Hd.
    rewrite He, Hd in Hc. injection Hc as ->. by eapply H3.
  - intros i h c Hi Hp. unfold gstep at 1. rewrite Hi. cbn [mbind option_bind]. rewrite Hp.
    destruct (H4 _ _ _ Hi Hp) as [Hc|Hc]; [left; rewrite bool_decide_true by done; by eexists|right].
    destruct (H2 _ _ Hc) as (_ & Hncl & j & k & Hj & Hk & Hq). exists j, k. eexists. do 3 (split; [done|]).
    unfold gstep. rewrite Hj. cbn [mbind option_bind]. rewrite Hq, bool_decide_false by done. split; [done|].
    cbn. rewrite lookup_insert_ne by (intros ->; congruence). rewrite Hi. cbn. rewrite Hp, bool_decide_true by set_solver. by eexists.
  - intros i h Hi Hp Hn. unfold gstep. rewrite Hi. cbn [mbind option_bind]. rewrite Hp.
    destruct (held (the_gate s) !! h_broadcast h) as [ch|] eqn:Hb.
    + destruct (H2 _ _ Hb) as (_ & _ & j & k & Hj & Hk & Hq). by destruct (Hn j k ch).
    + eexists _, _, _. split; [done|]. cbn. split; [apply lookup_insert_eq|done].
Qed.

(** Two handlers of one broadcast and one of another: the second waits for the
    first, is woken by its release and holds the broadcast. *)
Definition ex_bs : gmap nat string := {[0 := "/live/cam1"; 1 := "/live/cam1"; 2 := "/live/cam2"]}%string.
Definition ex_steps : list (nat * gact) := [(0, ATry); (1, ATry); (2, ATry); (0, ARelease); (1, AWake); (1, ATry)].

Lemma ex_gate_run :
  (fun s => h_pc <$> s.(handlers)) <$> gruns ex_steps (gstart ex_bs) = Some {[0 := Released; 1 := Holding 2; 2 := Holding 1]}.
Proof. vm_compute. reflexivity. Qed.

Lemma gate_exclusive_witness :
  exists s, gruns (take 3 ex_steps) (gstart ex_bs) = Some s /\
    (is_Some (gstep 1 AWake s) \/
     exists j k s', s.(handlers) !! j = Some k /\ k.(h_broadcast) = "/live/cam1"%string /\ k.(h_pc) = Holding 0 /\
       gstep j ARelease s = Some s' /\ is_Some (gstep 1 AWake s')).
Proof.
  eexists. split; [vm_compute; reflexivity|].
  refine (proj1 (proj2 (gate_exclusive ex_bs (take 3 ex_steps) _ _)) 1 (mkHandler "/live/cam1"%string (Waiting 0)) 0 _ _); by vm_compute.
Defined.
