(* ===== verification/HlsManifest.v ===== *)
(** * HlsManifest: the window a manifest lists, and the manifests

    How the groups of a track become a manifest's window
    (src/internal/hls/stream_handler.go: [gather], [epochsToDrop], [evict],
    [renderOpts]) and the manifests of it: the HLS media playlist line by line
    (src/internal/hls/playlist.go: [renderHLS], [carry], [maxSegmentSeconds],
    [windowSeconds]) and the timeline of the DASH description
    (src/internal/hls/dash.go: [renderDASH], [dashAvailabilityStartTime],
    [mediaOffset]).

    A line is a value of [line]: how its numbers and dates are printed is left to
    Go's formatting. *)
From Stdlib Require Import Floats.SpecFloat.
From S2P Require Import Prelude GoStrings TokenPath GoPath GoTime GoFloat GoBytes Frames Cmaf Hls HlsFeed.

Open Scope Z_scope.

(** ** The window: stream_handler.go *)

Section Manifest.
Context `{GroupIDs}.

Abbreviation epoch_of g := (Epoch g.(ID)).

Record streamEntry := mkEntry { e_info : GroupInfo; discontinuity : bool }.

Record manifestWindow := mkWindow {
  groups : list GroupInfo; dropped : Z; discontinuities : Z; precedingEpoch : Z }.

(** [evict], on the counts of a window. *)
Definition evict (w : manifestWindow) (e : streamEntry) : manifestWindow :=
  mkWindow w.(groups) (wrapu 64 (w.(dropped) + 1))
    (if e.(discontinuity) then wrapu 64 (w.(discontinuities) + 1) else w.(discontinuities)) (epoch_of e.(e_info)).

(** What [gather] keeps while it walks the track. *)
Record walk := mkWalk { ring : list streamEntry; next : Z; prevEpoch : Z; seen : Z; out : manifestWindow }.

Definition walk0 : walk := mkWalk [] 0 0 0 (mkWindow [] 0 0 0).

(** The body of the loop; [None] when an index is out of range. *)
Definition walk_next (window : Z) (st : walk) (g : GroupInfo) : option walk :=
  let epoch := epoch_of g in
  let e := mkEntry g ((0 <? st.(seen)) && negb (epoch =? st.(prevEpoch))) in
  let seen := wrapu 64 (st.(seen) + 1) in
  if (window <=? 0) || (len st.(ring) <? window) then
    Some (mkWalk (st.(ring) ++ [e]) st.(next) epoch seen st.(out))
  else
    old ← st.(ring) !! Z.to_nat st.(next);
    Some (mkWalk (<[Z.to_nat st.(next) := e]> st.(ring)) (Z.rem (st.(next) + 1) window) epoch seen (evict st.(out) old)).

Fixpoint walk_all (window : Z) (st : walk) (l : list GroupInfo) : option walk :=
  match l with [] => Some st | g :: l => st ← walk_next window st g; walk_all window st l end.

(** [epochsToDrop]: the loop down from index [i]. *)
Fixpoint epochs_loop (epochWindow : Z) (ordered : list streamEntry) (i : nat) (epoch lifetimes : Z) : nat :=
  match i with
  | O => 0
  | S i =>
      match ordered !! i with
      | None => 0
      | Some e =>
          if epoch_of e.(e_info) =? epoch then epochs_loop epochWindow ordered i epoch lifetimes
          else if epochWindow <? lifetimes + 1 then S i
          else epochs_loop epochWindow ordered i (epoch_of e.(e_info)) (lifetimes + 1)
      end
  end.

Definition epochsToDrop (epochWindow : Z) (ordered : list streamEntry) : nat :=
  match last ordered with
  | Some e => if epochWindow <=? 0 then 0 else epochs_loop epochWindow ordered (length ordered) (epoch_of e.(e_info)) 1
  | None => 0
  end.

Fixpoint evict_front (n : nat) (w : manifestWindow) (ordered : list streamEntry) : option (manifestWindow * list streamEntry) :=
  match n, ordered with
  | O, _ => Some (w, ordered)
  | S n, e :: ordered => evict_front n (evict w e) ordered
  | S n, [] => None
  end.

(** [gather], of what the ledger's reader yields; [failed] when the reader ended
    with an error. *)
Definition gather (window epochWindow : Z) (l : list GroupInfo) (failed : bool) : option (option manifestWindow) :=
  st ← walk_all window walk0 l;
  if failed then Some None
  else
    let ordered := if (0 <? window) && (len st.(ring) =? window)
                   then drop (Z.to_nat st.(next)) st.(ring) ++ take (Z.to_nat st.(next)) st.(ring) else st.(ring) in
    '(w, ordered) ← evict_front (epochsToDrop epochWindow ordered) st.(out) ordered;
    Some (Some (mkWindow (e_info <$> ordered) w.(dropped) w.(discontinuities) w.(precedingEpoch))).

(** ** The HLS playlist: playlist.go *)

(** How an identity is printed, and what Go makes of a float64 out of int's
    range. *)
Context (IDString : GroupID -> string) (int64_oor : float64 -> Z).

Definition segExt : string := ".m4s".
Definition initName : string := "init" +:+ segExt.

Record renderOpts := mkOpts {
  queryParam : string; sliding : bool; mediaSequence : Z; discontinuitySequence : Z; o_precedingEpoch : Z }.

(** The handler's [renderOpts]. *)
Definition handler_opts (window : Z) (param : string) (w : manifestWindow) : renderOpts :=
  mkOpts param (0 <? window) w.(dropped) w.(discontinuities) w.(precedingEpoch).

Definition carry (o : renderOpts) (uri : string) : string :=
  if bool_decide (o.(queryParam) = "") then uri
  else uri +:+ "?" +:+ o.(queryParam) +:+ "={$" +:+ o.(queryParam) +:+ "}".

(** [float64(a) / float64(b)], and [int(math.Ceil(f))] of one. *)
Definition quotient (a b : Z) : float64 := SFdiv 53 1024 (float_of_Z a) (float_of_Z b).

Definition ceil (f : float64) : Z :=
  match f with
  | S754_finite s m e =>
      let n := (if s then Z.neg m else Z.pos m) in
      let z := if 0 <=? e then n * 2 ^ e else - ((- n) / 2 ^ (- e)) in
      if (int64_min <=? z) && (z <=? int64_max) then z else int64_oor f
  | S754_zero _ => 0
  | _ => int64_oor f
  end.

Definition maxSegmentSeconds (timescale : Z) (l : list GroupInfo) : Z :=
  ceil (foldl (fun m g =>
    if g.(Duration) <=? 0 then m
    else let s := quotient g.(Duration) timescale in if SFltb m s then s else m) (S754_zero false) l).

Definition windowSeconds (timescale : Z) (l : list GroupInfo) : Z :=
  ceil (quotient (foldl (fun t g => if 0 <? g.(Duration) then wraps 64 (t + g.(Duration)) else t) 0 l) timescale).

(** The lines of a media playlist; [EXTINF] holds the duration whose seconds are
    printed, [PROGRAM_DATE_TIME] the instant. *)
Inductive line :=
| EXTM3U | VERSION (v : Z) | DEFINE_QUERYPARAM (param : string) | TARGETDURATION (seconds : Z)
| MEDIA_SEQUENCE (n : Z) | DISCONTINUITY_SEQUENCE (n : Z) | PLAYLIST_TYPE_EVENT | MAP (uri : string)
| DISCONTINUITY | PROGRAM_DATE_TIME (ns : Z) | EXTINF (duration timescale : Z) | SEGMENT (uri : string).

Fixpoint hls_segments (o : renderOpts) (timescale : Z) (i : nat) (prev : Z) (l : list GroupInfo) : list line :=
  match l with
  | [] => []
  | g :: l =>
      (if ((0 <? i)%nat || negb (prev =? 0)) && negb (epoch_of g =? prev) then [DISCONTINUITY] else []) ++
      (if g.(Wallclock) =? 0 then [] else [PROGRAM_DATE_TIME g.(Wallclock)]) ++
      [EXTINF g.(Duration) timescale; SEGMENT (carry o (IDString g.(ID) +:+ segExt))] ++
      hls_segments o timescale (S i) (epoch_of g) l
  end.

(** [renderHLS]; the error names the group without a duration. *)
Definition renderHLS (timescale : Z) (l : list GroupInfo) (o : renderOpts) : result GroupID (list line) :=
  match list_find (fun g => g.(Duration) <= 0) l with
  | Some (_, g) => Err g.(ID)
  | None =>
      Ok ([EXTM3U] ++
          (if bool_decide (o.(queryParam) = "") then [VERSION 6] else [VERSION 11; DEFINE_QUERYPARAM o.(queryParam)]) ++
          [TARGETDURATION (maxSegmentSeconds timescale l); MEDIA_SEQUENCE o.(mediaSequence)] ++
          (if 0 <? o.(discontinuitySequence) then [DISCONTINUITY_SEQUENCE o.(discontinuitySequence)] else []) ++
          (if o.(sliding) then [] else [PLAYLIST_TYPE_EVENT]) ++
          [MAP (carry o initName)] ++
          hls_segments o timescale 0 o.(o_precedingEpoch) l)
  end.

(** [serveHLS]: the playlist of a track, [None] for the internal errors. *)
Definition serveHLS (window epochWindow : Z) (param : string) (timescale : Z) (l : list GroupInfo) (failed : bool) : option (list line) :=
  w ← gather window epochWindow l failed;
  w ← w;
  match renderHLS timescale w.(groups) (handler_opts window param w) with Ok ls => Some ls | Err _ => None end.

(** ** The DASH timeline: dash.go *)

(** The [S] elements: a start where one is stated, and a duration. *)
Fixpoint dash_S (first : bool) (prev : Z) (l : list GroupInfo) : list (option Z * Z) :=
  match l with
  | [] => []
  | g :: l =>
      (if first || negb (epoch_of g =? prev) then (Some g.(MediaTime), g.(Duration)) else (None, g.(Duration)))
      :: dash_S false (epoch_of g) l
  end.

Definition mediaOffset (mediaTime timescale : Z) : Z :=
  if timescale =? 0 then 0
  else wraps 64 (wraps 64 (Z.quot mediaTime timescale * second) + Z.quot (wraps 64 (Z.rem mediaTime timescale * second)) timescale).

(** The instant, before it is printed. *)
Fixpoint dashAvailabilityStartTime (timescale : Z) (l : list GroupInfo) : option Z :=
  match l with
  | [] => None
  | g :: l =>
      if g.(Wallclock) =? 0 then dashAvailabilityStartTime timescale l
      else Some (g.(Wallclock) + wraps 64 (- mediaOffset g.(MediaTime) timescale))
  end.

(** What varies in the MPD. *)
Record mpd := mkMPD {
  m_param : bool; m_start : option Z; m_buffer : Z; m_depth : option Z; m_timescale : Z;
  m_timeline : list (option Z * Z); m_urls : list string }.

Definition renderDASH (timescale : Z) (l : list GroupInfo) (o : renderOpts) : result GroupID mpd :=
  match list_find (fun g => g.(Duration) <= 0) l with
  | Some (_, g) => Err g.(ID)
  | None =>
      Ok (mkMPD (negb (bool_decide (o.(queryParam) = ""))) (dashAvailabilityStartTime timescale l)
            (maxSegmentSeconds timescale l) (if o.(sliding) then Some (windowSeconds timescale l) else None)
            timescale (dash_S true 0 l) ((fun g => IDString g.(ID) +:+ segExt) <$> l))
  end.

(** ** Requests for a track: stream_handler.go *)

(** The answers: a body, 404, or the generic 500. *)
Inductive stream_answer :=
| SPlaylist (lines : list line) | SMPD (m : mpd) | SInit (init : bytes) | SSegment (data : bytes)
| SNotFound | SInternalError.

(** What [Reader.Lookup] answers: the group, that no group has the id (or its
    epoch does not exist), or a failure. *)
Inductive lookup_answer := Found (g : GroupInfo) | NoGroup | LookupFailed.

(** The ledger's reader, for one request: reading a group identity off a name,
    which is [None] for no identity and for the zero one, looking a group up and
    reading its payload; the groups [Next] yields and whether it then fails; and
    whether a reader opens at all. *)
Record ledgerTrack := mkTrack {
  ParseGroupID : string -> option GroupID; Lookup : GroupID -> lookup_answer; ReadGroup : GroupInfo -> option bytes;
  t_groups : list GroupInfo; t_failed : bool; t_opens : bool }.

Record streamHandler := mkHandler {
  track : ledgerTrack; s_timescale : Z; packager : bytes; s_window : Z; s_epochWindow : Z; s_queryParam : string }.

(** [newStreamHandler], for a track that is there and a packager. *)
Definition newStreamHandler (t : ledgerTrack) (timescale : Z) (init : bytes) (window epochWindow : Z) (param : string) : option streamHandler :=
  if timescale =? Timescale then Some (mkHandler t timescale init window epochWindow param) else None.

Definition parseSegmentID (t : ledgerTrack) (base : string) : option GroupID := t.(ParseGroupID) (TrimSuffix base segExt).

Definition serveSegment `{Mp4} (h : streamHandler) (base : string) : stream_answer :=
  match parseSegmentID h.(track) base with
  | None => SNotFound
  | Some id =>
      if negb h.(track).(t_opens) then SInternalError
      else
        match h.(track).(Lookup) id with
        | NoGroup => SNotFound
        | LookupFailed => SInternalError
        | Found g =>
            match h.(track).(ReadGroup) g with
            | None => SInternalError
            | Some payload => match fragment g payload with Ok data => SSegment data | Err _ => SInternalError end
            end
        end
  end.

Definition serveManifest (h : streamHandler) : option manifestWindow :=
  if h.(track).(t_opens)
  then w ← gather h.(s_window) h.(s_epochWindow) h.(track).(t_groups) h.(track).(t_failed); w else None.

Definition stream_ServeHTTP `{Mp4} (h : streamHandler) (urlPath : string) : stream_answer :=
  let base := Base urlPath in
  let opts := handler_opts h.(s_window) h.(s_queryParam) in
  if HasSuffix base ".m3u8" then
    match serveManifest h with
    | Some w => match renderHLS h.(s_timescale) w.(groups) (opts w) with Ok ls => SPlaylist ls | Err _ => SInternalError end
    | None => SInternalError
    end
  else if HasSuffix base ".mpd" then
    match serveManifest h with
    | Some w => match renderDASH h.(s_timescale) w.(groups) (opts w) with Ok m => SMPD m | Err _ => SInternalError end
    | None => SInternalError
    end
  else if bool_decide (base = initName) then SInit h.(packager)
  else serveSegment h base.

(** ** The window, from the log *)

(** The log with, for each group, whether it opens an epoch after another. *)
Fixpoint entries (prev : option Z) (l : list GroupInfo) : list streamEntry :=
  match l with
  | [] => []
  | g :: l => mkEntry g (match prev with Some p => negb (epoch_of g =? p) | None => false end) :: entries (Some (epoch_of g)) l
  end.

(** How many timelines were reset among the entries. *)
Definition resets (es : list streamEntry) : Z := len (filter (fun e => discontinuity e = true) es).

(** The lifetimes a list of groups shows: runs of one epoch. *)
Fixpoint lifetimes (l : list GroupInfo) : Z :=
  match l with
  | [] => 0
  | g :: ((h :: _) as rest) => (if epoch_of g =? epoch_of h then 0 else 1) + lifetimes rest
  | [_] => 1
  end.

(** What a manifest lists and states, cut off after [k] groups of the log. *)
Definition cut_at (l : list GroupInfo) (k : nat) : manifestWindow :=
  mkWindow (drop k l) (Z.of_nat k) (resets (take k (entries None l)))
    (match k with O => 0 | S k => match l !! k with Some g => epoch_of g | None => 0 end end).

Lemma entries_length p l : length (entries p l) = length l.
Proof. revert p. induction l as [|g l IH]; intros p; [done|]. cbn. by rewrite IH. Qed.

Lemma entries_info p l : e_info <$> entries p l = l.
Proof. revert p. induction l as [|g l IH]; intros p; [done|]. cbn. by rewrite IH. Qed.

Definition last_epoch (l : list GroupInfo) : option Z := (fun g => epoch_of g) <$> last l.

Lemma entries_snoc l g :
  entries None (l ++ [g]) =
  entries None l ++ [mkEntry g (match last_epoch l with Some p => negb (epoch_of g =? p) | None => false end)].
Proof.
  assert (Hgen : forall p, entries p (l ++ [g]) = entries p l ++
    [mkEntry g (match (match last_epoch l with Some e => Some e | None => p end) with Some p => negb (epoch_of g =? p) | None => false end)]).
  { induction l as [|h l IH]; intros p; [done|]. cbn [entries app]. f_equal. rewrite IH. unfold last_epoch. destruct l as [|k l]; [done|].
    change (last (h :: k :: l)) with (last (k :: l)). destruct (last (k :: l)) eqn:Hl; [done|]. by apply last_None in Hl. }
  rewrite Hgen. by destruct (last_epoch l).
Qed.

(** Evicting entries one by one states what precedes the rest. *)
Lemma evict_counts es w :
  0 <= w.(dropped) -> 0 <= w.(discontinuities) -> w.(dropped) + len es < 2 ^ 64 -> w.(discontinuities) + len es < 2 ^ 64 ->
  foldl evict w es =
  mkWindow w.(groups) (w.(dropped) + len es) (w.(discontinuities) + resets es)
    (match last es with Some e => epoch_of e.(e_info) | None => w.(precedingEpoch) end).
Proof.
  revert w. induction es as [|e es IH]; intros w Hd Hc Hl1 Hl2.
  - destruct w. cbn. unfold resets. cbn. by rewrite !Z.add_0_r.
  - cbn [foldl length] in *. rewrite IH; cbn [dropped discontinuities groups precedingEpoch evict].
    + rewrite !(wrapu_id 64) by (unfold in_u; lia). f_equal; [lia| |].
      * unfold resets. rewrite filter_cons. destruct (discontinuity e); [rewrite decide_True by done|rewrite decide_False by done]; cbn [length]; lia.
      * destruct es as [|e' es]; [done|]. change (last (e :: e' :: es)) with (last (e' :: es)).
        destruct (last (e' :: es)) eqn:Hl; [done|]. by apply last_None in Hl.
    + rewrite wrapu_id by (unfold in_u; lia). lia.
    + destruct (discontinuity e); [|done]. rewrite wrapu_id by (unfold in_u; lia). lia.
    + rewrite wrapu_id by (unfold in_u; lia). lia.
    + destruct (discontinuity e); [|lia]. rewrite wrapu_id by (unfold in_u; lia). lia.
Qed.

(** ** The walk keeps a ring of the newest groups *)

(** The entries of the ring in commit order. *)
Definition unrolled (st : walk) : list streamEntry := drop (Z.to_nat st.(next)) st.(ring) ++ take (Z.to_nat st.(next)) st.(ring).

(** How many groups of a log precede the ring. *)
Definition behind (window : Z) (n : nat) : nat := if window <=? 0 then 0 else n - Z.to_nat window.

(** After the groups [p] of a log. *)
Record walked (window : Z) (p : list GroupInfo) (st : walk) : Prop := {
  k_ring : unrolled st = drop (behind window (length p)) (entries None p);
  k_next : 0 <= st.(next) /\ (st.(next) = 0 \/ st.(next) < len st.(ring) /\ len st.(ring) = window);
  k_out : st.(out) = foldl evict (mkWindow [] 0 0 0) (take (behind window (length p)) (entries None p));
  k_seen : st.(seen) = len p;
  k_prev : forall e, last_epoch p = Some e -> st.(prevEpoch) = e
}.

Lemma ring_length window p st : walked window p st -> len st.(ring) = len p - Z.of_nat (behind window (length p)).
Proof.
  intros [Hr _ _ _ _]. apply (f_equal length) in Hr. unfold unrolled in Hr.
  rewrite length_app, !length_drop, length_take, entries_length in Hr.
  assert (behind window (length p) <= length p)%nat by (unfold behind; destruct (window <=? 0); lia). lia.
Qed.

(** Overwriting the oldest entry of a full ring turns it by one. *)
Lemma turn (r : list streamEntry) (n : Z) e old :
  0 <= n -> n < len r -> r !! Z.to_nat n = Some old ->
  let r' := <[Z.to_nat n := e]> r in let n' := Z.rem (n + 1) (len r) in
  drop (Z.to_nat n) r ++ take (Z.to_nat n) r = old :: tail (drop (Z.to_nat n) r ++ take (Z.to_nat n) r) /\
  drop (Z.to_nat n') r' ++ take (Z.to_nat n') r' = tail (drop (Z.to_nat n) r ++ take (Z.to_nat n) r) ++ [e].
Proof.
  intros H0 Hn Ho. apply list_elem_of_split_length in Ho as (a & b & -> & Ha). cbv zeta.
  rewrite Ha, drop_app_length, take_app_length, insert_app_r_alt, Nat.sub_diag by lia. cbn [insert list_insert app tail]. split; [done|].
  rewrite Z.rem_mod_nonneg by (rewrite ?length_app in *; cbn [length] in *; lia). destruct b as [|x b].
  - replace (n + 1) with (len (a ++ [old])) by (rewrite length_app; cbn; lia). rewrite Z.mod_same by (rewrite length_app; cbn; lia).
    cbn [drop take Z.to_nat app]. by rewrite app_nil_r.
  - rewrite Z.mod_small by (rewrite length_app; cbn [length]; lia). replace (Z.to_nat (n + 1)) with (length (a ++ [e])) by (rewrite length_app; cbn; lia).
    change (a ++ e :: x :: b) with (a ++ [e] ++ x :: b). rewrite app_assoc, drop_app_length, take_app_length. by rewrite <- app_assoc.
Qed.

Lemma walked_next window p st g :
  walked window p st -> len p + 1 < 2 ^ 64 -> exists st', walk_next window st g = Some st' /\ walked window (p ++ [g]) st'.
Proof.
  intros Hw Hp. pose proof (ring_length _ _ _ Hw) as Hlen. destruct Hw as [Hr [Hn0 Hn] Ho Hs Hpr].
  set (e := mkEntry g ((0 <? st.(seen)) && negb (epoch_of g =? st.(prevEpoch)))).
  assert (Hent : entries None (p ++ [g]) = entries None p ++ [e]).
  { rewrite entries_snoc. do 3 f_equal. unfold e. rewrite Hs. destruct (last_epoch p) as [q|] eqn:Hq.
    - rewrite (Hpr q eq_refl). destruct (Z.ltb_spec 0 (len p)); [done|]. destruct p; [done|cbn in *; lia].
    - unfold last_epoch in Hq. destruct (last p) eqn:Hl; [done|]. apply last_None in Hl as ->. done. }
  assert (Hseen : wrapu 64 (st.(seen) + 1) = len (p ++ [g])) by (rewrite Hs, length_app, wrapu_id; cbn; unfold in_u; lia).
  assert (Hprev : forall q, last_epoch (p ++ [g]) = Some q -> epoch_of g = q) by (unfold last_epoch; rewrite last_snoc; by intros q [= <-]).
  unfold walk_next. fold e. destruct ((window <=? 0) || (len st.(ring) <? window)) eqn:Hc.
  - eexists. split; [done|]. assert (Hz : st.(next) = 0).
    { destruct Hn as [?|[? He]]; [done|]. apply orb_true_iff in Hc as [Hc%Z.leb_le|Hc%Z.ltb_lt]; lia. }
    assert (Hb : behind window (length (p ++ [g])) = behind window (length p) /\ (behind window (length p) <= length p)%nat).
    { unfold behind in *. rewrite length_app. cbn. destruct (Z.leb_spec window 0); [lia|]. cbn [orb] in Hc. apply Z.ltb_lt in Hc. lia. }
    destruct Hb as [Hb Hbl]. split; cbn [ring next out seen prevEpoch]; rewrite ?Hb, ?Hent; [|by split; [|left]| |done|exact Hprev].
    + unfold unrolled in *. cbn [ring next]. rewrite Hz in Hr |- *. change (Z.to_nat 0) with 0%nat in *.
      rewrite drop_0, take_0, app_nil_r in Hr. rewrite drop_0, take_0, app_nil_r, Hr.
      rewrite drop_app_le; [done|]. by rewrite entries_length.
    + rewrite take_app_le; [done|]. by rewrite entries_length.
  - apply orb_false_iff in Hc as [Hc1%Z.leb_gt Hc2%Z.ltb_ge]. assert (Hfull : len st.(ring) = window).
    { unfold behind in Hlen. destruct (Z.leb_spec window 0); lia. }
    assert (Hlt : st.(next) < len st.(ring)) by lia.
    destruct (lookup_lt_is_Some_2 st.(ring) (Z.to_nat st.(next))) as [old Hold]; [lia|]. rewrite Hold. cbn [mbind option_bind].
    destruct (turn st.(ring) st.(next) e old Hn0 Hlt Hold) as [Hhd Htl]. eexists. split; [done|].
    assert (Hb : behind window (length (p ++ [g])) = S (behind window (length p))).
    { unfold behind in *. rewrite length_app. cbn [length]. destruct (Z.leb_spec window 0); lia. }
    fold (unrolled st) in Hhd, Htl. rewrite Hr in Hhd, Htl.
    assert (Hbl : (behind window (length p) < length (entries None p))%nat) by (rewrite entries_length; unfold behind in *; destruct (Z.leb_spec window 0); lia).
    assert (Hoh : entries None p !! behind window (length p) = Some old).
    { rewrite <- (Nat.add_0_r (behind _ _)), <- lookup_drop, Hhd. done. }
    split; cbn [ring next out seen prevEpoch]; rewrite ?Hb, ?Hent; [| | |done|exact Hprev].
    + unfold unrolled. cbn [ring next]. rewrite Hfull in Htl. rewrite Htl, drop_app_le by lia. f_equal.
      replace (S (behind window (length p))) with (behind window (length p) + 1)%nat by lia. by rewrite <- drop_drop, Hhd.
    + rewrite length_insert. split; [apply Z.rem_nonneg; lia|]. right. split; [|done]. rewrite Hfull. apply Z.rem_bound_pos; lia.
    + rewrite take_app_le by lia. rewrite (take_S_r _ _ old) by done. rewrite foldl_app, Ho. done.
Qed.

Lemma walked_start window : walked window [] walk0.
Proof. split; try done; [by unfold behind; destruct (window <=? 0)|by split; [|left]|by unfold behind; destruct (window <=? 0)]. Qed.

Lemma walked_all window p l st :
  walked window p st -> len (p ++ l) < 2 ^ 64 -> exists st', walk_all window st l = Some st' /\ walked window (p ++ l) st'.
Proof.
  revert p st. induction l as [|g l IH]; intros p st Hw Hl; [exists st; by rewrite app_nil_r|].
  destruct (walked_next window p st g Hw) as (st1 & Hs & Hw1); [rewrite length_app in Hl; cbn in Hl; lia|].
  cbn [walk_all]. rewrite Hs. cbn [mbind option_bind]. destruct (IH (p ++ [g]) st1 Hw1) as (st' & ? & Hw'); [by rewrite <- app_assoc|].
  exists st'. rewrite <- app_assoc in Hw'. done.
Qed.

(** The ring as [gather] unrolls it. *)
Lemma walked_ordered window l st :
  walked window l st ->
  (if (0 <? window) && (len st.(ring) =? window)
   then drop (Z.to_nat st.(next)) st.(ring) ++ take (Z.to_nat st.(next)) st.(ring) else st.(ring)) =
  drop (behind window (length l)) (entries None l).
Proof.
  intros [Hr [Hn0 Hn] _ _ _]. rewrite <- Hr. unfold unrolled. destruct (_ && _) eqn:Hc; [done|].
  assert (Hz : st.(next) = 0).
  { destruct Hn as [?|[Hlt He]]; [done|]. apply andb_false_iff in Hc as [Hc%Z.ltb_ge|Hc%Z.eqb_neq]; lia. }
  rewrite Hz. change (Z.to_nat 0) with 0%nat. by rewrite drop_0, take_0, app_nil_r.
Qed.

Lemma evict_front_spec n w o : (n <= length o)%nat -> evict_front n w o = Some (foldl evict w (take n o), drop n o).
Proof.
  revert w o. induction n as [|n IH]; intros w o Hn; [by destruct o|]. destruct o as [|e o]; [cbn in Hn; lia|].
  cbn [evict_front take drop foldl]. apply IH. cbn in Hn. lia.
Qed.

(** ** Which lifetimes are listed *)

Lemma lifetimes_drop l i a b :
  l !! i = Some a -> l !! S i = Some b ->
  lifetimes (drop i l) = (if epoch_of a =? epoch_of b then 0 else 1) + lifetimes (drop (S i) l).
Proof. intros Ha Hb. rewrite (drop_S _ _ _ Ha), (drop_S _ _ _ Hb). done. Qed.

(** Where the epoch window cuts [l]: at most so many lifetimes remain, and one
    group more would show another. *)
Definition epoch_cut (ew : Z) (l : list GroupInfo) (n : nat) : Prop :=
  (n <= length l)%nat /\ (0 < ew -> lifetimes (drop n l) <= ew) /\
  (forall m, n = S m -> 0 < ew /\ ew < lifetimes (drop m l)).

Lemma epochs_loop_spec ew es i lts g :
  0 < ew -> (e_info <$> es) !! i = Some g -> lts = lifetimes (drop i (e_info <$> es)) -> lts <= ew ->
  epoch_cut ew (e_info <$> es) (epochs_loop ew es i (epoch_of g) lts).
Proof.
  intros He. revert lts g. induction i as [|i IH]; intros lts g Hg Hl Hw.
  - cbn. split; [lia|]. split; [by rewrite <- Hl|done].
  - destruct (lookup_lt_is_Some_2 (e_info <$> es) i) as [a Ha]; [apply lookup_lt_Some in Hg; lia|].
    pose proof (lifetimes_drop _ _ _ _ Ha Hg) as Hd. cbn [epochs_loop]. rewrite list_lookup_fmap in Ha.
    destruct (es !! i) as [e|] eqn:Hei; [|done]. injection Ha as <-.
    assert (Hai : (e_info <$> es) !! i = Some (e_info e)) by (by rewrite list_lookup_fmap, Hei).
    rewrite <- Hl in Hd. destruct (Z.eqb_spec (epoch_of (e_info e)) (epoch_of g)) as [Heq|Hne].
    + rewrite <- Heq. apply IH; [done|lia|done].
    + destruct (Z.ltb_spec ew (lts + 1)).
      * split; [apply lookup_lt_Some in Hg; lia|]. split; [by rewrite <- Hl|]. intros m [= <-]. lia.
      * apply IH; [done|lia|lia].
Qed.

Lemma epochsToDrop_spec ew es : epoch_cut ew (e_info <$> es) (epochsToDrop ew es).
Proof.
  unfold epochsToDrop. destruct (last es) as [e|] eqn:Hl.
  - destruct (Z.leb_spec ew 0); [split; [lia|]; split; [lia|done]|].
    destruct (length es) as [|n] eqn:Hn; [by apply length_zero_iff_nil in Hn as ->|].
    rewrite last_lookup, Hn in Hl. cbn [Nat.pred] in Hl. cbn [epochs_loop]. rewrite Hl, Z.eqb_refl.
    assert (Hli : (e_info <$> es) !! n = Some (e_info e)) by (by rewrite list_lookup_fmap, Hl).
    assert (H1 : lifetimes (drop n (e_info <$> es)) = 1).
    { rewrite (drop_S _ _ _ Hli), drop_ge by (rewrite length_fmap; lia). done. }
    apply epochs_loop_spec; [lia|done|done|lia].
  - apply last_None in Hl as ->. split; [cbn; lia|]. split; [cbn; lia|done].
Qed.

(** The window [gather] computes with a ring over the whole track is the log
    cut at one place: it lists the groups from there on, counts those before,
    the timeline resets among them and the epoch just before. The place is the
    first one from which at most [window] groups and at most [epochWindow]
    lifetimes are left. *)
Lemma gather_cut window epochWindow l :
  len l < 2 ^ 64 ->
  exists k, gather window epochWindow l false = Some (Some (cut_at l k)) /\
    (0 < window -> len (drop k l) <= window) /\ (0 < epochWindow -> lifetimes (drop k l) <= epochWindow) /\
    (forall m, k = S m -> 0 < window /\ window < len (drop m l) \/ 0 < epochWindow /\ epochWindow < lifetimes (drop m l)).
Proof.
  intros Hl. destruct (walked_all window [] l walk0 (walked_start window) Hl) as (st & Hst & Hw). cbn [app] in Hw.
  set (k1 := behind window (length l)) in *. set (es := drop k1 (entries None l)).
  assert (Hes : e_info <$> es = drop k1 l) by (unfold es; by rewrite fmap_drop, entries_info).
  destruct (epochsToDrop_spec epochWindow es) as (Hle & Hlt & Hmin). rewrite Hes in Hle, Hlt, Hmin.
  set (k2 := epochsToDrop epochWindow es) in *. rewrite length_drop in Hle.
  assert (Hk1 : (k1 <= length l)%nat) by (unfold k1, behind; destruct (window <=? 0); lia).
  exists (k1 + k2)%nat. rewrite <- drop_drop. split; [|split; [|split; [done|]]].
  - unfold gather. rewrite Hst. cbn [mbind option_bind]. rewrite (walked_ordered _ _ _ Hw). fold k1 es k2.
    assert (Hlen : length es = (length l - k1)%nat) by (unfold es; by rewrite length_drop, entries_length).
    rewrite evict_front_spec by lia. cbn [mbind option_bind]. do 2 f_equal. destruct Hw as [_ _ Ho _ _]. fold k1 in Ho. rewrite Ho.
    rewrite <- foldl_app. assert (Ht : take k1 (entries None l) ++ take k2 es = take (k1 + k2) (entries None l)).
    { unfold es. rewrite <- (take_drop k1 (entries None l)) at 3. rewrite take_app_ge by (rewrite length_take; lia). do 2 f_equal.
      rewrite length_take, entries_length. lia. }
    rewrite Ht, evict_counts by (cbn; rewrite ?length_take, ?entries_length; lia). cbn [dropped discontinuities precedingEpoch groups]. unfold cut_at. f_equal.
    + by rewrite fmap_drop, Hes, drop_drop.
    + rewrite length_take, entries_length. lia.
    + destruct (k1 + k2)%nat as [|k] eqn:Hk; [done|]. destruct (lookup_lt_is_Some_2 l k) as [g Hg]; [lia|].
      assert (Hge : exists e, entries None l !! k = Some e /\ e_info e = g).
      { rewrite <- (entries_info None l), list_lookup_fmap in Hg. destruct (entries None l !! k) as [e|]; [|done]. injection Hg as <-. by exists e. }
      destruct Hge as (e & He & Hi). rewrite (take_S_r _ _ e) by done. by rewrite last_snoc, Hg, Hi.
  - intros Hwin. rewrite !length_drop. unfold k1, behind. destruct (Z.leb_spec window 0); lia.
  - intros m Hm. destruct k2 as [|k2'] eqn:Hk2.
    + left. rewrite Nat.add_0_r in Hm. unfold k1, behind in Hm. destruct (Z.leb_spec window 0); [lia|]. split; [lia|]. rewrite length_drop. lia.
    + right. destruct (Hmin k2' eq_refl) as [? Hm2]. split; [done|]. replace m with (k1 + k2')%nat by lia. by rewrite <- drop_drop.
Qed.

(** C33: The window [gather] computes with a ring over the whole track is the log
    cut at one place: it lists the groups from there on, counts those before,
    the timeline resets among them and the epoch just before. The place is the
    first one from which at most [window] groups and at most [epochWindow]
    lifetimes are left. *)
Theorem gather_exact window epochWindow l :
  len l < 2 ^ 64 ->
  exists k, gather window epochWindow l false = Some (Some (cut_at l k)) /\
    (0 < window -> len (drop k l) <= window) /\ (0 < epochWindow -> lifetimes (drop k l) <= epochWindow) /\
    (forall m, k = S m -> 0 < window /\ window < len (drop m l) \/ 0 < epochWindow /\ epochWindow < lifetimes (drop m l)).
Proof. apply gather_cut. Qed.

(** ** How a client numbers the segments *)

(** RFC 8216: a segment's media sequence number counts from EXT-X-MEDIA-SEQUENCE,
    its discontinuity sequence number from EXT-X-DISCONTINUITY-SEQUENCE, one more
    for each EXT-X-DISCONTINUITY before it. *)
Fixpoint client (msn dsn : Z) (ls : list line) : list (Z * Z * string) :=
  match ls with
  | [] => []
  | MEDIA_SEQUENCE n :: ls => client n dsn ls
  | DISCONTINUITY_SEQUENCE n :: ls => client msn n ls
  | DISCONTINUITY :: ls => client msn (dsn + 1) ls
  | SEGMENT u :: ls => (msn, dsn, u) :: client (msn + 1) dsn ls
  | _ :: ls => client msn dsn ls
  end.

Definition uri_of (o : renderOpts) (g : GroupInfo) : string := carry o (IDString g.(ID) +:+ segExt).

Fixpoint numbered (o : renderOpts) (msn dsn : Z) (es : list streamEntry) : list (Z * Z * string) :=
  match es with
  | [] => []
  | e :: es =>
      let dsn := if e.(discontinuity) then dsn + 1 else dsn in
      (msn, dsn, uri_of o e.(e_info)) :: numbered o (msn + 1) dsn es
  end.

Lemma client_segments o ts i prev p msn dsn l :
  (p = None /\ i = 0%nat /\ prev = 0) \/ (p = Some prev /\ ((0 < i)%nat \/ prev <> 0)) ->
  client msn dsn (hls_segments o ts i prev l) = numbered o msn dsn (entries p l).
Proof.
  revert i prev p msn dsn. induction l as [|g l IH]; intros i prev p msn dsn Hp; [done|].
  assert (Htag : ((0 <? i)%nat || negb (prev =? 0)) && negb (epoch_of g =? prev) =
                 match p with Some p => negb (epoch_of g =? p) | None => false end).
  { destruct Hp as [(-> & -> & ->)|(-> & Hi)]; [done|]. destruct Hi as [Hi|Hi].
    - apply Nat.ltb_lt in Hi as ->. done.
    - apply Z.eqb_neq in Hi as ->. by rewrite orb_true_r. }
  cbn [hls_segments entries numbered discontinuity e_info]. rewrite Htag.
  assert (Hn : forall d, client msn d ((if Wallclock g =? 0 then [] else [PROGRAM_DATE_TIME (Wallclock g)]) ++
      [EXTINF (Duration g) ts; SEGMENT (carry o (IDString (ID g) +:+ segExt))] ++ hls_segments o ts (S i) (epoch_of g) l) =
      (msn, d, uri_of o g) :: numbered o (msn + 1) d (entries (Some (epoch_of g)) l)).
  { intros d. destruct (Wallclock g =? 0); cbn; f_equal; (apply IH; right; split; [done|left; lia]). }
  destruct (match p with Some p => _ | None => false end); [|apply Hn]. cbn [app client]. apply Hn.
Qed.

Lemma numbered_lookup o msn dsn es j :
  numbered o msn dsn es !! j = (fun e => (msn + Z.of_nat j, dsn + resets (take (S j) es), uri_of o e.(e_info))) <$> es !! j.
Proof.
  revert msn dsn j. induction es as [|e es IH]; intros msn dsn j; [done|].
  assert (Hr : forall l, resets (e :: l) = (if discontinuity e then 1 else 0) + resets l).
  { intros l. unfold resets. rewrite filter_cons. destruct (discontinuity e); [rewrite decide_True by done|rewrite decide_False by done]; cbn [length]; lia. }
  destruct j as [|j]; cbn [numbered lookup list_lookup fmap option_fmap option_map take].
  - rewrite Hr, take_0. change (resets []) with 0. rewrite !Z.add_0_r. destruct (discontinuity e); [done|]. by rewrite Z.add_0_r.
  - rewrite IH. destruct (es !! j); [|done]. cbn [fmap option_fmap option_map]. change (take (S (S j)) (e :: es)) with (e :: take (S j) es).
    rewrite Hr. replace (msn + 1 + Z.of_nat j) with (msn + Z.of_nat (S j)) by lia. do 3 f_equal. destruct (discontinuity e); lia.
Qed.

Lemma entries_drop k p l :
  drop k (entries p l) = entries (match k with O => p | S k => (fun g => epoch_of g) <$> l !! k end) (drop k l) \/ (length l < k)%nat.
Proof.
  revert p l. induction k as [|k IH]; intros p l; [by left|]. destruct l as [|g l]; [right; cbn; lia|]. cbn [entries drop].
  destruct (IH (Some (epoch_of g)) l) as [H1|H1]; [left|right; cbn; lia]. rewrite H1. destruct k as [|k]; done.
Qed.

Lemma renderHLS_ok ts l o ls : renderHLS ts l o = Ok ls -> 0 <= o.(discontinuitySequence) ->
  client 0 0 ls = client o.(mediaSequence) o.(discontinuitySequence) (hls_segments o ts 0 o.(o_precedingEpoch) l).
Proof.
  unfold renderHLS. destruct (list_find _ l) as [[? ?]|]; [done|]. intros [= <-] Hd.
  destruct (bool_decide _), (Z.ltb_spec 0 o.(discontinuitySequence)), o.(sliding); cbn; try done; f_equal; lia.
Qed.

(** A playlist of the log cut anywhere gives each group its place in the log, and
    the number of timeline resets up to it. *)
Lemma client_numbers window param ts l k ls :
  Forall (fun g => epoch_of g <> 0) l -> (k <= length l)%nat ->
  renderHLS ts (drop k l) (handler_opts window param (cut_at l k)) = Ok ls ->
  client 0 0 ls = numbered (handler_opts window param (cut_at l k)) (Z.of_nat k) (resets (take k (entries None l))) (drop k (entries None l)).
Proof.
  intros He Hk Hr. assert (Hd : 0 <= resets (take k (entries None l))) by (unfold resets; lia).
  rewrite (renderHLS_ok _ _ _ _ Hr) by done. cbn [handler_opts mediaSequence discontinuitySequence o_precedingEpoch dropped discontinuities precedingEpoch cut_at].
  destruct (entries_drop k None l) as [->|?]; [|lia]. apply client_segments. destruct k as [|k]; [by left|].
  destruct (lookup_lt_is_Some_2 l k) as [g Hg]; [lia|]. rewrite Hg. right. split; [done|]. right. rewrite Forall_lookup in He. by eapply He.
Qed.

(** The number of timeline resets up to the [n]-th group of a log. *)
Definition resets_to (l : list GroupInfo) (n : nat) : Z := resets (take (S n) (entries None l)).

Lemma resets_to_app l more n : (n < length l)%nat -> resets_to (l ++ more) n = resets_to l n.
Proof.
  intros Hn. unfold resets_to. f_equal. revert n Hn. generalize (@None Z). induction l as [|g l IH]; intros p n Hn; [cbn in Hn; lia|].
  cbn [entries app take]. f_equal. destruct n as [|n]; [done|]. apply IH. cbn in Hn. lia.
Qed.

Lemma serveHLS_numbers window ew param ts l ls msn dsn u :
  len l < 2 ^ 64 -> Forall (fun g => epoch_of g <> 0) l -> serveHLS window ew param ts l false = Some ls ->
  (msn, dsn, u) ∈ client 0 0 ls ->
  exists n g, msn = Z.of_nat n /\ l !! n = Some g /\ dsn = resets_to l n /\
    u = carry (mkOpts param (0 <? window) 0 0 0) (IDString g.(ID) +:+ segExt).
Proof.
  intros Hl He Hs Hin. unfold serveHLS in Hs. destruct (gather_cut window ew l Hl) as (k & Hg & _ & _ & Hk). rewrite Hg in Hs. cbn [mbind option_bind] in Hs.
  destruct (renderHLS _ _ _) as [ls'|] eqn:Hr; [|done]. injection Hs as ->.
  assert (Hkl : (k <= length l)%nat).
  { destruct k as [|k]; [lia|]. destruct (Hk k eq_refl) as [[Hw Hd]|[Hw Hd]].
    - rewrite length_drop in Hd. lia.
    - destruct (decide (k < length l)%nat); [lia|]. rewrite drop_ge in Hd by lia. cbn in Hd. lia. }
  rewrite (client_numbers window param ts l k ls He Hkl Hr) in Hin. apply list_elem_of_lookup in Hin as [j Hj].
  rewrite numbered_lookup in Hj. rewrite lookup_drop in Hj. destruct (entries None l !! (k + j)%nat) as [e|] eqn:Hej; [|done].
  injection Hj as <- <- <-. exists (k + j)%nat, (e_info e). split; [lia|].
  assert (Hlk : l !! (k + j)%nat = Some (e_info e)) by (rewrite <- (entries_info None l), list_lookup_fmap, Hej; done).
  split; [done|]. split; [|done]. pose proof (lookup_lt_Some _ _ _ Hej) as Hlt. unfold resets_to. rewrite <- (take_drop k (entries None l)) at 3.
  assert (Hlt' : length (take k (entries None l)) = k) by (rewrite length_take; lia). rewrite take_app_ge by lia. rewrite Hlt'.
  replace (S (k + j) - k)%nat with (S j) by lia. unfold resets. rewrite filter_app, length_app. lia.
Qed.

(** Reloads of a playlist agree: a segment's media sequence number is its
    place in the track's log and its discontinuity sequence number the count of
    timeline resets up to it, whatever the window; so two playlists of a log that
    has grown in between, windowed alike or not, give a segment both list the
    same numbers and the same address. *)
Theorem reloads_agree window1 ew1 window2 ew2 param ts l more ls1 ls2 msn1 dsn1 u1 msn2 dsn2 u2 :
  len (l ++ more) < 2 ^ 64 -> Forall (fun g => epoch_of g <> 0) (l ++ more) ->
  serveHLS window1 ew1 param ts l false = Some ls1 -> serveHLS window2 ew2 param ts (l ++ more) false = Some ls2 ->
  (msn1, dsn1, u1) ∈ client 0 0 ls1 -> (msn2, dsn2, u2) ∈ client 0 0 ls2 ->
  (exists n g, msn1 = Z.of_nat n /\ l !! n = Some g /\ dsn1 = resets_to l n) /\
  (msn1 = msn2 -> dsn1 = dsn2 /\ u1 = u2).
Proof.
  intros Hl He Hs1 Hs2 H1 H2. assert (Hl1 : len l < 2 ^ 64) by (rewrite length_app in Hl; lia).
  assert (He1 : Forall (fun g => epoch_of g <> 0) l) by (by apply Forall_app in He as [? _]).
  destruct (serveHLS_numbers _ _ _ _ _ _ _ _ _ Hl1 He1 Hs1 H1) as (n & g & -> & Hn & -> & ->).
  destruct (serveHLS_numbers _ _ _ _ _ _ _ _ _ Hl He Hs2 H2) as (n' & g' & -> & Hn' & -> & ->).
  split; [by exists n, g|]. intros Hnn. apply Nat2Z.inj in Hnn as <-. pose proof (lookup_lt_Some _ _ _ Hn).
  rewrite lookup_app_l in Hn' by done. rewrite Hn in Hn'. injection Hn' as <-. rewrite resets_to_app by done. done.
Qed.

(** ** How a DASH client places the segments *)

(** ISO/IEC 23009-1: an [S] element without a start begins where the one before it
    ended. *)
Fixpoint dash_client (t : Z) (l : list (option Z * Z)) : list (Z * Z) :=
  match l with
  | [] => []
  | (start, d) :: l => let s := default t start in (s, d) :: dash_client (s + d) l
  end.

Lemma offset_exact mt : 0 <= mt < 2 ^ 53 -> mediaOffset mt Timescale = 1000 * mt.
Proof.
  intros Hm. pose proof (wallclock_exact 0 mt Hm) as Hw. unfold wallclockAt, mediaOffset, Timescale, second in *.
  change (1000000 =? 0) with false in *. cbv iota zeta in *. rewrite Z.add_0_l in Hw. rewrite Hw. apply wraps_id; [done|]. unfold in_s. lia.
Qed.

(** The groups of an epoch, past the first [i]. *)
Lemma dash_rest q (e : list GroupInfo) (k : nat) t first :
  Forall (fun g => epoch_of g = q) e ->
  (forall i g, e !! i = Some g -> g.(MediaTime) = zsum (Duration <$> take i e)) ->
  first = false -> t = zsum (Duration <$> take k e) ->
  dash_client t (dash_S first q (drop k e)) = (fun g => (g.(MediaTime), g.(Duration))) <$> drop k e.
Proof.
  intros He Ht. remember (length e - k)%nat as n eqn:Hn. revert k t first Hn. induction n as [|n IH]; intros k t first Hn -> ->.
  - rewrite drop_ge by lia. done.
  - destruct (lookup_lt_is_Some_2 e k) as [g Hg]; [lia|]. rewrite (drop_S _ _ _ Hg). rewrite Forall_lookup in He.
    cbn [dash_S orb]. rewrite (He _ _ Hg), Z.eqb_refl. cbn [negb dash_client default]. rewrite fmap_cons, <- (Ht _ _ Hg). f_equal.
    apply IH; [lia|done|]. rewrite (take_S_r _ _ g) by done. rewrite fmap_app, sum_app, <- (Ht _ _ Hg). cbn. lia.
Qed.

Lemma sum_take_lt (e : list GroupInfo) i g :
  Forall (fun g => 0 < g.(Duration)) e -> e !! i = Some g -> 0 <= zsum (Duration <$> take i e) <= zsum (Duration <$> e).
Proof.
  intros He Hg. split; [apply extent_nonneg; by apply Forall_take|]. rewrite <- (take_drop i e) at 2. rewrite fmap_app, sum_app.
  pose proof (extent_nonneg (drop i e) (Forall_drop _ _ _ He)). lia.
Qed.

(** The DASH description of any window over an epoch the feed wrote places
    each segment at its media time, and states the same availability start time,
    the instant the epoch's media time counts from, however the window rolls. *)
Theorem dash_places_segments e q param window :
  timeline e -> Forall (fun g => epoch_of g = q) e -> Forall (fun g => 0 < g.(Duration)) e -> Forall (fun g => g.(Wallclock) <> 0) e ->
  zsum (Duration <$> e) < 2 ^ 53 ->
  exists t0, (forall g, g ∈ e -> g.(Wallclock) = t0 + 1000 * g.(MediaTime)) /\
    forall k w, (k < length e)%nat -> exists m,
      renderDASH Timescale (drop k e) (handler_opts window param w) = Ok m /\
      dash_client 0 m.(m_timeline) = (fun g => (g.(MediaTime), g.(Duration))) <$> drop k e /\ m.(m_start) = Some t0.
Proof.
  intros [t0 Ht] Hq Hd Hw Hs. exists t0. split; [by intros g [i Hi]%list_elem_of_lookup; apply Ht in Hi as [_ ?]|].
  intros k w Hk. destruct (lookup_lt_is_Some_2 e k) as [g Hg]; [lia|]. unfold renderDASH.
  destruct (list_find _ (drop k e)) as [[i h]|] eqn:Hf.
  { apply list_find_Some in Hf as (Hi & Hle & _). rewrite lookup_drop in Hi. rewrite Forall_lookup in Hd. apply Hd in Hi. lia. }
  eexists. split; [done|]. cbn [m_timeline m_start]. rewrite (drop_S _ _ _ Hg).
  destruct (Ht _ _ Hg) as [Hmt Hwc]. pose proof (sum_take_lt e k g Hd Hg) as Hr. rewrite <- Hmt in Hr.
  rewrite Forall_lookup in Hw. pose proof (Hw _ _ Hg) as Hwg. split.
  - cbn [dash_S orb dash_client default]. rewrite fmap_cons. f_equal. pose proof Hq as Hq'. rewrite Forall_lookup in Hq'. rewrite (Hq' _ _ Hg).
    apply dash_rest; [done|by intros i x Hx; apply Ht in Hx as [? _]|done|].
    rewrite (take_S_r _ _ g) by done. rewrite fmap_app, sum_app, <- Hmt. cbn. lia.
  - cbn [dashAvailabilityStartTime]. apply Z.eqb_neq in Hwg as ->. f_equal. rewrite offset_exact by lia. rewrite wraps_id; [lia|done|]. unfold in_s. lia.
Qed.

(** ** From a playlist to its segments *)

Lemma stream_serves_playlist `{Mp4} h p ls :
  stream_ServeHTTP h p = SPlaylist ls ->
  serveHLS h.(s_window) h.(s_epochWindow) h.(s_queryParam) h.(s_timescale) h.(track).(t_groups) h.(track).(t_failed) = Some ls.
Proof.
  unfold stream_ServeHTTP, serveHLS, serveManifest, serveSegment. destruct (HasSuffix _ ".m3u8").
  - destruct (t_opens _); [|done]. destruct (gather _ _ _ _) as [[w|]|]; [|done..]. cbn [mbind option_bind].
    destruct (renderHLS _ _ _); [|done]. by intros [= <-].
  - destruct (HasSuffix _ ".mpd"); [destruct (if t_opens _ then _ else _); [destruct (renderDASH _ _ _)|]; done|].
    destruct (bool_decide _); [done|]. destruct (parseSegmentID _ _); [|done]. destruct (negb _); [done|].
    destruct (Lookup _ _); [|done..]. destruct (ReadGroup _ _); [|done]. by destruct (fragment _ _).
Qed.

(** A name that ends in the segments' extension is no manifest's. *)
Lemma segment_no_manifest x : HasSuffix (x +:+ segExt) ".m3u8" = false /\ HasSuffix (x +:+ segExt) ".mpd" = false.
Proof. unfold HasSuffix. rewrite srev_app. split; vm_compute; done. Qed.

(** What the ledger promises of the track's groups: an identity's name is read back, names no directory
    and not the init segment, and a committed group is found by its identity. *)
Record ledger_ok (t : ledgerTrack) : Prop := {
  lo_name : forall g, g ∈ t.(t_groups) -> t.(ParseGroupID) (IDString g.(ID)) = Some g.(ID) /\
    clean slash (IDString g.(ID) +:+ segExt) /\ IDString g.(ID) +:+ segExt <> initName;
  lo_found : forall g, g ∈ t.(t_groups) -> t.(Lookup) g.(ID) = Found g
}.

End Manifest.

(** ** Concrete logs *)

Definition ex_name (id : @GroupID pair_ids) : string := if (id.1 =? 1)%Z then "e1" else "e2".

Definition ex_group (epoch seq start : Z) : GroupInfo := mkInfo _ (epoch, seq) start 2000000 (5 + 1000 * start) 30.

(** Two lifetimes of two and three groups. *)
Definition ex_log : list GroupInfo :=
  [ex_group 1 0 0; ex_group 1 1 2000000; ex_group 2 0 0; ex_group 2 1 2000000; ex_group 2 2 4000000].

Definition ex_serve (window : Z) (n : nat) : option (list line) := serveHLS ex_name (fun _ => 0) window 1 "" Timescale (take n ex_log) false.

(** Configured to list the whole track (HLS_WINDOW=0), the egress announces an
    EVENT playlist, from which no segment may be removed, and still drops the
    segments of the lifetime before when a publisher restarts. *)
Lemma unwindowed_event_removes :
  exists before after, ex_serve 0 2 = Some before /\ ex_serve 0 3 = Some after /\
    PLAYLIST_TYPE_EVENT ∈ before /\ PLAYLIST_TYPE_EVENT ∈ after /\
    client 0 0 before = [(0, 0, "e1.m4s"); (1, 0, "e1.m4s")] /\ client 0 0 after = [(2, 1, "e2.m4s")].
Proof.
  eexists _, _. split; [vm_compute; reflexivity|]. split; [vm_compute; reflexivity|].
  split; [set_solver|]. split; [set_solver|]. split; vm_compute; reflexivity.
Qed.

Lemma gather_exact_witness :
  exists k, gather 3 1 (take 4 ex_log) false = Some (Some (cut_at (take 4 ex_log) k)) /\
    (0 < 3 -> len (drop k (take 4 ex_log)) <= 3) /\ (0 < 1 -> lifetimes (drop k (take 4 ex_log)) <= 1) /\
    (forall m, k = S m -> 0 < 3 /\ 3 < len (drop m (take 4 ex_log)) \/ 0 < 1 /\ 1 < lifetimes (drop m (take 4 ex_log))).
Proof. apply (gather_exact 3 1 (take 4 ex_log)). vm_compute. reflexivity. Defined.

Lemma reloads_agree_witness :
  exists ls1 ls2, ex_serve 3 4 = Some ls1 /\ ex_serve 2 5 = Some ls2 /\
    (3, 1, "e2.m4s") ∈ client 0 0 ls1 /\ (3, 1, "e2.m4s") ∈ client 0 0 ls2 /\
    (3 = 3 -> 1 = 1 /\ "e2.m4s" = "e2.m4s").
Proof.
  eexists _, _. split; [vm_compute; reflexivity|]. split; [vm_compute; reflexivity|].
  match goal with |- ?a /\ ?b /\ _ => assert (H1 : a) by (vm_compute; set_solver); assert (H2 : b) by (vm_compute; set_solver) end.
  split; [exact H1|]. split; [exact H2|].
  refine (proj2 (reloads_agree ex_name (fun _ => 0) 3 1 2 1 "" Timescale (take 4 ex_log) [ex_group 2 2 4000000] _ _ 3 1 "e2.m4s" 3 1 "e2.m4s" _ _ _ _ H1 H2));
    [vm_compute; reflexivity|repeat constructor; vm_compute; discriminate|vm_compute; reflexivity|vm_compute; reflexivity].
Defined.

Lemma dash_places_segments_witness :
  exists t0, (forall g, g ∈ drop 2 ex_log -> g.(Wallclock) = t0 + 1000 * g.(MediaTime)) /\
    forall k w, (k < 3)%nat -> exists m,
      renderDASH ex_name (fun _ => 0) Timescale (drop k (drop 2 ex_log)) (handler_opts 12 "jwt" w) = Ok m /\
      dash_client 0 m.(m_timeline) = (fun g => (g.(MediaTime), g.(Duration))) <$> drop k (drop 2 ex_log) /\ m.(m_start) = Some t0.
Proof.
  apply (dash_places_segments ex_name (fun _ => 0) (drop 2 ex_log) 2 "jwt" 12).
  - exists 5. intros [|[|[|i]]] g [= <-]; done.
  - by repeat constructor.
  - by repeat constructor.
  - repeat constructor; done.
  - vm_compute. reflexivity.
Defined.

(** A track of one stored group. *)
Definition ex_one : GroupInfo := ex_info 100500.
Definition ex_track : ledgerTrack := mkTrack
  (fun s => if bool_decide (s = "e1-g4") then Some (1, 4) else None)
  (fun id => if bool_decide (id = (1, 4)) then Found ex_one else NoGroup) (fun _ => Some ex_payload) [ex_one] false true.
Definition ex_id (_ : @GroupID pair_ids) : string := "e1-g4".
Definition ex_handler : streamHandler := mkHandler ex_track Timescale [] 12 1 "".
Definition ex_get (path : string) : stream_answer := stream_ServeHTTP (H0 := ex_mp4) ex_id (fun _ => 0) ex_handler path.

