(* ===== verification/HlsMux.v ===== *)
(** * HlsMux: who is served what

    The HTTP side of the HLS egress: the paths of broadcasts and the redirects it
    follows (src/internal/hls/mux.go: [broadcastPathFromAnnounce],
    [sameBroadcast]; src/internal/hls/feed.go: [subscribeFollowing],
    [optInCatalog]), the registry of live broadcasts and the routing of requests
    (mux.go: [streamMux], [broadcastEntry], [renderMasterPlaylist]), liveness
    (src/internal/hls/liveness.go) and the check a viewer passes
    (src/internal/hls/viewer.go: [subscribeCheck], [admit], [keepQuery]).

    Entries and liveness records are shared by reference: a reference is a
    number, and the state holds what it points to. The map a Go [range] walks in
    no fixed order is walked in the order of an argument. *)
From stdpp Require Import gmap strings sorting.
From S2P Require Import Prelude GoStrings GoURL TokenPath TokenGrant GoTime Base64 TokenClaims TokenKey Token AuthVerifier GoPath.

Open Scope Z_scope.

(** ** Paths *)

Definition announcePrefix : string := HLSDirectory.

Definition broadcastPathFromAnnounce (annPath pre : string) : string :=
  let cleanPrefix := TrimSuffix pre "/" in
  let p := TrimPrefix annPath cleanPrefix in
  Clean (if HasPrefix p "/" then p else "/" +:+ p).

Definition sameBroadcast (a b : string) : bool := bool_decide (Clean a = Clean b).

(** ** Following redirects: feed.go *)

(** What [Session.Subscribe] answers: a track at the path asked, a redirect (with
    the URI of another relay, or to a path and a track), or an error. *)
Inductive sub_answer :=
| SubOk | Redirected (uri : string) (path name : string) | SubNotFound | SubFailed.

Inductive sub_error := NotRetryable | NotFound | OtherError.

Definition maxRedirectHops : nat := 2.

(** [subscribeFollowing], [session] answering: the paths and tracks asked for in
    order, the path the track came from, and how many redirects were followed.
    [fuel] bounds the loop, which [maxRedirectHops] ends. *)
Fixpoint subscribe_loop (fuel hops : nat) (session : string -> string -> sub_answer) (path name within : string) :
    list (string * string) * result sub_error string * nat :=
  match fuel with
  | O => ([], Err NotRetryable, hops)
  | S fuel =>
      match session path name with
      | SubOk => ([(path, name)], Ok path, hops)
      | SubNotFound => ([(path, name)], Err NotFound, hops)
      | SubFailed => ([(path, name)], Err OtherError, hops)
      | Redirected uri to to_name =>
          if negb (bool_decide (uri = "")) then ([(path, name)], Err NotRetryable, hops)
          else if negb (sameBroadcast to within) then ([(path, name)], Err NotRetryable, hops)
          else if (hops =? maxRedirectHops)%nat then ([(path, name)], Err NotRetryable, hops)
          else let '(asked, r, h) := subscribe_loop fuel (S hops) session to to_name within in ((path, name) :: asked, r, h)
      end
  end.

Definition subscribeFollowing (session : string -> string -> sub_answer) (path name within : string) :=
  subscribe_loop (S maxRedirectHops) 0 session path name within.

(** The fuel is enough: more changes nothing. *)
Lemma subscribe_fuel k fuel hops session path name within :
  (fuel + hops = S maxRedirectHops)%nat -> (hops <= maxRedirectHops)%nat ->
  subscribe_loop (fuel + k) hops session path name within = subscribe_loop fuel hops session path name within.
Proof.
  revert hops path name. induction fuel as [|fuel IH]; intros hops path name Hf Hh; [unfold maxRedirectHops in *; lia|].
  cbn [subscribe_loop Nat.add]. destruct (session path name); try done. repeat (destruct (negb _); [done|]).
  destruct (Nat.eqb_spec hops maxRedirectHops); [done|]. by rewrite IH by lia.
Qed.

Lemma subscribe_loop_asked fuel hops session path name within asked r h :
  subscribe_loop fuel hops session path name within = (asked, r, h) ->
  (length asked <= fuel)%nat /\ (hops <= h)%nat /\
  Forall (fun q => q.1 = path \/ sameBroadcast q.1 within = true) asked /\ (forall p, r = Ok p -> exists n, (p, n) ∈ asked).
Proof.
  revert hops path name asked r h. induction fuel as [|fuel IH]; intros hops path name asked r h Hs; [by injection Hs as <- <- <-|].
  assert (Hone : forall r', ([(path, name)], r', hops) = (asked, r, h) -> (forall p, r' = Ok p -> p = path) ->
    (length asked <= S fuel)%nat /\ (hops <= h)%nat /\
    Forall (fun q => q.1 = path \/ sameBroadcast q.1 within = true) asked /\ (forall p, r = Ok p -> exists n, (p, n) ∈ asked)).
  { intros r' [= <- <- <-] Hp. cbn. split; [lia|]. split; [done|]. split; [repeat constructor; by left|].
    intros p Hr. rewrite (Hp p Hr). exists name. constructor. }
  cbn [subscribe_loop] in Hs. destruct (session path name) as [|uri to n| |];
    [by apply (Hone _ Hs); intros p [= <-]| |by apply (Hone _ Hs)|by apply (Hone _ Hs)].
  destruct (negb (bool_decide _)); [by apply (Hone _ Hs)|]. destruct (sameBroadcast to within) eqn:Hsame; [|by apply (Hone _ Hs)].
  cbn [negb] in Hs. destruct (Nat.eqb_spec hops maxRedirectHops); [by apply (Hone _ Hs)|].
  destruct (subscribe_loop fuel (S hops) session to n within) as [[asked' r'] h'] eqn:Hl. injection Hs as <- <- <-.
  apply IH in Hl as (H1 & H2 & H3 & H4). cbn. split; [lia|]. split; [lia|]. split.
  - constructor; [by left|]. eapply Forall_impl; [exact H3|]. cbn. intros [p m] [-> |?]; by right.
  - intros p Hp. destruct (H4 p Hp) as [m Hm]. exists m. by constructor.
Qed.

Section OptIn.
Context (DefaultCatalogTrackName : string).

Record optInCatalog := mkOptIn { optIn : string; broadcast : string; legacy : bool }.

(** [optInCatalog.subscribe]: the state it leaves, what it asked for, and where
    the catalog came from. *)
Definition opt_in_subscribe (session : string -> string -> sub_answer) (c : optInCatalog) :
    optInCatalog * list (string * string) * result sub_error string :=
  let direct c asked :=
    let '(more, r, _) := subscribeFollowing session c.(broadcast) DefaultCatalogTrackName c.(broadcast) in (c, asked ++ more, r) in
  if c.(legacy) then direct c []
  else
    let '(asked, r, hops) := subscribeFollowing session c.(optIn) DefaultCatalogTrackName c.(broadcast) in
    match r with
    | Err NotFound => if (0 <? hops)%nat then (c, asked, r) else direct (mkOptIn c.(optIn) c.(broadcast) true) asked
    | _ => (c, asked, r)
    end.

(** The egress reads nothing but what was opted in: whatever the relay and its
    publishers answer, a catalog subscription asks for the opt-in's path and for
    paths of the broadcast it names, for at most six tracks, ends, and takes the
    catalog from one of the paths it asked for. *)
Theorem redirects_confined session c :
  let '(c', asked, r) := opt_in_subscribe session c in
  c'.(optIn) = c.(optIn) /\ c'.(broadcast) = c.(broadcast) /\ (length asked <= 6)%nat /\
  Forall (fun q => q.1 = c.(optIn) \/ sameBroadcast q.1 c.(broadcast) = true) asked /\
  (forall p, r = Ok p -> exists n, (p, n) ∈ asked).
Proof.
  unfold opt_in_subscribe.
  assert (Hd : forall (c' : optInCatalog) asked, c'.(broadcast) = c.(broadcast) -> c'.(optIn) = c.(optIn) -> (length asked <= 3)%nat ->
    Forall (fun q => q.1 = c.(optIn) \/ sameBroadcast q.1 c.(broadcast) = true) asked ->
    let '(c', asked, r) := (let '(more, r, _) := subscribeFollowing session c'.(broadcast) DefaultCatalogTrackName c'.(broadcast) in (c', asked ++ more, r)) in
    c'.(optIn) = c.(optIn) /\ c'.(broadcast) = c.(broadcast) /\ (length asked <= 6)%nat /\
    Forall (fun q => q.1 = c.(optIn) \/ sameBroadcast q.1 c.(broadcast) = true) asked /\ (forall p, r = Ok p -> exists n, (p, n) ∈ asked)).
  { intros c' asked Hb Ho Hl Hf. rewrite Hb. destruct (subscribeFollowing _ _ _ _) as [[more r] h] eqn:Hs.
    apply subscribe_loop_asked in Hs as (H1 & _ & H3 & H4). unfold maxRedirectHops in H1. rewrite length_app.
    split; [done|]. split; [done|]. split; [lia|]. split.
    - apply Forall_app. split; [done|]. eapply Forall_impl; [exact H3|]. intros q [->|?]; right; [|done]. unfold sameBroadcast. by apply bool_decide_eq_true.
    - intros p Hp. destruct (H4 p Hp) as [n Hn]. exists n. apply elem_of_app. by right. }
  destruct (legacy c); [apply Hd; [done|done|cbn; lia|constructor]|].
  destruct (subscribeFollowing session (optIn c) DefaultCatalogTrackName (broadcast c)) as [[asked r] h] eqn:Hs.
  apply subscribe_loop_asked in Hs as (H1 & _ & H3 & H4). unfold maxRedirectHops in H1.
  assert (Hthis : optIn c = optIn c /\ broadcast c = broadcast c /\ (length asked <= 6)%nat /\
    Forall (fun q => q.1 = c.(optIn) \/ sameBroadcast q.1 c.(broadcast) = true) asked /\ (forall p, r = Ok p -> exists n, (p, n) ∈ asked)) by (repeat split; [lia|done|done]).
  destruct r as [p|[]]; try exact Hthis. destruct (0 <? h)%nat; [exact Hthis|]. apply Hd; [done|done|lia|done].
Qed.
End OptIn.

(** ** Which broadcast an announcement opts in *)

Lemma TrimPrefix_hls s : TrimPrefix ("/.hls" +:+ s) "/.hls" = s.
Proof. apply TrimPrefix_app. Qed.

(** A canonical announcement, the only spelling a grant allows, opts in exactly
    the path after the HLS directory; and one within a key's mirror under that
    directory opts in a broadcast within the key's own prefix. *)
Theorem opt_in_stays_in_prefix l rest :
  Forall segment_ok l ->
  broadcastPathFromAnnounce ("/.hls" +:+ path_of l) announcePrefix = path_of l /\
  (HasPrefix ("/.hls" +:+ path_of l) (HLSDirectory +:+ TrimPrefix ("/" +:+ rest) "/") = true ->
   HasPrefix (path_of l) ("/" +:+ rest) = true).
Proof.
  intros Hl. split.
  - unfold broadcastPathFromAnnounce. change (TrimSuffix announcePrefix "/") with "/.hls". rewrite TrimPrefix_hls, path_of_rooted.
    apply Clean_path_of. eapply Forall_impl; [exact Hl|]. apply segment_ok_plain.
  - rewrite TrimPrefix_app. rewrite !HasPrefix_spec. intros [r Hr]. exists r. unfold HLSDirectory, path_of in *.
    change (String "/" (String "." (String "h" (String "l" (String "s" (String "/" (Join slash l)))))) =
            String "/" (String "." (String "h" (String "l" (String "s" (String "/" (rest +:+ r))))))) in Hr.
    injection Hr as Hr. change (String "/" (Join slash l) = String "/" (rest +:+ r)). by rewrite Hr.
Qed.

(** An announcement with a parent segment lies beneath one tenant's mirror, as a
    string, and opts in another tenant's broadcast. *)
Lemma announcement_escapes :
  HasPrefix "/.hls/acme/../rival/cam" (HLSDirectory +:+ TrimPrefix "/acme/" "/") = true /\
  within "/.hls/acme/../rival/" "/acme/" = true /\
  broadcastPathFromAnnounce "/.hls/acme/../rival/cam" announcePrefix = "/rival/cam".
Proof. vm_compute. done. Qed.

(** ** The registry: mux.go *)

Record trackInfo := mkTrackInfo {
  Name : string; Role : string; Codec : string; Width : Z; Height : Z; Bitrate : Z }.

(** A mounted track: its handler, and the reference to its liveness. *)
Record trackEntry := mkTrackEntry { info : trackInfo; handler : nat; live : nat }.

Record broadcastEntry := mkBroadcastEntry { b_path : string; tracks : gmap string trackEntry }.

(** The registry: which entry each path is mounted to, the entries, and when each
    track last committed a group ([liveness.last], absent before the first). *)
Record streamMux := mkMux {
  broadcasts : gmap string nat; entries : gmap nat broadcastEntry; lives : gmap nat Time; next_entry : nat }.

Definition newStreamMux : streamMux := mkMux ∅ ∅ ∅ 0.

Definition with_entries (f : gmap nat broadcastEntry -> gmap nat broadcastEntry) (m : streamMux) : streamMux :=
  mkMux m.(broadcasts) (f m.(entries)) m.(lives) m.(next_entry).

Definition RegisterBroadcast (p : string) (m : streamMux) : nat * streamMux :=
  let b := mkBroadcastEntry (Clean p) ∅ in
  (m.(next_entry), mkMux (<[b.(b_path) := m.(next_entry)]> m.(broadcasts)) (<[m.(next_entry) := b]> m.(entries)) m.(lives) (S m.(next_entry))).

Definition UnregisterBroadcast (id : nat) (m : streamMux) : streamMux :=
  match m.(entries) !! id with
  | Some b =>
      if bool_decide (m.(broadcasts) !! b.(b_path) = Some id)
      then mkMux (delete b.(b_path) m.(broadcasts)) m.(entries) m.(lives) m.(next_entry) else m
  | None => m
  end.

Definition on_tracks (f : gmap string trackEntry -> gmap string trackEntry) (b : broadcastEntry) : broadcastEntry :=
  mkBroadcastEntry b.(b_path) (f b.(tracks)).

Definition AddTrack (id : nat) (t : trackEntry) (m : streamMux) : streamMux :=
  with_entries (alter (on_tracks (insert t.(info).(Name) t)) id) m.
Definition RemoveTrack (id : nat) (name : string) (m : streamMux) : streamMux :=
  with_entries (alter (on_tracks (delete name)) id) m.

(** [liveness.mark] and [liveness.stale]. *)
Definition mark (l : nat) (at_ : Time) (m : streamMux) : streamMux :=
  mkMux m.(broadcasts) m.(entries) (<[l := at_]> m.(lives)) m.(next_entry).
Definition stale (l : nat) (now : Time) (after : Duration) (m : streamMux) : bool :=
  match m.(lives) !! l with None => true | Some last => after <? time_Sub now last end.

Definition getBroadcast (p : string) (m : streamMux) : option broadcastEntry :=
  id ← m.(broadcasts) !! Clean p; m.(entries) !! id.

Definition singleBroadcast (m : streamMux) : option broadcastEntry :=
  match map_to_list m.(broadcasts) with [(_, id)] => m.(entries) !! id | _ => None end.

Definition isLive (b : broadcastEntry) (now : Time) (timeout : Duration) (m : streamMux) : bool :=
  existsb (fun t => negb (stale t.2.(live) now timeout m)) (map_to_list b.(tracks)).

(** [defaultTrack]: the track named video, or the first in the map's order. *)
Definition defaultTrack (order : list (string * trackEntry) -> list (string * trackEntry)) (b : broadcastEntry) : option trackEntry :=
  match b.(tracks) !! "video" with Some t => Some t | None => snd <$> head (order (map_to_list b.(tracks))) end.

(** ** The master playlist *)

(** Its lines; names are quoted when printed. *)
Inductive master_line :=
| M_EXTM3U | M_VERSION (v : Z) | M_QUERYPARAM (param : string) | M_INDEPENDENT_SEGMENTS
| M_AUDIO (name : string) (default : bool) (uri : string)
| M_STREAM (bandwidth : Z) (resolution : option (Z * Z)) (codecs : option string) (audio : bool) (uri : string).

Definition carryParam (uri param : string) : string :=
  if bool_decide (param = "") then uri else uri +:+ "?" +:+ param +:+ "={$" +:+ param +:+ "}".

Definition name_le (a b : trackInfo) : Prop := String.leb a.(Name) b.(Name) = true.

#[export] Instance name_le_dec a b : Decision (name_le a b).
Proof. unfold name_le. apply _. Defined.

Definition variant (param : string) (audio : bool) (t : trackInfo) (bandwidth : Z) (resolution : option (Z * Z)) : master_line :=
  M_STREAM bandwidth resolution (if bool_decide (t.(Codec) = "") then None else Some t.(Codec)) audio
    (carryParam (t.(Name) +:+ "/playlist.m3u8") param).

Definition video_bandwidth (v : trackInfo) : Z :=
  if v.(Bitrate) <=? 0 then (if (0 <? v.(Width)) && (0 <? v.(Height)) then v.(Width) * v.(Height) * 2 else 2000000) else v.(Bitrate).

Definition renderMasterPlaylist (l : list trackInfo) (param : string) : list master_line :=
  let sorted := merge_sort name_le l in
  let audio := filter (fun t => t.(Role) = "audio") sorted in
  let video := filter (fun t => t.(Role) <> "audio") sorted in
  let hasAudio := negb (length audio =? 0)%nat in
  [M_EXTM3U] ++ (if bool_decide (param = "") then [M_VERSION 6] else [M_VERSION 11; M_QUERYPARAM param]) ++ [M_INDEPENDENT_SEGMENTS] ++
  imap (fun i a => M_AUDIO a.(Name) (i =? 0)%nat (carryParam (a.(Name) +:+ "/playlist.m3u8") param)) audio ++
  (if negb (length video =? 0)%nat then
     (fun v => variant param hasAudio v (video_bandwidth v) (if (0 <? v.(Width)) && (0 <? v.(Height)) then Some (v.(Width), v.(Height)) else None)) <$> video
   else (fun a => variant param false a (if a.(Bitrate) <=? 0 then 128000 else a.(Bitrate)) None) <$> audio).

(** ** Viewers: viewer.go *)

Definition is_variable_char (a : ascii) : bool :=
  let n := nat_of_ascii a in
  ((97 <=? n) && (n <=? 122) || (65 <=? n) && (n <=? 90) || (48 <=? n) && (n <=? 57) || (n =? 45) || (n =? 95))%nat.

(** [isVariableName]. A byte above 127 is part of a rune that is no such
    character. *)
Definition isVariableName (s : string) : bool :=
  negb (bool_decide (s = "")) && negb (ContainsFunc (fun a => negb (is_variable_char a)) s).

Inductive viewer_refusal := errNoViewerCredential | RefusedBy (e : auth_error).

Definition refusal_status (e : viewer_refusal) : Z :=
  match e with errNoViewerCredential => StatusUnauthorized | RefusedBy e => RefusalStatus e end.

(** [viewerAccess]: the check takes the credential, the path and the clock. *)
Record viewerAccess := mkAccess { param : string; check : option (string -> string -> Time -> result viewer_refusal unit) }.

Definition subscribeCheck `{Moqt} `{Crypto} `{JsonText} (int64_oor : float64 -> Z) (v : Verifier)
    (credential path : string) (now : Time) : result viewer_refusal unit :=
  guard_err (negb (bool_decide (credential = ""))) errNoViewerCredential;;
  g ← map_err RefusedBy (Check int64_oor credential ActionSubscribe path now v);
  guard_err (Allows g.(grant) ActionSubscribe path) (RefusedBy (Refused StatusForbidden)).

(** A request: its path, its raw query and the value its query has for the
    access parameter. *)
Record request := mkRequest { url_path : string; raw_query : string; credential : string }.

Definition keepQuery (target : string) (r : request) : string :=
  if bool_decide (r.(raw_query) = "") then target else target +:+ "?" +:+ r.(raw_query).

(** ** Answering a request *)

(** The Cache-Control header, and the answer: a refusal, 503 with Retry-After, a
    master playlist, what the handler of a track answers, a redirect, or 404. *)
Inductive cache_control := CacheDefault | CacheNoStore | CachePrivate.

Inductive answer :=
| AnsRefused (status : Z) | AnsRetry | AnsMaster (lines : list master_line) | AnsTrack (handler : nat)
| AnsRedirect (target : string) | AnsNotFound.

Section Serve.
Context (access : viewerAccess) (liveTimeout : Duration).

Definition admit_then (r : request) (path : string) (now : Time) (k : answer) : cache_control * answer :=
  match access.(check) with
  | None => (CacheDefault, k)
  | Some check =>
      match check r.(credential) path now with
      | Err e => (CacheNoStore, AnsRefused (refusal_status e))
      | Ok _ => (CachePrivate, k)
      end
  end.

Definition isManifest (urlPath : string) : bool :=
  let base := Base urlPath in
  HasSuffix base ".m3u8" || HasSuffix base ".mpd".

(** The handler of a track behind [withLiveness]. *)
Definition serveTrack (r : request) (now : Time) (m : streamMux) (t : trackEntry) : answer :=
  if isManifest r.(url_path) && stale t.(live) now liveTimeout m then AnsRetry else AnsTrack t.(handler).

Definition serveMasterPlaylist (now : Time) (m : streamMux) (b : broadcastEntry) : answer :=
  if negb (isLive b now liveTimeout m) then AnsRetry
  else
    let tracks := (fun t => t.2.(info)) <$> map_to_list b.(tracks) in
    if (length tracks =? 0)%nat then AnsRetry else AnsMaster (renderMasterPlaylist tracks access.(param)).

(** The first alternative that applies. *)
Fixpoint first_of {A} (l : list (option A)) (d : A) : A :=
  match l with [] => d | Some a :: _ => a | None :: l => first_of l d end.

Definition ServeHTTP (order : list (string * trackEntry) -> list (string * trackEntry)) (now : Time) (r : request) (m : streamMux) :
    cache_control * answer :=
  let cleanPath := Clean r.(url_path) in
  let base := Base cleanPath in
  let dir := Dir cleanPath in
  first_of
    [ (* 1. /{broadcast}/master.m3u8 *)
      if bool_decide (base = "master.m3u8")
      then b ← getBroadcast dir m; Some (admit_then r b.(b_path) now (serveMasterPlaylist now m b)) else None;
      (* 2. /{broadcast}/{track}/... *)
      b ← getBroadcast (Dir dir) m; t ← b.(tracks) !! Base dir; Some (admit_then r b.(b_path) now (serveTrack r now m t));
      (* 3. /{broadcast}/playlist.m3u8 *)
      if bool_decide (base = "playlist.m3u8")
      then b ← getBroadcast dir m; Some (admit_then r b.(b_path) now (serveMasterPlaylist now m b)) else None;
      (* 4. /{broadcast}/manifest.mpd *)
      if bool_decide (base = "manifest.mpd")
      then b ← getBroadcast dir m; t ← defaultTrack order b;
           Some (admit_then r b.(b_path) now (AnsRedirect (keepQuery (PathJoin [b.(b_path); t.(info).(Name); "manifest.mpd"]) r))) else None;
      (* the only broadcast, from the root *)
      if (bool_decide (base = "playlist.m3u8") || bool_decide (base = "master.m3u8")) && bool_decide (cleanPath = "/" +:+ base)
      then b ← singleBroadcast m;
           Some (admit_then r b.(b_path) now (AnsRedirect (keepQuery (PathJoin [b.(b_path); "master.m3u8"]) r))) else None ]
    (admit_then r dir now AnsNotFound).
End Serve.

(** ** The registry over time *)

Inductive mux_op :=
| ORegister (p : string) | OUnregister (id : nat) | OAddTrack (id : nat) (t : trackEntry)
| ORemoveTrack (id : nat) (name : string) | OMark (l : nat) (at_ : Time).

Definition mux_step (m : streamMux) (o : mux_op) : streamMux :=
  match o with
  | ORegister p => (RegisterBroadcast p m).2
  | OUnregister id => UnregisterBroadcast id m
  | OAddTrack id t => AddTrack id t m
  | ORemoveTrack id name => RemoveTrack id name m
  | OMark l at_ => mark l at_ m
  end.

Definition mux_run (ops : list mux_op) : streamMux := foldl mux_step newStreamMux ops.

(** Which announcement owns a path: the one that registered it last, until it
    ends. Announcements are numbered as they register. *)
Definition owner_step (p : string) (s : nat * option nat) (o : mux_op) : nat * option nat :=
  match o with
  | ORegister q => (S s.1, if bool_decide (Clean q = p) then Some s.1 else s.2)
  | OUnregister id => (s.1, if bool_decide (s.2 = Some id) then None else s.2)
  | _ => s
  end.

Definition owner (ops : list mux_op) (p : string) : option nat := (foldl (owner_step p) (0%nat, None) ops).2.

(** The path an announcement registered. *)
Definition registered (ops : list mux_op) : list string := omap (fun o => match o with ORegister p => Some (Clean p) | _ => None end) ops.

Record mux_ok (ops : list mux_op) (m : streamMux) : Prop := {
  mo_next : m.(next_entry) = length (registered ops);
  mo_entry : forall id, b_path <$> m.(entries) !! id = registered ops !! id;
  mo_owner : forall p, foldl (owner_step p) (0%nat, None) ops = (m.(next_entry), m.(broadcasts) !! p);
  mo_mounted : forall p id, m.(broadcasts) !! p = Some id -> registered ops !! id = Some p
}.

Lemma registered_snoc ops o :
  registered (ops ++ [o]) = registered ops ++ match o with ORegister p => [Clean p] | _ => [] end.
Proof. unfold registered. rewrite omap_app. by destruct o. Qed.

Lemma with_tracks_ok ops m o f id :
  mux_ok ops m -> registered (ops ++ [o]) = registered ops -> (forall p s, owner_step p s o = s) ->
  mux_ok (ops ++ [o]) (with_entries (alter (on_tracks f) id) m).
Proof.
  intros [H1 H2 H3 H4] Hr Ho. split; cbn; rewrite ?Hr; [done| | |exact H4].
  - intros j. rewrite <- H2. destruct (decide (id = j)) as [<-|Hne]; [|by rewrite lookup_alter_ne].
    rewrite lookup_alter_eq. by destruct (entries m !! id).
  - intros p. rewrite foldl_app, H3. cbn. apply Ho.
Qed.

Lemma mux_ok_step ops m o : mux_ok ops m -> mux_ok (ops ++ [o]) (mux_step m o).
Proof.
  intros Hm. destruct o as [p|id|id t|id name|l at_]; cbn [mux_step].
  - destruct Hm as [H1 H2 H3 H4]. split; cbn; rewrite ?registered_snoc.
    + rewrite length_app, H1. cbn. lia.
    + intros id. destruct (decide (id = next_entry m)) as [->|Hne].
      * rewrite lookup_insert_eq, H1. by rewrite lookup_app_r, Nat.sub_diag by lia.
      * rewrite lookup_insert_ne by done. rewrite H2. destruct (decide (id < length (registered ops))%nat); [by rewrite lookup_app_l|].
        rewrite lookup_ge_None_2 by lia. symmetry. apply lookup_ge_None_2. rewrite length_app. cbn. lia.
    + intros q. rewrite foldl_app, H3. cbn. f_equal. case_bool_decide as Hc; [by rewrite <- Hc, lookup_insert_eq|by rewrite lookup_insert_ne].
    + intros q id. rewrite lookup_insert_Some. intros [[<- <-]|[Hne Hq]].
      * by rewrite H1, lookup_app_r, Nat.sub_diag by lia.
      * apply lookup_app_l_Some, H4, Hq.
  - destruct Hm as [H1 H2 H3 H4]. unfold UnregisterBroadcast. destruct (entries m !! id) as [b|] eqn:Hb.
    + assert (Hreg : registered ops !! id = Some (b_path b)) by (by rewrite <- H2, Hb).
      case_bool_decide as Hc; (split; cbn; rewrite ?registered_snoc, ?app_nil_r; [done|done| |]).
      * intros q. rewrite foldl_app, H3. cbn. f_equal. case_bool_decide as Hq.
        -- apply H4 in Hq. rewrite Hreg in Hq. injection Hq as <-. by rewrite lookup_delete_eq.
        -- rewrite lookup_delete_ne; [done|]. intros <-. done.
      * intros q i [_ Hq]%lookup_delete_Some. by apply H4.
      * intros q. rewrite foldl_app, H3. cbn. f_equal. case_bool_decide as Hq; [|done]. pose proof (H4 _ _ Hq) as Hp. rewrite Hreg in Hp. injection Hp as Hp. by rewrite Hp in Hc.
      * exact H4.
    + split; cbn; rewrite ?registered_snoc, ?app_nil_r; [done|done| |done]. intros q. rewrite foldl_app, H3. cbn. f_equal.
      case_bool_decide as Hq; [|done]. apply H4 in Hq. rewrite <- H2, Hb in Hq. done.
  - apply with_tracks_ok; [done|by rewrite registered_snoc, app_nil_r|done].
  - apply with_tracks_ok; [done|by rewrite registered_snoc, app_nil_r|done].
  - destruct Hm as [H1 H2 H3 H4]. split; cbn; rewrite ?registered_snoc, ?app_nil_r; [done|done| |done]. intros q. by rewrite foldl_app, H3.
Qed.

Lemma mux_run_ok ops : mux_ok ops (mux_run ops).
Proof.
  induction ops as [|o ops IH] using rev_ind; [by split|]. unfold mux_run. rewrite foldl_app. by apply mux_ok_step.
Qed.

(** The newest announcement of a broadcast owns its path: whatever order
    announcements begin and end in, a path is mounted to the last one that
    registered it, and to none once that one ended; an earlier one that ends
    later takes nothing down. *)
Theorem newest_announcement_owns ops p :
  (mux_run ops).(broadcasts) !! p = owner ops p /\
  (forall b, getBroadcast p (mux_run ops) = Some b -> b.(b_path) = Clean p).
Proof.
  destruct (mux_run_ok ops) as [_ H2 H3 H4]. split; [by unfold owner; rewrite H3|]. intros b Hb. unfold getBroadcast in Hb.
  apply bind_Some in Hb as (id & Hid & Hb). apply H4 in Hid. rewrite <- H2, Hb in Hid. by injection Hid.
Qed.

(** ** What a viewer is told *)

(** [b] is the broadcast mounted at [p]. *)
Definition mounted (m : streamMux) (p : string) (b : broadcastEntry) : Prop :=
  b.(b_path) = p /\ exists id, m.(broadcasts) !! p = Some id /\ m.(entries) !! id = Some b.

(** An answer about the path [p]: of a track, the playlist of, a redirect within
    or the wait for the broadcast mounted there, or that nothing is. *)
Definition about (access : viewerAccess) (r : request) (m : streamMux) (p : string) (a : answer) : Prop :=
  match a with
  | AnsRefused _ => False
  | AnsNotFound => p = Dir (Clean r.(url_path))
  | AnsTrack h => exists b name t, mounted m p b /\ b.(tracks) !! name = Some t /\ t.(handler) = h
  | AnsMaster ls => exists b, mounted m p b /\
      ls = renderMasterPlaylist ((fun t => t.2.(info)) <$> map_to_list b.(tracks)) access.(param)
  | AnsRedirect target => exists b rest, mounted m p b /\ target = keepQuery (PathJoin (p :: rest)) r
  | AnsRetry => exists b, mounted m p b
  end.

Lemma getBroadcast_mounted ops p b : getBroadcast p (mux_run ops) = Some b -> mounted (mux_run ops) b.(b_path) b.
Proof.
  destruct (mux_run_ok ops) as [_ H2 _ H4]. unfold getBroadcast. intros (id & Hid & Hb)%bind_Some.
  pose proof (H4 _ _ Hid) as Hp. rewrite <- H2, Hb in Hp. injection Hp as Hp. split; [done|]. exists id. by rewrite Hp.
Qed.

Lemma singleBroadcast_mounted ops b : singleBroadcast (mux_run ops) = Some b -> mounted (mux_run ops) b.(b_path) b.
Proof.
  destruct (mux_run_ok ops) as [_ H2 _ H4]. unfold singleBroadcast. destruct (map_to_list _) as [|[p id] [|]] eqn:Hl; [done| |done]. intros Hb.
  assert (Hid : broadcasts (mux_run ops) !! p = Some id) by (apply elem_of_map_to_list; rewrite Hl; constructor).
  pose proof (H4 _ _ Hid) as Hp. rewrite <- H2, Hb in Hp. injection Hp as Hp. split; [done|]. exists id. by rewrite Hp.
Qed.

Lemma master_about access lt now r m b : mounted m b.(b_path) b -> about access r m b.(b_path) (serveMasterPlaylist access lt now m b).
Proof. intros Hm. unfold serveMasterPlaylist. destruct (negb _); [by exists b|]. destruct (_ =? _)%nat; [by exists b|]. by exists b. Qed.

Lemma track_about access lt now r m b name t :
  mounted m b.(b_path) b -> b.(tracks) !! name = Some t -> about access r m b.(b_path) (serveTrack lt r now m t).
Proof. intros Hm Ht. unfold serveTrack. destruct (_ && _); [by exists b|]. by exists b, name, t. Qed.

Lemma first_of_ind {A} (P : A -> Prop) l d : Forall (fun o => forall a, o = Some a -> P a) l -> P d -> P (first_of l d).
Proof. intros Hl Hd. induction Hl as [|[a|] l Ho Hl IH]; cbn; [done|by apply Ho|done]. Qed.

Lemma guarded {A B} (P : A -> Prop) (b : bool) (o : option B) (f : B -> option A) :
  (forall x a, o = Some x -> f x = Some a -> P a) -> forall a, (if b then o ≫= f else None) = Some a -> P a.
Proof. intros Hf a. destruct b; [|done]. intros (x & Hx & Ha)%bind_Some. by eapply Hf. Qed.

(** Every request is put to the check for the path its answer is about. *)
Lemma ServeHTTP_admits access lt order now r ops :
  exists p a, ServeHTTP access lt order now r (mux_run ops) = admit_then access r p now a /\ about access r (mux_run ops) p a.
Proof.
  unfold ServeHTTP. apply first_of_ind; [|by eexists _, _]. repeat apply Forall_cons_2; [| | | | |apply Forall_nil_2].
  - apply guarded. intros b a Hb [= <-]. eexists _, _. split; [done|]. by eapply master_about, getBroadcast_mounted.
  - intros a (b & Hb & (t & Ht & [= <-])%bind_Some)%bind_Some. eexists _, _. split; [done|]. by eapply track_about; [eapply getBroadcast_mounted|].
  - apply guarded. intros b a Hb [= <-]. eexists _, _. split; [done|]. by eapply master_about, getBroadcast_mounted.
  - apply guarded. intros b a Hb (t & Ht & [= <-])%bind_Some. eexists _, _. split; [done|]. eexists b, _. split; [by eapply getBroadcast_mounted|done].
  - apply guarded. intros b a Hb [= <-]. eexists _, _. split; [done|]. eexists b, _. split; [by eapply singleBroadcast_mounted|done].
Qed.

(** C34: While viewers are checked, every answer passes the check first: a request
    is refused with the check's own status, never to be cached, or the check
    admitted the credential to the path the answer is about, which is the path of
    the mounted broadcast whose playlist, track or address is given, and the
    answer is marked private. A credential that is refused everywhere learns
    nothing of what is live. *)
Theorem viewers_confined access chk lt order now r ops :
  access.(check) = Some chk ->
  (match ServeHTTP access lt order now r (mux_run ops) with
   | (c, AnsRefused status) => c = CacheNoStore /\ exists p e, chk r.(credential) p now = Err e /\ status = refusal_status e
   | (c, a) => c = CachePrivate /\ exists p, chk r.(credential) p now = Ok tt /\ about access r (mux_run ops) p a
   end) /\
  (forall e, (forall p, chk r.(credential) p now = Err e) ->
     ServeHTTP access lt order now r (mux_run ops) = (CacheNoStore, AnsRefused (refusal_status e))).
Proof.
  intros Hc. destruct (ServeHTTP_admits access lt order now r ops) as (p & a & -> & Ha). unfold admit_then. rewrite Hc. split.
  - destruct (chk (credential r) p now) as [[]|e] eqn:Hk; [|split; [done|by exists p, e]].
    destruct a; by (split; [done|by exists p]).
  - intros e He. by rewrite He.
Qed.

(** What the egress's own check asks: a credential the verifier accepts, whose
    grant allows subscribing to the path. *)
Lemma subscribeCheck_Ok `{Moqt} `{Crypto} `{JsonText} int64_oor v cred path now :
  subscribeCheck int64_oor v cred path now = Ok tt <->
  cred <> "" /\ exists g, Check int64_oor cred ActionSubscribe path now v = Ok g /\ Allows g.(grant) ActionSubscribe path = true.
Proof.
  unfold subscribeCheck. rewrite bind_Ok. split.
  - intros (u & Hu%guard_err_Ok & (g & Hg%map_err_Ok & Ha%guard_err_Ok)%bind_Ok). split; [|by exists g].
    by apply negb_true_iff, bool_decide_eq_false in Hu.
  - intros (Hn & g & Hg & Ha). exists tt. split; [apply guard_err_Ok; by rewrite bool_decide_false|]. rewrite Hg. cbn. by rewrite Ha.
Qed.

(** ** A concrete registry *)

Definition ex_track : trackEntry := mkTrackEntry (mkTrackInfo "video" "video" "vp09.00.10.08" 1280 720 0) 7 3.

(** Announced twice; the first announcement ends after the second began. *)
Definition ex_ops : list mux_op :=
  [ORegister "/live/cam1"; ORegister "/live//cam1/"; OAddTrack 1 ex_track; OMark 3 100; OUnregister 0].

(** Admits a viewer of /live/cam1/video, and of nothing else. *)
Definition ex_check (_ path : string) (_ : Time) : result viewer_refusal unit :=
  if bool_decide (path = "/live/cam1/video") then Ok tt else Err (RefusedBy (Refused StatusForbidden)).

Definition ex_request (p : string) : request := mkRequest p "jwt=t" "t".

(** A viewer who may watch only a path beneath a broadcast is told whether the
    broadcast it may not watch is live. *)
Lemma live_broadcast_told_apart :
  let serve ops := ServeHTTP (mkAccess "jwt" (Some ex_check)) 10 (fun l => l) 105 (ex_request "/live/cam1/video/playlist.m3u8") (mux_run ops) in
  serve ex_ops = (CacheNoStore, AnsRefused 403) /\ serve [] = (CachePrivate, AnsNotFound).
Proof. vm_compute. done. Qed.

Definition ex_allow (_ path : string) (_ : Time) : result viewer_refusal unit :=
  if bool_decide (path = "/live/cam1") then Ok tt else Err errNoViewerCredential.
Definition ex_access : viewerAccess := mkAccess "jwt" (Some ex_allow).
Definition ex_serve (p : string) : cache_control * answer := ServeHTTP ex_access 10 (fun l => l) 105 (ex_request p) (mux_run ex_ops).

Lemma viewers_confined_witness :
  (ex_serve "/live/cam1/master.m3u8").1 = CachePrivate /\ ex_serve "/live/cam2/master.m3u8" = (CacheNoStore, AnsRefused 401) /\
  ex_serve "/live/cam1/video/0.m4s" = (CachePrivate, AnsTrack 7) /\
  match ex_serve "/live/cam1/master.m3u8" with
  | (c, AnsRefused status) => c = CacheNoStore /\ exists p e, ex_allow "t" p 105 = Err e /\ status = refusal_status e
  | (c, a) => c = CachePrivate /\ exists p, ex_allow "t" p 105 = Ok tt /\ about ex_access (ex_request "/live/cam1/master.m3u8") (mux_run ex_ops) p a
  end.
Proof.
  split; [vm_compute; reflexivity|]. split; [vm_compute; reflexivity|]. split; [vm_compute; reflexivity|].
  exact (proj1 (viewers_confined ex_access ex_allow 10 (fun l => l) 105 (ex_request "/live/cam1/master.m3u8") ex_ops eq_refl)).
Defined.

Lemma opt_in_stays_in_prefix_witness :
  broadcastPathFromAnnounce ("/.hls" +:+ path_of ["acme"; "cam"]) announcePrefix = path_of ["acme"; "cam"] /\
  (HasPrefix ("/.hls" +:+ path_of ["acme"; "cam"]) (HLSDirectory +:+ TrimPrefix ("/" +:+ "acme/") "/") = true ->
   HasPrefix (path_of ["acme"; "cam"]) ("/" +:+ "acme/") = true).
Proof. apply (opt_in_stays_in_prefix ["acme"; "cam"] "acme/"). repeat constructor; vm_compute; discriminate || reflexivity. Defined.

Lemma ex_mounted : owner ex_ops "/live/cam1" = Some 1%nat /\ (mux_run ex_ops).(broadcasts) = {["/live/cam1" := 1%nat]}.
Proof. vm_compute. done. Qed.
