(* ===== verification/Funnel.v ===== *)
(** * Funnel: recording requests and serving the records

    The funnel (src/internal/funnel) takes records over HTTP, commits each to a
    ledger track and sends it to the track's subscribers. Here are the check a
    request passes (authorize.go), over the verifier of AuthVerifier.v; the
    publishing of the records (egress.go), as steps of the senders and of each
    subscriber; and the publishing of what the ledger already holds
    (restore.go). The HTTP handler and the ledger are qumo-ledger's, a
    dependency: what they answer are arguments. *)
From stdpp Require Import gmap strings sorting.
From S2P Require Import Prelude GoStrings GoURL GoText GoPath TokenPath TokenGrant GoTime Base64 TokenClaims TokenKey Token AuthVerifier TokenExample AuthExample.

Open Scope Z_scope.

(** ** The check of a request: authorize.go *)

(** [ingest.Access], with the accesses the funnel does not know. *)
Inductive Access := CreateAccess | WriteAccess | ReadAccess | RedactAccess | LaterAccess (n : Z).

#[export] Instance Access_eq_dec : EqDecision Access.
Proof. solve_decision. Defined.

(** [ingest.Track]. *)
Record Track := mkTrack { BroadcastPath : string; TrackName : string }.

(** The errors, of which the first and a 401 are [ingest.ErrUnauthenticated]. *)
Inductive authorize_error :=
| NoBearer | NoAction | CheckFailed (e : auth_error) | NotPermitted | BadRoot | OutsideRoot.

Definition unauthenticated (e : authorize_error) : bool :=
  match e with
  | NoBearer => true
  | CheckFailed (Refused status) => bool_decide (status = StatusUnauthorized)
  | _ => false
  end.

(** The credential of the Authorization header. "Bearer" has no letter that folds
    to one outside ASCII. *)
Definition bearer (Authorization : string) : option string :=
  '(scheme, credential) ← Cut Authorization " ";
  if bool_decide (ToLower scheme = "bearer") && negb (bool_decide (credential = "")) then Some credential else None.

Definition accessAction (access : Access) : option (Action * bool) :=
  match access with
  | CreateAccess => Some (ActionCreate, false)
  | WriteAccess => Some (ActionPost, true)
  | ReadAccess => Some (ActionSubscribe, false)
  | RedactAccess => Some (ActionRedact, true)
  | LaterAccess _ => None
  end.

Section Authorize.
Context `{Moqt} `{Crypto} `{JsonText}.
Variable int64_oor : float64 -> Z.

(** A check: the time and the Authorization header of the request, the track,
    the access; the sender, or an error. *)
Definition checker : Type := Time -> string -> Track -> Access -> result authorize_error string.

(** The verifier is the one the request finds; [None] is nil. *)
Definition authorizer (v : option Verifier) : option checker :=
  v ← v;
  Some (fun now header t access =>
    credential ← of_option NoBearer (bearer header);
    '(action, sender) ← of_option NoAction (accessAction access);
    g ← map_err CheckFailed (Check int64_oor credential action t.(BroadcastPath) now v);
    guard_err (Allows g.(grant) action t.(BroadcastPath)) NotPermitted;;
    Ok (if sender : bool then g.(grant).(Subject) else "")).

Definition publishedBeneath (path : string) (authorize : option checker) : option checker :=
  if bool_decide (path = "") then authorize
  else
    let root := Directory path in
    Some (fun now header t access =>
      (if bool_decide (access = CreateAccess)
       then root ← map_err (fun _ => BadRoot) root;
            guard_err (HasPrefix t.(BroadcastPath) root) OutsideRoot
       else Ok tt);;
      match authorize with
      | None => Ok ""
      | Some authorize => authorize now header t access
      end).

(** What [NewHandler] gives the handler; [None] accepts every request. *)
Definition handler_check (v : option Verifier) (publish_beneath : string) : option checker :=
  publishedBeneath publish_beneath (authorizer v).

(** ** What a check lets through *)

(** A verified credential for the action, at a time and against a key set. *)
Definition permits (v : Verifier) (now : Time) (credential : string) (action : Action) (path : string) (c : Claims) : Prop :=
  exists keys, v.(store).(set) = Some keys /\ time_Sub now v.(store).(lastSuccess) <= keysMaxStale /\
    Verify int64_oor credential keys now = Ok c /\ Allows c.(v_Grant) action path = true /\
    (action = ActionCreate -> Pauses c.(v_Key) ActionPublish = false).

Lemma Check_permits v now credential action path g :
  action <> ActionPublish ->
  Check int64_oor credential action path now v = Ok g /\ Allows g.(grant) action path = true <->
  exists c, permits v now credential action path c /\
    g = mkAuthGrant c.(v_Grant) revalidateEvery c.(v_Key).(ID) c.(v_ExpiresAt) false.
Proof.
  intros Hp. unfold Check. rewrite (bool_decide_false (action = ActionPublish)), orb_false_r by done. split.
  - intros [([g' u] & Hd & [= <-])%fmap_Ok Ha].
    apply decide_inv in Hd as (keys & cr & c & Hs & [= <-] & Hf & Hv & -> & _ & Hpa). cbn in *.
    exists c. split; [|done]. exists keys. split_and!; auto. intros ->.
    destruct (Pauses _ _); [|done]. specialize (Hpa eq_refl). by rewrite bool_decide_true, Ha in Hpa.
  - intros (c & (keys & Hs & Hf & Hv & Ha & Hpa) & ->). split; [|done].
    unfold decide_credential, current. rewrite Hs. cbn.
    replace (_ <=? keysMaxStale) with true by (symmetry; by apply Z.leb_le). cbn. rewrite Hv. cbn. rewrite Ha, andb_true_r.
    destruct (decide (action = ActionCreate)) as [->|Hn].
    + by rewrite Hpa.
    + rewrite (bool_decide_false _ Hn), andb_false_r. done.
Qed.

Lemma accessAction_not_publish access action named : accessAction access = Some (action, named) -> action <> ActionPublish.
Proof. by destruct access; intros [= <- <-]. Qed.

(** The root a created track must lie beneath. *)
Definition beneath (publish_beneath path : string) : Prop :=
  publish_beneath = "" \/ exists root, Directory publish_beneath = Ok root /\ HasPrefix path root = true.

Lemma authorizer_iff v chk now header t access sender :
  authorizer (Some v) = Some chk ->
  chk now header t access = Ok sender <->
  exists credential action named c,
    bearer header = Some credential /\ accessAction access = Some (action, named) /\
    permits v now credential action t.(BroadcastPath) c /\
    sender = if named then c.(v_Grant).(Subject) else "".
Proof.
  intros [= <-]. split.
  - intros Hc. inv_ok. destruct x0 as [action named]. inv_ok. rename select (bearer _ = _) into Hb. rename select (accessAction _ = _) into Ha.
    rename select (Check _ _ _ _ _ _ = _) into Hk. rename select (Allows _ _ _ = true) into Hal.
    apply (conj Hk), (Check_permits _ _ _ _ _ _ (accessAction_not_publish _ _ _ Ha)) in Hal as (c & Hp & ->).
    by exists x, action, named, c.
  - intros (credential & action & named & c & Hb & Ha & Hp & ->).
    destruct (proj2 (Check_permits v now credential action t.(BroadcastPath)
      (mkAuthGrant c.(v_Grant) revalidateEvery c.(v_Key).(ID) c.(v_ExpiresAt) false) (accessAction_not_publish _ _ _ Ha))) as [Hk Hal];
      [by exists c|]. rewrite Hb, Ha. cbn [of_option mbind result_bind]. rewrite Hk. cbn in *. by rewrite Hal.
Qed.

Lemma publishedBeneath_iff publish_beneath chk chk' now header t access sender :
  publishedBeneath publish_beneath (Some chk) = Some chk' ->
  chk' now header t access = Ok sender <->
  (access = CreateAccess -> beneath publish_beneath t.(BroadcastPath)) /\ chk now header t access = Ok sender.
Proof.
  unfold publishedBeneath, beneath. case_bool_decide as Hp; intros [= <-]; [naive_solver|].
  case_bool_decide as Ha; cbn; [|naive_solver].
  destruct (Directory publish_beneath) as [root|e]; cbn.
  - destruct (HasPrefix _ _) eqn:Hr; cbn; split.
    + intros Hc. split; [|done]. intros _. right. by exists root.
    + by intros [_ Hc].
    + done.
    + intros [[?|(r & [= <-] & Hr')]%(fun f => f Ha) _]; [done|]. by rewrite Hr in Hr'.
  - split; [done|]. intros [[?|(r & ? & _)]%(fun f => f Ha) _]; done.
Qed.

Context `{!MoqtLaws}.

Lemma verified_paths keys credential now c action path :
  keys_ok keys -> Verify int64_oor credential keys now = Ok c -> Allows c.(v_Grant) action path = true ->
  segments c.(v_Key).(Prefix) `prefix_of` segments path \/ (".hls" :: segments c.(v_Key).(Prefix)) `prefix_of` segments path.
Proof.
  intros Hks (p0 & p1 & p2 & hv & hd & sig & v & m & cl & _ & _ & _ & _ & _ & Hk & _ & _
          & _ & _ & _ & _ & _ & Hg & _)%verify_inv Ha.
  destruct (Hks _ _ Hk) as (_ & _ & _ & Hdir & _). eapply confined_path; [done| |done]. by eapply claimed_grant_confined.
Qed.

End Authorize.

(** ** Publishing the records: egress.go *)

Definition subscriberBuffer : nat := 64.

(** A record as it is sent: the sequence of its ledger group plus one. *)
Record group := mkGroup { seq : Z; payload : string }.

#[export] Instance group_eq_dec : EqDecision group.
Proof. solve_decision. Defined.

(** A track's latest record, and what is in each subscriber's channel, by the
    channel. *)
Record track := mkEgressTrack { latest : option group; subscribers : gmap nat (list group) }.

Definition new_track : track := mkEgressTrack None ∅.

(** The broadcasts of an egress, each with its tracks, and the paths published on
    the mux. *)
Record egress := mkEgress { broadcasts : gmap string (gmap string track); published : list string }.

Definition newEgress : egress := mkEgress ∅ [].

Definition announce (path : string) (e : egress) : egress :=
  match e.(broadcasts) !! path with
  | Some _ => e
  | None => mkEgress (<[path := ∅]> e.(broadcasts)) (e.(published) ++ [path])
  end.

(** [broadcast.track] of an announced path. *)
Definition broadcast_track (path name : string) (e : egress) : egress :=
  mkEgress (alter (fun b : gmap string track => match b !! name with Some _ => b | None => <[name := new_track]> b end) path e.(broadcasts))
    e.(published).

Definition lookup_track (path name : string) (e : egress) : option track :=
  b ← e.(broadcasts) !! path; b !! name.

Definition alter_track (f : track -> track) (path name : string) (e : egress) : egress :=
  mkEgress (alter (alter f name) path e.(broadcasts)) e.(published).

(** A send that does not wait. *)
Definition offer (g : group) (ch : list group) : list group :=
  if (length ch <? subscriberBuffer)%nat then ch ++ [g] else ch.

Definition publish_track (g : group) (t : track) : track := mkEgressTrack (Some g) (offer g <$> t.(subscribers)).

Definition publish (path name : string) (g : group) (e : egress) : egress :=
  alter_track (publish_track g) path name (broadcast_track path name (announce path e)).

(** [serve] up to its loop: the new channel [ch] holds the latest record. *)
Definition join (ch : nat) (t : track) : track :=
  mkEgressTrack t.(latest) (<[ch := option_list t.(latest)]> t.(subscribers)).

Definition leave (ch : nat) (t : track) : track := mkEgressTrack t.(latest) (delete ch t.(subscribers)).

Definition receive (ch : nat) (t : track) : track :=
  mkEgressTrack t.(latest) (alter tail ch t.(subscribers)).

(** What happens to an egress: [OnOpen] of a track and a [restore]d one, a
    record, a subscriber that asks for a track with the channel [serve] makes, its
    loop taking one record from the channel ([sent]: written; else the write
    failed and the subscriber ends), and its end. *)
Inductive act :=
| Open (path name : string)
| Publish (path name : string) (g : group)
| ServeTrack (path name : string) (ch : nat)
| Receive (path name : string) (ch : nat) (sent : bool)
| Leave (path name : string) (ch : nat).

(** What a step tells a subscriber: a group, or that the track is not found. *)
Inductive told := Told (path name : string) (ch : nat) (g : group) | NotFound (path name : string) (ch : nat).

Definition step (a : act) (e : egress) : egress * list told :=
  match a with
  | Open path name => (broadcast_track path name (announce path e), [])
  | Publish path name g => (publish path name g e, [])
  | ServeTrack path name ch =>
      match lookup_track path name e with
      | None => (e, [NotFound path name ch])
      | Some _ => (alter_track (join ch) path name e, [])
      end
  | Receive path name ch sent =>
      match t ← lookup_track path name e; t.(subscribers) !! ch with
      | Some (g :: _) =>
          if sent : bool then (alter_track (receive ch) path name e, [Told path name ch g])
          else (alter_track (fun t => leave ch (receive ch t)) path name e, [])
      | _ => (e, [])
      end
  | Leave path name ch => (alter_track (leave ch) path name e, [])
  end.

Fixpoint run (l : list act) (e : egress) : egress * list told :=
  match l with
  | [] => (e, [])
  | a :: l => let '(e, out) := step a e in let '(e, out') := run l e in (e, out ++ out')
  end.

(** *** What a subscriber is sent *)

Section Subscriber.
Variables (path name : string) (ch : nat).

(** The records of the track among the steps, those sent to the subscriber, and
    what waits in its channel. *)
Definition records (l : list act) : list group :=
  omap (fun a => match a with Publish p n g => if bool_decide (p = path /\ n = name) then Some g else None | _ => None end) l.

Definition sent_to (out : list told) : list group :=
  omap (fun o => match o with Told p n c g => if bool_decide (p = path /\ n = name /\ c = ch) then Some g else None | _ => None end) out.

Definition pending (e : egress) : option (list group) :=
  t ← lookup_track path name e; t.(subscribers) !! ch.

(** The records that found the subscriber's channel full. *)
Definition overrun (a : act) (e : egress) : list group :=
  match a with
  | Publish p n g => if bool_decide (p = path /\ n = name) && bool_decide (subscriberBuffer <= length (default [] (pending e)))%nat then [g] else []
  | _ => []
  end.

Fixpoint overruns (l : list act) (e : egress) : list group :=
  match l with [] => [] | a :: l => overrun a e ++ overruns l (step a e).1 end.

(** The subscriber is not joined again on its channel, nor ended. *)
Definition stays (a : act) : Prop :=
  match a with
  | ServeTrack p n c | Leave p n c | Receive p n c false => (p, n, c) <> (path, name, ch)
  | _ => True
  end.

Lemma lookup_announce p' n' p e : lookup_track p' n' (announce p e) = lookup_track p' n' e.
Proof.
  unfold announce, lookup_track. destruct (broadcasts e !! p) eqn:Hp; [done|]. cbn.
  destruct (decide (p = p')) as [->|]; [|by rewrite lookup_insert_ne]. by rewrite lookup_insert_eq, Hp.
Qed.

Lemma lookup_alter_track f p n p' n' e :
  lookup_track p' n' (alter_track f p n e) =
  if bool_decide (p = p' /\ n = n') then f <$> lookup_track p' n' e else lookup_track p' n' e.
Proof.
  unfold lookup_track, alter_track. cbn. destruct (decide (p = p')) as [->|Hp].
  - rewrite lookup_alter_eq. destruct (broadcasts e !! p') as [b|]; cbn; [|by case_bool_decide].
    case_bool_decide as Hn; [destruct Hn as [_ ->]; apply lookup_alter_eq|]. apply lookup_alter_ne. naive_solver.
  - rewrite lookup_alter_ne by done. rewrite bool_decide_false by naive_solver. done.
Qed.

(** Opening a track leaves those there are, and makes it when its path is announced. *)
Lemma lookup_broadcast_track p n p' n' e :
  lookup_track p' n' (broadcast_track p n (announce p e)) =
  if bool_decide (p = p' /\ n = n') then Some (default new_track (lookup_track p' n' e)) else lookup_track p' n' e.
Proof.
  unfold broadcast_track, announce, lookup_track. destruct (decide (p = p')) as [->|Hp].
  - assert (Hl : forall b : gmap string track, (match b !! n with Some _ => b | None => <[n:=new_track]> b end) !! n' =
      if bool_decide (n = n') then Some (default new_track (b !! n')) else b !! n').
    { intros b. case_bool_decide as Hn; [subst n'|]; destruct (b !! n) eqn:Hb; cbn; rewrite ?lookup_insert_eq, ?lookup_insert_ne by done; by rewrite ?Hb. }
    destruct (broadcasts e !! p') as [b|] eqn:Hb; cbn; rewrite lookup_alter_eq; rewrite ?Hb, ?lookup_insert_eq; cbn; rewrite Hl, ?lookup_empty;
      repeat case_bool_decide; naive_solver.
  - rewrite (bool_decide_false (p = p' /\ _)) by naive_solver.
    destruct (broadcasts e !! p) as [b|] eqn:Hb; cbn; rewrite lookup_alter_ne, ?lookup_insert_ne by done; done.
Qed.

Lemma pending_alter f p n e q :
  pending e = Some q ->
  pending (alter_track f p n e) =
  if bool_decide (p = path /\ n = name) then t ← f <$> lookup_track path name e; t.(subscribers) !! ch else Some q.
Proof. unfold pending. intros Hq. rewrite lookup_alter_track. by case_bool_decide. Qed.

Lemma sent_to_app l l' : sent_to (l ++ l') = sent_to l ++ sent_to l'.
Proof. apply omap_app. Qed.

Lemma records_app l l' : records (l ++ l') = records l ++ records l'.
Proof. apply omap_app. Qed.

Lemma records_cons a l : records (a :: l) = records [a] ++ records l.
Proof. apply (records_app [a] l). Qed.

(** One step: what is sent, then what waits, then what found the channel full, are
    what waited before and the record published. *)
Lemma step_pending a e q :
  pending e = Some q -> stays a -> (length q <= subscriberBuffer)%nat ->
  exists q', pending (step a e).1 = Some q' /\ (length q' <= subscriberBuffer)%nat /\
    sent_to (step a e).2 ++ q' ++ overrun a e = q ++ records [a].
Proof.
  intros Hq Hs Hl. assert (Hq' := Hq). apply bind_Some in Hq' as (t & Ht & Htq).
  destruct a as [p n|p n g|p n c|p n c b|p n c]; cbn [step records omap list_omap overrun].
  - exists q. unfold pending. cbn [fst snd sent_to omap list_omap]. rewrite lookup_broadcast_track, !app_nil_r. split_and!; [|done..].
    case_bool_decide as Hp; [by rewrite Ht|done].
  - rewrite Hq. unfold publish. cbn [fst snd sent_to omap list_omap default]. unfold pending at 1.
    rewrite lookup_alter_track. rewrite lookup_broadcast_track. case_bool_decide as Hp; cbn [andb].
    + rewrite Ht. cbn. rewrite lookup_fmap, Htq. cbn. unfold offer.
      destruct (length q <? subscriberBuffer)%nat eqn:Hlt; [apply Nat.ltb_lt in Hlt|apply Nat.ltb_ge in Hlt].
      * exists (q ++ [g]). rewrite bool_decide_false, app_nil_r by lia. split_and!; [done| |done]. rewrite length_app. cbn. lia.
      * exists q. by rewrite bool_decide_true by lia.
    + exists q. rewrite Ht. by rewrite !app_nil_r.
  - destruct (lookup_track p n e) eqn:Hpn; cbn [fst snd sent_to omap list_omap]; exists q; rewrite !app_nil_r; split_and!; try done.
    rewrite (pending_alter _ _ _ _ _ Hq). case_bool_decide as Hp; [|done]. destruct Hp as [-> ->].
    rewrite Ht. cbn. rewrite lookup_insert_ne; [done|]. intros ->. by apply Hs.
  - destruct (decide ((p, n, c) = (path, name, ch))) as [[= -> -> ->]|Hne].
    + destruct b; [|by cbn in Hs]. rewrite Ht. cbn. rewrite Htq. destruct q as [|g q]; cbn [fst snd].
      { exists []. by rewrite Hq. }
      exists q. rewrite (pending_alter _ _ _ _ _ Hq), bool_decide_true, Ht by done. cbn.
      rewrite lookup_alter_eq, Htq, bool_decide_true, !app_nil_r by done. split_and!; [done|cbn in Hl; lia|done].
    + assert (Hsame : forall f : track -> track, (forall t', (p, n) = (path, name) -> (f t').(subscribers) !! ch = t'.(subscribers) !! ch) ->
        pending (alter_track f p n e) = Some q).
      { intros f Hf. rewrite (pending_alter _ _ _ _ _ Hq). case_bool_decide as Hp; [|done]. destruct Hp as [-> ->].
        rewrite Ht. cbn. by rewrite Hf. }
      exists q. rewrite !app_nil_r. cbn. destruct (_ ≫= _) as [[|g r]|]; cbn; [by rewrite Hq| |by rewrite Hq].
      destruct b; cbn; rewrite Hsame; rewrite ?bool_decide_false by naive_solver; try done;
        intros t' [= -> ->]; cbn; rewrite ?lookup_delete_ne, lookup_alter_ne; naive_solver.
  - exists q. rewrite !app_nil_r. cbn. rewrite (pending_alter _ _ _ _ _ Hq). split_and!; [|done..].
    case_bool_decide as Hp; [|done]. destruct Hp as [-> ->]. rewrite Ht. cbn. rewrite lookup_delete_ne; [done|].
    intros ->. by apply Hs.
Qed.

(** Steps: nothing is reordered or sent twice, and only an overrun is lost. *)
Lemma run_pending l e q :
  pending e = Some q -> Forall stays l -> (length q <= subscriberBuffer)%nat ->
  exists q', pending (run l e).1 = Some q' /\ (length q' <= subscriberBuffer)%nat /\
    sent_to (run l e).2 ++ q' `sublist_of` q ++ records l /\
    sent_to (run l e).2 ++ q' ++ overruns l e ≡ₚ q ++ records l.
Proof.
  intros Hq Hs. revert e q Hq. induction Hs as [|a l Ha _ IH]; intros e q Hq Hl.
  { exists q. cbn. by rewrite app_nil_r. }
  destruct (step_pending a e q Hq Ha Hl) as (q1 & Hq1 & Hl1 & He).
  destruct (IH _ _ Hq1 Hl1) as (q2 & Hq2 & Hl2 & Hsub & Hperm).
  exists q2. rewrite records_cons. cbn [run overruns]. destruct (step a e) as [e1 out1]. cbn in *.
  destruct (run l e1) as [e2 out2]. cbn in *. rewrite sent_to_app, !(assoc_L (++) q), <- He. split_and!; [done..| |].
  - rewrite <- !(assoc_L (++)). apply sublist_app; [done|]. etrans; [exact Hsub|].
    apply sublist_app; [done|]. by apply sublist_inserts_l.
  - rewrite <- !(assoc_L (++)). apply Permutation_app_head.
    rewrite (Permutation_app_swap_app q1), <- Hperm, (Permutation_app_swap_app (overrun a e)).
    by rewrite (Permutation_app_swap_app (overrun a e)).
Qed.

(** The steps that make the track. *)
Definition opens (a : act) : Prop :=
  match a with Open p n | Publish p n _ => p = path /\ n = name | _ => False end.

#[export] Instance opens_dec a : Decision (opens a).
Proof. destruct a; cbn; apply _. Defined.

Lemma run_app l l' e : run (l ++ l') e = ((run l' (run l e).1).1, (run l e).2 ++ (run l' (run l e).1).2).
Proof.
  revert e. induction l as [|a l IH]; intros e; cbn; [by destruct (run l' e)|].
  destruct (step a e) as [e1 o1]. rewrite IH. destruct (run l e1) as [e2 o2]. cbn. by rewrite (assoc_L (++)).
Qed.

Lemma latest_alter (f : track -> track) p n e :
  (forall t, (f t).(latest) = t.(latest)) ->
  latest <$> lookup_track path name (alter_track f p n e) = latest <$> lookup_track path name e.
Proof. intros Hf. rewrite lookup_alter_track. case_bool_decide; [|done]. destruct (lookup_track _ _ e); cbn; by rewrite ?Hf. Qed.

Lemma step_latest a e :
  latest <$> lookup_track path name (step a e).1 =
  if bool_decide (opens a) then Some (default (mjoin (latest <$> lookup_track path name e)) (Some <$> last (records [a])))
  else latest <$> lookup_track path name e.
Proof.
  destruct a as [p n|p n g|p n c|p n c b|p n c]; cbn [step opens].
  - cbn [fst]. rewrite lookup_broadcast_track. repeat case_bool_decide; try done. by destruct (lookup_track _ _ e).
  - cbn [fst]. unfold publish. rewrite lookup_alter_track, lookup_broadcast_track. cbn [records omap list_omap].
    repeat case_bool_decide; done.
  - rewrite (bool_decide_false False) by tauto. destruct (lookup_track p n e); [|done]. by apply latest_alter.
  - rewrite (bool_decide_false False) by tauto. destruct (_ ≫= _) as [[|g r]|]; [done| |done]. by destruct b; apply latest_alter.
  - rewrite (bool_decide_false False) by tauto. by apply latest_alter.
Qed.

(** A track exists once it was opened, and its latest record is the last. *)
Lemma run_latest l :
  latest <$> lookup_track path name (run l newEgress).1 =
  if bool_decide (Exists opens l) then Some (last (records l)) else None.
Proof.
  induction l as [|a l IH] using rev_ind; [done|]. rewrite run_app. cbn [run fst].
  rewrite records_app.
  destruct (step a (run l newEgress).1) as [e1 o1] eqn:Hst. cbn [fst].
  replace e1 with (step a (run l newEgress).1).1 by (by rewrite Hst). rewrite step_latest, IH.
  destruct (decide (opens a)) as [Ho|Ho].
  - rewrite (bool_decide_true (opens a)), (bool_decide_true (Exists opens (l ++ [a])))
      by (try apply Exists_app; try right; try constructor; done). f_equal.
    destruct a as [p n|p n g| | |]; cbn in Ho; try done; destruct Ho as [-> ->]; cbn [records omap list_omap];
      [|by rewrite (bool_decide_true (path = path /\ name = name)), last_snoc by done]. rewrite app_nil_r. cbn.
    case_bool_decide as He; [done|]. cbn. destruct (last (records l)) as [g|] eqn:Hl; [|done].
    exfalso. apply He. apply last_Some in Hl as [l' Hl].
    assert (Hg : g ∈ records l) by (rewrite Hl; apply elem_of_app; right; by apply list_elem_of_singleton).
    apply list_elem_of_omap in Hg as (a & Hin & Ha). apply Exists_exists. exists a. split; [done|].
    destruct a; try done. cbn. by case_bool_decide.
  - rewrite (bool_decide_false (opens a)) by done.
    rewrite (bool_decide_ext (Exists opens (l ++ [a])) (Exists opens l)).
    2: { rewrite Exists_app, Exists_cons, Exists_nil. naive_solver. }
    case_bool_decide; [|done]. f_equal. replace (records [a]) with (@nil group); [by rewrite app_nil_r|].
    destruct a; try done. cbn. rewrite bool_decide_false; done.
Qed.

Lemma sublist_whole {A} (l1 l2 : list A) : l1 `sublist_of` l2 -> (length l2 <= length l1)%nat -> l1 = l2.
Proof.
  induction 1 as [|x l1 l2 _ IH|x l1 l2 Hs _]; intros Hl; cbn in *; [done|by rewrite IH by lia|].
  apply sublist_length in Hs. lia.
Qed.

(** The loop of a subscriber left alone sends all that waits. *)
Lemma drain q e : pending e = Some q -> sent_to (run (replicate (length q) (Receive path name ch true)) e).2 = q.
Proof.
  revert e. induction q as [|g q IH]; intros e Hq; [done|]. assert (Hq' := Hq). apply bind_Some in Hq' as (t & Ht & Htq).
  cbn [length replicate run step]. rewrite Ht. cbn [mbind option_bind]. rewrite Htq.
  assert (Hp : pending (alter_track (receive ch) path name e) = Some q).
  { rewrite (pending_alter _ _ _ _ _ Hq), bool_decide_true, Ht by done. cbn. by rewrite lookup_alter_eq, Htq. }
  specialize (IH _ Hp). destruct (run _ _) as [e2 out2]. cbn in *. by rewrite bool_decide_true, IH by done.
Qed.

(** A track's subscriber is sent its latest record and then each new one.
    After any steps that opened the track, and while the subscriber stays, what it
    was sent and what waits for it are, in order and each once, the last record
    before it joined and the records since; the only ones missing are those
    published while 64 waited for it, so one that keeps up misses none; never more
    than 64 wait, and its loop sends them all. *)
Theorem subscriber_served pre post :
  Exists opens pre -> Forall stays post ->
  let e := (step (ServeTrack path name ch) (run pre newEgress).1).1 in
  let due := option_list (last (records pre)) ++ records post in
  exists waiting,
    pending (run post e).1 = Some waiting /\ (length waiting <= subscriberBuffer)%nat /\
    sent_to (run post e).2 ++ waiting `sublist_of` due /\
    (sent_to (run post e).2 ++ waiting) ++ overruns post e ≡ₚ due /\
    (overruns post e = [] -> sent_to (run post e).2 ++ waiting = due) /\
    sent_to (run (replicate (length waiting) (Receive path name ch true)) (run post e).1).2 = waiting.
Proof.
  intros Ho Hs. cbn zeta. set (e0 := (run pre newEgress).1).
  assert (Hl : latest <$> lookup_track path name e0 = Some (last (records pre))) by (unfold e0; by rewrite run_latest, bool_decide_true).
  apply fmap_Some in Hl as (t & Ht & Hlt).
  assert (Hq : pending (step (ServeTrack path name ch) e0).1 = Some (option_list (last (records pre)))).
  { cbn [step]. rewrite Ht. cbn. unfold pending. rewrite lookup_alter_track, bool_decide_true, Ht by done. cbn.
    by rewrite lookup_insert_eq, Hlt. }
  destruct (run_pending post _ _ Hq Hs) as (w & Hw & Hlw & Hsub & Hperm); [destruct (last _); cbn; unfold subscriberBuffer; lia|].
  exists w. rewrite (assoc_L (++)) in Hperm. split_and!; try done; [|by apply drain].
  intros Hov. rewrite Hov, app_nil_r in Hperm. apply sublist_whole; [done|]. by rewrite Hperm.
Qed.

(** A track nobody opened is not found, whatever was asked of it before: a
    subscriber makes none. *)
Theorem unopened_track_not_found pre :
  ~ Exists opens pre ->
  step (ServeTrack path name ch) (run pre newEgress).1 = ((run pre newEgress).1, [NotFound path name ch]).
Proof.
  intros Ho. pose proof (run_latest pre) as Hl. rewrite bool_decide_false in Hl by done.
  cbn [step]. by destruct (lookup_track path name _).
Qed.
End Subscriber.

Lemma subscriber_served_witness :
  let g n := mkGroup n "{}" in
  let pre := [Publish "/room/1" "chat" (g 1); Publish "/room/2" "chat" (g 7); Publish "/room/1" "chat" (g 2)] in
  let post := [Publish "/room/1" "chat" (g 3); Receive "/room/1" "chat" 0 true; Publish "/room/1" "notes" (g 4);
               Publish "/room/1" "chat" (g 5); Receive "/room/1" "chat" 0 true] in
  let e := (step (ServeTrack "/room/1" "chat" 0) (run pre newEgress).1).1 in
  sent_to "/room/1" "chat" 0 (run post e).2 = [g 2; g 3] /\
  exists waiting, pending "/room/1" "chat" 0 (run post e).1 = Some waiting /\ (length waiting <= subscriberBuffer)%nat /\
    sent_to "/room/1" "chat" 0 (run post e).2 ++ waiting `sublist_of` [g 2] ++ [g 3; g 5] /\
    (sent_to "/room/1" "chat" 0 (run post e).2 ++ waiting) ++ overruns "/room/1" "chat" 0 post e ≡ₚ [g 2] ++ [g 3; g 5] /\
    (overruns "/room/1" "chat" 0 post e = [] -> sent_to "/room/1" "chat" 0 (run post e).2 ++ waiting = [g 2] ++ [g 3; g 5]) /\
    sent_to "/room/1" "chat" 0 (run (replicate (length waiting) (Receive "/room/1" "chat" 0 true)) (run post e).1).2 = waiting.
Proof.
  cbn zeta. split; [vm_compute; reflexivity|].
  apply (subscriber_served "/room/1" "chat" 0
    [Publish "/room/1" "chat" (mkGroup 1 "{}"); Publish "/room/2" "chat" (mkGroup 7 "{}"); Publish "/room/1" "chat" (mkGroup 2 "{}")]
    [Publish "/room/1" "chat" (mkGroup 3 "{}"); Receive "/room/1" "chat" 0 true; Publish "/room/1" "notes" (mkGroup 4 "{}");
     Publish "/room/1" "chat" (mkGroup 5 "{}"); Receive "/room/1" "chat" 0 true]).
  - by constructor.
  - by repeat constructor.
Defined.

(** ** Publishing what the ledger holds: restore.go *)

Definition rootObject : string := "root.manifest".

(** A [GroupInfo]: its ID's sequence and its object. *)
Record GroupInfo := mkGroupInfo { Sequence : Z; ObjectKey : string }.

(** What [ReadGroup] answers. *)
Inductive read_answer := ReadData (data : string) | ReadRedacted | ReadFailed.

(** A ledger track as it is opened: whether its schema is the one ingest records
    with, what a reader yields from the start ([None]: it fails before the end), and
    what each object reads as. *)
Record ledger_track := mkLedgerTrack {
  ingest_schema : bool;
  committed : option (list GroupInfo);
  ReadGroup : string -> read_answer
}.

(** The last group and its content; [None] is an error. *)
Definition latestRecord (t : ledger_track) : option (option (GroupInfo * option string)) :=
  gs ← t.(committed);
  match last gs with
  | None => Some None
  | Some g =>
      match t.(ReadGroup) g.(ObjectKey) with
      | ReadData data => Some (Some (g, Some data))
      | ReadRedacted => Some (Some (g, None))
      | ReadFailed => None
      end
  end.

(** [path.Split]: up to the last slash, and after it. *)
Definition PathSplit (p : string) : string * string :=
  match removelast (Split slash p) with
  | [] => ("", p)
  | l => (Join slash l +:+ "/", default "" (last (Split slash p)))
  end.

(** The broadcast and the track of a ledger track's path. *)
Definition recorded_as (trackPath : string) : string * string :=
  let '(dir, name) := PathSplit trackPath in ("/" +:+ TrimSuffix dir "/", name).

(** [restoreTrack]: whether ingest recorded it ([None]: an error), and the egress. *)
Definition restoreTrack (opened : option ledger_track) (trackPath : string) (out : egress) : option bool * egress :=
  match opened with
  | None => (None, out)
  | Some t =>
      if t.(ingest_schema) then
        let '(path, name) := recorded_as trackPath in
        let out := broadcast_track path name (announce path out) in
        match latestRecord t with
        | None => (None, out)
        | Some (Some (latest, Some data)) =>
            (Some true, alter_track (publish_track (mkGroup (wrapu 64 (latest.(Sequence) + 1)) data)) path name out)
        | Some _ => (Some true, out)
        end
      else (Some false, out)
  end.

Definition CutSuffix (s suffix : string) : option string :=
  if HasSuffix s suffix then Some (TrimSuffix s suffix) else None.

(** [restore] over the keys the store lists, [None] an error of the listing: how
    many tracks were restored, whether it ended without an error, and the egress. *)
Fixpoint restore (objects : string -> option ledger_track) (keys : list (option string)) (restored : Z) (out : egress) :
    Z * bool * egress :=
  match keys with
  | [] => (restored, true, out)
  | None :: _ => (restored, false, out)
  | Some key :: keys =>
      match CutSuffix key ("/" +:+ rootObject) with
      | None => restore objects keys restored out
      | Some dir =>
          match restoreTrack (objects dir) dir out with
          | (None, out) => (restored, false, out)
          | (Some ok, out) => restore objects keys (if ok : bool then restored + 1 else restored) out
          end
      end
  end.

(** The steps a restore amounts to, when there is no error. *)
Definition restore_act (objects : string -> option ledger_track) (key : string) : list act :=
  match CutSuffix key ("/" +:+ rootObject) with
  | None => []
  | Some dir =>
      match objects dir with
      | Some t =>
          if t.(ingest_schema) then
            let '(path, name) := recorded_as dir in
            Open path name ::
            match latestRecord t with
            | Some (Some (latest, Some data)) => [Publish path name (mkGroup (wrapu 64 (latest.(Sequence) + 1)) data)]
            | _ => []
            end
          else []
      | None => []
      end
  end.

Lemma announced_twice path e : is_Some (e.(broadcasts) !! path) -> announce path e = e.
Proof. unfold announce. by intros [b ->]. Qed.

Lemma tracked_twice path name e : is_Some (lookup_track path name e) -> broadcast_track path name e = e.
Proof.
  intros (t & (b & Hb & Ht)%bind_Some). unfold broadcast_track. destruct e as [bs p]. cbn in *. f_equal.
  apply map_eq. intros q. destruct (decide (path = q)) as [<-|]; [|by rewrite lookup_alter_ne].
  by rewrite lookup_alter_eq, Hb; cbn; rewrite Ht.
Qed.

(** Publishing on a track just made is [publish]. *)
Lemma publish_opened path name g e :
  publish path name g (broadcast_track path name (announce path e)) =
  alter_track (publish_track g) path name (broadcast_track path name (announce path e)).
Proof.
  unfold publish. set (e1 := broadcast_track path name (announce path e)).
  assert (Hs : is_Some (lookup_track path name e1)) by (unfold e1; by rewrite lookup_broadcast_track, bool_decide_true).
  rewrite (announced_twice path e1), (tracked_twice path name e1); [done..|].
  destruct Hs as (t & (b & Hb & _)%bind_Some). by exists b.
Qed.

Lemma restore_run objects keys n out n' out' :
  restore objects (Some <$> keys) n out = (n', true, out') ->
  out' = (run (concat (restore_act objects <$> keys)) out).1.
Proof.
  revert n out. induction keys as [|key keys IH]; intros n out; cbn [fmap list_fmap restore concat]; [by intros [= _ ->]|].
  rewrite run_app. cbn [fst]. unfold restore_act. destruct (CutSuffix key _) as [dir|]; [|apply IH].
  destruct (objects dir) as [t|]; cbn [restoreTrack]; [|done]. destruct (ingest_schema t); [|apply IH].
  destruct (recorded_as dir) as [path name].
  destruct (latestRecord t) as [[[g [data|]]|]|]; [|apply IH..|done]. intros ->%IH. f_equal. cbn [run step fst].
  by rewrite publish_opened.
Qed.

Lemma CutSuffix_app s suffix : CutSuffix (s +:+ suffix) suffix = Some s.
Proof. unfold CutSuffix, HasSuffix. by rewrite srev_app, HasPrefix_app, TrimSuffix_app. Qed.

(** A restore without error read the latest record of every track ingest recorded. *)
Lemma restore_read objects keys n out n' out' key dir t :
  restore objects (Some <$> keys) n out = (n', true, out') -> key ∈ keys ->
  CutSuffix key ("/" +:+ rootObject) = Some dir -> objects dir = Some t -> t.(ingest_schema) = true ->
  is_Some (latestRecord t).
Proof.
  revert n out. induction keys as [|k keys IH]; intros n out Hr Hin Hc Ho Hi; [by apply not_elem_of_nil in Hin|].
  cbn [fmap list_fmap restore] in Hr. apply elem_of_cons in Hin as [<-|Hin].
  - rewrite Hc, Ho in Hr. cbn [restoreTrack] in Hr. rewrite Hi in Hr. destruct (recorded_as dir). by destruct (latestRecord t).
  - destruct (CutSuffix k _); [|by eapply IH]. destruct (restoreTrack _ _ _) as [[b|] o]; [by eapply IH|done].
Qed.

Lemma records_unopened path name l : Forall (fun a => ~ opens path name a) l -> records path name l = [].
Proof.
  induction 1 as [|a l Ha _ IH]; [done|]. rewrite records_cons, IH, app_nil_r. destruct a; try done. cbn in *. by rewrite bool_decide_false.
Qed.

(** What is recorded is served after a restart. After a restore without error, a
    track the ledger lists once that ingest recorded is found, and a subscriber's
    first group is its last committed record, numbered one past its ledger group; a
    track with no record, or whose last is redacted, is found and has none to
    replay. *)
Theorem restored_track_served objects before dir after n out t path name ch :
  restore objects (Some <$> (before ++ [dir +:+ "/" +:+ rootObject] ++ after)) 0 newEgress = (n, true, out) ->
  objects dir = Some t -> t.(ingest_schema) = true -> recorded_as dir = (path, name) ->
  Forall (fun a => ~ opens path name a) (concat (restore_act objects <$> (before ++ after))) ->
  exists found, latestRecord t = Some found /\
    pending path name ch (step (ServeTrack path name ch) out).1 =
      Some (match found with
            | Some (g, Some data) => [mkGroup (wrapu 64 (g.(Sequence) + 1)) data]
            | _ => []
            end) /\
    (step (ServeTrack path name ch) out).2 = [].
Proof.
  intros Hr Ho Hi Hrec Hothers. assert (Hk : CutSuffix (dir +:+ "/" +:+ rootObject) ("/" +:+ rootObject) = Some dir) by apply CutSuffix_app.
  assert (Hf : is_Some (latestRecord t)).
  { eapply restore_read; [exact Hr| |exact Hk|done..]. apply elem_of_app. right. by apply elem_of_cons; left. }
  destruct Hf as [found Hf]. exists found. split; [done|].
  apply restore_run in Hr. cbn [app] in Hr. rewrite fmap_app, fmap_cons, concat_app in Hr. cbn [concat] in Hr.
  rewrite fmap_app, concat_app in Hothers. apply Forall_app in Hothers as [Ha Hb].
  set (acts := _ ++ _ ++ _) in Hr. pose proof (run_latest path name acts) as Hl. rewrite <- Hr in Hl.
  assert (Hacts : restore_act objects (dir +:+ "/" +:+ rootObject) = Open path name ::
      match found with Some (latest, Some data) => [Publish path name (mkGroup (wrapu 64 (latest.(Sequence) + 1)) data)] | _ => [] end).
  { unfold restore_act. by rewrite Hk, Ho, Hi, Hrec, Hf. }
  rewrite bool_decide_true in Hl.
  2: { apply Exists_app. right. apply Exists_app. left. rewrite Hacts. by left. }
  assert (Hrs : records path name acts = match found with Some (latest, Some data) => [mkGroup (wrapu 64 (latest.(Sequence) + 1)) data] | _ => [] end).
  { unfold acts. rewrite Hacts, !records_app, (records_unopened _ _ _ Ha), (records_unopened _ _ _ Hb), app_nil_r. cbn.
    destruct found as [[g [data|]]|]; cbn; [|done..]. by rewrite bool_decide_true. }
  rewrite Hrs in Hl. apply fmap_Some in Hl as (t' & Ht' & Hlt). cbn [step]. rewrite Ht'. cbn [fst snd]. split; [|done].
  unfold pending. rewrite lookup_alter_track, bool_decide_true, Ht' by done. cbn. rewrite lookup_insert_eq, <- Hlt.
  by destruct found as [[g [data|]]|].
Qed.

(** ** The rate limits: cmd.go *)

Record Limit := mkLimit { Rate : float64; Burst : Z }.

(** The zero [Limit]: no limit. *)
Definition no_limit : Limit := mkLimit (S754_zero false) 0.

Section ParseLimit.

(** [strconv.ParseFloat] at 64 bits. *)
Variable ParseFloat : string -> option float64.

Definition parseLimit (s : string) : option Limit :=
  if bool_decide (ToLower (TrimSpace s) ∈ [""; "0"; "off"; "none"]) then Some no_limit
  else
    '(rate, burst) ← Cut s ",";
    r ← ParseFloat (TrimSpace rate);
    b ← Atoi (TrimSpace burst);
    if SFleb r (S754_zero false) || (b <? 1) then None else Some (mkLimit r b).

(** [parseLimit] means to refuse a rate that is not above zero, but a NaN is
    neither above nor below: "NaN,5" is taken, with a NaN for a rate. *)
Theorem nan_rate_accepted :
  ParseFloat "NaN" = Some S754_nan -> parseLimit "NaN,5" = Some (mkLimit S754_nan 5).
Proof.
  intros Hn. unfold parseLimit. change (bool_decide _) with false. cbn -[Atoi TrimSpace].
  change (TrimSpace "NaN") with "NaN". by rewrite Hn.
Qed.
End ParseLimit.

(** ** Concrete requests and restores *)

#[local] Existing Instances literal_moqt literal_laws toy_crypto toy_json.

Definition room_check : checker := default (fun _ _ _ _ => Err NoAction) (handler_check oor (Some acme_verifier) "/acme/").


Lemma restored_track_served_witness :
  let t := mkLedgerTrack true (Some [mkGroupInfo 4 "a"; mkGroupInfo 5 "b"]) (fun k => if bool_decide (k = "b") then ReadData "{}" else ReadFailed) in
  let objects := fun dir => if bool_decide (dir = "room/123/chat") then Some t else None in
  exists out, restore objects (Some <$> ["room/123/chat/5"; "room/123/chat/root.manifest"]) 0 newEgress = (1, true, out) /\
  exists found, latestRecord t = Some found /\
    pending "/room/123" "chat" 0 (step (ServeTrack "/room/123" "chat" 0) out).1 =
      Some (match found with
            | Some (g, Some data) => [mkGroup (wrapu 64 (g.(Sequence) + 1)) data]
            | _ => []
            end) /\
    (step (ServeTrack "/room/123" "chat" 0) out).2 = [].
Proof.
  cbn zeta. eexists. split; [vm_compute; reflexivity|].
  eapply (restored_track_served
    (fun dir => if bool_decide (dir = "room/123/chat")
                then Some (mkLedgerTrack true (Some [mkGroupInfo 4 "a"; mkGroupInfo 5 "b"]) (fun k => if bool_decide (k = "b") then ReadData "{}" else ReadFailed))
                else None) ["room/123/chat/5"] "room/123/chat" [] 1); [vm_compute; reflexivity..|].
  by constructor.
Defined.

Lemma nan_rate_accepted_witness :
  parseLimit (fun s => if bool_decide (s = "NaN") then Some S754_nan else None) "NaN,5" = Some (mkLimit S754_nan 5).
Proof. apply nan_rate_accepted. reflexivity. Defined.
