(* ===== verification/RelayCred.v ===== *)
(** * RelayCred: keeping a session's grant in force, and backing off

    The client side of a relay session. A session that lives longer than its
    credential presents a fresh one before its grant lapses
    (src/internal/relaycred/relaycred.go: [keep], under [Keep]); a dial that
    failed is tried again after a delay that doubles
    (src/internal/relay/backoff.go: [DialBackoff]). Signing, the relay's answers
    and the time each takes are arguments. *)
From S2P Require Import Prelude GoTime GoFloat Token.

Open Scope Z_scope.

(** ** Scaling a duration by 2/3 *)

(** The constant [2.0 / 3] as a float64. *)
Definition renewAt : float64 := S754_finite false 6004799503160661 (-53).
Definition retryInterval : Duration := 10 * Second.
Definition presentTimeout : Duration := 10 * Second.

(** A finite float truncated, in units of 2^-105. *)
Lemma trunc_units m e :
  -105 <= e -> let z := trunc_finite false m e in
  0 <= z /\ z * 2 ^ 105 <= Z.pos m * 2 ^ (e + 105) < (z + 1) * 2 ^ 105.
Proof.
  intros He. cbn zeta. unfold trunc_finite. destruct (Z.leb_spec 0 e) as [H0|H0].
  - rewrite Z.pow_add_r, Z.mul_assoc by lia. assert (0 < 2 ^ e) by (apply Z.pow_pos_nonneg; lia). lia.
  - set (z := Z.pos m / 2 ^ (- e)). assert (Hp : 0 < 2 ^ (- e)) by (apply Z.pow_pos_nonneg; lia).
    pose proof (Z.div_mod (Z.pos m) (2 ^ (- e)) ltac:(lia)) as Hd. pose proof (Z.mod_pos_bound (Z.pos m) (2 ^ (- e)) Hp) as Hm.
    fold z in Hd. assert (H105 : 2 ^ 105 = 2 ^ (- e) * 2 ^ (e + 105)) by (rewrite <- Z.pow_add_r by lia; f_equal; lia).
    assert (Hq : 0 < 2 ^ (e + 105)) by (apply Z.pow_pos_nonneg; lia). rewrite H105. split; [apply Z.div_pos; lia|]. nia.
Qed.

Section Keep.
Variable int64_oor : float64 -> Z.

(** [time.Duration(float64(d) * renewAt)]. *)
Definition renew_wait (d : Duration) : Duration := int64_of_float int64_oor (SFmul 53 1024 (float_of_Z d) renewAt).

(** Two thirds, up to the rounding of the two float64 operations. *)
Lemma renew_wait_near d :
  0 < d < 2 ^ 63 ->
  0 <= renew_wait d /\ 3 * renew_wait d * 2 ^ 50 <= 2 * d * (2 ^ 50 + 1) /\ 2 * d * (2 ^ 50 - 1) <= 3 * (renew_wait d + 1) * 2 ^ 50.
Proof.
  intros Hd. unfold renew_wait. destruct (float_of_Z_near d ltac:(lia)) as (mk & ek & -> & Hdk & Hek & Hbk).
  unfold renewAt. cbn [SFmul xorb]. pose proof (digits_range mk) as Hrk. rewrite Hdk in Hrk.
  assert (Hdp : 104 <= Z.pos (digits2_pos (mk * 6004799503160661)) <= 106).
  { pose proof (digits_range (mk * 6004799503160661)) as Hr. rewrite Pos2Z.inj_mul in Hr.
    set (w := Z.pos (digits2_pos (mk * 6004799503160661))) in *. split.
    - destruct (Z.le_gt_cases 104 w); [done|]. assert (2 ^ w <= 2 ^ 103) by (apply Z.pow_le_mono_r; lia).
      change (53 - 1) with 52 in *. lia.
    - destruct (Z.le_gt_cases w 106); [done|]. assert (2 ^ 106 <= 2 ^ (w - 1)) by (apply Z.pow_le_mono_r; lia). lia. }
  destruct (round_aux_near (mk * 6004799503160661) (ek + -53)) as (mp & ep & -> & Hdmp & Hep & Hbp); [lia|lia|].
  cbn [int64_of_float]. destruct (trunc_units mp ep ltac:(lia)) as [Hz0 Hz]. set (z := trunc_finite false mp ep) in *.
  set (X := Z.pos mk * 2 ^ (ek + 52)) in *. set (R := Z.pos mp * 2 ^ (ep - (ek + -53))) in *.
  assert (HR : Z.pos mp * 2 ^ (ep + 105) = R * 2 ^ (ek + 52)).
  { subst R. rewrite <- Z.mul_assoc, <- Z.pow_add_r by lia. do 2 f_equal. lia. }
  rewrite HR in Hz. rewrite Pos2Z.inj_mul in Hbp. assert (Hp0 : 0 < 2 ^ (ek + 52)) by (apply Z.pow_pos_nonneg; lia).
  assert (HRX : (2 ^ 52 - 1) * 6004799503160661 * X <= R * 2 ^ (ek + 52) * 2 ^ 52 <= (2 ^ 52 + 1) * 6004799503160661 * X).
  { subst X. assert (Hl : (2 ^ 52 - 1) * (Z.pos mk * 6004799503160661) <= R * 2 ^ 52 <= (2 ^ 52 + 1) * (Z.pos mk * 6004799503160661)) by lia.
    destruct Hl as [Hl Hu]. apply (Z.mul_le_mono_nonneg_r _ _ (2 ^ (ek + 52))) in Hl; [|lia].
    apply (Z.mul_le_mono_nonneg_r _ _ (2 ^ (ek + 52))) in Hu; [|lia]. lia. }
  assert (Hzd : 3 * z * 2 ^ 50 <= 2 * d * (2 ^ 50 + 1) /\ 2 * d * (2 ^ 50 - 1) <= 3 * (z + 1) * 2 ^ 50) by lia.
  assert (Hin : (int64_min <=? z) && (z <=? int64_max) = true) by (apply andb_true_intro; unfold int64_min, int64_max; split; apply Z.leb_le; lia).
  by rewrite Hin.
Qed.

(** ** The loop: [keep] *)

(** The relay's answer to a credential: granted, as the credential [c], for
    [MaxAge]; that it verifies none; any other error, such as no answer in time. *)
Inductive reply := Granted (c : nat) (MaxAge : Duration) | NotSupported | NotGranted.

(** One turn of the loop: how late its timer fired, how long signing and the
    answer took, the answer ([None]: signing failed), and whether the session had
    ended by then. *)
Record turn := mkTurn { late : Duration; takes : Duration; answer : option reply; over : bool }.

(** The loop between turns. Times are readings of the monotonic clock, which Go
    compares them by. *)
Record keeper := mkKeeper { now : Time; lapses : Time; wait : Duration; held : option nat }.

(** Why [keep] returned, or waits for the session to end: the session ended; the
    relay verifies no credentials; the grant never lapses; or the grant would lapse
    first, and [keep] closed the session. *)
Inductive ending := SessionOver | NoneVerified | NeverLapses | Closed.

Inductive effect := Hold (c : nat) | Close (c : nat) | EndSession.

(** The close of what is held. *)
Definition released (k : keeper) : list effect := match k.(held) with Some c => [Close c] | None => [] end.

Definition keep_start (now lapses : Time) : keeper := mkKeeper now lapses (renew_wait (time_Sub lapses now)) None.

(** A turn that ended without a grant; [none]: the relay verifies no credentials. *)
Definition not_renewed (none over : bool) (k : keeper) : keeper * option ending * list effect :=
  if over then (k, Some SessionOver, released k)
  else if none then (k, Some NoneVerified, released k)
  else if time_Sub k.(lapses) k.(now) <=? retryInterval + presentTimeout then (k, Some Closed, EndSession :: released k)
  else (mkKeeper k.(now) k.(lapses) retryInterval k.(held), None, []).

(** A turn; [None] is a session that ended during the wait. *)
Definition keep_turn (t : option turn) (k : keeper) : keeper * option ending * list effect :=
  match t with
  | None => (k, Some SessionOver, released k)
  | Some t =>
      let now := k.(now) + Z.max 0 k.(wait) + t.(late) + t.(takes) in
      match t.(answer) with
      | Some (Granted c age) =>
          if age <=? 0 then (mkKeeper now k.(lapses) k.(wait) (Some c), Some NeverLapses, Hold c :: released k ++ [Close c])
          else (mkKeeper now (now + age) (renew_wait age) (Some c), None, Hold c :: released k)
      | answer =>
          not_renewed (match answer with Some NotSupported => true | _ => false end) t.(over)
            (mkKeeper now k.(lapses) k.(wait) k.(held))
      end
  end.

Fixpoint keep (ts : list (option turn)) (k : keeper) : keeper * option ending * list effect :=
  match ts with
  | [] => (k, None, [])
  | t :: ts =>
      match keep_turn t k with
      | (k, None, out) => let '(r, out') := keep ts k in (r, out ++ out')
      | r => r
      end
  end.

(** ** A session does not outlive its grant *)

(** A turn that ran in time: signing and presenting took at most the time a
    presentation is given, and a grant lasts for good or at least 31 s. *)
Definition lasting (age : Duration) : Prop := 31 * Second <= age < 2 ^ 62.

Definition prompt (t : option turn) : Prop :=
  match t with
  | None => True
  | Some t =>
      0 <= t.(late) /\ 0 <= t.(takes) /\ t.(late) + t.(takes) <= presentTimeout /\
      match t.(answer) with Some (Granted _ age) => age <= 0 \/ lasting age | _ => True end
  end.

(** The next answer comes before the grant lapses. *)
Definition in_force (k : keeper) : Prop :=
  0 <= k.(wait) /\ k.(now) + k.(wait) + presentTimeout <= k.(lapses) < k.(now) + 2 ^ 62.

Lemma lasting_in_force n age c : lasting age -> in_force (mkKeeper n (n + age) (renew_wait age) c).
Proof.
  unfold lasting, in_force, presentTimeout, Second. cbn. intros Hl.
  destruct (renew_wait_near age ltac:(lia)) as (H0 & H1 & _). lia.
Qed.

Lemma start_in_force n l : lasting (l - n) -> in_force (keep_start n l).
Proof.
  intros Hl. unfold keep_start. rewrite time_Sub_small by (unfold lasting, int64_min, int64_max, Second in *; lia).
  pose proof (lasting_in_force n (l - n) None Hl) as Hf. by replace (n + (l - n)) with l in Hf by lia.
Qed.

Lemma not_renewed_in_force none over k k' e out :
  0 <= k.(lapses) - k.(now) < 2 ^ 62 -> not_renewed none over k = (k', e, out) ->
  k'.(now) <= k'.(lapses) /\ (e = None -> in_force k').
Proof.
  intros Hl. unfold not_renewed. destruct over; [intros [= <- <- _]; split; [lia|done]|].
  destruct none; [intros [= <- <- _]; split; [lia|done]|].
  rewrite time_Sub_small by (unfold int64_min, int64_max; lia).
  case_match eqn:Hq; intros [= <- <- _]; (split; [cbn; lia|]); [done|intros _]. apply Z.leb_gt in Hq.
  unfold in_force, retryInterval, presentTimeout, Second in *. cbn. lia.
Qed.

Lemma turn_in_force t k k' e out :
  in_force k -> prompt t -> keep_turn t k = (k', e, out) ->
  (e <> Some NeverLapses -> k'.(now) <= k'.(lapses)) /\ (e = None -> in_force k').
Proof.
  intros (Hw & Hf & Hl) Hp. destruct t as [t|]; cbn [keep_turn].
  2: { intros [= <- <- _]. split; [|done]. unfold presentTimeout, Second in *. lia. }
  destruct Hp as (H1 & H2 & H3 & H4). set (k1 := mkKeeper _ _ _ _). assert (Hk1 : 0 <= k1.(lapses) - k1.(now) < 2 ^ 62) by (cbn; lia).
  destruct (answer t) as [[c age| |]|]; [|intros Hn; destruct (not_renewed_in_force _ _ _ _ _ _ Hk1 Hn); by split..].
  destruct (Z.leb_spec age 0) as [|Ha]; intros [= <- <- _]; [done|]. split; [cbn; lia|intros _; apply lasting_in_force].
  by destruct H4; [lia|].
Qed.

Lemma keep_in_force ts k k' e out :
  in_force k -> Forall prompt ts -> keep ts k = (k', e, out) -> e <> Some NeverLapses -> k'.(now) <= k'.(lapses).
Proof.
  intros Hk Hts. revert k Hk out. induction Hts as [|t ts Ht _ IH]; intros k Hk out; cbn [keep].
  { intros [= <- <- _] _. destruct Hk as (? & ? & ?). unfold presentTimeout, Second in *. lia. }
  destruct (keep_turn t k) as [[k1 e1] out1] eqn:Hturn. destruct (turn_in_force _ _ _ _ _ Hk Ht Hturn) as [Hnow Hnext].
  destruct e1 as [e1|]; [intros [= <- <- _]; auto|]. destruct (keep ts k1) as [[k2 e2] out2] eqn:Hrest.
  intros [= <- <- _]. eapply IH; [by apply Hnext|exact Hrest].
Qed.

(** What is held: every credential granted is held until the next is, and what a
    [keep] that returned held is closed. *)
Definition holds (out : list effect) : list nat := omap (fun e => match e with Hold c => Some c | _ => None end) out.
Definition closes (out : list effect) : list nat := omap (fun e => match e with Close c => Some c | _ => None end) out.

Definition still_held (e : option ending) (k : keeper) : list nat :=
  match e with None => option_list k.(held) | Some _ => [] end.

Lemma turn_holds t k k' e out :
  keep_turn t k = (k', e, out) -> option_list k.(held) ++ holds out = closes out ++ still_held e k'.
Proof.
  destruct t as [t|]; cbn [keep_turn].
  2: { intros [= <- <- <-]. unfold released. by destruct (held k). }
  assert (Hn : forall none, not_renewed none t.(over) (mkKeeper (k.(now) + Z.max 0 k.(wait) + t.(late) + t.(takes)) k.(lapses) k.(wait) k.(held)) = (k', e, out) ->
    option_list k.(held) ++ holds out = closes out ++ still_held e k').
  { intros none. unfold not_renewed, released. cbn [held]. repeat case_match; intros [= <- <- <-]; cbn; try done; by destruct (held k). }
  unfold released in *. destruct (answer t) as [[c age| |]|]; [|apply Hn..].
  destruct (age <=? 0); intros [= <- <- <-]; by destruct (held k).
Qed.

Lemma keep_holds ts k k' e out :
  keep ts k = (k', e, out) -> option_list k.(held) ++ holds out = closes out ++ still_held e k'.
Proof.
  revert k out. induction ts as [|t ts IH]; intros k out; cbn [keep].
  { intros [= <- <- <-]. cbn. by rewrite app_nil_r. }
  destruct (keep_turn t k) as [[k1 e1] out1] eqn:Hturn. pose proof (turn_holds _ _ _ _ _ Hturn) as H1.
  destruct e1 as [e1|]; [by intros [= <- <- <-]|]. destruct (keep ts k1) as [[k2 e2] out2] eqn:Hrest.
  intros [= <- <- <-]. unfold holds, closes. rewrite !omap_app, (assoc_L (++)). fold (holds out1). fold (closes out1). rewrite H1. cbn [still_held].
  rewrite <- !(assoc_L (++)). f_equal. by apply IH.
Qed.

(** C12: A session is not held past its grant. When the grant it starts with
    and every one it gets last 31 s or more (or for good), and each turn's timer,
    signature and answer take no more than the 10 s a presentation is given, then
    whatever the relay answers, at every turn of the loop and when it returns the
    grant in force has not lapsed: a fresh one is in force by then or the session
    is closed. Each credential is held until the next is granted, and none is left
    open. *)
Theorem session_within_grant n l ts k e out :
  lasting (l - n) -> Forall prompt ts -> keep ts (keep_start n l) = (k, e, out) ->
  (e <> Some NeverLapses -> k.(now) <= k.(lapses)) /\ holds out = closes out ++ still_held e k.
Proof.
  intros Hl Hts Hk. split; [|exact (keep_holds _ _ _ _ _ Hk)].
  intros He. eapply keep_in_force; [by apply start_in_force|done..].
Qed.

(** Renewals the relay only fails. *)
Definition failing (t : option turn) : Prop :=
  exists u, t = Some u /\ 0 <= u.(late) /\ 0 <= u.(takes) /\ u.(over) = false /\
    match u.(answer) with None | Some NotGranted => True | _ => False end.

Lemma failing_turn t k k' e out :
  in_force k -> prompt t -> failing t -> keep_turn t k = (k', e, out) ->
  k'.(lapses) = k.(lapses) /\
  (e = Some Closed /\ EndSession ∈ out \/
   e = None /\ k.(now) + k.(wait) <= k'.(now) /\ k'.(wait) = retryInterval).
Proof.
  intros (Hw & _) _ (u & -> & H1 & H2 & Ho & Ha). cbn [keep_turn].
  assert (Hn : not_renewed false false (mkKeeper (k.(now) + Z.max 0 k.(wait) + u.(late) + u.(takes)) k.(lapses) k.(wait) k.(held)) = (k', e, out) ->
    k'.(lapses) = k.(lapses) /\ (e = Some Closed /\ EndSession ∈ out \/ e = None /\ k.(now) + k.(wait) <= k'.(now) /\ k'.(wait) = retryInterval)).
  { unfold not_renewed. cbn [now lapses held]. destruct (_ <=? _); intros [= <- <- <-]; (split; [done|]).
    - left. split; [done|by left].
    - right. cbn. split_and!; [done|lia|done]. }
  rewrite Ho. by destruct (answer u) as [[c age| |]|]; try done.
Qed.

(** A session whose grant can't be renewed is closed before it lapses. When every
    renewal fails, [keep] has closed the session after as many turns as the retry
    interval fits in the grant's lifetime, and while the grant is in force. *)
Theorem lapsing_session_closed n l ts :
  lasting (l - n) -> Forall prompt ts -> Forall failing ts -> l - n <= Z.of_nat (length ts) * retryInterval ->
  exists k out, keep ts (keep_start n l) = (k, Some Closed, out) /\ EndSession ∈ out /\ k.(now) <= l /\ k.(lapses) = l.
Proof.
  intros Hl Hp Hf Hlen. pose proof (start_in_force n l Hl) as Hk.
  assert (Hm : (keep_start n l).(lapses) - (keep_start n l).(now) - (keep_start n l).(wait) <= Z.of_nat (length ts) * retryInterval).
  { destruct Hk as [Hw _]. cbn [keep_start lapses now] in *. lia. }
  change l with (keep_start n l).(lapses) at 2 3. clear Hlen Hl. generalize dependent (keep_start n l). intros k Hk Hm.
  revert k Hk Hm. induction ts as [|t ts IH]; intros k Hk Hm.
  { destruct Hk as (? & ? & ?). unfold presentTimeout, retryInterval, Second in *. cbn [length] in Hm. lia. }
  apply Forall_cons in Hp as [Ht Hp]. apply Forall_cons in Hf as [Hft Hf]. cbn [keep].
  destruct (keep_turn t k) as [[k1 e1] out1] eqn:Hturn. destruct (turn_in_force _ _ _ _ _ Hk Ht Hturn) as [Hnow Hnext].
  destruct (failing_turn _ _ _ _ _ Hk Ht Hft Hturn) as [Hlap [[-> Hin]|(-> & Hadv & Hwait)]].
  { exists k1, out1. rewrite <- Hlap. split_and!; [done|done|by apply Hnow|done]. }
  destruct (IH Hp Hf k1 (Hnext eq_refl)) as (k2 & out2 & -> & Hin & Hn2 & Hl2).
  { rewrite Hlap, Hwait. cbn [length] in Hm. lia. }
  exists k2, (out1 ++ out2). rewrite <- Hlap. split_and!; try done. apply elem_of_app. by right.
Qed.
End Keep.

(** ** Backing off: [DialBackoff] *)

Record DialBackoff := mkBackoff { Base : Duration; Max : Duration; MaxAttempts : Z; attempt : Z }.

(** The delay before its jitter: the exponent stops at 2^9, and [Max] caps it. *)
Definition base_delay (b : DialBackoff) : Duration :=
  let exp := if b.(attempt) <? 10 then 2 ^ b.(attempt) else 2 ^ 9 in
  let delay := wraps 64 (b.(Base) * exp) in
  if (0 <? b.(Max)) && (b.(Max) <? delay) then b.(Max) else delay.

(** [Wait] with [rand] the random number in [0, 1), which ended or not ([done]:
    the context's end) while it waited: how long it waits, and its result. *)
Definition Wait (int64_oor : float64 -> Z) (rand : float64) (done : bool) (b : DialBackoff) :
    option Duration * bool * DialBackoff :=
  if (0 <? b.(MaxAttempts)) && (b.(MaxAttempts) <=? b.(attempt)) then (None, false, b)
  else
    let factor := SFadd 53 1024 (S754_finite false 6755399441055744 (-53)) (SFmul 53 1024 (S754_finite false 4503599627370496 (-53)) rand) in
    let jitter := int64_of_float int64_oor (SFmul 53 1024 (float_of_Z (base_delay b)) factor) in
    (Some jitter, negb done, mkBackoff b.(Base) b.(Max) b.(MaxAttempts) (b.(attempt) + 1)).

Definition Reset (b : DialBackoff) : DialBackoff := mkBackoff b.(Base) b.(Max) b.(MaxAttempts) 0.

(** As long as the base leaves room for the doubling, each delay is twice the last
    until the cap or the tenth attempt, and it never shrinks or passes the cap. *)
Theorem backoff_doubles b n :
  0 < b.(Base) -> b.(Base) * 2 ^ 9 < 2 ^ 63 -> b.(Base) <= b.(Max) -> 0 <= n ->
  let at_ k := base_delay (mkBackoff b.(Base) b.(Max) b.(MaxAttempts) k) in
  at_ n = Z.min b.(Max) (b.(Base) * 2 ^ Z.min n 9) /\ b.(Base) <= at_ n <= b.(Max) /\ at_ n <= at_ (n + 1) <= 2 * at_ n.
Proof.
  intros Hb Ho Hm Hn at_. set (p k := Z.min b.(Max) (b.(Base) * 2 ^ Z.min k 9)).
  assert (Hp : forall k, 0 <= k -> at_ k = p k).
  { intros k Hk. unfold at_, base_delay, p. cbn [attempt Base Max].
    assert (Hx : (if k <? 10 then 2 ^ k else 2 ^ 9) = 2 ^ Z.min k 9).
    { destruct (Z.ltb_spec k 10) as [H10|H10]; [|by rewrite Z.min_r by lia]. destruct (decide (k = 9)) as [->|]; [done|]. by rewrite Z.min_l by lia. }
    rewrite Hx. assert (Hle : 2 ^ Z.min k 9 <= 2 ^ 9) by (apply Z.pow_le_mono_r; lia).
    assert (H0 : 0 < 2 ^ Z.min k 9) by (apply Z.pow_pos_nonneg; lia).
    rewrite wraps_id by (unfold in_s; lia || nia). destruct (Z.ltb_spec 0 b.(Max)); [|lia]. cbn [andb].
    destruct (Z.ltb_spec b.(Max) (b.(Base) * 2 ^ Z.min k 9)); lia. }
  rewrite !Hp by lia. unfold p. split; [done|].
  assert (Hs : 2 ^ Z.min n 9 <= 2 ^ Z.min (n + 1) 9 <= 2 * 2 ^ Z.min n 9).
  { rewrite <- Z.pow_succ_r by lia. split; apply Z.pow_le_mono_r; lia. }
  assert (H1 : 1 <= 2 ^ Z.min n 9) by (change 1 with (2 ^ 0); apply Z.pow_le_mono_r; lia). nia.
Qed.

(** ** Concrete runs *)

Definition no_oor (_ : float64) : Z := 0.

(** An hour's grant, renewed for a minute after two thirds of it; then the relay
    answers no more, and the session is closed. *)
Definition renewed_once : list (option turn) :=
  [Some (mkTurn 0 Second (Some (Granted 7 Minute)) false); Some (mkTurn 0 presentTimeout (Some NotGranted) false)].

Lemma session_within_grant_witness :
  exists k, keep no_oor renewed_once (keep_start no_oor 0 Hour) = (k, Some Closed, [Hold 7; EndSession; Close 7]) /\
    (Some Closed <> Some NeverLapses -> k.(now) <= k.(lapses)) /\
    holds [Hold 7; EndSession; Close 7] = closes [Hold 7; EndSession; Close 7] ++ still_held (Some Closed) k.
Proof.
  eexists. split; [vm_compute; reflexivity|].
  apply (session_within_grant no_oor 0 Hour renewed_once); [by vm_compute| |vm_compute; reflexivity].
  constructor; [|constructor; [|constructor]]; (split_and!; [by vm_compute..|]); [right; by vm_compute|done].
Defined.

Lemma lapsing_session_closed_witness :
  exists k out, keep no_oor (replicate 4 (Some (mkTurn 0 Second None false))) (keep_start no_oor 0 (40 * Second)) = (k, Some Closed, out) /\
    EndSession ∈ out /\ k.(now) <= 40 * Second /\ k.(lapses) = 40 * Second.
Proof.
  apply (lapsing_session_closed no_oor 0 (40 * Second)); [by vm_compute| | |by vm_compute].
  - repeat constructor; vm_compute; done.
  - repeat constructor; eexists; (split; [reflexivity|]); by vm_compute.
Defined.

Lemma backoff_doubles_witness :
  let at_ k := base_delay (mkBackoff Second (30 * Second) 0 k) in
  at_ 4 = Z.min (30 * Second) (Second * 2 ^ Z.min 4 9) /\ Second <= at_ 4 <= 30 * Second /\ at_ 4 <= at_ (4 + 1) <= 2 * at_ 4.
Proof. apply (backoff_doubles (mkBackoff Second (30 * Second) 0 0) 4); by vm_compute. Defined.
