(* ===== verification/PeerTrust.v ===== *)
(** * PeerTrust: what makes a session a relay peer

    Relays authenticate each other with mutual TLS under a CA of the operator's
    (src/internal/relay/peer_trust.go): the trust a relay is configured with
    ([NewPeerTrust]), the TLS configurations that follow from it ([ServerTLS],
    [DialerTLS]) and the class of a session after its handshake ([classify],
    [isSelf]). Verifying X.509 certificates is the class [X509]; [handshake] is
    what crypto/tls does with two configurations. *)
From stdpp Require Import strings list.
From S2P Require Import Prelude.

Definition PeeringName : string := "peer.qumo.internal".
Definition NextProtoMOQ : string := "moqt".

(** ** Certificates *)

(** An [x509.Certificate]. *)
Record Certificate := mkCertificate { Raw : string; DNSNames : list string; CommonName : string }.

Inductive KeyUsage := ClientAuthUsage | ServerAuthUsage.

(** [ParseCertificate], [AppendCertsFromPEM] into an empty pool, and [Verify] of a
    leaf with its intermediates for a name, if one is asked for, and a usage: the
    chains it finds, none when it fails. *)
Class X509 := {
  CertPool : Type;
  ParseCertificate : string -> option Certificate;
  AppendCertsFromPEM : string -> option CertPool;
  Verify : CertPool -> list Certificate -> option string -> KeyUsage -> Certificate -> list (list Certificate)
}.

(** A certificate knows its encoding; a chain begins with the leaf; a verification
    that checks a name too checks no less. *)
Class X509Laws `{X509} := {
  parse_raw der c : ParseCertificate der = Some c -> c.(Raw) = der;
  chain_leaf ca ics name u c chain : chain ∈ Verify ca ics name u c -> head chain = Some c;
  verify_unnamed ca ics name u c : Verify ca ics (Some name) u c <> [] -> Verify ca ics None u c <> []
}.

(** ** Configurations and handshakes: crypto/tls *)

(** A [tls.Certificate]: the encodings, the leaf first. *)
Abbreviation der_chain := (list string).

Inductive ClientAuthType := NoClientCert | VerifyClientCertIfGiven | RequireAndVerifyClientCert.

Section Trust.
Context `{X509}.

Record Config := mkConfig {
  Certificates : list der_chain;
  NextProtos : list string;
  ServerName : string;
  RootCAs : option CertPool;
  ClientAuth : ClientAuthType;
  ClientCAs : option CertPool
}.

Record ClientHelloInfo := mkHello { SupportedProtos : list string; hello_ServerName : string }.

(** A listener's configuration with its [GetConfigForClient]; [None] from that is
    the configuration itself. *)
Record ListenerConfig := mkListener { config : Config; GetConfigForClient : option (ClientHelloInfo -> option Config) }.

(** A [tls.ConnectionState]. *)
Record ConnectionState := mkState { VerifiedChains : list (list Certificate); PeerCertificates : list Certificate }.

(** The certificates presented, verified; [None] fails the handshake. *)
Definition verify_presented (ca : option CertPool) (name : option string) (u : KeyUsage) (ders : der_chain) : option ConnectionState :=
  certs ← mapM ParseCertificate ders;
  match certs, ca with
  | leaf :: ics, Some ca =>
      match Verify ca ics name u leaf with
      | [] => None
      | chains => Some (mkState chains certs)
      end
  | _, _ => None
  end.

Definition no_certificate : ConnectionState := mkState [] [].

(** What the server holds of the client. *)
Definition server_side (cfg : Config) (presented : der_chain) : option ConnectionState :=
  match cfg.(ClientAuth) with
  | NoClientCert => Some no_certificate
  | VerifyClientCertIfGiven =>
      match presented with [] => Some no_certificate | _ => verify_presented cfg.(ClientCAs) None ClientAuthUsage presented end
  | RequireAndVerifyClientCert => verify_presented cfg.(ClientCAs) None ClientAuthUsage presented
  end.

Definition hello_of (client : Config) : ClientHelloInfo := mkHello client.(NextProtos) client.(ServerName).

Definition config_for (l : ListenerConfig) (hello : ClientHelloInfo) : Config :=
  default l.(config) (f ← l.(GetConfigForClient); f hello).

(** Each end's view of the other. The server answers with its first certificate;
    the client presents its own when asked. *)
Definition handshake (l : ListenerConfig) (client : Config) : option (ConnectionState * ConnectionState) :=
  let cfg := config_for l (hello_of client) in
  if negb (existsb (fun p => bool_decide (p ∈ client.(NextProtos))) cfg.(NextProtos)) then None
  else
    answered ← head cfg.(Certificates);
    client_view ← verify_presented client.(RootCAs) (Some client.(ServerName)) ServerAuthUsage answered;
    server_view ← server_side cfg (default [] (head client.(Certificates)));
    Some (server_view, client_view).

(** ** The trust: peer_trust.go *)

Inductive sessionClass := classClient | classPeer.

#[export] Instance sessionClass_eq_dec : EqDecision sessionClass.
Proof. solve_decision. Defined.

Definition class_String (c : sessionClass) : string := match c with classPeer => "peer" | classClient => "client" end.

(** [leaf] is the parsed leaf of [cert]. *)
Record PeerTrust := mkTrust { ca : option CertPool; cert : option (der_chain * Certificate); own : string }.

Definition checkPeerCertificate (leaf : Certificate) (intermediates : list Certificate) (ca : CertPool) : bool :=
  bool_decide (PeeringName ∈ leaf.(DNSNames)) &&
  forallb (fun u => match Verify ca intermediates (Some PeeringName) u leaf with [] => false | _ => true end)
    [ClientAuthUsage; ServerAuthUsage].

Inductive trust_error := BadCA | NoCA | BadCertificate | BadChain | Unfit.

(** [NewPeerTrust]; a certificate chain is never empty. *)
Definition NewPeerTrust (caPEM : option string) (cert : option (string * list string)) : result trust_error PeerTrust :=
  ca ← match caPEM with None => Ok None | Some pem => Some <$> of_option BadCA (AppendCertsFromPEM pem) end;
  match cert with
  | None => Ok (mkTrust ca None "")
  | Some (der, rest) =>
      pool ← of_option NoCA ca;
      leaf ← of_option BadCertificate (ParseCertificate der);
      ics ← of_option BadChain (mapM ParseCertificate rest);
      guard_err (checkPeerCertificate leaf ics pool) Unfit;;
      Ok (mkTrust ca (Some (der :: rest, leaf)) der)
  end.

Definition ServerTLS (t : PeerTrust) (public : Config) : ListenerConfig :=
  match t.(ca) with
  | None => mkListener public None
  | Some ca =>
      let native := mkConfig public.(Certificates) public.(NextProtos) public.(ServerName) public.(RootCAs) VerifyClientCertIfGiven (Some ca) in
      let peer := (fun c => mkConfig [c.1] [NextProtoMOQ] public.(ServerName) public.(RootCAs) RequireAndVerifyClientCert (Some ca)) <$> t.(cert) in
      mkListener public (Some (fun hello =>
        if bool_decide ("h3" ∈ hello.(SupportedProtos)) || negb (bool_decide (NextProtoMOQ ∈ hello.(SupportedProtos))) then None
        else match peer with
             | Some peer => if bool_decide (hello.(hello_ServerName) = PeeringName) then Some peer else Some native
             | None => Some native
             end))
  end.

(** [DialerTLS] of a trust with a peer identity. *)
Definition DialerTLS (t : PeerTrust) : option Config :=
  c ← t.(cert); Some (mkConfig [c.1] [NextProtoMOQ] PeeringName t.(ca) NoClientCert None).

Definition HasCA (t : PeerTrust) : bool := bool_decide (is_Some t.(ca)).
Definition Identity (t : PeerTrust) : string := match t.(cert) with Some (_, leaf) => leaf.(CommonName) | None => "" end.
Definition OwnCertificate (t : PeerTrust) : string := t.(own).

(** The class of a session and the identity its certificate carries; [None] is a
    session without TLS. *)
Definition classify (state : option ConnectionState) : sessionClass * string :=
  match state with
  | Some {| VerifiedChains := (leaf :: _) :: _ |} =>
      if bool_decide (PeeringName ∈ leaf.(DNSNames)) then (classPeer, leaf.(CommonName)) else (classClient, "")
  | _ => (classClient, "")
  end.

Definition isSelf (state : option ConnectionState) (own : string) : bool :=
  match state with
  | Some {| PeerCertificates := c :: _ |} => negb (bool_decide (own = "")) && bool_decide (c.(Raw) = own)
  | _ => false
  end.

(** ** What a handshake proves *)

Context `{!X509Laws}.

Lemma verify_presented_inv ca name u ders st :
  verify_presented ca name u ders = Some st ->
  exists pool leaf ics, ca = Some pool /\ mapM ParseCertificate ders = Some (leaf :: ics) /\
    st = mkState (Verify pool ics name u leaf) (leaf :: ics) /\ Verify pool ics name u leaf <> [].
Proof.
  unfold verify_presented. intros (certs & Hc & Hv)%bind_Some. destruct certs as [|leaf ics]; [done|]. destruct ca as [pool|]; [|done].
  exists pool, leaf, ics. destruct (Verify pool ics name u leaf) eqn:He; [done|]. by injection Hv as <-.
Qed.

(** The class of what was verified is the leaf's. *)
Lemma classify_verified pool ics name u leaf :
  Verify pool ics name u leaf <> [] ->
  classify (Some (mkState (Verify pool ics name u leaf) (leaf :: ics))) =
  if bool_decide (PeeringName ∈ leaf.(DNSNames)) then (classPeer, leaf.(CommonName)) else (classClient, "").
Proof.
  intros Hv. destruct (Verify pool ics name u leaf) as [|chain chains] eqn:He; [done|].
  assert (Hh : head chain = Some leaf) by (eapply (chain_leaf pool ics name u); rewrite He; by left).
  destruct chain as [|c chain]; [done|]. by injection Hh as ->.
Qed.

Lemma NewPeerTrust_inv caPEM der rest t :
  NewPeerTrust caPEM (Some (der, rest)) = Ok t ->
  exists pem pool leaf ics, caPEM = Some pem /\ AppendCertsFromPEM pem = Some pool /\ ParseCertificate der = Some leaf /\
    mapM ParseCertificate rest = Some ics /\ checkPeerCertificate leaf ics pool = true /\
    t = mkTrust (Some pool) (Some (der :: rest, leaf)) der.
Proof.
  unfold NewPeerTrust. intros Ht. destruct caPEM as [pem|]; cbn in Ht; [|done].
  destruct (AppendCertsFromPEM pem) as [pool|] eqn:Hpool; cbn in Ht; [|done].
  destruct (ParseCertificate der) as [leaf|] eqn:Hleaf; cbn in Ht; [|done].
  destruct (mapM ParseCertificate rest) as [ics|] eqn:Hics; cbn in Ht; [|done].
  destruct (checkPeerCertificate leaf ics pool) eqn:Hc; cbn in Ht; [|done]. injection Ht as <-. by exists pem, pool, leaf, ics.
Qed.

Lemma checked_verify leaf ics pool u :
  checkPeerCertificate leaf ics pool = true ->
  PeeringName ∈ leaf.(DNSNames) /\ Verify pool ics (Some PeeringName) u leaf <> [].
Proof.
  unfold checkPeerCertificate. cbn. intros [Hn%bool_decide_eq_true Hv]%andb_prop. split; [done|].
  by destruct u; repeat destruct (Verify _ _ _ _ _).
Qed.

(** Two relays of one CA take each other for peers. A relay whose certificate
    [NewPeerTrust] accepted can dial any other: the handshake succeeds whatever the
    other's public configuration is, each side sees the class peer and the other's
    name, and each drops the session exactly when the two hold one certificate. *)
Theorem peers_recognize_each_other caPEM derA restA derB restB tA tB public :
  NewPeerTrust caPEM (Some (derA, restA)) = Ok tA -> NewPeerTrust caPEM (Some (derB, restB)) = Ok tB ->
  exists dial at_B at_A, DialerTLS tA = Some dial /\ handshake (ServerTLS tB public) dial = Some (at_B, at_A) /\
    classify (Some at_B) = (classPeer, Identity tA) /\ classify (Some at_A) = (classPeer, Identity tB) /\
    isSelf (Some at_B) (OwnCertificate tB) = bool_decide (derA <> "" /\ derA = derB) /\
    isSelf (Some at_A) (OwnCertificate tA) = bool_decide (derA <> "" /\ derA = derB).
Proof.
  intros (pem & pool & leafA & icsA & Hpem & Hpool & HleafA & HicsA & HA & ->)%NewPeerTrust_inv
         (pem' & pool' & leafB & icsB & Hpem' & Hpool' & HleafB & HicsB & HB & ->)%NewPeerTrust_inv.
  rewrite Hpem in Hpem'. injection Hpem' as <-. rewrite Hpool in Hpool'. injection Hpool' as <-.
  destruct (checked_verify _ _ _ ClientAuthUsage HA) as [HnA HcA]. apply verify_unnamed in HcA.
  destruct (checked_verify _ _ _ ServerAuthUsage HB) as [HnB HcB].
  eexists _, (mkState (Verify pool icsA None ClientAuthUsage leafA) (leafA :: icsA)),
    (mkState (Verify pool icsB (Some PeeringName) ServerAuthUsage leafB) (leafB :: icsB)). split; [reflexivity|].
  assert (Hpres : forall der rest leaf ics name u, ParseCertificate der = Some leaf -> mapM ParseCertificate rest = Some ics ->
    Verify pool ics name u leaf <> [] ->
    verify_presented (Some pool) name u (der :: rest) = Some (mkState (Verify pool ics name u leaf) (leaf :: ics))).
  { intros der rest leaf ics name u Hl Hi Hv. unfold verify_presented. cbn. rewrite Hl, Hi. cbn.
    by destruct (Verify pool ics name u leaf). }
  assert (Hself : forall derX derY leafX, ParseCertificate derX = Some leafX ->
    negb (bool_decide (derY = "")) && bool_decide (leafX.(Raw) = derY) = bool_decide (derX <> "" /\ derX = derY)).
  { intros derX derY leafX Hl. rewrite (parse_raw _ _ Hl). repeat case_bool_decide; naive_solver. }
  split_and!.
  - transitivity (cv ← verify_presented (Some pool) (Some PeeringName) ServerAuthUsage (derB :: restB);
                  sv ← verify_presented (Some pool) None ClientAuthUsage (derA :: restA); Some (sv, cv)); [reflexivity|].
    rewrite (Hpres _ _ _ _ _ _ HleafB HicsB HcB). cbn -[verify_presented]. by rewrite (Hpres _ _ _ _ _ _ HleafA HicsA HcA).
  - by rewrite (classify_verified _ _ _ _ _ HcA), bool_decide_true.
  - by rewrite (classify_verified _ _ _ _ _ HcB), bool_decide_true.
  - by apply Hself.
  - cbn. rewrite (Hself _ derA _ HleafB). repeat case_bool_decide; naive_solver.
Qed.

(** C11: Only the CA makes a peer. Whatever a client presents, the listener
    takes its session for a peer's only when a CA is configured and the certificate
    it presented is one that CA issued for clients with the peering name; a client
    that offers h3, such as a browser, is never asked for a certificate; and the
    peer certificate is shown only to a client that asks for the peering name. *)
Theorem only_the_ca_makes_peers t public client at_server at_client :
  public.(ClientAuth) = NoClientCert -> handshake (ServerTLS t public) client = Some (at_server, at_client) ->
  ((classify (Some at_server)).1 = classPeer ->
   exists pool leaf ics, t.(ca) = Some pool /\
     mapM ParseCertificate (default [] (head client.(Certificates))) = Some (leaf :: ics) /\
     Verify pool ics None ClientAuthUsage leaf <> [] /\ PeeringName ∈ leaf.(DNSNames)) /\
  ("h3" ∈ client.(NextProtos) -> at_server = no_certificate) /\
  (client.(ServerName) <> PeeringName -> (config_for (ServerTLS t public) (hello_of client)).(Certificates) = public.(Certificates)).
Proof.
  intros Hpub Hh. unfold handshake in Hh. destruct (negb _); [done|].
  apply bind_Some in Hh as (answered & _ & Hh). apply bind_Some in Hh as (cv & _ & Hh).
  apply bind_Some in Hh as (sv & Hs & [= -> ->]). unfold server_side in Hs.
  set (presented := default [] (head client.(Certificates))) in *.
  set (cfg := config_for (ServerTLS t public) (hello_of client)) in *.
  assert (Hcfg : (cfg = public \/ exists pool, t.(ca) = Some pool /\ cfg.(ClientCAs) = Some pool /\ "h3" ∉ client.(NextProtos)) /\
    (client.(ServerName) <> PeeringName -> cfg.(Certificates) = public.(Certificates))).
  { unfold cfg, config_for, ServerTLS, hello_of. destruct (ca t) as [pool|]; [|by split; [left|]]. cbn.
    destruct (bool_decide ("h3" ∈ client.(NextProtos))) eqn:Hh3; [by split; [left|]|]. apply bool_decide_eq_false in Hh3. cbn.
    destruct (negb _); [by split; [left|]|]. destruct (cert t) as [c|]; cbn; [case_bool_decide|]; (split; [right; by exists pool|done]). }
  destruct Hcfg as [Hcfg Hname]. split_and!; [| |exact Hname].
  - intros Hclass. destruct Hcfg as [->|(pool & Hca & Hcas & _)].
    { rewrite Hpub in Hs. injection Hs as <-. done. }
    assert (Hv : verify_presented (Some pool) None ClientAuthUsage presented = Some at_server).
    { rewrite Hcas in Hs. destruct (ClientAuth cfg); [by injection Hs as <-| |done].
      destruct presented; [by injection Hs as <-|done]. }
    apply verify_presented_inv in Hv as (pool' & leaf & ics & [= <-] & Hm & -> & Hne). exists pool, leaf, ics. split_and!; try done.
    rewrite (classify_verified _ _ _ _ _ Hne) in Hclass. by case_bool_decide.
  - intros Hh3. destruct Hcfg as [->|(pool & _ & _ & Hno)]; [|done]. rewrite Hpub in Hs. by injection Hs as <-.
Qed.
End Trust.

(** ** A concrete CA

    It issued "a" and "b" for the peering name and "c" for another. *)
#[local] Instance toy_x509 : X509 := {|
  CertPool := string;
  ParseCertificate der :=
    if bool_decide (der = "a") then Some (mkCertificate der [PeeringName] "hub-a")
    else if bool_decide (der = "b") then Some (mkCertificate der [PeeringName] "hub-b")
    else if bool_decide (der = "c") then Some (mkCertificate der ["qumo.example"] "site") else None;
  AppendCertsFromPEM pem := if bool_decide (pem = "pem") then Some "ca" else None;
  Verify ca _ name _ leaf :=
    if bool_decide (ca = "ca") && match name with Some n => bool_decide (n ∈ leaf.(DNSNames)) | None => true end then [[leaf]] else []
|}.

#[local] Instance toy_x509_laws : X509Laws.
Proof.
  constructor.
  - intros der c. cbn. repeat case_bool_decide; by intros [= <-].
  - intros ca ics name u c chain. cbn. destruct (_ && _); [|intros []%not_elem_of_nil]. by intros ->%list_elem_of_singleton.
  - intros ca ics name u c. cbn. rewrite andb_true_r. repeat case_bool_decide; cbn; try done; intros []; done.
Qed.

Definition toy_trust (der : string) : PeerTrust := mkTrust (Some "ca") (Some ([der], mkCertificate der [PeeringName] ("hub-" +:+ der))) der.

(** A public configuration, for browsers and clients. *)
Definition toy_public : Config := mkConfig [["c"]] ["h3"; NextProtoMOQ] "" None NoClientCert None.

Lemma peers_recognize_each_other_witness :
  exists dial at_B at_A, DialerTLS (toy_trust "a") = Some dial /\ handshake (ServerTLS (toy_trust "b") toy_public) dial = Some (at_B, at_A) /\
    classify (Some at_B) = (classPeer, "hub-a") /\ classify (Some at_A) = (classPeer, "hub-b") /\
    isSelf (Some at_B) "b" = bool_decide ("a" <> "" /\ "a" = "b") /\
    isSelf (Some at_A) "a" = bool_decide ("a" <> "" /\ "a" = "b").
Proof. apply (peers_recognize_each_other (Some "pem") "a" [] "b" [] (toy_trust "a") (toy_trust "b") toy_public); reflexivity. Defined.

(** A client with the CA's certificate for another name, over native QUIC. *)
Definition toy_client : Config := mkConfig [["c"]] [NextProtoMOQ] "qumo.example" (Some "ca") NoClientCert None.

Lemma only_the_ca_makes_peers_witness :
  exists at_server at_client, handshake (ServerTLS (toy_trust "b") toy_public) toy_client = Some (at_server, at_client) /\
  ((classify (Some at_server)).1 = classPeer ->
   exists pool leaf ics, (toy_trust "b").(ca) = Some pool /\
     mapM ParseCertificate (default [] (head toy_client.(Certificates))) = Some (leaf :: ics) /\
     Verify pool ics None ClientAuthUsage leaf <> [] /\ PeeringName ∈ leaf.(DNSNames)) /\
  ("h3" ∈ toy_client.(NextProtos) -> at_server = no_certificate) /\
  (toy_client.(ServerName) <> PeeringName ->
   (config_for (ServerTLS (toy_trust "b") toy_public) (hello_of toy_client)).(Certificates) = toy_public.(Certificates)).
Proof.
  eexists _, _. split; [vm_compute; reflexivity|].
  eapply (only_the_ca_makes_peers (toy_trust "b") toy_public toy_client); [reflexivity|vm_compute; reflexivity].
Defined.
