(* ===== verification/Sessions.v ===== *)
(** * Sessions: how a session comes to be served, and how it ends

    The entries of the relay's server (src/internal/relay/server.go): a WebTransport
    or WebSocket upgrade ([HandleWebTransport], [HandleWebSocket], [serveUpgrade],
    [Relay]), a native-QUIC session ([relayPeer]) and a peer the relay dialed
    ([maintainPeer]); the connect check they pass ([Server.admit], admit.go) and the session
    they serve ([serveSession], its announcements apart, which Election.v models).

    One session runs at a time here: each entry is a function of what the
    environment decides ([life]) and of the server's counters, with the calls it
    makes and the session's fate as its effects. What interleaves between sessions
    follows: the count of pending anonymous sessions (Module [Pending]), the count
    that shutdown waits for (Module [Ends]) and the dialed peers (Module [Dialed]). *)
From stdpp Require Import gmap strings.
From S2P Require Import Prelude GoStrings GoURL TokenPath TokenGrant GoTime RelayCred Base64 TokenClaims TokenKey Token.
From S2P Require Import Usage TokenExample AuthVerifier AuthExample AdmitSession Lease PeerTrust.

Open Scope Z_scope.

Section Entries.
Context `{X509}.

(** ** The connect check: admit.go *)

Inductive admit_error := NoAuthorize | TooManyPending | Denied (e : auth_error).

(** [auth.RefusalStatus] of what [Server.admit] returns. *)
Definition admit_status (e : admit_error) : Z :=
  match e with Denied e => RefusalStatus e | _ => StatusServiceUnavailable end.

Definition refusalRefused : string := "refused".
Definition refusalUnavailable : string := "unavailable".

Definition refusalReason (e : admit_error) : string :=
  match e with Denied (Refused _) => refusalRefused | _ => refusalUnavailable end.

Definition endUpgradeFailed : string := "upgrade_failed".

(** [pendingAnonymous]: how many anonymous sessions hold no grant yet. *)
Abbreviation counters := Z.

(** The server's configuration: [Authorize] and [MaxPendingAnonymous], whether [End] is
    set, [PeerCertificate], and whether WebSocket sessions are served. *)
Record server := mkServer {
  authorize : option (Request -> reply);
  maxPending : Z;
  reports_ends : bool;
  PeerCertificate : string;
  WebSocket : bool
}.

(** What a session's entry does, in order. *)
Inductive effect :=
| Asked (r : Request)
| Http (status : Z)
| PassedOn
| Upgraded
| Serve (g : option AuthGrant)
| CloseSession (unauthorized : bool) (msg : string)
| ReportEnd (id reason : string).

Variable s : server.

Definition maxPendingAnonymous : Z := if s.(maxPending) <=? 0 then 1024 else s.(maxPending).

Definition admit_ (req : Request) (n : counters) : result admit_error (option AuthGrant) * counters * list effect :=
  match s.(authorize) with
  | None => (Err NoAuthorize, n, [])
  | Some ask =>
      match ask req with
      | Ok (Some g) =>
          if g.(anonymous) then
            let '(ok, count) := reservePending maxPendingAnonymous n in
            (if ok : bool then Ok (Some g) else Err TooManyPending, count, [Asked req])
          else (Ok (Some g), n, [Asked req])
      | Ok None => (Ok None, n, [Asked req])
      | Err e => (Err (Denied e), n, [Asked req])
      end
  end.

(** ** Admissions *)

(** An [admission]: the decided grant ([None] while pending), the connect request,
    whether it was served, the refusal of an upgrade that goes on, and whether the
    session is among the pending anonymous ones. *)
Record admission := mkAdmission {
  decided : option (option AuthGrant);
  a_req : option Request;
  served : bool;
  refusal : string;
  counted : bool
}.

Definition refusedGrant : AuthGrant := mkAuthGrant no_grant 0 "" zero_time false.

Definition decide_ (g : option AuthGrant) (req : option Request) (counted : bool) : admission :=
  mkAdmission (Some g) req false "" counted.

Definition is_anonymous (g : option AuthGrant) : bool := match g with Some g => g.(anonymous) | None => false end.

(** [unwatch], as far as the server's count goes. *)
Definition unwatch (a : admission) (n : counters) : admission * counters :=
  if a.(counted) then (mkAdmission a.(decided) a.(a_req) a.(served) a.(refusal) false, n - 1)
  else (a, n).

(** What the environment decides of a session: whether gomoqt completes the upgrade,
    whether the session is over when it is to be served and which ready case Go's
    select picks then, and why it ended: the relay's own reason, the lease, the close. *)
Record life := mkLife {
  upgrades : bool;
  gone : bool;
  picks_done : bool;
  closedReason : string;
  its_lease : option lease;
  close_cause : cause
}.

(** [sessionGrant]: [None] is the session's end. *)
Definition sessionGrant (a : option admission) (l : life) : option (option AuthGrant) :=
  match a with
  | None => Some None
  | Some a => if l.(gone) && l.(picks_done) then None else a.(decided)
  end.

Definition sessionEndReason (l : life) : string :=
  if bool_decide (l.(closedReason) = "") then endReason l.(its_lease) l.(close_cause) else l.(closedReason).

(** [reportEnd] of a request with a reason, nothing without [End]. *)
Definition reportEnd (req : option Request) (reason : string) : list effect :=
  match req with
  | Some r => if s.(reports_ends) then [ReportEnd r.(req_ID) reason] else []
  | None => []
  end.

(** ** Serving *)

(** [serveSession]: the announcements loop, then what was deferred, last first. *)
Definition serveSession (a : option admission) (l : life) (n : counters) : option admission * counters * list effect :=
  match sessionGrant a l with
  | None => (a, n, [])
  | Some g =>
      match a, g with
      | Some a, Some grant =>
          let a := mkAdmission a.(decided) a.(a_req) true a.(refusal) a.(counted) in
          let '(a, n) := if grant.(anonymous) then unwatch a n else (a, n) in
          (Some a, n, [Serve g; CloseSession false "no error"] ++ reportEnd a.(a_req) (sessionEndReason l))
      | _, _ => (a, n, [Serve None; CloseSession false "no error"])
      end
  end.

(** [Relay]: an upgraded session. *)
Definition Relay (a : admission) (l : life) (n : counters) : admission * counters * list effect :=
  if negb (bool_decide (a.(refusal) = "")) then (a, n, [CloseSession true a.(refusal)])
  else
    match serveSession (Some a) l n with
    | (Some a, n, out) => (a, n, out)
    | (None, n, out) => (a, n, out)
    end.

(** gomoqt's handler: the upgrade, and the session within it. *)
Definition ServeHTTP (a : admission) (l : life) (n : counters) : admission * counters * list effect :=
  if l.(upgrades) then let '(a, n, out) := Relay a l n in (a, n, Upgraded :: out) else (a, n, []).

Definition serveUpgrade (g : option AuthGrant) (req : Request) (l : life) (n : counters) : counters * list effect :=
  let '(a, n, out) := ServeHTTP (decide_ g (Some req) (is_anonymous g)) l n in
  let reported := match g with
                  | Some _ => if a.(served) then [] else reportEnd (Some req) endUpgradeFailed
                  | None => []
                  end in
  let '(_, n) := unwatch a n in
  (n, out ++ reported).

(** *** Upgrades *)

(** An HTTP request, as far as the handlers look at it: whether it is an extended
    CONNECT, whether it asks for the WebSocket subprotocol, and whether each handler
    takes its Origin. *)
Record http_request := mkHttp {
  is_connect : bool;
  offers_websocket : bool;
  wt_origin : bool;
  ws_origin : bool;
  connect_request : Request
}.

Definition handleWebSocket (r : http_request) (l : life) (n : counters) : counters * list effect :=
  if negb r.(ws_origin) then (n, [Http StatusForbidden])
  else
    let req := r.(connect_request) in
    match admit_ req n with
    | (Err e, n, out) =>
        let a := mkAdmission (Some (Some refusedGrant)) (Some req) false (refusalReason e) false in
        let '(_, n, out') := ServeHTTP a l n in (n, out ++ out')
    | (Ok g, n, out) => let '(n, out') := serveUpgrade g req l n in (n, out ++ out')
    end.

Definition HandleWebTransport (r : http_request) (l : life) (n : counters) : counters * list effect :=
  if s.(WebSocket) && r.(offers_websocket) then handleWebSocket r l n
  else if negb r.(is_connect) || negb r.(wt_origin) then (n, [PassedOn])
  else
    let req := r.(connect_request) in
    match admit_ req n with
    | (Err e, n, out) => (n, out ++ [Http (admit_status e)])
    | (Ok g, n, out) => let '(n, out') := serveUpgrade g req l n in (n, out ++ out')
    end.

Definition StatusUpgradeRequired : Z := 426.

Definition HandleWebSocket (r : http_request) (l : life) (n : counters) : counters * list effect :=
  if s.(WebSocket) && r.(offers_websocket) then handleWebSocket r l n else (n, [Http StatusUpgradeRequired]).

(** *** Native QUIC *)

Definition relayPeer (tls : option ConnectionState) (req : Request) (l : life) (n : counters) : counters * list effect :=
  if isSelf tls s.(PeerCertificate) then (n, [CloseSession false "self"])
  else
    match (classify tls).1 with
    | classPeer => let '(_, n, out) := serveSession (Some (decide_ None None false)) l n in (n, out)
    | classClient =>
        match admit_ req n with
        | (Err _, n, out) => (n, out ++ [CloseSession true "refused"])
        | (Ok g, n, out) =>
            let a := decide_ g (Some req) (is_anonymous g) in
            let '(a', n, out') := serveSession (Some a) l n in
            let '(_, n) := unwatch (default a a') n in
            (n, out ++ out')
        end
    end.

(** A session [maintainPeer] dialed. *)
Definition serve_dialed (tls : option ConnectionState) (l : life) (n : counters) : counters * list effect :=
  if isSelf tls s.(PeerCertificate) then (n, [CloseSession false "self"])
  else let '(_, n, out) := serveSession None l n in (n, out).

(** The ways in. *)
Inductive entry :=
| HttpEntry (r : http_request)
| WebSocketEntry (r : http_request)
| NativeEntry (tls : option ConnectionState) (req : Request)
| DialedEntry (tls : option ConnectionState).

Definition run (e : entry) (l : life) (n : counters) : counters * list effect :=
  match e with
  | HttpEntry r => HandleWebTransport r l n
  | WebSocketEntry r => HandleWebSocket r l n
  | NativeEntry tls req => relayPeer tls req l n
  | DialedEntry tls => serve_dialed tls l n
  end.

(** ** What the entries guarantee *)

#[local] Arguments reportEnd : simpl never.

(** The request of an entry that asks for a client's session, as it asks. *)
Definition client_of (e : entry) : option Request :=
  match e with
  | HttpEntry r =>
      if s.(WebSocket) && r.(offers_websocket) then (if r.(ws_origin) then Some r.(connect_request) else None)
      else if r.(is_connect) && r.(wt_origin) then Some r.(connect_request) else None
  | WebSocketEntry r =>
      if s.(WebSocket) && r.(offers_websocket) && r.(ws_origin) then Some r.(connect_request) else None
  | NativeEntry tls req =>
      if isSelf tls s.(PeerCertificate) then None
      else match (classify tls).1 with classPeer => None | classClient => Some req end
  | DialedEntry _ => None
  end.

(** A relay peer, which is not this relay: by its handshake, or dialed. *)
Definition trusted (e : entry) : bool :=
  match e with
  | NativeEntry tls _ =>
      negb (isSelf tls s.(PeerCertificate)) && bool_decide ((classify tls).1 = classPeer)
  | DialedEntry tls => negb (isSelf tls s.(PeerCertificate))
  | _ => false
  end.

Definition is_native (e : entry) : bool := match e with NativeEntry _ _ => true | _ => false end.

(** What [Server.admit] answers the entry, if it asks. *)
Definition admitted (e : entry) (n : counters) : option (option AuthGrant) :=
  req ← client_of e;
  match (admit_ req n).1.1 with Ok g => Some g | Err _ => None end.

Lemma admit_granted req n g n' out :
  admit_ req n = (Ok g, n', out) ->
  out = [Asked req] /\ n' = n + (if is_anonymous g then 1 else 0) /\
  exists ask, s.(authorize) = Some ask /\ ask req = Ok g.
Proof.
  unfold admit_. destruct s.(authorize) as [ask|]; [|done]. destruct (ask req) as [[g'|]|e] eqn:Ha; [|by intros [= <- <- <-]; cbn; split_and!; [|lia|exists ask]|done].
  destruct (anonymous g') eqn:Han; [|by intros [= <- <- <-]; cbn; rewrite Han; split_and!; [|lia|exists ask]].
  unfold reservePending. destruct (_ <? _); [done|]. intros [= <- <- <-]. cbn. rewrite Han. by split_and!; [|lia|exists ask].
Qed.

Lemma admit_refused req n e n' out : admit_ req n = (Err e, n', out) -> n' = n /\ (out = [] \/ out = [Asked req]).
Proof.
  unfold admit_. destruct s.(authorize) as [ask|]; [|by intros [= _ <- <-]; auto]. destruct (ask req) as [[g'|]|e']; [|done|by intros [= _ <- <-]; auto].
  destruct (anonymous g'); [|done]. unfold reservePending. destruct (_ <? _); [|done]. intros [= _ <- <-]. auto.
Qed.

(** The session of an admission made for [g], once it is over: what is left to
    count, and what happened. *)
Lemma serveSession_spec g req l n :
  let a := decide_ g req (is_anonymous g) in
  let '(a', n', out) := serveSession (Some a) l n in
  (unwatch (default a a') n').2 = n - (if is_anonymous g then 1 else 0) /\
  if l.(gone) && l.(picks_done) then a' = Some a /\ out = [] /\ n' = n
  else is_Some a' /\ (default a a').(served) = bool_decide (is_Some g) /\
       out = [Serve g; CloseSession false "no error"] ++
             (match g with Some _ => reportEnd req (sessionEndReason l) | None => [] end).
Proof.
  cbn zeta. unfold serveSession, sessionGrant. destruct (gone l && picks_done l).
  { cbn. unfold unwatch. cbn. destruct (is_anonymous g); cbn; split_and!; (lia || done). }
  cbn. destruct g as [g|]; cbn; [|split_and!; done || lia].
  unfold unwatch. destruct (anonymous g); cbn; split_and!; done || lia.
Qed.

(** The ends reported, by the session's id. *)
Fixpoint ends (out : list effect) : list string :=
  match out with [] => [] | ReportEnd id _ :: out => id :: ends out | _ :: out => ends out end.

Fixpoint serves (out : list effect) : list (option AuthGrant) :=
  match out with [] => [] | Serve g :: out => g :: serves out | _ :: out => serves out end.

Lemma ends_app o o' : ends (o ++ o') = ends o ++ ends o'.
Proof. induction o as [|[]]; cbn; congruence. Qed.

Lemma serves_app o o' : serves (o ++ o') = serves o ++ serves o'.
Proof. induction o as [|[]]; cbn; congruence. Qed.

Lemma ends_report req reason : s.(reports_ends) = true -> ends (reportEnd (Some req) reason) = [req.(req_ID)].
Proof. unfold reportEnd. by intros ->. Qed.

Lemma serves_report req reason : serves (reportEnd req reason) = [].
Proof. unfold reportEnd. destruct req; [|done]. by destruct (reports_ends s). Qed.

Lemma serveUpgrade_spec g req l n n' out :
  serveUpgrade g req l n = (n', out) ->
  n' = n - (if is_anonymous g then 1 else 0) /\ serves out ⊆ [g] /\
  (s.(reports_ends) = true -> ends out = if bool_decide (is_Some g) then [req.(req_ID)] else []).
Proof.
  unfold serveUpgrade, ServeHTTP, Relay. pose proof (serveSession_spec g (Some req) l n) as Hs. cbn zeta in Hs.
  destruct (upgrades l); cbn [refusal decide_]; [rewrite bool_decide_true by done; cbn [negb]|].
  - destruct (serveSession _ l n) as [[a' n1] out1]. destruct Hs as [Hn Hs].
    destruct (gone l && picks_done l).
    + destruct Hs as (-> & -> & ->). cbn [default served decide_] in Hn |- *. destruct (unwatch _ _) as [a2 n2]. cbn in Hn. subst n2.
      intros [= <- <-]. split; [done|]. destruct g as [g|]; cbn [app].
      * rewrite bool_decide_true by done. split; [cbn; rewrite serves_report; set_solver|]. intros Hr. cbn. by apply (ends_report req).
      * split; [cbn; set_solver|done].
    + destruct Hs as ([a Ha] & Hserved & ->). subst a'. change (default (decide_ g (Some req) (is_anonymous g)) (Some a)) with a in *. destruct (unwatch a n1) as [a2 n2]. cbn in Hn. subst n2.
      intros [= <- <-]. split; [done|]. rewrite Hserved. destruct g as [g|].
      * rewrite !bool_decide_true, app_nil_r by done. split; [cbn; rewrite serves_report; set_solver|]. intros Hr. cbn. by apply (ends_report req).
      * rewrite app_nil_r. split; [cbn; set_solver|done].
  - cbn [served decide_]. clear Hs. unfold unwatch. cbn. intros Hr.
    destruct (is_anonymous g); injection Hr as <- <-; (split; [lia|]); destruct g as [g|]; cbn;
      rewrite ?serves_report; (split; [set_solver|]); try done; intros Hr; by apply (ends_report req).
Qed.

(** An upgrade that goes on refused serves nothing. *)
Lemma refused_upgrade req e l n n' a out :
  ServeHTTP (mkAdmission (Some (Some refusedGrant)) (Some req) false (refusalReason e) false) l n = (a, n', out) ->
  n' = n /\ serves out = [] /\ ends out = [].
Proof.
  unfold ServeHTTP, Relay. cbn [refusal]. rewrite bool_decide_false by (destruct e as [| |[]]; done). cbn.
  by destruct (upgrades l); intros [= <- <- <-].
Qed.

(** A client's upgrade or native session: the count, what is served and what is reported. *)
Lemma client_entry_spec e l n req :
  client_of e = Some req ->
  (run e l n).1 = n /\
  (forall g, g ∈ serves (run e l n).2 -> Asked req ∈ (run e l n).2 /\ exists ask, s.(authorize) = Some ask /\ ask req = Ok g) /\
  (s.(reports_ends) = true ->
   ends (run e l n).2 = match admitted e n with
                        | Some (Some g) => if is_native e && l.(gone) && l.(picks_done) then [] else [req.(req_ID)]
                        | _ => []
                        end).
Proof.
  intros Hc. unfold admitted. rewrite Hc. cbn [mbind option_bind].
  assert (Hws : forall r, r.(connect_request) = req -> r.(ws_origin) = true ->
    let '(n', out) := handleWebSocket r l n in n' = n /\
    (forall g, g ∈ serves out -> Asked req ∈ out /\ exists ask, s.(authorize) = Some ask /\ ask req = Ok g) /\
    (s.(reports_ends) = true -> ends out = match (match (admit_ req n).1.1 with Ok g => Some g | Err _ => None end) with
                                           | Some (Some _) => [req.(req_ID)] | _ => [] end)).
  { intros r <- Ho. unfold handleWebSocket. rewrite Ho. cbn [negb].
    destruct (admit_ (connect_request r) n) as [[[g|er] n1] out1] eqn:Ha; cbn [fst].
    - destruct (serveUpgrade g (connect_request r) l n1) as [n2 out2] eqn:Hu.
      apply serveUpgrade_spec in Hu as (-> & Hsv & He). apply admit_granted in Ha as (-> & -> & Hask). split_and!; [lia| |].
      + intros g' Hg. cbn in Hg. split; [by left|]. apply Hsv, list_elem_of_singleton in Hg as ->. exact Hask.
      + intros Hr. cbn. rewrite (He Hr). by destruct g; rewrite ?bool_decide_true, ?bool_decide_false by (done || by intros []).
    - destruct (ServeHTTP _ l n1) as [[a n2] out2] eqn:Hu. apply refused_upgrade in Hu as (-> & Hsv & He).
      apply admit_refused in Ha as [-> Hout]. rewrite serves_app, ends_app, Hsv, He. destruct Hout as [-> | ->]; cbn; split_and!; set_solver. }
  destruct e as [r|r|tls rq|tls]; cbn [client_of] in Hc; cbn [run is_native andb].
  - unfold HandleWebTransport. destruct (WebSocket s && offers_websocket r).
    { destruct (ws_origin r) eqn:Ho; [|done]. injection Hc as Hc. specialize (Hws r Hc Ho). by destruct (handleWebSocket r l n). }
    destruct (is_connect r), (wt_origin r); try done. injection Hc as <-. cbn [negb orb].
    destruct (admit_ (connect_request r) n) as [[[g|er] n1] out1] eqn:Ha; cbn [fst].
    + destruct (serveUpgrade g (connect_request r) l n1) as [n2 out2] eqn:Hu.
      apply serveUpgrade_spec in Hu as (-> & Hsv & He). apply admit_granted in Ha as (-> & -> & Hask). split_and!; [cbn; lia| |].
      * intros g' Hg. cbn in Hg. split; [by left|]. apply Hsv, list_elem_of_singleton in Hg as ->. exact Hask.
      * intros Hr. cbn. rewrite (He Hr). by destruct g; rewrite ?bool_decide_true, ?bool_decide_false by (done || by intros []).
    + apply admit_refused in Ha as [-> Hout]. cbn [fst snd]. rewrite serves_app, ends_app.
      destruct Hout as [-> | ->]; cbn; split_and!; set_solver.
  - unfold HandleWebSocket. destruct (WebSocket s && offers_websocket r); [|done]. destruct (ws_origin r) eqn:Ho; [|done].
    injection Hc as Hc. specialize (Hws r Hc Ho). by destruct (handleWebSocket r l n).
  - unfold relayPeer. destruct (isSelf _ _); [done|]. destruct (classify tls).1; [|done]. injection Hc as ->. clear Hws.
    destruct (admit_ req n) as [[[g|er] n1] out1] eqn:Ha; cbn [fst].
    + apply admit_granted in Ha as (-> & -> & Hask). pose proof (serveSession_spec g (Some req) l (n + (if is_anonymous g then 1 else 0))) as Hs.
      cbn zeta in Hs. destruct (serveSession _ l _) as [[a' n2] out2]. destruct Hs as [Hn Hs]. destruct (unwatch _ _) as [a3 n3]. cbn in Hn. subst n3.
      split; [cbn; lia|]. destruct (gone l && picks_done l) eqn:Hgone.
      * destruct Hs as (-> & -> & ->). cbn. split; [set_solver|]. intros _. by destruct g.
      * destruct Hs as (_ & _ & ->). split.
        -- intros g' Hg. cbn in Hg |- *. split; [by left|]. apply elem_of_cons in Hg as [->|Hg]; [exact Hask|].
           destruct g; rewrite ?serves_report in Hg; set_solver.
        -- intros Hr. cbn. destruct g; [by apply (ends_report req)|done].
    + apply admit_refused in Ha as [-> Hout]. cbn [fst snd]. rewrite serves_app, ends_app.
      destruct Hout as [-> | ->]; cbn; split_and!; set_solver.
  - done.
Qed.

(** The other entries: a peer, or nobody. *)
Lemma other_entry_spec e l n :
  client_of e = None ->
  (run e l n).1 = n /\ ends (run e l n).2 = [] /\
  forall g, g ∈ serves (run e l n).2 -> g = None /\ trusted e = true.
Proof.
  assert (Hw : forall r, r.(ws_origin) = false -> handleWebSocket r l n = (n, [Http StatusForbidden])).
  { intros r Ho. unfold handleWebSocket. by rewrite Ho. }
  destruct e as [r|r|tls rq|tls]; cbn [client_of]; intros Hc; cbn [run].
  - unfold HandleWebTransport. destruct (WebSocket s && offers_websocket r).
    { destruct (ws_origin r) eqn:Ho; [done|]. rewrite (Hw r Ho). cbn. split_and!; set_solver. }
    destruct (is_connect r), (wt_origin r); try done; cbn; split_and!; set_solver.
  - unfold HandleWebSocket. destruct (WebSocket s && offers_websocket r); [|cbn; split_and!; set_solver].
    destruct (ws_origin r) eqn:Ho; [done|]. rewrite (Hw r Ho). cbn. split_and!; set_solver.
  - unfold relayPeer, trusted. destruct (isSelf _ _); [cbn; split_and!; set_solver|]. destruct (classify tls).1; [done|].
    unfold serveSession, sessionGrant. cbn. destruct (gone l && picks_done l); cbn; split_and!; set_solver.
  - unfold serve_dialed, trusted. destruct (isSelf _ _); [cbn; split_and!; set_solver|]. cbn. split_and!; set_solver.
Qed.

(** C9: No session runs open. A session is served by one of the entries only when
    it is a relay peer's, by its handshake or because the relay dialed it, and not
    this relay's own; or when [Authorize] was asked with its connect request and
    returned the grant the session then holds, no grant when the relay runs with
    auth off. A server with no [Authorize], an upgrade of an origin that is not
    taken and a session refused serve nothing. *)
Theorem no_session_runs_open e l n g :
  g ∈ serves (run e l n).2 ->
  (g = None /\ trusted e = true) \/
  exists req ask, client_of e = Some req /\ s.(authorize) = Some ask /\ ask req = Ok g /\ Asked req ∈ (run e l n).2.
Proof.
  intros Hg. destruct (client_of e) as [req|] eqn:Hc.
  - right. destruct (client_entry_spec e l n req Hc) as (_ & Hs & _). destruct (Hs g Hg) as (Ha & ask & Hask & Hr). exists req, ask. by split_and!.
  - left. by apply (other_entry_spec e l n Hc).
Qed.

(** C10: Every checked session is settled. Whatever the environment does, an
    entry that is over leaves the count of pending anonymous sessions as it found
    it, and the end of a session that was granted is reported once, with the
    id of its connect request, whether it was served or its upgrade failed; a
    session that was refused, a peer's and an unchecked one are not. The exception is
    a native-QUIC session that is already over when it is to be served, whose end is
    not reported when select sees that first. *)
Theorem sessions_settled e l n :
  s.(reports_ends) = true ->
  (run e l n).1 = n /\
  ends (run e l n).2 =
    match client_of e, admitted e n with
    | Some req, Some (Some _) => if is_native e && l.(gone) && l.(picks_done) then [] else [req.(req_ID)]
    | _, _ => []
    end.
Proof.
  intros Hr. destruct (client_of e) as [req|] eqn:Hc.
  - destruct (client_entry_spec e l n req Hc) as (Hn & _ & He). split; [done|]. by apply He.
  - destruct (other_entry_spec e l n Hc) as (Hn & He & _). by split.
Qed.

(** With the verifier's [Authorize], a session served as a client's holds what a
    verified credential grants, or nothing. *)
Theorem served_grants_verified `{Moqt} `{Crypto} `{JsonText} oor now v e l n g :
  s.(authorize) = Some (fun r => (verifier_authorize oor r now v).1) ->
  (forall req, client_of e = Some req -> req.(Event) = EventConnect) ->
  Some g ∈ serves (run e l n).2 ->
  exists req, client_of e = Some req /\
    ((credentialOf req.(Query) = Err NoCredential /\ g.(anonymous) = true /\ g.(grant) = no_grant) \/
     exists keys credential c, v.(store).(set) = Some keys /\ credentialOf req.(Query) = Ok credential /\
       Token.Verify oor credential keys now = Ok c /\
       g = mkAuthGrant c.(v_Grant) revalidateEvery c.(v_Key).(ID) c.(v_ExpiresAt) false).
Proof.
  intros Hau Hev Hg. destruct (client_of e) as [req|] eqn:Hc; [|by destruct (other_entry_spec e l n Hc) as (_ & _ & Hs); apply Hs in Hg as [? _]].
  destruct (client_entry_spec e l n req Hc) as (_ & Hs & _). destruct (Hs _ Hg) as (_ & ask & Hask & Ha).
  rewrite Hau in Hask. injection Hask as <-. exists req. split; [done|]. specialize (Hev req eq_refl).
  unfold verifier_authorize, Authorize in Ha. rewrite Hev in Ha. rewrite bool_decide_true in Ha by done.
  assert (Hd : forall cred p (r : result auth_error AuthGrant), r = fst <$> decide_credential oor cred true p now v.(store) -> Some <$> r = Ok (Some g) ->
    exists keys credential c, v.(store).(set) = Some keys /\ cred = Ok credential /\
       Token.Verify oor credential keys now = Ok c /\
       g = mkAuthGrant c.(v_Grant) revalidateEvery c.(v_Key).(ID) c.(v_ExpiresAt) false).
  { intros cred p r -> Hd. destruct (decide_credential oor cred true p now (store v)) as [[g' u]|] eqn:Hde; [|done].
    cbn in Hd. injection Hd as <-. apply decide_inv in Hde as (keys & credential & c & Hk & Hcr & _ & Hv & -> & _). by exists keys, credential, c. }
  destruct (credentialOf (Query req)) as [cred|[st| |]] eqn:Hcred; cbn iota in Ha.
  - right. eapply Hd; [reflexivity|exact Ha].
  - edestruct Hd as (? & ? & ? & _ & ? & _); [reflexivity|exact Ha|done].
  - left. unfold anonymous_session in Ha. cbn in Ha. injection Ha as <-. done.
  - edestruct Hd as (? & ? & ? & _ & ? & _); [reflexivity|exact Ha|done].
Qed.
End Entries.

(** A native-QUIC session that ended while it was admitted may be asked for and
    never reported: [serveSession] returns before it defers the report when the
    session's context is done and [sessionGrant]'s select picks that, though the
    admission is decided. An upgrade's end is reported by [serveUpgrade] then;
    [relayPeer] does not look whether the session was served. *)
Theorem native_end_lost `{X509} (s : server) tls req g l n ask :
  isSelf tls s.(PeerCertificate) = false -> (classify tls).1 = classClient ->
  s.(authorize) = Some ask -> ask req = Ok (Some g) -> g.(anonymous) = false ->
  l.(gone) = true -> l.(picks_done) = true ->
  run s (NativeEntry tls req) l n = (n, [Asked req]).
Proof.
  intros Hself Hcl Hau Hask Han Hg Hd. unfold run, relayPeer. rewrite Hself, Hcl. unfold admit_. rewrite Hau, Hask, Han.
  unfold serveSession, sessionGrant. rewrite Hg, Hd. cbn. unfold unwatch. cbn. by rewrite Han.
Qed.

(** ** Concrete sessions *)

Section Examples.
#[local] Existing Instances literal_moqt toy_crypto toy_json toy_x509.

(** A relay with the example's key set, as the peer "b". *)
Definition acme_server : server :=
  mkServer (Some (fun r => (verifier_authorize oor r signed_at acme_verifier).1)) 0 true "b" true.

Definition acme_connect : Request := mkRequest "id" EventConnect ("jwt=" +:+ acme_token) (mkBytes 0 0) "".

Definition quiet_life : life := mkLife true false false "" None OtherClose.

(** A client that connects with the example's credential, without a certificate. *)
Definition acme_entry : entry := NativeEntry (Some no_certificate) acme_connect.

Lemma no_session_runs_open_witness :
  Some acme_grant ∈ serves (run acme_server acme_entry quiet_life 0).2 /\
  ((Some acme_grant = None /\ trusted acme_server acme_entry = true) \/
   exists req ask, client_of acme_server acme_entry = Some req /\ acme_server.(authorize) = Some ask /\
     ask req = Ok (Some acme_grant) /\ Asked req ∈ (run acme_server acme_entry quiet_life 0).2).
Proof.
  assert (Hs : serves (run acme_server acme_entry quiet_life 0).2 = [Some acme_grant]) by (vm_compute; reflexivity).
  rewrite Hs. split; [by left|]. apply (no_session_runs_open acme_server acme_entry quiet_life 0 (Some acme_grant)). rewrite Hs. by left.
Defined.

Lemma sessions_settled_witness :
  (run acme_server acme_entry quiet_life 0).1 = 0 /\
  ends (run acme_server acme_entry quiet_life 0).2 =
    match client_of acme_server acme_entry, admitted acme_server acme_entry 0 with
    | Some req, Some (Some _) => if is_native acme_entry && quiet_life.(gone) && quiet_life.(picks_done) then [] else [req.(req_ID)]
    | _, _ => []
    end.
Proof. apply (sessions_settled acme_server acme_entry quiet_life 0). reflexivity. Defined.

Example acme_end_reported : ends (run acme_server acme_entry quiet_life 0).2 = ["id"].
Proof. vm_compute. reflexivity. Qed.

Lemma served_grants_verified_witness :
  exists req, client_of acme_server acme_entry = Some req /\
    ((credentialOf req.(Query) = Err NoCredential /\ acme_grant.(anonymous) = true /\ acme_grant.(grant) = no_grant) \/
     exists keys credential c, acme_verifier.(store).(set) = Some keys /\ credentialOf req.(Query) = Ok credential /\
       Token.Verify oor credential keys signed_at = Ok c /\
       acme_grant = mkAuthGrant c.(v_Grant) revalidateEvery c.(v_Key).(ID) c.(v_ExpiresAt) false).
Proof.
  apply (served_grants_verified acme_server oor signed_at acme_verifier acme_entry quiet_life 0 acme_grant eq_refl).
  - by intros req [= <-].
  - replace (serves (run acme_server acme_entry quiet_life 0).2) with [Some acme_grant] by (vm_compute; reflexivity). by left.
Defined.

Lemma native_end_lost_witness :
  run acme_server acme_entry (mkLife true true true "" None OtherClose) 3 = (3, [Asked acme_connect]).
Proof.
  eapply (native_end_lost acme_server (Some no_certificate) acme_connect acme_grant); try reflexivity.
Defined.
End Examples.

(** ** The pending anonymous sessions, interleaved *)

Module Pending.

(** A session's part in the count: [reservePending]'s [Add(1)], whose value it then
    compares; that it is taken, until its admission releases it ([countPending]); or
    [Add(-1)] of one that is not. *)
Inductive phase := Idle | Added (value : Z) | Taken | Over.

Record state := mkState { count : Z; sessions : list phase }.

Section Bound.
Variable max : Z.

Inductive step : state -> state -> Prop :=
| s_add i n l : l !! i = Some Idle -> step (mkState n l) (mkState (n + 1) (<[i := Added (n + 1)]> l))
| s_take i n l v : l !! i = Some (Added v) -> v <= max -> step (mkState n l) (mkState n (<[i := Taken]> l))
| s_refuse i n l v : l !! i = Some (Added v) -> max < v -> step (mkState n l) (mkState (n - 1) (<[i := Over]> l))
| s_release i n l : l !! i = Some Taken -> step (mkState n l) (mkState (n - 1) (<[i := Over]> l)).

(** The sessions the count has, and those it will keep. *)
Definition present (p : phase) : Z := match p with Added _ | Taken => 1 | _ => 0 end.
Definition kept (p : phase) : Z := match p with Added v => if v <=? max then 1 else 0 | Taken => 1 | _ => 0 end.
Definition taken (p : phase) : Z := match p with Taken => 1 | _ => 0 end.

Fixpoint total (w : phase -> Z) (l : list phase) : Z := match l with [] => 0 | p :: l => w p + total w l end.

Lemma total_insert w l i p q : l !! i = Some p -> total w (<[i := q]> l) = total w l - w p + w q.
Proof.
  revert i. induction l as [|x l IH]; intros [|i] Hi; try done; [injection Hi as ->; cbn; lia|].
  change (w x + total w (<[i := q]> l) = w x + total w l - w p + w q). rewrite (IH i Hi). lia.
Qed.

Lemma total_le w w' l : (forall p, w p <= w' p) -> total w l <= total w' l.
Proof. intros Hw. induction l as [|p l IH]; cbn; [done|]. specialize (Hw p). lia. Qed.

Lemma pending_step x y :
  step x y -> x.(count) = total present x.(sessions) /\ total kept x.(sessions) <= Z.max 0 max ->
  y.(count) = total present y.(sessions) /\ total kept y.(sessions) <= Z.max 0 max.
Proof.
  intros Hst [Hc Hk]. assert (Hle : total kept x.(sessions) <= total present x.(sessions)).
  { apply total_le. intros []; cbn; try case_match; lia. }
  destruct Hst; cbn [count sessions] in *; rewrite !(total_insert _ _ _ _ _ H); cbn.
  - split; [lia|]. case_match eqn:Hv; [apply Z.leb_le in Hv|]; lia.
  - split; [lia|]. rewrite (proj2 (Z.leb_le v max)) by done. lia.
  - split; [lia|]. rewrite (proj2 (Z.leb_gt v max)) by done. lia.
  - split; lia.
Qed.

(** However many sessions connect at once, at most the maximum are open
    that hold no credential yet, and the count is exact: the sessions that are
    taken and those about to know. *)
Theorem pending_bounded k x :
  0 <= max -> rtc step (mkState 0 (replicate k Idle)) x ->
  total taken x.(sessions) <= max /\ x.(count) = total present x.(sessions).
Proof.
  intros Hmax Hr.
  assert (H0 : forall w, w Idle = 0 -> total w (replicate k Idle) = 0).
  { intros w Hw. clear Hr. induction k as [|k IH]; cbn; [done|]. by rewrite Hw, IH. }
  assert (Hinv : x.(count) = total present x.(sessions) /\ total kept x.(sessions) <= Z.max 0 max).
  { revert Hr. apply (rtc_ind_r (fun x => x.(count) = total present x.(sessions) /\ total kept x.(sessions) <= Z.max 0 max)).
    - cbn. rewrite !H0 by done. lia.
    - intros y z _ Hst Hy. by eapply pending_step. }
  destruct Hinv as [Hc Hk]. split; [|done].
  assert (total taken x.(sessions) <= total kept x.(sessions)) by (apply total_le; intros []; cbn; try case_match; lia). lia.
Qed.
End Bound.

Lemma pending_bounded_witness :
  let x := mkState 1 [Taken; Over] in total taken x.(sessions) <= 1 /\ x.(count) = total present x.(sessions).
Proof.
  apply (pending_bounded 1 2 (mkState 1 [Taken; Over])); [done|].
  eapply rtc_l; [by apply (s_add 1 0)|]. eapply rtc_l; [by apply (s_add 1 1)|].
  eapply rtc_l; [by eapply (s_take 1 0)|]. eapply rtc_l; [by eapply (s_refuse 1 1)|]. apply rtc_refl.
Defined.
End Pending.

(** ** The ends shutdown waits for *)

Module Ends.

(** [pendingCount]: the channel is a number, and the closed ones are those below
    [opened] but perhaps the last. *)
Record pendingCount := mkCount { n : Z; zero : nat; zero_closed : bool }.

Definition new : pendingCount := mkCount 0 0 true.

Definition add (c : pendingCount) : pendingCount :=
  if c.(n) =? 0 then mkCount 1 (S c.(zero)) false else mkCount (c.(n) + 1) c.(zero) c.(zero_closed).

Definition done (c : pendingCount) : pendingCount :=
  if c.(n) - 1 =? 0 then mkCount 0 c.(zero) true else mkCount (c.(n) - 1) c.(zero) c.(zero_closed).

(** [wait], begun: [None] when there is nothing to wait for, else the channel. *)
Definition wait (c : pendingCount) : option nat := if c.(n) =? 0 then None else Some c.(zero).

(** Whether the channel a wait began on is closed. *)
Definition is_closed (z : nat) (c : pendingCount) : bool := (z <? c.(zero))%nat || ((z =? c.(zero))%nat && c.(zero_closed)).

Inductive op := Add | Done.

Definition apply_op (o : op) (c : pendingCount) : pendingCount := match o with Add => add c | Done => done c end.

(** The counts after each operation. *)
Fixpoint counts (l : list op) (c : pendingCount) : list Z :=
  match l with [] => [] | o :: l => (apply_op o c).(n) :: counts l (apply_op o c) end.

Definition after (l : list op) (c : pendingCount) : pendingCount := foldl (fun c o => apply_op o c) c l.

Definition count_ok (c : pendingCount) : Prop := 0 <= c.(n) /\ (c.(zero_closed) = true <-> c.(n) = 0).

Lemma apply_ok o c : count_ok c -> 0 <= (apply_op o c).(n) -> count_ok (apply_op o c).
Proof.
  unfold count_ok. intros [Hn Hz] Hp. split; [done|]. destruct o; cbn in *; unfold add, done in *.
  - destruct (Z.eqb_spec c.(n) 0); cbn; split; (discriminate || lia || intros Ht; apply Hz in Ht; lia).
  - destruct (Z.eqb_spec (c.(n) - 1) 0); cbn in *; [by split|]. split; [intros Ht; apply Hz in Ht; lia|lia].
Qed.

Lemma zero_mono o c : (c.(zero) <= (apply_op o c).(zero))%nat.
Proof. destruct o; cbn; unfold add, done; case_match; cbn; lia. Qed.

Lemma closed_stays l c z :
  count_ok c -> Forall (fun k => 0 <= k) (counts l c) -> is_closed z c = true -> is_closed z (after l c) = true.
Proof.
  revert c. induction l as [|o l IH]; intros c Hok Hl Hz; [done|]. cbn [counts after foldl] in *.
  apply Forall_cons in Hl as [Ho Hl]. apply IH; [by apply apply_ok|done|]. clear IH. unfold is_closed in *.
  apply orb_true_iff in Hz as [Hz|Hz].
  - apply Nat.ltb_lt in Hz. pose proof (zero_mono o c). rewrite (proj2 (Nat.ltb_lt z _)) by lia. done.
  - apply andb_true_iff in Hz as [Hz Hc]. apply Nat.eqb_eq in Hz. destruct Hok as [Hn Hzc]. apply Hzc in Hc as Hn0.
    destruct o; cbn [apply_op] in *; unfold add, done in *.
    + rewrite Hn0. change (0 =? 0) with true. cbn [zero zero_closed]. by rewrite (proj2 (Nat.ltb_lt z (S (zero c)))) by lia.
    + rewrite Hn0 in Ho. change (0 - 1 =? 0) with false in Ho. cbn [n] in Ho. lia.
Qed.

(** A wait ends when, and only when, the count was zero at some time since it
    began, work that came in meanwhile included. *)
Theorem wait_sees_zero l c z :
  count_ok c -> Forall (fun k => 0 <= k) (counts l c) -> wait c = Some z ->
  is_closed z (after l c) = bool_decide (0 ∈ counts l c).
Proof.
  revert c. induction l as [|o l IH]; intros c Hok Hl Hw; unfold wait in Hw; destruct (Z.eqb_spec c.(n) 0) as [|Hn]; try done; injection Hw as <-.
  - cbn. unfold is_closed. rewrite Nat.ltb_irrefl, Nat.eqb_refl. cbn. destruct (zero_closed c) eqn:Hz; [|done]. by apply Hok in Hz.
  - cbn [counts] in *. change (after (o :: l) c) with (after l (apply_op o c)). apply Forall_cons in Hl as [Ho Hl].
    assert (Hsame : zero (apply_op o c) = zero c).
    { destruct o; cbn; unfold add, done; [by rewrite (proj2 (Z.eqb_neq _ _) Hn)|by case_match]. }
    destruct (decide ((apply_op o c).(n) = 0)) as [H0|H0].
    + rewrite bool_decide_true by (rewrite H0; by left). apply closed_stays; [by apply apply_ok|done|].
      unfold is_closed. rewrite Hsame, Nat.eqb_refl. cbn.
      destruct (proj2 (apply_ok o c Hok Ho)) as [_ Hz]. rewrite (Hz H0). apply orb_true_r.
    + rewrite (IH (apply_op o c) (apply_ok o c Hok Ho) Hl).
      * apply bool_decide_ext. rewrite elem_of_cons. naive_solver.
      * unfold wait. by rewrite (proj2 (Z.eqb_neq _ _) H0), Hsame.
Qed.

Lemma wait_sees_zero_witness :
  is_closed 1 (after [Add; Done; Done; Add] (mkCount 1 1 false)) = bool_decide (0 ∈ counts [Add; Done; Done; Add] (mkCount 1 1 false)).
Proof.
  apply (wait_sees_zero [Add; Done; Done; Add] (mkCount 1 1 false) 1); [by repeat split| |reflexivity].
  repeat constructor; by vm_compute.
Defined.
End Ends.

(** ** The dialed peers: [ConnectPeers], [maintainPeer] *)

Module Dialed.

(** Where a peer's loop is: about to dial; with a session; waiting, after a dial that
    failed, for the delay its backoff chose; after a session, about to dial again;
    returned from [maintainPeer]. *)
Inductive phase := Dialing | Serving | Waiting (delay : Duration) | Redialing | Returned.

Record peer := mkPeer { addr : string; ph : phase; tries : Z }.

Record state := mkState { connected : gset string; peerSessions : gset string; loops : list peer }.

Definition start : state := mkState ∅ ∅ [].

Definition delay_of (tries : Z) : Duration := base_delay (mkBackoff Second (30 * Second) 0 tries).

(** What one loop does: its next state, whether it holds a session from then on
    ([None]: as before). The context can end it wherever it waits or is about to
    dial. *)
Inductive turn : peer -> peer -> option bool -> Prop :=
| t_over a p k : p = Dialing \/ p = Redialing \/ (exists d, p = Waiting d) -> turn (mkPeer a p k) (mkPeer a Returned k) None
| t_fail a p k : p = Dialing \/ p = Redialing -> turn (mkPeer a p k) (mkPeer a (Waiting (delay_of k)) (k + 1)) None
| t_self a p k : p = Dialing \/ p = Redialing -> turn (mkPeer a p k) (mkPeer a Returned 0) None
| t_session a p k : p = Dialing \/ p = Redialing -> turn (mkPeer a p k) (mkPeer a Serving 0) (Some true)
| t_lost a k : turn (mkPeer a Serving k) (mkPeer a Redialing k) (Some false)
| t_waited a d k : turn (mkPeer a (Waiting d) k) (mkPeer a Dialing k) None.

Definition setPeerSession (a : string) (held : option bool) (s : gset string) : gset string :=
  match held with None => s | Some true => {[a]} ∪ s | Some false => s ∖ {[a]} end.

Inductive step : state -> state -> Prop :=
| d_dial a c ps l : a ∉ c -> step (mkState c ps l) (mkState ({[a]} ∪ c) ps (l ++ [mkPeer a Dialing 0]))
| d_turn c ps l1 p p' held l2 :
    turn p p' held -> step (mkState c ps (l1 ++ p :: l2)) (mkState c (setPeerSession p.(addr) held ps) (l1 ++ p' :: l2))
| d_unmark c ps l1 p l2 :
    p.(ph) = Returned -> step (mkState c ps (l1 ++ p :: l2)) (mkState (c ∖ {[p.(addr)]}) ps (l1 ++ l2)).

Definition peer_ok (p : peer) : Prop :=
  0 <= p.(tries) /\ match p.(ph) with Waiting d => Second <= d <= 30 * Second | _ => True end.

Record inv (x : state) : Prop := {
  i_once : NoDup (addr <$> x.(loops));
  i_connected a : a ∈ x.(connected) <-> a ∈ addr <$> x.(loops);
  i_sessions a : a ∈ x.(peerSessions) <-> exists p, p ∈ x.(loops) /\ p.(addr) = a /\ p.(ph) = Serving;
  i_peers : Forall peer_ok x.(loops)
}.

Lemma turn_addr p p' held : turn p p' held -> p'.(addr) = p.(addr).
Proof. by destruct 1. Qed.

(** A loop says that it holds a session exactly while it does. *)
Lemma turn_held p p' held :
  turn p p' held ->
  (p'.(ph) = Serving <-> held = Some true) /\ (p.(ph) = Serving <-> held = Some false).
Proof. destruct 1; cbn; (split; split); intros; destruct_or?; naive_solver. Qed.

Lemma turn_ok p p' held : turn p p' held -> peer_ok p -> peer_ok p'.
Proof.
  intros Ht [Hk Hp]. destruct Ht; cbn in *; (split; cbn; [lia|try done]).
  unfold delay_of. destruct (backoff_doubles (mkBackoff Second (30 * Second) 0 0) k) as (_ & Hb & _); cbn; unfold Second; try lia. exact Hb.
Qed.

Lemma others_serving l1 l2 p a :
  NoDup (addr <$> l1 ++ p :: l2) ->
  (exists q, q ∈ l1 ++ p :: l2 /\ q.(addr) = a /\ q.(ph) = Serving) <->
  (a <> p.(addr) /\ exists q, q ∈ l1 ++ l2 /\ q.(addr) = a /\ q.(ph) = Serving) \/ (a = p.(addr) /\ p.(ph) = Serving).
Proof.
  intros Hnd. rewrite fmap_app, fmap_cons in Hnd. apply NoDup_app in Hnd as (_ & Hno & [Hp _]%NoDup_cons).
  assert (Hother : forall q, q ∈ l1 ++ l2 -> q.(addr) <> p.(addr)).
  { intros q [Hq|Hq]%elem_of_app Heq.
    - apply (Hno (addr q)); [by apply list_elem_of_fmap_2|]. rewrite Heq. by left.
    - apply Hp. rewrite <- Heq. by apply list_elem_of_fmap_2. }
  setoid_rewrite elem_of_app. setoid_rewrite elem_of_cons. setoid_rewrite elem_of_app in Hother. split.
  - intros (q & Hq & <- & Hs). destruct Hq as [Hq|[->|Hq]]; [left|by right|left]; (split; [apply Hother; auto|]); exists q; auto.
  - intros [(_ & q & [Hq|Hq] & Ha & Hs)|[-> Hs]]; [exists q; auto..|exists p; auto].
Qed.

Lemma dialed_step x y : step x y -> inv x -> inv y.
Proof.
  destruct 1 as [a c ps l Ha|c ps l1 p p' held l2 Ht|c ps l1 p l2 Hp]; intros [H1 H2 H3 H4]; cbn [connected peerSessions loops] in *.
  - constructor; cbn [connected peerSessions loops]; rewrite ?fmap_app; cbn.
    + apply NoDup_app. split; [done|]. split; [|apply NoDup_singleton]. intros b Hb Heq%list_elem_of_singleton. subst b. by apply Ha, H2.
    + intros b. rewrite elem_of_union, elem_of_singleton, elem_of_app, list_elem_of_singleton, H2. tauto.
    + intros b. rewrite H3. setoid_rewrite elem_of_app. setoid_rewrite list_elem_of_singleton. split.
      * intros (q & Hq & Hr). exists q. auto.
      * intros (q & [Hq| ->] & Hr); [by exists q|]. by destruct Hr.
    + apply Forall_app. split; [done|]. constructor; [done|constructor].
  - pose proof (turn_addr _ _ _ Ht) as Hadr. destruct (turn_held _ _ _ Ht) as [Hto Hfrom].
    assert (Hmap : addr <$> l1 ++ p' :: l2 = addr <$> l1 ++ p :: l2) by (by rewrite !fmap_app, !fmap_cons, Hadr).
    constructor; cbn [connected peerSessions loops]; [by rewrite Hmap|intros a; by rewrite Hmap| |].
    + intros a. specialize (H3 a). rewrite (others_serving _ _ _ _ H1) in H3.
      rewrite (others_serving l1 l2 p' a) by (by rewrite Hmap). rewrite Hadr, Hto.
      destruct held as [[]|]; cbn [setPeerSession]; rewrite ?elem_of_union, ?elem_of_difference, ?elem_of_singleton, H3, Hfrom;
        destruct (decide (a = addr p)); naive_solver.
    + apply Forall_app in H4 as [H4 [Hpo H5]%Forall_cons]. apply Forall_app. split; [done|]. constructor; [by eapply turn_ok|done].
  - pose proof H1 as H1'. rewrite fmap_app, fmap_cons in H1'. apply NoDup_app in H1' as (Hn1 & Hno & [Hnp Hn2]%NoDup_cons).
    assert (Hsub : forall b, b ∈ addr <$> l1 ++ l2 <-> b ∈ addr <$> l1 ++ p :: l2 /\ b <> addr p).
    { intros b. rewrite !fmap_app, fmap_cons, !elem_of_app, elem_of_cons. split; [|naive_solver].
      intros [Hb|Hb]; (split; [auto|]); intros ->; [|done]. apply (Hno _ Hb). by left. }
    constructor; cbn [connected peerSessions loops].
    + rewrite fmap_app. apply NoDup_app. split_and!; [done| |done]. intros b Hb Hb'. apply (Hno b Hb). by right.
    + intros b. by rewrite elem_of_difference, elem_of_singleton, H2, Hsub.
    + intros b. rewrite H3, (others_serving _ _ _ _ H1), Hp. split; [naive_solver|]. intros (q & Hq & Hqa & Hqs). left.
      split; [|by exists q]. assert (Hb : b ∈ addr <$> l1 ++ l2) by (rewrite <- Hqa; by apply list_elem_of_fmap_2). by apply Hsub in Hb as [_ ?].
    + apply Forall_app in H4 as [H4 [_ H5]%Forall_cons]. by apply Forall_app.
Qed.

(** Each peer is dialed by one loop. However the peers are resolved and the
    dials and sessions go, at most one loop maintains an address, which is marked
    connected exactly while one does; the relay reports a session to it exactly while
    the loop holds one; and what a loop waits after a failed dial is, the jitter
    apart, between the backoff's base and its cap. *)
Theorem peers_dialed_once x :
  rtc step start x ->
  NoDup (addr <$> x.(loops)) /\ (forall a, a ∈ x.(connected) <-> a ∈ addr <$> x.(loops)) /\
  (forall a, a ∈ x.(peerSessions) <-> exists p, p ∈ x.(loops) /\ p.(addr) = a /\ p.(ph) = Serving) /\
  (forall p d, p ∈ x.(loops) -> p.(ph) = Waiting d -> Second <= d <= 30 * Second).
Proof.
  intros Hr. assert (Hi : inv x).
  { revert Hr. apply (rtc_ind_r inv).
    - constructor; cbn; [constructor|set_solver| |constructor]. intros a. split; [set_solver|]. by intros (p & Hp%not_elem_of_nil & _).
    - intros y z _ Hst Hy. by eapply dialed_step. }
  destruct Hi as [H1 H2 H3 H4]. split_and!; auto. intros p d Hp Hd. rewrite Forall_forall in H4.
  destruct (H4 p Hp) as [_ Hw]. by rewrite Hd in Hw.
Qed.

Lemma peers_dialed_once_witness :
  let x := mkState ({["hub:4433"]} ∪ ∅) ({["hub:4433"]} ∪ ∅) [mkPeer "hub:4433" Serving 0] in
  NoDup (addr <$> x.(loops)) /\ (forall a, a ∈ x.(connected) <-> a ∈ addr <$> x.(loops)) /\
  (forall a, a ∈ x.(peerSessions) <-> exists p, p ∈ x.(loops) /\ p.(addr) = a /\ p.(ph) = Serving) /\
  (forall p d, p ∈ x.(loops) -> p.(ph) = Waiting d -> Second <= d <= 30 * Second).
Proof.
  apply (peers_dialed_once (mkState ({["hub:4433"]} ∪ ∅) ({["hub:4433"]} ∪ ∅) [mkPeer "hub:4433" Serving 0])).
  eapply rtc_l; [by apply (d_dial "hub:4433")|].
  eapply rtc_l; [eapply (d_turn _ _ [] _ _ _ []); apply t_fail; by left|].
  eapply rtc_l; [eapply (d_turn _ _ [] _ _ _ []); apply t_waited|].
  eapply rtc_l; [eapply (d_turn _ _ [] _ _ _ []); apply t_session; by left|]. apply rtc_refl.
Defined.
End Dialed.
