(* ===== verification/Distributor.v ===== *)
(** * Distributor: from the upstream subscription into the ring

    The goroutines of one track in src/internal/relay/handler.go:
    [trackDistributor.ingest] with [processGroup], the pool of [fillWorker]s and
    the forwarder of upstream drops, over the ring of groups (GroupRing.v) and
    the ring of drops (Drops.v). One step is one action on shared state: a
    channel operation, an operation of the ring, a read of a frame, a notify.

    The subscription (moqt's TrackReader) is the environment: which group or
    error AcceptGroup returns, which frame or end a group yields, which drops
    arrive. The readers of the ring are steps of their own; the joint machine at
    the end runs a subscriber's egress (Egress.v) beside the distributor.
    Metrics, logs and the stage stamps are left out. *)
From stdpp Require Import gmultiset.
From Stdlib Require Import Sorted.
From S2P Require Import Prelude GroupRing Drops Egress.
Import Spans.

Open Scope Z_scope.
#[local] Arguments disj_union : simpl never.
#[local] Arguments difference : simpl never.
#[local] Arguments union : simpl never.

(** ** State *)

(** fillJob: the cache reserved for a group, and the group, counted from 1 in
    the order the groups are accepted. *)
Abbreviation job := (cid * Z)%type (only parsing).

(** Where ingest is: at AcceptGroup; in processGroup with group [s] accepted, at
    the select on fillSem, at reserve, at the send on fillJobs; in the deferred
    closure, at its actions in order; at the deferred remove; gone. A send on a
    closed channel, or closing it twice, panics. *)
Inductive ipc :=
| Accept | Acquire (s : Z) | Reserving (s : Z) | Sending (j : job)
| CloseJobs | ReadCtx | CloseFirst | WaitFills (drained : bool) | CloseLast | WaitDrops | CloseDone
| Remove | Gone | IngestPanic.

(** Where a fill worker is: at the receive from fillJobs; in fill, taking its
    buffer, reading a frame, appending the frame [p] it read, notifying; at
    markComplete, the last notify, decrRef and the buffer's return; at the
    receive from fillSem; returned. *)
Inductive wpc :=
| Recv | TakeBuf (j : job) | Read (j : job) (b : fid) | Append (j : job) (b : fid) (p : list Z) | Tell (j : job) (b : fid)
| Finish (j : job) (b : fid) | TellLast (j : job) (b : fid) | Decr (j : job) (b : fid) | PutBuf (b : fid) | Free | Exited.

(** The goroutine that ranges over src.Drops. *)
Inductive dpc := Receive | Announce | Over.

(** The ring with its users, the broadcast's sequence, [done], the ring of
    drops, fillSem's tokens, fillJobs, the goroutines, whether the handler's
    context ended and whether the subscription is closed. The others are records
    of what happened: the groups reserved, every drop, the head and the drops at
    the last notify, the frames read of each group, and the groups completed. *)
Record dist := mkD {
  z : sys * gset fid;
  nseq : Z;
  done : bool;
  ddrops : Ring.dropDistributor;
  sem : nat;
  jobs : list job;
  jobsClosed : bool;
  ing : ipc;
  workers : list wpc;
  dropper : dpc;
  ctxDone : bool;
  srcClosed : bool;
  gs : list Z;
  hist : list SubscribeDrop;
  nhead : Z;
  ndrops : Z;
  read : gmap Z (list (list Z));
  fin : gset Z
}.

Definition dring (d : dist) : ring := d.(z).1.(st).
Definition dheld (d : dist) : gmultiset cid := d.(z).1.(held).

Definition with_z (v : sys * gset fid) (d : dist) : dist :=
  mkD v d.(nseq) d.(done) d.(ddrops) d.(sem) d.(jobs) d.(jobsClosed) d.(ing) d.(workers) d.(dropper) d.(ctxDone) d.(srcClosed)
      d.(gs) d.(hist) d.(nhead) d.(ndrops) d.(read) d.(fin).
Definition with_ring (r : ring) (d : dist) : dist := with_z (mkSys r (dheld d), d.(z).2) d.
Definition with_ing (p : ipc) (d : dist) : dist :=
  mkD d.(z) d.(nseq) d.(done) d.(ddrops) d.(sem) d.(jobs) d.(jobsClosed) p d.(workers) d.(dropper) d.(ctxDone) d.(srcClosed)
      d.(gs) d.(hist) d.(nhead) d.(ndrops) d.(read) d.(fin).
Definition with_worker (i : nat) (p : wpc) (d : dist) : dist :=
  mkD d.(z) d.(nseq) d.(done) d.(ddrops) d.(sem) d.(jobs) d.(jobsClosed) d.(ing) (<[i := p]> d.(workers)) d.(dropper) d.(ctxDone)
      d.(srcClosed) d.(gs) d.(hist) d.(nhead) d.(ndrops) d.(read) d.(fin).
Definition with_dropper (p : dpc) (d : dist) : dist :=
  mkD d.(z) d.(nseq) d.(done) d.(ddrops) d.(sem) d.(jobs) d.(jobsClosed) d.(ing) d.(workers) p d.(ctxDone) d.(srcClosed)
      d.(gs) d.(hist) d.(nhead) d.(ndrops) d.(read) d.(fin).
Definition with_chans (n : nat) (js : list job) (cl : bool) (d : dist) : dist :=
  mkD d.(z) d.(nseq) d.(done) d.(ddrops) n js cl d.(ing) d.(workers) d.(dropper) d.(ctxDone) d.(srcClosed)
      d.(gs) d.(hist) d.(nhead) d.(ndrops) d.(read) d.(fin).
Definition with_ends (dn cx sc : bool) (d : dist) : dist :=
  mkD d.(z) d.(nseq) dn d.(ddrops) d.(sem) d.(jobs) d.(jobsClosed) d.(ing) d.(workers) d.(dropper) cx sc
      d.(gs) d.(hist) d.(nhead) d.(ndrops) d.(read) d.(fin).
Definition with_read (m : gmap Z (list (list Z))) (f : gset Z) (d : dist) : dist :=
  mkD d.(z) d.(nseq) d.(done) d.(ddrops) d.(sem) d.(jobs) d.(jobsClosed) d.(ing) d.(workers) d.(dropper) d.(ctxDone) d.(srcClosed)
      d.(gs) d.(hist) d.(nhead) d.(ndrops) m f.

(** ** Operations *)

(** newTrackDistributor with the ring's size and MaxGroupFillsInFlight, which
    panics when that is less than 1. *)
Definition newTrackDistributor (cacheSize fills : nat) : option dist :=
  if decide (fills < 1)%nat then None
  else Some (mkD (init cacheSize, ∅) 0 false (Ring.newDropDistributor dropRingSize) 0 [] false Accept (replicate fills Recv) Receive
                 false false [] [] 0 0 ∅ ∅).

(** broadcast. *)
Definition broadcast (d : dist) : dist :=
  mkD d.(z) (d.(nseq) + 1) d.(done) d.(ddrops) d.(sem) d.(jobs) d.(jobsClosed) d.(ing) d.(workers) d.(dropper) d.(ctxDone)
      d.(srcClosed) d.(gs) d.(hist) (head (dring d)) (Z.of_nat (length d.(hist))) d.(read) d.(fin).

(** The reserve of processGroup: the filler's reference comes with the cache. *)
Definition reserve_group (s : Z) (ch : option cid) (d : dist) : job * dist :=
  let '(c, r') := reserve s ch (dring d) in
  ((c, Z.of_nat (length d.(gs)) + 1),
   mkD (mkSys r' ({[+ c +]} ⊎ dheld d), d.(z).2) d.(nseq) d.(done) d.(ddrops) d.(sem) d.(jobs) d.(jobsClosed) d.(ing)
       d.(workers) d.(dropper) d.(ctxDone) d.(srcClosed) (d.(gs) ++ [s]) d.(hist) d.(nhead) d.(ndrops) d.(read) d.(fin)).

Definition record_drop (x : SubscribeDrop) (d : dist) : dist :=
  mkD d.(z) d.(nseq) d.(done) (Ring.record x d.(ddrops)) d.(sem) d.(jobs) d.(jobsClosed) d.(ing) d.(workers) d.(dropper)
      d.(ctxDone) d.(srcClosed) d.(gs) (d.(hist) ++ [x]) d.(nhead) d.(ndrops) d.(read) d.(fin).

Definition is_exited (p : wpc) : bool := match p with Exited => true | _ => false end.

(** One action of ingest. [o] is what AcceptGroup returns, [viaCtx] the case of
    the select on fillSem, [ch] the cache the pool hands out. [None] while the
    action blocks. *)
Definition ingest (o : option Z) (viaCtx : bool) (ch : option cid) (d : dist) : option dist :=
  match d.(ing) with
  | Accept => Some (with_ing (match o with Some s => Acquire s | None => CloseJobs end) d)
  | Acquire s =>
      if viaCtx then if d.(ctxDone) then Some (with_ing CloseJobs d) else None
      else if decide (d.(sem) < length d.(workers))%nat
      then Some (with_ing (Reserving s) (with_chans (S d.(sem)) d.(jobs) d.(jobsClosed) d)) else None
  | Reserving s => let '(j, d') := reserve_group s ch d in Some (with_ing (Sending j) d')
  | Sending j =>
      if d.(jobsClosed) then Some (with_ing IngestPanic d)
      else if decide (length d.(jobs) < length d.(workers))%nat
      then Some (with_ing Accept (with_chans d.(sem) (d.(jobs) ++ [j]) false d)) else None
  | CloseJobs =>
      if d.(jobsClosed) then Some (with_ing IngestPanic d)
      else Some (with_ing ReadCtx (with_chans d.(sem) d.(jobs) true d))
  | ReadCtx => Some (with_ing (if d.(ctxDone) then CloseFirst else WaitFills false) d)
  | CloseFirst => Some (with_ing (WaitFills true) (with_ends d.(done) d.(ctxDone) true d))
  | WaitFills drained =>
      if forallb is_exited d.(workers) then Some (with_ing (if drained then WaitDrops else CloseLast) d) else None
  | CloseLast => Some (with_ing WaitDrops (with_ends d.(done) d.(ctxDone) true d))
  | WaitDrops => match d.(dropper) with Over => Some (with_ing CloseDone d) | _ => None end
  | CloseDone =>
      if d.(done) then Some (with_ing IngestPanic d)
      else Some (with_ing Remove (with_ends true d.(ctxDone) d.(srcClosed) d))
  | Remove => Some (with_ing Gone d)
  | Gone | IngestPanic => None
  end.

(** One action of worker [i]. [o] is what the group yields, a frame or its end,
    and [ch] the frame the pool hands out. *)
Definition fillWorker (i : nat) (o : option (list Z)) (ch : option fid) (d : dist) : option dist :=
  let r := dring d in
  match d.(workers) !! i with
  | Some Recv =>
      match d.(jobs) with
      | j :: js => Some (with_worker i (TakeBuf j) (with_chans d.(sem) js d.(jobsClosed) d))
      | [] => if d.(jobsClosed) then Some (with_worker i Exited d) else None
      end
  | Some (TakeBuf j) =>
      let '(b, r') := pool_Get ch r in
      Some (with_worker i (Read j b) (with_z (mkSys r' (dheld d), {[b]} ∪ d.(z).2) d))
  | Some (Read j b) =>
      match o with
      | Some p => Some (with_worker i (Append j b p) (with_ring (set_frames r (<[b := p]> r.(frames)) r.(framePool)) d))
      | None => Some (with_worker i (Finish j b) d)
      end
  | Some (Append j b p) =>
      Some (with_worker i (Tell j b)
             (with_read (<[j.2 := default [] (d.(read) !! j.2) ++ [p]]> d.(read)) d.(fin)
               (with_ring (append j.1 (default [] (r.(frames) !! b)) ch r) d)))
  | Some (Tell j b) => Some (with_worker i (Read j b) (broadcast d))
  | Some (Finish j b) =>
      Some (with_worker i (TellLast j b) (with_read d.(read) ({[j.2]} ∪ d.(fin)) (with_ring (complete_cache j.1 r) d)))
  | Some (TellLast j b) => Some (with_worker i (Decr j b) (broadcast d))
  | Some (Decr j b) =>
      Some (with_worker i (PutBuf b) (with_z (mkSys (decrRef j.1 r) (dheld d ∖ {[+ j.1 +]}), d.(z).2) d))
  | Some (PutBuf b) =>
      Some (with_worker i Free (with_z (mkSys (pool_Put b r) (dheld d), d.(z).2 ∖ {[b]}) d))
  | Some Free =>
      match d.(sem) with
      | S n => Some (with_worker i Recv (with_chans n d.(jobs) d.(jobsClosed) d))
      | O => None
      end
  | Some Exited | None => None
  end.

(** One action of the drop forwarder. [o] is what src.Drops yields, a drop or
    its end. *)
Definition forwardDrops (o : option SubscribeDrop) (d : dist) : option dist :=
  match d.(dropper) with
  | Receive => Some (match o with Some x => with_dropper Announce (record_drop x d) | None => with_dropper Over d end)
  | Announce => Some (with_dropper Receive (broadcast d))
  | Over => None
  end.

(** Who acts. *)
Inductive label :=
| LIngest (o : option Z) (viaCtx : bool) (ch : option cid)
| LWorker (i : nat) (o : option (list Z)) (ch : option fid)
| LDrop (o : option SubscribeDrop)
| LCtx.

Definition step (l : label) (d : dist) : option dist :=
  match l with
  | LIngest o v ch => ingest o v ch d
  | LWorker i o ch => fillWorker i o ch d
  | LDrop o => forwardDrops o d
  | LCtx => Some (with_ends d.(done) true d.(srcClosed) d)
  end.

(** Sequence numbers are moqt's, and no track lives to wrap a counter. *)
Definition label_ok (l : label) (d : dist) : Prop :=
  match l with
  | LIngest o _ _ =>
      (forall s, o = Some s -> seq_ok s) /\ (dring d).(GroupRing.rpos) + 1 < 2 ^ 64
  | LDrop (Some x) => drop_ok x /\ Z.of_nat (length d.(hist)) + 1 < 2 ^ 64
  | _ => True
  end.

(** ** The references the distributor holds *)

Definition ijob (p : ipc) : option job := match p with Sending j => Some j | _ => None end.
(** A worker's job while it holds the cache, and while the group is not complete. *)
Definition wjob (p : wpc) : option job :=
  match p with
  | TakeBuf j | Read j _ | Append j _ _ | Tell j _ | Finish j _ | TellLast j _ | Decr j _ => Some j
  | _ => None
  end.
Definition wopen (p : wpc) : option job :=
  match p with TakeBuf j | Read j _ | Append j _ _ | Tell j _ | Finish j _ => Some j | _ => None end.
(** Its job until the last notify, and its buffer. *)
Definition wuntold (p : wpc) : option job :=
  match p with TakeBuf j | Read j _ | Append j _ _ | Tell j _ | Finish j _ | TellLast j _ => Some j | _ => None end.
Definition wbuf (p : wpc) : option fid :=
  match p with
  | Read _ b | Append _ b _ | Tell _ b | Finish _ b | TellLast _ b | Decr _ b | PutBuf b => Some b
  | _ => None
  end.
Definition busy (p : wpc) : option unit := match p with Recv | Exited => None | _ => Some tt end.

Definition jobs_of (f : wpc -> option job) (d : dist) : list job :=
  option_list (ijob d.(ing)) ++ d.(jobs) ++ omap f d.(workers).
Definition pending : dist -> list job := jobs_of wjob.
Definition unfinished : dist -> list job := jobs_of wopen.
Definition untold : dist -> list job := jobs_of wuntold.
Definition own (d : dist) : gmultiset cid := list_to_set_disj (pending d).*1.

(** The ring's readers: [get], and the release of a reference of their own. *)
Inductive reader (d : dist) : dist -> Prop :=
| reader_get p c r' : get p (dring d) = (Some c, r') ->
    reader d (with_z (mkSys r' ({[+ c +]} ⊎ dheld d), d.(z).2) d)
| reader_decr c : c ∈ dheld d ∖ own d ->
    reader d (with_z (mkSys (decrRef c (dring d)) (dheld d ∖ {[+ c +]}), d.(z).2) d).

Inductive dstep (d d' : dist) : Prop :=
| dstep_own l : step l d = Some d' -> label_ok l d -> dstep d d'
| dstep_reader : reader d d' -> dstep d d'.

(** ** What the caches hold *)

(** The frames stored in a cache, in order. *)
Definition payloads (r : ring) (gc : groupCache) : list (list Z) := (fun f => default [] (r.(frames) !! f)) <$> stored gc.

(** Every live cache of [r'] but [x] was live in [r], at the same position and
    with the same frames. *)
Definition keeps (x : option cid) (r r' : ring) : Prop :=
  forall c gc', x <> Some c -> r'.(heap) !! c = Some gc' -> gc'.(released) = false ->
    exists gc, r.(heap) !! c = Some gc /\ gc.(released) = false /\ gc'.(pos) = gc.(pos) /\ gc'.(complete) = gc.(complete) /\
      payloads r' gc' = payloads r gc.

Lemma keeps_refl x r : keeps x r r.
Proof. intros c gc' _ Hc Hr. by exists gc'. Qed.

Lemma keeps_trans x r1 r2 r3 : keeps x r1 r2 -> keeps x r2 r3 -> keeps x r1 r3.
Proof.
  intros H12 H23 c gc3 Hx Hc3 Hr3. destruct (H23 _ _ Hx Hc3 Hr3) as (gc2 & Hc2 & Hr2 & ? & ? & ?).
  destruct (H12 _ _ Hx Hc2 Hr2) as (gc1 & ? & ? & ? & ? & ?). exists gc1. repeat split; congruence.
Qed.

Lemma keeps_put x r c gc gc' :
  r.(heap) !! c = Some gc -> gc'.(pos) = gc.(pos) -> gc'.(complete) = gc.(complete) -> stored gc' = stored gc ->
  (gc'.(released) = false -> gc.(released) = false) -> keeps x r (put_cache r c gc').
Proof.
  intros Hc ? ? Hs Hr c' g _ Hg Hgr. cbn in Hg. destruct (decide (c' = c)) as [->|Hne].
  - rewrite lookup_insert_eq in Hg. injection Hg as <-. exists gc. unfold payloads. rewrite Hs. auto.
  - rewrite lookup_insert_ne in Hg by done. by exists g.
Qed.

Lemma payloads_same r r' gc :
  (forall f, f ∈ stored gc -> r'.(frames) !! f = r.(frames) !! f) -> payloads r' gc = payloads r gc.
Proof. intros H. apply list_fmap_ext. intros i f Hf%list_elem_of_lookup_2. by rewrite H. Qed.

(** A frame no live cache stores may change. *)
Lemma keeps_frames x r fs p :
  (forall c gc f, r.(heap) !! c = Some gc -> f ∈ stored gc -> fs !! f = r.(frames) !! f) ->
  keeps x r (set_frames r fs p).
Proof. intros H c gc _ Hc Hr. exists gc. repeat split; try done. apply payloads_same. intros f Hf. by eapply H. Qed.

Lemma stored_owned r c gc f : r.(heap) !! c = Some gc -> f ∈ stored gc -> exists i, owned r f c i.
Proof. intros Hc [i Hi]%elem_of_stored. exists i. by exists gc. Qed.

(** A frame of a filler's buffers, or of the pool, is stored in no cache. *)
Lemma keeps_write x r b f p pl :
  frames_inv r b -> f ∈ b \/ f ∈ r.(framePool) \/ f ∉ dom r.(frames) -> keeps x r (set_frames r (<[f := p]> r.(frames)) pl).
Proof.
  intros Hf Hb. apply keeps_frames. intros c gc g Hc [i Hi]%(stored_owned _ _ _ _ Hc).
  destruct (fi_own _ _ Hf _ _ _ Hi) as (? & ? & ?). rewrite lookup_insert_ne; [done|]. intros ->. tauto.
Qed.

Lemma keeps_release x r c : keeps x r (releaseCache c r).
Proof.
  destruct (heap r !! c) as [gc|] eqn:Hc; [|unfold releaseCache; rewrite Hc; apply keeps_refl].
  destruct (released gc) eqn:Hr; [unfold releaseCache; rewrite Hc, Hr; apply keeps_refl|].
  rewrite (releaseCache_eq _ _ _ Hc Hr). intros c' g _ Hg Hgr. cbn in Hg. destruct (decide (c' = c)) as [->|Hne].
  - rewrite lookup_insert_eq in Hg. injection Hg as <-. done.
  - rewrite lookup_insert_ne in Hg by done. by exists g.
Qed.

Lemma keeps_decrRef x r c : keeps x r (decrRef c r).
Proof.
  unfold decrRef. destruct (heap r !! c) as [gc|] eqn:Hc; [|apply keeps_refl]. cbv zeta.
  assert (Hk : keeps x r (put_cache r c (add_ref (-1) gc))) by (by apply (keeps_put x r c gc)).
  case_match; [|done]. eapply keeps_trans; [exact Hk|apply keeps_release].
Qed.

Lemma keeps_evict x r c : keeps x r (markEvictedLocked c r).
Proof.
  unfold markEvictedLocked. destruct (heap r !! c) as [gc|] eqn:Hc; [|apply keeps_refl]. cbv zeta.
  match goal with |- keeps _ _ (if _ then releaseCache c ?r1 else _) => assert (Hk : keeps x r r1) by (by apply (keeps_put x r c gc)) end.
  case_match; [|done]. eapply keeps_trans; [exact Hk|apply keeps_release].
Qed.

Lemma keeps_get x p r o r' : get p r = (o, r') -> keeps x r r'.
Proof.
  unfold get. intros H. repeat case_match; simplify_eq; try apply keeps_refl. eapply keeps_put; [eassumption|done..].
Qed.

Lemma keeps_take x r b ch f r' : frames_inv r b -> pool_Get ch r = (f, r') -> keeps x r r'.
Proof. intros Hf [Hn ->]%pool_Get_spec. eapply keeps_write; [exact Hf|tauto]. Qed.

Lemma keeps_append r b c p ch : frames_inv r b -> keeps (Some c) r (append c p ch r).
Proof.
  intros Hf. unfold append. destruct (heap r !! c) as [gc|] eqn:Hc; [|apply keeps_refl]. case_decide; [apply keeps_refl|].
  destruct (pool_Get ch r) as [f r1] eqn:Hg. pose proof (keeps_take (Some c) _ _ _ _ _ Hf Hg) as Hk.
  apply pool_Get_spec in Hg as [Hn ->]. cbn in *. eapply keeps_trans; [eapply (keeps_write _ _ b f p (framePool r ∖ {[f]})); [exact Hf|tauto]|].
  intros c' g Hx Hg Hr. cbn in Hg. rewrite lookup_insert_ne in Hg by congruence. exists g. repeat split; try done.
  cbn. apply payloads_same. intros g' _. cbn. by rewrite insert_insert_eq.
Qed.

Lemma stored_length gc : slots_ok gc -> length (stored gc) = gc.(count).
Proof.
  intros (Hl & Hc & Hs & _). unfold stored. rewrite <- (length_take_le gc.(slots) gc.(count)) at 2 by lia.
  assert (Hall : Forall (fun o : option fid => is_Some o) (take (count gc) (slots gc))).
  { apply Forall_forall. intros o (i & Hi)%list_elem_of_lookup. apply lookup_take_Some in Hi as [Hi Hlt].
    destruct (Hs i Hlt) as [f Hf]. rewrite Hf in Hi. injection Hi as <-. eauto. }
  clear -Hall. induction Hall as [|o l [f ->] _ IH]; [done|]. cbn. by f_equal.
Qed.

Lemma stored_store gc f :
  slots_ok gc -> (gc.(count) < MaxFramesPerGroup)%nat -> stored (store_slot gc f) = stored gc ++ [f].
Proof.
  intros (Hl & Hc & Hs & _) Hlt. unfold stored. cbn [count slots store_slot].
  rewrite (take_S_r _ _ (Some f)) by (apply list_lookup_insert_eq; lia). rewrite omap_app. cbn. f_equal.
  by rewrite take_insert_ge by lia.
Qed.

(** [append] stores the frame unless the group is full. *)
Lemma append_content r b c gc l p ch :
  frames_inv r b -> r.(heap) !! c = Some gc -> slots_ok gc -> payloads r gc = take MaxFramesPerGroup l ->
  exists gc', (append c p ch r).(heap) !! c = Some gc' /\ gc'.(released) = gc.(released) /\ gc'.(pos) = gc.(pos) /\
    gc'.(complete) = gc.(complete) /\ payloads (append c p ch r) gc' = take MaxFramesPerGroup (l ++ [p]).
Proof.
  intros Hf Hc Hs Hl. pose proof (stored_length _ Hs) as Hlen. pose proof (f_equal length Hl) as Hll.
  unfold payloads in Hll. rewrite length_fmap, length_take, Hlen in Hll. unfold append. rewrite Hc. case_decide as Hfull.
  - exists gc. repeat split; try done. rewrite Hl, take_app_le; [done|]. destruct Hs as (_ & ? & _). lia.
  - destruct (pool_Get ch r) as [f r1] eqn:Hg. apply pool_Get_spec in Hg as [Hn ->]. exists (store_slot gc f).
    split; [cbn; by rewrite lookup_insert_eq|]. do 3 (split; [done|]). unfold payloads. rewrite stored_store by (auto; lia). cbn.
    rewrite fmap_app. cbn. rewrite lookup_insert_eq. rewrite take_ge in Hl by lia. rewrite take_ge by (rewrite length_app; cbn; lia).
    cbn. f_equal. rewrite <- Hl. apply list_fmap_ext. intros i g Hg%list_elem_of_lookup_2.
    destruct (stored_owned _ _ _ _ Hc Hg) as [k Hk]. destruct (fi_own _ _ Hf _ _ _ Hk) as (? & ? & _).
    rewrite insert_insert_eq, lookup_insert_ne; [done|]. intros ->. tauto.
Qed.

Lemma complete_content r c gc :
  r.(heap) !! c = Some gc ->
  keeps (Some c) r (complete_cache c r) /\
  exists gc', (complete_cache c r).(heap) !! c = Some gc' /\ gc'.(released) = gc.(released) /\ gc'.(pos) = gc.(pos) /\
    gc'.(complete) = true /\ payloads (complete_cache c r) gc' = payloads r gc.
Proof.
  intros Hc. unfold complete_cache. rewrite Hc. split.
  - intros c' g Hx Hg Hr. cbn in Hg. rewrite lookup_insert_ne in Hg by congruence. by exists g.
  - exists (markComplete gc). cbn. rewrite lookup_insert_eq. done.
Qed.

(** A reserved cache is empty, at the next position. *)
Lemma reserve_content r hs s ch c r' :
  ring_inv (mkSys r hs) -> r.(GroupRing.rpos) + 1 < 2 ^ 64 -> reserve s ch r = (c, r') ->
  keeps (Some c) r r' /\ (c ∉ hs) /\
  exists gc, r'.(heap) !! c = Some gc /\ gc.(released) = false /\ gc.(pos) = r.(GroupRing.rpos) + 1 /\
    gc.(complete) = false /\ payloads r' gc = [].
Proof.
  intros Hi Hw Hres. unfold reserve in Hres. destruct (gcPool_Get ch r) as [c1 r1] eqn:Hg.
  destruct (gcPool_Get_spec _ _ _ _ _ Hi Hg) as ((gc0 & Hc0 & Hs0 & Hcnt) & Hz & Hnc & Hrest & Hr1).
  rewrite Hc0 in Hres. rewrite Hr1 in Hres. cbn in Hres.
  pose proof (inv_pos _ _ Hi) as Hp. cbn in Hp. rewrite wrapu_id in Hres by (unfold in_u; lia).
  injection Hres as -> <-. set (gc2 := mkCache _ _ _ _ _ _ _ _ _). set (r2 := mkRing (<[c := gc2]> _) _ _ _ _ _ _ _).
  set (old := match caches r !! _ with Some o => o | None => None end).
  assert (Hold : old <> Some c).
  { unfold old. destruct (caches r !! _) as [o|] eqn:Ho; [|done]. intros ->. by eapply Hnc. }
  assert (Hk : keeps (Some c) r r2).
  { intros c' g Hx Hgr Hr. cbn in Hgr. rewrite lookup_insert_ne, Hrest in Hgr by congruence. by exists g. }
  split; [|split].
  - destruct old; [|exact Hk]. eapply keeps_trans; [exact Hk|apply keeps_evict].
  - rewrite refs_pos. lia.
  - exists gc2. assert (Hc2 : r2.(heap) !! c = Some gc2) by apply lookup_insert_eq.
    split; [|done]. destruct old as [o|]; [|done]. assert (o <> c) by congruence. unfold markEvictedLocked.
    destruct (heap r2 !! o); [|done]. cbv zeta. case_match; rewrite ?release_heap_ne by done; cbn -[r2]; by rewrite lookup_insert_ne.
Qed.

(** ** Counting: the tokens, the queue and the phases of the shutdown *)

(** A worker's part of a list over the workers. *)
Lemma omap_insert {A B} (f : A -> option B) l i x y :
  l !! i = Some x ->
  exists R, omap f l ≡ₚ option_list (f x) ++ R /\ omap f (<[i := y]> l) ≡ₚ option_list (f y) ++ R.
Proof.
  intros Hi. exists (omap f (take i l) ++ omap f (drop (S i) l)).
  assert (Hgen : forall v, omap f (take i l ++ v :: drop (S i) l) ≡ₚ
            option_list (f v) ++ omap f (take i l) ++ omap f (drop (S i) l)).
  { intros v. rewrite omap_app. cbn. destruct (f v); cbn; [by rewrite <- Permutation_middle|done]. }
  split.
  - rewrite <- (take_drop_middle l i x Hi) at 1. apply Hgen.
  - rewrite insert_take_drop by (by eapply lookup_lt_Some). apply Hgen.
Qed.

Lemma jobs_worker f d d' i p p' :
  d.(workers) !! i = Some p -> d'.(workers) = <[i := p']> d.(workers) -> d'.(ing) = d.(ing) ->
  exists R, jobs_of f d ≡ₚ option_list (f p) ++ d.(jobs) ++ R /\ jobs_of f d' ≡ₚ option_list (f p') ++ d'.(jobs) ++ R.
Proof.
  intros Hi Hw Hing. destruct (omap_insert f _ _ _ p' Hi) as (R & H1 & H2).
  exists (option_list (ijob d.(ing)) ++ R). unfold jobs_of. rewrite Hw, Hing, H1, H2. split; solve_Permutation.
Qed.

(** How far the deferred closure is. *)
Definition rank (p : ipc) : nat :=
  match p with
  | ReadCtx => 1 | CloseFirst => 2 | WaitFills _ => 3 | CloseLast => 4 | WaitDrops => 5 | CloseDone => 6
  | Remove => 7 | Gone => 8 | _ => 0
  end.

Definition holds_token (p : ipc) : nat := match p with Reserving _ | Sending _ => 1 | _ => 0 end.

Record count_inv (d : dist) : Prop := {
  ci_workers : (0 < length d.(workers))%nat;
  ci_sem : d.(sem) = (length d.(jobs) + length (omap busy d.(workers)) + holds_token d.(ing))%nat;
  ci_cap : (d.(sem) <= length d.(workers))%nat;
  ci_panic : d.(ing) <> IngestPanic;
  ci_closed : d.(jobsClosed) = (1 <=? rank d.(ing))%nat;
  ci_exited i : d.(workers) !! i = Some Exited -> d.(jobsClosed) = true /\ d.(jobs) = [];
  ci_waited : (4 <= rank d.(ing))%nat -> forallb is_exited d.(workers) = true;
  ci_over : (6 <= rank d.(ing))%nat -> d.(dropper) = Over;
  ci_done : d.(done) = (7 <=? rank d.(ing))%nat;
  ci_src : (5 <= rank d.(ing))%nat \/ d.(ing) = WaitFills true -> d.(srcClosed) = true
}.

Lemma new_count n k d : newTrackDistributor n k = Some d -> count_inv d.
Proof.
  unfold newTrackDistributor. case_decide as Hk; [done|]. intros [= <-]. split; cbn; rewrite ?length_replicate; try done; try lia.
  - clear. induction k as [|k IH]; [done|]. exact IH.
  - by intros i [? _]%lookup_replicate.
  - intros [?|?]; [lia|done].
Qed.

Ltac dcases H :=
  unfold step, ingest, fillWorker, forwardDrops, reserve_group in H;
  repeat match type of H with
  | context [match ?x with _ => _ end] => destruct x eqn:?
  | context [if ?x then _ else _] => destruct x eqn:?
  end; simplify_eq.

Lemma busy_insert ws i p p' :
  ws !! i = Some p ->
  (length (omap busy (<[i := p']> ws)) + length (option_list (busy p)) = length (omap busy ws) + length (option_list (busy p')))%nat.
Proof.
  intros Hi. destruct (omap_insert busy _ _ _ p' Hi) as (R & ->%Permutation_length & ->%Permutation_length).
  rewrite !length_app. lia.
Qed.

Lemma all_exited ws i p : forallb is_exited ws = true -> ws !! i = Some p -> p = Exited.
Proof.
  intros Hf Hi%list_elem_of_lookup_2. rewrite forallb_forall in Hf. rewrite list_elem_of_In in Hi.
  specialize (Hf _ Hi). by destruct p.
Qed.

Lemma worker_count d d' i p p' :
  count_inv d -> d.(workers) !! i = Some p -> p <> Exited -> d'.(workers) = <[i := p']> d.(workers) ->
  d'.(ing) = d.(ing) -> d'.(jobsClosed) = d.(jobsClosed) -> d'.(dropper) = d.(dropper) -> d'.(done) = d.(done) ->
  d'.(srcClosed) = d.(srcClosed) -> (d.(jobs) = [] -> d'.(jobs) = []) ->
  (p' = Exited -> d.(jobsClosed) = true /\ d.(jobs) = []) ->
  (d'.(sem) + length d.(jobs) + length (option_list (busy p)) = d.(sem) + length d'.(jobs) + length (option_list (busy p')))%nat ->
  (d'.(sem) <= d.(sem))%nat -> count_inv d'.
Proof.
  intros Hi Hw Hne Hw' Hing Hcl Hdr Hdn Hsr Hj He Hs Hle. pose proof (busy_insert _ _ _ p' Hw).
  split; rewrite ?Hw', ?Hing, ?Hcl, ?Hdr, ?Hdn, ?Hsr, ?length_insert; try apply Hi.
  - pose proof (ci_sem _ Hi). lia.
  - pose proof (ci_cap _ Hi). lia.
  - intros k [(-> & -> & _)|[_ Hk]]%list_lookup_insert_Some; [destruct (He eq_refl); auto|].
    destruct (ci_exited _ Hi _ Hk). auto.
  - intros Hr. exfalso. apply Hne. by eapply all_exited; [apply (ci_waited _ Hi)|].
Qed.

Lemma step_count l d d' : step l d = Some d' -> count_inv d -> count_inv d'.
Proof.
  intros Hs Hi. destruct l as [o v ch|i o ch|o|]; cbn [step] in Hs.
  - unfold ingest in Hs. destruct d.(ing) eqn:Hing; pose proof (ci_sem _ Hi) as Hsem; pose proof (ci_closed _ Hi) as Hcl;
      pose proof (ci_done _ Hi) as Hdn; pose proof (ci_cap _ Hi) as Hcap; rewrite Hing in *; cbn in Hsem, Hcl, Hdn.
    all: unfold reserve_group in Hs; repeat case_match; simplify_eq.
    all: split; cbn; rewrite ?length_app; cbn; try (apply Hi); try done; try lia.
    all: try (intros i Hx; destruct (ci_exited _ Hi _ Hx); congruence).
    all: try (intros Hr; first [lia | apply (ci_waited _ Hi); rewrite Hing; cbn; lia | apply (ci_over _ Hi); rewrite Hing; cbn; lia]).
    all: intros [Hr|Hr]; first [lia | discriminate Hr | simplify_eq; apply (ci_src _ Hi); rewrite Hing; cbn; auto; left; lia].
  - unfold fillWorker in Hs. destruct (workers d !! i) as [p|] eqn:Hw; [|done]. pose proof (ci_sem _ Hi) as Hsem.
    destruct p; repeat case_match; simplify_eq;
      (eapply (worker_count d _ i); [exact Hi|exact Hw|done|cbn; reflexivity|..]); cbn; try done; try congruence;
      try match goal with H : _ d = _ |- _ => rewrite H; cbn; lia end.
  - unfold forwardDrops in Hs. pose proof (ci_over _ Hi) as Ho.
    destruct (dropper d) eqn:Hd; repeat case_match; simplify_eq; split; cbn; try apply Hi; auto; intros Hr; by specialize (Ho Hr).
  - simplify_eq. split; apply Hi.
Qed.

(** ** The ring's discipline *)

Record ring_part (d : dist) : Prop := {
  rp_ring : ring_inv d.(z).1;
  rp_frames : frames_inv (dring d) d.(z).2;
  rp_hist : hist_inv (dring d) d.(gs);
  rp_seqs : Forall seq_ok d.(gs);
  rp_own : own d ⊆ dheld d;
  rp_nodup : NoDup (pending d).*1;
  rp_bufs : NoDup (omap wbuf d.(workers));
  rp_bufin b : b ∈ omap wbuf d.(workers) -> b ∈ d.(z).2;
  rp_read i j b p : d.(workers) !! i = Some (Append j b p) -> (dring d).(frames) !! b = Some p;
  rp_ing s : d.(ing) = Acquire s \/ d.(ing) = Reserving s -> seq_ok s
}.

Lemma z_eta d : d.(z) = (mkSys (dring d) (dheld d), d.(z).2).
Proof. unfold dring, dheld. by destruct d.(z) as [[] ?]. Qed.

Lemma omap_part {A B} (f : A -> option B) (l : list A) i x y : l !! i = Some x -> f x = Some y -> y ∈ omap f l.
Proof. intros Hi Hf. apply list_elem_of_omap. exists x. split; [by eapply list_elem_of_lookup_2|done]. Qed.

Lemma pending_worker d i p j : d.(workers) !! i = Some p -> wjob p = Some j -> j ∈ pending d.
Proof. intros Hw Hj. apply elem_of_app. right. apply elem_of_app. right. by eapply omap_part. Qed.

Lemma own_held d j : ring_part d -> j ∈ pending d -> j.1 ∈ dheld d.
Proof.
  intros Hi Hj. eapply gmultiset_elem_of_subseteq; [|apply (rp_own _ Hi)]. apply elem_of_list_to_set_disj.
  by apply list_elem_of_fmap_2.
Qed.

Lemma worker_held d i p j : ring_part d -> d.(workers) !! i = Some p -> wjob p = Some j -> j.1 ∈ dheld d.
Proof. intros Hi Hw Hj. eapply own_held; [done|]. by eapply pending_worker. Qed.

Lemma worker_buf d i p b : ring_part d -> d.(workers) !! i = Some p -> wbuf p = Some b -> b ∈ d.(z).2.
Proof. intros Hi Hw Hb. eapply (rp_bufin _ Hi). by eapply omap_part. Qed.

(** Every action is a step of the ring's users, or leaves the ring alone. *)
Lemma step_fstep l d d' : step l d = Some d' -> label_ok l d -> ring_part d -> d'.(z) = d.(z) \/ fstep d.(z) d'.(z).
Proof.
  intros Hs Hl Hi. destruct l as [o v ch|i o ch|o|]; cbn [step] in Hs.
  - unfold ingest, reserve_group in Hs. destruct (ing d); repeat case_match; simplify_eq; cbn; try (by left).
    right. rewrite (z_eta d) at 1. apply fstep_base, (step_reserve _ _ s ch); [apply Hl|done].
  - unfold fillWorker in Hs. destruct (workers d !! i) as [p|] eqn:Hw; [|done].
    pose proof (worker_held d i p) as Hh. pose proof (worker_buf d i p) as Hb.
    destruct p; repeat case_match; simplify_eq; cbn; try (by left); right; rewrite (z_eta d) at 1.
    + by eapply fstep_take.
    + apply (fstep_write _ _ _ b). by apply Hb.
    + apply fstep_base, step_append. by apply Hh.
    + apply fstep_base, step_complete. by apply Hh.
    + apply fstep_base, step_decr. by apply Hh.
    + apply fstep_put. by apply Hb.
  - unfold forwardDrops in Hs. destruct (dropper d); repeat case_match; simplify_eq; by left.
  - simplify_eq. by left.
Qed.

Lemma reader_fstep d d' : reader d d' -> fstep d.(z) d'.(z).
Proof.
  intros Hr. rewrite (z_eta d). destruct Hr as [p c r' Hg|c Hc]; cbn; apply fstep_base.
  - by apply (step_get _ _ p).
  - apply step_decr. multiset_solver.
Qed.

Lemma dstep_fstep d d' : dstep d d' -> ring_part d -> d'.(z) = d.(z) \/ fstep d.(z) d'.(z).
Proof. intros [l Hs Hl|Hr] Hi; [by eapply step_fstep|right; by apply reader_fstep]. Qed.

(** What a worker's step does to the lists, when it leaves the queue alone. *)
Lemma pending_same d d' i p p' :
  d.(workers) !! i = Some p -> d'.(workers) = <[i := p']> d.(workers) -> d'.(ing) = d.(ing) ->
  option_list (wjob p) ++ d.(jobs) ≡ₚ option_list (wjob p') ++ d'.(jobs) -> pending d' ≡ₚ pending d.
Proof.
  intros Hw Hw' Hing Hj. destruct (jobs_worker wjob d d' i p p' Hw Hw' Hing) as (R & H1 & H2). unfold pending.
  rewrite H1, H2, !app_assoc. by rewrite Hj.
Qed.

Lemma pending_drop d d' i j b :
  d.(workers) !! i = Some (Decr j b) -> d'.(workers) = <[i := PutBuf b]> d.(workers) -> d'.(ing) = d.(ing) ->
  d'.(jobs) = d.(jobs) -> pending d ≡ₚ j :: pending d'.
Proof.
  intros Hw Hw' Hing Hj. destruct (jobs_worker wjob d d' i _ _ Hw Hw' Hing) as (R & H1 & H2). unfold pending.
  rewrite H1, H2, Hj. done.
Qed.

Lemma own_perm d d' : pending d' ≡ₚ pending d -> own d' = own d.
Proof. intros Hp. unfold own. by rewrite Hp. Qed.

Lemma decrRef_rpos c r : (decrRef c r).(GroupRing.rpos) = r.(GroupRing.rpos).
Proof. apply quiet_decrRef. Qed.

Lemma append_same c p ch r :
  (append c p ch r).(GroupRing.rpos) = r.(GroupRing.rpos).
Proof. unfold append. case_match; [|done]. case_decide; [done|]. by destruct (pool_Get ch r) as [f r1] eqn:Hg; apply pool_Get_spec in Hg as [_ ->]. Qed.

(** The ring and the history, for a step that reserves nothing. *)
Lemma base_same d d' :
  ring_part d -> d'.(z) = d.(z) \/ fstep d.(z) d'.(z) -> (dring d').(GroupRing.rpos) = (dring d).(GroupRing.rpos) ->
  d'.(gs) = d.(gs) -> ring_inv d'.(z).1 /\ frames_inv (dring d') d'.(z).2 /\ hist_inv (dring d') d'.(gs).
Proof.
  intros Hi [Hz|Hf] Hp ->; unfold dring in *.
  - rewrite Hz. split; [apply Hi|]. split; apply Hi.
  - split; [eapply fstep_inv; [exact Hf|apply Hi]|]. split; [eapply fstep_frames_inv; [exact Hf|apply Hi|apply Hi]|].
    eapply quiet_inv; [eapply quiet_fstep; [exact Hf|done|apply Hi]|apply Hi].
Qed.

Lemma bufs_worker ws i p p' :
  ws !! i = Some p -> NoDup (omap wbuf ws) -> (forall b, wbuf p' = Some b -> wbuf p = Some b \/ b ∉ omap wbuf ws) ->
  NoDup (omap wbuf (<[i := p']> ws)) /\
  forall b, b ∈ omap wbuf (<[i := p']> ws) -> wbuf p' = Some b \/ (b ∈ omap wbuf ws /\ wbuf p <> Some b).
Proof.
  intros Hi Hn Hb. destruct (omap_insert wbuf ws i p p' Hi) as (R & H1 & H2). rewrite H1 in Hn. split.
  - rewrite H2. destruct (wbuf p') as [b|] eqn:Hp'; cbn; [|by apply NoDup_app in Hn as (_ & _ & ?)].
    apply NoDup_cons. split; [|by apply NoDup_app in Hn as (_ & _ & ?)]. destruct (Hb b eq_refl) as [Hp|Hnin].
    + rewrite Hp in Hn. by apply NoDup_cons in Hn as [? _].
    + rewrite H1 in Hnin. intros ?. apply Hnin. apply elem_of_app. by right.
  - intros b. rewrite H2. intros [Hb'|Hb']%elem_of_app.
    + left. destruct (wbuf p') as [b'|]; cbn in Hb'; [by apply list_elem_of_singleton in Hb' as ->|by apply not_elem_of_nil in Hb'].
    + right. split; [rewrite H1; apply elem_of_app; by right|]. intros Hp. rewrite Hp in Hn. cbn in Hn.
      by apply NoDup_cons in Hn as [? _].
Qed.

(** A step of worker [i] that keeps what it holds. *)
Lemma worker_part d d' i p p' :
  ring_part d -> d.(workers) !! i = Some p -> d'.(workers) = <[i := p']> d.(workers) ->
  d'.(z) = d.(z) \/ fstep d.(z) d'.(z) -> (dring d').(GroupRing.rpos) = (dring d).(GroupRing.rpos) -> d'.(gs) = d.(gs) ->
  d'.(ing) = d.(ing) -> own d' ⊆ dheld d' -> NoDup (pending d').*1 ->
  (forall b, wbuf p' = Some b -> (wbuf p = Some b \/ b ∉ omap wbuf d.(workers)) /\ b ∈ d'.(z).2) ->
  (forall b, b ∈ d.(z).2 -> wbuf p <> Some b -> b ∈ d'.(z).2) ->
  (forall b, b ∈ omap wbuf d.(workers) -> wbuf p <> Some b -> (dring d').(frames) !! b = (dring d).(frames) !! b) ->
  (forall j b x, p' = Append j b x -> (dring d').(frames) !! b = Some x) ->
  ring_part d'.
Proof.
  intros Hi Hw Hw' Hz Hp Hg Hing Ho Hn Hb Hk Hf Ha.
  destruct (base_same d d' Hi Hz Hp Hg) as (H1 & H2 & H3).
  destruct (bufs_worker d.(workers) i p p' Hw (rp_bufs _ Hi)) as [Hnd Hin]; [intros b Hb'; by apply Hb|].
  split; try done.
  - rewrite Hg. apply Hi.
  - by rewrite Hw'.
  - intros b. rewrite Hw'. intros [Hb'|[Hb' Hne]]%Hin; [by apply Hb|]. apply Hk; [by apply (rp_bufin _ Hi)|done].
  - intros k j b x. rewrite Hw'. intros [(-> & Heq & _)|[Hne Hk']]%list_lookup_insert_Some; [by eapply Ha|].
    rewrite Hf; [by eapply (rp_read _ Hi)| |].
    + by eapply omap_part.
    + intros Hpb. destruct (omap_insert wbuf _ _ _ Exited Hw) as (R & Hr1 & Hr2). pose proof (rp_bufs _ Hi) as Hnb.
      rewrite Hr1, Hpb in Hnb. apply NoDup_cons in Hnb as [Hnb _]. apply Hnb.
      enough (Hbi : b ∈ omap wbuf (<[i := Exited]> (workers d))) by (by rewrite Hr2 in Hbi).
      apply (omap_part wbuf _ k (Append j b x)); [by rewrite list_lookup_insert_ne|done].
  - rewrite Hing. apply Hi.
Qed.

(** A step that leaves the ring and the workers alone. *)
Lemma idle_part d d' :
  ring_part d -> d'.(z) = d.(z) -> d'.(workers) = d.(workers) -> d'.(gs) = d.(gs) -> pending d' ≡ₚ pending d ->
  (forall s, d'.(ing) = Acquire s \/ d'.(ing) = Reserving s -> seq_ok s) -> ring_part d'.
Proof.
  intros Hi Hz Hw Hg Hp Hing. assert (Hr : dring d' = dring d) by (unfold dring; by rewrite Hz).
  assert (Hh : dheld d' = dheld d) by (unfold dheld; by rewrite Hz).
  split; rewrite ?Hz, ?Hw, ?Hg, ?Hr, ?Hh; try apply Hi.
  - rewrite (own_perm _ _ Hp). apply Hi.
  - rewrite Hp. apply Hi.
  - exact Hing.
Qed.

Lemma buf_live d b : ring_part d -> b ∈ omap wbuf d.(workers) -> (b ∈ d.(z).2) /\ (b ∉ (dring d).(framePool)) /\ b ∈ dom (dring d).(frames).
Proof.
  intros Hi Hb%(rp_bufin _ Hi). split; [done|]. destruct (rp_frames _ Hi) as [_ _ _ Hd Hx]. set_solver.
Qed.

Lemma append_frames c p ch r g : g ∈ dom r.(frames) -> g ∉ r.(framePool) -> (append c p ch r).(frames) !! g = r.(frames) !! g.
Proof.
  intros Hd Hp. unfold append. case_match; [|done]. case_decide; [done|]. destruct (pool_Get ch r) as [f r1] eqn:Hg.
  apply pool_Get_spec in Hg as [Hn ->]. cbn. rewrite !lookup_insert_ne; [done|..]; intros ->; by destruct Hn.
Qed.

Lemma decrRef_frames c r : (decrRef c r).(frames) = r.(frames).
Proof.
  unfold decrRef. case_match; [|done]. cbv zeta. case_match; [|done]. by rewrite release_frames.
Qed.

Lemma complete_rpos c r : (complete_cache c r).(GroupRing.rpos) = r.(GroupRing.rpos) /\ (complete_cache c r).(frames) = r.(frames).
Proof. unfold complete_cache. by case_match. Qed.

Lemma evict_frames c r : (markEvictedLocked c r).(frames) = r.(frames).
Proof. unfold markEvictedLocked. case_match; [|done]. cbv zeta. case_match; [|done]. by rewrite release_frames. Qed.

Lemma reserve_frames s ch r c r' : reserve s ch r = (c, r') -> r'.(frames) = r.(frames).
Proof.
  unfold reserve. assert (Hg : (gcPool_Get ch r).2.(frames) = r.(frames)) by (unfold gcPool_Get; repeat case_match; done).
  destruct (gcPool_Get ch r) as [c1 r1]. cbn in Hg. destruct (heap r1 !! c1); intros [= <- <-]; [|exact Hg].
  destruct (match caches r1 !! _ with Some o => o | None => None end); rewrite ?evict_frames; exact Hg.
Qed.

Lemma reserve_part d s ch j d' :
  ring_part d -> (dring d).(GroupRing.rpos) + 1 < 2 ^ 64 -> d.(ing) = Reserving s -> reserve_group s ch d = (j, d') ->
  ring_part (with_ing (Sending j) d').
Proof.
  intros Hi Hw Hing Hr. pose proof (rp_ing _ Hi s (or_intror Hing)) as Hs. unfold reserve_group in Hr. destruct (reserve s ch (dring d)) as [c r'] eqn:Hres. simplify_eq.
  pose proof (rp_ring _ Hi) as Hri. rewrite z_eta in Hri. cbn [fst] in Hri.
  destruct (reserve_content _ _ _ _ _ _ Hri Hw Hres) as (_ & Hnew & _).
  set (j := (c, _)). set (d' := with_ing _ _).
  assert (Hp : pending d' ≡ₚ j :: pending d) by (unfold pending, jobs_of; cbn; by rewrite Hing).
  assert (Hnj : c ∉ (pending d).*1).
  { intros (j' & -> & Hj')%list_elem_of_fmap. by apply Hnew, own_held. }
  split.
  - by eapply inv_reserve.
  - eapply frames_inv_reserve; [exact Hri|apply (rp_frames _ Hi)|exact Hres].
  - eapply reserve_hist; [exact Hri|done|exact Hres|apply Hi].
  - apply Forall_app. split; [apply Hi|by apply Forall_singleton].
  - unfold own. rewrite Hp. cbn. pose proof (rp_own _ Hi). change (dheld d') with ({[+ c +]} ⊎ dheld d). unfold own in *. multiset_solver.
  - rewrite Hp. cbn. apply NoDup_cons. split; [done|apply Hi].
  - apply Hi.
  - apply (rp_bufin _ Hi).
  - intros i j' b p Hb. change (dring d') with r'. rewrite (reserve_frames _ _ _ _ _ Hres). by eapply (rp_read _ Hi).
  - by intros s' [?|?].
Qed.

(** The worker's buffer is no one else's. *)
Lemma new_buf d ch b r' x :
  ring_part d -> pool_Get ch (dring d) = (b, r') -> x ∈ omap wbuf d.(workers) -> x <> b.
Proof.
  intros Hi [Hn _]%pool_Get_spec Hx. destruct (buf_live d x Hi Hx) as (? & ? & ?). intros ->. by destruct Hn.
Qed.

Ltac own_same := match goal with Hp : pending _ ≡ₚ pending _ |- _ => first [rewrite (own_perm _ _ Hp) | rewrite Hp] end.

Lemma worker_step_part i o ch d d' : fillWorker i o ch d = Some d' -> ring_part d -> ring_part d'.
Proof.
  intros Hs Hi. assert (Hz : d'.(z) = d.(z) \/ fstep d.(z) d'.(z)) by (by apply (step_fstep (LWorker i o ch) d d')).
  unfold fillWorker in Hs. destruct (workers d !! i) as [p|] eqn:Hw; [|done].
  destruct p; repeat case_match; simplify_eq.
  all: try match goal with Hi : ring_part ?d, Hw : _ = Some _ |- ring_part ?e => assert (Hp : pending e ≡ₚ pending d) by
    (eapply pending_same; [exact Hw|reflexivity|reflexivity|cbn; try match goal with H : jobs d = _ |- _ => rewrite H end; reflexivity]) end.
  all: eapply (worker_part _ _ i _ _ Hi Hw); [reflexivity|exact Hz|..]; try reflexivity.
  all: try match goal with Hp : _ ≡ₚ _ |- own _ ⊆ _ => rewrite (own_perm _ _ Hp); exact (rp_own _ Hi) end.
  all: try match goal with Hp : _ ≡ₚ _ |- NoDup _ => rewrite Hp; exact (rp_nodup _ Hi) end.
  all: try (by intros ? Hx; split; [by left|]; eapply (worker_buf _ _ _ _ Hi Hw)).
  all: try (by intros ? ? ? ?). all: try (by intros ? ? ?). all: try done.
  all: try (apply complete_rpos || apply append_same || apply decrRef_rpos).
  - match goal with H : pool_Get _ _ = _ |- _ => apply pool_Get_spec in H as [_ ->] end. done.
  - intros b [= <-]. split; [|cbn; set_solver]. right. intros Hb. by eapply new_buf.
  - intros b Hb _. cbn. set_solver.
  - intros b Hb _. match goal with H : pool_Get _ _ = _ |- _ => pose proof (new_buf _ _ _ _ _ Hi H Hb); apply pool_Get_spec in H as [_ ->] end.
    cbn. by rewrite lookup_insert_ne.
  - intros b0 _ Hne. cbn. rewrite lookup_insert_ne; [done|]. intros ->. by apply Hne.
  - intros j0 b0 x [= <- <- <-]. cbn. apply lookup_insert_eq.
  - intros b0 Hb _. destruct (buf_live d b0 Hi Hb) as (_ & ? & ?). by apply append_frames.
  - intros b0 _ _. cbn. unfold dring. cbn. by rewrite (proj2 (complete_rpos _ _)).
  - clear Hz. assert (Hp : pending d ≡ₚ j :: pending (with_worker i (PutBuf b) d)) by (by eapply (pending_drop d _ i)).
    pose proof (rp_own _ Hi) as Ho. unfold own in Ho. rewrite Hp in Ho. cbn in Ho.
    change (own (with_worker i (PutBuf b) d) ⊆ dheld d ∖ {[+ j.1 +]}). unfold own. multiset_solver.
  - clear Hz. assert (Hp : pending d ≡ₚ j :: pending (with_worker i (PutBuf b) d)) by (by eapply (pending_drop d _ i)).
    pose proof (rp_nodup _ Hi) as Hn. rewrite Hp in Hn. by apply NoDup_cons in Hn as [_ ?].
  - intros b0 _ _. cbn. unfold dring. cbn. by rewrite decrRef_frames.
  - intros b0 Hb Hne. cbn. assert (b0 <> b) by (intros ->; by apply Hne). set_solver.
Qed.

Lemma step_part l d d' : step l d = Some d' -> label_ok l d -> count_inv d -> ring_part d -> ring_part d'.
Proof.
  intros Hs Hl Hc Hi. pose proof (ci_closed _ Hc) as Hcl. pose proof (rp_ing _ Hi) as Hsq.
  destruct l as [o v ch|i o ch|o|]; cbn [step] in Hs.
  - unfold ingest in Hs. destruct d.(ing) eqn:Hing; repeat case_match; simplify_eq; try (cbn in Hcl; congruence).
    all: try (apply (idle_part d); try done; [unfold pending, jobs_of; cbn; rewrite Hing; cbn; solve_Permutation|];
      intros s' [[= <-]|[= <-]]; first [by apply Hl|by apply Hsq; auto]).
    eapply reserve_part; [exact Hi|apply Hl|exact Hing|done].
  - by eapply worker_step_part.
  - unfold forwardDrops in Hs. destruct (dropper d); repeat case_match; simplify_eq; by apply (idle_part d).
  - simplify_eq. by apply (idle_part d).
Qed.

Lemma reader_part d d' : reader d d' -> ring_part d -> ring_part d'.
Proof.
  intros Hr Hi. pose proof (reader_fstep _ _ Hr) as Hf.
  assert (Hb : ring_inv d'.(z).1 /\ frames_inv (dring d') d'.(z).2 /\ hist_inv (dring d') d'.(gs)).
  { apply (base_same d); auto; [|by destruct Hr]. destruct Hr as [p c r' Hg|c Hc]; cbn; [|apply decrRef_rpos].
    by apply (quiet_get p _ _ _ Hg). }
  destruct Hb as (H1 & H2 & H3). destruct Hr as [p c r' Hg|c Hc]; split; try done; try apply Hi.
  - pose proof (rp_own _ Hi). change (own d ⊆ {[+ c +]} ⊎ dheld d). multiset_solver.
  - intros i j b x Hx. cbn. unfold get in Hg. repeat case_match; simplify_eq. by apply (rp_read _ Hi i j).
  - pose proof (rp_own _ Hi). change (own d ⊆ dheld d ∖ {[+ c +]}). multiset_solver.
  - intros i j b x Hx. cbn. unfold dring. cbn. rewrite decrRef_frames. by apply (rp_read _ Hi i j).
Qed.

(** ** What the ring serves *)

(** Every live cache holds the frames read of its group, as many as fit, and is
    complete when its group is; every group reserved is complete or has a filler. *)
Record content (d : dist) : Prop := {
  co_inj c c' gc gc' : (dring d).(heap) !! c = Some gc -> (dring d).(heap) !! c' = Some gc' -> gc.(released) = false ->
    gc'.(released) = false -> gc.(pos) = gc'.(pos) -> c = c';
  co_frames c gc : (dring d).(heap) !! c = Some gc -> gc.(released) = false ->
    payloads (dring d) gc = take MaxFramesPerGroup (default [] (d.(read) !! gc.(pos))) /\
    gc.(complete) = bool_decide (gc.(pos) ∈ d.(fin));
  co_job j : j ∈ pending d -> exists gc, (dring d).(heap) !! j.1 = Some gc /\ gc.(pos) = j.2;
  co_sub j : j ∈ unfinished d -> j ∈ pending d;
  co_open j : j ∈ unfinished d -> j.2 ∉ d.(fin);
  co_nodup : NoDup (unfinished d).*2;
  co_fin p : p ∈ d.(fin) -> 1 <= p <= Z.of_nat (length d.(gs));
  co_read p l : d.(read) !! p = Some l -> 1 <= p <= Z.of_nat (length d.(gs));
  co_all p : 1 <= p <= Z.of_nat (length d.(gs)) -> p ∈ d.(fin) \/ p ∈ (unfinished d).*2
}.

Lemma live_range d c gc :
  ring_part d -> (dring d).(heap) !! c = Some gc -> gc.(released) = false -> 1 <= gc.(pos) <= Z.of_nat (length d.(gs)).
Proof. intros Hi Hc Hr. destruct (hi_cache _ _ (rp_hist _ Hi) _ _ Hc Hr) as [Hg _]. by apply group_at_range in Hg. Qed.

Lemma held_cache d c : ring_part d -> c ∈ dheld d -> exists gc, (dring d).(heap) !! c = Some gc /\ gc.(released) = false.
Proof.
  intros Hi Hh. pose proof (rp_ring _ Hi) as Hr. rewrite z_eta in Hr. cbn in Hr. destruct (inv_held _ _ Hr c Hh) as [gc Hc].
  exists gc. split; [exact Hc|]. by eapply held_live.
Qed.

Lemma pending_cache d j : ring_part d -> content d -> j ∈ pending d ->
  exists gc, (dring d).(heap) !! j.1 = Some gc /\ gc.(released) = false /\ gc.(pos) = j.2.
Proof.
  intros Hi Hc Hj. destruct (co_job _ Hc j Hj) as (gc & Hg & Hp). destruct (held_cache d j.1 Hi) as (gc' & Hg' & Hr);
    [by apply own_held|]. exists gc. by simplify_eq.
Qed.

(** A step under which the live caches keep what they hold. *)
Lemma content_keep d d' :
  ring_part d' -> keeps None (dring d) (dring d') -> d'.(read) = d.(read) -> d'.(fin) = d.(fin) -> d'.(gs) = d.(gs) ->
  (forall j, j ∈ pending d' -> j ∈ pending d) -> unfinished d' ≡ₚ unfinished d ->
  (forall j, j ∈ unfinished d' -> j ∈ pending d') -> content d -> content d'.
Proof.
  intros Hi' Hk Hrd Hfi Hg Hp Hu Hs Hc. split; rewrite ?Hrd, ?Hfi, ?Hg, ?Hu; try apply Hc.
  - intros c c' gc gc' H1 H2 H3 H4 Heq. destruct (Hk _ _ ltac:(done) H1 H3) as (g & ? & ? & ? & _).
    destruct (Hk _ _ ltac:(done) H2 H4) as (g' & ? & ? & ? & _). eapply (co_inj _ Hc c c' g g'); congruence.
  - intros c gc H1 H2. destruct (Hk _ _ ltac:(done) H1 H2) as (g & Hg1 & Hr1 & -> & -> & ->). by apply (co_frames _ Hc c).
  - intros j Hj. destruct (held_cache d' j.1 Hi') as (gc' & Hg' & Hr'); [by apply own_held|]. exists gc'. split; [done|].
    destruct (Hk _ _ ltac:(done) Hg' Hr') as (g & Hg1 & _ & -> & _). destruct (co_job _ Hc j) as (g2 & ? & ?); [auto|]. congruence.
  - exact Hs.
  - intros j Hj. rewrite Hu in Hj. by apply Hc.
  - intros p. rewrite Hu. apply Hc.
Qed.

(** A step that changes the cache of one pending job. *)
Lemma content_touch d d' j gc1 :
  ring_part d' -> content d -> keeps (Some j.1) (dring d) (dring d') -> j ∈ pending d' ->
  (dring d').(heap) !! j.1 = Some gc1 -> gc1.(pos) = j.2 ->
  payloads (dring d') gc1 = take MaxFramesPerGroup (default [] (d'.(read) !! j.2)) ->
  gc1.(complete) = bool_decide (j.2 ∈ d'.(fin)) ->
  (forall c gc, c <> j.1 -> (dring d).(heap) !! c = Some gc -> gc.(released) = false -> gc.(pos) <> j.2) ->
  (forall p, p <> j.2 -> d'.(read) !! p = d.(read) !! p /\ (p ∈ d'.(fin) <-> p ∈ d.(fin))) ->
  (forall k, k ∈ pending d' -> k = j \/ k ∈ pending d) ->
  (forall k, k ∈ unfinished d' -> k ∈ pending d' /\ k.2 ∉ d'.(fin)) -> NoDup (unfinished d').*2 ->
  (forall p, p ∈ d'.(fin) -> 1 <= p <= Z.of_nat (length d'.(gs))) ->
  (forall p l, d'.(read) !! p = Some l -> 1 <= p <= Z.of_nat (length d'.(gs))) ->
  (forall p, 1 <= p <= Z.of_nat (length d'.(gs)) -> p ∈ d'.(fin) \/ p ∈ (unfinished d').*2) -> content d'.
Proof.
  intros Hi' Hc Hk Hj Hg1 Hp1 Hpl1 Hcm1 Hne Hsame Hpe Hun Hnd Hfi Hrd Hall.
  assert (Hother : forall c g, c <> j.1 -> (dring d').(heap) !! c = Some g -> g.(released) = false ->
    exists g0, (dring d).(heap) !! c = Some g0 /\ g0.(released) = false /\ g.(pos) = g0.(pos) /\ g.(complete) = g0.(complete) /\
      payloads (dring d') g = payloads (dring d) g0) by (intros c g Hn; apply Hk; congruence).
  split; try done; [| | |by intros k Hk'; apply Hun|by intros k Hk'; apply Hun].
  - intros c c' g g' H1 H2 H3 H4 Heq. destruct (decide (c = j.1)) as [->|Hn], (decide (c' = j.1)) as [->|Hn']; [done| | |].
    + destruct (Hother _ _ Hn' H2 H4) as (g0 & ? & ? & ? & _). exfalso. apply (Hne c' g0); congruence.
    + destruct (Hother _ _ Hn H1 H3) as (g0 & ? & ? & ? & _). exfalso. apply (Hne c g0); congruence.
    + destruct (Hother _ _ Hn H1 H3) as (g0 & ? & ? & ? & _). destruct (Hother _ _ Hn' H2 H4) as (g2 & ? & ? & ? & _).
      eapply (co_inj _ Hc _ _ g0 g2); congruence.
  - intros c g H1 H2. destruct (decide (c = j.1)) as [->|Hn].
    + rewrite Hg1 in H1. injection H1 as <-. by rewrite Hp1.
    + destruct (Hother _ _ Hn H1 H2) as (g0 & Hg0 & Hr0 & -> & -> & ->). destruct (co_frames _ Hc _ _ Hg0 Hr0) as [-> ->].
      destruct (Hsame g0.(pos)) as [-> Hf]; [by eapply Hne|]. split; [done|]. by apply bool_decide_ext.
  - intros k Hk'. destruct (decide (k.1 = j.1)) as [He|Hn].
    + enough (k = j) as -> by (by exists gc1). pose proof (rp_nodup _ Hi') as Hn.
      apply list_elem_of_lookup in Hk' as [i1 H1]. apply list_elem_of_lookup in Hj as [i2 H2].
      assert (i1 = i2) as -> by (eapply (NoDup_lookup _ _ _ k.1 Hn); rewrite list_lookup_fmap, ?H1, ?H2; cbn; congruence).
      congruence.
    + destruct (held_cache d' k.1 Hi') as (g & Hgk & Hrk); [by apply own_held|]. exists g. split; [done|].
      destruct (Hother _ _ Hn Hgk Hrk) as (g0 & ? & _ & -> & _). destruct (Hpe k Hk') as [->|Hkd]; [done|].
      destruct (co_job _ Hc k Hkd) as (g2 & ? & ?). congruence.
Qed.

Lemma content_append d j i b p ch d' :
  d' = with_worker i (Tell j b) (with_read (<[j.2 := default [] (d.(read) !! j.2) ++ [p]]> d.(read)) d.(fin)
             (with_ring (append j.1 p ch (dring d)) d)) ->
  ring_part d -> ring_part d' -> content d -> d.(workers) !! i = Some (Append j b p) -> content d'.
Proof.
  intros -> Hi Hi' Hc Hw. set (d' := with_worker _ _ _) in *.
  assert (Hj : j ∈ pending d) by (by eapply pending_worker).
  destruct (pending_cache d j Hi Hc Hj) as (gc & Hg & Hr & Hp). destruct (co_frames _ Hc _ _ Hg Hr) as [Hpl Hcm].
  pose proof (rp_ring _ Hi) as Hri. rewrite z_eta in Hri. cbn in Hri. pose proof (ring_slots_ok _ _ _ _ _ Hri Hg) as Hs.
  rewrite Hp in Hpl. destruct (append_content _ _ _ _ _ p ch (rp_frames _ Hi) Hg Hs Hpl) as (gc1 & Hg1 & Hr1 & Hp1 & Hc1 & Hpl1).
  assert (Hpe : pending d' ≡ₚ pending d) by (by eapply pending_same).
  assert (Hun : unfinished d' ≡ₚ unfinished d).
  { destruct (jobs_worker wopen d d' i _ (Tell j b) Hw eq_refl eq_refl) as (R & H1 & H2). unfold unfinished. by rewrite H1, H2. }
  assert (Hrange : 1 <= j.2 <= Z.of_nat (length d.(gs))) by (rewrite <- Hp; by eapply live_range).
  eapply (content_touch d d' j gc1 Hi' Hc); try done.
  - by eapply keeps_append, Hi.
  - by rewrite Hpe.
  - congruence.
  - cbn [read d' with_worker with_read]. by rewrite lookup_insert_eq.
  - by rewrite Hc1, Hcm, Hp.
  - intros c g Hn H1 H2 H3. apply Hn. eapply (co_inj _ Hc _ _ g gc); congruence.
  - intros q Hq. split; [|done]. cbn. by rewrite lookup_insert_ne.
  - intros k. rewrite Hpe. auto.
  - intros k Hk. rewrite Hun in Hk. rewrite Hpe. split; [by apply Hc|by apply (co_open _ Hc)].
  - rewrite Hun. apply Hc.
  - apply Hc.
  - intros q l. cbn. intros [[<- _]|[_ Hq]]%lookup_insert_Some; [done|by apply (co_read _ Hc q l)].
  - intros q. rewrite Hun. apply Hc.
Qed.

Lemma content_finish d j i b d' :
  d' = with_worker i (TellLast j b) (with_read d.(read) ({[j.2]} ∪ d.(fin)) (with_ring (complete_cache j.1 (dring d)) d)) ->
  ring_part d -> ring_part d' -> content d -> d.(workers) !! i = Some (Finish j b) -> content d'.
Proof.
  intros -> Hi Hi' Hc Hw. set (d' := with_worker _ _ _) in *.
  assert (Hj : j ∈ pending d) by (by eapply pending_worker).
  destruct (pending_cache d j Hi Hc Hj) as (gc & Hg & Hr & Hp). destruct (co_frames _ Hc _ _ Hg Hr) as [Hpl Hcm].
  destruct (complete_content _ _ _ Hg) as (Hk & gc1 & Hg1 & Hr1 & Hp1 & Hc1 & Hpl1).
  assert (Hpe : pending d' ≡ₚ pending d) by (by eapply pending_same).
  assert (Hun : unfinished d ≡ₚ j :: unfinished d').
  { destruct (jobs_worker wopen d d' i _ (TellLast j b) Hw eq_refl eq_refl) as (R & H1 & H2). unfold unfinished. by rewrite H1, H2. }
  assert (Hrange : 1 <= j.2 <= Z.of_nat (length d.(gs))) by (rewrite <- Hp; by eapply live_range).
  pose proof (co_nodup _ Hc) as Hnd. rewrite Hun in Hnd. cbn in Hnd. apply NoDup_cons in Hnd as [Hnj Hnd].
  eapply (content_touch d d' j gc1 Hi' Hc); try done.
  - by rewrite Hpe.
  - congruence.
  - cbn [read d' with_worker with_read]. rewrite <- Hp, <- Hpl. exact Hpl1.
  - rewrite Hc1. symmetry. apply bool_decide_eq_true. cbn. set_solver.
  - intros c g Hn H1 H2 H3. apply Hn. eapply (co_inj _ Hc _ _ g gc); congruence.
  - intros q Hq. split; [done|]. cbn. set_solver.
  - intros k. rewrite Hpe. auto.
  - intros k Hk'. assert (Hkd : k ∈ unfinished d) by (rewrite Hun; by right). rewrite Hpe. split; [by apply Hc|].
    cbn. intros [He%elem_of_singleton|Hf]%elem_of_union; [|by eapply (co_open _ Hc)].
    apply Hnj. rewrite <- He. by apply list_elem_of_fmap_2.
  - intros q. cbn. intros [->%elem_of_singleton|Hf]%elem_of_union; [done|by apply (co_fin _ Hc)].
  - apply Hc.
  - intros q Hq. destruct (co_all _ Hc q Hq) as [Hf|Hf]; [left; cbn; set_solver|].
    rewrite Hun in Hf. cbn in Hf. apply elem_of_cons in Hf as [->|?]; [left; cbn; set_solver|by right].
Qed.

Lemma content_reserve d s ch j d' :
  ring_part d -> (dring d).(GroupRing.rpos) + 1 < 2 ^ 64 -> d.(ing) = Reserving s -> reserve_group s ch d = (j, d') ->
  ring_part (with_ing (Sending j) d') -> content d -> content (with_ing (Sending j) d').
Proof.
  intros Hi Hw Hing Hr Hi' Hc. unfold reserve_group in Hr. destruct (reserve s ch (dring d)) as [c r'] eqn:Hres. simplify_eq.
  pose proof (rp_ring _ Hi) as Hri. rewrite z_eta in Hri. cbn [fst] in Hri.
  destruct (reserve_content _ _ _ _ _ _ Hri Hw Hres) as (Hk & Hnew & gc & Hg & Hr & Hp & Hcm & Hpl).
  set (j := (c, Z.of_nat (length (gs d)) + 1)) in *. set (d' := with_ing _ _) in *.
  assert (Hpe : pending d' ≡ₚ j :: pending d) by (unfold pending, jobs_of; cbn; by rewrite Hing).
  assert (Hun : unfinished d' ≡ₚ j :: unfinished d) by (unfold unfinished, jobs_of; cbn; by rewrite Hing).
  pose proof (hi_pos _ _ (rp_hist _ Hi)) as Hpos. assert (Hj : j.2 = Z.of_nat (length d.(gs)) + 1) by done.
  assert (Hlen : Z.of_nat (length d'.(gs)) = j.2) by (cbn; rewrite length_app; cbn; lia).
  assert (Hfin : j.2 ∉ d.(fin)) by (intros Hf%(co_fin _ Hc); lia).
  assert (Hopen : forall k, k ∈ unfinished d -> k.2 <= Z.of_nat (length d.(gs))).
  { intros k Hk'. destruct (pending_cache d k Hi Hc) as (g & Hg' & Hr' & <-); [by apply Hc|].
    destruct (live_range d k.1 g Hi Hg' Hr'). lia. }
  eapply (content_touch d d' j gc Hi' Hc); try done.
  - rewrite Hpe. by left.
  - rewrite Hp, Hj, Hpos. done.
  - change (payloads (dring d') gc = take MaxFramesPerGroup (default [] (d.(read) !! j.2))). change (dring d') with r'. rewrite Hpl.
    destruct (d.(read) !! j.2) as [l|] eqn:Hl; [|done]. apply (co_read _ Hc) in Hl. lia.
  - rewrite Hcm. symmetry. by apply bool_decide_eq_false.
  - intros c' g Hn H1 H2. destruct (live_range d c' g Hi H1 H2). lia.
  - intros k. rewrite Hpe. by intros [->|?]%elem_of_cons; auto.
  - intros k. rewrite Hun, Hpe. intros [->|Hk']%elem_of_cons; [split; [by left|done]|]. split; [right; by apply Hc|by apply (co_open _ Hc)].
  - rewrite Hun. cbn. apply NoDup_cons. split; [|apply Hc]. intros (k & He & Hk')%list_elem_of_fmap. specialize (Hopen k Hk'). lia.
  - intros q Hq%(co_fin _ Hc). lia.
  - intros q l Hq%(co_read _ Hc). lia.
  - intros q Hq. rewrite Hun. cbn. destruct (decide (q = j.2)) as [->|Hne]; [right; by left|].
    destruct (co_all _ Hc q) as [?|?]; [lia|by left|right; by right].
Qed.

Lemma unfinished_pending d j : j ∈ unfinished d -> j ∈ pending d.
Proof.
  unfold unfinished, pending, jobs_of. rewrite !elem_of_app. intros [?|[?|(p & Hp & Hj)%list_elem_of_omap]]; [by left|by right; left|].
  right; right. apply list_elem_of_omap. exists p. split; [done|]. by destruct p.
Qed.

Lemma worker_keep d d' i p p' :
  ring_part d' -> content d -> d.(workers) !! i = Some p -> d'.(workers) = <[i := p']> d.(workers) -> d'.(ing) = d.(ing) ->
  keeps None (dring d) (dring d') -> d'.(read) = d.(read) -> d'.(fin) = d.(fin) -> d'.(gs) = d.(gs) ->
  option_list (wopen p) ++ d.(jobs) ≡ₚ option_list (wopen p') ++ d'.(jobs) ->
  (forall j, j ∈ option_list (wjob p') ++ d'.(jobs) -> j ∈ option_list (wjob p) ++ d.(jobs)) -> content d'.
Proof.
  intros Hi' Hc Hw Hw' Hing Hk Hrd Hfi Hg Ho Hj. apply (content_keep d); try done.
  - intros j. destruct (jobs_worker wjob d d' i p p' Hw Hw' Hing) as (R & H1 & H2). unfold pending.
    rewrite H1, H2, !app_assoc, !(elem_of_app _ R). intros [?|?]; [left; by apply Hj|by right].
  - destruct (jobs_worker wopen d d' i p p' Hw Hw' Hing) as (R & H1 & H2). unfold unfinished.
    rewrite H1, H2, !app_assoc. by rewrite Ho.
  - apply unfinished_pending.
Qed.

Lemma worker_content i o ch d d' :
  fillWorker i o ch d = Some d' -> ring_part d -> ring_part d' -> content d -> content d'.
Proof.
  intros Hs Hi Hi' Hc. unfold fillWorker in Hs. destruct (workers d !! i) as [p|] eqn:Hw; [|done].
  destruct p as [|j|j b|j b x|j b|j b|j b|j b|b| |]; repeat case_match; simplify_eq.
  6: { rewrite (rp_read _ Hi _ _ _ _ Hw) in Hi' |- *. by eapply (content_append d j i b x). }
  7: by eapply content_finish.
  all: eapply (worker_keep d _ i _ _ Hi' Hc Hw); try reflexivity; try done; try apply keeps_refl; cbn;
    try match goal with H : jobs _ = _ |- _ => rewrite H end; try reflexivity; try done.
  - eapply keeps_take; [apply (rp_frames _ Hi)|done].
  - eapply keeps_write; [apply (rp_frames _ Hi)|]. left. by eapply worker_buf.
  - apply keeps_decrRef.
  - intros k Hk. by right.
  - by apply keeps_frames.
Qed.

(** An action that leaves the ring and the workers alone. *)
Lemma idle_content d d' :
  ring_part d' -> content d -> d'.(z) = d.(z) -> d'.(workers) = d.(workers) -> d'.(read) = d.(read) -> d'.(fin) = d.(fin) ->
  d'.(gs) = d.(gs) -> (forall f, jobs_of f d' ≡ₚ jobs_of f d) -> content d'.
Proof.
  intros Hi' Hc Hz Hw Hrd Hfi Hg Hj. apply (content_keep d); try done.
  - unfold dring. rewrite Hz. apply keeps_refl.
  - intros j. unfold pending. by rewrite Hj.
  - apply Hj.
  - apply unfinished_pending.
Qed.

Lemma step_content l d d' :
  step l d = Some d' -> label_ok l d -> count_inv d -> ring_part d -> content d -> content d'.
Proof.
  intros Hs Hl Hn Hi Hc. pose proof (step_part _ _ _ Hs Hl Hn Hi) as Hi'. pose proof (ci_closed _ Hn) as Hcl.
  destruct l as [o v ch|i o ch|o|]; cbn [step] in Hs.
  - unfold ingest in Hs. destruct d.(ing) eqn:Hing; repeat case_match; simplify_eq; try (cbn in Hcl; congruence).
    all: try (apply (idle_content d); try done; intros f; unfold jobs_of; cbn; rewrite Hing; cbn; solve_Permutation).
    eapply content_reserve; [exact Hi|apply Hl|exact Hing|done|done|done].
  - by eapply worker_content.
  - unfold forwardDrops in Hs. destruct (dropper d); repeat case_match; simplify_eq; by apply (idle_content d).
  - simplify_eq. by apply (idle_content d).
Qed.

Lemma reader_content d d' : reader d d' -> ring_part d -> content d -> content d'.
Proof.
  intros Hr Hi Hc. pose proof (reader_part _ _ Hr Hi) as Hi'.
  apply (content_keep d); try (by destruct Hr); [|by apply unfinished_pending].
  destruct Hr as [p c r' Hg|c _]; [by eapply keeps_get|apply keeps_decrRef].
Qed.

(** ** What has been announced *)

Record told (d : dist) : Prop := {
  tl_head : d.(nhead) = Z.of_nat (length d.(gs)) \/ untold d <> [];
  tl_drops : d.(ndrops) = Z.of_nat (length d.(hist)) \/ d.(dropper) = Announce
}.

Lemma untold_worker d d' i p p' :
  d.(workers) !! i = Some p -> d'.(workers) = <[i := p']> d.(workers) -> d'.(ing) = d.(ing) ->
  option_list (wuntold p) ++ d.(jobs) ≡ₚ option_list (wuntold p') ++ d'.(jobs) -> untold d <> [] -> untold d' <> [].
Proof.
  intros Hw Hw' Hing Hj Hn He. apply Hn. destruct (jobs_worker wuntold d d' i p p' Hw Hw' Hing) as (R & H1 & H2).
  apply Permutation_nil. unfold untold in *. rewrite H1, app_assoc, Hj, <- app_assoc, <- H2, He. done.
Qed.

Lemma step_told l d d' : step l d = Some d' -> count_inv d -> ring_part d -> told d -> told d'.
Proof.
  intros Hs Hn Hi [Hh Hd]. pose proof (ci_closed _ Hn) as Hcl.
  assert (Hb : forall d0, dring d0 = dring d -> d0.(gs) = d.(gs) -> head (dring d0) = Z.of_nat (length d0.(gs))).
  { intros d0 -> ->. apply (hi_pos _ _ (rp_hist _ Hi)). }
  destruct l as [o v ch|i o ch|o|]; cbn [step] in Hs.
  - unfold ingest, reserve_group in Hs. destruct d.(ing) eqn:Hing; repeat case_match; simplify_eq; try (cbn in Hcl; congruence).
    all: split; try done; cbn; try (destruct Hh as [Hh|Hh]; [by left|]).
    all: try (right; intros He; apply Hh; apply Permutation_nil; rewrite <- He; unfold untold, jobs_of; cbn; rewrite Hing; cbn; solve_Permutation).
    + by right.
    + left. by destruct Hd.
  - unfold fillWorker in Hs. destruct (workers d !! i) as [p|] eqn:Hw; [|done].
    destruct p; repeat case_match; simplify_eq; split; try exact Hd; try (left; exact (Hb d eq_refl eq_refl)); try (by left).
    all: destruct Hh as [Hh|Hh]; [left; exact Hh|right]; eapply (untold_worker d _ i _ _ Hw); [reflexivity|reflexivity| |exact Hh]; cbn;
      try match goal with H : jobs _ = _ |- _ => rewrite H end; reflexivity.
  - unfold forwardDrops in Hs. destruct (dropper d); repeat case_match; simplify_eq; split; cbn; auto; try (left; exact (Hb d eq_refl eq_refl)); try (by left).
    left. by destruct Hd.
  - simplify_eq. by split.
Qed.

(** No more is announced than happened, and the drops' ring holds the last ones. *)
Record bounded (d : dist) : Prop := {
  bd_head : d.(nhead) <= Z.of_nat (length d.(gs));
  bd_drops : d.(ndrops) <= Z.of_nat (length d.(hist));
  bd_holds : Ring.holds d.(ddrops) d.(hist);
  bd_ok : Forall drop_ok d.(hist)
}.

Lemma step_bounded l d d' : step l d = Some d' -> label_ok l d -> ring_part d -> bounded d -> bounded d'.
Proof.
  intros Hs Hl Hi [H1 H2 H3 H4]. pose proof (hi_pos _ _ (rp_hist _ Hi)) as Hp.
  assert (Hh : head (dring d) <= Z.of_nat (length (gs d))) by (unfold head; lia).
  destruct l as [o v ch|i o ch|o|]; cbn [step] in Hs.
  - unfold ingest, reserve_group in Hs. destruct (ing d); repeat case_match; simplify_eq; split; try done; cbn.
    rewrite length_app. lia.
  - unfold fillWorker in Hs. destruct (workers d !! i) as [p|]; [|done].
    destruct p; repeat case_match; simplify_eq; split; try done; cbn; lia.
  - unfold forwardDrops in Hs. destruct (dropper d); repeat case_match; simplify_eq; split; try done; cbn in *; try lia.
    + rewrite length_app. lia.
    + by apply Ring.record_holds; [|apply Hl].
    + apply Forall_app. split; [done|]. by apply Forall_singleton, Hl.
  - by simplify_eq.
Qed.

(** ** Reachable states *)

Definition reachable (cacheSize fills : nat) (d : dist) : Prop :=
  exists d0, newTrackDistributor cacheSize fills = Some d0 /\ rtc dstep d0 d.

Record dinv (fills : nat) (d : dist) : Prop := {
  di_fills : length d.(workers) = fills;
  di_count : count_inv d;
  di_ring : ring_part d;
  di_content : content d;
  di_told : told d;
  di_bounded : bounded d
}.

Lemma new_dinv n k d : (0 < n)%nat -> newTrackDistributor n k = Some d -> dinv k d.
Proof.
  intros Hn Hd. pose proof (new_count _ _ _ Hd) as Hc. unfold newTrackDistributor in Hd. case_decide; [done|]. injection Hd as <-.
  assert (Ho : forall A (f : wpc -> option A), f Recv = None -> omap f (replicate k Recv) = []).
  { intros A f Hf. clear -Hf. induction k as [|k IH]; [done|]. cbn. by rewrite Hf. }
  split; [apply length_replicate|done| | | |].
  - split; try (cbn; done).
    + by apply inv_init.
    + apply (reachable_frames_inv n (init n, ∅) Hn). constructor.
    + unfold own, pending, jobs_of. cbn. rewrite Ho by done. apply gmultiset_empty_subseteq.
    + unfold pending, jobs_of. cbn. rewrite Ho by done. constructor.
    + cbn. rewrite Ho by done. constructor.
    + cbn. rewrite Ho by done. by intros b ?%not_elem_of_nil.
    + by intros i j b p [? _]%lookup_replicate.
    + by intros s [?|?].
  - split; cbn; unfold pending, unfinished, jobs_of; cbn; rewrite ?Ho by done; try done; try (by intros j ?%not_elem_of_nil); [constructor|lia].
  - by split; left.
  - split; [done|done|by apply Ring.newDropDistributor_holds|constructor].
Qed.

Lemma step_fills l d d' : step l d = Some d' -> length d'.(workers) = length d.(workers).
Proof.
  intros Hs. destruct l as [o v ch|i o ch|o|]; cbn [step] in Hs.
  - unfold ingest, reserve_group in Hs. destruct (ing d); repeat case_match; by simplify_eq.
  - unfold fillWorker in Hs. destruct (workers d !! i) as [p|]; [|done]. destruct p; repeat case_match; simplify_eq; cbn; by rewrite ?length_insert.
  - unfold forwardDrops in Hs. destruct (dropper d); repeat case_match; by simplify_eq.
  - by simplify_eq.
Qed.

Lemma step_dinv k l d d' : step l d = Some d' -> label_ok l d -> dinv k d -> dinv k d'.
Proof.
  intros Hs Hl [Hf Hn Hr Hc Ht Hb].
  split; [|by eapply step_count|by eapply step_part|by eapply step_content|by eapply step_told|by eapply step_bounded].
  rewrite <- Hf. by eapply step_fills.
Qed.

Lemma reader_dinv k d d' : reader d d' -> dinv k d -> dinv k d'.
Proof.
  intros Hs [Hf Hn Hr Hc Ht Hb]. split; [by destruct Hs| |by eapply reader_part|by eapply reader_content| |].
  - destruct Hs; split; apply Hn.
  - destruct Hs; split; apply Ht.
  - destruct Hs; split; apply Hb.
Qed.

Lemma reachable_dinv n k d : (0 < n)%nat -> reachable n k d -> dinv k d.
Proof.
  intros Hn (d0 & Hd0 & Hr). apply new_dinv in Hd0; [|done]. induction Hr as [|d1 d2 d3 Hs _ IH]; [done|]. apply IH.
  destruct Hs as [l Hs Hl|Hs]; [by eapply step_dinv|by eapply reader_dinv].
Qed.

(** No one is left when the workers have exited. *)
Lemma exited_empty d :
  count_inv d -> forallb is_exited d.(workers) = true -> d.(jobs) = [] /\ forall A (f : wpc -> option A), f Exited = None -> omap f d.(workers) = [].
Proof.
  intros Hn Hf. split.
  - destruct (workers d) as [|p ws] eqn:Hw; [pose proof (ci_workers _ Hn) as Hl; rewrite Hw in Hl; cbn in Hl; lia|].
    apply (ci_exited _ Hn 0). rewrite Hw. cbn in Hf |- *. apply andb_prop in Hf as [Hp _]. by destruct p.
  - intros A f He. clear Hn. induction (workers d) as [|p ws IH]; [done|]. cbn in Hf. apply andb_prop in Hf as [Hp Hf].
    cbn. destruct p; try done. rewrite He. by apply IH.
Qed.

Lemma waited_idle d : count_inv d -> (4 <= rank d.(ing))%nat -> forall f, f Exited = None -> jobs_of f d = [].
Proof.
  intros Hn Hr f Hf. destruct (exited_empty d Hn (ci_waited _ Hn Hr)) as [Hj Ho]. unfold jobs_of. rewrite Hj, Ho by done.
  destruct (ing d); cbn in *; try done; lia.
Qed.

(** ** The shutdown *)

Definition shutdown (d : dist) : bool := match d.(ing) with CloseJobs => true | p => (1 <=? rank p)%nat end.

(** What is left to do when the publisher sends nothing more. *)
Definition wfuel (p : wpc) : nat :=
  match p with
  | Exited => 0 | Recv => 1 | Free => 2 | PutBuf _ => 3 | Decr _ _ => 4 | TellLast _ _ => 5 | Finish _ _ => 6 | Read _ _ => 7
  | Tell _ _ => 8 | TakeBuf _ => 8 | Append _ _ _ => 9
  end.
Definition ifuel (p : ipc) : nat := match p with Gone => 0 | CloseJobs => 9 | p => 9 - rank p end.
Definition dfuel (p : dpc) : nat := match p with Over => 0 | Receive => 1 | Announce => 2 end.
Definition fuel (d : dist) : nat :=
  (ifuel d.(ing) + dfuel d.(dropper) + 8 * length d.(jobs) + sum_list (wfuel <$> d.(workers)))%nat.

(** Labels by which nothing arrives: no group, frame or drop. *)
Definition quiet_label (l : label) : bool :=
  match l with LIngest None false _ | LWorker _ None _ | LDrop None => true | _ => false end.

Lemma sum_insert ws i p p' :
  ws !! i = Some p -> (sum_list (wfuel <$> <[i := p']> ws) + wfuel p = sum_list (wfuel <$> ws) + wfuel p')%nat.
Proof.
  intros Hi. rewrite insert_take_drop by (by eapply lookup_lt_Some). rewrite <- (take_drop_middle ws i p Hi) at 3.
  rewrite !fmap_app, !sum_list_with_app. cbn. lia.
Qed.

Lemma step_fuel l d d' :
  step l d = Some d' -> shutdown d = true -> count_inv d ->
  shutdown d' = true /\ if quiet_label l then (fuel d' < fuel d)%nat else (fuel d' <= fuel d + 2)%nat.
Proof.
  intros Hs Hsh Hn. pose proof (ci_closed _ Hn) as Hcl. pose proof (ci_done _ Hn) as Hdn. unfold fuel. destruct l as [o v ch|i o ch|o|]; cbn [step quiet_label] in *.
  - unfold ingest, reserve_group in Hs.
    assert (ifuel d'.(ing) < ifuel d.(ing) /\ shutdown d' = true /\ d'.(dropper) = d.(dropper) /\ d'.(jobs) = d.(jobs) /\ d'.(workers) = d.(workers))%nat as (Hlt & Hsd & -> & -> & ->).
    { unfold shutdown in *. destruct (ing d); try done; repeat case_match; simplify_eq; cbn in *; try congruence; (split; [lia|done]). }
    split; [exact Hsd|]. repeat case_match; lia.
  - unfold fillWorker in Hs. destruct (workers d !! i) as [p|] eqn:Hw; [|done].
    destruct p; repeat case_match; simplify_eq; (split; [exact Hsh|]); cbn [ing dropper jobs workers with_worker with_chans with_z with_ring with_read broadcast];
      match goal with |- context [<[i := ?q]> _] => pose proof (sum_insert _ _ _ q Hw) as Hsum; cbn in Hsum end;
      try match goal with H : jobs _ = _ |- _ => rewrite H end; cbn [length]; lia.
  - unfold forwardDrops in Hs. destruct (dropper d); repeat case_match; simplify_eq; (split; [exact Hsh|]); cbn; lia.
  - simplify_eq. split; [exact Hsh|]. cbn. lia.
Qed.

Lemma worker_runs i p d :
  count_inv d -> d.(jobsClosed) = true -> d.(workers) !! i = Some p -> p <> Exited -> exists d', fillWorker i None None d = Some d'.
Proof.
  intros Hn Hcl Hw Hne. unfold fillWorker. rewrite Hw, Hcl. destruct p; try done; eauto.
  - destruct (jobs d); eauto.
  - pose proof (ci_sem _ Hn) as Hs. destruct (omap_insert busy _ _ _ Recv Hw) as (R & HR%Permutation_length & _).
    cbn in HR. destruct (sem d); [lia|eauto].
Qed.

Lemma shutdown_runs d :
  count_inv d -> shutdown d = true -> d.(ing) <> Gone -> exists l d', quiet_label l = true /\ step l d = Some d'.
Proof.
  intros Hn Hsh Hg. pose proof (ci_closed _ Hn) as Hcl. pose proof (ci_done _ Hn) as Hdn. pose proof (ci_panic _ Hn).
  unfold shutdown in Hsh. destruct (ing d) eqn:Hing; try done; cbn in Hcl, Hdn;
    try (exists (LIngest None false None); cbn; unfold ingest; rewrite Hing, ?Hcl, ?Hdn; eauto; fail).
  - destruct (forallb is_exited (workers d)) eqn:Hf.
    + exists (LIngest None false None). cbn. unfold ingest. rewrite Hing, Hf. eauto.
    + assert (exists i p, d.(workers) !! i = Some p /\ p <> Exited) as (i & p & Hw & Hne).
      { clear -Hf. induction (workers d) as [|q ws IH]; [done|]. cbn in Hf. destruct (is_exited q) eqn:Hq.
        - destruct (IH Hf) as (i & p & ? & ?). by exists (S i), p.
        - exists 0%nat, q. split; [done|]. by intros ->. }
      destruct (worker_runs i p d Hn Hcl Hw Hne) as [d' Hd']. exists (LWorker i None None), d'. done.
  - destruct (dropper d) eqn:Hd.
    + exists (LDrop None). cbn. unfold forwardDrops. rewrite Hd. eauto.
    + exists (LDrop None). cbn. unfold forwardDrops. rewrite Hd. eauto.
    + exists (LIngest None false None). cbn. unfold ingest. rewrite Hing, Hd. eauto.
Qed.

(** A schedule, and how many of its labels bring nothing. *)
Inductive runs : list label -> dist -> dist -> Prop :=
| runs_nil d : runs [] d d
| runs_cons l t d d1 d2 : step l d = Some d1 -> label_ok l d -> runs t d1 d2 -> runs (l :: t) d d2.

Definition quiet_count (ls : list label) : nat := length (filter (fun l => quiet_label l = true) ls).

Lemma run_fuel ls d d' k :
  runs ls d d' -> shutdown d = true -> dinv k d ->
  (quiet_count ls + fuel d' <= fuel d + 2 * (length ls - quiet_count ls))%nat /\ shutdown d' = true /\ dinv k d'.
Proof.
  intros Hr Hsh Hi. induction Hr as [d|l t d d1 d2 Hs Hok Hr IH]; [cbn; auto with lia|].
  destruct (step_fuel l d d1 Hs Hsh (di_count _ _ Hi)) as [Hsh1 Hf].
  assert (Hi1 : dinv k d1) by (by eapply step_dinv).
  destruct (IH Hsh1 Hi1) as (Hle & ? & ?). split; [|done].
  assert (quiet_count t <= length t)%nat by apply length_filter.
  unfold quiet_count in *. rewrite filter_cons. destruct (quiet_label l); case_decide; try done; cbn; lia.
Qed.

(** ** A subscriber beside the distributor *)

Section Joint.
Context (sort : list groupSpan -> list groupSpan) `{!SortsSpans sort} (codeInternal codeTimeout : Z).

(** The subscriber's view of the track. *)
Definition share (d : dist) (e : esys) : esys :=
  mkE d.(z) d.(nseq) d.(done) (mkWorld e.(ew).(rep) d.(ddrops) e.(ew).(delivered) d.(hist) e.(ew).(forwarded))
      e.(at_) d.(gs) d.(nhead) d.(ndrops) e.(sentat) e.(missed).

Definition egress_ref (e : esys) : gmultiset cid := list_to_set_disj (option_list (mine e)).

(** The distributor, another reader, or this subscriber acts. A reader gives
    back only references of its own. *)
Inductive jstep : dist * esys -> dist * esys -> Prop :=
| j_dist l d d' e : step l d = Some d' -> label_ok l d -> jstep (d, e) (d', share d' e)
| j_reader d d' e : reader d d' -> egress_ref e ⊎ own d' ⊆ dheld d' -> jstep (d, e) (d', share d' e)
| j_egress d e e' o k : estep sort codeInternal codeTimeout o k e = Some e' -> jstep (d, e) (with_z e'.(ez) d, e').

Record joint (k : nat) (d : dist) (e : esys) : Prop := {
  jo_dist : dinv k d;
  jo_view : share d e = e;
  jo_refs : egress_ref e ⊎ own d ⊆ dheld d
}.

Lemma not_done d : count_inv d -> (rank d.(ing) < 7)%nat -> d.(done) = false.
Proof. intros Hn Hr. rewrite (ci_done _ Hn). destruct (Nat.leb_spec 7 (rank (ing d))); [lia|done]. Qed.

Lemma busy_rank d i p : count_inv d -> d.(workers) !! i = Some p -> p <> Exited -> (rank d.(ing) < 4)%nat.
Proof.
  intros Hn Hw Hne. destruct (decide (rank (ing d) < 4)%nat) as [|Hge]; [done|]. exfalso. apply Hne.
  eapply all_exited; [apply (ci_waited _ Hn); lia|exact Hw].
Qed.

(** What else of the track a subscriber sees. *)
Definition same_view (d d' : dist) : Prop :=
  d'.(nseq) = d.(nseq) /\ d'.(done) = d.(done) /\ d'.(ddrops) = d.(ddrops) /\ d'.(gs) = d.(gs) /\
  d'.(hist) = d.(hist) /\ d'.(nhead) = d.(nhead) /\ d'.(ndrops) = d.(ndrops).

(** A step on the ring alone is one of the environment. *)
Lemma env_ring_step d d' e :
  d'.(z) = d.(z) \/ fstep d.(z) d'.(z) -> (dring d').(GroupRing.rpos) = (dring d).(GroupRing.rpos) ->
  egress_ref e ⊎ own d' ⊆ dheld d' -> same_view d d' -> env (share d e) (share d' e) \/ share d' e = share d e.
Proof.
  intros [Hz|Hf] Hp Hr (H1 & H2 & H3 & H4 & H5 & H6 & H7).
  - right. unfold share. by rewrite Hz, H1, H2, H3, H4, H5, H6, H7.
  - left. unfold share at 2. rewrite H1, H2, H3, H4, H5, H6, H7. apply (env_ring (share d e) d'.(z)); [exact Hf|exact Hp|].
    intros c Hc. unfold egress_ref in Hr. change (mine e = Some c) in Hc. rewrite Hc in Hr. cbn in Hr.
    change (c ∈ dheld d'). multiset_solver.
Qed.

(** A worker keeps its references, or gives its own back. *)
Lemma worker_refs i o ch d d' e :
  fillWorker i o ch d = Some d' -> egress_ref e ⊎ own d ⊆ dheld d -> egress_ref e ⊎ own d' ⊆ dheld d'.
Proof.
  intros Hs Hr. unfold fillWorker in Hs. destruct (workers d !! i) as [p|] eqn:Hw; [|done].
  destruct p as [|j|j b|j b x|j b|j b|j b|j b|b| |]; repeat case_match; simplify_eq.
  all: try match goal with Hw : _ = Some _ |- _ ⊎ own ?e ⊆ _ => assert (Hp : pending e ≡ₚ pending d) by
    (eapply pending_same; [exact Hw|reflexivity|reflexivity|cbn; try match goal with H : jobs _ = _ |- _ => rewrite H end; reflexivity]);
    rewrite (own_perm _ _ Hp); exact Hr end.
  assert (Hp : pending d ≡ₚ j :: pending (with_worker i (PutBuf b) d)) by (by eapply (pending_drop d _ i)).
  unfold own in *. rewrite Hp in Hr. cbn in Hr.
  change (egress_ref e ⊎ list_to_set_disj (pending (with_worker i (PutBuf b) d)).*1 ⊆ dheld d ∖ {[+ j.1 +]}). multiset_solver.
Qed.

Lemma worker_rpos i o ch d d' :
  fillWorker i o ch d = Some d' -> (dring d').(GroupRing.rpos) = (dring d).(GroupRing.rpos).
Proof.
  intros Hs. unfold fillWorker in Hs. destruct (workers d !! i) as [p|]; [|done].
  destruct p; repeat case_match; simplify_eq; try reflexivity.
  all: try match goal with H : pool_Get _ _ = _ |- _ => by apply pool_Get_spec in H as [_ ->] end.
  all: first [apply append_same|apply complete_rpos|apply decrRef_rpos].
Qed.

Lemma worker_env i o ch d d' e k :
  fillWorker i o ch d = Some d' -> dinv k d -> egress_ref e ⊎ own d ⊆ dheld d ->
  env (share d e) (share d' e) \/ share d' e = share d e.
Proof.
  intros Hs Hi Hr. pose proof (worker_refs _ _ _ _ _ _ Hs Hr) as Hr'. pose proof (worker_rpos _ _ _ _ _ Hs) as Hp.
  pose proof (step_fstep (LWorker i o ch) d d' Hs I (di_ring _ _ Hi)) as Hz.
  unfold fillWorker in Hs. destruct (workers d !! i) as [p|] eqn:Hw; [|done].
  assert (Hdn : p <> Exited -> done d = false).
  { intros Hne. apply not_done; [apply Hi|]. pose proof (busy_rank d i p (di_count _ _ Hi) Hw Hne). lia. }
  destruct p; repeat case_match; simplify_eq; try (by apply env_ring_step).
  all: left; by apply (env_notify (share d e)), Hdn.
Qed.

Lemma dropper_env o d d' e k :
  forwardDrops o d = Some d' -> label_ok (LDrop o) d -> dinv k d -> env (share d e) (share d' e) \/ share d' e = share d e.
Proof.
  intros Hs Hl Hi. unfold forwardDrops in Hs.
  assert (Hdn : d.(dropper) <> Over -> done d = false).
  { intros Hne. apply not_done; [apply Hi|]. pose proof (ci_over _ (di_count _ _ Hi)).
    destruct (decide (6 <= rank (ing d))%nat); [by apply Hne in H|lia]. }
  destruct (dropper d); repeat case_match; simplify_eq.
  - left. by apply (env_drop (share d e)); [apply Hdn|apply Hl..].
  - by right.
  - left. by apply (env_notify (share d e)), Hdn.
Qed.

Lemma ingest_env o v ch d d' e k :
  ingest o v ch d = Some d' -> label_ok (LIngest o v ch) d -> dinv k d -> egress_ref e ⊎ own d ⊆ dheld d ->
  egress_ref e ⊎ own d' ⊆ dheld d' /\ (env (share d e) (share d' e) \/ share d' e = share d e).
Proof.
  intros Hs Hl Hi Hr. pose proof (di_count _ _ Hi) as Hn. pose proof (ci_closed _ Hn) as Hcl. pose proof (di_told _ _ Hi) as [Hth Htd].
  assert (Hsame : forall d1, d1.(z) = d.(z) -> (forall f, jobs_of f d1 ≡ₚ jobs_of f d) -> egress_ref e ⊎ own d1 ⊆ dheld d1).
  { intros d1 Hz Hj. unfold dheld. rewrite Hz, (own_perm d d1 (Hj _)). exact Hr. }
  unfold ingest in Hs. destruct (ing d) eqn:Hing; repeat case_match; simplify_eq; try (cbn in Hcl; congruence).
  all: try (split; [apply Hsame; [done|]; intros f; unfold jobs_of; cbn; rewrite Hing; cbn; solve_Permutation|by right]).
  - unfold reserve_group in *. destruct (reserve s ch (dring d)) as [c r'] eqn:Hres. simplify_eq.
    set (j := (c, Z.of_nat (length (gs d)) + 1)) in *. set (d' := with_ing _ _).
    assert (Hp : pending d' ≡ₚ j :: pending d) by (unfold pending, jobs_of; cbn; by rewrite Hing).
    split.
    + unfold own in *. rewrite Hp. cbn. change (dheld d') with ({[+ c +]} ⊎ dheld d). multiset_solver.
    + left. apply (env_reserve (share d e) s ch c r'); [|by apply (rp_ing _ (di_ring _ _ Hi)); auto|apply Hl|done].
      apply (not_done d Hn). rewrite Hing. cbn. lia.
  - split; [apply Hsame; [done|]; intros f; unfold jobs_of; cbn; rewrite Hing; cbn; solve_Permutation|].
    left. pose proof (ci_over _ Hn) as Ho. rewrite Hing in Ho. specialize (Ho ltac:(cbn; lia)).
    assert (Hu : untold d = []) by (apply (waited_idle d Hn); [rewrite Hing; cbn; lia|done]).
    apply (env_done (share d e)); cbn.
    + destruct Hth as [->|Hne]; [|done]. symmetry. apply (hi_pos _ _ (rp_hist _ (di_ring _ _ Hi))).
    + destruct Htd as [->|Ha]; [done|congruence].
Qed.

Lemma step_env l d d' e k :
  step l d = Some d' -> label_ok l d -> dinv k d -> egress_ref e ⊎ own d ⊆ dheld d ->
  egress_ref e ⊎ own d' ⊆ dheld d' /\ (env (share d e) (share d' e) \/ share d' e = share d e).
Proof.
  intros Hs Hl Hi Hr. destruct l as [o v ch|i o ch|o|]; cbn [step] in Hs.
  - by eapply ingest_env.
  - split; [by eapply worker_refs|by eapply worker_env].
  - split; [|by eapply dropper_env]. unfold forwardDrops in Hs. destruct (dropper d); repeat case_match; by simplify_eq.
  - simplify_eq. split; [done|by right].
Qed.

Lemma with_z_same d : with_z d.(z) d = d.
Proof. by destruct d. Qed.

(** What a subscriber does to the ring, a reader may do. *)
Lemma egress_reads d e e' o k :
  estep sort codeInternal codeTimeout o k e = Some e' -> share d e = e -> egress_ref e ⊎ own d ⊆ dheld d ->
  rtc reader d (with_z e'.(ez) d) /\ share (with_z e'.(ez) d) e' = e' /\ egress_ref e' ⊎ own d ⊆ dheld (with_z e'.(ez) d).
Proof.
  intros Hs Hv Hr. rewrite <- Hv in Hs.
  assert (Hidle : forall e1, e1.(ez) = d.(z) -> egress_ref e1 = ∅ -> share d e1 = e1 ->
    rtc reader d (with_z e1.(ez) d) /\ share (with_z e1.(ez) d) e1 = e1 /\ egress_ref e1 ⊎ own d ⊆ dheld (with_z e1.(ez) d)).
  { intros e1 Hz Hm Hsh. rewrite Hz, with_z_same, Hm. split; [done|]. split; [done|]. multiset_solver. }
  unfold estep in Hs. cbn [at_ share] in Hs.
  assert (Heh : eheld (share d e) = dheld d) by done. assert (Her : ering (share d e) = dring d) by done. rewrite ?Her, ?Heh in Hs.
  destruct (at_ e) as [f ls|ls last sk|ls last la sk|ls last sk|ls last c s|ls last sk|ls last sk|ls last sk sn|] eqn:Hat.
  4: { destruct (get last (dring d)) as [[c|] r'] eqn:Hg; [|simplify_eq; by apply Hidle].
    destruct (heap r' !! c) as [gc|] eqn:Hc; [|done]. cbv zeta in Hs.
    pose proof (reader_get d last c r' Hg) as Hget. set (d1 := with_z _ d) in Hget.
    set (w := if sk then _ else _) in Hs.
    assert (Hw : w.(src) = d.(ddrops) /\ w.(Drops.hist) = d.(hist)) by (unfold w; by destruct sk). clearbody w. destruct Hw as [Hw1 Hw2].
    case_match; simplify_eq.
    - assert (Hd : reader d1 (with_z (mkSys (decrRef c r') (dheld d), d.(z).2) d)).
      { assert (Heq : ({[+ c +]} ⊎ dheld d) ∖ {[+ c +]} = dheld d) by multiset_solver.
        pose proof (reader_decr d1 c) as Hd. change (dheld d1) with ({[+ c +]} ⊎ dheld d) in Hd. rewrite Heq in Hd. apply Hd.
        change (own d1) with (own d). multiset_solver. }
      split; [eapply rtc_l; [exact Hget|by apply rtc_once]|]. split; [unfold share; cbn; rewrite <- Hw1, <- Hw2; by destruct w|].
      change (∅ ⊎ own d ⊆ dheld d). multiset_solver.
    - split; [by apply rtc_once|]. split; [unfold share; cbn; rewrite <- Hw1, <- Hw2; by destruct w|].
      change (list_to_set_disj [c] ⊎ own d ⊆ {[+ c +]} ⊎ dheld d). cbn. multiset_solver. }
  4: { cbv zeta in Hs. assert (Hm : egress_ref e = {[+ c +]}) by (unfold egress_ref, mine; rewrite Hat; cbn; multiset_solver).
    rewrite Hm in Hr. assert (Hd : reader d (with_z (mkSys (decrRef c (dring d)) (dheld d ∖ {[+ c +]}), d.(z).2) d)).
    { apply reader_decr. multiset_solver. }
    destruct (deliverGroup o); simplify_eq; (split; [by apply rtc_once|]); (split; [done|]);
      change (∅ ⊎ own d ⊆ dheld d ∖ {[+ c +]}); multiset_solver. }
  all: repeat case_match; simplify_eq; by apply Hidle.
Qed.

Lemma readers_dinv k d d' : rtc reader d d' -> dinv k d -> dinv k d'.
Proof. induction 1 as [|d1 d2 d3 Hr _ IH]; [done|]. intros Hi. apply IH. by eapply reader_dinv. Qed.

Lemma jstep_joint k d e d' e' :
  jstep (d, e) (d', e') -> joint k d e -> joint k d' e' /\ rtc (any sort codeInternal codeTimeout) e e'.
Proof.
  intros Hs [Hi Hv Hr]. inversion Hs as [l ? ? ? H2 H5|? ? ? H2 H5|? ? ? o q H0]; subst.
  - destruct (step_env _ _ _ e _ H2 H5 Hi Hr) as [Hr' He]. rewrite Hv in He.
    split; [split; [by eapply step_dinv|done|exact Hr']|]. destruct He as [He| ->]; [apply rtc_once; by left|done].
  - split; [split; [by eapply reader_dinv|done|done]|].
    destruct (env_ring_step d d' e) as [He|He]; [right; by apply reader_fstep| |done|by destruct H2|..].
    + destruct H2 as [p c r' Hg|c _]; [by apply (quiet_get _ _ _ _ Hg)|apply decrRef_rpos].
    + rewrite Hv in He. apply rtc_once. by left.
    + rewrite Hv in He. by rewrite He.
  - destruct (egress_reads _ _ _ _ _ H0 Hv Hr) as (Hrd & Hsh & Hre).
    split; [split; [by eapply readers_dinv|done|done]|]. apply rtc_once. right. eauto.
Qed.
End Joint.

Lemma reachable_step n k d d' : reachable n k d -> dstep d d' -> reachable n k d'.
Proof. intros (d0 & Hn & Hr) Hs. exists d0. split; [done|]. by eapply rtc_r. Qed.

(** ** The guarantees *)

(** At most [fills] groups are between fillSem and the end of their fill, so that
    the send on fillJobs never blocks; no channel is closed twice or sent on
    closed; and the filler of each group in hand holds a reference of its own. *)
Theorem fills_bounded n k d :
  (0 < n)%nat -> reachable n k d ->
  (length d.(jobs) + length (omap busy d.(workers)) <= k)%nat /\
  (forall j, d.(ing) = Sending j ->
     step (LIngest None false None) d = Some (with_ing Accept (with_chans d.(sem) (d.(jobs) ++ [j]) false d))) /\
  d.(ing) <> IngestPanic /\ own d ⊆ dheld d /\ NoDup (pending d).*1.
Proof.
  intros Hn Hr. destruct (reachable_dinv _ _ _ Hn Hr) as [Hf Hc Hri Hco Ht Hb]. pose proof (ci_sem _ Hc) as Hs. pose proof (ci_cap _ Hc).
  split; [lia|]. split; [|split; [apply Hc|split; [apply Hri|apply Hri]]].
  intros j Hj. cbn. unfold ingest. rewrite Hj. pose proof (ci_closed _ Hc) as Hcl. rewrite Hj in Hcl, Hs. cbn in Hcl, Hs.
  rewrite Hcl, decide_True by lia. done.
Qed.

(** The distributor uses the ring as GroupRing.v supposes: whatever the
    interleaving of ingest, the workers and the readers, each of their steps is a
    step of the ring's users, so that what holds of the ring holds here. *)
Theorem distributor_refines_ring n k d : (0 < n)%nat -> reachable n k d -> GroupRing.reachable n d.(z).
Proof.
  intros Hn (d0 & Hd0 & Hr). pose proof (new_dinv _ _ _ Hn Hd0) as Hi0. unfold newTrackDistributor in Hd0. case_decide; [done|].
  assert (Hz : d0.(z) = (init n, ∅)) by (by simplify_eq). clear Hd0. unfold GroupRing.reachable. rewrite <- Hz. clear Hz.
  induction Hr as [|d1 d2 d3 Hs _ IH]; [done|].
  assert (Hi2 : dinv k d2) by (destruct Hs; [by eapply step_dinv|by eapply reader_dinv]).
  destruct (dstep_fstep _ _ Hs (di_ring _ _ Hi0)) as [<-|Hf]; [by apply IH|]. eapply rtc_l; [exact Hf|by apply IH].
Qed.




(** ** Schedules *)

Definition seq_okb (s : Z) : bool := (0 <=? s) && (s <? 2 ^ 64 - 1).

Definition label_okb (l : label) (d : dist) : bool :=
  match l with
  | LIngest o _ _ =>
      match o with Some s => seq_okb s | None => true end && ((dring d).(GroupRing.rpos) + 1 <? 2 ^ 64)
  | LDrop (Some x) => seq_okb x.(StartGroup) && seq_okb x.(EndGroup) && (Z.of_nat (length d.(hist)) + 1 <? 2 ^ 64)
  | _ => true
  end.

Fixpoint run_labels (ls : list label) (d : dist) : option dist :=
  match ls with [] => Some d | l :: t => if label_okb l d then step l d ≫= run_labels t else None end.

Lemma label_okb_ok l d : label_okb l d = true -> label_ok l d.
Proof.
  destruct l as [o v ch|i o ch|[x|]|]; cbn; try done; intros Hb.
  - bool_prop. split; [|done]. intros s ->. unfold seq_okb, seq_ok in *. bool_prop. lia.
  - bool_prop. unfold drop_ok, seq_okb, seq_ok in *. bool_prop. lia.
Qed.

Lemma run_labels_runs ls d d' : run_labels ls d = Some d' -> runs ls d d'.
Proof.
  revert d. induction ls as [|l t IH]; intros d; cbn; [intros [= ->]; constructor|].
  destruct (label_okb l d) eqn:Hl; [|done]. destruct (step l d) as [d1|] eqn:Hs; [|done]. cbn. intros Hr.
  econstructor; [exact Hs|by apply label_okb_ok|by apply IH].
Qed.

Lemma runs_reachable ls n k d d' : runs ls d d' -> reachable n k d -> reachable n k d'.
Proof.
  intros Hr. induction Hr as [|l t d d1 d2 Hs Hl _ IH]; [done|]. intros Hre. apply IH. eapply reachable_step; [done|].
  by eapply dstep_own.
Qed.

Definition new_dist (n k : nat) : dist := default (mkD (init n, ∅) 0 false (Ring.newDropDistributor 0) 0 [] false Gone [] Over
  false false [] [] 0 0 ∅ ∅) (newTrackDistributor n k).

Lemma new_reachable n k : (0 < k)%nat -> reachable n k (new_dist n k).
Proof. intros Hk. unfold new_dist, newTrackDistributor, reachable, newTrackDistributor. rewrite decide_False by lia. eauto using rtc_refl. Qed.

Definition acts (n : nat) : list label := replicate n (LIngest None false None).
Definition works (n : nat) : list label := replicate n (LWorker 0 None None).

(** Group 10 is accepted and its first frame read; the track is then read to
    its end and shut down. *)
Definition one_group : list label :=
  [LIngest (Some 10) false None] ++ acts 3 ++ works 2 ++ [LWorker 0 (Some [1; 2]) None] ++ works 2 ++ works 6.
Definition whole_track : list label :=
  one_group ++ [LDrop None] ++ acts 3 ++ works 1 ++ acts 5.
(** Group 10 is accepted and held open; the track ends, and then the handler
    drains. *)
Definition drained_late : list label :=
  [LIngest (Some 10) false None] ++ acts 3 ++ works 2 ++ [LDrop None] ++ acts 3 ++ [LCtx].

(** A handler that drains after its track ended, while the publisher still
    holds a group open, does not close the subscription: ingest read whether the
    context ended before, waits for the worker, and nothing but that worker's
    read, the publisher's to end, can happen any more. *)
Theorem late_drain_blocks :
  exists d j b, reachable 1 1 d /\ d.(ctxDone) = true /\ d.(srcClosed) = false /\ d.(ing) = WaitFills false /\
    d.(workers) = [Read j b] /\ forall l d', step l d = Some d' -> d' = d \/ exists o ch, l = LWorker 0 o ch.
Proof.
  destruct (run_labels drained_late (new_dist 1 1)) as [d|] eqn:Hr; [|vm_compute in Hr; discriminate Hr].
  assert (Hf : (d.(ctxDone), d.(srcClosed), d.(ing), d.(workers), d.(dropper)) =
               (true, false, WaitFills false, [Read (0%nat, 1) 0%nat], Over)).
  { apply (f_equal (fmap (fun d => (d.(ctxDone), d.(srcClosed), d.(ing), d.(workers), d.(dropper))))) in Hr. cbn in Hr.
    apply (inj Some). rewrite <- Hr. by vm_compute. }
  apply run_labels_runs in Hr. injection Hf as Hc Hs Hi Hw Hd. exists d, (0%nat, 1), 0%nat.
  split; [eapply runs_reachable; [exact Hr|apply new_reachable; lia]|]. do 4 (split; [done|]).
  intros [o v ch|i o ch|o|] d' Hst; cbn in Hst.
  - unfold ingest in Hst. by rewrite Hi, Hw in Hst.
  - unfold fillWorker in Hst. rewrite Hw in Hst. destruct i as [|i]; [by right; eauto|done].
  - unfold forwardDrops in Hst. by rewrite Hd in Hst.
  - left. injection Hst as <-. rewrite <- Hc. by destruct d.
Qed.

(** ** Witnesses *)

Lemma fills_bounded_witness : (length (new_dist 2 1).(jobs) + length (omap busy (new_dist 2 1).(workers)) <= 1)%nat.
Proof. apply (fills_bounded 2 1); [lia|apply new_reachable; lia]. Defined.

Lemma distributor_refines_ring_witness : GroupRing.reachable 2 (new_dist 2 1).(z).
Proof. apply (distributor_refines_ring 2 1); [lia|apply new_reachable; lia]. Defined.

Definition after_run (ls : list label) : dist := default (new_dist 2 1) (run_labels ls (new_dist 2 1)).

Lemma after_run_runs ls d : run_labels ls (new_dist 2 1) = Some d -> runs ls (new_dist 2 1) (after_run ls).
Proof. intros Hr. unfold after_run. rewrite Hr. by apply run_labels_runs. Qed.

Lemma after_run_reachable ls d : run_labels ls (new_dist 2 1) = Some d -> reachable 2 1 (after_run ls).
Proof. intros Hr. eapply runs_reachable; [by eapply after_run_runs|apply new_reachable; lia]. Qed.

Lemma whole_track_runs : exists d, run_labels whole_track (new_dist 2 1) = Some d.
Proof. destruct (run_labels _ _) as [d|] eqn:Hr; [by exists d|vm_compute in Hr; discriminate Hr]. Qed.



Definition ending : list label := one_group ++ [LDrop None] ++ acts 3.
Definition the_end : list label := works 1 ++ acts 5.

Definition ends_well (d : dist) : bool :=
  shutdown d && (fuel d =? 7)%nat && match run_labels the_end d with Some _ => true | None => false end.

Lemma ending_runs : exists d d', runs ending (new_dist 2 1) d /\ runs the_end d d' /\ shutdown d = true /\ fuel d = 7%nat.
Proof.
  assert (Hs : match run_labels ending (new_dist 2 1) with Some d => ends_well d | None => false end = true) by (by vm_compute).
  destruct (run_labels ending (new_dist 2 1)) as [d|] eqn:Hd; [|discriminate Hs].
  apply andb_prop in Hs as [[Hsh Hf]%andb_prop Hr]. apply Nat.eqb_eq in Hf.
  destruct (run_labels the_end d) as [d'|] eqn:Hd'; [|discriminate Hr].
  exists d, d'. split; [by apply run_labels_runs|]. split; [by apply run_labels_runs|]. exact (conj Hsh Hf).
Qed.

