(* ===== verification/Tracks.v ===== *)
(** * Tracks: who subscribes upstream

    How the handler of one announced broadcast (src/internal/relay/handler.go)
    answers the subscribers of its tracks: [ServeTrack], the deduplicated
    [subscribe], the [redirectCache], the [trackManager], and [TrackInfo].

    singleflight, a dependency, is taken at what it documents: while a call for a
    key runs, callers of that key join it and receive its result. Each subscriber,
    each flight and each distributor is a goroutine; one step is one operation on
    shared state (a map, the flights, the announcement). What the publisher
    answers is the environment's, as is when a distributor's subscription ends:
    of a distributor's life (Distributor.v) only the end of its upstream
    subscription and its removal matter here, in that order. Logs and metrics are
    left out. *)
From S2P Require Import Prelude.

Open Scope Z_scope.

(** moqt.Redirect. *)
Record Redirect := mkRedirect { URI : string; BroadcastPath : string; TrackName : string }.

#[export] Instance Redirect_eq_dec : EqDecision Redirect.
Proof. solve_decision. Defined.

Definition maxCachedRedirects : nat := 64.
#[global] Arguments maxCachedRedirects : simpl never.

(** ** redirectCache *)

Module Redirects.

(** [load]. *)
Definition load (name : string) (c : gmap string Redirect) : option Redirect := c !! name.

(** [store]: a full cache loses an entry first, whichever the iteration of the
    map yields ([victim]). *)
Definition store (victim : gmap string Redirect -> option string) (name : string) (to : Redirect) (c : gmap string Redirect) : gmap string Redirect :=
  let c1 := if bool_decide (c !! name = None) && (maxCachedRedirects <=? size c)%nat
            then match victim c with Some old => delete old c | None => c end else c in
  <[name := to]> c1.

(** Iterating over a map that has entries yields one of them. *)
Class Iterates (victim : gmap string Redirect -> option string) :=
  iterates c : match victim c with Some k => is_Some (c !! k) | None => c = ∅ end.

Lemma store_size victim `{!Iterates victim} name to c :
  (size c <= maxCachedRedirects)%nat -> (size (store victim name to c) <= maxCachedRedirects)%nat.
Proof.
  intros Hs. unfold store. destruct (c !! name) as [r|] eqn:Hn; cbn.
  - rewrite map_size_insert_Some; [done|]. by eexists.
  - destruct (Nat.leb_spec maxCachedRedirects (size c)).
    + pose proof (iterates c) as Hv. destruct (victim c) as [k|]; [|subst; rewrite map_size_empty in *; unfold maxCachedRedirects in *; lia].
      rewrite map_size_insert_None by (apply lookup_delete_None; auto). rewrite map_size_delete_Some by done.
      unfold maxCachedRedirects in *. lia.
    + rewrite map_size_insert_None by done. lia.
Qed.

Lemma store_lookup victim name to c k r : store victim name to c !! k = Some r -> (k = name /\ r = to) \/ c !! k = Some r.
Proof.
  unfold store. intros [[<- <-]|[_ Hk]]%lookup_insert_Some; [by left|right].
  repeat case_match; try done. by apply lookup_delete_Some in Hk as [_ ?].
Qed.

End Redirects.

(** ** The handler *)

(** What [session.Subscribe] answers. *)
Inductive answer := Subscribed | Redirected (to : Redirect) | Failed.

(** What a flight returns: the distributor and whether it was opened here, the
    publisher's redirect, or errTrackNotFound. *)
Inductive outcome := Track (d : nat) (opened : bool) | RedirectError (to : Redirect) | NotFound.

(** Where [subscribe] is: at tracks.load, at IsActive, at redirects.load, at
    Subscribe, at redirects.store, at newTrackDistributor and its ingest, at
    tracks.store; about to return. *)
Inductive flight :=
| FLoad | FActive | FRedirect | FAsk | FKeep (to : Redirect) | FOpen | FStore (d : nat) | FReturn (o : outcome).

(** Where ServeTrack is: at tracks.load, at redirects.load, at IsActive, at
    DoChan, at the select; serving, or done. *)
Inductive caller :=
| CLoad | CRedirect | CActive (to : Redirect) | CJoin | CWait (o : option outcome)
| CEgress (d : nat) (fromStart : bool) | CPass (to : Redirect) | CRefused | CNotFound | CLeft.

(** A distributor's upstream subscription is open, closed, or the distributor
    has removed itself. *)
Inductive life := Open | Closed | Removed.

Record handler := mkHandler {
  tracks : gmap string nat;
  redirects : gmap string Redirect;
  flights : gmap string flight;
  dists : list (string * life);
  callers : list (string * caller);
  active : bool;
  (** What the publisher was asked and answered, and how often. *)
  asked : list (string * answer)
}.

Definition with_tracks (m : gmap string nat) (h : handler) : handler :=
  mkHandler m h.(redirects) h.(flights) h.(dists) h.(callers) h.(active) h.(asked).
Definition with_flight (n : string) (f : flight) (h : handler) : handler :=
  mkHandler h.(tracks) h.(redirects) (<[n := f]> h.(flights)) h.(dists) h.(callers) h.(active) h.(asked).
Definition with_caller (i : nat) (n : string) (c : caller) (h : handler) : handler :=
  mkHandler h.(tracks) h.(redirects) h.(flights) h.(dists) (<[i := (n, c)]> h.(callers)) h.(active) h.(asked).
Definition with_redirects (m : gmap string Redirect) (h : handler) : handler :=
  mkHandler h.(tracks) m h.(flights) h.(dists) h.(callers) h.(active) h.(asked).
Definition with_dists (l : list (string * life)) (h : handler) : handler :=
  mkHandler h.(tracks) h.(redirects) h.(flights) l h.(callers) h.(active) h.(asked).
Definition with_asked (a : list (string * answer)) (h : handler) : handler :=
  mkHandler h.(tracks) h.(redirects) h.(flights) h.(dists) h.(callers) h.(active) a.

Definition newRelayHandler : handler := mkHandler ∅ ∅ ∅ [] [] true [].

(** passRedirect: a redirect to another relay is refused. [sent] is whether
    tw.Redirect succeeded. *)
Definition passRedirect (sent : bool) (to : Redirect) : caller :=
  if negb (String.eqb to.(URI) "") then CRefused else if sent then CPass to else CNotFound.

(** What ServeTrack does with a flight's result. *)
Definition receive (sent : bool) (o : outcome) : caller :=
  match o with RedirectError to => passRedirect sent to | NotFound => CNotFound | Track d opened => CEgress d opened end.

Section Steps.
Context (victim : gmap string Redirect -> option string).

(** The next operation of [subscribe] for [name]. [a] is what Subscribe
    answers. Returning ends the flight and hands the result to all who joined. *)
Definition subscribe (name : string) (a : answer) (h : handler) : option handler :=
  match h.(flights) !! name with
  | Some FLoad =>
      Some (with_flight name (match h.(tracks) !! name with Some d => FReturn (Track d false) | None => FActive end) h)
  | Some FActive => Some (with_flight name (if h.(active) then FRedirect else FReturn NotFound) h)
  | Some FRedirect =>
      Some (with_flight name (match Redirects.load name h.(redirects) with Some to => FReturn (RedirectError to) | None => FAsk end) h)
  | Some FAsk =>
      Some (with_flight name (match a with Subscribed => FOpen | Redirected to => FKeep to | Failed => FReturn NotFound end)
             (with_asked (h.(asked) ++ [(name, a)]) h))
  | Some (FKeep to) =>
      Some (with_flight name (FReturn (RedirectError to)) (with_redirects (Redirects.store victim name to h.(redirects)) h))
  | Some FOpen => Some (with_flight name (FStore (length h.(dists))) (with_dists (h.(dists) ++ [(name, Open)]) h))
  | Some (FStore d) => Some (with_flight name (FReturn (Track d true)) (with_tracks (<[name := d]> h.(tracks)) h))
  | Some (FReturn o) =>
      Some (mkHandler h.(tracks) h.(redirects) (delete name h.(flights)) h.(dists)
             ((fun x => match x with
                        | (n, CWait None) => if String.eqb n name then (n, CWait (Some o)) else x
                        | _ => x end) <$> h.(callers)) h.(active) h.(asked))
  | None => None
  end.

(** The next operation of subscriber [i]'s ServeTrack. [leave] is whether its
    context ended and the select took that case, [sent] as in passRedirect. *)
Definition ServeTrack (i : nat) (leave sent : bool) (h : handler) : option handler :=
  match h.(callers) !! i with
  | Some (n, c) =>
      match c with
      | CLoad => Some (with_caller i n (match h.(tracks) !! n with Some d => CEgress d false | None => CRedirect end) h)
      | CRedirect => Some (with_caller i n (match Redirects.load n h.(redirects) with Some to => CActive to | None => CJoin end) h)
      | CActive to => Some (with_caller i n (if h.(active) then passRedirect sent to else CJoin) h)
      | CJoin =>
          let h' := with_caller i n (CWait None) h in
          Some (match h.(flights) !! n with Some _ => h' | None => with_flight n FLoad h' end)
      | CWait o =>
          if leave then Some (with_caller i n CLeft h)
          else match o with Some o => Some (with_caller i n (receive sent o) h) | None => None end
      | _ => None
      end
  | None => None
  end.

(** The end of distributor [d]'s upstream subscription, and its removal:
    CompareAndDelete. *)
Definition close_upstream (d : nat) (h : handler) : option handler :=
  match h.(dists) !! d with Some (n, Open) => Some (with_dists (<[d := (n, Closed)]> h.(dists)) h) | _ => None end.

Definition remove (d : nat) (h : handler) : option handler :=
  match h.(dists) !! d with
  | Some (n, Closed) =>
      Some (with_tracks (if bool_decide (h.(tracks) !! n = Some d) then delete n h.(tracks) else h.(tracks))
             (with_dists (<[d := (n, Removed)]> h.(dists)) h))
  | _ => None
  end.

Inductive label :=
| LArrive (n : string) | LCaller (i : nat) (leave sent : bool) | LFlight (n : string) (a : answer)
| LClose (d : nat) | LRemove (d : nat) | LInactive.

Definition step (l : label) (h : handler) : option handler :=
  match l with
  | LArrive n => Some (mkHandler h.(tracks) h.(redirects) h.(flights) h.(dists) (h.(callers) ++ [(n, CLoad)]) h.(active) h.(asked))
  | LCaller i leave sent => ServeTrack i leave sent h
  | LFlight n a => subscribe n a h
  | LClose d => close_upstream d h
  | LRemove d => remove d h
  | LInactive => Some (mkHandler h.(tracks) h.(redirects) h.(flights) h.(dists) h.(callers) false h.(asked))
  end.

Definition hstep (h h' : handler) : Prop := exists l, step l h = Some h'.
Definition reachable : handler -> Prop := rtc hstep newRelayHandler.

Fixpoint run (ls : list label) (h : handler) : option handler :=
  match ls with [] => Some h | l :: t => step l h ≫= run t end.

Lemma handler_run ls h h' : run ls h = Some h' -> rtc hstep h h'.
Proof.
  revert h. induction ls as [|l t IH]; intros h; cbn; [intros [= ->]; done|].
  destruct (step l h) as [h1|] eqn:Hs; [|done]. cbn. intros Hr. eapply rtc_l; [by exists l|by apply IH].
Qed.

(** ** Invariant *)

(** Between the miss of tracks.load and tracks.store. *)
Definition asking (f : flight) : bool :=
  match f with FActive | FRedirect | FAsk | FKeep _ | FOpen => true | _ => false end.

Definition outcome_ok (h : handler) (n : string) (o : outcome) : Prop :=
  match o with
  | Track d _ => exists l, h.(dists) !! d = Some (n, l)
  | RedirectError to => (n, Redirected to) ∈ h.(asked)
  | NotFound => True
  end.

Definition flight_ok (h : handler) (n : string) (f : flight) : Prop :=
  match f with
  | FKeep to => (n, Redirected to) ∈ h.(asked)
  | FStore d => exists l, h.(dists) !! d = Some (n, l)
  | FReturn o => outcome_ok h n o
  | _ => True
  end.

Definition caller_ok (h : handler) (n : string) (c : caller) : Prop :=
  match c with
  | CActive to => (n, Redirected to) ∈ h.(asked)
  | CWait None => is_Some (h.(flights) !! n)
  | CWait (Some o) => outcome_ok h n o
  | CEgress d _ => exists l, h.(dists) !! d = Some (n, l)
  | CPass to => (n, Redirected to) ∈ h.(asked) /\ to.(URI) = ""
  | _ => True
  end.

Record inv (h : handler) : Prop := {
  i_open d n : h.(dists) !! d = Some (n, Open) -> h.(tracks) !! n = Some d \/ h.(flights) !! n = Some (FStore d);
  i_tracks n d : h.(tracks) !! n = Some d -> exists l, h.(dists) !! d = Some (n, l);
  i_asking n f : h.(flights) !! n = Some f -> asking f = true -> h.(tracks) !! n = None;
  i_store n d : h.(flights) !! n = Some (FStore d) -> h.(tracks) !! n = None;
  i_flight n f : h.(flights) !! n = Some f -> flight_ok h n f;
  i_caller i n c : h.(callers) !! i = Some (n, c) -> caller_ok h n c;
  i_redirects n to : h.(redirects) !! n = Some to -> (n, Redirected to) ∈ h.(asked);
  i_size : (size h.(redirects) <= maxCachedRedirects)%nat
}.

(** Distributors keep their track, and answers are not forgotten. *)
Definition later (h h' : handler) : Prop :=
  (forall d n l, h.(dists) !! d = Some (n, l) -> exists l', h'.(dists) !! d = Some (n, l')) /\ h.(asked) ⊆ h'.(asked).

Lemma later_same h h' : h'.(dists) = h.(dists) -> h'.(asked) = h.(asked) -> later h h'.
Proof. intros Hd Ha. unfold later. rewrite Hd, Ha. eauto. Qed.

Lemma outcome_later h h' n o : later h h' -> outcome_ok h n o -> outcome_ok h' n o.
Proof. intros [Hd Ha]. destruct o; cbn; [intros [l Hl]; by eapply Hd|apply Ha|done]. Qed.

Lemma flight_later h h' n f : later h h' -> flight_ok h n f -> flight_ok h' n f.
Proof. intros Hl. destruct f; cbn; [done..|apply Hl|done|intros [l Hx]; by eapply (proj1 Hl)|by apply outcome_later]. Qed.

Lemma caller_later h h' n c :
  later h h' -> (is_Some (h.(flights) !! n) -> is_Some (h'.(flights) !! n)) -> caller_ok h n c -> caller_ok h' n c.
Proof.
  intros Hl Hf. destruct c as [| |to| |[o|]|d b|to| | |]; cbn; try done; [apply Hl|by apply outcome_later|intros [l Hx]; by eapply (proj1 Hl)|].
  intros [? ?]. split; [by apply (proj2 Hl)|done].
Qed.

(** A step of [name]'s flight that keeps the tracks. *)
Lemma flight_inv h h' name f f' :
  inv h -> later h h' -> h.(flights) !! name = Some f -> h'.(flights) = <[name := f']> h.(flights) ->
  h'.(tracks) = h.(tracks) -> h'.(callers) = h.(callers) ->
  (forall d n, h'.(dists) !! d = Some (n, Open) ->
     h.(dists) !! d = Some (n, Open) /\ f <> FStore d \/ n = name /\ f' = FStore d) ->
  (asking f' = true \/ (exists d, f' = FStore d) -> h.(tracks) !! name = None) -> flight_ok h' name f' ->
  (forall n to, h'.(redirects) !! n = Some to -> (n, Redirected to) ∈ h'.(asked)) ->
  (size h'.(redirects) <= maxCachedRedirects)%nat -> inv h'.
Proof.
  intros Hi Hl Hf Hf' Ht Hc Hd Ha Hok Hr Hs. split; rewrite ?Hf', ?Ht, ?Hc; try done.
  - intros d n Hdn. destruct (Hd d n Hdn) as [[Ho Hne]|[-> ->]]; [|right; apply lookup_insert_eq].
    destruct (i_open _ Hi d n Ho) as [?|Hfl]; [by left|]. right. destruct (decide (n = name)) as [->|]; [congruence|].
    by rewrite lookup_insert_ne.
  - intros n d Hn. destruct (i_tracks _ Hi n d Hn) as [l Hx]. by eapply (proj1 Hl).
  - intros n g [[<- <-]|[_ Hg]]%lookup_insert_Some Hag; [by apply Ha; left|by apply (i_asking _ Hi n g)].
  - intros n d [[<- ->]|[_ Hg]]%lookup_insert_Some; [apply Ha; right; eauto|by apply (i_store _ Hi n d)].
  - intros n g [[<- <-]|[_ Hg]]%lookup_insert_Some; [done|]. eapply flight_later; [done|by apply Hi].
  - intros i n c Hx. eapply caller_later; [done| |by apply (i_caller _ Hi i)]. rewrite Hf'.
    intros Hy. destruct (decide (n = name)) as [->|]; [rewrite lookup_insert_eq; eauto|by rewrite lookup_insert_ne].
Qed.

Lemma subscribe_inv name a h h' `{!Redirects.Iterates victim} : subscribe name a h = Some h' -> inv h -> inv h'.
Proof.
  intros Hs Hi. unfold subscribe in Hs. destruct (flights h !! name) as [f|] eqn:Hf; [|done].
  pose proof (i_flight _ Hi _ _ Hf) as Hok. pose proof (i_asking _ Hi _ _ Hf) as Hask.
  destruct f as [| | | |to| |d|o]; [..|].
  - destruct (tracks h !! name) as [d|] eqn:Ht; simplify_eq.
    + eapply (flight_inv h _ name _ _ Hi); [by apply later_same|exact Hf|reflexivity|done|done| | | |apply Hi|apply Hi];
        [by left|by intros [?|[? ?]]|by eapply (i_tracks _ Hi)].
    + eapply (flight_inv h _ name _ _ Hi); [by apply later_same|exact Hf|reflexivity|done|done|by left|done|done|apply Hi|apply Hi].
  - destruct (active h); simplify_eq;
      (eapply (flight_inv h _ name _ _ Hi); [by apply later_same|exact Hf|reflexivity|done|done|by left|auto|done|apply Hi|apply Hi]).
  - destruct (Redirects.load name (redirects h)) as [to|] eqn:Hr; simplify_eq;
      (eapply (flight_inv h _ name _ _ Hi); [by apply later_same|exact Hf|reflexivity|done|done|by left|auto| |apply Hi|apply Hi]);
      [by apply (i_redirects _ Hi)|done].
  - assert (Hl : later h (with_asked (asked h ++ [(name, a)]) h)) by (split; [eauto|cbn; set_solver]).
    simplify_eq. destruct a as [|to|];
      (eapply (flight_inv h _ name _ _ Hi); [exact Hl|exact Hf|reflexivity|done|done|by left|auto| | |apply Hi]);
      try done; try (cbn; set_solver); intros n to' Hn; apply Hl, (i_redirects _ Hi n to' Hn).
  - simplify_eq. eapply (flight_inv h _ name _ _ Hi); [by apply later_same|exact Hf|reflexivity|done|done|by left|by intros [?|[? ?]]|done| |].
    + intros n to' [[-> ->]|Hn]%Redirects.store_lookup; [done|by apply (i_redirects _ Hi)].
    + by apply Redirects.store_size, Hi.
  - simplify_eq. eapply (flight_inv h _ name _ _ Hi); [|exact Hf|reflexivity|done|done| |auto| |apply Hi|apply Hi].
    + split; [|done]. intros d n l Hd. exists l. cbn. by apply lookup_app_l_Some.
    + intros d n. cbn. intros [Hd|[Hlen Hx]]%lookup_app_Some; [by left|]. right.
      apply list_lookup_singleton_Some in Hx as [Hz [= <-]]. split; [done|]. f_equal. lia.
    + exists Open. cbn. by rewrite lookup_app_r, Nat.sub_diag by lia.
  - simplify_eq. cbn in Hok. destruct Hok as [l Hd]. split; cbn; try apply Hi.
    + intros d' n Ho. destruct (i_open _ Hi d' n Ho) as [Ht|Hfl].
      * left. rewrite lookup_insert_ne; [done|]. intros ->. by rewrite (i_store _ Hi _ _ Hf) in Ht.
      * destruct (decide (n = name)) as [->|Hne]; [left|right; by rewrite lookup_insert_ne].
        rewrite Hf in Hfl. injection Hfl as ->. apply lookup_insert_eq.
    + intros n d' [[<- <-]|[_ Hn]]%lookup_insert_Some; [by exists l|by apply (i_tracks _ Hi)].
    + intros n g [[<- <-]|[Hne Hg]]%lookup_insert_Some Hag; [done|]. rewrite lookup_insert_ne by done. by apply (i_asking _ Hi n g).
    + intros n d' [[<- ?]|[Hne Hg]]%lookup_insert_Some; [done|]. rewrite lookup_insert_ne by done. by apply (i_store _ Hi n d').
    + intros n g [[<- <-]|[_ Hg]]%lookup_insert_Some; [by exists l|]. eapply flight_later; [by apply later_same|by apply Hi].
    + intros i n c Hx. eapply (caller_later h); [by apply later_same| |by apply (i_caller _ Hi i)]. cbn.
      intros Hy. destruct (decide (n = name)) as [->|]; [rewrite lookup_insert_eq; eauto|by rewrite lookup_insert_ne].
  - simplify_eq. cbn in Hok. split; cbn; try apply Hi.
    + intros d n Ho. destruct (i_open _ Hi d n Ho) as [?|Hfl]; [by left|right]. rewrite lookup_delete_ne; [done|]. intros <-. congruence.
    + intros n g [_ Hg]%lookup_delete_Some. by apply (i_asking _ Hi n g).
    + intros n d [_ Hg]%lookup_delete_Some. by apply (i_store _ Hi n d).
    + intros n g [_ Hg]%lookup_delete_Some. eapply flight_later; [by apply later_same|by apply Hi].
    + intros i n c. rewrite list_lookup_fmap. intros ([m c'] & Hx & Heq)%fmap_Some. pose proof (i_caller _ Hi _ _ _ Hx) as Hc.
      destruct c' as [| |to| |[o'|]|d b|to| | |]; try (injection Heq as -> ->; exact Hc).
      destruct (String.eqb_spec m name) as [->|Hne]; injection Heq as -> ->; [exact Hok|]. cbn in Hc |- *. by rewrite lookup_delete_ne.
Qed.

Lemma caller_inv h i n c c' :
  inv h -> h.(callers) !! i = Some (n, c) -> caller_ok (with_caller i n c' h) n c' -> inv (with_caller i n c' h).
Proof.
  intros Hi Hc Hok. split; try apply Hi. intros k m x. cbn. intros [(-> & [= <- <-] & _)|[_ Hk]]%list_lookup_insert_Some; [done|].
  by apply (i_caller _ Hi k).
Qed.

Lemma pass_ok sent to h n : (n, Redirected to) ∈ h.(asked) -> caller_ok h n (passRedirect sent to).
Proof.
  intros Ha. unfold passRedirect. destruct (String.eqb_spec to.(URI) "") as [Hu|_]; cbn; [|done]. by destruct sent.
Qed.

Lemma receive_ok sent o h n : outcome_ok h n o -> caller_ok h n (receive sent o).
Proof. destruct o; cbn; [done|apply pass_ok|done]. Qed.

Lemma ServeTrack_inv i leave sent h h' : ServeTrack i leave sent h = Some h' -> inv h -> inv h'.
Proof.
  intros Hs Hi. unfold ServeTrack in Hs. destruct (callers h !! i) as [[n c]|] eqn:Hc; [|done].
  pose proof (i_caller _ Hi _ _ _ Hc) as Hok. destruct c as [| |to| |o|d b|to| | |]; try done.
  - destruct (tracks h !! n) as [d|] eqn:Ht; simplify_eq; (eapply caller_inv; [done|exact Hc|]); [|done]. by apply (i_tracks _ Hi).
  - destruct (Redirects.load n (redirects h)) as [to|] eqn:Hr; simplify_eq; (eapply caller_inv; [done|exact Hc|]); [|done].
    by apply (i_redirects _ Hi).
  - destruct (active h); simplify_eq; (eapply caller_inv; [done|exact Hc|]); [by apply pass_ok|done].
  - destruct (flights h !! n) as [f|] eqn:Hf; simplify_eq.
    + eapply caller_inv; [done|exact Hc|]. cbn. eauto.
    + split; cbn; try apply Hi.
      * intros d m Ho. destruct (i_open _ Hi d m Ho) as [?|Hfl]; [by left|right]. rewrite lookup_insert_ne; [done|]. intros <-. congruence.
      * intros m g [[<- <-]|[_ Hg]]%lookup_insert_Some Hag; [done|]. by apply (i_asking _ Hi m g).
      * intros m d [[<- ?]|[_ Hg]]%lookup_insert_Some; [done|]. by apply (i_store _ Hi m d).
      * intros m g [[<- <-]|[_ Hg]]%lookup_insert_Some; [done|]. eapply flight_later; [by apply later_same|by apply Hi].
      * intros k m x [(-> & [= <- <-] & _)|[_ Hk]]%list_lookup_insert_Some; [cbn; rewrite lookup_insert_eq; eauto|].
        eapply (caller_later h); [by apply later_same| |by apply (i_caller _ Hi k)]. cbn.
        intros Hy. destruct (decide (m = n)) as [->|]; [rewrite lookup_insert_eq; eauto|by rewrite lookup_insert_ne].
  - destruct leave; simplify_eq; [by eapply caller_inv|]. destruct o as [o|]; simplify_eq.
    eapply caller_inv; [done|exact Hc|]. by apply receive_ok.
Qed.

(** Only a distributor's state changes. *)
Lemma life_inv h d n l l' :
  inv h -> h.(dists) !! d = Some (n, l) -> l' <> Open -> inv (with_dists (<[d := (n, l')]> h.(dists)) h).
Proof.
  intros Hi Hd Hl. assert (Hla : later h (with_dists (<[d := (n, l')]> h.(dists)) h)).
  { split; [|done]. intros d' m x Hx. cbn. destruct (decide (d' = d)) as [->|]; [|rewrite list_lookup_insert_ne by done; eauto].
    rewrite list_lookup_insert_eq by (by eapply lookup_lt_Some). exists l'. congruence. }
  split; try apply Hi.
  - intros d' m. cbn. intros [(-> & [= <- ->] & _)|[_ Hk]]%list_lookup_insert_Some; [done|by apply Hi].
  - intros m d' Hm. destruct (i_tracks _ Hi m d' Hm) as [x Hx]. by eapply (proj1 Hla).
  - intros m g Hg. eapply flight_later; [exact Hla|by apply Hi].
  - intros k m x Hx. eapply caller_later; [exact Hla|done|by apply (i_caller _ Hi k)].
Qed.

Lemma remove_inv d h h' : remove d h = Some h' -> inv h -> inv h'.
Proof.
  intros Hs Hi. unfold remove in Hs. destruct (dists h !! d) as [[n []]|] eqn:Hd; simplify_eq.
  pose proof (life_inv h d n Closed Removed Hi Hd ltac:(done)) as Hi1. case_bool_decide as Ht; [|exact Hi1].
  set (h1 := with_dists _ h) in *. split; cbn -[h1]; try apply Hi1.
  - intros d' m Ho. destruct (i_open _ Hi1 d' m Ho) as [Hm|?]; [left|by right].
    rewrite lookup_delete_ne; [exact Hm|]. intros <-. change (tracks h !! n = Some d') in Hm. assert (d' = d) as -> by congruence.
    cbn in Ho. rewrite list_lookup_insert_eq in Ho by (by eapply lookup_lt_Some). done.
  - intros m d' [_ Hm]%lookup_delete_Some. by apply (i_tracks _ Hi1).
  - intros m g Hg Hag. rewrite lookup_delete_None. right. by apply (i_asking _ Hi1 m g).
  - intros m d' Hg. rewrite lookup_delete_None. right. by apply (i_store _ Hi1 m d').
Qed.

Lemma handler_step_inv l h h' `{!Redirects.Iterates victim} : step l h = Some h' -> inv h -> inv h'.
Proof.
  intros Hs Hi. destruct l as [n|i leave sent|n a|d|d|]; cbn in Hs.
  - simplify_eq. split; try apply Hi. intros i m c. cbn. intros [Hx|[_ Hx]]%lookup_app_Some; [by apply (i_caller _ Hi i)|].
    apply list_lookup_singleton_Some in Hx as [_ [= <- <-]]. done.
  - by eapply ServeTrack_inv.
  - by eapply subscribe_inv.
  - unfold close_upstream in Hs. destruct (dists h !! d) as [[n []]|] eqn:Hd; simplify_eq. by eapply life_inv.
  - by eapply remove_inv.
  - simplify_eq. by split; apply Hi.
Qed.

Lemma handler_new_inv : inv newRelayHandler.
Proof. split; cbn; try done. rewrite map_size_empty. unfold maxCachedRedirects. lia. Qed.

Lemma handler_inv h `{!Redirects.Iterates victim} : reachable h -> inv h.
Proof.
  unfold reachable. intros Hr. remember newRelayHandler as h0 eqn:Hh. assert (Hi : inv h0) by (subst; apply handler_new_inv). clear Hh.
  induction Hr as [|h1 h2 h3 [l Hs] _ IH]; [done|]. apply IH. by eapply handler_step_inv.
Qed.


(** ** The guarantees *)

(** C17: A publisher serves each track to the relay once: at any moment at most one
    upstream subscription of a track is open, and none is while another is being
    asked for, however many subscribers arrive and leave and whatever the
    publisher answers. *)
Theorem one_upstream h n d1 d2 `{!Redirects.Iterates victim} :
  reachable h -> h.(dists) !! d1 = Some (n, Open) -> h.(dists) !! d2 = Some (n, Open) ->
  d1 = d2 /\ forall f, h.(flights) !! n = Some f -> asking f = false.
Proof.
  intros Hr H1 H2. pose proof (handler_inv h Hr) as Hi. split.
  - destruct (i_open _ Hi _ _ H1) as [T1|F1], (i_open _ Hi _ _ H2) as [T2|F2]; try congruence.
    + by rewrite (i_store _ Hi _ _ F2) in T1.
    + by rewrite (i_store _ Hi _ _ F1) in T2.
  - intros f Hf. destruct (asking f) eqn:Ha; [|done]. pose proof (i_asking _ Hi _ _ Hf Ha) as Hn.
    destruct (i_open _ Hi _ _ H1) as [T1|F1]; [congruence|]. rewrite Hf in F1. by injection F1 as ->.
Qed.

(** What a subscriber is answered is about the track it asked for: it is served
    by a distributor of that track, or redirected, on this relay only, where the
    publisher redirected that very track; and what is remembered of redirects is
    bounded and was answered. *)
Theorem subscriber_answered h `{!Redirects.Iterates victim} :
  reachable h ->
  (forall i n d b, h.(callers) !! i = Some (n, CEgress d b) -> exists l, h.(dists) !! d = Some (n, l)) /\
  (forall i n to, h.(callers) !! i = Some (n, CPass to) -> (n, Redirected to) ∈ h.(asked) /\ to.(URI) = "") /\
  (forall n to, h.(redirects) !! n = Some to -> (n, Redirected to) ∈ h.(asked)) /\
  (size h.(redirects) <= maxCachedRedirects)%nat.
Proof.
  intros Hr. pose proof (handler_inv h Hr) as Hi. split; [|split; [|split; [apply Hi|apply Hi]]].
  - intros i n d b Hc. exact (i_caller _ Hi i n _ Hc).
  - intros i n to Hc. exact (i_caller _ Hi i n _ Hc).
Qed.

(** The operations of a flight that are left. *)
Definition left_of (f : flight) : nat :=
  match f with FLoad => 7 | FActive => 6 | FRedirect => 5 | FAsk => 4 | FOpen => 3 | FStore _ | FKeep _ => 2 | FReturn _ => 1 end.

(** The flight of [name] alone, [k] operations long. *)
Fixpoint fly (k : nat) (name : string) (a : answer) (h : handler) : option handler :=
  match k with O => Some h | S k => subscribe name a h ≫= fly k name a end.

Lemma subscribe_left name a h f :
  h.(flights) !! name = Some f -> (forall o, f <> FReturn o) ->
  exists h' f', subscribe name a h = Some h' /\ h'.(flights) !! name = Some f' /\ (left_of f' < left_of f)%nat /\ h'.(callers) = h.(callers).
Proof.
  intros Hf Hne. unfold subscribe. rewrite Hf. destruct f as [| | | |to| |d|o]; [..|by exfalso; eapply Hne];
    eexists _, _; (split; [reflexivity|]); (split; [apply lookup_insert_eq|]); (split; [|done]); repeat case_match; cbn; lia.
Qed.

(** No one waits forever: while the publisher answers, whichever the answer, the
    flight a subscriber waits for returns in at most seven of its operations, and
    the subscriber has its result. *)
Theorem waiting_subscriber_answered h i n a `{!Redirects.Iterates victim} :
  reachable h -> h.(callers) !! i = Some (n, CWait None) ->
  exists k h' o, (k <= 7)%nat /\ fly k n a h = Some h' /\ h'.(callers) !! i = Some (n, CWait (Some o)).
Proof.
  intros Hr Hc. destruct (i_caller _ (handler_inv h Hr) i n _ Hc) as [f Hf].
  assert (Hmax : (left_of f <= 7)%nat) by (destruct f; cbn; lia).
  enough (exists k h' o, (k <= left_of f)%nat /\ fly k n a h = Some h' /\ h'.(callers) !! i = Some (n, CWait (Some o)))
    as (k & h' & o & ? & ? & ?) by (exists k, h', o; auto with lia).
  clear Hr Hmax. remember (left_of f) as m eqn:Hm. assert (Hle : (left_of f <= m)%nat) by lia. clear Hm.
  revert h f Hf Hc Hle. induction m as [|m IH]; intros h f Hf Hc Hle; [destruct f; cbn in Hle; lia|].
  destruct f as [| | | |to| |d|o];
    try (destruct (subscribe_left n a h _ Hf ltac:(done)) as (h1 & f1 & Hs & Hf1 & Hlt & Hcl);
         destruct (IH h1 f1 Hf1) as (k & h' & o & Hk & Hfl & Hx); [by rewrite Hcl|lia|];
         exists (S k), h', o; split; [lia|]; split; [cbn; by rewrite Hs|done]; fail).
  exists 1%nat. eexists _, o. split; [lia|]. split; [cbn; unfold subscribe; rewrite Hf; reflexivity|]. cbn.
  rewrite list_lookup_fmap, Hc. cbn. by rewrite String.eqb_refl.
Qed.

Definition dead_entry (n : string) (d : nat) (h : handler) : Prop := h.(tracks) !! n = Some d /\ h.(dists) !! d = Some (n, Removed).

Lemma step_dead n d l h h' `{!Redirects.Iterates victim} : inv h -> step l h = Some h' -> dead_entry n d h -> dead_entry n d h'.
Proof.
  intros Hi Hs [Ht Hd]. destruct l as [m|i leave sent|m a|d'|d'|]; cbn in Hs.
  - by simplify_eq.
  - unfold ServeTrack in Hs. repeat case_match; by simplify_eq.
  - unfold subscribe in Hs. destruct (flights h !! m) as [f|] eqn:Hf; [|done].
    destruct f as [| | | |to| |d'|o]; repeat case_match; simplify_eq; try done.
    + split; [done|]. cbn. by apply lookup_app_l_Some.
    + split; [|done]. cbn. rewrite lookup_insert_ne; [done|]. intros ->. by rewrite (i_store _ Hi _ _ Hf) in Ht.
  - unfold close_upstream in Hs. destruct (dists h !! d') as [[m []]|] eqn:Hd'; simplify_eq. split; [done|]. cbn.
    rewrite list_lookup_insert_ne; [done|]. intros ->. congruence.
  - unfold remove in Hs. destruct (dists h !! d') as [[m []]|] eqn:Hd'; simplify_eq.
    assert (d' <> d) by (intros ->; congruence). split; cbn; [|by rewrite list_lookup_insert_ne].
    case_bool_decide; [|done]. rewrite lookup_delete_ne; [done|]. intros ->. congruence.
  - by simplify_eq.
Qed.

(** A distributor that has removed itself before [subscribe] stores it stays in
    the handler for good: from then on every subscriber of the track is handed to
    it, and no step of anyone takes it out. *)
Theorem dead_distributor_stays h h' n d `{!Redirects.Iterates victim} :
  reachable h -> dead_entry n d h -> rtc hstep h h' ->
  dead_entry n d h' /\ forall i, h'.(callers) !! i = Some (n, CLoad) ->
    ServeTrack i false false h' = Some (with_caller i n (CEgress d false) h').
Proof.
  intros Hr Hd Hs. assert (Hd' : dead_entry n d h').
  { pose proof (handler_inv h Hr) as Hi. clear Hr. induction Hs as [|h1 h2 h3 [l Hl] _ IH]; [done|].
    apply IH; [by eapply step_dead|by eapply handler_step_inv]. }
  split; [done|]. intros i Hc. unfold ServeTrack. by rewrite Hc, (proj1 Hd').
Qed.

End Steps.

(** ** TrackInfo *)

(** The info of each track, asked for once and kept. *)
Module Info.
Section Info.
Context {PublishInfo : Type}.

(** Where TrackInfo is: at trackInfoCache.Load, at the checks of the session and
    the announcement, at infoFlights.Do, waiting; answered. The flight: at its
    own Load, at session.TrackInfo, at Store; about to return. *)
Inductive caller := CLoad | CCheck | CJoin | CWait (o : option (option PublishInfo)) | CAnswer (o : option PublishInfo).
Inductive flight := FLoad | FAsk | FStore (x : PublishInfo) | FReturn (o : option PublishInfo).

Record state := mkState {
  cache : gmap string PublishInfo;
  flights : gmap string flight;
  callers : list (string * caller);
  live : bool;
  given : list (string * PublishInfo)
}.

Definition with_caller (i : nat) (n : string) (c : caller) (s : state) : state :=
  mkState s.(cache) s.(flights) (<[i := (n, c)]> s.(callers)) s.(live) s.(given).
Definition with_flight (n : string) (f : flight) (s : state) : state :=
  mkState s.(cache) (<[n := f]> s.(flights)) s.(callers) s.(live) s.(given).

Definition TrackInfo (i : nat) (s : state) : option state :=
  match s.(callers) !! i with
  | Some (n, c) =>
      match c with
      | CLoad => Some (with_caller i n (match s.(cache) !! n with Some x => CAnswer (Some x) | None => CCheck end) s)
      | CCheck => Some (with_caller i n (if s.(live) then CJoin else CAnswer None) s)
      | CJoin =>
          let s' := with_caller i n (CWait None) s in
          Some (match s.(flights) !! n with Some _ => s' | None => with_flight n FLoad s' end)
      | CWait (Some o) => Some (with_caller i n (CAnswer o) s)
      | CWait None | CAnswer _ => None
      end
  | None => None
  end.

(** [a] is what the upstream session answers, [None] for an error or no info. *)
Definition flight_step (name : string) (a : option PublishInfo) (s : state) : option state :=
  match s.(flights) !! name with
  | Some FLoad => Some (with_flight name (match s.(cache) !! name with Some x => FReturn (Some x) | None => FAsk end) s)
  | Some FAsk =>
      Some (match a with
            | Some x => with_flight name (FStore x) (mkState s.(cache) s.(flights) s.(callers) s.(live) (s.(given) ++ [(name, x)]))
            | None => with_flight name (FReturn None) s end)
  | Some (FStore x) => Some (with_flight name (FReturn (Some x)) (mkState (<[name := x]> s.(cache)) s.(flights) s.(callers) s.(live) s.(given)))
  | Some (FReturn o) =>
      Some (mkState s.(cache) (delete name s.(flights))
             ((fun x => match x with
                        | (n, CWait None) => if String.eqb n name then (n, CWait (Some o)) else x
                        | _ => x end) <$> s.(callers)) s.(live) s.(given))
  | None => None
  end.

Inductive label := LArrive (n : string) | LCaller (i : nat) | LFlight (n : string) (a : option PublishInfo) | LEnd.

Definition do_label (l : label) (s : state) : option state :=
  match l with
  | LArrive n => Some (mkState s.(cache) s.(flights) (s.(callers) ++ [(n, CLoad)]) s.(live) s.(given))
  | LCaller i => TrackInfo i s
  | LFlight n a => flight_step n a s
  | LEnd => Some (mkState s.(cache) s.(flights) s.(callers) false s.(given))
  end.

Definition step (s s' : state) : Prop := exists l, do_label l s = Some s'.

Fixpoint run (ls : list label) (s : state) : option state :=
  match ls with [] => Some s | l :: t => do_label l s ≫= run t end.

Lemma info_rtc ls s s' : run ls s = Some s' -> rtc step s s'.
Proof.
  revert s. induction ls as [|l t IH]; intros s; cbn; [intros [= ->]; done|].
  destruct (do_label l s) as [s1|] eqn:Hs; [|done]. cbn. intros Hr. eapply rtc_l; [by exists l|by apply IH].
Qed.

Definition start : state := mkState ∅ ∅ [] true [].

(** Every success carries what the publisher gave first. *)
Definition first_given (s : state) (n : string) (o : option PublishInfo) : Prop :=
  match o with Some x => s.(cache) !! n = Some x | None => True end.

Record inv (s : state) : Prop := {
  i_given n x : (n, x) ∈ s.(given) -> s.(cache) !! n = Some x \/ s.(flights) !! n = Some (FStore x);
  i_cache n x : s.(cache) !! n = Some x -> (n, x) ∈ s.(given);
  i_ask n : s.(flights) !! n = Some FAsk -> s.(cache) !! n = None;
  i_store n x : s.(flights) !! n = Some (FStore x) -> s.(cache) !! n = None /\ (n, x) ∈ s.(given);
  i_ret n o : s.(flights) !! n = Some (FReturn o) -> first_given s n o;
  i_wait i n o : s.(callers) !! i = Some (n, CWait (Some o)) -> first_given s n o;
  i_answer i n o : s.(callers) !! i = Some (n, CAnswer o) -> first_given s n o
}.

Lemma first_grows s s' n o :
  (forall x, s.(cache) !! n = Some x -> s'.(cache) !! n = Some x) -> first_given s n o -> first_given s' n o.
Proof. destruct o; cbn; auto. Qed.

Lemma caller_step_inv s i n c c' :
  inv s -> s.(callers) !! i = Some (n, c) ->
  match c' with CWait (Some o) | CAnswer o => first_given s n o | _ => True end -> inv (with_caller i n c' s).
Proof.
  intros Hi Hc Hok. split; try apply Hi; intros k m o; cbn; intros [(-> & [= ? ?] & _)|[_ Hk]]%list_lookup_insert_Some; subst; try exact Hok.
  - by apply (i_wait _ Hi k).
  - by apply (i_answer _ Hi k).
Qed.

Lemma flight_new_inv s n f :
  inv s -> s.(flights) !! n = None \/ s.(flights) !! n = Some FLoad -> (f = FAsk -> s.(cache) !! n = None) ->
  (forall x, f <> FStore x) -> (forall o, f = FReturn o -> first_given s n o) -> inv (with_flight n f s).
Proof.
  intros Hi Hf Ha Hs Hr. split; try apply Hi; cbn.
  - intros m x Hx. destruct (i_given _ Hi m x Hx) as [?|Hfl]; [by left|right]. rewrite lookup_insert_ne; [done|]. intros <-. destruct Hf; congruence.
  - intros m [[<- ->]|[_ Hm]]%lookup_insert_Some; [by apply Ha|by apply (i_ask _ Hi)].
  - intros m x [[<- ->]|[_ Hm]]%lookup_insert_Some; [by exfalso; eapply Hs|by apply (i_store _ Hi)].
  - intros m o [[<- ->]|[_ Hm]]%lookup_insert_Some; [by apply Hr|by apply (i_ret _ Hi)].
Qed.

Lemma TrackInfo_inv i s s' : TrackInfo i s = Some s' -> inv s -> inv s'.
Proof.
  intros Hs Hi. unfold TrackInfo in Hs. destruct (callers s !! i) as [[n c]|] eqn:Hc; [|done].
  destruct c as [| | |[o|]|o]; try done.
  - simplify_eq. eapply caller_step_inv; [done|exact Hc|]. destruct (cache s !! n) eqn:He; [exact He|done].
  - simplify_eq. eapply caller_step_inv; [done|exact Hc|]. by destruct (live s).
  - assert (Hi1 : inv (with_caller i n (CWait None) s)) by (by eapply caller_step_inv).
    destruct (flights s !! n) as [f|] eqn:Hf; simplify_eq; [exact Hi1|].
    apply flight_new_inv; [done|by left|done|done|by intros ? [=]].
  - simplify_eq. eapply caller_step_inv; [done|exact Hc|]. by apply (i_wait _ Hi i).
Qed.

Lemma flight_step_inv n a s s' : flight_step n a s = Some s' -> inv s -> inv s'.
Proof.
  intros Hs Hi. unfold flight_step in Hs. destruct (flights s !! n) as [f|] eqn:Hf; [|done].
  destruct f as [| |x|o]; simplify_eq.
  - apply flight_new_inv; [done|by right|by case_match|intros x; by case_match|]. intros o. case_match; [by intros [= <-]|done].
  - destruct a as [x|].
    + split; try apply Hi; cbn.
      * intros m y [Hy|[= -> ->]%list_elem_of_singleton]%elem_of_app; [|right; apply lookup_insert_eq].
        destruct (i_given _ Hi m y Hy) as [?|Hfl]; [by left|right]. rewrite lookup_insert_ne; [done|]. intros <-. congruence.
      * intros m y Hy. apply elem_of_app. left. by apply (i_cache _ Hi).
      * intros m [[<- ?]|[_ Hm]]%lookup_insert_Some; [done|by apply (i_ask _ Hi)].
      * intros m y [[<- [= ->]]|[_ Hm]]%lookup_insert_Some; [split; [by apply (i_ask _ Hi)|set_solver]|].
        destruct (i_store _ Hi m y Hm). split; [done|set_solver].
      * intros m o [[<- ?]|[_ Hm]]%lookup_insert_Some; [done|by apply (i_ret _ Hi)].
    + split; try apply Hi; cbn.
      * intros m y Hy. destruct (i_given _ Hi m y Hy) as [?|Hfl]; [by left|right]. rewrite lookup_insert_ne; [done|]. intros <-. congruence.
      * intros m [[<- ?]|[_ Hm]]%lookup_insert_Some; [done|by apply (i_ask _ Hi)].
      * intros m y [[<- ?]|[_ Hm]]%lookup_insert_Some; [done|by apply (i_store _ Hi)].
      * intros m o [[<- [= <-]]|[_ Hm]]%lookup_insert_Some; [done|by apply (i_ret _ Hi)].
  - destruct (i_store _ Hi n x Hf) as [Hnone Hgiven].
    assert (Hgrow : forall m y, cache s !! m = Some y -> <[n := x]> (cache s) !! m = Some y).
    { intros m y Hm. rewrite lookup_insert_ne; [done|]. intros <-. congruence. }
    split; cbn.
    + intros m y Hy. destruct (i_given _ Hi m y Hy) as [?|Hfl]; [left; by apply Hgrow|].
      destruct (decide (m = n)) as [->|]; [left; rewrite lookup_insert_eq; congruence|right; by rewrite lookup_insert_ne].
    + intros m y [[<- <-]|[_ Hm]]%lookup_insert_Some; [done|by apply (i_cache _ Hi)].
    + intros m [[<- ?]|[Hne Hm]]%lookup_insert_Some; [done|]. rewrite lookup_insert_ne by done. by apply (i_ask _ Hi).
    + intros m y [[<- ?]|[Hne Hm]]%lookup_insert_Some; [done|]. rewrite lookup_insert_ne by done. by apply (i_store _ Hi).
    + intros m o [[<- [= <-]]|[_ Hm]]%lookup_insert_Some; [apply lookup_insert_eq|]. eapply first_grows; [apply Hgrow|by apply (i_ret _ Hi)].
    + intros i m o Hx. eapply first_grows; [apply Hgrow|by apply (i_wait _ Hi i)].
    + intros i m o Hx. eapply first_grows; [apply Hgrow|by apply (i_answer _ Hi i)].
  - pose proof (i_ret _ Hi n o Hf) as Ho. split; try apply Hi; cbn.
    + intros m y Hy. destruct (i_given _ Hi m y Hy) as [?|Hfl]; [by left|right]. rewrite lookup_delete_ne; [done|]. intros <-. congruence.
    + intros m [_ Hm]%lookup_delete_Some. by apply (i_ask _ Hi).
    + intros m y [_ Hm]%lookup_delete_Some. by apply (i_store _ Hi).
    + intros m y [_ Hm]%lookup_delete_Some. by apply (i_ret _ Hi).
    + intros i m o'. rewrite list_lookup_fmap. intros ([k c] & Hx & Heq)%fmap_Some.
      destruct c as [| | |[o2|]|o2]; simplify_eq; try (by apply (i_wait _ Hi i)).
      destruct (String.eqb_spec k n) as [->|]; simplify_eq. exact Ho.
    + intros i m o'. rewrite list_lookup_fmap. intros ([k c] & Hx & Heq)%fmap_Some.
      destruct c as [| | |[o2|]|o2]; simplify_eq; try (by apply (i_answer _ Hi i)).
      destruct (String.eqb_spec k n) as [->|]; simplify_eq.
Qed.

Lemma info_step_inv s s' : step s s' -> inv s -> inv s'.
Proof.
  intros [[n|i|n a|] Hs] Hi; cbn in Hs; [injection Hs as <-|by eapply TrackInfo_inv|by eapply flight_step_inv|injection Hs as <-; by split; apply Hi].
  split; try apply Hi; cbn; intros i m o [Hx|[_ Hx]]%lookup_app_Some.
  - by apply (i_wait _ Hi i).
  - by apply list_lookup_singleton_Some in Hx as [_ [= _ ?]].
  - by apply (i_answer _ Hi i).
  - by apply list_lookup_singleton_Some in Hx as [_ [= _ ?]].
Qed.

(** The publisher is asked for a track's info until it gives one, which is then
    the answer for good: it gives at most one, and every successful answer, of any
    subscriber at any time, is that one. *)
Theorem info_stable s n x y :
  rtc step start s -> (n, x) ∈ s.(given) ->
  ((n, y) ∈ s.(given) \/ exists i, s.(callers) !! i = Some (n, CAnswer (Some y))) -> y = x.
Proof.
  intros Hr Hx Hy. assert (Hi : inv s).
  { remember start as s0 eqn:Hs0. assert (Hi0 : inv s0) by (subst; split; cbn; try done; by intros ? ? ?%not_elem_of_nil).
    clear Hs0 Hx Hy. induction Hr as [|s1 s2 s3 Hs _ IH]; [done|]. apply IH. by eapply info_step_inv. }
  assert (Hy' : (n, y) ∈ s.(given)).
  { destruct Hy as [?|[i Hc]]; [done|]. apply (i_cache _ Hi). exact (i_answer _ Hi i n _ Hc). }
  destruct (i_given _ Hi n x Hx) as [Cx|Fx], (i_given _ Hi n y Hy') as [Cy|Fy]; try congruence.
  - destruct (i_store _ Hi _ _ Fy). congruence.
  - destruct (i_store _ Hi _ _ Fx). congruence.
Qed.
End Info.
End Info.

(** ** Runs *)

Definition first_key (c : gmap string Redirect) : option string := fst <$> list.head (map_to_list c).

#[export] Instance first_key_iterates : Redirects.Iterates first_key.
Proof.
  intros c. unfold first_key. destruct (map_to_list c) as [|[k r] l] eqn:Hl; cbn; [by apply map_to_list_empty_iff|].
  exists r. apply elem_of_map_to_list. rewrite Hl. by left.
Qed.

(** Two subscribers of "video" share a flight; a third comes after. *)
Definition flown (n : string) (a : answer) (k : nat) : list label := replicate k (LFlight n a).
Definition shared_run : list label :=
  [LArrive "video"; LArrive "video"; LCaller 0 false false; LCaller 0 false false; LCaller 0 false false;
   LCaller 1 false false; LCaller 1 false false; LCaller 1 false false] ++ flown "video" Subscribed 7 ++
  [LCaller 0 false false; LCaller 1 false false; LArrive "video"; LCaller 2 false false].
Definition shared : handler := default newRelayHandler (run first_key shared_run newRelayHandler).

Example shared_callers : shared.(callers) = [("video", CEgress 0 true); ("video", CEgress 0 true); ("video", CEgress 0 false)].
Proof. by vm_compute. Qed.

(** The subscription of "video" ends before [subscribe] stores its distributor. *)
Definition early_end : list label :=
  [LArrive "video"; LCaller 0 false false; LCaller 0 false false; LCaller 0 false false] ++ flown "video" Subscribed 5 ++
  [LClose 0; LRemove 0] ++ flown "video" Subscribed 2.
Definition ended_early : handler := default newRelayHandler (run first_key early_end newRelayHandler).

Lemma reached_by ls h : run first_key ls newRelayHandler = Some h -> reachable first_key (default newRelayHandler (run first_key ls newRelayHandler)).
Proof. intros Hr. rewrite Hr. by eapply handler_run. Qed.

Lemma dead_distributor_stays_witness : ended_early.(active) = true /\ dead_entry "video" 0 ended_early.
Proof.
  split; [by vm_compute|]. apply (dead_distributor_stays first_key ended_early ended_early "video" 0); [|by vm_compute|apply rtc_refl].
  destruct (run first_key early_end newRelayHandler) as [h|] eqn:Hr; [by eapply reached_by|vm_compute in Hr; discriminate Hr].
Defined.

Lemma one_upstream_witness : shared.(dists) !! 0%nat = Some ("video", Open) /\ 0%nat = 0%nat.
Proof.
  assert (Hd : shared.(dists) !! 0%nat = Some ("video", Open)) by (by vm_compute). split; [done|].
  apply (one_upstream first_key shared "video" 0 0); [|exact Hd|exact Hd].
  destruct (run first_key shared_run newRelayHandler) as [h|] eqn:Hr; [by eapply reached_by|vm_compute in Hr; discriminate Hr].
Defined.

Definition to_main : Redirect := mkRedirect "" "/live/cam" "video".
Definition redirected_run : list label :=
  [LArrive "video"; LCaller 0 false true; LCaller 0 false true; LCaller 0 false true] ++ flown "video" (Redirected to_main) 6 ++
  [LCaller 0 false true].
Definition redirected : handler := default newRelayHandler (run first_key redirected_run newRelayHandler).

Lemma subscriber_answered_witness : redirected.(callers) = [("video", CPass to_main)] /\ ("video", Redirected to_main) ∈ redirected.(asked).
Proof.
  assert (Hc : redirected.(callers) = [("video", CPass to_main)]) by (by vm_compute). split; [done|].
  apply (subscriber_answered first_key redirected) with (i := 0%nat); [|by rewrite Hc].
  destruct (run first_key redirected_run newRelayHandler) as [h|] eqn:Hr; [by eapply reached_by|vm_compute in Hr; discriminate Hr].
Defined.

Definition waiting : handler := default newRelayHandler (run first_key (take 8 shared_run) newRelayHandler).

Lemma waiting_subscriber_answered_witness : exists k h' o, (k <= 7)%nat /\ fly first_key k "video" Failed waiting = Some h' /\ h'.(callers) !! 1%nat = Some ("video", CWait (Some o)).
Proof.
  assert (Hc : waiting.(callers) !! 1%nat = Some ("video", CWait None)) by (by vm_compute).
  refine (waiting_subscriber_answered first_key waiting 1 "video" Failed _ Hc).
  destruct (run first_key (take 8 shared_run) newRelayHandler) as [h|] eqn:Hr; [by eapply reached_by|vm_compute in Hr; discriminate Hr].
Defined.

Definition info_run : list (Info.label (PublishInfo := Z)) :=
  [Info.LArrive "video"; Info.LCaller 0; Info.LCaller 0; Info.LCaller 0; Info.LFlight "video" None; Info.LFlight "video" (Some 7);
   Info.LFlight "video" None; Info.LFlight "video" None; Info.LCaller 0].
Definition informed : Info.state := default Info.start (Info.run info_run Info.start).

Lemma informed_reached : rtc Info.step Info.start informed.
Proof.
  assert (Hs : is_Some (Info.run info_run Info.start)) by (vm_compute; by eexists). destruct Hs as [s Hs].
  unfold informed. rewrite Hs. by eapply Info.info_rtc.
Qed.

Lemma info_stable_witness : informed.(Info.callers) = [("video", Info.CAnswer (Some 7))] /\ 7 = 7.
Proof.
  assert (Hc : informed.(Info.callers) = [("video", Info.CAnswer (Some 7))]) by (by vm_compute). split; [done|].
  assert (Hg : informed.(Info.given) = [("video", 7)]) by (by vm_compute).
  apply (Info.info_stable informed "video"); [apply informed_reached|rewrite Hg; by left|right; exists 0%nat; by rewrite Hc].
Defined.
