(* ===== verification/Settings.v ===== *)
(** * Settings read from the environment, and the origins a session may have

    src/internal/envconfig/envconfig.go and src/internal/cors/cors.go. The
    environment is a function from names to values, empty for a variable that is
    not set, as os.Getenv gives it. time.ParseDuration and url.Parse's host, of
    the standard library, are classes. *)
From S2P Require Import Prelude GoStrings GoText GoTime.

#[local] Open Scope Z_scope.

(** ** envconfig *)

Class GoDuration := { ParseDuration : string -> option Duration }.

Section Env.
Context (Getenv : string -> string).

Inductive setting_error := Invalid (key raw : string).

Definition env_String (key def : string) : string :=
  match Getenv key with EmptyString => def | v => v end.

(** strconv.ParseUint(raw, 10, 64). *)
Definition ParseUint (raw : string) : option Z :=
  v ← digits1 raw; if v <? 2 ^ 64 then Some v else None.

(** Uint: the value and whether one is set. *)
Definition env_Uint (key : string) : result setting_error (Z * bool) :=
  match TrimSpace (Getenv key) with
  | EmptyString => Ok (0, false)
  | raw => match ParseUint raw with Some v => Ok (v, true) | None => Err (Invalid key raw) end
  end.

Definition env_Duration `{GoDuration} (key : string) : result setting_error (Duration * bool) :=
  match TrimSpace (Getenv key) with
  | EmptyString => Ok (0, false)
  | raw =>
      match ParseDuration raw with
      | None => Err (Invalid key raw)
      | Some v => if v <? 0 then Err (Invalid key raw) else Ok (v, true)
      end
  end.

(** parseSwitch: the value, and whether the word is one it knows. *)
Definition parseSwitch (raw : string) : bool * bool :=
  let w := ToLower (TrimSpace raw) in
  if bool_decide (w ∈ ["1"; "true"; "yes"; "on"]) then (true, true)
  else if bool_decide (w ∈ ["0"; "false"; "no"; "off"]) then (false, true) else (false, false).

Definition env_Bool (key : string) (def : bool) : bool :=
  match parseSwitch (Getenv key) with (v, true) => v | _ => def end.

Definition env_Switch (key : string) (def : bool) : result setting_error bool :=
  match TrimSpace (Getenv key) with
  | EmptyString => Ok def
  | raw => match parseSwitch raw with (v, true) => Ok v | _ => Err (Invalid key raw) end
  end.

End Env.

(** ** Text without space around it *)

Lemma TrimLeft_idem s : TrimLeft (TrimLeft s) = TrimLeft s.
Proof. induction s as [|a s IH]; cbn; [done|]. destruct (is_space a) eqn:E; [done|]. cbn. by rewrite E. Qed.

Lemma TrimRight_idem s : TrimRight (TrimRight s) = TrimRight s.
Proof.
  induction s as [|a s IH]; cbn; [done|]. destruct (TrimRight s) as [|b t] eqn:E.
  - destruct (is_space a) eqn:Ea; [done|]. cbn. by rewrite Ea.
  - cbn in IH |- *. rewrite IH. done.
Qed.

Lemma TrimLeft_Right s : TrimLeft s = s -> TrimLeft (TrimRight s) = TrimRight s.
Proof.
  destruct s as [|a s]; cbn; [done|]. destruct (is_space a) eqn:E; [|intros _; destruct (TrimRight s); cbn; by rewrite E].
  intros H. exfalso. assert (Hl : forall t, (String.length (TrimLeft t) <= String.length t)%nat).
  { induction t as [|b t IH]; cbn; [lia|]. destruct (is_space b); cbn; lia. }
  specialize (Hl s). rewrite H in Hl. cbn in Hl. lia.
Qed.

Lemma TrimSpace_idem s : TrimSpace (TrimSpace s) = TrimSpace s.
Proof. unfold TrimSpace. rewrite TrimLeft_Right by apply TrimLeft_idem. apply TrimRight_idem. Qed.

(** The two readings of a switch agree: whatever Switch accepts, Bool reads the
    same, and what Switch refuses leaves Bool at its default. *)
Theorem switch_agrees Getenv key def :
  match env_Switch Getenv key def with
  | Ok v => env_Bool Getenv key def = v
  | Err _ => env_Bool Getenv key def = def
  end.
Proof.
  unfold env_Switch, env_Bool. set (v := Getenv key). assert (Hp : parseSwitch (TrimSpace v) = parseSwitch v) by (unfold parseSwitch; by rewrite TrimSpace_idem).
  destruct (TrimSpace v) as [|a s] eqn:Hs; [by rewrite <- Hp|]. rewrite Hp. by destruct (parseSwitch v) as [b []].
Qed.

(** ** cors *)

Definition SameHost : string := "same-host".

(** LoadAllowed. *)
Definition comma : ascii := ","%char.
Definition LoadAllowed (value : string) : list string :=
  filter (fun o => o <> "") (TrimSpace <$> Split comma value).

(** The host of a URL and net.SplitHostPort's host. *)
Class Hosts := { url_Host : string -> option string; SplitHostPort : string -> option string }.

(** strings.EqualFold on ASCII. *)
Definition EqualFold (a b : string) : bool := String.eqb (ToLower a) (ToLower b).

Definition equalHost `{Hosts} (a b : string) : bool := EqualFold (default a (SplitHostPort a)) (default b (SplitHostPort b)).

(** The callback of NewChecker on a request with Origin [o] to [host]. *)
Definition NewChecker `{Hosts} (allowed : list string) (o host : string) : bool :=
  if String.eqb o "" then true
  else if bool_decide ("*" ∈ allowed) then true
  else if bool_decide (o ∈ allowed) then true
  else match url_Host o with
    | None => false
    | Some h => if bool_decide (SameHost ∈ allowed) && equalHost h host then true else EqualFold h host
    end.

(** Only what the list names gets in from elsewhere: a request with an Origin is
    accepted exactly when the list has it or the wildcard, or it comes from the
    host asked, ports aside if the list says so; and more entries refuse nothing
    that fewer accept. *)
Theorem origin_checked `{Hosts} allowed allowed' o host :
  (NewChecker allowed o host = true <->
   o = "" \/ "*" ∈ allowed \/ o ∈ allowed \/
   exists h, url_Host o = Some h /\ (EqualFold h host = true \/ (SameHost ∈ allowed /\ equalHost h host = true))) /\
  (allowed ⊆ allowed' -> NewChecker allowed o host = true -> NewChecker allowed' o host = true).
Proof.
  assert (Hc : forall l, NewChecker l o host = true <-> o = "" \/ "*" ∈ l \/ o ∈ l \/
    exists h, url_Host o = Some h /\ (EqualFold h host = true \/ (SameHost ∈ l /\ equalHost h host = true))).
  { intros l. unfold NewChecker. destruct (String.eqb_spec o ""); [tauto|]. case_bool_decide; [tauto|]. case_bool_decide; [tauto|].
    destruct (url_Host o) as [h|]; [|split; [done|intros [|[|[|(? & ? & _)]]]; done]].
    case_bool_decide; cbn; [destruct (equalHost h host) eqn:E|].
    - split; [intros _; do 3 right; exists h; auto|done].
    - split; [intros He; do 3 right; exists h; auto|intros [|[|[|(h' & [= <-] & [|[_ ?]])]]]; try done; congruence].
    - split; [intros He; do 3 right; exists h; auto|intros [|[|[|(h' & [= <-] & [|[? _]])]]]; done]. }
  split; [apply Hc|]. intros Hsub. rewrite !Hc. intros [|[|[|(h & ? & [|[? ?]])]]]; auto 10.
  - do 3 right. exists h. auto.
  - do 3 right. exists h. split; [done|]. right. split; [by apply Hsub|done].
Qed.

#[local] Instance example_hosts : Hosts := {
  url_Host := fun o => snd <$> Cut o "://"; SplitHostPort := fun h => fst <$> Cut h ":"
}.

Lemma origin_checked_witness :
  NewChecker ["same-host"] "http://localhost:5178" "localhost:4433" = true /\ NewChecker ["*"; "same-host"] "http://localhost:5178" "localhost:4433" = true.
Proof.
  assert (Ha : NewChecker ["same-host"] "http://localhost:5178" "localhost:4433" = true) by by vm_compute.
  split; [done|]. revert Ha. apply (origin_checked ["same-host"] ["*"; "same-host"]). set_solver.
Defined.

Lemma default_refuses_elsewhere : NewChecker [] "http://evil.example" "localhost:4433" = false /\ LoadAllowed " a, ,b," = ["a"; "b"].
Proof. by vm_compute. Qed.

(** ** hls/cors.go *)

(** What is done to the answer's headers, in order. *)
Inductive header_op := AddHeader (name value : string) | SetHeader (name value : string).

(** withCORS: the headers, and the status of an answer the wrapped handler does not
    give. *)
Definition withCORS `{Hosts} (allowed : list string) (method origin host : string) : list header_op * option Z :=
  let allow := NewChecker allowed origin host in
  let headers := AddHeader "Vary" "Origin" ::
    (if negb (bool_decide (origin = "")) && allow then
       [SetHeader "Access-Control-Allow-Origin" origin; SetHeader "Access-Control-Allow-Headers" "Range";
        SetHeader "Access-Control-Expose-Headers" "Content-Length, Content-Range"]
     else []) in
  if bool_decide (method = "OPTIONS") then (headers ++ [SetHeader "Access-Control-Allow-Methods" "GET, HEAD, OPTIONS"], Some 204)
  else (headers, None).

(** A browser elsewhere may read an answer exactly when the checker admits its origin,
    which the answer then names, and no other; every answer says that it depends on the
    origin; and a preflight alone is not passed on. *)
Theorem cors_answers `{Hosts} allowed method origin host :
  let '(headers, status) := withCORS allowed method origin host in
  (forall o, SetHeader "Access-Control-Allow-Origin" o ∈ headers <-> o = origin /\ origin <> "" /\ NewChecker allowed origin host = true) /\
  AddHeader "Vary" "Origin" ∈ headers /\ (status = None <-> method <> "OPTIONS").
Proof.
  unfold withCORS. destruct (NewChecker allowed origin host), (decide (origin = "")) as [Ho|Ho], (decide (method = "OPTIONS")) as [Hm|Hm];
    rewrite ?(bool_decide_true (origin = "")), ?(bool_decide_false (origin = "")), ?(bool_decide_true (method = "OPTIONS")), ?(bool_decide_false (method = "OPTIONS")) by done; cbn.
  all: split; [intros o; rewrite ?elem_of_cons, ?elem_of_nil; naive_solver|split; [by constructor|naive_solver]].
Qed.
