(* ===== verification/GoNetip.v ===== *)
(** * net/netip addresses, and the order of [cmp.Compare] on float64

    What src/internal/geodns uses of them: [netip.ParseAddr] in full, the
    classes of an address, [Unmap], [Compare] and [AddrFromSlice]. Versions of Go
    differ in what [IsGlobalUnicast] says of an IPv4-mapped IPv6 address, so that
    is a parameter. *)
From stdpp Require Import sorting.
From S2P Require Import Prelude GoStrings GoText GoTime.

#[local] Open Scope Z_scope.

(** ** Addresses *)

(** [netip.Addr]: the zero one, an IPv4 address, or an IPv6 address with its zone. *)
Inductive Addr := NoAddr | V4 (a : Z) | V6 (a : Z) (z : string).

#[export] Instance Addr_eq_dec : EqDecision Addr.
Proof. solve_decision. Defined.

Definition IsValid (a : Addr) : bool := match a with NoAddr => false | _ => true end.
Definition Is6 (a : Addr) : bool := match a with V6 _ _ => true | _ => false end.
Definition Is4In6 (a : Addr) : bool := match a with V6 x _ => x / 2 ^ 32 =? 65535 | _ => false end.
Definition Unmap (a : Addr) : Addr :=
  match a with V6 x _ => if Is4In6 a then V4 (x mod 2 ^ 32) else a | _ => a end.

(** The [n] leading bits of a [w]-bit address. *)
Definition leading (w n a : Z) : Z := a / 2 ^ (w - n).

Definition v4_loopback (a : Z) : bool := leading 32 8 a =? 127.
Definition v4_multicast (a : Z) : bool := leading 32 4 a =? 14.
Definition v4_link_local (a : Z) : bool := leading 32 16 a =? 43518.
Definition v6_multicast (a : Z) : bool := leading 128 8 a =? 255.
Definition v6_link_local (a : Z) : bool := leading 128 10 a =? 1018.

(** 10/8, 172.16/12, 192.168/16, and fc00::/7. *)
Definition IsPrivate (a : Addr) : bool :=
  match Unmap a with
  | V4 x => (leading 32 8 x =? 10) || (leading 32 12 x =? 2753) || (leading 32 16 x =? 49320)
  | V6 x _ => leading 128 7 x =? 126
  | NoAddr => false
  end.

Class GoVersion := { mapped_unicast : Z -> bool }.

Definition IsGlobalUnicast `{GoVersion} (a : Addr) : bool :=
  match a with
  | NoAddr => false
  | V4 x => negb ((x =? 0) || (x =? 2 ^ 32 - 1) || v4_loopback x || v4_multicast x || v4_link_local x)
  | V6 x z =>
      if Is4In6 a then mapped_unicast (x mod 2 ^ 32)
      else negb ((x =? 0) && String.eqb z "") && negb ((x =? 1) || v6_multicast x || v6_link_local x)
  end.

(** [Addr.Compare]: by length, then value, then zone. *)
Definition addr_cmp (a b : Addr) : comparison :=
  match a, b with
  | NoAddr, NoAddr => Eq
  | NoAddr, _ => Lt
  | _, NoAddr => Gt
  | V4 x, V4 y => x ?= y
  | V4 _, V6 _ _ => Lt
  | V6 _ _, V4 _ => Gt
  | V6 x z, V6 y w => match x ?= y with Eq => String.compare z w | c => c end
  end.

Definition addr_le (a b : Addr) : Prop := addr_cmp a b <> Gt.

#[export] Instance addr_le_dec : RelDecision addr_le.
Proof. intros a b. unfold addr_le. destruct (addr_cmp a b); [left|left|right]; by auto. Defined.

(** [netip.AddrFromSlice]. *)
Definition of_bytes (l : list Z) : Z := foldl (fun a b => a * 256 + b) 0 l.
Definition AddrFromSlice (l : list Z) : option Addr :=
  match length l with 4%nat => Some (V4 (of_bytes l)) | 16%nat => Some (V6 (of_bytes l) "") | _ => None end.

(** ** Parsing *)

(** One field of a dotted address: no leading zero, at most 255. *)
Definition octet (s : string) : option Z :=
  match s with
  | String "0" (String _ _) => None
  | _ => v ← digits1 s; if v <=? 255 then Some v else None
  end.

Definition dot : ascii := "."%char.

Definition parseIPv4Fields (s : string) : option Z :=
  match Split dot s with
  | [a; b; c; d] => a ← octet a; b ← octet b; c ← octet c; d ← octet d; Some (((a * 256 + b) * 256 + c) * 256 + d)
  | _ => None
  end.

Definition hex_digit (c : ascii) : option Z :=
  let n := Z.of_nat (nat_of_ascii c) in
  if (48 <=? n) && (n <=? 57) then Some (n - 48)
  else if (97 <=? n) && (n <=? 102) then Some (n - 87)
  else if (65 <=? n) && (n <=? 70) then Some (n - 55) else None.

(** The hex digits at the front, [off] of them read with value [acc]; more than
    four are an error. *)
Fixpoint hex_field (s : string) (off : nat) (acc : Z) : option (nat * Z * string) :=
  match s with
  | String c s' =>
      match hex_digit c with
      | Some v => if (3 <? off)%nat then None else hex_field s' (S off) (acc * 16 + v)
      | None => Some (off, acc, s)
      end
  | EmptyString => Some (off, acc, s)
  end.

(** The loop over fields: the 16-bit groups so far, where the ellipsis is, and
    what is left. Each round appends a group and there are at most eight. *)
Fixpoint v6_fields (rounds : nat) (s : string) (gs : list Z) (ellipsis : option nat) : option (list Z * option nat * string) :=
  match rounds with
  | O => Some (gs, ellipsis, s)
  | S rounds =>
      '(off, acc, s1) ← hex_field s 0 0;
      if (off =? 0)%nat then None
      else match s1 with
      | String "." _ =>
          if bool_decide (ellipsis = None) && negb (length gs =? 6)%nat then None
          else if (6 <? length gs)%nat then None
          else a ← parseIPv4Fields s; Some (gs ++ [a / 2 ^ 16; a mod 2 ^ 16], ellipsis, EmptyString)
      | EmptyString => Some (gs ++ [acc], ellipsis, EmptyString)
      | String ":" EmptyString => None
      | String ":" (String ":" s2) =>
          if bool_decide (ellipsis = None) then
            match s2 with
            | EmptyString => Some (gs ++ [acc], Some (S (length gs)), EmptyString)
            | _ => v6_fields rounds s2 (gs ++ [acc]) (Some (S (length gs)))
            end
          else None
      | String ":" s2 => v6_fields rounds s2 (gs ++ [acc]) ellipsis
      | String _ _ => None
      end
  end.

Definition of_groups (l : list Z) : Z := foldl (fun a g => a * 2 ^ 16 + g) 0 l.

Definition expand (gs : list Z) (ellipsis : option nat) : option (list Z) :=
  match ellipsis with
  | None => if (length gs =? 8)%nat then Some gs else None
  | Some e => if (length gs <? 8)%nat then Some (take e gs ++ replicate (8 - length gs) 0 ++ drop e gs) else None
  end.

Definition parseIPv6 (s : string) : option Addr :=
  '(s, z) ← match Cut s "%" with
            | Some (_, EmptyString) => None
            | Some (s, z) => Some (s, z)
            | None => Some (s, EmptyString)
            end;
  match s with
  | String ":" (String ":" EmptyString) => Some (V6 0 z)
  | _ =>
      '(gs, e, rest) ← match s with
                       | String ":" (String ":" s2) => v6_fields 8 s2 [] (Some O)
                       | _ => v6_fields 8 s [] None
                       end;
      match rest with
      | EmptyString => gs ← expand gs e; Some (V6 (of_groups gs) z)
      | _ => None
      end
  end.

(** Which of the two it is, by the first of the characters that tell. *)
Fixpoint addr_kind (s : string) : option bool :=
  match s with
  | String "." _ => Some false
  | String ":" _ => Some true
  | String "%" _ | EmptyString => None
  | String _ s => addr_kind s
  end.

Definition ParseAddr (s : string) : option Addr :=
  k ← addr_kind s; if k : bool then parseIPv6 s else V4 <$> parseIPv4Fields s.

Lemma parse_examples :
  ParseAddr "192.0.2.1" = Some (V4 3221225985) /\ ParseAddr "192.0.2.01" = None /\ ParseAddr "1.2.3" = None /\
  ParseAddr "2001:db8::10" = Some (V6 42540766411282592856903984951653826576 "") /\
  ParseAddr "::ffff:10.0.0.1" = Some (V6 281470849515521 "") /\ ParseAddr "::" = Some (V6 0 "") /\
  ParseAddr "1::2::3" = None /\ ParseAddr "1:2:3:4:5:6:7:8" = Some (V6 5192455318486707404433266433261576 "") /\
  ParseAddr "1:2:3:4:5:6:7::" = Some (V6 5192455318486707404433266433261568 "") /\
  ParseAddr "1:2:3:4:5:6:7:8::" = None /\ ParseAddr "fe80::1%eth0" = Some (V6 338288524927261089654018896841347694593 "eth0") /\
  ParseAddr "fe80::1%" = None /\ ParseAddr "relay" = None /\ ParseAddr "12345::" = None.
Proof. by vm_compute. Qed.

(** ** The order of addresses *)

Lemma string_cmp_trans s t u : String.compare s t <> Gt -> String.compare t u <> Gt -> String.compare s u <> Gt.
Proof.
  revert t u. induction s as [|a s IH]; intros [|b t] [|c u]; cbn; try done. unfold Ascii.compare.
  destruct (N.compare_spec (N_of_ascii a) (N_of_ascii b)) as [E1|E1|E1], (N.compare_spec (N_of_ascii b) (N_of_ascii c)) as [E2|E2|E2],
    (N.compare_spec (N_of_ascii a) (N_of_ascii c)) as [E3|E3|E3]; try done; try (exfalso; lia). apply IH.
Qed.

Lemma string_cmp_eq s t : String.compare s t = Eq -> s = t.
Proof. apply String.compare_eq_iff. Qed.

Lemma addr_cmp_eq a b : addr_cmp a b = Eq -> a = b.
Proof.
  destruct a as [|x|x z], b as [|y|y w]; cbn; try done; [intros ->%Z.compare_eq; done|].
  destruct (Z.compare_spec x y); try done. subst. by intros ->%string_cmp_eq.
Qed.

Lemma addr_cmp_antisym a b : addr_cmp b a = CompOpp (addr_cmp a b).
Proof.
  destruct a as [|x|x z], b as [|y|y w]; cbn; try done; rewrite (Z.compare_antisym x y); [done|].
  destruct (x ?= y); cbn; try done. apply String.compare_antisym.
Qed.

Lemma addr_le_refl a : addr_le a a.
Proof. intros H. pose proof (addr_cmp_antisym a a) as Ha. by rewrite H in Ha. Qed.

#[export] Instance addr_le_trans : Transitive addr_le.
Proof.
  intros a b c. unfold addr_le. destruct a as [|x|x z], b as [|y|y w], c as [|u|u v]; cbn; try done;
    destruct (x ?= y) eqn:E1, (y ?= u) eqn:E2, (x ?= u) eqn:E3; try done;
    rewrite ?Z.compare_eq_iff, ?Z.compare_lt_iff, ?Z.compare_gt_iff in *; try (exfalso; lia). apply string_cmp_trans.
Qed.
#[export] Instance addr_le_total : Total addr_le.
Proof. intros a b. unfold addr_le. rewrite (addr_cmp_antisym a b). destruct (addr_cmp a b); cbn; auto. Qed.
#[export] Instance addr_le_antisym : AntiSymm (=) addr_le.
Proof.
  intros a b. unfold addr_le. rewrite (addr_cmp_antisym a b). destruct (addr_cmp a b) eqn:E; cbn; try done. intros _ _. by apply addr_cmp_eq.
Qed.

(** [slices.SortFunc(l, netip.Addr.Compare)], whose result does not depend on the
    algorithm, and [slices.Compact]. *)
Definition sort_addrs : list Addr -> list Addr := merge_sort addr_le.

Fixpoint Compact (l : list Addr) : list Addr :=
  match l with
  | a :: (b :: _) as t => if bool_decide (a = b) then Compact t else a :: Compact t
  | _ => l
  end.

Lemma Compact_elem a l : a ∈ Compact l <-> a ∈ l.
Proof.
  induction l as [|b [|c t] IH]; cbn; [done..|]. cbn in IH. case_bool_decide; subst; rewrite !elem_of_cons, ?IH, ?elem_of_cons; tauto.
Qed.

Lemma Compact_sorted l : StronglySorted addr_le l -> StronglySorted addr_le (Compact l) /\ NoDup (Compact l).
Proof.
  induction l as [|a [|b t] IH]; cbn; intros Hs; [by repeat constructor| |].
  - split; [done|]. apply NoDup_singleton.
  - apply StronglySorted_inv in Hs as [Hs Ha]. destruct (IH Hs) as [H1 H2]. cbn in H1, H2.
    case_bool_decide as Hab; [done|].
    assert (Hle : Forall (addr_le a) (Compact (b :: t))).
    { apply Forall_forall. intros x Hx. apply (Compact_elem x (b :: t)) in Hx. rewrite Forall_forall in Ha. by apply Ha. }
    split; [by constructor|]. constructor; [|done]. intros Hin. apply (Compact_elem a (b :: t)) in Hin.
    rewrite Forall_forall in Ha. apply Hab, (anti_symm addr_le); [apply Ha; left|].
    apply elem_of_cons in Hin as [->|Hin]; [by apply addr_le_refl|].
    apply StronglySorted_inv in Hs as [_ Hb]. rewrite Forall_forall in Hb. by apply Hb.
Qed.

(** ** Floats in order *)

(** [cmp.Compare]: a NaN is below everything else. *)
Definition is_nan (x : float64) : bool := match x with S754_nan => true | _ => false end.
Definition cmp_Compare (x y : float64) : comparison :=
  if is_nan x then if is_nan y then Eq else Lt
  else if is_nan y then Gt
  else if SFltb x y then Lt else if SFltb y x then Gt else Eq.

(** The order it is of: by kind, then signed exponent, then signed mantissa. *)
Definition float_key (x : float64) : Z * Z * Z :=
  match x with
  | S754_nan => (-3, 0, 0)
  | S754_infinity s => (if s then -2 else 2, 0, 0)
  | S754_zero _ => (0, 0, 0)
  | S754_finite true m e => (-1, - e, - Z.pos m)
  | S754_finite false m e => (1, e, Z.pos m)
  end.

Definition key_le (a b : Z * Z * Z) : Prop :=
  a.1.1 < b.1.1 \/ (a.1.1 = b.1.1 /\ (a.1.2 < b.1.2 \/ (a.1.2 = b.1.2 /\ a.2 <= b.2))).

Definition no_later (x y : float64) : Prop := key_le (float_key x) (float_key y).

Lemma pos_cmp_Z m n : Pos.compare_cont Eq m n = (Z.pos m ?= Z.pos n).
Proof. done. Qed.

Lemma cmp_Compare_key x y : (cmp_Compare x y = Gt <-> ~ no_later x y) /\ (cmp_Compare x y = Lt <-> ~ no_later y x).
Proof.
  unfold cmp_Compare, no_later, key_le, SFltb.
  destruct x as [[]|[]| |[] m e], y as [[]|[]| |[] n f]; cbn; try (split; split; intros; try done; lia).
  - destruct (Z.compare_spec e f), (Z.compare_spec f e); try lia; rewrite ?pos_cmp_Z;
      try (split; split; intros; try done; lia).
    destruct (Z.compare_spec (Z.pos m) (Z.pos n)), (Z.compare_spec (Z.pos n) (Z.pos m)); cbn; try lia; split; split; intros; try done; lia.
  - destruct (Z.compare_spec e f), (Z.compare_spec f e); try lia; rewrite ?pos_cmp_Z;
      try (split; split; intros; try done; lia).
    destruct (Z.compare_spec (Z.pos m) (Z.pos n)), (Z.compare_spec (Z.pos n) (Z.pos m)); cbn; try lia; split; split; intros; try done; lia.
Qed.

Lemma not_later x y : cmp_Compare x y <> Lt -> no_later y x.
Proof.
  intros H. assert (Hd : no_later y x \/ ~ no_later y x) by (unfold no_later, key_le; lia).
  destruct Hd as [|Hd]; [done|]. by apply (cmp_Compare_key x y) in Hd.
Qed.

Lemma before x y : cmp_Compare x y = Lt -> no_later x y.
Proof. intros H. apply (cmp_Compare_key x y) in H. unfold no_later, key_le in *. lia. Qed.

#[export] Instance no_later_preorder : PreOrder no_later.
Proof. split; [intros x|intros x y w]; unfold no_later, key_le; lia. Qed.

(** [slices.MinFunc] by [cmp.Compare] of a measure: the first of the least. *)
Fixpoint min_by {A} (f : A -> float64) (best : A) (l : list A) : A :=
  match l with
  | [] => best
  | x :: t => min_by f (match cmp_Compare (f x) (f best) with Lt => x | _ => best end) t
  end.

Lemma min_by_elem {A} (f : A -> float64) best l : min_by f best l ∈ best :: l.
Proof.
  revert best. induction l as [|x t IH]; intros best; cbn; [by left|].
  specialize (IH (match cmp_Compare (f x) (f best) with Lt => x | _ => best end)).
  destruct (cmp_Compare _ _); rewrite !elem_of_cons in *; tauto.
Qed.

Lemma min_by_least {A} (f : A -> float64) best l x : x ∈ best :: l -> no_later (f (min_by f best l)) (f x).
Proof.
  revert best x. induction l as [|y t IH]; intros best x Hx; cbn; [apply list_elem_of_singleton in Hx as ->; reflexivity|].
  set (b := match _ with Lt => _ | _ => _ end).
  assert (Hb : no_later (f b) (f best) /\ no_later (f b) (f y)).
  { subst b. destruct (cmp_Compare (f y) (f best)) eqn:E; (split; [|try reflexivity]); try reflexivity; try (apply not_later; by rewrite E). by apply before. }
  apply elem_of_cons in Hx as [->|Hx].
  - trans (f b); [apply IH; by left|apply Hb].
  - apply elem_of_cons in Hx as [->|Hx]; [trans (f b); [apply IH; by left|apply Hb]|]. apply IH. by right.
Qed.

Lemma before_later x y w : cmp_Compare x y = Lt -> no_later y w -> cmp_Compare x w = Lt.
Proof. rewrite !(proj2 (cmp_Compare_key _ _)). intros Hx Hy Hn. apply Hx. by trans w. Qed.

Lemma later_before x y w : no_later x y -> cmp_Compare y w = Lt -> cmp_Compare x w = Lt.
Proof. rewrite !(proj2 (cmp_Compare_key _ _)). intros Hx Hy Hn. apply Hy. by trans x. Qed.

(** ... and what comes before it is farther. *)
Lemma min_by_first {A} (f : A -> float64) best l :
  exists bf af, best :: l = bf ++ min_by f best l :: af /\ forall x, x ∈ bf -> cmp_Compare (f (min_by f best l)) (f x) = Lt.
Proof.
  revert best. induction l as [|y t IH]; intros best; cbn; [exists [], []; by split; [|intros x Hx%not_elem_of_nil]|].
  set (b := match cmp_Compare (f y) (f best) with Lt => y | _ => best end).
  destruct (IH b) as (bf & af & He & Hf). subst b. destruct (cmp_Compare (f y) (f best)) eqn:E.
  2: { exists (best :: bf), af. split; [cbn; by rewrite He|]. intros x Hx. apply elem_of_cons in Hx as [->|Hx]; [|by apply Hf].
       eapply later_before; [|exact E]. apply min_by_least. left. }
  all: destruct bf as [|z bf]; cbn in He; injection He as Hb Ht;
    [exists [], (y :: t); split; [cbn; congruence|intros x Hx%not_elem_of_nil; done]|];
    subst z; exists (best :: y :: bf), af; split; [cbn; congruence|];
    intros x Hx; apply elem_of_cons in Hx as [->|Hx]; [apply Hf; left|];
    apply elem_of_cons in Hx as [->|Hx]; [|apply Hf; by right];
    eapply before_later; [apply Hf; left|apply not_later; by rewrite E].
Qed.
