(* ===== verification/GeoPick.v ===== *)
(** * Geodns: the feed's regions and the pick of the nearest

    src/internal/geodns/feed.go and pick.go: a feed body becomes a [zone] of
    regions with their addresses, and [pick] answers a client with the addresses
    of one of them. The text of JSON and the functions Sin, Cos and Asin of math
    are the classes [FeedJson] and [GoMath]; floats are binary64 throughout. *)
From Stdlib Require Import Sorted.
From stdpp Require Import sorting.
From S2P Require Import Prelude GoStrings GoTime GoNetip.

Open Scope Z_scope.

(** ** Places *)

(** location: degrees. *)
Record location := mkLocation { lat : float64; lon : float64 }.

Class GoMath := { Sin : float64 -> float64; Cos : float64 -> float64; Asin : float64 -> float64 }.

Definition fadd := SFadd 53 1024.
Definition fsub := SFsub 53 1024.
Definition fmul := SFmul 53 1024.
Definition fdiv := SFdiv 53 1024.
Definition Sqrt := SFsqrt 53 1024.
(** The float64 constants math.Pi, 2, 180 and 2 * earthRadiusKM. *)
Definition Pi : float64 := S754_finite false 7074237752028440 (-51).
Definition two : float64 := S754_finite false 4503599627370496 (-51).
Definition f180 : float64 := S754_finite false 6333186975989760 (-45).
Definition two_earthRadiusKM : float64 := S754_finite false 7004988580560896 (-39).

Definition rad (deg : float64) : float64 := fdiv (fmul deg Pi) f180.

(** distanceKM: haversine. *)
Definition haversine `{GoMath} (a b : location) : float64 :=
  let dLat := rad (fsub b.(lat) a.(lat)) in
  let dLon := rad (fsub b.(lon) a.(lon)) in
  fadd (fmul (Sin (fdiv dLat two)) (Sin (fdiv dLat two)))
       (fmul (fmul (fmul (Cos (rad a.(lat))) (Cos (rad b.(lat)))) (Sin (fdiv dLon two))) (Sin (fdiv dLon two))).
Definition distanceKM `{GoMath} (a b : location) : float64 := fmul two_earthRadiusKM (Asin (Sqrt (haversine a b))).
#[global] Arguments distanceKM : simpl never.

(** ** The feed *)

Record region := mkRegion { name : string; at_ : location; addrs : list Addr }.
(** zone: the regions by name, and the SOA serial. *)
Record zone := mkZone { regions : list region; serial : Z }.

(** feedBody, the feed's wire form. *)
Record feedRegion := mkFeedRegion { Region : string; Lat : float64; Lon : float64; Addrs : list string }.
Record feedBody := mkFeedBody { Regions : list feedRegion; PublishedAt : Time }.

Class FeedJson := {
  json_Unmarshal : string -> option feedBody;
  json_empty : json_Unmarshal "" = None
}.

Inductive feed_error := DecodeFeed | ErrNoRegion.
Inductive skip := SkipRegion (name : string) | SkipAddr (name raw : string).

(** [slices.SortFunc(z.regions, ...)] by name: the order of regions of one name is
    the algorithm's, so any function that sorts is taken. *)
Definition name_le (a b : region) : Prop := String.compare a.(name) b.(name) <> Gt.
Class SortsRegions (sort : list region -> list region) : Prop := {
  regions_perm l : sort l ≡ₚ l;
  regions_sorted l : StronglySorted name_le (sort l)
}.

Definition maxUint32 : Z := 2 ^ 32 - 1.

Definition serialOf (t : Time) : Z :=
  if IsZero t || (Unix t <=? 0) || (maxUint32 <? Unix t) then 1 else wrapu 32 (Unix t).

(** 90 and 180 degrees. *)
Definition f90 : float64 := S754_finite false 6333186975989760 (-46).
Definition off_globe (la lo : float64) : bool := SFltb f90 (SFabs la) || SFltb f180 (SFabs lo).

Section Feed.
Context `{GoVersion, FeedJson}.
Context (sort : list region -> list region).

(** An address of the feed, if it is a public unicast one. *)
Definition usable (raw : string) : option Addr :=
  match ParseAddr raw with
  | Some a => if negb (IsGlobalUnicast a) || IsPrivate (Unmap a) then None else Some (Unmap a)
  | None => None
  end.

(** The inner loop of parseFeed, over one region's addresses. *)
Fixpoint read_addrs (nm : string) (raws : list string) : list Addr * list skip :=
  match raws with
  | [] => ([], [])
  | raw :: t =>
      let '(l, s) := read_addrs nm t in
      match usable raw with Some a => (a :: l, s) | None => (l, SkipAddr nm raw :: s) end
  end.

(** One round of the outer loop. *)
Definition read_region (r : feedRegion) : option region * list skip :=
  if String.eqb r.(Region) "" || off_globe r.(Lat) r.(Lon) then (None, [SkipRegion r.(Region)])
  else
    let '(l, s) := read_addrs r.(Region) r.(Addrs) in
    (match l with
     | [] => None
     | _ => Some (mkRegion r.(Region) (mkLocation r.(Lat) r.(Lon)) (Compact (sort_addrs l)))
     end, s).

Definition parseFeed (body : string) : result (feed_error * list skip) (zone * list skip) :=
  match json_Unmarshal body with
  | None => Err (DecodeFeed, [])
  | Some f =>
      let rounds := read_region <$> f.(Regions) in
      let skipped := concat rounds.*2 in
      match omap id rounds.*1 with
      | [] => Err (ErrNoRegion, skipped)
      | l => Ok (mkZone (sort l) (serialOf f.(PublishedAt)), skipped)
      end
  end.

End Feed.

(** ** pick *)

Section Pick.
Context `{GoMath}.

(** The regions that have an address of the family, with those only. *)
Definition family (v6 : bool) (r : region) : list Addr := filter (fun a => Is6 a = v6) r.(addrs).
Definition candidates (z : zone) (v6 : bool) : list region :=
  omap (fun r => match family v6 r with [] => None | l => Some (mkRegion r.(name) r.(at_) l) end) z.(regions).

Definition rotate (k : nat) (l : list Addr) : list Addr := drop k l ++ take k l.

Definition pick (z : zone) (at' : option location) (v6 : bool) (limit : nat) (turn : Z) : string * list Addr :=
  match candidates z v6 with
  | [] => ("", [])
  | c :: cs =>
      let '(chosen, turn) :=
        match at' with
        | Some p => (min_by (fun r => distanceKM p r.(at_)) c cs, turn)
        | None =>
            let n := Z.of_nat (length (c :: cs)) in
            (nth (Z.to_nat (turn mod n)) (c :: cs) c, turn / n)
        end in
      let k := Z.to_nat (turn mod Z.of_nat (length chosen.(addrs))) in
      (chosen.(name), take limit (rotate k chosen.(addrs)))
  end.

End Pick.

(** ** The feed, exactly *)

Definition on_globe (r : feedRegion) : Prop := r.(Region) <> "" /\ off_globe r.(Lat) r.(Lon) = false.

Section FeedLemmas.
Context `{GoVersion, FeedJson}.

(** What is served as an address: a public unicast one, unmapped. *)
Definition public (a : Addr) : Prop :=
  a <> NoAddr /\ Is4In6 a = false /\ IsPrivate a = false /\ exists b, Unmap b = a /\ IsGlobalUnicast b = true.

Record zone_wf (z : zone) : Prop := {
  zw_some : z.(regions) <> [];
  zw_names : StronglySorted name_le z.(regions);
  zw_region r : r ∈ z.(regions) -> r.(name) <> "" /\ r.(addrs) <> [] /\ NoDup r.(addrs) /\
    StronglySorted addr_le r.(addrs) /\ Forall public r.(addrs);
  zw_serial : 1 <= z.(serial) < 2 ^ 32
}.

Lemma Unmap_idem a : Is4In6 (Unmap a) = false.
Proof. destruct a as [|x|x z]; try done. cbn [Unmap]. by destruct (Is4In6 (V6 x z)) eqn:E. Qed.

Lemma usable_public raw a : usable raw = Some a -> public a.
Proof.
  unfold usable. destruct (ParseAddr raw) as [b|]; [|done]. destruct (negb _ || _) eqn:E; [done|]. intros [= <-].
  apply orb_false_iff in E as [E1 E2]. apply negb_false_iff in E1. split; [|split; [apply Unmap_idem|split; [done|by eauto]]].
  destruct b as [|x|x z]; cbn in *; try done. by destruct (_ =? _).
Qed.

Lemma read_addrs_spec nm raws :
  (forall a, a ∈ (read_addrs nm raws).1 <-> exists raw, raw ∈ raws /\ usable raw = Some a) /\
  (forall s, s ∈ (read_addrs nm raws).2 <-> exists raw, raw ∈ raws /\ usable raw = None /\ s = SkipAddr nm raw).
Proof.
  induction raws as [|raw t [IH1 IH2]]; cbn; [split; intros x; rewrite elem_of_nil; split; [done|by intros (? & []%not_elem_of_nil & _)|done|by intros (? & []%not_elem_of_nil & _)]|].
  destruct (read_addrs nm t) as [l s]. cbn in *. setoid_rewrite elem_of_cons.
  destruct (usable raw) as [b|] eqn:Hu; cbn; split; intros x; rewrite ?elem_of_cons, ?IH1, ?IH2.
  - split; [intros [->|(r & ? & ?)]; eauto|intros (r & [->|?] & ?); [left; congruence|eauto]].
  - split; [intros (r & ? & ?); eauto|intros (r & [->|?] & ? & ?); [congruence|eauto]].
  - split; [intros (r & ? & ?); eauto|intros (r & [->|?] & ?); [congruence|eauto]].
  - split; [intros [->|(r & ? & ?)]; eauto|intros (r & [->|?] & ? & ?); [left; congruence|eauto]].
Qed.

Lemma serialOf_range t : 1 <= serialOf t < 2 ^ 32.
Proof. unfold serialOf, maxUint32, wrapu. repeat case_match; try lia. bool_prop. rewrite Z.mod_small; lia. Qed.

(** Of a region read: its name, its place, and its addresses, all the usable
    ones of the feed's. *)
Definition reads_as (r : region) (fr : feedRegion) : Prop :=
  on_globe fr /\ r.(name) = fr.(Region) /\ r.(at_) = mkLocation fr.(Lat) fr.(Lon) /\
  forall a, a ∈ r.(addrs) <-> exists raw, raw ∈ fr.(Addrs) /\ usable raw = Some a.

Lemma read_region_spec fr :
  match (read_region fr).1 with
  | Some r => reads_as r fr /\ r.(addrs) <> [] /\ NoDup r.(addrs) /\ StronglySorted addr_le r.(addrs)
  | None => on_globe fr -> forall raw, raw ∈ fr.(Addrs) -> usable raw = None
  end /\
  forall s, s ∈ (read_region fr).2 <-> (~ on_globe fr /\ s = SkipRegion fr.(Region)) \/
    (on_globe fr /\ exists raw, raw ∈ fr.(Addrs) /\ usable raw = None /\ s = SkipAddr fr.(Region) raw).
Proof.
  unfold read_region, on_globe. destruct (String.eqb_spec (Region fr) "") as [He|He]; cbn [orb].
  { split; [by intros []|]. cbn. intros s. rewrite list_elem_of_singleton. split; [intros ->; left; split; [by intros []|done]|].
    intros [[_ ->]|[[] _]]; done. }
  destruct (off_globe (Lat fr) (Lon fr)) eqn:Ho.
  { split; [by intros []|]. cbn. intros s. rewrite list_elem_of_singleton. split; [intros ->; left; split; [by intros []|done]|].
    intros [[_ ->]|[[] _]]; done. }
  pose proof (read_addrs_spec (Region fr) (Addrs fr)) as [H1 H2]. destruct (read_addrs (Region fr) (Addrs fr)) as [l s]. cbn in H1, H2 |- *.
  split; [|intros x; rewrite H2; split; [intros Hx; right; done|intros [[Hn _]|[_ Hx]]; [exfalso; by apply Hn|done]]].
  destruct l as [|a l].
  - intros _ raw Hraw. destruct (usable raw) as [a|] eqn:Hu; [|done]. assert (a ∈ @nil Addr) by (apply H1; eauto). by apply not_elem_of_nil in H3.
  - assert (Hin : forall b, b ∈ Compact (sort_addrs (a :: l)) <-> b ∈ a :: l).
    { intros b. rewrite Compact_elem. unfold sort_addrs. by rewrite merge_sort_Permutation. }
    split; [split; [done|]; split; [done|]; split; [done|]; intros b; cbn [addrs]; by rewrite Hin, H1|]. cbn [addrs].
    split; [intros Hn; assert (a ∈ @nil Addr) as []%not_elem_of_nil by (rewrite <- Hn; apply Hin; left)|].
    destruct (Compact_sorted (sort_addrs (a :: l))) as [Hs Hd]; [|done]. by apply StronglySorted_merge_sort; [apply _|apply _].
Qed.

End FeedLemmas.


Section FeedRounds.
Context `{GoVersion, FeedJson}.

(** What the outer loop keeps, beside the regions of the feed it keeps them for. *)
Lemma feed_rounds (l : list feedRegion) :
  exists frs, frs `sublist_of` l /\
    Forall2 (fun r fr => reads_as r fr /\ r.(addrs) <> [] /\ NoDup r.(addrs) /\ StronglySorted addr_le r.(addrs))
      (omap id (read_region <$> l).*1) frs /\
    forall fr, fr ∈ l -> fr ∈ frs \/ (on_globe fr -> forall raw, raw ∈ fr.(Addrs) -> usable raw = None).
Proof.
  induction l as [|fr l (frs & Hs & Ha & Hm)]; [exists []; split; [constructor|split; [constructor|by intros fr Hfr%not_elem_of_nil]]|].
  pose proof (read_region_spec fr) as [Hr _]. cbn. destruct ((read_region fr).1) as [r|]; cbn.
  - exists (fr :: frs). split; [by constructor|split; [by constructor|]]. intros x Hx. apply elem_of_cons in Hx as [->|Hx]; [left; left|].
    destruct (Hm x Hx); [left; by right|by right].
  - exists frs. split; [by constructor|split; [done|]]. intros x Hx. apply elem_of_cons in Hx as [->|Hx]; [by right|by apply Hm].
Qed.

Lemma feed_zone_wf (rs : list region) frs sort `{!SortsRegions sort} t :
  rs <> [] ->
  Forall2 (fun r fr => reads_as r fr /\ r.(addrs) <> [] /\ NoDup r.(addrs) /\ StronglySorted addr_le r.(addrs)) rs frs ->
  zone_wf (mkZone (sort rs) (serialOf t)).
Proof.
  intros Hne Hall. split; cbn; [|apply regions_sorted| |apply serialOf_range].
  - intros Hs. apply Hne, Permutation_nil. rewrite <- Hs. by rewrite (regions_perm rs).
  - intros r Hr. rewrite (regions_perm rs) in Hr. apply list_elem_of_lookup in Hr as [i Hi].
    destruct (Forall2_lookup_l _ _ _ _ _ Hall Hi) as (fr & _ & (([Hn _] & Hnm & _ & Ha) & H1 & H2 & H3)).
    rewrite Hnm. split; [done|]. split; [done|]. split; [done|]. split; [done|].
    apply Forall_forall. intros a Hin. apply Ha in Hin as (raw & _ & Hu). by eapply usable_public.
Qed.

End FeedRounds.

(** What is served is what the feed says: a feed parses exactly when some region
    on the globe, with a name, has a public unicast address; its zone then has,
    by name, one region for each such region of the feed, at its place, with all
    and only its usable addresses, unmapped, sorted and once each; and each entry
    left out, and no other, is reported. *)
Theorem feed_served_exactly `{GoVersion, FeedJson} sort `{!SortsRegions sort} body f :
  json_Unmarshal body = Some f ->
  match parseFeed sort body with
  | Ok (z, skipped) => zone_wf z /\ z.(serial) = serialOf f.(PublishedAt) /\
      (exists frs l, frs `sublist_of` f.(Regions) /\ l ≡ₚ z.(regions) /\ Forall2 reads_as l frs /\
         forall fr, fr ∈ f.(Regions) -> fr ∈ frs \/ (on_globe fr -> forall raw, raw ∈ fr.(Addrs) -> usable raw = None)) /\
      (forall s, s ∈ skipped <-> exists fr, fr ∈ f.(Regions) /\
         ((~ on_globe fr /\ s = SkipRegion fr.(Region)) \/
          (on_globe fr /\ exists raw, raw ∈ fr.(Addrs) /\ usable raw = None /\ s = SkipAddr fr.(Region) raw)))
  | Err (e, _) => e = ErrNoRegion /\ forall fr, fr ∈ f.(Regions) -> on_globe fr -> forall raw, raw ∈ fr.(Addrs) -> usable raw = None
  end.
Proof.
  intros Hf. unfold parseFeed. rewrite Hf. pose proof (feed_rounds f.(Regions)) as (frs & Hsub & Hall & Hmiss).
  destruct (omap id (read_region <$> Regions f).*1) as [|r l] eqn:Hl.
  - split; [done|]. apply Forall2_nil_inv_l in Hall as ->. intros fr Hfr Hg. destruct (Hmiss fr Hfr) as [[]%not_elem_of_nil|Hm]; by apply Hm.
  - split; [by eapply feed_zone_wf|]. split; [done|]. split.
    + exists frs, (r :: l). split; [done|]. split; [cbn; symmetry; apply (regions_perm (r :: l))|]. split; [|done].
      eapply Forall2_impl; [exact Hall|]. by intros ? ? [].
    + intros s. rewrite list_elem_of_In, in_concat. setoid_rewrite <- list_elem_of_In. split.
      * intros (x & Hx & Hs). rewrite <- list_fmap_compose in Hx. apply list_elem_of_fmap in Hx as (fr & -> & Hfr). exists fr. split; [done|].
        by apply read_region_spec.
      * intros (fr & Hfr & Hs). exists (read_region fr).2. split; [|by apply read_region_spec].
        rewrite <- list_fmap_compose. apply list_elem_of_fmap. by exists fr.
Qed.

(** ** The pick *)

Section PickLemmas.
Context `{GoMath}.

Lemma candidates_elem z v6 c :
  c ∈ candidates z v6 <-> exists r, r ∈ z.(regions) /\ c = mkRegion r.(name) r.(at_) (family v6 r) /\ family v6 r <> [].
Proof.
  unfold candidates. rewrite list_elem_of_omap. split.
  - intros (r & Hr & Hc). exists r. split; [done|]. destruct (family v6 r); [done|]. by injection Hc.
  - intros (r & Hr & -> & Hne). exists r. split; [done|]. by destruct (family v6 r).
Qed.

Lemma candidates_sorted z v6 : StronglySorted name_le z.(regions) -> StronglySorted name_le (candidates z v6).
Proof.
  unfold candidates. induction 1 as [|r l _ IH Hl]; cbn; [constructor|]. destruct (family v6 r) eqn:E; [done|]. constructor; [done|].
  apply Forall_forall. intros c Hc. apply list_elem_of_omap in Hc as (r' & Hr' & Hc).
  rewrite Forall_forall in Hl. specialize (Hl r' Hr'). destruct (family v6 r'); [done|]. injection Hc as <-. done.
Qed.

(** The candidate a turn falls on, and the turn left for its addresses. *)
Definition chosen (c : region) (cs : list region) (at' : option location) (turn : Z) : region * Z :=
  match at' with
  | Some p => (min_by (fun r => distanceKM p r.(at_)) c cs, turn)
  | None => let n := Z.of_nat (length (c :: cs)) in (nth (Z.to_nat (turn mod n)) (c :: cs) c, turn / n)
  end.

Definition turned (l : list Addr) (turn : Z) : list Addr := rotate (Z.to_nat (turn mod Z.of_nat (length l))) l.

Lemma pick_chosen z at' v6 limit turn :
  pick z at' v6 limit turn =
  match candidates z v6 with
  | [] => ("", [])
  | c :: cs => let '(r, t) := chosen c cs at' turn in (r.(name), take limit (turned r.(addrs) t))
  end.
Proof. unfold pick. destruct (candidates z v6) as [|c cs]; [done|]. by destruct at'. Qed.

Lemma chosen_elem c cs at' turn : (chosen c cs at' turn).1 ∈ c :: cs.
Proof.
  destruct at' as [p|]; cbn [chosen fst]; [apply min_by_elem|].
  rewrite list_elem_of_In. apply nth_In. pose proof (Z.mod_pos_bound turn (Z.of_nat (length (c :: cs)))). cbn [length] in *. lia.
Qed.

Lemma turned_perm l t : turned l t ≡ₚ l.
Proof. unfold turned, rotate. by rewrite Permutation_app_comm, take_drop. Qed.

End PickLemmas.

(** An answer is of one region: [pick] gives nothing exactly when no region has
    an address of the family; otherwise it gives addresses of one region only,
    of the family asked, each once, as many as asked or all; and for a client at
    a place no region with such addresses is nearer, nor as near and earlier in
    name. *)
Theorem pick_one_region `{GoVersion, GoMath} z at' v6 limit turn nm out :
  zone_wf z -> (0 < limit)%nat -> pick z at' v6 limit turn = (nm, out) ->
  (out = [] <-> forall r, r ∈ z.(regions) -> family v6 r = []) /\
  (out <> [] -> exists r, r ∈ z.(regions) /\ nm = r.(name) /\ NoDup out /\
     length out = Nat.min limit (length (family v6 r)) /\
     (forall a, a ∈ out -> a ∈ r.(addrs) /\ Is6 a = v6 /\ public a) /\
     forall p r', at' = Some p -> r' ∈ z.(regions) -> family v6 r' <> [] ->
       no_later (distanceKM p r.(at_)) (distanceKM p r'.(at_)) /\
       (no_later (distanceKM p r'.(at_)) (distanceKM p r.(at_)) -> name_le r r')).
Proof.
  intros Hz Hlim. rewrite pick_chosen. destruct (candidates z v6) as [|c cs] eqn:Hc.
  { intros [= <- <-]. split; [|done]. split; [|done]. intros _ r Hr. destruct (family v6 r) eqn:Hf; [done|].
    assert (mkRegion r.(name) r.(at_) (family v6 r) ∈ candidates z v6) as Hin by (apply candidates_elem; exists r; rewrite Hf; auto).
    rewrite Hc in Hin. by apply not_elem_of_nil in Hin. }
  pose proof (chosen_elem c cs at' turn) as Hin. destruct (chosen c cs at' turn) as [r0 t] eqn:Hch. cbn in Hin. intros [= <- <-].
  assert (Hin' := Hin). rewrite <- Hc in Hin'. apply candidates_elem in Hin' as (r & Hr & -> & Hne). cbn [name addrs].
  destruct (zw_region _ Hz r Hr) as (_ & _ & Hnd & _ & Hpub).
  assert (Hlen : length (take limit (turned (family v6 r) t)) = Nat.min limit (length (family v6 r))) by
    (rewrite length_take; by rewrite (Permutation_length (turned_perm (family v6 r) t))).
  assert (Hel : forall a, a ∈ take limit (turned (family v6 r) t) -> a ∈ family v6 r).
  { intros a Ha. apply (subseteq_take) in Ha. by rewrite turned_perm in Ha. }
  split.
  { split; [|intros Hall; exfalso; by apply Hne, Hall]. intros He. rewrite He in Hlen. cbn in Hlen. destruct (family v6 r); [done|]. cbn in Hlen. lia. }
  intros _. exists r. split; [done|]. split; [done|]. split.
  { eapply sublist_NoDup; [|apply sublist_take]. rewrite turned_perm. by apply NoDup_filter. }
  split; [done|]. split.
  { intros a Ha. apply Hel in Ha. unfold family in Ha. apply list_elem_of_filter in Ha as [? ?]. rewrite Forall_forall in Hpub. auto. }
  intros p r' -> Hr' Hne'. cbn in Hch. injection Hch as Hmin _.
  assert (Hc' : mkRegion r'.(name) r'.(at_) (family v6 r') ∈ c :: cs) by (rewrite <- Hc; apply candidates_elem; eauto).
  pose proof (min_by_least (fun r => distanceKM p r.(at_)) _ _ _ Hc') as Hl. rewrite Hmin in Hl. split; [done|]. intros Hback.
  destruct (min_by_first (fun r => distanceKM p r.(at_)) c cs) as (bf & af & He & Hbf). rewrite Hmin in He, Hbf.
  rewrite He in Hc'. apply elem_of_app in Hc' as [Hb|Hb].
  { apply Hbf in Hb. by apply cmp_Compare_key in Hb. }
  pose proof (candidates_sorted z v6 (zw_names _ Hz)) as Hso. rewrite Hc, He in Hso.
  apply elem_of_cons in Hb as [Hb|Hb].
  { injection Hb as Hn _ _. unfold name_le. rewrite Hn. intros Hx. pose proof (String.compare_antisym r.(name) r.(name)) as Ha. by rewrite Hx in Ha. }
  apply StronglySorted_app_1_r, StronglySorted_inv in Hso as [_ Hso]. rewrite Forall_forall in Hso. by apply Hso in Hb.
Qed.

(** ** Turns *)

(** How many of the [k] integers from [t] on satisfy [P]. *)
Fixpoint count (P : Z -> bool) (t : Z) (k : nat) : nat :=
  match k with O => 0 | S k => (if P t then 1 else 0) + count P (t + 1) k end.

Lemma count_ext P Q t k : (forall j, t <= j < t + Z.of_nat k -> P j = Q j) -> count P t k = count Q t k.
Proof.
  revert t. induction k as [|k IH]; intros t He; cbn; [done|]. rewrite He by lia. f_equal. apply IH. intros j Hj. apply He. lia.
Qed.

Lemma count_app P t a b : count P t (a + b) = (count P t a + count P (t + Z.of_nat a) b)%nat.
Proof.
  revert t. induction a as [|a IH]; intros t; cbn; [by rewrite Z.add_0_r|]. rewrite IH, Nat.add_assoc.
  by replace (t + 1 + Z.of_nat a) with (t + Z.of_nat (S a)) by lia.
Qed.

Lemma count_shift P d t k : count (fun j => P (j + d)) t k = count P (t + d) k.
Proof. revert t. induction k as [|k IH]; intros t; cbn; [done|]. rewrite IH. by replace (t + 1 + d) with (t + d + 1) by lia. Qed.

(** A period of a periodic predicate, wherever it starts. *)
Lemma count_period P t k : (0 < k)%nat -> count (fun j => P (j mod Z.of_nat k)) t k = count P 0 k.
Proof.
  intros Hk. set (Q := fun j => P (j mod Z.of_nat k)).
  assert (Hs : forall u, count Q (u + 1) k = count Q u k).
  { intros u. pose proof (count_app Q u 1 k) as H1. pose proof (count_app Q u k 1) as H2.
    replace (1 + k)%nat with (k + 1)%nat in H1 by lia. rewrite H2 in H1. cbn in H1. change (Z.of_nat 1) with 1 in H1.
    assert (Q (u + Z.of_nat k) = Q u) as Hq.
    { subst Q. cbn. f_equal. rewrite <- (Z.mul_1_l (Z.of_nat k)) at 1. apply Z_mod_plus_full. }
    rewrite Hq in H1. lia. }
  assert (Hn : forall n u, count Q (u + Z.of_nat n) k = count Q u k).
  { induction n as [|n IH]; intros u; [by rewrite Z.add_0_r|]. replace (u + Z.of_nat (S n)) with (u + Z.of_nat n + 1) by lia. by rewrite Hs. }
  transitivity (count Q 0 k).
  - destruct (Z.le_ge_cases 0 t) as [Ht|Ht]; [by rewrite <- (Hn (Z.to_nat t) 0), Z.add_0_l, Z2Nat.id|].
    rewrite <- (Hn (Z.to_nat (- t)) t). f_equal. lia.
  - apply count_ext. intros j Hj. subst Q. cbn. f_equal. apply Z.mod_small. lia.
Qed.

(** Counting what a reflection of a period satisfies. *)
Lemma count_reflect P m t k : (0 < k)%nat -> count (fun j => P ((m - j) mod Z.of_nat k)) t k = count P 0 k.
Proof.
  intros Hk. rewrite <- (count_period P (m - t - Z.of_nat k + 1) k Hk). set (Q := fun j => P (j mod Z.of_nat k)).
  change (count (fun j => Q (m - j)) t k = count Q (m - t - Z.of_nat k + 1) k). clearbody Q. clear Hk. revert t.
  induction k as [|k IH]; intros t; [done|]. replace (S k) with (k + 1)%nat at 3 by lia. rewrite count_app. cbn [count].
  rewrite IH, Nat.add_0_r, Nat.add_comm. f_equal; [f_equal; lia|]. by replace (m - t - Z.of_nat (S k) + 1 + Z.of_nat k) with (m - t) by lia.
Qed.

Lemma count_below L k : count (fun j => j <? Z.of_nat L) 0 k = Nat.min L k.
Proof.
  assert (forall t, 0 <= t -> count (fun j => j <? Z.of_nat L) t k = Nat.min (L - Z.to_nat t) k) as Hg; [|rewrite Hg by lia; f_equal; lia].
  induction k as [|k IH]; intros t Ht; cbn; [lia|]. rewrite IH by lia. destruct (Z.ltb_spec t (Z.of_nat L)); lia.
Qed.

Lemma count_one i n : 0 <= i < Z.of_nat n -> count (fun j => j =? i) 0 n = 1%nat.
Proof.
  intros Hi. assert (forall t, count (fun j => j =? i) t n = if decide (t <= i < t + Z.of_nat n) then 1%nat else 0%nat) as Hg.
  { clear Hi. induction n as [|n IH]; intros t; cbn [count]; [rewrite decide_False by lia; done|].
    rewrite IH. destruct (Z.eqb_spec t i); repeat case_decide; lia. }
  rewrite Hg. by rewrite decide_True by lia.
Qed.

Lemma count_and b Q t k : count (fun j => Q j && b) t k = if b : bool then count Q t k else 0%nat.
Proof.
  destruct b; [apply count_ext; intros; by rewrite andb_true_r|]. revert t. induction k as [|k IH]; intros t; cbn; [done|]. by rewrite andb_false_r, IH.
Qed.

(** Cycles of [n], one of which falls on [i] each time around. *)
Lemma count_cycles Q i n k : 0 <= i < Z.of_nat n ->
  count (fun j => (j mod Z.of_nat n =? i) && Q (j / Z.of_nat n)) 0 (n * k) = count Q 0 k.
Proof.
  intros Hi. induction k as [|k IH]; [by rewrite Nat.mul_0_r|].
  replace (n * S k)%nat with (n * k + n)%nat by lia. replace (S k) with (k + 1)%nat by lia. rewrite !count_app, IH. f_equal. cbn [count].
  rewrite (count_ext _ (fun j => (j mod Z.of_nat n =? i) && Q (Z.of_nat k))).
  - rewrite count_and, !Z.add_0_l. rewrite (count_period (fun j => j =? i)) by lia. rewrite count_one by done. by destruct (Q (Z.of_nat k)).
  - intros j Hj. f_equal. f_equal. replace j with (Z.of_nat n * Z.of_nat k + (j - Z.of_nat n * Z.of_nat k)) by lia.
    rewrite Z.mul_comm, Z.div_add_l, Z.div_small by lia. lia.
Qed.

Lemma rotate_lookup (l : list Addr) j i : (i < length l)%nat -> (j < length l)%nat -> rotate j l !! i = l !! Nat.modulo (i + j) (length l).
Proof.
  intros Hi Hj. unfold rotate. destruct (Nat.lt_ge_cases i (length l - j)) as [Hlt|Hge].
  - rewrite lookup_app_l by (rewrite length_drop; lia). rewrite lookup_drop, Nat.mod_small by lia. f_equal. lia.
  - rewrite lookup_app_r by (rewrite length_drop; lia). rewrite length_drop.
    replace (i + j)%nat with (i + j - length l + 1 * length l)%nat by lia. rewrite Nat.Div0.mod_add, Nat.mod_small by lia.
    rewrite lookup_take_lt by lia. f_equal. lia.
Qed.

Lemma turned_elem l m a L t : NoDup l -> l !! m = Some a ->
  bool_decide (a ∈ take L (turned l t)) = ((Z.of_nat m - t) mod Z.of_nat (length l) <? Z.of_nat L).
Proof.
  intros Hnd Hm. pose proof (lookup_lt_Some _ _ _ Hm) as Hlt. set (k := Z.of_nat (length l)). assert (Hk : 0 < k) by lia.
  set (j := Z.to_nat (t mod k)). assert (Hj : (j < length l)%nat) by (pose proof (Z.mod_pos_bound t k Hk); unfold j, k in *; lia).
  set (i := Z.to_nat ((Z.of_nat m - t) mod k)). assert (Hi : (i < length l)%nat) by (pose proof (Z.mod_pos_bound (Z.of_nat m - t) k Hk); unfold i, k in *; lia).
  assert (Hat : rotate j l !! i = Some a).
  { rewrite rotate_lookup by done. rewrite <- Hm. f_equal. apply Nat2Z.inj. rewrite Nat2Z.inj_mod, Nat2Z.inj_add. fold k. subst i j.
    rewrite !Z2Nat.id by (apply Z.mod_pos_bound; done). rewrite <- Zplus_mod. replace (Z.of_nat m - t + t) with (Z.of_nat m) by lia. apply Z.mod_small. lia. }
  assert (Hnd' : NoDup (rotate j l)) by (change (NoDup (turned l t)); by rewrite turned_perm).
  destruct (Z.ltb_spec ((Z.of_nat m - t) mod k) (Z.of_nat L)) as [Hin|Hout].
  - apply bool_decide_eq_true. apply elem_of_take. exists i. split; [done|]. pose proof (Z.mod_pos_bound (Z.of_nat m - t) k Hk). unfold i. lia.
  - apply bool_decide_eq_false. intros (i' & Hi' & HL)%elem_of_take. change (rotate j l !! i' = Some a) in Hi'.
    pose proof (NoDup_lookup _ _ _ _ Hnd' Hat Hi') as <-. pose proof (Z.mod_pos_bound (Z.of_nat m - t) k Hk). unfold i in HL. lia.
Qed.

(** Each address of a list is in the first [L] as often as any other. *)
Lemma turned_fair l L t a : NoDup l -> a ∈ l ->
  count (fun j => bool_decide (a ∈ take L (turned l j))) t (length l) = Nat.min L (length l).
Proof.
  intros Hnd [m Hm]%list_elem_of_lookup. pose proof (lookup_lt_Some _ _ _ Hm).
  rewrite (count_ext _ (fun j => (Z.of_nat m - j) mod Z.of_nat (length l) <? Z.of_nat L)) by (intros j _; by apply turned_elem).
  rewrite (count_reflect (fun j => j <? Z.of_nat L)) by lia. apply count_below.
Qed.

Lemma family_nodup `{GoVersion} z v6 c : zone_wf z -> c ∈ candidates z v6 -> NoDup c.(addrs).
Proof. intros Hz (r & Hr & -> & _)%candidates_elem. apply NoDup_filter. by apply (zw_region _ Hz). Qed.

(** The turn of a client of unknown place. *)
Lemma unknown_turn `{GoMath} z v6 limit i r j :
  candidates z v6 !! i = Some r -> NoDup (name <$> candidates z v6) ->
  let n := Z.of_nat (length (candidates z v6)) in
  bool_decide ((pick z None v6 limit j).1 = r.(name)) = (j mod n =? Z.of_nat i) /\
  (j mod n = Z.of_nat i -> (pick z None v6 limit j).2 = take limit (turned r.(addrs) (j / n))).
Proof.
  intros Hi Hnd n. rewrite pick_chosen. destruct (candidates z v6) as [|c cs] eqn:Hc; [done|]. cbn [chosen]. fold n.
  assert (Hn : 0 < n) by (subst n; cbn; lia). pose proof (Z.mod_pos_bound j n Hn) as Hb.
  destruct (lookup_lt_is_Some_2 (c :: cs) (Z.to_nat (j mod n))) as [x Hx]; [subst n; lia|].
  rewrite (nth_lookup_Some _ _ c x Hx). cbn [fst snd]. split.
  - destruct (Z.eqb_spec (j mod n) (Z.of_nat i)) as [He|Hne].
    + apply bool_decide_eq_true. rewrite He, Nat2Z.id in Hx. congruence.
    + apply bool_decide_eq_false. intros He. apply Hne.
      assert (Z.to_nat (j mod n) = i) as <-; [|lia].
      eapply NoDup_lookup; [exact Hnd| |]; rewrite list_lookup_fmap; [by rewrite Hx|by rewrite Hi; cbn; rewrite He].
  - intros He. rewrite He, Nat2Z.id in Hx. by replace x with r by congruence.
Qed.

(** Clients spread: over any run of turns as long as the nearest region's list,
    each of its addresses is answered as often as any other; and clients of
    unknown place get each region once in any run of turns as long as there are
    regions, and each address of each region equally often over a whole round. *)
Theorem rotation_fair `{GoVersion, GoMath} z v6 limit :
  zone_wf z -> candidates z v6 <> [] ->
  (forall p, exists r, r ∈ candidates z v6 /\ forall a t, a ∈ r.(addrs) ->
     count (fun j => bool_decide (a ∈ (pick z (Some p) v6 limit j).2)) t (length r.(addrs)) = Nat.min limit (length r.(addrs))) /\
  (NoDup (name <$> candidates z v6) -> forall r, r ∈ candidates z v6 ->
     (forall t, count (fun j => bool_decide ((pick z None v6 limit j).1 = r.(name))) t (length (candidates z v6)) = 1%nat) /\
     forall a, a ∈ r.(addrs) ->
       count (fun j => bool_decide ((pick z None v6 limit j).1 = r.(name)) && bool_decide (a ∈ (pick z None v6 limit j).2))
         0 (length (candidates z v6) * length r.(addrs)) = Nat.min limit (length r.(addrs))).
Proof.
  intros Hz Hne. split.
  - intros p. destruct (candidates z v6) as [|c cs] eqn:Hc; [done|]. exists (chosen c cs (Some p) 0).1. split; [apply chosen_elem|].
    intros a t Ha. rewrite (count_ext _ (fun j => bool_decide (a ∈ take limit (turned (chosen c cs (Some p) 0).1.(addrs) j)))).
    + apply turned_fair; [|done]. eapply family_nodup; [done|]. rewrite Hc. apply chosen_elem.
    + intros j _. rewrite pick_chosen, Hc. done.
  - intros Hnd r Hr. assert (Hr' := Hr). apply list_elem_of_lookup in Hr' as [i Hi]. pose proof (lookup_lt_Some _ _ _ Hi) as Hlt. split.
    + intros t. erewrite count_ext; [|intros j _; apply (proj1 (unknown_turn _ _ _ _ _ _ Hi Hnd))].
      rewrite (count_period (fun j => j =? Z.of_nat i)) by lia. apply count_one. lia.
    + intros a Ha. rewrite (count_ext _ (fun j => (j mod Z.of_nat (length (candidates z v6)) =? Z.of_nat i) &&
        bool_decide (a ∈ take limit (turned r.(addrs) (j / Z.of_nat (length (candidates z v6))))))).
      * pose proof (count_cycles (fun q : Z => bool_decide (a ∈ take limit (turned r.(addrs) q))) (Z.of_nat i) (length (candidates z v6)) (length r.(addrs)) ltac:(lia)) as Hcy. cbn beta in Hcy. rewrite Hcy. apply turned_fair; [|done].
        by eapply family_nodup.
      * intros j _. destruct (unknown_turn z v6 limit i r j Hi Hnd) as [-> Ho].
        destruct (Z.eqb_spec (j mod Z.of_nat (length (candidates z v6))) (Z.of_nat i)) as [He|]; [|done]. cbn. by rewrite Ho.
Qed.

(** A region whose distance is no number is taken for the nearest: [cmp.Compare]
    puts a NaN below every number. The haversine of two points far apart can
    round to more than 1, whose arcsine is a NaN, so it is the farthest region
    that this happens to. *)
Theorem nan_distance_is_nearest `{GoMath} z p v6 limit turn c :
  c ∈ candidates z v6 -> is_nan (distanceKM p c.(at_)) = true ->
  exists r, r ∈ candidates z v6 /\ (pick z (Some p) v6 limit turn).1 = r.(name) /\ is_nan (distanceKM p r.(at_)) = true.
Proof.
  intros Hc Hn. rewrite pick_chosen. destruct (candidates z v6) as [|c0 cs] eqn:Hcs; [by apply not_elem_of_nil in Hc|].
  cbn [chosen]. eexists. split; [apply (min_by_elem (fun r => distanceKM p r.(at_)))|]. split; [done|].
  pose proof (min_by_least (fun r => distanceKM p r.(at_)) _ _ _ Hc) as Hl. cbn beta in Hl.
  destruct (distanceKM p (at_ c)); try done. destruct (distanceKM p (at_ (min_by _ _ _))) as [|[]| |[]]; try done;
    unfold no_later, key_le in Hl; cbn in Hl; lia.
Qed.

(** ** Examples *)

(** The values of Sin, Cos and Asin at the points the examples need, with
    [Asin] of what is above 1 a NaN, as documented. *)
Definition sin_table : list (float64 * float64) :=
  [(S754_finite true 7561275440463091 (-53), S754_finite true 6703962925890573 (-53));
   (S754_finite false 7074237752028440 (-52), S754_finite false 4503599627370496 (-52));
   (S754_finite true 7808763718085723 (-56), S754_finite true 7793488723459357 (-56));
   (S754_finite false 5862355977926575 (-51), S754_finite false 4616885145438807 (-53))].
Definition cos_table : list (float64 * float64) :=
  [(S754_finite false 7561275440463091 (-53), S754_finite false 6015523211067464 (-53));
   (S754_finite true 7561275440463091 (-53), S754_finite false 6015523211067464 (-53));
   (S754_finite false 5609084510941661 (-53), S754_finite false 7316432407769141 (-53))].
Definition asin_table : list (float64 * float64) :=
  [(S754_finite false 7074628923116449 (-54), S754_finite false 7270398995520812 (-54))].
Definition client : location := mkLocation (S754_finite false 6769205788663402 (-47)) (S754_finite true 5581603048488593 (-45)).
Definition antipode : location := mkLocation (S754_finite true 6769205788663402 (-47)) (S754_finite false 6012671420009336 (-48)).
Definition tokyo : location := mkLocation (S754_finite false 5021513584518103 (-47)) (S754_finite false 4914904937088942 (-45)).

Definition at_point (t : list (float64 * float64)) (x : float64) : float64 :=
  match list_find (fun p => SFeqb p.1 x = true) t with Some (_, p) => p.2 | None => S754_nan end.

#[local] Instance example_math : GoMath := {
  Sin := at_point sin_table; Cos := at_point cos_table; Asin := at_point asin_table
}.
#[local] Instance example_version : GoVersion := { mapped_unicast := fun x => negb (x =? 0) }.

Definition example_feed : feedBody :=
  mkFeedBody [mkFeedRegion "tokyo" tokyo.(lat) tokyo.(lon) ["192.0.2.1"; "10.0.0.1"; "2001:db8::10"];
              mkFeedRegion "far" antipode.(lat) antipode.(lon) ["198.51.100.20"; "198.51.100.3"; "::ffff:198.51.100.3"; "relay"];
              mkFeedRegion "" tokyo.(lat) tokyo.(lon) ["192.0.2.7"]] (1700000000 * Second).
#[local] Instance example_json : FeedJson := {
  json_Unmarshal := fun s => if String.eqb s "{}" then Some example_feed else None; json_empty := eq_refl }.

(** Sorting by name, by insertion. *)
Fixpoint insert_region (r : region) (l : list region) : list region :=
  match l with
  | [] => [r]
  | x :: t => match String.compare r.(name) x.(name) with Gt => x :: insert_region r t | _ => r :: l end
  end.
Definition sort_regions (l : list region) : list region := foldr insert_region [] l.

#[local] Instance sort_regions_sorts : SortsRegions sort_regions.
Proof.
  assert (Hp : forall r l, insert_region r l ≡ₚ r :: l).
  { intros r l. induction l as [|x t IH]; cbn; [done|]. destruct (String.compare _ _); [done..|]. rewrite IH. constructor. }
  split.
  - induction l as [|r l IH]; cbn; [done|]. by rewrite Hp, IH.
  - induction l as [|r l IH]; cbn; [constructor|]. fold (sort_regions l). generalize dependent (sort_regions l). intros m IH.
    induction IH as [|x t Ht IHt Hx]; cbn; [repeat constructor|].
    destruct (String.compare (name r) (name x)) eqn:E.
    3: { constructor; [done|]. apply Forall_forall. intros y Hy. rewrite Hp in Hy. apply elem_of_cons in Hy as [->|Hy].
         - unfold name_le. rewrite String.compare_antisym in E. by destruct (String.compare (name x) (name r)).
         - rewrite Forall_forall in Hx. by apply Hx. }
    all: constructor; [by constructor|]; constructor; [unfold name_le; by rewrite E|];
      apply Forall_forall; intros y Hy; rewrite Forall_forall in Hx; unfold name_le in *;
      eapply string_cmp_trans; [by rewrite E|by apply Hx].
Qed.

Definition example_zone : zone :=
  mkZone [mkRegion "far" antipode [V4 3325256707; V4 3325256724];
          mkRegion "tokyo" tokyo [V4 3221225985; V6 42540766411282592856903984951653826576 ""]] 1700000000.

Lemma example_parses : parseFeed sort_regions "{}" =
  Ok (example_zone, [SkipAddr "tokyo" "10.0.0.1"; SkipAddr "far" "relay"; SkipRegion ""]).
Proof. by vm_compute. Qed.

Lemma feed_served_exactly_witness : json_Unmarshal "{}" = Some example_feed /\ zone_wf example_zone.
Proof.
  split; [done|]. pose proof (feed_served_exactly sort_regions "{}" example_feed eq_refl) as Hf. rewrite example_parses in Hf. apply Hf.
Defined.

Lemma example_zone_wf : zone_wf example_zone.
Proof.
  destruct (feed_rounds example_feed.(Regions)) as (frs & _ & Ha & _).
  assert (example_zone = mkZone (sort_regions (omap id (read_region <$> example_feed.(Regions)).*1)) (serialOf example_feed.(PublishedAt)))
    as -> by by vm_compute.
  eapply feed_zone_wf; [apply _|vm_compute; discriminate|exact Ha].
Qed.

Lemma nan_distance_is_nearest_witness :
  is_nan (distanceKM client antipode) = true /\ is_nan (distanceKM client tokyo) = false /\
  (pick example_zone (Some client) false 2 0).1 = "far".
Proof.
  assert (Hn : is_nan (distanceKM client antipode) = true) by by vm_compute.
  split; [done|]. split; [by vm_compute|].
  assert (Hc : mkRegion "far" antipode [V4 3325256707; V4 3325256724] ∈ candidates example_zone false) by (vm_compute; left).
  destruct (nan_distance_is_nearest example_zone client false 2 0 _ Hc Hn) as (r & Hr & -> & Hnan).
  assert (He : candidates example_zone false = [mkRegion "far" antipode [V4 3325256707; V4 3325256724]; mkRegion "tokyo" tokyo [V4 3221225985]])
    by by vm_compute.
  rewrite He in Hr. apply elem_of_cons in Hr as [->|Hr]; [done|]. apply list_elem_of_singleton in Hr as ->. vm_compute in Hnan. discriminate Hnan.
Defined.

Lemma pick_one_region_witness :
  (pick example_zone None false 1 0).2 = [V4 3325256707] /\ NoDup (pick example_zone None false 1 0).2.
Proof.
  split; [by vm_compute|].
  destruct (pick_one_region example_zone None false 1 0 _ _ example_zone_wf ltac:(lia) (surjective_pairing _)) as [_ Hs].
  destruct Hs as (r & _ & _ & Hnd & _); [vm_compute; discriminate|done].
Defined.

Lemma rotation_fair_witness :
  count (fun j => bool_decide ((pick example_zone None false 1 j).1 = "far") && bool_decide (V4 3325256724 ∈ (pick example_zone None false 1 j).2)) 0 4 = 1%nat.
Proof.
  destruct (rotation_fair example_zone false 1 example_zone_wf) as [_ Hu]; [vm_compute; discriminate|].
  destruct (Hu ltac:(apply (bool_decide_unpack _); by vm_compute) (mkRegion "far" antipode [V4 3325256707; V4 3325256724])) as [_ Ha]; [vm_compute; left|].
  specialize (Ha (V4 3325256724) ltac:(right; left)). cbn [name addrs length] in Ha.
  assert (He : length (candidates example_zone false) = 2%nat) by by vm_compute. rewrite He in Ha. exact Ha.
Defined.
