(* ===== verification/GeoServer.v ===== *)
(** * Geodns: the authority, what keeps it fed, and the location database

    src/internal/geodns/server.go ([answer] and what it calls), cmd.go (the
    service's feed rounds, its kept feed and its configuration) and geo.go (the
    location database and its refresh), over GeoPick.v.

    Names are the dns library's: [Fqdn] and [IsSubDomain] are the class
    [DnsNames]. Of a reply the fields the source sets are modelled; [SetReply]
    copies the rest. HTTP responses, the outcomes of writes and the database's
    reader are arguments. Metrics and logs are left out, except for the text of
    the fetcher's errors. *)
From Stdlib Require Import Sorted.
From S2P Require Import Prelude GoStrings GoText GoTime GoPath Settings GoNetip GeoPick.

Open Scope Z_scope.

(** ** Messages *)

Definition OpcodeQuery : Z := 0.
Definition ClassINET : Z := 1.
Definition TypeA : Z := 1.
Definition TypeNS : Z := 2.
Definition TypeSOA : Z := 6.
Definition TypeAAAA : Z := 28.
Definition TypeANY : Z := 255.

Inductive rcode := RcodeSuccess | RcodeServerFailure | RcodeNameError | RcodeNotImplemented | RcodeRefused.

(** EDNS0_SUBNET, and the options of an OPT record. *)
Record subnet := mkSubnet { Family : Z; SourceNetmask : Z; SourceScope : Z; Address : list Z }.
Inductive edns_option := Subnet (s : subnet) | OtherOption.
Record edns := mkEdns { UDPSize : Z; Option_ : list edns_option }.
Record question := mkQuestion { q_name : string; q_type : Z; q_class : Z }.
Record request := mkRequest { Opcode : Z; Question : list question; IsEdns0 : option edns }.

(** Records, with their owner and TTL. *)
Inductive rr :=
| A (owner : string) (ttl : Z) (a : Addr)
| AAAA (owner : string) (ttl : Z) (a : Addr)
| NS (owner : string) (ttl : Z) (host : string)
| SOA (owner : string) (ttl : Z) (host mbox : string) (serial refresh retry expire minttl : Z).

Record reply := mkReply { Rcode : rcode; Authoritative : bool; Answer : list rr; Ns : list rr; Opt : option (Z * list subnet) }.

Definition soaRefresh : Z := 3600.
Definition soaRetry : Z := 600.
Definition soaExpire : Z := 86400.
Definition negativeTTL : Z := 60.
Definition ednsUDPSize : Z := 1232.
(** dns.MinMsgSize. *)
Definition MinMsgSize : Z := 512.

(** ** The authority *)

Record authority := mkAuthority {
  zone_ : string; name_ : string; nameservers : list string; hostmaster : string; ttl_ : Z; maxAnswers : nat
}.

Class DnsNames := { Fqdn : string -> string; IsSubDomain : string -> string -> bool }.

(** udpLimit. *)
Definition udpLimit (req : request) : Z :=
  match req.(IsEdns0) with None => MinMsgSize | Some o => Z.min (Z.max o.(UDPSize) MinMsgSize) ednsUDPSize end.

(** remoteAddr: the sender of a query, a UDP or TCP address or none of them. *)
Inductive net_addr := UDPAddr (ip : list Z) | TCPAddr (ip : list Z) | OtherNetAddr.
Definition remoteAddr (a : net_addr) : Addr :=
  match a with UDPAddr ip | TCPAddr ip => Unmap (default NoAddr (AddrFromSlice ip)) | OtherNetAddr => NoAddr end.

Section Authority.
Context `{GoMath, DnsNames}.
Context (a : authority) (locate : Addr -> option location).

(** header's owner: the served name, or the apex for SOA and NS. *)
Definition header_name (rrtype : Z) : string := if (rrtype =? TypeSOA) || (rrtype =? TypeNS) then a.(zone_) else a.(name_).

Definition soa (z : option zone) : rr :=
  SOA (header_name TypeSOA) negativeTTL (hd "" a.(nameservers)) a.(hostmaster)
    (match z with Some z => z.(serial) | None => 1 end) soaRefresh soaRetry soaExpire negativeTTL.

Definition nsRecords : list rr := (fun ns => NS (header_name TypeNS) soaRefresh ns) <$> a.(nameservers).

(** addressRecords at turn [turn]. *)
Definition addressRecords (z : zone) (from : Addr) (qtype : Z) (turn : Z) : list rr :=
  let at' := locate from in
  let v4 := if (qtype =? TypeA) || (qtype =? TypeANY)
            then A (header_name TypeA) a.(ttl_) <$> (pick z at' false a.(maxAnswers) turn).2 else [] in
  let v6 := if (qtype =? TypeAAAA) || ((qtype =? TypeANY) && (length v4 =? 0)%nat)
            then AAAA (header_name TypeAAAA) a.(ttl_) <$> (pick z at' true a.(maxAnswers) turn).2 else [] in
  v4 ++ v6.

(** The loop over a query's options: the client placed and the subnet option
    answered. *)
Fixpoint read_options (client : Addr) (scope : option subnet) (l : list edns_option) : Addr * option subnet :=
  match l with
  | [] => (client, scope)
  | OtherOption :: t => read_options client scope t
  | Subnet s :: t =>
      read_options (match AddrFromSlice s.(Address) with Some ip => if 0 <? s.(SourceNetmask) then Unmap ip else client | None => client end)
        (Some (mkSubnet s.(Family) s.(SourceNetmask) 0 s.(Address))) t
  end.

(** The subnet option is shared with the reply, which sees its scope set. *)
Definition scoped (s : subnet) : subnet := mkSubnet s.(Family) s.(SourceNetmask) s.(SourceNetmask) s.(Address).

Definition address_type (t : Z) : bool := (t =? TypeA) || (t =? TypeAAAA) || (t =? TypeANY).

(** answer: the reply, and the turn counter after it. *)
Definition answer (req : request) (from : Addr) (z : option zone) (turn : Z) : reply * Z :=
  match req.(Question) with
  | [q] =>
      if negb (req.(Opcode) =? OpcodeQuery) then (mkReply RcodeNotImplemented false [] [] None, turn) else
      let qname := ToLower (Fqdn q.(q_name)) in
      if negb (q.(q_class) =? ClassINET) || negb (IsSubDomain a.(zone_) qname) then (mkReply RcodeRefused false [] [] None, turn) else
      let '(client, scope) := match req.(IsEdns0) with Some o => read_options from None o.(Option_) | None => (from, None) end in
      let opt scope := match req.(IsEdns0) with Some _ => Some (ednsUDPSize, option_list scope) | None => None end in
      let finish rc ans scope := mkReply rc true ans (match ans with [] => [soa z] | _ => [] end) (opt scope) in
      if String.eqb qname a.(name_) && address_type q.(q_type) then
        match z with
        | None => (mkReply RcodeServerFailure false [] [] (opt scope), turn)
        | Some z' => (finish RcodeSuccess (addressRecords z' client q.(q_type) turn) (scoped <$> scope), wrapu 64 (turn + 1))
        end
      else if String.eqb qname a.(zone_) then
        (finish RcodeSuccess
           (if q.(q_type) =? TypeSOA then [soa z]
            else if (q.(q_type) =? TypeNS) || (q.(q_type) =? TypeANY) then nsRecords else []) scope, turn)
      else if negb (String.eqb qname a.(name_)) && negb (IsSubDomain qname a.(name_)) then (finish RcodeNameError [] scope, turn)
      else (finish RcodeSuccess [] scope, turn)
  | _ => (mkReply RcodeNotImplemented false [] [] None, turn)
  end.

End Authority.

Definition address_of (r : rr) : option Addr := match r with A _ _ a | AAAA _ _ a => Some a | _ => None end.
Definition addresses (l : list rr) : list Addr := omap address_of l.

Section AuthorityLemmas.
Context `{GoVersion, GoMath, DnsNames}.
Context (a : authority) (locate : Addr -> option location).

Lemma addresses_A n t l : addresses (A n t <$> l) = l /\ addresses (AAAA n t <$> l) = l.
Proof. unfold addresses. split; induction l as [|x l IH]; cbn; by rewrite ?IH. Qed.

(** What an address record says. *)
Definition served (qtype : Z) (r : rr) : Prop :=
  match r with
  | A n t x => n = a.(name_) /\ t = a.(ttl_) /\ Is6 x = false /\ (qtype = TypeA \/ qtype = TypeANY)
  | AAAA n t x => n = a.(name_) /\ t = a.(ttl_) /\ Is6 x = true /\ (qtype = TypeAAAA \/ qtype = TypeANY)
  | _ => False
  end.

(** The addresses of one region, the nearest that has some of their family. *)
Definition of_one_region (z : zone) (at' : option location) (l : list Addr) : Prop :=
  exists r v6, r ∈ z.(regions) /\ NoDup l /\ (forall x, x ∈ l -> x ∈ r.(addrs) /\ Is6 x = v6 /\ public x) /\
    forall p r', at' = Some p -> r' ∈ z.(regions) -> family v6 r' <> [] -> no_later (distanceKM p r.(at_)) (distanceKM p r'.(at_)).

Lemma picked z at' v6 limit turn l :
  zone_wf z -> (0 < limit)%nat -> (pick z at' v6 limit turn).2 = l -> l <> [] ->
  of_one_region z at' l /\ (length l <= limit)%nat /\ Forall (fun x => Is6 x = v6) l.
Proof.
  intros Hz Hl Hp Hne. destruct (pick z at' v6 limit turn) as [nm out] eqn:He. cbn in Hp. subst l.
  destruct (pick_one_region _ _ _ _ _ _ _ Hz Hl He) as [_ Hs]. destruct (Hs Hne) as (r & Hr & _ & Hnd & Hlen & Hel & Hnear).
  split; [|split; [lia|apply Forall_forall; intros x Hx; by apply Hel]].
  exists r, v6. split; [done|]. split; [done|]. split; [done|]. intros p r' Hp Hr' Hf. by apply Hnear.
Qed.

Lemma pick_empty z at' v6 limit turn r :
  zone_wf z -> (0 < limit)%nat -> (pick z at' v6 limit turn).2 = [] -> r ∈ z.(regions) -> family v6 r = [].
Proof.
  intros Hz Hl Hp Hr. destruct (pick z at' v6 limit turn) as [nm out] eqn:He. cbn in Hp. subst out.
  by apply (pick_one_region _ _ _ _ _ _ _ Hz Hl He).
Qed.

Lemma addressRecords_spec z from qtype turn :
  zone_wf z -> (0 < a.(maxAnswers))%nat -> address_type qtype = true ->
  let l := addressRecords a locate z from qtype turn in
  Forall (served qtype) l /\ (length l <= a.(maxAnswers))%nat /\ length (addresses l) = length l /\
  (l <> [] -> of_one_region z (locate from) (addresses l)) /\
  (l = [] -> forall r, r ∈ z.(regions) -> (qtype <> TypeAAAA -> family false r = []) /\ (qtype <> TypeA -> family true r = [])).
Proof.
  intros Hz Hmax Hq l. subst l. unfold addressRecords, header_name. cbn [Z.eqb Pos.eqb TypeA TypeAAAA TypeSOA TypeNS orb].
  assert (Ht : qtype = TypeA \/ qtype = TypeAAAA \/ qtype = TypeANY).
  { unfold address_type in Hq. repeat (apply orb_true_iff in Hq as [Hq|Hq]); apply Z.eqb_eq in Hq; auto. }
  set (p4 := (pick z (locate from) false _ turn).2). set (p6 := (pick z (locate from) true _ turn).2).
  assert (H4 : p4 = [] \/ p4 <> []) by (destruct p4; auto). assert (H6 : p6 = [] \/ p6 <> []) by (destruct p6; auto).
  assert (Hfam4 : Forall (fun x => Is6 x = false) p4) by (destruct H4 as [->|Hn]; [constructor|by eapply picked]).
  assert (Hfam6 : Forall (fun x => Is6 x = true) p6) by (destruct H6 as [->|Hn]; [constructor|by eapply picked]).
  assert (Hlen4 : (length p4 <= maxAnswers a)%nat) by (destruct H4 as [->|Hn]; [cbn; lia|by eapply picked]).
  assert (Hlen6 : (length p6 <= maxAnswers a)%nat) by (destruct H6 as [->|Hn]; [cbn; lia|by eapply picked]).
  assert (Hcase : exists v6 : bool, (if (qtype =? TypeA) || (qtype =? TypeANY) then A (name_ a) (ttl_ a) <$> p4 else []) ++
     (if (qtype =? TypeAAAA) || ((qtype =? TypeANY) && (length (if ((qtype =? TypeA) || (qtype =? TypeANY))%Z then A (name_ a) (ttl_ a) <$> p4 else []) =? 0)%nat)
      then AAAA (name_ a) (ttl_ a) <$> p6 else []) = (if v6 then AAAA (name_ a) (ttl_ a) <$> p6 else A (name_ a) (ttl_ a) <$> p4) /\
     (if v6 then qtype = TypeAAAA \/ (qtype = TypeANY /\ p4 = []) else qtype = TypeA \/ (qtype = TypeANY /\ p4 <> []))).
  { destruct Ht as [->|[->| ->]]; cbn [Z.eqb Pos.eqb TypeA TypeAAAA TypeANY orb andb].
    - exists false. rewrite app_nil_r. auto.
    - exists true. auto.
    - destruct H4 as [->|Hn]; [exists true; auto|]. exists false. rewrite length_fmap. destruct p4; [done|]. cbn. rewrite app_nil_r. auto. }
  destruct Hcase as (v6 & -> & Hv). destruct v6; rewrite ?length_fmap, ?(proj1 (addresses_A _ _ _)), ?(proj2 (addresses_A _ _ _)).
  - split; [apply Forall_fmap; eapply Forall_impl; [exact Hfam6|]; cbn; intros x Hx; repeat split; try done; tauto|].
    split; [done|]. split; [done|]. split.
    + intros Hn. eapply picked; [done|exact Hmax|reflexivity|]. intros Hp. apply Hn. fold p6 in Hp. by rewrite Hp.
    + intros Hn r Hr. apply fmap_nil_inv in Hn. split; intros Hne; [|by eapply pick_empty].
      destruct Hv as [->|[-> Hp]]; [done|by eapply pick_empty].
  - split; [apply Forall_fmap; eapply Forall_impl; [exact Hfam4|]; cbn; intros x Hx; repeat split; try done; tauto|].
    split; [done|]. split; [done|]. split.
    + intros Hn. eapply picked; [done|exact Hmax|reflexivity|]. intros Hp. apply Hn. fold p4 in Hp. by rewrite Hp.
    + intros Hn r Hr. apply fmap_nil_inv in Hn. split; intros Hne; [by eapply pick_empty|].
      destruct Hv as [->|[-> Hp]]; [done|done].
Qed.

End AuthorityLemmas.

(** Who a query is answered for. *)
Definition client_of (req : request) (from : Addr) : Addr :=
  match req.(IsEdns0) with Some o => (read_options from None o.(Option_)).1 | None => from end.

(** The client is where the last subnet sent with a prefix says, and where the
    query came from when none is sent. *)
Lemma read_options_client client scope l :
  (read_options client scope l).1 = client \/
  exists s ip, Subnet s ∈ l /\ 0 < s.(SourceNetmask) /\ AddrFromSlice s.(Address) = Some ip /\ (read_options client scope l).1 = Unmap ip.
Proof.
  revert client scope. induction l as [|o l IH]; intros client scope; cbn; [by left|].
  destruct o as [s|]; [|destruct (IH client scope) as [|(s & ip & ? & ?)]; [by left|right; exists s, ip; split; [by right|done]]].
  destruct (AddrFromSlice (Address s)) as [ip|] eqn:Hip.
  - destruct (Z.ltb_spec 0 s.(SourceNetmask)).
    + set (sc := Some _). destruct (IH (Unmap ip) sc) as [->|(s' & ip' & ? & ?)].
      * right. exists s, ip. split; [left|done].
      * right. exists s', ip'. split; [by right|done].
    + set (sc := Some _). destruct (IH client sc) as [|(s' & ip' & ? & ?)]; [by left|right; exists s', ip'; split; [by right|done]].
  - set (sc := Some _). destruct (IH client sc) as [|(s' & ip' & ? & ?)]; [by left|right; exists s', ip'; split; [by right|done]].
Qed.

Section AnswerLemmas.
Context `{GoVersion, GoMath, DnsNames}.
Context (a : authority) (locate : Addr -> option location).

Lemma nsRecords_no_address : addresses (nsRecords a) = [].
Proof. unfold nsRecords, addresses. induction (nameservers a) as [|x l IH]; [done|exact IH]. Qed.

(** The question of a query for a name in the zone. *)
Definition in_zone (req : request) (q : question) : Prop :=
  req.(Question) = [q] /\ q.(q_class) = ClassINET /\ IsSubDomain a.(zone_) (ToLower (Fqdn q.(q_name))) = true.

(** What a reply may be: nothing when not authoritative; otherwise an answer, or
    the SOA that says how long to remember that there is none. An address is
    answered for the served name only, from the zone in force, of the type asked,
    of one region, the nearest to the client, and no more of them than configured. *)
Definition conforms (req : request) (client : Addr) (z : option zone) (rp : reply) : Prop :=
  (rp.(Authoritative) = false -> rp.(Answer) = [] /\ rp.(Ns) = [] /\ rp.(Rcode) <> RcodeSuccess) /\
  (rp.(Authoritative) = true -> (exists q, in_zone req q) /\
     ((rp.(Answer) <> [] /\ rp.(Ns) = [] /\ rp.(Rcode) = RcodeSuccess) \/
      (rp.(Answer) = [] /\ rp.(Ns) = [soa a z] /\ (rp.(Rcode) = RcodeSuccess \/ rp.(Rcode) = RcodeNameError)))) /\
  (addresses rp.(Answer) <> [] -> exists q z', in_zone req q /\ z = Some z' /\
     ToLower (Fqdn q.(q_name)) = a.(name_) /\ Forall (served a q.(q_type)) rp.(Answer) /\
     (length rp.(Answer) <= a.(maxAnswers))%nat /\ of_one_region z' (locate client) (addresses rp.(Answer))).

Lemma refused_conforms req client z rc o : rc <> RcodeSuccess -> conforms req client z (mkReply rc false [] [] o).
Proof. by repeat split. Qed.

Lemma finished_conforms req client z q ans rc o :
  in_zone req q -> (rc = RcodeSuccess \/ (rc = RcodeNameError /\ ans = [])) -> addresses ans = [] ->
  conforms req client z (mkReply rc true ans (match ans with [] => [soa a z] | _ => [] end) o).
Proof.
  intros Hq Hrc Ha. split; [done|]. split; [|intros Hne; by apply Hne in Ha]. intros _. split; [by exists q|]. cbn.
  destruct ans; [right; tauto|left]. by destruct Hrc as [|[_ ?]].
Qed.

Ltac finish q :=
  cbn [fst]; match goal with |- conforms _ _ _ (mkReply _ true ?ans _ _) =>
    apply (finished_conforms _ _ _ q ans); [done|auto|repeat case_match; try done; apply nsRecords_no_address] end.

Lemma answer_conforms req from z turn :
  (0 < a.(maxAnswers))%nat -> (forall z', z = Some z' -> zone_wf z') ->
  conforms req (client_of req from) z (answer a locate req from z turn).1.
Proof.
  intros Hmax Hz. unfold answer, client_of. destruct (Question req) as [|q [|q' l]] eqn:Hq; [by apply refused_conforms| |by apply refused_conforms].
  destruct (Z.eqb_spec (Opcode req) OpcodeQuery); cbn [negb]; [|by apply refused_conforms].
  destruct (Z.eqb_spec (q_class q) ClassINET) as [Hc|]; cbn [negb orb]; [|by apply refused_conforms].
  destruct (IsSubDomain _ _) eqn:Hsub; cbn [negb orb]; [|by apply refused_conforms].
  assert (Hin : in_zone req q) by done.
  set (n := ToLower _) in *.
  destruct (match IsEdns0 req with Some o => read_options from None (Option_ o) | None => (from, None) end) as [client scope] eqn:Hcs.
  replace (match IsEdns0 req with Some o => (read_options from None (Option_ o)).1 | None => from end) with client
    by (destruct (IsEdns0 req); [by rewrite Hcs|by injection Hcs]).
  destruct (String.eqb_spec n (name_ a)) as [Hn|Hn]; cbn [andb negb].
  - destruct (address_type (q_type q)) eqn:Hty.
    + destruct z as [z'|]; [|by apply refused_conforms]. cbn [fst].
      pose proof (addressRecords_spec a locate z' client (q_type q) turn (Hz z' eq_refl) Hmax Hty) as (Hs & Hl & Hlen & Hone & Hnone).
      destruct (addressRecords a locate z' client (q_type q) turn) as [|x l] eqn:Hrec; [by apply (finished_conforms _ _ _ q []); [|left|]|].
      split; [done|]. split; [intros _; split; [by exists q|by left]|].
      intros _. exists q, z'. split; [done|]. split; [done|]. split; [done|]. split; [done|]. split; [done|]. by apply Hone.
    + destruct (String.eqb_spec n (zone_ a)); cbn [fst]; finish q.
  - destruct (String.eqb_spec n (zone_ a)); cbn [fst]; [finish q|]. destruct (negb (IsSubDomain n (name_ a))); finish q.
Qed.

End AnswerLemmas.

(** ** The service *)

Definition maxFeedBytes : Z := 2 ^ 20.
#[global] Arguments maxFeedBytes : simpl never.

(** What the feed's server answers: nothing, or a status and a body, which may
    fail to be read. *)
Inductive http := NoResponse | Response (status : Z) (body : option string).
Inductive fetch_error := FetchFailed | ErrFeedNotReady | BadStatus (status : Z) | ReadFailed | TooLarge.

(** fetch. *)
Definition fetch (r : http) : result fetch_error string :=
  match r with
  | NoResponse => Err FetchFailed
  | Response status body =>
      if status =? 503 then Err ErrFeedNotReady
      else if negb (status =? 200) then Err (BadStatus status)
      else match body with
        | None => Err ReadFailed
        | Some b => if maxFeedBytes <? Z.of_nat (String.length b) then Err TooLarge else Ok b
        end
  end.

(** service: the zone in force, the body it was read from, and the kept feed in
    the state directory. *)
Record service := mkService { current : option zone; lastBody : string; disk : option string }.

Section Service.
Context `{GoVersion, FeedJson}.
Context (sort : list region -> list region) (stateDir : bool).

(** serve. [wrote] is whether writing the kept feed, through a file beside it,
    succeeds. *)
Definition serve (body : string) (keep wrote : bool) (s : service) : result (feed_error * list skip) service :=
  match parseFeed sort body with
  | Err e => Err e
  | Ok (z, _) => Ok (mkService (Some z) body (if keep && stateDir && wrote then Some body else s.(disk)))
  end.

Definition newService (disk : option string) : service := mkService None "" disk.

(** loadSnapshot. *)
Definition loadSnapshot (s : service) : service :=
  if negb stateDir then s
  else match s.(disk) with
    | None => s
    | Some body => match serve body false false s with Ok s' => s' | Err _ => s end
    end.

(** feedRound. *)
Definition feedRound (r : http) (wrote : bool) (s : service) : service :=
  match fetch r with
  | Err _ => s
  | Ok body =>
      if String.eqb body s.(lastBody) then s
      else match serve body true wrote s with Ok s' => s' | Err _ => s end
  end.

(** healthz. *)
Definition healthy (s : service) : bool := match s.(current) with Some _ => true | None => false end.

(** A process reads the feed round after round, and may start again. *)
Inductive event := Round (r : http) (wrote : bool) | Restart.

Definition step (s : service) (e : event) : service :=
  match e with Round r wrote => feedRound r wrote s | Restart => loadSnapshot (newService s.(disk)) end.
Definition run (s : service) (es : list event) : service := foldl step s es.
Definition start (disk : option string) : service := loadSnapshot (newService disk).

(** *** What is promised: the last reading that could be used *)

Definition reading (e : event) : option string :=
  match e with Round r _ => match fetch r with Ok b => Some b | Err _ => None end | Restart => None end.
Definition usable_feed (body : string) : option zone := match parseFeed sort body with Ok (z, _) => Some z | Err _ => None end.
Definition last_good (bodies : list string) : option zone := last (omap usable_feed bodies).

Definition writes (e : event) : Prop := match e with Round _ wrote => wrote = true | Restart => stateDir = true end.
Definition no_restart (e : event) : Prop := e <> Restart.

Lemma usable_empty : usable_feed "" = None.
Proof. unfold usable_feed, parseFeed. by rewrite json_empty. Qed.

Lemma last_good_snoc l b : last_good (l ++ [b]) = match usable_feed b with Some z => Some z | None => last_good l end.
Proof. unfold last_good. rewrite omap_app. cbn. destruct (usable_feed b); [by rewrite last_snoc|by rewrite app_nil_r]. Qed.

(** The zone in force is the last body's. *)
Lemma feedRound_spec r wrote s :
  s.(current) = usable_feed s.(lastBody) ->
  let s' := feedRound r wrote s in
  s'.(current) = usable_feed s'.(lastBody) /\
  s'.(current) = match reading (Round r wrote) with Some b => match usable_feed b with Some z => Some z | None => s.(current) end | None => s.(current) end /\
  (stateDir = true -> wrote = true -> s.(current) = s.(disk) ≫= usable_feed -> s'.(current) = s'.(disk) ≫= usable_feed).
Proof.
  intros Hi. unfold feedRound, reading. cbn. destruct (fetch r) as [b|e]; [|by repeat split].
  destruct (String.eqb_spec b (lastBody s)) as [->|_].
  { split; [done|]. split; [|done]. rewrite <- Hi. by destruct (current s). }
  unfold serve. unfold usable_feed at 2. destruct (parseFeed sort b) as [[z sk]|e] eqn:Hp; [|by repeat split]. cbn.
  assert (Hu : usable_feed b = Some z) by (unfold usable_feed; by rewrite Hp). split; [done|]. split; [done|].
  intros -> -> _. cbn. by rewrite Hu.
Qed.

Lemma loadSnapshot_spec d : stateDir = true ->
  let s := loadSnapshot (newService d) in
  s.(current) = usable_feed s.(lastBody) /\ s.(current) = d ≫= usable_feed /\ s.(disk) = d.
Proof.
  intros Hd. unfold loadSnapshot. rewrite Hd. cbn. destruct d as [b|]; cbn; [|by rewrite usable_empty].
  unfold serve. destruct (parseFeed sort b) as [[z sk]|e] eqn:Hp; cbn; unfold usable_feed at 2; rewrite Hp; [|by rewrite usable_empty].
  unfold usable_feed. by rewrite Hp.
Qed.

Lemma run_last_good es s hist :
  s.(current) = usable_feed s.(lastBody) -> s.(current) = last_good hist ->
  Forall no_restart es \/ (stateDir = true /\ Forall writes es /\ s.(current) = s.(disk) ≫= usable_feed) ->
  (run s es).(current) = last_good (hist ++ omap reading es).
Proof.
  revert s hist. induction es as [|e es IH]; intros s hist Hi Hc Hes; [by rewrite app_nil_r|]. cbn [run foldl].
  change (foldl step (step s e) es) with (run (step s e) es). destruct e as [r wrote|].
  - destruct (feedRound_spec r wrote s Hi) as (H1 & H2 & H3). cbn [step].
    rewrite (IH _ (hist ++ option_list (reading (Round r wrote)))); [|done| |].
    + cbn [omap list_omap]. destruct (reading _); cbn; by rewrite <- ?app_assoc, ?app_nil_r.
    + rewrite H2. destruct (reading (Round r wrote)) as [b|]; cbn; [by rewrite last_good_snoc, <- Hc|by rewrite app_nil_r].
    + destruct Hes as [Hf|(Hd & Hw & Hk)]; [left; by inversion Hf|right]. inversion Hw as [|? ? Hw1 Hw2]; subst. auto.
  - destruct Hes as [Hf|(Hd & Hw & Hk)]; [by inversion Hf|]. inversion Hw; subst.
    destruct (loadSnapshot_spec s.(disk) Hd) as (Hs1 & Hs2 & Hs3). cbn [step].
    rewrite (IH _ hist); [done|done|congruence|]. right. split; [done|]. split; [done|]. rewrite Hs3. congruence.
Qed.

End Service.

Lemma usable_feed_wf `{GoVersion, FeedJson} sort `{!SortsRegions sort} body z : usable_feed sort body = Some z -> zone_wf z.
Proof.
  unfold usable_feed, parseFeed. destruct (json_Unmarshal body) as [f|]; [|done].
  destruct (feed_rounds f.(Regions)) as (frs & _ & Hall & _). destruct (omap id _) as [|r l] eqn:Hl; [done|].
  intros [= <-]. eapply feed_zone_wf; [apply _|done|exact Hall].
Qed.

Lemma last_good_wf `{GoVersion, FeedJson} sort `{!SortsRegions sort} bodies z : last_good sort bodies = Some z -> zone_wf z.
Proof.
  unfold last_good. intros Hl. apply last_Some in Hl as (l & Hl). assert (Hz : z ∈ omap (usable_feed sort) bodies) by (rewrite Hl; set_solver).
  apply list_elem_of_omap in Hz as (b & _ & Hb). by eapply usable_feed_wf.
Qed.


(** A kept feed whose write failed is not written again: the body is in force, so
    every later reading of it is unchanged, and a restart goes back to what was
    kept before. *)
Theorem failed_keep_not_retried `{GoVersion, FeedJson} sort stateDir s b z n :
  usable_feed sort b = Some z -> fetch (Response 200 (Some b)) = Ok b -> b <> s.(lastBody) ->
  let s' := run sort stateDir s (Round (Response 200 (Some b)) false :: replicate n (Round (Response 200 (Some b)) true)) in
  s'.(current) = Some z /\ s'.(disk) = s.(disk).
Proof.
  intros Hu Hf Hne s'. set (s1 := mkService (Some z) b s.(disk)).
  assert (H1 : feedRound sort stateDir (Response 200 (Some b)) false s = s1).
  { unfold feedRound. rewrite Hf, (proj2 (String.eqb_neq _ _) Hne). unfold serve. unfold usable_feed in Hu.
    destruct (parseFeed sort b) as [[z' sk]|e]; [|done]. injection Hu as ->. by rewrite andb_false_r. }
  assert (H2 : feedRound sort stateDir (Response 200 (Some b)) true s1 = s1) by (unfold feedRound; rewrite Hf; cbn; by rewrite String.eqb_refl).
  subst s'. cbn [run foldl step]. rewrite H1. enough (foldl (step sort stateDir) s1 (replicate n (Round (Response 200 (Some b)) true)) = s1) as -> by done.
  induction n as [|n IH]; [done|]. cbn [replicate foldl step]. by rewrite H2.
Qed.

(** The answers to the A queries of clients that ask for A and then for AAAA,
    one after another, from turn [turn] on. *)
Fixpoint paired `{GoMath} (a : authority) (locate : Addr -> option location) (z : zone) (from : Addr) (n : nat) (turn : Z) : list (list rr) :=
  match n with
  | O => []
  | S n => addressRecords a locate z from TypeA turn :: paired a locate z from n (wrapu 64 (wrapu 64 (turn + 1) + 1))
  end.

(** One counter turns both families: when each client asks for both, and none can
    be placed, the A queries of a zone of two regions get the first of them every
    time, not each in turn. *)
Theorem paired_queries_starve `{GoMath} a locate z from n turn r0 r1 :
  locate from = None -> candidates z false = [r0; r1] -> turn mod 2 = 0 ->
  Forall (fun ans => forall x, x ∈ addresses ans -> x ∈ r0.(addrs)) (paired a locate z from n turn).
Proof.
  intros Hloc Hc. revert turn. induction n as [|n IH]; intros turn Ht; cbn [paired]; constructor.
  - intros x. unfold addressRecords. rewrite Hloc. cbn [Z.eqb Pos.eqb TypeA TypeAAAA TypeANY orb andb]. rewrite app_nil_r.
    rewrite (proj1 (addresses_A _ _ _)), pick_chosen, Hc. cbn [chosen length]. change (Z.of_nat 2) with 2. rewrite Ht. cbn [nth Z.to_nat snd].
    intros Hx. apply subseteq_take in Hx. by rewrite turned_perm in Hx.
  - apply IH. unfold wrapu. rewrite Zplus_mod_idemp_l. replace (turn + 1 + 1) with (turn + 1 * 2) by lia.
    rewrite Z.mod_mod_divide by (by exists (2 ^ 63)). by rewrite Z_mod_plus_full.
Qed.

(** ** The location database *)

(** strings.ReplaceAll for a pattern that is not empty; each round goes past one
    occurrence. *)
Fixpoint replace_all (rounds : nat) (s old new : string) : string :=
  match rounds with
  | O => s
  | S rounds => match Cut s old with Some (x, y) => x +:+ new +:+ replace_all rounds y old new | None => s end
  end.
Definition ReplaceAll (s old new : string) : string := replace_all (String.length s) s old new.

Definition monthPlaceholder : string := "{month}".
Definition maxGeoDBBytes : Z := 2 ^ 30.
#[global] Arguments maxGeoDBBytes : simpl never.

(** The year and the month of a UTC day counted from the Unix epoch. *)
Definition civil_month (day : Z) : Z * Z :=
  let z := day + 719468 in
  let era := z / 146097 in
  let doe := z mod 146097 in
  let yoe := (doe - doe / 1460 + doe / 36524 - doe / 146096) / 365 in
  let doy := doe - (365 * yoe + yoe / 4 - yoe / 100) in
  let mp := (5 * doy + 2) / 153 in
  let m := if mp <? 10 then mp + 3 else mp - 9 in
  (yoe + era * 400 + (if m <=? 2 then 1 else 0), m).

(** Format("2006-01") of the first of a month, for years of four digits. *)
Definition pad (n : nat) (z : Z) : string :=
  let s := Itoa z in String.concat "" (replicate (n - String.length s) "0") +:+ s.
Definition month_name (ym : Z * Z) : string := pad 4 ym.1 +:+ "-" +:+ pad 2 ym.2.

(** AddDate(0, -1, 0) on the first of a month. *)
Definition month_before (ym : Z * Z) : Z * Z := if ym.2 =? 1 then (ym.1 - 1, 12) else (ym.1, ym.2 - 1).

(** geoFetcher.urls. *)
Definition urls (urlTemplate : string) (now : Time) : list string :=
  if negb (Contains urlTemplate monthPlaceholder) then [urlTemplate]
  else let this := civil_month (now / (24 * Hour)) in
       [ReplaceAll urlTemplate monthPlaceholder (month_name this);
        ReplaceAll urlTemplate monthPlaceholder (month_name (month_before this))].

(** redactQuery; the ellipsis is the character's three bytes. *)
Definition ellipsis : string := String (ascii_of_nat 226) (String (ascii_of_nat 128) (String (ascii_of_nat 166) "")).
Definition redactQuery (u : string) : string := match Cut u "?" with Some (x, _) => x +:+ "?" +:+ ellipsis | None => u end.

(** What fetching a URL gives: no request, no response, or a response, whose body
    is as read through gzip when the URL's path ends in .gz. *)
Inductive geo_http :=
| BadRequest (why : string)
| DoFailed (why : string)
| GeoResponse (code : Z) (status : string) (body : result string string).

Inductive geo_error := ErrNotModified | GeoError (text : string).

(** An error of http.Client.Do is a *url.Error, whose text quotes the URL asked. *)
Definition quote : string := String (ascii_of_nat 34) "".
Definition url_error (u why : string) : string := "Get " +:+ quote +:+ u +:+ quote +:+ ": " +:+ why.

Section Database.
Context {DB : Type} (opens : string -> option DB).

(** download, up to the rename, whose outcome is [renamed]: what takes dest's place. *)
Definition download (u : string) (r : geo_http) (renamed : bool) : result geo_error string :=
  match r with
  | BadRequest why => Err (GeoError ("geodns: location database request: " +:+ why))
  | DoFailed why => Err (GeoError ("geodns: fetch the location database: " +:+ url_error u why))
  | GeoResponse code status body =>
      if code =? 304 then Err ErrNotModified
      else if negb (code =? 200)
      then Err (GeoError ("geodns: fetch the location database: " +:+ redactQuery u +:+ " answered " +:+ status))
      else match body with
        | Err why => Err (GeoError ("geodns: store the location database: " +:+ why))
        | Ok data =>
            if maxGeoDBBytes <? Z.min (Z.of_nat (String.length data)) (maxGeoDBBytes + 1)
            then Err (GeoError ("geodns: the location database is larger than " +:+ Itoa maxGeoDBBytes +:+ " bytes"))
            else match opens data with
              | None => Err (GeoError ("geodns: " +:+ redactQuery u +:+ " is not a location database"))
              | Some _ => if renamed then Ok data else Err (GeoError "geodns: store the location database")
              end
        end
  end.

(** errors.Join's text: one error a line. *)
Definition newline : ascii := ascii_of_nat 10.
Definition join_errors (l : list string) : string := Join newline l.

(** refresh, over the URLs to try and what fetching each gives. *)
Fixpoint refresh_loop (errs : list string) (l : list (string * (geo_http * bool))) : result geo_error string :=
  match l with
  | [] => Err (GeoError (join_errors errs))
  | (u, (r, renamed)) :: t =>
      match download u r renamed with
      | Ok data => Ok data
      | Err ErrNotModified => Err ErrNotModified
      | Err (GeoError e) => refresh_loop (errs ++ [e]) t
      end
  end.
Definition refresh (urlTemplate : string) (now : Time) (fetched : list (geo_http * bool)) : result geo_error string :=
  refresh_loop [] (zip (urls urlTemplate now) fetched).

(** The file at dest, and the database the locator holds. *)
Record geo_state := mkGeo { dest : option string; db : option DB }.

(** locator.load of what dest holds. *)
Definition load (s : geo_state) : geo_state :=
  match s.(dest) ≫= opens with Some d => mkGeo s.(dest) (Some d) | None => s end.

(** One round of geoLoop. *)
Definition geo_round (urlTemplate : string) (now : Time) (fetched : list (geo_http * bool)) (s : geo_state) : geo_state :=
  match refresh urlTemplate now fetched with
  | Ok data => load (mkGeo (Some data) s.(db))
  | Err _ => s
  end.

(** locate: where the database says an address is, on the globe. *)
Definition locate_in (Lookup : DB -> Addr -> option (option float64 * option float64)) (s : geo_state) (addr : Addr) : option location :=
  d ← s.(db);
  if negb (IsValid addr) then None
  else '(la, lo) ← Lookup d (Unmap addr); la ← la; lo ← lo;
       if off_globe la lo then None else Some (mkLocation la lo).

Lemma refresh_loop_ok errs l data : refresh_loop errs l = Ok data ->
  is_Some (opens data) /\ Z.of_nat (String.length data) <= maxGeoDBBytes.
Proof.
  revert errs. induction l as [|[u [r renamed]] t IH]; intros errs; cbn; [done|].
  destruct (download u r renamed) as [data'|[|e]] eqn:Hd; [|done|apply IH]. intros [= <-].
  unfold download in Hd. destruct r as [| |code status body]; [done..|]. destruct (code =? 304); [done|]. destruct (negb _); [done|].
  destruct body as [b|]; [|done]. destruct (Z.ltb_spec maxGeoDBBytes (Z.min (Z.of_nat (String.length b)) (maxGeoDBBytes + 1))); [done|].
  destruct (opens b) eqn:Ho; [|done]. destruct renamed; [|done]. injection Hd as <-. split; [by eexists|lia].
Qed.

(** The database is only replaced by one that opens and is not too large, and the
    locator, once it has one, always has one: after every round dest is as before,
    with the locator as before, or it is what the locator holds. *)
Theorem geo_rounds_keep_a_database rounds s :
  let s' := foldl (fun s '(tpl, now, f) => geo_round tpl now f s) s rounds in
  (is_Some s.(db) -> is_Some s'.(db)) /\
  ((s'.(dest) = s.(dest) /\ s'.(db) = s.(db)) \/
   exists data d, s'.(dest) = Some data /\ opens data = Some d /\ s'.(db) = Some d /\ Z.of_nat (String.length data) <= maxGeoDBBytes).
Proof.
  intros s'. enough ((s'.(dest) = s.(dest) /\ s'.(db) = s.(db)) \/
    exists data d, s'.(dest) = Some data /\ opens data = Some d /\ s'.(db) = Some d /\ Z.of_nat (String.length data) <= maxGeoDBBytes) as He.
  { split; [|done]. destruct He as [[_ ->]|(? & ? & _ & _ & -> & _)]; [done|by eexists]. }
  subst s'. revert s. induction rounds as [|[[tpl now] f] t IH]; intros s; [by left|]. cbn [foldl].
  destruct (IH (geo_round tpl now f s)) as [[-> ->]|Hr]; [|by right]. unfold geo_round, refresh.
  destruct (refresh_loop _ _) as [data|e] eqn:Hl; [right|by left]. apply refresh_loop_ok in Hl as [[d Hd] Hlen].
  exists data, d. unfold load. cbn. by rewrite Hd.
Qed.

(** The redaction misses one error: when the request itself fails, its text
    quotes the URL with its query, licence key included, which the refresh loop
    logs. *)
Lemma Cut_found x y sep : sep <> "" -> is_Some (Cut (x +:+ sep +:+ y) sep).
Proof.
  intros Hs. induction x as [|a x IH].
  - rewrite sapp_nil_l. destruct (sep +:+ y) eqn:He; cbn [Cut]; rewrite <- He, HasPrefix_app; by eexists.
  - rewrite sapp_cons. cbn [Cut]. destruct (HasPrefix _ _); [done|]. destruct IH as [[u v] ->]. done.
Qed.

Theorem licence_key_in_error u why renamed : u <> "" ->
  exists text, download u (DoFailed why) renamed = Err (GeoError text) /\ Contains text u = true.
Proof.
  intros Hu. eexists. split; [reflexivity|]. unfold Contains, url_error.
  replace ("geodns: fetch the location database: " +:+ "Get " +:+ quote +:+ u +:+ quote +:+ ": " +:+ why) with
    (("geodns: fetch the location database: " +:+ "Get " +:+ quote) +:+ u +:+ quote +:+ ": " +:+ why) by (by rewrite <- !sapp_assoc).
  by destruct (Cut_found ("geodns: fetch the location database: " +:+ "Get " +:+ quote) (quote +:+ ": " +:+ why) u Hu) as [x ->].
Qed.

End Database.

Lemma urls_examples :
  urls "https://db.example/city-{month}.mmdb.gz" (1709251200 * Second) = ["https://db.example/city-2024-03.mmdb.gz"; "https://db.example/city-2024-02.mmdb.gz"] /\
  urls "https://db.example/city-{month}.mmdb.gz" (1704067199 * Second) = ["https://db.example/city-2023-12.mmdb.gz"; "https://db.example/city-2023-11.mmdb.gz"] /\
  urls "https://db.example/city-{month}.mmdb.gz" (1704067200 * Second) = ["https://db.example/city-2024-01.mmdb.gz"; "https://db.example/city-2023-12.mmdb.gz"] /\
  urls "https://db.example/city.mmdb?key=1" 0 = ["https://db.example/city.mmdb?key=1"] /\
  redactQuery "https://db.example/city.mmdb?key=1" = "https://db.example/city.mmdb?" +:+ ellipsis.
Proof. by vm_compute. Qed.

(** ** The configuration *)

Definition defaultTTL : Duration := 30 * Second.
Definition defaultMaxAnswers : Z := 2.
Definition defaultFeedInterval : Duration := 15 * Second.
Definition defaultGeoInterval : Duration := 24 * Hour.
Definition geoFile : string := "city.mmdb".

Record config := mkConfig {
  listen : string; httpAddr : string; c_zone : string; c_name : string; c_nameservers : list string; c_hostmaster : string;
  c_ttl : Duration; c_maxAnswers : Z; feedURL : string; feedToken : string; feedInterval : Duration; stateDir_ : string;
  geoURL : string; geoDB : string; geoInterval : Duration
}.

Inductive config_error :=
| Missing (keys : list string)
| Invalids (n : nat).

Section Config.
Context `{DnsNames, GoDuration}.
Context (Getenv : string -> string).

(** canonical. *)
Definition canonical (name : string) : string := if String.eqb name "" then "" else ToLower (Fqdn name).

Definition required (key : string) : string := TrimSpace (Getenv key).

(** One of the duration settings: its value, and whether it is an error. *)
Definition duration_setting (key : string) (def : Duration) : Duration * nat :=
  match env_Duration Getenv key with
  | Err _ => (0, 1%nat)
  | Ok (_, false) => (def, 0%nat)
  | Ok (v, true) => if v <=? 0 then (0, 1%nat) else (v, 0%nat)
  end.

Definition configFromEnv : result config_error config :=
  let nameservers := canonical <$> filter (fun ns => ns <> "") (TrimSpace <$> Split comma (Getenv "QUMO_DNS_NAMESERVERS")) in
  let missing := filter (fun k => required k = "") ["QUMO_DNS_ZONE"; "QUMO_DNS_FEED_URL"]
                 ++ match nameservers with [] => ["QUMO_DNS_NAMESERVERS"] | _ => [] end in
  match missing with
  | _ :: _ => Err (Missing missing)
  | [] =>
      let zone := canonical (required "QUMO_DNS_ZONE") in
      let name := canonical (env_String Getenv "QUMO_DNS_NAME" zone) in
      let '(ttl, e1) := duration_setting "QUMO_DNS_TTL" defaultTTL in
      let '(feedInterval, e2) := duration_setting "QUMO_DNS_FEED_INTERVAL" defaultFeedInterval in
      let '(geoInterval, e3) := duration_setting "QUMO_DNS_GEOIP_INTERVAL" defaultGeoInterval in
      let '(maxAnswers, e4) :=
        match TrimSpace (Getenv "QUMO_DNS_MAX_ANSWERS") with
        | EmptyString => (defaultMaxAnswers, 0%nat)
        | raw => match Atoi raw with Some n => (n, if n <? 1 then 1%nat else 0%nat) | None => (0, 1%nat) end
        end in
      let e5 := if IsSubDomain zone name then 0%nat else 1%nat in
      let stateDir := Getenv "QUMO_DNS_STATE_DIR" in
      let geoURL := Getenv "QUMO_DNS_GEOIP_URL" in
      let geoDB := Getenv "QUMO_DNS_GEOIP_DB" in
      let keeps := negb (String.eqb geoURL "") && String.eqb geoDB "" in
      let e6 := if keeps && String.eqb stateDir "" then 1%nat else 0%nat in
      let cfg := mkConfig (env_String Getenv "QUMO_DNS_LISTEN" ":53") (env_String Getenv "QUMO_DNS_HTTP_ADDR" "127.0.0.1:9153")
        zone name nameservers (canonical (env_String Getenv "QUMO_DNS_HOSTMASTER" ("hostmaster." +:+ zone)))
        ttl maxAnswers (required "QUMO_DNS_FEED_URL") (Getenv "QUMO_DNS_FEED_TOKEN") feedInterval stateDir geoURL
        (if keeps then PathJoin [stateDir; geoFile] else geoDB) geoInterval in
      match (e1 + e2 + e3 + e4 + e5 + e6)%nat with O => Ok cfg | n => Err (Invalids n) end
  end.

(** The authority newService builds. *)
Definition newAuthority (cfg : config) : authority :=
  mkAuthority cfg.(c_zone) cfg.(c_name) cfg.(c_nameservers) cfg.(c_hostmaster) (wrapu 32 (cfg.(c_ttl) / Second)) (Z.to_nat cfg.(c_maxAnswers)).

Lemma duration_setting_ok key def : 0 < def -> (duration_setting key def).2 = 0%nat -> 0 < (duration_setting key def).1.
Proof. intros Hd. unfold duration_setting. destruct (env_Duration Getenv key) as [[v []]|]; cbn; try done. destruct (Z.leb_spec v 0); done || (cbn; lia). Qed.

Lemma Clean_nonempty p : Clean p <> "".
Proof. unfold Clean. destruct (HasPrefix p "/"); [done|]. by case_bool_decide. Qed.

Lemma PathJoin_nonempty d : d <> "" -> PathJoin [d; geoFile] <> "".
Proof.
  intros Hd. unfold PathJoin. cbn [foldl]. rewrite (bool_decide_true ("" = "")), (bool_decide_false (d = "")) by done.
  destruct d as [|c d]; [done|]. rewrite sapp_cons. apply Clean_nonempty.
Qed.

(** A configuration accepted can serve: it names a zone's name servers, answers a
    name in the zone, with at least one address, on intervals above zero, and has
    somewhere to keep a database it downloads. *)
Theorem config_serves cfg : configFromEnv = Ok cfg ->
  cfg.(c_nameservers) <> [] /\ IsSubDomain cfg.(c_zone) cfg.(c_name) = true /\ (0 < (newAuthority cfg).(maxAnswers))%nat /\
  0 < cfg.(c_ttl) /\ 0 < cfg.(feedInterval) /\ 0 < cfg.(geoInterval) /\ cfg.(feedURL) <> "" /\
  (cfg.(geoURL) <> "" -> cfg.(geoDB) <> "").
Proof.
  unfold configFromEnv. set (ns := canonical <$> _). destruct (filter _ ["QUMO_DNS_ZONE"; "QUMO_DNS_FEED_URL"] ++ _) as [|k ks] eqn:Hm; [|done].
  apply app_nil in Hm as [Hreq Hns].
  pose proof (duration_setting_ok "QUMO_DNS_TTL" defaultTTL eq_refl) as H1'. destruct (duration_setting "QUMO_DNS_TTL" defaultTTL) as [ttl e1].
  pose proof (duration_setting_ok "QUMO_DNS_FEED_INTERVAL" defaultFeedInterval eq_refl) as H2'. destruct (duration_setting "QUMO_DNS_FEED_INTERVAL" _) as [fi e2].
  pose proof (duration_setting_ok "QUMO_DNS_GEOIP_INTERVAL" defaultGeoInterval eq_refl) as H3'. destruct (duration_setting "QUMO_DNS_GEOIP_INTERVAL" _) as [gi e3].
  cbn [fst snd] in *. set (mx := match TrimSpace (Getenv "QUMO_DNS_MAX_ANSWERS") with EmptyString => _ | _ => _ end).
  assert (Hmx : mx.2 = 0%nat -> 1 <= mx.1).
  { subst mx. destruct (TrimSpace _); [done|]. destruct (Atoi _) as [n|]; [|done]. cbn. destruct (Z.ltb_spec n 1); [done|]. lia. }
  destruct mx as [mx e4]. cbn [fst snd] in Hmx. set (keeps := negb _ && _).
  destruct (IsSubDomain _ _) eqn:Hsub; [|destruct (e1 + e2 + e3 + e4 + 1 + _)%nat eqn:He; [lia|done]].
  destruct (keeps && _) eqn:Hk; destruct (_ + _)%nat eqn:He; try done; [lia|]. intros [= <-]. cbn.
  split; [by destruct ns|]. split; [done|]. split; [lia|]. split; [apply H1'; lia|]. split; [apply H2'; lia|]. split; [apply H3'; lia|]. split.
  - intros Hf. rewrite !filter_cons, filter_nil in Hreq. case_decide; [done|]. case_decide; done.
  - intros Hg. destruct keeps eqn:Hkeeps.
    + cbn in Hk. destruct (String.eqb_spec (Getenv "QUMO_DNS_STATE_DIR") ""); [done|]. by apply PathJoin_nonempty.
    + subst keeps. destruct (String.eqb_spec (Getenv "QUMO_DNS_GEOIP_URL") ""); [done|]. cbn in Hkeeps. by destruct (String.eqb_spec (Getenv "QUMO_DNS_GEOIP_DB") "").
Qed.

End Config.

(** A TTL below a second is accepted and answered as 0, and one above 2^32 seconds
    as what is left of it in 32 bits. *)
Lemma ttl_truncated cfg : 0 < cfg.(c_ttl) < Second -> (newAuthority cfg).(ttl_) = 0.
Proof. intros Ht. cbn. unfold Second in *. by rewrite Z.div_small by lia. Qed.

(** ** Examples *)

#[local] Instance example_names : DnsNames := {
  Fqdn := fun s => if HasSuffix s "." then s else s +:+ ".";
  IsSubDomain := fun parent child => String.eqb parent child || HasSuffix child ("." +:+ parent)
}.
#[local] Existing Instance example_math.
#[local] Existing Instance example_version.
#[local] Existing Instance example_json.
#[local] Existing Instance sort_regions_sorts.

Definition example_authority : authority :=
  mkAuthority "geo.example." "cdn.geo.example." ["ns1.example."] "hostmaster.geo.example." 30 2.

(** A query for the A records, with a subnet of the client's. *)
Definition example_query : request :=
  mkRequest OpcodeQuery [mkQuestion "CDN.geo.example" TypeA ClassINET] (Some (mkEdns 4096 [Subnet (mkSubnet 1 24 0 [203; 0; 113; 0])])).
(** No database: nobody is placed. *)
Definition example_locate (a : Addr) : option location := None.

Definition example_rounds : list event :=
  [Round NoResponse true; Round (Response 200 (Some "{}")) true; Round (Response 503 None) true; Restart; Round (Response 200 (Some "broken")) true].

