(* ===== verification/Update.v ===== *)
(** * The self-update: versions, the release chosen, and replacing the binary

    src/internal/update/semver.go and update.go. What GitHub answers, SHA-256 and
    the unpacking of archives are arguments; [replaceBinary] is a program over a
    file system whose operations may fail and which may be interrupted after any
    of them. *)
From stdpp Require Import pretty.
From S2P Require Import Prelude GoStrings GoText GoPath.

Open Scope Z_scope.

(** ** semver.go *)

Record semver := mkSemver { major : Z; minor : Z; patch : Z; pre : string }.

#[export] Instance semver_eq_dec : EqDecision semver.
Proof. solve_decision. Defined.

Definition dot : ascii := "."%char.

Definition parseSemver (s : string) : option semver :=
  let s := TrimPrefix s "v" in
  let '(s, pre) := match Cut s "-" with Some (s, p) => (s, p) | None => (s, EmptyString) end in
  match Split dot s with
  | [a; b; c] => major ← Atoi a; minor ← Atoi b; patch ← Atoi c; Some (mkSemver major minor patch pre)
  | _ => None
  end.

Definition isPrerelease (v : semver) : bool := negb (String.eqb v.(pre) "").

Definition greaterThan (v other : semver) : bool :=
  if negb (v.(major) =? other.(major)) then other.(major) <? v.(major)
  else if negb (v.(minor) =? other.(minor)) then other.(minor) <? v.(minor)
  else if negb (v.(patch) =? other.(patch)) then other.(patch) <? v.(patch)
  else if String.eqb v.(pre) "" && negb (String.eqb other.(pre) "") then true
  else if negb (String.eqb v.(pre) "") && String.eqb other.(pre) "" then false
  else match String.compare v.(pre) other.(pre) with Gt => true | _ => false end.

Definition semver_String (v : semver) : string :=
  let s := Itoa v.(major) +:+ "." +:+ Itoa v.(minor) +:+ "." +:+ Itoa v.(patch) in
  if String.eqb v.(pre) "" then s else s +:+ "-" +:+ v.(pre).

(** ** update.go: which release, and which of its files *)

Record ghAsset := mkAsset { Name : string; BrowserDownloadURL : string }.
Record ghRelease := mkRelease { TagName : string; Prerelease : bool; Draft : bool; Assets : list ghAsset }.

(** detectLatest: [latest] is what the /latest endpoint gives and [releases] the
    most recent ones. *)
Definition detectLatest (includePrerelease : bool) (latest : option ghRelease) (releases : option (list ghRelease)) : option ghRelease :=
  if negb includePrerelease then latest
  else rs ← releases; snd <$> list_find (fun r => r.(Draft) = false) rs.

(** What [run] comes to before anything is downloaded. *)
Inductive decision := DevBuild | BadVersion (v : string) | NoRelease | UpToDate | Available (tag : string) | Apply (r : ghRelease).

Definition update_run (cur : string) (checkOnly : bool) (latest : option ghRelease) (releases : option (list ghRelease)) : decision :=
  if String.eqb cur "dev" then DevBuild
  else match parseSemver cur with
    | None => BadVersion cur
    | Some curVer =>
        match detectLatest (isPrerelease curVer) latest releases with
        | None => NoRelease
        | Some release =>
            match parseSemver release.(TagName) with
            | None => BadVersion release.(TagName)
            | Some latestVer =>
                if negb (greaterThan latestVer curVer) then UpToDate
                else if checkOnly then Available release.(TagName) else Apply release
            end
        end
    end.

(** The platform: runtime.GOOS and runtime.GOARCH. *)
Record platform := mkPlatform { GOOS : string; GOARCH : string }.

Definition assetName (p : platform) (tag : string) : string :=
  let ext := if String.eqb p.(GOOS) "windows" then "zip" else "tar.gz" in
  "qumo_" +:+ TrimPrefix tag "v" +:+ "_" +:+ p.(GOOS) +:+ "_" +:+ p.(GOARCH) +:+ "." +:+ ext.

(** findAssets: the last asset of each name. *)
Definition last_asset (n : string) (l : list ghAsset) : option ghAsset := last (filter (fun a => a.(Name) = n) l).
Definition findAssets (release : ghRelease) (archiveName : string) : option (ghAsset * ghAsset) :=
  archive ← last_asset archiveName release.(Assets);
  checksum ← last_asset "checksums.txt" release.(Assets);
  Some (archive, checksum).

(** strings.Fields. *)
Fixpoint fields_go (s word : string) : list string :=
  let flush := match word with EmptyString => [] | _ => [word] end in
  match s with
  | EmptyString => flush
  | String a s' => if is_space a then flush ++ fields_go s' "" else fields_go s' (word +:+ String a "")
  end.
Definition Fields (s : string) : list string := fields_go s "".

Definition newline : ascii := ascii_of_nat 10.

(** findHash. *)
Fixpoint hash_line (lines : list string) (fileName : string) : option string :=
  match lines with
  | [] => None
  | line :: t =>
      match Fields (TrimSpace line) with
      | [h; f] => if String.eqb f fileName then Some h else hash_line t fileName
      | _ => hash_line t fileName
      end
  end.
Definition findHash (checksums fileName : string) : option string := hash_line (Split newline checksums) fileName.

Inductive update_error := NoAsset | DownloadFailed | NoChecksum | ChecksumMismatch | ExtractFailed | ReplaceFailed.

Section Apply.
(** The hex digest of a file, the qumo binary in an archive of a given name, and
    what downloading a URL gives. *)
Context (sha256hex : string -> string) (extractBinary : string -> string -> option string) (httpGet : string -> option string).

Definition verifyChecksum (data checksums fileName : string) : result update_error unit :=
  expected ← of_option NoChecksum (findHash checksums fileName);
  guard_err (String.eqb (sha256hex data) expected) ChecksumMismatch.

(** applyUpdate, up to replaceBinary: the binary to install. *)
Definition applyUpdate (p : platform) (release : ghRelease) : result update_error string :=
  let archiveName := assetName p release.(TagName) in
  '(archive, checksum) ← of_option NoAsset (findAssets release archiveName);
  archiveData ← of_option DownloadFailed (httpGet archive.(BrowserDownloadURL));
  checksumData ← of_option DownloadFailed (httpGet checksum.(BrowserDownloadURL));
  _ ← verifyChecksum archiveData checksumData archiveName;
  of_option ExtractFailed (extractBinary archiveData archiveName).

End Apply.

(** ** replaceBinary *)

(** A file system: what each path holds. *)
Abbreviation files := (gmap string string).

Inductive op := CreateTemp (p : string) | Write (p data : string) | Close (p : string) | Chmod (p : string) | Remove (p : string) | Rename (a b : string).

(** What an operation that succeeds leaves, and what one that fails may leave: a
    failed write, some other content. *)
Definition done_op (o : op) (fs : files) : files :=
  match o with
  | CreateTemp p => <[p := ""]> fs
  | Write p data => <[p := data]> fs
  | Close _ | Chmod _ => fs
  | Remove p => delete p fs
  | Rename a b => match fs !! a with Some x => <[b := x]> (delete a fs) | None => fs end
  end.
Definition failed_op (o : op) (fs fs' : files) : Prop :=
  match o with Write p _ => exists x, fs' = <[p := x]> fs | _ => fs' = fs end.

(** A program: operations, and what follows each when it succeeds and when it
    fails; it returns whether it succeeded. *)
Inductive prog := Ret (ok : bool) | Do (o : op) (k : bool -> prog).

(** An operation whose error is ignored. *)
Definition Ignore (o : op) (k : prog) : prog := Do o (fun _ => k).

Definition replaceBinary (windows : bool) (path tmpPath newData : string) : prog :=
  let fail := Ignore (Remove tmpPath) (Ret false) in
  Do (CreateTemp tmpPath) (fun ok => if negb ok then Ret false else
  Do (Write tmpPath newData) (fun ok => if negb ok then Ignore (Close tmpPath) fail else
  Do (Close tmpPath) (fun ok => if negb ok then fail else
  Do (Chmod tmpPath) (fun ok => if negb ok then fail else
  if windows then
    let oldPath := path +:+ ".old" in
    Ignore (Remove oldPath)
    (Do (Rename path oldPath) (fun ok => if negb ok then fail else
     Do (Rename tmpPath path) (fun ok =>
       if negb ok then Ignore (Rename oldPath path) fail
       else Ignore (Remove oldPath) (Ret true))))
  else Do (Rename tmpPath path) Ret)))).

Inductive fs_step : prog * files -> prog * files -> Prop :=
| step_done o k fs : fs_step (Do o k, fs) (k true, done_op o fs)
| step_failed o k fs fs' : failed_op o fs fs' -> fs_step (Do o k, fs) (k false, fs').

(** ** Versions are in order *)

Definition pre_rank (v : semver) : Z := if String.eqb v.(pre) "" then 1 else 0.

(** greaterThan as one comparison: release before pre-release, then the
    pre-releases by their text. *)
Lemma greaterThan_spec v w :
  greaterThan v w = true <->
  w.(major) < v.(major) \/ (v.(major) = w.(major) /\
  (w.(minor) < v.(minor) \/ (v.(minor) = w.(minor) /\
  (w.(patch) < v.(patch) \/ (v.(patch) = w.(patch) /\
  (pre_rank w < pre_rank v \/ (pre_rank v = pre_rank w /\ String.compare v.(pre) w.(pre) = Gt))))))).
Proof.
  unfold greaterThan, pre_rank.
  destruct (Z.eqb_spec (major v) (major w)) as [E1|E1]; cbn; [|rewrite Z.ltb_lt; lia].
  destruct (Z.eqb_spec (minor v) (minor w)) as [E2|E2]; cbn; [|rewrite Z.ltb_lt; lia].
  destruct (Z.eqb_spec (patch v) (patch w)) as [E3|E3]; cbn; [|rewrite Z.ltb_lt; lia].
  set (P := String.compare _ _ = Gt).
  assert (Hm : (match String.compare (pre v) (pre w) with Gt => true | _ => false end) = true <-> P) by (unfold P; by destruct (String.compare _ _)).
  destruct (String.eqb_spec (pre v) "") as [Ev|Ev], (String.eqb_spec (pre w) "") as [Ew|Ew]; cbn [negb andb].
  - rewrite Hm. clearbody P. intuition lia.
  - clear Hm. clearbody P. intuition lia.
  - clear Hm. clearbody P. intuition (lia || done).
  - rewrite Hm. clearbody P. intuition lia.
Qed.

Lemma string_gt_trans s t u : String.compare s t = Gt -> String.compare t u = Gt -> String.compare s u = Gt.
Proof.
  revert t u. induction s as [|a s IH]; intros [|b t] [|c u]; cbn; try done. unfold Ascii.compare.
  destruct (N.compare_spec (N_of_ascii a) (N_of_ascii b)) as [E1|E1|E1], (N.compare_spec (N_of_ascii b) (N_of_ascii c)) as [E2|E2|E2],
    (N.compare_spec (N_of_ascii a) (N_of_ascii c)) as [E3|E3|E3]; try done; try (exfalso; lia). apply IH.
Qed.

Lemma lex_total (a b : Z) (A B : Prop) : (a = b -> A \/ B) -> (b < a \/ (a = b /\ A)) \/ (a < b \/ (b = a /\ B)).
Proof. intros H. destruct (Z.lt_total a b) as [|[->|]]; [right; by left| |left; by left]. destruct (H eq_refl); auto. Qed.

(** The versions are totally ordered: no version is newer than itself, newer is
    transitive, and of two different versions one is newer. *)
Theorem versions_ordered v w x :
  greaterThan v v = false /\ (greaterThan v w = true -> greaterThan w x = true -> greaterThan v x = true) /\
  (v <> w -> greaterThan v w = true \/ greaterThan w v = true).
Proof.
  assert (Hirr : forall s, String.compare s s <> Gt) by (intros s Hs; pose proof (String.compare_antisym s s) as Ha; by rewrite Hs in Ha).
  split; [|split].
  - apply not_true_iff_false. rewrite greaterThan_spec. pose proof (Hirr (pre v)). intuition lia.
  - rewrite !greaterThan_spec. pose proof (string_gt_trans (pre v) (pre w) (pre x)) as Ht. generalize dependent Ht.
    generalize (String.compare (pre v) (pre w) = Gt), (String.compare (pre w) (pre x) = Gt), (String.compare (pre v) (pre x) = Gt).
    intros P Q R Ht. intuition lia.
  - intros Hne. rewrite !greaterThan_spec. do 3 (apply lex_total; intros ?). apply lex_total. intros _.
    destruct (String.compare (pre v) (pre w)) eqn:E; [|right; by rewrite String.compare_antisym, E|by left].
    apply String.compare_eq_iff in E. exfalso. apply Hne. destruct v, w. cbn in *. congruence.
Qed.

(** What [digits] reads has only digits. *)
Lemma digits_clean c s acc v : digits s acc = Some v -> (nat_of_ascii c < 48 \/ 57 < nat_of_ascii c)%nat -> clean c s.
Proof.
  intros Hd Hc. revert acc Hd. induction s as [|a s IH]; intros acc; [done|]. cbn. destruct (_ && _) eqn:Hb; [|done]. intros Hd.
  unfold clean. cbn. apply orb_false_iff. split; [|by eapply IH]. apply bool_decide_eq_false. intros ->. bool_prop. lia.
Qed.

Lemma Itoa_digits z : 0 <= z < 2 ^ 63 -> exists a s, Itoa z = String a s /\ digits (Itoa z) 0 = Some z.
Proof.
  intros Hz. unfold Itoa. destruct z as [|p|p]; [by exists "0"%char, ""| |lia]. change (pretty (Z.pos p)) with (pretty (N.pos p)).
  unfold pretty, pretty_N. rewrite decide_False by lia. pose proof (digits_pretty_go (N.pos p) "") as H.
  destruct (pretty_N_go (N.pos p) "") as [|a s]; [by cbn in H|]. exists a, s. done.
Qed.

Lemma Itoa_clean c z : 0 <= z < 2 ^ 63 -> (nat_of_ascii c < 48 \/ 57 < nat_of_ascii c)%nat -> clean c (Itoa z).
Proof. intros Hz Hc. destruct (Itoa_digits z Hz) as (a & s & _ & Hd). by eapply digits_clean. Qed.

Lemma Cut_clean c s t : clean c s -> Cut (s +:+ String c t) (String c "") = Some (s, t).
Proof.
  induction s as [|a s IH]; intros Hs.
  - change (String.EmptyString +:+ String c t) with (String c t). cbn [Cut]. unfold HasPrefix. cbn [String.prefix].
    destruct (ascii_dec c c); [|done]. cbn. unfold HasPrefix. cbn. destruct (ascii_dec c c); [|done]. by destruct t.
  - unfold clean in Hs. cbn in Hs. apply orb_false_iff in Hs as [Ha Hs]. rewrite sapp_cons. cbn [Cut]. unfold HasPrefix at 1. cbn [String.prefix].
    apply bool_decide_eq_false in Ha. destruct (ascii_dec c a) as [->|]; [done|]. by rewrite IH.
Qed.

Lemma Cut_clean_none c s : clean c s -> Cut s (String c "") = None.
Proof.
  induction s as [|a s IH]; intros Hs; [done|]. unfold clean in Hs. cbn in Hs. apply orb_false_iff in Hs as [Ha Hs]. cbn [Cut].
  unfold HasPrefix at 1. cbn [String.prefix]. apply bool_decide_eq_false in Ha. destruct (ascii_dec c a) as [->|]; [done|]. by rewrite IH.
Qed.

Lemma clean_cat c s t : clean c s -> clean c t -> clean c (s +:+ t).
Proof.
  intros Hs Ht. induction s as [|a s IH]; [done|]. unfold clean in *. cbn in Hs |- *. apply orb_false_iff in Hs as [Ha Hs]. rewrite sapp_cons. cbn. apply orb_false_iff. split; [done|by apply IH].
Qed.

Lemma TrimPrefix_digit a s : a <> "v"%char -> TrimPrefix (String a s) "v" = String a s.
Proof. intros Ha. cbn [TrimPrefix]. unfold HasPrefix. cbn [String.prefix]. destruct (ascii_dec "v" a) as [E|]; [by rewrite <- E in Ha|done]. Qed.

(** Printed, a version is read back, with the tag's v before it or without. *)
Theorem semver_round_trip v :
  0 <= v.(major) < 2 ^ 63 -> 0 <= v.(minor) < 2 ^ 63 -> 0 <= v.(patch) < 2 ^ 63 ->
  parseSemver (semver_String v) = Some v /\ parseSemver ("v" +:+ semver_String v) = Some v.
Proof.
  intros Ha Hb Hc. assert (Hd : forall z, 0 <= z < 2 ^ 63 -> clean dot (Itoa z) /\ clean "-"%char (Itoa z)).
  { intros z Hz. split; (apply Itoa_clean; [done|left; vm_compute; lia]). }
  set (s := semver_String v). assert (Hp : TrimPrefix ("v" +:+ s) "v" = s) by apply TrimPrefix_app.
  assert (Hs : TrimPrefix s "v" = s).
  { destruct (Itoa_digits _ Ha) as (a & t & He & Hdi). subst s. unfold semver_String. rewrite He.
    assert (a <> "v"%char) by (intros ->; by rewrite He in Hdi). destruct (String.eqb _ _); by apply TrimPrefix_digit. }
  unfold parseSemver. rewrite Hp, Hs. clear Hp Hs. enough (Hg : match (match Cut s "-" with Some (x, p) => (x, p) | None => (s, EmptyString) end) with
    | (x, p) => match Split dot x with [a; b; c] => major ← Atoi a; minor ← Atoi b; patch ← Atoi c; Some (mkSemver major minor patch p) | _ => None end end = Some v) by done.
  destruct (Hd _ Ha) as [Ha1 Ha2], (Hd _ Hb) as [Hb1 Hb2], (Hd _ Hc) as [Hc1 Hc2].
  set (core := Itoa (major v) +:+ "." +:+ Itoa (minor v) +:+ "." +:+ Itoa (patch v)).
  assert (Hcore : clean "-"%char core) by (unfold core; repeat (apply clean_cat; [done|]); done).
  assert (Hcut : (match Cut s "-" with Some (x, p) => (x, p) | None => (s, EmptyString) end) = (core, pre v)).
  { subst s. unfold semver_String. fold core. destruct (String.eqb_spec (pre v) "") as [->|]; [by rewrite Cut_clean_none|].
    change (core +:+ "-" +:+ pre v) with (core +:+ String "-" (pre v)). by rewrite Cut_clean. }
  rewrite Hcut. unfold core. change ("." +:+ (Itoa (minor v) +:+ "." +:+ Itoa (patch v))) with (String dot (Itoa (minor v) +:+ "." +:+ Itoa (patch v))).
  change ("." +:+ Itoa (patch v)) with (String dot (Itoa (patch v))). rewrite !Split_app, !Split_clean by done. cbn.
  rewrite !Atoi_Itoa by done. cbn. by destruct v.
Qed.

(** ** The update installs what was verified *)

(** What is applied is a release newer than the running version, the one the
    channel offers, and what is installed is the binary of an archive whose digest
    its checksums file gives for this platform's archive name. *)
Theorem update_newer_and_verified sha extract get p cur latest releases r bin :
  update_run cur false latest releases = Apply r -> applyUpdate sha extract get p r = Ok bin ->
  (exists v w, parseSemver cur = Some v /\ parseSemver r.(TagName) = Some w /\ greaterThan w v = true /\
     if isPrerelease v then exists rs, releases = Some rs /\ r ∈ rs /\ r.(Draft) = false else latest = Some r) /\
  exists a data sums, a ∈ r.(Assets) /\ a.(Name) = assetName p r.(TagName) /\ get a.(BrowserDownloadURL) = Some data /\
    findHash sums (assetName p r.(TagName)) = Some (sha data) /\ extract data (assetName p r.(TagName)) = Some bin.
Proof.
  intros Hr Ha. split.
  - unfold update_run in Hr. destruct (String.eqb cur "dev"); [done|]. destruct (parseSemver cur) as [v|]; [|done].
    destruct (detectLatest _ _ _) as [r'|] eqn:Hd; [|done]. destruct (parseSemver (TagName r')) as [w|] eqn:Hw; [|done].
    destruct (greaterThan w v) eqn:Hg; [|done]. cbn in Hr. injection Hr as ->. exists v, w. split; [done|]. split; [done|]. split; [done|].
    unfold detectLatest in Hd. destruct (isPrerelease v); [|done]. cbn in Hd. destruct releases as [rs|]; [|done]. exists rs. split; [done|]. cbn in Hd.
    apply fmap_Some in Hd as ([i x] & Hf & ->). apply list_find_Some in Hf as (Hi & Hdr & _). split; [|done]. by eapply list_elem_of_lookup_2.
  - unfold applyUpdate in Ha. inv_ok. destruct x as [a c]. inv_ok.
    match goal with H : findAssets _ _ = Some _ |- _ => unfold findAssets in H; apply bind_Some in H as (a' & Hl & H); apply bind_Some in H as (c' & _ & H) end.
    simplify_eq. apply last_Some in Hl as (l & Hl). assert (Hin : a ∈ filter (fun x => x.(Name) = assetName p (TagName r)) (Assets r)) by (rewrite Hl; set_solver).
    apply list_elem_of_filter in Hin as [Hn Hin].
    match goal with H : verifyChecksum _ _ _ _ = Ok _ |- _ => unfold verifyChecksum in H end. inv_ok.
    match goal with H : String.eqb _ _ = true |- _ => apply String.eqb_eq in H end. subst. eexists a, _, _. eauto 10.
Qed.

(** ** Replacing the binary is safe at every moment *)

(** [P] holds of the files at every moment of a program, and [Q] when it returns. *)
Fixpoint always (P : files -> Prop) (Q : bool -> files -> Prop) (p : prog) (fs : files) : Prop :=
  P fs /\
  match p with
  | Ret ok => Q ok fs
  | Do o k => always P Q (k true) (done_op o fs) /\ forall fs', failed_op o fs fs' -> always P Q (k false) fs'
  end.

Lemma always_sound P Q p fs p' fs' : always P Q p fs -> rtc fs_step (p, fs) (p', fs') -> P fs' /\ forall ok, p' = Ret ok -> Q ok fs'.
Proof.
  intros Ha Hs. remember (p, fs) as x eqn:Hx. remember (p', fs') as y eqn:Hy. revert p fs Ha Hx. induction Hs as [x|x y' z Hst _ IH]; intros p fs Ha ->.
  - injection Hy as <- <-. destruct p; cbn in Ha; [split; [apply Ha|intros ok' [= <-]; apply Ha]|]. split; [apply Ha|done].
  - destruct y' as [p1 fs1]. eapply IH; [done| |done]. inversion Hst; subst; cbn in Ha; destruct Ha as (_ & H1 & H2); [done|by apply H2].
Qed.

Section Replace.
Context (path tmpPath oldC newC : string) (fs0 : files).
Context (Hold : fs0 !! path = Some oldC) (Hfresh : fs0 !! tmpPath = None).

(** The files of others are not touched. *)
Definition others (windows : bool) (fs : files) : Prop :=
  forall q, q <> path -> q <> tmpPath -> (windows = true -> q <> path +:+ ".old") -> fs !! q = fs0 !! q.

Lemma tmp_not_path : tmpPath <> path.
Proof. intros ->. congruence. Qed.

Lemma app_nonempty s t : t <> "" -> s <> s +:+ t.
Proof. intros Ht He. apply Ht. induction s as [|a s IH]; [done|]. rewrite sapp_cons in He. injection He as He. by apply IH. Qed.

Ltac split_always :=
  unfold replaceBinary, Ignore, others; cbn [always negb];
  repeat match goal with
  | |- _ /\ _ => split
  | |- forall fs, _ -> _ /\ _ => intros ? Hfail; cbn in Hfail; lazymatch type of Hfail with exists _, _ => destruct Hfail as [? ->] | _ => subst end
  end.

Ltac files_at :=
  intros; try match goal with H : true = true -> _ |- _ => specialize (H eq_refl) end; cbn [done_op]; simplify_map_eq; auto.

(** On Unix the path always holds the old binary or the new one, whole. *)
Lemma replace_unix :
  always (fun fs => (fs !! path = Some oldC \/ fs !! path = Some newC) /\ others false fs)
    (fun ok fs => fs !! path = Some (if ok then newC else oldC)) (replaceBinary false path tmpPath newC) fs0.
Proof. pose proof tmp_not_path as Hne. split_always; files_at. Qed.

(** On Windows it does, or, between the two renames, the old one is beside it. *)
Lemma replace_windows :
  tmpPath <> path +:+ ".old" ->
  always (fun fs => (fs !! path = Some oldC \/ fs !! path = Some newC \/ (fs !! path = None /\ fs !! (path +:+ ".old") = Some oldC)) /\ others true fs)
    (fun ok fs => if ok then fs !! path = Some newC
                  else fs !! path = Some oldC \/ (fs !! path = None /\ fs !! (path +:+ ".old") = Some oldC)) (replaceBinary true path tmpPath newC) fs0.
Proof.
  intros Hto. pose proof tmp_not_path as Hne. assert (Hpo : path <> path +:+ ".old").
  { intros He. apply (app_nonempty path ".old"); done. }
  split_always; files_at.
Qed.


End Replace.

(** When the last rename fails on Unix the temporary file is left beside the
    binary, which every other error removes. *)
Lemma unix_rename_failure_leaves_tmp path tmp newC fs :
  tmp <> path -> rtc fs_step (replaceBinary false path tmp newC, fs) (Ret false, <[tmp := newC]> (<[tmp := ""]> fs)).
Proof.
  intros Hne. do 4 (eapply rtc_l; [apply step_done|]; cbn [negb]). eapply rtc_l; [by apply step_failed|]. cbn. reflexivity.
Qed.

(** A pre-release's number is compared as text: rc.10 is not newer than rc.9. *)
Lemma rc10_not_newer : exists v w, parseSemver "v0.5.0-rc.10" = Some v /\ parseSemver "v0.5.0-rc.9" = Some w /\
  greaterThan v w = false /\ greaterThan w v = true.
Proof. eexists _, _. split; [by vm_compute|]. split; [by vm_compute|]. by vm_compute. Qed.

(** ** Examples *)

Definition linux : platform := mkPlatform "linux" "amd64".
Definition example_release : ghRelease :=
  mkRelease "v1.3.0" false false [mkAsset "qumo_1.3.0_linux_amd64.tar.gz" "u1"; mkAsset "checksums.txt" "u2"].
Definition example_get (u : string) : option string :=
  if String.eqb u "u1" then Some "archive" else Some ("77  other.zip" +:+ String newline "61  qumo_1.3.0_linux_amd64.tar.gz").
Definition example_sha (d : string) : string := "61".
Definition example_extract (d n : string) : option string := Some "binary".

Lemma update_newer_and_verified_witness :
  exists v w, parseSemver "v1.2.9" = Some v /\ parseSemver "v1.3.0" = Some w /\ greaterThan w v = true.
Proof.
  destruct (update_newer_and_verified example_sha example_extract example_get linux "v1.2.9" (Some example_release) None example_release "binary")
    as [(v & w & Hv & Hw & Hg & _) _]; [by vm_compute|by vm_compute|]. by exists v, w.
Defined.


Lemma semver_round_trip_witness : parseSemver "v1.2.3-rc.1" = Some (mkSemver 1 2 3 "rc.1").
Proof. apply (semver_round_trip (mkSemver 1 2 3 "rc.1")); cbn; lia. Defined.
