(* ===== verification/GoQuery.v ===== *)
(** * net/url: writing query strings

    [url.QueryEscape], and the methods of [url.Values] that a query is changed and
    written with; GoURL.v has what reads it. Values is the list of its pairs, whose
    order counts among the values of one key only. *)
From S2P Require Import Prelude GoStrings GoURL.

Definition hex_digit (n : nat) : ascii := ascii_of_nat (if (n <? 10)%nat then 48 + n else 55 + n)%nat.

Definition is_between (lo hi : nat) (c : ascii) : bool := ((lo <=? nat_of_ascii c) && (nat_of_ascii c <=? hi))%nat.

(** The characters [shouldEscape] leaves as they are in a query. *)
Definition unreserved (c : ascii) : bool :=
  is_between 48 57 c || is_between 65 90 c || is_between 97 122 c || mem_char c "-_.~".

Definition escape_char (c : ascii) : string :=
  if bool_decide (c = " "%char) then "+"
  else if unreserved c then String c ""
  else String "%" (String (hex_digit (nat_of_ascii c / 16)) (String (hex_digit (nat_of_ascii c mod 16)) "")).

Fixpoint QueryEscape (s : string) : string :=
  match s with EmptyString => "" | String c s' => escape_char c +:+ QueryEscape s' end.

(** [Values.Set] and the values of a key. *)
Definition Set_ (key value : string) (m : list (string * string)) : list (string * string) :=
  filter (fun p => p.1 <> key) m ++ [(key, value)].
Definition values (key : string) (m : list (string * string)) : list string := (filter (fun p => p.1 = key) m).*2.

(** The pairs by key, those of one key in their order. *)
Fixpoint insert_pair (p : string * string) (m : list (string * string)) : list (string * string) :=
  match m with
  | [] => [p]
  | q :: m' => if String.leb p.1 q.1 then p :: q :: m' else q :: insert_pair p m'
  end.
Definition by_key (m : list (string * string)) : list (string * string) := foldr insert_pair [] m.

(** [Values.Encode]. *)
Definition encode_pair (p : string * string) : string := QueryEscape p.1 +:+ "=" +:+ QueryEscape p.2.
Definition Encode (m : list (string * string)) : string := Join "&" (encode_pair <$> by_key m).

(** ** What is written is read *)

(** Each of the 256 bytes. *)
Ltac each_byte c := destruct c as [[] [] [] [] [] [] [] []].

Lemma unescape_char c s : QueryUnescape (escape_char c +:+ s) = String c <$> QueryUnescape s.
Proof. each_byte c; try reflexivity; cbn; by destruct (QueryUnescape s). Qed.

Lemma QueryUnescape_Escape s : QueryUnescape (QueryEscape s) = Some s.
Proof. induction s as [|c s IH]; [done|]. cbn [QueryEscape]. by rewrite unescape_char, IH. Qed.

(** No separator is in what is escaped. *)
Lemma escape_char_clean d c : d ∈ ["&"; "="; ";"]%char -> clean d (escape_char c).
Proof.
  intros Hd. unfold clean. repeat (apply elem_of_cons in Hd as [->|Hd]; [by each_byte c|]). by apply not_elem_of_nil in Hd.
Qed.

Lemma mem_char_app c s t : mem_char c (s +:+ t) = mem_char c s || mem_char c t.
Proof. induction s as [|a s IH]; [done|]. rewrite sapp_cons. cbn. by rewrite IH, orb_assoc. Qed.

Lemma clean_sapp c s t : clean c s -> clean c t -> clean c (s +:+ t).
Proof. unfold clean. intros Hs Ht. by rewrite mem_char_app, Hs, Ht. Qed.

Lemma QueryEscape_clean d s : d ∈ ["&"; "="; ";"]%char -> clean d (QueryEscape s).
Proof. intros Hd. induction s as [|c s IH]; [done|]. apply clean_sapp; [by apply escape_char_clean|done]. Qed.

Lemma cut_eq_app k v : clean "="%char k -> cut_eq (k +:+ "=" +:+ v) = (k, v).
Proof.
  unfold clean. induction k as [|c k IH]; [done|]. cbn. intros [Hc Hk]%orb_false_iff. apply bool_decide_eq_false in Hc.
  rewrite sapp_cons. each_byte c; cbn; rewrite ?(IH Hk); done.
Qed.

Lemma ContainsFunc_mem c s : ContainsFunc (fun a => bool_decide (a = c)) s = mem_char c s.
Proof. induction s as [|a s IH]; [done|]. cbn. by rewrite IH. Qed.

Lemma parse_pair_encode p : parse_pair (encode_pair p) = Some (Some p).
Proof.
  destruct p as [k v]. unfold parse_pair, encode_pair. cbn [fst snd]. rewrite ContainsFunc_mem.
  assert (clean ";"%char (QueryEscape k +:+ "=" +:+ QueryEscape v)) as ->
    by (apply clean_sapp; [apply QueryEscape_clean; set_solver|apply (clean_sapp _ "="); [done|apply QueryEscape_clean; set_solver]]).
  rewrite bool_decide_false by (by destruct (QueryEscape k)).
  rewrite cut_eq_app by (apply QueryEscape_clean; set_solver). cbn. by rewrite !QueryUnescape_Escape.
Qed.

Lemma encode_pair_clean p : clean "&"%char (encode_pair p).
Proof. apply clean_sapp; [apply QueryEscape_clean; set_solver|apply (clean_sapp _ "="); [done|apply QueryEscape_clean; set_solver]]. Qed.

(** A query that is written is read as the same pairs, by key. *)
Theorem ParseQuery_Encode m : ParseQuery (Encode m) = Some (by_key m).
Proof.
  unfold Encode, ParseQuery. generalize (by_key m). clear m. intros m.
  destruct (decide (m = [])) as [->|Hne]; [done|].
  rewrite Split_Join; [|by destruct m|apply Forall_fmap, Forall_true; intros; apply encode_pair_clean]. clear Hne.
  assert (mapM parse_pair (encode_pair <$> m) = Some (Some <$> m)) as ->.
  { induction m as [|p m IH]; [done|]. cbn [fmap list_fmap mapM]. rewrite parse_pair_encode. change (_ ≫= ?f) with (f (Some p)). cbv beta. by rewrite IH. }
  cbn. f_equal. induction m as [|p m IH]; [done|]. cbn. by f_equal.
Qed.

(** ** Values *)

Lemma values_cons key p m : values key (p :: m) = (if decide (p.1 = key) then [p.2] else []) ++ values key m.
Proof. unfold values. rewrite filter_cons. by destruct (decide (p.1 = key)). Qed.

Lemma values_app key m m' : values key (m ++ m') = values key m ++ values key m'.
Proof. unfold values. by rewrite filter_app, fmap_app. Qed.

Lemma leb_refl s : String.leb s s = true.
Proof. destruct (String.leb_total s s); done. Qed.

Lemma insert_pair_values key p m : values key (insert_pair p m) = values key (p :: m).
Proof.
  induction m as [|q m IH]; [done|]. cbn [insert_pair]. destruct (String.leb p.1 q.1) eqn:Hle; [done|].
  rewrite values_cons, IH, !values_cons. destruct (decide (q.1 = key)) as [Hq|Hq]; [|done].
  rewrite decide_False; [done|]. intros Hp. by rewrite Hp, Hq, leb_refl in Hle.
Qed.

Lemma by_key_values key m : values key (by_key m) = values key m.
Proof.
  induction m as [|p m IH]; [done|]. cbn [by_key foldr]. rewrite insert_pair_values, !values_cons. by rewrite <- IH.
Qed.

Lemma values_filter key key' m : values key' (filter (fun p => p.1 <> key) m) = if decide (key' = key) then [] else values key' m.
Proof.
  induction m as [|p m IH]; [by case_decide|]. rewrite filter_cons, values_cons. destruct (decide (p.1 <> key)) as [Hp|Hp].
  - rewrite values_cons, IH. destruct (decide (key' = key)) as [->|]; [|done]. by rewrite decide_False.
  - rewrite IH. destruct (decide (key' = key)) as [->|Hk]; [done|]. rewrite decide_False; [done|]. intros <-. by apply Hp.
Qed.

Lemma values_Set key v m key' : values key' (Set_ key v m) = if decide (key' = key) then [v] else values key' m.
Proof.
  unfold Set_. rewrite values_app, values_filter, values_cons. cbn [fst snd].
  destruct (decide (key' = key)) as [->|Hk]; [by rewrite decide_True|]. rewrite decide_False by done. by rewrite app_nil_r.
Qed.

(** [Get] and [Has] see the values of a key. *)
Lemma Get_values key m : Get key m = default "" (head (values key m)).
Proof.
  unfold Get. induction m as [|[k v] m IH]; [done|]. rewrite values_cons. cbn [List.find fst snd].
  case_bool_decide as Hk; [rewrite decide_True by done; reflexivity|rewrite decide_False by done; exact IH].
Qed.

Lemma Has_values key m : Has key m = negb (bool_decide (values key m = [])).
Proof.
  unfold Has. induction m as [|[k v] m IH]; [done|]. rewrite values_cons. cbn [existsb fst snd].
  destruct (decide (k = key)) as [Hk|Hk]; [by rewrite (bool_decide_true (k = key))|rewrite (bool_decide_false (k = key)) by done; exact IH].
Qed.

(** [URL.Query]: what of the query can be read. *)
Definition URL_Query (rawQuery : string) : list (string * string) :=
  omap (fun part => match parse_pair part with Some (Some p) => Some p | _ => None end) (Split "&"%char rawQuery).
