(* ===== verification/Upstream.v ===== *)
(** * Upstream: how a publisher reaches its relay

    src/internal/upstream/upstream.go, with what it uses of
    src/internal/tlsclient/tlsclient.go, of token/key.go's reading of files and of
    relaycred's Sign: the configuration, the credential a publisher signs for each
    session, the URL it dials, and the loop that keeps a session open. Composed with
    the relay's verifier (AuthVerifier.v): what is dialed is admitted; and with the
    funnel's check (Funnel.v): what is accepted can be published.

    The file system, the PEM parser and net/url's parser and printer are arguments;
    the last two are a class with its law, a query that is written being read back
    (GoQuery.v has the queries). The session is gomoqt's: whether a dial succeeds and
    how a session ends are inputs of the loop. *)
From S2P Require Import Prelude GoStrings GoTime Base64 TokenPath TokenGrant TokenClaims TokenKey Token.
From S2P Require Import TokenExample GoURL GoQuery Settings Usage AuthVerifier Funnel.

#[local] Open Scope Z_scope.

(** ** What the sources use of other packages *)

Class RelayURLs := {
  url : Type;
  url_Parse : string -> option url;
  Scheme : url -> string;
  url_Host : url -> string;
  Path : url -> string;
  RawQuery : url -> string;
  (** [parsed.RawQuery = q]. *)
  set_RawQuery : string -> url -> url;
  url_String : url -> string
}.

(** A URL printed with a query that [Encode] wrote is read with that query. *)
Class RelayURLLaws `{RelayURLs} := {
  parse_String s u m : url_Parse s = Some u ->
    exists u', url_Parse (url_String (set_RawQuery (Encode m) u)) = Some u' /\ RawQuery u' = Encode m
}.

(** [CertPool.AppendCertsFromPEM] and [tls.LoadX509KeyPair] of two files. *)
Class PEM := { has_certs : string -> bool; LoadX509KeyPair : string -> string -> bool }.

(** The pattern "/" matches every path beneath its root (docs/cli/funnel.md). *)
Class SlashPattern `{Moqt} := {
  slash_matches root pt path : is_directory root -> ParseGrantPattern root "/" = Some pt ->
    HasPrefix path root = true -> Match pt path = true
}.

Section Upstream.
Context `{Moqt} `{Crypto} `{JsonText} `{RelayURLs} `{PEM}.
(** What a file holds, [None] when it cannot be read. *)
Variable ReadFile : string -> option string.

(** ** tlsclient *)

(** The fields of a [tls.Config] the package sets: [RootCAs], the pool read from a
    file or nil for the system's, and the client certificate's two files. *)
Record tlsConfig := mkTLS { RootCAs : option string; InsecureSkipVerify : bool; Certificates : list (string * string) }.

Inductive tls_error := CANotRead | NoCertificates | CertWithoutKey | CertNotLoaded.

Definition loadCAPool (caFile : string) : result tls_error (option string) :=
  if bool_decide (caFile = "") then Ok None
  else
    pem ← of_option CANotRead (ReadFile caFile);
    guard_err (has_certs pem) NoCertificates;;
    Ok (Some pem).

Definition Apply (tc : tlsConfig) (caFile : string) (insecure : bool) : result tls_error tlsConfig :=
  if insecure then Ok (mkTLS tc.(RootCAs) true tc.(Certificates))
  else pool ← loadCAPool caFile; Ok (mkTLS pool tc.(InsecureSkipVerify) tc.(Certificates)).

Definition ApplyClientCert (tc : tlsConfig) (certFile keyFile : string) : result tls_error tlsConfig :=
  if bool_decide (certFile = "") && bool_decide (keyFile = "") then Ok tc
  else
    guard_err (negb (bool_decide (certFile = "") || bool_decide (keyFile = ""))) CertWithoutKey;;
    guard_err (LoadX509KeyPair certFile keyFile) CertNotLoaded;;
    Ok (mkTLS tc.(RootCAs) tc.(InsecureSkipVerify) [(certFile, keyFile)]).

(** ** token: keys read from files *)

Inductive load_error := NotRead | NotParsed (e : key_error).

Definition LoadSigningKey (path : string) : result load_error SigningKey :=
  raw ← of_option NotRead (ReadFile path); map_err NotParsed (ParseSigningKey raw).
Definition LoadKeySet (path : string) : result load_error (gmap string Key) :=
  raw ← of_option NotRead (ReadFile path); map_err NotParsed (ParseKeySet raw).

(** ** relaycred.Sign

    [now0] is when Sign reads the clock, [now1] when token.Sign does, [jti] what the
    latter draws. *)
Definition Sign (key : SigningKey) (g : Grant) (now0 now1 : Time) (jti : string) : result sign_error (string * Time) :=
  let lapses := time_Add now0 MaxLifetime in
  tok ← signAt key g MaxLifetime now1 jti; Ok (tok, lapses).

(** ** The upstream *)

Record Config := mkConfig {
  c_Name : string; c_URL : string; CAFile : string; Insecure : bool; SigningKeyFile : string; c_Publish : string
}.

Record Upstream := mkUpstream { u_name : string; u_url : string; u_tls : tlsConfig; u_key : option SigningKey; u_publish : string }.

Inductive new_error :=
| InvalidURL | RelayTLS (e : tls_error) | SetTogether | BadSigningKey (e : load_error) | BadDirectory (e : path_error)
| Unsignable (e : sign_error).

Definition publishGrant (dir : string) : Grant := mkGrant (mkMoqGrant dir ["/"] [] 0) [] [] [] "".

(** newUpstream, at [now]; [jti] is of the token it signs to see that it can. *)
Definition newUpstream (now : Time) (jti : string) (cfg : Config) : result new_error Upstream :=
  of_option InvalidURL (url_Parse cfg.(c_URL));;
  tc ← map_err RelayTLS (Apply (mkTLS None false []) cfg.(CAFile) cfg.(Insecure));
  let u := mkUpstream cfg.(c_Name) cfg.(c_URL) tc in
  if bool_decide (cfg.(SigningKeyFile) = "") && bool_decide (cfg.(c_Publish) = "") then Ok (u None "")
  else
    guard_err (negb (bool_decide (cfg.(SigningKeyFile) = "") || bool_decide (cfg.(c_Publish) = ""))) SetTogether;;
    key ← map_err BadSigningKey (LoadSigningKey cfg.(SigningKeyFile));
    publish ← map_err BadDirectory (Directory cfg.(c_Publish));
    map_err Unsignable (signAt key (publishGrant publish) MaxLifetime now jti);;
    Ok (u (Some key) publish).

(** FromEnv: nil when no relay is named. *)
Definition FromEnv (Getenv : string -> string) (now : Time) (jti name : string) : result new_error (option Upstream) :=
  let relayURL := env_String Getenv "RELAY_URL" "" in
  if bool_decide (relayURL = "") then Ok None
  else Some <$> newUpstream now jti (mkConfig name relayURL (env_String Getenv "RELAY_CA_FILE" "")
         (bool_decide (env_String Getenv "RELAY_TLS_INSECURE" "false" = "true"))
         (env_String Getenv "RELAY_SIGNING_KEY" "") (env_String Getenv "RELAY_PUBLISH" "")).

Definition PublishBeneath (u : option Upstream) : string := match u with None => "" | Some u => u.(u_publish) end.

Inductive target_error := NotSigned (e : sign_error) | NotURL.

(** target: the URL to dial, and when the credential's grant lapses, [None] for the
    zero time. *)
Definition target (u : Upstream) (now0 now1 : Time) (jti : string) : result target_error (string * option Time) :=
  match u.(u_key) with
  | None => Ok (u.(u_url), None)
  | Some key =>
      '(credential, lapses) ← map_err NotSigned (Sign key (publishGrant u.(u_publish)) now0 now1 jti);
      parsed ← of_option NotURL (url_Parse u.(u_url));
      let query := Set_ "jwt" credential (URL_Query (RawQuery parsed)) in
      Ok (url_String (set_RawQuery (Encode query) parsed), Some lapses)
  end.

(** RelayName, for the banner. *)
Definition RelayName (relayURL : string) : string :=
  if bool_decide (relayURL = "") then "none"
  else match url_Parse relayURL with
       | None => "invalid"
       | Some u => Scheme u +:+ "://" +:+ url_Host u +:+ Path u
       end.

(** ** The loop *)

Definition retryInterval : Duration := 2 * Second.

(** One pass of Run: the clock and the random identifier of the credential, whether
    the dial succeeds, whether the context ends while the session runs (or the
    session ends itself), and whether it has ended at the wait. *)
Record pass := mkPass { p_now0 : Time; p_now1 : Time; p_jti : string; dialed : bool; stopped : bool; over : bool }.

Inductive effect :=
| Dial (target : string) (ok : bool)
| StartKeep (lapses : Time)
| CloseSession
| SessionEnded
| Pause_ (d : Duration).

(** What a pass does, and whether Run returns. *)
Definition run_pass (u : Upstream) (p : pass) : list effect * bool :=
  let wait := if p.(over) then ([], true) else ([Pause_ retryInterval], false) in
  match target u p.(p_now0) p.(p_now1) p.(p_jti) with
  | Err _ => wait
  | Ok (t, lapses) =>
      if p.(dialed) then
        let started := Dial t true :: (match u.(u_key), lapses with Some _, Some l => [StartKeep l] | _, _ => [] end) in
        if p.(stopped) then (started ++ [CloseSession], true) else (started ++ SessionEnded :: wait.1, wait.2)
      else (Dial t false :: wait.1, wait.2)
  end.

Fixpoint Run (u : Upstream) (ps : list pass) : list effect :=
  match ps with
  | [] => []
  | p :: ps' => let '(es, return_) := run_pass u p in es ++ if return_ then [] else Run u ps'
  end.

(** ** One session at a time

    Where a trace of Run is: before a dial, in a session, or where the next thing
    must be the pause. *)
Inductive phase := MayDial | InSession | MustWait.

(** A trace Run may have: one session at a time, the grant of a signed credential
    kept from the session's start, a pause before the next dial, and nothing after
    the session that was running when the publisher stopped is closed. *)
Fixpoint legal (signed : bool) (ph : phase) (es : list effect) : bool :=
  match ph, es with
  | (MayDial | MustWait), [] => true
  | MayDial, Dial _ false :: r => legal signed MustWait r
  | MayDial, Dial _ true :: r =>
      match signed, r with
      | true, StartKeep _ :: r' => legal signed InSession r'
      | false, _ => legal signed InSession r
      | true, _ => false
      end
  | InSession, CloseSession :: r => match r with [] => true | _ => false end
  | InSession, SessionEnded :: r => legal signed MustWait r
  | (MayDial | MustWait), Pause_ d :: r => (d =? retryInterval) && legal signed MayDial r
  | _, _ => false
  end.

Theorem run_one_session u ps : legal (match u.(u_key) with Some _ => true | None => false end) MayDial (Run u ps) = true.
Proof.
  induction ps as [|p ps IH]; [done|]. cbn [Run]. unfold run_pass, target.
  destruct (u_key u) as [key|]; [|by destruct (dialed p), (stopped p), (over p)].
  destruct (map_err _ _) as [[c l]|e]; cbn [mbind result_bind]; [|by destruct (over p)].
  destruct (of_option _ _) as [q|e]; cbn [mbind result_bind]; [|by destruct (over p)].
  by destruct (dialed p), (stopped p), (over p).
Qed.

(** ** What newUpstream has checked *)

(** A signing key is there with the directory, and the grant can be signed with it. *)
Definition ready (u : Upstream) : Prop :=
  match u.(u_key) with
  | None => u.(u_publish) = ""
  | Some key => is_directory u.(u_publish) /\ checked (publishGrant u.(u_publish)) key.(sk_Prefix) = Ok (publishGrant u.(u_publish))
  end /\ is_Some (url_Parse u.(u_url)).

Lemma signAt_checked key g ttl now jti tok : signAt key g ttl now jti = Ok tok -> checked g key.(sk_Prefix) = Ok g.
Proof. unfold signAt. intros Hs. inv_ok. rename select (checked _ _ = Ok _) into Hc. by pose proof (checked_ok _ _ _ Hc) as [-> _]. Qed.

Lemma newUpstream_ready now jti cfg u : newUpstream now jti cfg = Ok u -> ready u.
Proof.
  unfold newUpstream, ready. intros Hn. apply bind_Ok in Hn as (p & Hp%of_option_Ok & Hn). apply bind_Ok in Hn as (tc & _ & Hn).
  case_match.
  - injection Hn as <-. cbn [u_key u_url u_publish]. by rewrite Hp.
  - apply bind_Ok in Hn as ([] & _ & Hn). apply bind_Ok in Hn as (key & _ & Hn). apply bind_Ok in Hn as (dir & Hd%map_err_Ok & Hn).
    apply bind_Ok in Hn as (tok & Hs%map_err_Ok & [= <-]). cbn [u_key u_url u_publish]. rewrite Hp.
    split; [|done]. split; [by eapply Directory_is_directory|by eapply signAt_checked].
Qed.

(** Nothing but the text of the token stands between a configuration that was
    accepted and a credential: no later dial is refused by the key or for the URL. *)
Theorem later_dials_sign now jti cfg u now0 now1 jti' e :
  newUpstream now jti cfg = Ok u -> target u now0 now1 jti' = Err e -> e = NotSigned EncodeFailed.
Proof.
  intros [Hr Hp]%newUpstream_ready Ht. unfold target in Ht. destruct (u_key u) as [key|]; [|done]. destruct Hr as [_ Hc].
  unfold Sign, signAt in Ht. cbn [mbind] in Ht. change (negb ((MaxLifetime <=? 0) || (MaxLifetime <? MaxLifetime))) with true in Ht.
  cbn [guard_err mbind result_bind] in Ht. rewrite Hc in Ht. cbn [map_err mbind result_bind] in Ht.
  destruct (json_print (sign_header key.(sk_ID))) as [hd|]; cbn in Ht; [|congruence].
  destruct (json_print _) as [bd|]; cbn in Ht; [|congruence]. destruct Hp as [p Hp]. by rewrite Hp in Ht.
Qed.

(** ** What the credential grants *)

Definition canonical (path : string) : Prop := normalizePath path = Ok (TrimPrefix path "/").

Context `{!MoqtLaws} `{!SlashPattern}.

(** Publishing, in its canonical spelling, exactly what is beneath the directory. *)
Lemma publishGrant_allows dir prefix path :
  is_directory dir -> checked (publishGrant dir) prefix = Ok (publishGrant dir) ->
  Allows (publishGrant dir) ActionPublish path = true <-> canonical path /\ HasPrefix ("/" +:+ TrimPrefix path "/") dir = true.
Proof.
  intros Hd [_ [_ Hg]]%checked_ok. unfold canonical. split.
  - intros (p & s & pt & Hn & -> & Hs & Hpt & Hm)%Allows_inv. split; [done|].
    by apply (match_beneath_root dir s pt).
  - intros [Hn Hp]. unfold Allows. rewrite Hn. rewrite bool_decide_true by done. cbn [negb Patterns].
    destruct Hg as [[Hr _]|(_ & _ & _ & Hpat)].
    { cbn in Hr. subst dir. done. }
    assert (exists pt, ParseGrantPattern dir "/" = Some pt) as [pt Hpt].
    { pose proof (Hpat ActionPublish "/" ltac:(set_solver) ltac:(set_solver)) as Hc. unfold checkPattern in Hc. cbn in Hc.
      destruct (ParseGrantPattern dir "/") as [pt|]; [by exists pt|done]. }
    change (Patterns (publishGrant dir) ActionPublish) with ["/"]. cbn. rewrite Hpt, orb_false_r. by apply (slash_matches dir pt).
Qed.

Variable int64_oor : float64 -> Z.

(** ** The relay admits its publishers *)

Lemma admitted_by_the_verifier req now v tok keys c :
  req.(Event) = EventConnect -> credentialOf req.(Query) = Ok tok -> v.(store).(set) = Some keys ->
  time_Sub now v.(store).(lastSuccess) <= keysMaxStale -> Verify int64_oor tok keys now = Ok c -> Pauses c.(v_Key) ActionPublish = false ->
  (Authorize int64_oor req now v).1 = Ok (mkAuthGrant c.(v_Grant) revalidateEvery c.(v_Key).(ID) c.(v_ExpiresAt) false).
Proof.
  intros He Hcr Hs Hf Hv Hp. unfold Authorize. rewrite Hcr. cbn [fst]. unfold decide_credential, current. rewrite Hs, He.
  replace (_ <=? keysMaxStale) with true by (symmetry; by apply Z.leb_le). rewrite bool_decide_true by done. cbn [mbind result_bind of_option guard_err negb andb].
  rewrite Hv. cbn [mbind result_bind map_err]. by rewrite Hp.
Qed.

Lemma credentialOf_Set tok m : credentialOf (Encode (Set_ "jwt" tok m)) = Ok tok.
Proof.
  unfold credentialOf. rewrite ParseQuery_Encode. cbn [of_option mbind result_bind].
  rewrite Has_values, Get_values, by_key_values, values_Set, decide_True by done. done.
Qed.

Context `{!RelayURLLaws} `{!CryptoLaws} `{!JsonLaws}.

(** A URL that carries a credential a key has just signed: what it asks of a relay that
    lists the key, unpaused, is admitted while the credential is valid, as the key's,
    for what the credential grants, until the second it lapses in; the rest of its
    query is kept. *)
Lemma signed_url_admitted key g now0 now1 jti tok lapses s p0 id bytes reason v keys k now' :
  Sign key g now0 now1 jti = Ok (tok, lapses) -> url_Parse s = Some p0 ->
  0 <= now0 <= now1 -> now1 + MaxLifetime < 2 ^ 51 * Second -> valid_at now1 MaxLifetime now' -> sane (now' + Leeway) ->
  v.(store).(set) = Some keys -> time_Sub now' v.(store).(lastSuccess) <= keysMaxStale ->
  keys !! key.(sk_ID) = Some k -> k.(Public) = PublicOf key.(Private) -> k.(Prefix) = key.(sk_Prefix) -> Pauses k ActionPublish = false ->
  exists p a, url_Parse (url_String (set_RawQuery (Encode (Set_ "jwt" tok (URL_Query (RawQuery p0)))) p0)) = Some p /\
    (Authorize int64_oor (mkRequest id EventConnect (RawQuery p) bytes reason) now' v).1 = Ok a /\
    a.(keyID) = k.(ID) /\ a.(anonymous) = false /\ a.(grant) = g /\ lapses - Second < a.(expires) <= now1 + MaxLifetime /\
    (forall name, name <> "jwt" -> values name (default [] (ParseQuery (RawQuery p))) = values name (URL_Query (RawQuery p0))).
Proof.
  intros Hsign Hp0 Hnow Hend Hv Hsane Hs Hf Hk Hpub Hpre Hpause.
  unfold Sign in Hsign. apply bind_Ok in Hsign as (tok' & Hsign & [= <- <-]).
  assert (sane (now0 + MaxLifetime)) as Hsl.
  { unfold sane, MaxLifetime, Hour, Minute, Second in *. Z.to_euclidean_division_equations. lia. }
  rewrite time_Add_sane by done.
  destruct (parse_String _ _ (Set_ "jwt" tok' (URL_Query (RawQuery p0))) Hp0) as (p & Hp & Hq).
  pose proof (Verify_Sign int64_oor key g MaxLifetime now1 jti tok' keys k now' ltac:(lia) Hend
    ltac:(unfold MaxLifetime, Hour, Minute, Second; lia) Hv Hsane Hk Hpub Hpre Hsign) as Hver.
  eexists p, _. split; [done|]. split.
  { eapply admitted_by_the_verifier; [done| |exact Hs|exact Hf|exact Hver|exact Hpause]. cbn [Query]. rewrite Hq. apply credentialOf_Set. }
  cbn [keyID anonymous expires grant v_Key v_Grant v_ExpiresAt]. split; [done|]. split; [done|]. split; [done|]. split.
  { unfold MaxLifetime, Hour, Minute, Second in *. Z.to_euclidean_division_equations. lia. }
  intros name Hname. rewrite Hq, ParseQuery_Encode. etrans; [apply by_key_values|]. rewrite values_Set. by rewrite decide_False.
Qed.

(** C26: Once newUpstream has accepted a configuration with a signing key, what each dial
    asks of a relay that lists that key, unpaused, is admitted while the credential is
    valid: the session is the key's, for an hour but for the second it was signed in,
    the rest of the URL's query is kept, and it may publish exactly what is beneath
    the configured directory. *)
Theorem publisher_admitted cfg now jti u key now0 now1 jti' t lapses id bytes reason v keys k now' :
  newUpstream now jti cfg = Ok u -> u.(u_key) = Some key -> target u now0 now1 jti' = Ok (t, Some lapses) ->
  0 <= now0 <= now1 -> now1 + MaxLifetime < 2 ^ 51 * Second -> valid_at now1 MaxLifetime now' -> sane (now' + Leeway) ->
  v.(store).(set) = Some keys -> time_Sub now' v.(store).(lastSuccess) <= keysMaxStale ->
  keys !! key.(sk_ID) = Some k -> k.(Public) = PublicOf key.(Private) -> k.(Prefix) = key.(sk_Prefix) -> Pauses k ActionPublish = false ->
  exists p0 p g, url_Parse u.(u_url) = Some p0 /\ url_Parse t = Some p /\
    (Authorize int64_oor (mkRequest id EventConnect (RawQuery p) bytes reason) now' v).1 = Ok g /\
    g.(keyID) = k.(ID) /\ g.(anonymous) = false /\ lapses - Second < g.(expires) <= now1 + MaxLifetime /\
    (forall name, name <> "jwt" -> values name (default [] (ParseQuery (RawQuery p))) = values name (URL_Query (RawQuery p0))) /\
    forall path, Allows g.(grant) ActionPublish path = true <->
      canonical path /\ HasPrefix ("/" +:+ TrimPrefix path "/") u.(u_publish) = true.
Proof.
  intros Hn Hkey Ht. intros. destruct (newUpstream_ready _ _ _ _ Hn) as [Hr _].
  rewrite Hkey in Hr. destruct Hr as [Hd Hc]. unfold target in Ht. rewrite Hkey in Ht.
  apply bind_Ok in Ht as ([tok l] & Hsign%map_err_Ok & Ht). apply bind_Ok in Ht as (p0 & Hp0%of_option_Ok & [= <- <-]).
  edestruct (signed_url_admitted key) as (p & a & Hp & Ha & Hid & Han & Hg & Hl & Hrest); [exact Hsign|exact Hp0|try eassumption..].
  exists p0, p, a. rewrite Hg. split_and!; try done; [by apply Hl..|]. intros path. by eapply publishGrant_allows.
Qed.

(** What the funnel accepts to open, it can publish: a track its check lets an
    application create is one the funnel's own credential lets it publish. *)
Theorem created_is_publishable cfg now jti u key v chk now' header t sender :
  newUpstream now jti cfg = Ok u -> u.(u_key) = Some key ->
  handler_check int64_oor (Some v) (PublishBeneath (Some u)) = Some chk -> chk now' header t CreateAccess = Ok sender ->
  Allows (publishGrant u.(u_publish)) ActionPublish t.(BroadcastPath) = true.
Proof.
  intros Hn Hkey Hchk Hc. destruct (newUpstream_ready _ _ _ _ Hn) as [Hr _]. rewrite Hkey in Hr. destruct Hr as [Hd Hcg].
  unfold handler_check in Hchk. destruct (authorizer int64_oor (Some v)) as [a|] eqn:Ha; [|done].
  apply (publishedBeneath_iff _ _ _ _ _ _ _ _ Hchk) in Hc as [Hb Hc].
  apply (authorizer_iff _ _ _ _ _ _ _ _ Ha) in Hc as (cr & action & named & c & _ & [= <- <-] & (ks & _ & _ & _ & Hal & _) & _).
  apply Allows_inv in Hal as (p & s & pt & Hp & -> & _).
  apply (publishGrant_allows _ _ _ Hd Hcg). split; [done|]. cbn [PublishBeneath] in Hb.
  destruct (Hb eq_refl) as [He|(root & Hroot & Hpre)]; [by rewrite He in Hd|]. unfold is_directory in Hd. rewrite Hd in Hroot. injection Hroot as <-.
  assert (HasPrefix (BroadcastPath t) "/" = true) as [r Hr]%HasPrefix_spec.
  { eapply HasPrefix_trans; [exact Hpre|]. apply is_directory_spec in Hd as [-> _]. destruct (segments (u_publish u)); [done|].
    rewrite dir_of_cons. apply HasPrefix_app. }
  rewrite Hr in *. by rewrite TrimPrefix_app.
Qed.
End Upstream.

(** ** A publisher and its relay

    The key of TokenExample.v, in a file; a URL whose query is all that is looked
    at. The codec writes and reads the documents of the example. *)
Section Example_.
#[local] Existing Instances literal_moqt literal_laws toy_crypto toy_crypto_laws.

#[local] Instance literal_slash : SlashPattern.
Proof. constructor. intros root pt path _ [= <-] Hp. cbn. unfold literal_match. cbn. by rewrite sapp_nil_r. Qed.

Fixpoint cut_query (s : string) : string * string :=
  match s with
  | EmptyString => ("", "")
  | String "?" s' => ("", s')
  | String c s' => let '(a, b) := cut_query s' in (String c a, b)
  end.

#[local] Instance query_urls : RelayURLs := {|
  url := string * string;
  url_Parse s := Some (cut_query s);
  Scheme _ := "https"; url_Host _ := "relay:4433"; Path _ := "/";
  RawQuery := snd;
  set_RawQuery q u := (u.1, q);
  url_String u := if bool_decide (u.2 = "") then u.1 else u.1 +:+ "?" +:+ u.2
|}.

Lemma cut_query_clean s : clean "?"%char (cut_query s).1.
Proof.
  unfold clean. induction s as [|c s IH]; [done|]. destruct (decide (c = "?"%char)) as [->|Hc]; [done|].
  assert (cut_query (String c s) = (String c (cut_query s).1, (cut_query s).2)) as ->.
  { cbn. destruct (cut_query s). each_byte c; done. }
  cbn. rewrite bool_decide_false by done. exact IH.
Qed.

Lemma cut_query_app a q : clean "?"%char a -> cut_query (a +:+ "?" +:+ q) = (a, q) /\ cut_query a = (a, "").
Proof.
  unfold clean. induction a as [|c a IH]; [done|]. cbn [mem_char]. intros [Hc Ha]%orb_false_iff. apply bool_decide_eq_false in Hc.
  destruct (IH Ha) as [IH1 IH2]. rewrite sapp_cons. each_byte c; cbn; rewrite ?IH1, ?IH2; done.
Qed.

#[local] Instance query_url_laws : RelayURLLaws.
Proof.
  constructor. intros s u m [= <-]. cbn. eexists. split; [reflexivity|].
  destruct (cut_query_app (cut_query s).1 (Encode m) (cut_query_clean s)) as [H1 H2].
  case_bool_decide as He; [by rewrite H2, He|by rewrite H1].
Qed.

#[local] Instance no_pem : PEM := {| has_certs _ := false; LoadX509KeyPair _ _ := false |}.

Definition publish_claims : json := of_claims (sign_claims (publishGrant "/acme/room/") MaxLifetime signed_at "jti").
Definition key_doc : json :=
  of_jwk (mkJwk "OKP" "Ed25519" (EncodeToString acme_priv) (EncodeToString acme_priv) (thumbprint acme_priv) "/acme/" []).

#[local] Instance docs_json : JsonText := {|
  json_parse s :=
    if bool_decide (s = "header") then Some header_doc
    else if bool_decide (s = "claims") then Some publish_claims
    else if bool_decide (s = "key") then Some key_doc else None;
  json_print v :=
    if json_dec v header_doc then Some "header"
    else if json_dec v publish_claims then Some "claims"
    else if json_dec v key_doc then Some "key" else None
|}.

#[local] Instance docs_json_laws : JsonLaws.
Proof.
  constructor. intros v t. cbn [json_print json_parse docs_json].
  destruct (json_dec v header_doc) as [->|]; [by intros [= <-]|].
  destruct (json_dec v publish_claims) as [->|]; [by intros [= <-]|].
  destruct (json_dec v key_doc) as [->|]; [by intros [= <-]|done].
Qed.

Definition key_file (path : string) : option string := if bool_decide (path = "key.jwk") then Some "key" else None.
Definition room_config : Config := mkConfig "funnel" "https://relay:4433/?region=eu&jwt=old" "" false "key.jwk" "acme/room".
Definition room_upstream : Upstream :=
  mkUpstream "funnel" "https://relay:4433/?region=eu&jwt=old" (mkTLS None false []) (Some acme_key) "/acme/room/".
Definition acme_verifier_ : Verifier := mkVerifier (mkStore (Some acme_keys) signed_at) None.

Example room_upstream_new : newUpstream key_file signed_at "jti" room_config = Ok room_upstream.
Proof. vm_compute. reflexivity. Qed.

Definition room_target : string := match target room_upstream signed_at signed_at "jti" with Ok (t, _) => t | Err _ => "" end.

Lemma publisher_admitted_witness : exists p0 p g, url_Parse room_upstream.(u_url) = Some p0 /\ url_Parse room_target = Some p /\
  (Authorize oor (mkRequest "id" EventConnect (RawQuery p) (mkBytes 0 0) "") signed_at acme_verifier_).1 = Ok g /\
  g.(keyID) = acme_public.(ID) /\ g.(anonymous) = false /\
  signed_at + MaxLifetime - Second < g.(expires) <= signed_at + MaxLifetime /\
  (forall name, name <> "jwt" -> values name (default [] (ParseQuery (RawQuery p))) = values name (URL_Query (RawQuery p0))) /\
  forall path, Allows g.(grant) ActionPublish path = true <->
    canonical path /\ HasPrefix ("/" +:+ TrimPrefix path "/") "/acme/room/" = true.
Proof.
  apply (publisher_admitted key_file oor room_config signed_at "jti" room_upstream acme_key signed_at signed_at "jti" room_target
    (signed_at + MaxLifetime) "id" (mkBytes 0 0) "" acme_verifier_ acme_keys acme_public signed_at).
  - exact room_upstream_new.
  - reflexivity.
  - vm_compute. reflexivity.
  - by vm_compute.
  - by vm_compute.
  - by vm_compute.
  - by vm_compute.
  - reflexivity.
  - by vm_compute.
  - vm_compute. reflexivity.
  - reflexivity.
  - reflexivity.
  - reflexivity.
Defined.
End Example_.
