(* ===== verification/TlsSplit.v ===== *)
(** * TlsSplit: one port for TLS and for plain HTTP

    src/internal/relay/tls_split.go: the goroutine that accepts connections, one
    goroutine per connection that reads its first byte and hands it to a listener,
    the two listeners and their close. A step is one operation of a goroutine: an
    Accept's return, a Read's return, a case of a select, a channel's close. What the
    host's Accept returns, what a client sends and when, and when the servers call
    Accept or Close is the environment's. *)
From S2P Require Import Prelude GoBytes GoTime.

#[local] Open Scope Z_scope.

(** ** State *)

Definition tlsRecordHandshake : Z := 0x16.
Definition sniffTimeout : Duration := 5 * Second.
Definition maxPause : Duration := Second.
Definition minPause : Duration := 5 * Millisecond.

(** The two listeners. *)
Inductive side := TLS | Plain.

#[export] Instance side_eq_dec : EqDecision side.
Proof. solve_decision. Defined.

(** Where a connection is: its route reads the first byte, of the bytes the client
    sends; its route is at the select, the byte read and the rest on the connection;
    a listener's Accept returned it; it is closed. *)
Inductive conn := Sniff (stream : bytes) | Ready (first : Z) (rest : bytes) | Handed (to : side) (first : Z) (rest : bytes) | Dropped.

(** Where accept is: at ln.Accept, at the select on its timer, in close, gone. *)
Inductive apc := AtAccept (pause : Duration) | AtPause (pause : Duration) | AtClose | Returned.

(** closeOnce: not called, between its two statements, done. *)
Inductive once := NotYet | Closing | Done_.

(** [waiting] are the calls of Accept that wait, by listener. *)
Record splitter := mkSplit {
  listening : bool; closed : bool; closeOnce : once; accepting : apc; conns : list conn; waiting : side -> nat
}.

Definition splitTLS : splitter := mkSplit true false NotYet (AtAccept minPause) [] (fun _ => 0%nat).

Definition with_accepting (a : apc) (s : splitter) : splitter :=
  mkSplit s.(listening) s.(closed) s.(closeOnce) a s.(conns) s.(waiting).
Definition with_conns (l : list conn) (s : splitter) : splitter :=
  mkSplit s.(listening) s.(closed) s.(closeOnce) s.(accepting) l s.(waiting).
Definition with_waiting (to : side) (f : nat -> nat) (s : splitter) : splitter :=
  mkSplit s.(listening) s.(closed) s.(closeOnce) s.(accepting) s.(conns)
    (fun x => if decide (x = to) then f (s.(waiting) x) else s.(waiting) x).

(** ** Operations *)

(** What ln.Accept returns. *)
Inductive accepted := Conn (stream : bytes) | ErrClosed | OtherErr.

(** The next operation of accept: [a] is what ln.Accept returns, [timer] whether the
    select's timer is taken. *)
Definition accept (a : accepted) (timer : bool) (s : splitter) : option splitter :=
  match s.(accepting) with
  | AtAccept pause =>
      match a with
      | Conn stream => if s.(listening) then Some (with_accepting (AtAccept minPause) (with_conns (s.(conns) ++ [Sniff stream]) s)) else None
      | ErrClosed => if s.(listening) then None else Some (with_accepting AtClose s)
      | OtherErr => if s.(listening) then Some (with_accepting (AtPause pause) s) else None
      end
  | AtPause pause =>
      if timer then Some (with_accepting (AtAccept (Z.min (2 * pause) maxPause)) s)
      else if s.(closed) then Some (with_accepting Returned s) else None
  | AtClose => match s.(closeOnce) with Done_ => Some (with_accepting Returned s) | _ => None end
  | Returned => None
  end.

(** close, by a listener or by accept: the body of closeOnce, statement by statement. *)
Definition close (s : splitter) : option splitter :=
  match s.(closeOnce) with
  | NotYet => Some (mkSplit s.(listening) true Closing s.(accepting) s.(conns) s.(waiting))
  | Closing => Some (mkSplit false s.(closed) Done_ s.(accepting) s.(conns) s.(waiting))
  | Done_ => None
  end.

Definition side_of (first : Z) : side := if first =? tlsRecordHandshake then TLS else Plain.

(** The next operation of connection [i]'s route: the Read of the first byte returns,
    with [byte] or else with an error or the deadline; the select's case [hand], for
    which a listener's Accept must be waiting, or the other. *)
Definition route (i : nat) (byte hand : bool) (s : splitter) : option splitter :=
  match s.(conns) !! i with
  | Some (Sniff stream) =>
      if byte then
        match stream with
        | b :: rest => Some (with_conns (<[i := Ready b rest]> s.(conns)) s)
        | [] => None
        end
      else Some (with_conns (<[i := Dropped]> s.(conns)) s)
  | Some (Ready b rest) =>
      let to := side_of b in
      if hand then
        match s.(waiting) to with
        | S _ => Some (with_waiting to Nat.pred (with_conns (<[i := Handed to b rest]> s.(conns)) s))
        | O => None
        end
      else if s.(closed) then Some (with_conns (<[i := Dropped]> s.(conns)) s) else None
  | _ => None
  end.

(** A listener's Accept is called; a waiting one returns that it is closed. *)
Definition listener_Accept (to : side) (s : splitter) : splitter := with_waiting to S s.
Definition listener_closed (to : side) (s : splitter) : option splitter :=
  match s.(waiting) to with
  | S _ => if s.(closed) then Some (with_waiting to Nat.pred s) else None
  | O => None
  end.

Inductive label :=
| LAccept (a : accepted) (timer : bool)
| LClose
| LRoute (i : nat) (byte hand : bool)
| LListen (to : side)
| LListenClosed (to : side)
| LHostClosed.

Definition step (l : label) (s : splitter) : option splitter :=
  match l with
  | LAccept a timer => accept a timer s
  | LClose => close s
  | LRoute i byte hand => route i byte hand s
  | LListen to => Some (listener_Accept to s)
  | LListenClosed to => listener_closed to s
  | LHostClosed => Some (mkSplit false s.(closed) s.(closeOnce) s.(accepting) s.(conns) s.(waiting))
  end.

Definition sstep (s s' : splitter) : Prop := exists l, step l s = Some s'.
Definition reachable : splitter -> Prop := rtc sstep splitTLS.

(** prefixedConn: what Read returns for a buffer of [n] bytes, when the connection
    returns [k] of its own. *)
Record prefixedConn := mkPrefixed { prefix_ : bytes; Conn_ : bytes }.
Definition Read (n k : nat) (c : prefixedConn) : bytes * prefixedConn :=
  match c.(prefix_) with
  | _ :: _ => (take n c.(prefix_), mkPrefixed (drop n c.(prefix_)) c.(Conn_))
  | [] => (take (min n k) c.(Conn_), mkPrefixed [] (drop (min n k) c.(Conn_)))
  end.
Fixpoint reads (ns : list (nat * nat)) (c : prefixedConn) : bytes * prefixedConn :=
  match ns with
  | [] => ([], c)
  | (n, k) :: t => let '(b, c1) := Read n k c in let '(rest, c2) := reads t c1 in (b ++ rest, c2)
  end.

(** ** Every connection goes where its first byte says, or is closed *)

(** The bytes a client sent, where they are known. *)
Definition sent (c : conn) : option bytes :=
  match c with Sniff stream => Some stream | Ready b rest | Handed _ b rest => Some (b :: rest) | Dropped => None end.

Lemma accept_keeps a timer s s' i c : accept a timer s = Some s' -> s.(conns) !! i = Some c -> s'.(conns) !! i = Some c.
Proof.
  unfold accept. intros Ha Hc. repeat case_match; try discriminate; injection Ha as <-; cbn; try done. by apply lookup_app_l_Some.
Qed.

Lemma close_conns s s' : close s = Some s' -> s'.(conns) = s.(conns).
Proof. unfold close. repeat case_match; intros [= <-]; done. Qed.

(** What may become of a connection in a step. *)
Definition moves (c c' : conn) : Prop :=
  c' = c \/
  match c, c' with
  | Sniff stream, Ready b rest => stream = b :: rest
  | Sniff _, Dropped | Ready _ _, Dropped => True
  | Ready b rest, Handed to b' rest' => to = side_of b /\ b' = b /\ rest' = rest
  | _, _ => False
  end.

Lemma route_moves i byte hand s s' j c : route i byte hand s = Some s' -> s.(conns) !! j = Some c ->
  exists c', s'.(conns) !! j = Some c' /\ moves c c'.
Proof.
  unfold route. intros Hr Hc. pose proof (lookup_lt_Some _ _ _ Hc) as Hl.
  destruct (conns s !! i) as [ci|] eqn:Hi; [|done].
  assert (forall x, moves ci x -> exists c', <[i := x]> (conns s) !! j = Some c' /\ moves c c') as Hins.
  { intros x Hx. destruct (decide (i = j)) as [<-|Hij].
    - exists x. rewrite list_lookup_insert_eq by done. split; [done|congruence].
    - exists c. rewrite list_lookup_insert_ne by done. split; [done|by left]. }
  destruct ci as [stream|b rest|to b rest|]; try done.
  - destruct byte; [destruct stream as [|b rest]; [done|]|]; injection Hr as <-; cbn; apply Hins; by right.
  - destruct hand; [destruct (waiting s (side_of b)); [done|]|destruct (closed s); [|done]]; injection Hr as <-; cbn; apply Hins; by right.
Qed.

Lemma step_moves s s' i c : sstep s s' -> s.(conns) !! i = Some c -> exists c', s'.(conns) !! i = Some c' /\ moves c c'.
Proof.
  intros [l Hs] Hc. destruct l as [a timer| |j byte hand|to|to|]; cbn in Hs.
  - exists c. split; [by eapply accept_keeps|by left].
  - exists c. rewrite (close_conns _ _ Hs). split; [done|by left].
  - by eapply route_moves.
  - injection Hs as <-. exists c. split; [done|by left].
  - unfold listener_closed in Hs. repeat case_match; try discriminate. injection Hs as <-. exists c. split; [done|by left].
  - injection Hs as <-. exists c. split; [done|by left].
Qed.

(** A connection that is past its first byte went by it. *)
Definition rightly (c : conn) : Prop := match c with Handed to b _ => to = side_of b | _ => True end.

Lemma moves_rightly c c' : moves c c' -> rightly c -> rightly c'.
Proof. intros [->|Hm] Hc; [done|]. destruct c, c'; cbn in *; naive_solver. Qed.

Definition still (stream : bytes) (c : conn) : Prop := sent c = Some stream \/ c = Dropped.

Lemma moves_still stream c c' : moves c c' -> still stream c -> still stream c'.
Proof.
  intros [->|Hm] [Hc| ->]; [by left|by right| |done]. unfold still. destruct c, c'; cbn in *; naive_solver.
Qed.

(** What a connection keeps through its moves, it keeps. *)
Lemma steps_keep (P : conn -> Prop) s s' i c :
  (forall c c', moves c c' -> P c -> P c') -> rtc sstep s s' -> s.(conns) !! i = Some c -> P c ->
  exists c', s'.(conns) !! i = Some c' /\ P c'.
Proof.
  intros HP Hr. revert c. induction Hr as [s|s s1 s2 Hs Hr IH]; intros c Hc Hp; [by exists c|].
  destruct (step_moves _ _ _ _ Hs Hc) as (c1 & Hc1 & Hm). apply (IH c1 Hc1). by eapply HP.
Qed.

(** Where a connection's way ends. *)
Definition ended (c : conn) : bool := match c with Handed _ _ _ | Dropped => true | _ => false end.

Lemma ended_stays s s' i c : ended c = true -> s.(conns) !! i = Some c -> rtc sstep s s' -> s'.(conns) !! i = Some c.
Proof.
  intros He Hc Hr. destruct (steps_keep (fun x => x = c) s s' i c) as (c' & Hc' & ->); try done.
  intros x x' [->|Hm] Hx; [done|]. subst x. by destruct c, x'.
Qed.

(** From its accept on, whatever else happens, a connection's bytes reach a listener
    whole and unread, the one its first byte says, and once; or it is closed. *)
Theorem routed_by_first_byte s s' i stream :
  s.(conns) !! i = Some (Sniff stream) -> rtc sstep s s' ->
  exists c, s'.(conns) !! i = Some c /\
    match c with
    | Sniff stream' => stream' = stream
    | Ready b rest => stream = b :: rest
    | Handed to b rest => stream = b :: rest /\ (to = TLS <-> b = tlsRecordHandshake) /\
        forall s'', rtc sstep s' s'' -> s''.(conns) !! i = Some c
    | Dropped => forall s'', rtc sstep s' s'' -> s''.(conns) !! i = Some Dropped
    end.
Proof.
  intros Hi Hr.
  destruct (steps_keep (fun c => still stream c /\ rightly c) s s' i (Sniff stream)) as (c & Hc & Hst & Hri); try done.
  { intros c c' Hm [??]. split; [by eapply moves_still|by eapply moves_rightly]. }
  { split; [by left|done]. }
  exists c. split; [done|]. destruct c as [stream'|b rest|to b rest|].
  - by destruct Hst as [[= ->]|].
  - by destruct Hst as [[= <-]|].
  - destruct Hst as [[= <-]|]; [|done]. cbn in Hri. split; [done|]. split; [|intros; by eapply ended_stays].
    subst to. unfold side_of. destruct (Z.eqb_spec b tlsRecordHandshake); naive_solver.
  - intros. by eapply ended_stays.
Qed.

(** ** Closing leaves nothing behind *)

Definition drop_conn (c : conn) : conn := if ended c then c else Dropped.

Lemma with_conns_id s : with_conns s.(conns) s = s.
Proof. by destruct s. Qed.

Lemma drop_one s i c : s.(closed) = true -> s.(conns) !! i = Some c -> rtc sstep s (with_conns (<[i := drop_conn c]> s.(conns)) s).
Proof.
  intros Hcl Hc. unfold drop_conn. destruct (ended c) eqn:He; [by rewrite list_insert_id, with_conns_id|].
  apply rtc_once. exists (LRoute i false false). cbn. unfold route. rewrite Hc. destruct c; try done. by rewrite Hcl.
Qed.

Lemma drop_first s n : s.(closed) = true -> (n <= length s.(conns))%nat ->
  rtc sstep s (with_conns ((drop_conn <$> take n s.(conns)) ++ drop n s.(conns)) s).
Proof.
  intros Hcl. induction n as [|n IH]; intros Hn; [replace (with_conns _ s) with s; [done|by destruct s]|].
  etrans; [apply IH; lia|]. destruct (lookup_lt_is_Some_2 s.(conns) n) as [c Hc]; [lia|].
  set (s1 := with_conns _ _). assert (length (drop_conn <$> take n s.(conns)) = n) as Hl by (rewrite length_fmap, length_take; lia).
  assert (s1.(conns) !! n = Some c) as Hc1.
  { subst s1. cbn. rewrite lookup_app_r by lia. by rewrite Hl, Nat.sub_diag, lookup_drop, Nat.add_0_r. }
  pose proof (drop_one s1 n c Hcl Hc1) as Hr. replace (with_conns _ s) with (with_conns (<[n := drop_conn c]> s1.(conns)) s1); [done|].
  subst s1. unfold with_conns. cbn. f_equal. rewrite (take_S_r _ _ _ Hc), fmap_app, (drop_S _ _ _ Hc). cbn.
  rewrite insert_app_r_alt by lia. rewrite Hl, Nat.sub_diag. cbn. by rewrite <- app_assoc.
Qed.

(** The pause of accept, and what closeOnce has done. *)
Record inv (s : splitter) : Prop := {
  i_pause p : s.(accepting) = AtAccept p \/ s.(accepting) = AtPause p -> minPause <= p <= maxPause;
  i_closed : s.(closed) = true -> s.(closeOnce) <> NotYet;
  i_done : s.(closeOnce) = Done_ -> s.(listening) = false
}.

Local Ltac kept := first [done | congruence | naive_solver].

Lemma split_inv s : reachable s -> inv s.
Proof.
  intros Hr. assert (forall s s', rtc sstep s s' -> inv s -> inv s') as H.
  { clear. intros s s' Hr Hi. induction Hr as [|s s1 s2 [l Hl] Hr IH]; [done|]. apply IH. destruct Hi as [Hp Hc Hd]. clear IH Hr.
    destruct l as [a timer| |j byte hand|to|to|]; cbn in Hl.
    - unfold accept in Hl. repeat case_match; try discriminate; injection Hl as <-; split; cbn.
      all: lazymatch goal with
        | |- forall p, _ \/ _ -> _ => intros p [Hx|Hx]; try discriminate Hx; injection Hx as <-; unfold minPause, maxPause, Millisecond, Second in *; try lia
        | |- _ => intros; first [by apply Hc | congruence | naive_solver]
        end.
      all: first [pose proof (Hp _ (or_introl eq_refl)) | pose proof (Hp _ (or_intror eq_refl))]; lia.
    - unfold close in Hl. repeat case_match; try discriminate; injection Hl as <-; split; cbn; intros; kept.
    - unfold route in Hl. repeat case_match; try discriminate; injection Hl as <-; split; cbn; intros; kept.
    - injection Hl as <-. split; cbn; intros; kept.
    - unfold listener_closed in Hl. repeat case_match; try discriminate. injection Hl as <-. split; cbn; intros; kept.
    - injection Hl as <-. split; cbn; intros; kept. }
  eapply H; [exact Hr|]. split; cbn; try done. intros p [[= <-]|[=]]. unfold minPause, maxPause, Millisecond, Second. lia.
Qed.

Lemma accept_returns s : s.(closed) = true -> s.(closeOnce) = Done_ -> s.(listening) = false ->
  rtc sstep s (with_accepting Returned s).
Proof.
  intros Hc Hd Hl. destruct (accepting s) as [p|p| |] eqn:Ha.
  - eapply rtc_l; [exists (LAccept ErrClosed false); cbn; unfold accept; by rewrite Ha, Hl|]. apply rtc_once.
    exists (LAccept ErrClosed false). cbn. unfold accept. cbn. by rewrite Hd.
  - apply rtc_once. exists (LAccept ErrClosed false). cbn. unfold accept. by rewrite Ha, Hc.
  - apply rtc_once. exists (LAccept ErrClosed false). cbn. unfold accept. by rewrite Ha, Hd.
  - replace (with_accepting Returned s) with s; [done|]. destruct s. cbn in Ha. by subst.
Qed.

(** Once a listener, or accept, has called close, the goroutines can all end, waiting
    for no client and no server: every connection then has been handed to a listener
    or closed, the port is closed and accept has returned. *)
Theorem close_leaves_nothing s : reachable s -> s.(closed) = true ->
  exists s', rtc sstep s s' /\ s'.(conns) = drop_conn <$> s.(conns) /\ Forall (fun c => ended c = true) s'.(conns) /\
    s'.(accepting) = Returned /\ s'.(listening) = false.
Proof.
  intros [_ Hcn Hdn]%split_inv Hcl.
  assert (exists s1, rtc sstep s s1 /\ s1.(closed) = true /\ s1.(closeOnce) = Done_ /\ s1.(listening) = false /\ s1.(conns) = s.(conns))
    as (s1 & Hr1 & Hc1 & Hd1 & Hl1 & He1).
  { destruct (closeOnce s) eqn:Ho; [by destruct (Hcn Hcl)| |exists s; split_and!; by auto using rtc_refl].
    eexists. split; [apply rtc_once; exists LClose; cbn; unfold close; by rewrite Ho|]. done. }
  pose proof (drop_first s1 (length s1.(conns)) Hc1 ltac:(lia)) as Hr2. rewrite firstn_all, drop_all, app_nil_r in Hr2.
  eexists. split; [etrans; [exact Hr1|]; etrans; [exact Hr2|]; by apply accept_returns|]. cbn. rewrite He1. split; [done|]. split; [|done].
  apply Forall_fmap, Forall_true. intros c. unfold compose, drop_conn. by destruct (ended c) eqn:?.
Qed.

(** Nor can a route run for long: each of its operations moves a connection forward. *)
Definition steps_left (c : conn) : nat := match c with Sniff _ => 2 | Ready _ _ => 1 | _ => 0 end.

Theorem route_ends i byte hand s s' : route i byte hand s = Some s' ->
  (sum_list_with steps_left s'.(conns) < sum_list_with steps_left s.(conns))%nat.
Proof.
  unfold route. intros Hr. destruct (conns s !! i) as [c|] eqn:Hc; [|done].
  assert (forall x, (steps_left x < steps_left c)%nat -> (sum_list_with steps_left (<[i := x]> (conns s)) < sum_list_with steps_left (conns s))%nat) as Hlt.
  { intros x Hx. rewrite <- (take_drop_middle _ _ _ Hc) at 2. rewrite insert_take_drop by (by eapply lookup_lt_Some).
    rewrite !sum_list_with_app. cbn. lia. }
  repeat case_match; try discriminate; injection Hr as <-; cbn; apply Hlt; cbn; lia.
Qed.

(** accept is never paused for more than a second, nor less than five milliseconds. *)
Theorem accept_pauses_bounded s p : reachable s -> s.(accepting) = AtPause p -> 5 * Millisecond <= p <= Second.
Proof. intros [Hp _ _]%split_inv Ha. apply Hp. by right. Qed.

(** ** The byte that was read is read again *)

(** Whatever sizes a server reads in, the bytes it gets are the client's from the first
    one on. *)
Theorem prefixed_reads_stream ns p rest b c : reads ns (mkPrefixed p rest) = (b, c) -> b ++ c.(prefix_) ++ c.(Conn_) = p ++ rest.
Proof.
  revert p rest b c. induction ns as [|[n k] ns IH]; intros p rest b c; cbn [reads]; [by intros [= <- <-]|].
  destruct (Read n k _) as [b1 c1] eqn:H1. destruct (reads ns c1) as [b2 c2] eqn:H2. intros [= <- <-]. destruct c1 as [p1 r1].
  apply IH in H2. rewrite <- app_assoc, H2. unfold Read in H1. cbn [prefix_ Conn_] in H1. destruct p as [|x p]; injection H1 as <- <- <-.
  - cbn. by rewrite take_drop.
  - by rewrite app_assoc, take_drop.
Qed.

(** Two connections arrive, the second sends its first byte before the first does and
    waits for its server; then the port is closed under a third. *)
Fixpoint run (ls : list label) (s : splitter) : option splitter :=
  match ls with [] => Some s | l :: t => step l s ≫= run t end.

Definition three_clients : list label :=
  [LAccept (Conn [22; 3; 1]) false; LAccept (Conn [71; 69; 84]) false; LRoute 1 true false; LListen TLS; LRoute 0 true false;
   LRoute 0 false true; LListen Plain; LRoute 1 false true; LAccept OtherErr false; LAccept OtherErr true; LAccept (Conn [22]) false;
   LRoute 2 true false; LClose; LRoute 2 false false; LClose; LAccept ErrClosed false; LAccept ErrClosed false].

Example three_clients_routed : (fun s => (s.(conns), s.(accepting), s.(listening))) <$> run three_clients splitTLS =
  Some ([Handed TLS 22 [3; 1]; Handed Plain 71 [69; 84]; Dropped], Returned, false).
Proof. vm_compute. reflexivity. Qed.
