(* ===== verification/Stats.v ===== *)
(** * Stats: the sampler of the relay's gauges

    src/internal/relay/stats.go, with what server.go and handler.go do around it: who
    registers a connection, a session or a track, samples it a first time and
    deregisters it, and the one goroutine that sweeps the registries and deletes the
    series of what has left. A step is one operation on a shared object: a sync.Map's
    Store or Delete, the visit of one entry by Range, a slice's append under its lock, a
    sample, the Load of a deletion and its deletes. What the statistics are is the
    environment's. A [sync.Map]'s Range visits a key once at most, with any value the key
    had while the call ran, and visits every key that was there all along. *)
From S2P Require Import Prelude GoTime.
From S2P Require GroupRing.

#[local] Open Scope Z_scope.

(** ** State *)

Definition statsSamplerInterval : Duration := 10 * Second.

(** The three registries, in the order a sweep takes them. *)
Inductive registry := RConns | RSessions | RTracks.

Inductive metric :=
| ConnSmoothedRTT | ConnPacketLossRate
| SessionRTTMilliseconds | SessionRTTHistogram | SessionEstimatedBitrate
| BufferDepthGroups.

#[export] Instance registry_eq_dec : EqDecision registry.
Proof. solve_decision. Defined.
#[export] Instance metric_eq_dec : EqDecision metric.
Proof. solve_decision. Defined.
#[export] Instance registry_countable : Countable registry.
Proof.
  refine (inj_countable' (fun r => match r with RConns => 0%nat | RSessions => 1%nat | RTracks => 2%nat end)
    (fun n => match n with 0%nat => RConns | 1%nat => RSessions | _ => RTracks end) _); by intros [].
Defined.
#[export] Instance metric_countable : Countable metric.
Proof.
  refine (inj_countable' (fun m => match m with ConnSmoothedRTT => 0%nat | ConnPacketLossRate => 1%nat | SessionRTTMilliseconds => 2%nat
      | SessionRTTHistogram => 3%nat | SessionEstimatedBitrate => 4%nat | BufferDepthGroups => 5%nat end)
    (fun n => match n with 0%nat => ConnSmoothedRTT | 1%nat => ConnPacketLossRate | 2%nat => SessionRTTMilliseconds
      | 3%nat => SessionRTTHistogram | 4%nat => SessionEstimatedBitrate | _ => BufferDepthGroups end) _); by intros [].
Defined.

(** An entry is named by its registry and its label, the remote address or the track. *)
Abbreviation key := (registry * string)%type.

(** The metrics whose series an entry writes, and the closure its removal queues
    deletes. *)
Definition reapConn : list metric := [ConnSmoothedRTT; ConnPacketLossRate].
Definition reapSession : list metric := [SessionRTTMilliseconds; SessionEstimatedBitrate; SessionRTTHistogram].
Definition reapTrack : list metric := [BufferDepthGroups].
Definition metrics_of (r : registry) : list metric :=
  match r with RConns => reapConn | RSessions => reapSession | RTracks => reapTrack end.

(** The value of a series: a gauge, or what a histogram observed. *)
Inductive value := Gauge (v : float64) | Observed (l : list float64).
Abbreviation series := (gmap (metric * string) value).

(** What a provider answers when it is sampled. *)
Inductive reading :=
| ConnectionStats (SmoothedRTT : Duration) (PacketsSent PacketsLost : Z)
| SessionStats (RTT : Duration) (EstimatedBitrate : Z)
| RingBounds (head earliest : Z).

(** Where the sampler's goroutine is: at its select; in a Range, of what may be and must
    be visited; before reapDeleted's lock; in its batch, at a closure or between a
    closure's Load and its deletes; returned. [final] is the deferred call. *)
Inductive lpc :=
| Waiting
| Sweeping (r : registry) (may : gset (string * nat)) (must visited : gset string)
| Reap (final : bool)
| Reaping (final : bool) (batch : list key)
| Deleting (final : bool) (k : key) (batch : list key)
| Stopped.

(** An owner registered a provider under a key, and deregisters the key some day. *)
Record owner := mkOwner { okey : key; provider : nat; sampled : bool }.

(** [leaving]: the keys whose owners are between the Delete and the queueReap. *)
Record sampler := mkSampler {
  entries : gmap key nat; reap : list key; gauges : series; loop : lpc; cancelled : bool;
  owners : list owner; leaving : list key
}.

Definition new_sampler : sampler := mkSampler ∅ [] ∅ Waiting false [] [].

(** ** Sampling *)

Definition Milliseconds (d : Duration) : Z := d ÷ Millisecond.
Definition Seconds (d : Duration) : float64 :=
  SFadd 53 1024 (float_of_Z (d ÷ Second)) (SFdiv 53 1024 (float_of_Z (Z.rem d Second)) (float_of_Z 1000000000)).

Definition Set_ (m : metric) (a : string) (v : float64) (g : series) : series := <[(m, a) := Gauge v]> g.
Definition Observe (m : metric) (a : string) (v : float64) (g : series) : series :=
  <[(m, a) := Observed (match g !! (m, a) with Some (Observed l) => l ++ [v] | _ => [v] end)]> g.
Definition when (b : bool) (f : series -> series) (g : series) : series := if b then f g else g.

Definition sampleConnStats (rtt : Duration) (sent lost : Z) (a : string) (g : series) : series :=
  when (0 <? sent) (Set_ ConnPacketLossRate a (SFdiv 53 1024 (float_of_Z lost) (float_of_Z sent)))
    (when (0 <? rtt) (Set_ ConnSmoothedRTT a (float_of_Z (Milliseconds rtt))) g).

Definition sampleSessionStats (rtt : Duration) (bitrate : Z) (a : string) (g : series) : series :=
  when (0 <? bitrate) (Set_ SessionEstimatedBitrate a (float_of_Z bitrate))
    (when (0 <? rtt) (fun g => Observe SessionRTTHistogram a (Seconds rtt) (Set_ SessionRTTMilliseconds a (float_of_Z (Milliseconds rtt)) g)) g).

(** The groups a ring holds, from its head and, read after it, its earliest position. *)
Definition depth (head earliest : Z) : Z := if earliest <=? head then head - earliest + 1 else 0.
Definition sampleCacheDepth (head earliest : Z) (a : string) (g : series) : series :=
  Set_ BufferDepthGroups a (float_of_Z (depth head earliest)) g.

(** One entry's sample; a registry's providers answer in one way only. *)
Definition sample_entry (r : registry) (a : string) (rd : reading) (g : series) : option series :=
  match r, rd with
  | RConns, ConnectionStats rtt sent lost => Some (sampleConnStats rtt sent lost a g)
  | RSessions, SessionStats rtt bitrate => Some (sampleSessionStats rtt bitrate a g)
  | RTracks, RingBounds head earliest => Some (sampleCacheDepth head earliest a g)
  | _, _ => None
  end.

Definition DeleteLabelValues (a : string) (g : series) (m : metric) : series := delete (m, a) g.
Definition delete_series (k : key) (g : series) : series := foldl (DeleteLabelValues k.2) g (metrics_of k.1).

(** ** Registering and deregistering *)

Definition with_loop (l : lpc) (s : sampler) : sampler :=
  mkSampler s.(entries) s.(reap) s.(gauges) l s.(cancelled) s.(owners) s.(leaving).
Definition with_gauges (g : series) (s : sampler) : sampler :=
  mkSampler s.(entries) s.(reap) g s.(loop) s.(cancelled) s.(owners) s.(leaving).
Definition with_owners (o : list owner) (s : sampler) : sampler :=
  mkSampler s.(entries) s.(reap) s.(gauges) s.(loop) s.(cancelled) o s.(leaving).

(** What a Range in progress makes of a Store and of a Delete. *)
Definition seen_store (k : key) (p : nat) (l : lpc) : lpc :=
  match l with
  | Sweeping r may must visited => if decide (r = k.1) then Sweeping r ({[(k.2, p)]} ∪ may) must visited else l
  | _ => l
  end.
Definition seen_delete (k : key) (l : lpc) : lpc :=
  match l with
  | Sweeping r may must visited => if decide (r = k.1) then Sweeping r may (must ∖ {[k.2]}) visited else l
  | _ => l
  end.

(** A registry's Store, by an owner that has its provider sampled at once or not. *)
Definition Store (k : key) (p : nat) (at_once : bool) (s : sampler) : sampler :=
  mkSampler (<[k := p]> s.(entries)) s.(reap) s.(gauges) (seen_store k p s.(loop)) s.(cancelled)
    (s.(owners) ++ [mkOwner k p (negb at_once)]) s.(leaving).
Definition addConn (addr : string) (p : nat) : sampler -> sampler := Store (RConns, addr) p true.
Definition addSession (addr : string) (p : nat) : sampler -> sampler := Store (RSessions, addr) p true.
Definition addTrack (trackID : string) (d : nat) : sampler -> sampler := Store (RTracks, trackID) d false.
Definition add (k : key) : nat -> sampler -> sampler :=
  match k.1 with RConns => addConn k.2 | RSessions => addSession k.2 | RTracks => addTrack k.2 end.

(** The immediate first sample of owner [i]. *)
Definition first_sample (i : nat) (rd : reading) (s : sampler) : option sampler :=
  match s.(owners) !! i with
  | Some o =>
      if o.(sampled) then None
      else g ← sample_entry o.(okey).1 o.(okey).2 rd s.(gauges);
        Some (with_owners (<[i := mkOwner o.(okey) o.(provider) true]> s.(owners)) (with_gauges g s))
  | None => None
  end.

(** A registry's Delete, after which its closure is still to be queued. *)
Definition Delete (k : key) (s : sampler) : sampler :=
  mkSampler (delete k s.(entries)) s.(reap) s.(gauges) (seen_delete k s.(loop)) s.(cancelled) s.(owners) (s.(leaving) ++ [k]).
Definition removeConn (addr : string) : sampler -> sampler := Delete (RConns, addr).
Definition removeSession (addr : string) : sampler -> sampler := Delete (RSessions, addr).
Definition removeTrack (trackID : string) : sampler -> sampler := Delete (RTracks, trackID).

(** Owner [i] deregisters, up to its queueReap. *)
Definition remove (i : nat) (s : sampler) : option sampler :=
  match s.(owners) !! i with
  | Some o =>
      if o.(sampled) then
        let s' := with_owners (delete i s.(owners)) s in
        Some (match o.(okey).1 with RConns => removeConn | RSessions => removeSession | RTracks => removeTrack end o.(okey).2 s')
      else None
  | None => None
  end.
Definition queueReap (i : nat) (s : sampler) : option sampler :=
  match s.(leaving) !! i with
  | Some k => Some (mkSampler s.(entries) (s.(reap) ++ [k]) s.(gauges) s.(loop) s.(cancelled) s.(owners) (delete i s.(leaving)))
  | None => None
  end.

(** ** The sampler's goroutine *)

(** Range is called on a registry: its pairs, and its keys. *)
Definition pairs (r : registry) (m : gmap key nat) : gset (string * nat) :=
  list_to_set (omap (fun '(k, p) => if decide (k.1 = r) then Some (k.2, p) else None) (map_to_list m)).
Definition start_range (r : registry) (s : sampler) : sampler :=
  with_loop (Sweeping r (pairs r s.(entries)) (set_map fst (pairs r s.(entries))) ∅) s.

(** The ticker fires; or ctx is done, and the deferred reapDeleted runs. *)
Definition tick (s : sampler) : option sampler :=
  match s.(loop) with Waiting => Some (start_range RConns s) | _ => None end.
Definition done_ (s : sampler) : option sampler :=
  match s.(loop) with Waiting => if s.(cancelled) then Some (with_loop (Reap true) s) else None | _ => None end.

(** Range calls sample's function on an entry. *)
Definition visit (a : string) (p : nat) (rd : reading) (s : sampler) : option sampler :=
  match s.(loop) with
  | Sweeping r may must visited =>
      if decide ((a, p) ∈ may /\ a ∉ visited) then
        g ← sample_entry r a rd s.(gauges); Some (with_loop (Sweeping r may must ({[a]} ∪ visited)) (with_gauges g s))
      else None
  | _ => None
  end.

(** Range returns; sample goes on with the next registry, and run with reapDeleted. *)
Definition range_end (s : sampler) : option sampler :=
  match s.(loop) with
  | Sweeping r may must visited =>
      if decide (must ⊆ visited) then
        Some match r with RConns => start_range RSessions s | RSessions => start_range RTracks s | RTracks => with_loop (Reap false) s end
      else None
  | _ => None
  end.

(** reapDeleted: the batch is detached; then each closure looks the key up, and deletes
    the series when it is not registered again. *)
Definition detach (s : sampler) : option sampler :=
  match s.(loop) with
  | Reap final => Some (mkSampler s.(entries) [] s.(gauges) (Reaping final s.(reap)) s.(cancelled) s.(owners) s.(leaving))
  | _ => None
  end.
Definition reapDeleted (s : sampler) : option sampler :=
  match s.(loop) with
  | Reaping final (k :: batch) =>
      Some (with_loop (match s.(entries) !! k with Some _ => Reaping final batch | None => Deleting final k batch end) s)
  | Reaping final [] => Some (with_loop (if final then Stopped else Waiting) s)
  | Deleting final k batch => Some (with_loop (Reaping final batch) (with_gauges (delete_series k s.(gauges)) s))
  | _ => None
  end.

(** Close and Shutdown call samplerCancel, before anything else. *)
Definition samplerCancel (s : sampler) : sampler :=
  mkSampler s.(entries) s.(reap) s.(gauges) s.(loop) true s.(owners) s.(leaving).

Inductive label :=
| LAdd (k : key) (p : nat)
| LFirst (i : nat) (rd : reading)
| LRemove (i : nat)
| LQueue (i : nat)
| LCancel
| LTick
| LVisit (a : string) (p : nat) (rd : reading)
| LRangeEnd
| LDetach
| LReap
| LDone.

Definition step (l : label) (s : sampler) : option sampler :=
  match l with
  | LAdd k p => Some (add k p s)
  | LFirst i rd => first_sample i rd s
  | LRemove i => remove i s
  | LQueue i => queueReap i s
  | LCancel => Some (samplerCancel s)
  | LTick => tick s
  | LVisit a p rd => visit a p rd s
  | LRangeEnd => range_end s
  | LDetach => detach s
  | LReap => reapDeleted s
  | LDone => done_ s
  end.

Definition sstep (s s' : sampler) : Prop := exists l, step l s = Some s'.
Definition reachable : sampler -> Prop := rtc sstep new_sampler.

(** ** No series outlives its entry unnoticed *)

Definition batch_of (l : lpc) : list key :=
  match l with Reaping _ b => b | Deleting _ k b => k :: b | _ => [] end.

(** Somebody will delete the series of [k]: an owner that is still to deregister, one
    that is between its two statements, the queue, or the batch being worked off. *)
Definition tracked (s : sampler) (k : key) : Prop :=
  k ∈ (okey <$> s.(owners)) \/ k ∈ s.(leaving) \/ k ∈ s.(reap) \/ k ∈ batch_of s.(loop).

Record inv (s : sampler) : Prop := {
  i_entries k p : s.(entries) !! k = Some p -> k ∈ (okey <$> s.(owners));
  i_series m a v : s.(gauges) !! (m, a) = Some v -> exists r, m ∈ metrics_of r /\ tracked s (r, a);
  i_may r may must visited a p : s.(loop) = Sweeping r may must visited -> (a, p) ∈ may -> tracked s (r, a)
}.

Local Ltac listed := cbn; unfold reapConn, reapSession, reapTrack; first [done|set_solver].

Lemma metrics_disjoint m r r' : m ∈ metrics_of r -> m ∈ metrics_of r' -> r = r'.
Proof. destruct r, r'; try done; listed. Qed.

Lemma when_Set m a v b g k x : when b (Set_ m a v) g !! k = Some x -> k = (m, a) \/ g !! k = Some x.
Proof. unfold when, Set_. destruct b; [rewrite lookup_insert_Some|]; naive_solver. Qed.

Lemma sample_entry_series r a rd g g' m b v :
  sample_entry r a rd g = Some g' -> g' !! (m, b) = Some v -> (b = a /\ m ∈ metrics_of r) \/ g !! (m, b) = Some v.
Proof.
  destruct r, rd; cbn; try done; intros [= <-].
  - intros [[= -> ->]|[[= -> ->]|?]%when_Set]%when_Set; [left|left|by right]; split; listed.
  - intros [[= -> ->]|Hv]%when_Set; [left; split; listed|]. unfold when, Observe, Set_ in Hv. case_match; [|by right].
    apply lookup_insert_Some in Hv as [[[= <- <-] _]|[_ Hv]]; [left; split; listed|].
    apply lookup_insert_Some in Hv as [[[= <- <-] _]|[_ Hv]]; [left; split; listed|by right].
  - unfold sampleCacheDepth, Set_. intros [[[= <- <-] _]|[_ Hv]]%lookup_insert_Some; [left; split; listed|by right].
Qed.

Lemma delete_series_lookup k g m a v :
  delete_series k g !! (m, a) = Some v -> g !! (m, a) = Some v /\ (m ∈ metrics_of k.1 -> a <> k.2).
Proof.
  unfold delete_series. generalize (metrics_of k.1). intros l. revert g. induction l as [|m' l IH]; intros g; cbn; [set_solver|].
  intros [Hg Hl]%IH. unfold DeleteLabelValues in Hg. apply lookup_delete_Some in Hg as [Hn Hg]. split; [done|]. intros [->|Hm]%elem_of_cons; [congruence|by apply Hl].
Qed.

(** [s'] tracks whatever [s] does. *)
Definition keeps (s s' : sampler) : Prop := forall k, tracked s k -> tracked s' k.

(** An operation off the sampler's goroutine leaves its batch. *)
Lemma batch_store k p l : batch_of (seen_store k p l) = batch_of l.
Proof. destruct l; cbn; try done. by case_decide. Qed.
Lemma batch_delete k l : batch_of (seen_delete k l) = batch_of l.
Proof. destruct l; cbn; try done. by case_decide. Qed.

Lemma delete_split {A} i (l : list A) x y : l !! i = Some y -> x ∈ l -> x = y \/ x ∈ delete i l.
Proof.
  intros Hi Hx. rewrite <- (take_drop_middle _ _ _ Hi) in Hx. rewrite delete_take_drop. set_solver.
Qed.

Lemma owners_delete i (l : list owner) o k : l !! i = Some o -> k ∈ (okey <$> l) -> k = okey o \/ k ∈ (okey <$> delete i l).
Proof. intros Hi (o' & -> & Ho')%list_elem_of_fmap. destruct (delete_split _ _ _ _ Hi Ho') as [->|]; [by left|right; by apply list_elem_of_fmap_2]. Qed.

Lemma pairs_entries r m a p : (a, p) ∈ pairs r m -> m !! (r, a) = Some p.
Proof.
  unfold pairs. rewrite elem_of_list_to_set, list_elem_of_omap. intros ([[r' a'] p'] & Hin & Heq).
  apply elem_of_map_to_list in Hin. cbn in Heq. case_decide; naive_solver.
Qed.

(** The operations that only add to what is tracked. *)
Lemma add_store k p s : exists now, add k p s = Store k p now s.
Proof. destruct k as [[] a]; by eexists. Qed.

Lemma add_keeps k p s : keeps s (add k p s).
Proof. destruct (add_store k p s) as [now ->]. intros k'. unfold tracked. cbn. rewrite fmap_app, batch_store. set_solver. Qed.

Lemma first_keeps i rd s s' : first_sample i rd s = Some s' ->
  okey <$> s'.(owners) = okey <$> s.(owners) /\ s'.(loop) = s.(loop) /\ s'.(entries) = s.(entries) /\ s'.(leaving) = s.(leaving) /\ s'.(reap) = s.(reap) /\
  exists o, o ∈ s.(owners) /\ sample_entry o.(okey).1 o.(okey).2 rd s.(gauges) = Some s'.(gauges).
Proof.
  unfold first_sample. destruct (owners s !! i) as [o|] eqn:Ho; [|done]. destruct (sampled o); [done|].
  intros (g & Hg & [= <-])%bind_Some. cbn.
  split; [|split_and!; [done..|]; exists o; split; [by eapply list_elem_of_lookup_2|done]].
  rewrite list_fmap_insert. apply list_insert_id. cbn. by rewrite list_lookup_fmap, Ho.
Qed.

Lemma remove_keeps i s s' : remove i s = Some s' ->
  keeps s s' /\ s'.(gauges) = s.(gauges) /\ exists o, s.(owners) !! i = Some o /\
  s'.(entries) = delete o.(okey) s.(entries) /\ s'.(loop) = seen_delete o.(okey) s.(loop) /\ s'.(owners) = delete i s.(owners).
Proof.
  unfold remove. destruct (owners s !! i) as [o|] eqn:Ho; [|done]. destruct (sampled o); [|done].
  assert (forall s', (match (okey o).1 with RConns => removeConn | RSessions => removeSession | RTracks => removeTrack end) (okey o).2 s' = Delete (okey o) s') as ->
    by (intros s1; by destruct (okey o) as [[] a]).
  intros [= <-]. split; [|split; [done|]; by exists o]. intros k. unfold tracked. cbn. rewrite batch_delete. intros [Hk|Hk]; [|set_solver].
  destruct (owners_delete _ _ _ _ Ho Hk) as [->|?]; set_solver.
Qed.

Lemma queue_keeps i s s' : queueReap i s = Some s' ->
  keeps s s' /\ s'.(gauges) = s.(gauges) /\ s'.(entries) = s.(entries) /\ s'.(loop) = s.(loop) /\ s'.(owners) = s.(owners).
Proof.
  unfold queueReap. destruct (leaving s !! i) as [k|] eqn:Hk; [|done]. intros [= <-]. split; [|done].
  intros k'. unfold tracked. cbn. intros [?|[Hin|?]]; [set_solver| |set_solver].
  destruct (delete_split _ _ _ _ Hk Hin) as [->|]; set_solver.
Qed.

Lemma seen_store_sweeping k p l r may must visited a q :
  seen_store k p l = Sweeping r may must visited -> (a, q) ∈ may ->
  (r, a) = k \/ exists may', l = Sweeping r may' must visited /\ (a, q) ∈ may'.
Proof.
  destruct l; try done. cbn. destruct k as [r' a']. cbn. case_decide; intros [= <- <- <- <-]; [|by eauto].
  intros [[= -> ->]%elem_of_singleton|?]%elem_of_union; subst; eauto.
Qed.

Lemma seen_delete_sweeping k l r may must visited :
  seen_delete k l = Sweeping r may must visited -> exists must', l = Sweeping r may must' visited.
Proof. destruct l; try done. cbn. case_decide; intros [= <- <- <- <-]; eauto. Qed.

(** Nothing in the batch is needed while the sampler sweeps or waits. *)
Lemma range_keeps r s : batch_of s.(loop) = [] -> inv s -> inv (start_range r s).
Proof.
  intros Hb [He Hs _]. assert (keeps s (start_range r s)) as Hk by (intros k; unfold tracked; rewrite Hb; cbn; set_solver).
  split; cbn; [done| |].
  - intros m a v (r' & Hm & Ht)%Hs. eauto.
  - intros r' may must visited a p [= <- <- <- <-] Hin. left. cbn. by eapply He, pairs_entries.
Qed.

Lemma reap_inv s s' : reapDeleted s = Some s' -> inv s -> inv s'.
Proof.
  unfold reapDeleted. intros Hr [He Hs _]. destruct (loop s) as [| | |final [|k b]|final k b|] eqn:Hl; try done.
  - injection Hr as <-. split; cbn; [done| |by destruct final].
    intros m a v (r & Hm & Ht)%Hs. exists r. split; [done|]. unfold tracked in *. rewrite Hl in Ht. cbn in *. destruct final; set_solver.
  - injection Hr as <-. split; cbn; [done| |by case_match].
    intros m a v (r & Hm & Ht)%Hs. exists r. split; [done|]. unfold tracked in *. rewrite Hl in Ht. cbn in *.
    destruct (entries s !! k) as [p|] eqn:Hk; cbn; [|set_solver]. apply He in Hk. set_solver.
  - injection Hr as <-. split; cbn; [done| |done].
    intros m a v [Hg Hd]%delete_series_lookup. destruct (Hs _ _ _ Hg) as (r & Hm & Ht). exists r. split; [done|].
    unfold tracked in *. rewrite Hl in Ht. cbn in *. destruct Ht as [?|[?|[?|[<-|?]%elem_of_cons]]]; auto. by destruct (Hd Hm).
Qed.

Lemma sampler_step_inv s s' : sstep s s' -> inv s -> inv s'.
Proof.
  intros [l Hl] Hi. pose proof Hi as [He Hs Hm]. destruct l as [k p|i rd|i|i| | |a p rd| | | |]; cbn in Hl.
  - injection Hl as <-. pose proof (add_keeps k p s) as Hk. destruct (add_store k p s) as [once Heq]. rewrite Heq in *. split.
    + cbn. intros k' p' [[-> _]|[_ Hin%He]]%lookup_insert_Some; rewrite fmap_app; set_solver.
    + cbn. intros m a v (r & Hr & Ht)%Hs. eauto.
    + cbn. intros r may must visited a q Hsw Hin. destruct (seen_store_sweeping _ _ _ _ _ _ _ _ _ Hsw Hin) as [->|(may' & ? & ?)]; [|eauto].
      left. cbn. rewrite fmap_app. set_solver.
  - destruct (first_keeps _ _ _ _ Hl) as (Ho & Hlo & Hen & Hle & Hre & o & Hin & Hg).
    assert (forall k, tracked s' k <-> tracked s k) as Hk by (intros k; unfold tracked; by rewrite Ho, Hlo, Hle, Hre).
    split; [by rewrite Hen, Ho| |by intros; apply Hk; rewrite Hlo in *; eauto].
    intros m a v Hv. destruct (sample_entry_series _ _ _ _ _ _ _ _ Hg Hv) as [[-> Hr]|Hv'].
    + exists (okey o).1. split; [done|]. apply Hk. left. rewrite <- surjective_pairing. by apply list_elem_of_fmap_2.
    + destruct (Hs _ _ _ Hv') as (r & ? & ?). exists r. split; [done|by apply Hk].
  - destruct (remove_keeps _ _ _ Hl) as (Hk & Hg & o & Hio & Hen & Hlo & Ho). split.
    + rewrite Hen, Ho. intros k p [Hne Hin%He]%lookup_delete_Some. by destruct (owners_delete _ _ _ _ Hio Hin) as [->|].
    + rewrite Hg. intros m a v (r & ? & ?)%Hs. eauto.
    + rewrite Hlo. intros r may must visited a p [must' Hsw]%seen_delete_sweeping Hin. eauto.
  - destruct (queue_keeps _ _ _ Hl) as (Hk & Hg & Hen & Hlo & Ho). split.
    + by rewrite Hen, Ho.
    + rewrite Hg. intros m a v (r & ? & ?)%Hs. eauto.
    + rewrite Hlo. eauto.
  - injection Hl as <-. split; cbn; done.
  - unfold tick in Hl. destruct (loop s) eqn:Hlo; try done. injection Hl as <-. apply range_keeps; [by rewrite Hlo|done].
  - unfold visit in Hl. destruct (loop s) as [|r may must visited| | | |] eqn:Hlo; try done. case_decide as Hd; [|done].
    apply bind_Some in Hl as (g & Hg & [= <-]).
    assert (forall k, tracked (with_loop (Sweeping r may must ({[a]} ∪ visited)) (with_gauges g s)) k <-> tracked s k) as Hk
      by (intros k; unfold tracked; by rewrite Hlo).
    split; cbn; [done| |].
    + intros m b v Hv. destruct (sample_entry_series _ _ _ _ _ _ _ _ Hg Hv) as [[-> Hr]|Hv'].
      * exists r. split; [done|]. apply Hk. eapply Hm; [done|apply Hd].
      * destruct (Hs _ _ _ Hv') as (r' & ? & ?). exists r'. split; [done|by apply Hk].
    + intros r' may' must' visited' b q [= <- <- <- <-] Hin. apply Hk. by eapply Hm.
  - unfold range_end in Hl. destruct (loop s) as [|r may must visited| | | |] eqn:Hlo; try done. case_decide; [|done]. injection Hl as <-.
    assert (batch_of (loop s) = []) as Hb by by rewrite Hlo.
    destruct r; [by apply range_keeps..|]. split; cbn; [done| |done].
    intros m a v (r & ? & Ht)%Hs. exists r. split; [done|]. unfold tracked in *. by rewrite Hlo in Ht.
  - unfold detach in Hl. destruct (loop s) eqn:Hlo; try done. injection Hl as <-. split; cbn; [done| |done].
    intros m a v (r & ? & Ht)%Hs. exists r. split; [done|]. unfold tracked in *. rewrite Hlo in Ht. cbn in *. set_solver.
  - by eapply reap_inv.
  - unfold done_ in Hl. destruct (loop s) eqn:Hlo; try done. destruct (cancelled s); [|done]. injection Hl as <-. split; cbn; [done| |done].
    intros m a v (r & ? & Ht)%Hs. exists r. split; [done|]. unfold tracked in *. by rewrite Hlo in Ht.
Qed.

Lemma sampler_inv s : reachable s -> inv s.
Proof.
  intros Hr. assert (inv new_sampler) as H0 by (by split). unfold reachable in Hr. revert H0.
  induction Hr as [|s s1 s2 H1 _ IH]; [done|]. intros Hi. by apply IH, (sampler_step_inv s).
Qed.

(** Whenever registrations, samples, deregistrations and the sampler interleave, a series
    that exists belongs to somebody who is still to deregister its key, or its deletion
    is on its way. A departed session does not leak its series. *)
Theorem no_series_leaks s m a v : reachable s -> s.(gauges) !! (m, a) = Some v ->
  exists r, m ∈ metrics_of r /\ ((exists o, o ∈ s.(owners) /\ o.(okey) = (r, a)) \/
    (r, a) ∈ s.(leaving) \/ (r, a) ∈ s.(reap) \/ (r, a) ∈ batch_of s.(loop)).
Proof.
  intros Hr Hv. destruct (i_series _ (sampler_inv _ Hr) _ _ _ Hv) as (r & Hm & [Ho|Ht]); exists r; split; [done| |done|by right].
  left. apply list_elem_of_fmap in Ho as (o & -> & Ho). by exists o.
Qed.

(** ** The queue is worked off *)

Lemma queue_drains s : exists s', rtc sstep s s' /\ s'.(leaving) = [] /\ s'.(owners) = s.(owners) /\ s'.(loop) = s.(loop).
Proof.
  remember (leaving s) as l eqn:Hl. revert s Hl. induction l as [|k l IH]; intros s Hl; [by exists s|].
  destruct (IH (mkSampler s.(entries) (s.(reap) ++ [k]) s.(gauges) s.(loop) s.(cancelled) s.(owners) l)) as (s' & Hr & ? & ? & ?); [done|].
  exists s'. split; [|done]. eapply rtc_l; [|exact Hr]. exists (LQueue 0). cbn. unfold queueReap. by rewrite <- Hl.
Qed.

Lemma batch_drains s final b : s.(loop) = Reaping final b ->
  exists s', rtc sstep s s' /\ s'.(loop) = (if final then Stopped else Waiting) /\
    s'.(leaving) = s.(leaving) /\ s'.(owners) = s.(owners) /\ s'.(reap) = s.(reap).
Proof.
  revert s. induction b as [|k b IH]; intros s Hl.
  - eexists. split; [apply rtc_once; exists LReap; cbn; unfold reapDeleted; by rewrite Hl|]. done.
  - destruct (entries s !! k) as [p|] eqn:Hk.
    + destruct (IH (with_loop (Reaping final b) s)) as (s' & Hr & ? & ? & ? & ?); [done|]. exists s'. split; [|done].
      eapply rtc_l; [|exact Hr]. exists LReap. cbn. unfold reapDeleted. by rewrite Hl, Hk.
    + destruct (IH (with_loop (Reaping final b) (with_gauges (delete_series k s.(gauges)) s))) as (s' & Hr & ? & ? & ? & ?); [done|].
      exists s'. split; [|done]. eapply rtc_l; [exists LReap; cbn; unfold reapDeleted; by rewrite Hl, Hk|].
      eapply rtc_l; [exists LReap; cbn; unfold reapDeleted; cbn; reflexivity|exact Hr].
Qed.

(** The series that exist are those of owners: nobody else's deletion is outstanding. *)
Definition settled (s : sampler) : Prop :=
  forall m a v, s.(gauges) !! (m, a) = Some v -> exists r o, m ∈ metrics_of r /\ o ∈ s.(owners) /\ o.(okey) = (r, a).

Lemma quiet_settled s : reachable s -> s.(leaving) = [] -> s.(reap) = [] -> batch_of s.(loop) = [] -> settled s.
Proof.
  intros Hr Hl Hq Hb m a v Hv. destruct (no_series_leaks _ _ _ _ Hr Hv) as (r & Hm & [(o & Ho & Hk)|Ht]); [by exists r, o|].
  rewrite Hl, Hq, Hb in Ht. set_solver.
Qed.

(** From the moment a sweep is over, the sampler needs nobody but the owners that are
    leaving to finish, and then every series is an owner's. *)
Theorem series_settle s final : reachable s -> s.(loop) = Reap final ->
  exists s', rtc sstep s s' /\ s'.(owners) = s.(owners) /\ s'.(loop) = (if final then Stopped else Waiting) /\ settled s'.
Proof.
  intros Hr Hl. destruct (queue_drains s) as (s1 & Hr1 & Hle1 & Ho1 & Hl1). rewrite Hl in Hl1.
  destruct (batch_drains (mkSampler s1.(entries) [] s1.(gauges) (Reaping final s1.(reap)) s1.(cancelled) s1.(owners) s1.(leaving)) final s1.(reap))
    as (s2 & Hr2 & Hl2 & Hle2 & Ho2 & Hq2); [done|]. cbn in *.
  assert (rtc sstep s s2) as Hs.
  { etrans; [exact Hr1|]. eapply rtc_l; [|exact Hr2]. exists LDetach. cbn. unfold detach. by rewrite Hl1. }
  exists s2. split; [done|]. split; [congruence|]. split; [done|].
  apply quiet_settled; [unfold reachable in *; by etrans|congruence|done|]. rewrite Hl2. by destruct final.
Qed.

(** ** An entry stays while its owner does, when keys are not shared *)

(** The runs in which a key is registered only when nobody is still to deregister it. *)
Definition fresh_step (s s' : sampler) : Prop :=
  exists l, step l s = Some s' /\ match l with LAdd k _ => k ∉ (okey <$> s.(owners)) | _ => True end.

Record own (s : sampler) : Prop := {
  o_nodup : NoDup (okey <$> s.(owners));
  o_entry o : o ∈ s.(owners) -> s.(entries) !! o.(okey) = Some o.(provider)
}.

Lemma own_same s s' : s'.(owners) = s.(owners) -> s'.(entries) = s.(entries) -> own s -> own s'.
Proof. intros Ho He [Hn Hi]. split; [by rewrite Ho|rewrite Ho, He; done]. Qed.

Lemma fresh_own s s' : fresh_step s s' -> own s -> own s'.
Proof.
  intros (l & Hl & Hf) Ho. pose proof Ho as [Hn He]. destruct l as [k p|i rd|i|i| | |a p rd| | | |]; cbn in Hl.
  - injection Hl as <-. destruct (add_store k p s) as [once ->]. split; cbn.
    + rewrite fmap_app. apply NoDup_app. split; [done|]. split; [|apply NoDup_singleton]. cbn. set_solver.
    + intros o [Ho'|Ho']%elem_of_app.
      * rewrite lookup_insert_ne; [by apply He|]. intros ->. apply Hf. by apply list_elem_of_fmap_2.
      * apply list_elem_of_singleton in Ho' as ->. cbn. apply lookup_insert_eq.
  - unfold first_sample in Hl. destruct (owners s !! i) as [o|] eqn:Hio; [|done]. destruct (sampled o); [done|].
    apply bind_Some in Hl as (g & Hg & [= <-]). split; cbn.
    + rewrite list_fmap_insert. cbn. rewrite list_insert_id; [done|]. by rewrite list_lookup_fmap, Hio.
    + intros o' [j Hj]%list_elem_of_lookup. destruct (decide (i = j)) as [<-|Hij].
      * rewrite list_lookup_insert_eq in Hj by (by eapply lookup_lt_Some). injection Hj as <-. cbn. apply He. by eapply list_elem_of_lookup_2.
      * rewrite list_lookup_insert_ne in Hj by done. apply He. by eapply list_elem_of_lookup_2.
  - unfold remove in Hl. destruct (owners s !! i) as [o|] eqn:Hio; [|done]. destruct (sampled o) eqn:Hsa; [|done].
    destruct (remove_keeps i s s') as (_ & _ & o' & Ho' & Hen & _ & How); [unfold remove; by rewrite Hio, Hsa|].
    rewrite Hio in Ho'. injection Ho' as <-.
    assert (NoDup (okey o :: (okey <$> delete i (owners s)))) as Hn'.
    { change (NoDup (okey <$> (o :: delete i (owners s)))). by rewrite <- (delete_Permutation _ _ _ Hio). }
    apply NoDup_cons in Hn' as [Hni Hn']. split; [by rewrite How|]. rewrite How, Hen. intros o' Ho'. rewrite lookup_delete_ne.
    + apply He. eapply elem_of_Permutation_proper; [exact (delete_Permutation _ _ _ Hio)|]. by apply elem_of_cons; right.
    + intros Heq. apply Hni. rewrite Heq. by apply list_elem_of_fmap_2.
  - unfold queueReap in Hl. destruct (leaving s !! i); [|done]. injection Hl as <-. by eapply own_same.
  - injection Hl as <-. by eapply own_same.
  - unfold tick in Hl. destruct (loop s); try done. injection Hl as <-. by eapply own_same.
  - unfold visit in Hl. destruct (loop s); try done. case_decide; [|done]. apply bind_Some in Hl as (g & _ & [= <-]). by eapply own_same.
  - unfold range_end in Hl. destruct (loop s) as [|r| | | |]; try done. case_decide; [|done]. injection Hl as <-. destruct r; by eapply own_same.
  - unfold detach in Hl. destruct (loop s); try done. injection Hl as <-. by eapply own_same.
  - unfold reapDeleted in Hl. destruct (loop s) as [| | |f [|k b]|f k b|]; try done; injection Hl as <-; by eapply own_same.
  - unfold done_ in Hl. destruct (loop s); try done. destruct (cancelled s); [|done]. injection Hl as <-. by eapply own_same.
Qed.

(** Then an owner's own provider is registered as long as it is there, for every sweep. *)
Theorem sole_owner_registered s o : rtc fresh_step new_sampler s -> o ∈ s.(owners) -> s.(entries) !! o.(okey) = Some o.(provider).
Proof.
  intros Hr. assert (own new_sampler) as H0 by (split; [apply NoDup_nil_2|cbn; set_solver]). revert H0.
  induction Hr as [|s s1 s2 H1 _ IH]; [by intros [_ He] ?; apply He|]. intros Ho. by apply IH, (fresh_own s).
Qed.

(** ** The depth of a ring *)

(** The head is read before the earliest position, which advances only: the depth is
    never more than the ring's size. *)
Theorem depth_bounded r r' : 0 <= GroupRing.head r -> GroupRing.head r <= GroupRing.head r' -> r'.(GroupRing.size) = r.(GroupRing.size) ->
  0 <= depth (GroupRing.head r) (GroupRing.earliestAvailable r') <= Z.of_nat r.(GroupRing.size).
Proof.
  intros H0 Hh Hs. unfold depth, GroupRing.earliestAvailable. rewrite Hs.
  repeat case_match; lia.
Qed.

(** ** Runs *)

Fixpoint run (ls : list label) (s : sampler) : option sampler :=
  match ls with [] => Some s | l :: t => step l s ≫= run t end.

Definition path : key := (RTracks, "[n]/live/video").

(** A route is replaced: the new handler's distributor registers the track before the
    old one, draining, deregisters it. The next reap deletes the new one's series, and
    no sweep samples it again while it lives. *)
Definition reroute : list label :=
  [LAdd path 1; LTick; LRangeEnd; LRangeEnd; LVisit path.2 1 (RingBounds 9 2); LRangeEnd; LDetach; LReap;
   LAdd path 2; LRemove 0; LQueue 0; LTick; LRangeEnd; LRangeEnd; LRangeEnd; LDetach; LReap; LReap; LReap].

Example reroute_loses_gauge :
  (fun s => (s.(owners), s.(entries) !! path, bool_decide (s.(gauges) = ∅), match s.(loop) with Waiting => true | _ => false end)) <$> run reroute new_sampler =
  Some ([mkOwner path 2 true], None, true, true).
Proof. vm_compute. reflexivity. Qed.

(** Shutdown cancels the sampler first: a session that ends after the last reap leaves
    its series for good. *)
Definition session_ : key := (RSessions, "192.0.2.1:4433").
Definition shutdown_first : list label :=
  [LAdd session_ 1; LFirst 0 (SessionStats (20 * Millisecond) 5000000); LCancel; LDone; LDetach; LReap; LRemove 0; LQueue 0].

Example shutdown_leaves_series :
  (fun s => (s.(owners), s.(leaving), s.(reap), size s.(gauges), match s.(loop) with Stopped => true | _ => false end)) <$> run shutdown_first new_sampler =
  Some ([], [], [session_], 3%nat, true).
Proof. vm_compute. reflexivity. Qed.

(** Between a closure's Load and its deletes an address is registered again, and
    sampled: the first sample is deleted. *)
Definition late_delete : list label :=
  [LAdd session_ 1; LFirst 0 (SessionStats (20 * Millisecond) 0); LRemove 0; LQueue 0; LTick; LRangeEnd; LRangeEnd; LRangeEnd; LDetach; LReap;
   LAdd session_ 2; LFirst 0 (SessionStats (30 * Millisecond) 0); LReap; LReap].

Example late_delete_drops_first_sample :
  (fun s => (s.(entries) !! session_, size s.(gauges))) <$> run late_delete new_sampler = Some (Some 2%nat, 0%nat).
Proof. vm_compute. reflexivity. Qed.
