(* ===== verification/OpenTimeout.v ===== *)
(** * OpenTimeout: one context for the many opens of a subscriber

    src/internal/relay/open_timeout.go: the context and timer that an egress reuses for
    each OpenGroupAt, against the runtime's timers. A timer that expires starts its
    callback on a goroutine of its own, which may run as late as it likes; Stop tells
    whether it came in time. The placeholder deadline of a new timer, a day, does not
    expire between its AfterFunc and its Stop. *)
From S2P Require Import Prelude GoTime.

#[local] Open Scope Z_scope.

Definition armIdleDuration : Duration := 24 * 3600 * Second.
Definition defaultGroupTimeout : Duration := 30 * Millisecond.

(** ** State *)

(** A time.Timer of AfterFunc: stopped, pending until its deadline, or expired. *)
Inductive timer := TStopped | TPending (deadline : Z) | TExpired.

(** What the egress does with the openTimeout: between opens, in one, past release. *)
Inductive phase := Between | Opening | Released.

(** Contexts are numbered as arm builds them: [ctx] is the current one, with its
    [timer]. [cancelled] are those whose cancel was called, and [callbacks] the calls of
    a context's cancel that a timer has started and that have not run. *)
Record openTimeout := mkOpenTimeout {
  parent_done : bool; ctx : nat; the_timer : timer; cancelled : gset nat; callbacks : list nat; at_ : phase; now : Z
}.

Definition with_timer (t : timer) (p : phase) (o : openTimeout) : openTimeout :=
  mkOpenTimeout o.(parent_done) o.(ctx) t o.(cancelled) o.(callbacks) p o.(now).

(** ** Operations *)

Definition newOpenTimeout (parent : bool) (now : Z) : openTimeout := mkOpenTimeout parent 0 TStopped ∅ [] Between now.

(** arm: the next context, and its timer, stopped. *)
Definition arm (o : openTimeout) : openTimeout :=
  mkOpenTimeout o.(parent_done) (S o.(ctx)) TStopped o.(cancelled) o.(callbacks) o.(at_) o.(now).

(** start returns the current context. *)
Definition start (o : openTimeout) : option openTimeout :=
  match o.(at_) with Between => Some (with_timer (TPending (o.(now) + defaultGroupTimeout)) Opening o) | _ => None end.

(** Stop: whether it kept the timer from firing. *)
Definition timer_Stop (t : timer) : bool := match t with TPending _ => true | _ => false end.

Definition done_ (o : openTimeout) : option (bool * openTimeout) :=
  match o.(at_) with
  | Opening =>
      let stopped := timer_Stop o.(the_timer) in
      let o' := with_timer (if stopped then TStopped else o.(the_timer)) Between o in
      Some (if stopped then (false, o') else (true, arm o'))
  | _ => None
  end.

Definition release (o : openTimeout) : option openTimeout :=
  match o.(at_) with
  | Opening => None
  | _ => Some (mkOpenTimeout o.(parent_done) o.(ctx) TStopped ({[o.(ctx)]} ∪ o.(cancelled)) o.(callbacks) Released o.(now))
  end.

(** ** The runtime *)

(** Time passes; a pending timer whose deadline has come expires, some time. *)
Definition pass (d : Z) (o : openTimeout) : openTimeout :=
  mkOpenTimeout o.(parent_done) o.(ctx) o.(the_timer) o.(cancelled) o.(callbacks) o.(at_) (o.(now) + Z.max 0 d).
Definition expire (o : openTimeout) : option openTimeout :=
  match o.(the_timer) with
  | TPending t => if t <=? o.(now) then Some (mkOpenTimeout o.(parent_done) o.(ctx) TExpired o.(cancelled) (o.(callbacks) ++ [o.(ctx)]) o.(at_) o.(now)) else None
  | _ => None
  end.
Definition callback (i : nat) (o : openTimeout) : option openTimeout :=
  match o.(callbacks) !! i with
  | Some c => Some (mkOpenTimeout o.(parent_done) o.(ctx) o.(the_timer) ({[c]} ∪ o.(cancelled)) (delete i o.(callbacks)) o.(at_) o.(now))
  | None => None
  end.
Definition cancel_parent (o : openTimeout) : openTimeout :=
  mkOpenTimeout true o.(ctx) o.(the_timer) o.(cancelled) o.(callbacks) o.(at_) o.(now).

(** Whether a context is done. *)
Definition Done (c : nat) (o : openTimeout) : bool := o.(parent_done) || bool_decide (c ∈ o.(cancelled)).

Inductive label := LStart | LDone | LRelease | LPass (d : Z) | LExpire | LCallback (i : nat) | LParent.

Definition step (l : label) (o : openTimeout) : option openTimeout :=
  match l with
  | LStart => start o
  | LDone => snd <$> done_ o
  | LRelease => release o
  | LPass d => Some (pass d o)
  | LExpire => expire o
  | LCallback i => callback i o
  | LParent => Some (cancel_parent o)
  end.

Definition ostep (o o' : openTimeout) : Prop := exists l, step l o = Some o'.
Definition reachable (o : openTimeout) : Prop := exists parent now, rtc ostep (newOpenTimeout parent now) o.

(** ** A context is cancelled by its own deadline only *)

(** Of the current context: nobody cancels it, unless its timer expired in this open. *)
Record inv (o : openTimeout) : Prop := {
  i_fresh : o.(at_) <> Released -> o.(the_timer) <> TExpired -> (o.(ctx) ∉ o.(cancelled)) /\ (o.(ctx) ∉ o.(callbacks));
  i_opening : o.(at_) = Opening -> o.(the_timer) <> TStopped;
  i_idle : o.(at_) <> Opening -> o.(the_timer) = TStopped;
  i_old c : (c < o.(ctx))%nat -> c ∈ o.(cancelled) \/ c ∈ o.(callbacks);
  i_expired : o.(the_timer) = TExpired -> o.(ctx) ∈ o.(cancelled) \/ o.(ctx) ∈ o.(callbacks);
  i_new c : c ∈ o.(cancelled) \/ c ∈ o.(callbacks) -> (c <= o.(ctx))%nat;
  i_released : o.(at_) = Released -> o.(ctx) ∈ o.(cancelled)
}.

Lemma delete_or {A} i (l : list A) x y : l !! i = Some y -> x ∈ l <-> x = y \/ x ∈ delete i l.
Proof. intros Hi. etrans; [exact (elem_of_Permutation_proper x _ _ (delete_Permutation _ _ _ Hi))|]. apply elem_of_cons. Qed.

Lemma callback_spec i o o' : callback i o = Some o' ->
  exists c, c ∈ o.(callbacks) /\ o'.(ctx) = o.(ctx) /\ o'.(the_timer) = o.(the_timer) /\ o'.(at_) = o.(at_) /\
    (forall x, x ∈ o'.(cancelled) <-> x = c \/ x ∈ o.(cancelled)) /\
    (forall x, x ∈ o.(callbacks) <-> x = c \/ x ∈ o'.(callbacks)).
Proof.
  unfold callback. destruct (callbacks o !! i) as [c|] eqn:Hc; [|done]. intros [= <-]. exists c. cbn.
  split_and!; [by eapply list_elem_of_lookup_2|done..| |]; intros x; [set_solver|by apply delete_or].
Qed.

Lemma timeout_step_inv o o' : ostep o o' -> inv o -> inv o'.
Proof.
  intros [l Hl] [Hf Ho Hid Hold Hx Hn Hr]. destruct l as [| | |d| |i|]; cbn in Hl.
  - unfold start in Hl. destruct (at_ o) eqn:Ha; try done. injection Hl as <-.
    destruct Hf as [H1 H2]; [done|by rewrite Hid|]. split; cbn; done.
  - unfold done_ in Hl. destruct (at_ o) eqn:Ha; try done. destruct (the_timer o) as [|t|] eqn:Ht; cbn in Hl; injection Hl as <-; cbn.
    + by destruct (Ho eq_refl).
    + destruct Hf as [H1 H2]; [done..|]. split; cbn; done.
    + split; cbn; try done.
      * intros _ _. split; intros Hin; [specialize (Hn (S (ctx o)) (or_introl Hin))|specialize (Hn (S (ctx o)) (or_intror Hin))]; lia.
      * intros c Hc. destruct (decide (c = ctx o)) as [->|]; [by apply Hx|apply Hold; lia].
      * intros c Hc%Hn. lia.
  - unfold release in Hl. destruct (at_ o) eqn:Ha; try done; injection Hl as <-; split; cbn; try done; try set_solver;
      intros c Hc; apply Hn || destruct (Hold c Hc); set_solver.
  - injection Hl as <-. by split.
  - unfold expire in Hl. destruct (the_timer o) as [|t|] eqn:Ht; try done. destruct (t <=? now o); [|done]. injection Hl as <-.
    split; cbn; try done; try set_solver.
  - destruct (callback_spec _ _ _ Hl) as (c & Hc & He1 & He2 & He3 & Hin & Hcb). split; rewrite ?He1, ?He2, ?He3; try done.
    + intros Hna Hnt. destruct (Hf Hna Hnt) as [H1 H2]. rewrite Hcb in H2. rewrite Hin. naive_solver.
    + intros x Hx'. rewrite Hin. destruct (Hold x Hx') as [|Hy]; [auto|]. rewrite Hcb in Hy. naive_solver.
    + intros Hxp. rewrite Hin. destruct (Hx Hxp) as [|Hy]; [auto|]. rewrite Hcb in Hy. naive_solver.
    + intros x Hy. apply Hn. rewrite Hcb. rewrite Hin in Hy. naive_solver.
    + intros Hrel. rewrite Hin. auto.
  - injection Hl as <-. by split.
Qed.

Lemma timeout_inv o : reachable o -> inv o.
Proof.
  intros (p & t & Hr). assert (inv (newOpenTimeout p t)) as H0.
  { split; cbn; try done; try set_solver. intros c Hc. lia. }
  revert H0. induction Hr as [|o o1 o2 H1 _ IH]; [done|]. intros Hi. by apply IH, (timeout_step_inv o).
Qed.

(** Whatever earlier deadlines did, and however late their callbacks run, the context
    start returns is done only when the subscriber's own context is. *)
Theorem start_is_live o o' : reachable o -> start o = Some o' -> Done o'.(ctx) o' = o.(parent_done).
Proof.
  intros Hi%timeout_inv Hs. unfold start in Hs. destruct (at_ o) eqn:Ha; try done. injection Hs as <-.
  unfold Done. cbn. rewrite bool_decide_false; [by rewrite orb_false_r|]. apply (i_fresh _ Hi); [by rewrite Ha|].
  by rewrite (i_idle _ Hi) by by rewrite Ha.
Qed.

(** While an open is guarded its context is cancelled by its own deadline only, and then
    done reports that it timed out, and never before the deadline. *)
Theorem cancelled_is_timeout o : reachable o -> o.(at_) = Opening -> o.(ctx) ∈ o.(cancelled) ->
  exists o', done_ o = Some (true, o').
Proof.
  intros Hi%timeout_inv Ha Hc. unfold done_. rewrite Ha. destruct (the_timer o) as [|t|] eqn:Ht; cbn; [|exfalso|eauto].
  - exfalso. by apply (i_opening _ Hi) in Ha.
  - by destruct (i_fresh _ Hi) as [Hn _]; [by rewrite Ha|by rewrite Ht|].
Qed.

(** No context is leaked: each one arm replaced is cancelled, or about to be, and the
    last one is when it is released. *)
Theorem contexts_released o c : reachable o -> o.(at_) = Released -> (c <= o.(ctx))%nat -> c ∈ o.(cancelled) \/ c ∈ o.(callbacks).
Proof.
  intros Hi%timeout_inv Ha Hc. destruct (decide (c = ctx o)) as [->|]; [left; by apply (i_released _ Hi)|apply (i_old _ Hi); lia].
Qed.

(** Nor is one cancelled early: an expired timer had its full time. *)
Theorem deadline_kept o t o' : o.(the_timer) = TPending t -> expire o = Some o' -> t <= o'.(now).
Proof. unfold expire. intros -> He. case_match; [|done]. injection He as <-. cbn. lia. Qed.

(** An open that is stalled past its deadline, whose callback runs late, during the next
    open: the next one's context is another, and live. *)
Example late_callback :
  (fun o => (o.(ctx), Done o.(ctx) o, elements o.(cancelled))) <$>
    foldl (fun o l => o ≫= step l) (Some (newOpenTimeout false 0))
      [LStart; LPass (40 * Millisecond); LExpire; LDone; LStart; LCallback 0] = Some (1%nat, false, [0%nat]).
Proof. vm_compute. reflexivity. Qed.
