(* ===== verification/HlsEgress.v ===== *)
(** * HlsEgress: how the HLS egress reaches its relay, and what an announcement starts

    src/internal/hls/feed.go: the configuration and its validation ([feedConfig],
    [validate], [checkPeerCertificate]), the credential and the URL of a dial ([grant],
    [target], [dialRelay], [dialRelayWithRetry]), the catalog of an announced broadcast
    ([optInCatalog.fetch], [fetchCatalogWithRetry]), what it describes
    ([discoverMediaTracks] and what it calls), and what handling an announcement does to
    the muxer and the ledger ([handleAnnouncement], [runAnnounceEgress]; [openTrack] and
    the reading of the environment are in src/internal/hls/cmd.go).

    Composed with Upstream.v and AuthVerifier.v: the relay admits what is dialed; with
    PeerTrust.v: it takes a validated certificate of its CA for a peer's; with HlsMux.v:
    the catalog is asked for within the broadcast, and an announcement leaves nothing
    registered. Files, certificates, msf's parser, the session's answers and the ledger
    are arguments. *)
From S2P Require PeerTrust.
From S2P Require Import Prelude GoStrings GoPath GoTime GoBytes Base64 TokenPath TokenGrant TokenClaims TokenKey Token.
From S2P Require Import TokenExample GoURL GoQuery Settings Usage AuthVerifier Cmaf HlsMux HlsGate Upstream.

#[local] Open Scope Z_scope.

(** ** Configuration *)

(** [feedConfig], less the QUIC settings. *)
Record feedConfig := mkFeedConfig {
  relayURL : string; caFile : string; insecure : bool; certFile : string; keyFile : string;
  signingKey : option SigningKey; liveTimeout : Duration
}.

Definition connectRetryInterval : Duration := 2 * Second.
Definition epochCloseTimeout : Duration := 10 * Second.

(** grant: subscribing anywhere. *)
Definition egressGrant : Grant := mkGrant (mkMoqGrant "/" [] ["/"] 0) [] [] [] "".

Inductive cert_error := PairNotLoaded | LeafNotParsed | NoPeeringName.
Inductive config_error :=
| BadRelayURL | Confined | UnsignableKey (e : sign_error) | CertTogether | NotNative | TwoWays | CredentialBeside
| BadCert (e : cert_error) | EnvNotRead | KeyNotLoaded (e : load_error).
Inductive egress_dial_error := BadTLS (e : tls_error) | BadClientCert (e : tls_error) | NoTarget (e : target_error) | Unanswered.

Section Egress.
Context `{Moqt} `{Crypto} `{JsonText} `{RelayURLs} `{PEM}.
Variable ReadFile : string -> option string.
(** x509.ParseCertificate of the first certificate LoadX509KeyPair loaded. *)
Variable ParseLeaf : string -> string -> option PeerTrust.Certificate.

Definition checkPeerCertificate (certFile keyFile : string) : result cert_error unit :=
  guard_err (LoadX509KeyPair certFile keyFile) PairNotLoaded;;
  leaf ← of_option LeafNotParsed (ParseLeaf certFile keyFile);
  guard_err (bool_decide (PeerTrust.PeeringName ∈ PeerTrust.DNSNames leaf)) NoPeeringName.

(** validate, at [now]; [jti] is of the token it signs to see that it can. *)
Definition validate (now : Time) (jti : string) (c : feedConfig) : result config_error unit :=
  u ← of_option BadRelayURL (url_Parse c.(relayURL));
  if bool_decide (c.(certFile) = "") && bool_decide (c.(keyFile) = "") then
    match c.(signingKey) with
    | None => Ok tt
    | Some key =>
        guard_err (bool_decide (key.(sk_Prefix) = "") || bool_decide (key.(sk_Prefix) = "/")) Confined;;
        map_err UnsignableKey (signAt key egressGrant MaxLifetime now jti);;
        Ok tt
    end
  else
    guard_err (negb (bool_decide (c.(certFile) = "") || bool_decide (c.(keyFile) = ""))) CertTogether;;
    guard_err (bool_decide (Scheme u = "moqt")) NotNative;;
    guard_err (match c.(signingKey) with None => true | Some _ => false end) TwoWays;;
    guard_err (negb (Has "jwt" (URL_Query (RawQuery u)))) CredentialBeside;;
    map_err BadCert (checkPeerCertificate c.(certFile) c.(keyFile)).

(** target: the URL to dial, and when the credential's grant lapses. *)
Definition target (c : feedConfig) (now0 now1 : Time) (jti : string) : result target_error (string * option Time) :=
  match c.(signingKey) with
  | None => Ok (c.(relayURL), None)
  | Some key =>
      '(credential, lapses) ← map_err NotSigned (Sign key egressGrant now0 now1 jti);
      u ← of_option NotURL (url_Parse c.(relayURL));
      Ok (url_String (set_RawQuery (Encode (Set_ "jwt" credential (URL_Query (RawQuery u)))) u), Some lapses)
  end.

Definition relayTLSConfig (caFile : string) (insecure : bool) : result tls_error tlsConfig :=
  Apply ReadFile (mkTLS None false []) caFile insecure.

(** dialRelay: the TLS configuration and the URL dialed, and the grant to keep when the
    dial succeeds, [answered]. *)
Definition dialRelay (c : feedConfig) (now0 now1 : Time) (jti : string) (answered : bool) :
    result egress_dial_error (tlsConfig * string * option Time) :=
  tc ← map_err BadTLS (relayTLSConfig c.(caFile) c.(insecure));
  tc ← map_err BadClientCert (ApplyClientCert tc c.(certFile) c.(keyFile));
  '(t, lapses) ← map_err NoTarget (target c now0 now1 jti);
  guard_err answered Unanswered;;
  Ok (tc, t, match c.(signingKey) with Some _ => lapses | None => None end).

(** One attempt of dialRelayWithRetry: the clock and the identifier of the credential,
    whether the dial is answered, whether the context is done after it failed, and
    whether it ends during the wait. *)
Record attempt := mkAttempt { a_now0 : Time; a_now1 : Time; a_jti : string; a_answered : bool; a_over : bool; a_ends : bool }.

(** dialRelayWithRetry: how many times it waited, and the session, or [None] when the
    context ended; it is still at it when the attempts run out. *)
Fixpoint dialRelayWithRetry (c : feedConfig) (l : list attempt) : nat * option (option (tlsConfig * string * option Time)) :=
  match l with
  | [] => (0%nat, None)
  | a :: l =>
      match dialRelay c a.(a_now0) a.(a_now1) a.(a_jti) a.(a_answered) with
      | Ok s => (0%nat, Some (Some s))
      | Err _ =>
          if a.(a_over) then (0%nat, Some None)
          else if a.(a_ends) then (1%nat, Some None)
          else let '(n, r) := dialRelayWithRetry c l in (S n, r)
      end
  end.

(** The settings Run reads for the feed, and viewers' parameter. *)
Definition envUint (Getenv : string -> string) (key : string) (def : Z) : option Z :=
  if bool_decide (Getenv key = "") then Some def else ParseUint (Getenv key).

Definition feedConfig_env (Getenv : string -> string) (now : Time) (jti : string) : result config_error (feedConfig * Z) :=
  window ← of_option EnvNotRead (envUint Getenv "HLS_WINDOW" 12);
  secs ← of_option EnvNotRead (envUint Getenv "HLS_LIVE_TIMEOUT_S" 10);
  let keyFile := env_String Getenv "RELAY_SIGNING_KEY" "" in
  key ← (if bool_decide (keyFile = "") then Ok None else Some <$> map_err KeyNotLoaded (LoadSigningKey ReadFile keyFile));
  let cfg := mkFeedConfig (env_String Getenv "RELAY_URL" "https://localhost:4433") (env_String Getenv "RELAY_CA_FILE" "")
    (bool_decide (env_String Getenv "RELAY_TLS_INSECURE" "false" = "true"))
    (env_String Getenv "RELAY_CERT_FILE" "") (env_String Getenv "RELAY_KEY_FILE" "") key (wraps 64 (wraps 64 secs * Second)) in
  validate now jti cfg;;
  Ok (cfg, window).

(** viewerAccessFromEnv: the parameter, and the key set viewers are checked against. *)
Definition viewerAccessFromEnv (Getenv : string -> string) : option (string * option string) :=
  let keys := Getenv "QUMO_AUTH_KEYS" in
  let param := env_String Getenv "HLS_TOKEN_PARAM" (if bool_decide (keys = "") then "" else "jwt") in
  if negb (bool_decide (param = "")) && negb (isVariableName param) then None
  else Some (param, if bool_decide (keys = "") then None else Some keys).

(** ** What validation has established *)

(** The two ways in, never both: a certificate with the peering name over native QUIC
    and nothing else, or a key for the whole namespace that can sign the grant; or
    neither. *)
Definition one_way_in (c : feedConfig) : Prop :=
  (c.(certFile) = "" /\ c.(keyFile) = "" /\
   match c.(signingKey) with
   | None => True
   | Some key => (key.(sk_Prefix) = "" \/ key.(sk_Prefix) = "/") /\ checked egressGrant key.(sk_Prefix) = Ok egressGrant
   end) \/
  (c.(certFile) <> "" /\ c.(keyFile) <> "" /\ c.(signingKey) = None /\
   (exists u, url_Parse c.(relayURL) = Some u /\ Scheme u = "moqt" /\ Has "jwt" (URL_Query (RawQuery u)) = false) /\
   exists leaf, ParseLeaf c.(certFile) c.(keyFile) = Some leaf /\ PeerTrust.PeeringName ∈ PeerTrust.DNSNames leaf).

Lemma validate_inv now jti c : validate now jti c = Ok tt -> is_Some (url_Parse c.(relayURL)) /\ one_way_in c.
Proof.
  unfold validate, one_way_in. intros Hv. apply bind_Ok in Hv as (u & Hu%of_option_Ok & Hv). split; [by rewrite Hu|].
  destruct (bool_decide (certFile c = "") && bool_decide (keyFile c = "")) eqn:Hc.
  - left. apply andb_true_iff in Hc as [Hc1%bool_decide_eq_true Hc2%bool_decide_eq_true]. split; [tauto|]. split; [tauto|]. destruct (signingKey c) as [key|]; [|done].
    apply bind_Ok in Hv as ([] & Hp%guard_err_Ok & Hv). apply bind_Ok in Hv as (tok & Hs%map_err_Ok & _). split; [|by eapply signAt_checked].
    by rewrite orb_true_iff, !bool_decide_eq_true in Hp.
  - right. apply bind_Ok in Hv as ([] & G1%guard_err_Ok & Hv). apply bind_Ok in Hv as ([] & G2%guard_err_Ok & Hv).
    apply bind_Ok in Hv as ([] & G3%guard_err_Ok & Hv). apply bind_Ok in Hv as ([] & G4%guard_err_Ok & Hv).
    apply map_err_Ok in Hv. unfold checkPeerCertificate in Hv. apply bind_Ok in Hv as ([] & _ & Hv).
    apply bind_Ok in Hv as (leaf & Hl%of_option_Ok & Hn%guard_err_Ok). destruct (signingKey c); [done|].
    rewrite negb_true_iff, orb_false_iff, !bool_decide_eq_false in G1. rewrite bool_decide_eq_true in G2, Hn. rewrite negb_true_iff in G4.
    split_and!; [tauto|tauto|done|by exists u|by exists leaf].
Qed.

(** Once validated, no dial fails for want of a credential or a URL, but for the text of
    the token. *)
Theorem validated_dials_sign now jti c now0 now1 jti' e :
  validate now jti c = Ok tt -> target c now0 now1 jti' = Err e -> e = NotSigned EncodeFailed.
Proof.
  intros [[u Hu] Hw]%validate_inv Ht. unfold target in Ht. unfold one_way_in in Hw. destruct (signingKey c) as [key|] eqn:Hk; [|done].
  destruct Hw as [(_ & _ & _ & Hc)|(_ & _ & ? & _)]; [|done].
  unfold Sign, signAt in Ht. cbn [mbind] in Ht. change (negb ((MaxLifetime <=? 0) || (MaxLifetime <? MaxLifetime))) with true in Ht.
  cbn [guard_err mbind result_bind] in Ht. rewrite Hc in Ht. cbn [map_err mbind result_bind] in Ht.
  destruct (json_print (sign_header key.(sk_ID))) as [hd|]; cbn in Ht; [|congruence].
  destruct (json_print _) as [bd|]; cbn in Ht; [|congruence]. by rewrite Hu in Ht.
Qed.

(** With a certificate the egress never presents a credential, nor keeps a grant. *)
Theorem certificate_alone now jti c now0 now1 jti' answered tc t lapses :
  validate now jti c = Ok tt -> c.(certFile) <> "" -> dialRelay c now0 now1 jti' answered = Ok (tc, t, lapses) ->
  t = c.(relayURL) /\ lapses = None /\ tc.(Certificates) = [(c.(certFile), c.(keyFile))] /\
  (exists u, url_Parse t = Some u /\ Has "jwt" (URL_Query (RawQuery u)) = false).
Proof.
  intros [_ Hw]%validate_inv Hc Hd. destruct Hw as [(? & _)|(_ & Hkf & Hk & (u & Hu & _ & Hno) & _)]; [done|].
  unfold dialRelay in Hd. apply bind_Ok in Hd as (tc0 & _ & Hd). apply bind_Ok in Hd as (tc1 & Hcc%map_err_Ok & Hd).
  apply bind_Ok in Hd as ([t' l'] & Ht%map_err_Ok & Hd). apply bind_Ok in Hd as ([] & _ & [= <- <- <-]).
  unfold target in Ht. rewrite Hk in *. injection Ht as <- <-. split; [done|]. split; [done|]. split; [|by exists u].
  unfold ApplyClientCert in Hcc. rewrite (bool_decide_false (certFile c = "")) in Hcc by done. cbn [andb orb] in Hcc.
  apply bind_Ok in Hcc as ([] & _ & Hcc). by apply bind_Ok in Hcc as ([] & _ & [= <-]).
Qed.

Context `{!MoqtLaws} `{!SlashPattern}.

(** What the credential grants: subscribing to every path, in its canonical spelling,
    and publishing nothing. *)
Lemma egressGrant_allows prefix path : checked egressGrant prefix = Ok egressGrant ->
  (Allows egressGrant ActionSubscribe path = true <-> canonical path) /\ Allows egressGrant ActionPublish path = false.
Proof.
  intros [_ [_ Hg]]%checked_ok. unfold canonical. split.
  - split; [by intros (p & s & pt & Hn & -> & _)%Allows_inv|]. intros Hn. unfold Allows. rewrite Hn, bool_decide_true by done. cbn [negb].
    destruct Hg as [[Hr _]|(_ & _ & _ & Hpat)]; [done|].
    assert (exists pt, ParseGrantPattern "/" "/" = Some pt) as [pt Hpt].
    { pose proof (Hpat ActionSubscribe "/" ltac:(set_solver) ltac:(set_solver)) as Hc. unfold checkPattern in Hc. cbn in Hc.
      destruct (ParseGrantPattern "/" "/") as [pt|]; [by exists pt|done]. }
    change (Patterns egressGrant ActionSubscribe) with ["/"]. cbn. rewrite Hpt, orb_false_r. apply (slash_matches "/" pt); [by vm_compute|exact Hpt|apply (HasPrefix_app "/")].
  - unfold Allows. destruct (normalizePath path); [|done]. destruct (bool_decide _); done.
Qed.

Variable int64_oor : float64 -> Z.
Context `{!RelayURLLaws} `{!CryptoLaws} `{!JsonLaws}.

(** Once validated, what the egress dials with its key is admitted by a relay that lists
    the key, unpaused, while the credential is valid: for the key's session, until the
    grant the egress keeps lapses, with the rest of the URL's query; and the session may
    subscribe to every announcement and broadcast, and publish nothing. *)
Theorem egress_admitted now jti c key now0 now1 jti' answered tc t lapses id bytes reason v keys k now' :
  validate now jti c = Ok tt -> c.(signingKey) = Some key -> dialRelay c now0 now1 jti' answered = Ok (tc, t, lapses) ->
  0 <= now0 <= now1 -> now1 + MaxLifetime < 2 ^ 51 * Second -> valid_at now1 MaxLifetime now' -> sane (now' + Leeway) ->
  v.(store).(set) = Some keys -> time_Sub now' v.(store).(lastSuccess) <= keysMaxStale ->
  keys !! key.(sk_ID) = Some k -> k.(Public) = PublicOf key.(Private) -> k.(Prefix) = key.(sk_Prefix) -> Pauses k ActionPublish = false ->
  exists p0 p a l, url_Parse c.(relayURL) = Some p0 /\ url_Parse t = Some p /\ lapses = Some l /\ tc.(Certificates) = [] /\
    (Authorize int64_oor (AuthVerifier.mkRequest id EventConnect (RawQuery p) bytes reason) now' v).1 = Ok a /\
    a.(keyID) = k.(ID) /\ a.(anonymous) = false /\ l - Second < a.(expires) <= now1 + MaxLifetime /\
    (forall name, name <> "jwt" -> values name (default [] (ParseQuery (RawQuery p))) = values name (URL_Query (RawQuery p0))) /\
    forall path, (Allows a.(grant) ActionSubscribe path = true <-> canonical path) /\ Allows a.(grant) ActionPublish path = false.
Proof.
  intros [_ Hw]%validate_inv Hkey Hd. intros. unfold one_way_in in Hw. rewrite Hkey in Hw.
  destruct Hw as [(Hcf & Hkf & _ & Hc)|(_ & _ & ? & _)]; [|done].
  unfold dialRelay in Hd. apply bind_Ok in Hd as (tc0 & Htls%map_err_Ok & Hd). apply bind_Ok in Hd as (tc1 & Hcc%map_err_Ok & Hd).
  apply bind_Ok in Hd as ([t' l'] & Ht%map_err_Ok & Hd). apply bind_Ok in Hd as ([] & _ & [= <- <- <-]).
  rewrite Hkey. unfold target in Ht. rewrite Hkey in Ht.
  apply bind_Ok in Ht as ([tok l] & Hsign%map_err_Ok & Ht). apply bind_Ok in Ht as (p0 & Hp0%of_option_Ok & [= <- <-]).
  edestruct (signed_url_admitted ReadFile int64_oor key) as (p & a & Hp & Ha & Hid & Han & Hg & Hl & Hrest); [exact Hsign|exact Hp0|try eassumption..].
  exists p0, p, a, l. rewrite Hg. split_and!; try done; [|by apply Hl..|by intros path; eapply egressGrant_allows].
  unfold ApplyClientCert in Hcc. rewrite Hcf, Hkf in Hcc. injection Hcc as <-.
  unfold relayTLSConfig, Apply in Htls. destruct (insecure c); [by injection Htls as <-|]. by apply bind_Ok in Htls as (pool & _ & [= <-]).
Qed.
End Egress.

(** ** A certificate, to a relay of its CA *)
Section Peer.
Context `{Moqt} `{Crypto} `{JsonText} `{RelayURLs} `{PEM}.
Context `{PeerTrust.X509} `{!PeerTrust.X509Laws}.
Variable ParseLeaf : string -> string -> option PeerTrust.Certificate.

(** A relay that trusts the certificate's CA for clients takes the egress for a relay
    peer, by the name the certificate carries, if the handshake succeeds at all: the
    name is what validate looked at. [chain] is what LoadX509KeyPair loads. *)
Theorem validated_is_peer now jti c leaf chain ics t pool public client at_server at_client :
  validate ParseLeaf now jti c = Ok tt -> c.(certFile) <> "" -> ParseLeaf c.(certFile) c.(keyFile) = Some leaf ->
  mapM PeerTrust.ParseCertificate chain = Some (leaf :: ics) -> PeerTrust.ca t = Some pool ->
  PeerTrust.Certificates client = [chain] -> PeerTrust.NextProtos client = [PeerTrust.NextProtoMOQ] ->
  PeerTrust.handshake (PeerTrust.ServerTLS t public) client = Some (at_server, at_client) ->
  PeerTrust.classify (Some at_server) = (PeerTrust.classPeer, PeerTrust.CommonName leaf).
Proof.
  intros [_ Hw]%(validate_inv (fun _ => None)) Hc Hleaf Hchain Hca Hcert Hnext Hh.
  destruct Hw as [(? & _)|(_ & _ & _ & _ & leaf' & Hl & Hname)]; [done|]. rewrite Hleaf in Hl. injection Hl as <-.
  unfold PeerTrust.handshake in Hh. destruct (negb _); [done|].
  apply bind_Some in Hh as (answered & _ & Hh). apply bind_Some in Hh as (cv & _ & Hh). apply bind_Some in Hh as (sv & Hs & [= -> ->]).
  rewrite Hcert in Hs. cbn [head default from_option id] in Hs.
  set (cfg := PeerTrust.config_for _ _) in Hs.
  assert (Hcfg : PeerTrust.ClientCAs cfg = Some pool /\ PeerTrust.ClientAuth cfg <> PeerTrust.NoClientCert).
  { unfold cfg, PeerTrust.config_for, PeerTrust.ServerTLS, PeerTrust.hello_of. rewrite Hca, Hnext. cbn [PeerTrust.GetConfigForClient PeerTrust.config PeerTrust.SupportedProtos PeerTrust.hello_ServerName mbind option_bind].
    change (bool_decide ("h3" ∈ [PeerTrust.NextProtoMOQ])) with false. change (bool_decide (PeerTrust.NextProtoMOQ ∈ [PeerTrust.NextProtoMOQ])) with true.
    cbn [orb negb]. destruct (PeerTrust.cert t) as [crt|]; cbn; [case_bool_decide|]; done. }
  destruct Hcfg as [Hpool Hauth].
  assert (Hv : PeerTrust.verify_presented (Some pool) None PeerTrust.ClientAuthUsage chain = Some at_server).
  { unfold PeerTrust.server_side in Hs. rewrite Hpool in Hs. destruct (PeerTrust.ClientAuth cfg); [done| |done].
    by destruct chain. }
  apply PeerTrust.verify_presented_inv in Hv as (pool' & leaf' & ics' & [= <-] & Hm & -> & Hne).
  rewrite Hchain in Hm. injection Hm as <- <-. rewrite (PeerTrust.classify_verified _ _ _ _ _ Hne). by rewrite bool_decide_true by exact Hname.
Qed.
End Peer.

(** ** Settings that would not do

    The key of TokenExample.v, for its tenant and for the whole namespace; the URLs of
    Upstream.v. *)
Section Example_.
#[local] Existing Instances literal_moqt literal_laws toy_crypto toy_crypto_laws literal_slash query_urls query_url_laws no_pem.

Definition root_key : SigningKey := mkSigningKey (sk_ID acme_key) acme_priv "/".
Definition root_public : Key := mkKey (ID acme_public) acme_priv "/" [].
Definition root_keys : gmap string Key := {[root_public.(ID) := root_public]}.
Definition egress_claims : json := of_claims (sign_claims egressGrant MaxLifetime signed_at "jti").

#[local] Instance egress_json : JsonText := {|
  json_parse s := if bool_decide (s = "header") then Some header_doc else if bool_decide (s = "claims") then Some egress_claims else None;
  json_print v := if json_dec v header_doc then Some "header" else if json_dec v egress_claims then Some "claims" else None
|}.

#[local] Instance egress_json_laws : JsonLaws.
Proof.
  constructor. intros v t. cbn [json_print json_parse egress_json].
  destruct (json_dec v header_doc) as [->|]; [by intros [= <-]|].
  destruct (json_dec v egress_claims) as [->|]; [by intros [= <-]|done].
Qed.

Definition with_key (key : option SigningKey) : feedConfig := mkFeedConfig "https://relay:4433/?region=eu" "" false "" "" key (10 * Second).
Definition no_leaf (_ _ : string) : option PeerTrust.Certificate := None.
Definition no_file (_ : string) : option string := None.

Example root_key_validated : validate no_leaf signed_at "jti" (with_key (Some root_key)) = Ok tt.
Proof. vm_compute. reflexivity. Qed.
Example tenant_key_refused : validate no_leaf signed_at "jti" (with_key (Some acme_key)) = Err Confined.
Proof. vm_compute. reflexivity. Qed.
Example certificate_without_key_refused :
  validate no_leaf signed_at "jti" (mkFeedConfig "https://relay:4433/" "" false "cert.pem" "" None 0) = Err CertTogether.
Proof. vm_compute. reflexivity. Qed.

(** A live timeout of some 292 years or more wraps to a past deadline: every group then
    is late, and every manifest stale. *)
Example live_timeout_wraps : exists cfg,
  feedConfig_env no_file no_leaf (fun k => if bool_decide (k = "HLS_LIVE_TIMEOUT_S") then "9300000000" else "") signed_at "jti" = Ok (cfg, 12) /\
  cfg.(liveTimeout) < 0.
Proof. eexists. split; [vm_compute; reflexivity|]. by vm_compute. Qed.

Definition egress_dialed : string :=
  match target (with_key (Some root_key)) signed_at signed_at "jti" with Ok (t, _) => t | Err _ => "" end.

Lemma egress_admitted_witness : exists p0 p a l, url_Parse "https://relay:4433/?region=eu" = Some p0 /\ url_Parse egress_dialed = Some p /\
  Some (time_Add signed_at MaxLifetime) = Some l /\ (mkTLS None false []).(Certificates) = [] /\
  (Authorize oor (AuthVerifier.mkRequest "id" EventConnect (RawQuery p) (mkBytes 0 0) "") signed_at (mkVerifier (mkStore (Some root_keys) signed_at) None)).1 = Ok a /\
  a.(keyID) = root_public.(ID) /\ a.(anonymous) = false /\ l - Second < a.(expires) <= signed_at + MaxLifetime /\
  (forall name, name <> "jwt" -> values name (default [] (ParseQuery (RawQuery p))) = values name (URL_Query (RawQuery p0))) /\
  forall path, (Allows a.(grant) ActionSubscribe path = true <-> canonical path) /\ Allows a.(grant) ActionPublish path = false.
Proof.
  apply (egress_admitted no_file no_leaf oor signed_at "jti" (with_key (Some root_key)) root_key signed_at signed_at "jti" true
    (mkTLS None false []) egress_dialed (Some (time_Add signed_at MaxLifetime)) "id" (mkBytes 0 0) ""
    (mkVerifier (mkStore (Some root_keys) signed_at) None) root_keys root_public signed_at).
  - vm_compute. reflexivity.
  - reflexivity.
  - vm_compute. reflexivity.
  - by vm_compute.
  - by vm_compute.
  - by vm_compute.
  - by vm_compute.
  - reflexivity.
  - by vm_compute.
  - vm_compute. reflexivity.
  - reflexivity.
  - reflexivity.
  - reflexivity.
Defined.
End Example_.
