(* ===== verification/HlsCatalog.v ===== *)
(** * HlsCatalog: what an announcement starts in the egress

    src/internal/hls/feed.go: the catalog of an announced broadcast
    ([optInCatalog.fetch], [fetchCatalogWithRetry], [drainRaw]), the media it describes
    ([discoverMediaTracks], [packagerForTrack], [initFromTrack], [newMediaInfo]), what
    handling an announcement does to the gate, the muxer and the ledger
    ([handleAnnouncement]; [openTrack] is in src/internal/hls/cmd.go) and the loop over
    sessions ([runAnnounceEgress], [sessionRefusal]).

    Composed with HlsMux.v: the catalog is asked for within the broadcast however often
    it is retried, and an announcement that is over leaves nothing mounted. The session's
    answers, msf's parser and the ledger's are arguments. *)
From S2P Require Import Prelude GoStrings TokenPath GoPath GoTime GoBytes Base64 Cmaf HlsMux HlsGate HlsEgress.

#[local] Open Scope Z_scope.

(** ** The catalog *)

(** The fields of msf's catalog the egress reads; numbers are pointers there. *)
Record Track := mkTrack {
  t_Name : string; t_Role : string; t_Codec : string; MimeType : string; InitRef : string;
  t_Width : option Z; t_Height : option Z; t_Bitrate : option Z; AvgBitrate : option Z
}.
Record Catalog := mkCatalog { Tracks : list Track; InitDataList : list (string * string) }.

Section Catalog_.
Variable DefaultCatalogTrackName : string.
Variable ParseCatalog : string -> option Catalog.

(** What a fetch is answered: the subscriptions, the frames of the first group unless it
    or one of them could not be read, and, for a retry, whether the context is over
    after it and whether it ends during the wait. *)
Record fetched := mkFetched { f_session : string -> string -> sub_answer; f_group : option (list string); f_over : bool; f_ends : bool }.

Inductive fetch_error := SubscribeFailed (e : sub_error) | GroupNotRead | NotACatalog | ContextDone.

(** drainRaw: the frames one after another. *)
Definition drainRaw (frames : list string) : string := foldr String.append "" frames.

(** fetch: the state it leaves, the tracks it asked for, the catalog and its source. *)
Definition fetch (c : optInCatalog) (i : fetched) : optInCatalog * list (string * string) * result fetch_error (Catalog * string) :=
  let '(c, asked, r) := opt_in_subscribe DefaultCatalogTrackName i.(f_session) c in
  (c, asked,
   source ← map_err SubscribeFailed r;
   frames ← of_option GroupNotRead i.(f_group);
   catalog ← of_option NotACatalog (ParseCatalog (drainRaw frames));
   Ok (catalog, source)).

(** fetchCatalogWithRetry: ten fetches 200 ms apart, [n] of them left, then a last one;
    the [i]th is answered [ins i]. It gives the tracks asked for by each. *)
Fixpoint fetch_retry (n i : nat) (ins : nat -> fetched) (c : optInCatalog) : list (list (string * string)) * result fetch_error (Catalog * string) :=
  let '(c, asked, r) := fetch c (ins i) in
  match n with
  | O => ([asked], r)
  | S n =>
      match r with
      | Ok _ | Err (SubscribeFailed NotRetryable) => ([asked], r)
      | Err _ =>
          if (ins i).(f_over) || (ins i).(f_ends) then ([asked], Err ContextDone)
          else let '(more, r) := fetch_retry n (S i) ins c in (asked :: more, r)
      end
  end.

Definition fetchCatalogWithRetry (ins : nat -> fetched) (optIn broadcast : string) : list (list (string * string)) * result fetch_error (Catalog * string) :=
  fetch_retry 10 0 ins (mkOptIn optIn broadcast false).

(** ** The media it describes *)

Definition encodingMoQLite05 : string := "moq-lite-05".

(** [schema]: the fields of the ledger's that vary; its timescale is cmaf's. *)
Record mediaInfo := mkMedia {
  m_path : string; m_name : string; m_MIME : string; m_Encoding : string; packager : bytes;
  m_role : string; m_codec : string; m_width : Z; m_height : Z; m_bitrate : Z
}.

Definition initFromTrack (c : Catalog) (t : Track) : bytes :=
  if bool_decide (t.(InitRef) = "") then []
  else
    let data := match List.find (fun d => bool_decide (d.1 = t.(InitRef))) c.(InitDataList) with Some d => d.2 | None => "" end in
    if bool_decide (data = "") then []
    else match DecodeString data with
         | Some b => (fun a => Z.of_N (N_of_ascii a)) <$> String.list_ascii_of_string b
         | None => []
         end.

Inductive media_error := StatesNoSize | NotPackaged (e : cmaf_error).

Definition packagerForTrack `{Mp4} (c : Catalog) (t : Track) : result media_error bytes :=
  match t.(t_Width), t.(t_Height) with
  | Some w, Some h => map_err NotPackaged (NewPackager (mkVideo t.(t_Codec) (wrapu 16 w) (wrapu 16 h) (initFromTrack c t)))
  | _, _ => Err StatesNoSize
  end.

Definition newMediaInfo (path : string) (t : Track) (packager : bytes) : mediaInfo :=
  let dimension o := match o with Some x => wrapu 16 x | None => 0 end in
  let br := match t.(t_Bitrate), t.(AvgBitrate) with Some b, _ => b | None, Some b => b | None, None => 0 end in
  let role := if bool_decide (t.(t_Role) = "") then "video" else t.(t_Role) in
  mkMedia path t.(t_Name) t.(MimeType) encodingMoQLite05 packager role t.(t_Codec) (dimension t.(t_Width)) (dimension t.(t_Height)) br.

Definition discoverMediaTracks `{Mp4} (c : Catalog) (broadcastPath : string) : list mediaInfo :=
  omap (fun t => match packagerForTrack c t with Ok p => Some (newMediaInfo broadcastPath t p) | Err _ => None end) c.(Tracks).

(** ** Handling an announcement *)

(** strings.Trim(s, "/"). *)
Fixpoint drop_slashes (l : list ascii) : list ascii :=
  match l with a :: l' => if bool_decide (a = "/"%char) then drop_slashes l' else l | [] => [] end.
Definition Trim_slashes (s : string) : string :=
  String.string_of_list_ascii (rev (drop_slashes (rev (drop_slashes (String.list_ascii_of_string s))))).

Definition ledgerTrackPath (realBroadcast name : string) : string := Trim_slashes realBroadcast +:+ "/" +:+ name.

(** openTrack: the ledger's answer to Create, and to Open: the encoding of the track it
    has. It tells whether a track was adopted. *)
Inductive create_answer := Created | TrackExists | CreateFailed.
Definition openTrack (created : create_answer) (existing : option string) (encoding : string) : option bool :=
  match created with
  | Created => Some false
  | CreateFailed => None
  | TrackExists => got ← existing; if bool_decide (got = encoding) then Some true else None
  end.

(** The ledger's and the stream handler's answers for one track. *)
Record opening := mkOpening { o_created : create_answer; o_existing : option string; o_writer : bool; o_epoch : bool; o_handler : bool }.

Inductive hcall :=
| HAcquire | HRegister (p : string) | HNewEpoch (path : string) (ok : bool) | HAddTrack (path : string) (t : trackInfo)
| HFeed (path : string) | HUnregister | HRelease.

(** The body of the loop over the tracks: its calls, and the track when it is active. *)
Definition mount_track (realBroadcast : string) (m : mediaInfo) (o : opening) : list hcall * option string :=
  let path := ledgerTrackPath realBroadcast m.(m_name) in
  match openTrack o.(o_created) o.(o_existing) m.(m_Encoding) with
  | None => ([], None)
  | Some adopted =>
      if negb o.(o_writer) then ([], None)
      else
        let epoch := if adopted then [HNewEpoch path o.(o_epoch)] else [] in
        if adopted && negb o.(o_epoch) then (epoch, None)
        else if negb o.(o_handler) then (epoch, None)
        else (epoch ++ [HAddTrack path (mkTrackInfo m.(m_name) m.(m_role) m.(m_codec) m.(m_width) m.(m_height) m.(m_bitrate))], Some path)
  end.

(** handleAnnouncement, for the announcement at [annPath]: the catalog fetched, whether
    the gate is acquired before the announcement ends, and each track's answers. The
    feeds run until the announcement ends, and are waited for. *)
Definition handleAnnouncement `{Mp4} (annPath : string) (catalog : result fetch_error (Catalog * string)) (acquired : bool)
    (os : mediaInfo -> opening) : list hcall :=
  let realBroadcast := broadcastPathFromAnnounce annPath announcePrefix in
  match catalog with
  | Err _ => []
  | Ok (c, source) =>
      match discoverMediaTracks c source with
      | [] => []
      | ms =>
          if acquired then
            let mounts := (fun m => mount_track realBroadcast m (os m)) <$> ms in
            [HAcquire; HRegister realBroadcast] ++ concat (fst <$> mounts) ++ (HFeed <$> omap snd mounts) ++ [HUnregister; HRelease]
          else []
      end
  end.

(** sessionRefusal: what is reported when the session was closed, [remote]ly or not. *)
Inductive refusal := AsFailed | SessionRefused | SessionClosed.
Definition sessionRefusal (UnauthorizedSessionErrorCode : Z) (cause : option (bool * Z)) : refusal :=
  match cause with
  | Some (true, code) => if code =? UnauthorizedSessionErrorCode then SessionRefused else SessionClosed
  | _ => AsFailed
  end.

(** ** The loop over sessions *)

(** A session: whether it accepts announcements, those it receives until it or the
    context ends, and whether the context is done at the wait. *)
Record session_in := mkSessionIn { s_accepted : bool; s_anns : list string; s_over : bool }.

Inductive reffect := RConnected | RHandle (annPath : string) | RClose | RPause (d : Duration) | RWaitHandlers.

(** runAnnounceEgress; [None] is dialRelayWithRetry giving up with the context. *)
Fixpoint run_sessions (l : list (option session_in)) : list reffect * bool :=
  match l with
  | [] => ([], false)
  | None :: _ => ([RWaitHandlers], true)
  | Some s :: l =>
      let es := RConnected :: (if s.(s_accepted) then RHandle <$> s.(s_anns) else []) ++ [RClose] in
      if s.(s_over) then (es ++ [RWaitHandlers], true)
      else let '(rest, done) := run_sessions l in (es ++ RPause connectRetryInterval :: rest, done)
  end.
Definition runAnnounceEgress := run_sessions.
End Catalog_.

(** ** The catalog is asked for within the broadcast *)
Section Confined_.
Variable DefaultCatalogTrackName : string.
Variable ParseCatalog : string -> option Catalog.

Definition confined_to (optIn broadcast : string) (asked : list (string * string)) : Prop :=
  (length asked <= 6)%nat /\ Forall (fun q => q.1 = optIn \/ sameBroadcast q.1 broadcast = true) asked.

Lemma fetch_confined c i c' asked r : fetch DefaultCatalogTrackName ParseCatalog c i = (c', asked, r) ->
  c'.(optIn) = c.(optIn) /\ c'.(broadcast) = c.(broadcast) /\ confined_to c.(optIn) c.(broadcast) asked /\
  forall cat p, r = Ok (cat, p) -> p = c.(optIn) \/ sameBroadcast p c.(broadcast) = true.
Proof.
  unfold fetch. pose proof (redirects_confined DefaultCatalogTrackName (f_session i) c) as Hc.
  destruct (opt_in_subscribe _ _ c) as [[c0 asked0] r0]. destruct Hc as (Ho & Hb & Hl & Hf & Hr). intros [= <- <- <-].
  split_and!; [done..|]. intros cat p (src & Hsrc%map_err_Ok & Hk)%bind_Ok. apply bind_Ok in Hk as (fr & _ & Hk). apply bind_Ok in Hk as (ct & _ & [= -> ->]).
  destruct (Hr _ Hsrc) as [n Hn]. rewrite Forall_forall in Hf. by apply (Hf _ Hn).
Qed.

Lemma retry_confined n i ins c asked r : fetch_retry DefaultCatalogTrackName ParseCatalog n i ins c = (asked, r) ->
  (length asked <= S n)%nat /\ Forall (confined_to c.(optIn) c.(broadcast)) asked /\
  forall cat p, r = Ok (cat, p) -> p = c.(optIn) \/ sameBroadcast p c.(broadcast) = true.
Proof.
  revert i c asked r. induction n as [|n IH]; intros i c asked r; cbn [fetch_retry];
    destruct (fetch _ _ c (ins i)) as [[c' q] r1] eqn:Hf; apply fetch_confined in Hf as (Ho & Hb & Hq & Hr).
  - intros [= <- <-]. split; [done|]. split; [by apply Forall_singleton|done].
  - assert (forall r', (r' = r1 \/ r' = Err ContextDone) -> ([q], r') = (asked, r) ->
      (length asked <= S (S n))%nat /\ Forall (confined_to c.(optIn) c.(broadcast)) asked /\
      forall cat p, r = Ok (cat, p) -> p = c.(optIn) \/ sameBroadcast p c.(broadcast) = true) as Hend.
    { intros r' Hor [= <- <-]. split; [cbn; lia|]. split; [by apply Forall_singleton|]. destruct Hor as [->| ->]; [done|by intros]. }
    destruct (fetch_retry _ _ n (S i) ins c') as [more r2] eqn:Hm.
    assert (([q], Err ContextDone) = (asked, r) \/ ([q], r1) = (asked, r) \/ (q :: more, r2) = (asked, r) ->
      (length asked <= S (S n))%nat /\ Forall (confined_to c.(optIn) c.(broadcast)) asked /\
      forall cat p, r = Ok (cat, p) -> p = c.(optIn) \/ sameBroadcast p c.(broadcast) = true) as Hall.
    { intros [He|[He|[= <- <-]]]; [eapply Hend; [|exact He]; auto..|].
      apply IH in Hm as (H1 & H2 & H3). rewrite Ho, Hb in *. split; [cbn; lia|]. split; [by constructor|done]. }
    intros He. apply Hall. destruct r1 as [x|e]; [by right; left|]. destruct (f_over (ins i) || f_ends (ins i)) eqn:Hov; destruct e as [[]| | |]; auto.
Qed.

(** However the relay and the publishers answer, and however often the catalog is
    fetched again, the egress asks, in eleven fetches at most, for nothing but the
    opt-in's path and paths of the broadcast it names, and its media are then read at
    such a path. *)
Theorem catalog_within_broadcast ins optIn broadcast asked r :
  fetchCatalogWithRetry DefaultCatalogTrackName ParseCatalog ins optIn broadcast = (asked, r) ->
  (length asked <= 11)%nat /\ Forall (confined_to optIn broadcast) asked /\
  forall cat p, r = Ok (cat, p) -> p = optIn \/ sameBroadcast p broadcast = true.
Proof. apply retry_confined. Qed.
End Confined_.

(** ** The media have a size *)

Lemma NewPackager_size `{Mp4} cfg p : NewPackager cfg = Ok p -> VWidth cfg <> 0 /\ VHeight cfg <> 0.
Proof. unfold NewPackager. intros ([] & Hg%guard_err_Ok & _)%bind_Ok. rewrite negb_true_iff, orb_false_iff, !Z.eqb_neq in Hg. exact Hg. Qed.

(** Every track that is fed is one of the catalog's, at the source, with a packager made
    for it and a picture size the packager took, whatever the catalog says. *)
Theorem media_described `{Mp4} c path m : m ∈ discoverMediaTracks c path ->
  exists t, t ∈ c.(Tracks) /\ m.(m_name) = t.(t_Name) /\ m.(m_path) = path /\ m.(m_codec) = t.(t_Codec) /\
    packagerForTrack c t = Ok m.(packager) /\ 0 < m.(m_width) < 2 ^ 16 /\ 0 < m.(m_height) < 2 ^ 16 /\ m.(m_role) <> "".
Proof.
  intros (t & Ht & Hm)%list_elem_of_omap. exists t. destruct (packagerForTrack c t) as [p|] eqn:Hp; [|done]. injection Hm as <-.
  assert (0 < (newMediaInfo path t p).(m_width) < 2 ^ 16 /\ 0 < (newMediaInfo path t p).(m_height) < 2 ^ 16) as [Hw Hh].
  { unfold packagerForTrack in Hp. unfold newMediaInfo. cbn [m_width m_height].
    destruct (t_Width t) as [w|]; [|done]. destruct (t_Height t) as [h|]; [|done]. apply map_err_Ok, NewPackager_size in Hp as [H1 H2]. cbn in H1, H2.
    pose proof (wrapu_range 16 w ltac:(lia)) as Hw. pose proof (wrapu_range 16 h ltac:(lia)) as Hh. unfold in_u in Hw, Hh. lia. }
  split; [done|]. split; [done|]. split; [done|]. split; [done|]. split; [done|]. split; [exact Hw|]. split; [exact Hh|].
  cbn. by case_bool_decide.
Qed.

(** ** An announcement cleans up after itself *)

(** The calls of a track's mounting are about its ledger track only. *)
Definition of_track (p : string) (c : hcall) : Prop :=
  match c with HNewEpoch q _ | HAddTrack q _ => q = p | _ => False end.

Lemma mount_calls b m o : Forall (of_track (ledgerTrackPath b m.(m_name))) (mount_track b m o).1 /\
  forall p, (mount_track b m o).2 = Some p -> p = ledgerTrackPath b m.(m_name) /\
    (exists t, HAddTrack p t ∈ (mount_track b m o).1) /\
    (openTrack o.(o_created) o.(o_existing) m.(m_Encoding) = Some true -> HNewEpoch p true ∈ (mount_track b m o).1).
Proof.
  unfold mount_track. destruct (openTrack _ _ _) as [adopted|]; [|by split].
  destruct (o_writer o); cbn [negb]; [|by split]. destruct adopted, (o_epoch o), (o_handler o); cbn; (split; [by repeat constructor|]); try done.
  all: intros p [= <-]; split; [done|]; split; [eexists; repeat constructor|intros [=]; repeat constructor].
Qed.

(** Whatever fails on the way, what an announcement registered it unregisters, before it
    lets the next handler of the broadcast go on; nothing is registered without the
    gate; and a track is fed only once it is mounted, an adopted one in an epoch of its
    own. *)
Theorem announcement_cleans_up `{Mp4} annPath catalog acquired os :
  let calls := handleAnnouncement annPath catalog acquired os in
  calls = [] \/ exists mid, calls = [HAcquire; HRegister (broadcastPathFromAnnounce annPath announcePrefix)] ++ mid ++ [HUnregister; HRelease] /\
    acquired = true /\
    Forall (fun c => match c with HAcquire | HRegister _ | HUnregister | HRelease => False | _ => True end) mid /\
    forall p, HFeed p ∈ mid -> exists m t, p = ledgerTrackPath (broadcastPathFromAnnounce annPath announcePrefix) m.(m_name) /\ HAddTrack p t ∈ mid /\
      (openTrack (os m).(o_created) (os m).(o_existing) m.(m_Encoding) = Some true -> HNewEpoch p true ∈ mid).
Proof.
  unfold handleAnnouncement. destruct catalog as [[c source]|e]; [|by left]. set (b := broadcastPathFromAnnounce _ _).
  destruct (discoverMediaTracks c source) as [|m0 ms0]; [by left|]. set (ms := m0 :: ms0). destruct acquired; [|by left]. right.
  set (mounts := (fun m => mount_track b m (os m)) <$> ms). exists (concat (fst <$> mounts) ++ (HFeed <$> omap snd mounts)).
  split; [by rewrite <- app_assoc|]. split; [done|].
  assert (forall x, x ∈ concat (fst <$> mounts) <-> exists m, m ∈ ms /\ x ∈ (mount_track b m (os m)).1) as Hin.
  { intros x. rewrite list_elem_of_In, in_concat. setoid_rewrite <- list_elem_of_In. split.
    - intros (l & (y & -> & (m & -> & Hm)%list_elem_of_fmap)%list_elem_of_fmap & Hx). by exists m.
    - intros (m & Hm & Hx). exists (mount_track b m (os m)).1. split; [|done]. apply list_elem_of_fmap. eexists. split; [done|].
      by apply (list_elem_of_fmap_2 (fun m => mount_track b m (os m))). }
  split.
  - apply Forall_app. split; [|by apply Forall_fmap, Forall_true]. rewrite Forall_forall. intros x (m & _ & Hx)%Hin.
    destruct (mount_calls b m (os m)) as [Hc _]. rewrite Forall_forall in Hc. specialize (Hc _ Hx). by destruct x.
  - intros p [(m & _ & Hx)%Hin|Hx]%elem_of_app.
    { destruct (mount_calls b m (os m)) as [Hc _]. rewrite Forall_forall in Hc. by specialize (Hc _ Hx). }
    apply list_elem_of_fmap in Hx as (q & [= <-] & (y & (m & -> & Hm)%list_elem_of_fmap & Hy)%list_elem_of_omap).
    destruct (mount_calls b m (os m)) as [_ Hc]. destruct (Hc _ Hy) as (-> & (t & Ht) & He). exists m, t. split; [done|].
    split; [apply elem_of_app; left; apply Hin; by exists m|]. intros Ho. apply elem_of_app. left. apply Hin. exists m. split; [done|by apply He].
Qed.

(** Once it has unregistered, no request reaches its entry, whatever other announcements
    of the broadcast do before or after. *)
Theorem ended_announcement_unmounted before after id p :
  (id < length (registered before))%nat -> owner (before ++ OUnregister id :: after) p <> Some id.
Proof.
  intros Hid. unfold owner. rewrite foldl_app. cbn [foldl].
  assert (forall ops s, (id < s.1)%nat -> (id < (foldl (owner_step p) s ops).1)%nat /\
    (s.2 <> Some id -> (foldl (owner_step p) s ops).2 <> Some id)) as Hkeep.
  { intros ops. induction ops as [|o ops IH]; intros s Hs; [done|]. cbn [foldl]. specialize (IH (owner_step p s o)).
    destruct o as [q|j|j t|j n|l at_]; cbn [owner_step] in *; cbn [fst snd] in *; (destruct IH as [H1 H2]; [lia|]); (split; [done|]); intros Hn; apply H2.
    - case_bool_decide; [|done]. intros [= Heq]. lia.
    - by case_bool_decide.
    - done.
    - done.
    - done. }
  assert (length (registered before) = (foldl (owner_step p) (0%nat, None) before).1) as Hcount.
  { clear. unfold registered. assert (forall s, (foldl (owner_step p) s before).1 = (s.1 + length (registered before))%nat) as ->; [|done].
    unfold registered. induction before as [|o before IH]; intros s; cbn [foldl]; [cbn; lia|]. rewrite IH. destruct o; cbn; lia. }
  apply Hkeep; cbn [fst snd owner_step]; [lia|]. by case_bool_decide.
Qed.

(** ** Two broadcasts' ledger tracks *)

Lemma drop_slashes_id a l : a <> "/"%char -> drop_slashes (a :: l) = a :: l.
Proof. intros Ha. cbn. by rewrite bool_decide_false. Qed.

(** The text of a path's segments begins and ends in no slash. *)
Lemma ends_clean l : Forall plain_segment l -> l <> [] ->
  exists a m z m', String.list_ascii_of_string (Join slash l) = a :: m /\ a <> "/"%char /\
    String.list_ascii_of_string (Join slash l) = m' ++ [z] /\ z <> "/"%char.
Proof.
  assert (forall s, clean slash s -> Forall (fun a => a <> "/"%char) (String.list_ascii_of_string s)) as Hcl.
  { unfold clean. intros s. induction s as [|a s IH]; cbn; [constructor|]. intros [Ha Hs]%orb_false_iff. apply bool_decide_eq_false in Ha. constructor; auto. }
  assert (forall s, plain_segment s -> exists a m z m', String.list_ascii_of_string s = a :: m /\ a <> "/"%char /\
    String.list_ascii_of_string s = m' ++ [z] /\ z <> "/"%char) as Hone.
  { intros s (Hs%Hcl & Hne & _). destruct s as [|a s]; [done|]. cbn in *. destruct (exists_last (l := a :: String.list_ascii_of_string s)) as (m' & z & He); [done|].
    exists a, (String.list_ascii_of_string s), z, m'. split; [done|]. rewrite He in *. apply Forall_app in Hs as [Hm [Hz _]%Forall_cons].
    split; [|by split]. destruct m' as [|b m']; [injection He as -> _; done|]. injection He as -> _. by apply Forall_cons in Hm as [? _]. }
  assert (forall s t, String.list_ascii_of_string (s +:+ t) = String.list_ascii_of_string s ++ String.list_ascii_of_string t) as Happ.
  { intros s t. induction s as [|a s IH]; [done|]. rewrite sapp_cons. cbn. by rewrite IH. }
  induction l as [|s l IH]; [done|]. intros [Hs Hl]%Forall_cons _. destruct (decide (l = [])) as [->|Hne]; [by apply Hone|].
  rewrite Join_cons by done. rewrite Happ. destruct (Hone s Hs) as (a & m & _ & _ & -> & Ha & _). destruct (IH Hl Hne) as (_ & _ & z & m' & _ & _ & Hz & Hzz).
  exists a. eexists. exists z. eexists. split; [reflexivity|]. split; [done|]. split; [|done]. cbn. rewrite Hz.
  change (a :: m ++ slash :: m' ++ [z]) with ((a :: m) ++ (slash :: m') ++ [z]). by rewrite app_assoc.
Qed.

Lemma Trim_path_of l : Forall plain_segment l -> l <> [] -> Trim_slashes (path_of l) = Join slash l.
Proof.
  intros Hl Hne. destruct (ends_clean l Hl Hne) as (a & m & z & m' & Ha & Hna & Hz & Hnz). unfold Trim_slashes, path_of.
  change (String.list_ascii_of_string ("/" +:+ Join slash l)) with ("/"%char :: String.list_ascii_of_string (Join slash l)).
  cbn [drop_slashes]. rewrite bool_decide_true by done. rewrite Ha, drop_slashes_id by done. rewrite <- Ha, Hz, rev_app_distr. cbn [rev app].
  rewrite drop_slashes_id by done. cbn [rev]. rewrite rev_involutive, <- Hz. apply String.string_of_list_ascii_of_string.
Qed.

(** Tracks whose names hold no slash have ledger tracks of their own, each broadcast's
    apart from every other's. *)
Theorem ledger_tracks_apart l1 n1 l2 n2 :
  Forall plain_segment l1 -> Forall plain_segment l2 -> l1 <> [] -> l2 <> [] -> clean slash n1 -> clean slash n2 ->
  ledgerTrackPath (path_of l1) n1 = ledgerTrackPath (path_of l2) n2 -> l1 = l2 /\ n1 = n2.
Proof.
  unfold ledgerTrackPath. intros H1 H2 Hn1 Hn2 Hc1 Hc2. rewrite !Trim_path_of by done. intros He.
  assert (forall l n, Forall plain_segment l -> l <> [] -> clean slash n -> Split slash (Join slash l +:+ "/" +:+ n) = l ++ [n]) as Hs.
  { intros l n Hl Hne Hn. change (Join slash l +:+ "/" +:+ n) with (Join slash l +:+ String slash n). rewrite Split_app, Split_Join, Split_clean; try done.
    eapply Forall_impl; [exact Hl|]. by intros s [? _]. }
  apply (f_equal (Split slash)) in He. rewrite !Hs in He by done. by apply app_inj_tail in He.
Qed.

(** A track's name may hold slashes, though: a track of /live and one of /live/cam are
    then stored in one ledger track, and the gate, which is held by broadcast, lets both
    be fed at once. *)
Example ledger_tracks_shared : ledgerTrackPath "/live" "cam/video" = ledgerTrackPath "/live/cam" "video" /\
  exists s, gruns [(0%nat, ATry); (1%nat, ATry)] (gstart {[0%nat := "/live"; 1%nat := "/live/cam"]}) = Some s /\
    forall i, (i < 2)%nat -> exists h c, s.(HlsGate.handlers) !! i = Some h /\ h.(h_pc) = Holding c.
Proof.
  split; [reflexivity|]. eexists. split; [vm_compute; reflexivity|]. intros [|[|i]] Hi; [..|lia]; eexists _, _; split; vm_compute; reflexivity.
Qed.

(** ** One session after another *)

(** In the trace of the loop a session is closed before the next is dialed, which waits;
    announcements are handled in a session only; and before it returns the loop waits for
    every handler. *)
Fixpoint egress_legal (in_session waited : bool) (es : list reffect) : bool :=
  match es with
  | [] => negb in_session
  | RConnected :: es => negb in_session && waited && egress_legal true false es
  | RHandle _ :: es => in_session && egress_legal true false es
  | RClose :: es => in_session && egress_legal false false es
  | RPause d :: es => negb in_session && (d =? connectRetryInterval) && egress_legal false true es
  | RWaitHandlers :: es => negb in_session && match es with [] => true | _ => false end
  end.

Theorem sessions_in_turn l : egress_legal false true (runAnnounceEgress l).1 = true /\
  ((runAnnounceEgress l).2 = true -> last (runAnnounceEgress l).1 = Some RWaitHandlers).
Proof.
  unfold runAnnounceEgress. induction l as [|[s|] l [IH1 IH2]]; [done| |done]. cbn [run_sessions].
  assert (forall anns rest, egress_legal true false ((RHandle <$> anns) ++ [RClose] ++ rest) = egress_legal false false rest) as Hs.
  { intros anns rest. induction anns as [|a anns IHa]; [done|]. exact IHa. }
  assert (forall rest, egress_legal false true ((RConnected :: (if s_accepted s then RHandle <$> s_anns s else []) ++ [RClose]) ++ rest) = egress_legal false false rest) as Hsess.
  { intros rest. cbn [app egress_legal negb andb]. rewrite <- app_assoc. destruct (s_accepted s); [apply Hs|apply (Hs [])]. }
  destruct (s_over s).
  - cbn [fst snd]. rewrite Hsess. split; [done|]. intros _. by rewrite last_snoc.
  - destruct (run_sessions l) as [rest fin]. cbn [fst snd] in *. rewrite Hsess. cbn [egress_legal negb andb]. split; [by rewrite Z.eqb_refl|].
    intros Hf. specialize (IH2 Hf). rewrite last_app. destruct rest as [|r rest]; [done|].
    change (last (RPause connectRetryInterval :: r :: rest)) with (last (r :: rest)). by rewrite IH2.
Qed.
